(* ===== verification/_CoqProject ===== *)
-Q . S2P
Prelude.v
ElfMapping.v
Decode.v
Predecoding.v
Smt.v
SmtBuild.v
Octuplet.v
Accumulator.v
AccInvariant.v
AccProver.v
AccTheorems.v
AccHashing.v
Regex.v
Jobs.v
JobNames.v
Controller.v
ControllerTheorems.v
ControllerShutdown.v
ControllerQueue.v
Ssz.v
SszTheorems.v
SvIntervals.v
SmartVectors.v
SvSpec.v
SvTheorems.v
SvOps.v
SvOpsTheorems.v
SvResults.v
FieldExt.v
Symbolic.v
SymSpec.v
SymTheorems.v
SymConstructors.v
Board.v
BoardTheorems.v
BoardRun.v
BoardVm.v
VmTheorems.v
VmExtTheorems.v
BoardEval.v
SymResults.v
Multisets.v
MultisetTheorems.v
Reduction.v
ReductionTheorems.v
ReductionResults.v
ReductionVars.v
RebuildTheorems.v
BitIo.v
GoState.v
SuffixArray.v
Lzss.v
LzssTheorems.v
LzssWrite.v
LzssState.v
LzssResults.v
PackAlign.v
PackTheorems.v
Compressors.v
HeaderV0.v
TxEncoding.v
RlpCodec.v
BlockData.v
BlockV0.v
BlockV1.v
BlockResults.v
Dictionary.v
BlobMakerV0.v
BlobMakerTheorems.v
BlobMakerResults.v
HeaderV1.v
BlobMakerV1.v
BlobMaker1Theorems.v
Blob.v
BlobResults.v
LibCompressor.v
LibResults.v
