(* ===== verification/Prelude.v ===== *)
(** * Verification of the prover stack of the lineth monorepo

    The repository is a layer-2 network.  Its own core logic in Go is the prover: a
    controller picks proof requests from shared directories and starts provers; the
    execution prover replays the state of the network against the Merkle proofs of its
    state manager; the blob compressor packs blocks into the blobs that are posted on
    layer 1; and the next prover runs a RISC-V guest, whose program and inputs are
    prepared by Go packages.  This library models these parts and proves them correct,
    from the byte formats up to the interleavings of concurrent processes.

    ** Files

    - [Prelude]: the sum [outcome] of the ways a Go call ends (a value, an error, a
      panic) with its monad, machine integers ([u8] .. [u64], [i32], [i64] wrap around
      as Go does), byte orders, and lemmas on lists that several components share.
    - [ElfMapping]: [arithmetization/gopkg/elfmapping], from the sections of a guest ELF
      to the public inputs (blobs, ranges, serialization).
    - [Decode] and [Predecoding]: [arithmetization/gopkg/predecoding], the RISC-V decoder
      and the table of packed 87-bit rows; [Predecoding] calls [ElfMapping].
    - [Smt]: the sparse Merkle tree [prover/crypto/state-management/smt_koalabear] and its
      copies for other fields, generic in the node type and the hash.
    - [SmtBuild]: the parallel builders of complete trees and
      [prover/utils/parallel.Execute]: goroutines as interleaved lists of writes.
    - [Octuplet]: the digests, their order and serialization, and the Poseidon2
      Merkle-Damgard hasher.
    - [Accumulator]: [prover/crypto/state-management/accumulator], the prover and the
      verifier of insertions, deletions, updates and reads, over the interfaces
      [Digest] and [AccHash]; [AccInvariant] (the sorted linked list and its commitment),
      [AccProver] (what the prover's operations do), [AccTheorems] (refinement of a
      finite map, completeness and soundness), [AccHashing] (the hash interface
      implemented by the hasher of [Octuplet]).
    - [Regex]: the regular expressions of the controller, with a matcher proved correct.
    - [Jobs] and [JobNames]: [prover/cmd/controller/controller], files [jobs.go] and
      [job_definition.go]; the interface [FileNaming] says what the names of a kind of
      job promise.
    - [Controller]: [fs_watcher.go], [executor.go] and [controller.go]; the main loop and
      the signal handler of a controller are step relations over the shared files.
      [ControllerTheorems] (safety of any number of controllers),
      [ControllerShutdown] (termination and requeueing), [ControllerQueue] (which
      request is taken, and that the queue empties).
    - [Ssz] and [SszTheorems]: [prover-ray/utils/ssz], the encoders of the guest inputs
      and the decoders that specify them.
    - [SvIntervals], [SmartVectors], [SvSpec], [SvTheorems]:
      [prover/maths/common/smartvectors], the compressed vectors of the prover (constant,
      rotated, windowed, ordinary), what each stands for and the correctness of reading,
      slicing, rotating, padding and compacting them.  [SvOps], [SvOpsTheorems],
      [SvResults]: their arithmetic over any field ([FieldOps], [FieldLaws]).
    - [FieldExt]: [prover/maths/field/fext], the extension of degree four and the
      elements of either field, over the interfaces [ExtOps] and [ExtLaws].
    - [Symbolic]: [prover/symbolic], the expressions, their hashes, the simplifier, the
      constructors and the validation; [SymSpec] (the value of an expression, the
      well-formed expressions), [SymTheorems] and [SymConstructors] (what the simplifier
      and the constructors do).
    - [Board]: the deduplicated graph of an expression and its compiler
      ([expression_board.go], [compiler.go]); [BoardTheorems] (order of the nodes,
      liveness, the allocation of slots), [BoardRun] (programs on any [Machine]).
      [BoardVm]: the virtual machines of both fields and [Evaluate]; [VmTheorems] and
      [VmExtTheorems] (they are [Machine]s), [BoardEval] (chunks and goroutines),
      [SymResults] (the theorems).
    - [Multisets] and [MultisetTheorems]: the iterator of [degree_reduction.go] over the
      products inside of a product, and the enumeration that specifies it.
    - [Reduction]: the rest of [prover/symbolic] (degrees, replaying and rebuilding
      expressions, the degree reduction), with the ordered maps
      [prover/utils/collection.DeterministicMap]; [ReductionTheorems] (substitution),
      [ReductionResults] (the loop, and the values it keeps), [ReductionVars] (which
      variables occur), [RebuildTheorems] (replaying, reconstruction, degrees of boards).
    - [BitIo] (the interface of the third-party bit reader and writer, with an instance)
      and [GoState] (methods that change the object they are called on and can fail or
      panic): shared by the files on blobs, [prover/lib/compressor].
    - [SuffixArray] and [Lzss]: [blob/v0/compress/lzss], the search for the longest match
      and the compressor; [LzssTheorems] and [LzssWrite] (a compressed text is decompressed
      to itself), [LzssState] (the invariant of the compressor), [LzssResults] (the
      theorems).
    - [PackAlign] and [PackTheorems]: packing bytes into field elements ([v0/blob_maker.go]
      and [encode/encode.go]).  [Compressors]: the interface [CompressorOps] with its laws
      [CompressorLaws], all that a blob maker knows of a compressor; [Lzss] implements it.
    - [TxEncoding] ([prover/backend/ethereum/tx_encoding.go], over the interfaces [Rlp] and
      [Geth] of go-ethereum), [RlpCodec] (instances of both), [BlockData], [BlockV0],
      [BlockV1] and [BlockResults]: the encodings of transactions and blocks
      ([encode/encode.go], [v0/encode.go], [v1/encode.go]).
    - [Dictionary]: [blob/dictionary], the store of dictionaries.
    - [HeaderV0], [BlobMakerV0], [BlobMakerTheorems], [BlobMakerResults]: the blobs of
      version 0.  [HeaderV1], [BlobMakerV1], [BlobMaker1Theorems]: those of the versions 1
      and 2.  [Blob] and [BlobResults]: [blob/blob.go], where the versions meet.
    - [LibCompressor] and [LibResults]: the shared libraries [libcompressor] and
      [libdecompressor].

    A definition keeps the name of the Go function it models; helpers stand for loop
    bodies and closures.

    ** What the theorems show

    - Decoder: [classifyInstruction] agrees with a mask/match table of the instruction
      set on every 32-bit word, and operands survive encoding; the predecoded table has
      the row of every executable word at its place, for exactly the programs it
      accepts.
    - ELF mapping: encoding then reading gives the sorted blobs back; it accepts exactly
      the programs whose ranges fit and do not overlap.
    - Trees: every update history represents a function from positions to leaves, proofs
      are complete, and sound for a collision-free hash; the parallel builders give the
      sequential tree under every schedule and number of workers.
    - Accumulator: legal histories never panic and act on a finite map, the verifier
      follows the prover, and a request that the verifier accepts is true of the map
      behind its root.
    - Controllers: whatever the interleaving, the crashes and the signals, requests are
      neither lost nor duplicated and no two controllers work on the same one; a
      shutdown ends; a graceful one leaves no lock behind; the best request is taken
      first and the queue empties.
    - SSZ: a decoder reads back what was encoded, and errors are exactly the overflows.
    - Smart vectors: every operation, in each of its cases and whatever the
      representations, acts on the vectors they stand for; the windows are combined over
      the smallest interval that covers them.  The two rotations that do not go where
      their names say are stated as they are.
    - Symbolic expressions: simplification keeps the value of an expression as long as
      hashes do not collide, and the hash of a compound expression is the one that its
      operands determine; a board is sorted, its program computes the value of the
      expression although slots are reused, and evaluation on vectors of either field
      gives this value at each row under every schedule of the goroutines.
    - Degree reduction: the iterator sees exactly the products within its bounds; the
      reduced expressions have the values of the original ones where the new variables
      have those of the eliminated expressions, which can be computed in order; with a
      limit on the eliminations the loop ends.  Replaying an expression is its value at
      the translated variables.

    - Blobs: decompressing gives what was compressed, whatever was written, reverted and
      bypassed, and no text makes the decompressor panic; the predicted sizes are exact;
      a match that is found is a longest one.  A blob maker accepts and discards blocks so
      that the blob never exceeds its limit, and from the blob come exactly the accepted
      blocks, with their transactions and senders, in each version; asking whether a block
      fits gives the answer of writing it.  Lookups of dictionaries are answered from the
      loaded files; the instances of the shared library do not influence each other.

    Hypotheses on third-party code are named: the laws of the field ([KoalaFieldLaws]),
    injectivity of the hash where soundness needs it (as a hypothesis, or as the
    existence of an explicit collision), the decoders of ELF and JSON texts, the bit
    streams ([BitIoLaws]), RLP and the types of go-ethereum ([RlpLaws], [GethLaws]), the
    lengths of hashes ([DictHashLaws]), the order of suffixes in a suffix array.  Every
    theorem with hypotheses has a witness that applies it to concrete data.

    ** Bounds and fuel

    Recursion is structural.  Where the code loops on a number, the fuel is a bound that
    the loop cannot reach ([decimal] uses the binary logarithm, [remove_all] the length
    of the text, each iteration of which consumes a character), and the lemmas prove
    that it suffices.  The loops of the virtual machines have the length of the program
    as fuel, those that find the size of the chunks the 64 bits of an [int].  The
    iterator over products has as fuel the number of multisets, which is proved to be
    enough; the rounds of the degree reduction are bounded by an argument, and the limit
    on the eliminations is proved to bound them (without a limit nothing is claimed of
    its termination).  The compressor's loop has the bytes that are left as fuel, as each
    step consumes one; the decompressor's one more than the bytes of its input; the loop
    over the blocks of a batch one more than the bytes of the text, which is enough unless
    a block has length 0, where the code does not end ([scan_never_ends]); a lookup in the
    store calls itself once.  Go [int]s are 64-bit integers in [Z] wherever they can overflow;
    slice lengths and levels of trees are [nat].

    ** Not modelled

    Logs, metrics and the parsing of configurations; of the blobs, the construction of
    suffix arrays (copied from Go's library, with its documented result as a parameter),
    the report on compressed streams, copies of blob makers for tests, and the recovery of
    senders and the hashes, which are third-party code; the files of other languages
    (coordinator, contracts, tracer, guests); gnark's circuits and field arithmetic,
    which are third-party code behind parameters; of the symbolic expressions, their
    evaluation in circuits and their JSON form; the protocol compilers, whose
    correctness is the soundness of interactive proofs. *)
From stdpp Require Export base tactics numbers list gmap strings sorting.
From Stdlib Require Export ZArith Lia ZifyNat.

Declare Scope go_scope.
Delimit Scope go_scope with go.
Global Open Scope Z_scope.

(** * Outcomes of Go code

    A Go function that can fail returns a pair of a value and an [error], and
    may also panic.  [outcome E A] is the sum of the three ways a call ends:
    a value, an error value of type [E], or a panic. *)
Inductive outcome (E A : Type) : Type :=
| Ok (a : A)
| Err (e : E)
| Panic.
Arguments Ok {E A} a.
Arguments Err {E A} e.
Arguments Panic {E A}.

#[global] Instance outcome_ret E : MRet (outcome E) := fun A a => Ok a.
#[global] Instance outcome_bind E : MBind (outcome E) := fun A B f m =>
  match m with
  | Ok a => f a
  | Err e => Err e
  | Panic => Panic
  end.
#[global] Instance outcome_fmap E : FMap (outcome E) := fun A B f m =>
  match m with
  | Ok a => Ok (f a)
  | Err e => Err e
  | Panic => Panic
  end.

#[global] Instance outcome_eq_dec E A `{EqDecision E, EqDecision A} :
  EqDecision (outcome E A).
Proof. solve_decision. Defined.

(** [if !b { return err }]. *)
Definition require {E} (b : bool) (e : E) : outcome E unit :=
  if b then Ok tt else Err e.

(** [if !b { panic }]. *)
Definition assert_ {E} (b : bool) : outcome E unit :=
  if b then Ok tt else Panic.

(** The value of an option, a panic when there is none: an index out of range,
    a missing map entry behind a [MustGet]. *)
Definition unwrap {E A} (o : option A) : outcome E A :=
  match o with Some a => Ok a | None => Panic end.

(** A function whose errors the caller turns into a panic ([Must...]). *)
Definition must {E E' A} (m : outcome E A) : outcome E' A :=
  match m with Ok a => Ok a | _ => Panic end.

(** [fmt.Errorf("...: %w", err)]: an error of one type wrapped in another. *)
Definition map_err {E E' A} (f : E -> E') (m : outcome E A) : outcome E' A :=
  match m with Ok a => Ok a | Err e => Err (f e) | Panic => Panic end.

(** A [for range] loop that threads a state and may stop early. *)
Fixpoint foldM {E S A} (f : S -> A -> outcome E S) (s : S) (l : list A) : outcome E S :=
  match l with
  | [] => Ok s
  | x :: l => s' ← f s x; foldM f s' l
  end.

(** A [for range] loop that fills a slice of results. *)
Fixpoint mapM_ {E A B} (f : A -> outcome E B) (l : list A) : outcome E (list B) :=
  match l with
  | [] => Ok []
  | x :: l => y ← f x; ys ← mapM_ f l; Ok (y :: ys)
  end.

(** * Machine integers

    A Go integer of width [w] is a [Z]; the operations that can leave its range
    are followed by the wrap-around of its type. *)
Definition uwrap (w z : Z) : Z := z mod 2 ^ w.
Definition swrap (w z : Z) : Z := (z + 2 ^ (w - 1)) mod 2 ^ w - 2 ^ (w - 1).

Abbreviation u8 := (uwrap 8).
Abbreviation u32 := (uwrap 32).
Abbreviation u64 := (uwrap 64).
Abbreviation i32 := (swrap 32).
Abbreviation i64 := (swrap 64).

Definition is_u (w z : Z) : Prop := 0 <= z < 2 ^ w.
Definition is_i (w z : Z) : Prop := - 2 ^ (w - 1) <= z < 2 ^ (w - 1).
Abbreviation is_byte := (is_u 8).

(** Go's operators on the bits of an integer, next to stdpp's [≪] and [≫]. *)
Infix "&&&" := Z.land (at level 40, left associativity) : go_scope.
Infix "|||" := Z.lor (at level 50, left associativity) : go_scope.
Infix "^^^" := Z.lxor (at level 50, left associativity) : go_scope.
Global Open Scope go_scope.

(** * Byte strings *)

(** [binary.LittleEndian.PutUintN] on [n] bytes. *)
Fixpoint le_bytes (n : nat) (z : Z) : list Z :=
  match n with
  | O => []
  | S n => z mod 256 :: le_bytes n (z / 256)
  end.

(** [binary.LittleEndian.UintN]. *)
Fixpoint le_value (bs : list Z) : Z :=
  match bs with
  | [] => 0
  | b :: bs => b + 256 * le_value bs
  end.

(** The big-endian counterparts. *)
Definition be_bytes (n : nat) (z : Z) : list Z := reverse (le_bytes n z).
Definition be_value (bs : list Z) : Z := le_value (reverse bs).

(** The sub-slice [l[a:b]] for [a <= b <= len(l)]. *)
Definition sub_slice {A} (a b : nat) (l : list A) : list A := take (b - a) (drop a l).

(** [copy(dst[off:], src)] when [off <= len(dst)]: the bytes past the end of
    [dst] are not copied. *)
Definition copy_at {A} (off : nat) (src dst : list A) : list A :=
  take off dst ++ take (length dst - off) src ++ drop (off + length src) dst.

(** * Bit strings, most significant bit first *)
Fixpoint bits_be (w : nat) (v : Z) : list bool :=
  match w with
  | O => []
  | S w => Z.testbit v (Z.of_nat w) :: bits_be w v
  end.

Definition bits_value (bs : list bool) : Z :=
  fold_left (fun acc b => 2 * acc + Z.b2z b) bs 0.

(** The bits of a byte string. *)
Definition bits_of_bytes (bs : list Z) : list bool := bs ≫= bits_be 8.

(** [buf[i/8] |= 1 << (7 - i%8)]: sets the [i]-th bit of a byte string. *)
Definition set_msb_bit (buf : list Z) (i : nat) : list Z :=
  alter (fun x => x ||| (1 ≪ (7 - Z.of_nat (i mod 8)))) (i / 8)%nat buf.

(** * Stable sorting on an integer key

    [sort.SliceStable] with [less(i, j) = key(i) < key(j)]: the one sorted
    permutation that keeps the order of the elements with equal keys. *)
Section StableSort.
Context {A : Type} (key : A -> Z).

Fixpoint insert_stable (x : A) (l : list A) : list A :=
  match l with
  | [] => [x]
  | y :: l' => if key y <? key x then y :: insert_stable x l' else x :: l
  end.

Fixpoint sort_stable (l : list A) : list A :=
  match l with
  | [] => []
  | x :: l => insert_stable x (sort_stable l)
  end.

Definition key_le (x y : A) : Prop := key x <= key y.
End StableSort.

(** * Tactics and hint databases

    [go] collects the ranges of machine words; [golia] calls [lia] with the
    division equations of constant powers of two. *)
Create HintDb go.

Ltac golia := zify; Z.div_mod_to_equations; lia.

(** Inverts a chain of binds that ended in [Ok]. *)
Ltac ok_inv H :=
  match type of H with
  | mbind _ ?m = Ok _ =>
      let a := fresh "a" in let E := fresh "E" in
      destruct m as [a| |] eqn:E; cbn [mbind outcome_bind] in H; [|discriminate H..]
  | require ?b _ = Ok _ =>
      let E := fresh "E" in
      unfold require in H; destruct b eqn:E; [|discriminate H]; clear H
  | assert_ ?b = Ok _ =>
      let E := fresh "E" in
      unfold assert_ in H; destruct b eqn:E; [|discriminate H]; clear H
  end.

(** * Lemmas on outcomes *)
Section Outcome.
Context {E : Type}.

Lemma require_ok b (e : E) : require b e = Ok tt <-> b = true.
Proof. unfold require. destruct b; naive_solver. Qed.

Lemma bind_ok {A B} (m : outcome E A) (f : A -> outcome E B) b :
  (m ≫= f) = Ok b <-> exists a, m = Ok a /\ f a = Ok b.
Proof.
  unfold mbind, outcome_bind. destruct m; split.
  all: first [by eauto | by intros (? & [= <-] & ?) | done | by intros (? & ? & ?)].
Qed.

Lemma foldM_app {S A} (f : S -> A -> outcome E S) s l1 l2 :
  foldM f s (l1 ++ l2) = (s' ← foldM f s l1; foldM f s' l2).
Proof.
  revert s. induction l1 as [|x l1 IH]; intros s; simpl; [done|].
  destruct (f s x); simpl; auto.
Qed.

Lemma mapM__ok {A B} (f : A -> outcome E B) l k :
  mapM_ f l = Ok k <-> Forall2 (fun a b => f a = Ok b) l k.
Proof.
  revert k. induction l as [|x l IH]; intros k; simpl.
  - split; [intros [= <-]; constructor|by inversion 1].
  - rewrite bind_ok. setoid_rewrite bind_ok. setoid_rewrite IH. split.
    + intros (b & Hb & bs & Hbs & [= <-]). by constructor.
    + inversion 1; subst; eauto 10.
Qed.
End Outcome.

(** * Lemmas on machine integers *)
Lemma pow2_pos w : 0 <= w -> 0 < 2 ^ w.
Proof. intros. by apply Z.pow_pos_nonneg. Qed.

Lemma uwrap_range w z : 0 <= w -> is_u w (uwrap w z).
Proof. intros. apply Z.mod_pos_bound. by apply pow2_pos. Qed.

Lemma uwrap_small w z : is_u w z -> uwrap w z = z.
Proof. apply Z.mod_small. Qed.

Lemma swrap_small w z : is_i w z -> 0 < w -> swrap w z = z.
Proof.
  unfold is_i, swrap. intros Hz Hw.
  assert (2 ^ w = 2 * 2 ^ (w - 1)) as Hp.
  { rewrite <- Z.pow_succ_r by lia. f_equal. lia. }
  rewrite Z.mod_small; lia.
Qed.

Lemma swrap_range w z : 0 < w -> is_i w (swrap w z).
Proof.
  unfold is_i, swrap. intros Hw.
  assert (2 ^ w = 2 * 2 ^ (w - 1)) as Hp.
  { rewrite <- Z.pow_succ_r by lia. f_equal. lia. }
  pose proof (Z.mod_pos_bound (z + 2 ^ (w - 1)) (2 ^ w) ltac:(apply pow2_pos; lia)).
  lia.
Qed.

Lemma land_ones_range w z : 0 <= w -> is_u w (z &&& Z.ones w).
Proof. intros. rewrite Z.land_ones by done. by apply uwrap_range. Qed.

Lemma testbit_above w v i : is_u w v -> 0 <= w <= i -> Z.testbit v i = false.
Proof.
  intros Hv Hi. rewrite <- (uwrap_small w v) by done.
  apply Z.mod_pow2_bits_high. lia.
Qed.

Lemma byte_range_pow z : is_byte z <-> 0 <= z < 256.
Proof. done. Qed.

#[export] Hint Resolve uwrap_range land_ones_range : go.

(** * Lemmas on byte strings *)
Lemma length_le_bytes n z : length (le_bytes n z) = n.
Proof. revert z; induction n; intros; simpl; auto. Qed.

Lemma length_be_bytes n z : length (be_bytes n z) = n.
Proof. unfold be_bytes. by rewrite length_reverse, length_le_bytes. Qed.

Lemma le_bytes_bytes n z : Forall is_byte (le_bytes n z).
Proof.
  revert z; induction n as [|n IH]; intros z; simpl; constructor; auto.
  apply (uwrap_range 8). lia.
Qed.

Lemma be_bytes_bytes n z : Forall is_byte (be_bytes n z).
Proof. unfold be_bytes. apply Forall_reverse, le_bytes_bytes. Qed.

Lemma le_value_le_bytes n z : le_value (le_bytes n z) = z mod 2 ^ (8 * Z.of_nat n).
Proof.
  revert z; induction n as [|n IH]; intros z; cbn [le_bytes le_value].
  - by rewrite Z.mod_1_r.
  - rewrite IH.
    replace (8 * Z.of_nat (S n)) with (8 + 8 * Z.of_nat n) by lia.
    rewrite Z.pow_add_r by lia. change (2 ^ 8) with 256.
    rewrite Z.rem_mul_r by (try apply Z.pow_nonzero; lia). lia.
Qed.

Lemma be_value_be_bytes n z : be_value (be_bytes n z) = z mod 2 ^ (8 * Z.of_nat n).
Proof. unfold be_value, be_bytes. by rewrite reverse_involutive, le_value_le_bytes. Qed.

Lemma le_bytes_le_value bs :
  Forall is_byte bs -> le_bytes (length bs) (le_value bs) = bs.
Proof.
  induction 1 as [|b bs Hb Hbs IH]; cbn [le_bytes le_value length]; [done|].
  unfold is_u in Hb. change (2 ^ 8) with 256 in Hb. f_equal; [golia|].
  replace ((b + 256 * le_value bs) / 256) with (le_value bs) by golia. done.
Qed.

Lemma be_bytes_be_value bs :
  Forall is_byte bs -> be_bytes (length bs) (be_value bs) = bs.
Proof.
  intros Hb. unfold be_bytes, be_value. rewrite <- length_reverse.
  rewrite le_bytes_le_value by (by apply Forall_reverse). apply reverse_involutive.
Qed.

Lemma le_value_range bs :
  Forall is_byte bs -> 0 <= le_value bs < 2 ^ (8 * Z.of_nat (length bs)).
Proof.
  intros H. rewrite <- (le_bytes_le_value bs) at 1 2 by done.
  rewrite le_value_le_bytes. apply Z.mod_pos_bound, pow2_pos. lia.
Qed.

Lemma le_bytes_inj n x y :
  is_u (8 * Z.of_nat n) x -> is_u (8 * Z.of_nat n) y ->
  le_bytes n x = le_bytes n y -> x = y.
Proof.
  intros Hx Hy H. apply (f_equal le_value) in H.
  rewrite !le_value_le_bytes in H. unfold is_u in *.
  by rewrite !Z.mod_small in H by lia.
Qed.

Lemma be_bytes_inj n x y :
  is_u (8 * Z.of_nat n) x -> is_u (8 * Z.of_nat n) y ->
  be_bytes n x = be_bytes n y -> x = y.
Proof.
  unfold be_bytes. intros Hx Hy H%(inj reverse). by apply le_bytes_inj in H.
Qed.

(** * Lemmas on bit strings *)
Lemma length_bits_be w v : length (bits_be w v) = w.
Proof. induction w; simpl; auto. Qed.

Lemma bits_value_app bs cs :
  bits_value (bs ++ cs) = bits_value bs * 2 ^ Z.of_nat (length cs) + bits_value cs.
Proof.
  unfold bits_value. rewrite fold_left_app.
  generalize (fold_left (fun acc b => 2 * acc + Z.b2z b) bs 0) as a.
  induction cs as [|c cs IH] using rev_ind; intros a.
  - simpl. rewrite Z.mul_1_r. lia.
  - rewrite !fold_left_app, length_app. simpl.
    rewrite IH. replace (Z.of_nat (length cs + 1)) with (1 + Z.of_nat (length cs)) by lia.
    rewrite Z.pow_add_r by lia. lia.
Qed.

Lemma bits_value_bits_be w v : bits_value (bits_be w v) = v mod 2 ^ Z.of_nat w.
Proof.
  induction w as [|w IH]; cbn [bits_be].
  - by rewrite Z.mod_1_r.
  - change (Z.testbit v (Z.of_nat w) :: bits_be w v)
      with ([Z.testbit v (Z.of_nat w)] ++ bits_be w v).
    rewrite bits_value_app, IH, length_bits_be.
    replace (Z.of_nat (S w)) with (Z.of_nat w + 1) by lia.
    rewrite Z.pow_add_r, Z.rem_mul_r by (try apply Z.pow_nonzero; lia).
    change (2 ^ 1) with 2. rewrite <- Z.testbit_spec' by lia.
    unfold bits_value. simpl. lia.
Qed.

Lemma bits_of_bytes_app bs cs :
  bits_of_bytes (bs ++ cs) = bits_of_bytes bs ++ bits_of_bytes cs.
Proof. apply bind_app. Qed.

Lemma length_bits_of_bytes bs : length (bits_of_bytes bs) = (8 * length bs)%nat.
Proof.
  induction bs as [|b bs IH]; [done|].
  change (bits_of_bytes (b :: bs)) with (bits_be 8 b ++ bits_of_bytes bs).
  rewrite length_app, IH, length_bits_be. simpl. lia.
Qed.

Lemma bits_be_set r x :
  (r < 8)%nat ->
  bits_be 8 (x ||| (1 ≪ (7 - Z.of_nat r))) = <[r := true]> (bits_be 8 x).
Proof.
  intros Hr. do 8 (destruct r as [|r]; [
    cbn [bits_be insert list_insert]; rewrite !Z.lor_spec;
    repeat f_equal; first [apply orb_true_r | apply orb_false_r] | ]). lia.
Qed.

Lemma bits_of_bytes_set buf i :
  (i < 8 * length buf)%nat ->
  bits_of_bytes (set_msb_bit buf i) = <[i := true]> (bits_of_bytes buf).
Proof.
  revert i. induction buf as [|x buf IH]; intros i Hi; simpl in Hi; [lia|].
  change (bits_of_bytes (x :: buf)) with (bits_be 8 x ++ bits_of_bytes buf).
  destruct (decide (i < 8)%nat) as [Hlt|Hge].
  - rewrite insert_app_l by (by rewrite length_bits_be). unfold set_msb_bit.
    rewrite Nat.div_small, Nat.mod_small by done. rewrite <- bits_be_set by done. done.
  - rewrite insert_app_r_alt by (rewrite length_bits_be; lia). rewrite length_bits_be.
    rewrite <- IH by lia. unfold set_msb_bit.
    replace (i / 8)%nat with (S ((i - 8) / 8)) by golia.
    replace (i mod 8)%nat with ((i - 8) mod 8)%nat by golia. done.
Qed.

(** * Lemmas on the stable sort *)
Section StableSortLemmas.
Context {A : Type} (key : A -> Z).

Lemma insert_stable_perm x l : insert_stable key x l ≡ₚ x :: l.
Proof.
  induction l as [|y l IH]; simpl; [done|].
  destruct (key y <? key x); [|done].
  rewrite IH. constructor.
Qed.

Lemma sort_stable_perm l : sort_stable key l ≡ₚ l.
Proof.
  induction l as [|x l IH]; simpl; [done|].
  by rewrite insert_stable_perm, IH.
Qed.

Lemma insert_stable_sorted x l :
  StronglySorted (key_le key) l -> StronglySorted (key_le key) (insert_stable key x l).
Proof.
  induction 1 as [|y l Hl IH Hy]; simpl; [repeat constructor|].
  destruct (Z.ltb_spec (key y) (key x)) as [Hlt|Hge].
  - constructor; [done|]. rewrite insert_stable_perm.
    constructor; [|done]. unfold key_le. lia.
  - constructor; [by constructor|]. constructor; [done|].
    eapply Forall_impl; [exact Hy|]. unfold key_le. lia.
Qed.

Lemma sort_stable_sorted l : StronglySorted (key_le key) (sort_stable key l).
Proof. induction l; simpl; [constructor|by apply insert_stable_sorted]. Qed.

Lemma length_sort_stable l : length (sort_stable key l) = length l.
Proof. by rewrite sort_stable_perm. Qed.

(** Stability: the elements of one key keep their relative order. *)
Lemma insert_stable_filter x l k :
  StronglySorted (key_le key) l ->
  filter (fun y => key y = k) (insert_stable key x l)
  = filter (fun y => key y = k) (x :: l).
Proof.
  induction 1 as [|y l Hl IH Hy]; simpl; [done|].
  destruct (Z.ltb_spec (key y) (key x)) as [Hlt|Hge]; [|done].
  rewrite !filter_cons, IH, !filter_cons.
  repeat case_decide; done || lia.
Qed.

Lemma sort_stable_filter l k :
  filter (fun y => key y = k) (sort_stable key l) = filter (fun y => key y = k) l.
Proof.
  induction l as [|x l IH]; simpl; [done|].
  rewrite insert_stable_filter by apply sort_stable_sorted.
  rewrite !filter_cons, IH. done.
Qed.

Lemma sort_stable_id l : StronglySorted (key_le key) l -> sort_stable key l = l.
Proof.
  induction 1 as [|x l Hl IH Hx]; simpl; [done|]. rewrite IH.
  destruct l as [|y l]; simpl; [done|].
  apply Forall_cons in Hx as [Hxy _]. unfold key_le in Hxy.
  destruct (Z.ltb_spec (key y) (key x)); [lia|done].
Qed.
End StableSortLemmas.

(** * Lemmas on slices and copies *)
Section Slices.
Context {A : Type}.
Implicit Types l src dst : list A.

Lemma length_copy_at off src dst :
  (off <= length dst)%nat -> length (copy_at off src dst) = length dst.
Proof.
  intros. unfold copy_at. rewrite !length_app, !length_take, length_drop. lia.
Qed.

Lemma copy_at_lookup_lt off src dst i :
  (i < off)%nat -> (off <= length dst)%nat -> copy_at off src dst !! i = dst !! i.
Proof.
  intros. unfold copy_at. rewrite lookup_app_l by (rewrite length_take; lia).
  by rewrite lookup_take_lt.
Qed.

Lemma copy_at_lookup_in off src dst i :
  (off <= i)%nat -> (i < off + length src)%nat -> (i < length dst)%nat ->
  copy_at off src dst !! i = src !! (i - off)%nat.
Proof.
  intros. unfold copy_at.
  rewrite lookup_app_r by (rewrite length_take; lia).
  rewrite length_take, Nat.min_l by lia.
  rewrite lookup_app_l by (rewrite length_take; lia).
  by rewrite lookup_take_lt by lia.
Qed.

Lemma copy_at_lookup_ge off src dst i :
  (off + length src <= i)%nat -> (off <= length dst)%nat ->
  copy_at off src dst !! i = dst !! i.
Proof.
  intros. unfold copy_at.
  destruct (decide (i < length dst)%nat).
  - rewrite lookup_app_r by (rewrite length_take; lia).
    rewrite lookup_app_r by (rewrite !length_take; lia).
    rewrite lookup_drop. f_equal. rewrite !length_take. lia.
  - rewrite !lookup_ge_None_2; [done|lia|].
    rewrite !length_app, !length_take, length_drop. lia.
Qed.

Lemma length_sub_slice a b l :
  (a <= b)%nat -> (b <= length l)%nat -> length (sub_slice a b l) = (b - a)%nat.
Proof. intros. unfold sub_slice. rewrite length_take, length_drop. lia. Qed.
End Slices.

(** [StronglySorted] lists and positions. *)
Lemma StronglySorted_lookup {A} (R : A -> A -> Prop) l i j x y :
  StronglySorted R l -> (i < j)%nat -> l !! i = Some x -> l !! j = Some y -> R x y.
Proof.
  intros Hs. revert i j. induction Hs as [|z l Hl IH Hz]; intros i j Hij Hx Hy.
  - by rewrite lookup_nil in Hx.
  - destruct j as [|j]; [lia|]. simpl in Hy. destruct i as [|i]; simpl in Hx.
    + simplify_eq. rewrite Forall_lookup in Hz. eauto.
    + eapply (IH i j); eauto. lia.
Qed.

#[global] Opaque be_bytes le_bytes bits_be.
#[global] Arguments uwrap : simpl never.
#[global] Arguments swrap : simpl never.
