(* ===== verification/ElfMapping.v ===== *)
(** The ELF mapping of the R5 guest: [arithmetization/gopkg/elfmapping].

    [Load]/[extractBlobs] turn the allocated sections of a guest ELF into sparse
    memory blobs, [NewData] maps the job input, and [EncodeInputs] sorts,
    validates and serializes the blobs into the public inputs of the
    arithmetization.  [debug/elf] is Go's standard library: an [elf.File] is the
    record of the fields the package reads, and [elf.NewFile] (the parser of raw
    bytes) is a parameter.  [bit.NewArray] belongs to the zkc package: the type of
    bit arrays and its constructor are parameters.  The text of the diagnostic
    table written by [writeSections] is modelled by its rows. *)
From S2P Require Import Prelude.

(** ** Data *)

Definition EntryPointAndBlobsCountInput : string := "entry_point_and_blobs_count".
Definition BlobsOffsetAndSizeInput : string := "blobs_offset_and_size".
Definition BlobsExecutableInput : string := "blobs_executable".
Definition BlobsDataInput : string := "blobs_data".
Definition DefaultInputOrigin : Z := 0x08800000.

Definition MaxUint32 : Z := 2 ^ 32 - 1.
Definition MaxInt : Z := 2 ^ 63 - 1.

Record Blob := mkBlob {
  Address : Z;
  Data : list Z;
  Name : string;
  Executable : bool
}.

Record Program := mkProgram {
  EntryPoint : Z;
  Blobs : list Blob
}.

(** [len(blob.Data)], and the same as a [uint64]. *)
Definition blen (b : Blob) : Z := Z.of_nat (length (Data b)).

(** The fields of [debug/elf] the package reads.  [sec_read] is what
    [io.ReadAll(section.Open())] returns: the bytes, or an error. *)
Definition PT_LOAD : Z := 1.
Definition SHT_NOBITS : Z := 8.
Definition SHF_ALLOC : Z := 2.
Definition SHF_EXECINSTR : Z := 4.

Record ElfProg := mkElfProg {
  ph_type : Z;
  ph_vaddr : Z;
  ph_filesz : Z;
  ph_memsz : Z
}.

Record ElfSection := mkElfSection {
  sec_name : string;
  sec_type : Z;
  sec_flags : Z;
  sec_addr : Z;
  sec_size : Z;
  sec_read : option (list Z)
}.

Record ElfFile := mkElfFile {
  elf_entry : Z;
  elf_progs : list ElfProg;
  elf_sections : list ElfSection
}.

(** The errors of the package, one constructor per [fmt.Errorf]. *)
Inductive elf_error :=
| ErrParse
| ErrFileLargerThanMemory (vaddr : Z)
| ErrSegmentOverflow (vaddr : Z)
| ErrSectionOverflow (name : string) (addr : Z)
| ErrSectionRead (name : string)
| ErrShortRead (name : string) (got expected : Z)
| ErrNoLoadableSections
| ErrNilDataOption
| ErrDataOption (what : string)
| ErrDataOffsetOverflow (address : Z)
| ErrNilOption
| ErrOption (what : string)
| ErrBlobOverflow (address size : Z)
| ErrBlobOverlap (address previousAddress previousEnd : Z)
| ErrWritingSections
| ErrEntryPointOutside32 (entryPoint : Z)
| ErrBlobOutside32 (address size : Z)
| ErrInputLimit (count size : Z).

(** An [io.Writer] as the diagnostic table uses it: whether the [n]-th call to
    it succeeds. *)
Definition Writer := nat -> bool.

Record config := mkConfig {
  includeExecutable : bool;
  sectionsWriter : option Writer
}.

Record dataConfig := mkDataConfig {
  data_name : string;
  lengthPrefix : bool
}.

(** A functional option is a closure on the configuration, or [nil]. *)
Definition DataOption := dataConfig -> outcome string dataConfig.
Definition Option := config -> outcome string config.

Definition WithName (name : string) : DataOption := fun cfg =>
  if decide (name = ""%string) then Err "blob name is empty"%string
  else Ok (mkDataConfig name (lengthPrefix cfg)).

Definition WithLengthPrefix : DataOption := fun cfg =>
  Ok (mkDataConfig (data_name cfg) true).

Definition WithIncludeExecutable : Option := fun cfg =>
  Ok (mkConfig true (sectionsWriter cfg)).

Definition WithSectionsWriter (writer : option Writer) : Option := fun cfg =>
  match writer with
  | None => Err "sections writer is nil"%string
  | Some w => Ok (mkConfig (includeExecutable cfg) (Some w))
  end.

(** ** Loading a guest ELF *)

(** The guard of the section loop: [section.Size == 0 || SHT_NOBITS || not
    SHF_ALLOC]. *)
Definition section_skipped (s : ElfSection) : bool :=
  (sec_size s =? 0) || (sec_type s =? SHT_NOBITS)
  || ((sec_flags s &&& SHF_ALLOC) =? 0).

Definition blob_of_section (s : ElfSection) (data : list Z) : Blob :=
  mkBlob (sec_addr s) data (sec_name s)
    (negb ((sec_flags s &&& SHF_EXECINSTR) =? 0)).

(** The body of the loop over [elfFile.Sections], for the segment
    [[vaddr, programEnd)]. *)
Definition extract_section (vaddr programEnd : Z) (programBlobs : list Blob)
    (s : ElfSection) : outcome elf_error (list Blob) :=
  if section_skipped s then Ok programBlobs else
  let sectionEnd := u64 (sec_addr s + sec_size s) in
  if sectionEnd <? sec_addr s then Err (ErrSectionOverflow (sec_name s) (sec_addr s)) else
  if (sec_addr s <? vaddr) || (programEnd <? sectionEnd) then Ok programBlobs else
  match sec_read s with
  | None => Err (ErrSectionRead (sec_name s))
  | Some data =>
      if Z.of_nat (length data) =? sec_size s
      then Ok (programBlobs ++ [blob_of_section s data])
      else Err (ErrShortRead (sec_name s) (Z.of_nat (length data)) (sec_size s))
  end.

Section Extract.
(** [sort.Slice], which makes no promise on elements that compare equal. *)
Variable sort_slice : list Blob -> list Blob.

(** The body of the loop over [elfFile.Progs]. *)
Definition extract_prog (sections : list ElfSection) (blobs : list Blob)
    (ph : ElfProg) : outcome elf_error (list Blob) :=
  if negb (ph_type ph =? PT_LOAD) || (ph_memsz ph =? 0) then Ok blobs else
  if ph_memsz ph <? ph_filesz ph then Err (ErrFileLargerThanMemory (ph_vaddr ph)) else
  let programEnd := u64 (ph_vaddr ph + ph_memsz ph) in
  if programEnd <? ph_vaddr ph then Err (ErrSegmentOverflow (ph_vaddr ph)) else
  programBlobs ← foldM (extract_section (ph_vaddr ph) programEnd) [] sections;
  Ok (blobs ++ sort_slice programBlobs).

Definition extractBlobs (f : ElfFile) : outcome elf_error (list Blob) :=
  blobs ← foldM (extract_prog (elf_sections f)) [] (elf_progs f);
  match blobs with
  | [] => Err ErrNoLoadableSections
  | _ => Ok blobs
  end.

(** [elf.NewFile] on the bytes of the guest. *)
Variable NewFile : list Z -> option ElfFile.

Definition Load (elfBytes : list Z) : outcome elf_error Program :=
  match NewFile elfBytes with
  | None => Err ErrParse
  | Some f => blobs ← extractBlobs f; Ok (mkProgram (elf_entry f) blobs)
  end.
End Extract.

(** ** Mapping the job input *)

(** The loop that applies the options, with its two error wrappers. *)
Definition apply_data_option (cfg : dataConfig) (o : option DataOption) :
    outcome elf_error dataConfig :=
  match o with
  | None => Err ErrNilDataOption
  | Some f => map_err ErrDataOption (f cfg)
  end.

Definition NewData (address : Z) (data : list Z) (options : list (option DataOption)) :
    outcome elf_error (list Blob) :=
  cfg ← foldM apply_data_option (mkDataConfig "" false) options;
  if negb (lengthPrefix cfg) then
    match data with
    | [] => Ok []
    | _ => Ok [mkBlob address data (data_name cfg) false]
    end
  else
    let payloadAddress := u64 (address + 8) in
    if payloadAddress <? address then Err (ErrDataOffsetOverflow address) else
    let prefix := le_bytes 8 (Z.of_nat (length data)) in
    let '(lengthName, payloadName) :=
      if decide (data_name cfg = ""%string) then (""%string, ""%string)
      else ((data_name cfg +:+ "_length")%string, (data_name cfg +:+ "_payload")%string) in
    let blobs := [mkBlob address prefix lengthName false] in
    match data with
    | [] => Ok blobs
    | _ => Ok (blobs ++ [mkBlob payloadAddress data payloadName false])
    end.

(** ** Encoding the public inputs *)

(** State of the loop of [validateRanges]: the last non-empty blob seen. *)
Definition validate_step (prev : option (Z * Z)) (b : Blob) :
    outcome elf_error (option (Z * Z)) :=
  if blen b =? 0 then Ok prev else
  let end_ := u64 (Address b + blen b) in
  if end_ <? Address b then Err (ErrBlobOverflow (Address b) (blen b)) else
  match prev with
  | Some (previousAddress, previousEnd) =>
      if Address b <? previousEnd
      then Err (ErrBlobOverlap (Address b) previousAddress previousEnd)
      else Ok (Some (Address b, end_))
  | None => Ok (Some (Address b, end_))
  end.

Definition validateRanges (blobs : list Blob) : outcome elf_error unit :=
  _ ← foldM validate_step None blobs; Ok tt.

(** A row of the diagnostic table; the header is call 0, row [i] call [i+1]. *)
Definition section_row (i : nat) (b : Blob) : nat * Z * Z * string * string :=
  (i, Address b, blen b, (if Executable b then "yes" else "no")%string, Name b).

Definition writeSections (writer : Writer) (blobs : list Blob) :
    outcome elf_error (list (nat * Z * Z * string * string)) :=
  if negb (writer 0%nat) then Err ErrWritingSections else
  foldM (fun rows '(i, b) =>
    if writer (S i) then Ok (rows ++ [section_row i b]) else Err ErrWritingSections)
    [] (imap (fun i b => (i, b)) blobs).

Definition address32 (b : Blob) : outcome elf_error Z :=
  if (MaxUint32 <? Address b) || (MaxUint32 + 1 - Address b <? blen b)
  then Err (ErrBlobOutside32 (Address b) (blen b))
  else Ok (u32 (Address b)).

Definition addressSpace32 (entryPoint : Z) (blobs : list Blob) :
    outcome elf_error (Z * list Z) :=
  if MaxUint32 <? entryPoint then Err (ErrEntryPointOutside32 entryPoint) else
  addresses ← mapM_ address32 blobs;
  Ok (u32 entryPoint, addresses).

Definition blobDataSize (blobs : list Blob) : Z :=
  foldl (fun size b => i64 (size + blen b)) 0 blobs.

Definition encodeExecutableBits (blobs : list Blob) : list Z :=
  foldl (fun bits '(i, b) => if Executable b then set_msb_bit bits i else bits)
    (replicate ((length blobs + 7) / 8) 0) (imap (fun i b => (i, b)) blobs).

Section Encode.
(** [bit.NewArray(bytes, nbits, bit.BigEndian)] of the zkc package. *)
Context {BitArray : Type} (NewArray : list Z -> Z -> BitArray).

Definition BitArrayFromBytes (bytes : list Z) : BitArray :=
  NewArray bytes (Z.of_nat (length bytes) * 8).

Definition apply_option (cfg : config) (o : option Option) : outcome elf_error config :=
  match o with
  | None => Err ErrNilOption
  | Some f => map_err ErrOption (f cfg)
  end.

(** The bytes of [entry_point_and_blobs_count], [blobs_offset_and_size] and
    [blobs_data]. *)
Definition entry_and_count (entryPoint : Z) (blobs : list Blob) : list Z :=
  be_bytes 4 entryPoint ++ be_bytes 4 (u32 (Z.of_nat (length blobs))).

Definition append_offset_and_size (acc : list Z) (ab : Z * Blob) : list Z :=
  acc ++ be_bytes 4 ab.1 ++ be_bytes 4 (u32 (blen ab.2)).

Definition offsets_and_sizes (addresses : list Z) (blobs : list Blob) : list Z :=
  foldl append_offset_and_size [] (zip addresses blobs).

Definition blobs_data (blobs : list Blob) : list Z :=
  foldl (fun data b => data ++ Data b) [] blobs.

Definition EncodeInputs (program : Program) (additional : list Blob)
    (options : list (option Option)) : outcome elf_error (gmap string BitArray) :=
  cfg ← foldM apply_option (mkConfig false None) options;
  let blobs := sort_stable Address (Blobs program ++ additional) in
  _ ← validateRanges blobs;
  _ ← match sectionsWriter cfg with
      | Some w => _ ← writeSections w blobs; Ok tt
      | None => Ok tt
      end;
  '(entryPoint, addresses) ← addressSpace32 (EntryPoint program) blobs;
  let dataSize := blobDataSize blobs in
  if (MaxUint32 <? Z.of_nat (length blobs)) || (MaxUint32 <? u64 dataSize)
  then Err (ErrInputLimit (Z.of_nat (length blobs)) dataSize)
  else
    let inputs : gmap string BitArray :=
      <[EntryPointAndBlobsCountInput := BitArrayFromBytes (entry_and_count entryPoint blobs)]>
      (<[BlobsOffsetAndSizeInput := BitArrayFromBytes (offsets_and_sizes addresses blobs)]>
      (<[BlobsDataInput := BitArrayFromBytes (blobs_data blobs)]> ∅)) in
    Ok (if includeExecutable cfg
        then <[BlobsExecutableInput := BitArrayFromBytes (encodeExecutableBits blobs)]> inputs
        else inputs).

Definition PrepareInputs (sort_slice : list Blob -> list Blob)
    (NewFile : list Z -> option ElfFile) (elfBytes inputData : list Z)
    (options : list (option Option)) : outcome elf_error (gmap string BitArray) :=
  program ← Load sort_slice NewFile elfBytes;
  inputBlobs ← NewData DefaultInputOrigin inputData [Some WithLengthPrefix];
  EncodeInputs program inputBlobs options.
End Encode.

(** ** Specifications *)

(** The Go values a [Blob] and a [Program] can hold. *)
Definition blob_wf (b : Blob) : Prop :=
  is_u 64 (Address b) /\ Forall is_byte (Data b) /\ blen b <= MaxInt.

Definition blob_end (b : Blob) : Z := Address b + blen b.

Definition nonempty (b : Blob) : Prop := blen b <> 0.
#[global] Instance nonempty_dec b : Decision (nonempty b).
Proof. unfold nonempty. apply _. Defined.

(** [a] lies entirely before [b]. *)
Definition before (a b : Blob) : Prop := blob_end a <= Address b.

(** The non-empty blobs are in address order, disjoint and below [2^64]. *)
Definition ranges_ok (blobs : list Blob) : Prop :=
  StronglySorted before (filter nonempty blobs) /\
  Forall (fun b => nonempty b -> blob_end b < 2 ^ 64) blobs.

Definition in32 (b : Blob) : Prop := Address b <= MaxUint32 /\ blob_end b <= MaxUint32 + 1.

Definition total_size (blobs : list Blob) : Z :=
  Z.of_nat (sum_list_with (fun b => length (Data b)) blobs).

(** A reference reader of the three inputs, as the arithmetization consumes
    them: big-endian [u32] pairs, and the data cut at the sizes. *)
Fixpoint read_pairs (n : nat) (bs : list Z) : list (Z * Z) :=
  match n with
  | O => []
  | S n => (be_value (take 4 bs), be_value (take 4 (drop 4 bs))) :: read_pairs n (drop 8 bs)
  end.

Fixpoint read_blobs (pairs : list (Z * Z)) (data : list Z) : list (Z * list Z) :=
  match pairs with
  | [] => []
  | (a, n) :: ps => (a, take (Z.to_nat n) data) :: read_blobs ps (drop (Z.to_nat n) data)
  end.

Definition read_inputs (ec offs data : list Z) : Z * list (Z * list Z) :=
  (be_value (take 4 ec),
   read_blobs (read_pairs (Z.to_nat (be_value (drop 4 ec))) offs) data).

(** ** Lemmas *)

Lemma blen_nonneg b : 0 <= blen b.
Proof. unfold blen. lia. Qed.

Lemma blen_zero b : blen b = 0 <-> Data b = [].
Proof. unfold blen. destruct (Data b); simpl; split; try done; lia. Qed.

#[export] Hint Resolve blen_nonneg : go.

Lemma wrapped_end b :
  blob_wf b ->
  (u64 (Address b + blen b) <? Address b) = negb (bool_decide (blob_end b < 2 ^ 64)) /\
  (blob_end b < 2 ^ 64 -> u64 (Address b + blen b) = blob_end b).
Proof.
  intros (Ha & _ & Hl). pose proof (blen_nonneg b). unfold is_u, MaxInt, blob_end in *.
  change (2 ^ 64) with 18446744073709551616 in *. change (2 ^ 63) with 9223372036854775808 in *.
  unfold uwrap. change (2 ^ 64) with 18446744073709551616. split.
  - case_bool_decide; [apply Z.ltb_ge|apply Z.ltb_lt]; golia.
  - intros. apply Z.mod_small. lia.
Qed.

Lemma validate_fold_ok prev blobs :
  Forall blob_wf blobs ->
  (exists p, foldM validate_step prev blobs = Ok p) <->
  Forall (fun b => nonempty b -> blob_end b < 2 ^ 64) blobs /\
  StronglySorted before (filter nonempty blobs) /\
  (forall pa pe, prev = Some (pa, pe) -> Forall (fun b => nonempty b -> pe <= Address b) blobs).
Proof.
  intros Hwf. revert prev. induction Hwf as [|b blobs Hb Hwf IH]; intros prev; simpl.
  { split; [|by eauto]. intros _. repeat constructor. }
  rewrite !Forall_cons, filter_cons. setoid_rewrite bind_ok. unfold validate_step at 1.
  destruct (wrapped_end b Hb) as [Hw1 Hw2].
  destruct (Z.eqb_spec (blen b) 0) as [H0|H0].
  { rewrite decide_False by (unfold nonempty; tauto).
    transitivity (exists p, foldM validate_step prev blobs = Ok p); [naive_solver|].
    rewrite IH. setoid_rewrite Forall_cons. unfold nonempty. naive_solver. }
  rewrite Hw1. rewrite decide_True by done. case_bool_decide as Hend; cbn [negb].
  2:{ split; [by intros (? & ? & ? & ?)|]. intros ((Hx & _) & _). by specialize (Hx H0). }
  specialize (Hw2 Hend). rewrite Hw2.
  transitivity ((forall pa pe, prev = Some (pa, pe) -> pe <= Address b) /\
     exists p, foldM validate_step (Some (Address b, blob_end b)) blobs = Ok p).
  { destruct prev as [[pa pe]|].
    - destruct (Z.ltb_spec (Address b) pe) as [Hlt|Hge].
      + split; [by intros (? & ? & ? & ?)|]. intros [Hx _]. specialize (Hx _ _ eq_refl). lia.
      + split; [|naive_solver]. intros (p & ? & [= <-] & ?). split; [naive_solver lia|eauto].
    - split; [|naive_solver]. intros (p & ? & [= <-] & ?). split; [done|eauto]. }
  rewrite IH. split.
  - intros (Hp & Hf & Hs & Hn). specialize (Hn _ _ eq_refl).
    split; [done|]. split.
    + constructor; [done|]. apply Forall_forall. intros x [Hx1 Hx2]%list_elem_of_filter.
      rewrite Forall_forall in Hn. by apply Hn.
    + intros pa pe ->. specialize (Hp _ _ eq_refl). apply Forall_cons. split; [done|].
      eapply Forall_impl; [exact Hn|]. simpl. unfold blob_end. intros x Hx Hne.
      specialize (Hx Hne). pose proof (blen_nonneg b). lia.
  - intros ([_ Hf] & Hs & Hn). apply StronglySorted_inv in Hs as [Hs Hbs].
    split; [intros pa pe ->; by specialize (Hn _ _ eq_refl) as [Hn _]%Forall_cons; auto|].
    split; [done|]. split; [done|]. intros pa pe [= <- <-].
    apply Forall_forall. intros x Hx Hne. rewrite Forall_forall in Hbs. apply Hbs.
    by apply list_elem_of_filter.
Qed.

Lemma validateRanges_ok blobs :
  Forall blob_wf blobs -> validateRanges blobs = Ok tt <-> ranges_ok blobs.
Proof.
  intros Hwf. unfold validateRanges, ranges_ok.
  pose proof (validate_fold_ok None blobs Hwf) as H. rewrite bind_ok. split.
  - intros (p & Hp & _). destruct H as [H _]. destruct H as (? & ? & _); eauto.
  - intros [Hs Hf]. destruct H as [_ H]. destruct H as [p Hp]; [done|]. eauto.
Qed.

Lemma address32_ok b a :
  blob_wf b -> address32 b = Ok a <-> in32 b /\ a = Address b.
Proof.
  intros (Ha & _ & _). unfold address32, in32, blob_end, MaxUint32.
  change (2 ^ 32) with 4294967296 in *. unfold is_u in Ha.
  destruct (Z.ltb_spec (4294967296 - 1) (Address b)); simpl; [split; [done|lia]|].
  destruct (Z.ltb_spec (4294967296 - 1 + 1 - Address b) (blen b)); [split; [done|lia]|].
  rewrite uwrap_small by (unfold is_u; change (2 ^ 32) with 4294967296; lia).
  split; [intros [= <-]; split; lia|by intros [_ ->]].
Qed.

Lemma addresses_ok blobs ads :
  Forall blob_wf blobs ->
  mapM_ address32 blobs = Ok ads <-> Forall in32 blobs /\ ads = Address <$> blobs.
Proof.
  intros Hwf. rewrite mapM__ok. revert ads. induction Hwf as [|b blobs Hb Hwf IH]; intros ads.
  - split; [by inversion 1; subst|by intros [_ ->]].
  - rewrite Forall_cons. split.
    + inversion 1 as [|? a ? ads' Ha Has]; subst. apply address32_ok in Ha as [? ->]; [|done].
      apply IH in Has as [? ->]. done.
    + intros [[H1 H2] ->]. constructor; [by apply address32_ok|]. by apply IH.
Qed.

Lemma blobDataSize_total blobs :
  total_size blobs <= MaxInt -> blobDataSize blobs = total_size blobs.
Proof.
  unfold blobDataSize, total_size, MaxInt.
  induction blobs as [|b blobs IH] using rev_ind; [done|].
  rewrite foldl_app, sum_list_with_app. cbn [foldl sum_list_with]. intros H.
  rewrite IH by lia. unfold blen. rewrite swrap_small; [lia| |lia].
  unfold is_i. change (64 - 1) with 63. lia.
Qed.

Lemma blobs_data_concat blobs : blobs_data blobs = mjoin (Data <$> blobs).
Proof.
  unfold blobs_data. induction blobs as [|b blobs IH] using rev_ind; [done|].
  rewrite foldl_app, fmap_app, join_app. simpl. by rewrite IH, app_nil_r.
Qed.

Lemma offsets_and_sizes_concat (abs : list (Z * Blob)) :
  foldl append_offset_and_size [] abs
  = mjoin ((fun ab => be_bytes 4 ab.1 ++ be_bytes 4 (u32 (blen ab.2))) <$> abs).
Proof.
  induction abs as [|ab abs IH] using rev_ind; [done|].
  rewrite foldl_app, fmap_app, join_app. simpl. rewrite IH, app_nil_r. done.
Qed.

Lemma be4_roundtrip z : is_u 32 z -> be_value (be_bytes 4 z) = z.
Proof. intros. rewrite be_value_be_bytes. by apply (uwrap_small 32). Qed.

Lemma take_be4 z l : take 4 (be_bytes 4 z ++ l) = be_bytes 4 z.
Proof. by rewrite take_app_length' by (by rewrite length_be_bytes). Qed.

Lemma drop_be4 z l : drop 4 (be_bytes 4 z ++ l) = l.
Proof. by rewrite drop_app_length' by (by rewrite length_be_bytes). Qed.

Lemma read_pairs_encode (abs : list (Z * Z)) :
  Forall (fun ab => is_u 32 ab.1 /\ is_u 32 ab.2) abs ->
  read_pairs (length abs) (mjoin ((fun ab => be_bytes 4 ab.1 ++ be_bytes 4 ab.2) <$> abs)) = abs.
Proof.
  induction 1 as [|[a n] abs [Ha Hn] H IH]; [done|]. cbn -[take drop be_bytes].
  rewrite <- !app_assoc, take_be4, drop_be4, take_be4.
  rewrite !be4_roundtrip by done. f_equal.
  replace 8%nat with (4 + 4)%nat by done. rewrite <- drop_drop, !drop_be4. done.
Qed.

Lemma read_blobs_concat blobs :
  read_blobs ((fun b => (Address b, blen b)) <$> blobs) (mjoin (Data <$> blobs))
  = (fun b => (Address b, Data b)) <$> blobs.
Proof.
  induction blobs as [|b blobs IH]; [done|]. cbn. unfold blen. rewrite Nat2Z.id.
  rewrite take_app_length, drop_app_length. by f_equal.
Qed.

Lemma in32_sizes b : blob_wf b -> in32 b -> blen b <= MaxUint32 ->
  is_u 32 (Address b) /\ u32 (blen b) = blen b /\ is_u 32 (blen b).
Proof.
  unfold in32, MaxUint32, is_u. intros ([? ?] & _ & _) [? ?] ?.
  pose proof (blen_nonneg b). split; [lia|]. split; [apply uwrap_small; unfold is_u|]; lia.
Qed.

Lemma sum_list_with_elem_le blobs b :
  b ∈ blobs -> (length (Data b) <= sum_list_with (fun b => length (Data b)) blobs)%nat.
Proof.
  induction blobs as [|x blobs IH]; [by intros ?%elem_of_nil|].
  intros [->|H]%elem_of_cons; simpl; [|apply IH in H]; lia.
Qed.

(** The bytes of the two tables read back as the blobs they encode. *)
Lemma tables_roundtrip entry blobs :
  is_u 32 entry -> Forall blob_wf blobs -> Forall in32 blobs ->
  Z.of_nat (length blobs) <= MaxUint32 -> total_size blobs <= MaxUint32 ->
  read_inputs (entry_and_count entry blobs)
    (offsets_and_sizes (Address <$> blobs) blobs) (blobs_data blobs)
  = (entry, (fun b => (Address b, Data b)) <$> blobs).
Proof.
  intros He Hwf H32 Hlen Htot. unfold read_inputs, entry_and_count, MaxUint32 in *.
  rewrite take_be4, drop_be4, be4_roundtrip by done.
  rewrite uwrap_small by (unfold is_u; lia). rewrite be4_roundtrip by (unfold is_u; lia).
  rewrite Nat2Z.id, blobs_data_concat, <- read_blobs_concat. repeat f_equal.
  unfold offsets_and_sizes. rewrite offsets_and_sizes_concat.
  assert (Forall (fun b => is_u 32 (Address b) /\ u32 (blen b) = blen b /\ is_u 32 (blen b)) blobs) as Hs.
  { apply Forall_forall. intros b Hb. rewrite Forall_forall in Hwf, H32.
    apply in32_sizes; [by apply Hwf|by apply H32|].
    apply sum_list_with_elem_le in Hb. unfold blen, MaxUint32, total_size in *. lia. }
  rewrite <- (read_pairs_encode ((fun b => (Address b, blen b)) <$> blobs)).
  - rewrite length_fmap. f_equal. clear -Hs.
    induction Hs as [|b blobs (? & Hu & ?) Hs IH]; [done|]. cbn -[be_bytes].
    rewrite Hu. f_equal. apply IH.
  - apply Forall_fmap. eapply Forall_impl; [exact Hs|]. simpl. tauto.
Qed.

Lemma Forall_perm {A} (P : A -> Prop) l k : l ≡ₚ k -> Forall P l -> Forall P k.
Proof. by intros ->. Qed.

(** The loop of [encodeExecutableBits] after its first blobs. *)
Lemma executable_bits_prefix blobs n :
  (length blobs <= 8 * n)%nat ->
  bits_of_bytes (foldl (fun bits '(i, b) => if Executable b then set_msb_bit bits i else bits)
    (replicate n 0) (imap (fun i b => (i, b)) blobs))
  = (Executable <$> blobs) ++ replicate (8 * n - length blobs) false
  /\ length (foldl (fun bits '(i, b) => if Executable b then set_msb_bit bits i else bits)
    (replicate n 0) (imap (fun i b => (i, b)) blobs)) = n.
Proof.
  induction blobs as [|b blobs IH] using rev_ind; intros Hn.
  - cbn [imap foldl fmap list_fmap app length].
    rewrite length_replicate, Nat.sub_0_r. split; [|done]. clear.
    induction n as [|n IH]; [done|].
    change (replicate (S n) 0) with ([0] ++ replicate n 0).
    rewrite bits_of_bytes_app, IH. replace (8 * S n)%nat with (8 + 8 * n)%nat by lia.
    by rewrite replicate_add.
  - rewrite length_app in Hn. simpl in Hn. destruct IH as [IH1 IH2]; [lia|].
    rewrite imap_app, foldl_app, fmap_app, length_app. simpl.
    rewrite Nat.add_0_r.
    replace (8 * n - length blobs)%nat with (S (8 * n - (length blobs + 1)))%nat in IH1 by lia.
    destruct (Executable b).
    + rewrite bits_of_bytes_set by (rewrite IH2; lia). rewrite IH1. split.
      * rewrite <- app_assoc. replace (length blobs) with (length (Executable <$> blobs) + 0)%nat at 1
          by (rewrite length_fmap; lia). by rewrite insert_app_r.
      * unfold set_msb_bit. by rewrite length_alter.
    + split; [|done]. rewrite IH1. simpl. by rewrite <- app_assoc.
Qed.

Lemma extract_section_ok vaddr pe acc s acc' :
  extract_section vaddr pe acc s = Ok acc' ->
  exists k, acc' = acc ++ k /\ forall b, b ∈ k <->
    section_skipped s = false /\ sec_addr s <= u64 (sec_addr s + sec_size s) /\
    vaddr <= sec_addr s /\ u64 (sec_addr s + sec_size s) <= pe /\
    (exists data, sec_read s = Some data /\ Z.of_nat (length data) = sec_size s /\
      b = blob_of_section s data).
Proof.
  unfold extract_section. intros H.
  destruct (section_skipped s).
  { simplify_eq. exists []. rewrite app_nil_r. split; [done|]. intros b.
    rewrite elem_of_nil. split; [done|by intros [? _]]. }
  destruct (Z.ltb_spec (u64 (sec_addr s + sec_size s)) (sec_addr s)); [done|].
  destruct (Z.ltb_spec (sec_addr s) vaddr).
  { simplify_eq/=. exists []. rewrite app_nil_r. split; [done|]. intros b.
    rewrite elem_of_nil. split; [done|lia]. }
  destruct (Z.ltb_spec pe (u64 (sec_addr s + sec_size s))).
  { simplify_eq/=. exists []. rewrite app_nil_r. split; [done|]. intros b.
    rewrite elem_of_nil. split; [done|lia]. }
  cbn [orb] in H. destruct (sec_read s) as [data|]; [|done].
  destruct (Z.eqb_spec (Z.of_nat (length data)) (sec_size s)); [|done]. simplify_eq.
  eexists. split; [done|]. intros b. rewrite list_elem_of_singleton.
  split; [|naive_solver]. intros ->. split_and!; try done. eauto.
Qed.

(** What a section contributes to a segment. *)
Definition contributes (vaddr pe : Z) (s : ElfSection) (b : Blob) : Prop :=
  section_skipped s = false /\ sec_addr s <= u64 (sec_addr s + sec_size s) /\
  vaddr <= sec_addr s /\ u64 (sec_addr s + sec_size s) <= pe /\
  exists data, sec_read s = Some data /\ Z.of_nat (length data) = sec_size s /\
    b = blob_of_section s data.

Lemma extract_sections_ok vaddr pe sections acc acc' :
  foldM (extract_section vaddr pe) acc sections = Ok acc' ->
  forall b, b ∈ acc' <-> b ∈ acc \/ exists s, s ∈ sections /\ contributes vaddr pe s b.
Proof.
  revert acc. induction sections as [|s sections IH]; intros acc H b; simpl in H.
  - simplify_eq. split; [by left|]. intros [?|(s & Hs & _)]; [done|]. by apply elem_of_nil in Hs.
  - apply bind_ok in H as (acc1 & H1 & H2). apply extract_section_ok in H1 as (k & -> & Hk).
    rewrite (IH _ H2), elem_of_app, Hk. setoid_rewrite elem_of_cons.
    unfold contributes. naive_solver.
Qed.

(** The segments the loader takes. *)
Definition loadable (ph : ElfProg) : bool := (ph_type ph =? PT_LOAD) && negb (ph_memsz ph =? 0).

Lemma extract_progs_ok sort_slice sections progs acc acc' :
  (forall l, sort_slice l ≡ₚ l) ->
  foldM (extract_prog sort_slice sections) acc progs = Ok acc' ->
  forall b, b ∈ acc' <-> b ∈ acc \/ exists ph s, ph ∈ progs /\ s ∈ sections /\
    loadable ph = true /\ contributes (ph_vaddr ph) (u64 (ph_vaddr ph + ph_memsz ph)) s b.
Proof.
  intros Hsort. revert acc. induction progs as [|ph progs IH]; intros acc H b; simpl in H.
  - simplify_eq. split; [by left|]. intros [?|(ph & s & Hs & _)]; [done|]. by apply elem_of_nil in Hs.
  - apply bind_ok in H as (acc1 & H1 & H2). rewrite (IH _ H2). clear IH H2.
    assert (b ∈ acc1 <-> b ∈ acc \/ exists s, s ∈ sections /\ loadable ph = true /\
      contributes (ph_vaddr ph) (u64 (ph_vaddr ph + ph_memsz ph)) s b) as ->;
      [|setoid_rewrite elem_of_cons; naive_solver].
    unfold extract_prog in H1. unfold loadable.
    destruct (ph_type ph =? PT_LOAD), (ph_memsz ph =? 0); simpl in *; simplify_eq;
      try (split; [by left|intros [?|(? & _ & ? & _)]; done]).
    destruct (ph_memsz ph <? ph_filesz ph); [done|].
    destruct (u64 _ <? _); [done|]. apply bind_ok in H1 as (k & Hk & [= <-]).
    rewrite elem_of_app, Hsort, (extract_sections_ok _ _ _ _ _ Hk), elem_of_nil. naive_solver.
Qed.

Lemma disjoint_total l lo hi :
  StronglySorted before l -> lo <= hi ->
  Forall (fun b => lo <= Address b /\ blob_end b <= hi) l -> total_size l <= hi - lo.
Proof.
  unfold total_size. intros Hs. revert lo. induction Hs as [|b l Hs IH Hb]; intros lo Hle Hf; simpl; [lia|].
  apply Forall_cons in Hf as [[H1 H2] Hf]. pose proof (blen_nonneg b).
  unfold blob_end, blen in *.
  assert (Z.of_nat (sum_list_with (fun b => length (Data b)) l) <= hi - (Address b + Z.of_nat (length (Data b)))); [|lia].
  apply IH; [lia|]. rewrite Forall_forall in Hb, Hf |- *. intros x Hx.
  specialize (Hb _ Hx). specialize (Hf _ Hx). unfold before, blob_end, blen in Hb. lia.
Qed.

Lemma total_size_nonempty blobs : total_size (filter nonempty blobs) = total_size blobs.
Proof.
  unfold total_size. f_equal. induction blobs as [|b blobs IH]; [done|].
  rewrite filter_cons. case_decide as Hb; simpl; rewrite IH; [done|].
  unfold nonempty in Hb. assert (blen b = 0) as H0 by lia.
  apply blen_zero in H0. by rewrite H0.
Qed.

Lemma ranges_total blobs :
  Forall blob_wf blobs -> ranges_ok blobs -> Forall in32 blobs -> total_size blobs <= MaxUint32 + 1.
Proof.
  intros Hwf [Hs _] H32. rewrite <- total_size_nonempty.
  replace (MaxUint32 + 1) with (MaxUint32 + 1 - 0) by lia.
  apply disjoint_total; [done|unfold MaxUint32; lia|].
  apply Forall_forall. intros b [_ Hb]%list_elem_of_filter.
  rewrite Forall_forall in Hwf, H32. destruct (Hwf _ Hb) as ([? ?] & _).
  by destruct (H32 _ Hb).
Qed.

(** What [EncodeInputs] has checked when it gets past its options. *)
Definition encodable (entryPoint : Z) (blobs : list Blob) : Prop :=
  ranges_ok blobs /\ entryPoint <= MaxUint32 /\ Forall in32 blobs /\
  Z.of_nat (length blobs) <= MaxUint32 /\ total_size blobs <= MaxUint32.

Definition program_wf (p : Program) : Prop :=
  is_u 64 (EntryPoint p) /\ Forall blob_wf (Blobs p).

Section EncodeLemmas.
Context {BitArray : Type} (NewArray : list Z -> Z -> BitArray).
Variables (program : Program) (additional : list Blob).
Hypothesis Hp : program_wf program.
Hypothesis Ha : Forall blob_wf additional.

Let blobs := sort_stable Address (Blobs program ++ additional).

Lemma sorted_wf : Forall blob_wf blobs.
Proof.
  unfold blobs. rewrite sort_stable_perm. apply Forall_app. split; [apply Hp|apply Ha].
Qed.

Lemma addressSpace32_ok r :
  addressSpace32 (EntryPoint program) blobs = Ok r <->
  EntryPoint program <= MaxUint32 /\ Forall in32 blobs /\ r = (EntryPoint program, Address <$> blobs).
Proof.
  unfold addressSpace32. destruct Hp as [[He1 He2] _].
  destruct (Z.ltb_spec MaxUint32 (EntryPoint program)); [split; [done|lia]|].
  rewrite bind_ok. setoid_rewrite (addresses_ok _ _ sorted_wf).
  rewrite uwrap_small by (unfold is_u, MaxUint32 in *; lia). naive_solver.
Qed.

(** [EncodeInputs] once its options are applied. *)
Lemma EncodeInputs_ok options inputs :
  EncodeInputs NewArray program additional options = Ok inputs ->
  encodable (EntryPoint program) blobs /\
  exists cfg, foldM apply_option (mkConfig false None) options = Ok cfg /\
  inputs !! EntryPointAndBlobsCountInput
    = Some (BitArrayFromBytes NewArray (entry_and_count (EntryPoint program) blobs)) /\
  inputs !! BlobsOffsetAndSizeInput
    = Some (BitArrayFromBytes NewArray (offsets_and_sizes (Address <$> blobs) blobs)) /\
  inputs !! BlobsDataInput = Some (BitArrayFromBytes NewArray (blobs_data blobs)) /\
  inputs !! BlobsExecutableInput =
    (if includeExecutable cfg
     then Some (BitArrayFromBytes NewArray (encodeExecutableBits blobs)) else None).
Proof.
  unfold EncodeInputs. fold blobs. intros H.
  apply bind_ok in H as (cfg & Hcfg & H). apply bind_ok in H as ([] & Hv & H).
  apply bind_ok in H as ([] & _ & H). apply bind_ok in H as ([ep ads] & Has & H).
  apply addressSpace32_ok in Has as (Hep & H32 & [= -> ->]).
  apply (validateRanges_ok _ sorted_wf) in Hv.
  pose proof (ranges_total _ sorted_wf Hv H32) as Htot.
  assert (0 <= total_size blobs) by (unfold total_size; lia).
  rewrite blobDataSize_total in H by (unfold MaxInt, MaxUint32 in *; lia).
  rewrite (uwrap_small 64) in H by (unfold is_u, MaxUint32 in *; lia).
  destruct (Z.ltb_spec MaxUint32 (Z.of_nat (length blobs))); [done|].
  destruct (Z.ltb_spec MaxUint32 (total_size blobs)); [done|]. cbn [orb] in H. simplify_eq.
  split; [done|]. exists cfg. split; [done|].
  destruct (includeExecutable cfg); split_and!; by simplify_map_eq.
Qed.

Lemma EncodeInputs_no_options :
  encodable (EntryPoint program) blobs ->
  exists inputs, EncodeInputs NewArray program additional [] = Ok inputs.
Proof.
  intros (Hv & Hep & H32 & Hlen & Htot). unfold EncodeInputs. fold blobs. cbn.
  rewrite (proj2 (validateRanges_ok _ sorted_wf) Hv). cbn.
  assert (addressSpace32 (EntryPoint program) blobs = Ok (EntryPoint program, Address <$> blobs)) as ->
    by (by apply addressSpace32_ok). cbn.
  assert (0 <= total_size blobs) by (unfold total_size; lia).
  rewrite blobDataSize_total by (unfold MaxInt, MaxUint32 in *; lia).
  rewrite (uwrap_small 64) by (unfold is_u, MaxUint32 in *; lia).
  destruct (Z.ltb_spec MaxUint32 (Z.of_nat (length blobs))); [lia|].
  destruct (Z.ltb_spec MaxUint32 (total_size blobs)); [lia|]. cbn. eauto.
Qed.
End EncodeLemmas.

(** ** Theorems *)

(** C26. The three inputs [EncodeInputs] returns determine the guest memory: read
    back as big-endian [u32] pairs with the data cut at the sizes, they give the
    entry point and, in stable address order, the address and the bytes of every
    blob of the program and of the job input. *)
Theorem EncodeInputs_roundtrip {BitArray} (NewArray : list Z -> Z -> BitArray)
    program additional options inputs :
  program_wf program -> Forall blob_wf additional ->
  EncodeInputs NewArray program additional options = Ok inputs ->
  exists ec offs data,
    inputs !! EntryPointAndBlobsCountInput = Some (BitArrayFromBytes NewArray ec) /\
    inputs !! BlobsOffsetAndSizeInput = Some (BitArrayFromBytes NewArray offs) /\
    inputs !! BlobsDataInput = Some (BitArrayFromBytes NewArray data) /\
    read_inputs ec offs data =
      (EntryPoint program,
       (fun b => (Address b, Data b)) <$> sort_stable Address (Blobs program ++ additional)).
Proof.
  intros Hp Ha H. apply EncodeInputs_ok in H as [(Hr & He & H32 & Hl & Ht) (cfg & _ & ? & ? & ? & _)];
    [|done..]. do 3 eexists. split_and!; [done..|].
  apply tables_roundtrip; try done; [|by apply sorted_wf].
  destruct Hp as [[? ?] _]. unfold is_u, MaxUint32 in *. lia.
Qed.

(** Without options, [EncodeInputs] succeeds exactly on the memories it
    promises: the non-empty blobs in stable address order are pairwise disjoint
    and do not wrap around, everything lies in the 32-bit address space, and the
    blob count and the total size fit a [u32]. *)
Theorem EncodeInputs_accepts {BitArray} (NewArray : list Z -> Z -> BitArray) program additional :
  program_wf program -> Forall blob_wf additional ->
  (exists inputs, EncodeInputs NewArray program additional [] = Ok inputs) <->
  encodable (EntryPoint program) (sort_stable Address (Blobs program ++ additional)).
Proof.
  intros Hp Ha. split.
  - intros [inputs H]. by apply EncodeInputs_ok in H as [? _].
  - by apply EncodeInputs_no_options.
Qed.

(** With [WithIncludeExecutable], the [blobs_executable] input holds one bit
    per blob, most significant bit first and in the order of the other inputs,
    followed by fewer than eight zero bits. *)
Theorem EncodeInputs_executable {BitArray} (NewArray : list Z -> Z -> BitArray)
    program additional inputs :
  program_wf program -> Forall blob_wf additional ->
  EncodeInputs NewArray program additional [Some WithIncludeExecutable] = Ok inputs ->
  exists bits pad,
    inputs !! BlobsExecutableInput = Some (BitArrayFromBytes NewArray bits) /\
    bits_of_bytes bits
      = (Executable <$> sort_stable Address (Blobs program ++ additional)) ++ replicate pad false /\
    (pad < 8)%nat.
Proof.
  intros Hp Ha H. apply EncodeInputs_ok in H as [_ (cfg & Hcfg & _ & _ & _ & Hx)]; [|done..].
  simplify_eq/=. do 2 eexists. split; [done|]. unfold encodeExecutableBits.
  split; [apply executable_bits_prefix|]; golia.
Qed.

(** The blobs extracted from an ELF are exactly its allocated, file-backed,
    non-empty sections contained in a loadable segment: each such section gives
    the blob with its address, bytes, name and executable flag, and there is no
    other blob. *)
Theorem extractBlobs_exact sort_slice f blobs :
  (forall l, sort_slice l ≡ₚ l) ->
  extractBlobs sort_slice f = Ok blobs ->
  blobs <> [] /\
  forall b, b ∈ blobs <-> exists ph s, ph ∈ elf_progs f /\ s ∈ elf_sections f /\
    loadable ph = true /\ contributes (ph_vaddr ph) (u64 (ph_vaddr ph + ph_memsz ph)) s b.
Proof.
  intros Hsort H. unfold extractBlobs in H. apply bind_ok in H as (bs & Hbs & H).
  destruct bs as [|b0 bs]; simplify_eq. split; [done|]. intros b.
  rewrite (extract_progs_ok _ _ _ _ _ Hsort Hbs), elem_of_nil. naive_solver.
Qed.

(** The byte a list of blobs maps at an address. *)
Definition mem_at (bs : list Blob) (a : Z) : list Z :=
  bs ≫= fun b => if bool_decide (Address b <= a) then
    match Data b !! Z.to_nat (a - Address b) with Some x => [x] | None => [] end else [].

(** The length-prefixed framing of the job input: unless the payload address
    wraps around, [NewData] maps the eight little-endian bytes of the length at
    the origin and the payload right behind, each address exactly once, and the
    prefix reads back as the length. *)
Theorem NewData_length_prefix address data :
  is_u 64 address -> Z.of_nat (length data) <= MaxInt ->
  match NewData address data [Some WithLengthPrefix] with
  | Ok bs =>
      address + 8 < 2 ^ 64 /\
      le_value (le_bytes 8 (Z.of_nat (length data))) = Z.of_nat (length data) /\
      forall i, (i < 8 + length data)%nat ->
        exists x, (le_bytes 8 (Z.of_nat (length data)) ++ data) !! i = Some x /\
          mem_at bs (address + Z.of_nat i) = [x]
  | Err e => e = ErrDataOffsetOverflow address /\ 2 ^ 64 <= address + 8
  | Panic => False
  end.
Proof.
  intros Ha Hl. unfold NewData. cbn -[Z.pow].
  unfold is_u, MaxInt in *. change (2 ^ 64) with 18446744073709551616 in *.
  change (2 ^ 63) with 9223372036854775808 in *. unfold uwrap.
  change (2 ^ 64) with 18446744073709551616.
  destruct (Z.ltb_spec ((address + 8) mod 18446744073709551616) address) as [Hlt|Hge].
  { split; [done|golia]. }
  assert (address + 8 < 18446744073709551616) as Hlt by golia.
  rewrite Z.mod_small by lia.
  set (px := le_bytes 8 (Z.of_nat (length data))).
  assert (length px = 8%nat) as Hpx by apply length_le_bytes.
  assert (forall bs, bs = [mkBlob address px "" false; mkBlob (address + 8) data "" false] \/
            data = [] /\ bs = [mkBlob address px "" false] ->
    address + 8 < 18446744073709551616 /\ le_value px = Z.of_nat (length data) /\
    forall i, (i < 8 + length data)%nat -> exists x, (px ++ data) !! i = Some x /\
      mem_at bs (address + Z.of_nat i) = [x]) as Hbs.
  { intros bs Hbs. split; [done|]. split.
    { unfold px. rewrite le_value_le_bytes. apply Z.mod_small.
      change (2 ^ (8 * Z.of_nat 8)) with 18446744073709551616. lia. }
    intros i Hi. destruct (lookup_lt_is_Some_2 (px ++ data) i) as [x Hx].
    { rewrite length_app. lia. }
    exists x. split; [done|]. apply lookup_app_Some in Hx.
    assert (Z.to_nat (address + Z.of_nat i - address) = i) as E0 by lia.
    destruct Hx as [Hx|[Hge' Hx]].
    - apply lookup_lt_Some in Hx as Hi'.
      destruct Hbs as [->|[-> ->]]; unfold mem_at; cbn -[Z.to_nat];
        rewrite bool_decide_eq_true_2 by lia; rewrite E0, Hx; [|done].
      rewrite bool_decide_eq_false_2 by lia. done.
    - destruct Hbs as [->|[-> ->]]; [|by rewrite lookup_nil in Hx].
      unfold mem_at; cbn -[Z.to_nat]. rewrite !bool_decide_eq_true_2 by lia.
      rewrite E0, lookup_ge_None_2 by lia.
      replace (Z.to_nat (address + Z.of_nat i - (address + 8))) with (i - length px)%nat by lia.
      by rewrite Hx. }
  destruct data; apply Hbs; auto.
Qed.

(** ** Concrete instances *)

Definition demo_code : Blob := mkBlob 0x1000 [0x13; 0x05; 0x10; 0; 0x73; 0; 0; 0] ".text" true.
Definition demo_data : Blob := mkBlob 0x2000 [7; 8] ".data" false.
Definition demo_program : Program := mkProgram 0x1000 [demo_data; demo_code].
Definition demo_input : list Blob := [mkBlob 0x08800000 (le_bytes 8 1) "" false;
                                      mkBlob 0x08800008 [0xff] "" false].
Definition bytes_array (bs : list Z) (n : Z) : list Z * Z := (bs, n).
Definition demo_inputs (o : list (option Option)) : gmap string (list Z * Z) :=
  match EncodeInputs bytes_array demo_program demo_input o with Ok i => i | _ => ∅ end.

(** Decides the well-formedness of concrete blobs. *)
Ltac solve_blob_wf :=
  repeat first [apply Forall_cons_2 | apply Forall_nil_2 | split];
  (vm_compute; first [reflexivity | (intros; discriminate)]).

Lemma demo_program_wf : program_wf demo_program.
Proof. unfold program_wf, demo_program, blob_wf, is_u; cbn -[Z.pow le_bytes]. solve_blob_wf. Qed.

Lemma demo_input_wf : Forall blob_wf demo_input.
Proof.
  unfold demo_input, blob_wf. repeat (apply Forall_cons_2 || apply Forall_nil_2);
    (split; [|split]); try apply le_bytes_bytes; unfold is_u; cbn -[Z.pow le_bytes]; solve_blob_wf.
Qed.

Lemma EncodeInputs_roundtrip_witness : exists ec offs data,
  demo_inputs [] !! EntryPointAndBlobsCountInput = Some (BitArrayFromBytes bytes_array ec) /\
  demo_inputs [] !! BlobsOffsetAndSizeInput = Some (BitArrayFromBytes bytes_array offs) /\
  demo_inputs [] !! BlobsDataInput = Some (BitArrayFromBytes bytes_array data) /\
  read_inputs ec offs data = (0x1000,
    [(0x1000, [0x13; 0x05; 0x10; 0; 0x73; 0; 0; 0]); (0x2000, [7; 8]);
     (0x08800000, [1; 0; 0; 0; 0; 0; 0; 0]); (0x08800008, [0xff])]).
Proof.
  apply (EncodeInputs_roundtrip bytes_array demo_program demo_input []);
    [apply demo_program_wf|apply demo_input_wf|vm_compute; reflexivity].
Defined.

Lemma EncodeInputs_accepts_witness :
  (exists inputs, EncodeInputs bytes_array demo_program demo_input [] = Ok inputs) /\
  ~ (exists inputs, EncodeInputs bytes_array demo_program [demo_data] [] = Ok inputs).
Proof.
  split.
  - exists (demo_inputs []). vm_compute. reflexivity.
  - rewrite (EncodeInputs_accepts bytes_array demo_program [demo_data]);
      [|apply demo_program_wf|unfold blob_wf, is_u; cbn -[Z.pow le_bytes]; solve_blob_wf].
    intros [[Hs _] _]. vm_compute in Hs. apply StronglySorted_inv in Hs as [Hs _].
    apply StronglySorted_inv in Hs as [_ Hs]. apply Forall_cons in Hs as [Hs _].
    vm_compute in Hs. by apply Hs.
Defined.

Lemma EncodeInputs_executable_witness : exists bits pad,
  demo_inputs [Some WithIncludeExecutable] !! BlobsExecutableInput
    = Some (BitArrayFromBytes bytes_array bits) /\
  bits_of_bytes bits = [true; false; false; false] ++ replicate pad false /\ (pad < 8)%nat.
Proof.
  apply (EncodeInputs_executable bytes_array demo_program demo_input);
    [apply demo_program_wf|apply demo_input_wf|vm_compute; reflexivity].
Defined.

Definition demo_elf : ElfFile := mkElfFile 0x1000
  [mkElfProg PT_LOAD 0x1000 0x10 0x20]
  [mkElfSection ".text" 1 (SHF_ALLOC + SHF_EXECINSTR) 0x1000 2 (Some [1; 2]);
   mkElfSection ".bss" SHT_NOBITS SHF_ALLOC 0x1010 8 None;
   mkElfSection ".debug" 1 0 0 3 (Some [9; 9; 9])].

Lemma extractBlobs_exact_witness :
  extractBlobs (sort_stable Address) demo_elf = Ok [mkBlob 0x1000 [1; 2] ".text" true] /\
  mkBlob 0x1000 [9; 9; 9] ".debug" false ∉ [mkBlob 0x1000 [1; 2] ".text" true].
Proof.
  assert (extractBlobs (sort_stable Address) demo_elf = Ok [mkBlob 0x1000 [1; 2] ".text" true]) as H
    by (vm_compute; reflexivity).
  split; [exact H|].
  intros Hin.
  pose proof (extractBlobs_exact (sort_stable Address) demo_elf _ (sort_stable_perm Address) H) as [_ Hx].
  apply Hx in Hin. destruct Hin as (ph & s & _ & Hs & _ & Hskip & _ & _ & _ & data & Hr & _ & Heq).
  unfold demo_elf in Hs. cbn [elf_sections] in Hs. rewrite !elem_of_cons, elem_of_nil in Hs.
  destruct Hs as [->|[->|[->|[]]]]; cbn in *; simplify_eq.
Defined.

Lemma NewData_length_prefix_witness :
  NewData 0x08800000 [5; 6] [Some WithLengthPrefix]
    = Ok [mkBlob 0x08800000 [2; 0; 0; 0; 0; 0; 0; 0] "" false; mkBlob 0x08800008 [5; 6] "" false] /\
  le_value (le_bytes 8 2) = 2.
Proof.
  assert (NewData 0x08800000 [5; 6] [Some WithLengthPrefix]
    = Ok [mkBlob 0x08800000 [2; 0; 0; 0; 0; 0; 0; 0] "" false; mkBlob 0x08800008 [5; 6] "" false])
    as E by (vm_compute; reflexivity).
  split; [exact E|].
  pose proof (NewData_length_prefix 0x08800000 [5; 6]
    ltac:(unfold is_u; lia) ltac:(unfold MaxInt; simpl; lia)) as H.
  rewrite E in H. destruct H as (_ & H & _). exact H.
Defined.
