(* ===== verification/Decode.v ===== *)
(** The RISC-V decoder of the R5 arithmetization: the classification and operand
    half of [arithmetization/gopkg/predecoding/decode.go].

    Words are [Z] in [[0, 2^32)]; the unsigned operations that can leave 32 bits
    are followed by [u32], the sign extensions by [i32].  The functions keep the
    names and the order of tests of the source.  The specification is independent
    of the code: a mask/match table of the instruction set, and encoders of the
    split immediates. *)
From S2P Require Import Prelude.

(** ** Constants *)

Definition undefinedType : Z := 0.
Definition rType : Z := 1.
Definition iType : Z := 2.
Definition sType : Z := 3.
Definition bType : Z := 4.
Definition uType : Z := 5.
Definition jType : Z := 6.
Definition miscMemType : Z := 7.
Definition opcodeOP : Z := 51.
Definition opcodeOP32 : Z := 59.
Definition opcodeLOAD : Z := 3.
Definition opcodeOPIMM : Z := 19.
Definition opcodeOPIMM32 : Z := 27.
Definition opcodeJALR : Z := 103.
Definition opcodeSYSTEM : Z := 115.
Definition opcodeMISCMEM : Z := 15.
Definition opcodeSTORE : Z := 35.
Definition opcodeBRANCH : Z := 99.
Definition opcodeLUI : Z := 55.
Definition opcodeAUIPC : Z := 23.
Definition opcodeJAL : Z := 111.
Definition opcodeCUSTOM1 : Z := 43.
Definition itypeRead8SgnWB : Z := 0.
Definition itypeRead16SgnWB : Z := 1.
Definition itypeRead32SgnWB : Z := 2.
Definition itypeRead64WB : Z := 3.
Definition itypeRead8ZextWB : Z := 4.
Definition itypeRead16ZextWB : Z := 5.
Definition itypeRead32ZextWB : Z := 6.
Definition itypeOpAddiWB : Z := 7.
Definition itypeOpSltiWB : Z := 8.
Definition itypeOpSltiuWB : Z := 9.
Definition itypeOpXoriWB : Z := 10.
Definition itypeOpOriWB : Z := 11.
Definition itypeOpAndiWB : Z := 12.
Definition itypeOpSlliWB : Z := 13.
Definition itypeOpSrliWB : Z := 14.
Definition itypeOpSraiWB : Z := 15.
Definition itypeOpAddiwWB : Z := 16.
Definition itypeOpSlliwWB : Z := 17.
Definition itypeOpSrliwWB : Z := 18.
Definition itypeOpSraiwWB : Z := 19.
Definition itypeJalr : Z := 20.
Definition itypeJalrWB : Z := 21.
Definition itypeEcall : Z := 22.
Definition itypeEbreak : Z := 23.
Definition itypeInvalid : Z := 63.
Definition rtypeOpAddWB : Z := 0.
Definition rtypeOpSubWB : Z := 1.
Definition rtypeOpSllWB : Z := 2.
Definition rtypeOpSltWB : Z := 3.
Definition rtypeOpSltuWB : Z := 4.
Definition rtypeOpXorWB : Z := 5.
Definition rtypeOpSrlWB : Z := 6.
Definition rtypeOpSraWB : Z := 7.
Definition rtypeOpOrWB : Z := 8.
Definition rtypeOpAndWB : Z := 9.
Definition rtypeOpMulWB : Z := 10.
Definition rtypeOpMulhWB : Z := 11.
Definition rtypeOpMulhsuWB : Z := 12.
Definition rtypeOpMulhuWB : Z := 13.
Definition rtypeOpDivWB : Z := 14.
Definition rtypeOpDivuWB : Z := 15.
Definition rtypeOpRemWB : Z := 16.
Definition rtypeOpRemuWB : Z := 17.
Definition rtypeOpAddwWB : Z := 18.
Definition rtypeOpSubwWB : Z := 19.
Definition rtypeOpSllwWB : Z := 20.
Definition rtypeOpSrlwWB : Z := 21.
Definition rtypeOpSrawWB : Z := 22.
Definition rtypeOpMulwWB : Z := 23.
Definition rtypeOpDivwWB : Z := 24.
Definition rtypeOpDivuwWB : Z := 25.
Definition rtypeOpRemwWB : Z := 26.
Definition rtypeOpRemuwWB : Z := 27.
Definition rtypeOpKeccak : Z := 28.
Definition rtypeOpPoseidon2 : Z := 29.
Definition rtypeInvalid : Z := 63.
Definition stypeStore8 : Z := 0.
Definition stypeStore16 : Z := 1.
Definition stypeStore32 : Z := 2.
Definition stypeStore64 : Z := 3.
Definition stypeInvalid : Z := 63.
Definition btypeInvalid : Z := 63.
Definition jtypeJal : Z := 0.
Definition jtypeJalWB : Z := 1.
Definition jtypeInvalid : Z := 63.
Definition utypeLuiWB : Z := 0.
Definition utypeAuipcWB : Z := 1.
Definition utypeInvalid : Z := 63.
Definition funct12Ecall : Z := 0.
Definition funct12Ebreak : Z := 1.
Definition computeNoOp : Z := 0.
Definition computeITypeBase : Z := 1.
Definition computeRTypeBase : Z := 25.
Definition computeSTypeBase : Z := 56.
Definition computeBTypeBase : Z := 60.
Definition computeJTypeBase : Z := 66.
Definition computeUTypeBase : Z := 68.
Definition computeInvalid : Z := 255.

(** ** Classification *)

Definition instructionTypeFromOpcode (opcode : Z) : Z :=
  if (opcode =? opcodeOP) || (opcode =? opcodeOP32) || (opcode =? opcodeCUSTOM1) then rType
  else if (opcode =? opcodeLOAD) || (opcode =? opcodeOPIMM) || (opcode =? opcodeOPIMM32)
       || (opcode =? opcodeJALR) || (opcode =? opcodeSYSTEM) then iType
  else if opcode =? opcodeSTORE then sType
  else if opcode =? opcodeBRANCH then bType
  else if (opcode =? opcodeLUI) || (opcode =? opcodeAUIPC) then uType
  else if opcode =? opcodeJAL then jType
  else if opcode =? opcodeMISCMEM then miscMemType
  else undefinedType.

Definition shouldUseNoOp (instrType rd localOp opcode : Z) : bool :=
  if negb (rd =? 0) then false
  else if instrType =? miscMemType then true
  else if instrType =? iType then
    if localOp =? itypeInvalid then false
    else if (localOp =? itypeJalr) || (localOp =? itypeEcall) || (localOp =? itypeEbreak)
    then false else true
  else if instrType =? rType then
    if localOp =? rtypeInvalid then false
    else if (localOp =? rtypeOpKeccak) || (localOp =? rtypeOpPoseidon2) then false else true
  else if instrType =? uType then negb (localOp =? utypeInvalid)
  else if instrType =? jType then false
  else false.

Definition itypeOpForRd (localOp rd : Z) : Z :=
  if (rd =? 0) || (localOp =? itypeEcall) || (localOp =? itypeEbreak) || (localOp =? itypeInvalid)
  then localOp
  else if localOp =? itypeJalr then itypeJalrWB
  else localOp.

Definition rtypeOpForRd (localOp rd : Z) : Z := localOp.

Definition jtypeOpForRd (baseOp rd : Z) : Z :=
  if (rd =? 0) || (baseOp =? jtypeInvalid) then baseOp
  else if baseOp =? jtypeJal then jtypeJalWB
  else baseOp.

Definition utypeOpForRd (localOp rd : Z) : Z := localOp.

(** The Go map from branch [funct3] to its index. *)
Definition bTypeUnifiedIndex : list (Z * Z) := [(0, 0); (1, 1); (4, 2); (5, 3); (6, 4); (7, 5)].

Fixpoint assoc (k : Z) (m : list (Z * Z)) : option Z :=
  match m with
  | [] => None
  | (k', v) :: m => if k =? k' then Some v else assoc k m
  end.

Definition unifiedComputeOp (instrType localOp : Z) : Z :=
  if instrType =? miscMemType then computeNoOp
  else if instrType =? iType then
    if localOp =? itypeInvalid then computeInvalid else u32 (computeITypeBase + localOp)
  else if instrType =? rType then
    if localOp =? rtypeInvalid then computeInvalid else u32 (computeRTypeBase + localOp)
  else if instrType =? sType then
    if localOp =? stypeInvalid then computeInvalid else u32 (computeSTypeBase + localOp)
  else if instrType =? bType then
    match assoc localOp bTypeUnifiedIndex with
    | None => computeInvalid
    | Some idx => u32 (computeBTypeBase + idx)
    end
  else if instrType =? jType then
    if localOp =? jtypeInvalid then computeInvalid else u32 (computeJTypeBase + localOp)
  else if instrType =? uType then
    if localOp =? utypeInvalid then computeInvalid else u32 (computeUTypeBase + localOp)
  else computeInvalid.

Definition finalizeComputeOp (instrType localOp rd opcode : Z) : Z :=
  let op := unifiedComputeOp instrType localOp in
  if op =? computeInvalid then computeInvalid
  else if shouldUseNoOp instrType rd localOp opcode then computeNoOp
  else op.

Definition decodeITypeSemantic (opcode funct3 imm12 : Z) : Z * Z :=
  let funct6 := (imm12 ≫ 6) &&& 0x3f in
  let funct7FromImm := (imm12 ≫ 5) &&& 0x7f in
  let uimm6 := imm12 &&& 0x3f in
  let uimm5 := imm12 &&& 0x1f in
  if opcode =? opcodeLOAD then
    if funct3 =? 0 then (itypeRead8SgnWB, imm12)
    else if funct3 =? 1 then (itypeRead16SgnWB, imm12)
    else if funct3 =? 2 then (itypeRead32SgnWB, imm12)
    else if funct3 =? 3 then (itypeRead64WB, imm12)
    else if funct3 =? 4 then (itypeRead8ZextWB, imm12)
    else if funct3 =? 5 then (itypeRead16ZextWB, imm12)
    else if funct3 =? 6 then (itypeRead32ZextWB, imm12)
    else (itypeInvalid, imm12)
  else if opcode =? opcodeOPIMM then
    if funct3 =? 0 then (itypeOpAddiWB, imm12)
    else if funct3 =? 2 then (itypeOpSltiWB, imm12)
    else if funct3 =? 3 then (itypeOpSltiuWB, imm12)
    else if funct3 =? 4 then (itypeOpXoriWB, imm12)
    else if funct3 =? 6 then (itypeOpOriWB, imm12)
    else if funct3 =? 7 then (itypeOpAndiWB, imm12)
    else if funct3 =? 1 then
      if negb (funct6 =? 0) then (itypeInvalid, imm12) else (itypeOpSlliWB, uimm6)
    else if funct3 =? 5 then
      if funct6 =? 0 then (itypeOpSrliWB, uimm6)
      else if funct6 =? 0x10 then (itypeOpSraiWB, uimm6)
      else (itypeInvalid, imm12)
    else (itypeInvalid, imm12)
  else if opcode =? opcodeOPIMM32 then
    if funct3 =? 0 then (itypeOpAddiwWB, imm12)
    else if funct3 =? 1 then
      if negb (funct7FromImm =? 0) then (itypeInvalid, imm12) else (itypeOpSlliwWB, uimm5)
    else if funct3 =? 5 then
      if funct7FromImm =? 0 then (itypeOpSrliwWB, uimm5)
      else if funct7FromImm =? 0x20 then (itypeOpSraiwWB, uimm5)
      else (itypeInvalid, imm12)
    else (itypeInvalid, imm12)
  else if opcode =? opcodeJALR then
    if negb (funct3 =? 0) then (itypeInvalid, imm12) else (itypeJalr, imm12)
  else if opcode =? opcodeSYSTEM then
    if funct3 =? 0 then
      if imm12 =? funct12Ecall then (itypeEcall, imm12)
      else if imm12 =? funct12Ebreak then (itypeEbreak, imm12)
      else (itypeInvalid, imm12)
    else (itypeInvalid, imm12)
  else (itypeInvalid, imm12).

Definition decodeRTypeSemantic (opcode funct3 funct7 : Z) : Z :=
  if opcode =? opcodeOP then
    if funct7 =? 1 then
      if funct3 =? 0 then rtypeOpMulWB else if funct3 =? 1 then rtypeOpMulhWB
      else if funct3 =? 2 then rtypeOpMulhsuWB else if funct3 =? 3 then rtypeOpMulhuWB
      else if funct3 =? 4 then rtypeOpDivWB else if funct3 =? 5 then rtypeOpDivuWB
      else if funct3 =? 6 then rtypeOpRemWB else if funct3 =? 7 then rtypeOpRemuWB
      else rtypeInvalid
    else if funct7 =? 0 then
      if funct3 =? 0 then rtypeOpAddWB else if funct3 =? 1 then rtypeOpSllWB
      else if funct3 =? 2 then rtypeOpSltWB else if funct3 =? 3 then rtypeOpSltuWB
      else if funct3 =? 4 then rtypeOpXorWB else if funct3 =? 5 then rtypeOpSrlWB
      else if funct3 =? 6 then rtypeOpOrWB else if funct3 =? 7 then rtypeOpAndWB
      else rtypeInvalid
    else if funct7 =? 0x20 then
      if funct3 =? 0 then rtypeOpSubWB else if funct3 =? 5 then rtypeOpSraWB
      else rtypeInvalid
    else rtypeInvalid
  else if opcode =? opcodeOP32 then
    if funct7 =? 1 then
      if funct3 =? 0 then rtypeOpMulwWB else if funct3 =? 4 then rtypeOpDivwWB
      else if funct3 =? 5 then rtypeOpDivuwWB else if funct3 =? 6 then rtypeOpRemwWB
      else if funct3 =? 7 then rtypeOpRemuwWB
      else rtypeInvalid
    else if funct7 =? 0 then
      if funct3 =? 0 then rtypeOpAddwWB else if funct3 =? 1 then rtypeOpSllwWB
      else if funct3 =? 5 then rtypeOpSrlwWB
      else rtypeInvalid
    else if funct7 =? 0x20 then
      if funct3 =? 0 then rtypeOpSubwWB else if funct3 =? 5 then rtypeOpSrawWB
      else rtypeInvalid
    else rtypeInvalid
  else if opcode =? opcodeCUSTOM1 then
    if negb (funct7 =? 0) then rtypeInvalid
    else if funct3 =? 0 then rtypeOpKeccak
    else if funct3 =? 1 then rtypeOpPoseidon2
    else rtypeInvalid
  else rtypeInvalid.

Definition decodeSTypeSemantic (funct3 : Z) : Z :=
  if funct3 =? 0 then stypeStore8
  else if funct3 =? 1 then stypeStore16
  else if funct3 =? 2 then stypeStore32
  else if funct3 =? 3 then stypeStore64
  else stypeInvalid.

Definition decodeBTypeSemantic (funct3 : Z) : Z :=
  if (funct3 =? 0) || (funct3 =? 1) || (funct3 =? 4) || (funct3 =? 5) || (funct3 =? 6)
     || (funct3 =? 7) then funct3
  else btypeInvalid.

Definition decodeJTypeSemantic (opcode : Z) : Z :=
  if opcode =? opcodeJAL then jtypeJal else jtypeInvalid.

Definition decodeUTypeSemantic (opcode : Z) : Z :=
  if opcode =? opcodeLUI then utypeLuiWB
  else if opcode =? opcodeAUIPC then utypeAuipcWB
  else utypeInvalid.

Definition classifyInstruction (instruction : Z) : Z :=
  let opcode := instruction &&& 0x7f in
  let rd := (instruction ≫ 7) &&& 0x1f in
  let funct3 := (instruction ≫ 12) &&& 0x7 in
  let imm12 := (instruction ≫ 20) &&& 0xfff in
  let funct7 := (instruction ≫ 25) &&& 0x7f in
  let instructionType := instructionTypeFromOpcode opcode in
  let itypeOp := (decodeITypeSemantic opcode funct3 imm12).1 in
  let itypeOp := if negb (instructionType =? iType) then itypeInvalid else itypeOp in
  let itypeOp := itypeOpForRd itypeOp rd in
  let rtypeOp := decodeRTypeSemantic opcode funct3 funct7 in
  let rtypeOp := if negb (instructionType =? rType) then rtypeInvalid else rtypeOp in
  let rtypeOp := rtypeOpForRd rtypeOp rd in
  let stypeOp := decodeSTypeSemantic funct3 in
  let stypeOp := if negb (instructionType =? sType) then stypeInvalid else stypeOp in
  let btypeOp := decodeBTypeSemantic funct3 in
  let btypeOp := if negb (instructionType =? bType) then btypeInvalid else btypeOp in
  let jtypeOp := decodeJTypeSemantic opcode in
  let jtypeOp := if negb (instructionType =? jType) then jtypeInvalid else jtypeOp in
  let jtypeOp := jtypeOpForRd jtypeOp rd in
  let utypeOp := decodeUTypeSemantic opcode in
  let utypeOp := if negb (instructionType =? uType) then utypeInvalid else utypeOp in
  let utypeOp := utypeOpForRd utypeOp rd in
  let localOp :=
    if instructionType =? miscMemType then 0
    else if instructionType =? iType then itypeOp
    else if instructionType =? rType then rtypeOp
    else if instructionType =? sType then stypeOp
    else if instructionType =? bType then btypeOp
    else if instructionType =? jType then jtypeOp
    else if instructionType =? uType then utypeOp
    else itypeInvalid in
  finalizeComputeOp instructionType localOp rd opcode.

(** ** Immediates and operands *)

Definition signExtend21 (x : Z) : Z :=
  let x := x &&& 0x1fffff in i32 (u32 (x ≪ 11)) ≫ 11.
Definition signExtend13 (x : Z) : Z :=
  let x := x &&& 0x1fff in i32 (u32 (x ≪ 19)) ≫ 19.
Definition signExtend12 (x : Z) : Z :=
  let x := x &&& 0xfff in i32 (u32 (x ≪ 20)) ≫ 20.

Definition assembleJTypeImm (instr : Z) : Z :=
  let imm20 := (instr ≫ 31) &&& 0x1 in
  let imm10_1 := (instr ≫ 21) &&& 0x3ff in
  let imm11 := (instr ≫ 20) &&& 0x1 in
  let imm19_12 := (instr ≫ 12) &&& 0xff in
  let imm21 := u32 ((imm20 ≪ 20) ||| (imm19_12 ≪ 12) ||| (imm11 ≪ 11) ||| (imm10_1 ≪ 1)) in
  u64 (signExtend21 imm21).

Definition assembleBTypeImm (instr : Z) : Z :=
  let immSign := (instr ≫ 31) &&& 0x1 in
  let imm10_5 := (instr ≫ 25) &&& 0x3f in
  let imm4_1 := (instr ≫ 8) &&& 0xf in
  let imm11 := (instr ≫ 7) &&& 0x1 in
  let imm13 := u32 ((immSign ≪ 12) ||| (imm11 ≪ 11) ||| (imm10_5 ≪ 5) ||| (imm4_1 ≪ 1)) in
  u64 (signExtend13 imm13).

Definition assembleUTypeImm (instr : Z) : Z :=
  let imm20 := (instr ≫ 12) &&& 0xfffff in
  let word := u32 (imm20 ≪ 12) in
  u64 (i32 word).

Definition assembleSTypeImm (simm12 : Z) : Z := u64 (signExtend12 simm12).
Definition assembleITypeImm (normImm12 : Z) : Z := assembleSTypeImm normImm12.

Definition unifiedOperands (instrType normImm12 simm12 bImm jImm uImm rs1 rs2 rd : Z) :
    Z * Z * Z * Z :=
  if instrType =? iType then (assembleITypeImm normImm12, rs1, 0, rd)
  else if instrType =? rType then (0, rs1, rs2, rd)
  else if instrType =? sType then (assembleSTypeImm simm12, rs1, rs2, 0)
  else if instrType =? bType then (bImm, rs1, rs2, 0)
  else if instrType =? jType then (jImm, 0, 0, rd)
  else if instrType =? uType then (uImm, 0, 0, rd)
  else (assembleITypeImm normImm12, rs1, rs2, rd).

(** The row [decodeInstruction] computes before it is packed: [compute_op],
    [imm], [rs1], [rs2], [rd]. *)
Definition decodedRow (instruction : Z) : Z * Z * Z * Z * Z :=
  let opcode := instruction &&& 0x7f in
  let rd := (instruction ≫ 7) &&& 0x1f in
  let funct3 := (instruction ≫ 12) &&& 0x7 in
  let rs1 := (instruction ≫ 15) &&& 0x1f in
  let rs2 := (instruction ≫ 20) &&& 0x1f in
  let imm12 := (instruction ≫ 20) &&& 0xfff in
  let instructionType := instructionTypeFromOpcode opcode in
  let simm12 := u32 ((((instruction ≫ 31) &&& 1) ≪ 11) |||
                     (((instruction ≫ 25) &&& 0x3f) ≪ 5) |||
                     ((instruction ≫ 7) &&& 0x1f)) in
  let normalizedImm12 := (decodeITypeSemantic opcode funct3 imm12).2 in
  let normalizedImm12 :=
    if negb (instructionType =? iType) then imm12 else normalizedImm12 in
  let '(imm, operandRS1, operandRS2, operandRD) :=
    unifiedOperands instructionType normalizedImm12 simm12
      (assembleBTypeImm instruction) (assembleJTypeImm instruction)
      (assembleUTypeImm instruction) rs1 rs2 rd in
  (classifyInstruction instruction, imm, operandRS1, operandRS2, operandRD).

(** ** Specification: the instruction set as a mask/match table

    One line per instruction: an instruction word [x] is an instance of the line
    when [x & mask = match]; the last column is the [ComputeOp] value that
    [arithmetization/src/main/common/constants.zkc] gives it (the write-back
    variant where there are two). *)
Definition isa_table : list (Z * Z * Z) := [
  (* loads: lb lh lw ld lbu lhu lwu *)
  (0x707f, 0x3, 1); (0x707f, 0x1003, 2); (0x707f, 0x2003, 3); (0x707f, 0x3003, 4);
  (0x707f, 0x4003, 5); (0x707f, 0x5003, 6); (0x707f, 0x6003, 7);
  (* addi slti sltiu xori ori andi slli srli srai *)
  (0x707f, 0x13, 8); (0x707f, 0x2013, 9); (0x707f, 0x3013, 10); (0x707f, 0x4013, 11);
  (0x707f, 0x6013, 12); (0x707f, 0x7013, 13);
  (0xfc00707f, 0x1013, 14); (0xfc00707f, 0x5013, 15); (0xfc00707f, 0x40005013, 16);
  (* addiw slliw srliw sraiw *)
  (0x707f, 0x1b, 17); (0xfe00707f, 0x101b, 18); (0xfe00707f, 0x501b, 19);
  (0xfe00707f, 0x4000501b, 20);
  (* jalr ecall ebreak *)
  (0x707f, 0x67, 22); (0xfff0707f, 0x73, 23); (0xfff0707f, 0x100073, 24);
  (* add sub sll slt sltu xor srl sra or and *)
  (0xfe00707f, 0x33, 25); (0xfe00707f, 0x40000033, 26); (0xfe00707f, 0x1033, 27);
  (0xfe00707f, 0x2033, 28); (0xfe00707f, 0x3033, 29); (0xfe00707f, 0x4033, 30);
  (0xfe00707f, 0x5033, 31); (0xfe00707f, 0x40005033, 32); (0xfe00707f, 0x6033, 33);
  (0xfe00707f, 0x7033, 34);
  (* mul mulh mulhsu mulhu div divu rem remu *)
  (0xfe00707f, 0x2000033, 35); (0xfe00707f, 0x2001033, 36); (0xfe00707f, 0x2002033, 37);
  (0xfe00707f, 0x2003033, 38); (0xfe00707f, 0x2004033, 39); (0xfe00707f, 0x2005033, 40);
  (0xfe00707f, 0x2006033, 41); (0xfe00707f, 0x2007033, 42);
  (* addw subw sllw srlw sraw mulw divw divuw remw remuw *)
  (0xfe00707f, 0x3b, 43); (0xfe00707f, 0x4000003b, 44); (0xfe00707f, 0x103b, 45);
  (0xfe00707f, 0x503b, 46); (0xfe00707f, 0x4000503b, 47); (0xfe00707f, 0x200003b, 48);
  (0xfe00707f, 0x200403b, 49); (0xfe00707f, 0x200503b, 50); (0xfe00707f, 0x200603b, 51);
  (0xfe00707f, 0x200703b, 52);
  (* custom-1: keccak poseidon2 *)
  (0xfe00707f, 0x2b, 53); (0xfe00707f, 0x102b, 54);
  (* sb sh sw sd *)
  (0x707f, 0x23, 56); (0x707f, 0x1023, 57); (0x707f, 0x2023, 58); (0x707f, 0x3023, 59);
  (* beq bne blt bge bltu bgeu *)
  (0x707f, 0x63, 60); (0x707f, 0x1063, 61); (0x707f, 0x4063, 62); (0x707f, 0x5063, 63);
  (0x707f, 0x6063, 64); (0x707f, 0x7063, 65);
  (* jal lui auipc, and the fences *)
  (0x7f, 0x6f, 67); (0x7f, 0x37, 68); (0x7f, 0x17, 69); (0x7f, 0xf, 0)].

Fixpoint isa_lookup (x : Z) (table : list (Z * Z * Z)) : Z :=
  match table with
  | [] => 255
  | (mask, m, op) :: t => if (x &&& mask) =? m then op else isa_lookup x t
  end.

(** The destination [x0] discards a result: the two jumps lose their write-back,
    ecall, ebreak, the precompiles, the stores, the branches and the invalid
    words keep their operation, everything else is inert. *)
Definition discard_rd0 (op : Z) : Z :=
  if op =? 22 then 21 else if op =? 67 then 66
  else if (op =? 23) || (op =? 24) || (op =? 53) || (op =? 54)
       || ((56 <=? op) && (op <=? 65)) || (op =? 255) then op
  else 0.

(** ** Lemmas: bit fields *)

Definition field (x lo w : Z) : Z := (x ≫ lo) &&& Z.ones w.

Lemma field_range x lo w : 0 <= w -> 0 <= field x lo w < 2 ^ w.
Proof. intros. by apply land_ones_range. Qed.

Lemma field_0 x w : field x 0 w = x &&& Z.ones w.
Proof. unfold field. by rewrite Z.shiftr_0_r. Qed.

Lemma land_shifted_ones x w lo :
  0 <= lo -> 0 <= w -> x &&& (Z.ones w ≪ lo) = field x lo w ≪ lo.
Proof.
  intros Hlo Hw. apply Z.bits_inj'. intros i Hi. unfold field.
  rewrite Z.land_spec, !Z.shiftl_spec by lia.
  destruct (Z.ltb_spec i lo).
  - rewrite !(Z.testbit_neg_r _ (i - lo)) by lia. by rewrite andb_false_r.
  - rewrite Z.land_spec, Z.shiftr_spec by lia. by replace (i - lo + lo) with i by lia.
Qed.

Lemma lor_shift_add a b n :
  0 <= n -> 0 <= a < 2 ^ n -> a ||| (b ≪ n) = a + b * 2 ^ n.
Proof.
  intros Hn Ha. rewrite <- Z.shiftl_mul_pow2 by done.
  assert (a &&& (b ≪ n) = 0) as H0.
  { apply Z.bits_inj'. intros i Hi. rewrite Z.land_spec, Z.bits_0.
    destruct (Z.ltb_spec i n).
    - rewrite Z.shiftl_spec_low by lia. apply andb_false_r.
    - rewrite (testbit_above n a) by (done || lia). done. }
  rewrite Z.add_nocarry_lxor by done. symmetry. by apply Z.lxor_lor.
Qed.

Lemma mask_707f x : x &&& 0x707f = field x 0 7 + field x 12 3 * 4096.
Proof.
  change 0x707f with (Z.ones 7 ||| (Z.ones 3 ≪ 12)).
  rewrite Z.land_lor_distr_r, land_shifted_ones by lia.
  change 4096 with (2 ^ 12). pose proof (land_ones_range 7 x ltac:(lia)) as [? ?].
  rewrite lor_shift_add; [|lia|].
  - by rewrite field_0.
  - change (2 ^ 12) with 4096. change (2 ^ 7) with 128 in *. lia.
Qed.

Lemma mask_high x w lo :
  15 <= lo -> 0 <= w ->
  x &&& (0x707f ||| (Z.ones w ≪ lo)) = field x 0 7 + field x 12 3 * 4096 + field x lo w * 2 ^ lo.
Proof.
  intros Hlo Hw. rewrite Z.land_lor_distr_r, land_shifted_ones, mask_707f by lia.
  apply lor_shift_add; [lia|].
  pose proof (field_range x 0 7 ltac:(lia)) as H1. pose proof (field_range x 12 3 ltac:(lia)) as H2.
  change (2 ^ 7) with 128 in H1. change (2 ^ 3) with 8 in H2.
  assert (2 ^ 15 <= 2 ^ lo) by (apply Z.pow_le_mono_r; lia). change (2 ^ 15) with 32768 in *. lia.
Qed.

(** One line of the table as a test on the fields of the word. *)
Definition line_test (mask m op f3 f7 f6 imm12 : Z) : bool :=
  if mask =? 0x7f then m =? op
  else if mask =? 0x707f then m =? op + f3 * 4096
  else if mask =? 0xfe00707f then (m mod 2 ^ 25 =? op + f3 * 4096) && (f7 =? m / 2 ^ 25)
  else if mask =? 0xfc00707f then (m mod 2 ^ 26 =? op + f3 * 4096) && (f6 =? m / 2 ^ 26)
  else (m mod 2 ^ 20 =? op + f3 * 4096) && (imm12 =? m / 2 ^ 20).

Fixpoint lookup_fields (op f3 f7 f6 imm12 : Z) (table : list (Z * Z * Z)) : Z :=
  match table with
  | [] => 255
  | (mask, m, r) :: t =>
      if line_test mask m op f3 f7 f6 imm12 then r else lookup_fields op f3 f7 f6 imm12 t
  end.

Definition known_mask (mask : Z) : bool :=
  (mask =? 0x7f) || (mask =? 0x707f) || (mask =? 0xfe00707f) || (mask =? 0xfc00707f)
  || (mask =? 0xfff0707f).

Lemma high_test m op f3 fh lo :
  15 <= lo -> 0 <= op < 128 -> 0 <= f3 < 8 -> 0 <= m -> 0 <= fh ->
  (op + f3 * 4096 + fh * 2 ^ lo =? m) = ((m mod 2 ^ lo =? op + f3 * 4096) && (fh =? m / 2 ^ lo)).
Proof.
  intros Hlo Hop Hf3 Hm Hfh.
  assert (2 ^ 15 <= 2 ^ lo) as Hp by (apply Z.pow_le_mono_r; lia). change (2 ^ 15) with 32768 in Hp.
  pose proof (Z.div_mod m (2 ^ lo) ltac:(lia)) as Hdm.
  pose proof (Z.mod_pos_bound m (2 ^ lo) ltac:(lia)) as Hb.
  destruct (Z.eqb_spec (m mod 2 ^ lo) (op + f3 * 4096)) as [E1|E1];
    destruct (Z.eqb_spec fh (m / 2 ^ lo)) as [E2|E2]; cbn;
    [apply Z.eqb_eq; subst fh; lia|apply Z.eqb_neq..]; intros E; [apply E2|apply E1|apply E1].
  - rewrite <- E, Z.div_add by lia. rewrite Z.div_small by lia. lia.
  - rewrite <- E, Z.mod_add, Z.mod_small by lia. done.
  - rewrite <- E, Z.mod_add, Z.mod_small by lia. done.
Qed.

Lemma line_test_ok x mask m :
  known_mask mask = true -> 0 <= m ->
  ((x &&& mask) =? m)
  = line_test mask m (field x 0 7) (field x 12 3) (field x 25 7) (field x 26 6) (field x 20 12).
Proof.
  intros Hk Hm. unfold line_test.
  pose proof (field_range x 0 7 ltac:(lia)). pose proof (field_range x 12 3 ltac:(lia)).
  pose proof (field_range x 25 7 ltac:(lia)). pose proof (field_range x 26 6 ltac:(lia)).
  pose proof (field_range x 20 12 ltac:(lia)).
  unfold known_mask in Hk.
  destruct (Z.eqb_spec mask 0x7f) as [->|_].
  { by rewrite Z.eqb_sym, field_0. }
  destruct (Z.eqb_spec mask 0x707f) as [->|_]; [by rewrite mask_707f, Z.eqb_sym|].
  destruct (Z.eqb_spec mask 0xfe00707f) as [->|_].
  { change 0xfe00707f with (0x707f ||| (Z.ones 7 ≪ 25)). rewrite mask_high by lia.
    apply high_test; lia. }
  destruct (Z.eqb_spec mask 0xfc00707f) as [->|_].
  { change 0xfc00707f with (0x707f ||| (Z.ones 6 ≪ 26)). rewrite mask_high by lia.
    apply high_test; lia. }
  apply Z.eqb_eq in Hk as ->.
  change 0xfff0707f with (0x707f ||| (Z.ones 12 ≪ 20)). rewrite mask_high by lia.
  apply high_test; lia.
Qed.

Lemma isa_lookup_fields x table :
  forallb (fun '(mask, m, _) => known_mask mask && (0 <=? m)) table = true ->
  isa_lookup x table
  = lookup_fields (field x 0 7) (field x 12 3) (field x 25 7) (field x 26 6) (field x 20 12) table.
Proof.
  induction table as [|[[mask m] r] table IH]; [done|]. cbn [forallb isa_lookup lookup_fields].
  intros [[Hk Hm]%andb_true_iff Ht]%andb_true_iff.
  rewrite line_test_ok, IH; [done..|lia].
Qed.

(** The fields of the code are the fields of the word. *)
Lemma imm12_funct6 x : (field x 20 12 ≫ 6) &&& 0x3f = field x 26 6.
Proof.
  unfold field. change 0x3f with (Z.ones 6). apply Z.bits_inj'. intros i Hi.
  rewrite !Z.land_spec, !Z.shiftr_spec, Z.land_spec, Z.shiftr_spec by lia.
  replace (i + 6 + 20) with (i + 26) by lia.
  destruct (Z.ltb_spec i 6).
  - rewrite (Z.ones_spec_low 12), (Z.ones_spec_low 6) by lia. by rewrite !andb_true_r.
  - rewrite (Z.ones_spec_high 6) by lia. by rewrite !andb_false_r.
Qed.

Lemma imm12_funct7 x : (field x 20 12 ≫ 5) &&& 0x7f = field x 25 7.
Proof.
  unfold field. change 0x7f with (Z.ones 7). apply Z.bits_inj'. intros i Hi.
  rewrite !Z.land_spec, !Z.shiftr_spec, Z.land_spec, Z.shiftr_spec by lia.
  replace (i + 5 + 20) with (i + 25) by lia.
  destruct (Z.ltb_spec i 7).
  - rewrite (Z.ones_spec_low 12), (Z.ones_spec_low 7) by lia. by rewrite !andb_true_r.
  - rewrite (Z.ones_spec_high 7) by lia. by rewrite !andb_false_r.
Qed.

(** [decodeITypeSemantic] with its two function fields named. *)
Definition itype_op (opcode funct3 funct6 funct7 imm12 : Z) : Z :=
  if opcode =? opcodeLOAD then if funct3 <? 7 then funct3 else 63
  else if opcode =? opcodeOPIMM then
    if funct3 =? 0 then 7 else if funct3 =? 1 then if funct6 =? 0 then 13 else 63
    else if funct3 =? 2 then 8 else if funct3 =? 3 then 9 else if funct3 =? 4 then 10
    else if funct3 =? 5 then if funct6 =? 0 then 14 else if funct6 =? 16 then 15 else 63
    else if funct3 =? 6 then 11 else 12
  else if opcode =? opcodeOPIMM32 then
    if funct3 =? 0 then 16 else if funct3 =? 1 then if funct7 =? 0 then 17 else 63
    else if funct3 =? 5 then if funct7 =? 0 then 18 else if funct7 =? 32 then 19 else 63
    else 63
  else if opcode =? opcodeJALR then if funct3 =? 0 then 20 else 63
  else if opcode =? opcodeSYSTEM then
    if funct3 =? 0 then if imm12 =? funct12Ecall then 22 else if imm12 =? funct12Ebreak then 23
    else 63 else 63
  else 63.

Lemma decodeIType_op opcode x :
  (decodeITypeSemantic opcode (field x 12 3) (field x 20 12)).1
  = itype_op opcode (field x 12 3) (field x 26 6) (field x 25 7) (field x 20 12).
Proof.
  unfold decodeITypeSemantic, itype_op. rewrite imm12_funct6, imm12_funct7.
  pose proof (field_range x 12 3 ltac:(lia)) as H3. change (2 ^ 3) with 8 in H3.
  generalize dependent (field x 12 3). intros f3 H3.
  repeat (lazymatch goal with |- context [opcode =? ?k] => destruct (opcode =? k) end; cbn [fst]).
  all: assert (f3 = 0 \/ f3 = 1 \/ f3 = 2 \/ f3 = 3 \/ f3 = 4 \/ f3 = 5 \/ f3 = 6 \/ f3 = 7) as D by lia.
  all: destruct D as [->|[->|[->|[->|[->|[->|[->| ->]]]]]]]; cbn -[Z.shiftr Z.land field];
    repeat (match goal with |- context [?a =? ?b] => destruct (a =? b) end;
      cbn -[Z.shiftr Z.land field]); done.
Qed.

(** [classifyInstruction] as a function of the fields. *)
Definition classify_fields (opcode rd f3 f7 f6 imm12 : Z) : Z :=
  let instructionType := instructionTypeFromOpcode opcode in
  let localOp :=
    if instructionType =? miscMemType then 0
    else if instructionType =? iType then itypeOpForRd (itype_op opcode f3 f6 f7 imm12) rd
    else if instructionType =? rType then decodeRTypeSemantic opcode f3 f7
    else if instructionType =? sType then decodeSTypeSemantic f3
    else if instructionType =? bType then decodeBTypeSemantic f3
    else if instructionType =? jType then jtypeOpForRd (decodeJTypeSemantic opcode) rd
    else if instructionType =? uType then decodeUTypeSemantic opcode
    else itypeInvalid in
  finalizeComputeOp instructionType localOp rd opcode.

Lemma classify_fields_ok x :
  classifyInstruction x
  = classify_fields (field x 0 7) (field x 7 5) (field x 12 3) (field x 25 7) (field x 26 6) (field x 20 12).
Proof.
  unfold classifyInstruction, classify_fields. rewrite field_0.
  change 0x7f with (Z.ones 7). change 0x1f with (Z.ones 5). change 0x7 with (Z.ones 3).
  change 0xfff with (Z.ones 12). fold (field x 7 5) (field x 12 3) (field x 20 12) (field x 25 7).
  rewrite decodeIType_op. unfold rtypeOpForRd, utypeOpForRd.
  set (t := instructionTypeFromOpcode _). f_equal.
  destruct (t =? miscMemType); [done|]. destruct (t =? iType); [done|].
  destruct (t =? rType); [done|]. destruct (t =? sType); [done|].
  destruct (t =? bType); [done|]. destruct (t =? jType); [done|].
  by destruct (t =? uType).
Qed.

(** The opcodes of the instruction set. *)
Definition opcodes : list Z :=
  [opcodeOP; opcodeOP32; opcodeCUSTOM1; opcodeLOAD; opcodeOPIMM; opcodeOPIMM32; opcodeJALR;
   opcodeSYSTEM; opcodeSTORE; opcodeBRANCH; opcodeLUI; opcodeAUIPC; opcodeJAL; opcodeMISCMEM].

Lemma undefined_opcode opcode :
  opcode ∉ opcodes -> instructionTypeFromOpcode opcode = undefinedType.
Proof.
  unfold opcodes. rewrite !not_elem_of_cons. intros H. destruct_and! H.
  unfold instructionTypeFromOpcode.
  repeat (rewrite (proj2 (Z.eqb_neq opcode _)) by done). done.
Qed.

Lemma undefined_lookup op f3 f7 f6 imm12 table :
  0 <= op < 128 -> 0 <= f3 ->
  forallb (fun '(mask, m, _) => known_mask mask && (0 <=? m) && negb ((m mod 128) =? op)) table = true ->
  lookup_fields op f3 f7 f6 imm12 table = 255.
Proof.
  intros Hop Hf3. induction table as [|[[mask m] r] table IH]; [done|].
  cbn [forallb lookup_fields]. intros [[[_ Hm]%andb_true_iff Hne]%andb_true_iff Ht]%andb_true_iff.
  rewrite IH by done. apply negb_true_iff, Z.eqb_neq in Hne.
  assert (line_test mask m op f3 f7 f6 imm12 = false) as ->; [|done].
  unfold line_test. change (2 ^ 25) with 33554432. change (2 ^ 26) with 67108864.
  change (2 ^ 20) with 1048576.
  repeat case_match; try apply andb_false_iff; try left; apply Z.eqb_neq; intros E; apply Hne.
  all: golia.
Qed.

(** ** The classification is the instruction set *)

Lemma f3_cases (P : Z -> Prop) f3 :
  0 <= f3 < 8 -> P 0 -> P 1 -> P 2 -> P 3 -> P 4 -> P 5 -> P 6 -> P 7 -> P f3.
Proof.
  intros H. intros. assert (f3 = 0 \/ f3 = 1 \/ f3 = 2 \/ f3 = 3 \/ f3 = 4 \/ f3 = 5 \/ f3 = 6 \/ f3 = 7)
    as D by lia.
  by destruct D as [->|[->|[->|[->|[->|[->|[->| ->]]]]]]].
Qed.

(** The operation a word's fields denote when its destination is not [x0]. *)
Definition fields_agree (opcode rd f3 f7 f6 imm12 : Z) : Prop :=
  classify_fields opcode rd f3 f7 f6 imm12
  = let op := lookup_fields opcode f3 f7 f6 imm12 isa_table in
    if rd =? 0 then discard_rd0 op else op.

(** The part of a line's test that the opcode and [funct3] decide. *)
Definition line_low (op f3 : Z) (line : Z * Z * Z) : bool :=
  let '(mask, m, _) := line in
  if mask =? 0x7f then m =? op
  else if mask =? 0x707f then m =? op + f3 * 4096
  else if mask =? 0xfe00707f then m mod 2 ^ 25 =? op + f3 * 4096
  else if mask =? 0xfc00707f then m mod 2 ^ 26 =? op + f3 * 4096
  else m mod 2 ^ 20 =? op + f3 * 4096.

(** The lines that an opcode and a [funct3] select, each with what is left to
    test: nothing, [funct7], [funct6] or the whole 12-bit immediate. *)
Inductive rest := Always | Funct7 (k : Z) | Funct6 (k : Z) | Imm12 (k : Z).

Definition line_rest (mask m : Z) : rest :=
  if (mask =? 0x7f) || (mask =? 0x707f) then Always
  else if mask =? 0xfe00707f then Funct7 (m / 2 ^ 25)
  else if mask =? 0xfc00707f then Funct6 (m / 2 ^ 26)
  else Imm12 (m / 2 ^ 20).

Fixpoint relevant (op f3 : Z) (table : list (Z * Z * Z)) : list (rest * Z) :=
  match table with
  | [] => []
  | (mask, m, r) :: t =>
      if line_low op f3 (mask, m, r) then (line_rest mask m, r) :: relevant op f3 t
      else relevant op f3 t
  end.

Fixpoint lookup_rest (f7 f6 imm12 : Z) (lines : list (rest * Z)) : Z :=
  match lines with
  | [] => 255
  | (t, r) :: lines =>
      let test := match t with
                  | Always => true
                  | Funct7 k => f7 =? k
                  | Funct6 k => f6 =? k
                  | Imm12 k => imm12 =? k
                  end in
      if test then r else lookup_rest f7 f6 imm12 lines
  end.

Lemma lookup_relevant op f3 f7 f6 imm12 table :
  lookup_fields op f3 f7 f6 imm12 table = lookup_rest f7 f6 imm12 (relevant op f3 table).
Proof.
  induction table as [|[[mask m] r] table IH]; [done|]. cbn [lookup_fields relevant]. rewrite IH.
  unfold line_low, line_test, line_rest.
  destruct (mask =? 0x7f); [by destruct (m =? op)|].
  destruct (mask =? 0x707f); [by destruct (m =? op + f3 * 4096)|].
  destruct (mask =? 0xfe00707f); [by destruct (m mod 2 ^ 25 =? op + f3 * 4096)|].
  destruct (mask =? 0xfc00707f); [by destruct (m mod 2 ^ 26 =? op + f3 * 4096)|].
  by destruct (m mod 2 ^ 20 =? op + f3 * 4096).
Qed.

(** An opcode and a [funct3], both concrete: what is left depends on at most
    [rd] and one of the function fields. *)
Ltac agree_line :=
  unfold fields_agree; rewrite lookup_relevant;
  match goal with |- context [relevant ?a ?b ?c] =>
    let r := eval vm_compute in (relevant a b c) in
    change (relevant a b c) with r end;
  unfold classify_fields, decodeRTypeSemantic, itype_op, itypeOpForRd, jtypeOpForRd,
    finalizeComputeOp, shouldUseNoOp; cbn;
  repeat match goal with
  | |- context [?v =? ?k] => is_var v; destruct (Z.eqb_spec v k) as [->|]; cbn
  end; done.

Lemma known_opcode_agrees opcode rd f3 f7 f6 imm12 :
  opcode ∈ opcodes -> 0 <= f3 < 8 -> fields_agree opcode rd f3 f7 f6 imm12.
Proof.
  intros Hin Hf3. unfold opcodes in Hin.
  repeat (apply elem_of_cons in Hin as [->|Hin];
    [pattern f3; apply f3_cases; [done|..]; agree_line|]).
  by apply not_elem_of_nil in Hin.
Qed.

(** The table has no line for the other opcodes. *)
Lemma opcodes_complete op :
  op ∉ opcodes ->
  forallb (fun '(mask, m, _) => known_mask mask && (0 <=? m) && negb ((m mod 128) =? op)) isa_table
  = true.
Proof.
  intros Hop. apply forallb_forall. intros [[mask m] r] Hin.
  assert (known_mask mask && (0 <=? m) = true /\ m mod 128 ∈ opcodes) as [-> Hm].
  { revert Hin. revert mask m r.
    assert (forallb (fun '(mask, m, _) => known_mask mask && (0 <=? m)
      && bool_decide (m mod 128 ∈ opcodes)) isa_table = true) as H by (vm_compute; done).
    rewrite forallb_forall in H. intros mask m r Hin%H.
    apply andb_true_iff in Hin as [? ?%bool_decide_eq_true]. done. }
  cbn. apply negb_true_iff, Z.eqb_neq. naive_solver.
Qed.

Lemma classify_isa x :
  classifyInstruction x
  = let op := isa_lookup x isa_table in
    if field x 7 5 =? 0 then discard_rd0 op else op.
Proof.
  rewrite classify_fields_ok, (isa_lookup_fields x isa_table) by (vm_compute; done).
  pose proof (field_range x 0 7 ltac:(lia)) as Hop. pose proof (field_range x 12 3 ltac:(lia)) as H3.
  destruct (decide (field x 0 7 ∈ opcodes)) as [Hin|Hout].
  - by apply known_opcode_agrees.
  - rewrite undefined_lookup; [|lia..|by apply opcodes_complete].
    unfold classify_fields. rewrite undefined_opcode by done. cbn. by destruct (_ =? 0).
Qed.

(** C7. The classifier is the instruction set: for every instruction word, the
    compute_op that [classifyInstruction] returns is the one that the first
    matching line of the mask/match table of RV64IM, the fences and the two
    precompiles assigns (255 when no line matches), with the operations whose
    destination register is [x0] replaced by their write-free variants. *)
Theorem classifyInstruction_isa (x : Z) :
  classifyInstruction x
  = let op := isa_lookup x isa_table in
    if field x 7 5 =? 0 then discard_rd0 op else op.
Proof. apply classify_isa. Qed.

(** ** Reference encoders of the instruction formats

    The six formats of the RISC-V manual, as sums of their fields from the least
    significant one; the immediates are signed. *)
Definition bits (z lo w : Z) : Z := z / 2 ^ lo mod 2 ^ w.

Definition encode_R (op rd f3 rs1 rs2 f7 : Z) : Z :=
  op + rd * 2 ^ 7 + f3 * 2 ^ 12 + rs1 * 2 ^ 15 + rs2 * 2 ^ 20 + f7 * 2 ^ 25.

Definition encode_I (op rd f3 rs1 imm : Z) : Z :=
  op + rd * 2 ^ 7 + f3 * 2 ^ 12 + rs1 * 2 ^ 15 + bits imm 0 12 * 2 ^ 20.

Definition encode_S (op f3 rs1 rs2 imm : Z) : Z :=
  op + bits imm 0 5 * 2 ^ 7 + f3 * 2 ^ 12 + rs1 * 2 ^ 15 + rs2 * 2 ^ 20 + bits imm 5 7 * 2 ^ 25.

Definition encode_B (op f3 rs1 rs2 imm : Z) : Z :=
  op + bits imm 11 1 * 2 ^ 7 + bits imm 1 4 * 2 ^ 8 + f3 * 2 ^ 12 + rs1 * 2 ^ 15 + rs2 * 2 ^ 20
  + bits imm 5 6 * 2 ^ 25 + bits imm 12 1 * 2 ^ 31.

Definition encode_U (op rd imm : Z) : Z := op + rd * 2 ^ 7 + bits imm 0 20 * 2 ^ 12.

Definition encode_J (op rd imm : Z) : Z :=
  op + rd * 2 ^ 7 + bits imm 12 8 * 2 ^ 12 + bits imm 11 1 * 2 ^ 20 + bits imm 1 10 * 2 ^ 21
  + bits imm 20 1 * 2 ^ 31.

(** ** Lemmas: fields of encoded words and sign extension *)

Lemma field_bits x lo w : 0 <= lo -> 0 <= w -> field x lo w = bits x lo w.
Proof.
  intros. unfold field, bits. by rewrite Z.land_ones, Z.shiftr_div_pow2.
Qed.

(** A field is what lies between a multiple of its end and a value below its
    start. *)
Lemma bits_unique x lo w l v h :
  0 <= lo -> 0 <= w -> 0 <= l < 2 ^ lo -> 0 <= v < 2 ^ w ->
  x = l + v * 2 ^ lo + h * 2 ^ (lo + w) -> bits x lo w = v.
Proof.
  intros Hlo Hw Hl Hv ->. unfold bits. rewrite Z.pow_add_r by done.
  replace (l + v * 2 ^ lo + h * (2 ^ lo * 2 ^ w)) with (l + (v + h * 2 ^ w) * 2 ^ lo) by lia.
  rewrite Z.div_add, Z.div_small by lia. rewrite Z.add_0_l, Z.mod_add, Z.mod_small by lia. done.
Qed.

Lemma swrap_mod w z : 0 < w -> swrap w (z mod 2 ^ w) = swrap w z.
Proof. intros. unfold swrap. by rewrite Z.add_mod_idemp_l by (apply Z.pow_nonzero; lia). Qed.

(** Shifting left to the sign bit and arithmetically back is sign extension. *)
Lemma sign_extend w x :
  0 < w <= 32 -> i32 (u32 ((x &&& Z.ones w) ≪ (32 - w))) ≫ (32 - w) = swrap w x.
Proof.
  intros Hw. rewrite Z.land_ones, Z.shiftl_mul_pow2, Z.shiftr_div_pow2 by lia.
  pose proof (Z.mod_pos_bound x (2 ^ w) ltac:(apply pow2_pos; lia)) as Hx.
  rewrite <- (swrap_mod w x) by lia.
  set (y := x mod 2 ^ w) in *. set (p := 2 ^ (32 - w)).
  assert (2 ^ 32 = 2 ^ w * p) as Hp by (unfold p; rewrite <- Z.pow_add_r by lia; f_equal; lia).
  assert (0 < p) by (apply pow2_pos; lia).
  assert (2 ^ w = 2 * 2 ^ (w - 1)) as Hq by (rewrite <- Z.pow_succ_r by lia; f_equal; lia).
  assert (2 ^ (32 - 1) = 2 ^ (w - 1) * p) as Hr by (unfold p; rewrite <- Z.pow_add_r by lia; f_equal; lia).
  unfold uwrap, swrap. rewrite Hr, Hp. rewrite (Z.mod_small (y * p)) by nia.
  rewrite <- Z.mul_add_distr_r, Z.mul_mod_distr_r by lia.
  rewrite <- Z.mul_sub_distr_r. by rewrite Z.div_mul by lia.
Qed.

Lemma signExtend12_ok x : signExtend12 x = swrap 12 x.
Proof.
  unfold signExtend12. change 0xfff with (Z.ones 12). change 20 with (32 - 12).
  apply sign_extend. lia.
Qed.
Lemma signExtend13_ok x : signExtend13 x = swrap 13 x.
Proof.
  unfold signExtend13. change 0x1fff with (Z.ones 13). change 19 with (32 - 13).
  apply sign_extend. lia.
Qed.
Lemma signExtend21_ok x : signExtend21 x = swrap 21 x.
Proof.
  unfold signExtend21. change 0x1fffff with (Z.ones 21). change 11 with (32 - 21).
  apply sign_extend. lia.
Qed.

(** Fields put together by shifts, from the least significant one. *)
Lemma lor_fields a b n : 0 <= n -> 0 <= a < 2 ^ n -> (b ≪ n) ||| a = a + b * 2 ^ n.
Proof. intros. rewrite Z.lor_comm. by apply lor_shift_add. Qed.

Lemma bits_range x lo w : 0 <= w -> 0 <= bits x lo w < 2 ^ w.
Proof. intros. apply Z.mod_pos_bound, pow2_pos. lia. Qed.

(** A field is its two halves. *)
Lemma bits_cut x lo w w1 lo2 w2 :
  lo2 = lo + w1 -> w = w1 + w2 -> 0 <= lo -> 0 <= w1 -> 0 <= w2 ->
  bits x lo w = bits x lo w1 + bits x lo2 w2 * 2 ^ w1.
Proof.
  intros -> -> **. unfold bits. rewrite !Z.pow_add_r by lia.
  rewrite <- Z.div_div by (try apply Z.pow_nonzero; lia || apply pow2_pos; lia).
  rewrite (Z.rem_mul_r (x / 2 ^ lo)) by (try apply Z.pow_nonzero; try apply pow2_pos; lia). lia.
Qed.

Lemma lor_nested a b n k :
  0 <= k <= n -> 0 <= a < 2 ^ (n - k) -> (b ≪ n) ||| (a ≪ k) = (a + b * 2 ^ (n - k)) ≪ k.
Proof.
  intros Hk Ha. replace (b ≪ n) with ((b ≪ (n - k)) ≪ k).
  - rewrite <- Z.shiftl_lor. f_equal. apply lor_fields; lia.
  - rewrite Z.shiftl_shiftl by lia. f_equal. lia.
Qed.

(** The fields that the code reads from a word, as numbers. *)
Lemma code_field x lo w m : m = Z.ones w -> 0 <= lo -> 0 <= w -> (x ≫ lo) &&& m = bits x lo w.
Proof. intros -> ? ?. by apply field_bits. Qed.

Lemma code_opcode x : x &&& 0x7f = bits x 0 7.
Proof. rewrite <- (field_bits x 0 7) by lia. by rewrite field_0. Qed.

Ltac num_pow :=
  repeat match goal with
  | H : context [2 ^ ?k] |- _ => let v := eval vm_compute in (2 ^ k) in change (2 ^ k) with v in H
  | |- context [2 ^ ?k] => let v := eval vm_compute in (2 ^ k) in change (2 ^ k) with v
  end.

(** The range of every field of [x] in the goal. *)
Ltac know_bits x :=
  repeat match goal with
  | |- context [bits x ?lo ?w] =>
      lazymatch goal with
      | _ : 0 <= bits x lo w < _ |- _ => fail
      | _ => pose proof (bits_range x lo w ltac:(lia))
      end
  end; num_pow.

Lemma assembleBTypeImm_bits x :
  assembleBTypeImm x
  = u64 (swrap 13 (bits x 8 4 * 2 + bits x 25 6 * 32 + bits x 7 1 * 2048 + bits x 31 1 * 4096)).
Proof.
  unfold assembleBTypeImm. rewrite signExtend13_ok.
  rewrite (code_field x 31 1), (code_field x 25 6), (code_field x 8 4), (code_field x 7 1) by done.
  know_bits x.
  rewrite !lor_nested by (num_pow; lia). rewrite Z.shiftl_mul_pow2 by lia.
  rewrite (uwrap_small 32) by (unfold is_u; num_pow; lia). do 2 f_equal. num_pow. lia.
Qed.

Lemma assembleJTypeImm_bits x :
  assembleJTypeImm x
  = u64 (swrap 21 (bits x 21 10 * 2 + bits x 20 1 * 2048 + bits x 12 8 * 4096 + bits x 31 1 * 1048576)).
Proof.
  unfold assembleJTypeImm. rewrite signExtend21_ok.
  rewrite (code_field x 31 1), (code_field x 21 10), (code_field x 20 1), (code_field x 12 8) by done.
  know_bits x.
  rewrite !lor_nested by (num_pow; lia). rewrite Z.shiftl_mul_pow2 by lia.
  rewrite (uwrap_small 32) by (unfold is_u; num_pow; lia). do 2 f_equal. num_pow. lia.
Qed.

Lemma assembleUTypeImm_bits x :
  assembleUTypeImm x = u64 (i32 (bits x 12 20 * 4096)).
Proof.
  unfold assembleUTypeImm. rewrite (code_field x 12 20) by done.
  know_bits x.
  rewrite Z.shiftl_mul_pow2 by lia. rewrite (uwrap_small 32) by (unfold is_u; num_pow; lia). done.
Qed.

Lemma simm12_bits x :
  u32 ((((x ≫ 31) &&& 1) ≪ 11) ||| (((x ≫ 25) &&& 0x3f) ≪ 5) ||| ((x ≫ 7) &&& 0x1f))
  = bits x 7 5 + bits x 25 6 * 32 + bits x 31 1 * 2048.
Proof.
  rewrite (code_field x 31 1), (code_field x 25 6), (code_field x 7 5) by done.
  know_bits x.
  rewrite lor_nested by (num_pow; lia). rewrite lor_fields by (num_pow; lia).
  rewrite uwrap_small by (unfold is_u; num_pow; lia). num_pow. lia.
Qed.

(** ** Assembly instructions *)

Inductive asm :=
| AsmR (op rd f3 rs1 rs2 f7 : Z)
| AsmI (op rd f3 rs1 imm : Z)
| AsmShift (op rd f3 rs1 shamt : Z) (arith : bool)
| AsmS (f3 rs1 rs2 imm : Z)
| AsmB (f3 rs1 rs2 imm : Z)
| AsmU (op rd imm : Z)
| AsmJ (rd imm : Z).

Definition is_reg (r : Z) : bool := (0 <=? r) && (r <? 32).
Definition is_f3 (r : Z) : bool := (0 <=? r) && (r <? 8).
Definition in_signed (w z : Z) : bool := (- 2 ^ (w - 1) <=? z) && (z <? 2 ^ (w - 1)).

(** The operands that fit their format. *)
Definition asm_ok (a : asm) : bool :=
  match a with
  | AsmR op rd f3 rs1 rs2 f7 =>
      ((op =? opcodeOP) || (op =? opcodeOP32) || (op =? opcodeCUSTOM1))
      && is_reg rd && is_f3 f3 && is_reg rs1 && is_reg rs2 && (0 <=? f7) && (f7 <? 128)
  | AsmI op rd f3 rs1 imm =>
      ((op =? opcodeLOAD) || (op =? opcodeJALR) || (op =? opcodeSYSTEM)
       || ((op =? opcodeOPIMM) || (op =? opcodeOPIMM32)) && negb ((f3 =? 1) || (f3 =? 5)))
      && is_reg rd && is_f3 f3 && is_reg rs1 && in_signed 12 imm
  | AsmShift op rd f3 rs1 shamt arith =>
      ((op =? opcodeOPIMM) && (shamt <? 64) || (op =? opcodeOPIMM32) && (shamt <? 32))
      && ((f3 =? 1) && negb arith || (f3 =? 5))
      && is_reg rd && is_reg rs1 && (0 <=? shamt)
  | AsmS f3 rs1 rs2 imm => is_f3 f3 && is_reg rs1 && is_reg rs2 && in_signed 12 imm
  | AsmB f3 rs1 rs2 imm => is_f3 f3 && is_reg rs1 && is_reg rs2 && in_signed 13 imm && Z.even imm
  | AsmU op rd imm => ((op =? opcodeLUI) || (op =? opcodeAUIPC)) && is_reg rd && in_signed 20 imm
  | AsmJ rd imm => is_reg rd && in_signed 21 imm && Z.even imm
  end.

Definition assemble (a : asm) : Z :=
  match a with
  | AsmR op rd f3 rs1 rs2 f7 => encode_R op rd f3 rs1 rs2 f7
  | AsmI op rd f3 rs1 imm => encode_I op rd f3 rs1 imm
  | AsmShift op rd f3 rs1 shamt arith =>
      encode_I op rd f3 rs1 (shamt + if arith then 1024 else 0)
  | AsmS f3 rs1 rs2 imm => encode_S opcodeSTORE f3 rs1 rs2 imm
  | AsmB f3 rs1 rs2 imm => encode_B opcodeBRANCH f3 rs1 rs2 imm
  | AsmU op rd imm => encode_U op rd imm
  | AsmJ rd imm => encode_J opcodeJAL rd imm
  end.

(** Immediate (sign-extended to 64 bits), [rs1], [rs2] and [rd]; the ones a
    format does not have are 0. *)
Definition operands (a : asm) : Z * Z * Z * Z :=
  match a with
  | AsmR _ rd _ rs1 rs2 _ => (0, rs1, rs2, rd)
  | AsmI _ rd _ rs1 imm => (u64 imm, rs1, 0, rd)
  | AsmShift _ rd _ rs1 shamt _ => (shamt, rs1, 0, rd)
  | AsmS _ rs1 rs2 imm => (u64 imm, rs1, rs2, 0)
  | AsmB _ rs1 rs2 imm => (u64 imm, rs1, rs2, 0)
  | AsmU _ rd imm => (u64 (imm * 4096), 0, 0, rd)
  | AsmJ rd imm => (u64 imm, 0, 0, rd)
  end.

(** [decodedRow] on the fields of a word. *)
Lemma decodedRow_bits x :
  decodedRow x
  = let t := instructionTypeFromOpcode (bits x 0 7) in
    let imm12 := bits x 20 12 in
    let norm := if negb (t =? iType) then imm12
                else (decodeITypeSemantic (bits x 0 7) (bits x 12 3) imm12).2 in
    let '(imm, rs1, rs2, rd) :=
      unifiedOperands t norm (bits x 7 5 + bits x 25 6 * 32 + bits x 31 1 * 2048)
        (assembleBTypeImm x) (assembleJTypeImm x) (assembleUTypeImm x)
        (bits x 15 5) (bits x 20 5) (bits x 7 5) in
    (classifyInstruction x, imm, rs1, rs2, rd).
Proof.
  unfold decodedRow. rewrite simm12_bits, code_opcode.
  rewrite (code_field x 7 5), (code_field x 12 3), (code_field x 15 5),
    (code_field x 20 5 0x1f), (code_field x 20 12 0xfff) by done. done.
Qed.

(** Reads a field of an encoded word whose parts are in range. *)
Ltac read_field := unfold bits; num_pow; golia.

Section EncodedFields.
Context (op rd f3 rs1 rs2 f7 imm : Z).
Context (Hop : 0 <= op < 128) (Hrd : 0 <= rd < 32) (Hf3 : 0 <= f3 < 8).
Context (Hrs1 : 0 <= rs1 < 32) (Hrs2 : 0 <= rs2 < 32) (Hf7 : 0 <= f7 < 128).

Lemma encode_R_fields (x := encode_R op rd f3 rs1 rs2 f7) :
  bits x 0 7 = op /\ bits x 15 5 = rs1 /\ bits x 20 5 = rs2 /\ bits x 7 5 = rd.
Proof. unfold x, encode_R. repeat split; read_field. Qed.

Lemma encode_I_fields (x := encode_I op rd f3 rs1 imm) :
  bits x 0 7 = op /\ bits x 7 5 = rd /\ bits x 12 3 = f3 /\ bits x 15 5 = rs1 /\
  bits x 20 12 = bits imm 0 12.
Proof. clear Hrs2 Hf7.
  unfold x, encode_I. pose proof (bits_range imm 0 12 ltac:(lia)).
  generalize dependent (bits imm 0 12). intros i Hi. repeat split; read_field.
Qed.

(** The split immediates come back in one piece. *)
Lemma encode_S_fields (x := encode_S op f3 rs1 rs2 imm) :
  bits x 0 7 = op /\ bits x 15 5 = rs1 /\ bits x 20 5 = rs2 /\
  bits x 7 5 + bits x 25 6 * 32 + bits x 31 1 * 2048 = bits imm 0 12.
Proof. clear Hrd Hf7.
  unfold x, encode_S.
  rewrite (bits_cut imm 0 12 5 5 7), (bits_cut imm 5 7 6 11 1) by lia.
  know_bits imm. generalize dependent (bits imm 0 5). generalize dependent (bits imm 5 6).
  generalize dependent (bits imm 11 1). intros. repeat split; read_field.
Qed.

Lemma encode_B_fields (x := encode_B op f3 rs1 rs2 imm) :
  bits x 0 7 = op /\ bits x 15 5 = rs1 /\ bits x 20 5 = rs2 /\
  bits x 8 4 = bits imm 1 4 /\ bits x 25 6 = bits imm 5 6 /\
  bits x 7 1 = bits imm 11 1 /\ bits x 31 1 = bits imm 12 1.
Proof. clear Hrd Hf7.
  unfold x, encode_B. know_bits imm.
  generalize dependent (bits imm 1 4). generalize dependent (bits imm 5 6).
  generalize dependent (bits imm 11 1). generalize dependent (bits imm 12 1).
  intros. repeat split; read_field.
Qed.

Lemma encode_U_fields (x := encode_U op rd imm) :
  bits x 0 7 = op /\ bits x 7 5 = rd /\ bits x 12 20 = bits imm 0 20.
Proof. clear Hf3 Hrs1 Hrs2 Hf7.
  unfold x, encode_U. know_bits imm. generalize dependent (bits imm 0 20). intros.
  repeat split; read_field.
Qed.

Lemma encode_J_fields (x := encode_J op rd imm) :
  bits x 0 7 = op /\ bits x 7 5 = rd /\ bits x 12 8 = bits imm 12 8 /\
  bits x 20 1 = bits imm 11 1 /\ bits x 21 10 = bits imm 1 10 /\ bits x 31 1 = bits imm 20 1.
Proof. clear Hf3 Hrs1 Hrs2 Hf7.
  unfold x, encode_J. know_bits imm.
  generalize dependent (bits imm 1 10). generalize dependent (bits imm 11 1).
  generalize dependent (bits imm 12 8). generalize dependent (bits imm 20 1).
  intros. repeat split; read_field.
Qed.
End EncodedFields.

Lemma swrap_bits w z : 0 < w -> is_i w z -> swrap w (bits z 0 w) = z.
Proof.
  intros. unfold bits. change (2 ^ 0) with 1. rewrite Z.div_1_r, swrap_mod by done.
  by apply swrap_small.
Qed.

Lemma bits_even z : Z.even z = true -> bits z 0 1 = 0.
Proof.
  intros [k ->]%Z.even_spec. unfold bits. change (2 ^ 0) with 1. rewrite Z.div_1_r.
  change (2 ^ 1) with 2. rewrite Z.mul_comm. by apply Z.mod_mul.
Qed.

Lemma in_signed_ok w z : in_signed w z = true -> is_i w z.
Proof. unfold in_signed, is_i. lia. Qed.

(** The pieces of an even immediate of a branch or a jump. *)
Lemma bits_pieces_B imm :
  Z.even imm = true ->
  bits imm 1 4 * 2 + bits imm 5 6 * 32 + bits imm 11 1 * 2048 + bits imm 12 1 * 4096
  = bits imm 0 13.
Proof.
  intros He%bits_even. rewrite (bits_cut imm 0 13 1 1 12), He by lia.
  rewrite (bits_cut imm 1 12 4 5 8), (bits_cut imm 5 8 6 11 2), (bits_cut imm 11 2 1 12 1) by lia.
  num_pow. lia.
Qed.

Lemma bits_pieces_J imm :
  Z.even imm = true ->
  bits imm 1 10 * 2 + bits imm 11 1 * 2048 + bits imm 12 8 * 4096 + bits imm 20 1 * 1048576
  = bits imm 0 21.
Proof.
  intros He%bits_even. rewrite (bits_cut imm 0 21 1 1 20), He by lia.
  rewrite (bits_cut imm 1 20 10 11 10), (bits_cut imm 11 10 1 12 9), (bits_cut imm 12 9 8 20 1)
    by lia. num_pow. lia.
Qed.

Lemma assembleIType_signed imm : is_i 12 imm -> assembleITypeImm (bits imm 0 12) = u64 imm.
Proof.
  intros. unfold assembleITypeImm, assembleSTypeImm. by rewrite signExtend12_ok, swrap_bits.
Qed.

(** The normalised immediate is the whole field, but for the shifts. *)
Lemma norm_imm_plain op f3 imm12 :
  (op =? opcodeOPIMM) || (op =? opcodeOPIMM32) = false \/ (f3 =? 1) || (f3 =? 5) = false ->
  (decodeITypeSemantic op f3 imm12).2 = imm12.
Proof.
  unfold decodeITypeSemantic. rewrite !orb_false_iff.
  intros [[-> ->]|[-> ->]]; repeat case_match; done.
Qed.

Lemma norm_imm_shift op f3 shamt (arith : bool) :
  (op =? opcodeOPIMM) && (shamt <? 64) || (op =? opcodeOPIMM32) && (shamt <? 32) = true ->
  (f3 =? 1) && negb arith || (f3 =? 5) = true -> 0 <= shamt ->
  (decodeITypeSemantic op f3 (shamt + if arith then 1024 else 0)).2 = shamt.
Proof.
  intros Hop Hf3 Hs. set (i := shamt + _). assert (0 <= i < 2048) by (subst i; destruct arith; lia).
  unfold decodeITypeSemantic. rewrite (code_field i 6 6), (code_field i 5 7) by done.
  change 0x3f with (Z.ones 6). change 0x1f with (Z.ones 5). rewrite !Z.land_ones by lia.
  apply orb_true_iff in Hop as [[->%Z.eqb_eq Hlt]%andb_true_iff|[->%Z.eqb_eq Hlt]%andb_true_iff]; cbn -[bits].
  - assert (bits i 6 6 = if arith then 16 else 0) as -> by (subst i; destruct arith; read_field).
    replace (i mod 2 ^ 6) with shamt by (subst i; destruct arith; num_pow; golia).
    apply orb_true_iff in Hf3 as [[->%Z.eqb_eq ?]%andb_true_iff| ->%Z.eqb_eq]; by destruct arith.
  - assert (bits i 5 7 = if arith then 32 else 0) as -> by (subst i; destruct arith; read_field).
    replace (i mod 2 ^ 5) with shamt by (subst i; destruct arith; num_pow; golia).
    apply orb_true_iff in Hf3 as [[->%Z.eqb_eq ?]%andb_true_iff| ->%Z.eqb_eq]; by destruct arith.
Qed.

Lemma typed_opcode op :
  instructionTypeFromOpcode op <> undefinedType -> 0 <= op < 128.
Proof.
  intros H. destruct (decide (op ∈ opcodes)) as [Hin|]; [|by rewrite undefined_opcode in H].
  unfold opcodes in Hin.
  repeat (apply elem_of_cons in Hin as [->|Hin]; [done|]). by apply not_elem_of_nil in Hin.
Qed.

(** The parts of [asm_ok] as separate hypotheses. *)
Ltac asm_bounds H :=
  unfold asm_ok, is_reg, is_f3 in H;
  repeat match type of H with (_ && _) = true =>
    let H' := fresh "Hb" in apply andb_true_iff in H as [H H'] end.

Lemma operands_I op rd f3 rs1 imm :
  asm_ok (AsmI op rd f3 rs1 imm) = true ->
  decodedRow (encode_I op rd f3 rs1 imm)
  = (classifyInstruction (encode_I op rd f3 rs1 imm), u64 imm, rs1, 0, rd).
Proof.
  intros Ha. asm_bounds Ha. rewrite decodedRow_bits.
  assert ((op =? opcodeOPIMM) || (op =? opcodeOPIMM32) = false \/ (f3 =? 1) || (f3 =? 5) = false).
  { revert Ha. destruct (op =? opcodeOPIMM) eqn:E1, (op =? opcodeOPIMM32) eqn:E2; [..|by left].
    all: try apply Z.eqb_eq in E1 as ->; try apply Z.eqb_eq in E2 as ->; try done.
    all: cbn; intros ?%negb_true_iff; by right. }
  assert (instructionTypeFromOpcode op = iType) as Ht.
  { clear -Ha. repeat (apply orb_true_iff in Ha as [Ha|Ha]); try (by apply Z.eqb_eq in Ha as ->).
    apply andb_true_iff in Ha as [Ha _].
    apply orb_true_iff in Ha as [->%Z.eqb_eq| ->%Z.eqb_eq]; done. }
  pose proof (typed_opcode op ltac:(rewrite Ht; done)).
  destruct (encode_I_fields op rd f3 rs1 imm) as (-> & -> & -> & -> & ->); [lia..|].
  rewrite Ht. cbn -[classifyInstruction decodeITypeSemantic assembleITypeImm].
  rewrite norm_imm_plain by done. rewrite assembleIType_signed by (by apply in_signed_ok). done.
Qed.

Lemma operands_shift op rd f3 rs1 shamt arith :
  asm_ok (AsmShift op rd f3 rs1 shamt arith) = true ->
  let x := encode_I op rd f3 rs1 (shamt + if arith then 1024 else 0) in
  decodedRow x = (classifyInstruction x, shamt, rs1, 0, rd).
Proof.
  intros Ha x. asm_bounds Ha. rewrite decodedRow_bits.
  assert (instructionTypeFromOpcode op = iType) as Ht.
  { clear -Ha. apply orb_true_iff in Ha as [[->%Z.eqb_eq _]%andb_true_iff|[->%Z.eqb_eq _]%andb_true_iff]; done. }
  assert (shamt < 64) by (clear -Ha; lia).
  assert (0 <= f3 < 8) by (clear -Hb2; lia).
  pose proof (typed_opcode op ltac:(rewrite Ht; done)).
  destruct (encode_I_fields op rd f3 rs1 (shamt + if arith then 1024 else 0))
    as (E1 & E2 & E3 & E4 & E5); [lia..|]. fold x in E1, E2, E3, E4, E5.
  rewrite E1, E2, E3, E4, E5, Ht. cbn -[classifyInstruction decodeITypeSemantic assembleITypeImm].
  assert (bits (shamt + if arith then 1024 else 0) 0 12 = shamt + if arith then 1024 else 0) as ->
    by (destruct arith; read_field).
  rewrite norm_imm_shift by (done || lia).
  assert (assembleITypeImm shamt = shamt) as ->; [|done].
  unfold assembleITypeImm, assembleSTypeImm. rewrite signExtend12_ok, swrap_small by (unfold is_i; num_pow; lia).
  apply uwrap_small. unfold is_u. num_pow. lia.
Qed.

Lemma upper_imm imm : is_i 20 imm -> i32 (bits imm 0 20 * 4096) = imm * 4096.
Proof.
  unfold is_i, swrap, bits. num_pow. rewrite Z.div_1_r. intros. golia.
Qed.

Lemma isa_lookup_in x table : In (isa_lookup x table) (255 :: map snd table).
Proof.
  induction table as [|[[mask m] r] table IH]; [by left|]. cbn [isa_lookup map snd].
  destruct (_ =? m); [right; by left|]. destruct IH as [<-|]; [by left|right; by right].
Qed.

(** Operands round trip: for every well-formed assembly instruction, of any
    of the formats R, I (with the shifts), S, B, U and J, the row that the
    decoder computes from its encoding has the instruction's own immediate,
    sign-extended to 64 bits (the shift amount for a shift), and its own
    registers, zero where the format has none. *)
Theorem decodedRow_operands (a : asm) :
  asm_ok a = true ->
  decodedRow (assemble a) =
  let '(imm, rs1, rs2, rd) := operands a in
  (classifyInstruction (assemble a), imm, rs1, rs2, rd).
Proof.
  intros Ha.
  destruct a as [op rd f3 rs1 rs2 f7|op rd f3 rs1 imm|op rd f3 rs1 shamt arith|f3 rs1 rs2 imm
                |f3 rs1 rs2 imm|op rd imm|rd imm]; cbn [assemble operands] in *.
  - rewrite decodedRow_bits. asm_bounds Ha.
    assert (instructionTypeFromOpcode op = rType) as Ht
      by (unfold instructionTypeFromOpcode; by rewrite Ha).
    pose proof (typed_opcode op ltac:(rewrite Ht; done)).
    destruct (encode_R_fields op rd f3 rs1 rs2 f7) as (-> & -> & -> & ->); [lia..|].
    by rewrite Ht.
  - by apply operands_I.
  - by apply operands_shift.
  - rewrite decodedRow_bits. asm_bounds Ha.
    destruct (encode_S_fields opcodeSTORE f3 rs1 rs2 imm) as (-> & -> & -> & ->); [lia || done..|].
    cbn -[classifyInstruction assembleSTypeImm].
    change (assembleSTypeImm (bits imm 0 12)) with (assembleITypeImm (bits imm 0 12)).
    by rewrite assembleIType_signed by (by apply in_signed_ok).
  - rewrite decodedRow_bits, assembleBTypeImm_bits. asm_bounds Ha.
    destruct (encode_B_fields opcodeBRANCH f3 rs1 rs2 imm)
      as (-> & -> & -> & -> & -> & -> & ->); [lia || done..|].
    rewrite bits_pieces_B by done. rewrite swrap_bits by (done || by apply in_signed_ok). done.
  - rewrite decodedRow_bits, assembleUTypeImm_bits. asm_bounds Ha.
    assert (instructionTypeFromOpcode op = uType) as Ht
      by (clear -Ha; apply orb_true_iff in Ha as [->%Z.eqb_eq| ->%Z.eqb_eq]; done).
    pose proof (typed_opcode op ltac:(rewrite Ht; done)).
    destruct (encode_U_fields op rd imm) as (-> & -> & ->); [lia..|].
    rewrite Ht. by rewrite upper_imm by (by apply in_signed_ok).
  - rewrite decodedRow_bits, assembleJTypeImm_bits. asm_bounds Ha.
    destruct (encode_J_fields opcodeJAL rd imm) as (-> & -> & -> & -> & -> & ->); [lia || done..|].
    rewrite bits_pieces_J by done. rewrite swrap_bits by (done || by apply in_signed_ok). done.
Qed.

Lemma decodedRow_operands_witness :
  decodedRow 0xfe20fee3 = (65, u64 (-4), 1, 2, 0) /\ decodedRow 0x40b55513 = (16, 11, 10, 0, 10).
Proof.
  split.
  - exact (decodedRow_operands (AsmB 7 1 2 (-4)) eq_refl).
  - exact (decodedRow_operands (AsmShift opcodeOPIMM 10 5 10 11 true) eq_refl).
Defined.

(** The compute_op of a row fits its 8-bit column and is one of the values
    the zkc interpreter dispatches on: 0 to 54, 56 to 69, or the invalid mark
    255; the value 55 is never produced. *)
Theorem classifyInstruction_range (x : Z) :
  0 <= classifyInstruction x <= 69 /\ classifyInstruction x <> 55 \/ classifyInstruction x = 255.
Proof.
  rewrite classify_isa. cbv zeta.
  assert (In (isa_lookup x isa_table) (255 :: map snd isa_table)) as Hin by apply isa_lookup_in.
  assert (forallb (fun op => let ok o := (0 <=? o) && (o <=? 69) && negb (o =? 55) || (o =? 255) in
            ok op && ok (discard_rd0 op)) (255 :: map snd isa_table) = true) as Hok by (vm_compute; done).
  rewrite forallb_forall in Hok. apply Hok in Hin. clear Hok.
  cbv beta zeta in Hin. apply andb_true_iff in Hin as [H1 H2].
  generalize dependent (discard_rd0 (isa_lookup x isa_table)).
  generalize dependent (isa_lookup x isa_table). intros.
  destruct (field x 7 5 =? 0); lia.
Qed.
