(* ===== verification/Predecoding.v ===== *)
(** The predecoder of the R5 guest: the second half of
    [arithmetization/gopkg/predecoding/decode.go].

    [executableImage] lays the executable blobs of a mapped program out in one
    word-aligned image, [decodeImage] turns each of its words into an 87-bit row
    (compute_op 8, imm 64, rs1 5, rs2 5, rd 5) packed by [bitWriter], and
    [PrepareInputs] puts the rows next to the memory inputs of [ElfMapping].
    The row of a word is [Decode.decodedRow].  [bitWriter.nbits] and the slice
    indices are [int]s bounded by the size of a slice in memory: they are [nat]
    here. *)
From S2P Require Import Prelude.
From S2P Require Import ElfMapping.
From S2P Require Import Decode.

(** ** Data *)

Definition DefaultMaxDecodedRecords : Z := 2000000.
Definition InstructionBaseInput : string := "instruction_base".
Definition DecodedInput : string := "decoded".

Record bitWriter := mkBitWriter {
  buf : list Z;
  nbits : nat
}.

Record config := mkConfig {
  maxDecodedRecords : Z;
  mappingOptions : list (option ElfMapping.Option)
}.

Definition Option := config -> outcome string config.

Record DecodedProgram := mkDecodedProgram {
  InstructionBase : Z;
  Decoded : list Z
}.

(** The errors of the package, one constructor per [fmt.Errorf]; those of
    [elfmapping] are passed through. *)
Inductive pre_error :=
| ErrMapping (e : elf_error)
| ErrNilPredecodingOption
| ErrPredecodingOption (what : string)
| ErrNoExecutableBlobs
| ErrExecutableOverflow (address : Z)
| ErrExecutableOverlap (address previousEnd : Z)
| ErrSpanOutside32 (maxEnd : Z)
| ErrTooManyRecords (records cap : Z)
| ErrSpanTooLarge (span : Z).

(** ** Packing bits *)

(** One iteration of the loop of [writeBits]. *)
Definition writeBit (w : bitWriter) (val : Z) (i : nat) : bitWriter :=
  let b := if (nbits w mod 8 =? 0)%nat then buf w ++ [0] else buf w in
  let b := if ((val ≫ Z.of_nat i) &&& 1) =? 1 then set_msb_bit b (nbits w) else b in
  mkBitWriter b (S (nbits w)).

(** [for i := width - 1; i >= 0; i--]. *)
Fixpoint writeBits (w : bitWriter) (val : Z) (width : nat) : bitWriter :=
  match width with
  | O => w
  | S i => writeBits (writeBit w val i) val i
  end.

Definition decodeInstruction (decoded : bitWriter) (instruction : Z) : bitWriter :=
  let '(op, imm, operandRS1, operandRS2, operandRD) := decodedRow instruction in
  let decoded := writeBits decoded op 8 in
  let decoded := writeBits decoded imm 64 in
  let decoded := writeBits decoded operandRS1 5 in
  let decoded := writeBits decoded operandRS2 5 in
  writeBits decoded operandRD 5.

(** [binary.LittleEndian.Uint32(image[offset : offset+4])]: a panic past the end
    of the image. *)
Definition image_word (image : list Z) (offset : Z) : outcome pre_error Z :=
  if (offset + 4 <=? Z.of_nat (length image))
  then Ok (le_value (sub_slice (Z.to_nat offset) (Z.to_nat offset + 4) image))
  else Panic.

Definition decode_record (image : list Z) (decoded : bitWriter) (record : nat) :
    outcome pre_error bitWriter :=
  let offset := u64 (Z.of_nat record * 4) in
  instruction ← image_word image offset;
  Ok (decodeInstruction decoded instruction).

Definition decodeImage (image : list Z) (records : Z) : outcome pre_error (list Z) :=
  w ← foldM (decode_record image) (mkBitWriter [] 0) (seq 0 (Z.to_nat records));
  Ok (buf w).

(** ** The executable image *)

(** One iteration of the range check: the state is [previousEnd], [maxEnd]. *)
Definition check_executable (st : Z * Z) (ib : nat * Blob) : outcome pre_error (Z * Z) :=
  let '(previousEnd, maxEnd) := st in
  let '(i, blob) := ib in
  let end_ := u64 (Address blob + blen blob) in
  if end_ <? Address blob then Err (ErrExecutableOverflow (Address blob)) else
  if negb (i =? 0)%nat && negb (blen blob =? 0) && (Address blob <? previousEnd)
  then Err (ErrExecutableOverlap (Address blob) previousEnd) else
  Ok (if negb (blen blob =? 0) then end_ else previousEnd,
      if maxEnd <? end_ then end_ else maxEnd).

(** [copy(image[blob.Address-base:], blob.Data)]. *)
Definition copy_blob (base : Z) (image : list Z) (blob : Blob) : outcome pre_error (list Z) :=
  let off := u64 (Address blob - base) in
  if Z.of_nat (length image) <? off then Panic
  else Ok (copy_at (Z.to_nat off) (Data blob) image).

Definition executableImage (blobs : list Blob) (maxRecords : Z) :
    outcome pre_error (Z * list Z * Z) :=
  let executable := filter (fun b => Executable b = true) blobs in
  match sort_stable Address executable with
  | [] => Err ErrNoExecutableBlobs
  | (first :: _) as executable =>
      let base := Z.ldiff (Address first) 3 in
      '(_, maxEnd) ← foldM check_executable (0, 0) (imap (fun i b => (i, b)) executable);
      if MaxUint32 - 3 <? maxEnd then Err (ErrSpanOutside32 maxEnd) else
      let alignedEnd := Z.ldiff (u64 (maxEnd + 3)) 3 in
      let records := u64 (alignedEnd - base) / 4 in
      if maxRecords <? records then Err (ErrTooManyRecords records maxRecords) else
      let span := u64 (alignedEnd - base) in
      if MaxInt <? span then Err (ErrSpanTooLarge span) else
      image ← foldM (copy_blob base) (replicate (Z.to_nat span) 0) executable;
      Ok (base, image, records)
  end.

Definition predecode (program : Program) (maxDecodedRecords : Z) :
    outcome pre_error DecodedProgram :=
  '(base, image, records) ← executableImage (Blobs program) maxDecodedRecords;
  decoded ← decodeImage image records;
  Ok (mkDecodedProgram base decoded).

(** ** Options and entry points *)

Definition WithMaxDecodedRecords (maximum : Z) : Option := fun cfg =>
  Ok (mkConfig maximum (mappingOptions cfg)).

Definition WithIncludeExecutable : Option := fun cfg =>
  Ok (mkConfig (maxDecodedRecords cfg)
        (mappingOptions cfg ++ [Some ElfMapping.WithIncludeExecutable])).

Definition WithSectionsWriter (writer : option Writer) : Option := fun cfg =>
  match writer with
  | None => Err "sections writer is nil"%string
  | Some w => Ok (mkConfig (maxDecodedRecords cfg)
                    (mappingOptions cfg ++ [Some (ElfMapping.WithSectionsWriter (Some w))]))
  end.

Definition apply_option (cfg : config) (o : option Option) : outcome pre_error config :=
  match o with
  | None => Err ErrNilPredecodingOption
  | Some f => map_err ErrPredecodingOption (f cfg)
  end.

Definition applyOptions (options : list (option Option)) : outcome pre_error config :=
  foldM apply_option (mkConfig DefaultMaxDecodedRecords []) options.

Definition Predecode (program : Program) (options : list (option Option)) :
    outcome pre_error DecodedProgram :=
  cfg ← applyOptions options;
  predecode program (maxDecodedRecords cfg).

Section Prepare.
Context {BitArray : Type} (NewArray : list Z -> Z -> BitArray).
Variable sort_slice : list Blob -> list Blob.
Variable NewFile : list Z -> option ElfFile.

Definition DecodedProgram_EncodeInputs (program : DecodedProgram) : gmap string BitArray :=
  let base := be_bytes 4 (u32 (InstructionBase program)) in
  let decoded := Decoded program in
  <[InstructionBaseInput := BitArrayFromBytes NewArray base]>
  (<[DecodedInput := BitArrayFromBytes NewArray decoded]> ∅).

(** [maps.Copy(inputs, m)] overwrites the entries of [inputs]. *)
Definition PrepareInputs (elfBytes inputData : list Z) (options : list (option Option)) :
    outcome pre_error (gmap string BitArray) :=
  cfg ← applyOptions options;
  program ← map_err ErrMapping (Load sort_slice NewFile elfBytes);
  decoded ← predecode program (maxDecodedRecords cfg);
  inputBlobs ← map_err ErrMapping
    (NewData DefaultInputOrigin inputData [Some WithLengthPrefix]);
  inputs ← map_err ErrMapping
    (EncodeInputs NewArray program inputBlobs (mappingOptions cfg));
  Ok (DecodedProgram_EncodeInputs decoded ∪ inputs).
End Prepare.

(** ** Specification: rows as bit strings *)

Definition row_width : nat := 87.

Definition row_bits (row : Z * Z * Z * Z * Z) : list bool :=
  let '(op, imm, rs1, rs2, rd) := row in
  bits_be 8 op ++ bits_be 64 imm ++ bits_be 5 rs1 ++ bits_be 5 rs2 ++ bits_be 5 rd.

(** The reader of row [i]: five consecutive big-endian columns. *)
Definition read_row (bs : list bool) (i : nat) : Z * Z * Z * Z * Z :=
  let r := drop (i * row_width) bs in
  (bits_value (take 8 r), bits_value (take 64 (drop 8 r)), bits_value (take 5 (drop 72 r)),
   bits_value (take 5 (drop 77 r)), bits_value (take 5 (drop 82 r))).

(** The word of the image that starts at byte [4 * i]. *)
Definition word_at (image : list Z) (i : nat) : Z :=
  le_value (sub_slice (4 * i) (4 * i + 4) image).

(** The rows of the first [n] words of the image. *)
Definition rows_of (image : list Z) (n : nat) : list (Z * Z * Z * Z * Z) :=
  (fun i => decodedRow (word_at image i)) <$> seq 0 n.

(** ** Lemmas: the bit writer *)

(** The buffer holds the bits written so far and zeros up to the next byte. *)
Definition holds (w : bitWriter) (bs : list bool) : Prop :=
  nbits w = length bs /\ length (buf w) = ((length bs + 7) / 8)%nat /\
  bits_of_bytes (buf w) = bs ++ replicate (8 * length (buf w) - length bs) false.

Lemma holds_empty : holds (mkBitWriter [] 0) [].
Proof. done. Qed.

Lemma bit_of val i : (((val ≫ Z.of_nat i) &&& 1) =? 1) = Z.testbit val (Z.of_nat i).
Proof.
  change 1 with (Z.ones 1) at 1. rewrite Z.land_ones by lia. change (2 ^ 1) with 2.
  rewrite <- (Z.add_0_l (Z.of_nat i)) at 2. rewrite <- Z.shiftr_spec by lia.
  rewrite <- Z.bit0_mod. destruct (Z.testbit _ 0); done.
Qed.

(** The index written to is inside the buffer. *)
Lemma writeBit_in_range w bs :
  holds w bs ->
  (nbits w < 8 * length (if (nbits w mod 8 =? 0)%nat then buf w ++ [0%Z] else buf w))%nat.
Proof.
  intros (Hn & Hl & _). rewrite Hn. destruct (Nat.eqb_spec (length bs mod 8) 0).
  - rewrite length_app, Hl. cbn [length]. golia.
  - rewrite Hl. golia.
Qed.

Lemma writeBit_holds w bs val i :
  holds w bs -> holds (writeBit w val i) (bs ++ [Z.testbit val (Z.of_nat i)]).
Proof.
  intros Hw. pose proof (writeBit_in_range w bs Hw) as Hr. destruct Hw as (Hn & Hl & Hb).
  unfold writeBit. rewrite bit_of.
  set (b := if (nbits w mod 8 =? 0)%nat then buf w ++ [0] else buf w) in *.
  assert (length b = ((length bs + 1 + 7) / 8)%nat /\
    bits_of_bytes b = bs ++ replicate (8 * length b - length bs) false) as [Hlb Hbb].
  { subst b. rewrite Hn in *. destruct (Nat.eqb_spec (length bs mod 8) 0) as [E|E].
    - rewrite length_app, bits_of_bytes_app, Hb, Hl. cbn [length]. split; [golia|].
      change (bits_of_bytes [0]) with (replicate 8 false).
      rewrite <- app_assoc, <- replicate_add. do 2 f_equal. golia.
    - rewrite Hb, Hl. split; [golia|done]. }
  assert (8 * length b - length bs = S (8 * length b - length (bs ++ [true])))%nat as Hs
    by (rewrite length_app, Hn in *; cbn [length]; lia).
  assert (forall c, length c = length b ->
    bits_of_bytes c = bs ++ Z.testbit val (Z.of_nat i) :: replicate (8 * length b - length (bs ++ [true])) false ->
    holds (mkBitWriter c (S (nbits w))) (bs ++ [Z.testbit val (Z.of_nat i)])) as Hfin.
  { intros c Hc Hbc. unfold holds. cbn [buf nbits]. rewrite !length_app, Hn, Hc, Hbc. cbn [length].
    split; [lia|]. split; [done|]. rewrite <- app_assoc. cbn. do 3 f_equal. rewrite length_app. done. }
  destruct (Z.testbit val (Z.of_nat i)); apply Hfin.
  - unfold set_msb_bit. apply length_alter.
  - rewrite bits_of_bytes_set by done. rewrite Hbb, Hs, Hn. cbn [replicate].
    rewrite insert_app_r_alt by lia. by rewrite Nat.sub_diag.
  - done.
  - by rewrite Hbb, Hs.
Qed.

Lemma writeBits_holds w bs val width :
  holds w bs -> holds (writeBits w val width) (bs ++ bits_be width val).
Proof.
  revert w bs. induction width as [|i IH]; intros w bs Hw; cbn [writeBits].
  - change (bits_be 0 val) with (@nil bool). by rewrite app_nil_r.
  - change (bits_be (S i) val) with ([Z.testbit val (Z.of_nat i)] ++ bits_be i val).
    rewrite app_assoc. by apply IH, writeBit_holds.
Qed.

(** ** Lemmas: rows *)

Lemma decodeInstruction_holds w bs x :
  holds w bs -> holds (decodeInstruction w x) (bs ++ row_bits (decodedRow x)).
Proof.
  intros Hw. unfold decodeInstruction, row_bits. destruct (decodedRow x) as [[[[op imm] rs1] rs2] rd].
  rewrite !app_assoc. by do 5 apply writeBits_holds.
Qed.

Lemma length_row_bits row : length (row_bits row) = row_width.
Proof.
  destruct row as [[[[op imm] rs1] rs2] rd]. unfold row_bits.
  by rewrite !length_app, !length_bits_be.
Qed.

(** The columns are wide enough for the row of any word. *)
Definition row_fits (row : Z * Z * Z * Z * Z) : Prop :=
  let '(op, imm, rs1, rs2, rd) := row in
  is_u 8 op /\ is_u 64 imm /\ is_u 5 rs1 /\ is_u 5 rs2 /\ is_u 5 rd.

Lemma op_column x : is_u 8 (classifyInstruction x).
Proof.
  rewrite classify_isa. cbv zeta.
  assert (In (isa_lookup x isa_table) (255 :: map snd isa_table)) as Hin by apply isa_lookup_in.
  assert (forallb (fun op => (0 <=? op) && (op <? 256) && (0 <=? discard_rd0 op)
    && (discard_rd0 op <? 256)) (255 :: map snd isa_table) = true) as Hok by (vm_compute; done).
  rewrite forallb_forall in Hok. apply Hok in Hin. cbv beta in Hin.
  unfold is_u. change (2 ^ 8) with 256. destruct (_ =? 0); lia.
Qed.

Lemma imm_column t norm simm x rs1 rs2 rd :
  is_u 5 rs1 -> is_u 5 rs2 -> is_u 5 rd ->
  let '(imm, a, b, c) := unifiedOperands t norm simm (assembleBTypeImm x) (assembleJTypeImm x)
      (assembleUTypeImm x) rs1 rs2 rd in
  is_u 64 imm /\ is_u 5 a /\ is_u 5 b /\ is_u 5 c.
Proof.
  intros H1 H2 H3. unfold unifiedOperands.
  assert (is_u 5 0) by done. assert (is_u 64 0) by done.
  repeat match goal with |- context [if ?c then _ else _] => destruct c end;
    split_and!; try done; apply uwrap_range; lia.
Qed.

Lemma decodedRow_fits x : row_fits (decodedRow x).
Proof.
  rewrite decodedRow_bits. cbv zeta.
  set (norm := if negb _ then _ else _). set (simm := _ + _ + _).
  pose proof (imm_column (instructionTypeFromOpcode (bits x 0 7)) norm simm x
    (bits x 15 5) (bits x 20 5) (bits x 7 5) ltac:(by apply bits_range)
    ltac:(by apply bits_range) ltac:(by apply bits_range)) as H.
  destruct (unifiedOperands _ _ _ _ _ _ _ _ _) as [[[imm a] b] c].
  split; [apply op_column|done].
Qed.

Lemma take_bits_be w v l : take w (bits_be w v ++ l) = bits_be w v.
Proof. rewrite take_app_le by (by rewrite length_bits_be). by rewrite take_ge by (by rewrite length_bits_be). Qed.

Lemma drop_bits_be w v l n : drop (w + n) (bits_be w v ++ l) = drop n l.
Proof. rewrite drop_app_ge by (rewrite length_bits_be; lia). f_equal. rewrite length_bits_be. lia. Qed.

Lemma bits_value_fits w v : is_u (Z.of_nat w) v -> bits_value (bits_be w v) = v.
Proof. intros. rewrite bits_value_bits_be. by apply uwrap_small. Qed.

(** The reader inverts the writer on rows that fit. *)
Lemma read_row_concat rows i row rest :
  rows !! i = Some row -> row_fits row ->
  read_row ((rows ≫= row_bits) ++ rest) i = row.
Proof.
  revert i. induction rows as [|r rows IH]; intros i Hi Hfit; [done|].
  rewrite bind_cons, <- app_assoc. destruct i as [|i]; simpl in Hi.
  - injection Hi as ->. clear IH. destruct row as [[[[op imm] rs1] rs2] rd].
    destruct Hfit as (Ho & Hi & H1 & H2 & H3). unfold read_row, row_bits.
    rewrite Nat.mul_0_l, drop_0, <- !app_assoc.
    change 82%nat with (8 + (64 + (5 + (5 + 0))))%nat. change 77%nat with (8 + (64 + (5 + 0)))%nat.
    change 72%nat with (8 + (64 + 0))%nat. change (drop 8) with (@drop bool (8 + 0)%nat).
    rewrite !drop_bits_be, !drop_0, !take_bits_be, !bits_value_fits by done. done.
  - rewrite <- (IH i Hi Hfit). unfold read_row.
    rewrite drop_app_ge by (rewrite length_row_bits; lia). rewrite length_row_bits.
    by replace (S i * row_width - row_width)%nat with (i * row_width)%nat by lia.
Qed.

Lemma image_word_ok image i :
  (4 * (i + 1) <= length image)%nat -> Z.of_nat (length image) <= MaxInt ->
  image_word image (u64 (Z.of_nat i * 4)) = Ok (word_at image i).
Proof.
  intros Hi Hlen. rewrite uwrap_small by (unfold is_u, MaxInt in *; lia).
  unfold image_word. destruct (Z.leb_spec (Z.of_nat i * 4 + 4) (Z.of_nat (length image))); [|lia].
  unfold word_at. by replace (Z.to_nat (Z.of_nat i * 4)) with (4 * i)%nat by lia.
Qed.

Lemma decode_records_ok image n :
  (4 * n <= length image)%nat -> Z.of_nat (length image) <= MaxInt ->
  exists w, foldM (decode_record image) (mkBitWriter [] 0) (seq 0 n) = Ok w /\
    holds w (rows_of image n ≫= row_bits).
Proof.
  intros Hn Hlen. induction n as [|n IH].
  - eexists. split; [done|]. apply holds_empty.
  - destruct IH as (w & Hw & Hh); [lia|]. rewrite (seq_S n 0), foldM_app, Hw. cbn [mbind outcome_bind foldM].
    unfold decode_record. rewrite image_word_ok by (done || lia). cbn [mbind outcome_bind].
    eexists. split; [done|]. unfold rows_of.
    rewrite (seq_S n 0), fmap_app, bind_app. cbn -[row_bits decodedRow]. rewrite app_nil_r.
    by apply decodeInstruction_holds.
Qed.

(** [decodeImage] packs the rows of the image without gaps and pads the last
    byte with zeros. *)
Lemma decodeImage_ok image records :
  4 * records <= Z.of_nat (length image) <= MaxInt ->
  exists out, decodeImage image records = Ok out /\
    length out = ((Z.to_nat records * row_width + 7) / 8)%nat /\
    bits_of_bytes out
    = (rows_of image (Z.to_nat records) ≫= row_bits)
      ++ replicate (8 * length out - Z.to_nat records * row_width) false.
Proof.
  intros [Hr Hl]. destruct (decode_records_ok image (Z.to_nat records)) as (w & Hw & _ & Hlen & Hb);
    [lia|done|].
  unfold decodeImage. rewrite Hw. cbn [mbind outcome_bind]. eexists. split; [done|].
  set (rows := rows_of _ _) in *.
  assert (length (rows ≫= row_bits) = (Z.to_nat records * row_width)%nat) as Hrows.
  { assert (length rows = Z.to_nat records) as <- by (unfold rows, rows_of; by rewrite length_fmap, length_seq).
    clear. induction rows as [|r rows IH]; [done|]. rewrite bind_cons, length_app, IH, length_row_bits. simpl. lia. }
  rewrite Hrows in Hlen, Hb. done.
Qed.

Lemma decodeImage_reads image records out i :
  4 * records <= Z.of_nat (length image) <= MaxInt ->
  decodeImage image records = Ok out -> Z.of_nat i < records ->
  read_row (bits_of_bytes out) i = decodedRow (word_at image i).
Proof.
  intros Hl Hout Hi. destruct (decodeImage_ok image records Hl) as (out' & Hout' & _ & Hb).
  rewrite Hout in Hout'. injection Hout' as <-. rewrite Hb.
  apply read_row_concat; [|apply decodedRow_fits].
  unfold rows_of. rewrite list_lookup_fmap, lookup_seq_lt by lia. done.
Qed.

(** ** Lemmas: the executable image *)

Definition executables (blobs : list Blob) : list Blob :=
  sort_stable Address (filter (fun b => Executable b = true) blobs).

Definition max_end (me : Z) (l : list Blob) : Z :=
  foldl (fun m b => Z.max m (blob_end b)) me l.

Definition image_base (l : list Blob) : Z :=
  match l with [] => 0 | b :: _ => Address b / 4 * 4 end.

Definition image_records (l : list Blob) : Z := (max_end 0 l + 3) / 4 - image_base l / 4.

(** The executable blobs do not wrap around and the non-empty ones are disjoint. *)
Definition executable_ranges (l : list Blob) : Prop :=
  Forall (fun b => blob_end b < 2 ^ 64) l /\ StronglySorted before (filter nonempty l).

Definition covers (b : Blob) (a : Z) : Prop := Address b <= a < blob_end b.

Lemma max_end_ge me l : me <= max_end me l.
Proof.
  revert me. induction l as [|b l IH]; intros me; cbn; [done|].
  pose proof (IH (Z.max me (blob_end b))) as H. unfold max_end in H. lia.
Qed.

Lemma max_end_elem me l b : b ∈ l -> blob_end b <= max_end me l.
Proof.
  intros Hb. revert me. induction Hb as [b l|b c l Hb IH]; intros me; [|apply IH].
  pose proof (max_end_ge (Z.max me (blob_end b)) l). cbn. unfold max_end in *. lia.
Qed.

(** One step of the range check, without the wrap-around. *)
Lemma check_step pe me i b :
  blob_wf b -> (i = 0%nat -> pe = 0) ->
  check_executable (pe, me) (i, b)
  = if bool_decide (blob_end b < 2 ^ 64) then
      if negb (blen b =? 0) && (Address b <? pe) then Err (ErrExecutableOverlap (Address b) pe)
      else Ok (if negb (blen b =? 0) then blob_end b else pe, Z.max me (blob_end b))
    else Err (ErrExecutableOverflow (Address b)).
Proof.
  intros Hb Hi. unfold check_executable. destruct (wrapped_end b Hb) as [-> Hw].
  case_bool_decide as Hend; cbn [negb]; [|done]. rewrite (Hw Hend).
  assert ((Address b <? pe) = true -> i <> 0%nat).
  { intros Hlt E. rewrite (Hi E) in Hlt. destruct Hb as [[? _] _]. lia. }
  replace (negb (i =? 0)%nat && negb (blen b =? 0) && (Address b <? pe))
    with (negb (blen b =? 0) && (Address b <? pe))
    by (destruct (Nat.eqb_spec i 0), (Address b <? pe), (blen b =? 0); naive_solver).
  replace (if me <? blob_end b then blob_end b else me) with (Z.max me (blob_end b))
    by (destruct (Z.ltb_spec me (blob_end b)); lia).
  done.
Qed.

Definition starts_after (pe : Z) (l : list Blob) : Prop :=
  Forall (fun b => nonempty b -> pe <= Address b) l.

Lemma starts_after_cons pe b l :
  starts_after pe (b :: l) <-> (nonempty b -> pe <= Address b) /\ starts_after pe l.
Proof. apply Forall_cons. Qed.

Lemma starts_after_before b l :
  starts_after (blob_end b) l <-> Forall (before b) (filter nonempty l).
Proof.
  unfold starts_after, before. rewrite !Forall_forall. setoid_rewrite list_elem_of_filter.
  naive_solver.
Qed.

Lemma starts_after_mono pe pe' l : pe' <= pe -> starts_after pe l -> starts_after pe' l.
Proof.
  intros Hle Hf. eapply Forall_impl; [exact Hf|]. cbn. intros x Hx Hne. specialize (Hx Hne). lia.
Qed.

Lemma executable_ranges_cons b l :
  executable_ranges (b :: l)
  <-> blob_end b < 2 ^ 64 /\ (nonempty b -> starts_after (blob_end b) l) /\ executable_ranges l.
Proof.
  unfold executable_ranges. rewrite Forall_cons, filter_cons, starts_after_before.
  case_decide; rewrite ?StronglySorted_cons; tauto.
Qed.

Lemma check_fold_ok n pe me l :
  Forall blob_wf l -> (n = 0%nat -> pe = 0) ->
  match foldM check_executable (pe, me) (imap (fun i b => ((n + i)%nat, b)) l) with
  | Ok (_, m) => executable_ranges l /\ starts_after pe l /\ m = max_end me l
  | Err _ => ~ (executable_ranges l /\ starts_after pe l)
  | Panic => False
  end.
Proof.
  intros Hwf. revert n pe me. induction Hwf as [|b l Hb Hwf IH]; intros n pe me Hn.
  { cbn. repeat constructor. }
  rewrite imap_cons. cbn [foldM]. rewrite check_step by (done || (rewrite Nat.add_0_r; done)).
  rewrite (imap_ext _ (fun i x => ((S n + i)%nat, x)) l) by (intros; cbn; f_equal; lia).
  change (max_end me (b :: l)) with (max_end (Z.max me (blob_end b)) l).
  pose proof (starts_after_cons pe b l) as Hsa. pose proof (executable_ranges_cons b l) as Her.
  pose proof (starts_after_mono (blob_end b) pe l) as Hmono. pose proof (blen_nonneg b).
  unfold nonempty in *. case_bool_decide as Hend; cbn [mbind outcome_bind]; [|tauto].
  destruct (Z.eqb_spec (blen b) 0) as [H0|H0]; cbn [negb andb mbind outcome_bind].
  - specialize (IH (S n) pe (Z.max me (blob_end b)) ltac:(done)).
    destruct (foldM _ _ _) as [[p m]|e|]; tauto.
  - destruct (Z.ltb_spec (Address b) pe) as [Hlt|Hge]; cbn [mbind outcome_bind].
    { intros [_ [Hx _]%Hsa]. specialize (Hx H0). lia. }
    specialize (IH (S n) (blob_end b) (Z.max me (blob_end b)) ltac:(done)).
    assert (pe <= blob_end b) by (unfold blob_end; lia).
    destruct (foldM _ _ _) as [[p m]|e|]; tauto.
Qed.

Lemma copy_blob_ok base image b :
  0 <= Address b - base -> blob_end b - base <= Z.of_nat (length image) ->
  Z.of_nat (length image) <= MaxInt ->
  copy_blob base image b = Ok (copy_at (Z.to_nat (Address b - base)) (Data b) image).
Proof.
  intros H1 H2 H3. pose proof (blen_nonneg b). unfold copy_blob, blob_end in *.
  rewrite uwrap_small by (unfold is_u, MaxInt in *; lia).
  destruct (Z.ltb_spec (Z.of_nat (length image)) (Address b - base)); [lia|done].
Qed.

(** The loop of copies: the bytes of the blobs at their places, the rest of the
    image untouched. *)
Lemma copy_fold_ok base l image :
  Forall (fun b => base <= Address b /\ blob_end b - base <= Z.of_nat (length image)) l ->
  StronglySorted before (filter nonempty l) -> Z.of_nat (length image) <= MaxInt ->
  exists image', foldM (copy_blob base) image l = Ok image' /\ length image' = length image /\
    (forall b j v, b ∈ l -> Data b !! j = Some v ->
       image' !! (Z.to_nat (Address b - base) + j)%nat = Some v) /\
    (forall k, Forall (fun b => ~ covers b (base + Z.of_nat k)) l -> image' !! k = image !! k).
Proof.
  revert image. induction l as [|b l IH]; intros image Hin Hs Hmax.
  { exists image. split_and!; try done. intros b j v Hb. by apply not_elem_of_nil in Hb. }
  apply Forall_cons in Hin as [[Hb1 Hb2] Hin]. cbn [foldM].
  rewrite copy_blob_ok by (done || lia). cbn [mbind outcome_bind].
  set (off := Z.to_nat (Address b - base)). pose proof (blen_nonneg b).
  assert (off + length (Data b) <= length image)%nat as Hoff
    by (subst off; unfold blob_end, blen in *; lia).
  assert (length (copy_at off (Data b) image) = length image) as Hlen by (apply length_copy_at; lia).
  rewrite filter_cons in Hs.
  assert (StronglySorted before (filter nonempty l) /\
          (nonempty b -> Forall (before b) (filter nonempty l))) as [Hs' Hbef].
  { case_decide; [|done]. apply StronglySorted_cons in Hs. tauto. }
  destruct (IH (copy_at off (Data b) image)) as (image' & Hf & Hl' & HA & HB); [by rewrite Hlen|done..|by rewrite Hlen|].
  exists image'. split; [done|]. split; [by rewrite Hl'|]. split.
  - intros c j v Hc Hj. apply elem_of_cons in Hc as [->|Hc]; [|by eapply HA].
    assert (j < length (Data b))%nat by (by eapply lookup_lt_Some).
    assert (nonempty b) as Hne by (unfold nonempty, blen; lia). specialize (Hbef Hne).
    rewrite HB.
    + rewrite copy_at_lookup_in by lia. rewrite <- Hj. f_equal. lia.
    + apply Forall_forall. intros c Hc [Hc1 Hc2]. rewrite Forall_forall in Hbef.
      assert (nonempty c) by (unfold nonempty, blob_end in *; lia).
      specialize (Hbef c ltac:(by apply list_elem_of_filter)). unfold before, blob_end in *.
      unfold blen in *. subst off. lia.
  - intros k [Hk Hk']%Forall_cons. rewrite HB by done. unfold covers, blob_end, blen in *.
    destruct (decide (k < off)%nat); [apply copy_at_lookup_lt; lia|].
    apply copy_at_lookup_ge; subst off; lia.
Qed.

Lemma ldiff3 a : 0 <= a -> Z.ldiff a 3 = a / 4 * 4.
Proof.
  intros. change 3 with (Z.ones 2). rewrite Z.ldiff_ones_r, Z.shiftl_mul_pow2, Z.shiftr_div_pow2 by lia.
  done.
Qed.

Lemma executables_wf blobs : Forall blob_wf blobs -> Forall blob_wf (executables blobs).
Proof.
  intros Hwf. unfold executables. rewrite sort_stable_perm, Forall_forall in *.
  intros b [_ Hb]%list_elem_of_filter. auto.
Qed.

Lemma elem_of_executables blobs b : b ∈ executables blobs <-> Executable b = true /\ b ∈ blobs.
Proof. unfold executables. by rewrite sort_stable_perm, list_elem_of_filter. Qed.

Lemma image_base_le blobs b : b ∈ executables blobs -> image_base (executables blobs) <= Address b.
Proof.
  pose proof (sort_stable_sorted Address (filter (fun b => Executable b = true) blobs)) as Hs.
  fold (executables blobs) in Hs. intros Hb.
  destruct Hs as [|c l Hs Hc]; [by apply not_elem_of_nil in Hb|]. cbn.
  apply elem_of_cons in Hb as [->|Hb]; [golia|].
  rewrite Forall_forall in Hc. specialize (Hc b Hb). unfold key_le in Hc. golia.
Qed.

(** The conditions under which the image is built. *)
Definition image_possible (l : list Blob) (maxRecords : Z) : Prop :=
  l <> [] /\ executable_ranges l /\ max_end 0 l <= MaxUint32 - 3 /\ image_records l <= maxRecords.

(** What the image holds. *)
Definition image_of (l : list Blob) (image : list Z) : Prop :=
  Z.of_nat (length image) = 4 * image_records l /\
  (forall b j v, b ∈ l -> Data b !! j = Some v ->
     image !! (Z.to_nat (Address b - image_base l) + j)%nat = Some v) /\
  (forall k, (k < length image)%nat ->
     Forall (fun b => ~ covers b (image_base l + Z.of_nat k)) l -> image !! k = Some 0).

Lemma executableImage_ok blobs maxRecords :
  Forall blob_wf blobs ->
  let l := executables blobs in
  match executableImage blobs maxRecords with
  | Ok (base, image, records) =>
      image_possible l maxRecords /\ base = image_base l /\ records = image_records l /\ image_of l image
  | Err _ => ~ image_possible l maxRecords
  | Panic => False
  end.
Proof.
  intros Hwf l. unfold executableImage. fold (executables blobs). fold l.
  pose proof (executables_wf blobs Hwf) as Hlwf. fold l in Hlwf.
  pose proof (fun b => image_base_le blobs b) as Hbase. fold l in Hbase.
  clearbody l. destruct l as [|b l']; [unfold image_possible; naive_solver|]. set (l := b :: l') in *.
  assert (is_u 64 (Address b)) as [Ha1 Ha2] by (by apply Forall_cons in Hlwf as [[] _]).
  rewrite ldiff3 by done. change (Address b / 4 * 4) with (image_base l).
  pose proof (check_fold_ok 0 0 0 l Hlwf ltac:(done)) as Hc. cbn [Nat.add] in Hc.
  assert (starts_after 0 l) as Hnn.
  { eapply Forall_impl; [exact Hlwf|]. cbn. by intros x [[? ?] ?]. }
  destruct (foldM check_executable (0, 0) _) as [[p m]|e|]; cbn [mbind outcome_bind];
    [|unfold image_possible; naive_solver|done].
  destruct Hc as (Hr & _ & ->). unfold image_possible.
  destruct (Z.ltb_spec (MaxUint32 - 3) (max_end 0 l)) as [Hm|Hm]; [lia|].
  pose proof (max_end_ge 0 l) as Hm0. unfold MaxUint32 in Hm.
  pose proof (max_end_elem 0 l b ltac:(left)) as Hmb. pose proof (blen_nonneg b).
  assert (image_base l = Address b / 4 * 4) as Hib by done.
  assert (image_base l <= max_end 0 l) by (unfold blob_end in *; golia).
  assert (0 <= image_base l) by golia.
  rewrite (uwrap_small 64 (max_end 0 l + 3)) by (unfold is_u; num_pow; lia).
  rewrite ldiff3 by lia.
  assert ((max_end 0 l + 3) / 4 * 4 - image_base l = 4 * image_records l) as Hspan
    by (unfold image_records; golia).
  assert (0 <= 4 * image_records l < 2 ^ 33) as Hspan2 by (rewrite <- Hspan; num_pow; golia).
  rewrite Hspan, uwrap_small by (unfold is_u; num_pow; lia).
  rewrite (Z.mul_comm 4), Z.div_mul by lia.
  destruct (Z.ltb_spec maxRecords (image_records l)); [lia|].
  destruct (Z.ltb_spec MaxInt (image_records l * 4)); [unfold MaxInt in *; num_pow; lia|].
  destruct (copy_fold_ok (image_base l) l (replicate (Z.to_nat (image_records l * 4)) 0))
    as (image & -> & Hlen & HA & HB).
  - rewrite length_replicate. apply Forall_forall. intros c Hc. split; [by apply Hbase|].
    pose proof (max_end_elem 0 l c Hc). golia.
  - apply Hr.
  - rewrite length_replicate. lia.
  - cbn [mbind outcome_bind]. rewrite length_replicate in Hlen. unfold image_of.
    split_and!; try done; try lia.
    intros k Hk Hno. rewrite HB by done. apply lookup_replicate. lia.
Qed.

Lemma image_bounds blobs maxRecords :
  Forall blob_wf blobs -> image_possible (executables blobs) maxRecords ->
  0 <= 4 * image_records (executables blobs) < 2 ^ 33.
Proof.
  intros Hwf (Hne & _ & Hm & _). pose proof (executables_wf blobs Hwf) as Hl.
  pose proof (image_base_le blobs) as Hb.
  destruct (executables blobs) as [|b l]; [done|].
  pose proof (max_end_elem 0 (b :: l) b ltac:(left)). pose proof (blen_nonneg b).
  apply Forall_cons in Hl as [[[? ?] _] _].
  unfold image_records, MaxUint32, blob_end, image_base in *. num_pow. golia.
Qed.

Lemma image_base_u32 blobs maxRecords :
  Forall blob_wf blobs -> image_possible (executables blobs) maxRecords ->
  is_u 32 (image_base (executables blobs)).
Proof.
  intros Hwf (Hne & _ & Hm & _). pose proof (executables_wf blobs Hwf) as Hl.
  destruct (executables blobs) as [|b l]; [done|].
  pose proof (max_end_elem 0 (b :: l) b ltac:(left)). pose proof (blen_nonneg b).
  apply Forall_cons in Hl as [[[? ?] _] _].
  unfold is_u, MaxUint32, blob_end, image_base in *. num_pow. golia.
Qed.

(** [predecode] on a program whose image can be built. *)
Lemma predecode_ok program maxRecords d :
  Forall blob_wf (Blobs program) -> predecode program maxRecords = Ok d ->
  let l := executables (Blobs program) in
  exists image, image_of l image /\ InstructionBase d = image_base l /\
    Z.of_nat (length image) <= MaxInt /\
    decodeImage image (image_records l) = Ok (Decoded d).
Proof.
  intros Hwf Hd l. unfold predecode in Hd.
  pose proof (executableImage_ok (Blobs program) maxRecords Hwf) as Hi. fold l in Hi.
  destruct (executableImage _ _) as [[[base image] records]| |]; [|done..].
  destruct Hi as (Hp & -> & -> & Hof). cbn [mbind outcome_bind] in Hd. ok_inv Hd.
  injection Hd as <-. exists image. split_and!; try done.
  destruct Hof as [-> _]. pose proof (image_bounds _ _ Hwf Hp) as Hb. fold l in Hb.
  unfold MaxInt. num_pow. lia.
Qed.

Lemma sub_slice_lookup {A} (a b : nat) (l : list A) i :
  (i < b - a)%nat -> sub_slice a b l !! i = l !! (a + i)%nat.
Proof. intros. unfold sub_slice. by rewrite lookup_take_lt, lookup_drop by lia. Qed.

Lemma sub_slice_ext {A} (a a' n : nat) (l l' : list A) :
  (forall i, (i < n)%nat -> l !! (a + i)%nat = l' !! (a' + i)%nat) ->
  sub_slice a (a + n) l = sub_slice a' (a' + n) l'.
Proof.
  intros H. apply list_eq. intros i. destruct (decide (i < n)%nat) as [Hi|Hi].
  - rewrite !sub_slice_lookup by lia. auto.
  - unfold sub_slice. rewrite !lookup_take_ge by lia. done.
Qed.

(** ** Theorems *)

(** C34. [predecode] succeeds exactly on the programs with an executable blob
    whose executable blobs neither wrap around nor overlap, end below the last
    aligned 32-bit address and span at most the allowed number of records; on
    every other program it returns an error, and it never panics: every slice
    expression of the image and of the decoder is in range. *)
Theorem predecode_total program maxRecords :
  program_wf program ->
  (exists d, predecode program maxRecords = Ok d) /\
    image_possible (executables (Blobs program)) maxRecords \/
  (exists e, predecode program maxRecords = Err e) /\
    ~ image_possible (executables (Blobs program)) maxRecords.
Proof.
  intros [_ Hwf]. unfold predecode.
  pose proof (executableImage_ok (Blobs program) maxRecords Hwf) as Hi. cbv zeta in Hi.
  destruct (executableImage _ _) as [[[base image] records]| |]; cbn [mbind outcome_bind];
    [left|right; eauto|done].
  destruct Hi as (Hp & -> & -> & Hlen & _). pose proof (image_bounds _ _ Hwf Hp) as Hb.
  destruct (decodeImage_ok image (image_records (executables (Blobs program)))) as (out & -> & _).
  - split; [lia|]. unfold MaxInt. num_pow. lia.
  - eauto.
Qed.

(** C8. End to end, the predecoded table is the program: for every executable
    blob and every aligned word inside it, the 87-bit row at position
    [(address - InstructionBase) / 4] of the packed table holds the decoding of
    that word (its operation, immediate and registers). *)
Theorem predecode_rows program maxRecords d b j :
  program_wf program -> predecode program maxRecords = Ok d ->
  b ∈ Blobs program -> Executable b = true ->
  (j + 4 <= length (Data b))%nat -> (Address b + Z.of_nat j) mod 4 = 0 ->
  read_row (bits_of_bytes (Decoded d)) (Z.to_nat ((Address b + Z.of_nat j - InstructionBase d) / 4))
  = decodedRow (le_value (sub_slice j (j + 4) (Data b))).
Proof.
  intros [_ Hwf] Hd Hb Hx Hj Hal.
  apply predecode_ok in Hd as (image & (Hlen & HA & _) & -> & Hmax & Hd); [|done].
  set (l := executables (Blobs program)) in *.
  assert (b ∈ l) as Hbl by (by apply elem_of_executables).
  pose proof (image_base_le _ _ Hbl) as Hle. fold l in Hle.
  assert (exists q, image_base l = 4 * q) as [q Hq].
  { unfold image_base. destruct l as [|c l']; [by exists 0|]. exists (Address c / 4). lia. }
  assert (forall i, (i < 4)%nat -> image !! (Z.to_nat (Address b - image_base l) + (j + i))%nat
            = Data b !! (j + i)%nat) as Hbytes.
  { intros i Hi. destruct (lookup_lt_is_Some_2 (Data b) (j + i)) as [v Hv]; [lia|].
    rewrite Hv. by apply HA. }
  assert (Z.to_nat (Address b - image_base l) + (j + 3) < length image)%nat as Hin.
  { apply lookup_lt_is_Some. rewrite Hbytes by lia. apply lookup_lt_is_Some. lia. }
  rewrite (decodeImage_reads image (image_records l)); [|lia|done|golia].
  unfold word_at. do 2 f_equal. apply sub_slice_ext. intros i Hi. rewrite <- Hbytes by done.
  f_equal. golia.
Qed.

(** Outside the program the table is inert: a row whose four bytes no
    executable blob covers is the invalid instruction with zero operands, and the
    table has exactly the bytes of its rows, the last one padded. *)
Theorem predecode_gaps program maxRecords d i :
  program_wf program -> predecode program maxRecords = Ok d ->
  let l := executables (Blobs program) in
  Z.of_nat i < image_records l ->
  Forall (fun b => forall k, 0 <= k < 4 -> ~ covers b (InstructionBase d + 4 * Z.of_nat i + k)) l ->
  read_row (bits_of_bytes (Decoded d)) i = (computeInvalid, 0, 0, 0, 0) /\
  length (Decoded d) = ((Z.to_nat (image_records l) * row_width + 7) / 8)%nat.
Proof.
  intros [_ Hwf] Hd l Hi Hgap.
  apply predecode_ok in Hd as (image & (Hlen & _ & HB) & Hbase & Hmax & Hd); [|done]. fold l in Hlen, HB, Hbase, Hd.
  split.
  - rewrite (decodeImage_reads image (image_records l)) by (done || lia).
    assert (sub_slice (4 * i) (4 * i + 4) image = sub_slice 0 (0 + 4) [0; 0; 0; 0]) as Hz.
    { apply sub_slice_ext. intros k Hk. rewrite HB; [|lia|].
      - by do 4 (destruct k as [|k]; [done|]); lia.
      - eapply Forall_impl; [exact Hgap|]. cbn. intros b Hnb. rewrite Hbase in Hnb.
        specialize (Hnb (Z.of_nat k) ltac:(lia)). contradict Hnb.
        replace (image_base l + 4 * Z.of_nat i + Z.of_nat k)
          with (image_base l + Z.of_nat (4 * i + k)) by lia. done. }
    unfold word_at. rewrite Hz. vm_compute. done.
  - destruct (decodeImage_ok image (image_records l)) as (out & Hout & Hl & _); [lia|].
    rewrite Hd in Hout. by injection Hout as <-.
Qed.

Lemma map_err_ok {E E' A} (f : E -> E') (m : outcome E A) a : map_err f m = Ok a <-> m = Ok a.
Proof. destruct m; cbn; naive_solver. Qed.

(** [PrepareInputs] composes the two packages: when it returns, the guest
    ELF was loaded and predecoded under the given options, the two entries of the
    predecoder are the base address (unwrapped, on four big-endian bytes) and the
    packed table, and every other entry is the one [elfmapping.EncodeInputs]
    makes of the program and the length-prefixed job input. *)
Theorem PrepareInputs_compose {BitArray} (NewArray : list Z -> Z -> BitArray)
    sort_slice NewFile elfBytes inputData options program inputs :
  Load sort_slice NewFile elfBytes = Ok program -> program_wf program ->
  PrepareInputs NewArray sort_slice NewFile elfBytes inputData options = Ok inputs ->
  exists d inputBlobs mapping mopts,
    Predecode program options = Ok d /\
    NewData DefaultInputOrigin inputData [Some WithLengthPrefix] = Ok inputBlobs /\
    EncodeInputs NewArray program inputBlobs mopts = Ok mapping /\
    inputs !! InstructionBaseInput
      = Some (BitArrayFromBytes NewArray (be_bytes 4 (InstructionBase d))) /\
    inputs !! DecodedInput = Some (BitArrayFromBytes NewArray (Decoded d)) /\
    (forall k, k <> InstructionBaseInput -> k <> DecodedInput -> inputs !! k = mapping !! k).
Proof.
  intros Hload [_ Hwf] H. unfold PrepareInputs in H. rewrite Hload in H.
  apply bind_ok in H as (cfg & Hcfg & H). cbn [map_err mbind outcome_bind] in H.
  apply bind_ok in H as (d & Hd & H). apply bind_ok in H as (bs & Hbs%map_err_ok & H).
  apply bind_ok in H as (m & Hm%map_err_ok & [= <-]).
  exists d, bs, m, (mappingOptions cfg). split_and!; try done.
  - unfold Predecode. by rewrite Hcfg.
  - unfold DecodedProgram_EncodeInputs.
    assert (u32 (InstructionBase d) = InstructionBase d) as ->.
    { apply uwrap_small. unfold predecode in Hd.
      pose proof (executableImage_ok (Blobs program) (maxDecodedRecords cfg) Hwf) as Hi. cbv zeta in Hi.
      destruct (executableImage _ _) as [[[base image] records]| |]; [|done..].
      destruct Hi as (Hp & -> & _). cbn [mbind outcome_bind] in Hd. ok_inv Hd. injection Hd as <-.
      cbn. by apply (image_base_u32 _ (maxDecodedRecords cfg)). }
    by rewrite lookup_union_l', lookup_insert_eq by (rewrite lookup_insert_eq; eauto).
  - unfold DecodedProgram_EncodeInputs. rewrite lookup_union_l'; by rewrite lookup_insert_ne, lookup_insert_eq.
  - intros k H1 H2. unfold DecodedProgram_EncodeInputs.
    rewrite lookup_union_r; [done|]. by rewrite !lookup_insert_ne by done.
Qed.

(** ** Witnesses *)

(** Two executable blobs, four bytes of code each, with a gap of one word. *)
Definition two_blobs : Program := mkProgram 0x1000
  [mkBlob 0x1008 [0x73; 0; 0; 0] "b" true; mkBlob 0x1000 [0x13; 0x05; 0x10; 0] "a" true].

Definition two_blobs_decoded : DecodedProgram :=
  Eval vm_compute in
  match predecode two_blobs 100 with Ok d => d | _ => mkDecodedProgram 0 [] end.

Lemma two_blobs_wf : program_wf two_blobs.
Proof. split; [done|]. repeat constructor; done. Qed.

Lemma two_blobs_predecode : predecode two_blobs 100 = Ok two_blobs_decoded.
Proof. vm_compute. done. Qed.

Lemma predecode_total_witness : exists d, predecode two_blobs 100 = Ok d.
Proof.
  destruct (predecode_total two_blobs 100 two_blobs_wf) as [[H _]|[[e H] _]]; [exact H|].
  rewrite two_blobs_predecode in H. discriminate H.
Defined.

Lemma predecode_rows_witness :
  read_row (bits_of_bytes (Decoded two_blobs_decoded)) 2 = (23, 0, 0, 0, 0).
Proof.
  exact (predecode_rows two_blobs 100 two_blobs_decoded
    (mkBlob 0x1008 [0x73; 0; 0; 0] "b" true) 0 two_blobs_wf two_blobs_predecode
    ltac:(left) eq_refl ltac:(cbn; lia) eq_refl).
Defined.

Lemma predecode_gaps_witness :
  read_row (bits_of_bytes (Decoded two_blobs_decoded)) 1 = (255, 0, 0, 0, 0) /\
  length (Decoded two_blobs_decoded) = 33%nat.
Proof.
  apply (predecode_gaps two_blobs 100 two_blobs_decoded 1 two_blobs_wf two_blobs_predecode).
  - vm_compute. done.
  - change (executables (Blobs two_blobs)) with
      [mkBlob 0x1000 [0x13; 0x05; 0x10; 0] "a" true; mkBlob 0x1008 [0x73; 0; 0; 0] "b" true].
    rewrite !Forall_cons. split_and!; [..|constructor]; intros k Hk;
      unfold covers, two_blobs_decoded, blob_end, blen; cbn; lia.
Defined.

Definition demo_parse (bs : list Z) : option ElfFile := Some demo_elf.

Definition demo_prepare : outcome pre_error (gmap string (list Z * Z)) :=
  PrepareInputs bytes_array (sort_stable Address) demo_parse [] [7] [].

Definition demo_loaded : Program := Eval vm_compute in
  match Load (sort_stable Address) demo_parse [] with Ok p => p | _ => mkProgram 0 [] end.

Lemma demo_prepare_ok : exists m, demo_prepare = Ok m.
Proof.
  assert (match demo_prepare with Ok _ => true | _ => false end = true) as H
    by (vm_compute; reflexivity).
  destruct demo_prepare; [eauto|discriminate H..].
Qed.

Lemma demo_load_ok : Load (sort_stable Address) demo_parse [] = Ok demo_loaded.
Proof. vm_compute. done. Qed.

Lemma demo_loaded_wf : program_wf demo_loaded.
Proof. split; [done|]. repeat constructor; done. Qed.

Lemma PrepareInputs_compose_witness :
  exists m d, demo_prepare = Ok m /\ Predecode demo_loaded [] = Ok d /\
    m !! InstructionBaseInput = Some (BitArrayFromBytes bytes_array (be_bytes 4 (InstructionBase d))).
Proof.
  destruct demo_prepare_ok as [prepared Hprepared].
  destruct (PrepareInputs_compose bytes_array (sort_stable Address) demo_parse [] [7] []
    demo_loaded prepared demo_load_ok demo_loaded_wf Hprepared)
    as (d & bs & m & mo & Hd & _ & _ & Hb & _).
  exists prepared, d. split; [exact Hprepared|]. split; [exact Hd|exact Hb].
Defined.
