(* ===== verification/Smt.v ===== *)
(** The sparse Merkle tree of the state manager:
    [prover/crypto/state-management/smt_koalabear] ([tree.go], [update.go],
    [proof.go]), and the integer helpers of [prover/utils] it calls.

    The file is generic in the type of nodes, its zero value and the two-to-one
    hash [hashLR]: the packages [smt_koalabear], [smt_bls12377] and
    [smt_mimcbls12377] are three copies of this code for three node types.  A
    position is a Go [int], so a [Z] that may be negative; the depth and the
    levels are [nat].  [1 << depth] wraps around as an [int] does, and the theorems
    ask for a depth of at most 62.  [utils.Panic] and an index out of range are
    [Panic].

    The specification is the Merkle tree of a function from positions to leaves:
    [node f l p] is the node of level [l] at position [p], and [tree_ok t f] says
    that the stored nodes of [t], completed by its empty nodes, are those of
    [f]. *)
From S2P Require Import Prelude.

(** ** Integer helpers of [prover/utils] *)

Definition IsPowerOfTwo (n : Z) : bool := ((n &&& (n - 1)) =? 0) && (0 <? n).

(** [for i := a; i > 1; i = i >> 1 { res++ }], with [a] as the bound on the number
    of iterations. *)
Fixpoint log2_loop (fuel : nat) (i res : Z) : Z :=
  match fuel with
  | O => res
  | S fuel => if 1 <? i then log2_loop fuel (i ≫ 1) (res + 1) else res
  end.

Definition Log2Floor (a : Z) : Z := log2_loop 64 a 0.

Definition Log2Ceil (a : Z) : Z :=
  let floor := Log2Floor a in
  if negb (a =? i64 (1 ≪ floor)) then floor + 1 else floor.

(** [1 << n] on an [int]. *)
Definition shl1 (n : nat) : Z := i64 (1 ≪ Z.of_nat n).

(** [l[z]]: no value when the index is out of range. *)
Definition index {A} (l : list A) (z : Z) : option A :=
  if z <? 0 then None else l !! Z.to_nat z.

(** [l[z] = v]. *)
Definition set_index {A} (l : list A) (z : Z) (v : A) : option (list A) :=
  if (0 <=? z) && (z <? Z.of_nat (length l)) then Some (<[Z.to_nat z := v]> l) else None.

(** ** Data *)

Definition DefaultDepth : nat := 40.

Inductive smt_error :=
| ErrOutOfBound (pos : Z)
| ErrNegativePosition (pos : Z)
| ErrPosTooHigh (pos : Z)
| ErrPosNegative (pos : Z)
| ErrInvalidProof.

#[global] Instance smt_error_eq_dec : EqDecision smt_error.
Proof. solve_decision. Defined.

Record Tree (A : Type) := mkTree {
  Depth : nat;
  Root : A;
  OccupiedLeaves : list A;
  OccupiedNodes : list (list A);
  EmptyNodes : list A
}.
Arguments mkTree {A}.
Arguments Depth {A}.
Arguments Root {A}.
Arguments OccupiedLeaves {A}.
Arguments OccupiedNodes {A}.
Arguments EmptyNodes {A}.

Record MerkleProof (A : Type) := mkProof {
  Path : Z;
  Siblings : list A
}.
Arguments mkProof {A}.
Arguments Path {A}.
Arguments Siblings {A}.

Record ProvedClaim (A : Type) := mkProvedClaim {
  claim_Proof : MerkleProof A;
  claim_Root : A;
  claim_Leaf : A
}.
Arguments mkProvedClaim {A}.
Arguments claim_Proof {A}.
Arguments claim_Root {A}.
Arguments claim_Leaf {A}.

Section Operations.
Context {A : Type} `{EqDecision A}.
Context (EmptyLeaf : A) (hashLR : A -> A -> A).
Implicit Types t : Tree A.

(** ** Construction *)

(** The loop that fills [EmptyNodes], with the last node computed. *)
Fixpoint empty_nodes (n : nat) (prevNode : A) : list A * A :=
  match n with
  | O => ([], prevNode)
  | S n =>
      let newNode := hashLR prevNode prevNode in
      let '(rest, last) := empty_nodes n newNode in
      (newNode :: rest, last)
  end.

Definition NewEmptyTree (depths : list Z) : Tree A :=
  let depth := match depths with
               | d :: _ => if 0 <? d then Z.to_nat d else DefaultDepth
               | [] => DefaultDepth
               end in
  let '(emptyNodes, prevNode) := empty_nodes (depth - 1) EmptyLeaf in
  let root := hashLR prevNode prevNode in
  mkTree depth root [] (replicate (depth - 1) []) emptyNodes.

(** ** Reading *)

Definition GetRoot t : A := Root t.

Definition GetLeaf t (pos : Z) : outcome smt_error A :=
  let maxPos := shl1 (Depth t) in
  if maxPos <=? pos then Err (ErrOutOfBound pos) else
  if pos <? 0 then Err (ErrNegativePosition pos) else
  if Z.of_nat (length (OccupiedLeaves t)) <=? pos then Ok EmptyLeaf else
  unwrap (index (OccupiedLeaves t) pos).

Definition MustGetLeaf t (pos : Z) : outcome smt_error A := must (GetLeaf t pos).

Definition getNode t (level : nat) (posInLevel : Z) : outcome smt_error A :=
  if (level =? Depth t)%nat then
    if 0 <? posInLevel then Panic else
    if decide (Root t = EmptyLeaf) then Panic else Ok (Root t)
  else if (1 <=? level)%nat && (level <=? Depth t - 1)%nat then
    let maxPos := shl1 (Depth t - level) in
    if maxPos <=? posInLevel then Panic else
    nodes ← unwrap (OccupiedNodes t !! (level - 1)%nat);
    if Z.of_nat (length nodes) <=? posInLevel then unwrap (EmptyNodes t !! (level - 1)%nat) else
    res ← unwrap (index nodes posInLevel);
    if decide (res = EmptyLeaf) then Panic else Ok res
  else if (level =? 0)%nat then must (GetLeaf t posInLevel)
  else Panic.

(** ** Writing *)

Definition set_leaves t (leaves : list A) : Tree A :=
  mkTree (Depth t) (Root t) leaves (OccupiedNodes t) (EmptyNodes t).
Definition set_nodes t (nodes : list (list A)) : Tree A :=
  mkTree (Depth t) (Root t) (OccupiedLeaves t) nodes (EmptyNodes t).
Definition set_root t (root : A) : Tree A :=
  mkTree (Depth t) root (OccupiedLeaves t) (OccupiedNodes t) (EmptyNodes t).

Definition reserveLevel t (level : nat) (newSize : Z) : outcome smt_error (Tree A) :=
  if (Depth t <? level)%nat then Panic else
  if (level =? Depth t)%nat then Panic else
  if shl1 (Depth t - level) <? newSize then Panic else
  if (level =? 0)%nat then
    if newSize <=? Z.of_nat (length (OccupiedLeaves t)) then Ok t else
    let padding := replicate (Z.to_nat newSize - length (OccupiedLeaves t)) EmptyLeaf in
    Ok (set_leaves t (OccupiedLeaves t ++ padding))
  else
    nodes ← unwrap (OccupiedNodes t !! (level - 1)%nat);
    if newSize <=? Z.of_nat (length nodes) then Ok t else
    empty ← unwrap (EmptyNodes t !! (level - 1)%nat);
    let padding := replicate (Z.to_nat newSize - length nodes) empty in
    Ok (set_nodes t (<[(level - 1)%nat := nodes ++ padding]> (OccupiedNodes t))).

Definition updateNode t (level : nat) (posInLevel : Z) (newVal : A) :
    outcome smt_error (Tree A) :=
  if (level =? Depth t)%nat then
    if 0 <? posInLevel then Panic else
    if decide (Root t = EmptyLeaf) then Panic else Ok (set_root t newVal)
  else if (1 <=? level)%nat && (level <? Depth t)%nat then
    let maxPos := shl1 (Depth t - level) in
    if maxPos <=? posInLevel then Panic else
    nodes ← unwrap (OccupiedNodes t !! (level - 1)%nat);
    t ← (if Z.of_nat (length nodes) <=? posInLevel
         then reserveLevel t level (posInLevel + 1) else Ok t);
    nodes ← unwrap (OccupiedNodes t !! (level - 1)%nat);
    nodes ← unwrap (set_index nodes posInLevel newVal);
    Ok (set_nodes t (<[(level - 1)%nat := nodes]> (OccupiedNodes t)))
  else if (level =? 0)%nat then
    let maxPos := shl1 (Depth t) in
    if maxPos <=? posInLevel then Panic else
    t ← (if Z.of_nat (length (OccupiedLeaves t)) <=? posInLevel
         then reserveLevel t 0 (posInLevel + 1) else Ok t);
    leaves ← unwrap (set_index (OccupiedLeaves t) posInLevel newVal);
    Ok (set_leaves t leaves)
  else Panic.

(** [left, right := current, sibling], swapped when the last bit of the index is
    set. *)
Definition hash_step (idx : Z) (current sibling : A) : A :=
  if (idx &&& 1) =? 1 then hashLR sibling current else hashLR current sibling.

(** One iteration of the loop of [Update]. *)
Definition update_level (st : Tree A * A * Z) (level : nat) : outcome smt_error (Tree A * A * Z) :=
  let '(t, current, idx) := st in
  t ← updateNode t level idx current;
  sibling ← getNode t level (idx ^^^ 1);
  Ok (t, hash_step idx current sibling, idx ≫ 1).

Definition Update t (pos : Z) (newVal : A) : outcome smt_error (Tree A) :=
  if shl1 (Depth t) <=? pos then Panic else
  '(t', current, idx) ← foldM update_level (t, newVal, pos) (seq 0 (Depth t));
  if negb (idx =? 0) then Panic else Ok (set_root t' current).

(** ** Merkle proofs *)

Definition prove_level t (st : list A * Z) (level : nat) : outcome smt_error (list A * Z) :=
  let '(siblings, idx) := st in
  sibling ← getNode t level (idx ^^^ 1);
  Ok (siblings ++ [sibling], idx ≫ 1).

Definition Prove t (pos : Z) : outcome smt_error (MerkleProof A) :=
  if shl1 (Depth t) <=? pos then Err (ErrPosTooHigh pos) else
  if pos <? 0 then Err (ErrPosNegative pos) else
  '(siblings, idx) ← foldM (prove_level t) ([], pos) (seq 0 (Depth t));
  if negb (idx =? 0) then Panic else Ok (mkProof pos siblings).

Definition MustProve t (pos : Z) : outcome smt_error (MerkleProof A) := must (Prove t pos).

Definition recover_step (st : A * Z) (sibling : A) : A * Z :=
  let '(current, idx) := st in (hash_step idx current sibling, idx ≫ 1).

Definition RecoverRoot (p : MerkleProof A) (leaf : A) : outcome smt_error A :=
  let '(current, idx) := foldl recover_step (leaf, Path p) (Siblings p) in
  if negb (idx =? 0) then Panic else Ok current.

Definition Verify (p : MerkleProof A) (leaf root : A) : outcome smt_error unit :=
  actual ← RecoverRoot p leaf;
  if decide (actual = root) then Ok tt else Err ErrInvalidProof.
End Operations.

(** ** Specification: the Merkle tree of a leaf function *)

Definition upd {A} (f : Z -> A) (pos : Z) (v : A) : Z -> A :=
  fun p => if p =? pos then v else f p.

(** ** Lemmas: integers *)

Lemma shl1_pow n : (n <= 62)%nat -> shl1 n = 2 ^ Z.of_nat n.
Proof.
  intros Hn. unfold shl1. rewrite Z.shiftl_1_l. apply swrap_small; [|lia].
  pose proof (pow2_pos (Z.of_nat n) ltac:(lia)).
  assert (2 ^ Z.of_nat n <= 2 ^ 62) by (apply Z.pow_le_mono_r; lia).
  unfold is_i. change (2 ^ (64 - 1)) with 9223372036854775808.
  change (2 ^ 62) with 4611686018427387904 in *. lia.
Qed.

Lemma pow2_S n : 2 ^ Z.of_nat (S n) = 2 * 2 ^ Z.of_nat n.
Proof. rewrite Nat2Z.inj_succ, Z.pow_succ_r by lia. done. Qed.

(** An index is twice its parent, or one more. *)
Lemma idx_cases idx :
  0 <= idx ->
  (idx &&& 1 = 0 /\ idx ^^^ 1 = idx + 1 /\ idx = 2 * (idx ≫ 1)) \/
  (idx &&& 1 = 1 /\ idx ^^^ 1 = idx - 1 /\ idx = 2 * (idx ≫ 1) + 1).
Proof.
  intros Hi. destruct idx as [|[p|p|]|p]; [left|right|left|right|lia]; split_and!; reflexivity.
Qed.

Lemma shiftr1_div idx : idx ≫ 1 = idx / 2.
Proof. by rewrite Z.shiftr_div_pow2 by lia. Qed.

(** Ancestors. *)
Lemma shiftr_S pos n : pos ≫ Z.of_nat (S n) = (pos ≫ Z.of_nat n) ≫ 1.
Proof. rewrite Z.shiftr_shiftr by lia. f_equal. lia. Qed.

Lemma shiftr_bound pos d n :
  (n <= d)%nat -> 0 <= pos < 2 ^ Z.of_nat d -> 0 <= pos ≫ Z.of_nat n < 2 ^ Z.of_nat (d - n).
Proof.
  intros Hn Hp. rewrite Z.shiftr_div_pow2 by lia. pose proof (pow2_pos (Z.of_nat n) ltac:(lia)).
  split; [apply Z.div_pos; lia|]. apply Z.div_lt_upper_bound; [done|].
  rewrite <- Z.pow_add_r by lia. replace (Z.of_nat n + Z.of_nat (d - n)) with (Z.of_nat d) by lia. lia.
Qed.

Lemma sibling_bound idx n :
  (1 <= n)%nat -> 0 <= idx < 2 ^ Z.of_nat n -> 0 <= idx ^^^ 1 < 2 ^ Z.of_nat n.
Proof.
  intros Hn Hi. destruct n as [|n]; [lia|]. rewrite pow2_S in *.
  destruct (idx_cases idx) as [(_ & -> & ?)|(_ & -> & ?)]; lia.
Qed.

Lemma sibling_ne idx : 0 <= idx -> idx ^^^ 1 <> idx.
Proof. intros. destruct (idx_cases idx) as [(_ & -> & ?)|(_ & -> & ?)]; lia. Qed.

Lemma index_lookup {A} (l : list A) p : 0 <= p -> index l p = l !! Z.to_nat p.
Proof. intros. unfold index. destruct (Z.ltb_spec p 0); [lia|done]. Qed.

Section Nodes.
Context {A : Type} `{EqDecision A} (hashLR : A -> A -> A).
Implicit Types f : Z -> A.

Fixpoint node f (l : nat) (p : Z) : A :=
  match l with
  | O => f p
  | S l => hashLR (node f l (2 * p)) (node f l (2 * p + 1))
  end.

(** ** Lemmas: nodes *)

Lemma node_upd_other f pos v l p : p <> pos ≫ Z.of_nat l -> node (upd f pos v) l p = node f l p.
Proof.
  revert p. induction l as [|l IH]; intros p Hp; cbn [node].
  - unfold upd. rewrite Z.shiftr_0_r in Hp. destruct (Z.eqb_spec p pos); [done|done].
  - rewrite shiftr_S, shiftr1_div in Hp. rewrite !IH by golia. done.
Qed.

Lemma node_ext f f' l p :
  (forall q, p * 2 ^ Z.of_nat l <= q < (p + 1) * 2 ^ Z.of_nat l -> f q = f' q) ->
  node f l p = node f' l p.
Proof.
  revert p. induction l as [|l IH]; intros p Hq; cbn [node].
  - apply Hq. cbn. lia.
  - rewrite pow2_S in Hq. f_equal; apply IH; intros q Hb; apply Hq; nia.
Qed.

(** A node and its sibling hash to their parent. *)
Lemma hash_step_node f l idx :
  0 <= idx ->
  hash_step hashLR idx (node f l idx) (node f l (idx ^^^ 1)) = node f (S l) (idx ≫ 1).
Proof.
  intros Hi. unfold hash_step. cbn [node].
  destruct (idx_cases idx Hi) as [(-> & -> & E)|(-> & -> & E)]; cbn [Z.eqb Pos.eqb];
    f_equal; f_equal; lia.
Qed.

(** The siblings of the path of a position, from the leaves up. *)
Definition siblings_of f (pos : Z) (n : nat) : list A :=
  (fun l => node f l ((pos ≫ Z.of_nat l) ^^^ 1)) <$> seq 0 n.

Lemma siblings_of_S f pos n :
  siblings_of f pos (S n) = siblings_of f pos n ++ [node f n ((pos ≫ Z.of_nat n) ^^^ 1)].
Proof. unfold siblings_of. by rewrite seq_S, fmap_app. Qed.

Lemma length_siblings_of f pos n : length (siblings_of f pos n) = n.
Proof. unfold siblings_of. by rewrite length_fmap, length_seq. Qed.

Lemma recover_fold f pos v n :
  0 <= pos ->
  foldl (recover_step hashLR) (v, pos) (siblings_of f pos n)
  = (node (upd f pos v) n (pos ≫ Z.of_nat n), pos ≫ Z.of_nat n).
Proof.
  intros Hpos. induction n as [|n IH].
  - cbn. rewrite Z.shiftr_0_r. unfold upd. by rewrite Z.eqb_refl.
  - rewrite siblings_of_S, foldl_app, IH. cbn [foldl recover_step]. rewrite shiftr_S.
    assert (0 <= pos ≫ Z.of_nat n) by (apply Z.shiftr_nonneg; lia).
    rewrite <- (node_upd_other f pos v n) by (apply sibling_ne; lia).
    by rewrite hash_step_node by lia.
Qed.

(** The path of a position recovers the root of the tree in which its leaf has
    been replaced. *)
Lemma RecoverRoot_path f pos v n :
  0 <= pos < 2 ^ Z.of_nat n ->
  RecoverRoot hashLR (mkProof pos (siblings_of f pos n)) v = Ok (node (upd f pos v) n 0).
Proof.
  intros Hpos. unfold RecoverRoot. cbn [Path Siblings]. rewrite recover_fold by lia.
  pose proof (shiftr_bound pos n n ltac:(lia) Hpos) as Hb. rewrite Nat.sub_diag in Hb.
  change (2 ^ Z.of_nat 0) with 1 in Hb. by replace (pos ≫ Z.of_nat n) with 0 by lia.
Qed.

Lemma node_upd_id f pos n p : node (upd f pos (f pos)) n p = node f n p.
Proof.
  apply node_ext. intros q _. unfold upd. destruct (Z.eqb_spec q pos) as [->|]; done.
Qed.

Lemma Verify_path f pos n :
  0 <= pos < 2 ^ Z.of_nat n ->
  Verify hashLR (mkProof pos (siblings_of f pos n)) (f pos) (node f n 0) = Ok tt.
Proof.
  intros Hpos. unfold Verify. rewrite RecoverRoot_path by done. cbn [mbind outcome_bind].
  rewrite node_upd_id. by rewrite decide_True.
Qed.

(** ** Lemmas: binding

    [path_collisions] compares, level by level, the pair that a proof hashes with
    the pair of the tree at that place, and collects the pairs that differ and
    have the same hash. *)
Definition pair_at f (l : nat) (idx : Z) : A * A :=
  (node f l (2 * (idx ≫ 1)), node f l (2 * (idx ≫ 1) + 1)).

Definition proof_pair (idx : Z) (current sibling : A) : A * A :=
  if (idx &&& 1) =? 1 then (sibling, current) else (current, sibling).

Fixpoint path_collisions f (l : nat) (idx : Z) (current : A) (siblings : list A) :
    list ((A * A) * (A * A)) :=
  match siblings with
  | [] => []
  | s :: ss =>
      let a := proof_pair idx current s in
      let b := pair_at f l idx in
      let rest := path_collisions f (S l) (idx ≫ 1) (hashLR a.1 a.2) ss in
      if decide (a = b) then rest
      else if decide (hashLR a.1 a.2 = hashLR b.1 b.2) then (a, b) :: rest else rest
  end.

Lemma path_collisions_real f l idx current ss a b :
  (a, b) ∈ path_collisions f l idx current ss -> a <> b /\ hashLR a.1 a.2 = hashLR b.1 b.2.
Proof.
  revert l idx current. induction ss as [|s ss IH]; intros l idx current H; cbn in H.
  - by apply not_elem_of_nil in H.
  - case_decide; [by eapply IH|]. case_decide; [|by eapply IH].
    apply elem_of_cons in H as [[= -> ->]|H]; [done|by eapply IH].
Qed.

Lemma hash_step_pair idx current s :
  hash_step hashLR idx current s = hashLR (proof_pair idx current s).1 (proof_pair idx current s).2.
Proof. unfold hash_step, proof_pair. by destruct (_ =? 1). Qed.

Lemma siblings_from f l idx ss :
  (forall i s, ss !! i = Some s -> s = node f (l + i) ((idx ≫ Z.of_nat i) ^^^ 1)) ->
  ss = (fun i => node f (l + i) ((idx ≫ Z.of_nat i) ^^^ 1)) <$> seq 0 (length ss).
Proof.
  intros H. apply list_eq. intros i. rewrite list_lookup_fmap.
  destruct (ss !! i) as [s|] eqn:E.
  - assert (i < length ss)%nat by (by eapply lookup_lt_Some).
    rewrite lookup_seq_lt by done. cbn. by rewrite (H i s E).
  - apply lookup_ge_None in E. by rewrite lookup_seq_ge by done.
Qed.

(** A recovered path with no collision is the path of the tree. *)
Lemma path_binding f l idx current ss :
  foldl (recover_step hashLR) (current, idx) ss = (node f (l + length ss) 0, 0) ->
  path_collisions f l idx current ss = [] ->
  0 <= idx < 2 ^ Z.of_nat (length ss) /\ current = node f l idx /\
  (forall i s, ss !! i = Some s -> s = node f (l + i) ((idx ≫ Z.of_nat i) ^^^ 1)).
Proof.
  revert l idx current. induction ss as [|s ss IH]; intros l idx current Hf Hc.
  - cbn in Hf. injection Hf as -> ->. rewrite Nat.add_0_r. by split_and!.
  - cbn [foldl recover_step] in Hf. cbn [length] in *.
    replace (l + S (length ss))%nat with (S l + length ss)%nat in Hf by lia.
    cbn [path_collisions] in Hc. rewrite <- hash_step_pair in Hc.
    destruct (IH (S l) (idx ≫ 1) _ Hf) as (Hb & Hcur & Hss).
    { repeat case_decide; done. }
    assert (0 <= idx) as Hi by (by apply Z.shiftr_nonneg in Hb as [? _] || (rewrite shiftr1_div in Hb; golia)).
    assert (proof_pair idx current s = pair_at f l idx) as Hpair.
    { case_decide; [done|]. case_decide as Hh; [done|]. exfalso. apply Hh. rewrite Hcur. done. }
    rewrite pow2_S. unfold proof_pair, pair_at in Hpair.
    assert (current = node f l idx /\ s = node f l (idx ^^^ 1)) as [-> ->].
    { destruct (idx_cases idx Hi) as [(E1 & -> & E2)|(E1 & -> & E2)]; rewrite E1 in Hpair;
        cbn [Z.eqb Pos.eqb] in Hpair; injection Hpair as -> ->; split; f_equal; lia. }
    split; [rewrite shiftr1_div in Hb; golia|]. split; [done|].
    intros [|i] s' Hs; cbn in Hs.
    + injection Hs as <-. by rewrite Nat.add_0_r, Z.shiftr_0_r.
    + rewrite (Hss i s' Hs). f_equal; [lia|]. by rewrite Z.shiftr_shiftr, Nat2Z.inj_succ, (Z.add_comm 1) by lia.
Qed.

Definition proof_collisions f (p : MerkleProof A) (leaf : A) : list ((A * A) * (A * A)) :=
  path_collisions f 0 (Path p) leaf (Siblings p).

Lemma RecoverRoot_fold (p : MerkleProof A) leaf r :
  RecoverRoot hashLR p leaf = Ok r <-> foldl (recover_step hashLR) (leaf, Path p) (Siblings p) = (r, 0).
Proof.
  unfold RecoverRoot. destruct (foldl _ _ _) as [c i]. destruct (Z.eqb_spec i 0) as [->|]; cbn; naive_solver.
Qed.

Lemma Verify_iff (p : MerkleProof A) leaf root :
  Verify hashLR p leaf root = Ok tt <-> RecoverRoot hashLR p leaf = Ok root.
Proof.
  unfold Verify. destruct (RecoverRoot _ _ _) as [r| |]; cbn; [|done..].
  case_decide; naive_solver.
Qed.

Lemma Verify_binding f (p : MerkleProof A) leaf n :
  length (Siblings p) = n -> Verify hashLR p leaf (node f n 0) = Ok tt ->
  proof_collisions f p leaf = [] ->
  0 <= Path p < 2 ^ Z.of_nat n /\ leaf = f (Path p) /\ p = mkProof (Path p) (siblings_of f (Path p) n).
Proof.
  intros Hn Hv Hc. apply Verify_iff, RecoverRoot_fold in Hv. rewrite <- Hn in Hv.
  destruct (path_binding f 0 _ _ _ Hv Hc) as (Hb & Hl & Hs). rewrite Hn in Hb. split; [done|]. split; [done|].
  destruct p as [pos ss]. cbn [Path Siblings] in *. f_equal. unfold siblings_of. rewrite <- Hn.
  by apply (siblings_from f 0).
Qed.

End Nodes.

Section Spec.
Context {A : Type} `{EqDecision A}.
Context (EmptyLeaf : A) (hashLR : A -> A -> A).
Implicit Types (t : Tree A) (f : Z -> A) (g : nat -> Z -> A).

Abbreviation node := (node hashLR).
Abbreviation siblings_of := (siblings_of hashLR).

(** The root of an empty subtree of height [l]. *)
Fixpoint empty_node (l : nat) : A :=
  match l with
  | O => EmptyLeaf
  | S l => hashLR (empty_node l) (empty_node l)
  end.

Definition level_list t (l : nat) : list A :=
  match l with
  | O => OccupiedLeaves t
  | S l => default [] (OccupiedNodes t !! l)
  end.

(** The node of a level at a position: stored, or empty. *)
Definition stored t (l : nat) (p : Z) : A :=
  default (empty_node l) (level_list t l !! Z.to_nat p).

(** The tree stores the values [g]. *)
Record levels_ok t g : Prop := {
  lo_nodes : length (OccupiedNodes t) = (Depth t - 1)%nat;
  lo_empty : forall l, (1 <= l < Depth t)%nat -> EmptyNodes t !! (l - 1)%nat = Some (empty_node l);
  lo_size : forall l, (l < Depth t)%nat ->
    Z.of_nat (length (level_list t l)) <= 2 ^ Z.of_nat (Depth t - l);
  lo_value : forall l p, (l < Depth t)%nat -> 0 <= p < 2 ^ Z.of_nat (Depth t - l) ->
    stored t l p = g l p
}.

Record tree_ok t f : Prop := {
  to_levels : levels_ok t (node f);
  to_root : Root t = node f (Depth t) 0;
  to_depth : (1 <= Depth t <= 62)%nat
}.

(** No inner node is the zero value, which [getNode] takes for a missing node. *)
Definition no_zero_node f (depth : nat) : Prop :=
  forall l p, (1 <= l < depth)%nat -> 0 <= p < 2 ^ Z.of_nat (depth - l) ->
    node f l p <> EmptyLeaf.

Lemma node_const l p : node (fun _ => EmptyLeaf) l p = empty_node l.
Proof. revert p. induction l as [|l IH]; intros p; cbn; [done|]. by rewrite !IH. Qed.

(** ** Lemmas: reading and writing a level *)

Lemma level_list_S t g l :
  levels_ok t g -> (1 <= l < Depth t)%nat -> OccupiedNodes t !! (l - 1)%nat = Some (level_list t l).
Proof.
  intros H Hl. destruct l as [|l]; [lia|]. cbn. rewrite Nat.sub_0_r.
  destruct (lookup_lt_is_Some_2 (OccupiedNodes t) l) as [x Hx]; [rewrite (lo_nodes _ _ H); lia|].
  by rewrite Hx.
Qed.

Lemma getNode_ok t g l p :
  levels_ok t g -> (Depth t <= 62)%nat -> (l < Depth t)%nat -> 0 <= p < 2 ^ Z.of_nat (Depth t - l) ->
  (l <> 0%nat -> g l p <> EmptyLeaf) -> getNode EmptyLeaf t l p = Ok (g l p).
Proof.
  intros H Hd Hl Hp Hz. pose proof (lo_value _ _ H l p Hl Hp) as Hv. unfold stored in Hv.
  unfold getNode, GetLeaf. rewrite !shl1_pow by lia.
  destruct (Nat.eqb_spec l (Depth t)); [lia|].
  destruct (Z.leb_spec (2 ^ Z.of_nat (Depth t - l)) p); [lia|].
  destruct l as [|l].
  - cbn [Nat.leb andb Nat.eqb]. rewrite Nat.sub_0_r in *. destruct (Z.leb_spec (2 ^ Z.of_nat (Depth t)) p); [lia|].
    destruct (Z.ltb_spec p 0); [lia|]. cbn in Hv.
    destruct (Z.leb_spec (Z.of_nat (length (OccupiedLeaves t))) p).
    + rewrite lookup_ge_None_2 in Hv by lia. by rewrite <- Hv.
    + rewrite index_lookup by lia.
      destruct (lookup_lt_is_Some_2 (OccupiedLeaves t) (Z.to_nat p)) as [x Hx]; [lia|].
      rewrite Hx in *. cbn in *. by rewrite <- Hv.
  - destruct (Nat.leb_spec 1 (S l)); [|lia]. destruct (Nat.leb_spec (S l) (Depth t - 1)); [|lia].
    cbn [andb]. rewrite (level_list_S t g) by (done || lia). cbn [unwrap mbind outcome_bind].
    destruct (Z.leb_spec (Z.of_nat (length (level_list t (S l)))) p).
    + rewrite lookup_ge_None_2 in Hv by lia. rewrite (lo_empty _ _ H) by lia. by rewrite <- Hv.
    + rewrite index_lookup by lia.
      destruct (lookup_lt_is_Some_2 (level_list t (S l)) (Z.to_nat p)) as [x Hx]; [lia|].
      rewrite Hx in *. cbn [default from_option id unwrap mbind outcome_bind] in *. subst x.
      rewrite decide_False by (apply Hz; lia). done.
Qed.

Lemma levels_ok_ext t g g' :
  levels_ok t g ->
  (forall l p, (l < Depth t)%nat -> 0 <= p < 2 ^ Z.of_nat (Depth t - l) -> g l p = g' l p) ->
  levels_ok t g'.
Proof.
  intros [] Heq. constructor; try done. intros l p Hl Hp. rewrite <- Heq by done. auto.
Qed.

(** A list grown to hold position [p], and then written there. *)
Definition grown (l : list A) (e : A) (p : Z) : list A :=
  if Z.of_nat (length l) <=? p then l ++ replicate (Z.to_nat (p + 1) - length l) e else l.

Lemma grown_lookup l e p q : default e (grown l e p !! q) = default e (l !! q).
Proof.
  unfold grown. destruct (_ <=? p); [|done]. destruct (decide (q < length l)%nat) as [Hq|Hq].
  - by rewrite lookup_app_l.
  - rewrite lookup_app_r, (lookup_ge_None_2 l) by lia.
    destruct (replicate _ e !! _) as [x|] eqn:E; [|done].
    apply lookup_replicate in E as [-> _]. done.
Qed.

Lemma put_ok l e p v :
  0 <= p -> exists l', set_index (grown l e p) p v = Some l' /\
    Z.of_nat (length l') = Z.max (Z.of_nat (length l)) (p + 1) /\
    forall q, 0 <= q -> default e (l' !! Z.to_nat q) = if q =? p then v else default e (l !! Z.to_nat q).
Proof.
  intros Hp. assert (Z.of_nat (length (grown l e p)) = Z.max (Z.of_nat (length l)) (p + 1)) as Hlen.
  { unfold grown. destruct (Z.leb_spec (Z.of_nat (length l)) p); [|lia].
    rewrite length_app, length_replicate. lia. }
  unfold set_index. destruct (Z.leb_spec 0 p); [|lia].
  destruct (Z.ltb_spec p (Z.of_nat (length (grown l e p)))); [|lia]. cbn [andb].
  eexists. split; [done|]. rewrite length_insert. split; [done|]. intros q Hq.
  destruct (Z.eqb_spec q p) as [->|Hne].
  - by rewrite list_lookup_insert_eq by lia.
  - rewrite list_lookup_insert_ne by lia. apply grown_lookup.
Qed.

Definition with_level t (l : nat) (xs : list A) : Tree A :=
  match l with
  | O => set_leaves t xs
  | S l => set_nodes t (<[l := xs]> (OccupiedNodes t))
  end.

Lemma level_list_with_level t l xs l' :
  (l = 0 \/ l - 1 < length (OccupiedNodes t))%nat ->
  level_list (with_level t l xs) l' = if (l' =? l)%nat then xs else level_list t l'.
Proof.
  intros Hl. destruct l as [|l], l' as [|l']; cbn; try done.
  destruct (Nat.eqb_spec l' l) as [->|Hne].
  - by rewrite list_lookup_insert_eq by lia.
  - by rewrite list_lookup_insert_ne by done.
Qed.

Lemma updateNode_level t g l p v :
  levels_ok t g -> (Depth t <= 62)%nat -> (l < Depth t)%nat -> 0 <= p < 2 ^ Z.of_nat (Depth t - l) ->
  exists xs, updateNode EmptyLeaf t l p v = Ok (with_level t l xs) /\
    set_index (grown (level_list t l) (empty_node l) p) p v = Some xs.
Proof.
  intros H Hd Hl Hp. destruct (put_ok (level_list t l) (empty_node l) p v ltac:(lia)) as (xs & Hxs & _).
  exists xs. split; [|done]. unfold updateNode. rewrite !shl1_pow by lia.
  destruct (Nat.eqb_spec l (Depth t)); [lia|].
  assert (2 ^ Z.of_nat (Depth t - l) <=? p = false) as Hle by (apply Z.leb_gt; apply Hp). unfold grown in Hxs.
  destruct l as [|l].
  - cbn [Nat.leb andb Nat.eqb level_list] in *. rewrite Nat.sub_0_r in *. rewrite Hle.
    destruct (Z.leb_spec (Z.of_nat (length (OccupiedLeaves t))) p).
    + unfold reserveLevel. rewrite Nat.sub_0_r, shl1_pow by lia.
      destruct (Nat.eqb_spec 0 (Depth t)); [lia|]. cbn [Nat.ltb Nat.leb Nat.eqb].
      destruct (Nat.ltb_spec (Depth t) 0); [lia|].
      destruct (Z.ltb_spec (2 ^ Z.of_nat (Depth t)) (p + 1)); [lia|].
      destruct (Z.leb_spec (p + 1) (Z.of_nat (length (OccupiedLeaves t)))); [lia|].
      cbn [mbind outcome_bind]. cbn [empty_node] in Hxs. cbn. by rewrite Hxs.
    + cbn [mbind outcome_bind]. by rewrite Hxs.
  - destruct (Nat.leb_spec 1 (S l)); [|lia]. destruct (Nat.ltb_spec (S l) (Depth t)); [|lia].
    cbn [andb]. rewrite Hle. pose proof (level_list_S t g (S l) H ltac:(lia)) as Hnodes.
    rewrite Hnodes. cbn [unwrap mbind outcome_bind].
    destruct (Z.leb_spec (Z.of_nat (length (level_list t (S l)))) p).
    + unfold reserveLevel. rewrite shl1_pow by lia. rewrite Hnodes.
      destruct (Nat.eqb_spec (S l) (Depth t)); [lia|]. destruct (Nat.ltb_spec (Depth t) (S l)); [lia|].
      destruct (Z.ltb_spec (2 ^ Z.of_nat (Depth t - S l)) (p + 1)); [lia|].
      cbn [Nat.eqb unwrap mbind outcome_bind].
      destruct (Z.leb_spec (p + 1) (Z.of_nat (length (level_list t (S l))))); [lia|].
      rewrite (lo_empty _ _ H) by lia. cbn [unwrap mbind outcome_bind set_nodes OccupiedNodes].
      rewrite list_lookup_insert_eq by (apply lookup_lt_is_Some; by rewrite Hnodes).
      cbn [unwrap mbind outcome_bind]. rewrite Hxs. cbn [unwrap mbind outcome_bind].
      rewrite list_insert_insert_eq. cbn [with_level Nat.sub]. by rewrite Nat.sub_0_r.
    + cbn [mbind outcome_bind]. rewrite Hnodes. cbn [unwrap mbind outcome_bind]. rewrite Hxs. cbn [unwrap mbind outcome_bind with_level Nat.sub].
      by rewrite Nat.sub_0_r.
Qed.

Definition gset g (l : nat) (p : Z) (v : A) : nat -> Z -> A :=
  fun l' p' => if (l' =? l)%nat && (p' =? p) then v else g l' p'.

Lemma updateNode_ok t g l p v :
  levels_ok t g -> (Depth t <= 62)%nat -> (l < Depth t)%nat -> 0 <= p < 2 ^ Z.of_nat (Depth t - l) ->
  exists t', updateNode EmptyLeaf t l p v = Ok t' /\ levels_ok t' (gset g l p v) /\
    Depth t' = Depth t /\ Root t' = Root t.
Proof.
  intros H Hd Hl Hp. destruct (updateNode_level t g l p v H Hd Hl Hp) as (xs & -> & Hxs).
  destruct (put_ok (level_list t l) (empty_node l) p v ltac:(lia)) as (xs' & Hxs' & Hlen & Hlk).
  rewrite Hxs in Hxs'. injection Hxs' as <-.
  assert (Depth (with_level t l xs) = Depth t) as HD by (by destruct l).
  assert (l = 0 \/ l - 1 < length (OccupiedNodes t))%nat as Hin by (rewrite (lo_nodes _ _ H); lia).
  exists (with_level t l xs). split; [done|]. split; [|by destruct l].
  constructor; rewrite ?HD.
  - destruct l; cbn; rewrite ?length_insert; apply H.
  - destruct l; cbn; apply H.
  - intros l' Hl'. rewrite level_list_with_level by done. pose proof (lo_size _ _ H l' Hl').
    destruct (Nat.eqb_spec l' l) as [->|]; lia.
  - intros l' p' Hl' Hp'. unfold stored. rewrite level_list_with_level by done.
    pose proof (lo_value _ _ H l' p' Hl' Hp') as Hv. unfold stored in Hv. unfold gset.
    destruct (Nat.eqb_spec l' l) as [->|]; [|done]. rewrite Hlk by lia. cbn [andb].
    by destruct (p' =? p).
Qed.

(** ** Lemmas: updates and proofs *)

(** After [n] levels, the levels below [n] are those of the new leaves. *)
Definition mixed f f' (n : nat) : nat -> Z -> A :=
  fun l p => if (l <? n)%nat then node f' l p else node f l p.

Lemma update_loop t f pos v n :
  levels_ok t (node f) -> (Depth t <= 62)%nat -> (n <= Depth t)%nat ->
  0 <= pos < 2 ^ Z.of_nat (Depth t) -> no_zero_node f (Depth t) ->
  let f' := upd f pos v in
  exists t', foldM (update_level EmptyLeaf hashLR) (t, v, pos) (seq 0 n)
      = Ok (t', node f' n (pos ≫ Z.of_nat n), pos ≫ Z.of_nat n) /\
    levels_ok t' (mixed f f' n) /\ Depth t' = Depth t /\ Root t' = Root t.
Proof.
  intros H Hd Hn Hpos Hz f'. induction n as [|n IH].
  - exists t. cbn [seq foldM node]. rewrite Z.shiftr_0_r. unfold f' at 1, upd at 1.
    rewrite Z.eqb_refl. split; [done|]. split; [|done]. eapply levels_ok_ext; [exact H|].
    intros l p _ _. unfold mixed. destruct (Nat.ltb_spec l 0); [lia|done].
  - destruct IH as (t1 & Hfold & Hl & HD & HR); [lia|].
    rewrite seq_S, foldM_app, Hfold. cbn [foldM mbind outcome_bind]. rewrite Nat.add_0_l.
    pose proof (shiftr_bound pos (Depth t) n ltac:(lia) Hpos) as Hidx.
    set (idx := pos ≫ Z.of_nat n) in *.
    destruct (updateNode_ok t1 (mixed f f' n) n idx (node f' n idx)) as (t2 & Hu & Hl2 & HD2 & HR2);
      [done|lia|lia|by rewrite HD|].
    pose proof (sibling_bound idx (Depth t - n) ltac:(lia) Hidx) as Hsib.
    assert (gset (mixed f f' n) n idx (node f' n idx) n (idx ^^^ 1) = node f' n (idx ^^^ 1)) as Hg.
    { unfold gset, mixed. rewrite Nat.eqb_refl, Nat.ltb_irrefl.
      destruct (Z.eqb_spec (idx ^^^ 1) idx); [by apply sibling_ne in e; [|lia]|]. cbn [andb].
      symmetry. apply node_upd_other. apply sibling_ne; lia. }
    unfold update_level at 1. rewrite Hu. cbn [mbind outcome_bind].
    rewrite (getNode_ok t2 (gset (mixed f f' n) n idx (node f' n idx))); [|done|lia|lia|rewrite HD2, HD; done|].
    2:{ intros Hne. rewrite Hg. unfold f'. rewrite node_upd_other by (apply sibling_ne; lia). apply Hz; [lia|done]. }
    cbn [mbind outcome_bind]. rewrite Hg, hash_step_node by lia. exists t2.
    rewrite shiftr_S. fold idx. split; [done|]. split; [|split; congruence].
    eapply levels_ok_ext; [done|]. intros l p Hlt Hp. unfold gset, mixed.
    destruct (Nat.eqb_spec l n) as [->|Hne]; cbn [andb].
    + destruct (Nat.ltb_spec n (S n)); [|lia]. destruct (Nat.ltb_spec n n); [lia|].
      destruct (Z.eqb_spec p idx) as [->|]; [done|]. symmetry. by apply node_upd_other.
    + destruct (Nat.ltb_spec l n), (Nat.ltb_spec l (S n)); try lia; done.
Qed.

Lemma Update_ok t f pos v :
  tree_ok t f -> no_zero_node f (Depth t) -> 0 <= pos < 2 ^ Z.of_nat (Depth t) ->
  exists t', Update EmptyLeaf hashLR t pos v = Ok t' /\ tree_ok t' (upd f pos v) /\ Depth t' = Depth t.
Proof.
  intros [Hl Hr Hd] Hz Hpos. unfold Update. rewrite shl1_pow by lia.
  destruct (Z.leb_spec (2 ^ Z.of_nat (Depth t)) pos); [lia|].
  destruct (update_loop t f pos v (Depth t)) as (t' & -> & Hl' & HD & HR); [done|lia..|done|].
  cbn [mbind outcome_bind].
  pose proof (shiftr_bound pos (Depth t) (Depth t) ltac:(lia) Hpos) as Hb. rewrite Nat.sub_diag in Hb.
  change (2 ^ Z.of_nat 0) with 1 in Hb. replace (pos ≫ Z.of_nat (Depth t)) with 0 by lia.
  cbn [Z.eqb negb]. eexists. split; [done|]. split; [|done].
  constructor; cbn [Depth Root set_root]; rewrite ?HD; [|done|lia].
  eapply levels_ok_ext; [destruct Hl'; constructor; eassumption|]. cbn [Depth set_root]. rewrite HD.
  intros l p Hlt _. unfold mixed. destruct (Nat.ltb_spec l (Depth t)); [done|lia].
Qed.

Lemma prove_loop t f pos n :
  tree_ok t f -> no_zero_node f (Depth t) -> 0 <= pos < 2 ^ Z.of_nat (Depth t) -> (n <= Depth t)%nat ->
  foldM (prove_level EmptyLeaf t) ([], pos) (seq 0 n) = Ok (siblings_of f pos n, pos ≫ Z.of_nat n).
Proof.
  intros [Hl _ Hd] Hz Hpos Hn. induction n as [|n IH]; [by rewrite Z.shiftr_0_r|].
  rewrite seq_S, foldM_app, IH by lia. cbn [foldM mbind outcome_bind prove_level]. rewrite Nat.add_0_l.
  pose proof (shiftr_bound pos (Depth t) n ltac:(lia) Hpos) as Hidx.
  pose proof (sibling_bound _ (Depth t - n) ltac:(lia) Hidx) as Hsib.
  rewrite (getNode_ok t (node f)) by (try done; try lia; intros; apply Hz; lia || done).
  cbn [mbind outcome_bind]. by rewrite siblings_of_S, shiftr_S.
Qed.

Lemma Prove_ok t f pos :
  tree_ok t f -> no_zero_node f (Depth t) -> 0 <= pos < 2 ^ Z.of_nat (Depth t) ->
  Prove EmptyLeaf t pos = Ok (mkProof pos (siblings_of f pos (Depth t))).
Proof.
  intros Ht Hz Hpos. pose proof (to_depth _ _ Ht) as Hd. unfold Prove. rewrite shl1_pow by lia.
  destruct (Z.leb_spec (2 ^ Z.of_nat (Depth t)) pos); [lia|]. destruct (Z.ltb_spec pos 0); [lia|].
  rewrite (prove_loop t f) by done. cbn [mbind outcome_bind].
  pose proof (shiftr_bound pos (Depth t) (Depth t) ltac:(lia) Hpos) as Hb. rewrite Nat.sub_diag in Hb.
  change (2 ^ Z.of_nat 0) with 1 in Hb. by replace (pos ≫ Z.of_nat (Depth t)) with 0 by lia.
Qed.

(** ** Lemmas: the empty tree *)

Lemma empty_nodes_ok n l :
  empty_nodes hashLR n (empty_node l)
  = ((fun i => empty_node (S (l + i))) <$> seq 0 n, empty_node (l + n)).
Proof.
  revert l. induction n as [|n IH]; intros l; cbn [empty_nodes]; [by rewrite Nat.add_0_r|].
  change (hashLR (empty_node l) (empty_node l)) with (empty_node (S l)). rewrite IH.
  cbn [seq fmap list_fmap]. f_equal; [|f_equal; lia]. f_equal; [f_equal; lia|].
  rewrite <- fmap_S_seq, <- list_fmap_compose. apply list_fmap_ext. intros i x _. unfold compose. f_equal. lia.
Qed.

Lemma NewEmptyTree_ok depths :
  let d := Depth (NewEmptyTree EmptyLeaf hashLR depths) in
  (1 <= d <= 62)%nat -> tree_ok (NewEmptyTree EmptyLeaf hashLR depths) (fun _ => EmptyLeaf).
Proof.
  unfold NewEmptyTree. set (d := match depths with [] => _ | _ :: _ => _ end).
  pose proof (empty_nodes_ok (d - 1) 0 : empty_nodes hashLR (d - 1) EmptyLeaf = _) as He. rewrite He.
  cbn [Depth]. intros Hd. constructor; cbn [Depth Root]; [|rewrite node_const|done].
  - constructor; cbn [OccupiedNodes Depth EmptyNodes].
    + by rewrite length_replicate.
    + intros l Hl. rewrite list_lookup_fmap, lookup_seq_lt by lia. cbn [fmap option_fmap option_map]. do 2 f_equal. lia.
    + intros l Hl. pose proof (pow2_pos (Z.of_nat (d - l)) ltac:(lia)).
      assert (level_list (mkTree d (hashLR (empty_node (0 + (d - 1))) (empty_node (0 + (d - 1)))) []
        (replicate (d - 1) []) ((fun i => empty_node (S (0 + i))) <$> seq 0 (d - 1))) l = []) as ->; [|cbn; lia].
      destruct l as [|l]; [done|]. cbn [level_list OccupiedNodes]. by rewrite lookup_replicate_2 by lia.
    + intros l p Hl Hp. rewrite node_const. unfold stored. destruct l as [|l]; [done|].
      cbn [level_list OccupiedNodes]. by rewrite lookup_replicate_2 by lia.
  - rewrite Nat.add_0_l. replace d with (S (d - 1)) at 3 by lia. done.
Qed.
End Spec.

(** ** Theorems *)
Section Theorems.
Context {A : Type} `{EqDecision A}.
Context (EmptyLeaf : A) (hashLR : A -> A -> A).
Implicit Types (t : Tree A) (f : Z -> A).

Abbreviation nodes_of := (node hashLR).
Abbreviation represents := (tree_ok EmptyLeaf hashLR).
Abbreviation no_zero := (no_zero_node EmptyLeaf hashLR).

(** C28. [Update] implements the replacement of one leaf: on a tree that
    represents the leaves [f] and has no zero inner node, updating any position
    of the tree returns (it does not panic) and the resulting tree, all its stored
    nodes and its root represent [f] with that leaf replaced. *)
Theorem Update_refines t f pos v :
  represents t f -> no_zero f (Depth t) -> 0 <= pos < 2 ^ Z.of_nat (Depth t) ->
  exists t', Update EmptyLeaf hashLR t pos v = Ok t' /\ represents t' (upd f pos v) /\
    Depth t' = Depth t.
Proof. apply Update_ok. Qed.

(** Merkle proofs are complete: [Prove] returns a proof at every position of
    the tree, with one sibling per level, and [Verify] accepts it for the leaf
    that [GetLeaf] returns and the root of the tree. *)
Theorem Prove_complete t f pos :
  represents t f -> no_zero f (Depth t) -> 0 <= pos < 2 ^ Z.of_nat (Depth t) ->
  exists p leaf, Prove EmptyLeaf t pos = Ok p /\ GetLeaf EmptyLeaf t pos = Ok leaf /\
    leaf = f pos /\ Path p = pos /\ length (Siblings p) = Depth t /\
    Verify hashLR p leaf (Root t) = Ok tt.
Proof.
  intros Ht Hz Hpos. exists (mkProof pos (siblings_of hashLR f pos (Depth t))), (f pos).
  split; [by apply Prove_ok|]. split; [|split_and!; try done].
  - pose proof (getNode_ok EmptyLeaf hashLR t (nodes_of f) 0 pos (to_levels _ _ _ _ Ht)
      (proj2 (to_depth _ _ _ _ Ht)) ltac:(pose proof (to_depth _ _ _ _ Ht); lia)
      ltac:(by rewrite Nat.sub_0_r) ltac:(done)) as Hg.
    unfold getNode in Hg. pose proof (to_depth _ _ _ _ Ht).
    destruct (Nat.eqb_spec 0 (Depth t)); [lia|]. cbn [Nat.leb andb Nat.eqb node] in Hg.
    destruct (GetLeaf EmptyLeaf t pos); cbn in Hg; [|done..]. by injection Hg as ->.
  - apply length_siblings_of.
  - rewrite (to_root _ _ _ _ Ht). by apply Verify_path.
Qed.


(** The stateless update agrees with the tree: when a proof of the right
    length authenticates an old leaf against the root, without a collision,
    [RecoverRoot] of the same proof with a new leaf is the root of the tree after
    [Update] at that position. *)
Theorem RecoverRoot_is_update t f (p : MerkleProof A) old new :
  represents t f -> no_zero f (Depth t) -> length (Siblings p) = Depth t ->
  Verify hashLR p old (Root t) = Ok tt -> proof_collisions hashLR f p old = [] ->
  exists t', Update EmptyLeaf hashLR t (Path p) new = Ok t' /\
    RecoverRoot hashLR p new = Ok (Root t').
Proof.
  intros Ht Hz Hn Hv Hc. rewrite (to_root _ _ _ _ Ht) in Hv.
  destruct (Verify_binding hashLR f p old _ Hn Hv Hc) as (Hb & _ & Hp).
  destruct (Update_ok EmptyLeaf hashLR t f (Path p) new Ht Hz Hb) as (t' & Hu & Ht' & HD).
  exists t'. split; [done|]. rewrite Hp. cbn [Path]. rewrite RecoverRoot_path by done.
  by rewrite (to_root _ _ _ _ Ht'), HD.
Qed.

(** The length of a proof is not checked: the proof of a position without
    its first sibling is accepted for the parent of the leaf, taken as a leaf, at
    half the position. *)
Theorem Verify_accepts_inner_node f pos (n : nat) :
  0 <= pos < 2 ^ Z.of_nat (S n) ->
  Verify hashLR (mkProof (pos ≫ 1) (tail (siblings_of hashLR f pos (S n))))
    (nodes_of f 1 (pos ≫ 1)) (nodes_of f (S n) 0) = Ok tt.
Proof.
  intros Hpos. apply Verify_iff, RecoverRoot_fold. cbn [Path Siblings].
  pose proof (recover_fold hashLR f pos (f pos) (S n) ltac:(lia)) as Hr.
  unfold siblings_of in *. cbn [seq fmap list_fmap foldl recover_step] in Hr. rewrite Z.shiftr_0_r in Hr.
  rewrite (hash_step_node hashLR f 0) in Hr by lia. cbn [seq fmap list_fmap tail]. rewrite Hr.
  rewrite node_upd_id. pose proof (shiftr_bound pos (S n) (S n) ltac:(lia) Hpos) as Hb.
  rewrite Nat.sub_diag in Hb. change (2 ^ Z.of_nat 0) with 1 in Hb.
  by replace (pos ≫ Z.of_nat (S n)) with 0 by lia.
Qed.

(** The leaf function after a sequence of writes. *)
Definition written (writes : list (Z * A)) : Z -> A :=
  foldl (fun f w => upd f w.1 w.2) (fun _ => EmptyLeaf) writes.

(** C32. Any history: starting from the empty tree, every sequence of updates at
    positions of the tree succeeds as long as no inner node is zero, and the final
    tree is the Merkle tree of the last value written at each position (the empty
    leaf elsewhere). *)
Theorem history_represents (depths : list Z) (writes : list (Z * A)) :
  let t0 := NewEmptyTree EmptyLeaf hashLR depths in
  (1 <= Depth t0 <= 62)%nat ->
  Forall (fun w => 0 <= w.1 < 2 ^ Z.of_nat (Depth t0)) writes ->
  (forall k, no_zero (written (take k writes)) (Depth t0)) ->
  exists t, foldM (fun t w => Update EmptyLeaf hashLR t w.1 w.2) t0 writes = Ok t /\
    represents t (written writes) /\ Depth t = Depth t0.
Proof.
  intros t0 Hd Hw Hz. induction writes as [|[pos v] writes IH] using rev_ind.
  - exists t0. split; [done|]. split; [|done]. by apply (NewEmptyTree_ok EmptyLeaf hashLR depths).
  - apply Forall_app in Hw as [Hw Hlast]. destruct IH as (t & Hf & Ht & HD); [done| |].
    { intros k. destruct (decide (k <= length writes)%nat) as [Hk|Hk].
      - specialize (Hz k). by rewrite take_app_le in Hz.
      - rewrite take_ge by lia. specialize (Hz (length writes)). by rewrite take_app_length in Hz. }
    apply Forall_cons in Hlast as [Hp _]. cbn [fst] in Hp.
    specialize (Hz (length writes)). rewrite take_app_length in Hz.
    destruct (Update_ok EmptyLeaf hashLR t (written writes) pos v) as (t' & Hu & Ht' & HD');
      [done|by rewrite HD|by rewrite HD|].
    exists t'. rewrite foldM_app, Hf. cbn [foldM mbind outcome_bind fst snd]. rewrite Hu.
    split; [done|]. split; [|congruence]. unfold written. by rewrite foldl_app.
Qed.

(** The errors of [GetLeaf] and [Prove]: a position past the end or negative
    is reported as such, and no other position is. *)
Theorem positions_checked t f pos :
  represents t f -> no_zero f (Depth t) ->
  (2 ^ Z.of_nat (Depth t) <= pos ->
     GetLeaf EmptyLeaf t pos = Err (ErrOutOfBound pos) /\ Prove EmptyLeaf t pos = Err (ErrPosTooHigh pos)) /\
  (pos < 0 ->
     GetLeaf EmptyLeaf t pos = Err (ErrNegativePosition pos) /\
     Prove EmptyLeaf t pos = Err (ErrPosNegative pos)) /\
  (0 <= pos < 2 ^ Z.of_nat (Depth t) ->
     MustGetLeaf EmptyLeaf t pos = Ok (f pos) /\ exists p, MustProve EmptyLeaf t pos = Ok p).
Proof.
  intros Ht Hz. pose proof (to_depth _ _ _ _ Ht) as Hd.
  pose proof (pow2_pos (Z.of_nat (Depth t)) ltac:(lia)).
  unfold MustGetLeaf, MustProve, GetLeaf, Prove. rewrite !shl1_pow by lia.
  split; [|split]; intros Hp.
  - destruct (Z.leb_spec (2 ^ Z.of_nat (Depth t)) pos); [done|lia].
  - destruct (Z.leb_spec (2 ^ Z.of_nat (Depth t)) pos); [lia|]. by destruct (Z.ltb_spec pos 0); [|lia].
  - pose proof (Prove_ok EmptyLeaf hashLR t f pos Ht Hz Hp) as HP. unfold Prove in HP.
    rewrite shl1_pow in HP by lia. rewrite HP. split; [|cbn; eauto].
    pose proof (lo_value _ _ _ _ (to_levels _ _ _ _ Ht) 0%nat pos ltac:(lia) ltac:(by rewrite Nat.sub_0_r)) as Hv.
    unfold stored in Hv. cbn [level_list node empty_node] in Hv.
    destruct (Z.leb_spec (2 ^ Z.of_nat (Depth t)) pos); [lia|]. destruct (Z.ltb_spec pos 0); [lia|].
    destruct (Z.leb_spec (Z.of_nat (length (OccupiedLeaves t))) pos).
    + rewrite lookup_ge_None_2 in Hv by lia. by rewrite <- Hv.
    + rewrite index_lookup by lia.
      destruct (lookup_lt_is_Some_2 (OccupiedLeaves t) (Z.to_nat pos)) as [x Hx]; [lia|].
      rewrite Hx in *. cbn in *. by rewrite <- Hv.
Qed.
End Theorems.

(** ** Witnesses: a tree of depth 3 over the integers *)

Definition toy_hash (x y : Z) : Z := 1 + x + 3 * y.

Lemma toy_positive f l p :
  (forall q, 0 <= f q) -> 0 <= node toy_hash f l p /\ (l <> 0%nat -> 0 < node toy_hash f l p).
Proof.
  intros Hf. revert p. induction l as [|l IH]; intros p; cbn [node]; [by split|].
  destruct (IH (2 * p)) as [H1 _], (IH (2 * p + 1)) as [H2 _].
  generalize dependent (node toy_hash f l (2 * p)). generalize dependent (node toy_hash f l (2 * p + 1)).
  intros. unfold toy_hash. lia.
Qed.

Lemma toy_no_zero f d : (forall q, 0 <= f q) -> no_zero_node 0 toy_hash f d.
Proof. intros Hf l p Hl _. destruct (toy_positive f l p Hf) as [_ H]. specialize (H ltac:(lia)). lia. Qed.

Definition toy_tree : Tree Z := NewEmptyTree 0 toy_hash [3].

Lemma toy_tree_ok : tree_ok 0 toy_hash toy_tree (fun _ => 0).
Proof. apply NewEmptyTree_ok. vm_compute. lia. Qed.

Lemma Update_refines_witness :
  exists t', Update 0 toy_hash toy_tree 5 9 = Ok t' /\ Root t' = node toy_hash (upd (fun _ => 0) 5 9) 3 0.
Proof.
  destruct (Update_refines 0 toy_hash toy_tree (fun _ => 0) 5 9 toy_tree_ok
    ltac:(by apply toy_no_zero) ltac:(done)) as (t' & Hu & Ht & Hd).
  exists t'. split; [exact Hu|]. rewrite (to_root _ _ _ _ Ht), Hd. reflexivity.
Defined.

Lemma Prove_complete_witness : exists p, Prove 0 toy_tree 6 = Ok p /\ Verify toy_hash p 0 (Root toy_tree) = Ok tt.
Proof.
  destruct (Prove_complete 0 toy_hash toy_tree (fun _ => 0) 6 toy_tree_ok
    ltac:(by apply toy_no_zero) ltac:(done)) as (p & leaf & Hp & _ & -> & _ & _ & Hv).
  exists p. split; [exact Hp|exact Hv].
Defined.

Definition toy_proof : MerkleProof Z := mkProof 6 (siblings_of toy_hash (fun _ => 0) 6 3).

Lemma toy_proof_ok : Verify toy_hash toy_proof 0 (Root toy_tree) = Ok tt.
Proof. vm_compute. done. Qed.


Lemma RecoverRoot_is_update_witness :
  exists t', Update 0 toy_hash toy_tree 6 4 = Ok t' /\ RecoverRoot toy_hash toy_proof 4 = Ok (Root t').
Proof.
  exact (RecoverRoot_is_update 0 toy_hash toy_tree (fun _ => 0) toy_proof 0 4 toy_tree_ok
    (toy_no_zero _ _ (fun _ => Z.le_refl 0)) eq_refl toy_proof_ok eq_refl).
Defined.

Lemma Verify_accepts_inner_node_witness :
  Verify toy_hash (mkProof 3 (tail (siblings_of toy_hash (fun _ => 0) 6 3))) 1 (Root toy_tree) = Ok tt.
Proof. exact (Verify_accepts_inner_node toy_hash (fun _ => 0) 6 2 ltac:(done)). Defined.

Lemma written_nonneg (ws : list (Z * Z)) q : Forall (fun w => 0 <= w.2) ws -> 0 <= written 0 ws q.
Proof.
  unfold written. revert q. induction ws as [|[p v] ws IH] using rev_ind; intros q H; [done|].
  apply Forall_app in H as [H1 H2]. apply Forall_cons in H2 as [H2 _]. rewrite foldl_app. cbn.
  unfold upd. destruct (q =? p); [done|]. by apply IH.
Qed.

Lemma history_represents_witness :
  exists t, foldM (fun t w => Update 0 toy_hash t w.1 w.2) toy_tree [(5, 9); (0, 2); (5, 1)] = Ok t /\
    Depth t = 3%nat.
Proof.
  destruct (history_represents 0 toy_hash [3] [(5, 9); (0, 2); (5, 1)]) as (t & Hf & _ & Hd).
  - vm_compute. lia.
  - repeat constructor; done.
  - intros k. apply toy_no_zero. intros q. apply written_nonneg, Forall_take. repeat constructor; done.
  - exists t. split; [exact Hf|exact Hd].
Defined.

Lemma positions_checked_witness :
  GetLeaf 0 toy_tree 8 = Err (ErrOutOfBound 8) /\ Prove 0 toy_tree (-1) = Err (ErrPosNegative (-1)).
Proof.
  split.
  - apply (positions_checked 0 toy_hash toy_tree (fun _ => 0) 8 toy_tree_ok ltac:(by apply toy_no_zero)).
    done.
  - apply (positions_checked 0 toy_hash toy_tree (fun _ => 0) (-1) toy_tree_ok ltac:(by apply toy_no_zero)).
    lia.
Defined.
