(* ===== verification/SmtBuild.v ===== *)
(** Complete Merkle trees built in parallel: [NewTree] of
    [smt_koalabear/tree.go], [BuildComplete] of [smt_bls12377/tree.go] and of
    [smt_mimcbls12377/tree.go], and the work splitter [Execute] of
    [prover/utils/parallel].

    Goroutines that share the node slices are modelled by their programs, lists of
    writes (each reads two nodes of the level below and writes one node), and an
    execution is any interleaving of the programs.  The number of processors is an
    argument.  The theorems hold for every interleaving: the result is the Merkle
    tree of the leaves whatever the scheduler does. *)
From S2P Require Import Prelude.
From S2P Require Import Smt.

(** ** Splitting the work *)

(** State of the loop over the tasks: the ranges so far, [extraTasks] and
    [extraTasksOffset]. *)
Definition split_step (per : Z) (st : list (Z * Z) * Z * Z) (i : nat) : list (Z * Z) * Z * Z :=
  let '(ranges, extraTasks, extraTasksOffset) := st in
  let start := Z.of_nat i * per + extraTasksOffset in
  let end_ := start + per in
  if 0 <? extraTasks
  then (ranges ++ [(start, end_ + 1)], extraTasks - 1, extraTasksOffset + 1)
  else (ranges ++ [(start, end_)], extraTasks, extraTasksOffset).

(** The ranges that [Execute] hands to its goroutines. *)
Definition Execute_ranges (gomaxprocs nbIterations : Z) (maxCpus : list Z) : list (Z * Z) :=
  let nbTasks := match maxCpus with
                 | [m] => if m <? 1 then 1 else m
                 | _ => gomaxprocs
                 end in
  let nbTasks := Z.max 1 nbTasks in
  if nbTasks =? 1 then [(0, nbIterations)] else
  let per := nbIterations / nbTasks in
  let '(per, nbTasks) := if per <? 1 then (1, nbIterations) else (per, nbTasks) in
  let extraTasks := nbIterations - nbTasks * per in
  (foldl (split_step per) ([], extraTasks, 0) (seq 0 (Z.to_nat nbTasks))).1.1.

(** The iterations of [for k := start; k < end; k++]. *)
Definition range_seq (r : Z * Z) : list nat := seq (Z.to_nat r.1) (Z.to_nat (r.2 - r.1)).

(** The executions of a group of goroutines: at each step one of the programs
    makes a step. *)
Inductive interleaving {X} : list (list X) -> list X -> Prop :=
| interleaving_done ps : Forall (eq []) ps -> interleaving ps []
| interleaving_step ps i x p out :
    ps !! i = Some (x :: p) -> interleaving (<[i := p]> ps) out -> interleaving ps (x :: out).

(** ** [NewTree] *)

(** A write of a node: [OccupiedNodes[w_level][w_out] = hashLR(in[w_in],
    in[w_in+1])], where [in] is the level below. *)
Record write := mkWrite {
  w_level : nat;
  w_out : nat;
  w_in : nat
}.

Definition targetSubtreeHeight : nat := 10.
Definition parallelThreshold : nat := 32.

(** [if subtreeHeight > depth-1 { subtreeHeight = depth - 1 }]; it is never
    negative for a tree of depth at least 1. *)
Definition subtree_height (depth : nat) : nat :=
  if (depth - 1 <? targetSubtreeHeight)%nat then (depth - 1)%nat else targetSubtreeHeight.

(** The writes of the subtree number [t]: level by level, from the leaves. *)
Definition subtree_program (h t : nat) : list write :=
  let chunkSize := (2 ^ h)%nat in
  seq 0 h ≫= fun l =>
    let inputStart := (t * (chunkSize / 2 ^ l))%nat in
    let outputStart := (t * (chunkSize / 2 ^ (l + 1)))%nat in
    let count := (chunkSize / 2 ^ (l + 1))%nat in
    (fun k => mkWrite l (outputStart + k) (inputStart + 2 * k)) <$> seq 0 count.

(** The writes of the positions [ks] of one upper level. *)
Definition level_program (level : nat) (ks : list nat) : list write :=
  (fun k => mkWrite level k (2 * k)) <$> ks.

(** The goroutines of the two phases. *)
Definition subtree_goroutines (gomaxprocs : Z) (numLeaves h : nat) : list (list write) :=
  let numTasks := (numLeaves / 2 ^ h)%nat in
  (fun r => range_seq r ≫= subtree_program h)
    <$> Execute_ranges gomaxprocs (Z.of_nat numTasks) [].

Definition level_goroutines (gomaxprocs : Z) (level n : nat) : list (list write) :=
  if (parallelThreshold <=? n)%nat && (1 <? gomaxprocs) then
    (fun r => level_program level (range_seq r))
      <$> Execute_ranges gomaxprocs (Z.of_nat n) []
  else [level_program level (seq 0 n)].

Section Build.
Context {A : Type} `{EqDecision A} (EmptyLeaf : A) (hashLR : A -> A -> A).

Definition run_write (leaves : list A) (nodes : list (list A)) (w : write) :
    outcome smt_error (list (list A)) :=
  inLevel ← (if (w_level w =? 0)%nat then Ok leaves else unwrap (nodes !! (w_level w - 1)%nat));
  nodeL ← unwrap (inLevel !! w_in w);
  nodeR ← unwrap (inLevel !! (w_in w + 1)%nat);
  outLevel ← unwrap (nodes !! w_level w);
  outLevel' ← unwrap (set_index outLevel (Z.of_nat (w_out w)) (hashLR nodeL nodeR));
  Ok (<[w_level w := outLevel']> nodes).

(** The slices of the pre-allocated nodes: level [i] has [numLeaves / 2^(i+1)]
    zero nodes. *)
Fixpoint alloc_levels (n currentLevelSize : nat) : list (list A) :=
  match n with
  | O => []
  | S n => replicate currentLevelSize EmptyLeaf :: alloc_levels n (currentLevelSize / 2)
  end.

(** [NewTree] under a schedule: the order of the writes of the subtrees, and for
    each upper level the order of its writes. *)
Definition NewTree (leaves : list A) (bottom : list write) (upper : list (list write)) :
    outcome smt_error (Tree A) :=
  let numLeaves := length leaves in
  if negb (IsPowerOfTwo (Z.of_nat numLeaves)) || (numLeaves =? 0)%nat then Panic else
  let depth := Z.to_nat (Log2Ceil (Z.of_nat numLeaves)) in
  if (depth =? 0)%nat then Panic else (* make([]field.Octuplet, -1) *)
  let nodes := alloc_levels (depth - 1) (numLeaves / 2) in
  let '(emptyNodes, _) := empty_nodes hashLR (depth - 1) EmptyLeaf in
  nodes ← foldM (run_write leaves) nodes bottom;
  nodes ← foldM (foldM (run_write leaves)) nodes upper;
  root ← (if (depth =? 1)%nat then
            nodeL ← unwrap (leaves !! 0%nat);
            nodeR ← unwrap (leaves !! 1%nat);
            Ok (hashLR nodeL nodeR)
          else
            lastLevel ← unwrap (nodes !! (depth - 2)%nat);
            match lastLevel with
            | [nodeL; nodeR] => Ok (hashLR nodeL nodeR)
            | _ => Panic
            end);
  Ok (mkTree depth root leaves nodes emptyNodes).

(** The schedules that can happen: any interleaving of the goroutines of the
    first phase, then for each upper level any interleaving of its goroutines. *)
Definition schedule_ok (gomaxprocs : Z) (numLeaves depth : nat)
    (bottom : list write) (upper : list (list write)) : Prop :=
  let h := subtree_height depth in
  interleaving (subtree_goroutines gomaxprocs numLeaves h) bottom /\
  Forall2 (fun i ws => interleaving (level_goroutines gomaxprocs i (numLeaves / 2 ^ (i + 1))) ws)
    (seq h (depth - 1 - h)) upper.

(** ** [BuildComplete] of [smt_bls12377] *)

(** One level from the level below; the parallel branch writes each position
    once. *)
Definition next_level (curr : list A) : list A :=
  (fun k => hashLR (default EmptyLeaf (curr !! (2 * k)%nat)) (default EmptyLeaf (curr !! (2 * k + 1)%nat)))
    <$> seq 0 (length curr / 2).

(** The loop over the levels: the levels built, and the last one. *)
Fixpoint build_levels (n : nat) (curr : list A) : list (list A) * list A :=
  match n with
  | O => ([], curr)
  | S n =>
      let nextLevel := next_level curr in
      let '(rest, last) := build_levels n nextLevel in
      (nextLevel :: rest, last)
  end.

Definition BuildComplete (leaves : list A) : outcome smt_error (Tree A) :=
  let numLeaves := length leaves in
  if negb (IsPowerOfTwo (Z.of_nat numLeaves)) || (numLeaves =? 0)%nat then Panic else
  let depth := Z.to_nat (Log2Ceil (Z.of_nat numLeaves)) in
  if (depth =? 0)%nat then Panic else (* NewEmptyTree: make([]fr.Element, -1) *)
  let tree := NewEmptyTree EmptyLeaf hashLR [Z.of_nat depth] in
  let '(levels, currLevels) := build_levels (depth - 1) leaves in
  match currLevels with
  | [nodeL; nodeR] =>
      Ok (mkTree depth (hashLR nodeL nodeR) leaves levels (EmptyNodes tree))
  | _ => Panic
  end.

(** ** [BuildComplete] of [smt_mimcbls12377] *)

(** The arena cut in levels: [arena[offset : offset+levelSize]] with [levelSize =
    1 << (depth - d)] for [d] from 1. *)
Definition arena_levels (depth : nat) : list (list A) :=
  (fun d => replicate (2 ^ (depth - d)) EmptyLeaf) <$> seq 1 (depth - 1).

(** [levels] gives, for each level, the order in which the workers make its
    writes. *)
Definition mimc_BuildComplete (leaves : list A) (levels : list (list write)) :
    outcome smt_error (Tree A) :=
  let numLeaves := length leaves in
  if negb (IsPowerOfTwo (Z.of_nat numLeaves)) || (numLeaves =? 0)%nat then Panic else
  let depth := Z.to_nat (Log2Ceil (Z.of_nat numLeaves)) in
  if (depth =? 0)%nat then Panic else (* NewEmptyTree: make([]types.Bls12377Fr, -1) *)
  let tree := NewEmptyTree EmptyLeaf hashLR [Z.of_nat depth] in
  nodes ← foldM (foldM (run_write leaves)) (arena_levels depth) levels;
  let currLevels := if (depth =? 1)%nat then leaves else default [] (nodes !! (depth - 2)%nat) in
  match currLevels with
  | [nodeL; nodeR] => Ok (mkTree depth (hashLR nodeL nodeR) leaves nodes (EmptyNodes tree))
  | _ => Panic
  end.
End Build.

(** The tasks of one level: [activeWorkers] ranges of the level. *)
Definition worker_ranges (workerCount levelSize : Z) : list (Z * Z) :=
  let workerCount := if workerCount <? 1 then 1 else workerCount in
  let activeWorkers := if levelSize <? workerCount then levelSize else workerCount in
  (fun i => (Z.of_nat i * levelSize / activeWorkers, (Z.of_nat i + 1) * levelSize / activeWorkers))
    <$> seq 0 (Z.to_nat activeWorkers).

(** A task is done by one worker; which one, and when, is up to the scheduler. *)
Definition workers_ok (gomaxprocs : Z) (depth : nat) (levels : list (list write)) : Prop :=
  Forall2 (fun i ws =>
    interleaving ((fun r => level_program i (range_seq r))
      <$> worker_ranges gomaxprocs (2 ^ Z.of_nat (depth - 1 - i))) ws) (seq 0 (depth - 1)) levels.

(** ** Proofs of [smt_mimcbls12377], which check their shape *)

Inductive mimc_error :=
| ErrPathTooLarge (path : Z)
| ErrPathNegative (path : Z)
| ErrSiblings (got depth : nat).

Section MimcProof.
Context {A : Type} `{EqDecision A} (hashLR : A -> A -> A).

Definition mimc_RecoverRoot (depth : nat) (p : MerkleProof A) (leaf : A) : outcome mimc_error A :=
  if shl1 depth <? Path p then Err (ErrPathTooLarge (Path p)) else
  if Path p <? 0 then Err (ErrPathNegative (Path p)) else
  if negb (length (Siblings p) =? depth)%nat then Err (ErrSiblings (length (Siblings p)) depth) else
  let '(current, idx) := foldl (recover_step hashLR) (leaf, Path p) (Siblings p) in
  if negb (idx =? 0) then Panic else Ok current.

(** Errors are printed and reported as a failed verification. *)
Definition mimc_Verify (depth : nat) (p : MerkleProof A) (leaf root : A) : outcome mimc_error bool :=
  match mimc_RecoverRoot depth p leaf with
  | Ok actual => Ok (bool_decide (actual = root))
  | Err _ => Ok false
  | Panic => Panic
  end.
End MimcProof.

(** ** Lemmas: powers of two *)

Lemma log2_loop_ok fuel i res :
  0 <= i < 2 ^ Z.of_nat fuel -> log2_loop fuel i res = res + Z.log2 i.
Proof.
  revert i res. induction fuel as [|fuel IH]; intros i res Hi; cbn [log2_loop].
  - change (2 ^ Z.of_nat 0) with 1 in Hi. replace i with 0 by lia. cbn. lia.
  - rewrite pow2_S in Hi. destruct (Z.ltb_spec 1 i).
    + rewrite IH by (rewrite shiftr1_div; golia). rewrite Z.log2_shiftr by lia.
      assert (1 <= Z.log2 i) by (apply (Z.log2_le_mono 2 i); lia). lia.
    + destruct (Z.eq_dec i 0) as [->|]; [cbn; lia|]. replace i with 1 by lia. cbn. lia.
Qed.

Lemma Log2Floor_ok a : 0 <= a < 2 ^ 64 -> Log2Floor a = Z.log2 a.
Proof. intros. unfold Log2Floor. by rewrite log2_loop_ok. Qed.

Lemma Log2Ceil_pow d : (d <= 62)%nat -> Log2Ceil (2 ^ Z.of_nat d) = Z.of_nat d.
Proof.
  intros Hd. pose proof (pow2_pos (Z.of_nat d) ltac:(lia)).
  assert (2 ^ Z.of_nat d < 2 ^ 64) by (apply Z.pow_lt_mono_r; lia).
  unfold Log2Ceil. rewrite Log2Floor_ok, Z.log2_pow2 by lia.
  change (i64 (1 ≪ Z.of_nat d)) with (shl1 d). rewrite shl1_pow by done.
  by rewrite Z.eqb_refl.
Qed.

Lemma IsPowerOfTwo_pow d : IsPowerOfTwo (2 ^ Z.of_nat d) = true.
Proof.
  pose proof (pow2_pos (Z.of_nat d) ltac:(lia)). unfold IsPowerOfTwo. apply andb_true_iff.
  split; [|lia]. apply Z.eqb_eq.
  replace (2 ^ Z.of_nat d - 1) with (Z.ones (Z.of_nat d)) by (rewrite Z.ones_equiv; lia).
  rewrite Z.land_ones by lia. apply Z.mod_same. lia.
Qed.

Lemma IsPowerOfTwo_inv n : IsPowerOfTwo n = true -> exists d : nat, n = 2 ^ Z.of_nat d.
Proof.
  unfold IsPowerOfTwo. intros [H0 Hpos]%andb_true_iff. apply Z.eqb_eq in H0. apply Z.ltb_lt in Hpos.
  exists (Z.to_nat (Z.log2 n)). rewrite Z2Nat.id by apply Z.log2_nonneg.
  pose proof (Z.log2_spec n Hpos) as [Hlo Hhi].
  destruct (Z.eq_dec n (2 ^ Z.log2 n)) as [|Hne]; [done|]. exfalso.
  assert (Z.testbit (n &&& (n - 1)) (Z.log2 n) = true) as Ht; [|by rewrite H0, Z.bits_0 in Ht].
  rewrite Z.land_spec, Z.bit_log2 by done. cbn [andb].
  assert (Z.log2 (n - 1) = Z.log2 n) as <- 
    by (apply Z.log2_unique; [apply Z.log2_nonneg|lia]).
  apply Z.bit_log2. pose proof (pow2_pos (Z.log2 n) (Z.log2_nonneg n)). lia.
Qed.

(** ** Lemmas: splitting the work *)

Lemma split_loop per extra n :
  0 <= per -> 0 <= extra ->
  let off := Z.min (Z.of_nat n) extra in
  exists ranges, foldl (split_step per) ([], extra, 0) (seq 0 n) = (ranges, extra - off, off) /\
    mjoin (range_seq <$> ranges) = seq 0 (Z.to_nat (Z.of_nat n * per + off)).
Proof.
  intros Hper Hex. induction n as [|n IH]; cbn zeta in *.
  - exists []. split; [cbn; f_equal; [f_equal|]; lia|]. rewrite Z.mul_0_l, Z.min_l by lia. done.
  - destruct IH as (ranges & Hf & Hj). rewrite seq_S, foldl_app, Hf.
    cbn [foldl split_step]. rewrite Nat.add_0_l.
    set (off := Z.min (Z.of_nat n) extra) in *. set (s := Z.of_nat n * per + off) in *.
    assert (0 <= s) by (unfold s; nia).
    destruct (Z.ltb_spec 0 (extra - off)).
    + eexists. split; [f_equal; [f_equal|]; lia|].
      rewrite fmap_app, join_app, Hj. cbn. rewrite app_nil_r. unfold range_seq. cbn [fst snd].
      rewrite <- seq_app. f_equal. unfold s, off in *. lia.
    + eexists. split; [f_equal; [f_equal|]; lia|].
      rewrite fmap_app, join_app, Hj. cbn. rewrite app_nil_r. unfold range_seq. cbn [fst snd].
      rewrite <- seq_app. f_equal. unfold s, off in *. lia.
Qed.

Lemma Execute_ranges_ok gomaxprocs n maxCpus :
  0 <= n -> mjoin (range_seq <$> Execute_ranges gomaxprocs n maxCpus) = seq 0 (Z.to_nat n).
Proof.
  intros Hn. unfold Execute_ranges. set (k := Z.max 1 _).
  assert (1 <= k) by (unfold k; lia). clearbody k.
  destruct (Z.eqb_spec k 1) as [->|Hk].
  { cbn. unfold range_seq. cbn. by rewrite app_nil_r, Z.sub_0_r. }
  destruct (Z.ltb_spec (n / k) 1).
  - destruct (split_loop 1 (n - n * 1) (Z.to_nat n)) as (ranges & -> & Hj); [lia..|].
    cbn [fst]. rewrite Hj. f_equal. lia.
  - destruct (split_loop (n / k) (n - k * (n / k)) (Z.to_nat k)) as (ranges & -> & Hj); [golia..|].
    cbn [fst]. rewrite Hj. f_equal. rewrite Z2Nat.id by lia.
    pose proof (Z.mod_pos_bound n k ltac:(lia)). pose proof (Z.div_mod n k ltac:(lia)).
    rewrite Z.min_r by lia. lia.
Qed.

(** ** Lemmas: interleavings *)

Lemma interleaving_perm {X} (ps : list (list X)) out : interleaving ps out -> out ≡ₚ mjoin ps.
Proof.
  induction 1 as [ps H|ps i x p out Hi H IH].
  - induction H as [|q ps <- H IH]; [done|]. cbn. done.
  - rewrite IH. clear IH H. revert i Hi. induction ps as [|q ps IHps]; intros i Hi; [done|].
    destruct i as [|i]; cbn in *; [by injection Hi as ->|].
    rewrite <- (IHps i Hi). by rewrite Permutation_middle.
Qed.

(** One goroutine after the other is an interleaving. *)
Lemma interleaving_seq {X} (ps : list (list X)) : interleaving ps (mjoin ps).
Proof.
  assert (forall pre, Forall (eq []) pre -> interleaving (pre ++ ps) (mjoin ps)) as H; [|by apply (H [])].
  induction ps as [|q ps IH]; intros pre Hpre.
  - rewrite app_nil_r. by constructor.
  - cbn. induction q as [|x q IHq]; cbn.
    + replace (pre ++ [] :: ps) with ((pre ++ [[]]) ++ ps) by (by rewrite <- app_assoc).
      apply IH. apply Forall_app. split; [done|]. by repeat constructor.
    + eapply (interleaving_step _ (length pre) x q); [by rewrite list_lookup_middle|].
      by rewrite insert_app_r_alt, Nat.sub_diag by lia.
Qed.

(** ** Lemmas: writes *)
Section Writes.
Context {A : Type} `{EqDecision A} (EmptyLeaf : A) (hashLR : A -> A -> A).
Context (leaves : list A) (d : nat).
Context (Hleaves : length leaves = (2 ^ d)%nat) (Hd : (1 <= d <= 62)%nat).

Definition leaf_fn (p : Z) : A := default EmptyLeaf (leaves !! Z.to_nat p).

Abbreviation nodeZ := (node hashLR leaf_fn).

Definition key (w : write) : nat * nat := (w_level w, w_out w).

Definition shape (nodes : list (list A)) : Prop :=
  length nodes = (d - 1)%nat /\
  forall l row, nodes !! l = Some row -> length row = (2 ^ (d - 1 - l))%nat.

Definition computed (D : list (nat * nat)) (nodes : list (list A)) : Prop :=
  forall l k, (l, k) ∈ D -> exists row, nodes !! l = Some row /\
    row !! k = Some (nodeZ (S l) (Z.of_nat k)).

(** A write whose inputs have been computed. *)
Definition ready (D : list (nat * nat)) (w : write) : Prop :=
  w_in w = (2 * w_out w)%nat /\ (w_level w < d - 1)%nat /\
  (w_out w < 2 ^ (d - 1 - w_level w))%nat /\
  (w_level w = 0%nat \/ ((w_level w - 1, 2 * w_out w) ∈ D /\ (w_level w - 1, 2 * w_out w + 1) ∈ D)%nat).

Fixpoint valid (D : list (nat * nat)) (ws : list write) : Prop :=
  match ws with
  | [] => True
  | w :: ws => ready D w /\ valid (key w :: D) ws
  end.

Lemma ready_mono D D' w : D ⊆ D' -> ready D w -> ready D' w.
Proof. unfold ready. set_solver. Qed.

Lemma valid_mono D D' ws : D ⊆ D' -> valid D ws -> valid D' ws.
Proof.
  revert D D'. induction ws as [|w ws IH]; intros D D' Hsub; cbn; [done|].
  intros [Hr Hv]. split; [by eapply ready_mono|]. eapply IH; [|done]. set_solver.
Qed.

Lemma valid_app D ws ws' : valid D ws -> valid ((key <$> ws) ++ D) ws' -> valid D (ws ++ ws').
Proof.
  revert D. induction ws as [|w ws IH]; intros D; cbn; [done|]. intros [Hr Hv] Hv'.
  split; [done|]. apply IH; [done|]. eapply valid_mono; [|done]. set_solver.
Qed.

(** Programs that respect the dependencies on their own do so interleaved. *)
Lemma interleaving_valid D ps out : interleaving ps out -> Forall (valid D) ps -> valid D out.
Proof.
  intros H. revert D. induction H as [ps H|ps i x p out Hi H IH]; intros D Hps; cbn; [done|].
  pose proof (Forall_lookup_1 _ _ _ _ Hps Hi) as [Hr Hp]. split; [done|]. apply IH.
  apply Forall_insert; [|done]. eapply Forall_impl; [exact Hps|]. cbn. intros q Hq.
  eapply valid_mono; [|done]. set_solver.
Qed.

Lemma leaf_lookup k : (k < 2 ^ d)%nat -> leaves !! k = Some (nodeZ 0 (Z.of_nat k)).
Proof.
  intros Hk. cbn. unfold leaf_fn. rewrite Nat2Z.id.
  destruct (lookup_lt_is_Some_2 leaves k) as [x ->]; [lia|done].
Qed.

Lemma pow_split l : (l < d - 1)%nat -> (2 ^ (d - 1 - l) * 2 = 2 ^ (d - l))%nat.
Proof. intros. replace (d - l)%nat with (S (d - 1 - l)) by lia. cbn. lia. Qed.

Lemma run_write_ok D nodes w :
  shape nodes -> computed D nodes -> ready D w ->
  exists nodes', run_write hashLR leaves nodes w = Ok nodes' /\ shape nodes' /\
    computed (key w :: D) nodes'.
Proof.
  intros [Hn Hrow] Hc (Hin & Hl & Ho & Hdep). destruct w as [l o i]. cbn [w_level w_out w_in] in *. subst i.
  destruct (lookup_lt_is_Some_2 nodes l) as [row Hr]; [lia|].
  pose proof (Hrow l row Hr) as Hlen.
  assert (exists inLevel, (if (l =? 0)%nat then Ok leaves else unwrap (nodes !! (l - 1)%nat)) = Ok (E := smt_error) inLevel /\
    inLevel !! (2 * o)%nat = Some (nodeZ l (Z.of_nat (2 * o))) /\
    inLevel !! (2 * o + 1)%nat = Some (nodeZ l (Z.of_nat (2 * o + 1)))) as (inLevel & Hin & H1 & H2).
  { destruct (Nat.eqb_spec l 0) as [->|Hne].
    - exists leaves. pose proof (pow_split 0 Hl) as Hp.
      rewrite !Nat.sub_0_r in Hp. rewrite Nat.sub_0_r in Ho.
      split; [done|]. split; apply leaf_lookup; lia.
    - destruct Hdep as [?|[Hd1 Hd2]]; [done|].
      destruct (Hc _ _ Hd1) as (r1 & Hr1 & ?), (Hc _ _ Hd2) as (r2 & Hr2 & ?). simplify_eq.
      exists r1. rewrite Hr1. replace (S (l - 1)) with l in * by lia. done. }
  unfold run_write. cbn [w_level w_out w_in]. rewrite Hin. cbn [mbind outcome_bind].
  rewrite H1, H2, Hr. cbn [unwrap mbind outcome_bind]. unfold set_index.
  destruct (Z.leb_spec 0 (Z.of_nat o)); [|lia].
  destruct (Z.ltb_spec (Z.of_nat o) (Z.of_nat (length row))); [|lia]. cbn [andb unwrap mbind outcome_bind].
  rewrite Nat2Z.id. eexists. split; [done|].
  assert (hashLR (nodeZ l (Z.of_nat (2 * o))) (nodeZ l (Z.of_nat (2 * o + 1))) = nodeZ (S l) (Z.of_nat o)) as ->.
  { cbn [node]. f_equal; f_equal; lia. }
  split; [split|].
  - by rewrite length_insert.
  - intros l' row' H'. apply list_lookup_insert_Some in H' as [(-> & <- & _)|[_ H']]; [|by apply Hrow].
    by rewrite length_insert.
  - intros l' k' Hk. unfold key in Hk. cbn in Hk.
    destruct (decide (l' = l)) as [->|Hne].
    + rewrite list_lookup_insert_eq by lia. eexists. split; [done|].
      destruct (decide (k' = o)) as [->|Hne']; [rewrite list_lookup_insert_eq by lia; done|].
      rewrite list_lookup_insert_ne by done. assert ((l, k') ∈ D) as HD by set_solver.
      destruct (Hc _ _ HD) as (r & Hr' & Hv). by simplify_eq.
    + rewrite list_lookup_insert_ne by done. apply Hc. set_solver.
Qed.

Lemma run_writes_ok D nodes ws :
  shape nodes -> computed D nodes -> valid D ws ->
  exists nodes', foldM (run_write hashLR leaves) nodes ws = Ok nodes' /\ shape nodes' /\
    computed ((key <$> ws) ++ D) nodes'.
Proof.
  revert D nodes. induction ws as [|w ws IH]; intros D nodes Hs Hc Hv; [eauto|].
  destruct Hv as [Hr Hv]. destruct (run_write_ok D nodes w Hs Hc Hr) as (n1 & Hw & Hs1 & Hc1).
  destruct (IH _ n1 Hs1 Hc1 Hv) as (n2 & Hf & Hs2 & Hc2).
  exists n2. cbn [foldM]. rewrite Hw. split; [done|]. split; [done|].
  intros l k Hk. apply Hc2. set_solver.
Qed.

(** ** Lemmas: the programs of the goroutines *)

Lemma valid_all D ws : Forall (ready D) ws -> valid D ws.
Proof.
  intros H. assert (forall D', D ⊆ D' -> valid D' ws) as Hg; [|by apply Hg].
  induction H as [|w ws Hw H IH]; intros D' Hsub; cbn; [done|]. split; [by eapply ready_mono|].
  apply IH. set_solver.
Qed.

Lemma pow_div h l : (l <= h)%nat -> (2 ^ h / 2 ^ l = 2 ^ (h - l))%nat.
Proof.
  intros Hl. replace h with (h - l + l)%nat at 1 by lia. rewrite Nat.pow_add_r.
  apply Nat.div_mul. apply Nat.pow_nonzero. lia.
Qed.

Lemma subtree_bound h t m k :
  (h <= d - 1)%nat -> (t < 2 ^ (d - h))%nat -> (m < h)%nat -> (k < 2 ^ (h - (m + 1)))%nat ->
  (t * 2 ^ (h - (m + 1)) + k < 2 ^ (d - 1 - m))%nat.
Proof.
  intros Hh Ht Hm Hk. replace (d - 1 - m)%nat with ((d - h) + (h - (m + 1)))%nat by lia.
  rewrite Nat.pow_add_r. nia.
Qed.

Definition subtree_level (h t l : nat) : list write :=
  (fun k => mkWrite l (t * 2 ^ (h - (l + 1)) + k) (t * 2 ^ (h - l) + 2 * k)) <$> seq 0 (2 ^ (h - (l + 1))).

Lemma subtree_program_levels h t m :
  (m <= h)%nat ->
  (seq 0 m ≫= fun l =>
    (fun k => mkWrite l (t * (2 ^ h / 2 ^ (l + 1)) + k) (t * (2 ^ h / 2 ^ l) + 2 * k))
      <$> seq 0 (2 ^ h / 2 ^ (l + 1)))
  = (seq 0 m ≫= subtree_level h t).
Proof.
  intros Hm. apply Forall_bind_ext, Forall_forall. intros l [_ Hl]%elem_of_seq. unfold subtree_level.
  rewrite !pow_div by lia. done.
Qed.

Lemma elem_of_level h t l w :
  w ∈ subtree_level h t l <->
  exists k, (k < 2 ^ (h - (l + 1)))%nat /\ w = mkWrite l (t * 2 ^ (h - (l + 1)) + k) (t * 2 ^ (h - l) + 2 * k).
Proof.
  unfold subtree_level. rewrite list_elem_of_fmap. setoid_rewrite elem_of_seq. split.
  - intros (k & -> & Hk). exists k. split; [lia|done].
  - intros (k & Hk & ->). exists k. split; [done|lia].
Qed.

Lemma subtree_prefix_valid D h t m :
  (h <= d - 1)%nat -> (t < 2 ^ (d - h))%nat -> (m <= h)%nat ->
  valid D (seq 0 m ≫= subtree_level h t).
Proof.
  intros Hh Ht. induction m as [|m IH]; intros Hm; [done|].
  rewrite seq_S, bind_app, Nat.add_0_l. cbn. rewrite app_nil_r.
  apply valid_app; [apply IH; lia|]. apply valid_all, Forall_forall.
  intros w (k & Hk & ->)%elem_of_level. unfold ready. cbn [w_level w_out w_in].
  assert (2 ^ (h - m) = 2 * 2 ^ (h - (m + 1)))%nat as Hp
    by (replace (h - m)%nat with (S (h - (m + 1))) by lia; cbn; lia).
  split; [rewrite Hp; lia|]. split; [lia|]. split; [by apply subtree_bound|].
  destruct m as [|m]; [by left|right].
  assert (forall j, (j < 2)%nat ->
    (m, 2 * (t * 2 ^ (h - (S m + 1)) + k) + j)%nat
      ∈ (key <$> (seq 0 (S m) ≫= subtree_level h t)) ++ D) as Hj.
  { intros j Hj. apply elem_of_app. left. apply list_elem_of_fmap.
    exists (mkWrite m (t * 2 ^ (h - (m + 1)) + (2 * k + j)) (t * 2 ^ (h - m) + 2 * (2 * k + j))). split.
    - unfold key. cbn. f_equal. replace (h - (m + 1))%nat with (h - S m)%nat by lia. rewrite Hp. lia.
    - apply list_elem_of_bind. exists m. split; [|apply elem_of_seq; lia].
      apply elem_of_level. eexists. split; [|done].
      replace (h - (m + 1))%nat with (h - S m)%nat by lia. rewrite Hp. lia. }
  cbn [Nat.sub]. rewrite Nat.sub_0_r. split; [|by apply Hj; lia].
  rewrite <- (Nat.add_0_r (2 * _)). apply Hj. lia.
Qed.

Lemma subtree_program_valid D h t :
  (h <= d - 1)%nat -> (t < 2 ^ (d - h))%nat -> valid D (subtree_program h t).
Proof.
  intros Hh Ht. unfold subtree_program. rewrite subtree_program_levels by done.
  by apply subtree_prefix_valid.
Qed.

Lemma subtrees_valid D h ts :
  (h <= d - 1)%nat -> Forall (fun t => t < 2 ^ (d - h))%nat ts -> valid D (ts ≫= subtree_program h).
Proof.
  intros Hh. revert D. induction ts as [|t ts IH]; intros D Hts; [done|].
  apply Forall_cons in Hts as [Ht Hts]. rewrite bind_cons. apply valid_app.
  - by apply subtree_program_valid.
  - by apply IH.
Qed.

(** All the nodes of the first [n] levels. *)
Definition all_keys (n : nat) : list (nat * nat) :=
  seq 0 n ≫= fun l => (fun k => (l, k)) <$> seq 0 (2 ^ (d - 1 - l)).

Lemma elem_of_all_keys n l k : (l, k) ∈ all_keys n <-> (l < n)%nat /\ (k < 2 ^ (d - 1 - l))%nat.
Proof.
  unfold all_keys. rewrite list_elem_of_bind. setoid_rewrite list_elem_of_fmap.
  setoid_rewrite elem_of_seq. split.
  - intros (l' & (k' & [= -> ->] & Hk) & Hl). lia.
  - intros [Hl Hk]. exists l. split; [|lia]. exists k. split; [done|lia].
Qed.

Lemma subtree_keys_complete h l k :
  (h <= d - 1)%nat -> (l < h)%nat -> (k < 2 ^ (d - 1 - l))%nat ->
  (l, k) ∈ key <$> (seq 0 (2 ^ (d - h)) ≫= subtree_program h).
Proof.
  intros Hh Hl Hk. set (c := (2 ^ (h - (l + 1)))%nat).
  assert (c <> 0)%nat by (apply Nat.pow_nonzero; lia).
  assert (2 ^ (d - 1 - l) = 2 ^ (d - h) * c)%nat as Hp
    by (unfold c; rewrite <- Nat.pow_add_r; f_equal; lia).
  pose proof (Nat.div_mod k c ltac:(done)). pose proof (Nat.mod_upper_bound k c ltac:(done)).
  assert (k / c < 2 ^ (d - h))%nat by (apply Nat.Div0.div_lt_upper_bound; lia).
  apply list_elem_of_fmap. exists (mkWrite l (k / c * c + k mod c) (k / c * 2 ^ (h - l) + 2 * (k mod c))).
  split; [unfold key; cbn; f_equal; lia|].
  apply list_elem_of_bind. exists (k / c)%nat. split; [|apply elem_of_seq; lia].
  unfold subtree_program. rewrite subtree_program_levels by done.
  apply list_elem_of_bind. exists l. split; [|apply elem_of_seq; lia].
  apply elem_of_level. exists (k mod c)%nat. split; [done|]. done.
Qed.

Lemma level_program_valid D i ks :
  (i < d - 1)%nat -> Forall (fun k => k < 2 ^ (d - 1 - i))%nat ks -> all_keys i ⊆ D ->
  valid D (level_program i ks).
Proof.
  intros Hi Hks HD. apply valid_all, Forall_forall. unfold level_program.
  intros w (k & -> & Hk)%list_elem_of_fmap. rewrite Forall_forall in Hks. specialize (Hks k Hk).
  unfold ready. cbn [w_level w_out w_in].
  split; [done|]. split; [done|]. split; [done|]. destruct i as [|i]; [by left|right].
  assert (2 ^ (d - 1 - i) = 2 * 2 ^ (d - 1 - S i))%nat as Hp
    by (replace (d - 1 - i)%nat with (S (d - 1 - S i)) by lia; cbn; lia).
  cbn [Nat.sub]. rewrite Nat.sub_0_r.
  split; apply HD, elem_of_all_keys; lia.
Qed.

(** Ranges that cover [[0, n)] once. *)
Definition partitions (rs : list (Z * Z)) (n : nat) : Prop := mjoin (range_seq <$> rs) = seq 0 n.

Lemma Execute_partitions gomaxprocs n : partitions (Execute_ranges gomaxprocs (Z.of_nat n) []) n.
Proof. unfold partitions. by rewrite Execute_ranges_ok, Nat2Z.id by lia. Qed.

Lemma partitions_bound rs n r k : partitions rs n -> r ∈ rs -> k ∈ range_seq r -> (k < n)%nat.
Proof.
  intros Hp Hr Hk. assert (k ∈ mjoin (range_seq <$> rs)) as H.
  { apply list_elem_of_join. exists (range_seq r). split; [done|]. by apply list_elem_of_fmap_2. }
  rewrite Hp in H. apply elem_of_seq in H. lia.
Qed.

Lemma mjoin_bind {X Y} (f : X -> list Y) (xss : list (list X)) :
  mjoin ((fun xs => xs ≫= f) <$> xss) = mjoin xss ≫= f.
Proof. induction xss as [|xs xss IH]; [done|]. cbn. rewrite bind_app. f_equal. apply IH. Qed.

Lemma mjoin_fmap {X Y} (f : X -> Y) (xss : list (list X)) :
  mjoin ((fun xs => f <$> xs) <$> xss) = f <$> mjoin xss.
Proof. induction xss as [|xs xss IH]; [done|]. cbn. rewrite fmap_app. f_equal. apply IH. Qed.

(** The first phase computes the levels below the height of the subtrees. *)
Lemma bottom_phase gomaxprocs h bottom nodes :
  (h <= d - 1)%nat -> shape nodes ->
  interleaving (subtree_goroutines gomaxprocs (2 ^ d) h) bottom ->
  exists nodes', foldM (run_write hashLR leaves) nodes bottom = Ok nodes' /\ shape nodes' /\
    computed (all_keys h) nodes'.
Proof.
  intros Hh Hs Hi. unfold subtree_goroutines in Hi. rewrite pow_div in Hi by lia.
  pose proof (interleaving_perm _ _ Hi) as Hperm.
  assert (valid [] bottom) as Hv.
  { eapply interleaving_valid; [done|]. apply Forall_forall.
    intros p (r & -> & Hr)%list_elem_of_fmap. apply subtrees_valid; [done|].
    apply Forall_forall. intros k Hk. eapply partitions_bound; [apply Execute_partitions|done..]. }
  destruct (run_writes_ok [] nodes bottom Hs) as (nodes' & Hf & Hs' & Hc); [by intros ? ? ?%not_elem_of_nil|done|].
  exists nodes'. split; [done|]. split; [done|]. intros l k [Hl Hk]%elem_of_all_keys. apply Hc.
  rewrite app_nil_r, Hperm.
  change (fun r => range_seq r ≫= subtree_program h) with ((fun xs => xs ≫= subtree_program h) ∘ range_seq).
  rewrite list_fmap_compose, mjoin_bind, Execute_partitions.
  by apply subtree_keys_complete.
Qed.

(** Each upper level is computed from the one below. *)
Lemma upper_level rs i ws nodes D :
  (i < d - 1)%nat -> shape nodes -> computed D nodes -> all_keys i ⊆ D ->
  partitions rs (2 ^ (d - 1 - i)) ->
  interleaving ((fun r => level_program i (range_seq r)) <$> rs) ws ->
  exists nodes', foldM (run_write hashLR leaves) nodes ws = Ok nodes' /\ shape nodes' /\
    computed (all_keys (S i)) nodes'.
Proof.
  intros Hi Hs Hc HD Hrs Hil. set (n := (2 ^ (d - 1 - i))%nat) in *.
  pose proof (interleaving_perm _ _ Hil) as Hperm.
  assert (mjoin ((fun r => level_program i (range_seq r)) <$> rs) = level_program i (seq 0 n)) as Hj.
  { change (fun r => level_program i (range_seq r))
      with ((fun xs => (fun k => mkWrite i k (2 * k)) <$> xs) ∘ range_seq).
    by rewrite list_fmap_compose, mjoin_fmap, Hrs. }
  assert (valid D ws) as Hv.
  { eapply interleaving_valid; [done|]. apply Forall_forall.
    intros p (r & -> & Hr)%list_elem_of_fmap. apply level_program_valid; [done| |done].
    apply Forall_forall. intros k Hk. by eapply partitions_bound. }
  destruct (run_writes_ok D nodes ws Hs Hc Hv) as (nodes' & Hf & Hs' & Hc').
  exists nodes'. split; [done|]. split; [done|]. intros l k [Hl Hk]%elem_of_all_keys. apply Hc'.
  apply elem_of_app. destruct (decide (l = i)) as [->|Hne].
  - left. rewrite Hperm, Hj. unfold level_program. rewrite <- list_fmap_compose.
    apply list_elem_of_fmap. exists k. split; [done|]. apply elem_of_seq. fold n in Hk. lia.
  - right. apply HD, elem_of_all_keys. lia.
Qed.

(** The executions of one upper level. *)
Definition level_execution (i : nat) (ws : list write) : Prop :=
  exists rs, partitions rs (2 ^ (d - 1 - i)) /\
    interleaving ((fun r => level_program i (range_seq r)) <$> rs) ws.

Lemma level_goroutines_execution gomaxprocs i ws :
  (i < d - 1)%nat ->
  interleaving (level_goroutines gomaxprocs i (2 ^ d / 2 ^ (i + 1))) ws -> level_execution i ws.
Proof.
  intros Hi H. rewrite pow_div in H by lia.
  replace (d - (i + 1))%nat with (d - 1 - i)%nat in H by lia. unfold level_goroutines in H.
  destruct (_ && _) in H.
  - eexists. split; [apply Execute_partitions|done].
  - exists [(0, Z.of_nat (2 ^ (d - 1 - i)))].
    assert (range_seq (0, Z.of_nat (2 ^ (d - 1 - i))) = seq 0 (2 ^ (d - 1 - i))) as Hr
      by (unfold range_seq; cbn [fst snd]; by rewrite Z.sub_0_r, Nat2Z.id).
    split; [unfold partitions; cbn; by rewrite Hr, app_nil_r|]. cbn. by rewrite Hr.
Qed.

Lemma upper_phase i n upper nodes :
  (i + n = d - 1)%nat -> shape nodes -> computed (all_keys i) nodes ->
  Forall2 level_execution (seq i n) upper ->
  exists nodes', foldM (foldM (run_write hashLR leaves)) nodes upper = Ok nodes' /\ shape nodes' /\
    computed (all_keys (d - 1)) nodes'.
Proof.
  revert i upper nodes. induction n as [|n IH]; intros i upper nodes Hin Hs Hc Hf; cbn [seq] in Hf.
  - apply Forall2_nil_inv_l in Hf as ->. exists nodes. rewrite <- Hin, Nat.add_0_r. done.
  - apply Forall2_cons_inv_l in Hf as (ws & upper' & (rs & Hrs & Hws) & Hf & ->).
    destruct (upper_level rs i ws nodes (all_keys i)) as (n1 & Hr & Hs1 & Hc1); [lia|done..|].
    destruct (IH (S i) upper' n1) as (n2 & Hr2 & ?); [lia|done..|].
    exists n2. cbn [foldM]. rewrite Hr. done.
Qed.

Lemma alloc_lookup n sz i :
  alloc_levels EmptyLeaf n sz !! i = if (i <? n)%nat then Some (replicate (sz / 2 ^ i) EmptyLeaf) else None.
Proof.
  revert sz i. induction n as [|n IH]; intros sz i; [by destruct i|].
  cbn [alloc_levels]. destruct i as [|i].
  - change (2 ^ 0)%nat with 1%nat. by rewrite Nat.div_1_r.
  - cbn [lookup list_lookup]. rewrite IH, Nat.Div0.div_div. by rewrite <- Nat.pow_succ_r'.
Qed.

Lemma length_alloc n sz : length (alloc_levels EmptyLeaf n sz) = n.
Proof. revert sz. induction n as [|n IH]; intros sz; cbn; auto. Qed.

Lemma alloc_shape : shape (alloc_levels EmptyLeaf (d - 1) (2 ^ d / 2)).
Proof.
  split; [apply length_alloc|]. intros l row. rewrite alloc_lookup.
  destruct (Nat.ltb_spec l (d - 1)); [|done]. intros Hrow.
  assert (row = replicate (2 ^ d / 2 / 2 ^ l) EmptyLeaf) as -> by congruence.
  rewrite length_replicate. pose proof (pow_div d 1 ltac:(lia)) as Hh. change (2 ^ 1)%nat with 2%nat in Hh.
  rewrite Hh, pow_div by lia. done.
Qed.

(** All the levels computed: the tree of the leaves. *)
Lemma complete_tree nodes :
  shape nodes -> computed (all_keys (d - 1)) nodes ->
  tree_ok EmptyLeaf hashLR
    (mkTree d (nodeZ d 0) leaves nodes (empty_nodes hashLR (d - 1) EmptyLeaf).1) leaf_fn.
Proof.
  intros [Hn Hrow] Hc. constructor; cbn [Depth Root]; [|done|done].
  assert (forall l, Z.of_nat (2 ^ l)%nat = 2 ^ Z.of_nat l) as Hpow by (intros; apply Nat2Z.inj_pow).
  constructor; cbn [Depth OccupiedNodes EmptyNodes].
  - done.
  - intros l Hl. rewrite (empty_nodes_ok EmptyLeaf hashLR (d - 1) 0 : empty_nodes hashLR (d - 1) EmptyLeaf = _).
    cbn [fst]. rewrite list_lookup_fmap, lookup_seq_lt by lia. cbn [fmap option_fmap option_map].
    do 2 f_equal. lia.
  - intros [|l] Hl; cbn [level_list OccupiedLeaves OccupiedNodes].
    + rewrite Hleaves, Hpow, Nat.sub_0_r. done.
    + destruct (lookup_lt_is_Some_2 nodes l) as [row Hr]; [lia|]. rewrite Hr. cbn.
      rewrite (Hrow l row Hr), Hpow. replace (d - 1 - l)%nat with (d - S l)%nat by lia. done.
  - intros [|l] p Hl Hp; unfold stored; cbn [level_list OccupiedLeaves OccupiedNodes]; [done|].
    rewrite <- Hpow in Hp.
    destruct (Hc l (Z.to_nat p)) as (row & Hr & Hv).
    { apply elem_of_all_keys. split; [lia|]. replace (d - 1 - l)%nat with (d - S l)%nat by lia. lia. }
    rewrite Hr. cbn [default from_option id]. rewrite Hv. cbn [default from_option id]. by rewrite Z2Nat.id by lia.
Qed.

(** The complete tree of the leaves, computed level by level. *)
Definition merkle_level (l : nat) : list A :=
  (fun k => nodeZ l (Z.of_nat k)) <$> seq 0 (2 ^ (d - l)).

Definition merkle_tree : Tree A :=
  mkTree d (nodeZ d 0) leaves (merkle_level <$> seq 1 (d - 1)) (empty_nodes hashLR (d - 1) EmptyLeaf).1.

Lemma computed_levels nodes :
  shape nodes -> computed (all_keys (d - 1)) nodes -> nodes = merkle_level <$> seq 1 (d - 1).
Proof.
  intros [Hn Hrow] Hc. apply list_eq. intros l. rewrite list_lookup_fmap.
  destruct (decide (l < d - 1)%nat) as [Hl|Hl].
  - destruct (lookup_lt_is_Some_2 nodes l) as [row Hr]; [lia|]. rewrite Hr, lookup_seq_lt by done.
    cbn [fmap option_fmap option_map]. f_equal. change (1 + l)%nat with (S l). unfold merkle_level.
    pose proof (Hrow l row Hr) as Hlen. replace (d - 1 - l)%nat with (d - S l)%nat in Hlen by lia.
    apply list_eq. intros k. rewrite list_lookup_fmap. destruct (decide (k < 2 ^ (d - S l))%nat) as [Hk|Hk].
    + rewrite lookup_seq_lt by done. destruct (Hc l k) as (row' & Hr' & Hv).
      { apply elem_of_all_keys. replace (d - 1 - l)%nat with (d - S l)%nat by lia. lia. }
      simplify_eq. done.
    + rewrite lookup_seq_ge, lookup_ge_None_2 by lia. done.
  - rewrite lookup_seq_ge, lookup_ge_None_2 by lia. done.
Qed.

Lemma root_children : nodeZ d 0 = hashLR (nodeZ (d - 1) 0) (nodeZ (d - 1) 1).
Proof. replace d with (S (d - 1)) at 1 by lia. done. Qed.

Lemma merkle_level_0 : merkle_level 0 = leaves.
Proof.
  unfold merkle_level. rewrite Nat.sub_0_r. apply list_eq. intros k. rewrite list_lookup_fmap.
  destruct (decide (k < 2 ^ d)%nat).
  - rewrite lookup_seq_lt by done. by rewrite leaf_lookup.
  - by rewrite lookup_seq_ge, lookup_ge_None_2 by lia.
Qed.

Lemma merkle_level_last : merkle_level (d - 1) = [nodeZ (d - 1) 0; nodeZ (d - 1) 1].
Proof. unfold merkle_level. replace (d - (d - 1))%nat with 1%nat by lia. done. Qed.

(** The root that the builders compute from the last level. *)
Lemma last_level_lookup :
  (d <> 1)%nat -> (merkle_level <$> seq 1 (d - 1)) !! (d - 2)%nat = Some [nodeZ (d - 1) 0; nodeZ (d - 1) 1].
Proof.
  intros Hne. rewrite list_lookup_fmap, lookup_seq_lt by lia. cbn [fmap option_fmap option_map].
  rewrite <- merkle_level_last. do 2 f_equal. lia.
Qed.

Lemma last_leaves : (d = 1)%nat -> leaves = [nodeZ (d - 1) 0; nodeZ (d - 1) 1].
Proof. intros E. rewrite <- merkle_level_0 at 1. rewrite <- merkle_level_last. f_equal. lia. Qed.

Lemma guard_passes :
  negb (IsPowerOfTwo (Z.of_nat (length leaves))) || (length leaves =? 0)%nat = false /\
  Z.to_nat (Log2Ceil (Z.of_nat (length leaves))) = d.
Proof.
  rewrite Hleaves, Nat2Z.inj_pow. change (Z.of_nat 2) with 2. rewrite IsPowerOfTwo_pow, Log2Ceil_pow by lia.
  split; [|lia]. cbn. apply Nat.eqb_neq, Nat.pow_nonzero. lia.
Qed.

Lemma NewTree_ok gomaxprocs bottom upper :
  schedule_ok gomaxprocs (2 ^ d) d bottom upper ->
  NewTree EmptyLeaf hashLR leaves bottom upper = Ok merkle_tree.
Proof.
  intros [Hbot Hup]. destruct guard_passes as [Hg Hdepth]. unfold NewTree. rewrite Hg, Hdepth.
  destruct (Nat.eqb_spec d 0); [lia|].
  set (h := subtree_height d) in *. assert (h <= d - 1)%nat as Hh.
  { unfold h, subtree_height. destruct (Nat.ltb_spec (d - 1) targetSubtreeHeight); lia. }
  destruct (bottom_phase gomaxprocs h bottom _ Hh alloc_shape Hbot) as (n1 & Hb & Hs1 & Hc1).
  destruct (upper_phase h (d - 1 - h) upper n1) as (n2 & Hu & Hs2 & Hc2); [lia|done..| |].
  { apply Forall2_same_length_lookup_2; [by eapply Forall2_length|]. intros j i ws Hi Hws.
    pose proof (Forall2_lookup_lr _ _ _ _ _ _ Hup Hi Hws) as H. apply lookup_seq in Hi as [-> ?].
    apply (level_goroutines_execution gomaxprocs); [lia|done]. }
  destruct (empty_nodes hashLR (d - 1) EmptyLeaf) as [emptyNodes last] eqn:He.
  rewrite Hleaves. rewrite Hb. cbn [mbind outcome_bind]. rewrite Hu. cbn [mbind outcome_bind].
  rewrite (computed_levels n2 Hs2 Hc2). unfold merkle_tree. rewrite He, root_children. cbn [fst].
  destruct (Nat.eqb_spec d 1) as [E|E].
  - pose proof (last_leaves E) as Hl. set (nl := nodeZ (d - 1) 0) in *. set (nr := nodeZ (d - 1) 1) in *.
    clearbody nl nr. by rewrite Hl.
  - rewrite last_level_lookup by done. done.
Qed.

Lemma next_level_ok l : (l < d - 1)%nat -> next_level EmptyLeaf hashLR (merkle_level l) = merkle_level (S l).
Proof.
  intros Hl. unfold next_level, merkle_level. rewrite length_fmap, length_seq.
  pose proof (pow_div (d - l) 1 ltac:(lia)) as Hp. change (2 ^ 1)%nat with 2%nat in Hp. rewrite Hp.
  replace (d - l - 1)%nat with (d - S l)%nat by lia.
  apply list_fmap_ext. intros i k [-> Hk]%lookup_seq. rewrite Nat.add_0_l.
  assert (2 ^ (d - l) = 2 * 2 ^ (d - S l))%nat as Hpow
    by (replace (d - l)%nat with (S (d - S l)) by lia; cbn; lia).
  rewrite !list_lookup_fmap, !lookup_seq_lt by lia. cbn [fmap option_fmap option_map default from_option id node].
  rewrite !Nat.add_0_l. f_equal; f_equal; lia.
Qed.

Lemma build_levels_ok l n :
  (l + n = d - 1)%nat ->
  build_levels EmptyLeaf hashLR n (merkle_level l) = (merkle_level <$> seq (S l) n, merkle_level (d - 1)).
Proof.
  revert l. induction n as [|n IH]; intros l Hln; cbn [build_levels seq fmap list_fmap].
  - by replace (d - 1)%nat with l by lia.
  - rewrite next_level_ok by lia. rewrite IH by lia. done.
Qed.

Lemma BuildComplete_ok : BuildComplete EmptyLeaf hashLR leaves = Ok merkle_tree.
Proof.
  destruct guard_passes as [Hg Hdepth]. unfold BuildComplete. rewrite Hg, Hdepth.
  destruct (Nat.eqb_spec d 0); [lia|].
  rewrite <- merkle_level_0 at 1. rewrite build_levels_ok by lia. rewrite merkle_level_last.
  unfold merkle_tree. rewrite root_children. unfold NewEmptyTree.
  destruct (Z.ltb_spec 0 (Z.of_nat d)); [|lia]. rewrite Nat2Z.id.
  by destruct (empty_nodes hashLR (d - 1) EmptyLeaf).
Qed.

Lemma worker_ranges_partition gomaxprocs (n : nat) :
  (0 < n)%nat -> partitions (worker_ranges gomaxprocs (Z.of_nat n)) n.
Proof.
  intros Hn. unfold worker_ranges. set (w := if _ <? _ then 1 else _).
  assert (1 <= w) by (unfold w; destruct (Z.ltb_spec gomaxprocs 1); lia).
  set (a := if Z.of_nat n <? w then Z.of_nat n else w).
  assert (1 <= a) by (unfold a; destruct (Z.ltb_spec (Z.of_nat n) w); lia). clearbody a.
  unfold partitions. rewrite <- list_fmap_compose.
  assert (forall m : nat, mjoin ((range_seq ∘ (fun i => (Z.of_nat i * Z.of_nat n / a,
      (Z.of_nat i + 1) * Z.of_nat n / a))) <$> seq 0 m)
    = seq 0 (Z.to_nat (Z.of_nat m * Z.of_nat n / a))) as Hm.
  { induction m as [|m IH]; [by rewrite Z.mul_0_l, Z.div_0_l by lia|].
    rewrite seq_S, fmap_app, join_app, IH. cbn. rewrite app_nil_r. unfold range_seq. cbn [fst snd].
    replace (Z.of_nat (S m)) with (Z.of_nat m + 1) by lia.
    assert (0 <= Z.of_nat m * Z.of_nat n / a) by (apply Z.div_pos; lia).
    assert (Z.of_nat m * Z.of_nat n / a <= (Z.of_nat m + 1) * Z.of_nat n / a) by (apply Z.div_le_mono; lia).
    rewrite <- seq_app. f_equal. lia. }
  rewrite Hm, Z2Nat.id by lia. rewrite Z.mul_comm, Z.div_mul by lia. by rewrite Nat2Z.id.
Qed.

Lemma arena_shape : shape (arena_levels EmptyLeaf d).
Proof.
  unfold arena_levels. split; [by rewrite length_fmap, length_seq|]. intros l row.
  rewrite list_lookup_fmap. intros (d' & [-> Hl]%lookup_seq & ->)%fmap_Some. rewrite length_replicate.
  f_equal. lia.
Qed.

Lemma mimc_BuildComplete_ok gomaxprocs levels :
  workers_ok gomaxprocs d levels ->
  mimc_BuildComplete EmptyLeaf hashLR leaves levels = Ok merkle_tree.
Proof.
  intros Hw. destruct guard_passes as [Hg Hdepth]. unfold mimc_BuildComplete. rewrite Hg, Hdepth.
  destruct (Nat.eqb_spec d 0); [lia|].
  destruct (upper_phase 0 (d - 1) levels _ ltac:(lia) arena_shape) as (nodes & Hu & Hs & Hc).
  { intros l k [Hl _]%elem_of_all_keys. lia. }
  { apply Forall2_same_length_lookup_2; [by eapply Forall2_length|]. intros j i ws Hi Hws.
    pose proof (Forall2_lookup_lr _ _ _ _ _ _ Hw Hi Hws) as H. apply lookup_seq in Hi as [-> ?].
    eexists. split; [|exact H]. rewrite <- (Nat2Z.inj_pow 2). apply worker_ranges_partition.
    apply Nat.neq_0_lt_0, Nat.pow_nonzero. lia. }
  rewrite Hu. cbn [mbind outcome_bind]. rewrite (computed_levels nodes Hs Hc).
  unfold merkle_tree. rewrite root_children. unfold NewEmptyTree.
  destruct (Z.ltb_spec 0 (Z.of_nat d)); [|lia]. rewrite Nat2Z.id.
  destruct (empty_nodes hashLR (d - 1) EmptyLeaf) as [en last]. cbn [EmptyNodes fst].
  destruct (Nat.eqb_spec d 1) as [E|E].
  - pose proof (last_leaves E) as Hl. set (nl := nodeZ (d - 1) 0) in *. set (nr := nodeZ (d - 1) 1) in *.
    clearbody nl nr. by rewrite Hl.
  - rewrite last_level_lookup by done. done.
Qed.

Lemma merkle_tree_ok : tree_ok EmptyLeaf hashLR merkle_tree leaf_fn.
Proof.
  apply complete_tree.
  - split; [by rewrite length_fmap, length_seq|]. intros l row. rewrite list_lookup_fmap.
    intros (d' & [-> Hl]%lookup_seq & ->)%fmap_Some. unfold merkle_level. rewrite length_fmap, length_seq.
    f_equal. lia.
  - intros l k [Hl Hk]%elem_of_all_keys. exists (merkle_level (S l)).
    rewrite list_lookup_fmap, lookup_seq_lt by done. split; [done|]. unfold merkle_level.
    rewrite list_lookup_fmap, lookup_seq_lt by (replace (d - S l)%nat with (d - 1 - l)%nat by lia; lia). done.
Qed.
End Writes.

Lemma recover_idx {A} (hashLR : A -> A -> A) c i (ss : list A) :
  (foldl (recover_step hashLR) (c, i) ss).2 = i ≫ Z.of_nat (length ss).
Proof.
  revert c i. induction ss as [|s ss IH]; intros c i; cbn [foldl recover_step]; [by rewrite Z.shiftr_0_r|].
  rewrite IH. cbn [length]. rewrite Z.shiftr_shiftr by lia. f_equal. lia.
Qed.

(** ** Theorems *)
Section Theorems.
Context {A : Type} `{EqDecision A} (EmptyLeaf : A) (hashLR : A -> A -> A).

(** C27. The parallel build is schedule independent: on [2^d] leaves, for any
    number of processors and any interleaving of the goroutines of its two phases,
    [NewTree] returns, without a panic, the Merkle tree of the leaves, the same
    tree as the sequential level-by-level [BuildComplete]. *)
Theorem NewTree_any_schedule gomaxprocs (leaves : list A) (d : nat) bottom upper :
  length leaves = (2 ^ d)%nat -> (1 <= d <= 62)%nat ->
  schedule_ok gomaxprocs (length leaves) d bottom upper ->
  exists t, NewTree EmptyLeaf hashLR leaves bottom upper = Ok t /\
    BuildComplete EmptyLeaf hashLR leaves = Ok t /\
    tree_ok EmptyLeaf hashLR t (leaf_fn EmptyLeaf leaves) /\ Depth t = d.
Proof.
  intros Hl Hd Hs. rewrite Hl in Hs. exists (merkle_tree EmptyLeaf hashLR leaves d).
  split; [by eapply NewTree_ok|]. split; [by apply BuildComplete_ok|].
  split; [by apply merkle_tree_ok|done].
Qed.

(** The worker pool of the MiMC tree is schedule independent too: whatever
    the number of workers and however they share and interleave the tasks of each
    level, the built tree is the Merkle tree of the leaves. *)
Theorem mimc_BuildComplete_any_workers gomaxprocs (leaves : list A) (d : nat) levels :
  length leaves = (2 ^ d)%nat -> (1 <= d <= 62)%nat -> workers_ok gomaxprocs d levels ->
  exists t, mimc_BuildComplete EmptyLeaf hashLR leaves levels = Ok t /\
    BuildComplete EmptyLeaf hashLR leaves = Ok t /\
    tree_ok EmptyLeaf hashLR t (leaf_fn EmptyLeaf leaves) /\ Depth t = d.
Proof.
  intros Hl Hd Hs. exists (merkle_tree EmptyLeaf hashLR leaves d).
  split; [by eapply mimc_BuildComplete_ok|]. split; [by apply BuildComplete_ok|].
  split; [by apply merkle_tree_ok|done].
Qed.

(** The builders panic on every other number of leaves, a single leaf
    included (its depth is 0 and the node slices would have length -1). *)
Theorem builders_reject (leaves : list A) bottom upper levels :
  Z.of_nat (length leaves) < 2 ^ 63 ->
  (forall d, (1 <= d)%nat -> length leaves <> (2 ^ d)%nat) ->
  NewTree EmptyLeaf hashLR leaves bottom upper = Panic /\
  BuildComplete EmptyLeaf hashLR leaves = Panic /\
  mimc_BuildComplete EmptyLeaf hashLR leaves levels = Panic.
Proof.
  intros Hmax Hno.
  destruct (negb (IsPowerOfTwo (Z.of_nat (length leaves))) || (length leaves =? 0)%nat) eqn:Hg.
  { unfold NewTree, BuildComplete, mimc_BuildComplete. by rewrite Hg. }
  assert (length leaves = 1%nat) as H1.
  { apply orb_false_iff in Hg as [[d Hd]%negb_false_iff%IsPowerOfTwo_inv _].
    change 2 with (Z.of_nat 2) in Hd. rewrite <- Nat2Z.inj_pow in Hd. apply Nat2Z.inj in Hd.
    destruct d as [|d]; [done|]. by destruct (Hno (S d) ltac:(lia)). }
  unfold NewTree, BuildComplete, mimc_BuildComplete. by rewrite Hg, H1.
Qed.

(** [Verify] of the MiMC tree never panics except on the one path that its
    bound check lets through by mistake: a proof of the right length whose path is
    exactly [2^depth], one past the last leaf. *)
Theorem mimc_Verify_panics (depth : nat) (p : MerkleProof A) leaf root :
  (depth <= 62)%nat ->
  mimc_Verify hashLR depth p leaf root = Panic <->
  Path p = 2 ^ Z.of_nat depth /\ length (Siblings p) = depth.
Proof.
  intros Hd. unfold mimc_Verify, mimc_RecoverRoot. rewrite shl1_pow by done.
  pose proof (recover_idx hashLR leaf (Path p) (Siblings p)) as Hidx.
  pose proof (pow2_pos (Z.of_nat depth) ltac:(lia)).
  destruct (foldl _ _ _) as [c i]. cbn [snd] in Hidx.
  destruct (Z.ltb_spec (2 ^ Z.of_nat depth) (Path p)); [split; [done|lia]|].
  destruct (Z.ltb_spec (Path p) 0); [split; [done|lia]|].
  destruct (Nat.eqb_spec (length (Siblings p)) depth) as [E|E]; cbn [negb]; [|split; [done|lia]].
  rewrite E, Z.shiftr_div_pow2 in Hidx by lia.
  destruct (Z.eqb_spec i 0) as [->|Hne]; cbn [negb].
  - split; [done|]. intros [Hp _]. rewrite Hp, Z.div_same in Hidx by lia. done.
  - split; [|done]. intros _. split; [|done].
    destruct (Z.eq_dec (Path p) (2 ^ Z.of_nat depth)); [done|].
    rewrite Z.div_small in Hidx by lia. done.
Qed.
End Theorems.

(** [parallel.Execute] splits its iterations into consecutive ranges that
    cover each of them exactly once, for any number of processors and any
    [maxCpus]. *)
Theorem Execute_partition gomaxprocs nbIterations maxCpus :
  0 <= nbIterations ->
  mjoin (range_seq <$> Execute_ranges gomaxprocs nbIterations maxCpus)
  = seq 0 (Z.to_nat nbIterations).
Proof. apply Execute_ranges_ok. Qed.

(** ** Witnesses *)

(** A schedule in which every goroutine runs to its end before the next. *)
Lemma sequential_schedule gomaxprocs n d :
  schedule_ok gomaxprocs n d (mjoin (subtree_goroutines gomaxprocs n (subtree_height d)))
    ((fun i => mjoin (level_goroutines gomaxprocs i (n / 2 ^ (i + 1))))
      <$> seq (subtree_height d) (d - 1 - subtree_height d)).
Proof.
  split; [apply interleaving_seq|]. apply Forall2_fmap_r.
  induction (seq _ _) as [|i l IH]; constructor; [apply interleaving_seq|done].
Qed.

Lemma NewTree_any_schedule_witness : exists t,
  NewTree 0 toy_hash [1; 2; 3; 4] [mkWrite 0 1 2; mkWrite 0 0 0] [] = Ok t /\ Depth t = 2%nat.
Proof.
  destruct (NewTree_any_schedule 0 toy_hash 2 [1; 2; 3; 4] 2 [mkWrite 0 1 2; mkWrite 0 0 0] [])
    as (t & Ht & _ & _ & Hd); [reflexivity|lia| |exists t; split; assumption].
  split; [|constructor]. change (subtree_goroutines 2 (length [1; 2; 3; 4]) (subtree_height 2))
    with [[mkWrite 0 0 0]; [mkWrite 0 1 2]].
  apply (interleaving_step _ 1 _ []); [reflexivity|]. apply (interleaving_step _ 0 _ []); [reflexivity|].
  constructor. repeat constructor.
Defined.

Lemma mimc_BuildComplete_any_workers_witness : exists t,
  mimc_BuildComplete 0 toy_hash [1; 2; 3; 4] [[mkWrite 0 1 2; mkWrite 0 0 0]] = Ok t /\ Depth t = 2%nat.
Proof.
  destruct (mimc_BuildComplete_any_workers 0 toy_hash 8 [1; 2; 3; 4] 2 [[mkWrite 0 1 2; mkWrite 0 0 0]])
    as (t & Ht & _ & _ & Hd); [reflexivity|lia| |exists t; split; assumption].
  constructor; [|constructor].
  change ((fun r => level_program 0 (range_seq r)) <$> worker_ranges 8 (2 ^ Z.of_nat (2 - 1 - 0)))
    with [[mkWrite 0 0 0]; [mkWrite 0 1 2]].
  apply (interleaving_step _ 1 _ []); [reflexivity|]. apply (interleaving_step _ 0 _ []); [reflexivity|].
  constructor. repeat constructor.
Defined.

Lemma builders_reject_witness : BuildComplete 0 toy_hash [7] = Panic.
Proof.
  apply (builders_reject 0 toy_hash [7] [] [] []); [cbn; lia|].
  intros d Hd E. cbn in E. destruct d as [|d]; [lia|]. cbn in E.
  pose proof (Nat.pow_nonzero 2 d ltac:(lia)). lia.
Defined.

Lemma mimc_Verify_panics_witness :
  mimc_Verify toy_hash 2 (mkProof 4 [0; 0]) 0 0 = Panic.
Proof. apply (mimc_Verify_panics toy_hash 2 (mkProof 4 [0; 0]) 0 0); [lia|]. split; reflexivity. Defined.

Lemma Execute_partition_witness :
  mjoin (range_seq <$> Execute_ranges 4 10 []) = seq 0 10.
Proof. exact (Execute_partition 4 10 [] ltac:(lia)). Defined.
