(* ===== verification/Octuplet.v ===== *)
(** Octuplets of koalabear elements, their serialization and the Poseidon2
    Merkle-Damgard hasher: [prover/utils/types/field_koalaoctuplet.go], the
    padding and integer formats of [prover/utils/types/common.go], and
    [prover/crypto/poseidon2_koalabear/poseidon2.go].

    The field is the third-party package gnark-crypto: [KoalaField] lists the
    operations the code calls and [KoalaFieldLaws] what their documentation says
    of them, in terms of the canonical value of an element (an integer below the
    modulus).  The compression function [vortex.CompressPoseidon2] is an argument.
    [Digest] and [DigestOrder] are the interface that the accumulator uses. *)
From stdpp Require Import vector.
From S2P Require Import Prelude.

(** ** Interfaces *)

(** [2^31 - 2^24 + 1]. *)
Definition koala_modulus : Z := 2130706433.

Class KoalaField (F : Type) := {
  kf_eq_dec :: EqDecision F;
  kf_val : F -> Z;                              (* the canonical value *)
  kf_zero : F;                                  (* field.Element{} *)
  negativeOne : F;                              (* field.NewFromString("-1") *)
  kf_Bytes : F -> list Z;                       (* Element.Bytes *)
  kf_SetBytesCanonical : list Z -> option F;    (* Element.SetBytesCanonical *)
  kf_Cmp : F -> F -> Z                          (* Element.Cmp *)
}.

Class KoalaFieldLaws (F : Type) `{KoalaField F} : Prop := {
  kf_val_range x : 0 <= kf_val x < koala_modulus;
  kf_val_inj x y : kf_val x = kf_val y -> x = y;
  kf_val_zero : kf_val kf_zero = 0;
  kf_val_negativeOne : kf_val negativeOne = koala_modulus - 1;
  kf_Bytes_spec x : kf_Bytes x = be_bytes 4 (kf_val x);
  kf_SetBytes_some b :
    length b = 4%nat -> Forall is_byte b -> be_value b < koala_modulus ->
    exists x, kf_SetBytesCanonical b = Some x /\ kf_val x = be_value b;
  kf_SetBytes_none b :
    length b = 4%nat -> Forall is_byte b -> koala_modulus <= be_value b ->
    kf_SetBytesCanonical b = None;
  kf_Cmp_spec x y : kf_Cmp x y = Z.sgn (kf_val x - kf_val y)
}.

(** What the accumulator needs of a digest: equality, the zero and the maximal
    digests, and a comparison. *)
Class Digest (O : Type) := {
  d_eq_dec :: EqDecision O;
  d_zero : O;
  d_max : O;
  d_cmp : O -> O -> Z
}.

(** The comparison is the order of an injective numbering. *)
Class DigestOrder (O : Type) `{Digest O} := {
  d_num : O -> Z;
  d_num_inj x y : d_num x = d_num y -> x = y;
  d_cmp_num x y : d_cmp x y = Z.sgn (d_num x - d_num y);
  d_zero_max : d_num d_zero < d_num d_max
}.

(** ** Padding *)

Inductive io_error :=
| ErrLength (n : nat)
| ErrNotCanonical (segment : list Z)
| ErrShortBuffer (n : nat).

(** [LeftPadded]: every two bytes are preceded by two zero bytes. *)
Fixpoint left_padded (b : list Z) : list Z :=
  match b with
  | x :: y :: b => 0 :: 0 :: x :: y :: left_padded b
  | _ => []
  end.

Definition LeftPadded (b : list Z) : outcome io_error (list Z) :=
  if negb (length b mod 2 =? 0)%nat then Panic else Ok (left_padded b).

Definition LeftPadded48Zeros (b : list Z) : outcome io_error (list Z) :=
  if negb (length b =? 16)%nat then Panic else Ok (replicate 48 0 ++ b).

Fixpoint remove_padding (b : list Z) : list Z :=
  match b with
  | _ :: _ :: x :: y :: b => x :: y :: remove_padding b
  | _ => []
  end.

Definition RemovePadding (b : list Z) : outcome io_error (list Z) :=
  if negb (length b mod 4 =? 0)%nat then Panic else Ok (remove_padding b).

Definition Remove48Padding (b : list Z) : outcome io_error (list Z) :=
  if negb (length b =? 64)%nat then Panic else Ok (drop 48 b).

(** The 64 bytes that [WriteInt64On64Bytes] writes. *)
Definition int64_on_64_bytes (x : Z) : outcome io_error (list Z) :=
  p ← LeftPadded (be_bytes 8 (u64 x));
  LeftPadded48Zeros p.

(** [ReadInt64On64Bytes] on the bytes that [r.Read] returned. *)
Definition ReadInt64On64Bytes (buf : list Z) : outcome io_error Z :=
  if negb (length buf =? 64)%nat then Err (ErrShortBuffer (length buf)) else
  d ← Remove48Padding buf;
  data ← RemovePadding d;
  let xU64 := be_value data in
  Ok (i64 (xU64 &&& 0x7fffffffffffffff)).

(** ** Octuplets *)
Section Octuplets.
Context {F : Type} `{KoalaField F}.

Definition Octuplet : Type := vec F 8.

Definition zero_octuplet : Octuplet := vreplicate 8 kf_zero.

Definition MaxKoalaOctuplet : Octuplet := vreplicate 8 negativeOne.

Definition ToBytes (e : Octuplet) : list Z := vec_to_list e ≫= kf_Bytes.

(** The loop of [SetBytes] over the eight segments [b[4*i : 4*i+4]]. *)
Fixpoint set_segments (n : nat) (b : list Z) : outcome io_error (vec F n) :=
  match n with
  | O => Ok [#]
  | S n =>
      match kf_SetBytesCanonical (take 4 b) with
      | None => Err (ErrNotCanonical (take 4 b))
      | Some x => rest ← set_segments n (drop 4 b); Ok (x ::: rest)
      end
  end.

Definition SetBytes (b : list Z) : outcome io_error Octuplet :=
  if negb (length b =? 32)%nat then Err (ErrLength (length b)) else set_segments 8 b.

Definition BytesToKoalaOctuplet (b : list Z) : outcome io_error Octuplet := SetBytes b.

Definition MustBytesToKoalaOctuplet (b : list Z) : outcome io_error Octuplet := must (SetBytes b).

Definition IsMaxOctuplet (e : Octuplet) : bool :=
  forallb (fun x => bool_decide (x = negativeOne)) (vec_to_list e).

Fixpoint cmp_list (a b : list F) : Z :=
  match a, b with
  | x :: a, y :: b => let r := kf_Cmp x y in if negb (r =? 0) then r else cmp_list a b
  | _, _ => 0
  end.

Definition Cmp (e other : Octuplet) : Z := cmp_list (vec_to_list e) (vec_to_list other).

#[export] Instance koala_digest : Digest Octuplet := {
  d_eq_dec := vec_dec;
  d_zero := zero_octuplet;
  d_max := MaxKoalaOctuplet;
  d_cmp := Cmp
}.

(** ** The hasher *)

Definition BlockSize : nat := 8.

Record MDHasher := mkHasher {
  state : Octuplet;
  buffer : list F;
  bufferPosition : Z
}.

Variable CompressPoseidon2 : Octuplet -> Octuplet -> Octuplet.

Definition NewMDHasher : MDHasher := mkHasher zero_octuplet [] 0.

Definition Compress (st block : Octuplet) : Octuplet := CompressPoseidon2 st block.

Definition Reset (d : MDHasher) : MDHasher := mkHasher zero_octuplet (buffer d) 0.

Definition SetStateOctuplet (d : MDHasher) (st : Octuplet) : MDHasher :=
  mkHasher st [] 0.

Definition WriteElements (d : MDHasher) (elmts : list F) : MDHasher :=
  mkHasher (state d) (buffer d ++ elmts) (bufferPosition d).

(** The first [n] elements of a list, zeros past its end. *)
Fixpoint vec_of (n : nat) (l : list F) : vec F n :=
  match n with
  | O => [#]
  | S n => match l with
           | [] => kf_zero ::: vec_of n []
           | x :: l => x ::: vec_of n l
           end
  end.

(** The loop of [SumElement] on what is left of the buffer; a last block that is
    not full is padded with zeros on the left.  Every iteration consumes at least
    one element, so the length of the buffer is enough fuel. *)
Fixpoint sum_loop (fuel : nat) (st : Octuplet) (buf : list F) : Octuplet :=
  match fuel with
  | O => st
  | S fuel =>
      match buf with
      | [] => st
      | _ =>
          let remaining := length buf in
          if (remaining <? BlockSize)%nat
          then CompressPoseidon2 st (vec_of 8 (replicate (BlockSize - remaining) kf_zero ++ buf))
          else sum_loop fuel (CompressPoseidon2 st (vec_of 8 (take BlockSize buf))) (drop BlockSize buf)
      end
  end.

Definition SumElement (d : MDHasher) : MDHasher * Octuplet :=
  let st := sum_loop (length (buffer d)) (state d) (buffer d) in
  (mkHasher st [] (bufferPosition d), st).

(** The state is read by flushing the hasher, which is then restored. *)
Definition GetStateOctuplet (d : MDHasher) : MDHasher * Octuplet :=
  let '(d', _) := SumElement d in
  (mkHasher (state d) (buffer d) (bufferPosition d), state d').

(** The loop of [Write] over the chunks of four bytes. *)
Fixpoint parse_elements (fuel : nat) (p : list Z) : outcome io_error (list F) :=
  match fuel with
  | O => Ok []
  | S fuel =>
      match p with
      | [] => Ok []
      | _ =>
          match kf_SetBytesCanonical (take 4 p) with
          | None => Err (ErrNotCanonical (take 4 p))
          | Some x => rest ← parse_elements fuel (drop 4 p); Ok (x :: rest)
          end
      end
  end.

(** [Write]: the hasher, and the number of bytes written or the error. *)
Definition Write (d : MDHasher) (p : list Z) : MDHasher * outcome io_error nat :=
  if negb (length p mod 4 =? 0)%nat then (d, Err (ErrLength (length p))) else
  match parse_elements (length p) p with
  | Ok elems => (WriteElements d elems, Ok (length p))
  | Err e => (d, Err e)
  | Panic => (d, Panic)
  end.

Definition Sum (d : MDHasher) (msg : list Z) : outcome io_error (MDHasher * list Z) :=
  match Write d msg with
  | (d, Ok _) => let '(d, h) := SumElement d in Ok (d, ToBytes h)
  | _ => Panic
  end.

Definition HashVec (v : list F) : Octuplet := (SumElement (WriteElements NewMDHasher v)).2.

Definition HashBytes (x : list Z) : outcome io_error (list Z) :=
  match Write NewMDHasher x with
  | (d, Ok _) => '(_, b) ← Sum d []; Ok b
  | _ => Panic
  end.

(** [smt_koalabear.hashLR]: the hash of two nodes with a hasher that is reset. *)
Definition hashLR (hasher : MDHasher) (nodeL nodeR : Octuplet) : MDHasher * Octuplet :=
  let hasher := Reset hasher in
  let hasher := WriteElements hasher (vec_to_list nodeL) in
  let hasher := WriteElements hasher (vec_to_list nodeR) in
  SumElement hasher.

(** An [io.WriterTo] as the hasher sees it: what it does to its writer. *)
Class WriterTo (T : Type) := WriteTo : T -> MDHasher -> MDHasher.

(** [accumulator.hash]: the results of [WriteTo] are ignored. *)
Definition hash {T} `{WriterTo T} (m : T) : outcome io_error Octuplet :=
  let hasher := WriteTo m NewMDHasher in
  '(_, digest) ← Sum hasher [];
  must (SetBytes digest).
End Octuplets.
Arguments Octuplet F : clear implicits.
Arguments MDHasher F : clear implicits.
Arguments WriterTo F T : clear implicits.

(** ** Lemmas: padding *)

Lemma length_left_padded b : Nat.Even (length b) -> length (left_padded b) = (2 * length b)%nat.
Proof.
  intros [k Hk]. revert b Hk. induction k as [|k IH]; intros b Hk.
  - by apply nil_length_inv in Hk as ->.
  - destruct b as [|x [|y b]]; cbn in Hk; [lia..|]. cbn. rewrite IH by lia. cbn. lia.
Qed.

Lemma remove_left_padded b : Nat.Even (length b) -> remove_padding (left_padded b) = b.
Proof.
  intros [k Hk]. revert b Hk. induction k as [|k IH]; intros b Hk.
  - by apply nil_length_inv in Hk as ->.
  - destruct b as [|x [|y b]]; cbn in Hk; [lia..|]. cbn. by rewrite IH by lia.
Qed.

Lemma int64_on_64_bytes_ok x :
  int64_on_64_bytes x = Ok (replicate 48 0 ++ left_padded (be_bytes 8 (u64 x))).
Proof.
  unfold int64_on_64_bytes, LeftPadded. rewrite length_be_bytes. cbn [Nat.modulo Nat.divmod fst snd Nat.sub Nat.eqb negb].
  cbn [mbind outcome_bind]. unfold LeftPadded48Zeros.
  rewrite length_left_padded by (rewrite length_be_bytes; by exists 4%nat). rewrite length_be_bytes. done.
Qed.

Lemma ReadInt64_padded z :
  is_u 64 z ->
  ReadInt64On64Bytes (replicate 48 0 ++ left_padded (be_bytes 8 z)) = Ok (i64 (z &&& 0x7fffffffffffffff)).
Proof.
  intros Hz. assert (length (left_padded (be_bytes 8 z)) = 16%nat) as Hl
    by (rewrite length_left_padded by (rewrite length_be_bytes; by exists 4%nat); by rewrite length_be_bytes).
  unfold ReadInt64On64Bytes, Remove48Padding. rewrite length_app, length_replicate, Hl.
  cbn [Nat.add Nat.eqb negb mbind outcome_bind].
  rewrite drop_app_length' by (by rewrite length_replicate). unfold RemovePadding. rewrite Hl.
  cbn [Nat.modulo Nat.divmod fst snd Nat.sub Nat.eqb negb mbind outcome_bind].
  rewrite remove_left_padded by (rewrite length_be_bytes; by exists 4%nat).
  rewrite be_value_be_bytes. change (8 * Z.of_nat 8) with 64. by rewrite Z.mod_small.
Qed.

(** ** Lemmas: octuplets *)
Section OctupletLemmas.
Context {F : Type} `{KF : KoalaField F} `{!KoalaFieldLaws F}.

Lemma length_kf_Bytes x : length (kf_Bytes x) = 4%nat.
Proof. by rewrite kf_Bytes_spec, length_be_bytes. Qed.

Lemma kf_Bytes_bytes x : Forall is_byte (kf_Bytes x).
Proof. rewrite kf_Bytes_spec. apply be_bytes_bytes. Qed.

Lemma be_value_kf_Bytes x : be_value (kf_Bytes x) = kf_val x.
Proof.
  rewrite kf_Bytes_spec, be_value_be_bytes. pose proof (kf_val_range x). unfold koala_modulus in *.
  apply Z.mod_small. change (2 ^ (8 * Z.of_nat 4)) with 4294967296. lia.
Qed.

Lemma SetBytesCanonical_Bytes x : kf_SetBytesCanonical (kf_Bytes x) = Some x.
Proof.
  destruct (kf_SetBytes_some (kf_Bytes x)) as (y & -> & Hy).
  - apply length_kf_Bytes.
  - apply kf_Bytes_bytes.
  - rewrite be_value_kf_Bytes. apply kf_val_range.
  - f_equal. apply kf_val_inj. by rewrite Hy, be_value_kf_Bytes.
Qed.

Lemma Bytes_SetBytesCanonical b x :
  length b = 4%nat -> Forall is_byte b -> kf_SetBytesCanonical b = Some x -> kf_Bytes x = b.
Proof.
  intros Hl Hb Hs. destruct (Z.lt_ge_cases (be_value b) koala_modulus) as [Hlt|Hge].
  - destruct (kf_SetBytes_some b Hl Hb Hlt) as (y & Hy & Hv). simplify_eq.
    rewrite kf_Bytes_spec, Hv, <- Hl. by apply be_bytes_be_value.
  - rewrite kf_SetBytes_none in Hs by done. done.
Qed.

Lemma length_ToBytes (e : Octuplet F) : length (ToBytes e) = 32%nat.
Proof.
  unfold ToBytes. assert (forall l : list F, length (l ≫= kf_Bytes) = (4 * length l)%nat) as Hl.
  { induction l as [|x l IH]; [done|]. rewrite bind_cons, length_app, IH, length_kf_Bytes. cbn. lia. }
  by rewrite Hl, length_vec_to_list.
Qed.

Lemma set_segments_ToBytes n (v : vec F n) rest :
  set_segments n ((vec_to_list v ≫= kf_Bytes) ++ rest) = Ok v.
Proof.
  induction v as [|x n v IH]; [done|]. cbn [vec_to_list]. rewrite bind_cons, <- app_assoc. cbn [set_segments].
  rewrite take_app_le, take_ge by (by rewrite length_kf_Bytes).
  rewrite SetBytesCanonical_Bytes. rewrite drop_app_ge by (by rewrite length_kf_Bytes).
  rewrite length_kf_Bytes, drop_0. by rewrite IH.
Qed.

Lemma SetBytes_ToBytes (e : Octuplet F) : SetBytes (ToBytes e) = Ok e.
Proof.
  unfold SetBytes. rewrite length_ToBytes. cbn [Nat.eqb negb]. unfold ToBytes.
  rewrite <- (app_nil_r (_ ≫= _)). apply set_segments_ToBytes.
Qed.

Lemma set_segments_inv n b (v : vec F n) :
  length b = (4 * n)%nat -> Forall is_byte b -> set_segments n b = Ok v -> (vec_to_list v ≫= kf_Bytes) = b.
Proof.
  revert b v. induction n as [|n IH]; intros b v Hl Hb Hs.
  - apply nil_length_inv in Hl as ->. by inv_vec v.
  - cbn [set_segments] in Hs. destruct (kf_SetBytesCanonical (take 4 b)) as [x|] eqn:Hx; [|done].
    ok_inv Hs. injection Hs as <-. cbn [vec_to_list]. rewrite bind_cons.
    rewrite (Bytes_SetBytesCanonical (take 4 b)); [|rewrite length_take; lia|by apply Forall_take|done].
    rewrite (IH (drop 4 b)); [apply take_drop|rewrite length_drop; lia|by apply Forall_drop|done].
Qed.

(** The number an octuplet denotes, most significant element first. *)
Definition list_num (l : list F) : Z := foldl (fun acc x => acc * koala_modulus + kf_val x) 0 l.
Definition oct_num (e : Octuplet F) : Z := list_num (vec_to_list e).

Lemma list_num_app l x : list_num (l ++ [x]) = list_num l * koala_modulus + kf_val x.
Proof. unfold list_num. by rewrite foldl_app. Qed.

Lemma list_num_cons x l :
  list_num (x :: l) = kf_val x * koala_modulus ^ Z.of_nat (length l) + list_num l.
Proof.
  revert x. induction l as [|y l IH] using rev_ind; intros x.
  - cbn [length]. change (Z.of_nat 0) with 0. rewrite Z.pow_0_r. unfold list_num. cbn [foldl]. lia.
  - change (x :: l ++ [y]) with ((x :: l) ++ [y]). rewrite !list_num_app, IH, length_app. cbn [length].
    rewrite Nat2Z.inj_add, Z.pow_add_r by lia. change (koala_modulus ^ Z.of_nat 1) with koala_modulus. nia.
Qed.

Lemma list_num_range l : 0 <= list_num l < koala_modulus ^ Z.of_nat (length l).
Proof.
  induction l as [|x l IH]; [done|]. rewrite list_num_cons. cbn [length].
  rewrite Nat2Z.inj_succ, Z.pow_succ_r by lia. pose proof (kf_val_range x). unfold koala_modulus in *. nia.
Qed.

Lemma cmp_list_num a b : length a = length b -> cmp_list a b = Z.sgn (list_num a - list_num b).
Proof.
  revert b. induction a as [|x a IH]; intros [|y b] Hl; cbn [length] in Hl; try lia; [done|].
  cbn [cmp_list]. rewrite kf_Cmp_spec, !list_num_cons.
  pose proof (list_num_range a) as Ha. pose proof (list_num_range b) as Hb.
  assert (length a = length b) as Hlen by lia. rewrite <- Hlen in *. set (M := koala_modulus ^ Z.of_nat (length a)) in *.
  destruct (Z.lt_trichotomy (kf_val x) (kf_val y)) as [Hlt|[Heq|Hgt]].
  - rewrite !Z.sgn_neg by nia. done.
  - rewrite Heq, Z.sub_diag. cbn [Z.sgn Z.eqb negb]. rewrite IH by done. f_equal. lia.
  - rewrite !Z.sgn_pos by nia. done.
Qed.

Lemma list_num_inj a b : length a = length b -> list_num a = list_num b -> a = b.
Proof.
  revert b. induction a as [|x a IH]; intros [|y b] Hl Hn; cbn [length] in Hl; try lia; [done|].
  rewrite !list_num_cons in Hn.
  pose proof (list_num_range a) as Ha. pose proof (list_num_range b) as Hb.
  assert (length a = length b) as Hlen by lia. rewrite <- Hlen in *. set (M := koala_modulus ^ Z.of_nat (length a)) in *.
  assert (kf_val x = kf_val y) as Hv by nia.
  f_equal; [by apply kf_val_inj|]. apply IH; [done|]. rewrite Hv in Hn. lia.
Qed.

Lemma list_num_replicate_max n : list_num (replicate n negativeOne) = koala_modulus ^ Z.of_nat n - 1.
Proof.
  induction n as [|n IH]; [done|]. cbn [replicate]. rewrite list_num_cons, IH, length_replicate.
  rewrite kf_val_negativeOne, Nat2Z.inj_succ, Z.pow_succ_r by lia. lia.
Qed.

Lemma list_num_replicate_zero n : list_num (replicate n kf_zero) = 0.
Proof.
  induction n as [|n IH]; [done|]. cbn [replicate]. by rewrite list_num_cons, IH, kf_val_zero.
Qed.

Lemma oct_num_zero : oct_num zero_octuplet = 0.
Proof. unfold oct_num, zero_octuplet. rewrite vec_to_list_replicate. apply list_num_replicate_zero. Qed.

Lemma oct_num_max : oct_num MaxKoalaOctuplet = koala_modulus ^ 8 - 1.
Proof. unfold oct_num, MaxKoalaOctuplet. rewrite vec_to_list_replicate. apply (list_num_replicate_max 8). Qed.

Lemma oct_num_range e : 0 <= oct_num e <= koala_modulus ^ 8 - 1.
Proof.
  unfold oct_num. pose proof (list_num_range (vec_to_list e)) as H. rewrite length_vec_to_list in H.
  change (Z.of_nat 8) with 8 in H. lia.
Qed.

Lemma oct_num_inj e e' : oct_num e = oct_num e' -> e = e'.
Proof.
  intros Hn. apply vec_to_list_inj2, list_num_inj; [by rewrite !length_vec_to_list|done].
Qed.

Lemma Cmp_num e e' : Cmp e e' = Z.sgn (oct_num e - oct_num e').
Proof. apply cmp_list_num. by rewrite !length_vec_to_list. Qed.

Lemma oct_zero_max : oct_num d_zero < oct_num d_max.
Proof.
  change (oct_num zero_octuplet < oct_num MaxKoalaOctuplet). rewrite oct_num_zero, oct_num_max.
  vm_compute. done.
Qed.

#[export] Instance koala_digest_order : DigestOrder (Octuplet F) := {
  d_num := oct_num;
  d_num_inj := oct_num_inj;
  d_cmp_num := Cmp_num;
  d_zero_max := oct_zero_max
}.
End OctupletLemmas.

(** ** Lemmas: the hasher *)
Section HasherLemmas.
Context {F : Type} `{KF : KoalaField F} `{!KoalaFieldLaws F}.
Context (CompressPoseidon2 : Octuplet F -> Octuplet F -> Octuplet F).

Abbreviation loop := (sum_loop CompressPoseidon2).

Lemma vec_of_to_list n (v : vec F n) l : vec_of n (vec_to_list v ++ l) = v.
Proof. induction v as [|x n v IH]; cbn; [done|]. by rewrite IH. Qed.

Lemma vec_of_list n (l : list F) : length l = n -> vec_to_list (vec_of n l) = l.
Proof. intros <-. induction l as [|x l IH]; cbn; [done|]. by rewrite IH. Qed.

Lemma sum_loop_fuel fuel fuel' st buf :
  (length buf <= fuel)%nat -> (length buf <= fuel')%nat -> loop fuel st buf = loop fuel' st buf.
Proof.
  revert fuel' st buf. induction fuel as [|fuel IH]; intros fuel' st buf Hf Hf'.
  - assert (buf = []) as -> by (apply nil_length_inv; lia). by destruct fuel'.
  - destruct fuel' as [|fuel']; [assert (buf = []) as -> by (apply nil_length_inv; lia); done|].
    cbn [sum_loop]. destruct buf as [|x buf]; [done|].
    destruct (Nat.ltb_spec (length (x :: buf)) BlockSize); [done|].
    apply IH; rewrite length_drop; unfold BlockSize in *; cbn [length] in *; lia.
Qed.

(** A full block is compressed first. *)
Lemma sum_loop_block fuel st (b : Octuplet F) rest :
  (8 + length rest <= fuel)%nat ->
  loop fuel st (vec_to_list b ++ rest) = loop fuel (CompressPoseidon2 st b) rest.
Proof.
  intros Hf. destruct fuel as [|fuel]; [lia|]. cbn [sum_loop].
  assert (length (vec_to_list b ++ rest) = (8 + length rest)%nat) as Hl
    by (by rewrite length_app, length_vec_to_list).
  destruct (vec_to_list b ++ rest) as [|x l] eqn:E; [cbn in Hl; lia|]. rewrite <- E in *. clear E x l.
  rewrite Hl. destruct (Nat.ltb_spec (8 + length rest) BlockSize); [unfold BlockSize in *; lia|].
  unfold BlockSize. rewrite take_app_le, take_ge by (rewrite length_vec_to_list; lia).
  rewrite drop_app_ge, length_vec_to_list, drop_0 by (rewrite length_vec_to_list; lia).
  rewrite <- (app_nil_r (vec_to_list b)), vec_of_to_list.
  destruct rest as [|y rest]; [by destruct fuel|].
  apply (sum_loop_fuel fuel (S fuel)); cbn [length] in *; lia.
Qed.

Lemma sum_loop_nil fuel st : loop fuel st [] = st.
Proof. by destruct fuel. Qed.

Lemma sum_loop_blocks fuel st (bs : list (Octuplet F)) rest :
  (length (mjoin (vec_to_list <$> bs) ++ rest) <= fuel)%nat ->
  loop fuel st (mjoin (vec_to_list <$> bs) ++ rest) = loop fuel (foldl CompressPoseidon2 st bs) rest.
Proof.
  revert st. induction bs as [|b bs IH]; intros st Hf; [done|].
  change (mjoin (vec_to_list <$> b :: bs)) with (vec_to_list b ++ mjoin (vec_to_list <$> bs)) in *.
  cbn [foldl]. rewrite <- app_assoc in *.
  rewrite !length_app, length_vec_to_list in Hf.
  rewrite sum_loop_block by (rewrite length_app; lia). apply IH. rewrite length_app. lia.
Qed.

(** A list of elements as full blocks and a shorter rest. *)
Lemma blocks_of (l : list F) :
  exists (bs : list (Octuplet F)) rest, l = mjoin (vec_to_list <$> bs) ++ rest /\ (length rest < 8)%nat /\
    (Nat.modulo (length l) 8 = 0 -> rest = [])%nat.
Proof.
  clear CompressPoseidon2. remember (length l / 8)%nat as n eqn:Hn. revert l Hn. induction n as [|n IH]; intros l Hn.
  - exists [], l. split; [done|]. assert (length l < 8)%nat by golia. split; [done|].
    intros Hm. apply nil_length_inv. golia.
  - assert (8 <= length l)%nat by golia.
    destruct (IH (drop 8 l)) as (bs & rest & Hl & Hr & Hm); [rewrite length_drop; golia|].
    assert (exists b : Octuplet F, vec_to_list b = take 8 l) as [b Hb].
    { exists (vec_of 8 (take 8 l)). apply vec_of_list. rewrite length_take. lia. }
    exists (b :: bs), rest. split_and!; [|done|].
    + change (mjoin (vec_to_list <$> b :: bs)) with (vec_to_list b ++ mjoin (vec_to_list <$> bs)).
      rewrite Hb, <- app_assoc, <- Hl. by rewrite take_drop.
    + intros Hm0. apply Hm. rewrite length_drop. golia.
Qed.

Lemma SumElement_state d :
  (SumElement CompressPoseidon2 d).2 = loop (length (buffer d)) (state d) (buffer d) /\
  state (SumElement CompressPoseidon2 d).1 = (SumElement CompressPoseidon2 d).2 /\
  buffer (SumElement CompressPoseidon2 d).1 = [].
Proof. done. Qed.

Lemma hashLR_ok hasher nodeL nodeR :
  buffer hasher = [] ->
  (hashLR CompressPoseidon2 hasher nodeL nodeR).2
    = CompressPoseidon2 (CompressPoseidon2 zero_octuplet nodeL) nodeR /\
  buffer (hashLR CompressPoseidon2 hasher nodeL nodeR).1 = [].
Proof.
  intros Hb. split; [|done]. unfold hashLR, SumElement, Reset, WriteElements. cbn [state buffer snd].
  rewrite Hb, app_nil_l. rewrite <- (app_nil_r (vec_to_list nodeR)).
  rewrite sum_loop_block by (rewrite !length_app, !length_vec_to_list; cbn; lia).
  rewrite sum_loop_block by (rewrite !length_app, !length_vec_to_list; cbn; lia).
  apply sum_loop_nil.
Qed.

(** The digest that [hash] computes. *)
Definition digest {T} `{WriterTo F T} (m : T) : Octuplet F :=
  (SumElement CompressPoseidon2 (WriteTo m NewMDHasher)).2.

Lemma hash_digest {T} `{WriterTo F T} (m : T) : hash CompressPoseidon2 m = Ok (digest m).
Proof.
  unfold hash, Sum, Write. cbn [length Nat.modulo Nat.divmod fst snd Nat.sub Nat.eqb negb parse_elements].
  unfold WriteElements. rewrite app_nil_r. cbn [mbind outcome_bind].
  destruct (WriteTo m NewMDHasher) as [st buf pos] eqn:E. cbn [state buffer bufferPosition].
  unfold SumElement. cbn [state buffer bufferPosition mbind outcome_bind].
  rewrite SetBytes_ToBytes. cbn [must]. unfold digest. by rewrite E.
Qed.
End HasherLemmas.

(** ** The field of integers modulo the koalabear prime *)

Definition Zk : Type := {z : Z | ((0 <=? z) && (z <? koala_modulus)) = true}.

Lemma Zk_eq (x y : Zk) : `x = `y -> x = y.
Proof.
  destruct x as [x Hx], y as [y Hy]. cbn. intros ->. f_equal. apply (proof_irrel Hx Hy).
Qed.

#[global] Instance Zk_eq_dec : EqDecision Zk.
Proof.
  intros x y. destruct (decide (`x = `y)) as [E|E]; [left; by apply Zk_eq|right; congruence].
Defined.

Definition Zk_of (z : Z) : option Zk :=
  match Sumbool.sumbool_of_bool ((0 <=? z) && (z <? koala_modulus)) with
  | left H => Some (exist _ z H)
  | right _ => None
  end.

#[global] Instance Zk_field : KoalaField Zk := {
  kf_val x := `x;
  kf_zero := exist _ 0 eq_refl;
  negativeOne := exist _ (koala_modulus - 1) eq_refl;
  kf_Bytes x := be_bytes 4 (`x);
  kf_SetBytesCanonical b := if (length b =? 4)%nat then Zk_of (be_value b) else None;
  kf_Cmp x y := Z.sgn (`x - `y)
}.

Lemma be_value_nonneg b : Forall is_byte b -> 0 <= be_value b.
Proof. intros H. unfold be_value. apply le_value_range. by apply Forall_reverse. Qed.

#[global] Instance Zk_laws : KoalaFieldLaws Zk.
Proof.
  split; try done.
  - intros [x Hx]. cbn. lia.
  - apply Zk_eq.
  - intros b Hl Hb Hlt. cbn. rewrite Hl. cbn [Nat.eqb]. unfold Zk_of.
    pose proof (be_value_nonneg b Hb). destruct (Sumbool.sumbool_of_bool _) as [Ht|Hf]; [|lia].
    eexists. split; [done|]. done.
  - intros b Hl Hb Hge. cbn. rewrite Hl. cbn [Nat.eqb]. unfold Zk_of.
    destruct (Sumbool.sumbool_of_bool _) as [Ht|Hf]; [lia|done].
Qed.

(** ** Theorems *)

(** The 64-byte format of non-negative integers is lossless:
    [ReadInt64On64Bytes] returns what [WriteInt64On64Bytes] wrote. *)
Theorem int64_roundtrip (x : Z) :
  0 <= x < 2 ^ 63 ->
  exists b, int64_on_64_bytes x = Ok b /\ length b = 64%nat /\ ReadInt64On64Bytes b = Ok x.
Proof.
  intros Hx. exists (replicate 48 0 ++ left_padded (be_bytes 8 (u64 x))).
  rewrite uwrap_small by (unfold is_u; change (2 ^ 64) with (2 * 2 ^ 63); lia).
  rewrite int64_on_64_bytes_ok.
  rewrite uwrap_small by (unfold is_u; change (2 ^ 64) with (2 * 2 ^ 63); lia). split; [done|].
  split.
  - rewrite length_app, length_replicate, length_left_padded; rewrite length_be_bytes; [done|by exists 4%nat].
  - rewrite ReadInt64_padded by (unfold is_u; change (2 ^ 64) with (2 * 2 ^ 63); lia).
    change 0x7fffffffffffffff with (Z.ones 63). rewrite Z.land_ones, Z.mod_small by lia. f_equal.
    apply swrap_small; [|lia]. unfold is_i. change (64 - 1) with 63. lia.
Qed.

Section Theorems.
Context {F : Type} `{KF : KoalaField F} `{!KoalaFieldLaws F}.
Context (CompressPoseidon2 : Octuplet F -> Octuplet F -> Octuplet F).

(** Octuplets serialize without loss: [SetBytes] reads back the 32 bytes of
    [ToBytes], and every 32 bytes that [SetBytes] accepts are the [ToBytes] of the
    octuplet it returns, so that no two byte strings read as the same octuplet. *)
Theorem octuplet_roundtrip (e : Octuplet F) (b : list Z) :
  SetBytes (ToBytes e) = Ok e /\ length (ToBytes e) = 32%nat /\
  (Forall is_byte b -> SetBytes b = Ok e -> b = ToBytes e).
Proof.
  split; [apply SetBytes_ToBytes|]. split; [apply length_ToBytes|].
  unfold SetBytes. intros Hb Hs. destruct (Nat.eqb_spec (length b) 32) as [Hl|Hl]; [|done].
  cbn [negb] in Hs. symmetry. by apply set_segments_inv.
Qed.

(** [Cmp] is the strict total order of the numbers that octuplets denote in
    base p: it is 0 exactly on equal octuplets, antisymmetric and transitive, the
    zero octuplet is its minimum and [MaxKoalaOctuplet] its maximum, the one that
    [IsMaxOctuplet] recognizes. *)
Theorem Cmp_total_order (a b c : Octuplet F) :
  (Cmp a b = 0 <-> a = b) /\ Cmp a b = - Cmp b a /\
  (Cmp a b = -1 -> Cmp b c = -1 -> Cmp a c = -1) /\
  Cmp zero_octuplet a <= 0 /\ Cmp a MaxKoalaOctuplet <= 0 /\
  (IsMaxOctuplet a = true <-> a = MaxKoalaOctuplet).
Proof.
  clear CompressPoseidon2. rewrite !Cmp_num, oct_num_zero, oct_num_max. pose proof (oct_num_range a). split_and!.
  - rewrite Z.sgn_null_iff. split; [intros; apply oct_num_inj; lia|by intros ->; lia].
  - rewrite <- Z.sgn_opp. f_equal. lia.
  - rewrite !Z.sgn_neg_iff. lia.
  - destruct (Z.eq_dec (oct_num a) 0) as [->|]; [done|]. rewrite Z.sgn_neg by lia. lia.
  - destruct (Z.eq_dec (oct_num a) (koala_modulus ^ 8 - 1)) as [->|]; [by rewrite Z.sub_diag|].
    rewrite Z.sgn_neg by lia. lia.
  - unfold IsMaxOctuplet, MaxKoalaOctuplet. split.
    + intros Hf. apply vec_to_list_inj2. rewrite vec_to_list_replicate. symmetry. apply replicate_as_elem_of.
      split; [apply length_vec_to_list|]. intros x Hx. 
      rewrite forallb_forall in Hf. apply (bool_decide_eq_true_1 _), Hf. by apply list_elem_of_In.
    + intros ->. rewrite vec_to_list_replicate. apply forallb_forall. intros x Hx%list_elem_of_In.
      apply bool_decide_eq_true. by apply elem_of_replicate in Hx as [-> _].
Qed.

(** The hash of two nodes does not depend on what the hasher did before: with
    an empty buffer, as every [hashLR] leaves it, it is the compression of the two
    nodes from the zero state. *)
Theorem hashLR_pure (hasher : MDHasher F) nodeL nodeR nodeL' nodeR' :
  buffer hasher = [] ->
  let '(hasher1, h1) := hashLR CompressPoseidon2 hasher nodeL nodeR in
  let '(_, h2) := hashLR CompressPoseidon2 hasher1 nodeL' nodeR' in
  h1 = CompressPoseidon2 (CompressPoseidon2 zero_octuplet nodeL) nodeR /\
  h2 = CompressPoseidon2 (CompressPoseidon2 zero_octuplet nodeL') nodeR'.
Proof.
  intros Hb. destruct (hashLR_ok CompressPoseidon2 hasher nodeL nodeR Hb) as [H1 H2].
  destruct (hashLR CompressPoseidon2 hasher nodeL nodeR) as [hasher1 h1]. cbn in H1, H2.
  destruct (hashLR_ok CompressPoseidon2 hasher1 nodeL' nodeR' H2) as [H3 _].
  destruct (hashLR CompressPoseidon2 hasher1 nodeL' nodeR') as [hasher2 h2]. by cbn in H3.
Qed.

(** Streaming: summing after a whole number of blocks and going on gives the
    same digest as writing everything before one sum. *)
Theorem SumElement_streaming (d : MDHasher F) (a b : list F) :
  buffer d = [] -> (length a mod 8 = 0)%nat ->
  (SumElement CompressPoseidon2 (WriteElements (SumElement CompressPoseidon2 (WriteElements d a)).1 b)).2
  = (SumElement CompressPoseidon2 (WriteElements d (a ++ b))).2.
Proof.
  intros Hb Ha. destruct (blocks_of a) as (bs & rest & -> & _ & Hr). specialize (Hr Ha). subst rest. clear Ha.
  rewrite app_nil_r. unfold SumElement, WriteElements. cbn [state buffer fst snd]. rewrite Hb, !app_nil_l.
  rewrite <- (app_nil_r (mjoin (vec_to_list <$> bs))) at 1 2.
  rewrite sum_loop_blocks by lia. rewrite sum_loop_nil.
  rewrite sum_loop_blocks by (rewrite ?length_app; cbn [length]; lia).
  apply sum_loop_fuel; rewrite ?length_app; lia.
Qed.

(** [Reset] does not clear the buffer: elements written before a [Reset] and
    not summed yet are hashed with the elements written after it. *)
Theorem Reset_keeps_buffer (st : Octuplet F) (a b : list F) (pos : Z) :
  (SumElement CompressPoseidon2 (WriteElements (Reset (mkHasher st a pos)) b)).2
  = HashVec CompressPoseidon2 (a ++ b).
Proof. done. Qed.

(** [accumulator.hash] is total: for every key, value or leaf opening, and
    whatever its [WriteTo] does to the hasher, the digest of the hasher is
    canonical and [hash] returns it instead of panicking. *)
Theorem hash_total {T} `{WriterTo F T} (m : T) :
  hash CompressPoseidon2 m = Ok (SumElement CompressPoseidon2 (WriteTo m NewMDHasher)).2.
Proof. apply hash_digest. Qed.
End Theorems.

(** ** Witnesses *)

Definition Zk_oct (z : Z) : Octuplet Zk :=
  vreplicate 7 (exist _ 0 eq_refl) +++ [# default (exist _ 0 eq_refl) (Zk_of z)].

Lemma octuplet_roundtrip_witness :
  SetBytes (ToBytes (Zk_oct 77)) = Ok (Zk_oct 77) /\ replicate 31 0 ++ [77] = ToBytes (Zk_oct 77).
Proof.
  destruct (octuplet_roundtrip (Zk_oct 77) (replicate 31 0 ++ [77])) as (H1 & _ & H2).
  split; [exact H1|]. apply H2; [|reflexivity]. apply Forall_app; split; [apply Forall_replicate|apply Forall_singleton]; unfold is_byte; lia.
Defined.

Lemma Cmp_total_order_witness :
  Cmp (Zk_oct 1) (Zk_oct 2) = -1 /\ Cmp (Zk_oct 1) (Zk_oct 3) = -1.
Proof.
  split; [reflexivity|].
  apply (Cmp_total_order (Zk_oct 1) (Zk_oct 2) (Zk_oct 3)); reflexivity.
Defined.

Lemma int64_roundtrip_witness :
  exists b, int64_on_64_bytes 258 = Ok b /\ length b = 64%nat /\ ReadInt64On64Bytes b = Ok 258.
Proof. exact (int64_roundtrip 258 ltac:(done)). Defined.

Lemma hashLR_pure_witness :
  (hashLR (fun st b => st) NewMDHasher (Zk_oct 1) (Zk_oct 2)).2 = zero_octuplet.
Proof. apply (hashLR_pure (fun st b => st) NewMDHasher (Zk_oct 1) (Zk_oct 2) (Zk_oct 1) (Zk_oct 2)); reflexivity. Defined.

Lemma SumElement_streaming_witness :
  (SumElement (fun st b => b) (WriteElements (SumElement (fun st b => b)
     (WriteElements NewMDHasher (vec_to_list (Zk_oct 5)))).1 [exist _ 9 eq_refl])).2 = Zk_oct 9.
Proof.
  rewrite (SumElement_streaming (fun st b => b) NewMDHasher (vec_to_list (Zk_oct 5)) [exist _ 9 eq_refl]
    eq_refl eq_refl). apply vec_to_list_inj2. reflexivity.
Defined.

#[global] Instance WriterTo_octuplet {F} `{KoalaField F} : WriterTo F (Octuplet F) :=
  fun m h => WriteElements h (vec_to_list m).

Lemma hash_total_witness : hash (fun st b => b) (Zk_oct 5) = Ok (Zk_oct 5).
Proof. rewrite (hash_total (fun st b => b) (Zk_oct 5)). reflexivity. Defined.
