(* ===== verification/Accumulator.v ===== *)
(** The accumulator of the state manager:
    [prover/crypto/state-management/accumulator] and the map wrapper
    [prover/utils/collection/mapping.go] it stores its tuples in.

    The accumulator is a map from keys to values, committed in a sparse Merkle
    tree of depth 40: a leaf is the hash of a [LeafOpening], the entries are a
    doubly linked list sorted by hashed key between a head (position 0, key 0) and
    a tail (position 1, maximal key), and every operation of the prover returns a
    trace that a verifier, who only knows the root and the next free position, can
    audit.

    The file is generic in the digests (interface [Digest]), the keys and the
    values, and in the hash functions (interface [AccHash]).  A range over a Go map
    visits the keys in an unspecified order, so the functions that scan the map take
    the order as an argument.  The methods of [VerifierState] update their receiver
    and return an error: they are programs of the monad [verifier], in which an
    error keeps the updates made before it.  A panic is [Panic]. *)
From S2P Require Import Prelude Smt Octuplet.

(** ** [collection.Mapping] *)
Module Mapping.
Section Mapping.
Context {E : Type} {K V : Type} `{Countable K}.
Implicit Types (kv : gmap K V) (key : K).

Definition NewMapping : gmap K V := ∅.

Definition MustGet kv key : outcome E V := unwrap (kv !! key).

Definition TryGet kv key : option V := kv !! key.

Definition InsertNew kv key (value : V) : outcome E (gmap K V) :=
  if decide (is_Some (kv !! key)) then Panic else Ok (<[key := value]> kv).

Definition UpdateEntry kv key (value : V) : gmap K V := <[key := value]> kv.

(** The result of [ListAllKeys], whose order is not specified. *)
Definition ListAllKeys kv (res : list K) : Prop := res ≡ₚ (map_to_list kv).*1.

Definition Exists kv (ks : list K) : bool := forallb (fun k => bool_decide (is_Some (kv !! k))) ks.

Definition MustExists kv (keys : list K) : outcome E unit := assert_ (Exists kv keys).

Definition Del kv key : outcome E (gmap K V) := _ ← MustGet kv key; Ok (delete key kv).

Definition TryDel kv key : gmap K V * bool :=
  if Exists kv [key] then (delete key kv, true) else (kv, false).
End Mapping.
End Mapping.

(** ** Leaf openings *)

Record LeafOpening (O : Type) := mkLeaf {
  Prev : Z;
  Next : Z;
  HKey : O;
  HVal : O
}.
Arguments mkLeaf {O}.
Arguments Prev {O}.
Arguments Next {O}.
Arguments HKey {O}.
Arguments HVal {O}.

#[export] Instance LeafOpening_eq_dec O `{EqDecision O} : EqDecision (LeafOpening O).
Proof. solve_decision. Defined.

Record KVOpeningTuple (O K V : Type) := mkTuple {
  t_LeafOpening : LeafOpening O;
  t_Key : K;
  t_Value : V
}.
Arguments mkTuple {O K V}.
Arguments t_LeafOpening {O K V}.
Arguments t_Key {O K V}.
Arguments t_Value {O K V}.

(** The hash functions of an accumulator, and the zero values of its types. *)
Class AccHash (O K V : Type) `{Digest O} := {
  acc_hashLR : O -> O -> O;
  hashKey : K -> O;
  hashVal : V -> O;
  hashLeaf : LeafOpening O -> O;
  zeroKey : K;
  zeroVal : V
}.

Inductive acc_error :=
| ErrLocation
| ErrRoot
| ErrDeletedValue
| ErrWrongPlace (iInserted expected : Z)
| ErrPointers
| ErrSandwich
| ErrWrongLeaf
| ErrKeyOpening
| ErrValOpening
| ErrMerkle
| ErrAudit
| ErrNewRoot
| ErrNextFreeNode (expected got : Z).

(** ** The traces *)
Section Traces.
Context {O K V : Type}.

Record InsertionTrace := mkInsertion {
  it_Type : Z;
  it_Location : string;
  it_NewNextFreeNode : Z;
  it_OldSubRoot : O;
  it_NewSubRoot : O;
  it_ProofMinus : MerkleProof O;
  it_ProofNew : MerkleProof O;
  it_ProofPlus : MerkleProof O;
  it_Key : K;
  it_Val : V;
  it_OldOpenMinus : LeafOpening O;
  it_OldOpenPlus : LeafOpening O
}.

Record DeletionTrace := mkDeletion {
  dt_Type : Z;
  dt_Location : string;
  dt_NewNextFreeNode : Z;
  dt_OldSubRoot : O;
  dt_NewSubRoot : O;
  dt_ProofMinus : MerkleProof O;
  dt_ProofDeleted : MerkleProof O;
  dt_ProofPlus : MerkleProof O;
  dt_Key : K;
  dt_OldOpenMinus : LeafOpening O;
  dt_DeletedOpen : LeafOpening O;
  dt_OldOpenPlus : LeafOpening O;
  dt_DeletedValue : V
}.

Record UpdateTrace := mkUpdate {
  ut_Type : Z;
  ut_Location : string;
  ut_Key : K;
  ut_OldValue : V;
  ut_NewValue : V;
  ut_NewNextFreeNode : Z;
  ut_OldSubRoot : O;
  ut_NewSubRoot : O;
  ut_OldOpening : LeafOpening O;
  ut_Proof : MerkleProof O
}.

Record ReadZeroTrace := mkReadZero {
  rz_Type : Z;
  rz_Location : string;
  rz_Key : K;
  rz_SubRoot : O;
  rz_NextFreeNode : Z;
  rz_OpeningMinus : LeafOpening O;
  rz_OpeningPlus : LeafOpening O;
  rz_ProofMinus : MerkleProof O;
  rz_ProofPlus : MerkleProof O
}.

Record ReadNonZeroTrace := mkReadNonZero {
  rn_Type : Z;
  rn_Location : string;
  rn_NextFreeNode : Z;
  rn_Key : K;
  rn_Value : V;
  rn_SubRoot : O;
  rn_LeafOpening : LeafOpening O;
  rn_Proof : MerkleProof O
}.

(** The implementations of the interface [Trace]. *)
Inductive Trace :=
| TraceInsertion (t : InsertionTrace)
| TraceDeletion (t : DeletionTrace)
| TraceUpdate (t : UpdateTrace)
| TraceReadZero (t : ReadZeroTrace)
| TraceReadNonZero (t : ReadNonZeroTrace).

Definition RWInt (t : Trace) : Z :=
  match t with
  | TraceInsertion _ | TraceDeletion _ | TraceUpdate _ => 1
  | TraceReadZero _ | TraceReadNonZero _ => 0
  end.
End Traces.
Arguments InsertionTrace : clear implicits.
Arguments DeletionTrace : clear implicits.
Arguments UpdateTrace : clear implicits.
Arguments ReadZeroTrace O K : clear implicits.
Arguments ReadNonZeroTrace : clear implicits.
Arguments Trace : clear implicits.

(** ** The states *)

Record ProverState (O K V : Type) := mkProver {
  p_Location : string;
  p_NextFreeNode : Z;
  p_Tree : Tree O;
  p_Data : gmap Z (KVOpeningTuple O K V)
}.
Arguments mkProver {O K V}.
Arguments p_Location {O K V}.
Arguments p_NextFreeNode {O K V}.
Arguments p_Tree {O K V}.
Arguments p_Data {O K V}.

Record VerifierState (O : Type) := mkVerifier {
  v_Location : string;
  v_NextFreeNode : Z;
  v_SubTreeRoot : O
}.
Arguments mkVerifier {O}.
Arguments v_Location {O}.
Arguments v_NextFreeNode {O}.
Arguments v_SubTreeRoot {O}.

(** ** Programs of the verifier *)
Section Verifier.
Context {O : Type}.

Definition verifier (A : Type) : Type := VerifierState O -> VerifierState O * outcome acc_error A.

#[export] Instance verifier_ret : MRet verifier := fun A a v => (v, Ok a).
#[export] Instance verifier_bind : MBind verifier := fun A B f m v =>
  match m v with
  | (v', Ok a) => f a v'
  | (v', Err e) => (v', Err e)
  | (v', Panic) => (v', Panic)
  end.

Definition get_state : verifier (VerifierState O) := fun v => (v, Ok v).
Definition put_state (v : VerifierState O) : verifier unit := fun _ => (v, Ok tt).

(** [if b { return err }]. *)
Definition reject (b : bool) (e : acc_error) : verifier unit :=
  fun v => (v, if b then Err e else Ok tt).

Definition lift {A} (m : outcome acc_error A) : verifier A := fun v => (v, m).
End Verifier.
Arguments verifier : clear implicits.

(** ** Operations *)
Section Operations.
Context {O K V : Type} `{Digest O} `{!AccHash O K V}.
Implicit Types (leaf : LeafOpening O) (t : KVOpeningTuple O K V) (s : ProverState O K V).

Abbreviation result := (outcome acc_error).

Definition Hash leaf : O := hashLeaf leaf.

Definition Head : LeafOpening O := mkLeaf 0 1 d_zero d_zero.
Definition Tail : LeafOpening O := mkLeaf 0 1 d_max d_zero.

Definition HeadOrTail leaf : bool := bool_decide (HKey leaf = d_max) || bool_decide (HKey leaf = d_zero).

Definition CheckAndLeaf t : result O :=
  if HeadOrTail (t_LeafOpening t) then Ok (Hash (t_LeafOpening t)) else
  if negb (bool_decide (HKey (t_LeafOpening t) = hashKey (t_Key t))) then Err ErrKeyOpening else
  if negb (bool_decide (HVal (t_LeafOpening t) = hashVal (t_Value t))) then Err ErrValOpening else
  Ok (Hash (t_LeafOpening t)).

Definition CopyWithPrev leaf (prev : Z) : LeafOpening O := mkLeaf prev (Next leaf) (HKey leaf) (HVal leaf).
Definition CopyWithNext leaf (next : Z) : LeafOpening O := mkLeaf (Prev leaf) next (HKey leaf) (HVal leaf).

Definition MatchValue leaf (v : V) : bool := bool_decide (HVal leaf = hashVal v).
Definition MatchKey leaf (k : K) : bool := bool_decide (HKey leaf = hashKey k).

Definition tuple_CopyWithPrev t (prev : Z) : KVOpeningTuple O K V :=
  mkTuple (CopyWithPrev (t_LeafOpening t) prev) (t_Key t) (t_Value t).
Definition tuple_CopyWithNext t (next : Z) : KVOpeningTuple O K V :=
  mkTuple (CopyWithNext (t_LeafOpening t) next) (t_Key t) (t_Value t).
Definition CopyWithVal t (val : V) : KVOpeningTuple O K V :=
  let l := t_LeafOpening t in
  mkTuple (mkLeaf (Prev l) (Next l) (HKey l) (hashVal val)) (t_Key t) val.

(** *** The prover *)

(** A call of the tree: its panics are panics. *)
Definition tree_Update (t : Tree O) (i : Z) (leaf : O) : result (Tree O) :=
  must (Smt.Update d_zero acc_hashLR t i leaf).
Definition tree_MustProve (t : Tree O) (i : Z) : result (MerkleProof O) :=
  must (Smt.MustProve d_zero t i).

Definition InitializeProverState (location : string) : result (ProverState O K V) :=
  let tree := NewEmptyTree d_zero acc_hashLR [] in
  tree ← tree_Update tree 0 (Hash Head);
  tree ← tree_Update tree 1 (Hash Tail);
  data ← Mapping.InsertNew Mapping.NewMapping 0 (mkTuple Head zeroKey zeroVal);
  data ← Mapping.InsertNew data 1 (mkTuple Tail zeroKey zeroVal);
  Ok (mkProver location 2 tree data).

Definition SubTreeRoot s : O := Root (p_Tree s).

Fixpoint find_key_loop s (hkey : O) (order : list Z) : result (Z * bool) :=
  match order with
  | [] => Ok (0, false)
  | i :: order =>
      tuple ← Mapping.MustGet (p_Data s) i;
      if bool_decide (hkey = HKey (t_LeafOpening tuple)) then Ok (i, true) else
      find_key_loop s hkey order
  end.

Definition FindKey s (order : list Z) (k : K) : result (Z * bool) :=
  find_key_loop s (hashKey k) order.

Record sandwich := mkSandwich {
  hminus : O;
  iminus : Z;
  hplus : O;
  iplus : Z
}.

Definition sandwich_step s (hkey : O) (w : sandwich) (i : Z) : result sandwich :=
  tuple ← Mapping.MustGet (p_Data s) i;
  let curHkey := HKey (t_LeafOpening tuple) in
  let c := d_cmp curHkey hkey in
  if c =? 0 then Panic else
  if c =? 1 then
    Ok (if d_cmp curHkey (hplus w) =? -1 then mkSandwich (hminus w) (iminus w) curHkey i else w)
  else if c =? -1 then
    Ok (if d_cmp curHkey (hminus w) =? 1 then mkSandwich curHkey i (hplus w) (iplus w) else w)
  else Ok w.

Definition findSandwich s (order : list Z) (k : K) : result (Z * Z) :=
  w ← foldM (sandwich_step s (hashKey k)) (mkSandwich d_zero 0 d_max 1) order;
  if iminus w =? iplus w then Panic else Ok (iminus w, iplus w).

Definition count_changes (old new : LeafOpening O) : Z :=
  (if decide (HVal old = HVal new) then 0 else 1)
  + (if Prev old =? Prev new then 0 else 1)
  + (if Next old =? Next new then 0 else 1).

Definition upsertTuple s (i : Z) t : result (ProverState O K V * MerkleProof O) :=
  leaf ← must (CheckAndLeaf t);
  _ ← match Mapping.TryGet (p_Data s) i with
      | Some old =>
          _ ← must (CheckAndLeaf old);
          _ ← assert_ (bool_decide (HKey (t_LeafOpening old) = HKey (t_LeafOpening t)));
          assert_ (count_changes (t_LeafOpening old) (t_LeafOpening t) =? 1)
      | None => Ok tt
      end;
  let data := Mapping.UpdateEntry (p_Data s) i t in
  tree ← tree_Update (p_Tree s) i leaf;
  proof ← tree_MustProve tree i;
  Ok (mkProver (p_Location s) (p_NextFreeNode s) tree data, proof).

Definition rmTuple s (i : Z) : result (ProverState O K V * MerkleProof O) :=
  _ ← Mapping.MustExists (p_Data s) [i];
  data ← Mapping.Del (p_Data s) i;
  tree ← tree_Update (p_Tree s) i d_zero;
  proof ← tree_MustProve tree i;
  Ok (mkProver (p_Location s) (p_NextFreeNode s) tree data, proof).

Definition InsertAndProve s (order1 order2 : list Z) (key : K) (val : V) :
    result (ProverState O K V * InsertionTrace O K V) :=
  '(_, found) ← FindKey s order1 key;
  if (found : bool) then Panic else
  '(iMinus, iPlus) ← findSandwich s order2 key;
  tupleMinus ← Mapping.MustGet (p_Data s) iMinus;
  tuplePlus ← Mapping.MustGet (p_Data s) iPlus;
  let iInserted := p_NextFreeNode s in
  '(s1, proofMinus) ← upsertTuple s iMinus (tuple_CopyWithNext tupleMinus iInserted);
  let insertedTuple := mkTuple (mkLeaf iMinus iPlus (hashKey key) (hashVal val)) key val in
  '(s2, proofNew) ← upsertTuple s1 iInserted insertedTuple;
  '(s3, proofPlus) ← upsertTuple s2 iPlus (tuple_CopyWithPrev tuplePlus iInserted);
  let s4 := mkProver (p_Location s3) (i64 (p_NextFreeNode s3 + 1)) (p_Tree s3) (p_Data s3) in
  Ok (s4, {| it_Type := 0; it_Location := p_Location s;
             it_NewNextFreeNode := i64 (p_NextFreeNode s + 1);
             it_OldSubRoot := SubTreeRoot s; it_NewSubRoot := SubTreeRoot s4;
             it_ProofMinus := proofMinus; it_ProofNew := proofNew; it_ProofPlus := proofPlus;
             it_Key := key; it_Val := val;
             it_OldOpenMinus := t_LeafOpening tupleMinus;
             it_OldOpenPlus := t_LeafOpening tuplePlus |}).

Definition DeleteAndProve s (order : list Z) (key : K) :
    result (ProverState O K V * DeletionTrace O K V) :=
  '(i, found) ← FindKey s order key;
  if negb found then Panic else
  tuple ← Mapping.MustGet (p_Data s) i;
  let iMinus := Prev (t_LeafOpening tuple) in
  let iPlus := Next (t_LeafOpening tuple) in
  tupleMinus ← Mapping.MustGet (p_Data s) iMinus;
  tuplePlus ← Mapping.MustGet (p_Data s) iPlus;
  '(s1, proofMinus) ← upsertTuple s iMinus (tuple_CopyWithNext tupleMinus iPlus);
  '(s2, proofDeleted) ← rmTuple s1 i;
  '(s3, proofPlus) ← upsertTuple s2 iPlus (tuple_CopyWithPrev tuplePlus iMinus);
  Ok (s3, {| dt_Type := 0; dt_Location := p_Location s;
             dt_NewNextFreeNode := p_NextFreeNode s;
             dt_OldSubRoot := SubTreeRoot s; dt_NewSubRoot := SubTreeRoot s3;
             dt_ProofMinus := proofMinus; dt_ProofDeleted := proofDeleted; dt_ProofPlus := proofPlus;
             dt_Key := key;
             dt_OldOpenMinus := t_LeafOpening tupleMinus;
             dt_DeletedOpen := t_LeafOpening tuple;
             dt_OldOpenPlus := t_LeafOpening tuplePlus;
             dt_DeletedValue := t_Value tuple |}).

Definition UpdateAndProve s (order : list Z) (key : K) (newVal : V) :
    result (ProverState O K V * UpdateTrace O K V) :=
  '(i, found) ← FindKey s order key;
  if negb found then Panic else
  tuple ← Mapping.MustGet (p_Data s) i;
  if negb (bool_decide (hashKey key = hashKey (t_Key tuple))) then Panic else
  let oldRoot := SubTreeRoot s in
  let oldOpening := t_LeafOpening tuple in
  let oldValue := t_Value tuple in
  let tuple := mkTuple (mkLeaf (Prev oldOpening) (Next oldOpening) (HKey oldOpening) (hashVal newVal))
                       (t_Key tuple) newVal in
  let data := Mapping.UpdateEntry (p_Data s) i tuple in
  let newLeaf := Hash (t_LeafOpening tuple) in
  tree ← tree_Update (p_Tree s) i newLeaf;
  let s' := mkProver (p_Location s) (p_NextFreeNode s) tree data in
  proof ← tree_MustProve tree i;
  Ok (s', {| ut_Type := 0; ut_Location := p_Location s; ut_Key := t_Key tuple;
             ut_OldValue := oldValue; ut_NewValue := newVal;
             ut_NewNextFreeNode := p_NextFreeNode s;
             ut_OldSubRoot := oldRoot; ut_NewSubRoot := SubTreeRoot s';
             ut_OldOpening := oldOpening; ut_Proof := proof |}).

Definition ReadZeroAndProve s (order1 order2 : list Z) (key : K) : result (ReadZeroTrace O K) :=
  '(_, found) ← FindKey s order1 key;
  if (found : bool) then Panic else
  '(iMinus, iPlus) ← findSandwich s order2 key;
  dataMinus ← Mapping.MustGet (p_Data s) iMinus;
  dataPlus ← Mapping.MustGet (p_Data s) iPlus;
  proofMinus ← tree_MustProve (p_Tree s) iMinus;
  proofPlus ← tree_MustProve (p_Tree s) iPlus;
  Ok {| rz_Type := 0; rz_Location := p_Location s; rz_Key := key; rz_SubRoot := SubTreeRoot s;
        rz_NextFreeNode := p_NextFreeNode s;
        rz_OpeningMinus := t_LeafOpening dataMinus; rz_OpeningPlus := t_LeafOpening dataPlus;
        rz_ProofMinus := proofMinus; rz_ProofPlus := proofPlus |}.

Definition ReadNonZeroAndProve s (order : list Z) (key : K) : result (ReadNonZeroTrace O K V) :=
  '(i, found) ← FindKey s order key;
  if negb found then Panic else
  tuple ← Mapping.MustGet (p_Data s) i;
  if negb (bool_decide (hashKey key = hashKey (t_Key tuple))) then Panic else
  proof ← tree_MustProve (p_Tree s) i;
  Ok {| rn_Type := 0; rn_Location := p_Location s; rn_NextFreeNode := p_NextFreeNode s;
        rn_Key := t_Key tuple; rn_Value := t_Value tuple; rn_SubRoot := SubTreeRoot s;
        rn_LeafOpening := t_LeafOpening tuple; rn_Proof := proof |}.

(** *** The verifier *)

Definition p_VerifierState s : VerifierState O :=
  mkVerifier (p_Location s) (p_NextFreeNode s) (Root (p_Tree s)).

(** A Merkle proof verified inside a program of the verifier. *)
Definition merkle_check (proof : MerkleProof O) (leaf root : O) (e : acc_error) : result unit :=
  map_err (fun _ => e) (Smt.Verify acc_hashLR proof leaf root).

Definition updateCheckRoot (proof : MerkleProof O) (root old new : O) : result O :=
  _ ← merkle_check proof old root ErrAudit;
  match RecoverRoot acc_hashLR proof new with
  | Ok newRootOct => Ok newRootOct
  | Err _ => Ok d_zero
  | Panic => Panic
  end.

Definition neq {A} `{EqDecision A} (x y : A) : bool := negb (bool_decide (x = y)).

Definition VerifyInsertion (trace : InsertionTrace O K V) : verifier O unit :=
  v ← get_state;
  _ ← reject (neq (v_Location v) (it_Location trace)) ErrLocation;
  _ ← reject (neq (v_SubTreeRoot v) (it_OldSubRoot trace)) ErrRoot;
  let iMinus := Path (it_ProofMinus trace) in
  let iInserted := Path (it_ProofNew trace) in
  let iPlus := Path (it_ProofPlus trace) in
  _ ← reject (neq iInserted (v_NextFreeNode v)) (ErrWrongPlace iInserted (v_NextFreeNode v));
  _ ← reject (neq (Next (it_OldOpenMinus trace)) iPlus || neq (Prev (it_OldOpenPlus trace)) iMinus) ErrPointers;
  let hkey := hashKey (it_Key trace) in
  _ ← reject ((d_cmp hkey (HKey (it_OldOpenMinus trace)) <? 1)
              || (-1 <? d_cmp hkey (HKey (it_OldOpenPlus trace)))) ErrSandwich;
  let currentRoot := it_OldSubRoot trace in
  let oldLeafMinus := Hash (it_OldOpenMinus trace) in
  let newLeafMinus := Hash (CopyWithNext (it_OldOpenMinus trace) (v_NextFreeNode v)) in
  currentRoot ← lift (updateCheckRoot (it_ProofMinus trace) currentRoot oldLeafMinus newLeafMinus);
  let newLeaf := Hash (mkLeaf (Path (it_ProofMinus trace)) (Path (it_ProofPlus trace)) hkey
                              (hashVal (it_Val trace))) in
  currentRoot ← lift (updateCheckRoot (it_ProofNew trace) currentRoot d_zero newLeaf);
  let oldLeafPlus := Hash (it_OldOpenPlus trace) in
  let newLeafPlus := Hash (CopyWithPrev (it_OldOpenPlus trace) iInserted) in
  currentRoot ← lift (updateCheckRoot (it_ProofPlus trace) currentRoot oldLeafPlus newLeafPlus);
  _ ← reject (neq currentRoot (it_NewSubRoot trace)) ErrNewRoot;
  let v' := mkVerifier (v_Location v) (i64 (v_NextFreeNode v + 1)) currentRoot in
  _ ← put_state v';
  reject (neq (v_NextFreeNode v') (it_NewNextFreeNode trace))
         (ErrNextFreeNode (v_NextFreeNode v') (it_NewNextFreeNode trace)).

Definition VerifyDeletion (trace : DeletionTrace O K V) : verifier O unit :=
  v ← get_state;
  _ ← reject (neq (v_Location v) (dt_Location trace)) ErrLocation;
  _ ← reject (neq (v_SubTreeRoot v) (dt_OldSubRoot trace)) ErrRoot;
  let hVal := hashVal (dt_DeletedValue trace) in
  _ ← reject (neq hVal (HVal (dt_DeletedOpen trace))) ErrDeletedValue;
  let iMinus := Path (dt_ProofMinus trace) in
  let iDeleted := Path (dt_ProofDeleted trace) in
  let iPlus := Path (dt_ProofPlus trace) in
  _ ← reject (neq (Next (dt_OldOpenMinus trace)) iDeleted || neq (Prev (dt_DeletedOpen trace)) iMinus) ErrPointers;
  _ ← reject (neq (Next (dt_DeletedOpen trace)) iPlus || neq (Prev (dt_OldOpenPlus trace)) iDeleted) ErrPointers;
  _ ← reject (negb (MatchKey (dt_DeletedOpen trace) (dt_Key trace))) ErrWrongLeaf;
  let currentRoot := dt_OldSubRoot trace in
  let oldLeafMinus := Hash (dt_OldOpenMinus trace) in
  let newLeafMinus := Hash (CopyWithNext (dt_OldOpenMinus trace) iPlus) in
  currentRoot ← lift (updateCheckRoot (dt_ProofMinus trace) currentRoot oldLeafMinus newLeafMinus);
  let deletedLeaf := hashLeaf (dt_DeletedOpen trace) in
  currentRoot ← lift (updateCheckRoot (dt_ProofDeleted trace) currentRoot deletedLeaf d_zero);
  let oldLeafPlus := Hash (dt_OldOpenPlus trace) in
  let newLeafPlus := Hash (CopyWithPrev (dt_OldOpenPlus trace) iMinus) in
  currentRoot ← lift (updateCheckRoot (dt_ProofPlus trace) currentRoot oldLeafPlus newLeafPlus);
  _ ← reject (neq currentRoot (dt_NewSubRoot trace)) ErrNewRoot;
  _ ← reject (neq (v_NextFreeNode v) (dt_NewNextFreeNode trace))
             (ErrNextFreeNode (v_NextFreeNode v) (dt_NewNextFreeNode trace));
  put_state (mkVerifier (v_Location v) (v_NextFreeNode v) currentRoot).

Definition UpdateVerify (trace : UpdateTrace O K V) : verifier O unit :=
  v ← get_state;
  _ ← reject (neq (v_Location v) (ut_Location trace)) ErrLocation;
  _ ← reject (neq (v_SubTreeRoot v) (ut_OldSubRoot trace)) ErrRoot;
  let tuple := mkTuple (ut_OldOpening trace) (ut_Key trace) (ut_OldValue trace) in
  leaf ← lift (CheckAndLeaf tuple);
  _ ← lift (merkle_check (ut_Proof trace) leaf (ut_OldSubRoot trace) ErrMerkle);
  let l := ut_OldOpening trace in
  let newLeaf := hashLeaf (mkLeaf (Prev l) (Next l) (HKey l) (hashVal (ut_NewValue trace))) in
  newRoot ← lift (updateCheckRoot (ut_Proof trace) (ut_OldSubRoot trace) leaf newLeaf);
  _ ← reject (neq newRoot (ut_NewSubRoot trace)) ErrNewRoot;
  _ ← reject (neq (v_NextFreeNode v) (ut_NewNextFreeNode trace))
             (ErrNextFreeNode (v_NextFreeNode v) (ut_NewNextFreeNode trace));
  put_state (mkVerifier (v_Location v) (v_NextFreeNode v) (ut_NewSubRoot trace)).

Definition ReadZeroVerify (trace : ReadZeroTrace O K) : verifier O unit :=
  v ← get_state;
  _ ← reject (neq (v_Location v) (rz_Location trace)) ErrLocation;
  _ ← reject (neq (v_SubTreeRoot v) (rz_SubRoot trace)) ErrRoot;
  let iMinus := Path (rz_ProofMinus trace) in
  let iPlus := Path (rz_ProofPlus trace) in
  _ ← reject (neq (Next (rz_OpeningMinus trace)) iPlus || neq (Prev (rz_OpeningPlus trace)) iMinus) ErrPointers;
  let hkey := hashKey (rz_Key trace) in
  _ ← reject ((d_cmp hkey (HKey (rz_OpeningMinus trace)) <? 1)
              || (-1 <? d_cmp hkey (HKey (rz_OpeningPlus trace)))) ErrSandwich;
  let leafMinus := hashLeaf (rz_OpeningMinus trace) in
  _ ← lift (merkle_check (rz_ProofMinus trace) leafMinus (rz_SubRoot trace) ErrMerkle);
  let leafPlus := hashLeaf (rz_OpeningPlus trace) in
  _ ← lift (merkle_check (rz_ProofPlus trace) leafPlus (rz_SubRoot trace) ErrMerkle);
  reject (neq (v_NextFreeNode v) (rz_NextFreeNode trace))
         (ErrNextFreeNode (v_NextFreeNode v) (rz_NextFreeNode trace)).

Definition ReadNonZeroVerify (trace : ReadNonZeroTrace O K V) : verifier O unit :=
  v ← get_state;
  _ ← reject (neq (v_Location v) (rn_Location trace)) ErrLocation;
  _ ← reject (neq (v_SubTreeRoot v) (rn_SubRoot trace)) ErrRoot;
  let tuple := mkTuple (rn_LeafOpening trace) (rn_Key trace) (rn_Value trace) in
  leaf ← lift (CheckAndLeaf tuple);
  _ ← lift (merkle_check (rn_Proof trace) leaf (rn_SubRoot trace) ErrMerkle);
  reject (neq (v_NextFreeNode v) (rn_NextFreeNode trace))
         (ErrNextFreeNode (v_NextFreeNode v) (rn_NextFreeNode trace)).

(** *** Deferred Merkle checks *)

Definition deferCheckUpdateRoot (proof : MerkleProof O) (root old new : O) (appendTo : list (ProvedClaim O)) :
    result (list (ProvedClaim O) * O) :=
  newRoot ← must (RecoverRoot acc_hashLR proof new);
  Ok (appendTo ++ [mkProvedClaim proof root old; mkProvedClaim proof newRoot new], newRoot).

(** The leaf of [CheckAndLeaf] when its error is ignored. *)
Definition leaf_or_zero t : O := match CheckAndLeaf t with Ok leaf => leaf | _ => d_zero end.

Definition insertion_DeferMerkleChecks (trace : InsertionTrace O K V) (appendTo : list (ProvedClaim O)) :
    result (list (ProvedClaim O)) :=
  let iInserted := Path (it_ProofNew trace) in
  let hkey := hashKey (it_Key trace) in
  '(appendTo, currentRoot) ← deferCheckUpdateRoot (it_ProofMinus trace) (it_OldSubRoot trace)
     (Hash (it_OldOpenMinus trace)) (Hash (CopyWithNext (it_OldOpenMinus trace) iInserted)) appendTo;
  let newLeaf := Hash (mkLeaf (Path (it_ProofMinus trace)) (Path (it_ProofPlus trace)) hkey
                              (hashVal (it_Val trace))) in
  '(appendTo, currentRoot) ← deferCheckUpdateRoot (it_ProofNew trace) currentRoot d_zero newLeaf appendTo;
  '(appendTo, _) ← deferCheckUpdateRoot (it_ProofPlus trace) currentRoot
     (Hash (it_OldOpenPlus trace)) (Hash (CopyWithPrev (it_OldOpenPlus trace) iInserted)) appendTo;
  Ok appendTo.

Definition deletion_DeferMerkleChecks (trace : DeletionTrace O K V) (appendTo : list (ProvedClaim O)) :
    result (list (ProvedClaim O)) :=
  let iMinus := Path (dt_ProofMinus trace) in
  let iPlus := Path (dt_ProofPlus trace) in
  '(appendTo, currentRoot) ← deferCheckUpdateRoot (dt_ProofMinus trace) (dt_OldSubRoot trace)
     (Hash (dt_OldOpenMinus trace)) (Hash (CopyWithNext (dt_OldOpenMinus trace) iPlus)) appendTo;
  '(appendTo, currentRoot) ← deferCheckUpdateRoot (dt_ProofDeleted trace) currentRoot
     (hashLeaf (dt_DeletedOpen trace)) d_zero appendTo;
  '(appendTo, _) ← deferCheckUpdateRoot (dt_ProofPlus trace) currentRoot
     (Hash (dt_OldOpenPlus trace)) (Hash (CopyWithPrev (dt_OldOpenPlus trace) iMinus)) appendTo;
  Ok appendTo.

Definition update_DeferMerkleChecks (trace : UpdateTrace O K V) (appendTo : list (ProvedClaim O)) :
    result (list (ProvedClaim O)) :=
  let leaf := leaf_or_zero (mkTuple (ut_OldOpening trace) (ut_Key trace) (ut_OldValue trace)) in
  let l := ut_OldOpening trace in
  let newLeaf := hashLeaf (mkLeaf (Prev l) (Next l) (HKey l) (hashVal (ut_NewValue trace))) in
  '(appendTo, _) ← deferCheckUpdateRoot (ut_Proof trace) (ut_OldSubRoot trace) leaf newLeaf appendTo;
  Ok appendTo.

Definition readzero_DeferMerkleChecks (trace : ReadZeroTrace O K) (appendTo : list (ProvedClaim O)) :
    result (list (ProvedClaim O)) :=
  let leafMinus := hashLeaf (rz_OpeningMinus trace) in
  let leafPlus := hashLeaf (rz_OpeningPlus trace) in
  let appendTo := appendTo ++ [mkProvedClaim (rz_ProofMinus trace) (rz_SubRoot trace) leafMinus] in
  Ok (appendTo ++ [mkProvedClaim (rz_ProofPlus trace) (rz_SubRoot trace) leafPlus]).

Definition readnonzero_DeferMerkleChecks (trace : ReadNonZeroTrace O K V) (appendTo : list (ProvedClaim O)) :
    result (list (ProvedClaim O)) :=
  let leaf := leaf_or_zero (mkTuple (rn_LeafOpening trace) (rn_Key trace) (rn_Value trace)) in
  Ok (appendTo ++ [mkProvedClaim (rn_Proof trace) (rn_SubRoot trace) leaf]).

(** *** The interface [Trace] *)

Definition DeferMerkleChecks (trace : Trace O K V) (appendTo : list (ProvedClaim O)) :
    result (list (ProvedClaim O)) :=
  match trace with
  | TraceInsertion t => insertion_DeferMerkleChecks t appendTo
  | TraceDeletion t => deletion_DeferMerkleChecks t appendTo
  | TraceUpdate t => update_DeferMerkleChecks t appendTo
  | TraceReadZero t => readzero_DeferMerkleChecks t appendTo
  | TraceReadNonZero t => readnonzero_DeferMerkleChecks t appendTo
  end.

Definition trace_HKey (trace : Trace O K V) : O :=
  match trace with
  | TraceInsertion t => hashKey (it_Key t)
  | TraceDeletion t => HKey (dt_DeletedOpen t)
  | TraceUpdate t => hashKey (ut_Key t)
  | TraceReadZero t => hashKey (rz_Key t)
  | TraceReadNonZero t => hashKey (rn_Key t)
  end.

(** The verifier's method for each kind of trace. *)
Definition verify_trace (trace : Trace O K V) : verifier O unit :=
  match trace with
  | TraceInsertion t => VerifyInsertion t
  | TraceDeletion t => VerifyDeletion t
  | TraceUpdate t => UpdateVerify t
  | TraceReadZero t => ReadZeroVerify t
  | TraceReadNonZero t => ReadNonZeroVerify t
  end.
End Operations.
Arguments sandwich : clear implicits.
