(* ===== verification/AccInvariant.v ===== *)
(** The invariant of the accumulator, and that the operations on its data keep
    it.

    [links_ok] says of the map of tuples that its entries are a doubly linked list
    sorted by hashed key between the head and the tail; [acc_ok] adds that the
    Merkle tree commits to exactly these entries.  [content] is the abstract view
    of an accumulator, a finite map from (the numbers of) hashed keys to values. *)
From S2P Require Import Prelude Smt Octuplet Accumulator.

Section Links.
Context {O K V : Type} `{DO : DigestOrder O} `{HA : !AccHash O K V}.
Implicit Types (d : gmap Z (KVOpeningTuple O K V)) (t : KVOpeningTuple O K V).

Abbreviation open t := (t_LeafOpening t).
Abbreviation prev t := (Prev (t_LeafOpening t)).
Abbreviation next t := (Next (t_LeafOpening t)).

(** The number of the hashed key of a tuple. *)
Definition hk t : Z := d_num (HKey (t_LeafOpening t)).

(** No entry has a hashed key strictly between two numbers. *)
Definition gap d (a b : Z) : Prop := forall k t, d !! k = Some t -> hk t <= a \/ b <= hk t.

Record links_ok d : Prop := {
  lk_head : exists t, d !! 0 = Some t /\ HKey (open t) = d_zero /\ prev t = 0;
  lk_tail : exists t, d !! 1 = Some t /\ HKey (open t) = d_max /\ next t = 1;
  lk_range : forall i t, d !! i = Some t -> d_num d_zero <= hk t <= d_num d_max;
  lk_inj : forall i j ti tj, d !! i = Some ti -> d !! j = Some tj -> hk ti = hk tj -> i = j;
  lk_next : forall i t, d !! i = Some t -> i <> 1 ->
    exists tn, d !! next t = Some tn /\ prev tn = i /\ hk t < hk tn /\ gap d (hk t) (hk tn);
  lk_prev : forall i t, d !! i = Some t -> i <> 0 ->
    exists tp, d !! prev t = Some tp /\ next tp = i /\ prev t <> 1;
  lk_tuple : forall i t, d !! i = Some t -> i <> 0 -> i <> 1 ->
    HKey (open t) = hashKey (t_Key t) /\ HVal (open t) = hashVal (t_Value t)
}.

(** ** Basic facts *)

Lemma hk_eq t t' : hk t = hk t' <-> HKey (open t) = HKey (open t').
Proof. unfold hk. split; [apply d_num_inj|by intros ->]. Qed.

Lemma links_head d : links_ok d -> exists t, d !! 0 = Some t /\ hk t = d_num d_zero /\ prev t = 0.
Proof. intros (t & Ht & Hk & Hp)%lk_head. exists t. unfold hk. by rewrite Hk. Qed.

Lemma links_tail d : links_ok d -> exists t, d !! 1 = Some t /\ hk t = d_num d_max /\ next t = 1.
Proof. intros (t & Ht & Hk & Hp)%lk_tail. exists t. unfold hk. by rewrite Hk. Qed.

(** The predecessor of an entry. *)
Lemma links_pred d i t :
  links_ok d -> d !! i = Some t -> i <> 0 ->
  exists tp, d !! prev t = Some tp /\ next tp = i /\ prev t <> 1 /\ hk tp < hk t /\ gap d (hk tp) (hk t).
Proof.
  intros Hd Ht Hi. destruct (lk_prev d Hd i t Ht Hi) as (tp & Hp & Hn & H1). exists tp.
  destruct (lk_next d Hd _ _ Hp H1) as (tn & Hn' & Hpn & Hlt & Hg). rewrite Hn in Hn'. naive_solver.
Qed.

(** An entry strictly below the maximum is not the tail, and one strictly above
    the minimum is not the head. *)
Lemma links_not_tail d i t : links_ok d -> d !! i = Some t -> hk t < d_num d_max -> i <> 1.
Proof. intros Hd Ht Hlt ->. destruct (links_tail d Hd) as (t1 & H1 & Hk & _). naive_solver lia. Qed.

Lemma links_not_head d i t : links_ok d -> d !! i = Some t -> d_num d_zero < hk t -> i <> 0.
Proof. intros Hd Ht Hlt ->. destruct (links_head d Hd) as (t0 & H0 & Hk & _). naive_solver lia. Qed.

Lemma links_inner d i t :
  links_ok d -> d !! i = Some t -> i <> 0 -> i <> 1 -> d_num d_zero < hk t < d_num d_max.
Proof.
  intros Hd Ht H0 H1. destruct (links_head d Hd) as (t0 & Ht0 & Hk0 & _), (links_tail d Hd) as (t1 & Ht1 & Hk1 & _).
  pose proof (lk_range d Hd _ _ Ht). destruct (decide (hk t = hk t0)) as [E|E].
  { by pose proof (lk_inj d Hd _ _ _ _ Ht Ht0 E). }
  destruct (decide (hk t = hk t1)) as [E1|E1]; [by pose proof (lk_inj d Hd _ _ _ _ Ht Ht1 E1)|]. lia.
Qed.

(** ** Changing a value *)

Lemma links_set_value d i t (v : V) :
  links_ok d -> d !! i = Some t -> i <> 0 -> i <> 1 -> links_ok (<[i := CopyWithVal t v]> d).
Proof.
  intros Hd Ht H0 H1.
  assert (forall k t', <[i := CopyWithVal t v]> d !! k = Some t' ->
    exists t0, d !! k = Some t0 /\ hk t' = hk t0 /\ prev t' = prev t0 /\ next t' = next t0) as Hold.
  { intros k t' [[<- <-]|[Hne Hk]]%lookup_insert_Some; eauto 10. }
  assert (forall k t0, d !! k = Some t0 ->
    exists t', <[i := CopyWithVal t v]> d !! k = Some t' /\ HKey (open t') = HKey (open t0) /\ prev t' = prev t0 /\ next t' = next t0) as Hnew.
  { intros k t0 Hk. destruct (decide (k = i)) as [->|Hne].
    - rewrite lookup_insert_eq. simplify_eq. eauto 10.
    - rewrite lookup_insert_ne by done. eauto 10. }
  assert (forall k t0 t', <[i := CopyWithVal t v]> d !! k = Some t' -> HKey (open t') = HKey (open t0) -> hk t' = hk t0) as Hh
    by (intros k t0 t' _ E; by apply hk_eq).
  constructor.
  - destruct (lk_head d Hd) as (t0 & Hk & Hz & Hp). destruct (Hnew _ _ Hk) as (t' & ? & ? & ? & ?).
    exists t'. naive_solver congruence.
  - destruct (lk_tail d Hd) as (t0 & Hk & Hz & Hp). destruct (Hnew _ _ Hk) as (t' & ? & ? & ? & ?).
    exists t'. naive_solver congruence.
  - intros k t' Hk. destruct (Hold _ _ Hk) as (t0 & Hk0 & -> & _). by apply (lk_range d Hd k).
  - intros j k tj tk (tj0 & Hj & -> & _)%Hold (tk0 & Hk & -> & _)%Hold. by apply (lk_inj d Hd).
  - intros k t' (t0 & Hk & Hhk & Hp & Hn)%Hold Hk1. destruct (lk_next d Hd _ _ Hk Hk1) as (tn & H2 & H3 & H4 & H5).
    destruct (Hnew _ _ H2) as (tn' & Hn1 & Hn2 & Hn3 & Hn4). exists tn'. rewrite Hn.
    pose proof (Hh _ _ _ Hn1 Hn2) as E. rewrite Hhk, E. split_and!; [done|congruence|done|].
    intros j tj (tj0 & Hj & -> & _)%Hold. by apply (H5 j).
  - intros k t' (t0 & Hk & Hhk & Hp & Hn)%Hold Hk0. destruct (lk_prev d Hd _ _ Hk Hk0) as (tp & H2 & H3 & H4).
    destruct (Hnew _ _ H2) as (tp' & Hn1 & Hn2 & Hn3 & Hn4). exists tp'. rewrite Hp. split_and!; [done|congruence|done].
  - intros k t' [[<- <-]|[Hne Hk]]%lookup_insert_Some Hk0 Hk1; cbn.
    + split; [|done]. by apply (lk_tuple d Hd i t).
    + by apply (lk_tuple d Hd k).
Qed.

(** ** Inserting an entry between two neighbours *)
Section Insert.
Context (d : gmap Z (KVOpeningTuple O K V)) (im ip n : Z) (tm tp tn : KVOpeningTuple O K V).
Hypotheses (Hd : links_ok d) (Hm : d !! im = Some tm) (Him : im <> 1) (Hip : next tm = ip)
  (Hp : d !! ip = Some tp) (Hn : d !! n = None)
  (Htn : open tn = mkLeaf im ip (hashKey (t_Key tn)) (hashVal (t_Value tn)))
  (Hlt : hk tm < hk tn < hk tp).

Definition data_inserted : gmap Z (KVOpeningTuple O K V) :=
  <[ip := tuple_CopyWithPrev tp n]> (<[n := tn]> (<[im := tuple_CopyWithNext tm n]> d)).

Lemma inserted_facts : prev tp = im /\ gap d (hk tm) (hk tp) /\ im <> ip /\ im <> n /\ ip <> n.
Proof.
  destruct (lk_next d Hd im tm Hm Him) as (t & Ht & Hpr & Hl & Hg). rewrite Hip in Ht. simplify_eq.
  split_and!; [done|done| |congruence|congruence]. intros E. rewrite E in Hm. simplify_eq. lia.
Qed.

Lemma inserted_lookup k t :
  data_inserted !! k = Some t <->
  (k = ip /\ t = tuple_CopyWithPrev tp n) \/ (k = n /\ t = tn) \/
  (k = im /\ t = tuple_CopyWithNext tm n) \/ (k <> ip /\ k <> n /\ k <> im /\ d !! k = Some t).
Proof.
  destruct inserted_facts as (_ & _ & H1 & H2 & H3). unfold data_inserted.
  rewrite !lookup_insert_Some. split; [naive_solver|].
  intros [[-> ->]|[[-> ->]|[[-> ->]|(? & ? & ? & ?)]]]; naive_solver.
Qed.

Lemma inserted_old k t :
  data_inserted !! k = Some t -> k = n /\ t = tn \/ exists t0, d !! k = Some t0 /\ hk t = hk t0.
Proof. rewrite inserted_lookup. naive_solver. Qed.

Lemma inserted_new k t0 :
  d !! k = Some t0 -> exists t, data_inserted !! k = Some t /\ hk t = hk t0 /\
    (k <> ip -> prev t = prev t0) /\ (k <> im -> next t = next t0).
Proof.
  intros Hk. destruct inserted_facts as (_ & _ & H1 & H2 & H3).
  destruct (decide (k = ip)) as [->|]; [|destruct (decide (k = im)) as [->|]].
  - exists (tuple_CopyWithPrev tp n). rewrite inserted_lookup. naive_solver.
  - exists (tuple_CopyWithNext tm n). rewrite inserted_lookup. naive_solver.
  - exists t0. rewrite inserted_lookup. assert (k <> n) by congruence. naive_solver.
Qed.

(** A gap of the old entries with other bounds than the neighbours is a gap of
    the new ones. *)
Lemma inserted_gap k t a b :
  d !! k = Some t -> k <> im -> hk t = a -> gap d a b -> gap data_inserted a b.
Proof.
  intros Hk Hne <- Hg j tj Hj. destruct (inserted_old _ _ Hj) as [[-> ->]|(t0 & Ht0 & ->)]; [|by apply (Hg j)].
  destruct inserted_facts as (_ & Hgm & _). destruct (Hg _ _ Hm) as [H1|H1]; [|lia].
  destruct (Hgm _ _ Hk) as [H2|H2]; [|lia].
  destruct Hne. apply (lk_inj d Hd _ _ _ _ Hk Hm). lia.
Qed.

Lemma inserted_gap_new : gap data_inserted (hk tm) (hk tn) /\ gap data_inserted (hk tn) (hk tp).
Proof.
  destruct inserted_facts as (_ & Hgm & _).
  split; intros j tj Hj; destruct (inserted_old _ _ Hj) as [[-> ->]|(t0 & Ht0 & ->)]; try lia;
    destruct (Hgm _ _ Ht0); lia.
Qed.

Lemma links_insert : links_ok data_inserted.
Proof.
  destruct inserted_facts as (Hpp & Hgm & Hmp & Hmn & Hpn). destruct inserted_gap_new as [Hg1 Hg2].
  pose proof (fun t => proj2 (inserted_lookup n t)) as Ln.
  constructor.
  - destruct (lk_head d Hd) as (t0 & Hk & Hz & Hp0). destruct (inserted_new _ _ Hk) as (t & Ht & Hhk & Hpr & _).
    exists t. split_and!; [done|rewrite <- Hz; by apply hk_eq|]. rewrite Hpr; [done|]. intros <-.
    assert (im = 0) as E by (simplify_eq; congruence). congruence.
  - destruct (lk_tail d Hd) as (t0 & Hk & Hz & Hp0). destruct (inserted_new _ _ Hk) as (t & Ht & Hhk & _ & Hnx).
    exists t. split_and!; [done|rewrite <- Hz; by apply hk_eq|]. by rewrite Hnx.
  - intros k t [[-> ->]|(t0 & Ht0 & ->)]%inserted_old; [|by apply (lk_range d Hd k)].
    pose proof (lk_range d Hd _ _ Hm). pose proof (lk_range d Hd _ _ Hp). lia.
  - intros j k tj tk [[-> ->]|(tj0 & Hj & ->)]%inserted_old [[-> ->]|(tk0 & Hk & ->)]%inserted_old E; [done| | |].
    + destruct (Hgm _ _ Hk); lia.
    + destruct (Hgm _ _ Hj); lia.
    + by apply (lk_inj d Hd j k tj0 tk0).
  - intros k t [[-> ->]|[[-> ->]|[[-> ->]|(H1 & H2 & H3 & Hk)]]]%inserted_lookup Hk1.
    + change (next (tuple_CopyWithPrev tp n)) with (next tp). change (hk (tuple_CopyWithPrev tp n)) with (hk tp).
      destruct (lk_next d Hd _ _ Hp Hk1) as (t2 & Ht2 & Hp2 & Hl2 & Hg).
      destruct (inserted_new _ _ Ht2) as (t3 & Ht3 & Hhk3 & Hpr3 & _). exists t3. rewrite Hhk3. split_and!; [done| |done|].
      * rewrite Hpr3; [done|]. intros E. rewrite E in Ht2. simplify_eq. lia.
      * by apply (inserted_gap ip tp).
    + rewrite Htn. cbn [Next]. exists (tuple_CopyWithPrev tp n). split_and!; [|done|unfold hk; cbn; fold (hk tn) (hk tp); lia|done].
      apply inserted_lookup. by left.
    + exists tn. split_and!; [apply Ln; naive_solver|by rewrite Htn|change (hk tm < hk tn); lia|done].
    + destruct (lk_next d Hd _ _ Hk Hk1) as (t2 & Ht2 & Hp2 & Hl2 & Hg).
      destruct (inserted_new _ _ Ht2) as (t3 & Ht3 & Hhk3 & Hpr3 & _). exists t3. rewrite Hhk3. split_and!; [done| |done|].
      * rewrite Hpr3; [done|]. intros E. rewrite E in Ht2. by simplify_eq.
      * by apply (inserted_gap k t).
  - intros k t [[-> ->]|[[-> ->]|[[-> ->]|(H1 & H2 & H3 & Hk)]]]%inserted_lookup Hk0.
    + exists tn. split_and!; [apply Ln; naive_solver|by rewrite Htn|cbn]. intros ->.
      destruct (lk_tail d Hd) as (? & ? & _). congruence.
    + rewrite Htn. cbn [Prev]. exists (tuple_CopyWithNext tm n). split_and!; [|done|done]. apply inserted_lookup. naive_solver.
    + change (prev (tuple_CopyWithNext tm n)) with (prev tm). destruct (lk_prev d Hd _ _ Hm Hk0) as (t2 & Ht2 & Hn2 & H1).
      destruct (inserted_new _ _ Ht2) as (t3 & Ht3 & _ & _ & Hnx3). exists t3. split_and!; [done| |done].
      rewrite Hnx3; [done|]. intros E. rewrite E in Ht2. congruence.
    + destruct (lk_prev d Hd _ _ Hk Hk0) as (t2 & Ht2 & Hn2 & H4).
      destruct (inserted_new _ _ Ht2) as (t3 & Ht3 & _ & _ & Hnx3). exists t3. split_and!; [done| |done].
      rewrite Hnx3; [done|]. intros E. rewrite E in Ht2. congruence.
  - intros k t [[-> ->]|[[-> ->]|[[-> ->]|(H1 & H2 & H3 & Hk)]]]%inserted_lookup Hk0 Hk1; cbn.
    + by apply (lk_tuple d Hd ip).
    + by rewrite Htn.
    + by apply (lk_tuple d Hd im).
    + by apply (lk_tuple d Hd k).
Qed.
End Insert.

(** ** Deleting an entry *)
Section Delete.
Context (d : gmap Z (KVOpeningTuple O K V)) (i im ip : Z) (t tm tp : KVOpeningTuple O K V).
Hypotheses (Hd : links_ok d) (Hi : d !! i = Some t) (Hi0 : i <> 0) (Hi1 : i <> 1)
  (Him : prev t = im) (Hip : next t = ip) (Hm : d !! im = Some tm) (Hp : d !! ip = Some tp).

Definition data_deleted : gmap Z (KVOpeningTuple O K V) :=
  <[ip := tuple_CopyWithPrev tp im]> (delete i (<[im := tuple_CopyWithNext tm ip]> d)).

Lemma deleted_facts :
  next tm = i /\ prev tp = i /\ hk tm < hk t < hk tp /\ gap d (hk tm) (hk t) /\ gap d (hk t) (hk tp) /\
  im <> i /\ ip <> i /\ im <> ip /\ im <> 1 /\ ip <> 0.
Proof.
  destruct (lk_next d Hd i t Hi Hi1) as (t1 & Ht1 & Hp1 & Hl1 & Hg1).
  assert (t1 = tp) as -> by congruence.
  destruct (links_pred d i t Hd Hi Hi0) as (t2 & Ht2 & Hn2 & H2 & Hl2 & Hg2).
  assert (t2 = tm) as -> by congruence.
  assert (forall j k tj tk, d !! j = Some tj -> d !! k = Some tk -> hk tj < hk tk -> j <> k) as Hne by naive_solver lia.
  pose proof (lk_range d Hd _ _ Hi). split_and!; try done; try lia; try congruence.
  - apply (Hne _ _ _ _ Hm Hi); lia.
  - intros E. symmetry in E. revert E. apply (Hne _ _ _ _ Hi Hp). lia.
  - apply (Hne _ _ _ _ Hm Hp). lia.
  - apply (links_not_head d _ _ Hd Hp). lia.
Qed.

Lemma deleted_lookup k t' :
  data_deleted !! k = Some t' <->
  (k = ip /\ t' = tuple_CopyWithPrev tp im) \/ (k = im /\ t' = tuple_CopyWithNext tm ip) \/
  (k <> ip /\ k <> i /\ k <> im /\ d !! k = Some t').
Proof.
  destruct deleted_facts as (_ & _ & _ & _ & _ & H1 & H2 & H3 & _). unfold data_deleted.
  rewrite lookup_insert_Some, lookup_delete_Some, lookup_insert_Some. split; [naive_solver|].
  intros [[-> ->]|[[-> ->]|(? & ? & ? & ?)]]; naive_solver.
Qed.

Lemma deleted_old k t' : data_deleted !! k = Some t' -> exists t0, d !! k = Some t0 /\ hk t' = hk t0 /\ k <> i.
Proof.
  destruct deleted_facts as (_ & _ & _ & _ & _ & H1 & H2 & H3 & _).
  rewrite deleted_lookup. naive_solver.
Qed.

Lemma deleted_new k t0 :
  d !! k = Some t0 -> k <> i -> exists t', data_deleted !! k = Some t' /\ hk t' = hk t0 /\
    (k <> ip -> prev t' = prev t0) /\ (k <> im -> next t' = next t0).
Proof.
  intros Hk Hne. destruct deleted_facts as (_ & _ & _ & _ & _ & H1 & H2 & H3 & _).
  destruct (decide (k = ip)) as [->|]; [|destruct (decide (k = im)) as [->|]].
  - exists (tuple_CopyWithPrev tp im). rewrite deleted_lookup. naive_solver.
  - exists (tuple_CopyWithNext tm ip). rewrite deleted_lookup. naive_solver.
  - exists t0. rewrite deleted_lookup. naive_solver.
Qed.

Lemma deleted_gap a b : gap d a b -> gap data_deleted a b.
Proof. intros Hg j tj (t0 & Ht0 & -> & _)%deleted_old. by apply (Hg j). Qed.

Lemma deleted_gap_new : gap data_deleted (hk tm) (hk tp).
Proof.
  destruct deleted_facts as (_ & _ & _ & Hg1 & Hg2 & _). intros j tj (t0 & Ht0 & -> & Hne)%deleted_old.
  destruct (Hg1 _ _ Ht0), (Hg2 _ _ Ht0); try lia. destruct Hne. apply (lk_inj d Hd _ _ _ _ Ht0 Hi). lia.
Qed.

Lemma links_delete : links_ok data_deleted.
Proof.
  destruct deleted_facts as (Hnm & Hpp & Hlt & Hg1 & Hg2 & H1 & H2 & H3 & Hm1 & Hp0). pose proof deleted_gap_new as Hg.
  constructor.
  - destruct (lk_head d Hd) as (t0 & Hk & Hz & Hp0'). destruct (deleted_new _ _ Hk) as (t' & Ht' & Hhk & Hpr & _); [done|].
    exists t'. split_and!; [done|rewrite <- Hz; by apply hk_eq|]. by rewrite Hpr.
  - destruct (lk_tail d Hd) as (t0 & Hk & Hz & Hn0). destruct (deleted_new _ _ Hk) as (t' & Ht' & Hhk & _ & Hnx); [done|].
    exists t'. split_and!; [done|rewrite <- Hz; by apply hk_eq|]. by rewrite Hnx.
  - intros k t' (t0 & Ht0 & -> & _)%deleted_old. by apply (lk_range d Hd k).
  - intros j k tj tk (tj0 & Hj & -> & _)%deleted_old (tk0 & Hk & -> & _)%deleted_old. by apply (lk_inj d Hd).
  - intros k t' [[-> ->]|[[-> ->]|(Hk2 & Hk3 & Hk4 & Hk)]]%deleted_lookup Hk1.
    + change (next (tuple_CopyWithPrev tp im)) with (next tp). change (hk (tuple_CopyWithPrev tp im)) with (hk tp).
      destruct (lk_next d Hd _ _ Hp Hk1) as (t2 & Ht2 & Hp2 & Hl2 & Hg').
      destruct (deleted_new _ _ Ht2) as (t3 & Ht3 & Hhk3 & Hpr3 & _).
      { intros E. rewrite E in Ht2. assert (t2 = t) as -> by congruence. lia. }
      exists t3. rewrite Hhk3. split_and!; [done| |done|by apply deleted_gap].
      rewrite Hpr3; [done|]. intros E. rewrite E in Ht2. assert (t2 = tp) as -> by congruence. lia.
    + exists (tuple_CopyWithPrev tp im). split_and!; [|done|change (hk tm < hk tp); lia|done]. apply deleted_lookup. by left.
    + destruct (lk_next d Hd _ _ Hk Hk1) as (t2 & Ht2 & Hp2 & Hl2 & Hg').
      destruct (deleted_new _ _ Ht2) as (t3 & Ht3 & Hhk3 & Hpr3 & _); [intros E; rewrite E in Ht2; congruence|].
      exists t3. rewrite Hhk3. split_and!; [done| |done|by apply deleted_gap].
      rewrite Hpr3; [done|]. intros E. rewrite E in Ht2. congruence.
  - intros k t' [[-> ->]|[[-> ->]|(Hk2 & Hk3 & Hk4 & Hk)]]%deleted_lookup Hk0.
    + exists (tuple_CopyWithNext tm ip). split_and!; [|done|done]. apply deleted_lookup. naive_solver.
    + change (prev (tuple_CopyWithNext tm ip)) with (prev tm).
      destruct (lk_prev d Hd _ _ Hm Hk0) as (t2 & Ht2 & Hn2 & H4).
      destruct (deleted_new _ _ Ht2) as (t3 & Ht3 & _ & _ & Hnx3); [intros E; rewrite E in Ht2; congruence|].
      exists t3. split_and!; [done| |done]. rewrite Hnx3; [done|]. intros E. rewrite E in Ht2. congruence.
    + destruct (lk_prev d Hd _ _ Hk Hk0) as (t2 & Ht2 & Hn2 & H4).
      destruct (deleted_new _ _ Ht2) as (t3 & Ht3 & _ & _ & Hnx3); [intros E; rewrite E in Ht2; congruence|].
      exists t3. split_and!; [done| |done]. rewrite Hnx3; [done|]. intros E. rewrite E in Ht2. congruence.
  - intros k t' [[-> ->]|[[-> ->]|(Hk2 & Hk3 & Hk4 & Hk)]]%deleted_lookup Hk0 Hk1; cbn.
    + by apply (lk_tuple d Hd ip).
    + by apply (lk_tuple d Hd im).
    + by apply (lk_tuple d Hd k).
Qed.
End Delete.
End Links.

(** ** The abstract content of an accumulator *)
Section Content.
Context {O K V : Type} `{DO : DigestOrder O} `{HA : !AccHash O K V}.
Implicit Types (d : gmap Z (KVOpeningTuple O K V)) (t : KVOpeningTuple O K V).

Definition inner_entries d : list (Z * KVOpeningTuple O K V) :=
  filter (fun x => x.1 <> 0 /\ x.1 <> 1) (map_to_list d).

Definition content d : gmap Z V :=
  list_to_map ((fun x => (hk x.2, t_Value x.2)) <$> inner_entries d).

Lemma inner_entries_spec d i t : (i, t) ∈ inner_entries d <-> d !! i = Some t /\ i <> 0 /\ i <> 1.
Proof.
  unfold inner_entries. rewrite list_elem_of_filter, elem_of_map_to_list. cbn. naive_solver.
Qed.

Lemma content_lookup d n v :
  links_ok d -> content d !! n = Some v <->
  exists i t, d !! i = Some t /\ i <> 0 /\ i <> 1 /\ hk t = n /\ t_Value t = v.
Proof.
  intros Hd. unfold content. rewrite <- elem_of_list_to_map.
  - rewrite list_elem_of_fmap. split.
    + intros ([i t] & [= -> ->] & (? & ? & ?)%inner_entries_spec). eauto 10.
    + intros (i & t & ? & ? & ? & <- & <-). exists (i, t). split; [done|]. by apply inner_entries_spec.
  - rewrite <- list_fmap_compose. apply NoDup_fmap_2_strong.
    + intros [i t] [j t'] (Hi & _)%inner_entries_spec (Hj & _)%inner_entries_spec E. cbn in E.
      pose proof (lk_inj d Hd _ _ _ _ Hi Hj E). naive_solver.
    + apply NoDup_filter, NoDup_map_to_list.
Qed.

Lemma content_none d n i t :
  links_ok d -> d_num d_zero < n < d_num d_max -> content d !! n = None -> d !! i = Some t -> hk t <> n.
Proof.
  intros Hd Hn Hc Hi E. apply eq_None_not_Some in Hc. apply Hc. exists (t_Value t).
  apply content_lookup; [done|]. exists i, t. split_and!; try done.
  - apply (links_not_head d i t Hd Hi). lia.
  - apply (links_not_tail d i t Hd Hi). lia.
Qed.

Lemma content_set_value d i t (v : V) :
  links_ok d -> d !! i = Some t -> i <> 0 -> i <> 1 ->
  content (<[i := CopyWithVal t v]> d) = <[hk t := v]> (content d).
Proof.
  intros Hd Hi H0 H1. pose proof (links_set_value d i t v Hd Hi H0 H1) as Hd'.
  apply map_eq. intros n. apply option_eq. intros w.
  rewrite lookup_insert_Some, !content_lookup by done. split.
  - intros (k & t' & [[-> <-]|[Hne Hk]]%lookup_insert_Some & Hk0 & Hk1 & <- & <-); [by left|].
    right. split; [|eauto 10]. intros E. destruct Hne. by apply (lk_inj d Hd _ _ _ _ Hi Hk).
  - intros [[<- <-]|(Hne & k & t' & Hk & ? & ? & <- & <-)].
    + exists i, (CopyWithVal t v). rewrite lookup_insert_eq. done.
    + exists k, t'. rewrite lookup_insert_ne by naive_solver. done.
Qed.

Lemma content_insert d im ip n tm tp tn :
  links_ok d -> d !! im = Some tm -> im <> 1 -> Next (t_LeafOpening tm) = ip -> d !! ip = Some tp -> d !! n = None ->
  t_LeafOpening tn = mkLeaf im ip (hashKey (t_Key tn)) (hashVal (t_Value tn)) -> hk tm < hk tn < hk tp ->
  content (data_inserted d im ip n tm tp tn) = <[hk tn := t_Value tn]> (content d).
Proof.
  intros Hd Hm Him Hip Hp Hn Htn Hlt.
  assert (links_ok (data_inserted d im ip n tm tp tn)) as Hd' by (by apply links_insert).
  destruct (inserted_facts d im ip n tm tp tn) as (_ & Hg & H1 & H2 & H3); [done..|].
  apply map_eq. intros x. apply option_eq. intros w. rewrite lookup_insert_Some, !content_lookup by done.
  assert (n <> 0) by (destruct (lk_head d Hd) as (? & E0 & _); intros E; rewrite E in Hn; congruence).
  assert (n <> 1) by (destruct (lk_tail d Hd) as (? & E0 & _); intros E; rewrite E in Hn; congruence).
  assert (forall k t, d !! k = Some t -> hk tn <> hk t) as Hne by (intros k t Hk; destruct (Hg _ _ Hk); lia).
  pose proof (inserted_lookup d im ip n tm tp tn Hd Hm Him Hip Hp Hn Htn Hlt) as Hl. split.
  - intros (k & t & [[-> ->]|[[-> ->]|[[-> ->]|(? & ? & ? & Hk)]]]%Hl & Hk0 & Hk1 & <- & <-).
    + right. split; [exact (Hne ip tp Hp)|]. by exists ip, tp.
    + by left.
    + right. split; [exact (Hne im tm Hm)|]. by exists im, tm.
    + right. split; [by apply (Hne k)|]. by exists k, t.
  - intros [[<- <-]|(Hx & k & t & Hk & Hk0 & Hk1 & <- & <-)].
    + exists n, tn. split; [|done]. apply Hl. naive_solver.
    + assert (k <> n) by congruence.
      destruct (decide (k = ip)) as [->|]; [|destruct (decide (k = im)) as [->|]].
      * exists ip, (tuple_CopyWithPrev tp n). simplify_eq. split; [apply Hl; naive_solver|done].
      * exists im, (tuple_CopyWithNext tm n). simplify_eq. split; [apply Hl; naive_solver|done].
      * exists k, t. split; [apply Hl; naive_solver|done].
Qed.

Lemma content_delete d i im ip t tm tp :
  links_ok d -> d !! i = Some t -> i <> 0 -> i <> 1 -> Prev (t_LeafOpening t) = im -> Next (t_LeafOpening t) = ip ->
  d !! im = Some tm -> d !! ip = Some tp ->
  content (data_deleted d i im ip tm tp) = delete (hk t) (content d).
Proof.
  intros Hd Hi Hi0 Hi1 Him Hip Hm Hp.
  assert (links_ok (data_deleted d i im ip tm tp)) as Hd' by (by apply (links_delete d i im ip t)).
  destruct (deleted_facts d i im ip t tm tp) as (_ & _ & _ & _ & _ & H1 & H2 & H3 & _); [done..|].
  apply map_eq. intros x. apply option_eq. intros w. rewrite lookup_delete_Some, !content_lookup by done.
  pose proof (deleted_lookup d i im ip t tm tp Hd Hi Hi0 Hi1 Him Hip Hm Hp) as Hl.
  assert (forall k t', d !! k = Some t' -> k <> i -> hk t <> hk t') as Hne.
  { intros k t' Hk Hki E. destruct Hki. symmetry. by apply (lk_inj d Hd _ _ _ _ Hi Hk). }
  split.
  - intros (k & t' & [[-> ->]|[[-> ->]|(? & ? & ? & Hk)]]%Hl & Hk0 & Hk1 & <- & <-).
    + split; [exact (Hne ip tp Hp H2)|]. by exists ip, tp.
    + split; [exact (Hne im tm Hm H1)|]. by exists im, tm.
    + split; [by apply (Hne k)|]. by exists k, t'.
  - intros (Hx & k & t' & Hk & Hk0 & Hk1 & <- & <-).
    assert (k <> i) by congruence.
    destruct (decide (k = ip)) as [->|]; [|destruct (decide (k = im)) as [->|]].
    + exists ip, (tuple_CopyWithPrev tp im). assert (t' = tp) as -> by congruence. split; [apply Hl; by left|done].
    + exists im, (tuple_CopyWithNext tm ip). assert (t' = tm) as -> by congruence. split; [apply Hl; right; by left|done].
    + exists k, t'. split; [apply Hl; by do 2 right|done].
Qed.
End Content.
