(* ===== verification/AccProver.v ===== *)
(** The prover of the accumulator: its state invariant and the behaviour of the
    scans and of the writes of [proverstate.go]. *)
From S2P Require Import Prelude Smt Octuplet Accumulator AccInvariant.

(** No pair of nodes hashes to the zero digest, which the tree reads as a node
    that is not stored. *)
Class AccHashLaws (O K V : Type) `{HA : AccHash O K V} : Prop :=
  hashLR_nonzero x y : acc_hashLR x y <> d_zero.

Section Prover.
Context {O K V : Type} `{DO : DigestOrder O} `{HA : !AccHash O K V} `{!AccHashLaws O K V}.
Implicit Types (d : gmap Z (KVOpeningTuple O K V)) (t : KVOpeningTuple O K V) (s : ProverState O K V)
  (f : Z -> O).

Abbreviation tree_for := (tree_ok d_zero acc_hashLR).
Abbreviation root_of f := (node acc_hashLR f 40 0).
Abbreviation path_of f i := (mkProof i (siblings_of acc_hashLR f i 40)).
Abbreviation in_tree i := (0 <= i < 2 ^ 40).

(** The leaf that an entry is committed by. *)
Definition leaf_of d (p : Z) : O :=
  match d !! p with Some t => hashLeaf (t_LeafOpening t) | None => d_zero end.

Record acc_ok s : Prop := {
  ao_links : links_ok (p_Data s);
  ao_tree : tree_for (p_Tree s) (leaf_of (p_Data s));
  ao_depth : Depth (p_Tree s) = 40%nat;
  ao_free : 2 <= p_NextFreeNode s <= 2 ^ 40;
  ao_pos : forall i t, p_Data s !! i = Some t -> 0 <= i < p_NextFreeNode s
}.

(** ** Trees and paths *)

Lemma node_eq f f' l p : (forall q, f q = f' q) -> node acc_hashLR f l p = node acc_hashLR f' l p.
Proof. intros E. apply node_ext. intros q _. apply E. Qed.

Lemma tree_ok_eq (t : Tree O) f f' : (forall q, f q = f' q) -> tree_for t f -> tree_for t f'.
Proof.
  intros E [Hl Hr Hd]. constructor; [|by rewrite <- (node_eq f)|done].
  eapply levels_ok_ext; [done|]. intros l p _ _. by apply node_eq.
Qed.

Lemma siblings_eq f f' i n :
  0 <= i -> (forall q, q <> i -> f q = f' q) -> siblings_of acc_hashLR f i n = siblings_of acc_hashLR f' i n.
Proof.
  intros Hi E. apply list_fmap_ext. intros l x _.
  rewrite <- (node_upd_other acc_hashLR f i (f' i)).
  - apply node_eq. intros q. unfold upd. destruct (Z.eqb_spec q i) as [->|]; [done|by apply E].
  - apply sibling_ne. by apply Z.shiftr_nonneg.
Qed.

Lemma no_zero f n : no_zero_node d_zero acc_hashLR f n.
Proof. intros [|l] p Hl _; [lia|]. apply hashLR_nonzero. Qed.

Lemma pow40 : 2 ^ Z.of_nat 40 = 2 ^ 40.
Proof. done. Qed.

Lemma leaf_of_insert d i t q : leaf_of (<[i := t]> d) q = upd (leaf_of d) i (hashLeaf (t_LeafOpening t)) q.
Proof.
  unfold leaf_of, upd. destruct (Z.eqb_spec q i) as [->|Hne]; [by rewrite lookup_insert_eq|].
  by rewrite lookup_insert_ne.
Qed.

Lemma leaf_of_delete d i q : leaf_of (delete i d) q = upd (leaf_of d) i d_zero q.
Proof.
  unfold leaf_of, upd. destruct (Z.eqb_spec q i) as [->|Hne]; [by rewrite lookup_delete_eq|].
  by rewrite lookup_delete_ne.
Qed.

(** A write of the tree, and the proof of the position written. *)
Lemma tree_write (tr : Tree O) d f' i (v : O) :
  tree_for tr (leaf_of d) -> Depth tr = 40%nat -> in_tree i -> (forall q, f' q = upd (leaf_of d) i v q) ->
  exists tr', tree_Update tr i v = Ok tr' /\ tree_for tr' f' /\ Depth tr' = 40%nat /\
    tree_MustProve tr' i = Ok (path_of f' i).
Proof.
  intros Ht HD Hi Hf. destruct (Update_ok d_zero acc_hashLR tr (leaf_of d) i v) as (tr' & Hu & Ht' & HD').
  { done. } { apply no_zero. } { by rewrite HD, pow40. }
  exists tr'. apply (tree_ok_eq _ _ f') in Ht'; [|done]. rewrite HD in HD'. split_and!; [|done|done|].
  - unfold tree_Update. by rewrite Hu.
  - unfold tree_MustProve, MustProve. rewrite (Prove_ok d_zero acc_hashLR tr' f'); [by rewrite HD'|done|apply no_zero|].
    by rewrite HD', pow40.
Qed.

Lemma tree_prove s i :
  acc_ok s -> in_tree i -> tree_MustProve (p_Tree s) i = Ok (path_of (leaf_of (p_Data s)) i).
Proof.
  intros Hs Hi. unfold tree_MustProve, MustProve.
  rewrite (Prove_ok d_zero acc_hashLR _ (leaf_of (p_Data s))); [by rewrite ao_depth|apply ao_tree, Hs|apply no_zero|].
  by rewrite ao_depth, pow40.
Qed.

Lemma acc_root s : acc_ok s -> Root (p_Tree s) = root_of (leaf_of (p_Data s)).
Proof. intros Hs. rewrite (to_root _ _ _ _ (ao_tree s Hs)). by rewrite ao_depth. Qed.

(** ** Tuples *)

Definition checked t : Prop :=
  HeadOrTail (t_LeafOpening t) = true \/
  (HKey (t_LeafOpening t) = hashKey (t_Key t) /\ HVal (t_LeafOpening t) = hashVal (t_Value t)).

Lemma CheckAndLeaf_ok t : checked t -> CheckAndLeaf t = Ok (hashLeaf (t_LeafOpening t)).
Proof.
  unfold checked, CheckAndLeaf. intros [->|[H1 H2]]; [done|]. destruct (HeadOrTail _); [done|].
  by rewrite !bool_decide_true.
Qed.

Lemma links_checked d i t : links_ok d -> d !! i = Some t -> checked t.
Proof.
  intros Hd Hi. unfold checked, HeadOrTail.
  destruct (decide (i = 0)) as [->|H0]; [|destruct (decide (i = 1)) as [->|H1]].
  - destruct (lk_head d Hd) as (t0 & Ht0 & Hz & _). simplify_eq. left. rewrite Hz.
    by rewrite (bool_decide_true (d_zero = d_zero)), orb_true_r.
  - destruct (lk_tail d Hd) as (t0 & Ht0 & Hz & _). simplify_eq. left. rewrite Hz.
    by rewrite (bool_decide_true (d_max = d_max)).
  - right. by apply (lk_tuple d Hd i).
Qed.

(** What an overwrite may change in a tuple. *)
Definition one_change (old new : LeafOpening O) : Prop :=
  HKey old = HKey new /\ count_changes old new = 1.

Lemma change_next l n : Next l <> n -> one_change l (CopyWithNext l n).
Proof.
  intros Hne. unfold one_change, count_changes. cbn. split; [done|]. rewrite decide_True by done.
  rewrite Z.eqb_refl. by destruct (Z.eqb_spec (Next l) n).
Qed.

Lemma change_prev l n : Prev l <> n -> one_change l (CopyWithPrev l n).
Proof.
  intros Hne. unfold one_change, count_changes. cbn. split; [done|]. rewrite decide_True by done.
  rewrite Z.eqb_refl. by destruct (Z.eqb_spec (Prev l) n).
Qed.

Lemma upsert_ok s i t :
  tree_for (p_Tree s) (leaf_of (p_Data s)) -> Depth (p_Tree s) = 40%nat -> in_tree i -> checked t ->
  (forall old, p_Data s !! i = Some old -> checked old /\ one_change (t_LeafOpening old) (t_LeafOpening t)) ->
  let d' := <[i := t]> (p_Data s) in
  exists tr', upsertTuple s i t = Ok (mkProver (p_Location s) (p_NextFreeNode s) tr' d', path_of (leaf_of d') i) /\
    tree_for tr' (leaf_of d') /\ Depth tr' = 40%nat.
Proof.
  intros Ht HD Hi Hc Hold d'.
  destruct (tree_write (p_Tree s) (p_Data s) (leaf_of d') i (hashLeaf (t_LeafOpening t))) as (tr' & Hu & Ht' & HD' & Hp);
    [done..|apply leaf_of_insert|].
  exists tr'. split; [|done]. unfold upsertTuple. rewrite CheckAndLeaf_ok by done. cbn [must mbind outcome_bind].
  unfold Mapping.TryGet, Mapping.UpdateEntry. rewrite Hu. cbn [mbind outcome_bind]. rewrite Hp.
  destruct (p_Data s !! i) as [old|] eqn:E; [|done]. destruct (Hold old eq_refl) as [Hco [Hk Hn]].
  rewrite CheckAndLeaf_ok by done. cbn [must mbind outcome_bind]. rewrite bool_decide_true by done.
  cbn [assert_ mbind outcome_bind]. by rewrite Hn.
Qed.

Lemma rm_ok s i t :
  tree_for (p_Tree s) (leaf_of (p_Data s)) -> Depth (p_Tree s) = 40%nat -> in_tree i -> p_Data s !! i = Some t ->
  let d' := delete i (p_Data s) in
  exists tr', rmTuple s i = Ok (mkProver (p_Location s) (p_NextFreeNode s) tr' d', path_of (leaf_of d') i) /\
    tree_for tr' (leaf_of d') /\ Depth tr' = 40%nat.
Proof.
  intros Ht HD Hi Hold d'.
  destruct (tree_write (p_Tree s) (p_Data s) (leaf_of d') i d_zero) as (tr' & Hu & Ht' & HD' & Hp);
    [done..|apply leaf_of_delete|].
  exists tr'. split; [|done]. unfold rmTuple, Mapping.MustExists, Mapping.Exists, Mapping.Del, Mapping.MustGet.
  cbn [forallb]. rewrite Hold. cbn [unwrap mbind outcome_bind]. rewrite bool_decide_true by done.
  cbn [andb assert_ mbind outcome_bind]. rewrite Hu. cbn [mbind outcome_bind]. by rewrite Hp.
Qed.

(** ** Scans *)

Lemma ListAllKeys_spec d order i : Mapping.ListAllKeys d order -> i ∈ order <-> is_Some (d !! i).
Proof.
  unfold Mapping.ListAllKeys. intros ->. rewrite list_elem_of_fmap. split.
  - intros ([j t] & -> & Ht%elem_of_map_to_list). by exists t.
  - intros [t Ht]. exists (i, t). split; [done|]. by apply elem_of_map_to_list.
Qed.

Lemma find_key_loop_spec s h order :
  (forall i, i ∈ order -> is_Some (p_Data s !! i)) ->
  (exists i t, find_key_loop s h order = Ok (i, true) /\ p_Data s !! i = Some t /\ HKey (t_LeafOpening t) = h) \/
  (find_key_loop s h order = Ok (0, false) /\
   forall i t, i ∈ order -> p_Data s !! i = Some t -> HKey (t_LeafOpening t) <> h).
Proof.
  induction order as [|i order IH]; intros Hall; cbn [find_key_loop].
  - right. split; [done|]. intros i t Hi. by apply not_elem_of_nil in Hi.
  - destruct (Hall i) as [t Ht]; [by left|]. unfold Mapping.MustGet. rewrite Ht. cbn [unwrap mbind outcome_bind].
    case_bool_decide as E.
    + left. exists i, t. by rewrite E.
    + destruct IH as [IH|[IH Hno]]; [intros j Hj; apply Hall; by right|by left|].
      right. split; [done|]. intros j tj [->|Hj]%elem_of_cons Htj; [congruence|by apply (Hno j)].
Qed.

(** The key of a request is neither the head's nor the tail's. *)
Definition proper_key (key : K) : Prop := d_num d_zero < d_num (hashKey key) < d_num d_max.

Lemma FindKey_absent s order key :
  acc_ok s -> Mapping.ListAllKeys (p_Data s) order -> proper_key key ->
  content (p_Data s) !! d_num (hashKey key) = None -> FindKey s order key = Ok (0, false).
Proof.
  intros Hs Ho Hk Hc. unfold FindKey.
  destruct (find_key_loop_spec s (hashKey key) order) as [(i & t & _ & Hi & E)|[-> _]]; [|exfalso|done].
  - intros i Hi. by apply (ListAllKeys_spec _ order).
  - eapply (content_none (p_Data s)); [apply Hs|exact Hk|done|exact Hi|]. unfold hk. by rewrite E.
Qed.

Lemma FindKey_present s order key v :
  acc_ok s -> Mapping.ListAllKeys (p_Data s) order ->
  content (p_Data s) !! d_num (hashKey key) = Some v ->
  exists i t, FindKey s order key = Ok (i, true) /\ p_Data s !! i = Some t /\ i <> 0 /\ i <> 1 /\
    HKey (t_LeafOpening t) = hashKey key /\ t_Value t = v.
Proof.
  intros Hs Ho (i & t & Hi & H0 & H1 & Hh & Hv)%(content_lookup _ _ _ (ao_links s Hs)). apply d_num_inj in Hh.
  unfold FindKey. destruct (find_key_loop_spec s (hashKey key) order) as [(j & t' & -> & Hj & E)|[_ Hno]].
  - intros j Hj. by apply (ListAllKeys_spec _ order).
  - assert (j = i) as -> by (apply (lk_inj _ (ao_links s Hs) _ _ _ _ Hj Hi), hk_eq; congruence).
    exists i, t. naive_solver.
  - destruct (Hno i t); [|done..]. apply (ListAllKeys_spec (p_Data s)); [done|by exists t].
Qed.

(** *** The sandwich of a key: the two neighbours between which it belongs *)

Definition sandwiched d (h : Z) (im ip : Z) tm tp : Prop :=
  d !! im = Some tm /\ d !! ip = Some tp /\ hk tm < h < hk tp /\ gap d (hk tm) (hk tp).

Definition sandwich_inv d (h : Z) (seen : list Z) (w : sandwich O) : Prop :=
  exists tm tp, d !! iminus w = Some tm /\ d !! iplus w = Some tp /\
    hminus w = HKey (t_LeafOpening tm) /\ hplus w = HKey (t_LeafOpening tp) /\ hk tm < h < hk tp /\
    forall k t, k ∈ seen -> d !! k = Some t -> hk t <= hk tm \/ hk tp <= hk t.

Lemma sandwich_step_ok s key seen w i t :
  sandwich_inv (p_Data s) (d_num (hashKey key)) seen w -> p_Data s !! i = Some t ->
  hk t <> d_num (hashKey key) ->
  exists w', sandwich_step s (hashKey key) w i = Ok w' /\
    sandwich_inv (p_Data s) (d_num (hashKey key)) (seen ++ [i]) w'.
Proof.
  intros (tm & tp & Hm & Hp & Em & Ep & Hlt & Hseen) Ht Hne.
  assert (forall (tm' tp' : KVOpeningTuple O K V), hk tm <= hk tm' -> hk tp' <= hk tp ->
    (hk t <= hk tm' \/ hk tp' <= hk t) -> forall k tk, k ∈ seen ++ [i] -> p_Data s !! k = Some tk ->
    hk tk <= hk tm' \/ hk tp' <= hk tk) as Hext.
  { intros tm' tp' H1 H2 H3 k tk [Hk|Hk]%elem_of_app Htk.
    - destruct (Hseen k tk Hk Htk); lia.
    - apply list_elem_of_singleton in Hk as ->. by simplify_eq. }
  unfold sandwich_step, Mapping.MustGet. rewrite Ht. cbn [unwrap mbind outcome_bind].
  rewrite !d_cmp_num, Em, Ep. fold (hk t) (hk tm) (hk tp).
  destruct (Z.lt_trichotomy (hk t) (d_num (hashKey key))) as [Hl|[|Hg]]; [|done|].
  - rewrite (Z.sgn_neg (hk t - _)) by lia. cbn [Z.eqb]. destruct (Z.eqb_spec (Z.sgn (hk t - hk tm)) 1) as [Hs|Hs]; eexists; (split; [done|]).
    + apply Z.sgn_pos_iff in Hs. exists t, tp. cbn. split_and!; try done; try lia. apply Hext; lia.
    + exists tm, tp. split_and!; try done; try lia. apply Hext; [lia..|]. assert (~ 0 < hk t - hk tm) by (by rewrite <- Z.sgn_pos_iff). lia.
  - rewrite (Z.sgn_pos (hk t - _)) by lia. cbn [Z.eqb]. change (1 =? 0) with false. change (1 =? 1) with true. cbv iota.
    destruct (Z.eqb_spec (Z.sgn (hk t - hk tp)) (-1)) as [Hs|Hs]; eexists; (split; [done|]).
    + apply Z.sgn_neg_iff in Hs. exists tm, t. cbn. split_and!; try done; try lia. apply Hext; lia.
    + exists tm, tp. split_and!; try done; try lia. apply Hext; [lia..|]. assert (~ hk t - hk tp < 0) by (by rewrite <- Z.sgn_neg_iff). lia.
Qed.

Lemma sandwich_loop s key order seen w :
  sandwich_inv (p_Data s) (d_num (hashKey key)) seen w ->
  (forall i, i ∈ order -> exists t, p_Data s !! i = Some t /\ hk t <> d_num (hashKey key)) ->
  exists w', foldM (sandwich_step s (hashKey key)) w order = Ok w' /\
    sandwich_inv (p_Data s) (d_num (hashKey key)) (seen ++ order) w'.
Proof.
  revert seen w. induction order as [|i order IH]; intros seen w Hw Hall; cbn [foldM].
  - exists w. by rewrite app_nil_r.
  - destruct (Hall i) as (t & Ht & Hne); [by left|].
    destruct (sandwich_step_ok s key seen w i t Hw Ht Hne) as (w' & -> & Hw'). cbn [mbind outcome_bind].
    destruct (IH _ _ Hw') as (w'' & -> & Hw''); [intros j Hj; apply Hall; by right|].
    exists w''. split; [done|]. by rewrite <- app_assoc in Hw''.
Qed.

Lemma findSandwich_ok s order key :
  acc_ok s -> Mapping.ListAllKeys (p_Data s) order -> proper_key key ->
  content (p_Data s) !! d_num (hashKey key) = None ->
  exists im ip tm tp, findSandwich s order key = Ok (im, ip) /\
    sandwiched (p_Data s) (d_num (hashKey key)) im ip tm tp.
Proof.
  intros Hs Ho Hk Hc. pose proof (ao_links s Hs) as Hd. unfold findSandwich.
  destruct (sandwich_loop s key order [] (mkSandwich d_zero 0 d_max 1)) as (w & -> & tm & tp & Hm & Hp & _ & _ & Hlt & Hg).
  - destruct (lk_head _ Hd) as (th & Hth & Eh & _), (lk_tail _ Hd) as (tt & Htt & Et & _).
    exists th, tt. split_and!; cbn; try done; [unfold hk; rewrite Eh; apply Hk|unfold hk; rewrite Et; apply Hk|].
    intros k t Hn. by apply not_elem_of_nil in Hn.
  - intros i [t Ht]%(ListAllKeys_spec _ _ _ Ho). exists t. split; [done|]. by apply (content_none (p_Data s) _ i).
  - cbn [mbind outcome_bind]. destruct (Z.eqb_spec (iminus w) (iplus w)) as [E|_].
    { rewrite E in Hm. assert (tm = tp) by congruence. subst. lia. }
    exists (iminus w), (iplus w), tm, tp. split; [done|]. split_and!; try done; try lia.
    intros k t Hk'. apply (Hg k); [|done]. cbn. apply (ListAllKeys_spec _ _ _ Ho). by exists t.
Qed.

(** The sandwich is a pair of linked neighbours, and the only one. *)
Lemma sandwich_linked d h im ip tm tp :
  links_ok d -> sandwiched d h im ip tm tp ->
  Next (t_LeafOpening tm) = ip /\ Prev (t_LeafOpening tp) = im /\ im <> 1 /\ im <> ip.
Proof.
  intros Hd (Hm & Hp & Hlt & Hg). pose proof (lk_range d Hd _ _ Hp).
  assert (im <> 1) as H1 by (apply (links_not_tail d _ _ Hd Hm); lia).
  destruct (lk_next d Hd _ _ Hm H1) as (t & Ht & Hpr & Hl & Hg').
  assert (hk t = hk tp) as E by (destruct (Hg _ _ Ht), (Hg' _ _ Hp); lia).
  pose proof (lk_inj d Hd _ _ _ _ Ht Hp E) as E'. rewrite E' in Ht. assert (t = tp) as -> by congruence.
  split_and!; try done. intros ->. assert (tm = tp) by congruence. subst. lia.
Qed.

Lemma sandwich_unique d h im ip tm tp im' ip' tm' tp' :
  links_ok d -> sandwiched d h im ip tm tp -> sandwiched d h im' ip' tm' tp' ->
  im = im' /\ ip = ip' /\ tm = tm' /\ tp = tp'.
Proof.
  intros Hd (Hm & Hp & Hlt & Hg) (Hm' & Hp' & Hlt' & Hg').
  assert (hk tm = hk tm') as E1 by (destruct (Hg _ _ Hm'), (Hg' _ _ Hm); lia).
  assert (hk tp = hk tp') as E2 by (destruct (Hg _ _ Hp'), (Hg' _ _ Hp); lia).
  pose proof (lk_inj d Hd _ _ _ _ Hm Hm' E1). pose proof (lk_inj d Hd _ _ _ _ Hp Hp' E2).
  subst. naive_solver congruence.
Qed.

(** ** The operations of the prover

    Each operation, from a state that satisfies the invariant, returns the state
    with the data of the specification and the trace given explicitly. *)

Definition inserted_tuple (im ip : Z) (key : K) (val : V) : KVOpeningTuple O K V :=
  mkTuple (mkLeaf im ip (hashKey key) (hashVal val)) key val.

Definition insertion_trace s (im ip : Z) tm tp (key : K) (val : V) : InsertionTrace O K V :=
  let n := p_NextFreeNode s in
  let d1 := <[im := tuple_CopyWithNext tm n]> (p_Data s) in
  let d2 := <[n := inserted_tuple im ip key val]> d1 in
  let d3 := <[ip := tuple_CopyWithPrev tp n]> d2 in
  {| it_Type := 0; it_Location := p_Location s; it_NewNextFreeNode := n + 1;
     it_OldSubRoot := root_of (leaf_of (p_Data s)); it_NewSubRoot := root_of (leaf_of d3);
     it_ProofMinus := path_of (leaf_of d1) im; it_ProofNew := path_of (leaf_of d2) n;
     it_ProofPlus := path_of (leaf_of d3) ip; it_Key := key; it_Val := val;
     it_OldOpenMinus := t_LeafOpening tm; it_OldOpenPlus := t_LeafOpening tp |}.

Lemma acc_in_tree s i t : acc_ok s -> p_Data s !! i = Some t -> in_tree i.
Proof. intros Hs Hi. pose proof (ao_pos s Hs _ _ Hi). pose proof (ao_free s Hs). lia. Qed.

Lemma acc_free s : acc_ok s -> p_Data s !! p_NextFreeNode s = None.
Proof. intros Hs. apply eq_None_not_Some. intros [t Ht]. pose proof (ao_pos s Hs _ _ Ht). lia. Qed.

Lemma i64_succ n : 0 <= n <= 2 ^ 40 -> i64 (n + 1) = n + 1.
Proof. intros Hn. apply swrap_small; [|lia]. unfold is_i. change (64 - 1) with 63. lia. Qed.

(** The first write of an insertion or a deletion keeps the checks of the other
    two possible. *)
Lemma changed_lookup d im ip t' tm tp :
  im <> ip -> d !! im = Some tm -> d !! ip = Some tp -> <[im := t']> d !! ip = Some tp.
Proof. intros. by rewrite lookup_insert_ne. Qed.

Lemma insert_run s order1 order2 key val :
  acc_ok s -> Mapping.ListAllKeys (p_Data s) order1 -> Mapping.ListAllKeys (p_Data s) order2 ->
  proper_key key -> content (p_Data s) !! d_num (hashKey key) = None -> p_NextFreeNode s < 2 ^ 40 ->
  exists im ip tm tp tr, let n := p_NextFreeNode s in
    let d' := data_inserted (p_Data s) im ip n tm tp (inserted_tuple im ip key val) in
    let s' := mkProver (p_Location s) (n + 1) tr d' in
    sandwiched (p_Data s) (d_num (hashKey key)) im ip tm tp /\
    InsertAndProve s order1 order2 key val = Ok (s', insertion_trace s im ip tm tp key val) /\
    acc_ok s' /\ content d' = <[d_num (hashKey key) := val]> (content (p_Data s)).
Proof.
  intros Hs Ho1 Ho2 Hk Hc Hfree. pose proof (ao_links s Hs) as Hd. pose proof (ao_free s Hs) as Hn.
  destruct (findSandwich_ok s order2 key Hs Ho2 Hk Hc) as (im & ip & tm & tp & Hf & Hw).
  destruct (sandwich_linked _ _ _ _ _ _ Hd Hw) as (Hnx & Hpr & Hm1 & Hmp). pose proof Hw as (Hm & Hp & Hlt & Hg).
  pose proof (acc_free s Hs) as Hnone. set (n := p_NextFreeNode s) in *.
  assert (im <> n) as Hmn by congruence. assert (ip <> n) as Hpn by congruence.
  assert (checked (tuple_CopyWithNext tm n)) as Hc1 by (by apply (links_checked _ im tm Hd)).
  assert (checked (tuple_CopyWithPrev tp n)) as Hc3 by (by apply (links_checked _ ip tp Hd)).
  destruct (upsert_ok s im (tuple_CopyWithNext tm n)) as (tr1 & E1 & Ht1 & HD1);
    [apply Hs|apply Hs|by apply (acc_in_tree s im tm)|done| |].
  { intros old Ho. assert (old = tm) as -> by congruence. split; [by apply (links_checked _ im tm Hd)|].
    apply change_next. congruence. }
  fold n in E1. destruct (upsert_ok (mkProver (p_Location s) n tr1 (<[im := tuple_CopyWithNext tm n]> (p_Data s))) n
    (inserted_tuple im ip key val)) as (tr2 & E2 & Ht2 & HD2); [done|done|lia|by right| |].
  { cbn. intros old. rewrite lookup_insert_ne by done. congruence. }
  cbn [p_Data p_Tree p_Location p_NextFreeNode] in *.
  destruct (upsert_ok (mkProver (p_Location s) n tr2 (<[n := inserted_tuple im ip key val]>
    (<[im := tuple_CopyWithNext tm n]> (p_Data s)))) ip (tuple_CopyWithPrev tp n)) as (tr3 & E3 & Ht3 & HD3);
    [done|done|by apply (acc_in_tree s ip tp)|done| |].
  { cbn. intros old. rewrite !lookup_insert_ne by done. intros Ho. assert (old = tp) as -> by congruence.
    split; [by apply (links_checked _ ip tp Hd)|]. apply change_prev. congruence. }
  cbn [p_Data p_Tree p_Location p_NextFreeNode] in *.
  exists im, ip, tm, tp, tr3. split; [done|]. split; [|split].
  - unfold InsertAndProve. rewrite FindKey_absent by done. cbn [mbind outcome_bind]. rewrite Hf. cbn [mbind outcome_bind].
    unfold Mapping.MustGet. rewrite Hm, Hp. cbn [unwrap mbind outcome_bind]. fold n. rewrite E1. cbn [mbind outcome_bind].
    unfold inserted_tuple in E2, E3. rewrite E2. cbn [mbind outcome_bind]. rewrite E3. cbn [mbind outcome_bind p_Location p_NextFreeNode p_Tree p_Data].
    rewrite i64_succ by lia. unfold SubTreeRoot, insertion_trace. cbn [p_Tree p_Data]. rewrite (acc_root s Hs).
    rewrite (to_root _ _ _ _ Ht3), HD3. done.
  - constructor; cbn [p_Data p_Tree p_NextFreeNode].
    + by apply links_insert.
    + done.
    + done.
    + lia.
    + intros k t Hkt. apply inserted_lookup in Hkt; [|done..].
      destruct Hkt as [[-> ->]|[[-> ->]|[[-> ->]|(_ & _ & _ & Hkt)]]].
      * pose proof (ao_pos s Hs _ _ Hp). lia.
      * lia.
      * pose proof (ao_pos s Hs _ _ Hm). lia.
      * pose proof (ao_pos s Hs _ _ Hkt). lia.
  - by rewrite content_insert.
Qed.

Definition deletion_trace s (i : Z) t tm tp (key : K) : DeletionTrace O K V :=
  let im := Prev (t_LeafOpening t) in
  let ip := Next (t_LeafOpening t) in
  let d1 := <[im := tuple_CopyWithNext tm ip]> (p_Data s) in
  let d2 := delete i d1 in
  let d3 := <[ip := tuple_CopyWithPrev tp im]> d2 in
  {| dt_Type := 0; dt_Location := p_Location s; dt_NewNextFreeNode := p_NextFreeNode s;
     dt_OldSubRoot := root_of (leaf_of (p_Data s)); dt_NewSubRoot := root_of (leaf_of d3);
     dt_ProofMinus := path_of (leaf_of d1) im; dt_ProofDeleted := path_of (leaf_of d2) i;
     dt_ProofPlus := path_of (leaf_of d3) ip; dt_Key := key;
     dt_OldOpenMinus := t_LeafOpening tm; dt_DeletedOpen := t_LeafOpening t;
     dt_OldOpenPlus := t_LeafOpening tp; dt_DeletedValue := t_Value t |}.

Lemma delete_run s order key v :
  acc_ok s -> Mapping.ListAllKeys (p_Data s) order ->
  content (p_Data s) !! d_num (hashKey key) = Some v ->
  exists i t tm tp tr,
    let im := Prev (t_LeafOpening t) in
    let ip := Next (t_LeafOpening t) in
    let d' := data_deleted (p_Data s) i im ip tm tp in
    let s' := mkProver (p_Location s) (p_NextFreeNode s) tr d' in
    p_Data s !! i = Some t /\ i <> 0 /\ i <> 1 /\ HKey (t_LeafOpening t) = hashKey key /\ t_Value t = v /\
    p_Data s !! im = Some tm /\ p_Data s !! ip = Some tp /\
    DeleteAndProve s order key = Ok (s', deletion_trace s i t tm tp key) /\
    acc_ok s' /\ content d' = delete (d_num (hashKey key)) (content (p_Data s)).
Proof.
  intros Hs Ho Hc. pose proof (ao_links s Hs) as Hd. pose proof (ao_free s Hs) as Hn.
  destruct (FindKey_present s order key v Hs Ho Hc) as (i & t & Hf & Hi & H0 & H1 & Hk & Hv).
  set (im := Prev (t_LeafOpening t)). set (ip := Next (t_LeafOpening t)).
  destruct (lk_next _ Hd i t Hi H1) as (tp & Hp & _). destruct (lk_prev _ Hd i t Hi H0) as (tm & Hm & _).
  fold im in Hm. fold ip in Hp.
  destruct (deleted_facts _ i im ip t tm tp Hd Hi H0 H1 eq_refl eq_refl Hm Hp) as (Hnm & Hpp & _ & _ & _ & Hmi & Hpi & Hmp & _).
  destruct (upsert_ok s im (tuple_CopyWithNext tm ip)) as (tr1 & E1 & Ht1 & HD1);
    [apply Hs|apply Hs|by apply (acc_in_tree s im tm)|by apply (links_checked _ im tm Hd)| |].
  { intros old Ho'. assert (old = tm) as -> by congruence. split; [by apply (links_checked _ im tm Hd)|].
    apply change_next. congruence. }
  destruct (rm_ok (mkProver (p_Location s) (p_NextFreeNode s) tr1 (<[im := tuple_CopyWithNext tm ip]> (p_Data s))) i t)
    as (tr2 & E2 & Ht2 & HD2); [done|done|by apply (acc_in_tree s i t)|by cbn; rewrite lookup_insert_ne|].
  cbn [p_Data p_Tree p_Location p_NextFreeNode] in *.
  destruct (upsert_ok (mkProver (p_Location s) (p_NextFreeNode s) tr2 (delete i
    (<[im := tuple_CopyWithNext tm ip]> (p_Data s)))) ip (tuple_CopyWithPrev tp im)) as (tr3 & E3 & Ht3 & HD3);
    [done|done|by apply (acc_in_tree s ip tp)|by apply (links_checked _ ip tp Hd)| |].
  { cbn. intros old. rewrite lookup_delete_ne, lookup_insert_ne by done. intros Ho'. assert (old = tp) as -> by congruence.
    split; [by apply (links_checked _ ip tp Hd)|]. apply change_prev. congruence. }
  cbn [p_Data p_Tree p_Location p_NextFreeNode] in *.
  exists i, t, tm, tp, tr3. split_and!; try done.
  - unfold DeleteAndProve. rewrite Hf. cbn [mbind outcome_bind negb]. unfold Mapping.MustGet. rewrite Hi.
    cbn [unwrap mbind outcome_bind]. fold im ip. rewrite Hm, Hp. cbn [unwrap mbind outcome_bind].
    rewrite E1. cbn [mbind outcome_bind]. rewrite E2. cbn [mbind outcome_bind]. rewrite E3. cbn [mbind outcome_bind].
    unfold SubTreeRoot, deletion_trace. cbn [p_Tree]. rewrite (acc_root s Hs).
    rewrite (to_root _ _ _ _ Ht3), HD3. done.
  - constructor; cbn [p_Data p_Tree p_NextFreeNode]; [by apply (links_delete _ i im ip t)|done|done|lia|].
    intros k tk Hkt. apply (deleted_lookup _ i im ip t tm tp) in Hkt; [|done..].
    destruct Hkt as [[-> ->]|[[-> ->]|(_ & _ & _ & Hkt)]].
    + by apply (ao_pos s Hs _ tp).
    + by apply (ao_pos s Hs _ tm).
    + by apply (ao_pos s Hs _ tk).
  - rewrite (content_delete _ i im ip t) by done. unfold hk. by rewrite Hk.
Qed.

Definition update_trace s (i : Z) t (v : V) : UpdateTrace O K V :=
  let d' := <[i := CopyWithVal t v]> (p_Data s) in
  {| ut_Type := 0; ut_Location := p_Location s; ut_Key := t_Key t; ut_OldValue := t_Value t; ut_NewValue := v;
     ut_NewNextFreeNode := p_NextFreeNode s; ut_OldSubRoot := root_of (leaf_of (p_Data s));
     ut_NewSubRoot := root_of (leaf_of d'); ut_OldOpening := t_LeafOpening t;
     ut_Proof := path_of (leaf_of d') i |}.

Lemma update_run s order key v newVal :
  acc_ok s -> Mapping.ListAllKeys (p_Data s) order ->
  content (p_Data s) !! d_num (hashKey key) = Some v ->
  exists i t tr,
    let d' := <[i := CopyWithVal t newVal]> (p_Data s) in
    let s' := mkProver (p_Location s) (p_NextFreeNode s) tr d' in
    p_Data s !! i = Some t /\ i <> 0 /\ i <> 1 /\ HKey (t_LeafOpening t) = hashKey key /\ t_Value t = v /\
    UpdateAndProve s order key newVal = Ok (s', update_trace s i t newVal) /\
    acc_ok s' /\ content d' = <[d_num (hashKey key) := newVal]> (content (p_Data s)).
Proof.
  intros Hs Ho Hc. pose proof (ao_links s Hs) as Hd.
  destruct (FindKey_present s order key v Hs Ho Hc) as (i & t & Hf & Hi & H0 & H1 & Hk & Hv).
  destruct (tree_write (p_Tree s) (p_Data s) (leaf_of (<[i := CopyWithVal t newVal]> (p_Data s))) i
    (hashLeaf (t_LeafOpening (CopyWithVal t newVal)))) as (tr & Hu & Ht & HD & Hp);
    [apply Hs|apply Hs|by apply (acc_in_tree s i t)|apply leaf_of_insert|].
  exists i, t, tr. split_and!; try done.
  - unfold UpdateAndProve. rewrite Hf. cbn [mbind outcome_bind negb]. unfold Mapping.MustGet. rewrite Hi.
    cbn [unwrap mbind outcome_bind]. destruct (lk_tuple _ Hd i t Hi H0 H1) as [Hkey _].
    rewrite bool_decide_true by congruence. cbn [negb t_LeafOpening t_Key]. unfold CopyWithVal, Hash in *. cbn [t_LeafOpening] in *.
    rewrite Hu. cbn [mbind outcome_bind]. rewrite Hp. cbn [mbind outcome_bind].
    unfold SubTreeRoot, update_trace. cbn [p_Tree]. rewrite (acc_root s Hs), (to_root _ _ _ _ Ht), HD. done.
  - constructor; cbn [p_Data p_Tree p_NextFreeNode]; [by apply links_set_value|done|done|apply Hs|].
    intros k tk [[<- <-]|[_ Hkt]]%lookup_insert_Some; [by apply (ao_pos s Hs _ t)|by apply (ao_pos s Hs _ tk)].
  - rewrite content_set_value by done. unfold hk. by rewrite Hk.
Qed.

Definition readzero_trace s (im ip : Z) (tm tp : KVOpeningTuple O K V) (key : K) : ReadZeroTrace O K :=
  {| rz_Type := 0; rz_Location := p_Location s; rz_Key := key; rz_SubRoot := root_of (leaf_of (p_Data s));
     rz_NextFreeNode := p_NextFreeNode s;
     rz_OpeningMinus := t_LeafOpening tm; rz_OpeningPlus := t_LeafOpening tp;
     rz_ProofMinus := path_of (leaf_of (p_Data s)) im; rz_ProofPlus := path_of (leaf_of (p_Data s)) ip |}.

Lemma readzero_run s order1 order2 key :
  acc_ok s -> Mapping.ListAllKeys (p_Data s) order1 -> Mapping.ListAllKeys (p_Data s) order2 ->
  proper_key key -> content (p_Data s) !! d_num (hashKey key) = None ->
  exists im ip tm tp, sandwiched (p_Data s) (d_num (hashKey key)) im ip tm tp /\
    ReadZeroAndProve s order1 order2 key = Ok (readzero_trace s im ip tm tp key).
Proof.
  intros Hs Ho1 Ho2 Hk Hc. destruct (findSandwich_ok s order2 key Hs Ho2 Hk Hc) as (im & ip & tm & tp & Hf & Hw).
  pose proof Hw as (Hm & Hp & _). exists im, ip, tm, tp. split; [done|].
  unfold ReadZeroAndProve. rewrite FindKey_absent by done. cbn [mbind outcome_bind]. rewrite Hf. cbn [mbind outcome_bind].
  unfold Mapping.MustGet. rewrite Hm, Hp. cbn [unwrap mbind outcome_bind].
  rewrite !tree_prove by (try done; by eapply acc_in_tree). cbn [mbind outcome_bind].
  unfold SubTreeRoot. by rewrite (acc_root s Hs).
Qed.

Definition readnonzero_trace s (i : Z) t : ReadNonZeroTrace O K V :=
  {| rn_Type := 0; rn_Location := p_Location s; rn_NextFreeNode := p_NextFreeNode s;
     rn_Key := t_Key t; rn_Value := t_Value t; rn_SubRoot := root_of (leaf_of (p_Data s));
     rn_LeafOpening := t_LeafOpening t; rn_Proof := path_of (leaf_of (p_Data s)) i |}.

Lemma readnonzero_run s order key v :
  acc_ok s -> Mapping.ListAllKeys (p_Data s) order ->
  content (p_Data s) !! d_num (hashKey key) = Some v ->
  exists i t, p_Data s !! i = Some t /\ i <> 0 /\ i <> 1 /\ HKey (t_LeafOpening t) = hashKey key /\ t_Value t = v /\
    ReadNonZeroAndProve s order key = Ok (readnonzero_trace s i t).
Proof.
  intros Hs Ho Hc. pose proof (ao_links s Hs) as Hd.
  destruct (FindKey_present s order key v Hs Ho Hc) as (i & t & Hf & Hi & H0 & H1 & Hk & Hv).
  exists i, t. split_and!; try done. unfold ReadNonZeroAndProve. rewrite Hf. cbn [mbind outcome_bind negb].
  unfold Mapping.MustGet. rewrite Hi. cbn [unwrap mbind outcome_bind]. destruct (lk_tuple _ Hd i t Hi H0 H1) as [Hkey _].
  rewrite bool_decide_true by congruence. cbn [negb]. rewrite tree_prove by (try done; by eapply acc_in_tree).
  cbn [mbind outcome_bind]. unfold SubTreeRoot. by rewrite (acc_root s Hs).
Qed.
End Prover.
