(* ===== verification/AccTheorems.v ===== *)
(** The theorems of the accumulator: the prover never panics on legal requests and
    refines a finite map, the verifier accepts the traces of the prover and stays in
    step with it, and what the verifier accepts is true of the accumulator that its
    root commits to. *)
From S2P Require Import Prelude Smt Octuplet Accumulator AccInvariant AccProver.

(** ** Lemmas: programs of the verifier *)
Section VerifierLemmas.
Context {O : Type}.
Implicit Types v : VerifierState O.

Lemma bind_get {B} (f : VerifierState O -> verifier O B) v : (get_state ≫= f) v = f v v.
Proof. done. Qed.

Lemma bind_reject {B} (f : unit -> verifier O B) b e v : b = false -> (reject b e ≫= f) v = f tt v.
Proof. by intros ->. Qed.

Lemma bind_lift {A B} (f : A -> verifier O B) m a v : m = Ok a -> (lift m ≫= f) v = f a v.
Proof. by intros ->. Qed.

Lemma bind_put {B} (f : unit -> verifier O B) v v' : (put_state v' ≫= f) v = f tt v'.
Proof. done. Qed.

Lemma bind_reject_inv {B} (f : unit -> verifier O B) b e v v' r :
  (reject b e ≫= f) v = (v', Ok r) -> b = false /\ f tt v = (v', Ok r).
Proof. unfold mbind, verifier_bind, reject. by destruct b. Qed.

Lemma bind_lift_inv {A B} (f : A -> verifier O B) m v v' r :
  (lift m ≫= f) v = (v', Ok r) -> exists a, m = Ok a /\ f a v = (v', Ok r).
Proof. unfold mbind, verifier_bind, lift. destruct m; naive_solver. Qed.

Lemma reject_inv b e v v' : reject b e v = (v', Ok tt) -> b = false /\ v' = v.
Proof. unfold reject. destruct b; naive_solver. Qed.

Lemma put_inv (v0 v v' : VerifierState O) : put_state v0 v = (v', Ok tt) -> v' = v0.
Proof. by intros [= ->]. Qed.

Lemma neq_refl {A} `{EqDecision A} (x : A) : neq x x = false.
Proof. unfold neq. by rewrite bool_decide_true. Qed.

Lemma neq_false {A} `{EqDecision A} (x y : A) : neq x y = false -> x = y.
Proof. unfold neq. case_bool_decide; done. Qed.
End VerifierLemmas.

(** Runs a program of the verifier whose checks pass. *)
Ltac accept :=
  repeat first [ rewrite bind_get | rewrite bind_put
               | rewrite bind_reject; [|by rewrite ?neq_refl] ].

(** Inverts the acceptance of a program of the verifier. *)
Ltac accepted H :=
  repeat match type of H with
  | (get_state ≫= _) _ = _ => rewrite bind_get in H
  | (put_state _ ≫= _) _ = _ => rewrite bind_put in H
  | (reject _ _ ≫= _) _ = _ => let E := fresh "C" in apply bind_reject_inv in H as [E H]
  | (lift _ ≫= _) _ = _ => let a := fresh "r" in let E := fresh "C" in apply bind_lift_inv in H as (a & E & H)
  | reject _ _ _ = _ => let E := fresh "C" in apply reject_inv in H as [E H]
  | put_state _ _ = _ => apply put_inv in H
  end.

(** The nodes of a tree of depth 40 are not to be unfolded by conversion. *)
#[local] Strategy 1000 [Smt.node].

Section Verification.
Context {O K V : Type} `{DO : DigestOrder O} `{HA : !AccHash O K V} `{!AccHashLaws O K V}.
Implicit Types (d : gmap Z (KVOpeningTuple O K V)) (t : KVOpeningTuple O K V) (s : ProverState O K V)
  (f : Z -> O).

Abbreviation root_of f := (node acc_hashLR f 40 0).
Abbreviation path_of f i := (mkProof i (siblings_of acc_hashLR f i 40)).
Abbreviation in_tree i := (0 <= i < 2 ^ 40).

(** ** Lemmas: Merkle checks *)

Lemma merkle_check_ok f i e : in_tree i -> merkle_check (path_of f i) (f i) (root_of f) e = Ok tt.
Proof. intros Hi. unfold merkle_check. by rewrite Verify_path. Qed.

(** The audit of a write: the proof of the position is the same before and
    after it. *)
Lemma updateCheckRoot_ok f f' i :
  in_tree i -> (forall q, q <> i -> f q = f' q) ->
  updateCheckRoot (path_of f' i) (root_of f) (f i) (f' i) = Ok (root_of f').
Proof.
  intros Hi E. unfold updateCheckRoot. rewrite <- (siblings_eq f f') by (done || lia).
  rewrite merkle_check_ok by done. cbn [mbind outcome_bind]. rewrite RecoverRoot_path by done. f_equal.
  apply node_eq. intros q. unfold upd. destruct (Z.eqb_spec q i) as [->|]; [done|by apply E].
Qed.

Lemma leaf_of_some d i t : d !! i = Some t -> leaf_of d i = hashLeaf (t_LeafOpening t).
Proof. unfold leaf_of. by intros ->. Qed.

Lemma leaf_of_none d i : d !! i = None -> leaf_of d i = d_zero.
Proof. unfold leaf_of. by intros ->. Qed.

Lemma leaf_of_insert_ne d i t q : q <> i -> leaf_of d q = leaf_of (<[i := t]> d) q.
Proof. intros. unfold leaf_of. by rewrite lookup_insert_ne. Qed.

Lemma leaf_of_delete_ne d i q : q <> i -> leaf_of d q = leaf_of (delete i d) q.
Proof. intros. unfold leaf_of. by rewrite lookup_delete_ne. Qed.

(** The audit of an overwrite, and of an erasure. *)
Lemma audit_write d i t (old new : O) :
  in_tree i -> leaf_of d i = old -> hashLeaf (t_LeafOpening t) = new ->
  updateCheckRoot (path_of (leaf_of (<[i := t]> d)) i) (root_of (leaf_of d)) old new
  = Ok (root_of (leaf_of (<[i := t]> d))).
Proof.
  intros Hi <- <-. rewrite <- (leaf_of_some (<[i := t]> d) i t) by (apply lookup_insert_eq).
  apply updateCheckRoot_ok; [done|]. intros q Hq. by apply leaf_of_insert_ne.
Qed.

Lemma audit_erase d i (old : O) :
  in_tree i -> leaf_of d i = old ->
  updateCheckRoot (path_of (leaf_of (delete i d)) i) (root_of (leaf_of d)) old d_zero
  = Ok (root_of (leaf_of (delete i d))).
Proof.
  intros Hi <-. pose proof (updateCheckRoot_ok (leaf_of d) (leaf_of (delete i d)) i Hi) as E.
  rewrite (leaf_of_none (delete i d) i) in E by (apply lookup_delete_eq).
  apply E. intros q Hq. by apply leaf_of_delete_ne.
Qed.

(** ** The verifier accepts the traces of the prover *)

Definition in_sync s : VerifierState O :=
  mkVerifier (p_Location s) (p_NextFreeNode s) (root_of (leaf_of (p_Data s))).

Lemma VerifierState_sync s : acc_ok s -> p_VerifierState s = in_sync s.
Proof. intros Hs. unfold p_VerifierState. by rewrite (acc_root s Hs). Qed.

Lemma sandwich_cmp d key im ip tm tp :
  sandwiched d (d_num (hashKey key)) im ip tm tp ->
  (d_cmp (hashKey key) (HKey (t_LeafOpening tm)) <? 1) || (-1 <? d_cmp (hashKey key) (HKey (t_LeafOpening tp))) = false.
Proof.
  intros (_ & _ & Hlt & _). rewrite !d_cmp_num. fold (hk tm) (hk tp).
  rewrite Z.sgn_pos, Z.sgn_neg by lia. done.
Qed.

Lemma insertion_accepted s im ip tm tp key val tr :
  acc_ok s -> p_NextFreeNode s < 2 ^ 40 -> sandwiched (p_Data s) (d_num (hashKey key)) im ip tm tp ->
  let d' := data_inserted (p_Data s) im ip (p_NextFreeNode s) tm tp (inserted_tuple im ip key val) in
  VerifyInsertion (insertion_trace s im ip tm tp key val) (in_sync s)
  = (in_sync (mkProver (p_Location s) (p_NextFreeNode s + 1) tr d'), Ok tt).
Proof.
  intros Hs Hfree Hw d'. pose proof (ao_links s Hs) as Hd. pose proof (ao_free s Hs) as Hn.
  destruct (sandwich_linked _ _ _ _ _ _ Hd Hw) as (Hnx & Hpr & Hm1 & Hmp). pose proof Hw as (Hm & Hp & _).
  pose proof (acc_free s Hs) as Hnone. unfold VerifyInsertion. rewrite bind_get.
  cbn [insertion_trace it_Location it_OldSubRoot it_ProofMinus it_ProofNew it_ProofPlus it_OldOpenMinus it_OldOpenPlus
       it_Key it_Val it_NewSubRoot it_NewNextFreeNode Path in_sync v_Location v_NextFreeNode v_SubTreeRoot].
  set (n := p_NextFreeNode s) in *. accept. rewrite Hnx, Hpr. accept.
  rewrite bind_reject by (by eapply sandwich_cmp).
  rewrite (bind_lift _ _ (root_of (leaf_of (<[im := tuple_CopyWithNext tm n]> (p_Data s))))) by
    (apply audit_write; [by eapply acc_in_tree|by apply leaf_of_some|done]).
  erewrite bind_lift by (apply audit_write; [lia| |done];
    rewrite <- leaf_of_insert_ne by congruence; by apply leaf_of_none).
  erewrite bind_lift by (apply audit_write; [by eapply (acc_in_tree s ip)| |done];
    rewrite <- !leaf_of_insert_ne by congruence; by apply leaf_of_some).
  accept. unfold reject. rewrite i64_succ by lia. rewrite neq_refl. done.
Qed.

Lemma deletion_accepted s i t tm tp key tr :
  acc_ok s -> p_Data s !! i = Some t -> i <> 0 -> i <> 1 -> HKey (t_LeafOpening t) = hashKey key ->
  let im := Prev (t_LeafOpening t) in
  let ip := Next (t_LeafOpening t) in
  p_Data s !! im = Some tm -> p_Data s !! ip = Some tp ->
  VerifyDeletion (deletion_trace s i t tm tp key) (in_sync s)
  = (in_sync (mkProver (p_Location s) (p_NextFreeNode s) tr (data_deleted (p_Data s) i im ip tm tp)), Ok tt).
Proof.
  intros Hs Hi H0 H1 Hk im ip Hm Hp. pose proof (ao_links s Hs) as Hd.
  destruct (deleted_facts _ i im ip t tm tp Hd Hi H0 H1 eq_refl eq_refl Hm Hp) as (Hnm & Hpp & _ & _ & _ & Hmi & Hpi & Hmp & _).
  destruct (lk_tuple _ Hd i t Hi H0 H1) as [_ HV]. unfold VerifyDeletion. rewrite bind_get.
  cbn [deletion_trace dt_Location dt_OldSubRoot dt_ProofMinus dt_ProofDeleted dt_ProofPlus dt_OldOpenMinus dt_OldOpenPlus
       dt_DeletedOpen dt_DeletedValue dt_Key dt_NewSubRoot dt_NewNextFreeNode Path in_sync v_Location v_NextFreeNode v_SubTreeRoot].
  fold im ip. accept. rewrite <- HV. accept. rewrite Hnm, Hpp. accept.
  rewrite bind_reject by (unfold MatchKey; by rewrite bool_decide_true).
  erewrite bind_lift by (apply audit_write; [by eapply (acc_in_tree s im)|by apply leaf_of_some|done]).
  erewrite bind_lift by (apply audit_erase; [by eapply (acc_in_tree s i)|];
    rewrite <- leaf_of_insert_ne by congruence; by apply leaf_of_some).
  erewrite bind_lift by (apply audit_write; [by eapply (acc_in_tree s ip)| |done];
    rewrite <- leaf_of_delete_ne, <- leaf_of_insert_ne by congruence; by apply leaf_of_some).
  accept. done.
Qed.

Lemma update_accepted s i t newVal tr :
  acc_ok s -> p_Data s !! i = Some t -> i <> 0 -> i <> 1 ->
  UpdateVerify (update_trace s i t newVal) (in_sync s)
  = (in_sync (mkProver (p_Location s) (p_NextFreeNode s) tr (<[i := CopyWithVal t newVal]> (p_Data s))), Ok tt).
Proof.
  intros Hs Hi H0 H1. pose proof (ao_links s Hs) as Hd. unfold UpdateVerify. rewrite bind_get.
  cbn [update_trace ut_Location ut_OldSubRoot ut_Proof ut_OldOpening ut_OldValue ut_NewValue ut_Key ut_NewSubRoot
       ut_NewNextFreeNode in_sync v_Location v_NextFreeNode v_SubTreeRoot]. accept.
  erewrite bind_lift by (apply CheckAndLeaf_ok; by apply (links_checked _ i t Hd)).
  cbn [t_LeafOpening].
  rewrite (siblings_eq (leaf_of (<[i := CopyWithVal t newVal]> (p_Data s))) (leaf_of (p_Data s)) i) by
    (first [by apply (ao_pos s Hs i t) | intros q Hq; symmetry; by apply leaf_of_insert_ne]).
  rewrite <- (leaf_of_some (p_Data s) i t) by done.
  erewrite bind_lift by (apply merkle_check_ok; by eapply acc_in_tree).
  rewrite <- (siblings_eq (leaf_of (<[i := CopyWithVal t newVal]> (p_Data s))) (leaf_of (p_Data s)) i) by
    (first [by apply (ao_pos s Hs i t) | intros q Hq; symmetry; by apply leaf_of_insert_ne]).
  erewrite bind_lift by (apply audit_write; [by eapply acc_in_tree|done|done]).
  accept. done.
Qed.

Lemma readzero_accepted s im ip tm tp key :
  acc_ok s -> sandwiched (p_Data s) (d_num (hashKey key)) im ip tm tp ->
  ReadZeroVerify (readzero_trace s im ip tm tp key) (in_sync s) = (in_sync s, Ok tt).
Proof.
  intros Hs Hw. pose proof (ao_links s Hs) as Hd.
  destruct (sandwich_linked _ _ _ _ _ _ Hd Hw) as (Hnx & Hpr & _). pose proof Hw as (Hm & Hp & _).
  unfold ReadZeroVerify. rewrite bind_get.
  cbn [readzero_trace rz_Location rz_SubRoot rz_ProofMinus rz_ProofPlus rz_OpeningMinus rz_OpeningPlus rz_Key
       rz_NextFreeNode Path in_sync v_Location v_NextFreeNode v_SubTreeRoot].
  accept. rewrite Hnx, Hpr. accept. rewrite bind_reject by (by eapply sandwich_cmp).
  rewrite <- (leaf_of_some _ _ _ Hm), <- (leaf_of_some _ _ _ Hp).
  erewrite bind_lift by (apply merkle_check_ok; by eapply acc_in_tree).
  erewrite bind_lift by (apply merkle_check_ok; by eapply acc_in_tree).
  unfold reject. by rewrite neq_refl.
Qed.

Lemma readnonzero_accepted s i t :
  acc_ok s -> p_Data s !! i = Some t ->
  ReadNonZeroVerify (readnonzero_trace s i t) (in_sync s) = (in_sync s, Ok tt).
Proof.
  intros Hs Hi. pose proof (ao_links s Hs) as Hd. unfold ReadNonZeroVerify. rewrite bind_get.
  cbn [readnonzero_trace rn_Location rn_SubRoot rn_Proof rn_LeafOpening rn_Key rn_Value
       rn_NextFreeNode in_sync v_Location v_NextFreeNode v_SubTreeRoot]. accept.
  erewrite bind_lift by (apply CheckAndLeaf_ok; by apply (links_checked _ i t Hd)). cbn [t_LeafOpening].
  rewrite <- (leaf_of_some _ _ _ Hi).
  erewrite bind_lift by (apply merkle_check_ok; by eapply acc_in_tree).
  unfold reject. by rewrite neq_refl.
Qed.

(** ** Requests

    A request to the prover, when it is legal, and what it does to the abstract
    map. *)
Inductive request :=
| ReqInsert (key : K) (val : V)
| ReqDelete (key : K)
| ReqUpdate (key : K) (newVal : V)
| ReqReadZero (key : K)
| ReqReadNonZero (key : K).

Definition run s (order1 order2 : list Z) (r : request) : outcome acc_error (ProverState O K V * Trace O K V) :=
  match r with
  | ReqInsert key val => '(s', tr) ← InsertAndProve s order1 order2 key val; Ok (s', TraceInsertion tr)
  | ReqDelete key => '(s', tr) ← DeleteAndProve s order1 key; Ok (s', TraceDeletion tr)
  | ReqUpdate key newVal => '(s', tr) ← UpdateAndProve s order1 key newVal; Ok (s', TraceUpdate tr)
  | ReqReadZero key => tr ← ReadZeroAndProve s order1 order2 key; Ok (s, TraceReadZero tr)
  | ReqReadNonZero key => tr ← ReadNonZeroAndProve s order1 key; Ok (s, TraceReadNonZero tr)
  end.

Definition legal (m : gmap Z V) (free : Z) (r : request) : Prop :=
  match r with
  | ReqInsert key _ => proper_key key /\ m !! d_num (hashKey key) = None /\ free < 2 ^ 40
  | ReqReadZero key => proper_key key /\ m !! d_num (hashKey key) = None
  | ReqDelete key | ReqUpdate key _ | ReqReadNonZero key => is_Some (m !! d_num (hashKey key))
  end.

Definition spec (m : gmap Z V) (r : request) : gmap Z V :=
  match r with
  | ReqInsert key val | ReqUpdate key val => <[d_num (hashKey key) := val]> m
  | ReqDelete key => delete (d_num (hashKey key)) m
  | ReqReadZero _ | ReqReadNonZero _ => m
  end.

Definition spec_free (free : Z) (r : request) : Z :=
  match r with ReqInsert _ _ => free + 1 | _ => free end.

(** What the traces of the reads say. *)
Definition reads_right (m : gmap Z V) (r : request) (tr : Trace O K V) : Prop :=
  match r, tr with
  | ReqReadNonZero key, TraceReadNonZero t =>
      hashKey (rn_Key t) = hashKey key /\ m !! d_num (hashKey key) = Some (rn_Value t)
  | ReqReadZero key, TraceReadZero t => rz_Key t = key
  | ReqDelete key, TraceDeletion t => m !! d_num (hashKey key) = Some (dt_DeletedValue t)
  | ReqUpdate key _, TraceUpdate t => m !! d_num (hashKey key) = Some (ut_OldValue t)
  | ReqInsert key val, TraceInsertion t => it_Key t = key /\ it_Val t = val
  | _, _ => False
  end.

Lemma run_ok s order1 order2 r :
  acc_ok s -> Mapping.ListAllKeys (p_Data s) order1 -> Mapping.ListAllKeys (p_Data s) order2 ->
  legal (content (p_Data s)) (p_NextFreeNode s) r ->
  exists s' tr, run s order1 order2 r = Ok (s', tr) /\ acc_ok s' /\
    content (p_Data s') = spec (content (p_Data s)) r /\ p_NextFreeNode s' = spec_free (p_NextFreeNode s) r /\
    reads_right (content (p_Data s)) r tr /\
    verify_trace tr (p_VerifierState s) = (p_VerifierState s', Ok tt).
Proof.
  intros Hs Ho1 Ho2 Hl. rewrite (VerifierState_sync s Hs). destruct r as [key val|key|key val|key|key]; cbn [legal run spec spec_free] in *.
  - destruct Hl as (Hk & Hc & Hf).
    destruct (insert_run s order1 order2 key val Hs Ho1 Ho2 Hk Hc Hf) as (im & ip & tm & tp & tr & Hw & -> & Hs' & Hc').
    eexists _, _. split; [done|]. rewrite (VerifierState_sync _ Hs'). split_and!; try done. by apply insertion_accepted.
  - destruct Hl as [v Hv].
    destruct (delete_run s order1 key v Hs Ho1 Hv) as (i & t & tm & tp & tr & Hi & H0 & H1 & Hk & Hval & Hm & Hp & -> & Hs' & Hc').
    eexists _, _. split; [done|]. rewrite (VerifierState_sync _ Hs'). split_and!; try done; [by cbn; rewrite Hval|].
    by apply deletion_accepted.
  - destruct Hl as [v Hv].
    destruct (update_run s order1 key v val Hs Ho1 Hv) as (i & t & tr & Hi & H0 & H1 & Hk & Hval & -> & Hs' & Hc').
    eexists _, _. split; [done|]. rewrite (VerifierState_sync _ Hs'). split_and!; try done; [by cbn; rewrite Hval|].
    by apply update_accepted.
  - destruct Hl as (Hk & Hc).
    destruct (readzero_run s order1 order2 key Hs Ho1 Ho2 Hk Hc) as (im & ip & tm & tp & Hw & ->).
    eexists _, _. split; [done|]. rewrite (VerifierState_sync _ Hs). split_and!; try done. by apply readzero_accepted.
  - destruct Hl as [v Hv].
    destruct (readnonzero_run s order1 key v Hs Ho1 Hv) as (i & t & Hi & H0 & H1 & Hk & Hval & ->).
    eexists _, _. split; [done|]. rewrite (VerifierState_sync _ Hs). split_and!; try done; [|by apply readnonzero_accepted].
    cbn. rewrite Hval. split; [|done]. rewrite <- Hk. symmetry. by apply (lk_tuple _ (ao_links s Hs) i t).
Qed.

(** ** The empty accumulator *)

Lemma init_ok loc :
  exists s, InitializeProverState loc = Ok s /\ acc_ok s /\ content (p_Data s) = ∅ /\ p_NextFreeNode s = 2.
Proof.
  set (head := mkTuple Head zeroKey zeroVal : KVOpeningTuple O K V).
  set (tail := mkTuple Tail zeroKey zeroVal : KVOpeningTuple O K V).
  destruct (tree_write (NewEmptyTree d_zero acc_hashLR []) ∅ (leaf_of (<[0 := head]> ∅)) 0 (hashLeaf Head))
    as (tr1 & E1 & Ht1 & HD1 & _).
  { eapply tree_ok_eq; [|apply (NewEmptyTree_ok d_zero acc_hashLR [])]; [done|]. change (1 <= 40 <= 62)%nat. lia. }
  { done. } { lia. } { intros q. apply leaf_of_insert. }
  destruct (tree_write tr1 (<[0 := head]> ∅) (leaf_of (<[1 := tail]> (<[0 := head]> ∅))) 1 (hashLeaf Tail))
    as (tr2 & E2 & Ht2 & HD2 & _); [done|done|lia|intros q; apply leaf_of_insert|].
  exists (mkProver loc 2 tr2 (<[1 := tail]> (<[0 := head]> ∅))). split.
  { unfold InitializeProverState, Hash. rewrite E1. cbn [mbind outcome_bind]. rewrite E2. reflexivity. }
  clear E1 E2.
  assert (forall i t, <[1 := tail]> (<[0 := head]> (∅ : gmap Z (KVOpeningTuple O K V))) !! i = Some t -> i = 1 /\ t = tail \/ i = 0 /\ t = head) as Hl.
  { intros i t. rewrite !lookup_insert_Some, lookup_empty. intros [[Hi Ht]|[_ [[Hi Ht]|[_ Hn]]]]; [left|right|discriminate Hn]; by split. }
  assert (hk head = d_num d_zero /\ hk tail = d_num d_max) as [Hh Ht] by done. pose proof d_zero_max as Hzm.
  assert (links_ok (<[1 := tail]> (<[0 := head]> ∅))) as Hd.
  { constructor.
    - exists head. by rewrite lookup_insert_ne, lookup_insert_eq.
    - exists tail. by rewrite lookup_insert_eq.
    - intros i t [[-> ->]|[-> ->]]%Hl; lia.
    - intros i j ti tj [[-> ->]|[-> ->]]%Hl [[-> ->]|[-> ->]]%Hl E; (done || lia).
    - intros i t [[-> ->]|[-> ->]]%Hl Hi; [done|]. exists tail. cbn [head t_LeafOpening Head Next].
      rewrite lookup_insert_eq. split_and!; [done|done|lia|]. intros k t [[-> ->]|[-> ->]]%Hl; lia.
    - intros i t [[-> ->]|[-> ->]]%Hl Hi; [|done]. exists head. cbn [tail t_LeafOpening Tail Prev].
      by rewrite lookup_insert_ne, lookup_insert_eq.
    - intros i t [[-> ->]|[-> ->]]%Hl; done. }
  split; [|split; [|done]].
  - constructor; cbn; [done|done|done|lia|]. intros i t [[-> ->]|[-> ->]]%Hl; lia.
  - apply map_eq. intros n. apply option_eq. intros v. cbn [p_Data]. rewrite content_lookup, lookup_empty by done. split; [|done].
    intros (i & t & [[-> ->]|[-> ->]]%Hl & H0 & H1 & _); done.
Qed.

(** ** Lemmas: soundness

    A proof is bound to a tree when it has the length of the tree's paths and the
    comparison with the path of the tree exhibits no collision; an opening is bound
    to a set of entries when its hash is neither the empty leaf nor the hash of
    another opening stored there. *)
Definition bound_path f (p : MerkleProof O) (leaf : O) : Prop :=
  length (Siblings p) = 40%nat /\ proof_collisions acc_hashLR f p leaf = [].

Definition bound_opening d (o : LeafOpening O) : Prop :=
  hashLeaf o <> d_zero /\
  forall i t, d !! i = Some t -> hashLeaf o = hashLeaf (t_LeafOpening t) -> o = t_LeafOpening t.

(** The entries after the leaf of a position has been opened to [o]. *)
Definition with_opening d (i : Z) (o : LeafOpening O) : gmap Z (KVOpeningTuple O K V) :=
  <[i := mkTuple o zeroKey zeroVal]> d.

Lemma merkle_check_inv f p leaf e u :
  bound_path f p leaf -> merkle_check p leaf (root_of f) e = Ok u ->
  in_tree (Path p) /\ leaf = f (Path p) /\ p = path_of f (Path p).
Proof.
  intros [Hn Hc] Hv. apply (Verify_binding acc_hashLR f p leaf 40 Hn); [|done].
  unfold merkle_check in Hv. destruct (Verify _ _ _ _) as [[]| |]; done.
Qed.

Lemma audit_inv f p old new r :
  bound_path f p old -> updateCheckRoot p (root_of f) old new = Ok r ->
  in_tree (Path p) /\ old = f (Path p) /\ r = root_of (upd f (Path p) new).
Proof.
  intros Hb Hu. unfold updateCheckRoot in Hu. ok_inv Hu.
  destruct (merkle_check_inv f p old _ _ Hb E) as (Hi & Hl & Hp). split; [done|]. split; [done|].
  rewrite Hp in Hu. rewrite RecoverRoot_path in Hu by done. congruence.
Qed.

Lemma opening_stored d i o : bound_opening d o -> hashLeaf o = leaf_of d i -> exists t, d !! i = Some t /\ t_LeafOpening t = o.
Proof.
  intros [Hz Hb] E. unfold leaf_of in E. destruct (d !! i) as [t|] eqn:Hi; [|done].
  exists t. split; [done|]. symmetry. by apply (Hb i).
Qed.

Lemma with_opening_leaf d i o t q :
  t_LeafOpening t = o -> leaf_of (with_opening d i o) q = leaf_of (<[i := t]> d) q.
Proof. intros <-. unfold with_opening. by rewrite !leaf_of_insert. Qed.

Lemma upd_with_opening d i o q : upd (leaf_of d) i (hashLeaf o) q = leaf_of (with_opening d i o) q.
Proof. unfold with_opening. by rewrite leaf_of_insert. Qed.

(** The checks on the order of the sandwich. *)
Lemma sandwich_cmp_inv (h a b : O) :
  (d_cmp h a <? 1) || (-1 <? d_cmp h b) = false -> d_num a < d_num h < d_num b.
Proof.
  rewrite !d_cmp_num. intros [H1%Z.ltb_ge H2%Z.ltb_ge]%orb_false_iff.
  destruct (Z.sgn_spec (d_num h - d_num a)) as [[? E]|[[? E]|[? E]]]; rewrite E in H1; [|lia..].
  destruct (Z.sgn_spec (d_num h - d_num b)) as [[? E']|[[? E']|[? E']]]; rewrite E' in H2; lia.
Qed.

Lemma pointers_inv (a b c e : Z) : neq a b || neq c e = false -> a = b /\ c = e.
Proof. intros [?%neq_false ?%neq_false]%orb_false_iff. done. Qed.

(** The neighbour above an entry whose key is below the maximum. *)
Lemma next_stored d i t (h : Z) :
  links_ok d -> d !! i = Some t -> hk t < h -> h <= d_num d_max ->
  exists tn, d !! Next (t_LeafOpening t) = Some tn /\ Prev (t_LeafOpening tn) = i /\ hk t < hk tn /\
    gap d (hk t) (hk tn) /\ Next (t_LeafOpening t) <> i.
Proof.
  intros Hd Hi Hlt Hmax. assert (i <> 1) as H1 by (apply (links_not_tail d _ _ Hd Hi); lia).
  destruct (lk_next d Hd _ _ Hi H1) as (tn & Hn & Hp & Hl & Hg). exists tn. split_and!; try done.
  intros E. rewrite E in Hn. assert (tn = t) as -> by congruence. lia.
Qed.

Definition bound_insertion s (tr : InsertionTrace O K V) : Prop :=
  let n := p_NextFreeNode s in
  let newLeaf := mkLeaf (Path (it_ProofMinus tr)) (Path (it_ProofPlus tr)) (hashKey (it_Key tr)) (hashVal (it_Val tr)) in
  let d0 := p_Data s in
  let d1 := with_opening d0 (Path (it_ProofMinus tr)) (CopyWithNext (it_OldOpenMinus tr) n) in
  let d2 := with_opening d1 n newLeaf in
  bound_opening d0 (it_OldOpenMinus tr) /\ bound_path (leaf_of d0) (it_ProofMinus tr) (hashLeaf (it_OldOpenMinus tr)) /\
  bound_path (leaf_of d1) (it_ProofNew tr) d_zero /\
  bound_opening d2 (it_OldOpenPlus tr) /\ bound_path (leaf_of d2) (it_ProofPlus tr) (hashLeaf (it_OldOpenPlus tr)).

Definition bound_deletion s (tr : DeletionTrace O K V) : Prop :=
  let d0 := p_Data s in
  let d1 := with_opening d0 (Path (dt_ProofMinus tr)) (CopyWithNext (dt_OldOpenMinus tr) (Path (dt_ProofPlus tr))) in
  let d2 := delete (Path (dt_ProofDeleted tr)) d1 in
  bound_opening d0 (dt_OldOpenMinus tr) /\ bound_path (leaf_of d0) (dt_ProofMinus tr) (hashLeaf (dt_OldOpenMinus tr)) /\
  bound_opening d1 (dt_DeletedOpen tr) /\ bound_path (leaf_of d1) (dt_ProofDeleted tr) (hashLeaf (dt_DeletedOpen tr)) /\
  bound_opening d2 (dt_OldOpenPlus tr) /\ bound_path (leaf_of d2) (dt_ProofPlus tr) (hashLeaf (dt_OldOpenPlus tr)).

(** What the checks of an accepted insertion say. *)
Lemma insertion_checks s tr v' :
  acc_ok s -> bound_insertion s tr -> d_num (hashKey (it_Key tr)) < d_num d_max ->
  VerifyInsertion tr (in_sync s) = (v', Ok tt) ->
  exists tm tp, let im := Path (it_ProofMinus tr) in let ip := Path (it_ProofPlus tr) in
    let n := p_NextFreeNode s in
    sandwiched (p_Data s) (d_num (hashKey (it_Key tr))) im ip tm tp /\ n < 2 ^ 40 /\
    v' = mkVerifier (p_Location s) (n + 1)
      (root_of (leaf_of (data_inserted (p_Data s) im ip n tm tp (inserted_tuple im ip (it_Key tr) (it_Val tr))))).
Proof.
  intros Hs Hb Hmax Hv. pose proof (ao_links s Hs) as Hd. pose proof (ao_free s Hs) as Hfree. pose proof (acc_free s Hs) as Hnone.
  destruct Hb as (Hbm & Hpm & Hpn & Hbp & Hpp). unfold VerifyInsertion, Hash in Hv. accepted Hv.
  cbn [in_sync v_Location v_NextFreeNode v_SubTreeRoot] in *.
  set (n := p_NextFreeNode s) in *. set (im := Path (it_ProofMinus tr)) in *. set (ip := Path (it_ProofPlus tr)) in *.
  apply neq_false in C, C0, C1, C7, C8. apply pointers_inv in C2 as [Hnx Hpr]. apply sandwich_cmp_inv in C3 as [Hlm Hlp].
  rewrite <- C0 in C4.
  apply (audit_inv (leaf_of (p_Data s))) in C4 as (Him & Hm & ->); [|done]. fold im in Him, Hm, C5.
  destruct (opening_stored _ _ _ Hbm Hm) as (tm & Htm & Om).
  rewrite (node_eq _ _ 40 0 (upd_with_opening _ _ _)) in C5. apply audit_inv in C5 as (Hin & _ & ->); [|done].
  rewrite (node_eq _ _ 40 0 (upd_with_opening _ _ _)) in C6. rewrite C1 in *.
  apply audit_inv in C6 as (Hip & Hp & ->); [|done]. fold ip in Hip, Hp, Hv.
  destruct (next_stored (p_Data s) im tm (d_num (hashKey (it_Key tr)))) as (tp & Htp & Hpp' & Hl & Hg & Hne);
    [done|done|unfold hk; by rewrite Om|lia|]. rewrite Om, Hnx in Htp, Hne.
  assert (ip <> n) as Hpn' by (intros E; rewrite E in Htp; congruence).
  destruct (opening_stored _ _ _ Hbp Hp) as (tp' & Htp' & Op).
  unfold with_opening in Htp'. rewrite !lookup_insert_ne in Htp' by done. assert (tp' = tp) as -> by congruence.
  assert (sandwiched (p_Data s) (d_num (hashKey (it_Key tr))) im ip tm tp) as Hw.
  { split_and!; [done|done|unfold hk; by rewrite Om|unfold hk; by rewrite Op|done]. }
  exists tm, tp. split; [done|]. split; [lia|]. rewrite Hv. rewrite i64_succ by lia. f_equal.
  apply node_eq. intros q. unfold data_inserted. rewrite leaf_of_insert. cbn [tuple_CopyWithPrev t_LeafOpening]. rewrite Op.
  unfold upd. destruct (q =? ip); [done|].
  unfold with_opening. rewrite !leaf_of_insert. unfold upd. destruct (q =? n); [done|]. rewrite !leaf_of_insert.
  unfold upd. destruct (q =? im); [|done]. cbn. by rewrite Om.
Qed.

(** What the checks of an accepted deletion say. *)
Lemma deletion_checks s tr v' :
  acc_ok s -> bound_deletion s tr -> proper_key (dt_Key tr) ->
  VerifyDeletion tr (in_sync s) = (v', Ok tt) ->
  exists t tm tp, let i := Path (dt_ProofDeleted tr) in
    let im := Prev (t_LeafOpening t) in let ip := Next (t_LeafOpening t) in
    p_Data s !! i = Some t /\ i <> 0 /\ i <> 1 /\ HKey (t_LeafOpening t) = hashKey (dt_Key tr) /\
    hashVal (t_Value t) = hashVal (dt_DeletedValue tr) /\
    p_Data s !! im = Some tm /\ p_Data s !! ip = Some tp /\
    v' = mkVerifier (p_Location s) (p_NextFreeNode s) (root_of (leaf_of (data_deleted (p_Data s) i im ip tm tp))).
Proof.
  intros Hs Hb Hk Hv. pose proof (ao_links s Hs) as Hd.
  destruct Hb as (Hbm & Hpm & Hbd & Hpd & Hbp & Hpp). unfold VerifyDeletion, Hash in Hv. accepted Hv.
  cbn [in_sync v_Location v_NextFreeNode v_SubTreeRoot] in *.
  set (i := Path (dt_ProofDeleted tr)) in *. set (im := Path (dt_ProofMinus tr)) in *. set (ip := Path (dt_ProofPlus tr)) in *.
  apply neq_false in C, C0, C1, C8, C9. apply pointers_inv in C2 as [Hnm Hpd'], C3 as [Hnd Hpp'].
  apply negb_false_iff, bool_decide_eq_true in C4. rewrite <- C0 in C5.
  apply (audit_inv (leaf_of (p_Data s))) in C5 as (Him & Hm & ->); [|done]. fold im in Him, Hm, C6.
  destruct (opening_stored _ _ _ Hbm Hm) as (tm & Htm & Om).
  rewrite (node_eq _ _ 40 0 (upd_with_opening _ _ _)) in C6. apply audit_inv in C6 as (Hi & Hdel & ->); [|done]. fold i in Hi, Hdel, C7.
  destruct (opening_stored _ _ _ Hbd Hdel) as (t & Ht & Ot). unfold with_opening in Ht.
  unfold proper_key in Hk. rewrite <- C4 in Hk.
  assert (im <> i) as Hmi.
  { intros E. rewrite E, lookup_insert_eq in Ht. injection Ht as <-. cbn in Ot. rewrite <- Ot in Hk. cbn in Hk.
    destruct (next_stored (p_Data s) im tm (d_num d_max)) as (_ & _ & _ & _ & _ & Hne); [done|done|unfold hk; rewrite Om; lia|lia|].
    rewrite Om in Hne. congruence. }
  rewrite lookup_insert_ne in Ht by done. rewrite <- Ot in *.
  assert (i <> 0) as H0 by (apply (links_not_head _ _ _ Hd Ht); unfold hk; lia).
  assert (i <> 1) as H1 by (apply (links_not_tail _ _ _ Hd Ht); unfold hk; lia).
  destruct (lk_next _ Hd i t Ht H1) as (tp & Htp & _). rewrite Hnd in Htp.
  destruct (deleted_facts _ i im ip t tm tp Hd Ht H0 H1 Hpd' Hnd Htm Htp) as (_ & _ & _ & _ & _ & _ & Hpi & Hmp & _).
  rewrite (node_eq _ (leaf_of (delete i (with_opening (p_Data s) im (CopyWithNext (dt_OldOpenMinus tr) ip)))) 40 0) in C7
    by (intros q; by rewrite leaf_of_delete).
  apply audit_inv in C7 as (Hip & Hp & ->); [|done]. fold ip in Hip, Hp, Hv.
  destruct (opening_stored _ _ _ Hbp Hp) as (tp' & Htp' & Op).
  unfold with_opening in Htp'. rewrite lookup_delete_ne, lookup_insert_ne in Htp' by done. assert (tp' = tp) as -> by congruence.
  exists t, tm, tp. rewrite Hpd', Hnd. split_and!; try done.
  { rewrite C1. symmetry. by apply (lk_tuple _ Hd i t). }
  rewrite Hv. f_equal. apply node_eq. intros q. unfold data_deleted. rewrite leaf_of_insert.
  cbn [tuple_CopyWithPrev t_LeafOpening]. rewrite Op. unfold upd. destruct (q =? ip); [done|].
  rewrite !leaf_of_delete. unfold upd, with_opening. destruct (q =? i); [done|]. rewrite !leaf_of_insert.
  unfold upd. destruct (q =? im); [|done]. cbn. by rewrite Om.
Qed.

(** What an accepted opening of one leaf says, when it is not the head's or the
    tail's. *)
Lemma opening_checks s (key : K) (val : V) (o : LeafOpening O) p e leaf u :
  acc_ok s -> bound_opening (p_Data s) o -> bound_path (leaf_of (p_Data s)) p (hashLeaf o) -> HeadOrTail o = false ->
  CheckAndLeaf (mkTuple o key val) = Ok leaf ->
  merkle_check p leaf (root_of (leaf_of (p_Data s))) e = Ok u ->
  exists t, p_Data s !! Path p = Some t /\ t_LeafOpening t = o /\ Path p <> 0 /\ Path p <> 1 /\
    HKey o = hashKey key /\ HVal o = hashVal val /\ hashVal (t_Value t) = hashVal val /\ leaf = hashLeaf o.
Proof.
  intros Hs Hb Hp Hht Hc Hm. pose proof (ao_links s Hs) as Hd. unfold CheckAndLeaf in Hc. cbn [t_LeafOpening t_Key t_Value] in Hc.
  rewrite Hht in Hc. case_bool_decide as Hk; [|done]. case_bool_decide as HV; [|done]. cbn [negb] in Hc. injection Hc as <-.
  apply (merkle_check_inv (leaf_of (p_Data s))) in Hm as (_ & Hl & _); [|done].
  destruct (opening_stored _ _ _ Hb Hl) as (t & Ht & Ot). apply orb_false_iff in Hht as [Hmax Hzero].
  apply bool_decide_eq_false in Hmax, Hzero.
  assert (Path p <> 0) as H0.
  { intros E. rewrite E in Ht. destruct (lk_head _ Hd) as (t0 & Ht0 & Hz & _). congruence. }
  assert (Path p <> 1) as H1.
  { intros E. rewrite E in Ht. destruct (lk_tail _ Hd) as (t0 & Ht0 & Hz & _). congruence. }
  exists t. split_and!; try done. destruct (lk_tuple _ Hd _ _ Ht H0 H1) as [_ E]. congruence.
Qed.

(** The claims that an audited write defers. *)
Definition all_verify (claims : list (ProvedClaim O)) : Prop :=
  Forall (fun c => Verify acc_hashLR (claim_Proof c) (claim_Leaf c) (claim_Root c) = Ok tt) claims.

Lemma deferCheckUpdateRoot_ok p root old new r acc :
  updateCheckRoot p root old new = Ok r ->
  exists claims, deferCheckUpdateRoot p root old new acc = Ok (acc ++ claims, r) /\ all_verify claims.
Proof.
  unfold updateCheckRoot, deferCheckUpdateRoot, merkle_check. intros Hu. ok_inv Hu.
  destruct (Verify acc_hashLR p old root) as [[]| |] eqn:Hv; [|done..].
  destruct (RecoverRoot acc_hashLR p new) as [r'|e|] eqn:Hr; [| |done].
  - injection Hu as ->. cbn [must mbind outcome_bind]. eexists. split; [done|]. repeat constructor; cbn; [done|].
    by apply Verify_iff.
  - unfold RecoverRoot in Hr. destruct (foldl _ _ _). by destruct (negb _).
Qed.

Lemma merkle_check_verify p leaf root e u : merkle_check p leaf root e = Ok u -> Verify acc_hashLR p leaf root = Ok tt.
Proof. unfold merkle_check. by destruct (Verify acc_hashLR p leaf root) as [[]| |]. Qed.

(** An honest path is bound to its tree. *)
Lemma path_no_collision f l i n :
  0 <= i -> path_collisions acc_hashLR f l i (node acc_hashLR f l i)
    ((fun k => node acc_hashLR f k ((i ≫ (Z.of_nat k - Z.of_nat l)) ^^^ 1)) <$> seq l n) = [].
Proof.
  revert l i. induction n as [|n IH]; intros l i Hi; [done|]. cbn [seq fmap list_fmap path_collisions].
  rewrite Z.sub_diag, Z.shiftr_0_r.
  assert (proof_pair i (node acc_hashLR f l i) (node acc_hashLR f l (i ^^^ 1)) = pair_at acc_hashLR f l i) as E.
  { unfold proof_pair, pair_at. rewrite shiftr1_div. destruct (idx_cases i) as [(-> & -> & ?)|(-> & -> & ?)]; cbn [Z.eqb];
      f_equal; f_equal; golia. }
  rewrite E, decide_True by done. rewrite <- (IH (S l) (i ≫ 1)) at 1 by (by apply Z.shiftr_nonneg). f_equal.
  apply list_fmap_ext. intros k x Hx%lookup_seq. f_equal. f_equal. rewrite Z.shiftr_shiftr by lia. f_equal. lia.
Qed.

Lemma bound_honest f i : in_tree i -> bound_path f (path_of f i) (f i).
Proof.
  intros Hi. split; [apply length_siblings_of|]. unfold proof_collisions, siblings_of. cbn [Path Siblings].
  etransitivity; [|exact (path_no_collision f 0 i 40 ltac:(lia))].
  change (node acc_hashLR f 0 i) with (f i). f_equal.
Qed.
End Verification.

(** ** Theorems *)
Section Theorems.
Context {O K V : Type} `{DO : DigestOrder O} `{HA : !AccHash O K V} `{!AccHashLaws O K V}.
Implicit Types (s : ProverState O K V).

Abbreviation view s := (content (p_Data s)).
Abbreviation hkey key := (d_num (hashKey key)).

(** Each request refines the abstract map: from a state that satisfies the
    invariant, a legal insertion, deletion, update, read of an absent key or read of
    a present key, whatever the order in which the map is scanned, does not panic,
    keeps the invariant, acts on the content as the map operation, returns in its
    trace what the map holds, and the verifier that knows the root and the next free
    node accepts the trace and ends with those of the new state. *)
Theorem request_refines s order1 order2 (r : request) :
  acc_ok s -> Mapping.ListAllKeys (p_Data s) order1 -> Mapping.ListAllKeys (p_Data s) order2 ->
  legal (view s) (p_NextFreeNode s) r ->
  exists s' tr, run s order1 order2 r = Ok (s', tr) /\ acc_ok s' /\ view s' = spec (view s) r /\
    p_NextFreeNode s' = spec_free (p_NextFreeNode s) r /\ reads_right (view s) r tr /\
    verify_trace tr (p_VerifierState s) = (p_VerifierState s', Ok tt).
Proof. apply run_ok. Qed.

(** A history of requests, with the orders [enum] in which the successive scans
    visit the map, and the audit of its traces. *)
Fixpoint run_history (enum : nat -> gmap Z (KVOpeningTuple O K V) -> list Z) (n : nat) s (rs : list request) :
    outcome acc_error (ProverState O K V * list (Trace O K V)) :=
  match rs with
  | [] => Ok (s, [])
  | r :: rs =>
      '(s', tr) ← run s (enum n (p_Data s)) (enum (S n) (p_Data s)) r;
      '(s'', trs) ← run_history enum (S (S n)) s' rs;
      Ok (s'', tr :: trs)
  end.

Fixpoint audit (trs : list (Trace O K V)) : verifier O unit :=
  match trs with
  | [] => mret tt
  | tr :: trs => _ ← verify_trace tr; audit trs
  end.

Fixpoint legal_history (m : gmap Z V) (free : Z) (rs : list request) : Prop :=
  match rs with
  | [] => True
  | r :: rs => legal m free r /\ legal_history (spec m r) (spec_free free r) rs
  end.

Lemma history_ok enum n s rs :
  (forall n d, Mapping.ListAllKeys d (enum n d)) -> acc_ok s -> legal_history (view s) (p_NextFreeNode s) rs ->
  exists s' trs, run_history enum n s rs = Ok (s', trs) /\ acc_ok s' /\ view s' = foldl spec (view s) rs /\
    audit trs (p_VerifierState s) = (p_VerifierState s', Ok tt).
Proof.
  intros Henum. revert n s. induction rs as [|r rs IH]; intros n s Hs Hl; cbn [run_history legal_history foldl] in *.
  - exists s, []. done.
  - destruct Hl as [Hl Hls].
    destruct (run_ok s (enum n (p_Data s)) (enum (S n) (p_Data s)) r) as (s1 & tr & -> & Hs1 & Hc & Hf & _ & Hv); [done..|].
    rewrite <- Hc, <- Hf in Hls. destruct (IH (S (S n)) s1 Hs1 Hls) as (s2 & trs & Hr & Hs2 & Hc2 & Ha).
    exists s2, (tr :: trs). cbn [mbind outcome_bind]. rewrite Hr. split_and!; [done|done|by rewrite Hc2, Hc|].
    cbn [audit]. unfold mbind, verifier_bind. by rewrite Hv.
Qed.


(** Illegal requests panic: inserting or reading as absent a key that is
    present, deleting, updating or reading as present a key that is absent. *)
Theorem illegal_requests_panic s order1 order2 (key : K) (val : V) :
  acc_ok s -> Mapping.ListAllKeys (p_Data s) order1 -> proper_key key ->
  match view s !! hkey key with
  | Some _ => run s order1 order2 (ReqInsert key val) = Panic /\ run s order1 order2 (ReqReadZero key) = Panic
  | None => run s order1 order2 (ReqDelete key) = Panic /\ run s order1 order2 (ReqUpdate key val) = Panic /\
            run s order1 order2 (ReqReadNonZero key) = Panic
  end.
Proof.
  intros Hs Ho Hk. destruct (view s !! hkey key) as [v|] eqn:Hc.
  - destruct (FindKey_present s order1 key v Hs Ho Hc) as (i & t & Hf & _).
    split; cbn [run]; unfold InsertAndProve, ReadZeroAndProve; by rewrite Hf.
  - split_and!; cbn [run]; unfold DeleteAndProve, UpdateAndProve, ReadNonZeroAndProve; by rewrite FindKey_absent.
Qed.

(** Soundness of non-membership: when the verifier accepts a read of an absent
    key against the root of an accumulator, the key is absent from it, provided the
    two openings and the two Merkle proofs of the trace exhibit no collision with the
    accumulator's. *)
Theorem ReadZeroVerify_sound s (tr : ReadZeroTrace O K) v' :
  acc_ok s ->
  bound_opening (p_Data s) (rz_OpeningMinus tr) -> bound_opening (p_Data s) (rz_OpeningPlus tr) ->
  bound_path (leaf_of (p_Data s)) (rz_ProofMinus tr) (hashLeaf (rz_OpeningMinus tr)) ->
  bound_path (leaf_of (p_Data s)) (rz_ProofPlus tr) (hashLeaf (rz_OpeningPlus tr)) ->
  ReadZeroVerify tr (p_VerifierState s) = (v', Ok tt) ->
  view s !! hkey (rz_Key tr) = None /\ v' = p_VerifierState s.
Proof.
  intros Hs Hbm Hbp Hpm Hpp Hv. rewrite (VerifierState_sync s Hs) in *. pose proof (ao_links s Hs) as Hd.
  unfold ReadZeroVerify in Hv. accepted Hv. cbn [in_sync v_Location v_NextFreeNode v_SubTreeRoot] in *.
  apply neq_false in C0. apply pointers_inv in C1 as [Hnx Hpr]. apply sandwich_cmp_inv in C2. rewrite <- C0 in *.
  apply merkle_check_inv in C3 as (_ & Hm & _); [|done]. apply merkle_check_inv in C4 as (_ & Hp & _); [|done].
  destruct (opening_stored _ _ _ Hbm Hm) as (tm & Htm & Om), (opening_stored _ _ _ Hbp Hp) as (tp & Htp & Op).
  pose proof (lk_range _ Hd _ _ Htp) as Hmax. unfold hk in Hmax. rewrite Op in Hmax.
  destruct (next_stored (p_Data s) (Path (rz_ProofMinus tr)) tm (hkey (rz_Key tr))) as (tn & Htn & _ & _ & Hg & _);
    [done|done|unfold hk; rewrite Om; lia|lia|].
  rewrite Om, Hnx in Htn. assert (tn = tp) as -> by congruence. split; [|done].
  apply eq_None_not_Some. intros [v (i & t & Hi & _ & _ & E & _)%content_lookup]; [|done].
  destruct (Hg i t Hi); unfold hk in *; rewrite ?Om, ?Op in *; lia.
Qed.

(** Soundness of membership: when the verifier accepts a read of a present key
    with an opening that is neither the head's nor the tail's, the accumulator holds,
    for a key with this hash, a value with the hash of the value read, unless a
    collision is exhibited. *)
Theorem ReadNonZeroVerify_sound s (tr : ReadNonZeroTrace O K V) v' :
  acc_ok s -> bound_opening (p_Data s) (rn_LeafOpening tr) ->
  bound_path (leaf_of (p_Data s)) (rn_Proof tr) (hashLeaf (rn_LeafOpening tr)) ->
  HeadOrTail (rn_LeafOpening tr) = false ->
  ReadNonZeroVerify tr (p_VerifierState s) = (v', Ok tt) ->
  v' = p_VerifierState s /\
  exists v, view s !! hkey (rn_Key tr) = Some v /\ hashVal v = hashVal (rn_Value tr).
Proof.
  intros Hs Hb Hp Hht Hv. rewrite (VerifierState_sync s Hs) in *. pose proof (ao_links s Hs) as Hd.
  unfold ReadNonZeroVerify in Hv. accepted Hv. cbn [in_sync v_Location v_NextFreeNode v_SubTreeRoot] in *.
  apply neq_false in C0. rewrite <- C0 in *.
  destruct (opening_checks s _ _ _ _ _ _ _ Hs Hb Hp Hht C1 C2) as (t & Ht & Ot & H0 & H1 & Hk & HV & HV' & _).
  split; [done|]. exists (t_Value t). split; [|done]. apply content_lookup; [done|].
  exists (Path (rn_Proof tr)), t. split_and!; try done. unfold hk. by rewrite Ot, Hk.
Qed.



(** Soundness of updates: when the verifier accepts an update whose opening is
    neither the head's nor the tail's, without a collision, the accumulator holds
    for this key a value with the hash of the old value, and the verifier ends with
    the root of the accumulator after the prover's own update. *)
Theorem UpdateVerify_sound s (tr : UpdateTrace O K V) v' order :
  acc_ok s -> bound_opening (p_Data s) (ut_OldOpening tr) ->
  bound_path (leaf_of (p_Data s)) (ut_Proof tr) (hashLeaf (ut_OldOpening tr)) ->
  HeadOrTail (ut_OldOpening tr) = false -> Mapping.ListAllKeys (p_Data s) order ->
  UpdateVerify tr (p_VerifierState s) = (v', Ok tt) ->
  exists v s' tr', view s !! hkey (ut_Key tr) = Some v /\ hashVal v = hashVal (ut_OldValue tr) /\
    UpdateAndProve s order (ut_Key tr) (ut_NewValue tr) = Ok (s', tr') /\ acc_ok s' /\ v' = p_VerifierState s'.
Proof.
  intros Hs Hb Hp Hht Ho Hv. rewrite (VerifierState_sync s Hs) in *. pose proof (ao_links s Hs) as Hd.
  unfold UpdateVerify in Hv. accepted Hv. cbn [in_sync v_Location v_NextFreeNode v_SubTreeRoot] in *.
  apply neq_false in C0, C4. rewrite <- C0 in *.
  destruct (opening_checks s _ _ _ _ _ _ _ Hs Hb Hp Hht C1 C2) as (t & Ht & Ot & H0 & H1 & Hk & HV & HV' & ->).
  apply audit_inv in C3 as (_ & _ & Hroot); [|done].
  assert (view s !! hkey (ut_Key tr) = Some (t_Value t)) as Hc.
  { apply content_lookup; [done|]. exists (Path (ut_Proof tr)), t. split_and!; try done. unfold hk. by rewrite Ot, Hk. }
  destruct (update_run s order _ _ (ut_NewValue tr) Hs Ho Hc) as (i' & t' & tree & Hi' & _ & _ & Hk' & _ & Hr & Hs' & _).
  assert (i' = Path (ut_Proof tr)) as -> by (apply (lk_inj _ Hd _ _ _ _ Hi' Ht), hk_eq; congruence).
  assert (t' = t) as -> by congruence.
  eexists _, _, _. split; [exact Hc|]. split; [done|]. split; [exact Hr|]. split; [done|].
  rewrite (VerifierState_sync _ Hs'), Hv. unfold in_sync. cbn [p_Location p_NextFreeNode p_Data]. f_equal. rewrite <- C4, Hroot.
  apply node_eq. intros q. rewrite leaf_of_insert. unfold CopyWithVal. cbn [t_LeafOpening]. by rewrite Ot.
Qed.

(** The deferred checks are those of the verifier: of a trace that the verifier
    accepts, [DeferMerkleChecks] returns, after the claims it was given, claims that
    all pass [Verify]. *)
Theorem deferred_claims_verify (tr : Trace O K V) v v' (appendTo : list (ProvedClaim O)) :
  verify_trace tr v = (v', Ok tt) ->
  exists claims, DeferMerkleChecks tr appendTo = Ok (appendTo ++ claims) /\
    Forall (fun c => Verify acc_hashLR (claim_Proof c) (claim_Leaf c) (claim_Root c) = Ok tt) claims.
Proof.
  intros Hv. destruct tr as [tr|tr|tr|tr|tr]; cbn [verify_trace DeferMerkleChecks] in *.
  - unfold VerifyInsertion in Hv. accepted Hv. apply neq_false in C1. rewrite <- C1 in C4. unfold insertion_DeferMerkleChecks.
    destruct (deferCheckUpdateRoot_ok _ _ _ _ _ appendTo C4) as (c1 & -> & H1). cbn [mbind outcome_bind].
    destruct (deferCheckUpdateRoot_ok _ _ _ _ _ (appendTo ++ c1) C5) as (c2 & -> & H2). cbn [mbind outcome_bind].
    destruct (deferCheckUpdateRoot_ok _ _ _ _ _ ((appendTo ++ c1) ++ c2) C6) as (c3 & -> & H3). cbn [mbind outcome_bind].
    rewrite <- !app_assoc. eexists. split; [done|]. by rewrite !Forall_app.
  - unfold VerifyDeletion in Hv. accepted Hv. unfold deletion_DeferMerkleChecks.
    destruct (deferCheckUpdateRoot_ok _ _ _ _ _ appendTo C5) as (c1 & -> & H1). cbn [mbind outcome_bind].
    destruct (deferCheckUpdateRoot_ok _ _ _ _ _ (appendTo ++ c1) C6) as (c2 & -> & H2). cbn [mbind outcome_bind].
    destruct (deferCheckUpdateRoot_ok _ _ _ _ _ ((appendTo ++ c1) ++ c2) C7) as (c3 & -> & H3). cbn [mbind outcome_bind].
    rewrite <- !app_assoc. eexists. split; [done|]. by rewrite !Forall_app.
  - unfold UpdateVerify in Hv. accepted Hv. unfold update_DeferMerkleChecks, leaf_or_zero. rewrite C1.
    destruct (deferCheckUpdateRoot_ok _ _ _ _ _ appendTo C3) as (c1 & -> & H1). cbn [mbind outcome_bind]. by eexists.
  - unfold ReadZeroVerify in Hv. accepted Hv. apply merkle_check_verify in C3, C4.
    unfold readzero_DeferMerkleChecks. rewrite <- app_assoc. eexists. split; [done|]. by repeat constructor.
  - unfold ReadNonZeroVerify in Hv. accepted Hv. apply merkle_check_verify in C2.
    unfold readnonzero_DeferMerkleChecks, leaf_or_zero. rewrite C1. eexists. split; [done|]. by repeat constructor.
Qed.

(** [CheckAndLeaf] does not compare the key and the value of an opening of the
    head: for every key and every value there is a trace that
    [ReadNonZeroVerify] accepts, although no such entry was ever inserted, and for
    every key and every pair of values an update that [UpdateVerify] accepts, which
    changes the leaf of the head. *)
Theorem head_opening_accepted s (key : K) (old new : V) :
  acc_ok s ->
  exists (rd : ReadNonZeroTrace O K V) (up : UpdateTrace O K V) (head : LeafOpening O) v',
    rn_Key rd = key /\ rn_Value rd = old /\
    ReadNonZeroVerify rd (p_VerifierState s) = (p_VerifierState s, Ok tt) /\
    ut_Key up = key /\ ut_OldValue up = old /\ ut_NewValue up = new /\
    UpdateVerify up (p_VerifierState s) = (v', Ok tt) /\ HKey head = d_zero /\
    v_SubTreeRoot v' = node acc_hashLR (upd (leaf_of (p_Data s)) 0
      (hashLeaf (mkLeaf (Prev head) (Next head) (HKey head) (hashVal new)))) 40 0.
Proof.
  intros Hs. rewrite (VerifierState_sync s Hs). destruct (lk_head _ (ao_links s Hs)) as (t & Ht & Hz & _).
  set (f := leaf_of (p_Data s)). assert (hashLeaf (t_LeafOpening t) = f 0) as Hf by (symmetry; by apply leaf_of_some).
  assert (forall v : V, CheckAndLeaf (mkTuple (t_LeafOpening t) key v) = Ok (f 0)) as Hc.
  { intros v. rewrite <- Hf. apply (CheckAndLeaf_ok (mkTuple (t_LeafOpening t) key v)). left. unfold HeadOrTail. cbn. rewrite Hz.
    by rewrite (bool_decide_true (d_zero = d_zero)), orb_true_r. }
  set (o' := mkLeaf (Prev (t_LeafOpening t)) (Next (t_LeafOpening t)) (HKey (t_LeafOpening t)) (hashVal new)).
  exists (mkReadNonZero 0 (p_Location s) (p_NextFreeNode s) key old (node acc_hashLR f 40 0) (t_LeafOpening t)
           (mkProof 0 (siblings_of acc_hashLR f 0 40))),
    (mkUpdate 0 (p_Location s) key old new (p_NextFreeNode s) (node acc_hashLR f 40 0)
       (node acc_hashLR (upd f 0 (hashLeaf o')) 40 0) (t_LeafOpening t) (mkProof 0 (siblings_of acc_hashLR f 0 40))),
    (t_LeafOpening t), (mkVerifier (p_Location s) (p_NextFreeNode s) (node acc_hashLR (upd f 0 (hashLeaf o')) 40 0)).
  split_and!; try reflexivity; [| |exact Hz].
  - unfold ReadNonZeroVerify. rewrite bind_get. cbn [rn_Location rn_SubRoot rn_Proof rn_LeafOpening rn_Key rn_Value
       rn_NextFreeNode in_sync v_Location v_NextFreeNode v_SubTreeRoot]. accept. erewrite bind_lift by apply Hc.
    erewrite bind_lift by (by apply merkle_check_ok). unfold reject. by rewrite neq_refl.
  - unfold UpdateVerify. rewrite bind_get. cbn [ut_Location ut_OldSubRoot ut_Proof ut_OldOpening ut_OldValue ut_NewValue
       ut_Key ut_NewSubRoot ut_NewNextFreeNode in_sync v_Location v_NextFreeNode v_SubTreeRoot]. accept. erewrite bind_lift by apply Hc.
    erewrite bind_lift by (by apply merkle_check_ok). fold o'.
    erewrite bind_lift; [|unfold updateCheckRoot; rewrite merkle_check_ok by done; cbn [mbind outcome_bind];
      rewrite RecoverRoot_path by done; reflexivity]. accept. reflexivity.
Qed.

(** [VerifyInsertion] updates the verifier before its last check: an insertion
    trace of the prover, with any wrong [NewNextFreeNode], is rejected with an error,
    and yet the verifier has the root and the next free node of the insertion. *)
Theorem insertion_error_changes_state s im ip tm tp key val (w : Z) :
  acc_ok s -> p_NextFreeNode s < 2 ^ 40 -> sandwiched (p_Data s) (d_num (hashKey key)) im ip tm tp ->
  w <> p_NextFreeNode s + 1 ->
  let tr := insertion_trace s im ip tm tp key val in
  let tr' := mkInsertion (it_Type tr) (it_Location tr) w (it_OldSubRoot tr) (it_NewSubRoot tr) (it_ProofMinus tr)
    (it_ProofNew tr) (it_ProofPlus tr) (it_Key tr) (it_Val tr) (it_OldOpenMinus tr) (it_OldOpenPlus tr) in
  exists v', VerifyInsertion tr (p_VerifierState s) = (v', Ok tt) /\
    VerifyInsertion tr' (p_VerifierState s) = (v', Err (ErrNextFreeNode (p_NextFreeNode s + 1) w)) /\
    v_NextFreeNode v' = p_NextFreeNode s + 1.
Proof.
  intros Hs Hfree Hw Hne tr tr'. rewrite (VerifierState_sync s Hs).
  pose proof (insertion_accepted s im ip tm tp key val (p_Tree s) Hs Hfree Hw) as Ha. fold tr in Ha.
  eexists. split; [exact Ha|]. split; [|reflexivity]. pose proof Ha as Hv. unfold VerifyInsertion in Hv. accepted Hv.
  cbn [in_sync v_Location v_NextFreeNode v_SubTreeRoot] in *. pose proof (ao_free s Hs) as Hn.
  unfold VerifyInsertion. rewrite bind_get. cbn [in_sync v_Location v_NextFreeNode v_SubTreeRoot].
  subst tr'. cbn [it_Location it_OldSubRoot it_ProofMinus it_ProofNew it_ProofPlus it_OldOpenMinus it_OldOpenPlus
       it_Key it_Val it_NewSubRoot it_NewNextFreeNode].
  rewrite !bind_reject by done. erewrite bind_lift by exact C4. erewrite bind_lift by exact C5.
  erewrite bind_lift by exact C6. rewrite bind_reject by done. rewrite bind_put. cbn [v_NextFreeNode].
  unfold reject. rewrite Hv, i64_succ by lia. unfold neq. rewrite bool_decide_false by congruence. reflexivity.
Qed.
End Theorems.

(** ** Witnesses: an accumulator of integers *)

#[local] Instance toy_digest : Digest Z := {| d_zero := 0; d_max := 1000; d_cmp x y := Z.sgn (x - y) |}.

#[local] Instance toy_order : DigestOrder Z.
Proof. refine {| d_num x := x |}; done. Defined.

#[local] Instance toy_hashes : AccHash Z Z Z := {|
  acc_hashLR x y := 1 + Z.abs x + 3 * Z.abs y;
  hashKey k := k;
  hashVal v := v;
  hashLeaf l := Z.pos (encode (Prev l, Next l, HKey l, HVal l));
  zeroKey := 0;
  zeroVal := 0
|}.

#[local] Instance toy_laws : AccHashLaws Z Z Z.
Proof. intros x y. cbn. lia. Qed.

Lemma toy_bound_opening (d : gmap Z (KVOpeningTuple Z Z Z)) o : bound_opening d o.
Proof.
  split; [done|]. intros i t _ E. apply (inj Z.pos), (inj encode) in E.
  destruct o, (t_LeafOpening t). by injection E as -> -> -> ->.
Qed.

(** The paths of an honest write are bound to the tree before it. *)
Lemma bound_write (f f' : Z -> Z) i leaf :
  0 <= i < 2 ^ 40 -> (forall q, q <> i -> f q = f' q) -> f i = leaf ->
  bound_path f (mkProof i (siblings_of acc_hashLR f' i 40)) leaf.
Proof. intros Hi E <-. rewrite <- (siblings_eq f f') by (done || lia). by apply bound_honest. Qed.

Lemma toy_insertion_bound (s : ProverState Z Z Z) im ip tm tp key val :
  acc_ok s -> p_NextFreeNode s < 2 ^ 40 -> sandwiched (p_Data s) (d_num (hashKey key)) im ip tm tp ->
  bound_insertion s (insertion_trace s im ip tm tp key val).
Proof.
  intros Hs Hfree Hw. pose proof (ao_free s Hs). pose proof (acc_free s Hs) as Hnone. pose proof Hw as (Hm & Hp & _).
  destruct (sandwich_linked _ _ _ _ _ _ (ao_links s Hs) Hw) as (_ & _ & _ & Hmp).
  pose proof (acc_in_tree s _ _ Hs Hm). pose proof (acc_in_tree s _ _ Hs Hp).
  assert (im <> p_NextFreeNode s /\ ip <> p_NextFreeNode s) as [Hmn Hpn] by (split; congruence).
  unfold bound_insertion, insertion_trace, with_opening.
  cbn [it_ProofMinus it_ProofNew it_ProofPlus it_OldOpenMinus it_OldOpenPlus it_Key it_Val Path].
  split_and!; [apply toy_bound_opening| | |apply toy_bound_opening|]; apply bound_write; try lia.
  - intros q Hq. by apply leaf_of_insert_ne.
  - by apply leaf_of_some.
  - intros q Hq. rewrite !leaf_of_insert. unfold upd. destruct (Z.eqb_spec q (p_NextFreeNode s)); [done|]. by rewrite leaf_of_insert.
  - rewrite <- leaf_of_insert_ne by done. by apply leaf_of_none.
  - intros q Hq. rewrite <- (leaf_of_insert_ne _ ip) by done. rewrite !leaf_of_insert. unfold upd.
    destruct (q =? p_NextFreeNode s); [done|]. by rewrite !leaf_of_insert.
  - rewrite <- !leaf_of_insert_ne by done. by apply leaf_of_some.
Qed.

Lemma toy_deletion_bound (s : ProverState Z Z Z) i t tm tp key :
  acc_ok s -> p_Data s !! i = Some t -> i <> 0 -> i <> 1 ->
  p_Data s !! Prev (t_LeafOpening t) = Some tm -> p_Data s !! Next (t_LeafOpening t) = Some tp ->
  bound_deletion s (deletion_trace s i t tm tp key).
Proof.
  intros Hs Hi H0 H1 Hm Hp. set (im := Prev (t_LeafOpening t)) in *. set (ip := Next (t_LeafOpening t)) in *.
  destruct (deleted_facts _ i im ip t tm tp (ao_links s Hs) Hi H0 H1 eq_refl eq_refl Hm Hp)
    as (_ & _ & _ & _ & _ & Hmi & Hpi & Hmp & _).
  pose proof (acc_in_tree s _ _ Hs Hm). pose proof (acc_in_tree s _ _ Hs Hp). pose proof (acc_in_tree s _ _ Hs Hi).
  unfold bound_deletion, deletion_trace, with_opening.
  cbn [dt_ProofMinus dt_ProofDeleted dt_ProofPlus dt_OldOpenMinus dt_OldOpenPlus dt_DeletedOpen dt_Key Path]. fold im ip.
  split_and!; [apply toy_bound_opening| |apply toy_bound_opening| |apply toy_bound_opening|]; apply bound_write; try lia.
  - intros q Hq. by apply leaf_of_insert_ne.
  - by apply leaf_of_some.
  - intros q Hq. rewrite leaf_of_delete. unfold upd. destruct (Z.eqb_spec q i); [done|]. by rewrite !leaf_of_insert.
  - rewrite <- leaf_of_insert_ne by done. by apply leaf_of_some.
  - intros q Hq. rewrite leaf_of_insert. unfold upd. destruct (Z.eqb_spec q ip); [done|].
    rewrite !leaf_of_delete. unfold upd. destruct (q =? i); [done|]. by rewrite !leaf_of_insert.
  - rewrite <- leaf_of_delete_ne, <- leaf_of_insert_ne by done. by apply leaf_of_some.
Qed.

(** The order of [map_to_list]. *)
Definition key_order (d : gmap Z (KVOpeningTuple Z Z Z)) : list Z := (map_to_list d).*1.

Lemma key_order_ok d : Mapping.ListAllKeys d (key_order d).
Proof. unfold Mapping.ListAllKeys. done. Qed.

Lemma toy_proper k : 0 < k < 1000 -> proper_key k.
Proof. done. Qed.

(** The empty accumulator, and the one that holds 42 under key 7. *)
Lemma toy_empty : exists s : ProverState Z Z Z, acc_ok s /\ content (p_Data s) = ∅ /\ p_NextFreeNode s = 2.
Proof. destruct (init_ok "toy") as (s & _ & H). eauto. Qed.

Lemma toy_one : exists s : ProverState Z Z Z, acc_ok s /\ content (p_Data s) = {[7 := 42]} /\ p_NextFreeNode s = 3.
Proof.
  destruct toy_empty as (s & Hs & Hc & Hf).
  destruct (run_ok s _ _ (ReqInsert 7 42) Hs (key_order_ok _) (key_order_ok _)) as (s' & tr & _ & Hs' & Hc' & Hf' & _).
  { cbn. rewrite Hc, Hf. split; [by apply toy_proper|]. split; [done|lia]. }
  exists s'. rewrite Hc', Hf'. cbn. by rewrite Hc, Hf.
Qed.

Lemma request_refines_witness :
  exists (s s' : ProverState Z Z Z) tr,
    run s (key_order (p_Data s)) (key_order (p_Data s)) (ReqInsert 5 9) = Ok (s', tr) /\
    content (p_Data s') = <[5 := 9]> {[7 := 42]} /\
    verify_trace tr (p_VerifierState s) = (p_VerifierState s', Ok tt).
Proof.
  destruct toy_one as (s & Hs & Hc & Hf).
  destruct (request_refines s _ _ (ReqInsert 5 9) Hs (key_order_ok _) (key_order_ok _)) as (s' & tr & Hr & _ & Hc' & _ & _ & Hv).
  { cbn. rewrite Hc, Hf. split; [by apply toy_proper|]. split; [reflexivity|lia]. }
  exists s, s', tr. split; [exact Hr|]. rewrite Hc in Hc'. split; assumption.
Defined.


Lemma illegal_requests_panic_witness :
  exists s : ProverState Z Z Z, run s (key_order (p_Data s)) [] (ReqInsert 7 1) = Panic.
Proof.
  destruct toy_one as (s & Hs & Hc & _). exists s.
  pose proof (illegal_requests_panic s (key_order (p_Data s)) [] 7 1 Hs (key_order_ok _) (toy_proper 7 ltac:(done))) as H.
  rewrite Hc in H. apply H.
Defined.

Lemma ReadZeroVerify_sound_witness :
  exists (s : ProverState Z Z Z) tr,
    ReadZeroVerify tr (p_VerifierState s) = (p_VerifierState s, Ok tt) /\ rz_Key tr = 5 /\ content (p_Data s) !! 5 = None.
Proof.
  destruct toy_one as (s & Hs & Hc & _).
  destruct (readzero_run s _ _ 5 Hs (key_order_ok _) (key_order_ok _) (toy_proper 5 ltac:(done))) as (im & ip & tm & tp & Hw & _).
  { rewrite Hc. reflexivity. }
  pose proof Hw as (Hm & Hp & _). pose proof (readzero_accepted s im ip tm tp 5 Hs Hw) as Hv.
  rewrite <- (VerifierState_sync s Hs) in Hv. exists s, (readzero_trace s im ip tm tp 5). split; [exact Hv|]. split; [reflexivity|].
  refine (proj1 (ReadZeroVerify_sound s (readzero_trace s im ip tm tp 5) _ Hs (toy_bound_opening _ _) (toy_bound_opening _ _) _ _ Hv)).
  - apply bound_write; [exact (acc_in_tree s im tm Hs Hm)|reflexivity|by apply leaf_of_some].
  - apply bound_write; [exact (acc_in_tree s ip tp Hs Hp)|reflexivity|by apply leaf_of_some].
Defined.

Lemma ReadNonZeroVerify_sound_witness :
  exists (s : ProverState Z Z Z) tr v,
    ReadNonZeroVerify tr (p_VerifierState s) = (p_VerifierState s, Ok tt) /\
    content (p_Data s) !! rn_Key tr = Some v /\ v = rn_Value tr.
Proof.
  destruct toy_one as (s & Hs & Hc & _).
  destruct (readnonzero_run s _ 7 42 Hs (key_order_ok _)) as (i & t & Hi & H0 & H1 & Hk & _ & _); [rewrite Hc; reflexivity|].
  pose proof (readnonzero_accepted s i t Hs Hi) as Hv. rewrite <- (VerifierState_sync s Hs) in Hv.
  assert (HeadOrTail (t_LeafOpening t) = false) as Hht by (unfold HeadOrTail; rewrite Hk; reflexivity).
  assert (bound_path (leaf_of (p_Data s)) (rn_Proof (readnonzero_trace s i t)) (hashLeaf (t_LeafOpening t))) as Hb
    by (apply bound_write; [exact (acc_in_tree s i t Hs Hi)|reflexivity|by apply leaf_of_some]).
  destruct (ReadNonZeroVerify_sound s (readnonzero_trace s i t) _ Hs (toy_bound_opening _ _) Hb Hht Hv) as (_ & v & Hcv & Hval).
  exists s, (readnonzero_trace s i t), v. split; [exact Hv|]. split; assumption.
Defined.



Lemma UpdateVerify_sound_witness :
  exists (s : ProverState Z Z Z) tr v' s' tr',
    UpdateVerify tr (p_VerifierState s) = (v', Ok tt) /\
    UpdateAndProve s (key_order (p_Data s)) (ut_Key tr) (ut_NewValue tr) = Ok (s', tr') /\ v' = p_VerifierState s'.
Proof.
  destruct toy_one as (s & Hs & Hc & Hf).
  destruct (update_run s _ 7 42 43 Hs (key_order_ok _)) as (i & t & tree & Hi & H0 & H1 & Hk & _); [rewrite Hc; reflexivity|].
  pose proof (update_accepted s i t 43 tree Hs Hi H0 H1) as Hv. rewrite <- (VerifierState_sync s Hs) in Hv.
  assert (HeadOrTail (t_LeafOpening t) = false) as Hht by (unfold HeadOrTail; rewrite Hk; reflexivity).
  assert (bound_path (leaf_of (p_Data s)) (ut_Proof (update_trace s i t 43)) (hashLeaf (t_LeafOpening t))) as Hb
    by (apply bound_write; [exact (acc_in_tree s i t Hs Hi)|intros q Hq; by apply leaf_of_insert_ne|by apply leaf_of_some]).
  destruct (UpdateVerify_sound s (update_trace s i t 43) _ _ Hs (toy_bound_opening _ _) Hb Hht (key_order_ok _) Hv)
    as (v & s' & tr' & _ & _ & Hr & _ & E).
  exists s, (update_trace s i t 43). eexists _, s', tr'. split; [exact Hv|]. split; [exact Hr|exact E].
Defined.

Lemma deferred_claims_verify_witness :
  exists (s : ProverState Z Z Z) tr claims,
    DeferMerkleChecks tr [] = Ok claims /\
    Forall (fun c => Verify acc_hashLR (claim_Proof c) (claim_Leaf c) (claim_Root c) = Ok tt) claims.
Proof.
  destruct toy_one as (s & Hs & Hc & Hf).
  destruct (readnonzero_run s _ 7 42 Hs (key_order_ok _)) as (i & t & Hi & _); [rewrite Hc; reflexivity|].
  destruct (deferred_claims_verify (TraceReadNonZero (readnonzero_trace s i t)) _ _ [] (readnonzero_accepted s i t Hs Hi))
    as (claims & Hd & Hall).
  exists s, (TraceReadNonZero (readnonzero_trace s i t)), claims. split; assumption.
Defined.

Lemma head_opening_accepted_witness :
  exists (s : ProverState Z Z Z) rd,
    rn_Key rd = 999 /\ rn_Value rd = 123 /\ ReadNonZeroVerify rd (p_VerifierState s) = (p_VerifierState s, Ok tt) /\
    content (p_Data s) !! 999 = None.
Proof.
  destruct toy_one as (s & Hs & Hc & Hf).
  destruct (head_opening_accepted s 999 123 124 Hs) as (rd & _ & _ & _ & Hk & Hv & Hr & _).
  exists s, rd. rewrite Hc. split; [exact Hk|]. split; [exact Hv|]. split; [exact Hr|reflexivity].
Defined.

Lemma insertion_error_changes_state_witness :
  exists (s : ProverState Z Z Z) tr v',
    VerifyInsertion tr (p_VerifierState s) = (v', Err (ErrNextFreeNode 4 0)) /\ v_NextFreeNode v' = 4 /\ p_NextFreeNode s = 3.
Proof.
  destruct toy_one as (s & Hs & Hc & Hf). assert (p_NextFreeNode s < 2 ^ 40) as Hfree by lia.
  destruct (readzero_run s _ _ 5 Hs (key_order_ok _) (key_order_ok _) (toy_proper 5 ltac:(done))) as (im & ip & tm & tp & Hw & _).
  { rewrite Hc. reflexivity. }
  destruct (insertion_error_changes_state s im ip tm tp 5 9 0 Hs Hfree Hw ltac:(lia)) as (v' & _ & Hv & Hn).
  rewrite Hf in Hv, Hn. eexists s, _, v'. split; [exact Hv|]. split; [exact Hn|exact Hf].
Defined.
