(* ===== verification/AccHashing.v ===== *)
(** The hashing of the accumulator over the Poseidon2 hasher: [LeafOpening.WriteTo],
    [WriteInt64On64Bytes], the top roots, and the instance of the hash interface that
    the state manager uses.

    The compression function of Poseidon2 is a parameter, as the field is. *)
From stdpp Require Import vector.
From S2P Require Import Prelude Smt Octuplet Accumulator.

Section Hashing.
Context {F : Type} `{KF : KoalaField F}.
Context (CompressPoseidon2 : Octuplet F -> Octuplet F -> Octuplet F).
Implicit Types (w : MDHasher F) (leaf : LeafOpening (Octuplet F)).

(** The number of bytes that a [Write] reports. *)
Definition reported (r : outcome io_error nat) : Z :=
  match r with Ok n => Z.of_nat n | _ => 0 end.

Definition WriteInt64On64Bytes w (x : Z) : outcome io_error (MDHasher F * Z) :=
  res ← int64_on_64_bytes x;
  let '(w, r) := Write w res in Ok (w, reported r).

Definition octuplet_WriteTo (e : Octuplet F) w : MDHasher F * Z :=
  let '(w, r) := Write w (ToBytes e) in (w, reported r).

Definition LeafOpening_WriteTo leaf w : outcome io_error (MDHasher F * Z) :=
  '(w, n0) ← WriteInt64On64Bytes w (Prev leaf);
  '(w, n1) ← WriteInt64On64Bytes w (Next leaf);
  let '(w, n2) := octuplet_WriteTo (HKey leaf) w in
  let '(w, n3) := octuplet_WriteTo (HVal leaf) w in
  let total := n0 + n1 + n2 + n3 in
  if negb (total =? 192) then Panic else Ok (w, total).

(** [ProverState.TopRoot] and [VerifierState.TopRoot]. *)
Definition p_TopRoot {K V} (s : ProverState (Octuplet F) K V) : outcome io_error (Octuplet F) :=
  '(hasher, _) ← WriteInt64On64Bytes NewMDHasher (p_NextFreeNode s);
  let subTreeRoot := Root (p_Tree s) in
  let '(hasher, _) := octuplet_WriteTo subTreeRoot hasher in
  '(_, bytes32) ← Sum CompressPoseidon2 hasher [];
  match BytesToKoalaOctuplet bytes32 with Ok r => Ok r | _ => Panic end.

Definition v_TopRoot (v : VerifierState (Octuplet F)) : outcome io_error (Octuplet F) :=
  '(hasher, _) ← WriteInt64On64Bytes NewMDHasher (v_NextFreeNode v);
  let '(hasher, _) := octuplet_WriteTo (v_SubTreeRoot v) hasher in
  '(_, digest) ← Sum CompressPoseidon2 hasher [];
  MustBytesToKoalaOctuplet digest.

(** The hash interface of the accumulator. *)
#[export] Instance leaf_writer : WriterTo F (LeafOpening (Octuplet F)) := fun leaf w =>
  match LeafOpening_WriteTo leaf w with Ok (w', _) => w' | _ => w end.

Definition poseidon_hashes {K V} `{WriterTo F K, WriterTo F V} (zk : K) (zv : V) : AccHash (Octuplet F) K V := {|
  acc_hashLR nodeL nodeR := (hashLR CompressPoseidon2 NewMDHasher nodeL nodeR).2;
  hashKey k := digest CompressPoseidon2 k;
  hashVal v := digest CompressPoseidon2 v;
  hashLeaf leaf := digest CompressPoseidon2 leaf;
  zeroKey := zk;
  zeroVal := zv
|}.
End Hashing.

(** ** Lemmas *)
Section Lemmas.
Context {F : Type} `{KF : KoalaField F} `{!KoalaFieldLaws F}.

Lemma parse_step fuel p x :
  (length p <> 0)%nat -> kf_SetBytesCanonical (take 4 p) = Some x ->
  parse_elements (S fuel) p = rest ← parse_elements fuel (drop 4 p); Ok (x :: rest).
Proof. intros Hl Hx. cbn [parse_elements]. destruct p as [|z p]; [done|]. by rewrite Hx. Qed.

Lemma parse_nil fuel : parse_elements fuel [] = Ok ([] : list F).
Proof. by destruct fuel. Qed.

(** Parsing reads back the bytes of elements. *)
Lemma parse_elements_ok (es : list F) fuel :
  (length es <= fuel)%nat -> parse_elements fuel (es ≫= kf_Bytes) = Ok es.
Proof.
  revert fuel. induction es as [|x es IH]; intros fuel Hf; [apply parse_nil|].
  destruct fuel as [|fuel]; [cbn in Hf; lia|]. rewrite bind_cons.
  rewrite (parse_step fuel _ x).
  - rewrite drop_app_length' by (by rewrite length_kf_Bytes). by rewrite IH by (cbn in Hf; lia).
  - rewrite length_app, length_kf_Bytes. lia.
  - rewrite take_app_length' by (by rewrite length_kf_Bytes). apply SetBytesCanonical_Bytes.
Qed.

Lemma length_bytes_of (es : list F) : length (es ≫= kf_Bytes) = (4 * length es)%nat.
Proof.
  induction es as [|x es IH]; [done|]. rewrite bind_cons, length_app, length_kf_Bytes, IH. cbn [length]. lia.
Qed.

Lemma Write_elements w (es : list F) :
  Write w (es ≫= kf_Bytes) = (WriteElements w es, Ok (4 * length es)%nat).
Proof.
  unfold Write. rewrite length_bytes_of. rewrite Nat.mul_comm, Nat.Div0.mod_mul. cbn [Nat.eqb negb].
  rewrite parse_elements_ok by lia. done.
Qed.

(** The elements of an integer in the 64-byte format: twelve zeros and the four
    limbs of sixteen bits. *)
Lemma limbs_exist b :
  Nat.Even (length b) -> Forall is_byte b ->
  exists es : list F, left_padded b = es ≫= kf_Bytes /\ (2 * length es = length b)%nat.
Proof.
  intros [k Hk] Hb. revert b Hk Hb. induction k as [|k IH]; intros b Hk Hb.
  - apply nil_length_inv in Hk as ->. by exists [].
  - destruct b as [|x [|y b]]; cbn in Hk; [lia..|]. apply Forall_cons in Hb as [Hx [Hy Hb]%Forall_cons].
    destruct (IH b) as (es & E & Hl); [lia|done|].
    assert (Forall is_byte [0; 0; x; y]) as Hbs by (rewrite !Forall_cons; split_and!; first [done | constructor | unfold is_u; lia]).
    destruct (kf_SetBytes_some [0; 0; x; y]) as (e & He & _); [done|done| |].
    { unfold be_value. cbn. unfold is_u in *. change (2 ^ 8) with 256 in *. unfold koala_modulus. lia. }
    exists (e :: es). rewrite bind_cons. cbn [left_padded]. rewrite E.
    rewrite (Bytes_SetBytesCanonical [0; 0; x; y] e) by done. cbn. split; [done|lia].
Qed.

Lemma zeros_exist n : exists es : list F, replicate (4 * n) 0 = es ≫= kf_Bytes /\ length es = n.
Proof.
  exists (replicate n kf_zero). rewrite length_replicate. split; [|done].
  induction n as [|n IH]; [done|]. cbn [replicate]. rewrite bind_cons, <- IH, kf_Bytes_spec, kf_val_zero.
  replace (4 * S n)%nat with (4 + 4 * n)%nat by lia. by rewrite replicate_add.
Qed.

Lemma int64_elements (x : Z) :
  exists es : list F, int64_on_64_bytes x = Ok (es ≫= kf_Bytes) /\ length es = 16%nat.
Proof.
  rewrite int64_on_64_bytes_ok.
  destruct (limbs_exist (be_bytes 8 (u64 x))) as (es & -> & Hl); [rewrite length_be_bytes; by exists 4%nat|apply be_bytes_bytes|].
  rewrite length_be_bytes in Hl. destruct (zeros_exist 12) as (zs & E & Hz). change (4 * 12)%nat with 48%nat in E.
  exists (zs ++ es). rewrite E, bind_app, length_app. split; [done|lia].
Qed.

Lemma ToBytes_elements (e : Octuplet F) : ToBytes e = vec_to_list e ≫= kf_Bytes.
Proof. done. Qed.

(** What [LeafOpening.WriteTo] writes. *)
Lemma leaf_elements leaf :
  exists es : list F, length es = 48%nat /\
    (forall w, LeafOpening_WriteTo leaf w = Ok (WriteElements w es, 192)) /\
    exists b0 b1, int64_on_64_bytes (Prev leaf) = Ok b0 /\ int64_on_64_bytes (Next leaf) = Ok b1 /\
      length b0 = 64%nat /\ length b1 = 64%nat /\
      es ≫= kf_Bytes = b0 ++ b1 ++ ToBytes (HKey leaf) ++ ToBytes (HVal leaf).
Proof.
  destruct (int64_elements (Prev leaf)) as (es0 & E0 & H0), (int64_elements (Next leaf)) as (es1 & E1 & H1).
  exists (es0 ++ es1 ++ vec_to_list (HKey leaf) ++ vec_to_list (HVal leaf)). split_and!.
  - by rewrite !length_app, H0, H1, !length_vec_to_list.
  - intros w. unfold LeafOpening_WriteTo, WriteInt64On64Bytes, octuplet_WriteTo. rewrite E0, E1. cbn [mbind outcome_bind].
    rewrite Write_elements. cbn [mbind outcome_bind]. rewrite Write_elements. cbn [mbind outcome_bind].
    rewrite !ToBytes_elements. rewrite Write_elements, Write_elements.
    rewrite H0, H1, !length_vec_to_list. cbn [reported]. change (Z.of_nat (4 * 16)) with 64. change (Z.of_nat (4 * 8)) with 32.
    cbn [Z.add Pos.add Pos.succ Z.eqb Pos.eqb negb]. unfold WriteElements. cbn [buffer state bufferPosition].
    by rewrite <- !app_assoc.
  - exists (es0 ≫= kf_Bytes), (es1 ≫= kf_Bytes). rewrite !length_bytes_of, H0, H1, !bind_app. done.
Qed.

Lemma int64_bytes_inj x y b : is_i 64 x -> is_i 64 y -> int64_on_64_bytes x = Ok b -> int64_on_64_bytes y = Ok b -> x = y.
Proof.
  intros Hx Hy. rewrite !int64_on_64_bytes_ok. intros <- E.
  apply (f_equal (fun r => match r with Ok a => a | _ => [] end)) in E. cbv beta iota in E. apply app_inv_head in E.
  apply (f_equal remove_padding) in E. rewrite !remove_left_padded in E by (rewrite length_be_bytes; by exists 4%nat).
  apply (f_equal be_value) in E. rewrite !be_value_be_bytes in E. change (8 * Z.of_nat 8) with 64 in E.
  unfold uwrap in E. rewrite !Z.mod_mod in E by lia. unfold is_i in *. change (64 - 1) with 63 in *.
  change (2 ^ 64) with (2 * 2 ^ 63) in E. golia.
Qed.
End Lemmas.

(** ** Theorems *)
Section Theorems.
Context {F : Type} `{KF : KoalaField F} `{!KoalaFieldLaws F}.
Context (CompressPoseidon2 : Octuplet F -> Octuplet F -> Octuplet F).

(** [LeafOpening.WriteTo] never panics: it always writes 192 bytes, that is 48
    field elements, to the hasher, and two openings with int64 links that write the
    same elements are equal, so that a collision of leaves is a collision of the
    hash function. *)
Theorem leaf_WriteTo_injective (leaf leaf' : LeafOpening (Octuplet F)) (w : MDHasher F) :
  is_i 64 (Prev leaf) -> is_i 64 (Next leaf) -> is_i 64 (Prev leaf') -> is_i 64 (Next leaf') ->
  exists es es', LeafOpening_WriteTo leaf w = Ok (WriteElements w es, 192) /\
    LeafOpening_WriteTo leaf' w = Ok (WriteElements w es', 192) /\
    length es = 48%nat /\ length es' = 48%nat /\ (es = es' -> leaf = leaf').
Proof.
  clear CompressPoseidon2. intros Hp Hn Hp' Hn'.
  destruct (leaf_elements leaf) as (es & Hl & Hw & b0 & b1 & E0 & E1 & L0 & L1 & Hb).
  destruct (leaf_elements leaf') as (es' & Hl' & Hw' & c0 & c1 & E0' & E1' & L0' & L1' & Hb').
  exists es, es'. split_and!; try done. intros <-. rewrite Hb in Hb'.
  apply app_inj_1 in Hb' as [-> Hb']; [|by rewrite L0]. apply app_inj_1 in Hb' as [-> Hb']; [|by rewrite L1].
  apply app_inj_1 in Hb' as [Hk Hv]; [|by rewrite !length_ToBytes].
  apply (f_equal SetBytes) in Hk, Hv. rewrite !SetBytes_ToBytes in Hk, Hv.
  destruct leaf, leaf'. cbn in *. f_equal; [by eapply int64_bytes_inj|by eapply int64_bytes_inj|congruence|congruence].
Qed.

(** The prover and the verifier compute the same top root: for every state of
    the prover, [ProverState.TopRoot] returns without a panic the digest of the 24
    elements of its next free node and root, and so does [VerifierState.TopRoot] of its
    snapshot. *)
Theorem TopRoot_agree {K V} (s : ProverState (Octuplet F) K V) :
  exists es : list F, length es = 24%nat /\
    p_TopRoot CompressPoseidon2 s = Ok (HashVec CompressPoseidon2 es) /\
    v_TopRoot CompressPoseidon2 (p_VerifierState s) = Ok (HashVec CompressPoseidon2 es).
Proof.
  destruct (int64_elements (F := F) (p_NextFreeNode s)) as (es & E & Hl).
  exists (es ++ vec_to_list (Root (p_Tree s))). rewrite length_app, Hl, length_vec_to_list. split; [done|].
  unfold p_TopRoot, v_TopRoot, WriteInt64On64Bytes, octuplet_WriteTo. cbn [p_VerifierState v_NextFreeNode v_SubTreeRoot].
  rewrite E. cbn [mbind outcome_bind]. rewrite Write_elements. cbn [mbind outcome_bind]. rewrite ToBytes_elements, Write_elements.
  cbn [mbind outcome_bind]. unfold Sum, Write. cbn [length Nat.modulo Nat.divmod fst snd Nat.sub Nat.eqb negb parse_elements].
  unfold WriteElements. cbn [state buffer bufferPosition]. rewrite app_nil_r, app_nil_l. unfold SumElement. cbn [state buffer bufferPosition].
  cbn [mbind outcome_bind]. unfold BytesToKoalaOctuplet, MustBytesToKoalaOctuplet. rewrite SetBytes_ToBytes. done.
Qed.
End Theorems.

Lemma leaf_WriteTo_injective_witness :
  exists es, LeafOpening_WriteTo (mkLeaf 0 1 (Zk_oct 3) (Zk_oct 4)) NewMDHasher = Ok (WriteElements NewMDHasher es, 192) /\
    length es = 48%nat.
Proof.
  destruct (leaf_WriteTo_injective (mkLeaf 0 1 (Zk_oct 3) (Zk_oct 4)) (mkLeaf 0 1 (Zk_oct 3) (Zk_oct 4)) NewMDHasher)
    as (es & _ & Hw & _ & Hl & _); [done..|].
  exists es. split; assumption.
Defined.

Lemma TopRoot_agree_witness :
  exists es, p_TopRoot (fun st b => b) (mkProver "x" 2 (mkTree 1 (Zk_oct 9) [] [] []) ∅ : ProverState (Octuplet Zk) unit unit)
    = Ok (HashVec (fun st b => b) es).
Proof.
  destruct (TopRoot_agree (fun st b => b) (mkProver "x" 2 (mkTree 1 (Zk_oct 9) [] [] []) ∅ : ProverState (Octuplet Zk) unit unit))
    as (es & _ & H & _).
  exists es. exact H.
Defined.
