(* ===== verification/Regex.v ===== *)
(** Regular expressions over file names.

    The controller of the prover recognizes its files with the regular expressions of
    the package [regexp2].  This file gives the expressions their meaning ([matches])
    and an executable matcher by derivatives ([re_match]), proved equivalent; the
    search of the longest match, the search behind and ahead of a position, and the
    replacement of all matches, as the calls [MatchString], [FindStringMatch] and
    [Replace] use them; and an analysis ([follow]) of the pairs of characters that can
    be adjacent in a match, with which the components show that an expression cannot
    match a class of names. *)
From S2P Require Import Prelude.
From Stdlib Require Import Ascii.

Abbreviation name := (list ascii).

Definition lit (s : string) : name := String.list_ascii_of_string s.

#[global] Instance ascii_inhabited : Inhabited ascii := populate Ascii.zero.

(** ** Expressions and their meaning *)

Inductive re :=
| REmp
| REps
| RCls (p : ascii -> bool)
| RCat (r s : re)
| RAlt (r s : re)
| RStar (r : re).

Inductive matches : re -> name -> Prop :=
| m_eps : matches REps []
| m_cls p c : p c = true -> matches (RCls p) [c]
| m_cat r s u v : matches r u -> matches s v -> matches (RCat r s) (u ++ v)
| m_alt_l r s u : matches r u -> matches (RAlt r s) u
| m_alt_r r s u : matches s u -> matches (RAlt r s) u
| m_star_nil r : matches (RStar r) []
| m_star_app r u v : matches r u -> matches (RStar r) v -> matches (RStar r) (u ++ v).

Definition ROpt (r : re) : re := RAlt REps r.
Definition RPlus (r : re) : re := RCat r (RStar r).
Definition RChr (c : ascii) : re := RCls (Ascii.eqb c).
Fixpoint RLit (s : name) : re := match s with [] => REps | c :: s => RCat (RChr c) (RLit s) end.
Definition RAny : re := RStar (RCls (fun _ => true)).

(** Classes of characters. *)
Definition between (a b c : ascii) : bool := ((nat_of_ascii a <=? nat_of_ascii c) && (nat_of_ascii c <=? nat_of_ascii b))%nat.
Definition is_digit (c : ascii) : bool := between "0" "9" c.
Definition is_version (c : ascii) : bool := is_digit c || Ascii.eqb "." c.
Definition is_alnum (c : ascii) : bool := is_digit c || between "a" "z" c || between "A" "Z" c.
Definition is_hexdigit (c : ascii) : bool := is_digit c || between "a" "f" c || between "A" "F" c.
Definition newline : ascii := "010".

(** ** The matcher *)

Fixpoint nullable (r : re) : bool :=
  match r with
  | REmp | RCls _ => false
  | REps | RStar _ => true
  | RCat r s => nullable r && nullable s
  | RAlt r s => nullable r || nullable s
  end.

(** Concatenation and alternative without dead branches. *)
Definition cat (r s : re) : re :=
  match r with REmp => REmp | REps => s | _ => RCat r s end.
Definition alt (r s : re) : re :=
  match r, s with REmp, _ => s | _, REmp => r | _, _ => RAlt r s end.

Fixpoint deriv (c : ascii) (r : re) : re :=
  match r with
  | REmp | REps => REmp
  | RCls p => if p c then REps else REmp
  | RCat r s => if nullable r then alt (cat (deriv c r) s) (deriv c s) else cat (deriv c r) s
  | RAlt r s => alt (deriv c r) (deriv c s)
  | RStar r => cat (deriv c r) (RStar r)
  end.

Fixpoint re_match (r : re) (s : name) : bool :=
  match s with
  | [] => nullable r
  | c :: s => re_match (deriv c r) s
  end.

(** The length of the longest prefix that matches. *)
Fixpoint longest (r : re) (s : name) : option nat :=
  match s with
  | [] => if nullable r then Some O else None
  | c :: s' =>
      match longest (deriv c r) s' with
      | Some n => Some (S n)
      | None => if nullable r then Some O else None
      end
  end.

(** A search: a match of [body] that starts where the text before it matches
    [behind] and ends where the text after it starts with a match of [ahead]. *)
Record finder := mkFinder {
  behind : re;
  body : re;
  ahead : re
}.

(** The longest match of [body] at the front of [s], at most [n] characters long, that
    [ahead] accepts. *)
Fixpoint find_here (f : finder) (s : name) (n : nat) : option name :=
  if re_match (body f) (take n s) && bool_decide (is_Some (longest (ahead f) (drop n s))) then Some (take n s) else
  match n with O => None | S n => find_here f s n end.

(** [FindStringMatch]: the leftmost match; [pre] is the text before [s]. *)
Fixpoint find_from (f : finder) (pre s : name) : option name :=
  match (if re_match (behind f) pre then find_here f s (length s) else None) with
  | Some m => Some m
  | None => match s with [] => None | c :: s => find_from f (pre ++ [c]) s end
  end.

Definition FindStringMatch (f : finder) (s : name) : option name := find_from f [] s.

(** [Replace] with the empty string: the successive longest matches are removed.
    An empty match removes nothing. *)
Fixpoint replace_fuel (fuel : nat) (r : re) (s : name) : name :=
  match fuel, s with
  | S fuel, c :: s' =>
      match longest r s with
      | Some (S n) => replace_fuel fuel r (drop (S n) s)
      | _ => c :: replace_fuel fuel r s'
      end
  | _, _ => s
  end.

Definition remove_all (r : re) (s : name) : name := replace_fuel (length s) r s.

(** ** Correctness of the matcher *)

Lemma matches_cat_inv r s w : matches (RCat r s) w <-> exists u v, w = u ++ v /\ matches r u /\ matches s v.
Proof.
  split; [inversion 1; subst; eauto|]. intros (u & v & -> & Hu & Hv). by constructor.
Qed.

Lemma matches_alt_inv r s w : matches (RAlt r s) w <-> matches r w \/ matches s w.
Proof. split; [inversion 1; subst; eauto|]. intros [H|H]; by constructor. Qed.

Lemma matches_emp w : ~ matches REmp w.
Proof. inversion 1. Qed.

Lemma matches_eps_inv w : matches REps w <-> w = [].
Proof. split; [by inversion 1|intros ->; constructor]. Qed.

Lemma matches_cls_inv p w : matches (RCls p) w <-> exists c, w = [c] /\ p c = true.
Proof. split; [inversion 1; subst; eauto|]. intros (c & -> & Hc). by constructor. Qed.

(** A non-empty match of a star starts with a non-empty match. *)
Lemma matches_star_cons r c w :
  matches (RStar r) (c :: w) -> exists u v, w = u ++ v /\ matches r (c :: u) /\ matches (RStar r) v.
Proof.
  remember (RStar r) as q eqn:Hq. remember (c :: w) as x eqn:Hx. intros H. revert c w Hx.
  induction H as [| | | | | |r' u v Hu _ Hv IHv]; try discriminate; intros c w Hx.
  injection Hq as ->. destruct u as [|c' u].
  - destruct (IHv eq_refl c w Hx) as (u & v' & Hw & Hr & Hs). eauto.
  - injection Hx as -> <-. eauto.
Qed.

Lemma nullable_spec r : nullable r = true <-> matches r [].
Proof.
  induction r as [| |p|r IHr s IHs|r IHr s IHs|r IHr]; cbn [nullable].
  - split; [done|]. by intros ?%matches_emp.
  - split; [constructor|done].
  - split; [done|]. by intros (c & ? & _)%matches_cls_inv.
  - rewrite andb_true_iff, IHr, IHs, matches_cat_inv. split; [intros [Hr Hs]; by exists [], []|].
    intros (u & v & [-> ->]%eq_sym%app_eq_nil & Hu & Hv). done.
  - by rewrite orb_true_iff, IHr, IHs, matches_alt_inv.
  - split; [constructor|done].
Qed.

Lemma cat_spec r s w : matches (cat r s) w <-> matches (RCat r s) w.
Proof.
  destruct r; cbn [cat]; try done.
  - rewrite matches_cat_inv. split; [by intros ?%matches_emp|]. by intros (u & v & _ & ?%matches_emp & _).
  - rewrite matches_cat_inv. split; [intros H; exists [], w; split; [done|]; by split; [constructor|]|].
    by intros (u & v & -> & ->%matches_eps_inv & Hv).
Qed.

Lemma alt_spec r s w : matches (alt r s) w <-> matches (RAlt r s) w.
Proof.
  rewrite matches_alt_inv. pose proof (matches_emp w).
  destruct r, s; cbn [alt]; rewrite ?matches_alt_inv; tauto.
Qed.

Lemma deriv_spec c r w : matches (deriv c r) w <-> matches r (c :: w).
Proof.
  revert w. induction r as [| |p|r IHr s IHs|r IHr s IHs|r IHr]; intros w; cbn [deriv].
  - split; by intros ?%matches_emp.
  - rewrite matches_eps_inv. split; [by intros ?%matches_emp|done].
  - rewrite matches_cls_inv. destruct (p c) eqn:Hp; [rewrite matches_eps_inv|].
    + split; [intros ->; eauto|]. by intros (c' & [= <- ->] & _).
    + split; [by intros ?%matches_emp|]. intros (c' & [= <- ->] & Hc). congruence.
  - assert (matches (cat (deriv c r) s) w <-> exists u v, w = u ++ v /\ matches r (c :: u) /\ matches s v) as Hl.
    { rewrite cat_spec, matches_cat_inv. by setoid_rewrite IHr. }
    rewrite matches_cat_inv.
    assert (matches r [] /\ matches s (c :: w) \/ (exists u v, w = u ++ v /\ matches r (c :: u) /\ matches s v)
            <-> exists u v, c :: w = u ++ v /\ matches r u /\ matches s v) as Hr.
    { split.
      - intros [[H1 H2]|(u & v & -> & H1 & H2)]; [by exists [], (c :: w)|by exists (c :: u), v].
      - intros ([|c' u] & v & E & H1 & H2); [left; by rewrite E|]. injection E as <- ->. right. eauto. }
    rewrite <- Hr. destruct (nullable r) eqn:Hn.
    + rewrite alt_spec, matches_alt_inv, Hl, IHs. apply nullable_spec in Hn. tauto.
    + rewrite Hl. rewrite <- nullable_spec, Hn. intuition congruence.
  - by rewrite alt_spec, !matches_alt_inv, IHr, IHs.
  - rewrite cat_spec, matches_cat_inv. setoid_rewrite IHr. split.
    + intros (u & v & -> & Hu & Hv). change (c :: u ++ v) with ((c :: u) ++ v). by constructor.
    + apply matches_star_cons.
Qed.

Lemma re_match_spec r w : re_match r w = true <-> matches r w.
Proof.
  revert r. induction w as [|c w IH]; intros r; cbn [re_match]; [apply nullable_spec|]. by rewrite IH, deriv_spec.
Qed.

#[global] Instance matches_dec r w : Decision (matches r w).
Proof. refine (cast_if (decide (re_match r w = true))); by rewrite <- re_match_spec. Defined.

(** ** Literals, classes and repetitions *)

Lemma matches_chr c w : matches (RChr c) w <-> w = [c].
Proof.
  unfold RChr. rewrite matches_cls_inv. split; [|intros ->; exists c; by rewrite Ascii.eqb_refl].
  by intros (d & -> & ->%Ascii.eqb_eq).
Qed.

Lemma matches_lit s w : matches (RLit s) w <-> w = s.
Proof.
  revert w. induction s as [|c s IH]; intros w; cbn [RLit]; [apply matches_eps_inv|].
  rewrite matches_cat_inv. split; [|intros ->; exists [c], s; by rewrite matches_chr, IH].
  by intros (u & v & -> & ->%matches_chr & ->%IH).
Qed.

Lemma matches_opt r w : matches (ROpt r) w <-> w = [] \/ matches r w.
Proof. unfold ROpt. by rewrite matches_alt_inv, matches_eps_inv. Qed.

Lemma matches_star_cls p w : matches (RStar (RCls p)) w <-> Forall (fun c => p c = true) w.
Proof.
  split.
  - induction w as [|c w IH]; [constructor|]. intros (u & v & -> & (c' & [= <- ->] & Hc)%matches_cls_inv & Hv)%matches_star_cons.
    constructor; [done|]. by apply IH.
  - induction 1 as [|c w Hc _ IH]; [constructor|]. change (c :: w) with ([c] ++ w). constructor; [by constructor|done].
Qed.

Lemma matches_plus_cls p w : matches (RPlus (RCls p)) w <-> w <> [] /\ Forall (fun c => p c = true) w.
Proof.
  unfold RPlus. rewrite matches_cat_inv. split.
  - intros (u & v & -> & (c & -> & Hc)%matches_cls_inv & Hv%matches_star_cls). split; [done|]. by constructor.
  - intros [Hn Hw]. destruct Hw as [|c w Hc Hw]; [done|]. exists [c], w. split; [done|]. split; [by constructor|].
    by apply matches_star_cls.
Qed.

Lemma matches_any w : matches RAny w.
Proof. apply matches_star_cls. by apply Forall_true. Qed.

(** ** Longest matches and removal *)

Lemma longest_None r s : longest r s = None <-> forall n, ~ matches r (take n s).
Proof.
  revert r. induction s as [|c s IH]; intros r; cbn [longest].
  - destruct (nullable r) eqn:Hn.
    + split; [done|]. intros H. apply nullable_spec in Hn. by destruct (H O).
    + split; [intros _ n|done]. rewrite take_nil. rewrite <- nullable_spec. congruence.
  - destruct (longest (deriv c r) s) as [n|] eqn:Hl.
    + split; [done|]. intros H. exfalso. assert (longest (deriv c r) s = None) as E; [|congruence].
      apply IH. intros m Hm%deriv_spec. by apply (H (S m)).
    + destruct (nullable r) eqn:Hn.
      * split; [done|]. intros H. apply nullable_spec in Hn. by destruct (H O).
      * split; [|done]. intros _ [|n]; cbn [take]; [rewrite <- nullable_spec; congruence|].
        rewrite <- deriv_spec. by apply IH.
Qed.

Lemma longest_Some r s n :
  (n <= length s)%nat -> matches r (take n s) ->
  (forall m, (n < m <= length s)%nat -> ~ matches r (take m s)) -> longest r s = Some n.
Proof.
  revert r n. induction s as [|c s IH]; intros r n Hn Hm Hmax; cbn [longest].
  - cbn in Hn. assert (n = 0%nat) as -> by lia. apply nullable_spec in Hm. by rewrite Hm.
  - cbn [length] in Hn. destruct n as [|n].
    + assert (longest (deriv c r) s = None) as ->.
      { apply longest_None. intros m Hm'%deriv_spec. destruct (decide (m <= length s)%nat).
        - apply (Hmax (S m)); [cbn; lia|done].
        - apply (Hmax (S (length s))); [cbn; lia|]. rewrite take_ge in Hm' by lia. by rewrite take_ge by (cbn; lia). }
      cbn [take] in Hm. apply nullable_spec in Hm. by rewrite Hm.
    + rewrite (IH (deriv c r) n); [done|lia|by apply deriv_spec|].
      intros m Hlt Hm'%deriv_spec. apply (Hmax (S m)); [cbn; lia|done].
Qed.

Lemma longest_sound r s n : longest r s = Some n -> (n <= length s)%nat /\ matches r (take n s).
Proof.
  revert r n. induction s as [|c s IH]; intros r n; cbn [longest].
  - destruct (nullable r) eqn:Hn; [|done]. intros [= <-]. split; [lia|]. by apply nullable_spec.
  - destruct (longest (deriv c r) s) as [m|] eqn:Hl.
    + intros [= <-]. apply IH in Hl as [Hm Hd]. split; [cbn; lia|]. by apply deriv_spec.
    + destruct (nullable r) eqn:Hn; [|done]. intros [= <-]. split; [cbn; lia|]. by apply nullable_spec.
Qed.

Lemma replace_fuel_enough r fuel s : (length s <= fuel)%nat -> replace_fuel fuel r s = remove_all r s.
Proof.
  unfold remove_all. remember (length s) as k eqn:Hk. revert s fuel Hk.
  induction k as [k IH] using lt_wf_ind; intros s fuel Hk Hf. destruct s as [|c s]; [by destruct fuel, k|].
  cbn [length] in Hk. destruct fuel as [|fuel]; [lia|]. destruct k as [|k]; [lia|]. cbn [replace_fuel].
  destruct (longest r (c :: s)) as [[|n]|].
  - f_equal. rewrite (IH (length s)) by lia. by rewrite (IH (length s) ltac:(lia) s k) by lia.
  - pose proof (length_drop (c :: s) (S n)) as Hd. cbn [length] in Hd.
    rewrite (IH (length (drop (S n) (c :: s)))) by lia. by rewrite (IH (length (drop (S n) (c :: s))) ltac:(lia) (drop (S n) (c :: s)) k eq_refl) by lia.
  - f_equal. rewrite (IH (length s)) by lia. by rewrite (IH (length s) ltac:(lia) s k) by lia.
Qed.

Lemma remove_all_nil r : remove_all r [] = [].
Proof. done. Qed.

(** A character where no match starts stays. *)
Lemma remove_all_keep r c s : longest r (c :: s) = None -> remove_all r (c :: s) = c :: remove_all r s.
Proof. intros H. unfold remove_all at 1. cbn [length replace_fuel]. by rewrite H. Qed.

(** A longest match goes. *)
Lemma remove_all_match r s n :
  (0 < n)%nat -> longest r s = Some n -> remove_all r s = remove_all r (drop n s).
Proof.
  intros Hn H. pose proof (longest_sound _ _ _ H) as [Hl _]. unfold remove_all at 1. destruct s as [|c s]; [cbn in Hl; lia|].
  cbn [length replace_fuel]. rewrite H. destruct n as [|n]; [lia|]. apply replace_fuel_enough. rewrite length_drop. cbn [length]. lia.
Qed.

(** ** Adjacent characters *)

Fixpoint first (r : re) (c : ascii) : bool :=
  match r with
  | REmp | REps => false
  | RCls p => p c
  | RCat r s => first r c || nullable r && first s c
  | RAlt r s => first r c || first s c
  | RStar r => first r c
  end.

Fixpoint last_ (r : re) (c : ascii) : bool :=
  match r with
  | REmp | REps => false
  | RCls p => p c
  | RCat r s => last_ s c || nullable s && last_ r c
  | RAlt r s => last_ r c || last_ s c
  | RStar r => last_ r c
  end.

Fixpoint follow (r : re) (a b : ascii) : bool :=
  match r with
  | REmp | REps | RCls _ => false
  | RCat r s => follow r a b || follow s a b || last_ r a && first s b
  | RAlt r s => follow r a b || follow s a b
  | RStar r => follow r a b || last_ r a && first r b
  end.

Lemma first_spec r c w : matches r (c :: w) -> first r c = true.
Proof.
  remember (c :: w) as x eqn:Hx. intros H. revert c w Hx.
  induction H as [|p d Hp|r s u v Hu IHu Hv IHv|r s u Hu IHu|r s u Hu IHu|r|r u v Hu IHu Hv IHv]; intros c w Hx; cbn [first]; try done.
  - by injection Hx as -> _.
  - apply orb_true_iff. destruct u as [|d u]; [right|left].
    + apply andb_true_iff. split; [by apply nullable_spec|]. eauto.
    + injection Hx as -> _. eauto.
  - apply orb_true_iff. eauto.
  - apply orb_true_iff. eauto.
  - destruct u as [|d u]; [by apply (IHv c w)|]. injection Hx as -> _. eauto.
Qed.

Lemma last_spec r c w : matches r (w ++ [c]) -> last_ r c = true.
Proof.
  remember (w ++ [c]) as x eqn:Hx. intros H. revert c w Hx.
  induction H as [|p d Hp|r s u v Hu IHu Hv IHv|r s u Hu IHu|r s u Hu IHu|r|r u v Hu IHu Hv IHv]; intros c w Hx; cbn [last_];
    try (by destruct w).
  - destruct w as [|e w]; [by injection Hx as ->|]. by destruct w.
  - apply orb_true_iff. destruct v as [|d v _] using rev_ind; [right|left].
    + apply andb_true_iff. split; [by apply nullable_spec|]. rewrite app_nil_r in Hx. eauto.
    + rewrite app_assoc in Hx. apply app_inj_tail in Hx as [_ ->]. eauto.
  - apply orb_true_iff. eauto.
  - apply orb_true_iff. eauto.
  - destruct v as [|d v _] using rev_ind; [rewrite app_nil_r in Hx; eauto|].
    rewrite app_assoc in Hx. apply app_inj_tail in Hx as [_ ->]. by eapply IHv.
Qed.

(** The pair [a b] occurs in [s]. *)
Definition adjacent (a b : ascii) (s : name) : Prop := exists u v, s = u ++ a :: b :: v.

Lemma adjacent_app a b u v :
  adjacent a b (u ++ v) ->
  adjacent a b u \/ adjacent a b v \/ (exists u' v', u = u' ++ [a] /\ v = b :: v').
Proof.
  intros (x & y & E). revert x E. induction u as [|c u IH]; intros x E; [right; left; by exists x, y|].
  destruct x as [|d x]; cbn [app] in E.
  - injection E as -> E. destruct u as [|e u]; cbn [app] in E.
    + right; right. by exists [], y.
    + injection E as -> _. left. by exists [], u.
  - injection E as -> E. destruct (IH x E) as [(x' & y' & ->)|[H|(u' & v' & -> & ->)]].
    + left. by exists (d :: x'), y'.
    + by right; left.
    + right; right. by exists (d :: u'), v'.
Qed.

Lemma follow_spec r a b w : matches r w -> adjacent a b w -> follow r a b = true.
Proof.
  induction 1 as [|p d Hp|r s u v Hu IHu Hv IHv|r s u Hu IHu|r s u Hu IHu|r|r u v Hu IHu Hv IHv]; intros Ha; cbn [follow].
  - by destruct Ha as ([|? ?] & v & E).
  - destruct Ha as (u & v & E). destruct u as [|? [|? ?]]; done.
  - rewrite !orb_true_iff, andb_true_iff. apply adjacent_app in Ha as [Ha|[Ha|(u' & v' & -> & ->)]]; [auto|auto|].
    right. split; [by eapply last_spec|by eapply first_spec].
  - rewrite orb_true_iff. auto.
  - rewrite orb_true_iff. auto.
  - by destruct Ha as ([|? ?] & v & E).
  - apply adjacent_app in Ha as [Ha|[Ha|(u' & v' & -> & ->)]]; [rewrite IHu by done; done|by apply IHv|].
    rewrite orb_true_iff, andb_true_iff. right. split; [by eapply last_spec|].
    apply first_spec in Hv. exact Hv.
Qed.

Lemma not_adjacent r a b w : follow r a b = false -> matches r w -> ~ adjacent a b w.
Proof. intros Hf Hm Ha. apply (follow_spec r a b w Hm) in Ha. congruence. Qed.

Lemma not_matched r a b u v : follow r a b = false -> re_match r (u ++ a :: b :: v) = false.
Proof.
  intros Hf. apply not_true_is_false. intros Hm%re_match_spec. by apply (not_adjacent _ _ _ _ Hf Hm); exists u, v.
Qed.

(** ** Searches *)

Definition hit (f : finder) (s : name) (n : nat) : Prop :=
  matches (body f) (take n s) /\ exists k, matches (ahead f) (take k (drop n s)).

Lemma hit_spec f s n :
  re_match (body f) (take n s) && bool_decide (is_Some (longest (ahead f) (drop n s))) = true <-> hit f s n.
Proof.
  unfold hit. rewrite andb_true_iff, re_match_spec, bool_decide_eq_true.
  assert (is_Some (longest (ahead f) (drop n s)) <-> exists k, matches (ahead f) (take k (drop n s))) as ->; [|done].
  split; [intros [k Hk]; exists k; by apply longest_sound|]. intros [k Hk].
  destruct (longest (ahead f) (drop n s)) eqn:E; [eauto|]. exfalso. by apply longest_None with (n := k) in E.
Qed.

Lemma find_here_longest f s n k :
  (k <= n)%nat -> hit f s k -> (forall j, (k < j <= n)%nat -> ~ hit f s j) -> find_here f s n = Some (take k s).
Proof.
  intros Hkn Hk Hmax. induction n as [|n IH].
  - assert (k = 0%nat) as -> by lia. cbn [find_here]. by rewrite (proj2 (hit_spec f s 0)).
  - destruct (decide (k = S n)) as [->|Hne]; cbn [find_here].
    + by rewrite (proj2 (hit_spec f s (S n))).
    + destruct (_ && _) eqn:E; [|apply IH; [lia|intros j Hj; apply Hmax; lia]].
      apply hit_spec in E. by destruct (Hmax (S n) ltac:(lia)).
Qed.

Lemma find_here_none f s n : (forall j, (j <= n)%nat -> ~ hit f s j) -> find_here f s n = None.
Proof.
  intros H. induction n as [|n IH]; cbn [find_here].
  - destruct (_ && _) eqn:E; [|done]. apply hit_spec in E. by destruct (H 0%nat ltac:(lia)).
  - destruct (_ && _) eqn:E; [apply hit_spec in E; by destruct (H (S n) ltac:(lia))|]. apply IH. intros j Hj. apply H. lia.
Qed.

(** The first place where the text behind matches decides, when there is one. *)
Lemma find_from_skip f pre s t :
  (forall u v, s = u ++ v -> v <> [] -> ~ matches (behind f) (pre ++ u)) ->
  find_from f pre (s ++ t) = find_from f (pre ++ s) t.
Proof.
  revert pre. induction s as [|c s IH]; intros pre H; [by rewrite app_nil_r|]. cbn [app find_from].
  destruct (re_match (behind f) pre) eqn:E.
  { apply re_match_spec in E. destruct (H [] (c :: s)); [done..|]. by rewrite app_nil_r. }
  rewrite IH; [by rewrite <- app_assoc|]. intros u v -> Hv. rewrite <- app_assoc. by apply (H (c :: u) v).
Qed.

Lemma find_from_hit f pre s m :
  matches (behind f) pre -> find_here f s (length s) = Some m -> find_from f pre s = Some m.
Proof. intros Hb Hm. apply re_match_spec in Hb. destruct s; cbn [find_from]; by rewrite Hb, Hm. Qed.
