(* ===== verification/Jobs.v ===== *)
(** The jobs of the prover's controller:
    [prover/cmd/controller/controller/jobs.go] and [job_definition.go], with the
    suffixes and directory names of [prover/config/constants.go].

    A request is a file in the [requests] directory of its kind of job; its name says
    what it is, who works on it and how it ended.  The regular expressions of the
    source are those of [Regex]; [$] also accepts a newline at the end, as [regexp2]
    does.  A path is kept as the root directory of the job, one of its three
    subdirectories and the name of the file: the names come from directory entries and
    contain no separator, so that [filepath.Join] and the [%v/%v] of the formats build
    exactly these paths. *)
From S2P Require Import Prelude Regex.
From Stdlib Require Import Ascii.

(** ** Constants and configuration *)

Definition RequestsFromSubDir : name := lit "requests".
Definition RequestsToSubDir : name := lit "responses".
Definition RequestsDoneSubDir : name := lit "requests-done".
Definition InProgressSuffix : name := lit "inprogress".
Definition FailSuffix : name := lit "code".
Definition SuccessSuffix : name := lit "success".
Definition LargeSuffix : name := lit "large".

Definition jobNameExecution : name := lit "execution".
Definition jobNameDataAvailability : name := lit "compression".
Definition jobNameAggregation : name := lit "aggregation".
Definition jobNameInvalidity : name := lit "invalidity".

Record path := mkPath {
  p_root : name;
  p_sub : name;
  p_file : name
}.

#[export] Instance path_eq_dec : EqDecision path.
Proof. solve_decision. Defined.

#[export] Instance path_countable : Countable path.
Proof.
  refine (inj_countable' (fun p => (p_root p, p_sub p, p_file p)) (fun t => mkPath t.1.1 t.1.2 t.2) _). by intros [].
Defined.

(** What the command templates are filled with. *)
Record Resource := mkResource {
  ConfFile : name;
  InFile : path;
  OutFile : path
}.

(** The fields of the configuration that the controller reads.  A command template is
    its [Execute]: the command, or an error. *)
Record Config := mkConfig {
  LocalID : name;
  RetryDelays : list Z;
  DeferToOtherLargeCodes : list Z;
  RetryLocallyWithLargeCodes : list Z;
  EnableExecution : bool;
  EnableDataAvailability : bool;
  EnableAggregation : bool;
  EnableInvalidity : bool;
  WorkerCmdTmpl : Resource -> option name;
  WorkerCmdLargeTmpl : Resource -> option name;
  ExecutionRootDir : name;
  DataAvailabilityRootDir : name;
  AggregationRootDir : name;
  InvalidityRootDir : name;
  CanRunFullLarge : bool;
  KeepTracesUntilBlock : Z;
  fConfig : name
}.

(** ** Job definitions *)

(** The pieces of an output file template. *)
Inductive piece :=
| PText (s : name)
| PStart
| PEnd
| PContentHash.

Record JobDefinition := mkJobDefinition {
  RequestsRootDir : name;
  Name : name;
  InputFileRegexp : re;
  OutputFileTmpl : list piece;
  Priority : Z;
  param_Start : option finder;
  param_End : option finder;
  param_Stv : option finder;
  param_Etv : option finder;
  param_Cv : option finder;
  param_ContentHash : option finder;
  FailureSuffix : re
}.

Definition rdigits : re := RPlus (RCls is_digit).
Definition rversion : re := RPlus (RCls is_version).
Definition rlit (s : string) : re := RLit (lit s).
Fixpoint rcats (rs : list re) : re := match rs with [] => REps | [r] => r | r :: rs => RCat r (rcats rs) end.

(** [$]. *)
Definition eol : re := ROpt (RChr newline).

(** [(?<=pre)[\d\.]+]: it only reads names that an input expression matched, which are
    ASCII, so that [\d] is a decimal digit. *)
Definition matchVersionWithPrefix (pre : string) : finder :=
  mkFinder (RCat RAny (rlit pre)) rversion REps.

(** [\.failure\.pre_[0-9]+]. *)
Definition matchFailureSuffix (pre : name) : re :=
  rcats [rlit ".failure."; RLit pre; rlit "_"; rdigits].

(** The shape of every input expression: a name that ends with [.json], an extension
    and any number of failure suffixes. *)
Definition input_regexp (base ext : re) : re :=
  RCat (RCat base (rlit ".json")) (RCat ext (RCat (RStar (matchFailureSuffix FailSuffix)) eol)).

(** [^[0-9]+] and [(?<=^[0-9]+-)[0-9]+]. *)
Definition start_finder : finder := mkFinder REps rdigits REps.
Definition end_finder : finder := mkFinder (RCat rdigits (rlit "-")) rdigits REps.

Definition execution_base : re :=
  rcats [rdigits; rlit "-"; rdigits; ROpt (RCat (rlit "-etv") rversion); ROpt (RCat (rlit "-stv") rversion);
         rlit "-getZkProof"].

Definition ExecutionDefinition (conf : Config) : JobDefinition :=
  let inpFileExt := if CanRunFullLarge conf then RCat (rlit ".") (RLit LargeSuffix) else REps in
  {| RequestsRootDir := ExecutionRootDir conf;
     Name := jobNameExecution;
     InputFileRegexp := input_regexp execution_base inpFileExt;
     OutputFileTmpl := [PStart; PText (lit "-"); PEnd; PText (lit "-getZkProof.json")];
     Priority := 0;
     param_Start := Some start_finder;
     param_End := Some end_finder;
     param_Stv := Some (matchVersionWithPrefix "stv");
     param_Etv := Some (matchVersionWithPrefix "etv");
     param_Cv := None;
     param_ContentHash := None;
     FailureSuffix := matchFailureSuffix FailSuffix |}.

Definition compression_base : re :=
  rcats [rdigits; rlit "-"; rdigits; ROpt (RCat (rlit "-bcv") rversion); ROpt (RCat (rlit "-ccv") rversion); rlit "-";
         ROpt (rcats [ROpt (rlit "0x"); RStar (RCls is_alnum); rlit "-"]); rlit "getZkBlobCompressionProof"].

Definition CompressionDefinition (conf : Config) : JobDefinition :=
  {| RequestsRootDir := DataAvailabilityRootDir conf;
     Name := jobNameDataAvailability;
     InputFileRegexp := input_regexp compression_base REps;
     OutputFileTmpl := [PStart; PText (lit "-"); PEnd; PText (lit "-"); PContentHash; PText (lit "getZkBlobCompressionProof.json")];
     Priority := 1;
     param_Start := Some start_finder;
     param_End := Some end_finder;
     param_Stv := None;
     param_Etv := None;
     param_Cv := Some (matchVersionWithPrefix "cv");
     param_ContentHash := Some (mkFinder (RCat RAny (rcats [rlit "ccv"; rversion; rlit "-"]))
       (rcats [ROpt (rlit "0x"); RPlus (RCls is_alnum); rlit "-"]) (rlit "getZk"));
     FailureSuffix := matchFailureSuffix FailSuffix |}.

Definition aggregation_base : re :=
  rcats [rdigits; rlit "-"; rdigits; ROpt (RCat (rlit "-") (RPlus (RCls is_hexdigit))); rlit "-getZkAggregatedProof"].

Definition AggregatedDefinition (conf : Config) : JobDefinition :=
  {| RequestsRootDir := AggregationRootDir conf;
     Name := jobNameAggregation;
     InputFileRegexp := input_regexp aggregation_base REps;
     OutputFileTmpl := [PStart; PText (lit "-"); PEnd; PText (lit "-"); PContentHash; PText (lit "-getZkAggregatedProof.json")];
     Priority := 2;
     param_Start := Some start_finder;
     param_End := Some end_finder;
     param_Stv := None;
     param_Etv := None;
     param_Cv := None;
     param_ContentHash := Some (mkFinder (rcats [rdigits; rlit "-"; rdigits; rlit "-"]) (RPlus (RCls is_hexdigit)) (rlit "-getZk"));
     FailureSuffix := matchFailureSuffix FailSuffix |}.

Definition invalidity_base : re := rcats [rdigits; rlit "-"; rdigits; rlit "-getZkInvalidityProof"].

Definition InvalidityDefinition (conf : Config) : JobDefinition :=
  {| RequestsRootDir := InvalidityRootDir conf;
     Name := jobNameInvalidity;
     InputFileRegexp := input_regexp invalidity_base REps;
     OutputFileTmpl := [PStart; PText (lit "-"); PEnd; PText (lit "-getZkInvalidityProof.json")];
     Priority := 0;
     param_Start := Some start_finder;
     param_End := Some end_finder;
     param_Stv := None;
     param_Etv := None;
     param_Cv := None;
     param_ContentHash := None;
     FailureSuffix := matchFailureSuffix FailSuffix |}.

Definition dirFrom (jd : JobDefinition) (file : name) : path := mkPath (RequestsRootDir jd) RequestsFromSubDir file.
Definition dirDone (jd : JobDefinition) (file : name) : path := mkPath (RequestsRootDir jd) RequestsDoneSubDir file.
Definition dirTo (jd : JobDefinition) (file : name) : path := mkPath (RequestsRootDir jd) RequestsToSubDir file.

(** ** Jobs *)

Record Job := mkJob {
  Def : JobDefinition;
  OriginalFile : name;
  LockedFile : name;
  Start : Z;
  End_ : Z;
  VersionExecutionTracer : name;
  VersionStateManager : name;
  VersionCompressor : name;
  ContentHash : name
}.

Inductive job_error :=
| ErrNoMatch (filename : name)
| ErrZeroStatus.

Definition char_value (c : ascii) : Z := Z.of_nat (nat_of_ascii c) - 48.

Definition digits_value (ds : name) : Z := foldl (fun acc c => 10 * acc + char_value c) 0 ds.

(** [strconv.Atoi] of 64-bit integers. *)
Definition Atoi (s : name) : option Z :=
  let '(neg, ds) := match s with
                    | "-"%char :: t => (true, t)
                    | "+"%char :: t => (false, t)
                    | _ => (false, s)
                    end in
  if forallb is_digit ds && negb (bool_decide (ds = [])) then
    let n := if neg : bool then - digits_value ds else digits_value ds in
    if (- 2 ^ 63 <=? n) && (n <? 2 ^ 63) then Some n else None
  else None.

Definition stringIfRegexpNotNil (r : option finder) (s : name) : name :=
  match r with
  | Some f => default [] (FindStringMatch f s)
  | None => []
  end.

Definition intIfRegexpNotNil (r : option finder) (s : name) : outcome job_error Z :=
  let match_ := stringIfRegexpNotNil r s in
  if (length s =? 0)%nat then Ok 0 else
  unwrap (Atoi match_).

Definition NewJob (jdef : JobDefinition) (filename : name) : outcome job_error Job :=
  if negb (re_match (InputFileRegexp jdef) filename) then Err (ErrNoMatch filename) else
  start ← intIfRegexpNotNil (param_Start jdef) filename;
  end_ ← intIfRegexpNotNil (param_End jdef) filename;
  Ok {| Def := jdef; OriginalFile := filename; LockedFile := [];
        Start := start; End_ := end_;
        VersionCompressor := stringIfRegexpNotNil (param_Cv jdef) filename;
        VersionExecutionTracer := stringIfRegexpNotNil (param_Etv jdef) filename;
        VersionStateManager := stringIfRegexpNotNil (param_Stv jdef) filename;
        ContentHash := stringIfRegexpNotNil (param_ContentHash jdef) filename |}.

Definition OriginalPath (j : Job) : path := dirFrom (Def j) (OriginalFile j).
Definition InProgressPath (j : Job) : path := dirFrom (Def j) (LockedFile j).

(** [%v] of an integer. *)
Fixpoint decimal_loop (fuel : nat) (n : Z) (acc : name) : name :=
  match fuel with
  | O => acc
  | S fuel =>
      let acc := ascii_of_nat (Z.to_nat (n mod 10) + 48) :: acc in
      if n <? 10 then acc else decimal_loop fuel (n / 10) acc
  end.

Definition decimal (n : Z) : name :=
  let digits n := decimal_loop (S (Z.to_nat (Z.log2 n))) n [] in
  if n <? 0 then "-"%char :: digits (- n) else digits n.

Definition fill_piece (j : Job) (p : piece) : name :=
  match p with
  | PText s => s
  | PStart => decimal (Start j)
  | PEnd => decimal (End_ j)
  | PContentHash => ContentHash j
  end.

(** [strings.ReplaceAll(s, "--", "-")]. *)
Fixpoint replace_dashes (s : name) : name :=
  match s with
  | "-"%char :: "-"%char :: t => "-"%char :: replace_dashes t
  | c :: t => c :: replace_dashes t
  | [] => []
  end.

(** The templates only name fields of the job: executing them cannot fail. *)
Definition ResponseFile (j : Job) : path :=
  let s := OutputFileTmpl (Def j) ≫= fill_piece j in
  dirTo (Def j) (replace_dashes s).

Definition TmpResponseFile (cfg : Config) (j : Job) : path :=
  dirTo (Def j) (lit "tmp-response-file." ++ LocalID cfg ++ lit ".json").

(** [FailureSuffix.Replace(OriginalFile, "", -1, -1)]. *)
Definition without_failures (j : Job) : name := remove_all (FailureSuffix (Def j)) (OriginalFile j).

Definition DeferToLargeFile (j : Job) (ExitCode : Z) : outcome job_error path :=
  if ExitCode =? 0 then Err ErrZeroStatus else
  let origFile := without_failures j in
  Ok (dirFrom (Def j) (origFile ++ lit "." ++ LargeSuffix ++ lit ".failure." ++ FailSuffix ++ lit "_" ++ decimal ExitCode)).

Definition CodeSuccess : Z := 0.

Definition DoneFile (j : Job) (ExitCode : Z) : path :=
  let origFile := without_failures j in
  if ExitCode =? CodeSuccess then dirDone (Def j) (origFile ++ lit "." ++ SuccessSuffix)
  else dirDone (Def j) (origFile ++ lit ".failure." ++ FailSuffix ++ lit "_" ++ decimal ExitCode).

Definition Score (j : Job) : Z := i64 (i64 (100 * End_ j) + Priority (Def j)).
