(* ===== verification/JobNames.v ===== *)
(** The names of the requests: what the controller's file names promise.

    [FileNaming] is the interface of a job definition towards the rest of the
    controller: the shape of its input expression and the pairs of characters that its
    names avoid.  The four definitions of the source implement it, and everything that
    follows (the shape of a request's name, its stem, the names it is locked, deferred
    and finished under) is proved against the interface. *)
From S2P Require Import Prelude Regex Jobs.
From Stdlib Require Import Ascii.

(** ** The interface *)

Definition large_ext : name := lit "." ++ LargeSuffix.
Definition fail_re : re := matchFailureSuffix FailSuffix.
Definition fail_text : name := lit ".failure." ++ FailSuffix ++ lit "_".

Class FileNaming (d : JobDefinition) := {
  fn_tail : re;
  fn_base : re := RCat rdigits (RCat (rlit "-") (RCat rdigits fn_tail));
  fn_large : bool;
  fn_input : InputFileRegexp d = input_regexp fn_base (if fn_large then RCat (rlit ".") (RLit LargeSuffix) else REps);
  fn_fail : FailureSuffix d = fail_re;
  fn_pairs : forallb (fun c => negb (follow fn_base "." c)) ["j"; "f"; "i"; "l"]%char = true;
  fn_tail_first : forallb (fun n => implb (first fn_tail (ascii_of_nat n)) (Ascii.eqb "-" (ascii_of_nat n))) (seq 0 256) = true;
  fn_tail_nonempty : nullable fn_tail = false;
  fn_start : param_Start d = Some start_finder;
  fn_end : param_End d = Some end_finder
}.

#[export] Instance ExecutionDefinition_naming conf : FileNaming (ExecutionDefinition conf).
Proof.
  refine {| fn_tail := rcats [ROpt (RCat (rlit "-etv") rversion); ROpt (RCat (rlit "-stv") rversion); rlit "-getZkProof"];
            fn_large := CanRunFullLarge conf |}; vm_compute; reflexivity.
Defined.

#[export] Instance CompressionDefinition_naming conf : FileNaming (CompressionDefinition conf).
Proof.
  refine {| fn_tail := rcats [ROpt (RCat (rlit "-bcv") rversion); ROpt (RCat (rlit "-ccv") rversion); rlit "-";
              ROpt (rcats [ROpt (rlit "0x"); RStar (RCls is_alnum); rlit "-"]); rlit "getZkBlobCompressionProof"];
            fn_large := false |}; vm_compute; reflexivity.
Defined.

#[export] Instance AggregatedDefinition_naming conf : FileNaming (AggregatedDefinition conf).
Proof.
  refine {| fn_tail := rcats [ROpt (RCat (rlit "-") (RPlus (RCls is_hexdigit))); rlit "-getZkAggregatedProof"];
            fn_large := false |}; vm_compute; reflexivity.
Defined.

#[export] Instance InvalidityDefinition_naming conf : FileNaming (InvalidityDefinition conf).
Proof.
  refine {| fn_tail := rlit "-getZkInvalidityProof"; fn_large := false |}; vm_compute; reflexivity.
Defined.

(** ** Pairs of characters *)

Fixpoint no_pair (a b : ascii) (s : name) : bool :=
  match s with
  | c :: ((d :: _) as t) => negb (Ascii.eqb a c && Ascii.eqb b d) && no_pair a b t
  | _ => true
  end.

Lemma no_pair_spec a b s : ~ adjacent a b s -> no_pair a b s = true.
Proof.
  induction s as [|c [|d s] IH]; intros H; [done..|]. cbn [no_pair]. apply andb_true_iff. split.
  - apply negb_true_iff, not_true_is_false. intros [->%Ascii.eqb_eq ->%Ascii.eqb_eq]%andb_true_iff. apply H. by exists [], s.
  - apply IH. intros (u & v & E). apply H. exists (c :: u), v. cbn [app]. by rewrite E.
Qed.

Lemma no_pair_adjacent a b s : no_pair a b s = true -> ~ adjacent a b s.
Proof.
  intros H (u & v & ->). induction u as [|c u IH].
  - cbn [app no_pair] in H. by rewrite !Ascii.eqb_refl in H.
  - destruct u as [|e u]; cbn [app no_pair] in *; apply andb_true_iff in H as [_ H]; by apply IH.
Qed.

(** The stem of a name: everything up to its first [.json]. *)
Fixpoint stem (s : name) : name :=
  match s with
  | c :: ((d :: _) as t) => if Ascii.eqb "." c && Ascii.eqb "j" d then take 5 s else c :: stem t
  | _ => s
  end.

Lemma stem_json b t : no_pair "." "j" (b ++ ["."%char]) = true -> stem (b ++ lit ".json" ++ t) = b ++ lit ".json".
Proof.
  induction b as [|c b IH]; intros H; [done|]. destruct b as [|d b].
  - cbn [app no_pair] in *. change (lit ".json" ++ t) with ("."%char :: lit "json" ++ t). cbn [stem].
    rewrite andb_false_r. f_equal.
  - cbn [app] in *. cbn [no_pair] in H. apply andb_true_iff in H as [Hn H]. cbn [stem].
    apply negb_true_iff in Hn. rewrite Hn. f_equal. by apply IH.
Qed.

Section Naming.
Context (d : JobDefinition) `{FN : !FileNaming d}.
Implicit Types (n k : name).

(** The names that end with [.json]. *)
Definition stem_re : re := RCat fn_base (rlit ".json").

Lemma base_no_pair c : c ∈ ["j"; "f"; "i"; "l"]%char -> follow fn_base "." c = false.
Proof.
  intros Hc. pose proof fn_pairs as H. rewrite forallb_forall in H. apply negb_true_iff, H. by apply list_elem_of_In.
Qed.

Lemma stem_split k : matches stem_re k -> exists b, k = b ++ lit ".json" /\ matches fn_base b.
Proof. intros (b & v & -> & Hb & ->%matches_lit)%matches_cat_inv. eauto. Qed.

Lemma stem_app k t : matches stem_re k -> stem (k ++ t) = k.
Proof.
  intros (b & -> & Hb)%stem_split. rewrite <- app_assoc. apply stem_json, no_pair_spec. intros Ha.
  apply adjacent_app in Ha as [Ha|[Ha|(u & v & -> & Hv)]].
  - revert Ha. apply (not_adjacent fn_base); [|done]. apply base_no_pair. set_solver.
  - destruct Ha as (u & v & E). by destruct u as [|? [|? ?]].
  - by injection Hv as [= ?].
Qed.

(** The end of a request's name, after its stem. *)
Definition rest_re : re :=
  RCat (if fn_large then RCat (rlit ".") (RLit LargeSuffix) else REps) (RCat (RStar fail_re) eol).

Lemma input_split n :
  re_match (InputFileRegexp d) n = true <-> exists k t, n = k ++ t /\ matches stem_re k /\ matches rest_re t.
Proof. rewrite re_match_spec, fn_input. unfold input_regexp. by rewrite matches_cat_inv. Qed.

Lemma input_rest k t : matches stem_re k -> re_match (InputFileRegexp d) (k ++ t) = true <-> matches rest_re t.
Proof.
  intros Hk. rewrite input_split. split; [|eauto]. intros (k' & t' & E & Hk' & Ht').
  pose proof (stem_app k t Hk) as E1. rewrite E, (stem_app k' t' Hk') in E1. subst k'. by apply app_inv_head in E as ->.
Qed.

Definition ext_text : name := if fn_large then large_ext else [].

Lemma rest_split t :
  matches rest_re t <-> exists fs nl, t = ext_text ++ mjoin fs ++ nl /\ Forall (matches fail_re) fs /\ (nl = [] \/ nl = [newline]).
Proof.
  unfold rest_re, ext_text. rewrite matches_cat_inv. setoid_rewrite matches_cat_inv.
  assert (forall u, matches (if fn_large then RCat (rlit ".") (RLit LargeSuffix) else REps) u <-> u = if fn_large then large_ext else []) as He.
  { intros u. destruct fn_large; [|apply matches_eps_inv]. rewrite matches_cat_inv. unfold large_ext. split.
    - by intros (a & b & -> & ->%matches_lit & ->%matches_lit).
    - intros ->. exists (lit "."), LargeSuffix. unfold rlit. by rewrite !matches_lit. }
  assert (forall u, matches eol u <-> u = [] \/ u = [newline]) as Hn.
  { intros u. unfold eol. by rewrite matches_opt, matches_chr. }
  split.
  - intros (u & v & -> & ->%He & fs & nl & -> & Hf & Hnl%Hn).
    assert (exists l, fs = mjoin l /\ Forall (matches fail_re) l) as (l & -> & Hl); [|eauto].
    clear -Hf. remember (RStar fail_re) as q eqn:Hq. induction Hf as [| | | | | |r u v Hu _ _ IH]; try discriminate Hq.
    + by exists [].
    + injection Hq as ->. destruct (IH eq_refl) as (l & -> & Hl). exists (u :: l). split; [done|by constructor].
  - intros (fs & nl & -> & Hf & Hnl). eexists _, _. split; [done|]. split; [by apply He|].
    exists (mjoin fs), nl. split; [done|]. split; [|by apply Hn].
    induction Hf as [|f fs Hf _ IH]; [constructor|]. change (mjoin (f :: fs)) with (f ++ mjoin fs). by constructor.
Qed.
End Naming.

(** ** Failure suffixes *)

Lemma fail_split w : matches fail_re w <-> exists ds, w = fail_text ++ ds /\ ds <> [] /\ Forall (fun c => is_digit c = true) ds.
Proof.
  unfold fail_re, matchFailureSuffix, fail_text, rlit, rdigits. cbn [rcats]. split.
  - intros (u & v & -> & ->%matches_lit & (u' & v' & -> & ->%matches_lit & (u'' & ds & -> & ->%matches_lit
      & [Hn Hd]%matches_plus_cls)%matches_cat_inv)%matches_cat_inv)%matches_cat_inv. exists ds. by rewrite <- !app_assoc.
  - intros (ds & -> & Hn & Hd). rewrite <- !app_assoc. do 3 (apply m_cat; [by apply matches_lit|]). by apply matches_plus_cls.
Qed.

(** No failure suffix starts inside [k]. *)
Definition clean (k : name) : Prop := ~ adjacent "." "f" k /\ last k <> Some "."%char.

Lemma clean_cons c k : clean (c :: k) -> k <> [] -> clean k.
Proof.
  intros [Ha Hl] Hk. split.
  - intros (u & v & ->). apply Ha. by exists (c :: u), v.
  - destruct k; [done|]. exact Hl.
Qed.

Lemma fail_not_here c k t : clean (c :: k) -> longest fail_re (c :: k ++ t) = None.
Proof.
  intros [Ha Hl]. apply longest_None. intros [|m] Hm; apply fail_split in Hm as (ds & E & _); [done|].
  cbn [take] in E. change (fail_text ++ ds) with ("."%char :: "f"%char :: (drop 2 fail_text ++ ds)) in E. injection E as -> E.
  destruct k as [|e k]; [done|]. destruct m as [|m]; [done|]. cbn [app take] in E. injection E as -> _. apply Ha. by exists [], k.
Qed.

Lemma remove_clean k t : clean k -> remove_all fail_re (k ++ t) = k ++ remove_all fail_re t.
Proof.
  induction k as [|c k IH]; intros Hk; [done|]. cbn [app]. rewrite remove_all_keep by (by apply fail_not_here). f_equal.
  destruct k as [|e k]; [done|]. apply IH. by eapply clean_cons.
Qed.

Lemma longest_fail ds w :
  ds <> [] -> Forall (fun c => is_digit c = true) ds -> match w with [] => True | c :: _ => is_digit c = false end ->
  longest fail_re ((fail_text ++ ds) ++ w) = Some (length (fail_text ++ ds)).
Proof.
  intros Hn Hd Hw. apply longest_Some; [rewrite (length_app _ w); lia|rewrite take_app_length; apply fail_split; eauto|].
  intros m Hm Hf. rewrite take_app_ge in Hf by lia. apply fail_split in Hf as (ds' & E & _ & Hd').
  rewrite <- app_assoc in E. apply app_inv_head in E. rewrite !length_app in *.
  destruct w as [|c w]; [cbn [length] in Hm; lia|].
  destruct (m - (length fail_text + length ds))%nat as [|q] eqn:Eq; [lia|]. cbn [take] in E. subst ds'.
  apply Forall_app in Hd' as [_ Hd']. apply Forall_cons in Hd' as [Hc _]. congruence.
Qed.

Lemma digit_after (fs : list name) nl :
  Forall (matches fail_re) fs -> nl = [] \/ nl = [newline] ->
  match mjoin fs ++ nl with [] => True | c :: _ => is_digit c = false end.
Proof.
  intros [|f fs' (ds & -> & _)%fail_split _] [-> | ->]; done.
Qed.

Lemma remove_fails fs nl :
  Forall (matches fail_re) fs -> nl = [] \/ nl = [newline] -> remove_all fail_re (mjoin fs ++ nl) = nl.
Proof.
  intros Hf Hnl. induction Hf as [|f fs (ds & -> & Hn & Hd)%fail_split Hf IH].
  - destruct Hnl as [-> | ->]; reflexivity.
  - change (mjoin ((fail_text ++ ds) :: fs)) with ((fail_text ++ ds) ++ mjoin fs). rewrite <- app_assoc.
    erewrite remove_all_match; [| |apply longest_fail; [done..|by apply digit_after]].
    + by rewrite drop_app_length.
    + rewrite length_app. cbn. lia.
Qed.

Section Names.
Context (d : JobDefinition) `{FN : !FileNaming d}.

Lemma stem_clean k : matches (stem_re d) k -> clean k.
Proof.
  intros (b & -> & Hb)%stem_split. split.
  - intros [Ha|[Ha|(u & v & _ & Hv)]]%adjacent_app.
    + revert Ha. apply (not_adjacent (fn_base (d := d))); [|done]. apply base_no_pair. set_solver.
    + revert Ha. by apply no_pair_adjacent.
    + by injection Hv.
  - by rewrite last_app.
Qed.

(** A request's name: its stem, the extension of the large jobs, failure suffixes. *)
Record request_name (n k : name) (fs : list name) (nl : name) : Prop := {
  rq_name : n = k ++ ext_text d ++ mjoin fs ++ nl;
  rq_stem : matches (stem_re d) k;
  rq_fails : Forall (matches fail_re) fs;
  rq_eol : nl = [] \/ nl = [newline]
}.

Lemma request_shape n : re_match (InputFileRegexp d) n = true -> exists k fs nl, request_name n k fs nl.
Proof.
  intros H. apply (input_split d) in H as (k & t & -> & Hk & Ht). apply (rest_split d) in Ht as (fs & nl & -> & Hf & Hn).
  by exists k, fs, nl.
Qed.

Lemma without_failures_ok j n k fs nl :
  Def j = d -> OriginalFile j = n -> request_name n k fs nl -> without_failures j = k ++ ext_text d ++ nl.
Proof.
  intros Hj Hn [-> Hk Hf Hnl]. unfold without_failures. rewrite Hj, Hn, fn_fail.
  rewrite remove_clean by (by apply stem_clean).
  rewrite remove_clean; [by rewrite remove_fails|]. unfold ext_text. destruct fn_large; [|by split; [intros ([|? ?] & ? & ?)|]].
  split; [by apply no_pair_adjacent|done].
Qed.
End Names.

(** ** Decimals *)

Lemma digit_of_value z : 0 <= z < 10 -> is_digit (ascii_of_nat (Z.to_nat z + 48)) = true /\ char_value (ascii_of_nat (Z.to_nat z + 48)) = z.
Proof.
  intros Hz. assert (exists n, z = Z.of_nat n /\ (n < 10)%nat) as (n & -> & Hn) by (exists (Z.to_nat z); lia).
  rewrite Nat2Z.id. do 10 (destruct n as [|n]; [done|]). lia.
Qed.

Lemma decimal_loop_ok fuel n acc :
  0 <= n < 2 ^ Z.of_nat fuel -> (0 < fuel)%nat ->
  exists ds, decimal_loop fuel n acc = ds ++ acc /\ ds <> [] /\ Forall (fun c => is_digit c = true) ds /\ digits_value ds = n.
Proof.
  revert n acc. induction fuel as [|fuel IH]; intros n acc Hn Hf; [lia|]. cbn [decimal_loop].
  pose proof (Z.mod_pos_bound n 10 ltac:(lia)) as Hm. destruct (digit_of_value (n mod 10) Hm) as [Hd Hv].
  set (c := ascii_of_nat _) in *. destruct (Z.ltb_spec n 10) as [Hlt|Hge].
  - exists [c]. split; [done|]. split; [done|]. split; [by constructor|]. unfold digits_value. cbn [foldl]. rewrite Hv.
    rewrite Z.mod_small by lia. lia.
  - destruct fuel as [|fuel]; [cbn in Hn; lia|].
    destruct (IH (n / 10) (c :: acc)) as (ds & -> & Hne & Hds & Hval); [|lia|].
    { rewrite Nat2Z.inj_succ, Z.pow_succ_r in Hn by lia. golia. }
    exists (ds ++ [c]). rewrite <- app_assoc. split; [done|]. split; [by destruct ds|]. split; [apply Forall_app; by repeat constructor|].
    unfold digits_value in *. rewrite foldl_app. cbn [foldl]. rewrite Hval, Hv. golia.
Qed.

Lemma decimal_ok n :
  0 <= n -> decimal n <> [] /\ Forall (fun c => is_digit c = true) (decimal n) /\ digits_value (decimal n) = n.
Proof.
  intros Hn. unfold decimal. destruct (Z.ltb_spec n 0); [lia|].
  destruct (decimal_loop_ok (S (Z.to_nat (Z.log2 n))) n []) as (ds & -> & H1 & H2 & H3); [|lia|by rewrite app_nil_r].
  rewrite Nat2Z.inj_succ, Z2Nat.id by apply Z.log2_nonneg. destruct (decide (n = 0)) as [->|]; [cbn; lia|].
  pose proof (Z.log2_spec n ltac:(lia)). lia.
Qed.

(** ** Names that are not matched *)

Lemma stem_follow d `{!FileNaming d} c : c ∈ ["f"; "i"; "l"]%char -> follow (stem_re d) "." c = false.
Proof.
  intros Hc. unfold stem_re. cbn [follow]. rewrite (base_no_pair d) by set_solver.
  assert (first (rlit ".json") c = false) as -> by (repeat (apply elem_of_cons in Hc as [->|Hc]; [done|]); by apply elem_of_nil in Hc).
  rewrite andb_false_r, orb_false_r. cbn [orb].
  repeat (apply elem_of_cons in Hc as [->|Hc]; [done|]). by apply elem_of_nil in Hc.
Qed.

Lemma input_follow d `{!FileNaming d} c :
  c = "i"%char \/ c = "l"%char /\ fn_large (d := d) = false -> follow (InputFileRegexp d) "." c = false.
Proof.
  intros Hc. rewrite fn_input. change (input_regexp _ _) with (RCat (stem_re d) (rest_re d)).
  assert (follow (rest_re d) "." c = false) as Hr.
  { unfold rest_re. destruct Hc as [->|[-> ->]]; [|done]. by destruct fn_large. }
  cbn [follow]. rewrite Hr, (stem_follow d) by (destruct Hc as [->|[-> _]]; set_solver). cbn [orb].
  change (last_ (stem_re d) ".") with (last_ (rlit ".json") "." || nullable (rlit ".json") && last_ (fn_base (d := d)) ".").
  done.
Qed.

(** A name with [.inprogress.] in it is nobody's request. *)
Lemma in_progress_unmatched d `{!FileNaming d} n id :
  re_match (InputFileRegexp d) (n ++ lit "." ++ InProgressSuffix ++ id) = false.
Proof.
  change (lit "." ++ InProgressSuffix ++ id) with ("."%char :: "i"%char :: drop 1 InProgressSuffix ++ id).
  apply not_matched, (input_follow d). by left.
Qed.

Lemma fails_follow_l : follow (RCat (RStar fail_re) eol) "." "l" = false.
Proof. reflexivity. Qed.

(** The end of a name never shows the extension of large jobs a second time. *)
Lemma large_twice d `{!FileNaming d} k t : matches (stem_re d) k -> re_match (InputFileRegexp d) (k ++ ext_text d ++ lit ".l" ++ t) = false.
Proof.
  intros Hk. apply not_true_is_false. rewrite (input_rest d) by done. unfold rest_re, ext_text.
  intros (u & v & E & Hu & Hv)%matches_cat_inv.
  assert (v = lit ".l" ++ t) as ->.
  { destruct fn_large; [|by apply matches_eps_inv in Hu as ->].
    apply matches_cat_inv in Hu as (a & b & -> & ->%matches_lit & ->%matches_lit). symmetry. exact (app_inv_head _ _ _ E). }
  apply (not_adjacent _ "." "l" _ fails_follow_l Hv). by exists [], t.
Qed.

(** ** The names that a job is moved to *)

Section Moves.
Context (d : JobDefinition) `{FN : !FileNaming d} (j : Job).
Hypothesis Hdef : Def j = d.
Hypothesis Hmatch : re_match (InputFileRegexp d) (OriginalFile j) = true.

Lemma moved_stem : exists k, matches (stem_re d) k /\ stem (OriginalFile j) = k /\
  (exists t, OriginalFile j = k ++ t) /\ (exists t, without_failures j = k ++ t).
Proof using All.
  destruct (request_shape d _ Hmatch) as (k & fs & nl & Hr). exists k. destruct (Hr) as [Hn Hk _ _].
  split; [done|]. split; [rewrite Hn; by apply (stem_app d)|]. split; [eauto|].
  rewrite (without_failures_ok d j _ k fs nl Hdef eq_refl Hr). eauto.
Qed.

Lemma locked_stem id : stem (OriginalFile j ++ id) = stem (OriginalFile j).
Proof using All.
  destruct moved_stem as (k & Hk & -> & (t & ->) & _). rewrite <- app_assoc. by apply (stem_app d).
Qed.

Lemma done_stem code : stem (p_file (DoneFile j code)) = stem (OriginalFile j).
Proof using All.
  destruct moved_stem as (k & Hk & -> & _ & (t & Hw)). unfold DoneFile. rewrite Hw.
  destruct (code =? CodeSuccess); cbn [p_file dirDone]; rewrite <- app_assoc; by apply (stem_app d).
Qed.

Lemma deferred_stem code p : DeferToLargeFile j code = Ok p -> stem (p_file p) = stem (OriginalFile j).
Proof using All.
  destruct moved_stem as (k & Hk & -> & _ & (t & Hw)). unfold DeferToLargeFile. rewrite Hw.
  destruct (code =? 0); [done|]. intros [= <-]. cbn [p_file dirFrom]. rewrite <- app_assoc. by apply (stem_app d).
Qed.

(** A deferred request is not matched again by the definition that deferred it. *)
Lemma deferred_unmatched code p : DeferToLargeFile j code = Ok p -> re_match (InputFileRegexp d) (p_file p) = false.
Proof using All.
  destruct (request_shape d _ Hmatch) as (k & fs & nl & Hr). pose proof Hr as [_ Hk _ Hnl].
  unfold DeferToLargeFile. rewrite (without_failures_ok d j _ k fs nl Hdef eq_refl Hr).
  destruct (code =? 0); [done|]. intros [= <-]. cbn [p_file dirFrom]. rewrite <- !app_assoc.
  destruct Hnl as [-> | ->].
  - exact (large_twice d k (drop 1 LargeSuffix ++ fail_text ++ decimal code) Hk).
  - (* a newline inside the name *)
    apply not_true_is_false. rewrite (input_rest d) by done. intros (fs' & nl' & E & Hf & Hn')%(rest_split d).
    apply app_inv_head in E. destruct Hf as [|f fs'' (ds & -> & _)%fail_split _]; [destruct Hn' as [-> | ->]; done|done].
Qed.
End Moves.

(** The large prover takes over: the name of a deferred request is one of its inputs. *)
Lemma deferred_to_large conf conf' j code :
  CanRunFullLarge conf = false -> CanRunFullLarge conf' = true -> Def j = ExecutionDefinition conf ->
  re_match (InputFileRegexp (ExecutionDefinition conf)) (OriginalFile j) = true -> newline ∉ OriginalFile j -> 0 < code ->
  exists f, DeferToLargeFile j code = Ok (dirFrom (ExecutionDefinition conf) f) /\
    re_match (InputFileRegexp (ExecutionDefinition conf')) f = true.
Proof.
  intros Hc Hc' Hd Hm Hnl Hcode. destruct (request_shape _ _ Hm) as (k & fs & nl & Hr). pose proof Hr as [Hn Hk Hf Heol].
  assert (nl = []) as ->. { destruct Heol as [?| ->]; [done|]. destruct Hnl. rewrite Hn. rewrite !elem_of_app. right; right; right. by left. }
  unfold DeferToLargeFile. rewrite (without_failures_ok _ j _ k fs [] Hd eq_refl Hr).
  destruct (Z.eqb_spec code 0); [lia|]. rewrite Hd. eexists. split; [done|]. rewrite app_nil_r, <- app_assoc.
  apply (input_rest (ExecutionDefinition conf')); [exact Hk|]. apply rest_split. unfold ext_text. cbn [fn_large ExecutionDefinition_naming].
  rewrite Hc, Hc'. destruct (decimal_ok code ltac:(lia)) as (H1 & H2 & _).
  exists [fail_text ++ decimal code], []. split; [|split; [|by left]].
  - unfold large_ext, fail_text. cbn [mjoin list_join]. by rewrite !app_nil_r, <- !app_assoc.
  - constructor; [|constructor]. apply fail_split. eauto.
Qed.

(** What [rmPrevDanglingFiles] makes of a request's name. *)
Lemma recovered_iff conf conf' n :
  CanRunFullLarge conf' = true -> re_match (InputFileRegexp (ExecutionDefinition conf)) n = true ->
  re_match (InputFileRegexp (ExecutionDefinition conf')) (n ++ large_ext) = true <->
  CanRunFullLarge conf = false /\ n = stem n.
Proof.
  intros Hc' Hm. destruct (request_shape _ _ Hm) as (k & fs & nl & [Hn Hk Hf Heol]).
  assert (stem n = k) as ->. { rewrite Hn. by apply (stem_app (ExecutionDefinition conf)). }
  rewrite Hn, <- app_assoc. rewrite (input_rest (ExecutionDefinition conf')) by exact Hk. rewrite rest_split.
  unfold ext_text. cbn [fn_large ExecutionDefinition_naming]. rewrite Hc'. destruct (CanRunFullLarge conf).
  - split; [|by intros [? _]]. intros (fs' & nl' & E & Hf' & Hn'). exfalso. rewrite <- app_assoc in E. apply app_inv_head in E.
    assert (matches (RCat (RStar fail_re) eol) (mjoin fs' ++ nl')) as Hmm.
    { apply m_cat; [|unfold eol; by rewrite matches_opt, matches_chr]. clear -Hf'.
      induction Hf' as [|f fs Hf _ IH]; [constructor|]. change (mjoin (f :: fs)) with (f ++ mjoin fs). by constructor. }
    apply (not_adjacent _ "." "l" _ fails_follow_l Hmm). exists (mjoin fs ++ nl), (drop 1 LargeSuffix). exact (eq_sym E).
  - cbn [app]. split.
    + intros (fs' & nl' & E & _). split; [done|].
      destruct Hf as [|f fs (ds & -> & _)%fail_split _]; [|done]. destruct Heol as [-> | ->]; [by rewrite app_nil_r|done].
    + intros [_ E]. rewrite <- (app_nil_r k) in E at 2. apply app_inv_head in E. rewrite E. exists [], [].
      split; [done|]. split; [constructor|by left].
Qed.

(** ** The block numbers of a request *)

Abbreviation digits := (Forall (fun c => is_digit c = true)).

Lemma digits_here b ds w :
  ds <> [] -> digits ds -> match w with [] => True | c :: _ => is_digit c = false end ->
  find_here (mkFinder b rdigits REps) (ds ++ w) (length (ds ++ w)) = Some ds.
Proof.
  intros Hn Hd Hw. rewrite (find_here_longest _ _ _ (length ds)); [by rewrite take_app_length|rewrite length_app; lia| |].
  - split; cbn [body ahead]; [rewrite take_app_length; by apply matches_plus_cls|]. exists 0%nat. constructor.
  - intros i Hi [Hb _]. cbn [body] in Hb. rewrite take_app_ge in Hb by lia. apply matches_plus_cls in Hb as [_ Hb].
    rewrite length_app in Hi. destruct w as [|c w]; [cbn in Hi; lia|].
    destruct (i - length ds)%nat as [|q] eqn:E; [lia|]. cbn [take] in Hb. apply Forall_app in Hb as [_ Hb].
    apply Forall_cons in Hb as [Hb _]. congruence.
Qed.

Lemma dash_not_digit : is_digit "-" = false.
Proof. reflexivity. Qed.

Lemma find_start ds w : ds <> [] -> digits ds -> FindStringMatch start_finder (ds ++ "-"%char :: w) = Some ds.
Proof. intros Hn Hd. apply find_from_hit; [constructor|]. by apply digits_here. Qed.

Lemma find_end ds es w :
  ds <> [] -> digits ds -> es <> [] -> digits es ->
  FindStringMatch end_finder (ds ++ "-"%char :: es ++ "-"%char :: w) = Some es.
Proof.
  intros Hn Hd Hn' Hd'. unfold FindStringMatch.
  replace (ds ++ "-"%char :: es ++ "-"%char :: w) with ((ds ++ ["-"%char]) ++ es ++ "-"%char :: w) by (by rewrite <- app_assoc).
  rewrite find_from_skip.
  - apply find_from_hit; [|by apply digits_here]. cbn [app behind end_finder]. apply m_cat; [by apply matches_plus_cls|].
    by apply matches_lit.
  - intros u v E Hv (x & y & Ex & _ & ->%matches_lit)%matches_cat_inv. cbn [app] in Ex. subst u.
    destruct v as [|c v _] using rev_ind; [done|]. rewrite app_assoc in E. apply app_inj_tail in E as [-> _].
    apply Forall_app in Hd as [Hd _]. apply Forall_app in Hd as [_ Hd]. apply Forall_cons in Hd as [Hd _]. done.
Qed.

Lemma char_value_digit c : is_digit c = true -> 0 <= char_value c.
Proof.
  unfold is_digit, between, char_value. intros [H _]%andb_true_iff. apply Nat.leb_le in H.
  change (nat_of_ascii "0") with 48%nat in H. lia.
Qed.

Lemma digits_value_nonneg ds : digits ds -> 0 <= digits_value ds.
Proof.
  intros Hd. unfold digits_value.
  enough (forall acc, 0 <= acc -> 0 <= foldl (fun acc c => 10 * acc + char_value c) acc ds) as H by (by apply H).
  induction Hd as [|c ds Hc _ IH]; intros acc Ha; [done|]. cbn [foldl]. apply IH. pose proof (char_value_digit c Hc). lia.
Qed.

Lemma Atoi_digits ds :
  ds <> [] -> digits ds -> Atoi ds = if digits_value ds <? 2 ^ 63 then Some (digits_value ds) else None.
Proof.
  intros Hn Hd. pose proof (digits_value_nonneg ds Hd). unfold Atoi.
  assert (match ds with "-"%char :: t => (true, t) | "+"%char :: t => (false, t) | _ => (false, ds) end = (false, ds)) as ->.
  { destruct Hd as [|c ds Hc _]; [done|]. by destruct c as [[] [] [] [] [] [] [] []]. }
  assert (forallb is_digit ds = true) as ->.
  { apply forallb_forall. intros c Hc%list_elem_of_In. rewrite Forall_forall in Hd. auto. }
  rewrite bool_decide_false by done. cbn [negb andb]. destruct (Z.leb_spec (- 2 ^ 63) (digits_value ds)); [done|lia].
Qed.

(** The two numbers at the front of a request's name. *)
Lemma request_numbers d `{!FileNaming d} n :
  re_match (InputFileRegexp d) n = true ->
  exists ds es w, n = ds ++ "-"%char :: es ++ "-"%char :: w /\ ds <> [] /\ digits ds /\ es <> [] /\ digits es.
Proof.
  intros (k & t & -> & Hk & _)%(input_split d). apply (stem_split d) in Hk as (b & -> & Hb).
  unfold fn_base in Hb. apply matches_cat_inv in Hb as (ds & b1 & -> & [Hn Hd]%matches_plus_cls & Hb).
  apply matches_cat_inv in Hb as (u & b2 & -> & ->%matches_lit & Hb).
  apply matches_cat_inv in Hb as (es & tl & -> & [Hn' Hd']%matches_plus_cls & Ht).
  destruct tl as [|c tl].
  { apply nullable_spec in Ht. pose proof (fn_tail_nonempty (d := d)). congruence. }
  assert (c = "-"%char) as ->.
  { apply first_spec in Ht. pose proof (fn_tail_first (d := d)) as Hf. rewrite forallb_forall in Hf.
    specialize (Hf (nat_of_ascii c)). rewrite ascii_nat_embedding, Ht in Hf. cbn [implb] in Hf. symmetry. apply Ascii.eqb_eq, Hf.
    apply in_seq. pose proof (nat_ascii_bounded c). lia. }
  exists ds, es, (tl ++ lit ".json" ++ t). split_and!; try done. rewrite <- !app_assoc. done.
Qed.

(** [NewJob] on a name that matches. *)
Lemma NewJob_ok d `{!FileNaming d} n ds es w :
  re_match (InputFileRegexp d) n = true ->
  n = ds ++ "-"%char :: es ++ "-"%char :: w -> ds <> [] -> digits ds -> es <> [] -> digits es ->
  if (digits_value ds <? 2 ^ 63) && (digits_value es <? 2 ^ 63)
  then exists j, NewJob d n = Ok j /\ Def j = d /\ OriginalFile j = n /\ LockedFile j = [] /\
         Start j = digits_value ds /\ End_ j = digits_value es
  else NewJob d n = Panic.
Proof.
  intros Hm -> Hn Hd Hn' Hd'. unfold NewJob. rewrite Hm. cbn [negb].
  unfold intIfRegexpNotNil, stringIfRegexpNotNil. rewrite fn_start, fn_end, find_start, find_end by done. unfold default, id.
  assert ((length (ds ++ "-"%char :: es ++ "-"%char :: w) =? 0)%nat = false) as ->.
  { apply Nat.eqb_neq. rewrite length_app. cbn [length]. lia. }
  rewrite !Atoi_digits by done.
  destruct (digits_value ds <? 2 ^ 63); cbn [andb unwrap mbind outcome_bind]; [|done].
  destruct (digits_value es <? 2 ^ 63); cbn [andb unwrap mbind outcome_bind]; [|done]. eexists. split; [done|]. done.
Qed.

(** ** Theorems *)

(** The numbers of a request: of a name that a definition's expression matches,
    [NewJob] reads the two block numbers at its front, and it panics, instead of
    refusing the file, exactly when one of them does not fit an [int]. *)
Theorem NewJob_numbers (d : JobDefinition) `{!FileNaming d} (n : name) :
  re_match (InputFileRegexp d) n = true ->
  exists ds es w, n = ds ++ "-"%char :: es ++ "-"%char :: w /\ digits ds /\ digits es /\
    if (digits_value ds <? 2 ^ 63) && (digits_value es <? 2 ^ 63)
    then exists j, NewJob d n = Ok j /\ Start j = digits_value ds /\ End_ j = digits_value es
    else NewJob d n = Panic.
Proof.
  intros Hm. destruct (request_numbers d n Hm) as (ds & es & w & E & Hn & Hd & Hn' & Hd').
  exists ds, es, w. split_and!; try done. pose proof (NewJob_ok d n ds es w Hm E Hn Hd Hn' Hd') as H.
  destruct (_ && _); [|done]. destruct H as (j & Hj & _ & _ & _ & H1 & H2). eauto.
Qed.

(** Deferring hands a request over once: the name under which a prover defers an
    execution request is an input of the large provers, and no definition matches a
    name it deferred itself, so that a request is not taken up again by the prover
    that gave it up. *)
Theorem deferred_once conf conf' (d : JobDefinition) `{!FileNaming d} (j : Job) (code : Z) (p : path) :
  Def j = d -> re_match (InputFileRegexp d) (OriginalFile j) = true -> DeferToLargeFile j code = Ok p ->
  re_match (InputFileRegexp d) (p_file p) = false /\
  (d = ExecutionDefinition conf -> CanRunFullLarge conf = false -> CanRunFullLarge conf' = true ->
   newline ∉ OriginalFile j -> 0 < code ->
   re_match (InputFileRegexp (ExecutionDefinition conf')) (p_file p) = true).
Proof.
  intros Hd Hm Hp. split; [by eapply (deferred_unmatched d)|]. intros -> Hc Hc' Hnl Hcode.
  destruct (deferred_to_large conf conf' j code) as (f & Hf & Hr); [done..|]. rewrite Hf in Hp. by injection Hp as <-.
Qed.

(** The recovery of a crashed prover's requests only helps some of them: after
    [rmPrevDanglingFiles] appended the large extension, a large prover takes the
    request exactly when it came from a regular prover and had no failure suffix; the
    other names match no definition of an execution job. *)
Theorem recovered_requests conf conf' (n : name) :
  CanRunFullLarge conf' = true -> re_match (InputFileRegexp (ExecutionDefinition conf)) n = true ->
  (re_match (InputFileRegexp (ExecutionDefinition conf')) (n ++ large_ext) = true <->
   CanRunFullLarge conf = false /\ n = stem n).
Proof. apply recovered_iff. Qed.

(** ** Witnesses *)

Definition demo_cfg (large : bool) : Config :=
  mkConfig (lit "pod-1") [0; 1] [137] [77] true true true true (fun _ => Some []) (fun _ => Some [])
    (lit "execution") (lit "compression") (lit "aggregation") (lit "invalidity") large 0 (lit "config.toml").

Definition demo_name : name := lit "102-103-etv0.2.3-stv1.2.3-getZkProof.json.failure.code_77".

Definition demo_job : Job :=
  match NewJob (ExecutionDefinition (demo_cfg false)) demo_name with
  | Ok j => j
  | _ => mkJob (ExecutionDefinition (demo_cfg false)) [] [] 0 0 [] [] [] []
  end.

Example demo_job_names :
  OriginalFile demo_job = demo_name /\ Start demo_job = 102 /\ End_ demo_job = 103 /\
  VersionExecutionTracer demo_job = lit "0.2.3" /\ VersionStateManager demo_job = lit "1.2.3" /\
  p_file (ResponseFile demo_job) = lit "102-103-getZkProof.json" /\
  p_file (DoneFile demo_job 0) = lit "102-103-etv0.2.3-stv1.2.3-getZkProof.json.success" /\
  p_file (DoneFile demo_job 2) = lit "102-103-etv0.2.3-stv1.2.3-getZkProof.json.failure.code_2" /\
  DeferToLargeFile demo_job 137
  = Ok (dirFrom (Def demo_job) (lit "102-103-etv0.2.3-stv1.2.3-getZkProof.json.large.failure.code_137")).
Proof. vm_compute. split_and!; reflexivity. Qed.

Lemma NewJob_numbers_witness :
  exists ds es w, demo_name = ds ++ "-"%char :: es ++ "-"%char :: w /\ digits ds /\ digits es /\
    if (digits_value ds <? 2 ^ 63) && (digits_value es <? 2 ^ 63)
    then exists j, NewJob (ExecutionDefinition (demo_cfg false)) demo_name = Ok j /\ Start j = digits_value ds /\ End_ j = digits_value es
    else NewJob (ExecutionDefinition (demo_cfg false)) demo_name = Panic.
Proof. apply (NewJob_numbers (ExecutionDefinition (demo_cfg false)) demo_name). vm_compute. reflexivity. Defined.

Example too_long_panics :
  NewJob (ExecutionDefinition (demo_cfg false)) (lit "99999999999999999999-1-getZkProof.json") = Panic.
Proof. vm_compute. reflexivity. Qed.

Lemma deferred_once_witness :
  re_match (InputFileRegexp (ExecutionDefinition (demo_cfg true)))
    (lit "102-103-etv0.2.3-stv1.2.3-getZkProof.json.large.failure.code_137") = true.
Proof.
  apply (deferred_once (demo_cfg false) (demo_cfg true) (ExecutionDefinition (demo_cfg false)) demo_job 137
    (dirFrom (ExecutionDefinition (demo_cfg false)) (lit "102-103-etv0.2.3-stv1.2.3-getZkProof.json.large.failure.code_137")));
    try reflexivity; vm_compute; reflexivity || idtac.
  intros H. repeat (apply elem_of_cons in H as [H|H]; [discriminate H|]). by apply elem_of_nil in H.
Defined.

Lemma recovered_requests_witness :
  re_match (InputFileRegexp (ExecutionDefinition (demo_cfg true))) (lit "1-2-getZkProof.json" ++ large_ext) = true.
Proof.
  apply (recovered_requests (demo_cfg false) (demo_cfg true) (lit "1-2-getZkProof.json")); [reflexivity|vm_compute; reflexivity|].
  split; vm_compute; reflexivity.
Defined.
