(* ===== verification/Controller.v ===== *)
(** The controller of the prover: [prover/cmd/controller/controller], files
    [fs_watcher.go], [executor.go] and [controller.go].

    A controller takes request files from shared directories: it locks one by renaming
    it, runs the prover on it, and renames it again according to the exit code.
    Several controllers share the directories, and each of them has, besides its main
    loop, a goroutine that handles the signals SIGUSR1 (the machine is reclaimed) and
    SIGTERM (graceful shutdown), and goroutines that wait for the grace period.

    The files are a map from paths to contents, the shared state.  [os.Rename] replaces
    its destination; it fails when its source is missing and, when [may_fail] is set,
    for any other reason, in which case it changes nothing.  The controller is a small
    step relation: a step is one access to the shared state (a listing, a rename, a
    removal, an atomic flag, a section under the mutex [activeJobMutex]), so that
    everything the goroutines and the other controllers can do in between is covered.
    The prover processes, the signals and the arrival of requests are nondeterministic.
    Logs and metrics are left out. *)
From S2P Require Import Prelude Regex Jobs.
From Stdlib Require Import Ascii.

(** ** Files *)

Abbreviation fsys := (gmap path Z).

Definition os_Rename (fs : fsys) (old new : path) : option fsys :=
  match fs !! old with
  | Some c => Some (<[new := c]> (delete old fs))
  | None => None
  end.

Definition os_Remove (fs : fsys) (p : path) : fsys := delete p fs.

(** ** The file system watcher *)

Record FsWatcher := mkFsWatcher {
  fw_LocalID : name;
  JobToWatch : list JobDefinition;
  InProgress : name
}.

Definition NewFsWatcher (conf : Config) : FsWatcher :=
  {| fw_LocalID := LocalID conf;
     InProgress := InProgressSuffix;
     JobToWatch :=
       (if EnableExecution conf then [ExecutionDefinition conf] else [])
       ++ (if EnableDataAvailability conf then [CompressionDefinition conf] else [])
       ++ (if EnableAggregation conf then [AggregatedDefinition conf] else [])
       ++ (if EnableInvalidity conf then [InvalidityDefinition conf] else []) |}.

(** A directory entry: its name and whether it is a regular file. *)
Abbreviation dirent := (name * bool)%type.

(** The entries that [lsname] may return for the requests of a definition: the regular
    files of the directory, in any order, and anything that is not a regular file. *)
Definition lists (fs : fsys) (jd : JobDefinition) (dirents : list dirent) : Prop :=
  NoDup dirents /\ forall n, (n, true) ∈ dirents <-> is_Some (fs !! dirFrom jd n).

(** [None] is the error of [lsname]: it is logged and the definition is skipped. *)
Fixpoint append_dirents (jdef : JobDefinition) (dirents : list dirent) (jobs : list Job) : outcome job_error (list Job) :=
  match dirents with
  | [] => Ok jobs
  | (n, regular) :: dirents =>
      if negb regular then append_dirents jdef dirents jobs else
      match NewJob jdef n with
      | Ok job => append_dirents jdef dirents (jobs ++ [job])
      | Err _ => append_dirents jdef dirents jobs
      | Panic => Panic
      end
  end.

Definition appendJobFromDef (jdef : JobDefinition) (dirents : option (list dirent)) (jobs : list Job) :
    outcome job_error (list Job) :=
  match dirents with
  | None => Ok jobs
  | Some dirents => append_dirents jdef dirents jobs
  end.

(** [slices.SortStableFunc] with [a.Score() - b.Score()], as the stable insertion sort:
    every stable sort gives the same list where no difference of scores overflows. *)
Definition job_before (a b : Job) : bool := i64 (Score a - Score b) <? 0.

Fixpoint insert_job (x : Job) (l : list Job) : list Job :=
  match l with
  | [] => [x]
  | y :: l' => if job_before y x then y :: insert_job x l' else x :: y :: l'
  end.

Fixpoint sort_jobs (l : list Job) : list Job :=
  match l with [] => [] | x :: l => insert_job x (sort_jobs l) end.

Definition locked_name (w : FsWatcher) (job : Job) : name :=
  OriginalFile job ++ lit "." ++ InProgress w ++ lit "." ++ fw_LocalID w.

Definition with_lock (job : Job) (locked : name) : Job :=
  {| Def := Def job; OriginalFile := OriginalFile job; LockedFile := locked; Start := Start job; End_ := End_ job;
     VersionExecutionTracer := VersionExecutionTracer job; VersionStateManager := VersionStateManager job;
     VersionCompressor := VersionCompressor job; ContentHash := ContentHash job |}.

Definition tryLockFile (w : FsWatcher) (fs : fsys) (job : Job) : option (fsys * Job) :=
  let lockedFile := locked_name w job in
  let old := dirFrom (Def job) (OriginalFile job) in
  let new := dirFrom (Def job) lockedFile in
  match os_Rename fs old new with
  | Some fs' => Some (fs', with_lock job lockedFile)
  | None => None
  end.

Fixpoint lockBest (w : FsWatcher) (fs : fsys) (jobs : list Job) : option (fsys * Job) :=
  match jobs with
  | [] => None
  | job :: jobs => match tryLockFile w fs job with Some r => Some r | None => lockBest w fs jobs end
  end.

(** [GetBest] when nothing else happens in between: the listings of the watched
    directories are given.  The result is the new file system and the job. *)
Definition collect_jobs (w : FsWatcher) (listings : list (option (list dirent))) : outcome job_error (list Job) :=
  foldM (fun jobs dl => appendJobFromDef dl.1 dl.2 jobs) [] (zip (JobToWatch w) listings).

Definition GetBest (w : FsWatcher) (fs : fsys) (listings : list (option (list dirent))) :
    outcome job_error (option (fsys * Job)) :=
  jobs ← collect_jobs w listings;
  Ok (lockBest w fs (sort_jobs jobs)).

(** ** The executor *)

Definition CodeTraceLimit : Z := 77.
Definition CodeUnsatisfied : Z := 78.
Definition CodeMissingTraceFile : Z := 79.
Definition CodeOom : Z := 137.
Definition CodeFatal : Z := 14.
Definition CodeCantRunCommand : Z := 15.
Definition CodeKilledByUs : Z := 1137.

(** The error that a status may carry is only logged. *)
Record Status := mkStatus {
  ExitCode : Z;
  What : name
}.

(** How a child process ended, as [syscall.WaitStatus] tells. *)
Inductive WaitStatus :=
| Exited (status : Z)
| Signaled (signal : Z)
| StillRunning.

Definition unixExitCode (proc : WaitStatus) : option Z :=
  match proc with
  | Exited exitcode => Some exitcode
  | Signaled sigCode => Some (128 + sigCode)
  | StillRunning => None
  end.

(** The three ways out of [runCmd]: the process does not start, it ends, or the
    context is done first. *)
Inductive run_event :=
| StartFails
| ProcessEnds (ws : WaitStatus)
| ContextDone.

Definition runCmd (ev : run_event) : Status :=
  match ev with
  | StartFails => mkStatus CodeFatal (lit "could not start process")
  | ProcessEnds ws =>
      let exitcode := default CodeFatal (unixExitCode ws) in
      mkStatus exitcode
        (if exitcode =? CodeSuccess then lit "success"
         else if exitcode =? CodeOom then lit "out of memory error"
         else if exitcode =? CodeTraceLimit then lit "trace limit overflow"
         else if exitcode =? CodeKilledByUs then lit "received kill signal from controller"
         else lit "exit code " ++ decimal exitcode)
  | ContextDone => mkStatus CodeKilledByUs
      (lit "the process was requested to be killed by the controller (process may not have started)")
  end.

Definition isIn (x : Z) (list : list Z) : bool := existsb (Z.eqb x) list.

Definition buildCmd (cfg : Config) (job : Job) (large : bool) : option name :=
  let outFile := TmpResponseFile cfg job in
  let tmpl := if large then WorkerCmdLargeTmpl cfg else WorkerCmdTmpl cfg in
  tmpl (mkResource (fConfig cfg) (InProgressPath job) outFile).

(** [strings.Contains]. *)
Fixpoint contains (sub s : name) : bool :=
  bool_decide (take (length sub) s = sub) || match s with [] => false | _ :: s => contains sub s end.

Definition cant_format : Status := mkStatus CodeCantRunCommand (lit "can't format the command").

(** [ev1] and [ev2] are what happens to the first command and to the retry.  The
    result says the commands that were run and the status. *)
Definition Run (cfg : Config) (job : Job) (ev1 ev2 : run_event) : list name * Status :=
  if (length (LockedFile job) =? 0)%nat then ([], mkStatus CodeFatal (lit "the job is not locked")) else
  let largeRun := bool_decide (Name (Def job) = jobNameExecution) && CanRunFullLarge cfg
                  && contains LargeSuffix (LockedFile job) in
  match buildCmd cfg job largeRun with
  | None => ([], cant_format)
  | Some cmd =>
      let status := runCmd ev1 in
      if bool_decide (Name (Def job) = jobNameDataAvailability) || bool_decide (Name (Def job) = jobNameAggregation)
         || bool_decide (Name (Def job) = jobNameInvalidity) then ([cmd], status) else
      if ExitCode status =? CodeSuccess then ([cmd], status) else
      if ExitCode status =? CodeKilledByUs then ([cmd], status) else
      if isIn (ExitCode status) (RetryLocallyWithLargeCodes cfg) then
        if largeRun then ([cmd; cmd], runCmd ev2) else
        match buildCmd cfg job true with
        | None => ([cmd], cant_format)
        | Some largeCmd => ([cmd; largeCmd], runCmd ev2)
        end
      else ([cmd], status)
  end.

(** ** The main loop *)

(** The delay before looking for a job again; an empty list of delays panics. *)
Definition retryDelay (retryDelaysSec : list Z) (numRetrySoFar : nat) : outcome job_error Z :=
  let retryDelaysDur := (fun s => i64 (s * 1000000000)) <$> retryDelaysSec in
  ttw ← unwrap (last retryDelaysDur);
  if (numRetrySoFar <? length retryDelaysDur)%nat then unwrap (retryDelaysDur !! numRetrySoFar) else Ok ttw.

(** The branches of the switch on the status. *)
Inductive verdict :=
| VSuccess
| VDefer
| VKilled
| VFailure.

Definition judge (cfg : Config) (job : Job) (status : Status) : verdict :=
  if ExitCode status =? CodeSuccess then VSuccess
  else if bool_decide (Name (Def job) = jobNameExecution) && isIn (ExitCode status) (DeferToOtherLargeCodes cfg) then VDefer
  else if ExitCode status =? CodeKilledByUs then VKilled
  else VFailure.

(** Where the main goroutine is.  [MExitRemove] and [MExitRename] hold the mutex. *)
Inductive main_pc :=
| MInit                                           (* before [rmPrevDanglingFiles] *)
| MRecover (names : list name)                    (* the dangling files left to rename *)
| MLoop                                           (* at the select *)
| MTick                                           (* the context is not done, before reading the flags *)
| MScan (defs : list JobDefinition) (jobs : list Job)
| MLock (jobs : list Job)
| MGot (job : Job)                                (* locked, [activeJob] not set yet *)
| MRun (job : Job)                                (* inside [executor.Run] *)
| MJudge (job : Job) (status : Status)
| MTrace (job : Job) (status : Status)            (* success, response in place *)
| MMove (job : Job) (target : path)               (* the request is about to leave *)
| MClear                                          (* before [activeJob = nil] *)
| MExit                                           (* context done, slept *)
| MExitRemove (job : Job)
| MExitRename (job : Job)
| MExited
| MPanicked.

(** Where the signal handler is.  The three requeue states hold the mutex. *)
Inductive handler_pc :=
| HIdle
| HUsr1                                           (* [spotReclaimDetected] stored *)
| HUsr2                                           (* before taking the mutex *)
| HRemove (job : Job)
| HRename (job : Job)
| HClear
| HTerm.                                          (* [gracefulShutdownRequested] stored *)

Record ctl := mkCtl {
  main : main_pc;
  numRetrySoFar : nat;
  activeJob : option Job;
  handler : handler_pc;
  spotReclaimDetected : bool;
  gracefulShutdownRequested : bool;
  cancelled : bool;                               (* [cmdCtx] is done *)
  timers : nat                                    (* goroutines waiting for the grace period *)
}.

Definition initial : ctl := mkCtl MInit 0 None HIdle false false false 0.

Definition at_main (c : ctl) (m : main_pc) : ctl :=
  mkCtl m (numRetrySoFar c) (activeJob c) (handler c) (spotReclaimDetected c) (gracefulShutdownRequested c) (cancelled c) (timers c).
Definition at_handler (c : ctl) (h : handler_pc) : ctl :=
  mkCtl (main c) (numRetrySoFar c) (activeJob c) h (spotReclaimDetected c) (gracefulShutdownRequested c) (cancelled c) (timers c).
Definition set_active (c : ctl) (j : option Job) : ctl :=
  mkCtl (main c) (numRetrySoFar c) j (handler c) (spotReclaimDetected c) (gracefulShutdownRequested c) (cancelled c) (timers c).
Definition set_retries (c : ctl) (n : nat) : ctl :=
  mkCtl (main c) n (activeJob c) (handler c) (spotReclaimDetected c) (gracefulShutdownRequested c) (cancelled c) (timers c).
Definition set_spot (c : ctl) : ctl :=
  mkCtl (main c) (numRetrySoFar c) (activeJob c) (handler c) true (gracefulShutdownRequested c) (cancelled c) (timers c).
Definition set_graceful (c : ctl) : ctl :=
  mkCtl (main c) (numRetrySoFar c) (activeJob c) (handler c) (spotReclaimDetected c) true (cancelled c) (timers c).
Definition cancel (c : ctl) : ctl :=
  mkCtl (main c) (numRetrySoFar c) (activeJob c) (handler c) (spotReclaimDetected c) (gracefulShutdownRequested c) true (timers c).
Definition add_timer (c : ctl) : ctl :=
  mkCtl (main c) (numRetrySoFar c) (activeJob c) (handler c) (spotReclaimDetected c) (gracefulShutdownRequested c) (cancelled c) (S (timers c)).

(** The mutex. *)
Definition handler_holds (c : ctl) : bool :=
  match handler c with HRemove _ | HRename _ | HClear => true | _ => false end.
Definition main_holds (c : ctl) : bool :=
  match main c with MExitRemove _ | MExitRename _ => true | _ => false end.

Definition dangling_suffix (cfg : Config) : name := lit "." ++ InProgressSuffix ++ lit "." ++ LocalID cfg.

Definition HasSuffix (s suf : name) : bool :=
  (length suf <=? length s)%nat && bool_decide (drop (length s - length suf) s = suf).
Definition TrimSuffix (s suf : name) : name := if HasSuffix s suf then take (length s - length suf) s else s.

(** The files that [rmPrevDanglingFiles] renames. *)
Definition dangling (cfg : Config) (entries : list dirent) : list name :=
  (filter (fun e => e.2 && HasSuffix e.1 (dangling_suffix cfg) = true) entries).*1.

Section Steps.
Context (may_fail : bool) (trace_file : Z -> option path).

(** [os.Rename] and whether it returned no error. *)
Inductive renamed (fs : fsys) (old new : path) : fsys -> bool -> Prop :=
| rename_ok fs' : os_Rename fs old new = Some fs' -> renamed fs old new fs' true
| rename_missing : os_Rename fs old new = None -> renamed fs old new fs false
| rename_error : may_fail = true -> renamed fs old new fs false.

(** What [executor.Run] leaves behind: the prover may have written the response. *)
Inductive worked (cfg : Config) (job : Job) (fs : fsys) : fsys -> Prop :=
| worked_nothing : worked cfg job fs fs
| worked_response r : worked cfg job fs (<[TmpResponseFile cfg job := r]> fs).

Definition event_possible (c : ctl) (ev : run_event) : Prop :=
  match ev with
  | ContextDone => cancelled c = true
  | ProcessEnds (Exited s) => 0 <= s < 256
  | ProcessEnds (Signaled s) => 0 < s < 128
  | _ => True
  end.

Definition alive (c : ctl) : Prop := main c <> MExited /\ main c <> MPanicked.

(** [tryDeleteExecution]: the traces named in the request file are removed. *)
Definition tryDeleteExecution (fs : fsys) (job : Job) : fsys :=
  match fs !! InProgressPath job with
  | Some c => match trace_file c with Some p => os_Remove fs p | None => fs end
  | None => fs
  end.

Definition delete_traces (cfg : Config) (job : Job) (fs : fsys) : fsys :=
  if bool_decide (Name (Def job) = jobNameExecution) && (KeepTracesUntilBlock cfg <? End_ job)
  then tryDeleteExecution fs job else fs.

Inductive main_step (cfg : Config) (fs : fsys) (c : ctl) : fsys -> ctl -> Prop :=
| step_init_error : main c = MInit -> main_step cfg fs c fs (at_main c MLoop)
| step_init entries : main c = MInit -> lists fs (ExecutionDefinition cfg) entries ->
    main_step cfg fs c fs (at_main c (MRecover (dangling cfg entries)))
| step_recover n names fs' ok : main c = MRecover (n :: names) ->
    renamed fs (dirFrom (ExecutionDefinition cfg) n)
      (dirFrom (ExecutionDefinition cfg) (TrimSuffix n (dangling_suffix cfg) ++ lit "." ++ LargeSuffix)) fs' ok ->
    main_step cfg fs c fs' (at_main c (MRecover names))
| step_recovered : main c = MRecover [] -> main_step cfg fs c fs (at_main c MLoop)
| step_done : main c = MLoop -> cancelled c = true -> main_step cfg fs c fs (at_main c MExit)
| step_continue : main c = MLoop -> cancelled c = true -> main_step cfg fs c fs c
| step_tick : main c = MLoop -> cancelled c = false -> main_step cfg fs c fs (at_main c MTick)
| step_skip : main c = MTick -> gracefulShutdownRequested c || spotReclaimDetected c = true ->
    main_step cfg fs c fs (at_main (set_retries c (S (numRetrySoFar c))) MLoop)
| step_look : main c = MTick -> gracefulShutdownRequested c || spotReclaimDetected c = false ->
    main_step cfg fs c fs (at_main c (MScan (JobToWatch (NewFsWatcher cfg)) []))
| step_scan d defs jobs dirents jobs' : main c = MScan (d :: defs) jobs ->
    match dirents with Some l => lists fs d l | None => True end ->
    appendJobFromDef d dirents jobs = Ok jobs' ->
    main_step cfg fs c fs (at_main c (MScan defs jobs'))
| step_scan_panic d defs jobs l : main c = MScan (d :: defs) jobs -> lists fs d l ->
    appendJobFromDef d (Some l) jobs = Panic -> main_step cfg fs c fs (at_main c MPanicked)
| step_sort jobs : main c = MScan [] jobs -> main_step cfg fs c fs (at_main c (MLock (sort_jobs jobs)))
| step_lock j jobs fs' : main c = MLock (j :: jobs) ->
    let w := NewFsWatcher cfg in
    renamed fs (OriginalPath j) (dirFrom (Def j) (locked_name w j)) fs' true ->
    main_step cfg fs c fs' (at_main (set_retries c 0) (MGot (with_lock j (locked_name w j))))
| step_lock_fails j jobs fs' : main c = MLock (j :: jobs) ->
    renamed fs (OriginalPath j) (dirFrom (Def j) (locked_name (NewFsWatcher cfg) j)) fs' false ->
    main_step cfg fs c fs' (at_main c (MLock jobs))
| step_none : main c = MLock [] -> main_step cfg fs c fs (at_main (set_retries c (S (numRetrySoFar c))) MLoop)
| step_activate j : main c = MGot j -> handler_holds c = false ->
    main_step cfg fs c fs (at_main (set_active c (Some j)) (MRun j))
| step_run j ev1 ev2 fs' : main c = MRun j -> event_possible c ev1 -> event_possible c ev2 -> worked cfg j fs fs' ->
    main_step cfg fs c fs' (at_main c (MJudge j (Run cfg j ev1 ev2).2))
| step_success j st fs' ok : main c = MJudge j st -> judge cfg j st = VSuccess ->
    renamed fs (TmpResponseFile cfg j) (ResponseFile j) fs' ok ->
    main_step cfg fs c (if ok : bool then fs' else os_Remove fs' (TmpResponseFile cfg j)) (at_main c (MTrace j st))
| step_trace j st : main c = MTrace j st ->
    main_step cfg fs c (delete_traces cfg j fs) (at_main c (MMove j (DoneFile j (ExitCode st))))
| step_trace_error j st : main c = MTrace j st -> may_fail = true ->
    main_step cfg fs c fs (at_main c (MMove j (DoneFile j (ExitCode st))))
| step_defer j st p : main c = MJudge j st -> judge cfg j st = VDefer -> DeferToLargeFile j (ExitCode st) = Ok p ->
    main_step cfg fs c fs (at_main c (MMove j p))
| step_killed j st : main c = MJudge j st -> judge cfg j st = VKilled ->
    main_step cfg fs c (os_Remove fs (TmpResponseFile cfg j)) (at_main c MLoop)
| step_failure j st : main c = MJudge j st -> judge cfg j st = VFailure ->
    main_step cfg fs c fs (at_main c (MMove j (DoneFile j (ExitCode st))))
| step_move j p fs' ok : main c = MMove j p -> renamed fs (InProgressPath j) p fs' ok ->
    main_step cfg fs c fs' (at_main c MClear)
| step_clear : main c = MClear -> handler_holds c = false -> main_step cfg fs c fs (at_main (set_active c None) MLoop)
| step_exit_requeue j : main c = MExit -> handler_holds c = false ->
    spotReclaimDetected c = false -> gracefulShutdownRequested c = true -> activeJob c = Some j ->
    main_step cfg fs c fs (at_main c (MExitRemove j))
| step_exit : main c = MExit -> handler_holds c = false ->
    spotReclaimDetected c = true \/ gracefulShutdownRequested c = false \/ activeJob c = None ->
    main_step cfg fs c fs (at_main c MExited)
| step_exit_remove j : main c = MExitRemove j ->
    main_step cfg fs c (os_Remove fs (TmpResponseFile cfg j)) (at_main c (MExitRename j))
| step_exit_rename j fs' ok : main c = MExitRename j -> renamed fs (InProgressPath j) (OriginalPath j) fs' ok ->
    main_step cfg fs c fs' (at_main (set_active c None) MExited).

Inductive handler_step (cfg : Config) (fs : fsys) (c : ctl) : fsys -> ctl -> Prop :=
| sig_usr1 : handler c = HIdle -> alive c -> handler_step cfg fs c fs (at_handler (set_spot c) HUsr1)
| usr1_cancel : handler c = HUsr1 -> alive c ->
    handler_step cfg fs c fs (at_handler (if gracefulShutdownRequested c then c else cancel c) HUsr2)
| usr1_requeue j : handler c = HUsr2 -> alive c -> main_holds c = false -> activeJob c = Some j ->
    handler_step cfg fs c fs (at_handler c (HRemove j))
| usr1_nothing : handler c = HUsr2 -> alive c -> main_holds c = false -> activeJob c = None ->
    handler_step cfg fs c fs (at_handler c HIdle)
| requeue_remove j : handler c = HRemove j -> alive c ->
    handler_step cfg fs c (os_Remove fs (TmpResponseFile cfg j)) (at_handler c (HRename j))
| requeue_rename j fs' ok : handler c = HRename j -> alive c ->
    renamed fs (InProgressPath j) (OriginalPath j) fs' ok ->
    handler_step cfg fs c fs' (at_handler c HClear)
| requeue_clear : handler c = HClear -> alive c -> handler_step cfg fs c fs (at_handler (set_active c None) HIdle)
| sig_term : handler c = HIdle -> alive c -> handler_step cfg fs c fs (at_handler (set_graceful c) HTerm)
| term_wait j : handler c = HTerm -> alive c -> main_holds c = false -> activeJob c = Some j ->
    handler_step cfg fs c fs (at_handler (add_timer c) HIdle)
| term_cancel : handler c = HTerm -> alive c -> main_holds c = false -> activeJob c = None ->
    handler_step cfg fs c fs (at_handler (cancel c) HIdle)
| timer_fires : (0 < timers c)%nat -> alive c -> handler_step cfg fs c fs (cancel c).

Definition cstep (cfg : Config) (s s' : fsys * ctl) : Prop :=
  main_step cfg s.1 s.2 s'.1 s'.2 \/ handler_step cfg s.1 s.2 s'.1 s'.2.
End Steps.
