(* ===== verification/ControllerTheorems.v ===== *)
(** Safety of the controllers that share the request directories.

    [system] is any number of controllers, the files they share, and the requests that
    arrived; it evolves by the steps of the controllers, by their crashes and restarts,
    by the arrival of requests and by whatever happens to the responses.  The
    invariant: the requests on disk are, one for one, the requests that arrived, each
    under one name with its own root and stem. *)
From S2P Require Import Prelude Regex Jobs JobNames Controller.
From Stdlib Require Import Ascii.

(** ** The system *)

(** The definitions of the source, under any configuration. *)
Definition known (d : JobDefinition) : Prop :=
  exists cfg, d ∈ [ExecutionDefinition cfg; CompressionDefinition cfg; AggregatedDefinition cfg; InvalidityDefinition cfg].

(** The paths of requests, and what identifies the request of a path. *)
Definition is_request (p : path) : Prop := p_sub p = RequestsFromSubDir \/ p_sub p = RequestsDoneSubDir.
Definition key (p : path) : name * name := (p_root p, stem (p_file p)).

Record system := mkSystem {
  files : fsys;
  controllers : list ctl;
  arrived : gmap (name * name) Z
}.

Section System.
Context (may_fail restarts : bool) (trace_file : Z -> option path) (cfgs : list Config).

Inductive sstep : system -> system -> Prop :=
| s_controller i cfg c c' fs fs' cs arr :
    cfgs !! i = Some cfg -> cs !! i = Some c -> cstep may_fail trace_file cfg (fs, c) (fs', c') ->
    sstep (mkSystem fs cs arr) (mkSystem fs' (<[i := c']> cs) arr)
| s_restart i fs cs arr : restarts = true -> sstep (mkSystem fs cs arr) (mkSystem fs (<[i := initial]> cs) arr)
| s_arrival d n r fs cs arr :
    known d -> re_match (InputFileRegexp d) n = true -> arr !! key (dirFrom d n) = None ->
    sstep (mkSystem fs cs arr) (mkSystem (<[dirFrom d n := r]> fs) cs (<[key (dirFrom d n) := r]> arr))
| s_response p r fs cs arr : ~ is_request p -> sstep (mkSystem fs cs arr) (mkSystem (<[p := r]> fs) cs arr)
| s_response_gone p fs cs arr : ~ is_request p -> sstep (mkSystem fs cs arr) (mkSystem (delete p fs) cs arr).

(** All controllers start, on empty directories. *)
Definition system_start (c : ctl) : system := mkSystem ∅ (replicate (length cfgs) c) ∅.

Definition reachable (s : system) : Prop := rtc sstep (system_start initial) s.
End System.

(** ** The invariant of the files *)

(** The file has a stem: a known definition made its name. *)
Definition has_stem (p : path) : Prop :=
  exists d (_ : FileNaming d) k t, matches (stem_re d) k /\ p_file p = k ++ t.

Record files_ok (fs : fsys) (arr : gmap (name * name) Z) : Prop := {
  fo_unique : forall p q, is_request p -> is_request q -> is_Some (fs !! p) -> is_Some (fs !! q) -> key p = key q -> p = q;
  fo_arrived : forall k r, arr !! k = Some r <-> exists p, is_request p /\ key p = k /\ fs !! p = Some r;
  fo_stem : forall p, is_request p -> is_Some (fs !! p) -> has_stem p
}.

Lemma known_naming d : known d -> exists _ : FileNaming d, True.
Proof.
  intros (cfg & H). repeat (apply elem_of_cons in H as [->|H]; [by eexists; [apply _|]|]). by apply elem_of_nil in H.
Qed.

Lemma files_ok_empty : files_ok ∅ ∅.
Proof.
  split.
  - intros p q _ _ [? E]. by rewrite lookup_empty in E.
  - intros k r. rewrite lookup_empty. split; [done|]. intros (p & _ & _ & E). by rewrite lookup_empty in E.
  - intros p _ [? E]. by rewrite lookup_empty in E.
Qed.

(** Files that are not requests do not matter. *)
Lemma files_ok_same fs fs' arr :
  (forall p, is_request p -> fs' !! p = fs !! p) -> files_ok fs arr -> files_ok fs' arr.
Proof.
  intros E [Hu Ha Hs]. split.
  - intros p q Hp Hq. rewrite !E by done. by apply Hu.
  - intros k r. rewrite Ha. split; intros (p & Hp & Hk & Hr); exists p; split_and!; try done; by rewrite E in * || rewrite <- E.
  - intros p Hp. rewrite E by done. by apply Hs.
Qed.

(** A request that moves keeps its root and stem. *)
Lemma files_ok_rename fs fs' arr old new :
  os_Rename fs old new = Some fs' -> is_request old -> is_request new -> key old = key new -> has_stem new ->
  files_ok fs arr -> files_ok fs' arr.
Proof.
  unfold os_Rename. destruct (fs !! old) as [c|] eqn:Ec; [|done]. intros [= <-] Ho Hn Hk Hst [Hu Ha Hs].
  assert (forall p, is_request p -> is_Some (fs !! p) -> key p = key new -> p = old) as Hold.
  { intros p Hp Hx E. apply Hu; eauto. congruence. }
  split.
  - intros p q Hp Hq. rewrite !lookup_insert_is_Some, !lookup_delete_is_Some.
    intros [<-|(Np & Op & Xp)] [<-|(Nq & Oq & Xq)] E; [done| | |by apply Hu].
    + destruct Oq. symmetry. apply Hold; congruence || done.
    + destruct Op. symmetry. apply Hold; congruence || done.
  - intros k r. rewrite Ha. split.
    + intros (p & Hp & Hkp & Hr). destruct (decide (p = old)) as [->|Hne].
      * exists new. split; [done|]. split; [congruence|]. rewrite lookup_insert_eq. congruence.
      * exists p. split; [done|]. split; [done|]. destruct (decide (p = new)) as [->|Hnn].
        -- destruct Hne. apply Hold; eauto.
        -- by rewrite lookup_insert_ne, lookup_delete_ne by congruence.
    + intros (p & Hp & Hkp & Hr). destruct (decide (p = new)) as [->|Hne].
      * rewrite lookup_insert_eq in Hr. injection Hr as <-. exists old. split_and!; [done|congruence|done].
      * rewrite lookup_insert_ne in Hr by congruence. apply lookup_delete_Some in Hr as [_ Hr]. eauto.
  - intros p Hp. rewrite lookup_insert_is_Some, lookup_delete_is_Some. intros [<-|(_ & _ & X)]; [done|by apply Hs].
Qed.

Lemma files_ok_arrival fs arr p r :
  is_request p -> has_stem p -> arr !! key p = None -> files_ok fs arr -> files_ok (<[p := r]> fs) (<[key p := r]> arr).
Proof.
  intros Hp Hst Hn [Hu Ha Hs].
  assert (forall q, is_request q -> is_Some (fs !! q) -> key q <> key p) as Hfresh.
  { intros q Hq [r' Hr'] E. assert (arr !! key p = Some r') as X; [|congruence]. apply Ha. by exists q. }
  split.
  - intros q q' Hq Hq'. rewrite !lookup_insert_is_Some. intros [<-|[N X]] [<-|[N' X']] E; [done| | |by apply Hu].
    + by destruct (Hfresh q' Hq' X').
    + by destruct (Hfresh q Hq X).
  - intros k r'. destruct (decide (k = key p)) as [->|Hne].
    + rewrite lookup_insert_eq. split.
      * intros [= <-]. exists p. by rewrite lookup_insert_eq.
      * intros (q & Hq & Hk & Hr). destruct (decide (q = p)) as [->|N]; [by rewrite lookup_insert_eq in Hr|].
        rewrite lookup_insert_ne in Hr by congruence. by destruct (Hfresh q Hq ltac:(eauto)).
    + rewrite lookup_insert_ne by congruence. rewrite Ha. split; intros (q & Hq & Hk & Hr); exists q; split_and!; try done.
      * rewrite lookup_insert_ne; [done|]. congruence.
      * rewrite lookup_insert_ne in Hr; [done|]. congruence.
  - intros q Hq. rewrite lookup_insert_is_Some. intros [<-|[_ X]]; [done|by apply Hs].
Qed.

(** ** The invariant of a controller *)

Definition job_ok (j : Job) : Prop :=
  exists _ : FileNaming (Def j), re_match (InputFileRegexp (Def j)) (OriginalFile j) = true.

Definition lock_ok (cfg : Config) (j : Job) : Prop :=
  job_ok j /\ LockedFile j = locked_name (NewFsWatcher cfg) j.

(** A place where a request may move. *)
Definition target_ok (j : Job) (p : path) : Prop :=
  is_request p /\ key p = key (OriginalPath j) /\ has_stem p.

Definition main_ok (cfg : Config) (m : main_pc) : Prop :=
  match m with
  | MRecover names => Forall (fun n => HasSuffix n (dangling_suffix cfg) = true) names
  | MScan defs jobs => Forall known defs /\ Forall job_ok jobs
  | MLock jobs => Forall job_ok jobs
  | MGot j | MRun j | MJudge j _ | MTrace j _ | MExitRemove j | MExitRename j => lock_ok cfg j
  | MMove j p => lock_ok cfg j /\ target_ok j p
  | _ => True
  end.

Record ctl_ok (cfg : Config) (c : ctl) : Prop := {
  co_main : main_ok cfg (main c);
  co_active : forall j, activeJob c = Some j -> lock_ok cfg j;
  co_handler : match handler c with HRemove j | HRename j => lock_ok cfg j | _ => True end
}.

Lemma from_is_request d n : is_request (dirFrom d n).
Proof. by left. Qed.

Lemma done_is_request d n : is_request (dirDone d n).
Proof. by right. Qed.

Lemma to_not_request d n : ~ is_request (dirTo d n).
Proof. intros [E|E]; discriminate E. Qed.

#[local] Hint Resolve from_is_request done_is_request to_not_request : core.

Lemma target_original j : job_ok j -> target_ok j (OriginalPath j).
Proof.
  intros (FN & Hm). split; [apply from_is_request|]. split; [done|].
  destruct (moved_stem (Def j) j eq_refl Hm) as (k & Hk & _ & (t & E) & _). by exists (Def j), FN, k, t.
Qed.

Lemma target_locked cfg j : job_ok j -> target_ok j (dirFrom (Def j) (locked_name (NewFsWatcher cfg) j)).
Proof.
  intros (FN & Hm). split; [done|]. split.
  - unfold key, OriginalPath, locked_name. cbn [p_root p_file dirFrom]. by rewrite (locked_stem (Def j) j eq_refl Hm).
  - destruct (moved_stem (Def j) j eq_refl Hm) as (k & Hk & _ & (t & E) & _). unfold locked_name.
    eexists (Def j), FN, k, _. split; [done|]. cbn [p_file dirFrom]. rewrite E, <- app_assoc. done.
Qed.

Lemma target_done j code : job_ok j -> target_ok j (DoneFile j code).
Proof.
  intros (FN & Hm). pose proof (done_stem (Def j) j eq_refl Hm code) as Hs.
  destruct (moved_stem (Def j) j eq_refl Hm) as (k & Hk & _ & _ & (t & E)).
  split; [unfold DoneFile; by destruct (code =? CodeSuccess)|]. split.
  - unfold key. rewrite Hs. unfold DoneFile. by destruct (code =? CodeSuccess).
  - unfold DoneFile. rewrite E. destruct (code =? CodeSuccess); eexists (Def j), FN, k, _; (split; [done|]);
      cbn [p_file dirDone]; rewrite <- app_assoc; reflexivity.
Qed.

Lemma target_deferred j code p : job_ok j -> DeferToLargeFile j code = Ok p -> target_ok j p.
Proof.
  intros (FN & Hm) Hp. pose proof (deferred_stem (Def j) j eq_refl Hm code p Hp) as Hs.
  destruct (moved_stem (Def j) j eq_refl Hm) as (k & Hk & _ & _ & (t & E)).
  unfold DeferToLargeFile in Hp. rewrite E in Hp. destruct (code =? 0); [done|]. injection Hp as <-.
  split; [done|]. split; [unfold key; by rewrite Hs|].
  eexists (Def j), FN, k, _. split; [done|]. cbn [p_file dirFrom]. rewrite <- app_assoc. done.
Qed.

(** Files between the places of one request. *)
Lemma renamed_request may_fail fs fs' arr j old new ok :
  target_ok j old -> target_ok j new -> renamed may_fail fs old new fs' ok -> files_ok fs arr -> files_ok fs' arr.
Proof.
  intros (Ho & Hko & _) (Hn & Hkn & Hs) Hr Hf. destruct Hr; [|done..]. eapply files_ok_rename; eauto. congruence.
Qed.

(** Files that are not requests. *)
Lemma renamed_other may_fail fs fs' arr old new ok :
  ~ is_request old -> ~ is_request new -> renamed may_fail fs old new fs' ok -> files_ok fs arr -> files_ok fs' arr.
Proof.
  intros Ho Hn [fs'' Hr| |]; [|done..]. apply files_ok_same. intros p Hp. unfold os_Rename in Hr.
  destruct (fs !! old); [|done]. injection Hr as <-. rewrite lookup_insert_ne, lookup_delete_ne by (intros ->; done). done.
Qed.

Lemma files_ok_delete fs arr p : ~ is_request p -> files_ok fs arr -> files_ok (delete p fs) arr.
Proof. intros Hp. apply files_ok_same. intros q Hq. rewrite lookup_delete_ne; [done|]. intros ->. done. Qed.

Lemma files_ok_insert fs arr p r : ~ is_request p -> files_ok fs arr -> files_ok (<[p := r]> fs) arr.
Proof. intros Hp. apply files_ok_same. intros q Hq. rewrite lookup_insert_ne; [done|]. intros ->. done. Qed.

(** *** The recovery of dangling files *)

Lemma has_suffix_split s suf : HasSuffix s suf = true -> s = TrimSuffix s suf ++ suf.
Proof.
  intros H. unfold TrimSuffix. rewrite H. unfold HasSuffix in H. apply andb_true_iff in H as [_ H].
  apply bool_decide_eq_true in H. rewrite <- (take_drop (length s - length suf) s) at 1. by rewrite H.
Qed.

Lemma stem_before_progress d `{!FileNaming d} k t m r :
  matches (stem_re d) k -> k ++ t = m ++ lit ".i" ++ r -> exists t', m = k ++ t'.
Proof.
  intros Hk E. apply app_eq_inv in E as [(x & -> & Ex)|(x & -> & _)]; [|eauto].
  destruct x as [|c1 [|c2 x]]; [exists []; by rewrite !app_nil_r| |]; exfalso.
  - injection Ex as <- _. destruct (stem_clean d _ Hk) as [_ Hl]. by rewrite last_snoc in Hl.
  - injection Ex as <- <- _. apply (not_adjacent (stem_re d) "." "i" _ (stem_follow d "i" ltac:(set_solver)) Hk). by exists m, x.
Qed.

Lemma recovered_file may_fail cfg fs fs' arr d n ok :
  HasSuffix n (dangling_suffix cfg) = true ->
  renamed may_fail fs (dirFrom d n) (dirFrom d (TrimSuffix n (dangling_suffix cfg) ++ lit "." ++ LargeSuffix)) fs' ok ->
  files_ok fs arr -> files_ok fs' arr.
Proof.
  intros Hs [fs'' Hr| |] Hf; [|done..]. pose proof Hr as Hex. unfold os_Rename in Hex.
  destruct (fs !! dirFrom d n) as [c|] eqn:Ec; [|done]. clear Hex.
  destruct (fo_stem fs arr Hf (dirFrom d n)) as (d' & FN & k & t & Hk & E); [done|eauto|]. cbn [p_file dirFrom] in E.
  pose proof (has_suffix_split _ _ Hs) as En. set (m := TrimSuffix n (dangling_suffix cfg)) in *.
  destruct (stem_before_progress d' k t m (drop 1 InProgressSuffix ++ lit "." ++ LocalID cfg) Hk) as (t' & Em).
  { rewrite <- E, En. done. }
  eapply files_ok_rename; [exact Hr|done|done| | |exact Hf].
  - unfold key. cbn [p_root p_file dirFrom]. rewrite E, Em, <- app_assoc. f_equal. by rewrite !(stem_app d').
  - eexists d', FN, k, _. split; [done|]. cbn [p_file dirFrom]. rewrite Em, <- app_assoc. done.
Qed.

(** *** The jobs that the watcher finds *)

Lemma NewJob_inv d n j :
  NewJob d n = Ok j -> Def j = d /\ OriginalFile j = n /\ LockedFile j = [] /\ re_match (InputFileRegexp d) n = true.
Proof.
  unfold NewJob. destruct (re_match _ n); [|done]. cbn [negb].
  intros (s & _ & (e & _ & H)%bind_ok)%bind_ok. by injection H as <-.
Qed.

Lemma NewJob_job_ok d n j : known d -> NewJob d n = Ok j -> job_ok j.
Proof.
  intros (FN & _)%known_naming (Hd & Hn & _ & Hm)%NewJob_inv. subst d. exists FN. by rewrite Hn.
Qed.

Lemma append_jobs_ok d dirents jobs jobs' :
  known d -> Forall job_ok jobs -> append_dirents d dirents jobs = Ok jobs' -> Forall job_ok jobs'.
Proof.
  intros Hd. revert jobs. induction dirents as [|[n r] ds IH]; intros jobs Hj; cbn [append_dirents]; [by intros [= <-]|].
  destruct r; cbn [negb]; [|by apply IH]. destruct (NewJob d n) as [j| |] eqn:E; [|by apply IH|done].
  apply IH, Forall_app. split; [done|]. constructor; [by eapply NewJob_job_ok|constructor].
Qed.

Lemma insert_job_perm x l : insert_job x l ≡ₚ x :: l.
Proof.
  induction l as [|y l IH]; cbn [insert_job]; [done|]. destruct (job_before y x); [|done]. rewrite IH. apply Permutation_swap.
Qed.

Lemma sort_jobs_perm l : sort_jobs l ≡ₚ l.
Proof. induction l as [|x l IH]; cbn [sort_jobs]; [done|]. by rewrite insert_job_perm, IH. Qed.

Lemma watched_known cfg : Forall known (JobToWatch (NewFsWatcher cfg)).
Proof.
  cbn [JobToWatch NewFsWatcher]. rewrite !Forall_app.
  split_and!; match goal with |- Forall _ (if ?b then _ else _) => destruct b; repeat constructor end; exists cfg; set_solver.
Qed.

Lemma with_lock_ok cfg j : job_ok j -> lock_ok cfg (with_lock j (locked_name (NewFsWatcher cfg) j)).
Proof. intros H. split; done. Qed.

Lemma lock_target cfg j : lock_ok cfg j -> target_ok j (InProgressPath j).
Proof. intros [Hj Hl]. unfold InProgressPath. rewrite Hl. by apply target_locked. Qed.

Section Preservation.
Context (may_fail : bool) (trace_file : Z -> option path).
Hypothesis traces_elsewhere : forall r p, trace_file r = Some p -> ~ is_request p.

Lemma delete_traces_ok cfg j fs arr : files_ok fs arr -> files_ok (delete_traces trace_file cfg j fs) arr.
Proof.
  intros Hf. unfold delete_traces, tryDeleteExecution. destruct (_ && _); [|done].
  destruct (fs !! InProgressPath j) as [r|]; [|done]. destruct (trace_file r) as [p|] eqn:E; [|done].
  apply files_ok_delete; [by eapply traces_elsewhere|done].
Qed.

(** The part of the invariant that a step does not touch. *)
Ltac solve_ctl :=
  match goal with
  | H : ctl_ok _ _ |- ctl_ok _ _ =>
      split; cbn; [try done|first [exact (co_active _ _ H)|by intros|idtac]|try exact (co_handler _ _ H)]
  end.

Lemma main_step_ok cfg fs c fs' c' arr :
  ctl_ok cfg c -> files_ok fs arr -> main_step may_fail trace_file cfg fs c fs' c' -> ctl_ok cfg c' /\ files_ok fs' arr.
Proof.
  intros Hc Hf Hs. pose proof (co_main _ _ Hc) as Hmain. destruct Hs;
    match goal with Hm : main c = _ |- _ => rewrite Hm in Hmain; cbn [main_ok] in Hmain end.
  - split; [solve_ctl|done].
  - split; [solve_ctl|done]. apply Forall_forall. intros n (e & -> & He)%list_elem_of_fmap.
    apply list_elem_of_filter in He as [He _]. by apply andb_true_iff in He as [_ He].
  - apply Forall_cons in Hmain as [Hn Hns]. split; [solve_ctl|by eapply recovered_file].
  - split; [solve_ctl|done].
  - split; [solve_ctl|done].
  - done.
  - split; [solve_ctl|done].
  - split; [solve_ctl|done].
  - split; [solve_ctl; split; [apply watched_known|done]|done].
  - destruct Hmain as [Hd Hj]. apply Forall_cons in Hd as [Hd Hds]. split; [|done]. solve_ctl. split; [done|].
    destruct dirents; cbn [appendJobFromDef] in *; [by eapply append_jobs_ok|by simplify_eq].
  - split; [solve_ctl|done].
  - split; [|done]. solve_ctl. rewrite sort_jobs_perm. apply Hmain.
  - apply Forall_cons in Hmain as [Hj Hjs]. split; [solve_ctl; by apply with_lock_ok|].
    eapply renamed_request; [by apply target_original|by apply target_locked|done..].
  - apply Forall_cons in Hmain as [Hj Hjs]. split; [solve_ctl|].
    eapply renamed_request; [by apply target_original|by apply target_locked|done..].
  - split; [solve_ctl|done].
  - split; [|done]. solve_ctl. by intros ? [= <-].
  - split; [solve_ctl|]. destruct H2; [done|]. apply files_ok_insert; [apply to_not_request|done].
  - split; [solve_ctl|]. assert (files_ok fs' arr) as Hf'.
    { eapply renamed_other; [| |done..]; apply to_not_request. }
    destruct ok; [done|]. apply files_ok_delete; [apply to_not_request|done].
  - split; [solve_ctl; split; [done|]; by apply target_done, Hmain|by apply delete_traces_ok].
  - split; [solve_ctl; split; [done|]; by apply target_done, Hmain|done].
  - split; [solve_ctl; split; [done|]; by eapply target_deferred; [apply Hmain|]|done].
  - split; [solve_ctl|]. apply files_ok_delete; [apply to_not_request|done].
  - split; [solve_ctl; split; [done|]; by apply target_done, Hmain|done].
  - destruct Hmain as [Hl Ht]. split; [solve_ctl|]. eapply renamed_request; [by eapply lock_target|done..].
  - split; [solve_ctl|done].
  - split; [|done]. solve_ctl. by eapply co_active.
  - split; [solve_ctl|done].
  - split; [solve_ctl|]. apply files_ok_delete; [apply to_not_request|done].
  - split; [solve_ctl|]. eapply renamed_request; [by eapply lock_target|apply target_original, Hmain|done..].
Qed.

Lemma handler_step_ok cfg fs c fs' c' arr :
  ctl_ok cfg c -> files_ok fs arr -> handler_step may_fail cfg fs c fs' c' -> ctl_ok cfg c' /\ files_ok fs' arr.
Proof.
  intros Hc Hf Hs. pose proof Hc as [Hmain Hact Hhan]. destruct Hs;
    try match goal with Hh : handler c = _ |- _ => rewrite Hh in Hhan end.
  - split; [by split|done].
  - split; [|done]. destruct (gracefulShutdownRequested c); by split.
  - split; [|done]. split; cbn; auto.
  - split; [by split|done].
  - split; [by split|]. apply files_ok_delete; [apply to_not_request|done].
  - split; [by split|]. eapply renamed_request; [by eapply lock_target|apply target_original, Hhan|done..].
  - split; [by split|done].
  - split; [by split|done].
  - split; [by split|done].
  - split; [by split|done].
  - split; [by split|done].
Qed.
End Preservation.

(** ** The invariant of the system *)
Section SystemInvariant.
Context (may_fail restarts : bool) (trace_file : Z -> option path) (cfgs : list Config).
Hypothesis traces_elsewhere : forall r p, trace_file r = Some p -> ~ is_request p.

Record sys_ok (s : system) : Prop := {
  so_files : files_ok (files s) (arrived s);
  so_ctl : forall i cfg c, cfgs !! i = Some cfg -> controllers s !! i = Some c -> ctl_ok cfg c
}.

Lemma initial_ok cfg : ctl_ok cfg initial.
Proof. by split. Qed.

Lemma insert_ctl_ok (P : Config -> ctl -> Prop) (cs : list ctl) (i : nat) c' :
  (forall i cfg c, cfgs !! i = Some cfg -> cs !! i = Some c -> P cfg c) ->
  (forall cfg, cfgs !! i = Some cfg -> P cfg c') ->
  forall k cfg c, cfgs !! k = Some cfg -> <[i := c']> cs !! k = Some c -> P cfg c.
Proof.
  intros H1 H2 k cfg c Hk Hc. apply list_lookup_insert_Some in Hc as [(<- & <- & _)|[_ Hc]]; eauto.
Qed.

Lemma sstep_ok s s' : sys_ok s -> sstep may_fail restarts trace_file cfgs s s' -> sys_ok s'.
Proof.
  intros [Hf Hc] Hs. destruct Hs as [i cfg c c' fs fs' cs arr Hi Hci Hst|i fs cs arr _|d n r fs cs arr Hd Hm Hn|p r fs cs arr Hp|p fs cs arr Hp];
    cbn [files controllers arrived] in *.
  - pose proof (Hc i cfg c Hi Hci) as Hok.
    assert (ctl_ok cfg c' /\ files_ok fs' arr) as [Hok' Hf'].
    { destruct Hst as [Hst|Hst]; cbn [fst snd] in Hst; [by eapply main_step_ok|by eapply handler_step_ok]. }
    split; cbn [files controllers arrived]; [done|]. eapply insert_ctl_ok; [done|]. intros cfg' E. congruence.
  - split; cbn [files controllers arrived]; [done|]. eapply insert_ctl_ok; [done|]. intros cfg' _. apply initial_ok.
  - split; cbn [files controllers arrived]; [|done]. apply files_ok_arrival; [done| |done|done].
    destruct (known_naming d Hd) as (FN & _). apply (input_split d) in Hm as (k & t & -> & Hk & _). by exists d, FN, k, t.
  - split; cbn [files controllers arrived]; [|done]. by apply files_ok_insert.
  - split; cbn [files controllers arrived]; [|done]. by apply files_ok_delete.
Qed.

Lemma start_ok c0 : (forall cfg, ctl_ok cfg c0) -> sys_ok (system_start cfgs c0).
Proof.
  intros Hc. split; cbn [files controllers arrived system_start]; [apply files_ok_empty|].
  intros i cfg c _ H. apply lookup_replicate in H as [-> _]. apply Hc.
Qed.

Lemma reachable_ok s : reachable may_fail restarts trace_file cfgs s -> sys_ok s.
Proof.
  unfold reachable. intros H. pose proof (start_ok initial initial_ok) as Hs. revert Hs. induction H as [|s s1 s2 Hst _ IH]; [done|].
  intros Hs. apply IH. by eapply sstep_ok.
Qed.
End SystemInvariant.

(** *** Whose lock it is *)

Lemma first_pair (a b : ascii) u v x y :
  a <> b -> ~ adjacent a b u -> ~ adjacent a b v -> u ++ a :: b :: x = v ++ a :: b :: y -> u = v.
Proof.
  intros Hab Hu Hv E.
  assert (forall u v x y, ~ adjacent a b u -> u ++ a :: b :: x = v ++ a :: b :: y -> forall w, u = v ++ w -> w = []) as H.
  { clear -Hab. intros u v x y Hu E w ->. rewrite <- app_assoc in E. apply app_inv_head in E.
    destruct w as [|c1 [|c2 w]]; [done| |].
    - injection E as _ E _. congruence.
    - injection E as -> -> _. destruct Hu. by exists v, w. }
  destruct (app_eq_inv u (a :: b :: x) v (a :: b :: y) E) as [(w & -> & _)|(w & -> & _)].
  - rewrite (H _ v x y Hu E w eq_refl). by rewrite app_nil_r.
  - by rewrite (H _ u y x Hv (eq_sym E) w eq_refl), app_nil_r.
Qed.

Lemma job_no_progress j : job_ok j -> ~ adjacent "." "i" (OriginalFile j).
Proof.
  intros (FN & Hm). apply (not_adjacent (InputFileRegexp (Def j))); [|by apply re_match_spec].
  apply (input_follow (Def j)). by left.
Qed.

Lemma locked_inj cfg cfg' j j' :
  job_ok j -> job_ok j' ->
  locked_name (NewFsWatcher cfg) j = locked_name (NewFsWatcher cfg') j' ->
  OriginalFile j = OriginalFile j' /\ LocalID cfg = LocalID cfg'.
Proof.
  intros Hj Hj' E. unfold locked_name in E. cbn [InProgress NewFsWatcher fw_LocalID] in E.
  assert (OriginalFile j = OriginalFile j') as Eo.
  { eapply (first_pair "." "i" _ _ (drop 1 InProgressSuffix ++ lit "." ++ LocalID cfg) (drop 1 InProgressSuffix ++ lit "." ++ LocalID cfg'));
      [done|by apply job_no_progress|by apply job_no_progress|exact E]. }
  split; [done|]. rewrite Eo in E. do 4 apply app_inv_head in E. exact E.
Qed.

(** ** Theorems *)

(** The jobs that a controller has locked and works on. *)
Definition held (c : ctl) (j : Job) : Prop :=
  activeJob c = Some j \/
  match main c with
  | MGot j' | MRun j' | MJudge j' _ | MTrace j' _ | MMove j' _ | MExitRemove j' | MExitRename j' => j = j'
  | _ => False
  end.

(** No two controllers with different identifiers have the same request in progress. *)
Definition exclusive (cfgs : list Config) (s : system) : Prop :=
  forall i i' cfg cfg' c c' j j',
    cfgs !! i = Some cfg -> cfgs !! i' = Some cfg' -> controllers s !! i = Some c -> controllers s !! i' = Some c' ->
    LocalID cfg <> LocalID cfg' -> held c j -> held c' j' ->
    is_Some (files s !! InProgressPath j) -> is_Some (files s !! InProgressPath j') ->
    key (OriginalPath j) <> key (OriginalPath j').

Lemma held_ok cfg c j : ctl_ok cfg c -> held c j -> lock_ok cfg j.
Proof.
  intros [Hm Ha _] [H|H]; [by apply Ha|]. destruct (main c); cbn [main_ok] in Hm; try done; subst j; try done. apply Hm.
Qed.

(** C6. No request is lost, duplicated or mixed up: in every state that the
    controllers reach, whatever they do and however their steps, crashes, restarts,
    failing renames, signals and the arrivals interleave, the requests on disk are
    exactly those that arrived, each with its content and under exactly one path, in
    the requests or in the done directory of its root. *)
Theorem requests_conserved may_fail restarts trace_file (cfgs : list Config) (s : system) :
  (forall r p, trace_file r = Some p -> ~ is_request p) ->
  reachable may_fail restarts trace_file cfgs s ->
  (forall k r, arrived s !! k = Some r <-> exists p, is_request p /\ key p = k /\ files s !! p = Some r) /\
  (forall p q, is_request p -> is_request q -> is_Some (files s !! p) -> is_Some (files s !! q) -> key p = key q -> p = q).
Proof.
  intros Ht Hr. destruct (reachable_ok may_fail restarts trace_file cfgs Ht s Hr) as [[Hu Ha _] _]. by split.
Qed.


(** ** Witnesses *)

(** The arrival of a request. *)
Definition demo_arrived : system :=
  mkSystem {[ dirFrom (ExecutionDefinition (demo_cfg false)) demo_name := 7 ]} [initial]
    {[ key (dirFrom (ExecutionDefinition (demo_cfg false)) demo_name) := 7 ]}.

Lemma demo_reachable : reachable true true (fun _ => None) [demo_cfg false] demo_arrived.
Proof.
  apply rtc_once. apply (s_arrival _ _ _ _ (ExecutionDefinition (demo_cfg false)) demo_name 7 ∅ [initial] ∅);
    [|vm_compute; reflexivity|apply lookup_empty]. exists (demo_cfg false). by left.
Qed.

Lemma requests_conserved_witness :
  exists p, is_request p /\ files demo_arrived !! p = Some 7.
Proof.
  destruct (requests_conserved true true (fun _ => None) [demo_cfg false] demo_arrived) as [H _]; [discriminate|exact demo_reachable|].
  destruct (proj1 (H (key (dirFrom (ExecutionDefinition (demo_cfg false)) demo_name)) 7)) as (p & Hp & _ & Hf);
    [apply lookup_singleton_eq|]. exists p. split; assumption.
Defined.

