(* ===== verification/ControllerShutdown.v ===== *)
(** The shutdown of a controller.

    Once the context is cancelled the main loop ends: its steps cannot go on for ever,
    and it is never stuck.  A graceful shutdown leaves no request in progress; a spot
    reclaim that arrives between the lock of a request and its registration as the
    active job does. *)
From S2P Require Import Prelude Regex Jobs JobNames Controller ControllerTheorems.
From Stdlib Require Import Ascii Wellfounded.

(** ** Termination *)

(** The stages of the main loop, and what is left to do in a stage. *)
#[local] Instance main_pc_done_dec (m : main_pc) : Decision (m = MExited \/ m = MPanicked).
Proof. destruct m; first [left; tauto|right; intros [H|H]; discriminate H]. Defined.

Definition stage (m : main_pc) : nat :=
  match m with
  | MInit => 15
  | MRecover _ => 14
  | MTick => 13
  | MScan _ _ => 12
  | MLock _ => 11
  | MGot _ => 10
  | MRun _ => 9
  | MJudge _ _ => 8
  | MTrace _ _ => 7
  | MMove _ _ => 6
  | MClear => 5
  | MLoop => 4
  | MExit => 3
  | MExitRemove _ => 2
  | MExitRename _ => 1
  | MExited | MPanicked => 0
  end.

Definition left_over (m : main_pc) : nat :=
  match m with
  | MRecover names => length names
  | MScan defs _ => length defs
  | MLock jobs => length jobs
  | _ => 0
  end.

Definition measure_lt (m' m : main_pc) : Prop :=
  (stage m' < stage m)%nat \/ stage m' = stage m /\ (left_over m' < left_over m)%nat.

Lemma measure_wf : well_founded measure_lt.
Proof.
  assert (forall n k m, (stage m < n)%nat \/ (stage m = n /\ left_over m < k)%nat -> Acc measure_lt m) as H.
  { induction n as [n IHn] using lt_wf_ind. induction k as [k IHk] using lt_wf_ind. intros m [Hm|[Hs Hl]].
    - apply (IHn (stage m) Hm (S (left_over m))). right. lia.
    - constructor. intros m' [H|[H1 H2]].
      + apply (IHn (stage m') ltac:(lia) (S (left_over m'))). right. lia.
      + apply (IHk (left_over m) Hl). right. lia. }
  intros m. apply (H (stage m) (S (left_over m))). right. lia.
Qed.

Section Termination.
Context (may_fail : bool) (trace_file : Z -> option path) (cfg : Config).

(** A step of the main loop of a cancelled controller, other than the [continue]. *)
Definition shutdown_step (c' c : ctl) : Prop :=
  cancelled c = true /\ c' <> c /\ exists fs fs', main_step may_fail trace_file cfg fs c fs' c'.

Lemma shutdown_decreases c' c : shutdown_step c' c -> measure_lt (main c') (main c).
Proof.
  intros (Hc & Hne & fs & fs' & Hs). unfold measure_lt.
  destruct Hs; rewrite ?H; cbn; try (left; lia); try (right; lia); try congruence; try done.
Qed.

Lemma renamed_total fs old new : exists fs' ok, renamed may_fail fs old new fs' ok.
Proof. destruct (os_Rename fs old new) eqn:E; [eexists _, true|eexists _, false]; by constructor. Qed.

Lemma shutdown_progress fs c :
  alive c -> cancelled c = true -> handler_holds c = false ->
  exists fs' c', main_step may_fail trace_file cfg fs c fs' c' /\ measure_lt (main c') (main c).
Proof.
  intros [Ha1 Ha2] Hc Hh.
  destruct (main c) eqn:Hm; try done.
  - eexists _, _. split; [by apply step_init_error|left; cbn; lia].
  - destruct names as [|n names]; [eexists _, _; split; [by apply step_recovered|left; cbn; lia]|].
    destruct (renamed_total fs (dirFrom (ExecutionDefinition cfg) n)
      (dirFrom (ExecutionDefinition cfg) (TrimSuffix n (dangling_suffix cfg) ++ lit "." ++ LargeSuffix))) as (fs' & ok & Hr).
    eexists _, _. split; [by eapply step_recover|right; cbn; lia].
  - eexists _, _. split; [by apply step_done|left; cbn; lia].
  - destruct (gracefulShutdownRequested c || spotReclaimDetected c) eqn:Hf; eexists _, _; (split; [by constructor|left; cbn; lia]).
  - destruct defs as [|d defs]; [eexists _, _; split; [by apply step_sort|left; cbn; lia]|].
    eexists _, _. split; [by eapply (step_scan _ _ _ _ _ d defs jobs None)|right; cbn; lia].
  - destruct jobs as [|j jobs]; [eexists _, _; split; [by apply step_none|left; cbn; lia]|].
    destruct (renamed_total fs (OriginalPath j) (dirFrom (Def j) (locked_name (NewFsWatcher cfg) j))) as (fs' & [] & Hr);
      eexists _, _; (split; [first [by eapply step_lock|by eapply step_lock_fails]|]); [left|right]; cbn; lia.
  - eexists _, _. split; [by apply step_activate|left; cbn; lia].
  - eexists _, _. split; [apply (step_run _ _ _ _ _ job ContextDone ContextDone fs); [done|done|done|constructor]|left; cbn; lia].
  - destruct (judge cfg job status) eqn:Hj.
    + destruct (renamed_total fs (TmpResponseFile cfg job) (ResponseFile job)) as (fs' & ok & Hr).
      eexists _, _. split; [by eapply step_success|left; cbn; lia].
    + assert (exists p, DeferToLargeFile job (ExitCode status) = Ok p) as (p & Hp).
      { unfold DeferToLargeFile. unfold judge, CodeSuccess in Hj. destruct (ExitCode status =? 0); [done|]. eauto. }
      eexists _, _. split; [by eapply step_defer|left; cbn; lia].
    + eexists _, _. split; [by eapply step_killed|left; cbn; lia].
    + eexists _, _. split; [by eapply step_failure|left; cbn; lia].
  - eexists _, _. split; [by eapply step_trace|left; cbn; lia].
  - destruct (renamed_total fs (InProgressPath job) target) as (fs' & ok & Hr).
    eexists _, _. split; [by eapply step_move|left; cbn; lia].
  - eexists _, _. split; [by eapply step_clear|left; cbn; lia].
  - destruct (spotReclaimDetected c) eqn:Hs.
    { eexists _, _. split; [apply step_exit; auto|left; cbn; lia]. }
    destruct (gracefulShutdownRequested c) eqn:Hg.
    2: { eexists _, _. split; [apply step_exit; auto|left; cbn; lia]. }
    destruct (activeJob c) as [j|] eqn:Hact.
    + eexists _, _. split; [by eapply step_exit_requeue|left; cbn; lia].
    + eexists _, _. split; [apply step_exit; auto|left; cbn; lia].
  - eexists _, _. split; [by eapply step_exit_remove|left; cbn; lia].
  - destruct (renamed_total fs (InProgressPath job) (OriginalPath job)) as (fs' & ok & Hr).
    eexists _, _. split; [by eapply step_exit_rename|left; cbn; lia].
Qed.

Definition handler_moves (x y : fsys * ctl) : Prop := handler_step may_fail cfg x.1 x.2 y.1 y.2.

Lemma handler_go fs c fs1 c1 z :
  handler_step may_fail cfg fs c fs1 c1 -> rtc handler_moves (fs1, c1) z -> rtc handler_moves (fs, c) z.
Proof. intros H. by apply rtc_l. Qed.

(** The handler gives the mutex back. *)
Lemma handler_releases fs c :
  alive c -> exists fs' c', rtc handler_moves (fs, c) (fs', c') /\
    handler_holds c' = false /\ main c' = main c /\ cancelled c' = cancelled c.
Proof.
  intros Ha. unfold handler_holds at 1. destruct (handler c) eqn:Hh.
  1, 2, 3, 7: exists fs, c; split; [constructor|]; unfold handler_holds; by rewrite Hh.
  - destruct (renamed_total (os_Remove fs (TmpResponseFile cfg job)) (InProgressPath job) (OriginalPath job)) as (fs' & ok & Hr).
    eexists _, _. split.
    + eapply handler_go; [apply (requeue_remove _ _ _ _ job); [exact Hh|exact Ha]|].
      eapply handler_go; [by apply (requeue_rename _ _ _ _ job fs' ok)|].
      eapply handler_go; [by apply requeue_clear|]. constructor.
    + done.
  - destruct (renamed_total fs (InProgressPath job) (OriginalPath job)) as (fs' & ok & Hr).
    eexists _, _. split.
    + eapply handler_go; [by apply (requeue_rename _ _ _ _ job fs' ok)|].
      eapply handler_go; [by apply requeue_clear|]. constructor.
    + done.
  - eexists _, _. split; [eapply handler_go; [by apply requeue_clear|]; constructor|done].
Qed.

Lemma main_keeps_cancelled fs c fs' c' : main_step may_fail trace_file cfg fs c fs' c' -> cancelled c' = cancelled c.
Proof. by destruct 1. Qed.

Lemma rtc_handler x y : rtc handler_moves x y -> rtc (cstep may_fail trace_file cfg) x y.
Proof. apply rtc_subrel. intros a b H. by right. Qed.

Lemma exit_reachable fs c :
  cancelled c = true -> exists fs' c', rtc (cstep may_fail trace_file cfg) (fs, c) (fs', c') /\ ~ alive c'.
Proof.
  remember (main c) as m eqn:Hm. revert fs c Hm.
  induction m as [m IH] using (well_founded_induction measure_wf). intros fs c -> Hc.
  destruct (decide (main c = MExited \/ main c = MPanicked)) as [Hd|Hd].
  { exists fs, c. split; [constructor|]. unfold alive. tauto. }
  assert (alive c) as Ha by (unfold alive; tauto).
  destruct (handler_releases fs c Ha) as (fs1 & c1 & Hr & Hh & Hm1 & Hc1).
  destruct (shutdown_progress fs1 c1) as (fs2 & c2 & Hs & Hlt); [unfold alive; by rewrite Hm1|congruence|done|].
  rewrite Hm1 in Hlt. destruct (IH (main c2) Hlt fs2 c2 eq_refl) as (fs3 & c3 & Hr3 & Hd3).
  { rewrite (main_keeps_cancelled _ _ _ _ Hs). congruence. }
  exists fs3, c3. split; [|done]. etrans; [by apply rtc_handler|]. apply (rtc_l _ _ (fs2, c2)); [by left|done].
Qed.
End Termination.

(** ** Graceful exits *)

(** The paths at which a controller locks requests. *)
Definition locked_path (cfg : Config) (p : path) : Prop :=
  exists j, job_ok j /\ p = dirFrom (Def j) (locked_name (NewFsWatcher cfg) j).

Definition no_new (cfg : Config) (fs fs' : fsys) : Prop :=
  forall p, locked_path cfg p -> is_Some (fs' !! p) -> is_Some (fs !! p).

Lemma no_new_refl cfg fs : no_new cfg fs fs.
Proof. by intros p. Qed.

Lemma no_new_delete cfg fs p : no_new cfg fs (delete p fs).
Proof. intros q _ H. rewrite lookup_delete_is_Some in H. tauto. Qed.

Lemma no_new_insert cfg fs p r : ~ locked_path cfg p -> no_new cfg fs (<[p := r]> fs).
Proof. intros Hp q Hq. rewrite lookup_insert_is_Some. intros [<-|[_ H]]; done. Qed.

Lemma no_new_trans cfg fs1 fs2 fs3 : no_new cfg fs1 fs2 -> no_new cfg fs2 fs3 -> no_new cfg fs1 fs3.
Proof. intros H1 H2 p Hp Hs. auto. Qed.

Lemma no_new_renamed may_fail cfg fs fs' old new ok :
  ~ locked_path cfg new -> renamed may_fail fs old new fs' ok -> no_new cfg fs fs'.
Proof.
  intros Hn [fs'' Hr| |]; [|apply no_new_refl..]. unfold os_Rename in Hr. destruct (fs !! old) as [r|]; [|done]. injection Hr as <-.
  eapply no_new_trans; [apply no_new_delete|by apply no_new_insert].
Qed.

Lemma locked_progress cfg p : locked_path cfg p -> p_sub p = RequestsFromSubDir /\ adjacent "." "i" (p_file p).
Proof.
  intros (j & _ & ->). split; [done|]. cbn [p_file dirFrom]. unfold locked_name.
  by exists (OriginalFile j), (drop 1 InProgressSuffix ++ lit "." ++ LocalID cfg).
Qed.

Lemma original_not_locked cfg j : job_ok j -> ~ locked_path cfg (OriginalPath j).
Proof. intros Hj [_ Ha]%locked_progress. by apply (job_no_progress j Hj). Qed.

Lemma to_not_locked cfg d n : ~ locked_path cfg (dirTo d n).
Proof. intros [H _]%locked_progress. discriminate H. Qed.

Lemma done_not_locked cfg j code : ~ locked_path cfg (DoneFile j code).
Proof. intros [H _]%locked_progress. unfold DoneFile in H. destruct (code =? CodeSuccess); discriminate H. Qed.

Lemma other_not_locked cfg cfg' j :
  LocalID cfg' <> LocalID cfg -> job_ok j -> ~ locked_path cfg (dirFrom (Def j) (locked_name (NewFsWatcher cfg') j)).
Proof.
  intros Hid Hj (j' & Hj' & E). apply (f_equal p_file) in E. cbn [p_file dirFrom] in E.
  by apply (locked_inj cfg' cfg j j' Hj Hj') in E as [_ E].
Qed.

Lemma deferred_not_locked cfg j code p : job_ok j -> DeferToLargeFile j code = Ok p -> 0 <= code -> ~ locked_path cfg p.
Proof.
  intros (FN & Hm) Hp Hcode [_ Ha]%locked_progress. revert Ha.
  destruct (request_shape (Def j) _ Hm) as (k & fs & nl & Hr). pose proof Hr as [_ Hk _ Hnl].
  unfold DeferToLargeFile in Hp. rewrite (without_failures_ok (Def j) j _ k fs nl eq_refl eq_refl Hr) in Hp.
  destruct (code =? 0); [done|]. injection Hp as <-. cbn [p_file dirFrom].
  set (R := RCat (stem_re (Def j)) (RStar (RAlt (rlit ".large") (RAlt (RChr newline) fail_re)))).
  apply (not_adjacent R).
  { unfold R. cbn [follow]. rewrite (stem_follow (Def j)) by set_solver. done. }
  rewrite <- !app_assoc. apply m_cat; [done|].
  assert (matches (rlit ".large") large_ext) as Hl by (by apply matches_lit).
  assert (matches (RStar (RAlt (rlit ".large") (RAlt (RChr newline) fail_re))) (large_ext ++ fail_text ++ decimal code)) as Htail.
  { apply m_star_app; [by apply m_alt_l|]. rewrite <- (app_nil_r (fail_text ++ decimal code)). apply m_star_app; [|constructor].
    apply m_alt_r, m_alt_r, fail_split. destruct (decimal_ok code Hcode) as (H1 & H2 & _). eauto. }
  assert (matches (RStar (RAlt (rlit ".large") (RAlt (RChr newline) fail_re))) (nl ++ large_ext ++ fail_text ++ decimal code)) as Hnl'.
  { destruct Hnl as [-> | ->]; [done|]. apply m_star_app; [|done]. apply m_alt_r, m_alt_l. by apply matches_chr. }
  unfold ext_text. destruct fn_large; [apply m_star_app; [by apply m_alt_l|]|]; exact Hnl'.
Qed.

(** The job whose request a controller may have in progress. *)
Definition cur (c : ctl) : option Job :=
  match main c with
  | MGot j | MRun j | MJudge j _ | MTrace j _ | MMove j _ | MExitRemove j | MExitRename j => Some j
  | MLoop | MExit => activeJob c
  | _ => None
  end.

Definition active_matches (c : ctl) : Prop :=
  match main c with
  | MRun j | MJudge j _ | MTrace j _ | MMove j _ | MExitRemove j | MExitRename j => activeJob c = Some j
  | MLoop => activeJob c <> None -> cancelled c = true
  | MClear | MExit | MExited | MPanicked => True
  | _ => activeJob c = None
  end.

(** What holds of a controller that started on directories without its locks. *)
Record own (cfg : Config) (fs : fsys) (c : ctl) : Prop := {
  ow_main : match main c with
            | MInit | MRecover _ => False
            | MJudge _ st => 0 <= ExitCode st
            | MMove _ p => forall cfg', ~ locked_path cfg' p
            | _ => True
            end;
  ow_killed : forall j st, main c = MJudge j st -> ExitCode st = CodeKilledByUs -> cancelled c = true;
  ow_exit : main c = MExit -> cancelled c = true;
  ow_handler : match handler c with
               | HIdle => True
               | HTerm => gracefulShutdownRequested c = true
               | _ => spotReclaimDetected c = true
               end;
  ow_cancelled : cancelled c = true -> spotReclaimDetected c = true \/ gracefulShutdownRequested c = true;
  ow_timers : (0 < timers c)%nat -> gracefulShutdownRequested c = true;
  ow_active : spotReclaimDetected c = false -> active_matches c;
  ow_locks : spotReclaimDetected c = false -> forall p, locked_path cfg p -> is_Some (fs !! p) ->
    exists j, cur c = Some j /\ InProgressPath j = p
}.

Lemma own_foreign cfg fs fs' c : own cfg fs c -> no_new cfg fs fs' -> own cfg fs' c.
Proof. intros [H1 H7 H8 H2 H3 H4 H5 H6] Hn. split; try done. intros Hs p Hp Hx. eapply H6; eauto. Qed.

Lemma Run_code_nonneg cfg j ev1 ev2 c :
  event_possible c ev1 -> event_possible c ev2 -> 0 <= ExitCode (Run cfg j ev1 ev2).2.
Proof.
  assert (forall ev, event_possible c ev -> 0 <= ExitCode (runCmd ev)) as H.
  { intros [|[s|s|]|]; cbn; unfold CodeFatal, CodeKilledByUs; lia. }
  intros H1%H H2%H. unfold Run. cbv zeta. generalize (runCmd ev1) (runCmd ev2) H1 H2. clear. intros st1 st2 H1 H2.
  repeat case_match; cbn; done.
Qed.

(** Only a done context gives the code of a killed process. *)
Lemma Run_killed cfg j ev1 ev2 c :
  event_possible c ev1 -> event_possible c ev2 -> ExitCode (Run cfg j ev1 ev2).2 = CodeKilledByUs -> cancelled c = true.
Proof.
  assert (forall ev, event_possible c ev -> ExitCode (runCmd ev) = CodeKilledByUs -> cancelled c = true) as H.
  { intros [|[s|s|]|]; cbn; unfold CodeFatal, CodeKilledByUs; done || lia. }
  intros P1 P2. pose proof (H ev1 P1) as H1. pose proof (H ev2 P2) as H2. unfold Run. cbv zeta. revert H1 H2. generalize (runCmd ev1) (runCmd ev2). clear. intros st1 st2 H1 H2.
  repeat case_match; cbn; first [exact H1|exact H2|intros E; discriminate E].
Qed.

(** Renaming the request in progress leaves no lock. *)
Lemma lock_gone cfg fs fs' j new ok :
  (forall p, locked_path cfg p -> is_Some (fs !! p) -> InProgressPath j = p) ->
  ~ locked_path cfg new -> renamed false fs (InProgressPath j) new fs' ok ->
  forall p, locked_path cfg p -> ~ is_Some (fs' !! p).
Proof.
  intros Hl Hn Hr p Hp Hx. destruct Hr as [fs' Hr|Hr|]; [| |done]; unfold os_Rename in Hr.
  - destruct (fs !! InProgressPath j) as [r|]; [|done]. injection Hr as <-.
    rewrite lookup_insert_is_Some, lookup_delete_is_Some in Hx. destruct Hx as [<-|(_ & Hne & Hx)]; [done|]. by apply Hne, Hl.
  - rewrite <- (Hl p Hp Hx) in Hx. destruct (fs !! InProgressPath j); [done|]. by destruct Hx.
Qed.

Section GracefulExit.
Context (trace_file : Z -> option path).

Lemma no_new_traces cfg cfg' j fs : no_new cfg fs (delete_traces trace_file cfg' j fs).
Proof.
  unfold delete_traces, tryDeleteExecution. destruct (_ && _); [|apply no_new_refl]. destruct (fs !! _); [|apply no_new_refl].
  destruct (trace_file _); [apply no_new_delete|apply no_new_refl].
Qed.

Lemma no_new_success cfg cfg' j fs fs' ok :
  renamed false fs (TmpResponseFile cfg' j) (ResponseFile j) fs' ok ->
  no_new cfg fs (if ok : bool then fs' else os_Remove fs' (TmpResponseFile cfg' j)).
Proof.
  intros H%(no_new_renamed _ cfg); [|apply to_not_locked]. destruct ok; [done|].
  eapply no_new_trans; [exact H|apply no_new_delete].
Qed.

Lemma no_new_worked cfg cfg' j fs fs' : worked cfg' j fs fs' -> no_new cfg fs fs'.
Proof. intros []; [apply no_new_refl|apply no_new_insert, to_not_locked]. Qed.

(** The steps of a controller do not make locks of another one. *)
Lemma main_no_new cfg cfg' fs c fs' c' :
  LocalID cfg' <> LocalID cfg -> ctl_ok cfg' c -> own cfg' fs c ->
  main_step false trace_file cfg' fs c fs' c' -> no_new cfg fs fs'.
Proof.
  intros Hid Hc Ho Hs. pose proof (co_main _ _ Hc) as Hmain. pose proof (ow_main _ _ _ Ho) as Hown.
  destruct Hs; match goal with Hm : main c = _ |- _ => rewrite Hm in Hmain, Hown; cbn [main_ok] in Hmain end;
    try done; try apply no_new_refl; try apply no_new_delete; try apply no_new_traces.
  - apply Forall_cons in Hmain as [Hj _]. eapply no_new_renamed; [by apply other_not_locked|done].
  - apply Forall_cons in Hmain as [Hj _]. eapply no_new_renamed; [by apply other_not_locked|done].
  - by eapply no_new_worked.
  - by eapply no_new_success.
  - eapply no_new_renamed; [apply Hown|done].
  - eapply no_new_renamed; [apply original_not_locked, Hmain|done].
Qed.

Lemma handler_no_new cfg cfg' fs c fs' c' :
  ctl_ok cfg' c -> handler_step false cfg' fs c fs' c' -> no_new cfg fs fs'.
Proof.
  intros Hc Hs. pose proof (co_handler _ _ Hc) as Hh. destruct Hs; try apply no_new_refl; try apply no_new_delete.
  rewrite H in Hh. eapply no_new_renamed; [apply original_not_locked, Hh|done].
Qed.

Lemma active_cancel c h : active_matches c -> active_matches (at_handler (cancel c) h) /\ active_matches (cancel c).
Proof. unfold active_matches. cbn. destruct (main c); done. Qed.

Lemma handler_own cfg fs c fs' c' : ctl_ok cfg c -> own cfg fs c -> handler_step false cfg fs c fs' c' -> own cfg fs' c'.
Proof.
  intros Hc Ho Hs. pose proof (handler_no_new cfg cfg fs c fs' c' Hc Hs) as Hn. apply (own_foreign _ _ fs') in Ho; [|done].
  destruct Ho as [H1 H7 H8 H2 H3 H4 H5 H6]. destruct Hs as [Hh _|Hh _|j Hh _ _ _|Hh _ _ _|j Hh _|j fs' ok Hh _ _|Hh _|Hh _|j Hh _ _ Ha|Hh _ _ Ha|Ht _];
    try rewrite Hh in H2; [|destruct (gracefulShutdownRequested c) eqn:Hg|..]; split; cbn; try done; try (intros Hs; congruence || tauto); try tauto.
  - intros Hs. by apply H4 in Hs.
  - intros Hs. exact (proj1 (active_cancel c HIdle (H5 Hs))).
  - intros Hs. exact (proj2 (active_cancel c HIdle (H5 Hs))).
Qed.

(** Replaces the state of the main loop in the invariant. *)
Ltac own_step Ho Hm :=
  let H1 := fresh "H1" in let H2 := fresh "H2" in let H3 := fresh "H3" in
  let H4 := fresh "H4" in let H5 := fresh "H5" in let H6 := fresh "H6" in let H7 := fresh "H7" in let H8 := fresh "H8" in
  destruct Ho as [H1 H7 H8 H2 H3 H4 H5 H6]; rewrite Hm in H1; unfold active_matches in H5; rewrite Hm in H5;
  unfold cur in H6; rewrite Hm in H6; split; unfold active_matches, cur;
  cbn [main activeJob handler spotReclaimDetected gracefulShutdownRequested cancelled timers at_main set_active set_retries]; try done; try tauto.

Lemma main_own cfg fs c fs' c' :
  ctl_ok cfg c -> own cfg fs c -> main_step false trace_file cfg fs c fs' c' -> own cfg fs' c'.
Proof.
  intros Hc Ho Hs. pose proof (co_main _ _ Hc) as Hmain. pose proof (ow_main _ _ _ Ho) as Hown.
  destruct Hs as [Hm|en Hm _|n ns fs' ok Hm _|Hm|Hm Hca|Hm Hca|Hm Hca|Hm Hf|Hm Hf|d ds js di js' Hm _ _|d ds js l Hm _ _|js Hm
    |j js fs' Hm w Hr|j js fs' Hm Hr|Hm|j Hm Hh|j ev1 ev2 fs' Hm He1 He2 Hw|j st fs' ok Hm Hj Hr|j st Hm|j st Hm ?|j st p Hm Hj Hp|j st Hm Hj
    |j st Hm Hj|j p fs' ok Hm Hr|Hm Hh|j Hm Hh Hsp Hg Ha|Hm Hh Hor|j Hm|j fs' ok Hm Hr];
    rewrite Hm in Hmain, Hown; cbn [main_ok] in Hmain; try done.
  - own_step Ho Hm.
  - assert (spotReclaimDetected c = false -> activeJob c = None) as HN.
    { intros Hs. pose proof (ow_active _ _ _ Ho Hs) as Ha. unfold active_matches in Ha. rewrite Hm in Ha.
      destruct (activeJob c); [|done]. rewrite Ha in Hca; done. }
    own_step Ho Hm. intros Hs p Hp Hx. destruct (H6 Hs p Hp Hx) as (j & E & _). rewrite HN in E; done.
  - own_step Ho Hm. intros Hs p Hp Hx. by destruct (H6 Hs p Hp Hx) as (j & E & _).
  - own_step Ho Hm.
  - own_step Ho Hm.
  - own_step Ho Hm.
  - own_step Ho Hm.
  - apply Forall_cons in Hmain as [Hj Hjs]. own_step Ho Hm. intros Hs p Hp Hx. eexists. split; [done|].
    inversion Hr as [fs'' Hren| |]; subst. unfold os_Rename in Hren. destruct (fs !! OriginalPath j) as [r|]; [|done].
    injection Hren as <-. rewrite lookup_insert_is_Some, lookup_delete_is_Some in Hx.
    destruct Hx as [<-|(_ & _ & Hx)]; [done|]. by destruct (H6 Hs p Hp Hx) as (j' & E & _).
  - assert (fs' = fs) as -> by (by inversion Hr). own_step Ho Hm.
  - own_step Ho Hm. intros Hs p Hp Hx. by destruct (H6 Hs p Hp Hx) as (j & E & _).
  - own_step Ho Hm.
  - apply (own_foreign _ _ fs') in Ho; [|by eapply no_new_worked]. own_step Ho Hm; [by eapply Run_code_nonneg|].
    intros j' st' [= <- <-]. by eapply Run_killed.
  - eapply own_foreign in Ho; [|by eapply no_new_success]. own_step Ho Hm.
  - eapply own_foreign in Ho; [|apply no_new_traces]. own_step Ho Hm. intros cfg'. apply done_not_locked.
  - own_step Ho Hm. intros cfg'. by eapply deferred_not_locked; [apply Hmain|..].
  - apply (own_foreign _ _ (os_Remove fs (TmpResponseFile cfg j))) in Ho; [|apply no_new_delete].
    assert (cancelled c = true) as Hca.
    { apply (ow_killed _ _ _ Ho j st Hm). unfold judge in Hj. repeat case_match; try done. lia. }
    own_step Ho Hm. intros Hs p Hp Hx. rewrite (H5 Hs). by apply H6.
  - own_step Ho Hm. intros cfg'. apply done_not_locked.
  - own_step Ho Hm. intros Hs q Hq Hx. destruct (lock_gone cfg fs fs' j p ok) with (p := q); try done.
    intros q' Hq' Hx'. destruct (H6 Hs q' Hq' Hx') as (j' & [= <-] & E). done.
  - own_step Ho Hm.
  - own_step Ho Hm. intros Hs p Hp Hx. rewrite <- Ha. by apply H6.
  - own_step Ho Hm. intros Hs p Hp Hx. destruct (H6 Hs p Hp Hx) as (j & E & _). exfalso.
    destruct (H3 (H8 Hm)) as [?|Hg]; [congruence|]. destruct Hor as [?|[?|?]]; congruence.
  - eapply own_foreign in Ho; [|apply no_new_delete]. own_step Ho Hm.
  - own_step Ho Hm. intros Hs q Hq Hx. destruct (lock_gone cfg fs fs' j (OriginalPath j) ok) with (p := q); try done.
    + intros q' Hq' Hx'. destruct (H6 Hs q' Hq' Hx') as (j' & [= <-] & E). done.
    + apply original_not_locked, Hmain.
Qed.

Context (cfgs : list Config).
Hypothesis traces_elsewhere : forall r p, trace_file r = Some p -> ~ is_request p.
Hypothesis ids_distinct : forall i i' cfg cfg',
  cfgs !! i = Some cfg -> cfgs !! i' = Some cfg' -> LocalID cfg = LocalID cfg' -> i = i'.

Definition all_own (s : system) : Prop :=
  forall i cfg c, cfgs !! i = Some cfg -> controllers s !! i = Some c -> own cfg (files s) c.

Lemma sstep_own s s' :
  sys_ok cfgs s -> all_own s -> sstep false false trace_file cfgs s s' -> all_own s'.
Proof.
  intros [_ Hc] Ho Hs. unfold all_own in *.
  destruct Hs as [i cfg c c' fs fs' cs arr Hi Hci Hst|i fs cs arr ?|d n r fs cs arr Hd Hm Hn|p r fs cs arr Hp|p fs cs arr Hp];
    cbn [files controllers] in *; [|done|..].
  - pose proof (Hc i cfg c Hi Hci) as Hok. pose proof (Ho i cfg c Hi Hci) as Hown.
    intros k cfg' c'' Hk Hck. apply list_lookup_insert_Some in Hck as [(<- & <- & _)|[Hne Hck]].
    + assert (cfg' = cfg) as -> by congruence. destruct Hst as [Hst|Hst]; cbn [fst snd] in Hst; [by eapply main_own|by eapply handler_own].
    + eapply own_foreign; [by apply (Ho k)|]. destruct Hst as [Hst|Hst]; cbn [fst snd] in Hst; [|by eapply handler_no_new].
      eapply main_no_new; [|exact Hok|exact Hown|exact Hst]. intros E. by destruct Hne; eapply ids_distinct.
  - intros k cfg c Hk Hck. eapply own_foreign; [by apply (Ho k)|]. apply no_new_insert. intros [_ Ha]%locked_progress.
    destruct (known_naming d Hd) as (FN & _). revert Ha. apply (not_adjacent (InputFileRegexp d)); [|by apply re_match_spec].
    apply (input_follow d). by left.
  - intros k cfg c Hk Hck. eapply own_foreign; [by apply (Ho k)|]. apply no_new_insert. intros [Hsub _]%locked_progress.
    apply Hp. by left.
  - intros k cfg c Hk Hck. eapply own_foreign; [by apply (Ho k)|]. apply no_new_delete.
Qed.

(** A controller that has nothing to recover. *)
Definition ready : ctl := at_main initial MLoop.

Lemma ready_own cfg : own cfg ∅ ready.
Proof. split; cbn; try done; try lia. intros _ p _ [r Hr]. by rewrite lookup_empty in Hr. Qed.

Lemma reach_own s : rtc (sstep false false trace_file cfgs) (system_start cfgs ready) s -> sys_ok cfgs s /\ all_own s.
Proof.
  assert (sys_ok cfgs (system_start cfgs ready) /\ all_own (system_start cfgs ready)) as H0.
  { split; [apply start_ok; intros; by split|]. intros i cfg c _ H. apply lookup_replicate in H as [-> _]. apply ready_own. }
  revert H0. generalize (system_start cfgs ready) as s0. intros s0 H0 Hr.
  induction Hr as [|s1 s2 s3 Hst _ IH]; [done|]. apply IH. destruct H0 as [H1 H2]. split; [by eapply (sstep_ok false false trace_file cfgs traces_elsewhere)|by eapply sstep_own].
Qed.
End GracefulExit.

(** ** Theorems *)

(** C22. The shutdown ends: once its context is cancelled, the main loop of a
    controller cannot take infinitely many steps other than the [continue] of its
    select, and from every such state, whatever the files are and wherever the signal
    handler is, the controller's own steps lead to its end. *)
Theorem shutdown_terminates may_fail trace_file (cfg : Config) :
  well_founded (shutdown_step may_fail trace_file cfg) /\
  (forall fs c, cancelled c = true ->
     exists fs' c', rtc (cstep may_fail trace_file cfg) (fs, c) (fs', c') /\ ~ alive c').
Proof.
  split; [|intros; by apply exit_reachable].
  apply (wf_incl _ _ (fun c' c => measure_lt (main c') (main c))); [intros c' c; apply shutdown_decreases|].
  apply wf_inverse_image, measure_wf.
Qed.

(** C37. A graceful shutdown requeues: a controller that ends without ever having seen
    a spot reclaim leaves none of its locks behind, whatever the other controllers,
    the prover processes and the timers do, as long as renames only fail for lack of
    their source and the identifiers of the controllers are distinct. *)
Theorem graceful_exit_requeues trace_file (cfgs : list Config) (s : system) i cfg c :
  (forall r p, trace_file r = Some p -> ~ is_request p) ->
  (forall i i' cfg cfg', cfgs !! i = Some cfg -> cfgs !! i' = Some cfg' -> LocalID cfg = LocalID cfg' -> i = i') ->
  rtc (sstep false false trace_file cfgs) (system_start cfgs ready) s ->
  cfgs !! i = Some cfg -> controllers s !! i = Some c -> main c = MExited -> spotReclaimDetected c = false ->
  forall j, job_ok j -> files s !! dirFrom (Def j) (locked_name (NewFsWatcher cfg) j) = None.
Proof.
  intros Ht Hid Hr Hi Hc Hm Hs j Hj. destruct (reach_own trace_file cfgs Ht Hid s Hr) as [_ Ho].
  apply eq_None_not_Some. intros Hx.
  destruct (ow_locks _ _ _ (Ho i cfg c Hi Hc) Hs (dirFrom (Def j) (locked_name (NewFsWatcher cfg) j))) as (j' & E & _);
    [by exists j|done|]. unfold cur in E. by rewrite Hm in E.
Qed.

(** A spot reclaim can strand a request: when SIGUSR1 is handled after a request
    was locked and before it became the active job, the handler finds nothing to
    requeue, the main loop starts the prover, kills it because the context is done,
    and ends without requeuing, so that the request stays in progress with no
    controller working on it. *)
Theorem reclaim_strands_request may_fail trace_file (cfg : Config) fs (c : ctl) (j : Job) (r : Z) (cmd : name) :
  main c = MGot j -> handler c = HIdle -> activeJob c = None -> gracefulShutdownRequested c = false ->
  LockedFile j <> [] -> (forall large, buildCmd cfg j large = Some cmd) ->
  isIn CodeKilledByUs (DeferToOtherLargeCodes cfg) = false -> fs !! InProgressPath j = Some r ->
  exists fs' c', rtc (cstep may_fail trace_file cfg) (fs, c) (fs', c') /\ main c' = MExited /\
    spotReclaimDetected c' = true /\ fs' !! InProgressPath j = Some r /\ ~ alive c'.
Proof.
  intros Hm Hh Ha Hg Hl Hb Hd Hf.
  assert ((Run cfg j ContextDone ContextDone).2 = runCmd ContextDone) as Hrun.
  { unfold Run. rewrite !Hb. destruct (LockedFile j); [done|]. cbn [length Nat.eqb]. by repeat case_match. }
  assert (judge cfg j (runCmd ContextDone) = VKilled) as Hj.
  { unfold judge. change (ExitCode (runCmd ContextDone)) with CodeKilledByUs. rewrite Hd, andb_false_r. done. }
  pose (c1 := at_handler (set_spot c) HUsr1). pose (c2 := at_handler (cancel c1) HUsr2). pose (c3 := at_handler c2 HIdle).
  pose (c4 := at_main (set_active c3 (Some j)) (MRun j)). pose (c5 := at_main c4 (MJudge j (Run cfg j ContextDone ContextDone).2)).
  pose (c6 := at_main c5 MLoop). pose (c7 := at_main c6 MExit). pose (c8 := at_main c7 MExited).
  exists (os_Remove fs (TmpResponseFile cfg j)), c8. split; [|split_and!; [done|done| |by intros [? _]]].
  - assert (alive c) as Halive by (split; by rewrite Hm).
    apply (rtc_l _ _ (fs, c1)); [right; by apply sig_usr1|].
    apply (rtc_l _ _ (fs, c2)).
    { right. pose proof (usr1_cancel may_fail cfg fs c1 eq_refl Halive) as Hs. change (gracefulShutdownRequested c1) with (gracefulShutdownRequested c) in Hs.
      by rewrite Hg in Hs. }
    apply (rtc_l _ _ (fs, c3)); [right; apply usr1_nothing; [done|done| |done]; unfold main_holds; cbn; by rewrite Hm|].
    apply (rtc_l _ _ (fs, c4)); [left; apply step_activate; [done|done]|].
    apply (rtc_l _ _ (fs, c5)); [left; apply step_run; [done|done|done|constructor]|].
    apply (rtc_l _ _ (os_Remove fs (TmpResponseFile cfg j), c6)); [left; eapply step_killed; [done|by rewrite Hrun]|].
    apply (rtc_l _ _ (os_Remove fs (TmpResponseFile cfg j), c7)); [left; by apply step_done|].
    apply (rtc_l _ _ (os_Remove fs (TmpResponseFile cfg j), c8)); [left; apply step_exit; [done|done|by left]|]. constructor.
  - unfold os_Remove. rewrite lookup_delete_ne; [done|]. intros E. apply (f_equal p_sub) in E. discriminate E.
Qed.

(** ** Witnesses *)

Definition demo_locked : Job := with_lock demo_job (locked_name (NewFsWatcher (demo_cfg false)) demo_job).

Definition demo_files : fsys := {[ InProgressPath demo_locked := 7 ]}.

Lemma reclaim_strands_request_witness :
  exists fs' c', rtc (cstep false (fun _ => None) (demo_cfg false)) (demo_files, at_main ready (MGot demo_locked)) (fs', c') /\
    main c' = MExited /\ spotReclaimDetected c' = true /\ fs' !! InProgressPath demo_locked = Some 7 /\ ~ alive c'.
Proof.
  apply (reclaim_strands_request false (fun _ => None) (demo_cfg false) demo_files (at_main ready (MGot demo_locked)) demo_locked 7 []);
    [reflexivity|reflexivity|reflexivity|reflexivity|intros E; vm_compute in E; discriminate E|intros []; reflexivity|reflexivity|].
  apply lookup_singleton_eq.
Defined.

Lemma shutdown_terminates_witness :
  exists fs' c', rtc (cstep true (fun _ => None) (demo_cfg false)) (demo_files, cancel (at_main ready (MRun demo_locked))) (fs', c') /\ ~ alive c'.
Proof. apply (shutdown_terminates true (fun _ => None) (demo_cfg false)). reflexivity. Defined.

(** SIGTERM on an idle controller. *)
Lemma demo_sigterm : rtc (sstep false false (fun _ => None) [demo_cfg false]) (system_start [demo_cfg false] ready)
  (mkSystem ∅ [at_main (cancel (set_graceful ready)) MExited] ∅).
Proof.
  assert (forall c c' cs', cstep false (fun _ => None) (demo_cfg false) (∅, c) (∅, c') ->
    rtc (sstep false false (fun _ => None) [demo_cfg false]) (mkSystem ∅ [c'] ∅) cs' ->
    rtc (sstep false false (fun _ => None) [demo_cfg false]) (mkSystem ∅ [c] ∅) cs') as Hgo.
  { intros c c' cs' Hs. apply rtc_l. exact (s_controller false false (fun _ => None) [demo_cfg false] 0 (demo_cfg false) c c' ∅ ∅ [c] ∅ eq_refl eq_refl Hs). }
  apply (Hgo _ (at_handler (set_graceful ready) HTerm)); [right; by apply sig_term|].
  apply (Hgo _ (cancel (set_graceful ready))); [right; by apply (term_cancel _ _ _ (at_handler (set_graceful ready) HTerm))|].
  apply (Hgo _ (at_main (cancel (set_graceful ready)) MExit)); [left; by apply step_done|].
  apply (Hgo _ (at_main (cancel (set_graceful ready)) MExited)); [left; apply (step_exit _ _ _ _ (at_main (cancel (set_graceful ready)) MExit)); auto|].
  constructor.
Qed.

Lemma demo_job_ok : job_ok demo_job.
Proof.
  assert (Def demo_job = ExecutionDefinition (demo_cfg false)) as E by (vm_compute; reflexivity).
  unfold job_ok. rewrite E. exists (ExecutionDefinition_naming (demo_cfg false)). vm_compute. reflexivity.
Qed.

Lemma graceful_exit_requeues_witness :
  (∅ : fsys) !! dirFrom (Def demo_job) (locked_name (NewFsWatcher (demo_cfg false)) demo_job) = None.
Proof.
  apply (graceful_exit_requeues (fun _ => None) [demo_cfg false] (mkSystem ∅ [at_main (cancel (set_graceful ready)) MExited] ∅) 0
    (demo_cfg false) (at_main (cancel (set_graceful ready)) MExited));
    [discriminate| |exact demo_sigterm|reflexivity|reflexivity|reflexivity|reflexivity|exact demo_job_ok].
  intros [|i] [|i'] cfg cfg' Hi Hi' _; [reflexivity|discriminate Hi'|discriminate Hi|discriminate Hi].
Defined.
