(* ===== verification/ControllerQueue.v ===== *)
(** The queue of a controller: which request it takes, and that the queue empties.

    [GetBest] on a directory that nobody else touches takes a request with the lowest
    end block, and among those one with the lowest priority number; without arrivals, a
    controller whose provers are not killed works through its requests and stops. *)
From S2P Require Import Prelude Regex Jobs JobNames Controller ControllerTheorems.
From Stdlib Require Import Ascii Wellfounded.

(** ** The jobs found *)

Definition found (fs : fsys) (defs : list JobDefinition) (j : Job) : Prop :=
  exists d n, d ∈ defs /\ is_Some (fs !! dirFrom d n) /\ NewJob d n = Ok j.

(** The listings show the directories, and no name has numbers that are too long. *)
Definition listed (fs : fsys) (d : JobDefinition) (l : option (list dirent)) : Prop :=
  exists dirents, l = Some dirents /\ lists fs d dirents.

Definition readable (fs : fsys) (defs : list JobDefinition) : Prop :=
  forall d n, d ∈ defs -> is_Some (fs !! dirFrom d n) -> NewJob d n <> Panic.

Lemma append_spec d dirents jobs :
  (forall n, (n, true) ∈ dirents -> NewJob d n <> Panic) ->
  exists jobs', append_dirents d dirents jobs = Ok jobs' /\
    forall j, j ∈ jobs' <-> j ∈ jobs \/ exists n, (n, true) ∈ dirents /\ NewJob d n = Ok j.
Proof.
  revert jobs. induction dirents as [|[n r] ds IH]; intros jobs Hp; cbn [append_dirents].
  - exists jobs. split; [done|]. intros j. set_solver.
  - destruct r; cbn [negb].
    + destruct (NewJob d n) as [j0|e|] eqn:E; [| |by destruct (Hp n); [left|]].
      * destruct (IH (jobs ++ [j0])) as (jobs' & Hj & Hs); [intros; apply Hp; by right|]. exists jobs'. split; [done|].
        intros j. rewrite Hs, elem_of_app, list_elem_of_singleton. split.
        -- intros [[?| ->]|(n' & Hn & ?)]; [by left|right; exists n; split; [left|done]|right; exists n'; split; [by right|done]].
        -- intros [?|(n' & [[= ->]|Hn]%elem_of_cons & E')]; [by left; left|left; right; congruence|right; eauto].
      * destruct (IH jobs) as (jobs' & Hj & Hs); [intros; apply Hp; by right|]. exists jobs'. split; [done|].
        intros j. rewrite Hs. split; (intros [?|(n' & Hn & E')]; [by left|right; exists n']).
        -- split; [by right|done].
        -- apply elem_of_cons in Hn as [[= ->]|Hn]; [congruence|done].
    + destruct (IH jobs) as (jobs' & Hj & Hs); [intros; apply Hp; by right|]. exists jobs'. split; [done|].
      intros j. rewrite Hs. split; (intros [?|(n' & Hn & E')]; [by left|right; exists n']).
      * split; [by right|done].
      * by apply elem_of_cons in Hn as [[=]|Hn].
Qed.

Lemma collect_spec fs defs listings jobs0 :
  Forall2 (listed fs) defs listings -> readable fs defs ->
  exists jobs, foldM (fun jobs dl => appendJobFromDef dl.1 dl.2 jobs) jobs0 (zip defs listings) = Ok jobs /\
    forall j, j ∈ jobs <-> j ∈ jobs0 \/ found fs defs j.
Proof.
  intros Hl. revert jobs0. induction Hl as [|d l defs ls (dirents & -> & _ & Hd) _ IH]; intros jobs0 Hr; cbn [zip zip_with foldM].
  - exists jobs0. split; [done|]. intros j. unfold found. set_solver.
  - cbn [fst snd appendJobFromDef]. destruct (append_spec d dirents jobs0) as (jobs1 & -> & H1).
    { intros n Hn%Hd. apply Hr; [left|done]. }
    cbn [mbind outcome_bind]. destruct (IH jobs1) as (jobs & Hj & H2).
    { intros d' n Hd'. apply Hr. by right. }
    exists jobs. split; [exact Hj|]. intros j. rewrite H2, H1. unfold found. split.
    + intros [[?|(n & Hn%Hd & E)]|(d' & n & Hd' & Hp & E)]; [by left| |]; right; eexists _, n; (split; [|done]); by constructor.
    + intros [?|(d' & n & [->|Hd']%elem_of_cons & Hp & E)]; [by left; left|left; right; exists n; by rewrite Hd|].
      right. by exists d', n.
Qed.

(** ** The best job *)

Definition small (j : Job) : Prop := 0 <= End_ j < 2 ^ 56 /\ 0 <= Priority (Def j) < 100.

Lemma Score_small j : small j -> Score j = 100 * End_ j + Priority (Def j).
Proof.
  intros [He Hp]. unfold Score. rewrite (swrap_small 64 (100 * End_ j)); [|unfold is_i; cbn; lia|lia].
  apply swrap_small; [unfold is_i; cbn; lia|lia].
Qed.

Lemma job_before_small a b : small a -> small b -> job_before a b = (Score a <? Score b).
Proof.
  intros Ha Hb. unfold job_before. pose proof (Score_small a Ha). pose proof (Score_small b Hb). destruct Ha, Hb.
  rewrite swrap_small; [|unfold is_i; cbn; lia|lia].
  destruct (Z.ltb_spec (Score a - Score b) 0), (Z.ltb_spec (Score a) (Score b)); lia.
Qed.

Lemma sort_head l : Forall small l ->
  match sort_jobs l with [] => l = [] | j :: _ => j ∈ l /\ Forall (fun j' => Score j <= Score j') l end.
Proof.
  induction 1 as [|x l Hx Hl IH]; [done|]. cbn [sort_jobs]. destruct (sort_jobs l) as [|y l'] eqn:E; cbn [insert_job].
  - subst l. split; [left|]. by repeat constructor.
  - destruct IH as [Hy Hmin]. rewrite job_before_small by (try done; rewrite Forall_forall in Hl; auto).
    destruct (Z.ltb_spec (Score y) (Score x)).
    + split; [by right|]. constructor; [lia|done].
    + split; [left|]. constructor; [lia|]. eapply Forall_impl; [exact Hmin|]. cbn. lia.
Qed.

Lemma watched_priority cfg d : d ∈ JobToWatch (NewFsWatcher cfg) -> 0 <= Priority d < 100.
Proof.
  cbn [JobToWatch NewFsWatcher]. rewrite !elem_of_app. intros [H|[H|[H|H]]];
    match type of H with _ ∈ (if ?b then _ else _) => destruct b end; apply elem_of_cons in H as [->|H] || idtac; try done; cbn; try lia;
    by apply elem_of_nil in H.
Qed.

Lemma found_small cfg fs j :
  found fs (JobToWatch (NewFsWatcher cfg)) j -> End_ j < 2 ^ 56 -> small j /\ job_ok j /\ is_Some (fs !! OriginalPath j).
Proof.
  intros (d & n & Hd & Hp & Hj) He. pose proof (watched_known cfg) as Hk. rewrite Forall_forall in Hk. specialize (Hk d Hd).
  pose proof (NewJob_job_ok d n j Hk Hj) as Hok. pose proof (NewJob_inv d n j Hj) as (Ed & En & _ & Hm).
  split; [|split; [done|unfold OriginalPath; by rewrite Ed, En]]. split; [|rewrite Ed; by eapply watched_priority].
  destruct (known_naming d Hk) as (FN & _). destruct (request_numbers d n Hm) as (ds & es & w & E & Hn & Hds & Hn' & Hes).
  pose proof (NewJob_ok d n ds es w Hm E Hn Hds Hn' Hes) as H.
  destruct (_ && _); [|congruence]. destruct H as (j' & Hj' & _ & _ & _ & _ & He'). assert (j' = j) as -> by congruence.
  pose proof (digits_value_nonneg es Hes). lia.
Qed.

(** ** The queue empties *)

(** The requests that a controller may take. *)
Definition candidate (cfg : Config) (p : path) : bool :=
  existsb (fun d => bool_decide (p = dirFrom d (p_file p)) && re_match (InputFileRegexp d) (p_file p)) (JobToWatch (NewFsWatcher cfg)).

Definition candidates (cfg : Config) (fs : fsys) : fsys := filter (fun pr => candidate cfg pr.1 = true) fs.

Lemma candidate_true cfg p :
  candidate cfg p = true <->
  exists d, d ∈ JobToWatch (NewFsWatcher cfg) /\ p = dirFrom d (p_file p) /\ re_match (InputFileRegexp d) (p_file p) = true.
Proof.
  unfold candidate. rewrite existsb_exists. setoid_rewrite andb_true_iff. setoid_rewrite bool_decide_eq_true.
  setoid_rewrite <- list_elem_of_In. done.
Qed.

Lemma candidate_from cfg p : candidate cfg p = true -> p_sub p = RequestsFromSubDir.
Proof. intros (d & _ & -> & _)%candidate_true. done. Qed.

Lemma locked_not_candidate cfg j : candidate cfg (dirFrom (Def j) (locked_name (NewFsWatcher cfg) j)) = false.
Proof.
  apply not_true_is_false. intros (d & Hd & _ & Hm)%candidate_true. pose proof (watched_known cfg) as Hk.
  rewrite Forall_forall in Hk. destruct (known_naming d (Hk d Hd)) as (FN & _). cbn [p_file dirFrom] in Hm.
  pose proof (in_progress_unmatched d (OriginalFile j) (lit "." ++ LocalID cfg)) as Hu.
  unfold locked_name in Hm. cbv [InProgress fw_LocalID NewFsWatcher] in Hm. congruence.
Qed.

Lemma done_not_candidate cfg j code : candidate cfg (DoneFile j code) = false.
Proof.
  apply not_true_is_false. intros H%candidate_from. unfold DoneFile in H. destruct (code =? CodeSuccess); discriminate H.
Qed.

(** What a controller watches besides execution requests has no large variant. *)
Lemma watched_cases cfg d :
  d ∈ JobToWatch (NewFsWatcher cfg) ->
  d = ExecutionDefinition cfg \/ exists FN : FileNaming d, fn_large (d := d) = false.
Proof.
  cbn [JobToWatch NewFsWatcher]. rewrite !elem_of_app. intros [H|[H|[H|H]]];
    match type of H with _ ∈ (if ?b then _ else _) => destruct b end; try (by apply elem_of_nil in H);
    apply list_elem_of_singleton in H as ->; [by left|right..].
  - by exists (CompressionDefinition_naming cfg).
  - by exists (AggregatedDefinition_naming cfg).
  - by exists (InvalidityDefinition_naming cfg).
Qed.

Lemma deferred_not_candidate cfg j code p :
  Def j = ExecutionDefinition cfg -> re_match (InputFileRegexp (Def j)) (OriginalFile j) = true ->
  DeferToLargeFile j code = Ok p -> candidate cfg p = false.
Proof.
  intros Hd Hm Hp. apply not_true_is_false. intros (d & Hw & _ & Hc)%candidate_true.
  destruct (watched_cases cfg d Hw) as [->|(FN & Hl)].
  - rewrite Hd in Hm. by rewrite (deferred_unmatched (ExecutionDefinition cfg) j Hd Hm code p Hp) in Hc.
  - unfold DeferToLargeFile in Hp. destruct (code =? 0); [done|]. injection Hp as <-. cbn [p_file dirFrom] in Hc.
    change (without_failures j ++ _) with (without_failures j ++ "."%char :: "l"%char ::
      (drop 1 LargeSuffix ++ lit ".failure." ++ FailSuffix ++ lit "_" ++ decimal code)) in Hc.
    rewrite not_matched in Hc; [done|]. apply (input_follow d). by right.
Qed.

(** One job: the best request is taken, its prover ends with any status but the one of
    a killed process, and the request moves where its status sends it. *)
Definition target (cfg : Config) (j : Job) (st : Status) : outcome job_error path :=
  match judge cfg j st with
  | VDefer => DeferToLargeFile j (ExitCode st)
  | _ => Ok (DoneFile j (ExitCode st))
  end.

Definition job_cycle (cfg : Config) (fs fs' : fsys) : Prop :=
  exists listings fs1 j st p fs2,
    GetBest (NewFsWatcher cfg) fs listings = Ok (Some (fs1, j)) /\ judge cfg j st <> VKilled /\
    target cfg j st = Ok p /\ os_Rename fs1 (InProgressPath j) p = Some fs2 /\
    forall q, is_request q -> fs' !! q = fs2 !! q.

Lemma lockBest_inv w fs jobs fs' j :
  lockBest w fs jobs = Some (fs', j) ->
  exists j0, j0 ∈ jobs /\ j = with_lock j0 (locked_name w j0) /\
    os_Rename fs (OriginalPath j0) (dirFrom (Def j0) (locked_name w j0)) = Some fs'.
Proof.
  induction jobs as [|j0 jobs IH]; cbn [lockBest]; [done|]. unfold tryLockFile at 1. fold (OriginalPath j0).
  destruct (os_Rename fs (OriginalPath j0) _) as [fs1|] eqn:E.
  - intros [= -> <-]. exists j0. split; [left|]. done.
  - intros H. destruct (IH H) as (j1 & H1 & H2 & H3). exists j1. split; [by right|done].
Qed.

Lemma append_inv d dirents jobs jobs' j :
  append_dirents d dirents jobs = Ok jobs' -> j ∈ jobs' -> j ∈ jobs \/ exists n, NewJob d n = Ok j.
Proof.
  revert jobs. induction dirents as [|[n r] ds IH]; intros jobs; cbn [append_dirents]; [intros [= ->]; by left|].
  destruct r; cbn [negb]; [|by apply IH]. destruct (NewJob d n) as [j0| |] eqn:E; [|by apply IH|done].
  intros H Hj. destruct (IH _ H Hj) as [Hj'|?]; [|by right]. apply elem_of_app in Hj' as [?|Hj']; [by left|].
  apply list_elem_of_singleton in Hj' as ->. eauto.
Qed.

Lemma collect_inv w listings jobs j :
  collect_jobs w listings = Ok jobs -> j ∈ jobs -> exists d n, d ∈ JobToWatch w /\ NewJob d n = Ok j.
Proof.
  unfold collect_jobs. assert (forall jobs0, foldM (fun jobs (dl : JobDefinition * option (list dirent)) => appendJobFromDef dl.1 dl.2 jobs)
    jobs0 (zip (JobToWatch w) listings) = Ok jobs -> j ∈ jobs -> j ∈ jobs0 \/ exists d n, d ∈ JobToWatch w /\ NewJob d n = Ok j) as H.
  { generalize (JobToWatch w) listings. intros defs. induction defs as [|d defs IH]; intros [|l ls] jobs0; cbn [zip zip_with foldM];
      try (by intros [= ->]; left).
    intros (jobs1 & H1 & H2)%bind_ok Hj. destruct (IH ls jobs1 H2 Hj) as [Hj1|(d' & n & Hd' & E)]; [|right; exists d', n; split; [by right|done]].
    cbn [fst snd] in H1. destruct l as [dirents|]; cbn [appendJobFromDef] in H1; [|injection H1 as ->; by left].
    destruct (append_inv d dirents jobs0 jobs1 j H1 Hj1) as [?|(n & E)]; [by left|]. right. exists d, n. split; [left|done]. }
  intros Hc Hj. destruct (H [] Hc Hj) as [Hn|?]; [by apply elem_of_nil in Hn|done].
Qed.

Lemma candidates_rename cfg fs fs' old new :
  os_Rename fs old new = Some fs' -> candidate cfg new = false -> candidates cfg fs' = delete old (candidates cfg fs).
Proof.
  unfold os_Rename. destruct (fs !! old) as [r|]; [|done]. intros [= <-] Hn. unfold candidates. apply map_eq. intros q.
  apply option_eq. intros c. rewrite lookup_delete_Some, !map_lookup_filter_Some. cbn [fst].
  destruct (decide (q = new)) as [->|Hq]; [rewrite Hn; naive_solver|].
  rewrite lookup_insert_ne by done. rewrite lookup_delete_Some. naive_solver.
Qed.

Lemma candidates_agree cfg fs fs' :
  (forall q, is_request q -> fs' !! q = fs !! q) -> candidates cfg fs' = candidates cfg fs.
Proof.
  intros H. apply map_eq. intros q. apply option_eq. intros c. unfold candidates. rewrite !map_lookup_filter_Some. cbn [fst].
  split; intros [Hc Hq]; (split; [|done]); [rewrite <- H|rewrite H]; try done; left; by eapply candidate_from.
Qed.

Lemma found_candidate cfg fs j :
  found fs (JobToWatch (NewFsWatcher cfg)) j -> candidate cfg (OriginalPath j) = true.
Proof.
  intros (d & n & Hd & _ & (<- & <- & _ & Hm)%NewJob_inv). apply candidate_true. by exists (Def j).
Qed.

Lemma candidate_found cfg fs p :
  readable fs (JobToWatch (NewFsWatcher cfg)) -> candidate cfg p = true -> is_Some (fs !! p) ->
  exists j, found fs (JobToWatch (NewFsWatcher cfg)) j.
Proof.
  intros Hr (d & Hd & Hp & Hm)%candidate_true Hs. rewrite Hp in Hs. specialize (Hr d (p_file p) Hd Hs).
  destruct (NewJob d (p_file p)) as [j|e|] eqn:E; [by exists j, d, (p_file p)| |done].
  unfold NewJob in E. rewrite Hm in E. cbn [negb] in E.
  destruct (intIfRegexpNotNil (param_Start d) _) as [a| |] eqn:Ea; cbn [mbind outcome_bind] in E; try discriminate E;
    [destruct (intIfRegexpNotNil (param_End d) _) as [b| |] eqn:Eb; cbn [mbind outcome_bind] in E; try discriminate E|].
  - revert Eb. unfold intIfRegexpNotNil. destruct (_ =? 0)%nat; [done|]. by destruct (Atoi _).
  - revert Ea. unfold intIfRegexpNotNil. destruct (_ =? 0)%nat; [done|]. by destruct (Atoi _).
Qed.

Lemma watched_execution cfg d :
  d ∈ JobToWatch (NewFsWatcher cfg) -> Name d = jobNameExecution -> d = ExecutionDefinition cfg.
Proof.
  cbn [JobToWatch NewFsWatcher]. rewrite !elem_of_app. intros [H|[H|[H|H]]];
    match type of H with _ ∈ (if ?b then _ else _) => destruct b end; try (by apply elem_of_nil in H);
    by apply list_elem_of_singleton in H as ->.
Qed.

Lemma judge_defer cfg j st : judge cfg j st = VDefer -> Name (Def j) = jobNameExecution.
Proof.
  unfold judge. destruct (_ =? _); [done|]. destruct (bool_decide _) eqn:Hb; [|by destruct (_ =? _)].
  intros _. by apply bool_decide_eq_true in Hb.
Qed.

Lemma target_not_candidate cfg j st p :
  Def j ∈ JobToWatch (NewFsWatcher cfg) -> re_match (InputFileRegexp (Def j)) (OriginalFile j) = true ->
  judge cfg j st <> VKilled -> target cfg j st = Ok p -> candidate cfg p = false.
Proof.
  intros Hd Hm Hk. unfold target. destruct (judge cfg j st) eqn:Hj; try (intros [= <-]; apply done_not_candidate).
  apply deferred_not_candidate; [|done]. apply watched_execution; [done|]. by eapply judge_defer.
Qed.

(** What one cycle does to the requests: exactly one leaves. *)
Lemma cycle_candidates cfg fs fs' :
  job_cycle cfg fs fs' -> exists old, is_Some (candidates cfg fs !! old) /\ candidates cfg fs' = delete old (candidates cfg fs).
Proof.
  intros (listings & fs1 & j & st & p & fs2 & Hg & Hk & Ht & Hr & Ha). unfold GetBest in Hg.
  apply bind_ok in Hg as (jobs & Hc & [= Hl]). apply lockBest_inv in Hl as (j0 & Hin & -> & Hr1).
  rewrite sort_jobs_perm in Hin. destruct (collect_inv _ _ _ _ Hc Hin) as (d & n & Hd & Hj).
  pose proof (NewJob_inv d n j0 Hj) as (Ed & En & _ & Hm). exists (OriginalPath j0). split.
  - unfold os_Rename in Hr1. destruct (fs !! OriginalPath j0) as [r|] eqn:E; [|done]. exists r. unfold candidates.
    apply map_lookup_filter_Some. split; [done|]. cbn [fst]. apply candidate_true. exists d. rewrite <- En in Hm.
    split; [done|]. split; [by rewrite <- Ed|exact Hm].
  - rewrite (candidates_agree cfg fs2 fs' Ha), <- (candidates_rename cfg fs fs1 _ _ Hr1) by apply locked_not_candidate.
    erewrite candidates_rename; [|exact Hr|].
    + apply delete_id. unfold candidates. apply map_lookup_filter_None. right. intros x _. cbn [fst].
      change (InProgressPath _) with (dirFrom (Def j0) (locked_name (NewFsWatcher cfg) j0)). by rewrite locked_not_candidate.
    + eapply target_not_candidate; [| |exact Hk|exact Ht]; cbn [Def with_lock OriginalFile]; by rewrite Ed, ?En.
Qed.

Lemma size_pos_of (m : fsys) k : is_Some (m !! k) -> (0 < size m)%nat.
Proof. intros [v Hv]. destruct (size m) eqn:E; [|lia]. apply map_size_empty_inv in E. subst m. by rewrite lookup_empty in Hv. Qed.

Lemma lockBest_some w fs jobs j : j ∈ jobs -> is_Some (fs !! OriginalPath j) -> lockBest w fs jobs <> None.
Proof.
  induction 1 as [j jobs|j j1 jobs _ IH]; intros Hs; cbn [lockBest]; unfold tryLockFile.
  - fold (OriginalPath j). unfold os_Rename. by destruct Hs as [r ->].
  - destruct (os_Rename _ _ _); [done|]. by apply IH.
Qed.

(**  The watcher takes the right request: when the listings show the directories
    (nobody else is working) and the numbers of the names are below 2^56, [GetBest]
    neither panics nor fails; it returns nothing exactly when there is no request, and
    otherwise it locks a request whose end block is the lowest and, among those, whose
    priority number is the lowest, by renaming its file. *)
Theorem GetBest_best cfg fs listings :
  let defs := JobToWatch (NewFsWatcher cfg) in
  Forall2 (listed fs) defs listings -> readable fs defs -> (forall j, found fs defs j -> End_ j < 2 ^ 56) ->
  match GetBest (NewFsWatcher cfg) fs listings with
  | Ok None => forall j, ~ found fs defs j
  | Ok (Some (fs', j)) =>
      exists j0, found fs defs j0 /\ j = with_lock j0 (locked_name (NewFsWatcher cfg) j0) /\
        os_Rename fs (OriginalPath j0) (InProgressPath j) = Some fs' /\
        forall j', found fs defs j' -> End_ j0 < End_ j' \/ End_ j0 = End_ j' /\ Priority (Def j0) <= Priority (Def j')
  | _ => False
  end.
Proof.
  intros defs Hl Hr He. destruct (collect_spec fs defs listings [] Hl Hr) as (jobs & Hc & Hj).
  unfold GetBest, collect_jobs. fold defs. rewrite Hc. cbn [mbind outcome_bind].
  assert (Forall small jobs) as Hs.
  { apply Forall_forall. intros j [Hn|Hf]%Hj; [by apply elem_of_nil in Hn|]. apply (found_small cfg fs j Hf), He, Hf. }
  pose proof (sort_head jobs Hs) as Hh. destruct (sort_jobs jobs) as [|j0 rest]; cbn [lockBest].
  - intros j Hf. assert (j ∈ jobs) as Hin by (apply Hj; by right). subst jobs. by apply elem_of_nil in Hin.
  - destruct Hh as [Hin Hmin]. pose proof Hin as [Hn|Hf]%Hj; [by apply elem_of_nil in Hn|].
    destruct (found_small cfg fs j0 Hf (He j0 Hf)) as (Hs0 & _ & r & Hp).
    unfold tryLockFile. fold (OriginalPath j0). unfold os_Rename at 1. rewrite Hp.
    exists j0. split; [done|]. split; [done|]. split; [unfold os_Rename; by rewrite Hp|].
    intros j' Hf'. destruct (found_small cfg fs j' Hf' (He j' Hf')) as (Hs' & _).
    rewrite Forall_forall in Hmin. specialize (Hmin j'). rewrite !Score_small in Hmin by done.
    assert (j' ∈ jobs) as Hin' by (apply Hj; by right). specialize (Hmin Hin'). destruct Hs0, Hs'. lia.
Qed.

(** C23.  The queue drains: without arrivals and without killed provers, [n] rounds of the
    loop take exactly [n] requests out of the directories that the controller watches,
    whatever the exit codes, the deferred requests included, so that the rounds end;
    and as long as a request is left, [GetBest] finds a job. *)
Theorem queue_drains cfg n fs fs' :
  nsteps (job_cycle cfg) n fs fs' ->
  (n + size (candidates cfg fs') = size (candidates cfg fs))%nat /\
  forall listings, let defs := JobToWatch (NewFsWatcher cfg) in
    Forall2 (listed fs') defs listings -> readable fs' defs ->
    GetBest (NewFsWatcher cfg) fs' listings = Ok None -> candidates cfg fs' = ∅.
Proof.
  intros Hn. split.
  - induction Hn as [|n fs fs1 fs' (old & Ho & Ec)%cycle_candidates _ IH]; [done|].
    rewrite Ec, map_size_delete_Some in IH by done. pose proof (size_pos_of (candidates cfg fs) old Ho). lia.
  - intros listings defs Hl Hr Hg. apply map_empty. intros p. apply eq_None_not_Some. intros (c & Hp).
    apply map_lookup_filter_Some in Hp as [Hp Hc]. cbn [fst] in Hc.
    destruct (candidate_found cfg fs' p Hr Hc) as (j & Hf); [by exists c|]. revert Hg. unfold GetBest, collect_jobs. fold defs.
    destruct (collect_spec fs' defs listings [] Hl Hr) as (jobs & -> & Hj). cbn [mbind outcome_bind]. intros [= Hb].
    assert (j ∈ jobs) as Hin by (apply Hj; by right). rewrite <- (sort_jobs_perm jobs) in Hin.
    revert Hb. apply (lockBest_some _ _ _ j); [done|]. destruct Hf as (d & n' & _ & Hs & (<- & <- & _)%NewJob_inv). exact Hs.
Qed.

(** ** Witnesses *)

Definition demo_fs : fsys := {[ dirFrom (ExecutionDefinition (demo_cfg false)) demo_name := 7 ]}.
Definition demo_listings : list (option (list dirent)) := [Some [(demo_name, true)]; Some []; Some [(lit "old", false)]; Some []].
Definition demo_done : fsys := {[ DoneFile demo_job 0 := 7 ]}.

Lemma demo_lookup d n : is_Some (demo_fs !! dirFrom d n) -> RequestsRootDir d = lit "execution" /\ n = demo_name.
Proof. unfold demo_fs. intros (v & [[= H1 H2] _]%lookup_singleton_Some). by rewrite <- H1, <- H2. Qed.

Lemma demo_definitions d :
  d ∈ JobToWatch (NewFsWatcher (demo_cfg false)) -> RequestsRootDir d = lit "execution" -> d = ExecutionDefinition (demo_cfg false).
Proof.
  cbn [JobToWatch NewFsWatcher demo_cfg EnableExecution EnableDataAvailability EnableAggregation EnableInvalidity app].
  intros H E. repeat (apply elem_of_cons in H as [->|H]; [done || discriminate E|]). by apply elem_of_nil in H.
Qed.

Lemma demo_readable : readable demo_fs (JobToWatch (NewFsWatcher (demo_cfg false))).
Proof.
  intros d n Hd [Hr ->]%demo_lookup. rewrite (demo_definitions d Hd Hr). by vm_compute.
Qed.

Lemma demo_listed : Forall2 (listed demo_fs) (JobToWatch (NewFsWatcher (demo_cfg false))) demo_listings.
Proof.
  repeat constructor; eexists; (split; [reflexivity|]); (split; [|intros n; split]).
  all: try apply NoDup_nil_2; try apply NoDup_singleton.
  all: try (by intros H; apply elem_of_nil in H).
  all: try (by intros H; apply list_elem_of_singleton in H).
  all: try (intros [H ->]%demo_lookup; first [discriminate H|by apply list_elem_of_singleton]).
  intros H. apply list_elem_of_singleton in H as [= ->]. exists 7. apply lookup_singleton_eq.
Qed.

Lemma GetBest_best_witness :
  match GetBest (NewFsWatcher (demo_cfg false)) demo_fs demo_listings with
  | Ok None => forall j, ~ found demo_fs (JobToWatch (NewFsWatcher (demo_cfg false))) j
  | Ok (Some (fs', j)) =>
      exists j0, found demo_fs (JobToWatch (NewFsWatcher (demo_cfg false))) j0 /\ j = with_lock j0 (locked_name (NewFsWatcher (demo_cfg false)) j0) /\
        os_Rename demo_fs (OriginalPath j0) (InProgressPath j) = Some fs' /\
        forall j', found demo_fs (JobToWatch (NewFsWatcher (demo_cfg false))) j' ->
          End_ j0 < End_ j' \/ End_ j0 = End_ j' /\ Priority (Def j0) <= Priority (Def j')
  | _ => False
  end.
Proof.
  apply (GetBest_best (demo_cfg false) demo_fs demo_listings demo_listed demo_readable).
  intros j (d & n & Hd & [Hr ->]%demo_lookup & Hj). rewrite (demo_definitions d Hd Hr) in Hj.
  assert (j = demo_job) as -> by (unfold demo_job; by rewrite Hj). vm_compute. reflexivity.
Defined.

Lemma rename_singleton (p q : path) (c : Z) : os_Rename {[ p := c ]} p q = Some {[ q := c ]}.
Proof. unfold os_Rename. rewrite lookup_singleton_eq. f_equal. rewrite delete_singleton_eq. reflexivity. Qed.

Lemma demo_jobs : collect_jobs (NewFsWatcher (demo_cfg false)) demo_listings = Ok [demo_job].
Proof. vm_compute. reflexivity. Qed.

Lemma demo_cycle : job_cycle (demo_cfg false) demo_fs demo_done.
Proof.
  exists demo_listings. set (j := with_lock demo_job (locked_name (NewFsWatcher (demo_cfg false)) demo_job)).
  exists {[ InProgressPath j := 7 ]}, j, (mkStatus 0 (lit "success")), (DoneFile demo_job 0), demo_done.
  split_and!; [|vm_compute; discriminate|vm_compute; reflexivity|unfold demo_done; apply rename_singleton|intros; reflexivity].
  unfold GetBest. rewrite demo_jobs. cbn [mbind outcome_bind sort_jobs insert_job lockBest].
  unfold tryLockFile, demo_fs. change (dirFrom (ExecutionDefinition _) demo_name) with (OriginalPath demo_job).
  fold (OriginalPath demo_job). by rewrite rename_singleton.
Qed.

Lemma queue_drains_witness :
  (1 + size (candidates (demo_cfg false) demo_done) = size (candidates (demo_cfg false) demo_fs))%nat.
Proof.
  apply (queue_drains (demo_cfg false) 1 demo_fs demo_done). eapply nsteps_l; [exact demo_cycle|apply nsteps_O].
Defined.
