(* ===== verification/Ssz.v ===== *)
(** The SSZ encoders of the guest inputs: [prover-ray/utils/ssz/ssz.go] and
    [prover-ray/utils/ssz/extended_input.go].

    A JSON text is given by the value that [encoding/json] decodes it to; the decoder
    of texts is a parameter of [EncodeStatelessInput].  What the code relies on of
    [encoding/json] is written out: a [null] decodes into a string as the empty
    string and into a slice or a map as nil, an object keeps the last value of a
    repeated key, a number keeps its literal.  Strings are sequences of bytes, byte
    slices are lists of integers.  The wrappers that only add context to an error
    message are left out. *)
From S2P Require Import Prelude.

(** ** JSON values *)

Inductive json :=
| JNull
| JBool (b : bool)
| JNumber (literal : string)
| JString (s : string)
| JArray (items : list json)
| JObject (members : list (string * json)).

Abbreviation jsonObj := (gmap string json).

Inductive ssz_error :=
| ErrJSON
| ErrMissing (key : string)
| ErrType (key : string)
| ErrUint64 (key : string)
| ErrSize
| ErrUint256
| ErrHex
| ErrFixed (expected got : Z)
| ErrListLen (name : string) (limit got : Z)
| ErrByteLen (name : string) (limit got : Z)
| ErrQuantity
| ErrNotEmpty (key : string)
| ErrFork (fork : string).

Abbreviation sresult := (outcome ssz_error).

Definition golen {A} (b : list A) : Z := Z.of_nat (length b).

(** ** Constants *)

Definition statelessInputSchemaID : list Z := [0x15; 0x01].
Definition activeFork : string := "Amsterdam".
Definition maxExtraDataBytes : Z := 32.
Definition maxSSZSerializedBytes : Z := 2 ^ 32 - 1.
Definition maxBytesPerTransaction : Z := 2 ^ 30.
Definition maxBlockAccessListBytes : Z := 2 ^ 30.
Definition maxTransactionsPerPayload : Z := 2 ^ 20.
Definition maxWithdrawalsPerPayload : Z := 2 ^ 4.
Definition maxBlobCommitmentsPerBlock : Z := 4096.
Definition maxWitnessNodes : Z := 2 ^ 20.
Definition maxWitnessCodes : Z := 2 ^ 16.
Definition maxWitnessHeaders : Z := 256.
Definition maxBytesPerWitnessNode : Z := 2 ^ 10.
Definition maxBytesPerCode : Z := 2 ^ 16.
Definition maxBytesPerHeader : Z := 2 ^ 10.

(** ** Text: [strings.TrimPrefix], [hex.DecodeString], [strconv.ParseUint],
    [big.Int.SetString] *)

Fixpoint strip_prefix (p s : string) : option string :=
  match p, s with
  | EmptyString, _ => Some s
  | String a p, String b s => if Ascii.eqb a b then strip_prefix p s else None
  | String _ _, EmptyString => None
  end.

Definition TrimPrefix (s p : string) : string := default s (strip_prefix p s).

Definition code (c : Ascii.ascii) : Z := Z.of_N (Ascii.N_of_ascii c).

Definition digit_val (c : Ascii.ascii) : option Z :=
  let z := code c in if (48 <=? z) && (z <=? 57) then Some (z - 48) else None.

Definition hex_val (c : Ascii.ascii) : option Z :=
  let z := code c in
  if (48 <=? z) && (z <=? 57) then Some (z - 48)
  else if (97 <=? z) && (z <=? 102) then Some (z - 87)
  else if (65 <=? z) && (z <=? 70) then Some (z - 55)
  else None.

Fixpoint hex_decode (s : string) : option (list Z) :=
  match s with
  | EmptyString => Some []
  | String a (String b rest) =>
      x ← hex_val a; y ← hex_val b; l ← hex_decode rest; Some (16 * x + y :: l)
  | String _ EmptyString => None
  end.

Fixpoint parse_digits (val : Ascii.ascii -> option Z) (base acc : Z) (s : string) : option Z :=
  match s with
  | EmptyString => Some acc
  | String c s => x ← val c; parse_digits val base (base * acc + x) s
  end.

Definition ParseUint64 (s : string) : option Z :=
  match s with
  | EmptyString => None
  | _ => n ← parse_digits digit_val 10 0 s; if n <? 2 ^ 64 then Some n else None
  end.

Definition SetString16 (s : string) : option Z :=
  let '(neg, t) := match s with
                   | String c t => if code c =? 45 then (true, t) else if code c =? 43 then (false, t) else (false, s)
                   | EmptyString => (false, s)
                   end in
  match t with
  | EmptyString => None
  | _ => n ← parse_digits hex_val 16 0 t; Some (if neg : bool then - n else n)
  end.

(** ** JSON accessors *)

Definition parseJSONObject (raw : json) (ctx : string) : sresult jsonObj :=
  match raw with
  | JObject members => Ok (foldl (fun m kv => <[kv.1 := kv.2]> m) ∅ members)
  | _ => Err (ErrType ctx)
  end.

Definition requireRaw (obj : jsonObj) (key : string) : sresult json :=
  match obj !! key with Some raw => Ok raw | None => Err (ErrMissing key) end.

Definition requireObject (obj : jsonObj) (key : string) : sresult jsonObj :=
  raw ← requireRaw obj key; parseJSONObject raw key.

Definition unmarshal_string (raw : json) (key : string) : sresult string :=
  match raw with JString s => Ok s | JNull => Ok EmptyString | _ => Err (ErrType key) end.

Definition requireString (obj : jsonObj) (key : string) : sresult string :=
  raw ← requireRaw obj key; unmarshal_string raw key.

Definition requireStringList (obj : jsonObj) (key : string) : sresult (list string) :=
  raw ← requireRaw obj key;
  match raw with
  | JArray items => mapM_ (fun item => unmarshal_string item key) items
  | _ => Err (ErrType key)
  end.

Definition requireObjectList (obj : jsonObj) (key : string) : sresult (list jsonObj) :=
  raw ← requireRaw obj key;
  match raw with
  | JArray items => mapM_ (fun item => parseJSONObject item key) items
  | _ => Err (ErrType key)
  end.

Definition parseUint64JSON (raw : json) (key : string) : sresult Z :=
  match raw with
  | JNumber v | JString v =>
      match ParseUint64 v with Some n => Ok n | None => Err (ErrUint64 key) end
  | _ => Err (ErrUint64 key)
  end.

Definition requireUint64 (obj : jsonObj) (key : string) : sresult Z :=
  raw ← requireRaw obj key; parseUint64JSON raw key.

Definition optionalUint64 (obj : jsonObj) (key : string) (defaultValue : Z) : sresult Z :=
  match obj !! key with None => Ok defaultValue | Some raw => parseUint64JSON raw key end.

(** ** SSZ primitives *)

Record sszField := mkField {
  data : list Z;
  variable : bool
}.

Definition fixed (d : list Z) : sszField := mkField d false.
Definition var (d : list Z) : sszField := mkField d true.

(** [n] is a length: [uint64(n)] is [n]. *)
Definition addSSZLength (total : Z) (n : Z) : sresult Z :=
  let add := n in
  if (maxSSZSerializedBytes <? add) || (maxSSZSerializedBytes - add <? total) then Err ErrSize
  else Ok (total + add).

Definition fixed_step (fixedLen : Z) (f : sszField) : sresult Z :=
  if variable f then addSSZLength fixedLen 4 else addSSZLength fixedLen (golen (data f)).

(** State of the second loop: [head], [heap] and [offset]. *)
Definition container_step (st : list Z * list Z * Z) (f : sszField) : sresult (list Z * list Z * Z) :=
  let '(head, heap, offset) := st in
  if variable f then
    nextOffset ← addSSZLength offset (golen (data f));
    Ok (head ++ le_bytes 4 (u32 offset), heap ++ data f, nextOffset)
  else Ok (head ++ data f, heap, offset).

Definition sszContainer (fields : list sszField) : sresult (list Z) :=
  fixedLen ← foldM fixed_step 0 fields;
  '(head, heap, _) ← foldM container_step ([], [], fixedLen) fields;
  Ok (head ++ heap).

Definition sszListFixed (elems : list (list Z)) : list Z := foldl app [] elems.

Definition list_step (st : list Z * list Z * Z) (e : list Z) : sresult (list Z * list Z * Z) :=
  let '(head, heap, offset) := st in
  nextOffset ← addSSZLength offset (golen e);
  Ok (head ++ le_bytes 4 (u32 offset), heap ++ e, nextOffset).

Definition sszListVariable (elems : list (list Z)) : sresult (list Z) :=
  headLen ← foldM (fun n (_ : list Z) => addSSZLength n 4) 0 elems;
  '(head, heap, _) ← foldM list_step ([], [], headLen) elems;
  Ok (head ++ heap).

Definition sszUint64 (v : Z) : list Z := le_bytes 8 v.

Definition sszUint256 (v : Z) : sresult (list Z) :=
  if v <? 0 then Err ErrUint256 else
  if 2 ^ 256 <=? v then Err ErrUint256 else
  Ok (reverse (be_bytes 32 v)).

Definition hexToBytes (s : string) : sresult (list Z) :=
  let t := TrimPrefix (TrimPrefix s "0x") "0X" in
  match hex_decode t with Some b => Ok b | None => Err ErrHex end.

Definition hexToFixed (s : string) (n : Z) : sresult (list Z) :=
  b ← hexToBytes s;
  if negb (golen b =? n) then Err (ErrFixed n (golen b)) else Ok b.

Definition checkListLen (name : string) (got limit : Z) : sresult unit :=
  if limit <? got then Err (ErrListLen name limit got) else Ok tt.

Definition checkByteLen (name : string) (got limit : Z) : sresult unit :=
  if limit <? got then Err (ErrByteLen name limit got) else Ok tt.

Definition parseUint256Hex (s : string) : sresult Z :=
  let t := TrimPrefix (TrimPrefix s "0x") "0X" in
  match t with
  | EmptyString => Err ErrQuantity
  | _ => match SetString16 t with Some v => Ok v | None => Err ErrQuantity end
  end.

(** ** Encoders *)

Definition sszWithdrawalFromObj (obj : jsonObj) : sresult (list Z) :=
  index ← requireUint64 obj "index";
  validatorIndex ← requireUint64 obj "validatorIndex";
  address ← requireString obj "address";
  amount ← requireUint64 obj "amount";
  addr ← hexToFixed address 20;
  sszContainer [fixed (sszUint64 index); fixed (sszUint64 validatorIndex); fixed addr; fixed (sszUint64 amount)].

(** The loop over a list of hex strings with a bound on their bytes. *)
Definition decode_items (name : string) (maxBytes : Z) (items : list string) : sresult (list (list Z)) :=
  mapM_ (fun s => b ← hexToBytes s; _ ← checkByteLen name (golen b) maxBytes; Ok b) items.

(** [requireString] followed by [hexToFixed]. *)
Definition require_fixed (obj : jsonObj) (key : string) (n : Z) : sresult (list Z) :=
  value ← requireString obj key; hexToFixed value n.

Definition sszExecutionPayloadFromObj (obj : jsonObj) : sresult (list Z) :=
  parentHash ← require_fixed obj "parentHash" 32;
  feeRecipient ← require_fixed obj "feeRecipient" 20;
  stateRoot ← require_fixed obj "stateRoot" 32;
  receiptsRoot ← require_fixed obj "receiptsRoot" 32;
  logsBloom ← require_fixed obj "logsBloom" 256;
  prevRandao ← require_fixed obj "prevRandao" 32;
  blockNumber ← requireUint64 obj "blockNumber";
  gasLimit ← requireUint64 obj "gasLimit";
  gasUsed ← requireUint64 obj "gasUsed";
  timestamp ← requireUint64 obj "timestamp";
  extraDataValue ← requireString obj "extraData";
  extraData ← hexToBytes extraDataValue;
  _ ← checkByteLen "extraData" (golen extraData) maxExtraDataBytes;
  baseFeePerGas ← requireString obj "baseFeePerGas";
  baseFee ← parseUint256Hex baseFeePerGas;
  baseFeeBytes ← sszUint256 baseFee;
  blockHash ← require_fixed obj "blockHash" 32;
  transactionValues ← requireStringList obj "transactions";
  _ ← checkListLen "transactions" (golen transactionValues) maxTransactionsPerPayload;
  txs ← decode_items "transactions" maxBytesPerTransaction transactionValues;
  withdrawalObjs ← requireObjectList obj "withdrawals";
  _ ← checkListLen "withdrawals" (golen withdrawalObjs) maxWithdrawalsPerPayload;
  withdrawals ← mapM_ sszWithdrawalFromObj withdrawalObjs;
  blobGasUsed ← requireUint64 obj "blobGasUsed";
  excessBlobGas ← requireUint64 obj "excessBlobGas";
  blockAccessListValue ← requireString obj "blockAccessList";
  blockAccessList ← hexToBytes blockAccessListValue;
  _ ← checkByteLen "blockAccessList" (golen blockAccessList) maxBlockAccessListBytes;
  txList ← sszListVariable txs;
  slotNumber ← optionalUint64 obj "slotNumber" 0;
  sszContainer
    [fixed parentHash; fixed feeRecipient; fixed stateRoot; fixed receiptsRoot; fixed logsBloom; fixed prevRandao;
     fixed (sszUint64 blockNumber); fixed (sszUint64 gasLimit); fixed (sszUint64 gasUsed); fixed (sszUint64 timestamp);
     var extraData; fixed baseFeeBytes; fixed blockHash; var txList; var (sszListFixed withdrawals);
     fixed (sszUint64 blobGasUsed); fixed (sszUint64 excessBlobGas); var blockAccessList; fixed (sszUint64 slotNumber)].

Definition check_empty_request (obj : jsonObj) (u : unit) (key : string) : sresult unit :=
  match obj !! key with
  | None => Ok tt
  | Some (JArray []) => Ok tt
  | Some (JArray _) => Err (ErrNotEmpty key)
  | Some _ => Err (ErrType key)
  end.

Definition request_keys : list string :=
  ["deposits"; "withdrawals"; "consolidations"; "builderDeposits"; "builderExits"].

Definition sszExecutionRequestsFromObj (obj : jsonObj) : sresult (list Z) :=
  _ ← foldM (check_empty_request obj) tt request_keys;
  sszContainer [var []; var []; var []; var []; var []].

Definition sszNewPayloadRequestFromObj (obj : jsonObj) : sresult (list Z) :=
  executionPayloadObj ← requireObject obj "executionPayload";
  ep ← sszExecutionPayloadFromObj executionPayloadObj;
  versionedHashesValues ← requireStringList obj "versionedHashes";
  _ ← checkListLen "versionedHashes" (golen versionedHashesValues) maxBlobCommitmentsPerBlock;
  versionedHashes ← mapM_ (fun h => hexToFixed h 32) versionedHashesValues;
  parentBeacon ← require_fixed obj "parentBeaconBlockRoot" 32;
  executionRequestsObj ← requireObject obj "executionRequests";
  execRequests ← sszExecutionRequestsFromObj executionRequestsObj;
  sszContainer [var ep; var (sszListFixed versionedHashes); fixed parentBeacon; var execRequests].

Definition encodeList (obj : jsonObj) (name : string) (maxItems maxBytes : Z) : sresult (list Z) :=
  items ← requireStringList obj name;
  _ ← checkListLen name (golen items) maxItems;
  elems ← decode_items name maxBytes items;
  sszListVariable elems.

Definition sszExecutionWitnessFromObj (obj : jsonObj) : sresult (list Z) :=
  state ← encodeList obj "state" maxWitnessNodes maxBytesPerWitnessNode;
  codes ← encodeList obj "codes" maxWitnessCodes maxBytesPerCode;
  headers ← encodeList obj "headers" maxWitnessHeaders maxBytesPerHeader;
  sszContainer [var state; var codes; var headers].

Definition sszChainConfigFromObj (obj : jsonObj) : sresult (list Z) :=
  chainID ← requireUint64 obj "chainId";
  forkName ← requireString obj "forkName";
  if negb (bool_decide (forkName = activeFork)) then Err (ErrFork forkName) else Ok (sszUint64 chainID).

Definition sszStatelessInputFromObj (obj : jsonObj) : sresult (list Z) :=
  nprObj ← requireObject obj "newPayloadRequest";
  npr ← sszNewPayloadRequestFromObj nprObj;
  witnessObj ← requireObject obj "executionWitness";
  witness ← sszExecutionWitnessFromObj witnessObj;
  chainConfigObj ← requireObject obj "chainConfig";
  chainConfig ← sszChainConfigFromObj chainConfigObj;
  sszContainer [var npr; var witness; fixed chainConfig].

(** [decode_json] is [encoding/json]: the value of a text that holds exactly one. *)
Definition EncodeStatelessInput (decode_json : list Z -> option json) (payload : list Z) : sresult (list Z) :=
  raw ← match decode_json payload with Some v => Ok v | None => Err ErrJSON end;
  obj ← parseJSONObject raw "statelessInput";
  raw ← sszStatelessInputFromObj obj;
  Ok (statelessInputSchemaID ++ raw).

(** ** The extended input *)

Definition extendedInputSchemaID : list Z := [0x00; 0x02].
Definition systemContractsSize : nat := 7 * 20.
Definition chainConfigSize : nat := 20 + 20 + 8 + systemContractsSize.
Definition privateInputFixed : nat := 32 + 8 + chainConfigSize + 4.
Definition payloadFixed : nat := 4 + 4.
Definition forcedTxFixed : nat := 8 + 4 + 1 + 8.

Record SystemContracts := mkSystemContracts {
  BeaconRoots : list Z;
  HistoryStorage : list Z;
  Deposit : list Z;
  WithdrawalRequest : list Z;
  ConsolidationRequest : list Z;
  BuilderDepositRequest : list Z;
  BuilderExitRequest : list Z
}.

Record ChainConfig := mkChainConfig {
  L2MessageServiceAddress : list Z;
  Coinbase : list Z;
  ChainID : Z;
  cc_SystemContracts : SystemContracts
}.

Record ForcedTransaction := mkForcedTransaction {
  Number : Z;
  SignedTxRlp : list Z;
  Acceptance : Z;
  Deadline : Z
}.

Record PayloadInput := mkPayloadInput {
  StatelessInputSSZ : list Z;
  ForcedTransactions : list ForcedTransaction
}.

Record ExtendedInput := mkExtendedInput {
  ParentFtxRollingHash : list Z;
  ParentLastProcessedFtxNumber : Z;
  ei_ChainConfig : ChainConfig;
  Payloads : list PayloadInput
}.

(** The loop that fills the table of offsets: the table and the offset. *)
Definition offset_step (st : list Z * Z) (ie : nat * list Z) : list Z * Z :=
  let '(out, off) := st in
  (copy_at (ie.1 * 4) (le_bytes 4 (u32 off)) out, off + golen ie.2).

Definition listWithOffsets (elems : list (list Z)) : list Z :=
  let table := (4 * length elems)%nat in
  let out := replicate table 0 in
  let '(out, _) := foldl offset_step (out, Z.of_nat table) (imap pair elems) in
  foldl app out elems.

Definition encodeForcedTransaction (ftx : ForcedTransaction) : list Z :=
  let out := replicate forcedTxFixed 0 in
  let out := copy_at 0 (le_bytes 8 (Number ftx)) out in
  let out := copy_at 8 (le_bytes 4 (Z.of_nat forcedTxFixed)) out in
  let out := <[12%nat := Acceptance ftx]> out in
  let out := copy_at 13 (le_bytes 8 (Deadline ftx)) out in
  out ++ SignedTxRlp ftx.

Definition encodePayloadInput (p : PayloadInput) : list Z :=
  let ftxs := encodeForcedTransaction <$> ForcedTransactions p in
  let ftxList := listWithOffsets ftxs in
  let out := replicate payloadFixed 0 in
  let out := copy_at 0 (le_bytes 4 (Z.of_nat payloadFixed)) out in
  let out := copy_at 4 (le_bytes 4 (u32 (Z.of_nat payloadFixed + golen (StatelessInputSSZ p)))) out in
  let out := out ++ StatelessInputSSZ p in
  out ++ ftxList.

(** [encodeSystemContracts] writes into the slice of [out] that starts at [off]. *)
Definition encodeSystemContracts (out : list Z) (off : nat) (sc : SystemContracts) : list Z :=
  foldl (fun out ia => copy_at (off + ia.1 * 20) ia.2 out) out
    (imap pair [BeaconRoots sc; HistoryStorage sc; Deposit sc; WithdrawalRequest sc; ConsolidationRequest sc;
                BuilderDepositRequest sc; BuilderExitRequest sc]).

Definition encodePrivateInput (inp : ExtendedInput) : list Z :=
  let payloads := encodePayloadInput <$> Payloads inp in
  let payloadList := listWithOffsets payloads in
  let cc := ei_ChainConfig inp in
  let out := replicate privateInputFixed 0 in
  let out := copy_at 0 (ParentFtxRollingHash inp) out in
  let out := copy_at 32 (le_bytes 8 (ParentLastProcessedFtxNumber inp)) out in
  let out := copy_at 40 (L2MessageServiceAddress cc) out in
  let out := copy_at 60 (Coinbase cc) out in
  let out := copy_at 80 (le_bytes 8 (ChainID cc)) out in
  let out := encodeSystemContracts out 88 (cc_SystemContracts cc) in
  let out := copy_at (88 + systemContractsSize) (le_bytes 4 (Z.of_nat privateInputFixed)) out in
  out ++ payloadList.

Definition EncodeExtendedInput (inp : ExtendedInput) : list Z :=
  extendedInputSchemaID ++ encodePrivateInput inp.

(** ** Specification: decoding SSZ

    A container is decoded from its shape: the head is read field by field, then each
    variable field is the slice from its offset to the next one, or to the end. *)

Inductive shape :=
| SFixed (n : nat)
| SVar.

Fixpoint dec_head (shapes : list shape) (bs : list Z) : list (list Z + Z) :=
  match shapes with
  | [] => []
  | SFixed n :: shapes => inl (take n bs) :: dec_head shapes (drop n bs)
  | SVar :: shapes => inr (le_value (take 4 bs)) :: dec_head shapes (drop 4 bs)
  end.

Definition slices (offs : list Z) (bs : list Z) : list (list Z) :=
  zip_with (fun a b => sub_slice (Z.to_nat a) (Z.to_nat b) bs) offs (tail offs ++ [golen bs]).

(** Offsets that start at the end of the head, do not decrease and stay inside. *)
Fixpoint offsets_ok (from : Z) (offs : list Z) (len : Z) : bool :=
  match offs with
  | [] => from <=? len
  | o :: offs => (from <=? o) && offsets_ok o offs len
  end.

Definition shape_size (s : shape) : Z := match s with SFixed n => Z.of_nat n | SVar => 4 end.

Fixpoint fill (parts : list (list Z + Z)) (vars : list (list Z)) : list (list Z) :=
  match parts with
  | [] => []
  | inl d :: parts => d :: fill parts vars
  | inr _ :: parts => match vars with v :: vars => v :: fill parts vars | [] => [] end
  end.

Definition offsets_in (parts : list (list Z + Z)) : list Z :=
  omap (fun p : list Z + Z => match p with inl _ => None | inr o => Some o end) parts.

Definition decode_container (shapes : list shape) (bs : list Z) : option (list (list Z)) :=
  let size := foldr (fun s n => shape_size s + n) 0 shapes in
  let parts := dec_head shapes bs in
  let offs := offsets_in parts in
  if (match offs with o :: _ => o =? size | [] => true end) && offsets_ok size offs (golen bs)
  then Some (fill parts (slices offs bs)) else None.

(** A list of variable-size elements: its first offset gives its length. *)
Definition dec_offsets (n : nat) (bs : list Z) : list Z := offsets_in (dec_head (replicate n SVar) bs).

Definition decode_list (bs : list Z) : option (list (list Z)) :=
  match bs with
  | [] => Some []
  | _ =>
      let first := le_value (take 4 bs) in
      let offs := dec_offsets (Z.to_nat (first / 4)) bs in
      if (0 <? first) && (first mod 4 =? 0) && offsets_ok first offs (golen bs)
      then Some (slices offs bs) else None
  end.

(** A list of elements of [n] bytes. *)
Fixpoint decode_chunks (fuel n : nat) (bs : list Z) : option (list (list Z)) :=
  match bs with
  | [] => Some []
  | _ =>
      match fuel with
      | O => None
      | S fuel =>
          if (n <=? length bs)%nat
          then rest ← decode_chunks fuel n (drop n bs); Some (take n bs :: rest) else None
      end
  end.

(** ** Lemmas: lengths and offsets *)

Lemma golen_app {A} (a b : list A) : golen (a ++ b) = golen a + golen b.
Proof. unfold golen. rewrite length_app. lia. Qed.

Lemma golen_nonneg {A} (a : list A) : 0 <= golen a.
Proof. unfold golen. lia. Qed.

(** The offsets of successive elements. *)
Fixpoint offsets_of (off : Z) (elems : list (list Z)) : list Z :=
  match elems with
  | [] => []
  | e :: elems => off :: offsets_of (off + golen e) elems
  end.

Lemma offsets_of_cons off e es : offsets_of off (e :: es) = off :: offsets_of (off + golen e) es.
Proof. done. Qed.

Lemma slices_ok pre elems :
  slices (offsets_of (golen pre) elems) (pre ++ mjoin elems) = elems.
Proof.
  revert pre. induction elems as [|e es IH]; intros pre; [done|].
  change (mjoin (e :: es)) with (e ++ mjoin es). rewrite offsets_of_cons. unfold slices. cbn [tail].
  specialize (IH (pre ++ e)). rewrite golen_app, <- app_assoc in IH. unfold slices in IH.
  assert (sub_slice (Z.to_nat (golen pre)) (Z.to_nat (golen pre + golen e)) (pre ++ e ++ mjoin es) = e) as Hs.
  { unfold sub_slice, golen. rewrite drop_app_length' by lia. rewrite take_app_length' by lia. done. }
  destruct es as [|e' es].
  - cbn [offsets_of app zip_with mjoin list_join]. rewrite app_nil_r in *.
    rewrite golen_app. by rewrite Hs.
  - rewrite offsets_of_cons in *. cbn [tail app zip_with] in *. rewrite Hs. f_equal. exact IH.
Qed.

Lemma offsets_of_ok off elems len :
  off + golen (mjoin elems) <= len -> offsets_ok off (offsets_of off elems) len = true.
Proof.
  assert (forall from, from <= off -> off + golen (mjoin elems) <= len -> offsets_ok from (offsets_of off elems) len = true) as H;
    [|intros; by apply H].
  revert off. induction elems as [|e es IH]; intros off from Hf Hl; cbn [offsets_of offsets_ok].
  - change (golen (mjoin ([] : list (list Z)))) with 0 in Hl. apply Z.leb_le. lia.
  - change (mjoin (e :: es)) with (e ++ mjoin es) in Hl. rewrite golen_app in Hl. pose proof (golen_nonneg e).
    rewrite IH by lia. rewrite andb_true_r. apply Z.leb_le. lia.
Qed.

Lemma le_value_u32 off : 0 <= off < 2 ^ 32 -> le_value (le_bytes 4 (u32 off)) = off.
Proof.
  intros. rewrite le_value_le_bytes. change (8 * Z.of_nat 4) with 32. rewrite uwrap_small by done. by rewrite Z.mod_small.
Qed.

Lemma addSSZLength_ok total n r :
  0 <= total -> addSSZLength total n = Ok r <-> r = total + n /\ total + n <= maxSSZSerializedBytes.
Proof.
  intros Hn. unfold addSSZLength.
  destruct (Z.ltb_spec maxSSZSerializedBytes n); cbn [orb]; [split; [done|lia]|].
  destruct (Z.ltb_spec (maxSSZSerializedBytes - n) total); [split; [done|lia]|].
  split; [intros [= <-]; lia|intros (-> & _); done].
Qed.

(** ** Lemmas: containers *)

Definition field_size (f : sszField) : Z := if variable f then 4 else golen (data f).
Definition fixed_size (fields : list sszField) : Z := foldr (fun f n => field_size f + n) 0 fields.
Definition vars (fields : list sszField) : list (list Z) :=
  omap (fun f => if variable f then Some (data f) else None) fields.

Fixpoint heads (off : Z) (fields : list sszField) : list Z :=
  match fields with
  | [] => []
  | f :: fields =>
      if variable f then le_bytes 4 (u32 off) ++ heads (off + golen (data f)) fields
      else data f ++ heads off fields
  end.

Lemma fixed_loop n fields r :
  0 <= n -> foldM fixed_step n fields = Ok r ->
  r = n + fixed_size fields /\ (fields = [] \/ r <= maxSSZSerializedBytes) /\ 0 <= fixed_size fields.
Proof.
  revert n. induction fields as [|f fields IH]; intros n Hn; cbn [foldM]; [intros [= ->]; cbn; split; [lia|split; [by left|done]]|].
  assert (0 <= field_size f) as Hf by (unfold field_size; pose proof (golen_nonneg (data f)); destruct (variable f); lia).
  assert (fixed_step n f = addSSZLength n (field_size f)) as -> by (unfold fixed_step, field_size; by destruct (variable f)).
  destruct (addSSZLength n (field_size f)) as [m| |] eqn:E; cbn [mbind outcome_bind]; [|done..].
  apply addSSZLength_ok in E as [-> Hm]; [|done]. intros Hr. apply IH in Hr as (-> & Hor & Hpos); [|lia].
  cbn [fixed_size foldr]. fold (fixed_size fields). split; [lia|]. split; [right|lia].
  destruct Hor as [->|Hle]; [cbn; lia|done].
Qed.

Lemma length_heads off fields : golen (heads off fields) = fixed_size fields.
Proof.
  revert off. induction fields as [|f fields IH]; intros off; [done|]. cbn [heads fixed_size foldr]. fold (fixed_size fields).
  unfold field_size. destruct (variable f); rewrite golen_app, IH; [|done].
  unfold golen at 1. by rewrite length_le_bytes.
Qed.

Lemma container_loop head heap off fields st :
  0 <= off -> foldM container_step (head, heap, off) fields = Ok st ->
  st = (head ++ heads off fields, heap ++ mjoin (vars fields), off + golen (mjoin (vars fields))) /\
  (vars fields = [] \/ off + golen (mjoin (vars fields)) <= maxSSZSerializedBytes).
Proof.
  revert head heap off. induction fields as [|f fields IH]; intros head heap off Hoff; cbn [foldM].
  - intros [= <-]. cbn [heads]. change (mjoin (vars [])) with ([] : list Z). rewrite !app_nil_r. change (golen []) with 0.
    rewrite Z.add_0_r. split; [done|by left].
  - cbn [container_step heads vars omap list_omap]. destruct (variable f).
    + destruct (addSSZLength off (golen (data f))) as [m| |] eqn:E; cbn [mbind outcome_bind]; [|by intros [=]..].
      apply addSSZLength_ok in E as [-> Hm]; [|done]. pose proof (golen_nonneg (data f)).
      intros Hst. apply IH in Hst as [-> Hor]; [|lia].
      fold (vars fields). change (mjoin (data f :: vars fields)) with (data f ++ mjoin (vars fields)).
      rewrite !golen_app, <- !app_assoc, Z.add_assoc. split; [done|]. right.
      destruct Hor as [Hn|Hle]; [|done]. rewrite Hn. change (golen (mjoin ([] : list (list Z)))) with 0. lia.
    + cbn [mbind outcome_bind]. intros Hst. apply IH in Hst as [-> Hor]; [|done]. fold (vars fields). rewrite <- !app_assoc. done.
Qed.

Lemma sszContainer_ok fields out :
  sszContainer fields = Ok out ->
  out = heads (fixed_size fields) fields ++ mjoin (vars fields) /\
  golen out = fixed_size fields + golen (mjoin (vars fields)) /\ golen out <= maxSSZSerializedBytes.
Proof.
  unfold sszContainer. intros H.
  destruct (foldM fixed_step 0 fields) as [n| |] eqn:E1; cbn [mbind outcome_bind] in H; [|done..].
  apply fixed_loop in E1 as (-> & Hor & Hpos); [|lia]. rewrite Z.add_0_l in *.
  destruct (foldM container_step _ fields) as [[[h p] o]| |] eqn:E2; cbn [mbind outcome_bind] in H; [|done..].
  apply container_loop in E2 as [[= -> -> ->] Hor']; [|done]. injection H as <-. cbn [app].
  rewrite golen_app, length_heads. split; [done|]. split; [done|].
  destruct Hor' as [Hn|]; [|done]. rewrite Hn. change (golen (mjoin ([] : list (list Z)))) with 0.
  destruct Hor as [->|]; [cbn; unfold maxSSZSerializedBytes; lia|lia].
Qed.

(** The fields have the shapes. *)
Definition fits (s : shape) (f : sszField) : Prop :=
  match s with
  | SFixed n => variable f = false /\ length (data f) = n
  | SVar => variable f = true
  end.

Fixpoint parts_of (off : Z) (fields : list sszField) : list (list Z + Z) :=
  match fields with
  | [] => []
  | f :: fields =>
      if variable f then inr off :: parts_of (off + golen (data f)) fields
      else inl (data f) :: parts_of off fields
  end.

Lemma dec_head_ok shapes fields off rest :
  Forall2 fits shapes fields -> 0 <= off -> off + golen (mjoin (vars fields)) < 2 ^ 32 ->
  dec_head shapes (heads off fields ++ rest) = parts_of off fields.
Proof.
  intros Hf. revert off. induction Hf as [|s f shapes fields Hs Hf IH]; intros off Hoff Hb; [done|].
  cbn [heads parts_of vars omap list_omap] in *. fold (vars fields) in *. destruct s as [n|]; cbn [fits] in Hs.
  - destruct Hs as [Hv Hl]. rewrite Hv in *. cbn [dec_head]. rewrite <- app_assoc.
    rewrite take_app_length', drop_app_length' by done. by rewrite IH.
  - rewrite Hs in *. cbn [dec_head]. rewrite <- app_assoc.
    change (mjoin (data f :: vars fields)) with (data f ++ mjoin (vars fields)) in Hb. rewrite golen_app in Hb.
    pose proof (golen_nonneg (data f)). pose proof (golen_nonneg (mjoin (vars fields))).
    rewrite take_app_length', drop_app_length' by (by rewrite length_le_bytes). rewrite le_value_u32 by lia.
    rewrite IH by lia. done.
Qed.

Lemma parts_offsets off fields : offsets_in (parts_of off fields) = offsets_of off (vars fields).
Proof.
  revert off. induction fields as [|f fields IH]; intros off; [done|].
  cbn [parts_of vars omap list_omap]. fold (vars fields). destruct (variable f); cbn [offsets_in omap list_omap offsets_of];
    fold (offsets_in); by rewrite IH.
Qed.

Lemma parts_fill off fields : fill (parts_of off fields) (vars fields) = data <$> fields.
Proof.
  revert off. induction fields as [|f fields IH]; intros off; [done|].
  cbn [parts_of vars omap list_omap]. fold (vars fields). destruct (variable f); cbn [fill fmap list_fmap]; by rewrite IH.
Qed.

Lemma fits_size shapes fields : Forall2 fits shapes fields -> foldr (fun s n => shape_size s + n) 0 shapes = fixed_size fields.
Proof.
  induction 1 as [|s f shapes fields Hs _ IH]; [done|]. cbn [foldr fixed_size]. fold (fixed_size fields). rewrite IH. f_equal.
  unfold field_size. destruct s as [n|]; cbn in *; [destruct Hs as [-> <-]; done|by rewrite Hs].
Qed.

Lemma decode_encode shapes fields out :
  Forall2 fits shapes fields -> sszContainer fields = Ok out -> decode_container shapes out = Some (data <$> fields).
Proof.
  intros Hf (-> & Hlen & Hmax)%sszContainer_ok. unfold decode_container. rewrite (fits_size _ _ Hf).
  assert (0 <= fixed_size fields) as Hpos by (rewrite <- (length_heads 0); apply golen_nonneg).
  rewrite dec_head_ok by (try done; unfold maxSSZSerializedBytes in *; lia). rewrite parts_offsets.
  set (pre := heads (fixed_size fields) fields).
  assert (fixed_size fields = golen pre) as Hpre by (symmetry; apply length_heads).
  assert (match offsets_of (fixed_size fields) (vars fields) with [] => true | o :: _ => o =? fixed_size fields end = true) as ->.
  { destruct (vars fields); [done|]. cbn. apply Z.eqb_refl. }
  rewrite offsets_of_ok by (rewrite golen_app; lia). cbn [andb]. rewrite Hpre at 2. rewrite slices_ok. by rewrite parts_fill.
Qed.

(** ** Lemmas: lists *)

Definition as_vars (elems : list (list Z)) : list sszField := var <$> elems.

Lemma vars_as_vars elems : vars (as_vars elems) = elems.
Proof. induction elems as [|e es IH]; [done|]. cbn. f_equal. exact IH. Qed.

Lemma fixed_size_as_vars elems : fixed_size (as_vars elems) = 4 * golen elems.
Proof.
  induction elems as [|e es IH]; [done|].
  change (fixed_size (as_vars (e :: es))) with (4 + fixed_size (as_vars es)). rewrite IH. unfold golen. cbn [length]. lia.
Qed.

Lemma sszListVariable_container elems : sszListVariable elems = sszContainer (as_vars elems).
Proof.
  unfold sszListVariable, sszContainer, as_vars.
  assert (forall n, foldM (fun n (_ : list Z) => addSSZLength n 4) n elems = foldM fixed_step n (var <$> elems)) as ->.
  { induction elems as [|e es IH]; intros n; [done|]. cbn [foldM fmap list_fmap]. destruct (addSSZLength n 4) eqn:E;
      cbn [fixed_step var variable mbind outcome_bind]; rewrite E; cbn [mbind outcome_bind]; [apply IH|done..]. }
  destruct (foldM fixed_step 0 (var <$> elems)) as [n| |]; cbn [mbind outcome_bind]; [|done..].
  assert (forall st, foldM list_step st elems = foldM container_step st (var <$> elems)) as ->; [|done].
  induction elems as [|e es IH]; intros [[h p] o]; [done|]. cbn [foldM fmap list_fmap list_step container_step var variable data].
  destruct (addSSZLength o (golen e)); cbn [mbind outcome_bind]; [apply IH|done..].
Qed.

Lemma fits_as_vars elems : Forall2 fits (replicate (length elems) SVar) (as_vars elems).
Proof. induction elems; constructor; done. Qed.

Lemma decode_list_ok elems :
  4 * golen elems + golen (mjoin elems) <= maxSSZSerializedBytes ->
  decode_list (heads (4 * golen elems) (as_vars elems) ++ mjoin elems) = Some elems.
Proof.
  intros Hmax. destruct elems as [|e es]; [done|]. set (elems := e :: es) in *.
  set (out := heads (4 * golen elems) (as_vars elems) ++ mjoin elems).
  assert (golen (heads (4 * golen elems) (as_vars elems)) = 4 * golen elems) as Hpre by (by rewrite length_heads, fixed_size_as_vars).
  assert (0 < golen elems) as Hpos by (unfold golen, elems; cbn [length]; lia).
  pose proof (golen_nonneg (mjoin elems)).
  assert (le_value (take 4 out) = 4 * golen elems) as Hfirst.
  { unfold out, elems. cbn [as_vars fmap list_fmap heads var variable]. rewrite <- app_assoc.
    rewrite take_app_length' by (by rewrite length_le_bytes). fold elems. apply le_value_u32.
    unfold maxSSZSerializedBytes in *. lia. }
  assert (dec_offsets (length elems) out = offsets_of (4 * golen elems) elems) as Ho.
  { unfold dec_offsets, out. rewrite (dec_head_ok _ (as_vars elems)); [|apply fits_as_vars|lia|].
    - by rewrite parts_offsets, vars_as_vars.
    - rewrite vars_as_vars. unfold maxSSZSerializedBytes in *. lia. }
  unfold decode_list. destruct out as [|z out'] eqn:E.
  { apply (f_equal golen) in E. unfold out in E. rewrite golen_app, Hpre in E. change (golen (@nil Z)) with 0 in E. lia. }
  rewrite <- E in *. rewrite Hfirst. replace (Z.to_nat (4 * golen elems / 4)) with (length elems) by (unfold golen; golia).
  rewrite Ho. rewrite offsets_of_ok by (unfold out; rewrite golen_app, Hpre; lia).
  assert ((0 <? 4 * golen elems) = true) as -> by (apply Z.ltb_lt; lia).
  assert ((4 * golen elems) mod 4 = 0) as -> by golia. cbn [Z.eqb andb]. f_equal.
  unfold out. rewrite <- Hpre at 1. apply slices_ok.
Qed.

Lemma list_roundtrip elems out :
  sszListVariable elems = Ok out -> decode_list out = Some elems /\ golen out <= maxSSZSerializedBytes.
Proof.
  rewrite sszListVariable_container. intros (-> & Hl & Hmax)%sszContainer_ok. rewrite Hl in *.
  rewrite vars_as_vars, fixed_size_as_vars in *. split; [by apply decode_list_ok|done].
Qed.

Lemma foldl_app_mjoin (acc : list Z) elems : foldl app acc elems = acc ++ mjoin elems.
Proof.
  revert acc. induction elems as [|e es IH]; intros acc; [by rewrite app_nil_r|]. cbn [foldl]. rewrite IH.
  by rewrite <- app_assoc.
Qed.

Lemma decode_chunks_ok fuel n elems :
  (0 < n)%nat -> Forall (fun e => length e = n) elems -> (length elems <= fuel)%nat ->
  decode_chunks fuel n (mjoin elems) = Some elems.
Proof.
  intros Hn He. revert fuel. induction He as [|e es He _ IH]; intros fuel Hf; [by destruct fuel|].
  destruct fuel as [|fuel]; [cbn in Hf; lia|]. change (mjoin (e :: es)) with (e ++ mjoin es).
  assert (e ++ mjoin es <> []) as Hne by (intros [E _]%app_eq_nil; subst e; cbn in He; lia).
  cbn [decode_chunks]. destruct (e ++ mjoin es) as [|z l] eqn:E; [done|]. rewrite <- E.
  rewrite length_app. destruct (Nat.leb_spec n (length e + length (mjoin es))); [|lia].
  rewrite drop_app_length', take_app_length' by done. rewrite IH by (cbn in Hf; lia). done.
Qed.

(** The table of offsets of [listWithOffsets]. *)
Lemma fill_copy (pre src : list Z) m :
  (length src <= m)%nat ->
  copy_at (length pre) src (pre ++ replicate m 0) = (pre ++ src) ++ replicate (m - length src) 0.
Proof.
  intros Hm. unfold copy_at. rewrite length_app, length_replicate. rewrite take_app_length' by done.
  replace (length pre + m - length pre)%nat with m by lia. rewrite (take_ge src) by lia.
  rewrite drop_app_ge by lia. replace (length pre + length src - length pre)%nat with (length src) by lia.
  by rewrite drop_replicate, app_assoc.
Qed.

Lemma offsets_loop k pre elems off :
  length pre = (4 * k)%nat ->
  (foldl offset_step (pre ++ replicate (4 * length elems) 0, off) (imap (fun i => pair (k + i)%nat) elems)).1
  = pre ++ heads off (as_vars elems).
Proof.
  revert k pre off. induction elems as [|e es IH]; intros k pre off Hl; [done|].
  cbn [imap foldl offset_step as_vars fmap list_fmap heads var variable data fst snd]. rewrite Nat.add_0_r.
  replace (k * 4)%nat with (length pre) by lia. rewrite fill_copy by (rewrite length_le_bytes; cbn [length]; lia).
  rewrite length_le_bytes. replace (4 * length (e :: es) - 4)%nat with (4 * length es)%nat by (cbn [length]; lia).
  rewrite (imap_ext _ (fun i => pair (S k + i)%nat)) by (intros; cbn; f_equal; lia).
  rewrite IH by (rewrite length_app, length_le_bytes; lia). by rewrite <- app_assoc.
Qed.

Lemma listWithOffsets_ok elems : listWithOffsets elems = heads (4 * golen elems) (as_vars elems) ++ mjoin elems.
Proof.
  unfold listWithOffsets. pose proof (offsets_loop 0 [] elems (Z.of_nat (4 * length elems)) eq_refl) as E.
  cbn [app] in E. rewrite (imap_ext _ pair) in E by done.
  destruct (foldl offset_step _ _) as [out o]. cbn [fst] in E. rewrite E, foldl_app_mjoin. unfold golen.
  by replace (Z.of_nat (4 * length elems)) with (4 * Z.of_nat (length elems)) by lia.
Qed.
