(* ===== verification/SszTheorems.v ===== *)
(** What the SSZ encoders of [Ssz] promise.

    The guest reads its inputs with an SSZ decoder.  This file gives such decoders, on
    top of the generic ones of [Ssz], for the stateless input and for the extended
    input, and proves that they read back what the JSON text, or the structure given
    to the encoder, says. *)
From S2P Require Import Prelude Ssz.

(** ** Views of the stateless input *)

Record Withdrawal := mkWithdrawal {
  w_index : Z;
  w_validatorIndex : Z;
  w_address : list Z;
  w_amount : Z
}.

Record ExecutionPayload := mkPayload {
  ep_parentHash : list Z;
  ep_feeRecipient : list Z;
  ep_stateRoot : list Z;
  ep_receiptsRoot : list Z;
  ep_logsBloom : list Z;
  ep_prevRandao : list Z;
  ep_blockNumber : Z;
  ep_gasLimit : Z;
  ep_gasUsed : Z;
  ep_timestamp : Z;
  ep_extraData : list Z;
  ep_baseFeePerGas : Z;
  ep_blockHash : list Z;
  ep_transactions : list (list Z);
  ep_withdrawals : list Withdrawal;
  ep_blobGasUsed : Z;
  ep_excessBlobGas : Z;
  ep_blockAccessList : list Z;
  ep_slotNumber : Z
}.

Record NewPayloadRequest := mkNewPayloadRequest {
  np_executionPayload : ExecutionPayload;
  np_versionedHashes : list (list Z);
  np_parentBeaconBlockRoot : list Z;
  np_executionRequests : list (list Z)
}.

Record ExecutionWitness := mkWitness {
  ew_state : list (list Z);
  ew_codes : list (list Z);
  ew_headers : list (list Z)
}.

Record StatelessInput := mkStatelessInput {
  si_newPayloadRequest : NewPayloadRequest;
  si_executionWitness : ExecutionWitness;
  si_chainId : Z
}.

(** *** What the JSON text says *)

Definition hex_list (obj : jsonObj) (key : string) : sresult (list (list Z)) :=
  values ← requireStringList obj key; mapM_ hexToBytes values.

Definition hex_bytes (obj : jsonObj) (key : string) : sresult (list Z) :=
  value ← requireString obj key; hexToBytes value.

Definition hex_quantity (obj : jsonObj) (key : string) : sresult Z :=
  value ← requireString obj key; parseUint256Hex value.

Definition read_withdrawal (obj : jsonObj) : sresult Withdrawal :=
  index ← requireUint64 obj "index";
  validatorIndex ← requireUint64 obj "validatorIndex";
  address ← hex_bytes obj "address";
  amount ← requireUint64 obj "amount";
  Ok (mkWithdrawal index validatorIndex address amount).

Definition read_payload (obj : jsonObj) : sresult ExecutionPayload :=
  parentHash ← hex_bytes obj "parentHash";
  feeRecipient ← hex_bytes obj "feeRecipient";
  stateRoot ← hex_bytes obj "stateRoot";
  receiptsRoot ← hex_bytes obj "receiptsRoot";
  logsBloom ← hex_bytes obj "logsBloom";
  prevRandao ← hex_bytes obj "prevRandao";
  blockNumber ← requireUint64 obj "blockNumber";
  gasLimit ← requireUint64 obj "gasLimit";
  gasUsed ← requireUint64 obj "gasUsed";
  timestamp ← requireUint64 obj "timestamp";
  extraData ← hex_bytes obj "extraData";
  baseFee ← hex_quantity obj "baseFeePerGas";
  blockHash ← hex_bytes obj "blockHash";
  txs ← hex_list obj "transactions";
  withdrawalObjs ← requireObjectList obj "withdrawals";
  withdrawals ← mapM_ read_withdrawal withdrawalObjs;
  blobGasUsed ← requireUint64 obj "blobGasUsed";
  excessBlobGas ← requireUint64 obj "excessBlobGas";
  blockAccessList ← hex_bytes obj "blockAccessList";
  slotNumber ← optionalUint64 obj "slotNumber" 0;
  Ok (mkPayload parentHash feeRecipient stateRoot receiptsRoot logsBloom prevRandao blockNumber gasLimit gasUsed
        timestamp extraData baseFee blockHash txs withdrawals blobGasUsed excessBlobGas blockAccessList slotNumber).

Definition read_request (obj : jsonObj) : sresult NewPayloadRequest :=
  epObj ← requireObject obj "executionPayload";
  ep ← read_payload epObj;
  versionedHashes ← hex_list obj "versionedHashes";
  parentBeacon ← hex_bytes obj "parentBeaconBlockRoot";
  Ok (mkNewPayloadRequest ep versionedHashes parentBeacon (replicate 5 [])).

Definition read_witness (obj : jsonObj) : sresult ExecutionWitness :=
  state ← hex_list obj "state";
  codes ← hex_list obj "codes";
  headers ← hex_list obj "headers";
  Ok (mkWitness state codes headers).

Definition read_stateless (obj : jsonObj) : sresult StatelessInput :=
  nprObj ← requireObject obj "newPayloadRequest";
  npr ← read_request nprObj;
  witnessObj ← requireObject obj "executionWitness";
  witness ← read_witness witnessObj;
  configObj ← requireObject obj "chainConfig";
  chainId ← requireUint64 configObj "chainId";
  Ok (mkStatelessInput npr witness chainId).

(** *** What a decoder reads *)

Definition decode_withdrawal (bs : list Z) : option Withdrawal :=
  match decode_container [SFixed 8; SFixed 8; SFixed 20; SFixed 8] bs with
  | Some [i; v; a; n] => Some (mkWithdrawal (le_value i) (le_value v) a (le_value n))
  | _ => None
  end.

Definition decode_payload (bs : list Z) : option ExecutionPayload :=
  match decode_container
    [SFixed 32; SFixed 20; SFixed 32; SFixed 32; SFixed 256; SFixed 32; SFixed 8; SFixed 8; SFixed 8; SFixed 8;
     SVar; SFixed 32; SFixed 32; SVar; SVar; SFixed 8; SFixed 8; SVar; SFixed 8] bs with
  | Some [ph; fr; sr; rr; lb; pr; bn; gl; gu; ts; xd; bf; bh; tx; wd; bg; eb; al; sn] =>
      txs ← decode_list tx;
      ws ← decode_chunks (length wd) 44 wd;
      ws ← mapM decode_withdrawal ws;
      Some (mkPayload ph fr sr rr lb pr (le_value bn) (le_value gl) (le_value gu) (le_value ts) xd (le_value bf) bh
              txs ws (le_value bg) (le_value eb) al (le_value sn))
  | _ => None
  end.

Definition decode_request (bs : list Z) : option NewPayloadRequest :=
  match decode_container [SVar; SVar; SFixed 32; SVar] bs with
  | Some [ep; vh; pb; er] =>
      ep ← decode_payload ep;
      vh ← decode_chunks (length vh) 32 vh;
      er ← decode_container (replicate 5 SVar) er;
      Some (mkNewPayloadRequest ep vh pb er)
  | _ => None
  end.

Definition decode_witness (bs : list Z) : option ExecutionWitness :=
  match decode_container [SVar; SVar; SVar] bs with
  | Some [s; c; h] => s ← decode_list s; c ← decode_list c; h ← decode_list h; Some (mkWitness s c h)
  | _ => None
  end.

(** The schema identifier, then the container. *)
Definition decode_stateless (bs : list Z) : option StatelessInput :=
  if bool_decide (take 2 bs = statelessInputSchemaID) then
    match decode_container [SVar; SVar; SFixed 8] (drop 2 bs) with
    | Some [npr; w; cc] => npr ← decode_request npr; w ← decode_witness w; Some (mkStatelessInput npr w (le_value cc))
    | _ => None
    end
  else None.

(** ** Lemmas: the values of the accessors *)

Lemma parse_digits_nonneg val base acc s n :
  (forall c x, val c = Some x -> 0 <= x) -> 0 <= base -> 0 <= acc -> parse_digits val base acc s = Some n -> 0 <= n.
Proof.
  intros Hv Hb. revert acc. induction s as [|c s IH]; intros acc Ha; cbn [parse_digits]; [by intros [= <-]|].
  intros (x & Hx & Hn)%bind_Some. apply Hv in Hx. eapply IH; [|exact Hn]. nia.
Qed.

Lemma digit_val_nonneg c x : digit_val c = Some x -> 0 <= x.
Proof.
  unfold digit_val. destruct (Z.leb_spec 48 (code c)); cbn [andb]; [|done]. destruct (code c <=? 57); [|done].
  intros E. injection E as E. lia.
Qed.

Lemma ParseUint64_range s n : ParseUint64 s = Some n -> is_u 64 n.
Proof.
  unfold ParseUint64. destruct s as [|c s]; [done|]. intros (m & Hm & Hn)%bind_Some.
  apply parse_digits_nonneg in Hm; [|exact digit_val_nonneg|done|done].
  destruct (Z.ltb_spec m (2 ^ 64)); [|done]. injection Hn as <-. by split.
Qed.

Lemma parseUint64JSON_range raw key n : parseUint64JSON raw key = Ok n -> is_u 64 n.
Proof. destruct raw; cbn [parseUint64JSON]; try done; case_match eqn:E; intros [= <-]; by eapply ParseUint64_range. Qed.

Lemma requireUint64_range obj key n : requireUint64 obj key = Ok n -> is_u 64 n.
Proof. intros (raw & _ & H)%bind_ok. by eapply parseUint64JSON_range. Qed.

Lemma optionalUint64_range obj key n : optionalUint64 obj key 0 = Ok n -> is_u 64 n.
Proof. unfold optionalUint64. case_match; [apply parseUint64JSON_range|by intros [= <-]]. Qed.

Lemma uint64_value v : is_u 64 v -> le_value (sszUint64 v) = v.
Proof. intros. unfold sszUint64. rewrite le_value_le_bytes. by apply Z.mod_small. Qed.

Lemma hexToFixed_ok s n b : hexToFixed s n = Ok b -> hexToBytes s = Ok b /\ golen b = n.
Proof.
  unfold hexToFixed. intros (b' & Hb & H)%bind_ok. destruct (Z.eqb_spec (golen b') n); [|done]. by injection H as <-.
Qed.

Lemma require_fixed_ok obj key n b : require_fixed obj key n = Ok b -> hex_bytes obj key = Ok b /\ golen b = n.
Proof.
  unfold require_fixed, hex_bytes. intros (s & -> & H)%bind_ok. by apply hexToFixed_ok in H.
Qed.

Lemma decode_items_ok name limit items out : decode_items name limit items = Ok out -> mapM_ hexToBytes items = Ok out.
Proof.
  unfold decode_items. revert out. induction items as [|s items IH]; intros out; cbn [mapM_]; [done|].
  intros (b & (b' & Hb & (u & _ & Hu)%bind_ok)%bind_ok & (bs & Hbs & H)%bind_ok)%bind_ok. injection Hu as <-.
  rewrite Hb. cbn [mbind outcome_bind]. rewrite (IH _ Hbs). exact H.
Qed.

Lemma sszUint256_ok v b : sszUint256 v = Ok b -> length b = 32%nat /\ le_value b = v.
Proof.
  unfold sszUint256. destruct (Z.ltb_spec v 0); [done|]. destruct (Z.leb_spec (2 ^ 256) v); [done|]. intros [= <-].
  rewrite length_reverse, length_be_bytes. split; [done|]. change (be_value (be_bytes 32 v) = v).
  rewrite be_value_be_bytes. by apply Z.mod_small.
Qed.

(** ** Lemmas: the stateless input *)

(** Splits a computation that returned into its steps. *)
Ltac steps H :=
  repeat match type of H with
  | mbind _ _ = Ok _ => let x := fresh "x" in let E := fresh "E" in apply bind_ok in H as (x & E & H)
  end.

(** Runs a computation whose steps returned. *)
Ltac replay :=
  repeat first
    [ progress cbn [mbind outcome_bind]
    | match goal with E : _ = Ok _ |- context [mbind _ ?m] => rewrite E end ].

Lemma mapM_transport {A B C} (f : A -> sresult B) (g : A -> sresult C) (d : B -> option C) l out :
  (forall a b, a ∈ l -> f a = Ok b -> exists c, g a = Ok c /\ d b = Some c) ->
  mapM_ f l = Ok out -> exists cs, mapM_ g l = Ok cs /\ mapM d out = Some cs.
Proof.
  revert out. induction l as [|a l IH]; intros out Hf; cbn [mapM_]; [intros [= <-]; by exists []|].
  intros (b & Hb & (bs & Hbs & H)%bind_ok)%bind_ok. injection H as <-.
  destruct (Hf a b) as (c & Hg & Hd); [by left|done|]. destruct (IH bs) as (cs & Hcs & Hds); [|done|].
  { intros a' b' Ha. apply Hf. by right. }
  exists (c :: cs). rewrite Hg. cbn [mbind outcome_bind]. rewrite Hcs. split; [done|].
  cbn [mapM]. rewrite Hd. cbn [mbind option_bind]. by rewrite Hds.
Qed.

Lemma mapM_length {A B} (f : A -> sresult B) (P : B -> Prop) l out :
  (forall a b, f a = Ok b -> P b) -> mapM_ f l = Ok out -> Forall P out.
Proof.
  intros Hf. revert out. induction l as [|a l IH]; intros out; cbn [mapM_]; [intros [= <-]; constructor|].
  intros (b & Hb & (bs & Hbs & H)%bind_ok)%bind_ok. injection H as <-. constructor; [by eapply Hf|by apply IH].
Qed.

Lemma chunks_roundtrip n elems :
  (0 < n)%nat -> Forall (fun e => length e = n) elems ->
  decode_chunks (length (sszListFixed elems)) n (sszListFixed elems) = Some elems.
Proof.
  intros Hn He. unfold sszListFixed. rewrite foldl_app_mjoin. cbn [app]. apply decode_chunks_ok; [done..|].
  induction He as [|e es He _ IH]; [cbn; lia|]. change (mjoin (e :: es)) with (e ++ mjoin es).
  rewrite length_app. cbn [length]. lia.
Qed.

Lemma decode_container_encoded shapes fields out :
  sszContainer fields = Ok out -> Forall2 fits shapes fields -> decode_container shapes out = Some (data <$> fields).
Proof. intros. by apply decode_encode. Qed.

Lemma fits_fixed n d : golen d = Z.of_nat n -> fits (SFixed n) (fixed d).
Proof. unfold golen. intros. split; [done|]. cbn. lia. Qed.

Lemma fits_uint64 v : fits (SFixed 8) (fixed (sszUint64 v)).
Proof. split; [done|]. apply length_le_bytes. Qed.

Lemma fits_var d : fits SVar (var d).
Proof. done. Qed.

Create HintDb ssz.
#[export] Hint Resolve fits_fixed fits_uint64 fits_var Forall2_cons_2 Forall2_nil_2 : ssz.
#[export] Hint Resolve requireUint64_range optionalUint64_range : ssz.

Lemma withdrawal_ok obj out :
  sszWithdrawalFromObj obj = Ok out ->
  exists w, read_withdrawal obj = Ok w /\ decode_withdrawal out = Some w /\ length out = 44%nat.
Proof.
  unfold sszWithdrawalFromObj. intros H. steps H. apply hexToFixed_ok in E3 as [E3 Hl].
  unfold read_withdrawal, hex_bytes. replay. eexists. split; [done|]. split.
  - unfold decode_withdrawal. erewrite decode_container_encoded; [|done|eauto 10 with ssz].
    cbn [fmap list_fmap data fixed]. rewrite !uint64_value by eauto with ssz. done.
  - apply sszContainer_ok in H as (_ & Hn & _). cbn [fixed_size foldr field_size fixed variable data vars omap list_omap] in Hn.
    rewrite Hl in Hn. unfold golen, sszUint64 in Hn. rewrite !length_le_bytes in Hn. cbn in Hn. lia.
Qed.

Lemma payload_ok obj out :
  sszExecutionPayloadFromObj obj = Ok out -> exists p, read_payload obj = Ok p /\ decode_payload out = Some p.
Proof.
  unfold sszExecutionPayloadFromObj. intros H. steps H.
  repeat match goal with E : require_fixed _ _ _ = Ok _ |- _ => apply require_fixed_ok in E as [? ?] end.
  match goal with E : decode_items _ _ _ = Ok _ |- _ => apply decode_items_ok in E as Htx end.
  match goal with E : mapM_ sszWithdrawalFromObj _ = Ok _ |- _ => rename E into Hws end.
  match goal with E : sszListVariable _ = Ok _ |- _ => apply list_roundtrip in E as [Htl _] end.
  match goal with E : sszUint256 _ = Ok _ |- _ => apply sszUint256_ok in E as [Hfl Hfee] end.
  destruct (mapM_transport _ read_withdrawal decode_withdrawal _ _
    ltac:(intros a b _ Hb; destruct (withdrawal_ok a b Hb) as (w & Hr & Hd & _); by exists w) Hws) as (ws & Hrw & Hdw).
  apply (mapM_length _ (fun e => length e = 44%nat)) in Hws; [|by intros a b (w & _ & _ & Hl)%withdrawal_ok].
  unfold read_payload, hex_list, hex_quantity. replay. unfold hex_bytes. replay. eexists. split; [done|].
  unfold decode_payload. erewrite decode_container_encoded; [|exact H|].
  - cbn [fmap list_fmap data fixed var]. rewrite Htl. cbn [mbind option_bind].
    rewrite chunks_roundtrip by (done || lia). cbn [mbind option_bind]. rewrite Hdw. cbn [mbind option_bind].
    rewrite !uint64_value, Hfee by eauto with ssz. done.
  - repeat (apply Forall2_cons_2; [first [apply fits_uint64|apply fits_var|by apply fits_fixed|split; [reflexivity|exact Hfl]]|]).
    constructor.
Qed.

Lemma fixed_list_ok (items : list string) n out :
  mapM_ (fun h => hexToFixed h (Z.of_nat n)) items = Ok out ->
  mapM_ hexToBytes items = Ok out /\ Forall (fun e => length e = n) out.
Proof.
  revert out. induction items as [|s items IH]; intros out; cbn [mapM_]; [intros [= <-]; by split|].
  intros (b & [Hb Hl]%hexToFixed_ok & (bs & Hbs & H)%bind_ok)%bind_ok. injection H as <-. destruct (IH _ Hbs) as [IH1 IH2].
  rewrite Hb. cbn [mbind outcome_bind]. rewrite IH1. split; [done|]. constructor; [unfold golen in Hl; lia|done].
Qed.

Lemma requests_ok obj out :
  sszExecutionRequestsFromObj obj = Ok out -> decode_container (replicate 5 SVar) out = Some (replicate 5 []).
Proof.
  unfold sszExecutionRequestsFromObj. intros H. steps H. erewrite decode_container_encoded; [|exact H|]; [done|].
  repeat constructor.
Qed.

Lemma request_ok obj out :
  sszNewPayloadRequestFromObj obj = Ok out -> exists p, read_request obj = Ok p /\ decode_request out = Some p.
Proof.
  unfold sszNewPayloadRequestFromObj. intros H. steps H. apply payload_ok in E0 as (ep & Hep & Hdp).
  apply (fixed_list_ok _ 32) in E3 as [E3 Hl]. apply require_fixed_ok in E4 as [E4 Hb]. apply requests_ok in E6.
  unfold read_request, hex_list. replay. eexists. split; [done|]. unfold decode_request.
  erewrite decode_container_encoded; [|exact H|eauto 10 with ssz]. cbn [fmap list_fmap data fixed var]. rewrite Hdp. cbn [mbind option_bind].
  rewrite chunks_roundtrip by (done || lia). cbn [mbind option_bind]. by rewrite E6.
Qed.

Lemma encodeList_ok obj name maxItems maxBytes out :
  encodeList obj name maxItems maxBytes = Ok out -> exists l, hex_list obj name = Ok l /\ decode_list out = Some l.
Proof.
  unfold encodeList. intros H. steps H. apply decode_items_ok in E1. apply list_roundtrip in H as [H _].
  unfold hex_list. replay. eauto.
Qed.

Lemma witness_ok obj out :
  sszExecutionWitnessFromObj obj = Ok out -> exists w, read_witness obj = Ok w /\ decode_witness out = Some w.
Proof.
  unfold sszExecutionWitnessFromObj. intros H. steps H.
  apply encodeList_ok in E as (l & Hl & Dl), E0 as (l0 & Hl0 & Dl0), E1 as (l1 & Hl1 & Dl1).
  unfold read_witness. replay. eexists. split; [done|]. unfold decode_witness.
  erewrite decode_container_encoded; [|exact H|eauto 10 with ssz]. cbn [fmap list_fmap data var]. by rewrite Dl, Dl0, Dl1.
Qed.

Lemma chain_config_ok obj out :
  sszChainConfigFromObj obj = Ok out -> exists c, requireUint64 obj "chainId" = Ok c /\ out = sszUint64 c.
Proof.
  unfold sszChainConfigFromObj. intros H. steps H. destruct (negb _); [done|]. injection H as <-. eauto.
Qed.

Lemma stateless_ok obj out :
  sszStatelessInputFromObj obj = Ok out ->
  exists v, read_stateless obj = Ok v /\ decode_stateless (statelessInputSchemaID ++ out) = Some v.
Proof.
  unfold sszStatelessInputFromObj. intros H. steps H.
  apply request_ok in E0 as (npr & Hn & Dn). apply witness_ok in E2 as (w & Hw & Dw). apply chain_config_ok in E4 as (c & Hc & ->).
  unfold read_stateless. replay. eexists. split; [done|]. unfold decode_stateless.
  cbn [statelessInputSchemaID app take drop]. rewrite bool_decide_true by done.
  erewrite decode_container_encoded; [|exact H|eauto 10 with ssz]. cbn [fmap list_fmap data fixed var]. rewrite Dn, Dw. cbn [mbind option_bind].
  by rewrite uint64_value by eauto with ssz.
Qed.

(** ** Lemmas: the size limit *)

Lemma addSSZLength_total total n :
  0 <= total -> addSSZLength total n = if total + n <=? maxSSZSerializedBytes then Ok (total + n) else Err ErrSize.
Proof.
  intros Ht. unfold addSSZLength. destruct (Z.ltb_spec maxSSZSerializedBytes n), (Z.ltb_spec (maxSSZSerializedBytes - n) total),
    (Z.leb_spec (total + n) maxSSZSerializedBytes); cbn [orb]; done || lia.
Qed.

Lemma field_size_nonneg f : 0 <= field_size f.
Proof. unfold field_size. pose proof (golen_nonneg (data f)). destruct (variable f); lia. Qed.

Lemma fixed_size_nonneg fields : 0 <= fixed_size fields.
Proof. rewrite <- (length_heads 0). apply golen_nonneg. Qed.

Lemma fixed_loop_total n fields :
  0 <= n <= maxSSZSerializedBytes ->
  foldM fixed_step n fields
  = if n + fixed_size fields <=? maxSSZSerializedBytes then Ok (n + fixed_size fields) else Err ErrSize.
Proof.
  revert n. induction fields as [|f fields IH]; intros n Hn; cbn [foldM fixed_size foldr].
  - rewrite Z.add_0_r. by destruct (Z.leb_spec n maxSSZSerializedBytes); [|lia].
  - fold (fixed_size fields). pose proof (field_size_nonneg f). pose proof (fixed_size_nonneg fields).
    assert (fixed_step n f = addSSZLength n (field_size f)) as -> by (unfold fixed_step, field_size; by destruct (variable f)).
    rewrite addSSZLength_total by lia. destruct (Z.leb_spec (n + field_size f) maxSSZSerializedBytes); cbn [mbind outcome_bind].
    + rewrite IH by lia. by rewrite Z.add_assoc.
    + by destruct (Z.leb_spec (n + (field_size f + fixed_size fields)) maxSSZSerializedBytes); [lia|].
Qed.

Lemma container_loop_total head heap off fields :
  0 <= off <= maxSSZSerializedBytes ->
  foldM container_step (head, heap, off) fields
  = if off + golen (mjoin (vars fields)) <=? maxSSZSerializedBytes
    then Ok (head ++ heads off fields, heap ++ mjoin (vars fields), off + golen (mjoin (vars fields))) else Err ErrSize.
Proof.
  revert head heap off. induction fields as [|f fields IH]; intros head heap off Hoff; cbn [foldM].
  - change (golen (mjoin (vars []))) with 0. rewrite Z.add_0_r. destruct (Z.leb_spec off maxSSZSerializedBytes); [|lia].
    cbn [heads]. change (mjoin (vars [])) with ([] : list Z). by rewrite !app_nil_r.
  - cbn [container_step heads vars omap list_omap]. fold (vars fields). destruct (variable f); cbn [mbind outcome_bind].
    + change (mjoin (data f :: vars fields)) with (data f ++ mjoin (vars fields)).
      pose proof (golen_nonneg (data f)). pose proof (golen_nonneg (mjoin (vars fields))).
      rewrite addSSZLength_total, golen_app by lia.
      destruct (Z.leb_spec (off + golen (data f)) maxSSZSerializedBytes); cbn [mbind outcome_bind].
      * rewrite IH by lia. by rewrite <- !app_assoc, Z.add_assoc.
      * by destruct (Z.leb_spec (off + (golen (data f) + golen (mjoin (vars fields)))) maxSSZSerializedBytes); [lia|].
    + rewrite IH by done. by rewrite <- !app_assoc.
Qed.

Definition container_size (fields : list sszField) : Z := fixed_size fields + golen (mjoin (vars fields)).

Lemma sszContainer_total fields :
  sszContainer fields = if container_size fields <=? maxSSZSerializedBytes
    then Ok (heads (fixed_size fields) fields ++ mjoin (vars fields)) else Err ErrSize.
Proof.
  unfold sszContainer, container_size. pose proof (fixed_size_nonneg fields). pose proof (golen_nonneg (mjoin (vars fields))).
  rewrite fixed_loop_total by (unfold maxSSZSerializedBytes; lia). rewrite Z.add_0_l.
  destruct (Z.leb_spec (fixed_size fields) maxSSZSerializedBytes); cbn [mbind outcome_bind].
  - rewrite container_loop_total by lia. by destruct (fixed_size fields + _ <=? _).
  - by destruct (Z.leb_spec (fixed_size fields + golen (mjoin (vars fields))) maxSSZSerializedBytes); [lia|].
Qed.

(** ** Lemmas: the extended input *)

(** A container whose size is not checked. *)
Definition container_bytes (fields : list sszField) : list Z := heads (fixed_size fields) fields ++ mjoin (vars fields).

Lemma golen_container fields : golen (container_bytes fields) = container_size fields.
Proof. unfold container_bytes. by rewrite golen_app, length_heads. Qed.

Lemma decode_container_bytes shapes fields :
  Forall2 fits shapes fields -> golen (container_bytes fields) <= maxSSZSerializedBytes ->
  decode_container shapes (container_bytes fields) = Some (data <$> fields).
Proof.
  intros Hf Hs. rewrite golen_container in Hs. eapply decode_encode; [done|]. rewrite sszContainer_total.
  by destruct (Z.leb_spec (container_size fields) maxSSZSerializedBytes); [|lia].
Qed.

Lemma fill_at n (pre src : list Z) m k :
  length pre = n -> length src = k ->
  copy_at n src (pre ++ replicate (k + m) 0) = (pre ++ src) ++ replicate m 0.
Proof. intros <- <-. rewrite fill_copy by lia. f_equal. f_equal. lia. Qed.

Definition forced_fields (ftx : ForcedTransaction) : list sszField :=
  [fixed (le_bytes 8 (Number ftx)); var (SignedTxRlp ftx); fixed [Acceptance ftx]; fixed (le_bytes 8 (Deadline ftx))].

Lemma golen_le_bytes n z : golen (le_bytes n z) = Z.of_nat n.
Proof. unfold golen. by rewrite length_le_bytes. Qed.

Lemma forced_ok ftx : encodeForcedTransaction ftx = container_bytes (forced_fields ftx).
Proof.
  unfold encodeForcedTransaction, container_bytes, forced_fields.
  change (replicate forcedTxFixed 0) with ([] ++ replicate (8 + 13) 0). rewrite (fill_at 0 [] _ 13) by (apply length_le_bytes || done).
  change (replicate 13 0) with (replicate (4 + 9) 0). cbn [app]. rewrite (fill_at 8 _ _ 9) by apply length_le_bytes.
  rewrite insert_app_r_alt by (rewrite length_app, !length_le_bytes; lia). rewrite length_app, !length_le_bytes.
  change (<[(12 - (8 + 4))%nat := Acceptance ftx]> (replicate 9 0)) with ([Acceptance ftx] ++ replicate (8 + 0) 0).
  rewrite app_assoc, (fill_at 13) by (rewrite ?length_app, !length_le_bytes; reflexivity).
  cbn [fixed_size foldr field_size fixed var variable data heads vars omap list_omap replicate].
  change (golen [Acceptance ftx]) with 1. rewrite !golen_le_bytes.
  change (mjoin [SignedTxRlp ftx]) with (SignedTxRlp ftx ++ []). rewrite !app_nil_r, <- !app_assoc. done.
Qed.

Definition payload_fields (p : PayloadInput) : list sszField :=
  [var (StatelessInputSSZ p); var (listWithOffsets (encodeForcedTransaction <$> ForcedTransactions p))].

Lemma payload_input_ok p : encodePayloadInput p = container_bytes (payload_fields p).
Proof.
  unfold encodePayloadInput, container_bytes, payload_fields.
  set (l := listWithOffsets _). clearbody l.
  change (replicate payloadFixed 0) with ([] ++ replicate (4 + 4) 0). rewrite (fill_at 0 [] _ 4) by (apply length_le_bytes || done).
  change (replicate 4 0) with (replicate (4 + 0) 0). cbn [app]. rewrite (fill_at 4 _ _ 0) by apply length_le_bytes.
  cbn [fixed_size foldr field_size var variable data heads vars omap list_omap replicate].
  change (mjoin [StatelessInputSSZ p; l]) with (StatelessInputSSZ p ++ l ++ []). rewrite !app_nil_r, <- !app_assoc. done.
Qed.

Definition contracts (sc : SystemContracts) : list (list Z) :=
  [BeaconRoots sc; HistoryStorage sc; Deposit sc; WithdrawalRequest sc; ConsolidationRequest sc;
   BuilderDepositRequest sc; BuilderExitRequest sc].

Definition private_fields (inp : ExtendedInput) : list sszField :=
  let cc := ei_ChainConfig inp in
  [fixed (ParentFtxRollingHash inp); fixed (le_bytes 8 (ParentLastProcessedFtxNumber inp));
   fixed (L2MessageServiceAddress cc); fixed (Coinbase cc); fixed (le_bytes 8 (ChainID cc))]
  ++ (fixed <$> contracts (cc_SystemContracts cc))
  ++ [var (listWithOffsets (encodePayloadInput <$> Payloads inp))].

(** *** Well-typed inputs: the widths of the Go types *)

Definition forced_wf (ftx : ForcedTransaction) : Prop :=
  is_u 64 (Number ftx) /\ is_byte (Acceptance ftx) /\ is_u 64 (Deadline ftx).

Definition contracts_wf (sc : SystemContracts) : Prop := Forall (fun a => length a = 20%nat) (contracts sc).

Record extended_wf (inp : ExtendedInput) : Prop := {
  xw_hash : length (ParentFtxRollingHash inp) = 32%nat;
  xw_number : is_u 64 (ParentLastProcessedFtxNumber inp);
  xw_service : length (L2MessageServiceAddress (ei_ChainConfig inp)) = 20%nat;
  xw_coinbase : length (Coinbase (ei_ChainConfig inp)) = 20%nat;
  xw_chain : is_u 64 (ChainID (ei_ChainConfig inp));
  xw_contracts : contracts_wf (cc_SystemContracts (ei_ChainConfig inp));
  xw_payloads : Forall (fun p => Forall forced_wf (ForcedTransactions p)) (Payloads inp)
}.

Lemma contracts_loop n (addrs : list (list Z)) k m pre :
  length pre = (n + k * 20)%nat -> Forall (fun a => length a = 20%nat) addrs ->
  foldl (fun out (ia : nat * list Z) => copy_at (n + ia.1 * 20) ia.2 out) (pre ++ replicate (length addrs * 20 + m) 0)
    (imap (fun i => pair (k + i)%nat) addrs)
  = (pre ++ mjoin addrs) ++ replicate m 0.
Proof.
  intros Hp Ha. revert k pre Hp. induction Ha as [|a addrs Ha _ IH]; intros k pre Hp.
  - cbn [imap foldl length Nat.mul Nat.add]. change (mjoin []) with ([] : list Z). by rewrite app_nil_r.
  - cbn [imap foldl fst snd length]. rewrite Nat.add_0_r.
    replace (S (length addrs) * 20 + m)%nat with (20 + (length addrs * 20 + m))%nat by lia.
    rewrite fill_at by done. rewrite (imap_ext _ (fun i => pair (S k + i)%nat)) by (intros; cbn; f_equal; lia).
    rewrite IH by (rewrite length_app; lia). change (mjoin (a :: addrs)) with (a ++ mjoin addrs). by rewrite <- !app_assoc.
Qed.

Lemma heads_fixed off elems rest : heads off ((fixed <$> elems) ++ rest) = mjoin elems ++ heads off rest.
Proof.
  induction elems as [|e es IH]; [done|]. rewrite fmap_cons. cbn [app heads fixed variable data]. rewrite IH. change (mjoin (e :: es)) with (e ++ mjoin es). by rewrite <- app_assoc.
Qed.

Lemma fixed_size_fixed elems rest :
  fixed_size ((fixed <$> elems) ++ rest) = golen (mjoin elems) + fixed_size rest.
Proof. rewrite <- (length_heads 0), heads_fixed, golen_app. by rewrite length_heads. Qed.

Lemma vars_fixed elems rest : vars ((fixed <$> elems) ++ rest) = vars rest.
Proof. induction elems as [|e es IH]; [done|]. exact IH. Qed.

Lemma length_contracts sc : contracts_wf sc -> length (mjoin (contracts sc)) = systemContractsSize.
Proof.
  unfold contracts_wf, contracts. intros H. repeat (apply Forall_cons in H as [? H]).
  cbn [mjoin list_join]. rewrite !length_app. cbn [length]. unfold systemContractsSize. lia.
Qed.

Lemma private_ok inp : extended_wf inp -> encodePrivateInput inp = container_bytes (private_fields inp).
Proof.
  intros [H1 _ H3 H4 _ H6 _]. unfold encodePrivateInput, container_bytes, private_fields. cbn zeta.
  set (l := listWithOffsets _). clearbody l. set (cc := ei_ChainConfig inp) in *. set (sc := cc_SystemContracts cc) in *.
  change (replicate privateInputFixed 0) with ([] ++ replicate (32 + 200) 0). rewrite (fill_at 0 []) by done. rewrite app_nil_l.
  change (replicate 200 0) with (replicate (8 + 192) 0). rewrite (fill_at 32) by (done || apply length_le_bytes).
  change (replicate 192 0) with (replicate (20 + 172) 0). rewrite (fill_at 40) by (rewrite ?length_app, ?length_le_bytes, ?H1; done).
  change (replicate 172 0) with (replicate (20 + 152) 0).
  rewrite (fill_at 60) by (rewrite ?length_app, ?length_le_bytes, ?H1, ?H3; done).
  change (replicate 152 0) with (replicate (8 + 144) 0).
  rewrite (fill_at 80) by (rewrite ?length_app, ?length_le_bytes, ?H1, ?H3, ?H4; done).
  unfold encodeSystemContracts. fold (contracts sc). change (replicate 144 0) with (replicate (length (contracts sc) * 20 + 4) 0).
  rewrite (imap_ext _ (fun i => pair (0 + i)%nat)) by done.
  rewrite contracts_loop by (rewrite ?length_app, ?length_le_bytes, ?H1, ?H3, ?H4; done).
  change (replicate 4 0) with (replicate (4 + 0) 0).
  rewrite fill_at by (rewrite ?length_app, ?length_le_bytes, ?length_contracts, ?H1, ?H3, ?H4; done).
  change ([fixed (ParentFtxRollingHash inp); fixed (le_bytes 8 (ParentLastProcessedFtxNumber inp));
    fixed (L2MessageServiceAddress cc); fixed (Coinbase cc); fixed (le_bytes 8 (ChainID cc))])
    with (fixed <$> [ParentFtxRollingHash inp; le_bytes 8 (ParentLastProcessedFtxNumber inp);
      L2MessageServiceAddress cc; Coinbase cc; le_bytes 8 (ChainID cc)]).
  rewrite !fixed_size_fixed, !heads_fixed, !vars_fixed. cbn [mjoin list_join].
  change (fixed_size [var l]) with 4. change (vars [var l]) with [l]. cbn [heads var variable data].
  rewrite !golen_app, !golen_le_bytes. unfold golen. rewrite H1, H3, H4, length_contracts by done.
  change (mjoin [l]) with (l ++ []). rewrite !app_nil_r, <- !app_assoc. done.
Qed.

(** ** The decoder of the extended input *)

Definition decode_forced (bs : list Z) : option ForcedTransaction :=
  match decode_container [SFixed 8; SVar; SFixed 1; SFixed 8] bs with
  | Some [n; rlp; [a]; d] => Some (mkForcedTransaction (le_value n) rlp a (le_value d))
  | _ => None
  end.

Definition decode_payload_input (bs : list Z) : option PayloadInput :=
  match decode_container [SVar; SVar] bs with
  | Some [si; fs] => fs ← decode_list fs; fs ← mapM decode_forced fs; Some (mkPayloadInput si fs)
  | _ => None
  end.

Definition decode_private (bs : list Z) : option ExtendedInput :=
  match decode_container ([SFixed 32; SFixed 8; SFixed 20; SFixed 20; SFixed 8] ++ replicate 7 (SFixed 20) ++ [SVar]) bs with
  | Some [h; n; s; c; i; c0; c1; c2; c3; c4; c5; c6; ps] =>
      ps ← decode_list ps;
      ps ← mapM decode_payload_input ps;
      Some (mkExtendedInput h (le_value n)
              (mkChainConfig s c (le_value i) (mkSystemContracts c0 c1 c2 c3 c4 c5 c6)) ps)
  | _ => None
  end.

Definition decode_extended (bs : list Z) : option ExtendedInput :=
  if bool_decide (take 2 bs = extendedInputSchemaID) then decode_private (drop 2 bs) else None.

Lemma decode_extended_schema bs : decode_extended (extendedInputSchemaID ++ bs) = decode_private bs.
Proof. unfold decode_extended. by rewrite bool_decide_true. Qed.

Lemma list_offsets_size elems : golen (listWithOffsets elems) = 4 * golen elems + golen (mjoin elems).
Proof. rewrite listWithOffsets_ok, golen_app, length_heads. by rewrite fixed_size_as_vars. Qed.

Lemma elem_size (e : list Z) elems : e ∈ elems -> golen e <= golen (listWithOffsets elems).
Proof.
  intros He. rewrite list_offsets_size. apply list_elem_of_split in He as (l1 & l2 & ->).
  rewrite join_app. change (mjoin (e :: l2)) with (e ++ mjoin l2). rewrite !golen_app.
  pose proof (golen_nonneg (mjoin l1)). pose proof (golen_nonneg (mjoin l2)). pose proof (golen_nonneg l1). pose proof (golen_nonneg (e :: l2)). lia.
Qed.

Lemma mapM_decode {A} (enc : A -> list Z) (dec : list Z -> option A) l :
  (forall a, a ∈ l -> dec (enc a) = Some a) -> mapM dec (enc <$> l) = Some l.
Proof.
  induction l as [|a l IH]; intros H; [done|]. rewrite fmap_cons. cbn [mapM]. rewrite H by left. cbn [mbind option_bind].
  rewrite IH by (intros; apply H; by right). done.
Qed.

(** A list field: its elements are read back when the whole list fits. *)
Lemma list_field {A} (enc : A -> list Z) (dec : list Z -> option A) l :
  golen (listWithOffsets (enc <$> l)) <= maxSSZSerializedBytes ->
  (forall a, a ∈ l -> golen (enc a) <= maxSSZSerializedBytes -> dec (enc a) = Some a) ->
  exists es, decode_list (listWithOffsets (enc <$> l)) = Some es /\ mapM dec es = Some l.
Proof.
  intros Hs Hd. rewrite list_offsets_size in Hs. rewrite listWithOffsets_ok, decode_list_ok by done. exists (enc <$> l).
  split; [done|]. apply mapM_decode. intros a Ha. apply Hd; [done|].
  pose proof (elem_size (enc a) (enc <$> l) ltac:(by apply list_elem_of_fmap_2)). rewrite list_offsets_size in *. lia.
Qed.

Lemma var_size d fields : d ∈ vars fields -> golen d <= golen (container_bytes fields).
Proof.
  intros Hd. rewrite golen_container. unfold container_size. pose proof (fixed_size_nonneg fields).
  apply list_elem_of_split in Hd as (l1 & l2 & ->). rewrite join_app. change (mjoin (d :: l2)) with (d ++ mjoin l2). rewrite !golen_app.
  pose proof (golen_nonneg (mjoin l1)). pose proof (golen_nonneg (mjoin l2)). lia.
Qed.

Lemma le8_value v : is_u 64 v -> le_value (le_bytes 8 v) = v.
Proof. exact (uint64_value v). Qed.

Lemma forced_roundtrip ftx :
  forced_wf ftx -> golen (encodeForcedTransaction ftx) <= maxSSZSerializedBytes ->
  decode_forced (encodeForcedTransaction ftx) = Some ftx.
Proof.
  intros (Hn & _ & Hd). rewrite forced_ok. intros Hs. unfold decode_forced.
  rewrite (decode_container_bytes _ (forced_fields ftx)) by (eauto 10 with ssz || done || (repeat constructor; apply length_le_bytes)).
  cbn [forced_fields fmap list_fmap data fixed var]. rewrite !le8_value by done. by destruct ftx.
Qed.

Lemma payload_roundtrip p :
  Forall forced_wf (ForcedTransactions p) -> golen (encodePayloadInput p) <= maxSSZSerializedBytes ->
  decode_payload_input (encodePayloadInput p) = Some p.
Proof.
  intros Hf. rewrite payload_input_ok. intros Hs. unfold decode_payload_input.
  rewrite (decode_container_bytes _ (payload_fields p)) by (repeat constructor || done).
  cbn [payload_fields fmap list_fmap data var].
  destruct (list_field encodeForcedTransaction decode_forced (ForcedTransactions p)) as (es & -> & Hl).
  - etrans; [|exact Hs]. apply var_size. right. left.
  - intros a Ha. apply forced_roundtrip. rewrite Forall_forall in Hf. auto.
  - cbn [mbind option_bind]. rewrite Hl. by destruct p.
Qed.

Lemma fits_private inp : extended_wf inp ->
  Forall2 fits ([SFixed 32; SFixed 8; SFixed 20; SFixed 20; SFixed 8] ++ replicate 7 (SFixed 20) ++ [SVar]) (private_fields inp).
Proof.
  intros [H1 _ H3 H4 _ H6 _]. unfold contracts_wf, contracts in H6. repeat (apply Forall_cons in H6 as [? H6]).
  repeat (apply Forall2_cons_2; [first [done|split; [done|apply length_le_bytes]]|]). constructor.
Qed.

Lemma private_roundtrip inp :
  extended_wf inp -> golen (encodePrivateInput inp) <= maxSSZSerializedBytes ->
  decode_private (encodePrivateInput inp) = Some inp.
Proof.
  intros Hw. rewrite private_ok by done. intros Hs. unfold decode_private.
  rewrite (decode_container_bytes _ (private_fields inp)) by (done || by apply fits_private).
  destruct (list_field encodePayloadInput decode_payload_input (Payloads inp)) as (es & Hl & Hm).
  - etrans; [|exact Hs]. apply var_size. unfold private_fields. apply list_elem_of_here.
  - intros p Hp. apply payload_roundtrip. pose proof (xw_payloads _ Hw) as Hf. rewrite Forall_forall in Hf. auto.
  - cbn [private_fields contracts fmap list_fmap app data fixed var]. rewrite Hl. cbn [mbind option_bind]. rewrite Hm. cbn [mbind option_bind].
    rewrite !le8_value by (apply Hw). by destruct inp as [? ? [? ? ? []] ?].
Qed.

(** ** Theorems *)

(** C35. The stateless input reads back: when [EncodeStatelessInput] returns, the
    text was a JSON object whose fields are all well formed, an SSZ decoder of the
    input reads, from the bytes, exactly the values that the text gives to these
    fields, and the bytes fit the 4 GiB limit of SSZ. *)
Theorem EncodeStatelessInput_decodes (decode_json : list Z -> option json) payload out :
  EncodeStatelessInput decode_json payload = Ok out ->
  exists raw obj v, decode_json payload = Some raw /\ parseJSONObject raw "statelessInput" = Ok obj /\
    read_stateless obj = Ok v /\ decode_stateless out = Some v /\ golen out <= 2 + maxSSZSerializedBytes.
Proof.
  unfold EncodeStatelessInput. intros H. steps H. destruct (decode_json payload) as [raw|]; [|done]. injection E as ->.
  injection H as <-. pose proof E1 as Hsize. apply stateless_ok in E1 as (v & Hv & Hd). exists x, x0, v. split_and!; try done.
  unfold sszStatelessInputFromObj in Hsize. steps Hsize. apply sszContainer_ok in Hsize as (_ & _ & Hsize).
  unfold golen in *. cbn [length statelessInputSchemaID app] in *. lia.
Qed.

(** The extended input reads back: for every input of the Go types, an SSZ
    decoder reads from the bytes of [EncodeExtendedInput] the input it was given, as
    long as the bytes fit the 32-bit offsets. *)
Theorem EncodeExtendedInput_roundtrip (inp : ExtendedInput) :
  extended_wf inp -> golen (EncodeExtendedInput inp) <= 2 + maxSSZSerializedBytes ->
  decode_extended (EncodeExtendedInput inp) = Some inp.
Proof.
  intros Hw Hs. unfold EncodeExtendedInput in *. rewrite decode_extended_schema. apply private_roundtrip; [done|].
  rewrite golen_app in Hs. change (golen extendedInputSchemaID) with 2 in Hs. lia.
Qed.

(** C36. Containers are encoded exactly when they fit: [sszContainer] returns an
    error exactly when the fixed parts, the offsets and the variable parts together
    exceed the limit, its result otherwise has this size and decodes to the fields. *)
Theorem sszContainer_exact shapes (fields : list sszField) :
  Forall2 fits shapes fields ->
  if container_size fields <=? maxSSZSerializedBytes
  then exists out, sszContainer fields = Ok out /\ golen out = container_size fields /\
         decode_container shapes out = Some (data <$> fields)
  else sszContainer fields = Err ErrSize.
Proof.
  intros Hf. rewrite sszContainer_total. destruct (Z.leb_spec (container_size fields) maxSSZSerializedBytes); [|done].
  exists (container_bytes fields). split; [done|]. split; [apply golen_container|].
  apply decode_container_bytes; [done|]. by rewrite golen_container.
Qed.

(** ** Witnesses *)

Definition demo_hex (n : nat) : json := JString (String.concat "" ("0x"%string :: replicate n "00"%string)).

Definition demo_payload : json := JObject
  [("parentHash", demo_hex 32); ("feeRecipient", demo_hex 20); ("stateRoot", demo_hex 32); ("receiptsRoot", demo_hex 32);
   ("logsBloom", demo_hex 256); ("prevRandao", demo_hex 32); ("blockNumber", JNumber "7"); ("gasLimit", JNumber "30000000");
   ("gasUsed", JString "21000"); ("timestamp", JNumber "1"); ("extraData", JString "0x"); ("baseFeePerGas", JString "0x7");
   ("blockHash", demo_hex 32); ("transactions", JArray [JString "0x0102"; JString "0x"]);
   ("withdrawals", JArray [JObject [("index", JNumber "1"); ("validatorIndex", JNumber "2"); ("address", demo_hex 20); ("amount", JNumber "3")]]);
   ("blobGasUsed", JNumber "0"); ("excessBlobGas", JNumber "0"); ("blockAccessList", JString "0xc0")]%string.

Definition demo_stateless : json := JObject
  [("newPayloadRequest", JObject [("executionPayload", demo_payload); ("versionedHashes", JArray [demo_hex 32]);
      ("parentBeaconBlockRoot", demo_hex 32); ("executionRequests", JObject [])]);
   ("executionWitness", JObject [("state", JArray [JString "0xaa"]); ("codes", JArray []); ("headers", JArray [JString "0x0b0c"])]);
   ("chainConfig", JObject [("chainId", JNumber "59144"); ("forkName", JString "Amsterdam")])]%string.

Definition demo_out : list Z :=
  match EncodeStatelessInput (fun _ => Some demo_stateless) [] with Ok out => out | _ => [] end.

Lemma EncodeStatelessInput_decodes_witness :
  exists v, decode_stateless demo_out = Some v /\ golen demo_out <= 2 + maxSSZSerializedBytes.
Proof.
  destruct (EncodeStatelessInput_decodes (fun _ => Some demo_stateless) [] demo_out) as (raw & obj & v & _ & _ & _ & Hd & Hs);
    [vm_compute; reflexivity|].
  exists v. split; assumption.
Defined.

Definition demo_extended : ExtendedInput :=
  mkExtendedInput (replicate 32 1) 5
    (mkChainConfig (replicate 20 2) (replicate 20 3) 59144
       (mkSystemContracts (replicate 20 4) (replicate 20 5) (replicate 20 6) (replicate 20 7) (replicate 20 8) (replicate 20 9) (replicate 20 10)))
    [mkPayloadInput [1; 2; 3] [mkForcedTransaction 9 [0xf8] 2 100]; mkPayloadInput [] []].

Lemma EncodeExtendedInput_roundtrip_witness :
  decode_extended (EncodeExtendedInput demo_extended) = Some demo_extended.
Proof.
  apply (EncodeExtendedInput_roundtrip demo_extended); [|vm_compute; discriminate].
  split; try reflexivity; try (unfold is_u; cbn; lia); repeat constructor; unfold is_u; cbn; lia.
Defined.

Lemma sszContainer_exact_witness :
  exists out, sszContainer [fixed [1; 2]; var [9; 9; 9]] = Ok out /\ golen out = 9 /\
    decode_container [SFixed 2; SVar] out = Some [[1; 2]; [9; 9; 9]].
Proof. apply (sszContainer_exact [SFixed 2; SVar] [fixed [1; 2]; var [9; 9; 9]]). repeat constructor. Defined.
