(* ===== verification/SvIntervals.v ===== *)
(** Intervals of a discrete circle:
    [prover/maths/common/smartvectors/circular_interval.go] and [utils.PositiveMod].

    A window of a vector is an interval of its positions that may wrap around the end.
    The arithmetic that combines windowed vectors works on the smallest interval that
    covers the windows, found by [SmallestCoverInterval].  The specification of an
    interval is the set [mem] of its points.

    Positions are at most twice the size of a circle, which is the length of a vector:
    they are far from the bounds of an [int].  [sort.Slice] leaves the order of
    intervals with the same start open (and its argument here is not a strict order),
    so the sorted slice is given by a parameter. *)
From S2P Require Import Prelude.
From Stdlib Require Import ZifyBool.

(** ** Definitions *)

Definition PositiveMod (a n : Z) : Z :=
  let res := Z.rem a n in
  if res <? 0 then res + n else res.

Record CircularInterval := mkInterval {
  circleSize : Z;
  istart : Z;
  IntervalLen : Z
}.

#[export] Instance CircularInterval_eq_dec : EqDecision CircularInterval.
Proof. solve_decision. Defined.

(** Functions that only return or panic. *)
Abbreviation go := (outcome Empty_set).

Definition IvalWithFullLen (n : Z) : go CircularInterval :=
  _ ← assert_ (0 <? n);
  Ok (mkInterval n 0 n).

Definition IvalWithStartLen (start len n : Z) : go CircularInterval :=
  _ ← assert_ (negb (len =? 0));
  _ ← assert_ ((0 <=? start) && (start <? n));
  _ ← assert_ (len <? n);
  Ok (mkInterval n start len).

Definition IvalWithStartStop (start stop n : Z) : go CircularInterval :=
  _ ← assert_ (negb (start =? stop));
  _ ← assert_ ((0 <=? start) && (start <? n));
  _ ← assert_ ((0 <=? stop) && (stop <? n));
  Ok (mkInterval n start (PositiveMod (stop - start) n)).

Definition Start (c : CircularInterval) : Z := istart c.

Definition Stop (c : CircularInterval) : Z := PositiveMod (istart c + IntervalLen c) (circleSize c).

Definition DoesWrapAround (c : CircularInterval) : bool := Stop c <? Start c.

Definition IsFullCircle (c : CircularInterval) : bool := IntervalLen c =? circleSize c.

Definition DoesInclude (c : CircularInterval) (p : Z) : go bool :=
  _ ← assert_ ((0 <=? p) && (p <=? circleSize c));
  if IsFullCircle c then Ok true
  else if DoesWrapAround c then Ok ((p <? Stop c) || (Start c <=? p))
  else Ok ((Start c <=? p) && (p <? Stop c)).

(** [x && y] where the evaluation of [y] may panic. *)
Definition and_then (x : go bool) (y : go bool) : go bool := b ← x; if b : bool then y else Ok false.

Definition DoesFullyContain (c other : CircularInterval) : go bool :=
  if IsFullCircle c then Ok true
  else if negb (IsFullCircle c) && IsFullCircle other then Ok false
  else if negb (DoesWrapAround c) then
    and_then (DoesInclude c (Start other)) (and_then (DoesInclude c (Stop other - 1)) (Ok (negb (DoesWrapAround other))))
  else if negb (DoesWrapAround other) && (Stop other <=? Stop c) then Ok true
  else if negb (DoesWrapAround other) && (Start c <=? Start other) then Ok true
  else if DoesWrapAround other && (Start c <=? Start other) && (Stop other <=? Stop c) then Ok true
  else Ok false.

Definition TryOverlapWith (c other : CircularInterval) : go (bool * CircularInterval) :=
  _ ← assert_ (circleSize c =? circleSize other);
  let n := circleSize c in
  if IsFullCircle c || IsFullCircle other then w ← IvalWithFullLen n; Ok (true, w) else
  let c1 := PositiveMod (Stop c - Start c) n in
  let o0 := PositiveMod (Start other - Start c) n in
  let o1 := PositiveMod (Stop other - Start c) n in
  if (0 <=? o0) && (o0 <? o1) && (o1 <=? c1) then Ok (true, c) else
  if (0 <=? o1) && (o1 <? o0) && (o0 <=? c1) then w ← IvalWithFullLen n; Ok (true, w) else
  if (0 <=? o0) && (o0 <=? c1) && (c1 <=? o1) then w ← IvalWithStartStop (Start c) (Stop other) n; Ok (true, w) else
  if (0 <=? o1) && (o1 <=? c1) && (c1 <? o0) then w ← IvalWithStartStop (Start other) (Stop c) n; Ok (true, w) else
  if (0 <=? c1) && (c1 <=? o1) && (o1 <? o0) then Ok (true, other) else
  Ok (false, mkInterval 0 0 0).

(** The buckets [overlaps] of [SmallestCoverInterval]: all but the last one, and the
    last one. *)
Abbreviation buckets := (list CircularInterval * CircularInterval)%type.

Definition bucket_step (size0 size : Z) (overlaps : buckets) (interval : CircularInterval) : go buckets :=
  _ ← assert_ (size0 =? size);
  let '(init, last) := overlaps in
  '(ok, newW) ← TryOverlapWith last interval;
  Ok (if ok : bool then (init, newW) else (init ++ [last], interval)).

(** The loop that merges the last bucket into the first ones. *)
Fixpoint merge_front (init : list CircularInterval) (last : CircularInterval) : go buckets :=
  match init with
  | [] => Ok ([], last)
  | first :: rest =>
      '(ok, newW) ← TryOverlapWith last first;
      if ok : bool then merge_front rest newW else Ok (init, last)
  end.

(** The largest gap; the position of the window left to it is kept as the window and
    the next one. *)
Definition gap_step (size : Z) (best : Z * (CircularInterval * CircularInterval)) (p : CircularInterval * CircularInterval) :
    Z * (CircularInterval * CircularInterval) :=
  let '(w, nextW) := p in
  let gap := PositiveMod (Start nextW - Stop w) size in
  if best.1 <? gap then (gap, p) else best.

Definition SmallestCoverInterval (sort : list CircularInterval -> list CircularInterval)
    (intervals : list CircularInterval) : go CircularInterval :=
  match intervals, sort intervals with
  | i0 :: _, s0 :: rest =>
      let size := circleSize i0 in
      '(init, last) ← foldM (bucket_step (circleSize s0) size) ([], s0) rest;
      '(init, last) ← merge_front init last;
      match init with
      | [] => Ok last
      | first :: others =>
          let overlaps := init ++ [last] in
          let nexts := others ++ [last] ++ [first] in
          let '(maxGap, (w, nextW)) := foldl (gap_step size) (0, (first, default last (head others))) (zip overlaps nexts) in
          _ ← assert_ (1 <=? maxGap);
          IvalWithStartStop (Start nextW) (Stop w) size
      end
  | _, _ => Panic
  end.

(** ** The points of an interval *)

Definition ival_ok (n : Z) (c : CircularInterval) : Prop :=
  circleSize c = n /\ 0 <= istart c < n /\ 0 < IntervalLen c <= n.

Definition mem (c : CircularInterval) (p : Z) : Prop :=
  istart c <= p < istart c + IntervalLen c \/ istart c <= p + circleSize c < istart c + IntervalLen c.

Lemma PositiveMod_mod a n : 0 < n -> PositiveMod a n = a mod n.
Proof.
  intros Hn. unfold PositiveMod. pose proof (Z.rem_bound_abs a n ltac:(lia)). pose proof (Z.quot_rem' a n) as E.
  destruct (Z.ltb_spec (Z.rem a n) 0).
  - apply (Zmod_unique _ _ (Z.quot a n - 1)); lia.
  - apply (Zmod_unique _ _ (Z.quot a n)); lia.
Qed.

Lemma mod_cases a n : 0 < n -> - n <= a < 2 * n -> a mod n = if a <? 0 then a + n else if a <? n then a else a - n.
Proof.
  intros Hn Ha. destruct (Z.ltb_spec a 0); [|destruct (Z.ltb_spec a n)]; symmetry.
  - apply (Zmod_unique _ _ (-1)); lia.
  - apply (Zmod_unique _ _ 0); lia.
  - apply (Zmod_unique _ _ 1); lia.
Qed.

Lemma PositiveMod_cases a n :
  0 < n -> - n <= a < 2 * n -> PositiveMod a n = if a <? 0 then a + n else if a <? n then a else a - n.
Proof. intros. rewrite PositiveMod_mod by done. by apply mod_cases. Qed.

Lemma Stop_cases n c :
  ival_ok n c -> Stop c = if istart c + IntervalLen c <? n then istart c + IntervalLen c else istart c + IntervalLen c - n.
Proof.
  intros (<- & Hs & Hl). unfold Stop. rewrite PositiveMod_cases by lia.
  destruct (Z.ltb_spec (istart c + IntervalLen c) 0); [lia|]. done.
Qed.

(** Case analysis on the integer tests of a goal or of the context. *)
Ltac ztests :=
  repeat match goal with
  | H : context [Z.ltb ?a ?b] |- _ => destruct (Z.ltb_spec a b); try lia
  | H : context [Z.leb ?a ?b] |- _ => destruct (Z.leb_spec a b); try lia
  | |- context [Z.ltb ?a ?b] => destruct (Z.ltb_spec a b); try lia
  | |- context [Z.leb ?a ?b] => destruct (Z.leb_spec a b); try lia
  | |- context [Z.eqb ?a ?b] => destruct (Z.eqb_spec a b); try lia
  end.

Lemma IvalWithStartStop_ok a b n :
  0 <= a < n -> 0 <= b < n -> a <> b ->
  IvalWithStartStop a b n = Ok (mkInterval n a (if a <? b then b - a else b - a + n)).
Proof.
  intros Ha Hb Hab. unfold IvalWithStartStop. rewrite PositiveMod_cases by lia. unfold assert_.
  ztests; reflexivity.
Qed.

Lemma IvalWithFullLen_ok n : 0 < n -> IvalWithFullLen n = Ok (mkInterval n 0 n).
Proof. intros Hn. unfold IvalWithFullLen, assert_. by ztests. Qed.

Lemma full_mem n c p : ival_ok n c -> IsFullCircle c = true -> 0 <= p < n -> mem c p.
Proof. intros (<- & Hs & Hl) Hf%Z.eqb_eq Hp. unfold mem. lia. Qed.

(** Where [other] is, seen from the start of [c]. *)
Definition rel_start (n : Z) (c other : CircularInterval) : Z :=
  if istart other <? istart c then istart other - istart c + n else istart other - istart c.
Definition rel_stop (n : Z) (c other : CircularInterval) : Z :=
  let e := rel_start n c other + IntervalLen other in if e <? n then e else e - n.

Lemma overlap_coordinates n c other :
  ival_ok n c -> ival_ok n other -> IsFullCircle c = false ->
  PositiveMod (Stop c - Start c) n = IntervalLen c /\
  PositiveMod (Start other - Start c) n = rel_start n c other /\
  PositiveMod (Stop other - Start c) n = rel_stop n c other.
Proof.
  intros Hc Ho Hf%Z.eqb_neq. rewrite (Stop_cases n c Hc), (Stop_cases n other Ho).
  destruct Hc as (En & Hs & Hl), Ho as (En' & Ht & Hm). unfold Start, rel_stop, rel_start.
  split_and!; rewrite PositiveMod_cases by (ztests; lia); ztests; lia.
Qed.

(** [w] has the points of [c] and of [other], and starts with one of them. *)
Definition joins (n : Z) (c other w : CircularInterval) : Prop :=
  ival_ok n w /\ (forall p, 0 <= p < n -> mem w p <-> mem c p \/ mem other p) /\
  (IntervalLen w = n \/ istart w = istart c \/ istart w = istart other /\ n <= rel_start n c other + IntervalLen other).

(** [other] starts after the end of [c] and ends before its start. *)
Definition apart (n : Z) (c other : CircularInterval) : Prop :=
  IntervalLen c < rel_start n c other /\ rel_start n c other + IntervalLen other < n.

Lemma TryOverlapWith_full n c other :
  ival_ok n c -> ival_ok n other -> IsFullCircle c || IsFullCircle other = true ->
  TryOverlapWith c other = Ok (true, mkInterval n 0 n) /\ joins n c other (mkInterval n 0 n).
Proof.
  intros Hc Ho Hf. pose proof Hc as (En & Hs & Hl). pose proof Ho as (En' & _). split.
  - unfold TryOverlapWith. rewrite En, En', Z.eqb_refl, Hf. cbn [assert_ mbind outcome_bind].
    rewrite IvalWithFullLen_ok by lia. reflexivity.
  - split; [unfold ival_ok; cbn; lia|]. split; [|left; reflexivity].
    intros p Hp. split; [|intros _; unfold mem; cbn; lia]. intros _.
    apply orb_true_iff in Hf as [Hf|Hf]; [left|right]; by apply (full_mem n).
Qed.

Lemma TryOverlapWith_spec n c other :
  ival_ok n c -> ival_ok n other ->
  (exists w, TryOverlapWith c other = Ok (true, w) /\ joins n c other w) \/
  (IsFullCircle c = false /\ IsFullCircle other = false /\ TryOverlapWith c other = Ok (false, mkInterval 0 0 0) /\ apart n c other).
Proof.
  intros Hc Ho. destruct (IsFullCircle c || IsFullCircle other) eqn:Hf.
  { left. exists (mkInterval n 0 n). by apply TryOverlapWith_full. }
  apply orb_false_iff in Hf as [Hfc Hfo]. destruct (overlap_coordinates n c other Hc Ho Hfc) as (E1 & E2 & E3).
  pose proof (Stop_cases n c Hc) as Sc. pose proof (Stop_cases n other Ho) as So.
  destruct Hc as (En & Hs & Hl), Ho as (En' & Ht & Hm).
  unfold TryOverlapWith. rewrite En, En', Z.eqb_refl, Hfc, Hfo. cbn [assert_ mbind outcome_bind orb]. rewrite E1, E2, E3.
  apply Z.eqb_neq in Hfc, Hfo. set (o0 := rel_start n c other) in *. set (o1 := rel_stop n c other) in *.
  assert (istart other = istart c + o0 \/ istart other = istart c + o0 - n) as E0 by (unfold o0, rel_start; ztests).
  assert (0 <= o0 < n) as B0 by (unfold o0, rel_start; ztests).
  assert (o1 = o0 + IntervalLen other /\ o1 < n \/ o1 = o0 + IntervalLen other - n /\ 0 <= o1) as E1'
    by (unfold o1, rel_stop; fold o0; ztests).
  assert (rel_start n c other = o0) as R0 by done. clearbody o0 o1. unfold Start. clear E1 E2 E3.
  assert (Stop c = istart c + IntervalLen c /\ istart c + IntervalLen c < n \/
          Stop c = istart c + IntervalLen c - n /\ n <= istart c + IntervalLen c) as Sc' by (rewrite Sc; ztests).
  assert (Stop other = istart other + IntervalLen other /\ istart other + IntervalLen other < n \/
          Stop other = istart other + IntervalLen other - n /\ n <= istart other + IntervalLen other) as So' by (rewrite So; ztests).
  clear Sc So. unfold joins, apart. rewrite R0. clear R0. rewrite En in Hfc. rewrite En' in Hfo.
  destruct ((0 <=? o0) && (o0 <? o1) && (o1 <=? IntervalLen c)) eqn:T1.
  { left. exists c. split; [done|]. split; [unfold ival_ok; lia|]. split; [|lia]. intros p Hp. unfold mem. lia. }
  destruct ((0 <=? o1) && (o1 <? o0) && (o0 <=? IntervalLen c)) eqn:T2.
  { left. rewrite IvalWithFullLen_ok by lia. eexists. split; [reflexivity|]. split; [unfold ival_ok; cbn; lia|].
    split; [|left; reflexivity]. intros p Hp. unfold mem. cbn. lia. }
  destruct ((0 <=? o0) && (o0 <=? IntervalLen c) && (IntervalLen c <=? o1)) eqn:T3.
  { left. rewrite IvalWithStartStop_ok by lia. eexists. split; [reflexivity|].
    destruct (Z.ltb_spec (istart c) (Stop other));
      (split; [unfold ival_ok; cbn; lia|]; split; [|right; left; reflexivity]; intros p Hp; unfold mem; cbn; lia). }
  destruct ((0 <=? o1) && (o1 <=? IntervalLen c) && (IntervalLen c <? o0)) eqn:T4.
  { left. rewrite IvalWithStartStop_ok by lia. eexists. split; [reflexivity|].
    destruct (Z.ltb_spec (istart other) (Stop c));
      (split; [unfold ival_ok; cbn; lia|]; split; [|cbn; lia]; intros p Hp; unfold mem; cbn; lia). }
  destruct ((0 <=? IntervalLen c) && (IntervalLen c <=? o1) && (o1 <? o0)) eqn:T5.
  { left. exists other. split; [done|]. split; [unfold ival_ok; lia|]. split; [|lia]. intros p Hp. unfold mem. lia. }
  right. split_and!; done || lia.
Qed.

(** ** Buckets *)

Definition before (a b : CircularInterval) : Prop := istart a + IntervalLen a < istart b.

(** The points of a list of intervals. *)
Definition points (l : list CircularInterval) (p : Z) : Prop := exists c, c ∈ l /\ mem c p.

Lemma points_nil p : points [] p <-> False.
Proof. split; [|done]. intros (c & Hc & _). by apply elem_of_nil in Hc. Qed.

Lemma points_cons c l p : points (c :: l) p <-> mem c p \/ points l p.
Proof.
  unfold points. setoid_rewrite elem_of_cons. split; [intros (d & [->|Hd] & Hm); eauto|].
  intros [Hm|(d & Hd & Hm)]; eauto.
Qed.

Lemma points_app l k p : points (l ++ k) p <-> points l p \/ points k p.
Proof. unfold points. setoid_rewrite elem_of_app. naive_solver. Qed.

Lemma points_perm l k p : l ≡ₚ k -> points l p -> points k p.
Proof. intros E (c & Hc & Hm). exists c. by rewrite <- E. Qed.

(** The buckets are disjoint, sorted and do not touch; the last one may wrap around, or
    be the whole circle. *)
Record buckets_ok (n : Z) (init : list CircularInterval) (last : CircularInterval) : Prop := {
  bk_init : Forall (ival_ok n) init;
  bk_last : ival_ok n last;
  bk_sorted : StronglySorted before init;
  bk_before : IntervalLen last = n \/ Forall (fun c => before c last) init
}.

Lemma StronglySorted_snoc l (x : CircularInterval) :
  StronglySorted before l -> Forall (fun c => before c x) l -> StronglySorted before (l ++ [x]).
Proof.
  intros Hl Hx. apply StronglySorted_app. split; [|split; [done|by repeat constructor]].
  intros a b Ha ->%list_elem_of_singleton. rewrite Forall_forall in Hx. by apply Hx.
Qed.

Lemma joins_full n c other w : ival_ok n c -> joins n c other w -> IntervalLen c = n -> IntervalLen w = n.
Proof.
  intros Hc (Hw & Hp & _) Hf. destruct (decide (IntervalLen w = n)) as [|Hne]; [done|]. exfalso.
  pose proof (Stop_cases n w Hw) as Sw. destruct Hw as (En & Hws & Hwl).
  assert (0 <= Stop w < n) as Hsw by (rewrite Sw; ztests).
  assert (mem w (Stop w)) as Hm. { apply Hp; [done|]. left. apply (full_mem n); [done| |done]. apply Z.eqb_eq. by rewrite (proj1 Hc). }
  unfold mem in Hm. rewrite Sw in Hm. ztests.
Qed.

Lemma bucket_step_ok n init last x :
  buckets_ok n init last -> ival_ok n x -> IntervalLen last = n \/ istart last <= istart x ->
  exists init' last', bucket_step n n (init, last) x = Ok (init', last') /\ buckets_ok n init' last' /\
    (IntervalLen last' = n \/ istart last' <= istart x) /\
    forall p, 0 <= p < n -> points (init' ++ [last']) p <-> points (init ++ [last]) p \/ mem x p.
Proof.
  intros [Hi Hl Hs Hb] Hx Ht. unfold bucket_step. rewrite Z.eqb_refl. cbn [assert_ mbind outcome_bind].
  destruct (TryOverlapWith_spec n last x Hl Hx) as [(w & -> & Hj)|(Hf & _ & -> & Ha)]; cbn [mbind outcome_bind].
  - pose proof Hj as (Hw & Hp & Hst). exists init, w. split; [done|]. assert (IntervalLen w = n \/ Forall (fun c => before c w) init /\ istart w <= istart x) as Hw'.
    { destruct Hst as [?|Hst]; [by left|]. destruct (decide (IntervalLen last = n)) as [Hfull|Hnf].
      - left. by eapply (joins_full n last x w).
      - destruct Hb as [?|Hb]; [done|]. destruct Ht as [?|Ht]; [done|]. right. split; [|lia].
        eapply Forall_impl; [exact Hb|]. unfold before. cbn. lia. }
    split; [|split].
    + split; [done..|]. destruct Hw' as [?|[? _]]; auto.
    + destruct Hw' as [?|[_ ?]]; auto.
    + intros p Hr. rewrite !points_app, !points_cons, points_nil, Hp by done. tauto.
  - apply Z.eqb_neq in Hf. rewrite (proj1 Hl) in Hf. destruct Ht as [?|Ht]; [done|]. destruct Hb as [?|Hb]; [done|].
    exists (init ++ [last]), x. split; [done|]. assert (before last x) as Hlx.
    { unfold apart, rel_start in Ha. unfold before. ztests. }
    split; [|split; [right; lia|]].
    + split; [apply Forall_app; split; [done|by constructor]|done|by apply StronglySorted_snoc|].
      right. apply Forall_app. split; [|by constructor]. destruct Hl as (_ & _ & Hl).
      eapply Forall_impl; [exact Hb|]. unfold before in *. cbn. lia.
    + intros p Hr. rewrite !points_app, !points_cons, !points_nil. tauto.
Qed.

Lemma buckets_fold n rest init last :
  buckets_ok n init last -> Forall (ival_ok n) rest -> StronglySorted (fun a b => istart a <= istart b) rest ->
  Forall (fun x => IntervalLen last = n \/ istart last <= istart x) rest ->
  exists init' last', foldM (bucket_step n n) (init, last) rest = Ok (init', last') /\ buckets_ok n init' last' /\
    forall p, 0 <= p < n -> points (init' ++ [last']) p <-> points (init ++ [last]) p \/ points rest p.
Proof.
  revert init last. induction rest as [|x rest IH]; intros init last Hb Hok Hs Ht; cbn [foldM].
  - exists init, last. split; [done|]. split; [done|]. intros p _. rewrite points_nil. tauto.
  - apply Forall_cons in Hok as [Hx Hok]. apply StronglySorted_inv in Hs as [Hs Hx']. apply Forall_cons in Ht as [Htx Ht].
    destruct (bucket_step_ok n init last x Hb Hx Htx) as (init1 & last1 & -> & Hb1 & Ht1 & Hp1). cbn [mbind outcome_bind].
    destruct (IH init1 last1 Hb1 Hok Hs) as (init' & last' & -> & Hb' & Hp').
    { eapply Forall_impl; [exact Hx'|]. cbn. lia. }
    exists init', last'. split; [done|]. split; [done|]. intros p Hp. rewrite Hp', Hp1, points_cons by done. tauto.
Qed.

Lemma merge_front_ok n init last :
  buckets_ok n init last ->
  exists init' last', merge_front init last = Ok (init', last') /\ buckets_ok n init' last' /\
    match init' with [] => True | first :: _ => IntervalLen last' <> n /\ apart n last' first end /\
    forall p, 0 <= p < n -> points (init' ++ [last']) p <-> points (init ++ [last]) p.
Proof.
  revert last. induction init as [|x init IH]; intros last Hb; cbn [merge_front].
  - exists [], last. done.
  - destruct Hb as [Hi Hl Hs Hb]. apply Forall_cons in Hi as [Hx Hi]. apply StronglySorted_inv in Hs as [Hs Hxs].
    destruct (TryOverlapWith_spec n last x Hl Hx) as [(w & -> & Hj)|(Hf & _ & -> & Ha)]; cbn [mbind outcome_bind].
    + pose proof Hj as (Hw & Hp & Hst). destruct (IH w) as (init' & last' & -> & Hb' & Hm & Hp').
      { split; [done..|]. destruct Hst as [?|Hst]; [by left|]. destruct Hb as [Hfull|Hb].
        - left. by eapply (joins_full n last x w).
        - right. apply Forall_cons in Hb as [Hxl Hb]. assert (istart w = istart last) as E.
          { destruct Hst as [?|[_ Hn]]; [done|]. unfold rel_start in Hn. unfold before in Hxl. destruct Hx, Hl. ztests. }
          eapply Forall_impl; [exact Hb|]. unfold before. intros c. by rewrite E. }
      exists init', last'. split; [done|]. split; [done|]. split; [done|]. intros p Hr.
      rewrite Hp' by done. cbn [app]. rewrite points_cons, !points_app, !points_cons, !points_nil, Hp by done. tauto.
    + apply Z.eqb_neq in Hf. rewrite (proj1 Hl) in Hf. exists (x :: init), last. split; [done|].
      split; [|split; [done|done]]. split; [by constructor|done|by constructor|done].
Qed.

(** ** The largest gap *)

Definition gap (n : Z) (p : CircularInterval * CircularInterval) : Z := PositiveMod (Start p.2 - Stop p.1) n.

Lemma gap_fold n pairs best :
  let r := foldl (gap_step n) best pairs in
  best.1 <= r.1 /\ Forall (fun p => gap n p <= r.1) pairs /\ (r = best \/ r.2 ∈ pairs /\ r.1 = gap n r.2).
Proof.
  revert best. induction pairs as [|p pairs IH]; intros best; cbn [foldl].
  - cbn. split; [lia|]. split; [done|]. by left.
  - specialize (IH (gap_step n best p)). cbn in IH. destruct IH as (H1 & H2 & H3).
    assert (gap_step n best p = (gap n p, p) /\ best.1 < gap n p \/ gap_step n best p = best /\ gap n p <= best.1) as Hc.
    { unfold gap_step, gap. destruct p as [w nw]. cbn [fst snd]. destruct (Z.ltb_spec best.1 (PositiveMod (Start nw - Stop w) n)); auto. }
    destruct Hc as [[E Hlt]|[E Hle]]; rewrite E in *; cbn [fst snd] in *.
    + split; [lia|]. split; [constructor; [lia|done]|]. right. destruct H3 as [->|[H3 ->]]; cbn [fst snd]; split; try done; [left|by right].
    + split; [lia|]. split; [constructor; [lia|done]|]. destruct H3 as [->|[H3 ->]]; [by left|right; split; [by right|done]].
Qed.

(** The consecutive elements of a list, and its last element with [y]. *)
Lemma zip_next {A} (x : A) l y a b :
  (a, b) ∈ zip (x :: l) (l ++ [y]) <-> (exists pre post, x :: l = pre ++ a :: b :: post) \/ (b = y /\ last (x :: l) = Some a).
Proof.
  revert x. induction l as [|z l IH]; intros x.
  - cbn [app zip zip_with]. rewrite list_elem_of_singleton. split.
    + intros [= -> ->]. by right.
    + intros [(pre & post & E)|[-> [= ->]]]; [|done]. by destruct pre as [|? [|? ?]].
  - change (zip (x :: z :: l) ((z :: l) ++ [y])) with ((x, z) :: zip (z :: l) (l ++ [y])). rewrite elem_of_cons, IH. split.
    + intros [[= -> ->]|[(pre & post & E)|[-> E]]]; [by left; exists [], l|left; exists (x :: pre), post; by rewrite E|by right].
    + intros [(pre & post & E)|[-> E]]; [|by right; right]. destruct pre as [|x' pre]; cbn [app] in E.
      * injection E as -> -> _. by left.
      * injection E as -> E. right. left. by exists pre, post.
Qed.

(** Buckets of which the last one does not reach the first one. *)
Record ring_ok (n : Z) (first last : CircularInterval) (bs : list CircularInterval) : Prop := {
  rg_ok : Forall (ival_ok n) bs;
  rg_sorted : StronglySorted before bs;
  rg_first : head bs = Some first;
  rg_last : list.last bs = Some last;
  rg_apart : istart last + IntervalLen last < istart first + n
}.

Lemma split_starts (bs : list CircularInterval) (e : Z) :
  StronglySorted before bs -> (forall b, b ∈ bs -> exists n, ival_ok n b) ->
  exists pre post, bs = pre ++ post /\ Forall (fun b => istart b <= e) pre /\ Forall (fun b => e < istart b) post.
Proof.
  intros Hs Hok. induction Hs as [|x bs Hs IH Hx]; [by exists [], []|].
  destruct IH as (pre & post & -> & Hpre & Hpost); [intros b Hb; apply Hok; by right|].
  destruct (Z.le_gt_cases (istart x) e) as [Hle|Hgt].
  - exists (x :: pre), post. split; [done|]. split; [by constructor|done].
  - exists [], (x :: pre ++ post). split; [done|]. split; [done|]. constructor; [lia|].
    destruct (Hok x) as (n & _ & _ & Hl); [left|]. eapply Forall_impl; [exact Hx|]. unfold before. cbn. lia.
Qed.

Section Ring.
Context (n : Z) (first last : CircularInterval) (bs : list CircularInterval) (R : ring_ok n first last bs).

Lemma ring_elem b : b ∈ bs -> ival_ok n b.
Proof using R. intros Hb. pose proof (rg_ok _ _ _ _ R) as H. rewrite Forall_forall in H. by apply H. Qed.

Lemma ring_head : exists l, bs = first :: l.
Proof using R. pose proof (rg_first _ _ _ _ R) as Hf. clear R. destruct bs as [|x l]; [done|]. injection Hf as ->. by exists l. Qed.

Lemma ring_first b : b ∈ bs -> istart first <= istart b.
Proof using R.
  intros Hb. pose proof (rg_sorted _ _ _ _ R) as Hs. destruct ring_head as (l & E).
  destruct (ring_elem first) as (_ & _ & Hl); [rewrite E; left|]. rewrite E in Hb, Hs.
  apply elem_of_cons in Hb as [->|Hb]; [lia|]. apply StronglySorted_inv in Hs as [_ Hs].
  rewrite Forall_forall in Hs. specialize (Hs b Hb). unfold before in Hs. lia.
Qed.

Lemma ring_last b : b ∈ bs -> istart b + IntervalLen b <= istart last + IntervalLen last.
Proof using R.
  intros Hb. pose proof (rg_sorted _ _ _ _ R) as Hs. pose proof (rg_last _ _ _ _ R) as Hl.
  apply last_Some in Hl as (l & E). rewrite E in Hb, Hs. apply elem_of_app in Hb as [Hb|Hb]; [|apply list_elem_of_singleton in Hb as ->; lia].
  apply StronglySorted_app in Hs as (Hs & _). specialize (Hs b last Hb ltac:(by left)). unfold before in Hs.
  destruct (ring_elem last) as (_ & _ & Hk); [rewrite E; apply elem_of_app; right; by left|]. lia.
Qed.

(** The two ends of a gap. *)
Inductive neighbours (w nw : CircularInterval) : Prop :=
| nb_next pre post : bs = pre ++ w :: nw :: post -> neighbours w nw
| nb_wrap : w = last -> nw = first -> neighbours w nw.

Lemma neighbours_in w nw : neighbours w nw -> w ∈ bs /\ nw ∈ bs.
Proof using R.
  intros [pre post E| -> ->]; [rewrite E; set_solver|]. pose proof (rg_last _ _ _ _ R) as Hl. apply last_Some in Hl as (l & E).
  split; [rewrite E; set_solver|]. destruct ring_head as (l' & ->). left.
Qed.

Lemma neighbours_gap w nw :
  neighbours w nw ->
  before w nw /\ gap n (w, nw) = istart nw - (istart w + IntervalLen w) \/
  w = last /\ nw = first /\ gap n (w, nw) = istart nw + n - (istart w + IntervalLen w).
Proof using R.
  intros Hn. destruct (neighbours_in w nw Hn) as [Hw Hnw]. pose proof (ring_elem w Hw) as Ow. pose proof (ring_elem nw Hnw) as Onw.
  unfold gap. cbn [fst snd]. rewrite (Stop_cases n w Ow). destruct Ow as (_ & Hs & Hl), Onw as (_ & Hs' & Hl'). unfold Start.
  destruct Hn as [pre post E| -> ->].
  - left. pose proof (rg_sorted _ _ _ _ R) as S. rewrite E in S. apply StronglySorted_app in S as (_ & _ & S).
    apply StronglySorted_inv in S as [_ S]. apply Forall_cons in S as [Hb _]. split; [done|]. unfold before in Hb.
    rewrite PositiveMod_cases by (ztests; lia). ztests.
  - right. split; [done|]. split; [done|]. pose proof (rg_apart _ _ _ _ R). pose proof (ring_first last Hw).
    rewrite PositiveMod_cases by (ztests; lia). ztests.
Qed.

Lemma neighbours_cover w nw :
  neighbours w nw ->
  exists c, IvalWithStartStop (Start nw) (Stop w) n = Ok c /\ ival_ok n c /\ IntervalLen c = n - gap n (w, nw) /\
    forall b p, b ∈ bs -> 0 <= p < n -> mem b p -> mem c p.
Proof using R.
  intros Hn. destruct (neighbours_in w nw Hn) as [Hw Hnw]. pose proof (ring_elem w Hw) as Ow. pose proof (ring_elem nw Hnw) as Onw.
  pose proof (rg_apart _ _ _ _ R) as Ha. pose proof (ring_first nw Hnw). pose proof (ring_first w Hw). pose proof (ring_last w Hw). pose proof (neighbours_gap w nw Hn) as Hg.
  assert (istart w + IntervalLen w < istart nw /\ gap n (w, nw) = istart nw - (istart w + IntervalLen w) \/
          istart nw < istart w + IntervalLen w < istart nw + n /\ gap n (w, nw) = istart nw + n - (istart w + IntervalLen w)) as Hg'.
  { destruct Ow as (_ & Hs & Hl). destruct Hg as [[Hg Eg]|(-> & -> & Eg)]; [by left|right; lia]. }
  clear Hg.
  assert (0 <= Stop w < n /\ Stop w <> Start nw) as [Bs Ns].
  { rewrite (Stop_cases n w Ow). destruct Ow as (_ & Hs & Hl), Onw as (_ & Hs' & Hl'). unfold Start, before in *. ztests. }
  rewrite IvalWithStartStop_ok by (destruct Onw; unfold Start in *; lia). eexists. split; [reflexivity|].
  rewrite (Stop_cases n w Ow) in *. destruct Ow as (_ & Hs & Hl), Onw as (_ & Hs' & Hl'). unfold Start, before in *.
  split; [unfold ival_ok; cbn; ztests|]. split; [cbn; ztests|].
  intros b p Hb Hp Hm. pose proof (ring_first b Hb). pose proof (ring_last b Hb). destruct (ring_elem b Hb) as (Eb & Bb & Lb).
  assert ((istart b + IntervalLen b <= istart w + IntervalLen w \/ istart nw <= istart b) /\ istart w + IntervalLen w < istart nw \/
          istart b + IntervalLen b <= istart w + IntervalLen w /\ istart nw <= istart b) as Hside.
  { destruct Hn as [pre post E| -> ->]; [left|lia]. pose proof (rg_sorted _ _ _ _ R) as S. rewrite E in S, Hb.
    apply StronglySorted_app in S as (Hpre & _ & S). apply StronglySorted_inv in S as [S Hwn]. apply StronglySorted_inv in S as [_ S].
    apply Forall_cons in Hwn as [Hwn _]. unfold before in Hwn. rewrite Forall_forall in S. apply elem_of_app in Hb as [Hb|[-> | [-> | Hb]%elem_of_cons]%elem_of_cons].
    - specialize (Hpre b w Hb ltac:(by left)). unfold before in Hpre. lia.
    - lia.
    - lia.
    - specialize (S b Hb). unfold before in S. lia. }
  unfold mem in *. cbn. rewrite Eb in Hm. ztests.
Qed.

Lemma ring_gap_fits d :
  ival_ok n d -> IntervalLen d < n -> (forall p, 0 <= p < n -> points bs p -> mem d p) ->
  exists w nw, neighbours w nw /\ n - IntervalLen d <= gap n (w, nw).
Proof using R.
  intros Hd Hlt Hp. pose proof (Stop_cases n d Hd) as Sd. destruct Hd as (En & Hs & Hl).
  set (e := Stop d) in *. assert (0 <= e < n) as He by (rewrite Sd; ztests).
  assert (forall b, b ∈ bs -> mem b (istart b)) as Hstart.
  { intros b Hb. destruct (ring_elem b Hb) as (_ & _ & Hlb). unfold mem. lia. }
  assert (forall b p, b ∈ bs -> 0 <= p < n -> mem b p -> mem d p) as Hin by (intros b p Hb Hr Hm; apply Hp; [done|]; by exists b).
  assert (forall b, b ∈ bs -> ~ (e <= istart b < e + (n - IntervalLen d)) /\ ~ (e <= istart b + n < e + (n - IntervalLen d))) as Hout.
  { intros b Hb. destruct (ring_elem b Hb) as (_ & Hbs & _). pose proof (Hin b (istart b) Hb Hbs (Hstart b Hb)) as Hm. unfold mem in Hm. ztests. }
  assert (forall b, b ∈ bs -> ~ mem b e) as Hnot.
  { intros b Hb Hm. specialize (Hin b e Hb He Hm). unfold mem in Hin. ztests. }
  destruct (split_starts bs e (rg_sorted _ _ _ _ R)) as (pre & post & E & Hpre & Hpost).
  { intros b Hb. exists n. by apply ring_elem. }
  pose proof (rg_last _ _ _ _ R) as Elast. destruct ring_head as (l & Ehead).
  assert (first ∈ bs) as Hfi by (rewrite Ehead; left).
  assert (last ∈ bs) as Hla by (apply last_Some in Elast as (l' & ->); set_solver).
  destruct pre as [|a pre _] using rev_ind; [|destruct post as [|b post]].
  - exists last, first. split; [by apply nb_wrap|]. destruct (neighbours_gap last first) as [[Hb _]|(_ & _ & ->)]; [by apply nb_wrap| |].
    { pose proof (ring_first last Hla). destruct (ring_elem last Hla). unfold before in Hb. lia. }
    rewrite Forall_forall in Hpost. cbn [app] in E. rewrite <- E in Hpost. pose proof (Hpost first Hfi). pose proof (Hpost last Hla).
    pose proof (Hout first Hfi). pose proof (Hnot last Hla) as Hn. unfold mem in Hn. destruct (ring_elem last Hla) as (Ec & ? & ?). destruct (ring_elem first Hfi) as (_ & ? & ?). lia.
  - exists last, first. split; [by apply nb_wrap|]. destruct (neighbours_gap last first) as [[Hb _]|(_ & _ & ->)]; [by apply nb_wrap| |].
    { pose proof (ring_first last Hla). destruct (ring_elem last Hla). unfold before in Hb. lia. }
    rewrite app_nil_r in E. rewrite Forall_forall in Hpre. rewrite <- E in Hpre. pose proof (Hpre first Hfi). pose proof (Hpre last Hla).
    pose proof (Hout first Hfi). pose proof (Hnot last Hla) as Hn. unfold mem in Hn. destruct (ring_elem last Hla) as (Ec & ? & ?). destruct (ring_elem first Hfi) as (_ & ? & ?). lia.
  - exists a, b. rewrite <- app_assoc in E. cbn [app] in E. assert (neighbours a b) as Hn by (by eapply nb_next).
    split; [done|]. destruct (neighbours_in a b Hn) as [Ha Hb]. apply Forall_app in Hpre as [_ Hpre]. apply Forall_cons in Hpre as [Hpa _].
    apply Forall_cons in Hpost as [Hpb _]. pose proof (Hout b Hb). pose proof (Hnot a Ha) as Hna. unfold mem in Hna.
    destruct (neighbours_gap a b Hn) as [[Hab ->]|(-> & -> & ->)]; [lia|]. pose proof (ring_first last Hla). lia.
Qed.
End Ring.

(** ** The smallest cover *)

(** What is required of the sort. *)
Definition sorts_starts (sort : list CircularInterval -> list CircularInterval) : Prop :=
  forall l, sort l ≡ₚ l /\ StronglySorted (fun a b => Start a <= Start b) (sort l).

Lemma subset_length n c d :
  ival_ok n c -> ival_ok n d -> (forall p, 0 <= p < n -> mem c p -> mem d p) -> IntervalLen c <= IntervalLen d.
Proof.
  intros Hc Hd Hp. pose proof (Stop_cases n d Hd) as Sd. destruct Hc as (Ec & Hs & Hl), Hd as (Ed & Hs' & Hl').
  destruct (decide (IntervalLen d = n)) as [|Hne]; [lia|]. assert (0 <= Stop d < n) as Hsd by (rewrite Sd; ztests).
  pose proof (Hp (istart c) Hs) as H1. pose proof (Hp (Stop d) Hsd) as H2. unfold mem in *. rewrite Ec, Ed in *.
  assert (istart d <= istart c < istart d + IntervalLen d \/ istart d <= istart c + n < istart d + IntervalLen d) as H1' by (apply H1; lia).
  assert (~ (istart c <= Stop d < istart c + IntervalLen c \/ istart c <= Stop d + n < istart c + IntervalLen c)) as H2'.
  { intros H. specialize (H2 H). rewrite Sd in H2. ztests. }
  rewrite Sd in H2'. ztests.
Qed.

Lemma cover_of_ring n first others last :
  ring_ok n first last (first :: others ++ [last]) ->
  exists c, (let '(maxGap, (w, nextW)) := foldl (gap_step n) (0, (first, default last (head others)))
                  (zip ((first :: others) ++ [last]) (others ++ [last] ++ [first])) in
             _ ← assert_ (1 <=? maxGap); IvalWithStartStop (Start nextW) (Stop w) n) = Ok c /\ ival_ok n c /\
    (forall p, 0 <= p < n -> points (first :: others ++ [last]) p -> mem c p) /\
    forall d, ival_ok n d -> (forall p, 0 <= p < n -> points (first :: others ++ [last]) p -> mem d p) -> IntervalLen c <= IntervalLen d.
Proof.
  intros R. set (bs := first :: others ++ [last]) in *. set (pairs := zip _ _). set (best := (0, _)).
  assert (forall w nw, (w, nw) ∈ pairs <-> neighbours first last bs w nw) as Hpairs.
  { intros w nw. unfold pairs. rewrite app_assoc. change ((first :: others) ++ [last]) with (first :: (others ++ [last])).
    rewrite zip_next. fold bs. split.
    - intros [(pre & post & E)|[-> E]]; [by eapply nb_next|]. apply nb_wrap; [|done].
      pose proof (rg_last _ _ _ _ R) as E'. unfold bs in E, E'. rewrite E in E'. by injection E'.
    - intros [pre post E| -> ->]; [left; by exists pre, post|right]. split; [done|]. apply (rg_last _ _ _ _ R). }
  pose proof (gap_fold n pairs best) as Hg. cbn [fst best] in Hg. destruct (foldl (gap_step n) best pairs) as [mg [w nw]] eqn:Ef.
  cbn [fst snd] in Hg. destruct Hg as (H0 & Hall & Hor). rewrite Forall_forall in Hall.
  assert (neighbours first last bs last first) as Hlf by (by apply nb_wrap).
  pose proof (Hall (last, first) (proj2 (Hpairs last first) Hlf)) as Hge.
  assert (1 <= mg) as Hmg.
  { destruct (neighbours_in n first last bs R _ _ Hlf) as [Hla Hfi]. destruct (ring_elem n first last bs R last Hla) as (_ & _ & Hl).
    pose proof (ring_first n first last bs R last Hla).
    destruct (neighbours_gap n first last bs R _ _ Hlf) as [[Hb _]|(_ & _ & Eg)]; [unfold before in Hb; lia|].
    pose proof (rg_apart _ _ _ _ R). lia. }
  destruct Hor as [E|[Hin Emg]]; [unfold best in E; injection E as E; lia|]. apply Hpairs in Hin.
  unfold assert_. destruct (Z.leb_spec 1 mg); [|lia]. cbn [mbind outcome_bind].
  destruct (neighbours_cover n first last bs R w nw Hin) as (c & Hc & Hok & Hlen & Hcov). exists c. split; [done|]. split; [done|]. split.
  - intros p Hp (b & Hb & Hm). by apply (Hcov b p).
  - intros d Hd Hp. destruct (decide (IntervalLen d = n)) as [->|Hne]; [destruct Hok; lia|].
    destruct (ring_gap_fits n first last bs R d Hd) as (w' & nw' & Hn' & Hfit); [destruct Hd; lia|done|].
    pose proof (Hall (w', nw') (proj2 (Hpairs w' nw') Hn')). lia.
Qed.

Lemma cover_spec sort n l :
  sorts_starts sort -> l <> [] -> Forall (ival_ok n) l ->
  exists c, SmallestCoverInterval sort l = Ok c /\ ival_ok n c /\
    (forall i p, i ∈ l -> 0 <= p < n -> mem i p -> mem c p) /\
    forall d, ival_ok n d -> (forall i p, i ∈ l -> 0 <= p < n -> mem i p -> mem d p) -> IntervalLen c <= IntervalLen d.
Proof.
  intros Hsort Hne Hok. destruct (Hsort l) as [Hperm Hs]. destruct l as [|i0 l0]; [done|]. unfold SmallestCoverInterval.
  destruct (sort (i0 :: l0)) as [|s0 rest]; [by apply Permutation_nil_cons in Hperm|].
  pose proof Hok as Hok'. rewrite <- Hperm in Hok'. apply Forall_cons in Hok as [(-> & _) _]. apply Forall_cons in Hok' as [Hs0 Hrest].
  rewrite (proj1 Hs0). apply StronglySorted_inv in Hs as [Hs Hs0'].
  destruct (buckets_fold n rest [] s0) as (init & last & -> & Hb & Hp).
  { split; [constructor|done|constructor|right; constructor]. }
  { done. }
  { done. }
  { eapply Forall_impl; [exact Hs0'|]. intros x Hx. by right. }
  cbn [mbind outcome_bind]. destruct (merge_front_ok n init last Hb) as (init' & last' & -> & Hb' & Ha & Hp'). cbn [mbind outcome_bind].
  assert (forall p, 0 <= p < n -> points (i0 :: l0) p <-> points (init' ++ [last']) p) as Hpts.
  { intros p Hr. rewrite Hp', Hp by done. cbn [app]. rewrite (points_cons s0 []), points_nil.
    transitivity (points (s0 :: rest) p); [split; apply points_perm; [by symmetry|done]|]. rewrite points_cons. tauto. }
  destruct Hb' as [Hi Hl Hsort' Hbef]. destruct init' as [|first others].
  - exists last'. split; [done|]. split; [done|]. split.
    + intros i p Hi' Hr Hm. assert (points (i0 :: l0) p) as Hq by (by exists i). apply Hpts in Hq; [|done]. cbn [app] in Hq.
      rewrite points_cons, points_nil in Hq. tauto.
    + intros d Hd Hcov. apply (subset_length n); [done..|]. intros p Hr Hm.
      destruct (proj2 (Hpts p Hr)) as (i & Hin & Hmi); [cbn [app]; rewrite points_cons; by left|]. by apply (Hcov i).
  - destruct Ha as [Hnf Ha]. destruct Hbef as [?|Hbef]; [done|].
    destruct (cover_of_ring n first others last') as (c & Hc & Hcok & Hcov & Hmin).
    { split; [|by apply (StronglySorted_snoc (first :: others))|done|exact (last_snoc last' (first :: others))|].
      - rewrite app_comm_cons. apply Forall_app. split; [done|by constructor].
      - apply Forall_cons in Hbef as [Hfl _]. unfold apart, rel_start in Ha. unfold before in Hfl. apply Forall_cons in Hi as [Hf _].
        destruct Hf. ztests. }
    exists c. split; [exact Hc|]. split; [done|]. split.
    + intros i p Hi' Hr Hm. apply Hcov; [done|]. apply (Hpts p Hr). by exists i.
    + intros d Hd Hdcov. apply Hmin; [done|]. intros p Hr Hq. apply (Hpts p Hr) in Hq as (i & Hin & Hmi). by apply (Hdcov i).
Qed.

(** Where an interval is in a cover of it. *)
Lemma cover_relative n c w :
  ival_ok n c -> ival_ok n w -> IntervalLen c < n -> (forall p, 0 <= p < n -> mem w p -> mem c p) ->
  (istart w - istart c) mod n + IntervalLen w <= IntervalLen c.
Proof.
  intros Hc Hw Hlt Hsub. pose proof (Stop_cases n c Hc) as Sc. destruct Hc as (Ec & Hs & Hl), Hw as (Ew & Ht & Hm).
  assert (0 <= Stop c < n) as Bs by (rewrite Sc; ztests).
  assert (mem c (istart w)) as H1 by (apply Hsub; [done|unfold mem; lia]).
  assert (~ mem w (Stop c)) as H2. { intros H2%Hsub; [|done]. unfold mem in H2. rewrite Sc in H2. ztests. }
  unfold mem in *. rewrite Ec, Ew, Sc in *. rewrite mod_cases by lia. ztests.
Qed.

(** C29.  [SmallestCoverInterval] does not panic on intervals of one circle and returns
    the smallest interval that covers them: it contains every point of every interval,
    and no interval that contains them all is shorter. *)
Theorem SmallestCoverInterval_smallest sort n l :
  sorts_starts sort -> l <> [] -> Forall (ival_ok n) l ->
  exists c, SmallestCoverInterval sort l = Ok c /\ ival_ok n c /\
    (forall i p, i ∈ l -> 0 <= p < n -> mem i p -> mem c p) /\
    forall d, ival_ok n d -> (forall i p, i ∈ l -> 0 <= p < n -> mem i p -> mem d p) -> IntervalLen c <= IntervalLen d.
Proof. apply cover_spec. Qed.

(** ** Membership and inclusion *)

Lemma DoesInclude_mem n c p :
  ival_ok n c -> 0 <= p < n -> exists b, DoesInclude c p = Ok b /\ (b = true <-> mem c p).
Proof.
  intros Hc Hp. pose proof (Stop_cases n c Hc) as Sc. destruct Hc as (En & Hs & Hl).
  unfold DoesInclude, IsFullCircle, DoesWrapAround, Start, assert_, mem. rewrite En, Sc.
  replace ((0 <=? p) && (p <=? n)) with true by lia. cbn [mbind outcome_bind].
  destruct (Z.eqb_spec (IntervalLen c) n); [exists true; split; [done|lia]|].
  destruct (istart c + IntervalLen c <? n) eqn:E1.
  - replace (istart c + IntervalLen c <? istart c) with false by lia. eexists. split; [done|]. lia.
  - replace (istart c + IntervalLen c - n <? istart c) with true by lia. eexists. split; [done|]. lia.
Qed.

(** An interval is inside another one when its start is, and it does not go over the end
    of the other one. *)
Lemma subset_points n c other :
  ival_ok n c -> ival_ok n other -> IntervalLen c <> n ->
  (forall p, 0 <= p < n -> mem other p -> mem c p) <-> mem c (istart other) /\ ~ mem other (Stop c).
Proof.
  intros Hc Ho Hf. pose proof (Stop_cases n c Hc) as Sc. destruct Hc as (Ec & Hs & Hl), Ho as (Eo & Ht & Hm).
  assert (0 <= Stop c < n) as Hsc by (rewrite Sc; ztests). unfold mem. rewrite Ec, Eo. split.
  - intros H. split; [apply H; lia|]. intros H'. apply H in H'; [|done]. rewrite Sc in H'. ztests.
  - intros [H1 H2] p Hp H3. rewrite Sc in H2. ztests.
Qed.

(** The inclusion test is right, except that it panics when an interval that ends with
    the circle starts inside one that does not reach the end. *)
Theorem DoesFullyContain_exact n c other :
  ival_ok n c -> ival_ok n other ->
  if negb (IsFullCircle other) && (Stop other =? 0) && (istart c <=? istart other) && (istart other <? istart c + IntervalLen c)
     && (istart c + IntervalLen c <? n)
  then DoesFullyContain c other = Panic
  else exists b, DoesFullyContain c other = Ok b /\ (b = true <-> forall p, 0 <= p < n -> mem other p -> mem c p).
Proof.
  intros Hc Ho. unfold DoesFullyContain. destruct (IsFullCircle c) eqn:Hfc.
  { assert (IntervalLen c = n) as E by (apply Z.eqb_eq in Hfc; by rewrite <- (proj1 Hc)). destruct Hc as (Ec & ? & ?).
    replace (_ && (istart c + IntervalLen c <? n)) with false by lia. exists true. split; [done|]. split; [|done].
    intros _ p Hp _. unfold mem. lia. }
  apply Z.eqb_neq in Hfc. rewrite (proj1 Hc) in Hfc. pose proof (Stop_cases n c Hc) as Sc. pose proof (Stop_cases n other Ho) as So.
  destruct (IsFullCircle other) eqn:Hfo.
  { apply Z.eqb_eq in Hfo. rewrite (proj1 Ho) in Hfo. cbn [negb andb]. exists false. split; [done|]. split; [done|]. intros H.
    apply (subset_length n) in H; [|done..]. destruct Hc. lia. }
  apply Z.eqb_neq in Hfo. rewrite (proj1 Ho) in Hfo. cbn [negb andb].
  pose proof (subset_points n c other Hc Ho Hfc) as Hsub.
  destruct (DoesWrapAround c) eqn:Hw; cbn [negb].
  - assert (n <= istart c + IntervalLen c) as Hwc by (unfold DoesWrapAround, Start in Hw; destruct Hc as (_ & ? & ?); rewrite Sc in Hw; ztests).
    replace (_ && (istart c + IntervalLen c <? n)) with false by lia.
    match goal with |- exists b, ?x = Ok b /\ _ => assert (exists b, x = Ok b /\ (b = true <-> mem c (istart other) /\ ~ mem other (Stop c))) as (b & -> & Hb) end;
      [|exists b; split; [done|]; by rewrite Hb].
    unfold DoesWrapAround, Start, mem in *. destruct Hc as (Ec & Hs & Hl), Ho as (Eo & Ht & Hm). rewrite Sc, So, Ec, Eo in *.
    clear Hsub. ztests; cbn [andb negb]; eexists; (split; [reflexivity|]); lia.
  - assert (istart c + IntervalLen c < n) as Hwc by (unfold DoesWrapAround, Start in Hw; destruct Hc as (_ & ? & ?); rewrite Sc in Hw; ztests).
    destruct (DoesInclude_mem n c (istart other) Hc) as (b1 & E1 & H1); [apply Ho|]. change (Start other) with (istart other). rewrite E1. unfold and_then.
    cbn [mbind outcome_bind]. unfold mem in H1. destruct b1.
    + assert (istart c <= istart other < istart c + IntervalLen c) as Hin.
      { destruct (proj1 H1 eq_refl) as [?|H]; [done|]. destruct Hc as (Ec & ? & ?), Ho as (_ & ? & _). lia. }
      destruct (Z.eqb_spec (Stop other) 0) as [E0|E0].
      * replace (_ && (istart c + IntervalLen c <? n)) with true by lia. unfold DoesInclude at 1. by rewrite E0.
      * cbn [andb]. assert (0 <= Stop other - 1 < n) as Hr by (destruct Ho as (_ & ? & ?); rewrite So in *; ztests).
        destruct (DoesInclude_mem n c _ Hc Hr) as (b2 & E2 & H2). rewrite E2. cbn [mbind outcome_bind].
        exists (b2 && negb (DoesWrapAround other)). split; [by destruct b2|]. rewrite Hsub, andb_true_iff, H2.
        unfold DoesWrapAround, Start, mem in *. destruct Hc as (Ec & Hs & Hl), Ho as (Eo & Ht & Hm). rewrite Sc, So, Ec, Eo in *. clear Hsub H2 E2 E1 H1.
        ztests; cbn [negb]; lia.
    + assert (~ (istart c <= istart other < istart c + IntervalLen c)) as Hout by (intros ?; assert (false = true) by (apply H1; by left); done).
      replace (_ && (istart c + IntervalLen c <? n)) with false by lia. exists false. split; [done|]. rewrite Hsub. split; [done|].
      intros [Hm _]. unfold mem in Hm. assert (false = true) by (by apply H1). done.
Qed.

(** ** Witnesses *)

Definition demo_intervals : list CircularInterval := [mkInterval 10 8 4; mkInterval 10 5 1; mkInterval 10 1 2].

Lemma sort_stable_starts : sorts_starts (sort_stable istart).
Proof. intros l. split; [apply sort_stable_perm|apply sort_stable_sorted]. Qed.

Lemma SmallestCoverInterval_smallest_witness :
  exists c, SmallestCoverInterval (sort_stable istart) demo_intervals = Ok c /\ mem c 5 /\ mem c 9 /\ mem c 1.
Proof.
  destruct (SmallestCoverInterval_smallest (sort_stable istart) 10 demo_intervals) as (c & Hc & _ & Hm & _).
  - exact sort_stable_starts.
  - discriminate.
  - repeat (apply Forall_cons; split; [unfold ival_ok; cbn; lia|]). apply Forall_nil. done.
  - exists c. split; [exact Hc|]. split; [|split]; (eapply Hm; [|lia|]);
      [right; left|unfold mem; cbn; lia|left|unfold mem; cbn; lia|right; right; left|unfold mem; cbn; lia].
Defined.

Example demo_cover : SmallestCoverInterval (sort_stable istart) demo_intervals = Ok (mkInterval 10 8 8).
Proof. reflexivity. Qed.

Example inclusion_panics : DoesFullyContain (mkInterval 10 2 7) (mkInterval 10 5 5) = Panic.
Proof. reflexivity. Qed.
