(* ===== verification/SmartVectors.v ===== *)
(** Smart vectors: [prover/maths/common/smartvectors], files [smartvectors.go],
    [regular.go], [constant.go], [rotated.go], [windowed.go] and [vecutil.go].

    A smart vector is a vector of field elements in one of four representations: an
    ordinary slice, a constant, a slice read from an offset, or a window on a circle
    filled with a padding value.  The file models the constructors, the accessors, the
    extraction of a subvector, the rotations, the writing into a slice, the search for
    a smaller representation and the compact forms.  The specification is the function
    [at_ v] from positions to elements that a vector stands for; [represents] says that
    a vector is well formed and stands for a given function.

    The elements are of any type with a zero.  The types with the suffix [Ext] repeat the
    reading and slicing code for elements of the extension; the evaluation of symbolic
    expressions uses these definitions at both types.  Slices are lists: the code does not write into a vector after it
    has been made.  Slicing is bounded by the length, the positions of a slice beyond
    its length being of no use here.  Positions are [int]s: the sums that involve an
    argument of the caller wrap around, the ones of two positions of a vector are
    exact, since a vector has at most [max_len] elements. *)
From S2P Require Import Prelude SvIntervals.
From Stdlib Require Import ZifyBool.

(** ** Slices *)

Definition zlen {A} (l : list A) : Z := Z.of_nat (length l).

Definition index {A} (l : list A) (i : Z) : go A := if 0 <=? i then unwrap (l !! Z.to_nat i) else Panic.

Definition slice {A} (l : list A) (a b : Z) : go (list A) :=
  if (0 <=? a) && (a <=? b) && (b <=? zlen l) then Ok (take (Z.to_nat (b - a)) (drop (Z.to_nat a) l)) else Panic.

Definition set_index {A} (l : list A) (i : Z) (x : A) : go (list A) :=
  if (0 <=? i) && (i <? zlen l) then Ok (<[Z.to_nat i := x]> l) else Panic.

(** [copy(dst, src)]. *)
Definition copy {A} (dst src : list A) : list A := take (length dst) src ++ drop (length src) dst.

Definition assertCorrectBound (pos length : Z) : go unit := assert_ (negb (length <=? pos)).
Definition assertHasLength (a b : Z) : go unit := assert_ (a =? b).
Definition assertStrictPositiveLen (l : Z) : go unit := assert_ (negb (l =? 0) && negb (l <=? 0)).

(** The positions from [a] to [b], as a loop visits them. *)
Definition range (a b : Z) : list Z := seqZ a (b - a).

Definition normalize (x newRef mod_ : Z) : Z := PositiveMod (x - newRef) mod_.

Section Vectors.
Context {F : Type} (zero : F) `{EqDecision F}.

(** ** Representations *)

Record Constant := mkConstant { Value : F; Length : Z }.
Record Rotated := mkRotated { r_v : list F; r_offset : Z }.
Record PaddedCircularWindow := mkWindow { Window_ : list F; PaddingVal_ : F; TotLen_ : Z; Offset_ : Z }.

Inductive SmartVector :=
| SConstant (c : Constant)
| SRegular (r : list F)
| SRotated (r : Rotated)
| SWindow (p : PaddedCircularWindow).

Definition NewConstant (val : F) (length : Z) : go Constant :=
  _ ← assert_ (negb (length <=? 0));
  Ok (mkConstant val length).

Definition NewRegular (v : list F) : go (list F) :=
  _ ← assertStrictPositiveLen (zlen v);
  Ok v.

Definition NewRotated (reg : list F) (offset : Z) : go Rotated :=
  _ ← assert_ (negb (zlen reg =? 0));
  _ ← assert_ (negb ((offset <? 0) && (zlen reg <? i64 (- offset))));
  _ ← assert_ (negb (zlen reg <? offset));
  Ok (mkRotated reg offset).

Definition NewPaddedCircularWindow (window : list F) (paddingVal : F) (offset totLen : Z) : go PaddedCircularWindow :=
  _ ← assert_ (negb (totLen <? zlen window));
  _ ← assert_ (negb (zlen window =? totLen));
  _ ← assert_ (negb (zlen window =? 0));
  Ok (mkWindow window paddingVal totLen (PositiveMod offset totLen)).

Definition Len (v : SmartVector) : Z :=
  match v with
  | SConstant c => Length c
  | SRegular r => zlen r
  | SRotated r => zlen (r_v r)
  | SWindow p => TotLen_ p
  end.

(** ** Accessors *)

Definition Get (v : SmartVector) (n : Z) : go F :=
  match v with
  | SConstant c => Ok (Value c)
  | SRegular r => index r n
  | SRotated r => index (r_v r) (PositiveMod (i64 (n + r_offset r)) (zlen (r_v r)))
  | SWindow p =>
      let posFromWindowsPoV := PositiveMod (i64 (n - Offset_ p)) (TotLen_ p) in
      if posFromWindowsPoV <? zlen (Window_ p) then index (Window_ p) posFromWindowsPoV else Ok (PaddingVal_ p)
  end.

(** The element that [GetPtr] points to. *)
Definition GetPtr (v : SmartVector) (n : Z) : go F :=
  match v with
  | SConstant c => Ok (Value c)
  | SRegular r => index r n
  | SRotated r => index (r_v r) (PositiveMod (i64 (n + r_offset r)) (zlen (r_v r)))
  | SWindow p =>
      let n := i64 (n - Offset_ p) in
      let n := if n <? 0 then n + TotLen_ p else n in
      if n <? zlen (Window_ p) then index (Window_ p) n else Ok (PaddingVal_ p)
  end.

(** ** Subvectors *)

Definition copySubVector (src : list F) (offset start stop : Z) (dst : list F) : go (list F) :=
  let size := zlen src in
  let spanSize := stop - start in
  _ ← assert_ (negb ((start <? 0) || (size <? stop) || (stop <=? start) || negb (zlen dst =? spanSize)));
  let startWithOffsetClean := PositiveMod (i64 (start + offset)) size in
  if startWithOffsetClean + spanSize <=? size then
    s ← slice src startWithOffsetClean (startWithOffsetClean + spanSize);
    Ok (copy dst s)
  else
    let n1 := size - startWithOffsetClean in
    s1 ← slice src startWithOffsetClean size;
    let dst := copy dst s1 in
    let n2 := spanSize - n1 in
    s2 ← slice src 0 n2;
    tail ← slice dst n1 (zlen dst);
    Ok (take (Z.to_nat n1) dst ++ copy tail s2).

Definition interval (p : PaddedCircularWindow) : go CircularInterval :=
  IvalWithStartLen (Offset_ p) (zlen (Window_ p)) (TotLen_ p).

Definition window_SubVector (p : PaddedCircularWindow) (start stop : Z) : go SmartVector :=
  _ ← assert_ (negb (start <? 0));
  _ ← assertCorrectBound start (TotLen_ p);
  _ ← assertCorrectBound stop (TotLen_ p + 1);
  _ ← assert_ (negb (stop <? start));
  _ ← assert_ (negb (start =? stop));
  let n := TotLen_ p in
  let b := stop - start in
  ival ← interval p;
  let c := normalize (Start ival) start n in
  let d := normalize (Stop ival) start n in
  if (b <=? c) && (c <? d) then r ← NewConstant (PaddingVal_ p) b; Ok (SConstant r)
  else if (b <=? d) && (d <? c) then w ← slice (Window_ p) (n - c) (n - c + b); Ok (SRegular w)
  else if (b <=? d) && (c =? 0) then w ← slice (Window_ p) 0 b; Ok (SRegular w)
  else if (c <? d) && (d <=? b) then r ← NewPaddedCircularWindow (Window_ p) (PaddingVal_ p) c b; Ok (SWindow r)
  else if (c <? b) && (c <=? d) then
    w ← slice (Window_ p) 0 (b - c);
    r ← NewPaddedCircularWindow w (PaddingVal_ p) c b; Ok (SWindow r)
  else if (d <? c) && (c <? b) then
    left ← slice (Window_ p) 0 (b - c);
    right ← slice (Window_ p) (n - c) (zlen (Window_ p));
    r ← NewPaddedCircularWindow (left ++ right) (PaddingVal_ p) c b; Ok (SWindow r)
  else if (0 <? d) && (d <? b) && (b <=? c) then
    w ← slice (Window_ p) (n - c) (zlen (Window_ p));
    r ← NewPaddedCircularWindow w (PaddingVal_ p) 0 b; Ok (SWindow r)
  else if (d =? 0) && (b <=? c) then r ← NewConstant (PaddingVal_ p) b; Ok (SConstant r)
  else Panic.

Definition SubVector (v : SmartVector) (start stop : Z) : go SmartVector :=
  match v with
  | SConstant c =>
      _ ← assert_ (negb (stop <? start));
      _ ← assert_ (negb (start =? stop));
      _ ← assertCorrectBound start (Length c);
      _ ← assertCorrectBound stop (Length c + 1);
      r ← NewConstant (Value c) (i64 (stop - start)); Ok (SConstant r)
  | SRegular r =>
      _ ← assert_ (negb (stop <? start));
      _ ← assert_ (negb (start =? stop));
      w ← slice r start stop; Ok (SRegular w)
  | SRotated r =>
      _ ← assert_ (0 <=? i64 (stop - start));
      res ← copySubVector (r_v r) (r_offset r) start stop (replicate (Z.to_nat (i64 (stop - start))) zero);
      Ok (SRegular res)
  | SWindow p => window_SubVector p start stop
  end.

Definition rotatedAsRegular (r : Rotated) : go (list F) :=
  v ← SubVector (SRotated r) 0 (zlen (r_v r));
  match v with SRegular w => Ok w | _ => Panic end.

(** ** Rotations and copies *)

Definition DeepCopy (v : SmartVector) : go SmartVector :=
  match v with
  | SConstant c => r ← NewConstant (Value c) (Length c); Ok (SConstant r)
  | SRegular r => r ← NewRegular r; Ok (SRegular r)
  | SRotated r => r ← NewRotated (r_v r) (r_offset r); Ok (SRotated r)
  | SWindow p => r ← NewPaddedCircularWindow (Window_ p) (PaddingVal_ p) (Offset_ p) (TotLen_ p); Ok (SWindow r)
  end.

Definition RotateRight (v : SmartVector) (offset : Z) : go SmartVector :=
  match v with
  | SConstant c => r ← NewConstant (Value c) (Length c); Ok (SConstant r)
  | SRegular r => r ← NewRotated r (i64 (- offset)); Ok (SRotated r)
  | SRotated r =>
      _ ← assert_ (negb (2 ^ 40 <? offset));
      res ← NewRotated (r_v r) (r_offset r);
      Ok (SRotated (mkRotated (r_v res) (i64 (r_offset res + offset))))
  | SWindow p =>
      r ← NewPaddedCircularWindow (Window_ p) (PaddingVal_ p) (i64 (Offset_ p + offset)) (TotLen_ p); Ok (SWindow r)
  end.

Definition SoftRotate (v : SmartVector) (offset : Z) : go SmartVector :=
  match v with
  | SRegular r => r ← NewRotated r offset; Ok (SRotated r)
  | SRotated r => r ← NewRotated (r_v r) (PositiveMod (i64 (offset + r_offset r)) (zlen (r_v r))); Ok (SRotated r)
  | SWindow p =>
      r ← NewPaddedCircularWindow (Window_ p) (PaddingVal_ p) (PositiveMod (i64 (Offset_ p + offset)) (TotLen_ p)) (TotLen_ p);
      Ok (SWindow r)
  | SConstant _ => Ok v
  end.

(** ** Writing into a slice *)

Definition window_WriteInSlice (p : PaddedCircularWindow) (buff : list F) : go (list F) :=
  _ ← assertHasLength (zlen buff) (TotLen_ p);
  buff ← foldM (fun buff i =>
      x ← index (Window_ p) i;
      set_index buff (PositiveMod (i + Offset_ p) (TotLen_ p)) x) buff (range 0 (zlen (Window_ p)));
  foldM (fun buff i => set_index buff (PositiveMod (i + Offset_ p) (TotLen_ p)) (PaddingVal_ p)) buff
    (range (zlen (Window_ p)) (TotLen_ p)).

Definition WriteInSlice (v : SmartVector) (buff : list F) : go (list F) :=
  match v with
  | SConstant c => _ ← assertHasLength (zlen buff) (Length c); Ok ((fun _ => Value c) <$> buff)
  | SRegular r => _ ← assertHasLength (zlen buff) (zlen r); Ok (copy buff r)
  | SRotated r => copySubVector (r_v r) (r_offset r) 0 (zlen (r_v r)) buff
  | SWindow p => window_WriteInSlice p buff
  end.

Definition IntoRegVec (v : SmartVector) : go (list F) := WriteInSlice v (replicate (Z.to_nat (Len v)) zero).

Definition IntoRegVecSaveAlloc (v : SmartVector) : go (list F) :=
  match v with
  | SRegular r => Ok r
  | SRotated r => rotatedAsRegular r
  | _ => IntoRegVec v
  end.

(** ** Iterators, by the elements they yield *)

Definition IterateCompact (v : SmartVector) : go (list F) :=
  match v with
  | SConstant c => Ok [Value c]
  | SRegular r => Ok r
  | SRotated r => rotatedAsRegular r
  | SWindow p =>
      if (0 <? Offset_ p) && negb (Offset_ p + zlen (Window_ p) =? TotLen_ p) then IntoRegVecSaveAlloc v
      else Ok ((if 0 <? Offset_ p then [PaddingVal_ p] else []) ++ Window_ p
               ++ (if Offset_ p + zlen (Window_ p) <? TotLen_ p then [PaddingVal_ p] else []))
  end.

Definition IterateSkipPadding (v : SmartVector) : go (list F) :=
  match v with
  | SConstant _ => Ok []
  | SWindow p => Ok (Window_ p)
  | _ => IterateCompact v
  end.

(** ** Padded vectors *)

Definition LeftPadded (v : list F) (padding : F) (targetLen : Z) : go SmartVector :=
  _ ← assert_ (negb (targetLen <? zlen v));
  if zlen v =? targetLen then r ← NewRegular v; Ok (SRegular r)
  else if zlen v =? 0 then c ← NewConstant padding targetLen; Ok (SConstant c)
  else p ← NewPaddedCircularWindow v padding (targetLen - zlen v) targetLen; Ok (SWindow p).

Definition RightPadded (v : list F) (padding : F) (targetLen : Z) : go SmartVector :=
  _ ← assert_ (negb (targetLen <? zlen v));
  if zlen v =? targetLen then r ← NewRegular v; Ok (SRegular r)
  else if zlen v =? 0 then c ← NewConstant padding targetLen; Ok (SConstant c)
  else p ← NewPaddedCircularWindow v padding 0 targetLen; Ok (SWindow p).

Definition RightZeroPadded (v : list F) (targetLen : Z) : go SmartVector := RightPadded v zero targetLen.

Definition Window (v : SmartVector) : go (list F) :=
  match v with
  | SConstant _ => Ok []
  | SWindow p => Ok (Window_ p)
  | SRegular r => Ok r
  | SRotated r => rotatedAsRegular r
  end.

Definition PaddingVal (v : SmartVector) : F * bool :=
  match v with
  | SConstant c => (Value c, true)
  | SWindow p => (PaddingVal_ p, true)
  | _ => (zero, false)
  end.

(** The conversion to a window that a type assertion makes. *)
Definition as_window (v : SmartVector) : go PaddedCircularWindow :=
  match v with SWindow p => Ok p | _ => Panic end.

(** ** Smaller representations *)

Definition tryIntoConstant (w : list F) : go (option Constant) :=
  if zlen w <=? 1 then Ok None else
  w0 ← index w 0; w1 ← index w 1; wl ← index w (zlen w - 1); wm ← index w (zlen w / 2);
  if negb (bool_decide (w0 = w1)) then Ok None
  else if negb (bool_decide (w0 = wl)) then Ok None
  else if negb (bool_decide (w0 = wm)) then Ok None
  else if negb (forallb (fun x => bool_decide (x = w0)) w) then Ok None
  else c ← NewConstant w0 (zlen w); Ok (Some c).

(** The length of the longest prefix whose elements are [x]. *)
Fixpoint run_length (x : F) (l : list F) : nat :=
  match l with
  | y :: l => if bool_decide (y = x) then S (run_length x l) else 0%nat
  | [] => 0%nat
  end.

Definition tryIntoLeftPadded (v : list F) : go (option PaddedCircularWindow) :=
  first ← index v 0;
  let bestPos := Z.of_nat (run_length first (drop 1 v)) in
  if bestPos =? 0 then Ok None else
  _ ← assert_ (negb (bestPos =? zlen v - 1));
  rest ← slice v (bestPos + 1) (zlen v);
  sv ← LeftPadded rest first (zlen v);
  p ← as_window sv; Ok (Some p).

Definition tryIntoRightPadded (v : list F) : go (option PaddedCircularWindow) :=
  last ← index v (zlen v - 1);
  let run := Z.of_nat (run_length last (drop 1 (reverse v))) in
  let bestPos := if run =? zlen v - 1 then zlen v - 1 else zlen v - 1 - run in
  if zlen v - bestPos <? 1000 then Ok None else
  rest ← slice v 0 bestPos;
  sv ← RightPadded rest last (zlen v);
  p ← as_window sv; Ok (Some p).

Definition TryReduceSizeRight (v : SmartVector) : go (SmartVector * Z) :=
  match v with
  | SRegular w =>
      c ← tryIntoConstant w;
      match c with
      | Some res => Ok (SConstant res, zlen w)
      | None =>
          p ← tryIntoRightPadded w;
          match p with
          | Some res => Ok (SWindow res, zlen w - zlen (Window_ res))
          | None => Ok (v, 0)
          end
      end
  | _ => Ok (v, 0)
  end.

Definition TryReduceSizeLeft (v : SmartVector) : go (SmartVector * Z) :=
  match v with
  | SRegular w =>
      c ← tryIntoConstant w;
      match c with
      | Some res => Ok (SConstant res, zlen w)
      | None =>
          p ← tryIntoLeftPadded w;
          match p with
          | Some res => Ok (SWindow res, zlen w - zlen (Window_ res))
          | None => Ok (v, 0)
          end
      end
  | _ => Ok (v, 0)
  end.

(** ** Compact forms *)

Definition FromCompactWithShape (v : SmartVector) (compact : list F) : go SmartVector :=
  match v with
  | SConstant _ => x ← index compact 0; c ← NewConstant x (Len v); Ok (SConstant c)
  | SWindow w =>
      if Offset_ w =? 0 then
        _ ← assert_ (zlen (Window_ w) =? zlen compact - 1);
        last ← index compact (zlen compact - 1);
        window ← slice compact 0 (zlen compact - 1);
        RightPadded window last (TotLen_ w)
      else if Offset_ w + zlen (Window_ w) =? TotLen_ w then
        _ ← assert_ (zlen (Window_ w) =? zlen compact - 1);
        first ← index compact 0;
        window ← slice compact 1 (zlen compact);
        LeftPadded window first (TotLen_ w)
      else Panic
  | SRegular w =>
      _ ← assert_ (zlen w =? zlen compact);
      r ← NewRegular compact; Ok (SRegular r)
  | SRotated _ => Panic
  end.

Fixpoint CoWindowRange_loop (sv : list (option SmartVector)) (foundAny : bool) (start stop : Z) : Z * Z :=
  match sv with
  | [] => (start, stop)
  | None :: sv => CoWindowRange_loop sv foundAny start stop
  | Some (SConstant _) :: sv => CoWindowRange_loop sv foundAny start stop
  | Some (SWindow s) :: sv =>
      if TotLen_ s <? Offset_ s + zlen (Window_ s) then (0, TotLen_ s)
      else if negb foundAny then CoWindowRange_loop sv true (Offset_ s) (Offset_ s + zlen (Window_ s))
      else CoWindowRange_loop sv foundAny (Z.min start (Offset_ s)) (Z.max stop (Offset_ s + zlen (Window_ s)))
  | Some s :: _ => (0, Len s)
  end.

Definition CoWindowRange (sv : list (option SmartVector)) : Z * Z := CoWindowRange_loop sv false 0 0.

(** [nil] is no vector to take the length of. *)
Definition CoCompactRange (sv : list (option SmartVector)) : go (Z * Z) :=
  let '(start, stop) := CoWindowRange sv in
  let start := if 0 <? start then start - 1 else start in
  s0 ← unwrap (head sv);
  s0 ← unwrap s0;
  Ok (start, if stop <? Len s0 then stop + 1 else stop).

Definition FromCompactWithRange (compact : list F) (start stop fullLen : Z) : go SmartVector :=
  _ ← assert_ (negb (zlen compact + 2 <? i64 (stop - start)));
  _ ← assert_ (negb (fullLen <? i64 (stop - start)));
  if i64 (stop - start) =? 1 then x ← index compact 0; c ← NewConstant x fullLen; Ok (SConstant c)
  else if (start =? 0) && (stop =? fullLen) then r ← NewRegular compact; Ok (SRegular r)
  else if start =? 0 then
    w ← slice compact 0 (zlen compact - 1);
    x ← index compact (zlen compact - 1);
    RightPadded w x fullLen
  else if stop =? fullLen then
    w ← slice compact 1 (zlen compact);
    x ← index compact 0;
    LeftPadded w x fullLen
  else
    x ← index compact 0;
    y ← index compact (zlen compact - 1);
    _ ← assert_ (bool_decide (x = y));
    w ← slice compact 1 (zlen compact - 1);
    p ← NewPaddedCircularWindow w x (i64 (start + 1)) fullLen; Ok (SWindow p).
End Vectors.
