(* ===== verification/SvSpec.v ===== *)
(** What the smart vectors of [SmartVectors] stand for, and the correctness of their
    accessors, subvectors, rotations and conversions. *)
From S2P Require Import Prelude SvIntervals SmartVectors.
From Stdlib Require Import ZifyBool.

(** ** Slices *)

Section Slices.
Context {A : Type}.
Implicit Types (l : list A).

Lemma zlen_nonneg l : 0 <= zlen l.
Proof. unfold zlen. lia. Qed.

Lemma zlen_app (l k : list A) : zlen (l ++ k) = zlen l + zlen k.
Proof. unfold zlen. rewrite length_app. lia. Qed.

Lemma zlen_replicate n (x : A) : 0 <= n -> zlen (replicate (Z.to_nat n) x) = n.
Proof. intros. unfold zlen. rewrite length_replicate. lia. Qed.

(** The element of a list at a position, with a default. *)
Definition nthZ (d : A) l (i : Z) : A := nth (Z.to_nat i) l d.

Lemma index_nthZ d l i : 0 <= i < zlen l -> index l i = Ok (nthZ d l i).
Proof.
  intros Hi. unfold index, nthZ, zlen in *. destruct (Z.leb_spec 0 i); [|lia].
  destruct (l !! Z.to_nat i) as [x|] eqn:E; [|apply lookup_ge_None in E; lia].
  cbn. f_equal. symmetry. by apply nth_lookup_Some.
Qed.

Lemma nthZ_app (d : A) l k i : 0 <= i -> nthZ d (l ++ k) i = if i <? zlen l then nthZ d l i else nthZ d k (i - zlen l).
Proof.
  intros Hi. unfold nthZ, zlen. destruct (Z.ltb_spec i (Z.of_nat (length l))).
  - by rewrite app_nth1 by lia.
  - rewrite app_nth2 by lia. f_equal. lia.
Qed.

Lemma nthZ_replicate d n x i : 0 <= i < n -> nthZ d (replicate (Z.to_nat n) x) i = x.
Proof. intros Hi. unfold nthZ. apply nth_lookup_Some, lookup_replicate_2. lia. Qed.

Lemma slice_ok d l a b :
  0 <= a <= b -> b <= zlen l ->
  exists w, slice l a b = Ok w /\ zlen w = b - a /\ forall i, 0 <= i < b - a -> nthZ d w i = nthZ d l (a + i).
Proof.
  intros Hab Hb. unfold slice, zlen in *. replace (_ && _ && _) with true by lia. eexists. split; [done|]. split.
  - rewrite length_take, length_drop. lia.
  - intros i Hi. unfold nthZ. rewrite <- (take_drop (Z.to_nat a) l) at 2. rewrite app_nth2; rewrite length_take; [|lia].
    rewrite <- (take_drop (Z.to_nat (b - a)) (drop (Z.to_nat a) l)) at 2. rewrite app_nth1; [|rewrite length_take, length_drop; lia].
    f_equal. lia.
Qed.

Lemma copy_ok (dst src : list A) : zlen src = zlen dst -> copy dst src = src.
Proof. unfold copy, zlen. intros E. rewrite take_ge, drop_ge by lia. by rewrite app_nil_r. Qed.

Lemma nthZ_ext (d : A) (l k : list A) : zlen l = zlen k -> (forall i, 0 <= i < zlen l -> nthZ d l i = nthZ d k i) -> l = k.
Proof.
  intros El H. unfold zlen in *. apply (nth_ext _ _ d d); [lia|]. intros i Hi. specialize (H (Z.of_nat i) ltac:(lia)).
  unfold nthZ in H. by rewrite Nat2Z.id in H.
Qed.

Lemma zlen_fmap {B} (f : A -> B) l : zlen (f <$> l) = zlen l.
Proof. unfold zlen. by rewrite length_fmap. Qed.
End Slices.

Lemma nthZ_fmap {A B} (d : A) (e : B) (f : A -> B) l i : 0 <= i < zlen l -> nthZ e (f <$> l) i = f (nthZ d l i).
Proof.
  intros Hi. unfold nthZ, zlen in *. apply nth_lookup_Some. rewrite list_lookup_fmap.
  destruct (l !! Z.to_nat i) as [x|] eqn:E; [|apply lookup_ge_None in E; lia]. cbn. f_equal. f_equal. symmetry. by apply nth_lookup_Some.
Qed.

(** ** The vector a representation stands for *)

Definition max_len : Z := 2 ^ 61.

Section Spec.
Context {F : Type} (zero : F) `{EqDecision F}.
Implicit Types (v : SmartVector (F := F)) (p : PaddedCircularWindow (F := F)).
Local Abbreviation nthF := (nthZ zero).

Definition at_window p (i : Z) : F :=
  let q := (i - Offset_ p) mod TotLen_ p in
  if q <? zlen (Window_ p) then nthF (Window_ p) q else PaddingVal_ p.

Definition at_ v (i : Z) : F :=
  match v with
  | SConstant c => Value c
  | SRegular r => nthF r i
  | SRotated r => nthF (r_v r) ((i + r_offset r) mod zlen (r_v r))
  | SWindow p => at_window p i
  end.

Definition window_ok p : Prop := 0 < zlen (Window_ p) < TotLen_ p /\ 0 <= Offset_ p < TotLen_ p.

(** A vector as its constructor makes it. *)
Definition sv_ok v : Prop :=
  0 < Len v <= max_len /\
  match v with
  | SRotated r => - zlen (r_v r) <= r_offset r <= zlen (r_v r)
  | SWindow p => window_ok p
  | _ => True
  end.

Definition represents v (n : Z) (f : Z -> F) : Prop :=
  sv_ok v /\ Len v = n /\ forall i, 0 <= i < n -> at_ v i = f i.

Lemma represents_self v : sv_ok v -> represents v (Len v) (at_ v).
Proof. done. Qed.

Lemma i64_small z : - 2 ^ 62 <= z <= 2 ^ 62 -> i64 z = z.
Proof. intros H. apply swrap_small; [unfold is_i; cbn; lia|lia]. Qed.

Lemma NewConstant_ok (x : F) n : 0 < n -> NewConstant x n = Ok (mkConstant x n).
Proof. intros Hn. unfold NewConstant, assert_. by replace (negb (n <=? 0)) with true by lia. Qed.

Lemma NewRegular_ok (l : list F) : 0 < zlen l -> NewRegular l = Ok l.
Proof. intros Hn. unfold NewRegular, assertStrictPositiveLen, assert_. by replace (_ && _) with true by lia. Qed.

Lemma NewWindow_ok w (x : F) off n :
  0 < zlen w < n -> NewPaddedCircularWindow w x off n = Ok (mkWindow w x n (off mod n)) /\ window_ok (mkWindow w x n (off mod n)).
Proof.
  intros Hw. unfold NewPaddedCircularWindow, assert_. replace (negb (n <? zlen w)) with true by lia.
  replace (negb (zlen w =? n)) with true by lia. replace (negb (zlen w =? 0)) with true by lia. cbn [mbind outcome_bind].
  rewrite PositiveMod_mod by lia. split; [done|]. split; cbn; [lia|]. apply Z.mod_pos_bound. lia.
Qed.

Lemma NewRotated_ok (l : list F) off : 0 < zlen l <= max_len -> - zlen l <= off <= zlen l -> NewRotated l off = Ok (mkRotated l off).
Proof.
  unfold max_len. intros Hl Ho. unfold NewRotated, assert_. rewrite i64_small by lia.
  replace (negb (zlen l =? 0)) with true by lia. replace (negb (_ && _)) with true by lia.
  by replace (negb (zlen l <? off)) with true by lia.
Qed.

(** ** Accessors *)

Lemma Get_at v i : sv_ok v -> 0 <= i < Len v -> Get v i = Ok (at_ v i).
Proof.
  intros [Hl Hv] Hi. unfold max_len in Hl. destruct v as [c|r|r|p]; cbn [Get at_ Len] in *; [done|by apply index_nthZ| |].
  - rewrite i64_small, PositiveMod_mod by lia. apply index_nthZ. apply Z.mod_pos_bound. lia.
  - destruct Hv as [Hw Ho]. rewrite i64_small, PositiveMod_mod by lia. unfold at_window.
    pose proof (Z.mod_pos_bound (i - Offset_ p) (TotLen_ p) ltac:(lia)).
    destruct (Z.ltb_spec ((i - Offset_ p) mod TotLen_ p) (zlen (Window_ p))); [|done]. apply index_nthZ. lia.
Qed.

Lemma GetPtr_at v i : sv_ok v -> 0 <= i < Len v -> GetPtr v i = Ok (at_ v i).
Proof.
  intros Hok Hi. rewrite <- (Get_at v i Hok Hi). destruct Hok as [Hl Hv]. unfold max_len in Hl.
  destruct v as [c|r|r|p]; cbn [Get GetPtr Len] in *; try done. destruct Hv as [Hw Ho].
  rewrite i64_small by lia. rewrite PositiveMod_cases by lia. destruct (Z.ltb_spec (i - Offset_ p) 0); [done|].
  by destruct (Z.ltb_spec (i - Offset_ p) (TotLen_ p)); [|lia].
Qed.

(** ** Subvectors *)

(** A window seen from the position [start]. *)
Lemma at_window_from p start c i :
  window_ok p -> c = (Offset_ p - start) mod TotLen_ p -> 0 <= i < TotLen_ p ->
  at_window p (start + i) =
  let q := if i <? c then i - c + TotLen_ p else i - c in if q <? zlen (Window_ p) then nthF (Window_ p) q else PaddingVal_ p.
Proof.
  intros [Hw Ho] Hc Hi. pose proof (Z.mod_pos_bound (Offset_ p - start) (TotLen_ p) ltac:(lia)). unfold at_window.
  replace ((start + i - Offset_ p) mod TotLen_ p) with (if i <? c then i - c + TotLen_ p else i - c); [done|].
  pose proof (Z.div_mod (Offset_ p - start) (TotLen_ p) ltac:(lia)) as E. rewrite <- Hc in E.
  destruct (Z.ltb_spec i c).
  - apply (Zmod_unique _ _ (- ((Offset_ p - start) / TotLen_ p) - 1)); lia.
  - apply (Zmod_unique _ _ (- ((Offset_ p - start) / TotLen_ p))); lia.
Qed.

Lemma new_window_represents w (x : F) c b f :
  0 < zlen w < b -> b <= max_len -> 0 <= c < b ->
  (forall i, 0 <= i < b -> (let q := if i <? c then i - c + b else i - c in if q <? zlen w then nthF w q else x) = f i) ->
  exists r, NewPaddedCircularWindow w x c b = Ok r /\ represents (SWindow r) b f.
Proof.
  intros Hw Hb Hc Hf. destruct (NewWindow_ok w x c b Hw) as [E Hok]. eexists. split; [exact E|].
  rewrite Z.mod_small in * by lia. split; [split; cbn; [lia|done]|]. split; [done|]. intros i Hi. cbn [at_].
  rewrite <- (Hf i Hi). rewrite <- (Z.add_0_l i) at 1. apply at_window_from; [done| |done]. cbn. rewrite Z.mod_small; lia.
Qed.

Lemma slice_represents (l : list F) a b f :
  0 <= a < b -> b <= zlen l -> b - a <= max_len -> (forall i, 0 <= i < b - a -> nthF l (a + i) = f i) ->
  exists w, slice l a b = Ok w /\ represents (SRegular w) (b - a) f.
Proof.
  intros Hab Hb Hm Hf. destruct (slice_ok zero l a b) as (w & Hw & Hl & Hn); [lia..|]. exists w. split; [done|].
  split; [split; cbn; [lia|done]|]. split; [done|]. intros i Hi. cbn [at_]. rewrite Hn by done. by apply Hf.
Qed.

Lemma window_SubVector_ok p start stop :
  window_ok p -> TotLen_ p <= max_len -> 0 <= start < stop -> stop <= TotLen_ p ->
  exists v, window_SubVector p start stop = Ok v /\ represents v (stop - start) (fun i => at_window p (start + i)).
Proof.
  intros Hok Hmax Hs Hst. pose proof Hok as [Hw Ho]. unfold window_SubVector, assertCorrectBound, assert_.
  replace (negb (start <? 0)) with true by lia. replace (negb (TotLen_ p <=? start)) with true by lia.
  replace (negb (TotLen_ p + 1 <=? stop)) with true by lia. replace (negb (stop <? start)) with true by lia.
  replace (negb (start =? stop)) with true by lia. cbn [mbind outcome_bind].
  unfold interval, IvalWithStartLen, assert_. replace (negb (zlen (Window_ p) =? 0)) with true by lia.
  replace ((0 <=? Offset_ p) && (Offset_ p <? TotLen_ p)) with true by lia. replace (zlen (Window_ p) <? TotLen_ p) with true by lia.
  cbn [mbind outcome_bind]. unfold Start, Stop. cbn [istart IntervalLen circleSize].
  set (n := TotLen_ p) in *. set (L := zlen (Window_ p)) in *. set (b := stop - start).
  set (c := normalize (Offset_ p) start n). set (d := normalize _ start n).
  assert (c = (Offset_ p - start) mod n) as Ec by (unfold c, normalize; apply PositiveMod_mod; lia).
  assert (0 <= c < n) as Bc by (rewrite Ec; apply Z.mod_pos_bound; lia).
  assert (d = if c + L <? n then c + L else c + L - n) as Ed.
  { unfold d, normalize. rewrite (PositiveMod_cases (Offset_ p + L)) by lia. rewrite Ec, mod_cases by lia.
    rewrite PositiveMod_cases by (ztests; lia). ztests. }
  assert (forall i, 0 <= i < n -> at_window p (start + i) =
    let q := if i <? c then i - c + n else i - c in if q <? L then nthF (Window_ p) q else PaddingVal_ p) as Hat
    by (intros i Hi; by apply at_window_from).
  assert (0 < b <= n) as Bb by lia.
  assert (d = c + L /\ c + L < n \/ d = c + L - n /\ n <= c + L) as Ed' by (rewrite Ed; ztests).
  assert (b <= max_len) as Hbm by lia. clearbody b c d. clear Ec Ed Hs Hst.
  destruct ((b <=? c) && (c <? d)) eqn:T1.
  { rewrite NewConstant_ok by lia. eexists. split; [reflexivity|]. split; [split; cbn; [lia|done]|]. split; [done|].
    intros i Hi. rewrite Hat by lia. cbn. ztests. done. }
  destruct ((b <=? d) && (d <? c)) eqn:T2.
  { destruct (slice_represents (Window_ p) (n - c) (n - c + b) (fun i => at_window p (start + i))) as (w & -> & Hr); [lia..| |].
    - intros i Hi. rewrite Hat by lia. cbn. fold L. ztests. f_equal. lia.
    - exists (SRegular w). split; [done|]. by replace b with (n - c + b - (n - c)) at 1 by lia. }
  destruct ((b <=? d) && (c =? 0)) eqn:T3.
  { destruct (slice_represents (Window_ p) 0 b (fun i => at_window p (start + i))) as (w & -> & Hr); [lia..| |].
    - intros i Hi. rewrite Hat by lia. cbn. ztests. f_equal. lia.
    - exists (SRegular w). split; [done|]. by rewrite Z.sub_0_r in Hr. }
  destruct ((c <? d) && (d <=? b)) eqn:T4.
  { destruct (new_window_represents (Window_ p) (PaddingVal_ p) c b (fun i => at_window p (start + i))) as (r & -> & Hr); [lia..| |by exists (SWindow r)].
    intros i Hi. rewrite Hat by lia. cbn. fold L. ztests; done. }
  destruct ((c <? b) && (c <=? d)) eqn:T5.
  { destruct (slice_ok zero (Window_ p) 0 (b - c)) as (w & -> & Hl & Hn); [lia..|]. cbn [mbind outcome_bind].
    destruct (new_window_represents w (PaddingVal_ p) c b (fun i => at_window p (start + i))) as (r & -> & Hr); [lia..| |by exists (SWindow r)].
    intros i Hi. rewrite Hat by lia. cbn. rewrite Hl. ztests; try done; rewrite Hn by lia; f_equal; lia. }
  destruct ((d <? c) && (c <? b)) eqn:T6.
  { destruct (slice_ok zero (Window_ p) 0 (b - c)) as (w & -> & Hl & Hn); [lia..|]. cbn [mbind outcome_bind]. fold L.
    destruct (slice_ok zero (Window_ p) (n - c) L) as (w' & -> & Hl' & Hn'); [lia..|]. cbn [mbind outcome_bind].
    destruct (new_window_represents (w ++ w') (PaddingVal_ p) c b (fun i => at_window p (start + i))) as (r & -> & Hr);
      [rewrite zlen_app; lia|lia|lia| |by exists (SWindow r)].
    intros i Hi. rewrite Hat by lia. cbn. rewrite zlen_app, nthZ_app, Hl, Hl' by (ztests; lia). ztests; try done;
      first [rewrite Hn by lia|rewrite Hn' by lia]; f_equal; lia. }
  destruct ((0 <? d) && (d <? b) && (b <=? c)) eqn:T7.
  { fold L. destruct (slice_ok zero (Window_ p) (n - c) L) as (w & -> & Hl & Hn); [lia..|]. cbn [mbind outcome_bind].
    destruct (new_window_represents w (PaddingVal_ p) 0 b (fun i => at_window p (start + i))) as (r & -> & Hr); [lia..| |by exists (SWindow r)].
    intros i Hi. rewrite Hat by lia. cbn. rewrite Hl. ztests; try done; rewrite Hn by lia; f_equal; lia. }
  destruct ((d =? 0) && (b <=? c)) eqn:T8; [|exfalso; lia].
  rewrite NewConstant_ok by lia. eexists. split; [reflexivity|]. split; [split; cbn; [lia|done]|]. split; [done|].
  intros i Hi. rewrite Hat by lia. cbn. ztests. done.
Qed.

Lemma copySubVector_ok src off start stop dst :
  0 < zlen src <= max_len -> - max_len <= off <= max_len -> 0 <= start < stop -> stop <= zlen src -> zlen dst = stop - start ->
  exists w, copySubVector src off start stop dst = Ok w /\ zlen w = stop - start /\
    forall i, 0 <= i < stop - start -> nthF w i = nthF src ((start + i + off) mod zlen src).
Proof.
  unfold max_len. intros Hl Ho Hs Hst Hd. unfold copySubVector, assert_.
  replace (negb (_ || _ || _ || _)) with true by lia. cbn [mbind outcome_bind]. rewrite i64_small, PositiveMod_mod by lia.
  set (n := zlen src) in *. set (s0 := (start + off) mod n). assert (0 <= s0 < n) as Bs by (apply Z.mod_pos_bound; lia).
  assert (forall i, 0 <= i < n -> (start + i + off) mod n = if s0 + i <? n then s0 + i else s0 + i - n) as Hm.
  { intros i Hi. replace (start + i + off) with ((start + off) + i) by lia. rewrite <- Z.add_mod_idemp_l by lia. fold s0.
    rewrite mod_cases by lia. ztests; done. }
  clearbody s0. destruct (Z.leb_spec (s0 + (stop - start)) n).
  - destruct (slice_ok zero src s0 (s0 + (stop - start))) as (w & -> & Hlw & Hn); [lia..|]. cbn [mbind outcome_bind].
    rewrite copy_ok by lia. exists w. split; [done|]. split; [lia|]. intros i Hi. rewrite Hn, Hm by lia. ztests; done.
  - destruct (slice_ok zero src s0 n) as (w1 & -> & Hl1 & Hn1); [lia..|]. cbn [mbind outcome_bind].
    destruct (slice_ok zero src 0 (stop - start - (n - s0))) as (w2 & -> & Hl2 & Hn2); [lia..|]. cbn [mbind outcome_bind].
    assert (copy dst w1 = w1 ++ drop (length w1) dst) as -> by (unfold copy, zlen in *; rewrite take_ge by lia; done).
    assert (zlen (w1 ++ drop (length w1) dst) = stop - start) as El by (unfold zlen in *; rewrite length_app, length_drop; lia).
    rewrite El. destruct (slice_ok zero (w1 ++ drop (length w1) dst) (n - s0) (stop - start)) as (tl & -> & Hlt & _); [lia..|].
    cbn [mbind outcome_bind]. rewrite copy_ok by lia.
    replace (take (Z.to_nat (n - s0)) (w1 ++ drop (length w1) dst)) with w1 by (unfold zlen in *; rewrite take_app_length' by lia; done).
    exists (w1 ++ w2). split; [done|]. split; [rewrite zlen_app; lia|]. intros i Hi. rewrite nthZ_app, Hm by lia.
    ztests; [rewrite Hn1 by lia; done|]. rewrite Hn2 by lia. f_equal. lia.
Qed.

(** ** Writing *)

Lemma set_index_ok (l : list F) i x :
  0 <= i < zlen l ->
  exists k, set_index l i x = Ok k /\ zlen k = zlen l /\ forall j, 0 <= j < zlen l -> nthF k j = if j =? i then x else nthF l j.
Proof.
  intros Hi. unfold set_index. replace (_ && _) with true by lia. eexists. split; [done|]. unfold zlen, nthZ in *.
  rewrite length_insert. split; [done|]. intros j Hj. destruct (Z.eqb_spec j i) as [->|Hne].
  - apply nth_lookup_Some. apply list_lookup_insert_eq. lia.
  - rewrite !nth_lookup. rewrite list_lookup_insert_ne by lia. done.
Qed.

Lemma write_loop n off (g : Z -> F) (body : list F -> Z -> go (list F)) a k buff :
  0 < n -> 0 <= off < n -> zlen buff = n -> 0 <= a -> a + Z.of_nat k <= n ->
  (forall b i, a <= i < a + Z.of_nat k -> body b i = set_index b (PositiveMod (i + off) n) (g i)) ->
  exists buff', foldM body buff (range a (a + Z.of_nat k)) = Ok buff' /\ zlen buff' = n /\
    forall j, 0 <= j < n -> nthF buff' j = let q := (j - off) mod n in if (a <=? q) && (q <? a + Z.of_nat k) then g q else nthF buff j.
Proof.
  intros Hn Ho Hb Ha. unfold range. induction k as [|k IH]; intros Hk Hbody.
  - rewrite Z.add_0_r, Z.sub_diag. exists buff. split; [done|]. split; [done|]. intros j Hj. cbn.
    replace (_ && _) with false by lia. done.
  - destruct IH as (b1 & E1 & Hl1 & Hn1); [lia|intros b i Hi; apply Hbody; lia|].
    replace (a + Z.of_nat (S k) - a) with ((a + Z.of_nat k - a) + 1) by lia. rewrite seqZ_app by lia. rewrite foldM_app, E1.
    cbn [mbind outcome_bind]. replace (a + (a + Z.of_nat k - a)) with (a + Z.of_nat k) by lia. change (seqZ (a + Z.of_nat k) 1) with [a + Z.of_nat k].
    cbn [foldM]. rewrite Hbody by lia. rewrite PositiveMod_cases by lia.
    set (x := a + Z.of_nat k) in *. set (pos := if x + off <? 0 then x + off + n else if x + off <? n then x + off else x + off - n). assert (0 <= pos < n /\ (pos - off) mod n = x) as [Bp Ep].
    { unfold pos. split; [ztests|]. rewrite mod_cases by (ztests; lia). ztests. }
    destruct (set_index_ok b1 pos (g x)) as (b2 & -> & Hl2 & Hn2); [lia|]. cbn [mbind outcome_bind].
    exists b2. split; [done|]. split; [lia|]. intros j Hj. rewrite Hn2, Hn1 by lia. cbn.
    destruct (Z.eqb_spec j pos) as [->|Hne].
    + rewrite Ep. by replace (_ && _) with true by lia.
    + assert ((j - off) mod n <> x) as Hq.
      { intros Hq. apply Hne. rewrite mod_cases in Hq by lia. unfold pos. ztests. }
      unfold x in *. destruct ((a <=? _) && _) eqn:T1, ((a <=? _) && ((j - off) mod n <? a + Z.of_nat (S k))) eqn:T2; try done; lia.
Qed.

Lemma window_WriteInSlice_ok p buff :
  window_ok p -> zlen buff = TotLen_ p ->
  exists w, window_WriteInSlice p buff = Ok w /\ zlen w = TotLen_ p /\ forall i, 0 <= i < TotLen_ p -> nthF w i = at_window p i.
Proof.
  intros [Hw Ho] Hb. unfold window_WriteInSlice, assertHasLength, assert_. rewrite Hb, Z.eqb_refl. cbn [mbind outcome_bind].
  set (n := TotLen_ p) in *. set (L := zlen (Window_ p)) in *.
  destruct (write_loop n (Offset_ p) (nthF (Window_ p))
    (fun buff i => x ← index (Window_ p) i; set_index buff (PositiveMod (i + Offset_ p) n) x) 0 (length (Window_ p)) buff)
    as (b1 & E1 & Hl1 & Hn1); [lia|lia|done|lia|unfold L, zlen in Hw; lia| |].
  { intros b i Hi. rewrite (index_nthZ zero) by (unfold zlen; lia). done. }
  rewrite Z.add_0_l in E1. fold (zlen (Window_ p)) in E1. fold L in E1. rewrite E1. cbn [mbind outcome_bind].
  destruct (write_loop n (Offset_ p) (fun _ => PaddingVal_ p)
    (fun buff i => set_index buff (PositiveMod (i + Offset_ p) n) (PaddingVal_ p)) L (Z.to_nat (n - L)) b1)
    as (b2 & E2 & Hl2 & Hn2); [unfold L; lia..|done|].
  rewrite Z2Nat.id in E2, Hn2 by lia. replace (L + (n - L)) with n in E2, Hn2 by lia. exists b2. split; [exact E2|]. split; [done|].
  intros i Hi. rewrite Hn2, Hn1 by done. cbn. unfold at_window. fold n L.
  pose proof (Z.mod_pos_bound (i - Offset_ p) n ltac:(lia)). unfold L, zlen in *.
  destruct (Z.ltb_spec ((i - Offset_ p) mod n) (Z.of_nat (length (Window_ p)))).
  - replace (_ && _) with false by lia. by replace (_ && _) with true by lia.
  - by replace (_ && _) with true by lia.
Qed.

Lemma list_of_values (w : list F) v :
  zlen w = Len v -> (forall i, 0 <= i < Len v -> nthF w i = at_ v i) -> w = at_ v <$> range 0 (Len v).
Proof.
  intros Hl Hn. pose proof (zlen_nonneg w). assert (zlen (at_ v <$> range 0 (Len v)) = Len v) as El.
  { unfold zlen, range. rewrite length_fmap, length_seqZ. lia. }
  apply (nthZ_ext zero); [lia|]. intros i Hi. rewrite Hl in Hi. rewrite Hn by done.
  rewrite (nthZ_fmap 0) by (unfold zlen, range; rewrite length_seqZ; lia). f_equal. unfold nthZ, range.
  symmetry. apply nth_lookup_Some. apply lookup_seqZ. lia.
Qed.

(** All the elements, in order. *)
Definition values v : list F := at_ v <$> range 0 (Len v).

Lemma WriteInSlice_values v buff : sv_ok v -> zlen buff = Len v -> WriteInSlice v buff = Ok (values v).
Proof.
  intros [Hl Hv] Hb. assert (exists w, WriteInSlice v buff = Ok w /\ zlen w = Len v /\ forall i, 0 <= i < Len v -> nthF w i = at_ v i) as (w & -> & Hw & Hn).
  { destruct v as [c|r|r|p]; cbn [WriteInSlice at_ Len] in *; unfold assertHasLength, assert_.
    - rewrite Hb, Z.eqb_refl. eexists. split; [done|]. rewrite zlen_fmap. split; [done|]. intros i Hi. by rewrite (nthZ_fmap zero) by lia.
    - rewrite Hb, Z.eqb_refl. cbn [mbind outcome_bind]. rewrite copy_ok by lia. by exists r.
    - destruct (copySubVector_ok (r_v r) (r_offset r) 0 (zlen (r_v r)) buff) as (w & -> & Hw & Hn); [lia..|].
      exists w. split; [done|]. split; [lia|]. intros i Hi. rewrite Hn by lia. done.
    - by apply window_WriteInSlice_ok. }
  f_equal. by apply list_of_values.
Qed.

(** ** Theorems *)

Lemma SubVector_ok v start stop :
  sv_ok v -> 0 <= start < stop -> stop <= Len v ->
  exists v', SubVector zero v start stop = Ok v' /\ represents v' (stop - start) (fun i => at_ v (start + i)).
Proof.
  intros [Hl Hv] Hs Hst. pose proof Hl as Hl'. unfold max_len in Hl'.
  destruct v as [c|r|r|p]; cbn [SubVector Len at_] in *; [| | |apply window_SubVector_ok; [done|lia..]].
  - unfold assertCorrectBound, assert_. rewrite i64_small by lia. replace (negb (stop <? start)) with true by lia.
    replace (negb (start =? stop)) with true by lia. replace (negb (Length c <=? start)) with true by lia.
    replace (negb (Length c + 1 <=? stop)) with true by lia. cbn [mbind outcome_bind]. rewrite NewConstant_ok by lia.
    eexists. split; [reflexivity|]. split; [split; cbn; [lia|done]|]. split; done.
  - unfold assert_. replace (negb (stop <? start)) with true by lia. replace (negb (start =? stop)) with true by lia. cbn [mbind outcome_bind].
    destruct (slice_represents r start stop (fun i => nthF r (start + i))) as (w & -> & Hw); [lia..|done|]. by exists (SRegular w).
  - unfold assert_. rewrite i64_small by lia. replace (0 <=? stop - start) with true by lia. cbn [mbind outcome_bind].
    destruct (copySubVector_ok (r_v r) (r_offset r) start stop (replicate (Z.to_nat (stop - start)) zero)) as (w & -> & Hw & Hn);
      [lia|lia|lia|lia|by apply zlen_replicate; lia|].
    exists (SRegular w). split; [done|]. split; [split; cbn; [lia|done]|]. split; [done|]. intros i Hi. cbn [at_]. by apply Hn.
Qed.

Lemma rotatedAsRegular_ok r : sv_ok (SRotated r) -> rotatedAsRegular zero r = Ok (values (SRotated r)).
Proof.
  intros Hok. pose proof Hok as [Hl Hv]. cbn [Len] in Hl. unfold rotatedAsRegular. cbn [SubVector]. unfold assert_.
  unfold max_len in *. rewrite i64_small by lia. rewrite Z.sub_0_r. replace (0 <=? zlen (r_v r)) with true by lia. cbn [mbind outcome_bind].
  pose proof (WriteInSlice_values (SRotated r) (replicate (Z.to_nat (zlen (r_v r))) zero) Hok) as E. cbn [WriteInSlice Len] in E.
  rewrite E by (apply zlen_replicate; lia). done.
Qed.

Lemma IntoRegVecSaveAlloc_values v : sv_ok v -> IntoRegVecSaveAlloc zero v = Ok (values v).
Proof.
  intros Hok. destruct v as [c|r|r|p]; cbn [IntoRegVecSaveAlloc]; [|f_equal; by apply list_of_values|by apply rotatedAsRegular_ok|];
    apply WriteInSlice_values; try done; apply zlen_replicate; destruct Hok; lia.
Qed.

Lemma values_length v : 0 <= Len v -> zlen (values v) = Len v.
Proof. intros H. unfold values, zlen, range. rewrite length_fmap, length_seqZ. lia. Qed.

Lemma values_nth v i : 0 <= i < Len v -> nthF (values v) i = at_ v i.
Proof.
  intros Hi. unfold values. rewrite (nthZ_fmap 0) by (unfold zlen, range; rewrite length_seqZ; lia). f_equal. unfold nthZ, range.
  apply nth_lookup_Some, lookup_seqZ. lia.
Qed.
End Spec.
