(* ===== verification/SvTheorems.v ===== *)
(** Theorems on the smart vectors: reading, slicing and rotating a vector act on the
    vector it stands for, smaller and compact representations stand for the same
    vector. *)
From S2P Require Import Prelude SvIntervals SmartVectors SvSpec.
From Stdlib Require Import ZifyBool.

Section Theorems.
Context {F : Type} (zero : F) `{EqDecision F}.
Implicit Types (v : SmartVector (F := F)).
Local Abbreviation nthF := (nthZ zero).

(** C38.  Reading: for every representation, [Get], [GetPtr], [WriteInSlice] and
    [IntoRegVecSaveAlloc] read the same vector, and none of them panics. *)
Theorem accessors_agree v :
  sv_ok v ->
  (forall i, 0 <= i < Len v -> exists x, Get v i = Ok x /\ GetPtr v i = Ok x /\ values zero v !! Z.to_nat i = Some x) /\
  (forall buff, zlen buff = Len v -> WriteInSlice v buff = Ok (values zero v)) /\
  IntoRegVecSaveAlloc zero v = Ok (values zero v).
Proof.
  intros Hok. split; [|split].
  - intros i Hi. exists (at_ zero v i). rewrite (Get_at zero), (GetPtr_at zero) by done. split; [done|]. split; [done|].
    unfold values, range. rewrite list_lookup_fmap. rewrite (proj2 (lookup_seqZ 0 (Len v - 0) (Z.to_nat i) i)) by lia. done.
  - intros buff Hb. by apply WriteInSlice_values.
  - by apply IntoRegVecSaveAlloc_values.
Qed.

(**  Slicing: [SubVector] of every representation, in each of its cases, returns a
    well-formed vector with the elements from [start] to [stop]; the case that the code
    calls unsupported does not occur.  An empty or reversed range panics. *)
Theorem SubVector_refines v start stop :
  sv_ok v ->
  (0 <= start < stop -> stop <= Len v ->
   exists v', SubVector zero v start stop = Ok v' /\ sv_ok v' /\
     values zero v' = take (Z.to_nat (stop - start)) (drop (Z.to_nat start) (values zero v))) /\
  (stop <= start -> start <= 2 ^ 61 -> - 2 ^ 61 <= stop -> SubVector zero v start stop = Panic).
Proof.
  intros Hok. split.
  - intros Hs Hst. destruct (SubVector_ok zero v start stop Hok Hs Hst) as (v' & -> & Hok' & Hl & Hat). exists v'. split; [done|]. split; [done|].
    assert (zlen (take (Z.to_nat (stop - start)) (drop (Z.to_nat start) (values zero v))) = stop - start) as El.
    { pose proof (values_length zero v ltac:(lia)) as E. unfold zlen in *. rewrite length_take, length_drop. lia. }
    apply (nthZ_ext zero); [rewrite values_length; lia|]. rewrite values_length by lia. intros i Hi. rewrite values_nth by lia. rewrite Hat by lia.
    destruct (slice_ok zero (values zero v) start stop) as (w & Hw & Hlw & Hn); [lia|rewrite values_length; lia|].
    unfold slice in Hw. replace (_ && _ && _) with true in Hw by (rewrite values_length by lia; lia). injection Hw as ->.
    rewrite Hn, values_nth by lia. done.
  - intros Hs H1 H2. destruct v as [c|r|r|p]; cbn [SubVector]; unfold window_SubVector, assertCorrectBound, assert_.
    + destruct (Z.ltb_spec stop start); [done|]. replace (start =? stop) with true by lia. done.
    + destruct (Z.ltb_spec stop start); [done|]. replace (start =? stop) with true by lia. done.
    + rewrite i64_small by lia. destruct (Z.leb_spec 0 (stop - start)); [|done]. cbn [mbind outcome_bind].
      unfold copySubVector, assert_. replace (negb (_ || _ || _ || _)) with false by lia. done.
    + destruct (start <? 0); [done|]. destruct (TotLen_ p <=? start); [done|]. destruct (TotLen_ p + 1 <=? stop); [done|].
      destruct (Z.ltb_spec stop start); [done|]. replace (start =? stop) with true by lia. done.
Qed.

Lemma at_window_shift p k i :
  window_ok p -> at_window zero (mkWindow (Window_ p) (PaddingVal_ p) (TotLen_ p) ((Offset_ p + k) mod TotLen_ p)) i
                 = at_window zero p ((i - k) mod TotLen_ p).
Proof.
  intros [Hw Ho]. unfold at_window. cbn [Window_ PaddingVal_ TotLen_ Offset_].
  replace ((i - (Offset_ p + k) mod TotLen_ p) mod TotLen_ p) with (((i - k) mod TotLen_ p - Offset_ p) mod TotLen_ p); [done|].
  rewrite Zminus_mod_idemp_l, Zminus_mod_idemp_r. f_equal. lia.
Qed.

(**  [RotateRight] rotates to the right, as its name says, except on a vector that
    is already rotated, which it rotates to the left. *)
Theorem RotateRight_direction v k :
  sv_ok v -> - Len v <= k <= Len v -> k <= 2 ^ 40 ->
  exists v', RotateRight v k = Ok v' /\ Len v' = Len v /\
    forall i, 0 <= i < Len v ->
      at_ zero v' i = at_ zero v ((match v with SRotated _ => i + k | _ => i - k end) mod Len v).
Proof.
  intros [Hl Hv] Hk Hk'. pose proof Hl as Hl'. unfold max_len in Hl'. destruct v as [c|r|r|p]; cbn [RotateRight Len] in *.
  - rewrite NewConstant_ok by lia. by eexists.
  - rewrite i64_small by lia. rewrite NewRotated_ok by lia. eexists. split; [reflexivity|]. split; [done|]. intros i Hi. done.
  - unfold assert_. replace (negb (2 ^ 40 <? k)) with true by lia. cbn [mbind outcome_bind]. rewrite NewRotated_ok by lia. cbn [mbind outcome_bind r_v r_offset].
    rewrite i64_small by lia. eexists. split; [reflexivity|]. split; [done|]. intros i Hi. cbn [at_ r_v r_offset]. f_equal.
    rewrite Zplus_mod_idemp_l. f_equal. lia.
  - destruct Hv as [Hw Ho]. rewrite i64_small by lia. destruct (NewWindow_ok (Window_ p) (PaddingVal_ p) (Offset_ p + k) (TotLen_ p)) as [-> _]; [lia|].
    eexists. split; [reflexivity|]. split; [done|]. intros i Hi. cbn [at_]. by apply at_window_shift.
Qed.

(**  [SoftRotate] rotates ordinary and rotated vectors to the left, but windowed ones
    to the right. *)
Theorem SoftRotate_direction v k :
  sv_ok v -> - Len v <= k <= Len v ->
  exists v', SoftRotate v k = Ok v' /\ sv_ok v' /\ Len v' = Len v /\
    forall i, 0 <= i < Len v ->
      at_ zero v' i = at_ zero v ((match v with SWindow _ => i - k | _ => i + k end) mod Len v).
Proof.
  intros [Hl Hv] Hk. pose proof Hl as Hl'. unfold max_len in Hl'. destruct v as [c|r|r|p]; cbn [SoftRotate Len] in *.
  - eexists. split; [reflexivity|]. split; [split; done|]. done.
  - rewrite NewRotated_ok by lia. eexists. split; [reflexivity|]. split; [split; cbn; lia|]. split; [done|]. intros i Hi. done.
  - rewrite i64_small, PositiveMod_mod by lia. pose proof (Z.mod_pos_bound (k + r_offset r) (zlen (r_v r)) ltac:(lia)).
    rewrite NewRotated_ok by lia. eexists. split; [reflexivity|]. split; [split; cbn; lia|]. split; [done|]. intros i Hi. cbn [at_ r_v r_offset].
    f_equal. rewrite Zplus_mod_idemp_l, Zplus_mod_idemp_r. f_equal. lia.
  - destruct Hv as [Hw Ho]. rewrite i64_small, PositiveMod_mod by lia.
    destruct (NewWindow_ok (Window_ p) (PaddingVal_ p) ((Offset_ p + k) mod TotLen_ p) (TotLen_ p)) as [-> Hok]; [lia|].
    eexists. split; [reflexivity|]. split; [split; cbn; [lia|done]|]. split; [done|]. intros i Hi. cbn [at_]. rewrite Z.mod_mod by lia.
    by apply at_window_shift.
Qed.

(** ** Padding and smaller representations *)

Lemma LeftPadded_ok (l : list F) x n :
  zlen l <= n -> 0 < n <= max_len ->
  exists v, LeftPadded l x n = Ok v /\ represents zero v n (fun i => if i <? n - zlen l then x else nthF l (i - (n - zlen l))) /\
    (0 < zlen l < n -> exists p, v = SWindow p).
Proof.
  intros Hl Hn. pose proof (zlen_nonneg l). unfold LeftPadded, assert_. replace (negb (n <? zlen l)) with true by lia. cbn [mbind outcome_bind].
  destruct (Z.eqb_spec (zlen l) n) as [E|E].
  - rewrite NewRegular_ok by lia. eexists. split; [reflexivity|]. split; [|lia]. split; [split; cbn; [lia|done]|]. split; [done|].
    intros i Hi. cbn [at_]. ztests. f_equal. lia.
  - destruct (Z.eqb_spec (zlen l) 0) as [E0|E0].
    + rewrite NewConstant_ok by lia. eexists. split; [reflexivity|]. split; [|lia]. split; [split; cbn; [lia|done]|]. split; [done|].
      intros i Hi. cbn [at_]. ztests; done.
    + destruct (new_window_represents zero l x (n - zlen l) n (fun i => if i <? n - zlen l then x else nthF l (i - (n - zlen l))))
        as (r & -> & Hr); [lia..| |by eexists; split; [reflexivity|]; split; [|by exists r]].
      intros i Hi. cbn. ztests; done.
Qed.

Lemma RightPadded_ok (l : list F) x n :
  zlen l <= n -> 0 < n <= max_len ->
  exists v, RightPadded l x n = Ok v /\ represents zero v n (fun i => if i <? zlen l then nthF l i else x) /\
    (0 < zlen l < n -> exists p, v = SWindow p).
Proof.
  intros Hl Hn. pose proof (zlen_nonneg l). unfold RightPadded, assert_. replace (negb (n <? zlen l)) with true by lia. cbn [mbind outcome_bind].
  destruct (Z.eqb_spec (zlen l) n) as [E|E].
  - rewrite NewRegular_ok by lia. eexists. split; [reflexivity|]. split; [|lia]. split; [split; cbn; [lia|done]|]. split; [done|].
    intros i Hi. cbn [at_]. ztests; done.
  - destruct (Z.eqb_spec (zlen l) 0) as [E0|E0].
    + rewrite NewConstant_ok by lia. eexists. split; [reflexivity|]. split; [|lia]. split; [split; cbn; [lia|done]|]. split; [done|].
      intros i Hi. cbn [at_]. ztests; done.
    + destruct (new_window_represents zero l x 0 n (fun i => if i <? zlen l then nthF l i else x))
        as (r & -> & Hr); [lia..| |by eexists; split; [reflexivity|]; split; [|by exists r]].
      intros i Hi. cbn. rewrite Z.sub_0_r. ztests; done.
Qed.

Lemma run_length_spec x (l : list F) :
  (run_length x l <= length l)%nat /\ forall i, 0 <= i < Z.of_nat (run_length x l) -> nthF l i = x.
Proof.
  induction l as [|y l [IH1 IH2]]; cbn [run_length length]; [split; [lia|intros i Hi; lia]|].
  destruct (bool_decide (y = x)) eqn:E; [|split; [lia|intros i Hi; lia]]. apply bool_decide_eq_true in E as ->.
  split; [lia|]. intros i Hi. destruct (Z.eq_dec i 0) as [->|Hne]; [done|]. specialize (IH2 (i - 1) ltac:(lia)).
  unfold nthZ in *. replace (Z.to_nat i) with (S (Z.to_nat (i - 1))) by lia. done.
Qed.

Lemma tryIntoConstant_ok (w : list F) :
  0 < zlen w <= max_len ->
  exists r, tryIntoConstant w = Ok r /\
    match r with
    | Some c => represents zero (SConstant c) (zlen w) (nthF w)
    | None => zlen w = 1 \/ exists i, 0 <= i < zlen w /\ nthF w i <> nthF w 0
    end.
Proof.
  intros Hw. unfold tryIntoConstant. destruct (Z.leb_spec (zlen w) 1); [exists None; split; [done|left; lia]|].
  assert (0 <= zlen w / 2 < zlen w) as Hm by golia.
  rewrite !(index_nthZ zero) by lia. cbn [mbind outcome_bind].
  destruct (bool_decide (nthF w 0 = nthF w 1)) eqn:E1; cbn [negb]; [|apply bool_decide_eq_false in E1; exists None; split; [done|right; exists 1; split; [lia|congruence]]].
  destruct (bool_decide (nthF w 0 = nthF w (zlen w - 1))) eqn:E2; cbn [negb];
    [|apply bool_decide_eq_false in E2; exists None; split; [done|right; exists (zlen w - 1); split; [lia|congruence]]].
  destruct (bool_decide (nthF w 0 = nthF w (zlen w / 2))) eqn:E3; cbn [negb];
    [|apply bool_decide_eq_false in E3; exists None; split; [done|right; exists (zlen w / 2); split; [lia|congruence]]].
  destruct (forallb _ w) eqn:E4; cbn [negb].
  - rewrite NewConstant_ok by lia. eexists. split; [reflexivity|]. split; [split; cbn; [lia|done]|]. split; [done|]. intros i Hi. cbn [at_ Value].
    rewrite forallb_forall in E4. specialize (E4 (nthF w i)). rewrite bool_decide_eq_true in E4. symmetry. apply E4.
    apply nth_In. unfold zlen in Hi. lia.
  - exists None. split; [done|]. right. apply not_true_iff_false in E4. destruct (decide (Exists (fun x => x <> nthF w 0) w)) as [He|He].
    + apply Exists_exists in He as (x & Hx & Hne). apply list_elem_of_lookup in Hx as (i & Hi). exists (Z.of_nat i).
      pose proof (lookup_lt_Some _ _ _ Hi). split; [unfold zlen; lia|]. unfold nthZ at 1. rewrite Nat2Z.id. by rewrite (nth_lookup_Some _ _ _ _ Hi).
    + exfalso. apply E4. rewrite forallb_forall. intros x Hx. apply bool_decide_eq_true. destruct (decide (x = nthF w 0)) as [|Hne]; [done|].
      exfalso. apply He, Exists_exists. exists x. split; [by apply list_elem_of_In|done].
Qed.

Lemma nthZ_drop1 (l : list F) i : 0 <= i -> nthF (drop 1 l) i = nthF l (i + 1).
Proof. intros Hi. unfold nthZ. replace (Z.to_nat (i + 1)) with (S (Z.to_nat i)) by lia. destruct l; [|done]. cbn. by destruct (Z.to_nat i). Qed.

Lemma nthZ_reverse (l : list F) i : 0 <= i < zlen l -> nthF (reverse l) i = nthF l (zlen l - 1 - i).
Proof.
  intros Hi. unfold nthZ, zlen in *. apply nth_lookup_Some. rewrite reverse_lookup by lia.
  destruct (l !! (length l - S (Z.to_nat i))%nat) as [x|] eqn:E; [|apply lookup_ge_None in E; lia].
  f_equal. symmetry. apply nth_lookup_Some. rewrite <- E. f_equal. lia.
Qed.

Lemma tryIntoLeftPadded_ok (w : list F) :
  0 < zlen w <= max_len -> zlen w = 1 \/ (exists i, 0 <= i < zlen w /\ nthF w i <> nthF w 0) ->
  exists r, tryIntoLeftPadded w = Ok r /\ match r with Some p => represents zero (SWindow p) (zlen w) (nthF w) | None => True end.
Proof.
  intros Hw Hne. unfold tryIntoLeftPadded. rewrite (index_nthZ zero) by lia. cbn [mbind outcome_bind].
  destruct (run_length_spec (nthF w 0) (drop 1 w)) as [Hr1 Hr2]. rewrite length_drop in Hr1.
  set (k := Z.of_nat (run_length (nthF w 0) (drop 1 w))) in *. assert (0 <= k <= zlen w - 1) as Bk by (unfold zlen, k in *; lia).
  destruct (Z.eqb_spec k 0); [by exists None|].
  assert (forall i, 0 <= i <= k -> nthF w i = nthF w 0) as Hrun.
  { intros i Hi. destruct (Z.eq_dec i 0) as [->|]; [done|]. specialize (Hr2 (i - 1) ltac:(lia)). rewrite nthZ_drop1 in Hr2 by lia.
    by replace (i - 1 + 1) with i in Hr2 by lia. }
  assert (k <> zlen w - 1) as Hk.
  { intros ->. destruct Hne as [?|(i & Hi & Hne)]; [lia|]. apply Hne, Hrun. lia. }
  unfold assert_. replace (negb (k =? zlen w - 1)) with true by lia. cbn [mbind outcome_bind].
  destruct (slice_ok zero w (k + 1) (zlen w)) as (rest & -> & Hl & Hn); [lia..|]. cbn [mbind outcome_bind].
  destruct (LeftPadded_ok rest (nthF w 0) (zlen w)) as (v & -> & Hv & Hp); [lia..|]. cbn [mbind outcome_bind].
  destruct Hp as (p & ->); [lia|]. cbn [as_window mbind outcome_bind]. exists (Some p). split; [done|].
  destruct Hv as (H1 & H2 & H3). split; [done|]. split; [done|]. intros i Hi. rewrite H3 by done. rewrite Hl. ztests.
  - symmetry. apply Hrun. lia.
  - rewrite Hn by lia. f_equal. lia.
Qed.

Lemma tryIntoRightPadded_ok (w : list F) :
  0 < zlen w <= max_len ->
  exists r, tryIntoRightPadded w = Ok r /\ match r with Some p => represents zero (SWindow p) (zlen w) (nthF w) | None => True end.
Proof.
  intros Hw. unfold tryIntoRightPadded. rewrite (index_nthZ zero) by lia. cbn [mbind outcome_bind].
  set (last := nthF w (zlen w - 1)). destruct (run_length_spec last (drop 1 (reverse w))) as [Hr1 Hr2]. rewrite length_drop, length_reverse in Hr1.
  set (k := Z.of_nat (run_length last (drop 1 (reverse w)))) in *. assert (0 <= k <= zlen w - 1) as Bk by (unfold zlen, k in *; lia).
  assert (forall i, zlen w - 1 - k <= i < zlen w -> nthF w i = last) as Hrun.
  { intros i Hi. destruct (Z.eq_dec i (zlen w - 1)) as [->|]; [done|]. specialize (Hr2 (zlen w - 2 - i) ltac:(lia)).
    rewrite nthZ_drop1, nthZ_reverse in Hr2 by lia. rewrite <- Hr2. f_equal. lia. }
  destruct (Z.eqb_spec k (zlen w - 1)); [replace (zlen w - (zlen w - 1) <? 1000) with true by lia; by exists None|].
  destruct (_ <? 1000); [by exists None|].
  destruct (slice_ok zero w 0 (zlen w - 1 - k)) as (rest & -> & Hl & Hn); [lia..|]. cbn [mbind outcome_bind].
  destruct (RightPadded_ok rest last (zlen w)) as (v & -> & Hv & Hp); [lia..|]. cbn [mbind outcome_bind].
  destruct Hp as (p & ->); [lia|]. cbn [as_window mbind outcome_bind]. exists (Some p). split; [done|].
  destruct Hv as (H1 & H2 & H3). split; [done|]. split; [done|]. intros i Hi. rewrite H3 by done. rewrite Hl. ztests.
  - rewrite Hn by lia. f_equal.
  - symmetry. apply Hrun. lia.
Qed.

Lemma represents_values v v' : sv_ok v -> represents zero v' (Len v) (at_ zero v) -> sv_ok v' /\ values zero v' = values zero v.
Proof.
  intros [Hl _] (Hok & E & Hat). split; [done|]. unfold values. rewrite E. apply list_fmap_ext. intros i x Hx.
  apply lookup_seqZ in Hx as [-> Hx]. apply Hat. lia.
Qed.

(**  Reducing the size of a vector, by a constant or by padding on either side, never
    panics and changes neither its elements nor their order. *)
Theorem TryReduceSize_same v :
  sv_ok v ->
  (exists v' saved, TryReduceSizeLeft v = Ok (v', saved) /\ sv_ok v' /\ values zero v' = values zero v) /\
  (exists v' saved, TryReduceSizeRight v = Ok (v', saved) /\ sv_ok v' /\ values zero v' = values zero v).
Proof.
  intros Hok. destruct v as [c|w|r|p]; cbn [TryReduceSizeLeft TryReduceSizeRight]; try (split; by eexists _, _).
  pose proof Hok as [Hl _]. cbn [Len] in Hl. destruct (tryIntoConstant_ok w Hl) as ([c|] & -> & Hc); cbn [mbind outcome_bind].
  { pose proof (represents_values (SRegular w) (SConstant c) Hok Hc) as [H1 H2]. split; eexists _, _; (split; [reflexivity|done]). }
  split.
  - destruct (tryIntoLeftPadded_ok w Hl Hc) as ([p|] & -> & Hp); cbn [mbind outcome_bind]; [|by eexists _, _].
    pose proof (represents_values (SRegular w) (SWindow p) Hok Hp) as [H1 H2]. eexists _, _. split; [reflexivity|done].
  - destruct (tryIntoRightPadded_ok w Hl) as ([p|] & -> & Hp); cbn [mbind outcome_bind]; [|by eexists _, _].
    pose proof (represents_values (SRegular w) (SWindow p) Hok Hp) as [H1 H2]. eexists _, _. split; [reflexivity|done].
Qed.

(** ** Compact forms *)

(** The vectors that [FromCompactWithShape] accepts. *)
Definition compactable v : Prop :=
  match v with
  | SRotated _ => False
  | SWindow p => Offset_ p = 0 \/ Offset_ p + zlen (Window_ p) = TotLen_ p
  | _ => True
  end.

Lemma index_app_r (l k : list F) x : index (l ++ x :: k) (zlen l) = Ok x.
Proof.
  rewrite (index_nthZ zero); [|unfold zlen; rewrite length_app; cbn; lia]. rewrite nthZ_app by (unfold zlen; lia).
  rewrite Z.ltb_irrefl, Z.sub_diag. done.
Qed.

Lemma index_head (l : list F) x : index (x :: l) 0 = Ok x.
Proof. reflexivity. Qed.

(**  The compact form of a vector that is constant, ordinary, or padded on one side
    gives the vector back. *)
Theorem compact_roundtrip v :
  sv_ok v -> compactable v ->
  exists c v', IterateCompact zero v = Ok c /\ FromCompactWithShape v c = Ok v' /\ sv_ok v' /\ values zero v' = values zero v.
Proof.
  intros Hok Hc. pose proof Hok as [Hl Hv]. destruct v as [c|w|r|p]; cbn [IterateCompact FromCompactWithShape Len compactable] in *; [| |done|].
  - eexists _, _. split; [reflexivity|]. rewrite index_head. cbn [mbind outcome_bind]. rewrite NewConstant_ok by lia. split; [reflexivity|]. by destruct c.
  - eexists _, _. split; [reflexivity|]. unfold assert_. rewrite Z.eqb_refl. cbn [mbind outcome_bind]. rewrite NewRegular_ok by lia.
    split; [reflexivity|done].
  - destruct Hv as [Hw Ho]. replace (_ && negb (_ =? TotLen_ p)) with false by lia. pose proof (zlen_nonneg (Window_ p)).
    destruct (Z.eqb_spec (Offset_ p) 0) as [E0|E0].
    + replace (0 <? Offset_ p) with false by lia. replace (_ <? TotLen_ p) with true by lia. cbn [app].
      set (c := Window_ p ++ [PaddingVal_ p]). assert (zlen c - 1 = zlen (Window_ p)) as Ec by (unfold c; rewrite zlen_app; change (zlen [PaddingVal_ p]) with 1; lia).
      destruct (RightPadded_ok (Window_ p) (PaddingVal_ p) (TotLen_ p)) as (v' & Hv' & Hr & _); [lia..|]. exists c, v'. split; [reflexivity|].
      rewrite Ec. unfold assert_. rewrite Z.eqb_refl. cbn [mbind outcome_bind]. assert (index c (zlen (Window_ p)) = Ok (PaddingVal_ p)) as -> by apply index_app_r. cbn [mbind outcome_bind].
      assert (slice c 0 (zlen (Window_ p)) = Ok (Window_ p)) as ->.
      { unfold slice. replace (_ && _ && _) with true by lia. unfold c, zlen. rewrite Z.sub_0_r, Nat2Z.id.
        change (Z.to_nat 0) with 0%nat. rewrite drop_0. by rewrite take_app_length. }
      cbn [mbind outcome_bind]. split; [exact Hv'|]. apply represents_values; [done|]. destruct Hr as (H1 & H2 & H3). split; [done|]. split; [done|].
      intros i Hi. cbn [Len] in Hi. rewrite H3 by done. cbn [at_]. unfold at_window. rewrite E0, Z.sub_0_r, Z.mod_small by lia. done.
    + replace (0 <? Offset_ p) with true by lia. replace (_ <? TotLen_ p) with false by lia. rewrite app_nil_r. cbn [app].
      set (c := PaddingVal_ p :: Window_ p). assert (zlen c = zlen (Window_ p) + 1) as Ec by (unfold c, zlen; cbn [length]; lia).
      destruct (LeftPadded_ok (Window_ p) (PaddingVal_ p) (TotLen_ p)) as (v' & Hv' & Hr & _); [lia..|]. exists c, v'. split; [reflexivity|].
      replace (Offset_ p + zlen (Window_ p) =? TotLen_ p) with true by lia. rewrite Ec. unfold assert_.
      replace (zlen (Window_ p) =? zlen (Window_ p) + 1 - 1) with true by lia. cbn [mbind outcome_bind]. assert (index c 0 = Ok (PaddingVal_ p)) as -> by apply index_head. cbn [mbind outcome_bind].
      assert (slice c 1 (zlen (Window_ p) + 1) = Ok (Window_ p)) as ->.
      { unfold slice. replace (_ && _ && _) with true by lia. unfold c. change (drop (Z.to_nat 1) (PaddingVal_ p :: Window_ p)) with (Window_ p).
        f_equal. apply take_ge. unfold zlen. lia. }
      cbn [mbind outcome_bind]. split; [exact Hv'|]. apply represents_values; [done|]. destruct Hr as (H1 & H2 & H3). split; [done|]. split; [done|].
      intros i Hi. cbn [Len] in Hi. rewrite H3 by done. cbn [at_]. unfold at_window. rewrite mod_cases by lia. ztests; try done. f_equal. lia.
Qed.

(** The vector is padded outside of the range. *)
Definition inside (s e : Z) v : Prop :=
  match v with
  | SConstant _ => True
  | SWindow p => s <= Offset_ p /\ Offset_ p + zlen (Window_ p) <= e
  | _ => False
  end.

Lemma inside_mono s e s' e' v : inside s e v -> s' <= s -> e <= e' -> inside s' e' v.
Proof. destruct v; cbn; try done. lia. Qed.

Lemma inside_padding s e v i j :
  sv_ok v -> inside s e v -> e <= Len v -> 0 <= i < Len v -> 0 <= j < Len v -> i < s \/ e <= i -> j < s \/ e <= j -> at_ zero v i = at_ zero v j.
Proof.
  intros [Hl Hv] Hin He Hi Hj Hi' Hj'. destruct v as [c|w|r|p]; cbn [inside at_ Len] in *; try done. destruct Hv as [Hw Ho].
  unfold at_window. rewrite !mod_cases by lia. ztests; done.
Qed.

Section Ranges.
Context (n : Z).

Definition of_length v : Prop := sv_ok v /\ Len v = n.

Lemma CoWindowRange_loop_ok svs found s e s' e' :
  Forall of_length svs -> 0 <= s <= e -> e <= n -> (found = false -> e = 0) -> (found = true -> s < e) ->
  CoWindowRange_loop (Some <$> svs) found s e = (s', e') ->
  s' = 0 /\ e' = n \/
  (0 <= s' <= e' /\ e' <= n /\ (s' < e' \/ e' = 0) /\ (found = true -> s' <= s /\ e <= e') /\ Forall (inside s' e') svs).
Proof.
  revert found s e. induction svs as [|v svs IH]; intros found s e Hok Hse He Hf Ht.
  - cbn. intros [= <- <-]. right. split; [lia|]. split; [done|]. split; [destruct found; [left; auto|right; auto]|]. done.
  - apply Forall_cons in Hok as [[[Hl Hv] Hn] Hok]. destruct v as [c|w|r|p]; cbn [fmap list_fmap CoWindowRange_loop Len] in *.
    + intros E. destruct (IH found s e Hok Hse He Hf Ht E) as [?|(? & ? & ? & ? & ?)]; [by left|]. right. split_and!; try done; try lia. by constructor.
    + intros [= <- <-]. left. lia.
    + intros [= <- <-]. left. lia.
    + destruct Hv as [Hw Ho]. destruct (Z.ltb_spec (TotLen_ p) (Offset_ p + zlen (Window_ p))); [intros [= <- <-]; left; lia|].
      destruct found; cbn [negb]; intros E; apply IH in E; try done; try lia.
      * destruct E as [?|(? & ? & ? & Hm & ?)]; [by left|]. specialize (Hm eq_refl). right. split_and!; try done; try lia. constructor; [cbn; lia|done].
      * destruct E as [?|(? & ? & ? & Hm & ?)]; [by left|]. specialize (Hm eq_refl). right. split_and!; try done; try lia. constructor; [cbn; lia|done].
Qed.

Definition part v (start stop : Z) : list F := at_ zero v <$> range start stop.

Lemma part_spec v start stop :
  0 <= start <= stop -> zlen (part v start stop) = stop - start /\
  forall i, 0 <= i < stop - start -> nthF (part v start stop) i = at_ zero v (start + i).
Proof.
  intros H. unfold part, range. split; [unfold zlen; rewrite length_fmap, length_seqZ; lia|]. intros i Hi.
  rewrite (nthZ_fmap 0) by (unfold zlen; rewrite length_seqZ; lia). f_equal. apply nth_lookup_Some, lookup_seqZ. lia.
Qed.

(** A range outside of which the vector is padded, and that keeps one position of the
    padding on each side where there is one. *)
Definition compact_range v (start stop : Z) : Prop :=
  0 <= start < stop /\ stop <= n /\
  (start = 0 /\ stop = n \/
   exists s e, inside s e v /\ 0 <= s <= e /\ e <= n /\ (s < e \/ e = 0) /\
     start = (if 0 <? s then s - 1 else s) /\ stop = (if e <? n then e + 1 else e)).

Lemma padding_from v s e i j :
  of_length v -> inside s e v -> e <= n -> 0 <= i < n -> 0 <= j < n -> i < s \/ e <= i -> j < s \/ e <= j ->
  at_ zero v i = at_ zero v j.
Proof. intros [Hok El] Hin He Hi Hj. apply inside_padding with (1 := Hok) (2 := Hin); lia. Qed.

Lemma FromCompactWithRange_ok v start stop :
  of_length v -> compact_range v start stop ->
  exists v', FromCompactWithRange (part v start stop) start stop n = Ok v' /\ represents zero v' n (at_ zero v).
Proof.
  intros Hv (Hs & Hst & Hr). pose proof Hv as [[Hl _] El]. rewrite El in Hl. pose proof Hl as Hl'. unfold max_len in Hl'.
  destruct (part_spec v start stop) as [Hlen Hn]; [lia|]. set (c := part v start stop) in *. clearbody c.
  unfold FromCompactWithRange, assert_. rewrite !i64_small by lia. rewrite Hlen.
  replace (negb (stop - start + 2 <? stop - start)) with true by lia. replace (negb (n <? stop - start)) with true by lia. cbn [mbind outcome_bind].
  destruct (Z.eqb_spec (stop - start) 1) as [E1|E1].
  { rewrite (index_nthZ zero) by lia. cbn [mbind outcome_bind]. rewrite Hn, NewConstant_ok by lia. eexists. split; [reflexivity|].
    split; [split; cbn; [lia|done]|]. split; [done|]. intros i Hi. cbn [at_ Value]. rewrite Z.add_0_r.
    destruct Hr as [[-> ->]|(s & e & Hin & Hse & He & Hx & Ea & Eb)]; [f_equal; lia|].
    destruct Hx as [Hx|Hx]; [f_equal; ztests|]. apply (padding_from v s e); try done; try lia; ztests. }
  destruct ((start =? 0) && (stop =? n)) eqn:E2.
  { rewrite NewRegular_ok by lia. eexists. split; [reflexivity|]. split; [split; cbn; [lia|done]|]. split; [cbn; lia|].
    intros i Hi. cbn [at_]. rewrite Hn by lia. f_equal. lia. }
  destruct Hr as [?|(s & e & Hin & Hse & He & Hx & Ea & Eb)]; [lia|]. destruct (Z.eqb_spec start 0) as [E3|E3].
  { destruct (slice_ok zero c 0 (stop - start - 1)) as (w & -> & Hlw & Hnw); [lia..|]. cbn [mbind outcome_bind].
    rewrite (index_nthZ zero) by lia. cbn [mbind outcome_bind].
    destruct (RightPadded_ok w (nthF c (stop - start - 1)) n) as (v' & -> & (H1 & H2 & H3) & _); [lia..|]. exists v'. split; [done|]. split; [done|]. split; [done|].
    intros i Hi. rewrite H3 by done. rewrite Hlw. destruct (Z.ltb_spec i (stop - start - 1 - 0)).
    - rewrite Hnw, Hn by lia. f_equal. lia.
    - rewrite Hn by lia. apply (padding_from v s e); try done; try lia; ztests. }
  destruct (Z.eqb_spec stop n) as [E4|E4].
  { destruct (slice_ok zero c 1 (stop - start)) as (w & -> & Hlw & Hnw); [lia..|]. cbn [mbind outcome_bind].
    rewrite (index_nthZ zero) by lia. cbn [mbind outcome_bind].
    destruct (LeftPadded_ok w (nthF c 0) n) as (v' & -> & (H1 & H2 & H3) & _); [lia..|]. exists v'. split; [done|]. split; [done|]. split; [done|].
    intros i Hi. rewrite H3 by done. rewrite Hlw. destruct (Z.ltb_spec i (n - (stop - start - 1))).
    - rewrite Hn by lia. apply (padding_from v s e); try done; try lia; ztests.
    - rewrite Hnw, Hn by lia. f_equal. lia. }
  rewrite !(index_nthZ zero) by lia. cbn [mbind outcome_bind].
  assert (nthF c 0 = nthF c (stop - start - 1)) as E5.
  { rewrite !Hn by lia. apply (padding_from v s e); try done; try lia; ztests. }
  rewrite bool_decide_eq_true_2 by done. cbn [mbind outcome_bind].
  destruct (slice_ok zero c 1 (stop - start - 1)) as (w & -> & Hlw & Hnw); [ztests; lia..|]. cbn [mbind outcome_bind].
  destruct (new_window_represents zero w (nthF c 0) (start + 1) n (at_ zero v)) as (p & -> & Hp); [ztests; lia|lia|lia| |].
  { intros i Hi. cbn. rewrite Hlw. destruct (_ <? stop - start - 1 - 1) eqn:Eq.
    - rewrite Hnw, Hn by (ztests; lia). f_equal. ztests; lia.
    - rewrite Hn by lia. apply (padding_from v s e); try done; try lia; ztests. }
  eexists. split; [reflexivity|done].
Qed.

(**  Vectors of one length agree on a compact range, outside of which all of them are
    padded, and each of them is given back by its part in that range. *)
Theorem compact_range_roundtrip svs :
  svs <> [] -> Forall of_length svs ->
  exists start stop, CoCompactRange (Some <$> svs) = Ok (start, stop) /\ 0 <= start < stop /\ stop <= n /\
    forall v, v ∈ svs -> exists v', FromCompactWithRange (part v start stop) start stop n = Ok v' /\ sv_ok v' /\ values zero v' = values zero v.
Proof.
  intros Hne Hok. unfold CoCompactRange. destruct (CoWindowRange (Some <$> svs)) as [s e] eqn:E.
  destruct svs as [|v0 svs]; [done|]. cbn [fmap list_fmap head unwrap mbind outcome_bind].
  pose proof Hok as Hok'. apply Forall_cons in Hok' as [[[Hl0 _] El0] _]. rewrite El0 in *.
  apply CoWindowRange_loop_ok in E; [|done|lia|lia|done|done].
  set (start := if 0 <? s then s - 1 else s). set (stop := if e <? n then e + 1 else e).
  assert (forall v, v ∈ v0 :: svs -> compact_range v start stop) as Hcr.
  { intros v Hv. unfold compact_range, start, stop. destruct E as [[-> ->]|(H1 & H2 & H3 & _ & H4)]; [ztests|].
    rewrite Forall_forall in H4. split; [ztests|]. split; [ztests|]. right. exists s, e. split; [by apply H4|]. done. }
  exists start, stop. split; [done|]. pose proof (Hcr v0 ltac:(by left)) as (B1 & B2 & _). split; [done|]. split; [done|].
  intros v Hv. rewrite Forall_forall in Hok. destruct (FromCompactWithRange_ok v start stop (Hok v Hv) (Hcr v Hv)) as (v' & -> & Hr).
  exists v'. split; [done|]. destruct (Hok v Hv) as [Hokv El]. apply represents_values; [done|]. by rewrite El.
Qed.
End Ranges.
End Theorems.

(** ** Witnesses *)

(** A window that wraps around the end of a vector of eight elements. *)
Definition demo_window : PaddedCircularWindow (F := Z) := mkWindow [1; 2; 3] 9 8 6.

Lemma demo_window_ok : sv_ok (SWindow demo_window).
Proof. split; [split; [reflexivity|discriminate]|]. repeat split; (reflexivity || discriminate). Qed.

Example demo_window_values : values 0 (SWindow demo_window) = [3; 9; 9; 9; 9; 9; 1; 2].
Proof. reflexivity. Qed.

Lemma accessors_agree_witness :
  Get (SWindow demo_window) 0 = Ok 3 /\ IntoRegVecSaveAlloc 0 (SWindow demo_window) = Ok [3; 9; 9; 9; 9; 9; 1; 2].
Proof.
  destruct (accessors_agree 0 (SWindow demo_window) demo_window_ok) as (H1 & _ & H3). split; [|exact H3].
  destruct (H1 0 ltac:(split; [discriminate|reflexivity])) as (x & Hx & _ & [= <-]). exact Hx.
Defined.

Lemma SubVector_refines_witness :
  (exists v', SubVector 0 (SWindow demo_window) 5 8 = Ok v' /\ sv_ok v' /\ values 0 v' = [9; 1; 2]) /\
  SubVector 0 (SWindow demo_window) 5 5 = Panic.
Proof.
  split.
  - apply (SubVector_refines 0 (SWindow demo_window) 5 8 demo_window_ok); [split; [discriminate|reflexivity]|discriminate].
  - apply (SubVector_refines 0 (SWindow demo_window) 5 5 demo_window_ok); discriminate.
Defined.

(** A vector stored rotated by one position. *)
Definition demo_rotated : SmartVector (F := Z) := SRotated (mkRotated [1; 2; 3; 4] 1).

Lemma demo_rotated_ok : sv_ok demo_rotated.
Proof. split; split; (reflexivity || discriminate). Qed.

Lemma RotateRight_direction_witness :
  exists v', RotateRight demo_rotated 1 = Ok v' /\ at_ 0 v' 0 = at_ 0 demo_rotated 1.
Proof.
  destruct (RotateRight_direction 0 demo_rotated 1 demo_rotated_ok) as (v' & H1 & _ & H2); [split; discriminate|discriminate|].
  exists v'. split; [exact H1|]. rewrite (H2 0); [reflexivity|split; [discriminate|reflexivity]].
Defined.

(** The rotated vector leaves the range that its constructor allows, so that rotating it
    again panics. *)
Example RotateRight_leaves_range :
  (v ← RotateRight demo_rotated 3; v ← RotateRight v 1; RotateRight v 0) = Panic.
Proof. reflexivity. Qed.

Lemma SoftRotate_direction_witness :
  exists v', SoftRotate (SWindow demo_window) 1 = Ok v' /\ at_ 0 v' 7 = at_ 0 (SWindow demo_window) 6.
Proof.
  destruct (SoftRotate_direction 0 (SWindow demo_window) 1 demo_window_ok) as (v' & H1 & _ & _ & H2); [split; discriminate|].
  exists v'. split; [exact H1|]. rewrite (H2 7); [reflexivity|split; [discriminate|reflexivity]].
Defined.

Definition demo_regular : SmartVector (F := Z) := SRegular [5; 5; 5; 1; 2].

Lemma demo_regular_ok : sv_ok demo_regular.
Proof. split; [split; [reflexivity|discriminate]|exact I]. Qed.

Lemma TryReduceSize_same_witness :
  exists v' saved, TryReduceSizeLeft demo_regular = Ok (v', saved) /\ sv_ok v' /\ values 0 v' = [5; 5; 5; 1; 2].
Proof. exact (proj1 (TryReduceSize_same 0 demo_regular demo_regular_ok)). Defined.

Definition demo_padded : SmartVector (F := Z) := SWindow (mkWindow [1; 2] 7 5 3).

Lemma demo_padded_ok : sv_ok demo_padded.
Proof. split; [split; [reflexivity|discriminate]|]. repeat split; (reflexivity || discriminate). Qed.

Lemma compact_roundtrip_witness :
  exists c v', IterateCompact 0 demo_padded = Ok c /\ FromCompactWithShape demo_padded c = Ok v' /\ sv_ok v' /\
    values 0 v' = [7; 7; 7; 1; 2].
Proof. apply (compact_roundtrip 0 demo_padded demo_padded_ok). right. reflexivity. Defined.

Lemma compact_range_roundtrip_witness :
  exists start stop, CoCompactRange (Some <$> [demo_padded; SConstant (mkConstant 4 5)]) = Ok (start, stop) /\ 0 <= start < stop /\ stop <= 5 /\
    forall v, v ∈ [demo_padded; SConstant (mkConstant 4 5)] ->
      exists v', FromCompactWithRange (part 0 v start stop) start stop 5 = Ok v' /\ sv_ok v' /\ values 0 v' = values 0 v.
Proof.
  apply (compact_range_roundtrip 0 5); [discriminate|].
  constructor; [split; [exact demo_padded_ok|reflexivity]|]. constructor; [|constructor]. split; [split; [split; [reflexivity|discriminate]|exact I]|reflexivity].
Defined.
