(* ===== verification/SvOps.v ===== *)
(** Arithmetic on smart vectors: [arithmetic_op.go], [arithmetic_gen.go],
    [arithmetic_basic.go] and [polynomial.go] of [prover/maths/common/smartvectors],
    with [processWindowedOnly] and [processRegularOnly] of [windowed.go] and
    [regular.go], [poly.Eval], the helpers of [prover/maths/common/vector] and
    [field.ExpToInt].

    The field is the third-party package gnark-crypto: [FieldOps] lists the operations
    that the code calls and [FieldLaws] what they compute.  A method that writes into
    its first argument returns the new value of it.  [processOperator] may also replace
    entries of the slice that its caller passes: the models return that slice.  *)
From S2P Require Import Prelude SvIntervals SmartVectors.
From Stdlib Require Import Ring_theory.

(** ** The field *)

Class FieldOps (F : Type) := {
  f_eq_dec :: EqDecision F;
  f_zero : F;
  f_one : F;
  f_add : F -> F -> F;
  f_sub : F -> F -> F;
  f_mul : F -> F -> F;
  f_neg : F -> F;
  f_square : F -> F;
  f_inverse : F -> F;
  f_exp : F -> Z -> F;
  f_int64 : Z -> F;
  f_uint64 : Z -> F
}.

Class FieldLaws (F : Type) `{FieldOps F} := {
  f_ring : ring_theory f_zero f_one f_add f_mul f_sub f_neg (@eq F);
  f_square_ok x : f_square x = f_mul x x;
  f_exp_0 x : f_exp x 0 = f_one;
  f_exp_succ x k : 0 <= k -> f_exp x (k + 1) = f_mul x (f_exp x k);
  f_exp_neg x k : 0 < k -> f_exp x (- k) = f_exp (f_inverse x) k;
  f_int64_0 : f_int64 0 = f_zero;
  f_int64_succ k : - 2 ^ 63 <= k < 2 ^ 63 - 1 -> f_int64 (k + 1) = f_add (f_int64 k) f_one;
  f_uint64_ok k : 0 <= k < 2 ^ 63 -> f_uint64 k = f_int64 k
}.

Section Ops.
Context {F : Type} `{FieldOps F}.
Implicit Types (v : SmartVector (F := F)).

(** ** Helpers on slices *)

(** gnark-crypto's vector operations: the lengths must agree. *)
Definition vector_op (f : F -> F -> F) (a b : list F) : go (list F) :=
  _ ← assertHasLength (zlen a) (zlen b);
  Ok (zip_with f a b).

(** [for i := range res { res[i] = f(res[i], x[i]) }]. *)
Definition range_op (f : F -> F -> F) (res x : list F) : go (list F) :=
  _ ← assert_ (zlen res <=? zlen x);
  Ok (zip_with f res x).

Definition Fill (v : list F) (val : F) : list F := (fun _ => val) <$> v.

(** [bits.Len]. *)
Definition bits_Len (k : Z) : nat := if k =? 0 then 0%nat else S (Z.to_nat (Z.log2 k)).

Fixpoint exp_loop (i : nat) (z x : F) (k : Z) : F :=
  match i with
  | O => z
  | S i =>
      let z := f_square z in
      exp_loop i (if Z.testbit k (Z.of_nat i) then f_mul z x else z) x k
  end.

Definition ExpToInt (x : F) (k : Z) : F :=
  if k =? 0 then f_one else
  let x' := if k <? 0 then f_inverse x else x in
  let k' := if k <? 0 then i64 (- k) else k in
  exp_loop (bits_Len (u64 k') - 1) x' x' k'.

(** ** Operators *)

Inductive operator := linCombOp | productOp.

Definition constIntoConst (op : operator) (res x : F) (coeff : Z) : F :=
  match op with
  | linCombOp =>
      if coeff =? 1 then f_add res x
      else if coeff =? -1 then f_sub res x
      else if coeff =? 2 then f_add (f_add res x) x
      else if coeff =? -2 then f_sub (f_sub res x) x
      else f_add res (f_mul (f_int64 coeff) x)
  | productOp =>
      if coeff =? 0 then res
      else if coeff =? 1 then f_mul res x
      else if coeff =? 2 then f_mul (f_mul res x) x
      else if coeff =? 3 then f_mul res (f_mul (f_square x) x)
      else f_mul res (f_exp x coeff)
  end.

Definition vecIntoVec (op : operator) (res x : list F) (coeff : Z) : go (list F) :=
  _ ← assertHasLength (zlen res) (zlen x);
  match op with
  | linCombOp =>
      if coeff =? 1 then vector_op f_add res x
      else if coeff =? -1 then vector_op f_sub res x
      else if coeff =? 2 then range_op (fun r x => f_add (f_add r x) x) res x
      else if coeff =? -2 then range_op (fun r x => f_sub (f_sub r x) x) res x
      else range_op (fun r x => f_add r (f_mul (f_int64 coeff) x)) res x
  | productOp =>
      if coeff =? 0 then Ok res
      else if coeff =? 1 then vector_op f_mul res x
      else if coeff =? 2 then range_op (fun r x => f_mul (f_mul r x) x) res x
      else if coeff =? 3 then range_op (fun r x => f_mul r (f_mul (f_square x) x)) res x
      else range_op (fun r x => f_mul r (ExpToInt x coeff)) res x
  end.

Definition constIntoTerm (op : operator) (x : F) (coeff : Z) : F :=
  match op with
  | linCombOp =>
      if coeff =? 1 then x
      else if coeff =? -1 then f_neg x
      else if coeff =? 2 then f_add x x
      else if coeff =? -2 then f_neg (f_add x x)
      else f_mul (f_int64 coeff) x
  | productOp =>
      if coeff =? 0 then f_one
      else if coeff =? 1 then x
      else if coeff =? 2 then f_square x
      else if coeff =? 3 then f_mul (f_square x) x
      else f_exp x coeff
  end.

Definition vecIntoTerm (op : operator) (term x : list F) (coeff : Z) : go (list F) :=
  match op with
  | linCombOp =>
      if coeff =? 1 then Ok (copy term x)
      else if coeff =? -1 then range_op (fun _ x => f_neg x) term x
      else if coeff =? 2 then _ ← assertHasLength (zlen term) (zlen x); vector_op f_add x x
      else if coeff =? -2 then range_op (fun _ x => f_neg (f_add x x)) term x
      else range_op (fun _ x => f_mul (f_int64 coeff) x) term x
  | productOp =>
      if coeff =? 0 then Ok (Fill term f_one)
      else if coeff =? 1 then Ok (copy term x)
      else if coeff =? 2 then _ ← assertHasLength (zlen term) (zlen x); vector_op f_mul x x
      else if coeff =? 3 then range_op (fun _ x => f_mul (f_square x) x) term x
      else range_op (fun _ x => f_exp x coeff) term x
  end.

Definition constTermIntoConst (op : operator) (res term : F) : F :=
  match op with linCombOp => f_add res term | productOp => f_mul res term end.

Definition vecTermIntoVec (op : operator) (res term : list F) : go (list F) :=
  match op with linCombOp => vector_op f_add res term | productOp => vector_op f_mul res term end.

Definition constTermIntoVec (op : operator) (res : list F) (term : F) : list F :=
  match op with linCombOp => (fun r => f_add r term) <$> res | productOp => (fun r => f_mul r term) <$> res end.

Definition constIntoVec (op : operator) (res : list F) (x : F) (coeff : Z) : list F :=
  constTermIntoVec op res (constIntoTerm op x coeff).

(** ** The three passes of an operation *)

(** The vectors with their coefficients. *)
Abbreviation terms := (list (SmartVector (F := F) * Z)).

(** The state of the loop is the number of matches and the accumulated value. *)
Definition const_step (op : operator) (st : nat * F) (t : SmartVector (F := F) * Z) : nat * F :=
  match t.1 with
  | SConstant c =>
      if (st.1 <? 1)%nat then (S st.1, constIntoTerm op (Value c) t.2)
      else (S st.1, constIntoConst op st.2 (Value c) t.2)
  | _ => st
  end.

Definition processConstOnly (op : operator) (svecs : list SmartVector) (coeffs : list Z) : go (option (Constant (F := F)) * nat) :=
  let '(numMatches, constVal) := foldl (const_step op) (0%nat, f_zero) (zip svecs coeffs) in
  if (numMatches =? 0)%nat then Ok (None, 0%nat) else
  s0 ← unwrap (head svecs);
  Ok (Some (mkConstant constVal (Len s0)), numMatches).

Definition windows_of (ts : terms) : list (PaddedCircularWindow (F := F) * Z) :=
  omap (fun t => match t.1 with SWindow p => Some (p, t.2) | _ => None end) ts.

(** One window of [processWindowedOnly]: the state is [isFirst], the union window and
    the padded term. *)
Definition window_step (op : operator) (offset length : Z) (st : bool * list F * F)
    (w : PaddedCircularWindow (F := F) * CircularInterval * Z) : go (bool * list F * F) :=
  let '(isFirst, unionWindow, paddedTerm) := st in
  let '(pcw, ival, coeff) := w in
  let start_ := normalize (Start ival) offset length in
  let stop_ := normalize (Stop ival) offset length in
  let stop_ := if stop_ =? 0 then length else stop_ in
  if isFirst : bool then
    mid ← slice unionWindow start_ stop_;
    mid ← vecIntoTerm op mid (Window_ pcw) coeff;
    let paddedTerm := constIntoTerm op (PaddingVal_ pcw) coeff in
    left ← slice unionWindow 0 start_;
    right ← slice unionWindow stop_ (zlen unionWindow);
    Ok (false, Fill left paddedTerm ++ mid ++ Fill right paddedTerm, paddedTerm)
  else
    _ ← assert_ (stop_ - start_ =? zlen (Window_ pcw));
    mid ← slice unionWindow start_ stop_;
    mid ← vecIntoVec op mid (Window_ pcw) coeff;
    let paddedTerm := constIntoConst op paddedTerm (PaddingVal_ pcw) coeff in
    left ← slice unionWindow 0 start_;
    right ← slice unionWindow stop_ (zlen unionWindow);
    Ok (false, constIntoVec op left (PaddingVal_ pcw) coeff ++ mid ++ constIntoVec op right (PaddingVal_ pcw) coeff, paddedTerm).

(** The windows become ordinary vectors. *)
Definition unwindow v : go (SmartVector (F := F)) :=
  match v with
  | SWindow _ => temp ← IntoRegVecSaveAlloc f_zero v; r ← NewRegular temp; Ok (SRegular r)
  | _ => Ok v
  end.

Section Sorted.
Context (sort : list CircularInterval -> list CircularInterval).

(** The new slice of vectors, the partial result and the number of matches. *)
Definition processWindowedOnly (op : operator) (svecs : list SmartVector) (coeffs : list Z) :
    go (list SmartVector * option (SmartVector (F := F)) * nat) :=
  s0 ← unwrap (head svecs);
  let length := Len s0 in
  windows ← mapM_ (fun '(pcw, coeff) =>
      ival ← interval pcw;
      _ ← assertHasLength (TotLen_ pcw) length;
      Ok (pcw, ival, coeff)) (windows_of (zip svecs coeffs));
  let numMatches := List.length windows in
  if (numMatches =? 0)%nat then Ok (svecs, None, 0%nat) else
  smallestCover ← SmallestCoverInterval sort ((fun w => w.1.2) <$> windows);
  if IsFullCircle smallestCover then
    svecs ← mapM_ unwindow svecs;
    Ok (svecs, None, 0%nat)
  else
    _ ← assert_ (negb (Start smallestCover <? 0));
    let offset := Start smallestCover in
    '(_, unionWindow, paddedTerm) ← foldM (window_step op offset length)
      (true, replicate (Z.to_nat (IntervalLen smallestCover)) f_zero, f_zero) windows;
    if IsFullCircle smallestCover then r ← NewRegular unionWindow; Ok (svecs, Some (SRegular r), numMatches)
    else r ← NewPaddedCircularWindow unionWindow paddedTerm offset length; Ok (svecs, Some (SWindow r), numMatches).

Definition regular_step (op : operator) (length : Z) (st : option (list F) * nat) (t : SmartVector (F := F) * Z) :
    go (option (list F) * nat) :=
  reg ← match t.1 with
        | SRotated rot => r ← rotatedAsRegular f_zero rot; Ok (Some r)
        | SRegular reg => Ok (Some reg)
        | _ => Ok None
        end;
  match reg with
  | None => Ok st
  | Some reg =>
      match st.1 with
      | None =>
          r ← NewRegular (replicate (Z.to_nat length) f_zero);
          r ← vecIntoTerm op r reg t.2;
          Ok (Some r, S st.2)
      | Some resvec =>
          r ← vecIntoVec op resvec reg t.2;
          Ok (Some r, S st.2)
      end
  end.

Definition processRegularOnly (op : operator) (svecs : list SmartVector) (coeffs : list Z) : go (option (list F) * nat) :=
  s0 ← unwrap (head svecs);
  foldM (regular_step op (Len s0)) (None, 0%nat) (zip svecs coeffs).

(** The constant merged into the partial result of the windows. *)
Definition merge_const (op : operator) (windowRes : option (SmartVector (F := F))) (constRes : option (Constant (F := F))) :
    go (option (SmartVector (F := F))) :=
  match windowRes with
  | Some (SWindow w) =>
      c ← unwrap constRes;
      Ok (Some (SWindow (mkWindow (constTermIntoVec op (Window_ w) (Value c)) (constTermIntoConst op (PaddingVal_ w) (Value c))
                                  (TotLen_ w) (Offset_ w))))
  | Some (SRegular r) =>
      c ← unwrap constRes;
      Ok (Some (SRegular (constTermIntoVec op r (Value c))))
  | _ => Ok windowRes
  end.

(** The windowed result merged into the ordinary one. *)
Definition merge_window (op : operator) (regvec : list F) (w : PaddedCircularWindow (F := F)) : go (list F) :=
  ival ← interval w;
  let length := zlen regvec in
  if DoesWrapAround ival then
    left ← slice regvec 0 (Stop ival);
    wright ← slice (Window_ w) (length - Start ival) (zlen (Window_ w));
    left ← vecTermIntoVec op left wright;
    right ← slice regvec (Start ival) length;
    wleft ← slice (Window_ w) 0 (length - Start ival);
    right ← vecTermIntoVec op right wleft;
    mid ← slice regvec (Stop ival) (Start ival);
    Ok (left ++ constTermIntoVec op mid (PaddingVal_ w) ++ right)
  else
    mid ← slice regvec (Start ival) (Stop ival);
    mid ← vecTermIntoVec op mid (Window_ w);
    left ← slice regvec 0 (Start ival);
    right ← slice regvec (Stop ival) length;
    Ok (constTermIntoVec op left (PaddingVal_ w) ++ mid ++ constTermIntoVec op right (PaddingVal_ w)).

(** A product whose constant factor is zero. *)
Definition zero_factor (op : operator) (constRes : option (Constant (F := F))) : bool :=
  match op, constRes with productOp, Some c => bool_decide (Value c = f_zero) | _, _ => false end.

(** The result, and the slice of the caller afterwards. *)
Definition processOperator (op : operator) (coeffs : list Z) (svecs : list SmartVector) :
    go (SmartVector (F := F) * list SmartVector) :=
  _ ← assert_ (zlen coeffs =? zlen svecs);
  _ ← assert_ (negb (zlen svecs =? 0));
  let totalToMatch := List.length svecs in
  s0 ← unwrap (head svecs);
  _ ← foldM (fun _ s => assertHasLength (Len s0) (Len s)) tt svecs;
  _ ← assertStrictPositiveLen (Len s0);
  '(constRes, matchedConst) ← processConstOnly op svecs coeffs;
  if (matchedConst =? totalToMatch)%nat then c ← unwrap constRes; Ok (SConstant c, svecs) else
  if zero_factor op constRes then c ← unwrap constRes; Ok (SConstant c, svecs) else
  '(svecs, windowRes, matchedWindow) ← processWindowedOnly op svecs coeffs;
  if (matchedWindow =? totalToMatch)%nat then r ← unwrap windowRes; Ok (r, svecs) else
  windowRes ← (if (0 <? matchedWindow)%nat && (0 <? matchedConst)%nat then merge_const op windowRes constRes else Ok windowRes);
  if (matchedWindow + matchedConst =? totalToMatch)%nat then r ← unwrap windowRes; Ok (r, svecs) else
  '(regularRes, matchedRegular) ← processRegularOnly op svecs coeffs;
  _ ← assert_ (matchedConst + matchedWindow + matchedRegular =? totalToMatch)%nat;
  regvec ← unwrap regularRes;
  if (matchedRegular =? totalToMatch)%nat then Ok (SRegular regvec, svecs)
  else if (matchedRegular + matchedConst =? totalToMatch)%nat then
    c ← unwrap constRes;
    Ok (SRegular (constTermIntoVec op regvec (Value c)), svecs)
  else
    match windowRes with
    | Some (SRegular w) => r ← vecTermIntoVec op regvec w; Ok (SRegular r, svecs)
    | Some (SWindow w) => r ← merge_window op regvec w; Ok (SRegular r, svecs)
    | _ => Panic
    end.

Definition LinComb (coeffs : list Z) (svecs : list SmartVector) : go (SmartVector (F := F) * list SmartVector) :=
  s0 ← unwrap (head svecs);
  _ ← foldM (fun _ s => assertHasLength (Len s) (Len s0)) tt svecs;
  processOperator linCombOp coeffs svecs.

Definition Product (exponents : list Z) (svecs : list SmartVector) : go (SmartVector (F := F) * list SmartVector) :=
  processOperator productOp exponents svecs.

(** ** Basic operations *)

Definition Add (vecs : list SmartVector) : go (SmartVector (F := F) * list SmartVector) :=
  LinComb ((fun _ => 1) <$> vecs) vecs.

Definition Mul (vecs : list SmartVector) : go (SmartVector (F := F) * list SmartVector) :=
  Product ((fun _ => 1) <$> vecs) vecs.

Definition ScalarMul (vec : SmartVector (F := F)) (x : F) : go (SmartVector (F := F)) :=
  xVec ← NewConstant x (Len vec);
  r ← Mul [vec; SConstant xVec]; Ok r.1.
End Sorted.

Definition InnerProduct (a b : SmartVector (F := F)) : go F :=
  _ ← assert_ (Len a =? Len b);
  foldM (fun res i => a_ ← Get a i; b_ ← Get b i; Ok (f_add res (f_mul a_ b_))) f_zero (range 0 (Len a)).

(** [poly.Eval]. *)
Definition Eval (pol : list F) (x : F) : F := foldr (fun c res => f_add (f_mul res x) c) f_zero pol.

Definition accumulateReg (length : Z) (acc v : list F) (x : F) : go (list F) :=
  foldM (fun acc i => vi ← index v i; ai ← index acc i; set_index acc i (f_add ai (f_mul vi x))) acc (range 0 length).

(** The state of [LinearCombination]: the ordinary part, the constant, which of them
    were found, and the power of [x]. *)
Record lc_state := mkLc { resReg : list F; resCon : F; anyReg : bool; anyCon : bool; xPow : F }.

Definition lc_step (length : Z) (x : F) (st : lc_state) v : go lc_state :=
  v ← match v with SRotated r => r ← rotatedAsRegular f_zero r; Ok (SRegular r) | _ => Ok v end;
  let xPow' := f_mul x (xPow st) in
  match v with
  | SConstant c => Ok (mkLc (resReg st) (f_add (resCon st) (f_mul (Value c) (xPow st))) (anyReg st) true xPow')
  | SRegular r => acc ← accumulateReg length (resReg st) r (xPow st); Ok (mkLc acc (resCon st) true (anyCon st) xPow')
  | SWindow p =>
      tmpVec ← WriteInSlice v (replicate (Z.to_nat length) f_zero);
      acc ← accumulateReg length (resReg st) tmpVec (xPow st); Ok (mkLc acc (resCon st) true (anyCon st) xPow')
  | SRotated _ => Panic
  end.

Definition as_constant v : option (Constant (F := F)) := match v with SConstant c => Some c | _ => None end.

Definition LinearCombination (vecs : list SmartVector) (x : F) : go (SmartVector (F := F)) :=
  v0 ← unwrap (head vecs);
  let length := Len v0 in
  match mapM as_constant vecs with
  | Some cs => c ← NewConstant (Eval (Value <$> cs) x) length; Ok (SConstant c)
  | None =>
      st ← foldM (lc_step length x) (mkLc (replicate (Z.to_nat length) f_zero) f_zero false false f_one) vecs;
      match anyCon st, anyReg st with
      | true, true => r ← NewRegular ((fun r => f_add r (resCon st)) <$> resReg st); Ok (SRegular r)
      | true, false => c ← NewConstant (resCon st) length; Ok (SConstant c)
      | false, true => r ← NewRegular (resReg st); Ok (SRegular r)
      | false, false => Panic
      end
  end.

(** [field.BatchInvert] inverts the elements, zero to zero. *)
Definition BatchInvert (x : SmartVector (F := F)) : go (SmartVector (F := F)) :=
  match x with
  | SConstant c => Ok (SConstant (mkConstant (f_inverse (Value c)) (Length c)))
  | SWindow p => Ok (SWindow (mkWindow (f_inverse <$> Window_ p) (f_inverse (PaddingVal_ p)) (TotLen_ p) (Offset_ p)))
  | SRotated r => r ← NewRotated (f_inverse <$> r_v r) (r_offset r); Ok (SRotated r)
  | SRegular r => r ← NewRegular (f_inverse <$> r); Ok (SRegular r)
  end.

Definition zero_to_one (x : F) : F := if bool_decide (x = f_zero) then f_one else f_zero.

Definition IsZero (x : SmartVector (F := F)) : go (SmartVector (F := F)) :=
  match x with
  | SConstant c => Ok (SConstant (mkConstant (zero_to_one (Value c)) (Length c)))
  | SWindow p => Ok (SWindow (mkWindow (zero_to_one <$> Window_ p) (zero_to_one (PaddingVal_ p)) (TotLen_ p) (Offset_ p)))
  | SRotated r => r ← NewRotated (zero_to_one <$> r_v r) (r_offset r); Ok (SRotated r)
  | SRegular r => r ← NewRegular (zero_to_one <$> r); Ok (SRegular r)
  end.

Definition Sum (a : SmartVector (F := F)) : F :=
  match a with
  | SRegular v => foldl f_add f_zero v
  | SWindow v => f_add (foldl f_add f_zero (Window_ v)) (f_mul (f_uint64 (u64 (TotLen_ v - zlen (Window_ v)))) (PaddingVal_ v))
  | SConstant v => f_mul (f_uint64 (u64 (Length v))) (Value v)
  | SRotated v => foldl f_add f_zero (r_v v)
  end.

(** ** Polynomials in coefficient form *)

Definition PolyAdd (a b : SmartVector (F := F)) : go (SmartVector (F := F)) :=
  let '(small, large) := if Len b <? Len a then (b, a) else (a, b) in
  res ← WriteInSlice large (replicate (Z.to_nat (Len large)) f_zero);
  res ← foldM (fun acc i => x ← Get small i; ri ← index acc i; set_index acc i (f_add ri x)) res (range 0 (Len small));
  r ← NewRegular res; Ok (SRegular r).

Definition PolySub (a b : SmartVector (F := F)) : go (SmartVector (F := F)) :=
  let maxLen := Z.max (Len a) (Len b) in
  written ← WriteInSlice a (replicate (Z.to_nat (Len a)) f_zero);
  let res := written ++ replicate (Z.to_nat (maxLen - Len a)) f_zero in
  res ← foldM (fun acc i => bi ← Get b i; ri ← index acc i; set_index acc i (f_sub ri bi)) res (range 0 (Len b));
  r ← NewRegular res; Ok (SRegular r).
End Ops.
