(* ===== verification/SvOpsTheorems.v ===== *)
(** Correctness of the arithmetic on smart vectors: every operation, whatever the
    representations of its operands, computes position by position what its definition
    says. *)
From S2P Require Import Prelude SvIntervals SmartVectors SvSpec SvOps.
From Stdlib Require Import ZifyBool Ring.

Section FieldFacts.
Context {F : Type} `{FieldLaws F}.

Add Ring field_ring : f_ring.

Lemma int64_1 : f_int64 1 = f_one.
Proof. change 1 with (0 + 1). rewrite f_int64_succ, f_int64_0 by lia. ring. Qed.

Lemma int64_2 : f_int64 2 = f_add f_one f_one.
Proof. change 2 with (1 + 1). rewrite f_int64_succ, int64_1 by lia. ring. Qed.

Lemma int64_m1 : f_int64 (-1) = f_neg f_one.
Proof. pose proof (f_int64_succ (-1) ltac:(lia)) as E. change (-1 + 1) with 0 in E. rewrite f_int64_0 in E. transitivity (f_sub f_zero f_one); [|ring]. rewrite E. ring. Qed.

Lemma int64_m2 : f_int64 (-2) = f_neg (f_add f_one f_one).
Proof. pose proof (f_int64_succ (-2) ltac:(lia)) as E. change (-2 + 1) with (-1) in E. rewrite int64_m1 in E. transitivity (f_sub (f_neg f_one) f_one); [|ring]. rewrite E. ring. Qed.

Lemma exp_1 x : f_exp x 1 = x.
Proof. change 1 with (0 + 1). rewrite f_exp_succ, f_exp_0 by lia. ring. Qed.

Lemma exp_2 x : f_exp x 2 = f_mul x x.
Proof. change 2 with (1 + 1). rewrite f_exp_succ, exp_1 by lia. ring. Qed.

Lemma exp_3 x : f_exp x 3 = f_mul (f_mul x x) x.
Proof. change 3 with (2 + 1). rewrite f_exp_succ, exp_2 by lia. ring. Qed.

Lemma exp_add x (a b : nat) : f_exp x (Z.of_nat a + Z.of_nat b) = f_mul (f_exp x (Z.of_nat a)) (f_exp x (Z.of_nat b)).
Proof.
  induction a as [|a IH]; [rewrite f_exp_0; change (Z.of_nat 0 + Z.of_nat b) with (Z.of_nat b); ring|].
  replace (Z.of_nat (S a) + Z.of_nat b) with (Z.of_nat a + Z.of_nat b + 1) by lia. rewrite f_exp_succ, IH by lia.
  replace (Z.of_nat (S a)) with (Z.of_nat a + 1) by lia. rewrite f_exp_succ by lia. ring.
Qed.

Lemma exp_mul x y (a : nat) : f_exp (f_mul x y) (Z.of_nat a) = f_mul (f_exp x (Z.of_nat a)) (f_exp y (Z.of_nat a)).
Proof.
  induction a as [|a IH]; [rewrite !f_exp_0; ring|]. replace (Z.of_nat (S a)) with (Z.of_nat a + 1) by lia.
  rewrite !f_exp_succ, IH by lia. ring.
Qed.

Lemma exp_loop_ok i z x k :
  0 <= k -> exp_loop i z x k = f_mul (f_exp z (2 ^ Z.of_nat i)) (f_exp x (k mod 2 ^ Z.of_nat i)).
Proof.
  intros Hk. revert z. induction i as [|i IH]; intros z.
  - cbn [exp_loop]. change (2 ^ Z.of_nat 0) with 1. rewrite exp_1, Z.mod_1_r, f_exp_0. ring.
  - cbn [exp_loop]. rewrite IH, f_square_ok. assert (0 < 2 ^ Z.of_nat i) as Hp by (apply Z.pow_pos_nonneg; lia).
    assert (2 ^ Z.of_nat (S i) = 2 ^ Z.of_nat i + 2 ^ Z.of_nat i) as E by (rewrite Nat2Z.inj_succ, Z.pow_succ_r by lia; lia).
    pose proof (Z.mod_pos_bound k (2 ^ Z.of_nat i) Hp) as Hm.
    assert (k mod 2 ^ Z.of_nat (S i) = (if Z.testbit k (Z.of_nat i) then 2 ^ Z.of_nat i else 0) + k mod 2 ^ Z.of_nat i) as Em.
    { rewrite E. pose proof (Z.testbit_spec' k (Z.of_nat i) ltac:(lia)) as Hb. set (q := k / 2 ^ Z.of_nat i) in *.
      pose proof (Z.div_mod k (2 ^ Z.of_nat i) ltac:(lia)) as Hd. fold q in Hd. pose proof (Z.div_mod q 2 ltac:(lia)) as Hq.
      symmetry. apply (Zmod_unique _ _ (q / 2)); destruct (Z.testbit k (Z.of_nat i)); cbn [Z.b2z] in Hb; nia. }
    rewrite Em, E. rewrite <- (Z2Nat.id (2 ^ Z.of_nat i)) in * by lia. set (N := Z.to_nat (2 ^ Z.of_nat i)) in *.
    rewrite <- (Z2Nat.id (k mod Z.of_nat N)) in * by lia. set (M := Z.to_nat (k mod Z.of_nat N)) in *.
    destruct (Z.testbit k (Z.of_nat i)); rewrite ?Z.add_0_l, ?exp_mul, ?exp_add; ring.
Qed.

Lemma ExpToInt_ok x k : - 2 ^ 63 < k < 2 ^ 63 -> ExpToInt x k = f_exp x k.
Proof.
  intros Hk. unfold ExpToInt. destruct (Z.eqb_spec k 0) as [->|Hne]; [by rewrite f_exp_0|].
  assert (forall y m, 0 < m < 2 ^ 63 -> exp_loop (bits_Len (u64 m) - 1) y y m = f_exp y m) as Hgo.
  { intros y m Hm. rewrite uwrap_small by (unfold is_u; lia). unfold bits_Len. replace (m =? 0) with false by lia.
    replace (S (Z.to_nat (Z.log2 m)) - 1)%nat with (Z.to_nat (Z.log2 m)) by lia. rewrite exp_loop_ok by lia.
    rewrite Z2Nat.id by apply Z.log2_nonneg. pose proof (Z.log2_spec m ltac:(lia)) as Hl. rewrite Z.pow_succ_r in Hl by apply Z.log2_nonneg.
    set (P := 2 ^ Z.log2 m) in *. assert (m mod P = m - P) as -> by (symmetry; apply (Zmod_unique _ _ 1); lia).
    rewrite <- (Z2Nat.id P), <- (Z2Nat.id (m - Z.of_nat (Z.to_nat P))), <- exp_add by lia. f_equal. lia. }
  destruct (Z.ltb_spec k 0).
  - rewrite swrap_small by (unfold is_i; cbn; lia || lia). rewrite Hgo by lia. rewrite <- (f_exp_neg x (- k)) by lia. f_equal. lia.
  - apply Hgo. lia.
Qed.

(** ** What an operator computes *)

Definition unit_ (op : operator) : F := match op with linCombOp => f_zero | productOp => f_one end.
Definition combine (op : operator) (a b : F) : F := match op with linCombOp => f_add a b | productOp => f_mul a b end.
Definition term (op : operator) (x : F) (k : Z) : F := match op with linCombOp => f_mul (f_int64 k) x | productOp => f_exp x k end.

Lemma combine_assoc op a b c : combine op a (combine op b c) = combine op (combine op a b) c.
Proof. destruct op; cbn; ring. Qed.
Lemma combine_comm op a b : combine op a b = combine op b a.
Proof. destruct op; cbn; ring. Qed.
Lemma combine_unit op a : combine op (unit_ op) a = a.
Proof. destruct op; cbn; ring. Qed.
Lemma combine_unit_r op a : combine op a (unit_ op) = a.
Proof. destruct op; cbn; ring. Qed.

Lemma fmap_id_ext (f : F -> F) (l : list F) : (forall x, f x = x) -> f <$> l = l.
Proof. intros E. induction l as [|x l IH]; cbn; [done|]. by rewrite E, IH. Qed.

(** Case analysis on the special coefficients. *)
Ltac coefficients k :=
  repeat match goal with |- context [k =? ?c] => destruct (Z.eqb_spec k c) as [->|] end;
  cbn [combine term]; rewrite ?f_square_ok, ?int64_1, ?int64_2, ?int64_m1, ?int64_m2, ?f_exp_0, ?exp_1, ?exp_2, ?exp_3; try ring.

Lemma constIntoTerm_ok op x k : constIntoTerm op x k = term op x k.
Proof. destruct op; cbn [constIntoTerm]; coefficients k. Qed.

Lemma constIntoConst_ok op r x k : constIntoConst op r x k = combine op r (term op x k).
Proof. destruct op; cbn [constIntoConst]; coefficients k. Qed.

Lemma constTermIntoConst_ok op r t : constTermIntoConst op r t = combine op r t.
Proof. by destruct op. Qed.

Lemma constTermIntoVec_ok op r t : constTermIntoVec op r t = (fun x => combine op x t) <$> r.
Proof. by destruct op. Qed.

Lemma constIntoVec_ok op r x k : constIntoVec op r x k = (fun y => combine op y (term op x k)) <$> r.
Proof. unfold constIntoVec. by rewrite constTermIntoVec_ok, constIntoTerm_ok. Qed.

Lemma vector_op_ok f (a b : list F) : zlen a = zlen b -> vector_op f a b = Ok (zip_with f a b).
Proof. intros E. unfold vector_op, assertHasLength, assert_. by rewrite E, Z.eqb_refl. Qed.

Lemma range_op_ok f (a b : list F) : zlen a = zlen b -> range_op f a b = Ok (zip_with f a b).
Proof. intros E. unfold range_op, assert_. by rewrite E, Z.leb_refl. Qed.

Lemma vecTermIntoVec_ok op (a b : list F) : zlen a = zlen b -> vecTermIntoVec op a b = Ok (zip_with (combine op) a b).
Proof. intros E. destruct op; by apply vector_op_ok. Qed.

Lemma zip_with_ext_coeff (f g : F -> F -> F) (a b : list F) : (forall x y, f x y = g x y) -> @Ok Empty_set _ (zip_with f a b) = Ok (zip_with g a b).
Proof. intros E. f_equal. by apply zip_with_ext. Qed.

Lemma vecIntoVec_ok op (a b : list F) k :
  zlen a = zlen b -> - 2 ^ 63 < k < 2 ^ 63 -> vecIntoVec op a b k = Ok (zip_with (fun r x => combine op r (term op x k)) a b).
Proof.
  intros E Hk. unfold vecIntoVec, assertHasLength, assert_. replace (zlen a =? zlen b) with true by lia. cbn [mbind outcome_bind].
  destruct op; rewrite !vector_op_ok, !range_op_ok by done.
  - repeat case_match; apply zip_with_ext_coeff; intros x y; cbn [combine term];
      repeat match goal with H : (k =? _) = true |- _ => apply Z.eqb_eq in H as -> end; rewrite ?int64_1, ?int64_2, ?int64_m1, ?int64_m2; ring.
  - repeat case_match; try (apply zip_with_ext_coeff; intros x y; cbn [combine term]);
      repeat match goal with H : (k =? _) = true |- _ => apply Z.eqb_eq in H as -> end;
      rewrite ?f_square_ok, ?exp_1, ?exp_2, ?exp_3, ?ExpToInt_ok by done; try ring.
    f_equal. unfold zlen in E. clear Hk. revert b E. induction a as [|x a IH]; intros [|y b] E; cbn in E; try lia; [done|]. cbn [zip_with combine term].
    rewrite f_exp_0. f_equal; [ring|]. apply IH. lia.
Qed.

Lemma vecIntoTerm_ok op (a b : list F) k : zlen a = zlen b -> vecIntoTerm op a b k = Ok ((fun x => term op x k) <$> b).
Proof.
  intros E. assert (forall f : F -> F, zip_with (fun _ x : F => f x) a b = f <$> b) as Hz.
  { intros f. unfold zlen in E. clear -E. revert b E. induction a as [|x a IH]; intros [|y b] E; cbn in E; try lia; [done|]. cbn. f_equal. apply IH. lia. }
  assert (forall f : F -> F -> F, zip_with f b b = (fun x => f x x) <$> b) as Hd by (intros f; clear; induction b; cbn; congruence).
  unfold vecIntoTerm, assertHasLength, assert_. replace (zlen a =? zlen b) with true by lia. cbn [mbind outcome_bind].
  destruct op; rewrite ?range_op_ok, ?vector_op_ok, ?copy_ok by done; rewrite ?Hz, ?Hd; repeat case_match;
    repeat match goal with H : (k =? _) = true |- _ => apply Z.eqb_eq in H as -> end;
    f_equal; cbn [term]; try done; try (apply list_fmap_ext; intros ? x _; rewrite ?f_square_ok, ?int64_1, ?int64_2, ?int64_m1, ?int64_m2, ?exp_1, ?exp_2, ?exp_3; ring).
  - symmetry. apply fmap_id_ext. intros x. rewrite int64_1. ring.
  - unfold Fill. rewrite (list_fmap_ext _ (fun _ => f_one) b) by (intros ? x _; apply f_exp_0). unfold zlen in E. clear -E.
    revert b E. induction a as [|x a IH]; intros [|y b] E; cbn in *; try lia; [done|]. f_equal. apply IH. lia.
  - symmetry. apply fmap_id_ext. intros x. apply exp_1.
Qed.

(** ** The pointwise result *)

Abbreviation vec := (SmartVector (F := F)).

(** What the operation is at position [i], over the terms that satisfy [P]. *)
Definition total (op : operator) (P : vec -> bool) (ts : list (vec * Z)) (i : Z) : F :=
  foldr (fun t acc => if P t.1 then combine op (term op (at_ f_zero t.1 i) t.2) acc else acc) (unit_ op) ts.

Definition is_const (v : vec) : bool := match v with SConstant _ => true | _ => false end.
Definition is_window (v : vec) : bool := match v with SWindow _ => true | _ => false end.
Definition is_regular (v : vec) : bool := match v with SRegular _ | SRotated _ => true | _ => false end.

Definition pointwise (op : operator) (coeffs : list Z) (svecs : list vec) (i : Z) : F :=
  foldr (combine op) (unit_ op) (zip_with (fun v k => term op (at_ f_zero v i) k) svecs coeffs).

Lemma pointwise_total op coeffs svecs i : pointwise op coeffs svecs i = total op (fun _ => true) (zip svecs coeffs) i.
Proof.
  unfold pointwise, total. revert coeffs. induction svecs as [|v svecs IH]; intros [|k coeffs]; cbn; try done. by rewrite IH.
Qed.

Lemma total_split op P ts i :
  total op (fun _ => true) ts i = combine op (total op P ts i) (total op (fun v => negb (P v)) ts i).
Proof.
  induction ts as [|t ts IH]; cbn [total foldr]; [by rewrite combine_unit|]. fold (total op (fun _ => true) ts i).
  fold (total op P ts i) (total op (fun v => negb (P v)) ts i). rewrite IH. destruct (P t.1); cbn [negb].
  - by rewrite combine_assoc.
  - rewrite !combine_assoc. f_equal. apply combine_comm.
Qed.

Lemma total_kinds op ts i :
  total op (fun _ => true) ts i = combine op (total op is_const ts i) (combine op (total op is_window ts i) (total op is_regular ts i)).
Proof.
  induction ts as [|[v k] ts IH]; cbn [total foldr fst snd]; [by rewrite !combine_unit|].
  fold (total op (fun _ => true) ts i) (total op is_const ts i) (total op is_window ts i) (total op is_regular ts i). rewrite IH.
  set (a := total op is_const ts i). set (b := total op is_window ts i). set (c := total op is_regular ts i). set (t := term op _ k).
  destruct v; cbn [is_const is_window is_regular]; destruct op; cbn; ring.
Qed.

Lemma total_none op P ts i : Forall (fun t => P t.1 = false) ts -> total op P ts i = unit_ op.
Proof. induction 1 as [|t ts Ht _ IH]; [done|]. cbn [total foldr]. rewrite Ht. exact IH. Qed.

Definition count (P : vec -> bool) (ts : list (vec * Z)) : nat := foldr (fun t m => if P t.1 then S m else m) 0%nat ts.

Lemma count_kinds ts : (count is_const ts + count is_window ts + count is_regular ts = length ts)%nat.
Proof.
  induction ts as [|[v k] ts IH]; [done|]. cbn [count foldr fst length]. fold (count is_const ts) (count is_window ts) (count is_regular ts).
  destruct v; cbn [is_const is_window is_regular]; lia.
Qed.

Lemma count_zero P ts : count P ts = 0%nat -> Forall (fun t => P t.1 = false) ts.
Proof.
  induction ts as [|t ts IH]; cbn [count foldr]; intros E; [constructor|]. fold (count P ts) in *. destruct (P t.1) eqn:Et; [lia|]. constructor; auto.
Qed.

Lemma total_zero op P ts i : count P ts = 0%nat -> total op P ts i = unit_ op.
Proof. intros E. by apply total_none, count_zero. Qed.

Lemma total_const op ts i j : total op is_const ts i = total op is_const ts j.
Proof. induction ts as [|[[] k] ts IH]; cbn [total foldr fst snd is_const at_]; try done. f_equal. exact IH. Qed.

Lemma const_fold op ts m acc :
  (0 < m)%nat -> foldl (const_step op) (m, acc) ts = ((m + count is_const ts)%nat, combine op acc (total op is_const ts 0)).
Proof.
  revert m acc. induction ts as [|[v k] ts IH]; intros m acc Hm; cbn [foldl count total foldr fst snd].
  - by rewrite Nat.add_0_r, combine_unit_r.
  - fold (count is_const ts) (total op is_const ts 0). destruct v as [c|r|r|p]; cbn [const_step fst snd is_const]; [|by apply IH..].
    replace (m <? 1)%nat with false by lia. rewrite IH by lia. rewrite constIntoConst_ok, combine_assoc. f_equal. lia.
Qed.

Lemma processConstOnly_ok op svecs coeffs s0 :
  head svecs = Some s0 ->
  processConstOnly op svecs coeffs =
  Ok (if (count is_const (zip svecs coeffs) =? 0)%nat then (None, 0%nat)
      else (Some (mkConstant (total op is_const (zip svecs coeffs) 0) (Len s0)), count is_const (zip svecs coeffs))).
Proof.
  intros Hs. unfold processConstOnly. rewrite Hs. set (ts := zip svecs coeffs). clearbody ts.
  assert (foldl (const_step op) (0%nat, f_zero) ts =
    (count is_const ts, if (count is_const ts =? 0)%nat then f_zero else total op is_const ts 0)) as ->.
  { induction ts as [|[v k] ts IH]; [done|]. cbn [foldl count total foldr fst snd]. fold (count is_const ts) (total op is_const ts 0).
    destruct v as [c|r|r|p]; cbn [const_step fst snd is_const]; [|exact IH..].
    change (0 <? 1)%nat with true. cbn [Nat.eqb]. rewrite const_fold by lia. by rewrite constIntoTerm_ok. }
  by destruct (count is_const ts =? 0)%nat.
Qed.

Local Abbreviation nthF := (nthZ (f_zero (F := F))).

Lemma zip_with_nth (f : F -> F -> F) (a b : list F) :
  zlen a = zlen b ->
  zlen (zip_with f a b) = zlen a /\ forall i, 0 <= i < zlen a -> nthF (zip_with f a b) i = f (nthF a i) (nthF b i).
Proof.
  intros E. unfold zlen in *. split; [rewrite length_zip_with; lia|]. intros i Hi. unfold nthZ.
  destruct (lookup_lt_is_Some_2 a (Z.to_nat i)) as [x Hx]; [lia|]. destruct (lookup_lt_is_Some_2 b (Z.to_nat i)) as [y Hy]; [lia|].
  rewrite (nth_lookup_Some a _ _ _ Hx), (nth_lookup_Some b _ _ _ Hy). apply nth_lookup_Some. rewrite lookup_zip_with, Hx, Hy. done.
Qed.

Lemma fmap_nth (f : F -> F) (a : list F) : zlen (f <$> a) = zlen a /\ forall i, 0 <= i < zlen a -> nthF (f <$> a) i = f (nthF a i).
Proof. split; [apply zlen_fmap|]. intros i Hi. by apply nthZ_fmap. Qed.

Section Pass.
Context (n : Z) (op : operator).

(** A term of the operation. *)
Definition term_ok (t : vec * Z) : Prop := sv_ok t.1 /\ Len t.1 = n /\ - 2 ^ 63 < t.2 < 2 ^ 63.

(** A list that stands for a function. *)
Definition lists_ (l : list F) (f : Z -> F) : Prop := zlen l = n /\ forall i, 0 <= i < n -> nthF l i = f i.

Lemma regular_view t :
  term_ok t -> is_regular t.1 = true ->
  exists reg, lists_ reg (at_ f_zero t.1) /\ forall st, regular_step op n st t =
    match st.1 with
    | None => r ← NewRegular (replicate (Z.to_nat n) f_zero); r ← vecIntoTerm op r reg t.2; Ok (Some r, S st.2)
    | Some resvec => r ← vecIntoVec op resvec reg t.2; Ok (Some r, S st.2)
    end.
Proof.
  intros (Hok & Hl & _) Hr. destruct t as [v k]. cbn [fst snd] in *. destruct v as [c|r|r|p]; try discriminate Hr.
  - exists r. split; [by split|]. intros st. unfold regular_step. cbn [fst snd mbind outcome_bind]. done.
  - exists (values f_zero (SRotated r)). split.
    + split; [rewrite values_length; [done|destruct Hok; lia]|]. intros i Hi. apply values_nth. lia.
    + intros st. unfold regular_step. cbn [fst snd]. rewrite rotatedAsRegular_ok by done. done.
Qed.

Lemma regular_fold ts r m :
  Forall term_ok ts -> zlen r = n ->
  exists r', foldM (regular_step op n) (Some r, m) ts = Ok (Some r', (m + count is_regular ts)%nat) /\
    lists_ r' (fun i => combine op (nthF r i) (total op is_regular ts i)).
Proof.
  intros Hts. revert r m. induction Hts as [|t ts Ht Hts IH]; intros r m Hr; cbn [foldM count total foldr].
  - exists r. split; [by rewrite Nat.add_0_r|]. split; [done|]. intros i _. by rewrite combine_unit_r.
  - fold (count is_regular ts). destruct (is_regular t.1) eqn:Et.
    + destruct (regular_view t Ht Et) as (reg & [Hl Hn] & Hs). rewrite Hs. cbn [fst snd].
      rewrite vecIntoVec_ok by (try lia; apply Ht). cbn [mbind outcome_bind].
      destruct (zip_with_nth (fun r x => combine op r (term op x t.2)) r reg) as [Hzl Hzn]; [lia|].
      destruct (IH (zip_with (fun r x => combine op r (term op x t.2)) r reg) (S m)) as (r' & -> & [Hl' Hn']); [lia|].
      exists r'. split; [do 2 f_equal; lia|]. split; [done|]. intros i Hi. rewrite Hn', Hzn, Hn by lia. fold (total op is_regular ts i). by rewrite combine_assoc.
    + assert (regular_step op n (Some r, m) t = Ok (Some r, m)) as ->.
      { unfold regular_step. destruct t as [[] k]; try discriminate Et; done. }
      cbn [mbind outcome_bind]. destruct (IH r m Hr) as (r' & -> & Hr'). by exists r'.
Qed.

Lemma processRegularOnly_ok svecs coeffs s0 :
  head svecs = Some s0 -> 0 < n -> Forall term_ok (zip svecs coeffs) -> Len s0 = n ->
  exists r, processRegularOnly op svecs coeffs = Ok (r, count is_regular (zip svecs coeffs)) /\
    match r with
    | None => count is_regular (zip svecs coeffs) = 0%nat
    | Some r => lists_ r (total op is_regular (zip svecs coeffs))
    end.
Proof.
  intros Hs Hn Hts El. unfold processRegularOnly. rewrite Hs. cbn [unwrap mbind outcome_bind]. rewrite El.
  set (ts := zip svecs coeffs) in *. clearbody ts. induction Hts as [|t ts Ht Hts IH]; cbn [foldM count total foldr]; [by exists None|].
  fold (count is_regular ts). destruct (is_regular t.1) eqn:Et.
  - destruct (regular_view t Ht Et) as (reg & [Hl Hnr] & Hsp). rewrite Hsp. cbn [fst snd].
    rewrite NewRegular_ok by (rewrite zlen_replicate; lia). cbn [mbind outcome_bind].
    rewrite vecIntoTerm_ok by (rewrite zlen_replicate; lia). cbn [mbind outcome_bind].
    destruct (fmap_nth (fun x => term op x t.2) reg) as [Hfl Hfn].
    destruct (regular_fold ts ((fun x => term op x t.2) <$> reg) 1) as (r' & -> & [Hl' Hn']); [done|lia|].
    exists (Some r'). split; [done|]. split; [done|]. intros i Hi. rewrite Hn', Hfn, Hnr by lia. unfold total at 2. cbn [foldr]. by rewrite Et.
  - assert (regular_step op n (None, 0%nat) t = Ok (None, 0%nat)) as ->.
    { unfold regular_step. destruct t as [[] k]; try discriminate Et; done. }
    cbn [mbind outcome_bind]. destruct IH as (r & -> & Hr). exists r. split; [done|]. destruct r as [r|]; [|done].
    destruct Hr as [H1 H2]. split; [done|]. intros i Hi. rewrite H2 by done. unfold total at 2. cbn [foldr]. by rewrite Et.
Qed.

(** ** The windows *)

Definition interval_of (p : PaddedCircularWindow (F := F)) : CircularInterval := mkInterval n (Offset_ p) (zlen (Window_ p)).

Definition pcw_ok (w : PaddedCircularWindow (F := F) * Z) : Prop := window_ok w.1 /\ TotLen_ w.1 = n /\ - 2 ^ 63 < w.2 < 2 ^ 63.

Lemma windows_of_ok ts : Forall term_ok ts -> Forall pcw_ok (windows_of ts).
Proof.
  induction 1 as [|t ts (Hok & Hl & Hk) _ IH]; [constructor|]. unfold windows_of. cbn [omap list_omap].
  destruct t as [v k]. cbn [fst snd] in *. destruct v; try exact IH. constructor; [|exact IH]. split; [apply Hok|done].
Qed.

Lemma interval_ok p : window_ok p -> TotLen_ p = n -> interval p = Ok (interval_of p) /\ ival_ok n (interval_of p).
Proof.
  intros [Hw Ho] El. unfold interval, IvalWithStartLen, assert_. rewrite El in *. replace (negb (zlen (Window_ p) =? 0)) with true by lia.
  replace ((0 <=? Offset_ p) && (Offset_ p <? n)) with true by lia. replace (zlen (Window_ p) <? n) with true by lia.
  split; [done|]. unfold ival_ok. cbn. lia.
Qed.

Lemma mapM_Ok {A B} (f : A -> go B) (g : A -> B) l : Forall (fun x => f x = Ok (g x)) l -> mapM_ f l = Ok (g <$> l).
Proof. induction 1 as [|x l Hx _ IH]; [done|]. cbn [mapM_ fmap list_fmap]. by rewrite Hx, IH. Qed.

Lemma gather_ok ws :
  Forall pcw_ok ws ->
  mapM_ (fun '(pcw, coeff) => ival ← interval pcw; _ ← assertHasLength (TotLen_ pcw) n; Ok (pcw, ival, coeff)) ws
  = Ok ((fun w => (w.1, interval_of w.1, w.2)) <$> ws).
Proof.
  intros Hws. apply mapM_Ok. eapply Forall_impl; [exact Hws|]. intros [p k] (Hok & El & _). cbn [fst snd] in *.
  destruct (interval_ok p Hok El) as [-> _]. cbn [mbind outcome_bind]. unfold assertHasLength, assert_. by rewrite El, Z.eqb_refl.
Qed.

(** The terms of the windows at position [i]. *)
Definition wtotal (ws : list (PaddedCircularWindow (F := F) * Z)) (i : Z) : F :=
  foldr (fun w acc => combine op (term op (at_window f_zero w.1 i) w.2) acc) (unit_ op) ws.

Lemma wtotal_total ts i : wtotal (windows_of ts) i = total op is_window ts i.
Proof.
  induction ts as [|[v k] ts IH]; [done|]. unfold windows_of. cbn [omap list_omap fst snd total foldr].
  destruct v; cbn [is_window]; try exact IH. cbn [wtotal foldr fst snd]. f_equal. exact IH.
Qed.

Lemma windows_count ts : length (windows_of ts) = count is_window ts.
Proof.
  induction ts as [|[v k] ts IH]; [done|]. unfold windows_of. cbn [omap list_omap fst snd count foldr].
  destruct v; cbn [is_window]; try exact IH. cbn [length]. by f_equal.
Qed.

Lemma at_window_mod (p : PaddedCircularWindow (F := F)) i : TotLen_ p = n -> 0 < n -> at_window f_zero p (i mod n) = at_window f_zero p i.
Proof. intros El Hn. unfold at_window. rewrite El, Zminus_mod_idemp_l. done. Qed.

Section Cover.
Context (cover : CircularInterval) (Hcov : ival_ok n cover) (Hpart : IntervalLen cover < n).

(** The window [p] is inside the cover. *)
Definition covered (w : PaddedCircularWindow (F := F) * Z) : Prop :=
  pcw_ok w /\ forall q, 0 <= q < n -> mem (interval_of w.1) q -> mem cover q.

(** Its place in the cover. *)
Definition place (p : PaddedCircularWindow (F := F)) : Z := (Offset_ p - istart cover) mod n.

Lemma covered_place w :
  covered w -> 0 <= place w.1 /\ 0 < zlen (Window_ w.1) /\ place w.1 + zlen (Window_ w.1) <= IntervalLen cover /\
  (forall j, 0 <= j < n -> at_window f_zero w.1 (istart cover + j) =
     if (place w.1 <=? j) && (j <? place w.1 + zlen (Window_ w.1)) then nthF (Window_ w.1) (j - place w.1) else PaddingVal_ w.1).
Proof.
  intros [(Hok & El & _) Hsub]. destruct (interval_ok w.1 Hok El) as [_ Hi].
  pose proof (cover_relative n cover (interval_of w.1) Hcov Hi Hpart Hsub) as Hr. cbn [istart IntervalLen interval_of] in Hr. fold (place w.1) in Hr.
  destruct Hi as (_ & Hs & Hl). cbn [istart IntervalLen interval_of] in Hs, Hl.
  pose proof (Z.mod_pos_bound (Offset_ w.1 - istart cover) n ltac:(lia)) as Hb. fold (place w.1) in Hb.
  split; [lia|]. split; [lia|]. split; [done|]. intros j Hj.
  rewrite (at_window_from f_zero w.1 (istart cover) (place w.1)); [|done|unfold place; by rewrite El|by rewrite El]. rewrite El. cbn.
  destruct (Z.ltb_spec j (place w.1)).
  - replace (place w.1 <=? j) with false by lia. replace (j - place w.1 + n <? zlen (Window_ w.1)) with false by lia. done.
  - replace (place w.1 <=? j) with true by lia. cbn [andb].
    destruct (Z.ltb_spec (j - place w.1) (zlen (Window_ w.1))), (Z.ltb_spec j (place w.1 + zlen (Window_ w.1))); done || lia.
Qed.

Lemma window_bounds w :
  covered w ->
  normalize (Start (interval_of w.1)) (istart cover) n = place w.1 /\
  (if normalize (Stop (interval_of w.1)) (istart cover) n =? 0 then n else normalize (Stop (interval_of w.1)) (istart cover) n)
  = place w.1 + zlen (Window_ w.1).
Proof.
  intros Hc. pose proof (covered_place w Hc) as (H1 & H2 & H3 & _). destruct Hc as [(Hok & El & _) _].
  destruct (interval_ok w.1 Hok El) as [_ Hi]. unfold normalize, Start. destruct Hcov as (_ & Hcs & Hcl).
  assert (0 < n) as Hn by lia. split; [by rewrite PositiveMod_mod by lia|].
  assert (PositiveMod (Stop (interval_of w.1) - istart cover) n = place w.1 + zlen (Window_ w.1)) as ->; [|by replace (_ =? 0) with false by lia].
  unfold Stop. cbn [istart IntervalLen circleSize interval_of]. rewrite !PositiveMod_mod by lia. rewrite Zminus_mod_idemp_l.
  replace (Offset_ w.1 + zlen (Window_ w.1) - istart cover) with ((Offset_ w.1 - istart cover) + zlen (Window_ w.1)) by lia.
  rewrite <- Zplus_mod_idemp_l. fold (place w.1). apply Z.mod_small. lia.
Qed.

(** The value [x] joined with the term [t], or replaced by it at the first step. *)
Definition join (isFirst : bool) (x t : F) : F := if isFirst then t else combine op x t.

Definition wterm (w : PaddedCircularWindow (F := F) * Z) (i : Z) : F := term op (at_window f_zero w.1 i) w.2.

Lemma stitch (l m r : list F) (g : Z -> F) a b e :
  zlen l = a -> zlen m = b - a -> zlen r = e - b ->
  (forall i, 0 <= i < a -> nthF l i = g i) -> (forall i, 0 <= i < b - a -> nthF m i = g (a + i)) ->
  (forall i, 0 <= i < e - b -> nthF r i = g (b + i)) ->
  zlen (l ++ m ++ r) = e /\ forall j, 0 <= j < e -> nthF (l ++ m ++ r) j = g j.
Proof.
  intros Hl Hm Hr Gl Gm Gr. split; [rewrite !zlen_app; lia|]. intros j Hj. rewrite !nthZ_app, Hl by lia.
  destruct (Z.ltb_spec j a); [apply Gl; lia|]. rewrite nthZ_app, Hm by lia.
  destruct (Z.ltb_spec (j - a) (b - a)); [rewrite Gm by lia|rewrite Gr by lia]; f_equal; lia.
Qed.

(** The term of a window on the three parts of the cover. *)
Lemma wterm_parts w (a := place w.1) (b := place w.1 + zlen (Window_ w.1)) :
  covered w ->
  (forall i, 0 <= i < a -> wterm w (istart cover + i) = term op (PaddingVal_ w.1) w.2) /\
  (forall i, 0 <= i < b - a -> wterm w (istart cover + (a + i)) = term op (nthF (Window_ w.1) i) w.2) /\
  (forall i, 0 <= i < n - b -> wterm w (istart cover + (b + i)) = term op (PaddingVal_ w.1) w.2).
Proof.
  intros Hc. destruct (covered_place w Hc) as (Ha & Hw & Hb & Hat). fold a in Ha, Hb, Hat. fold b in Hb. pose proof Hcov as (_ & _ & ?).
  unfold wterm. split_and!; intros i Hi; rewrite Hat by lia; fold b.
  - by replace (a <=? i) with false by lia.
  - replace (_ && _) with true by lia. do 2 f_equal. lia.
  - by replace (_ && _) with false by lia.
Qed.

Lemma window_step_ok isFirst u pad w :
  covered w -> zlen u = IntervalLen cover ->
  exists u', window_step op (istart cover) n (isFirst, u, pad) (w.1, interval_of w.1, w.2)
      = Ok (false, u', join isFirst pad (term op (PaddingVal_ w.1) w.2)) /\
    zlen u' = IntervalLen cover /\
    forall j, 0 <= j < IntervalLen cover -> nthF u' j = join isFirst (nthF u j) (wterm w (istart cover + j)).
Proof.
  intros Hc Hu. pose proof (window_bounds w Hc) as [Ea Eb]. destruct (covered_place w Hc) as (Ha & Hw & Hb & _).
  destruct (wterm_parts w Hc) as (Gl & Gm & Gr). pose proof Hc as [(_ & _ & Hk) _]. unfold window_step. rewrite Ea, Eb, Hu.
  set (a := place w.1) in *. set (b := a + zlen (Window_ w.1)) in *.
  destruct (slice_ok f_zero u a b) as (mid & -> & Hml & Hmn); [lia..|]. destruct (slice_ok f_zero u 0 a) as (l & -> & Hll & Hln); [lia..|].
  destruct (slice_ok f_zero u b (IntervalLen cover)) as (r & -> & Hrl & Hrn); [lia..|]. cbn [mbind outcome_bind].
  destruct isFirst; cbn [join].
  - rewrite vecIntoTerm_ok by lia. rewrite constIntoTerm_ok. cbn [mbind outcome_bind]. eexists. split; [reflexivity|]. unfold Fill.
    apply (stitch _ _ _ _ a b); rewrite ?zlen_fmap; try lia; intros i Hi; rewrite (nthZ_fmap f_zero) by lia; rewrite ?Gl, ?Gm, ?Gr by lia; done.
  - replace (b - a =? zlen (Window_ w.1)) with true by lia. rewrite vecIntoVec_ok by lia. rewrite constIntoConst_ok, !constIntoVec_ok.
    cbn [assert_ mbind outcome_bind]. destruct (zip_with_nth (fun r x => combine op r (term op x w.2)) mid (Window_ w.1)) as [Hzl Hzn]; [lia|].
    eexists. split; [reflexivity|]. apply (stitch _ _ _ (fun j => combine op (nthF u j) (wterm w (istart cover + j))) a b);
      rewrite ?zlen_fmap; try lia; intros i Hi; rewrite ?(nthZ_fmap f_zero), ?Hzn by lia; rewrite ?Gl, ?Gm, ?Gr, ?Hln, ?Hmn, ?Hrn by lia; done.
Qed.

(** What the windows have outside of the cover. *)
Definition wpadding (ws : list (PaddedCircularWindow (F := F) * Z)) : F :=
  foldr (fun w acc => combine op (term op (PaddingVal_ w.1) w.2) acc) (unit_ op) ws.

Lemma window_fold ws u pad :
  Forall covered ws -> zlen u = IntervalLen cover ->
  exists u', foldM (window_step op (istart cover) n) (false, u, pad) ((fun w => (w.1, interval_of w.1, w.2)) <$> ws)
      = Ok (false, u', combine op pad (wpadding ws)) /\
    zlen u' = IntervalLen cover /\
    forall j, 0 <= j < IntervalLen cover -> nthF u' j = combine op (nthF u j) (wtotal ws (istart cover + j)).
Proof.
  intros Hws. revert u pad. induction Hws as [|w ws Hw Hws IH]; intros u pad Hu; cbn [fmap list_fmap foldM].
  - exists u. cbn [wpadding wtotal foldr]. rewrite combine_unit_r. split; [done|]. split; [done|]. intros j _. by rewrite combine_unit_r.
  - destruct (window_step_ok false u pad w Hw Hu) as (u1 & -> & Hl1 & Hn1). cbn [mbind outcome_bind join].
    destruct (IH u1 (combine op pad (term op (PaddingVal_ w.1) w.2)) Hl1) as (u' & -> & Hl & Hn). exists u'.
    cbn [wpadding wtotal foldr]. rewrite combine_assoc. split; [done|]. split; [done|]. intros j Hj.
    rewrite Hn, Hn1, combine_assoc by done. done.
Qed.

Lemma windows_represented ws u pad :
  Forall covered ws -> ws <> [] -> zlen u = IntervalLen cover -> n <= max_len ->
  exists u' pad', foldM (window_step op (istart cover) n) (true, u, pad) ((fun w => (w.1, interval_of w.1, w.2)) <$> ws) = Ok (false, u', pad') /\
    exists r, NewPaddedCircularWindow u' pad' (istart cover) n = Ok r /\ represents f_zero (SWindow r) n (wtotal ws).
Proof.
  intros Hws Hne Hu Hmax. destruct Hws as [|w ws Hw Hws]; [done|]. cbn [fmap list_fmap foldM].
  destruct (window_step_ok true u pad w Hw Hu) as (u1 & -> & Hl1 & Hn1). cbn [mbind outcome_bind join] in *.
  destruct (window_fold ws u1 (term op (PaddingVal_ w.1) w.2) Hws Hl1) as (u' & -> & Hl & Hn). eexists u', _. split; [reflexivity|].
  pose proof Hcov as (_ & Hs & Hcl). apply new_window_represents; [lia..|]. intros i Hi. cbn zeta. set (q := if i <? istart cover then _ else _).
  assert (i = (istart cover + q) mod n) as Ei by (subst q; ztests; rewrite mod_cases by lia; ztests).
  assert (0 <= q < n) as Bq by (subst q; ztests). clearbody q.
  change (combine op (term op (PaddingVal_ w.1) w.2) (wpadding ws)) with (wpadding (w :: ws)).
  assert (wtotal (w :: ws) i = wtotal (w :: ws) (istart cover + q)) as ->.
  { apply (Forall_cons_2 _ w ws Hw) in Hws. revert Hws. generalize (w :: ws). intros l. clear -Ei Hcl.
    induction 1 as [|x l [(_ & El & _) _] _ IH]; [done|]. cbn [wtotal foldr]. f_equal; [|exact IH]. rewrite Ei, at_window_mod; [done|done|lia]. }
  rewrite Hl. destruct (Z.ltb_spec q (IntervalLen cover)) as [Hq|Hq].
  - rewrite Hn, Hn1 by lia. done.
  - apply (Forall_cons_2 _ w ws Hw) in Hws. revert Hws. generalize (w :: ws). intros l. clear -Bq Hq Hcov Hpart.
    induction 1 as [|x l Hx _ IH]; [done|]. cbn [wtotal wpadding foldr]. f_equal; [|exact IH].
    destruct (covered_place x Hx) as (_ & _ & Hb & Hat). rewrite Hat by done. by replace (_ && _) with false by lia.
Qed.
End Cover.

(** What replaces a window when the windows cover the whole circle. *)
Definition open_window (v : vec) : vec := match v with SWindow _ => SRegular (values f_zero v) | _ => v end.

Lemma open_window_represents v : sv_ok v -> represents f_zero (open_window v) (Len v) (at_ f_zero v).
Proof.
  intros Hok. destruct v as [c|r|r|p]; cbn [open_window]; try by apply represents_self. pose proof Hok as [Hl _].
  assert (zlen (values f_zero (SWindow p)) = Len (SWindow p)) as E by (apply values_length; lia).
  split; [split; cbn [Len] in *; [lia|done]|]. split; [done|]. intros i Hi. by apply values_nth.
Qed.

Lemma unwindow_ok v : sv_ok v -> unwindow v = Ok (open_window v).
Proof.
  intros Hok. destruct v as [c|r|r|p]; try done. unfold unwindow. rewrite IntoRegVecSaveAlloc_values by done. cbn [mbind outcome_bind].
  pose proof Hok as [Hl _]. rewrite NewRegular_ok; [done|]. rewrite values_length; lia.
Qed.

Lemma open_term_ok ts : Forall term_ok ts -> Forall term_ok (prod_map open_window id <$> ts).
Proof.
  induction 1 as [|[v k] ts (Hok & Hl & Hk) _ IH]; [constructor|]. constructor; [|exact IH]. cbn [prod_map fst snd] in *.
  destruct (open_window_represents v Hok) as (H1 & H2 & _). split; [done|]. split; [cbn [fst]; lia|done].
Qed.

Lemma open_total ts P i :
  Forall term_ok ts -> 0 <= i < n -> (forall v, P (open_window v) = P v) ->
  total op P (prod_map open_window id <$> ts) i = total op P ts i.
Proof.
  intros Hts Hi HP. induction Hts as [|[v k] ts (Hok & Hl & _) _ IH]; [done|]. cbn [fmap list_fmap total foldr prod_map fst snd id] in *.
  fold (total op P (prod_map open_window id <$> ts) i) (total op P ts i). rewrite HP, IH.
  destruct (open_window_represents v Hok) as (_ & _ & H3). rewrite H3 by lia. done.
Qed.

Lemma open_count P ts : (forall v, P (open_window v) = P v) -> count P (prod_map open_window id <$> ts) = count P ts.
Proof. intros HP. induction ts as [|[v k] ts IH]; [done|]. cbn [fmap list_fmap count foldr prod_map fst] in *. rewrite HP. destruct (P v); [f_equal|]; exact IH. Qed.

Lemma open_windows ts : count is_window (prod_map open_window id <$> ts) = 0%nat.
Proof. induction ts as [|[v k] ts IH]; [done|]. cbn [fmap list_fmap count foldr prod_map fst] in *. by destruct v. Qed.

Lemma processWindowedOnly_ok sort svecs coeffs s0 (ts := zip svecs coeffs) :
  sorts_starts sort -> head svecs = Some s0 -> Len s0 = n -> n <= max_len -> Forall sv_ok svecs -> Forall term_ok ts ->
  exists f wres, processWindowedOnly sort op svecs coeffs = Ok (f <$> svecs, wres, count is_window (prod_map f id <$> ts)) /\
    (f = id \/ f = open_window) /\
    match wres with
    | None => count is_window (prod_map f id <$> ts) = 0%nat
    | Some v => f = id /\ exists r, v = SWindow r /\ represents f_zero v n (total op is_window ts)
    end.
Proof.
  intros Hsort Hs El Hmax Hok Hts. unfold processWindowedOnly. rewrite Hs. cbn [unwrap mbind outcome_bind]. rewrite El. fold ts.
  pose proof (windows_of_ok ts Hts) as Hws. rewrite (gather_ok _ Hws). cbn [mbind outcome_bind]. rewrite length_fmap, windows_count.
  assert (forall ts : list (vec * Z), prod_map id id <$> ts = ts) as Hid by (clear; intros ts; induction ts as [|[] ts IH]; [done|]; cbn [fmap list_fmap]; f_equal; exact IH).
  destruct (Nat.eqb_spec (count is_window ts) 0) as [E0|E0].
  { exists id, None. rewrite list_fmap_id, Hid, E0. split; [done|]. split; [by left|done]. }
  rewrite <- list_fmap_compose. set (ivals := (_ ∘ _) <$> windows_of ts).
  assert (ivals = (fun w => interval_of w.1) <$> windows_of ts) as Eiv by done. clearbody ivals.
  assert (windows_of ts <> []) as Hne by (intros E; apply E0; rewrite <- windows_count, E; done).
  destruct (cover_spec sort n ivals) as (cover & -> & Hcov & Hsub & _).
  { done. } { rewrite Eiv. by destruct (windows_of ts). }
  { rewrite Eiv. apply Forall_fmap. eapply Forall_impl; [exact Hws|]. intros w (Hw & Ew & _). by apply interval_ok. }
  cbn [mbind outcome_bind]. destruct (IsFullCircle cover) eqn:Ef.
  { exists open_window, None. rewrite open_windows. split; [|split; [by right|done]].
    rewrite (mapM_Ok _ open_window); [done|]. eapply Forall_impl; [exact Hok|]. apply unwindow_ok. }
  pose proof Hcov as (Ec & Hcs & Hcl). apply Z.eqb_neq in Ef. unfold assert_, Start. replace (negb (istart cover <? 0)) with true by lia. cbn [mbind outcome_bind].
  destruct (windows_represented cover Hcov ltac:(lia) (windows_of ts) (replicate (Z.to_nat (IntervalLen cover)) f_zero) f_zero) as (u & pad & -> & r & Hr & Hrep).
  { rewrite Forall_forall in Hws |- *. intros w Hw. split; [by apply Hws|]. intros q Hq. apply Hsub; [|done].
    rewrite Eiv. apply list_elem_of_fmap. by exists w. }
  { done. } { apply zlen_replicate. lia. } { done. }
  cbn [mbind outcome_bind]. rewrite Hr. cbn [mbind outcome_bind]. exists id, (Some (SWindow r)). rewrite list_fmap_id, Hid.
  split; [done|]. split; [by left|]. split; [done|]. exists r. split; [done|].
  destruct Hrep as (H1 & H2 & H3). split; [done|]. split; [done|]. intros i Hi. by rewrite H3, wtotal_total.
Qed.

(** ** Merging the partial results *)

Lemma at_window_map (g : F -> F) (p : PaddedCircularWindow (F := F)) i :
  window_ok p -> at_window f_zero (mkWindow (g <$> Window_ p) (g (PaddingVal_ p)) (TotLen_ p) (Offset_ p)) i = g (at_window f_zero p i).
Proof.
  intros [Hw Ho]. unfold at_window. cbn [Window_ PaddingVal_ TotLen_ Offset_]. rewrite zlen_fmap.
  pose proof (Z.mod_pos_bound (i - Offset_ p) (TotLen_ p) ltac:(lia)).
  destruct (Z.ltb_spec ((i - Offset_ p) mod TotLen_ p) (zlen (Window_ p))); [|done]. by rewrite (nthZ_fmap f_zero) by lia.
Qed.

Lemma merge_const_ok w c f :
  represents f_zero (SWindow w) n f ->
  exists w', merge_const op (Some (SWindow w)) (Some c) = Ok (Some (SWindow w')) /\
    represents f_zero (SWindow w') n (fun i => combine op (Value c) (f i)).
Proof.
  intros ([Hl Hw] & El & Hf). cbn [merge_const unwrap mbind outcome_bind]. eexists. split; [reflexivity|].
  rewrite constTermIntoVec_ok, constTermIntoConst_ok. split; [split; cbn in *; [done|]|].
  - destruct Hw as [H1 H2]. split; cbn; [by rewrite zlen_fmap|done].
  - split; [done|]. intros i Hi. cbn [at_]. rewrite (at_window_map (fun x => combine op x (Value c))) by done.
    specialize (Hf i Hi). cbn [at_] in Hf. by rewrite Hf, combine_comm.
Qed.

Lemma regular_represents r f : lists_ r f -> 0 < n <= max_len -> represents f_zero (SRegular r) n f.
Proof. intros [Hl Hn] Hm. split; [split; cbn; [lia|done]|]. split; [done|]. exact Hn. Qed.

Lemma map_lists r f (g : F -> F) : lists_ r f -> lists_ (g <$> r) (fun i => g (f i)).
Proof. intros [Hl Hn]. destruct (fmap_nth g r) as [H1 H2]. split; [lia|]. intros i Hi. rewrite H2, Hn by lia. done. Qed.

Lemma lists_ext r f g : lists_ r f -> (forall i, 0 <= i < n -> f i = g i) -> lists_ r g.
Proof. intros [Hl Hn] E. split; [done|]. intros i Hi. rewrite Hn by done. by apply E. Qed.

Lemma merge_window_ok r f w :
  lists_ r f -> window_ok w -> TotLen_ w = n ->
  exists r', merge_window op r w = Ok r' /\ lists_ r' (fun i => combine op (f i) (at_window f_zero w i)).
Proof.
  intros [Hl Hf] Hw El. destruct (interval_ok w Hw El) as [Ei Hi]. pose proof (Stop_cases n _ Hi) as Es. destruct Hw as [Hw Ho]. rewrite El in *.
  unfold merge_window. rewrite Ei. cbn [mbind outcome_bind]. unfold DoesWrapAround. rewrite Hl. cbn [istart IntervalLen interval_of Start] in *.
  change (Start (interval_of w)) with (Offset_ w). set (a := Offset_ w) in *. set (e := Stop (interval_of w)) in *. set (W := Window_ w) in *.
  assert (forall i, 0 <= i < n -> at_window f_zero w i = let q := if i <? a then i - a + n else i - a in if q <? zlen W then nthF W q else PaddingVal_ w) as Hat.
  { intros i Hi'. unfold at_window. fold a W. rewrite El, mod_cases by lia. ztests; done. }
  assert (e = a + zlen W /\ a + zlen W < n \/ e = a + zlen W - n /\ n <= a + zlen W) as Ee by (rewrite Es; ztests). clearbody e a. clear Es Ei Hi.
  destruct (Z.ltb_spec e a) as [Hea|Hea].
  - destruct (slice_ok f_zero r 0 e) as (l & -> & Hll & Hln); [lia..|]. destruct (slice_ok f_zero W (n - a) (zlen W)) as (wr & -> & Hwl & Hwn); [lia..|].
    destruct (slice_ok f_zero r a n) as (rr & -> & Hrl & Hrn); [lia..|]. destruct (slice_ok f_zero W 0 (n - a)) as (wl & -> & Hwl' & Hwn'); [lia..|].
    destruct (slice_ok f_zero r e a) as (m & -> & Hml & Hmn); [lia..|]. cbn [mbind outcome_bind].
    rewrite !vecTermIntoVec_ok by lia. cbn [mbind outcome_bind]. rewrite constTermIntoVec_ok. eexists. split; [reflexivity|].
    destruct (zip_with_nth (combine op) l wr) as [Z1 Z2]; [lia|]. destruct (zip_with_nth (combine op) rr wl) as [Z3 Z4]; [lia|].
    apply (stitch _ _ _ _ e a); rewrite ?zlen_fmap; try lia; intros i Hi; rewrite ?(nthZ_fmap f_zero), ?Z2, ?Z4 by lia;
      rewrite ?Hln, ?Hwn, ?Hrn, ?Hwn', ?Hmn, ?Hf, Hat by lia; cbn zeta; ztests; f_equal; f_equal; lia.
  - destruct (slice_ok f_zero r a e) as (m & -> & Hml & Hmn); [lia..|]. destruct (slice_ok f_zero r 0 a) as (l & -> & Hll & Hln); [lia..|].
    destruct (slice_ok f_zero r e n) as (rr & -> & Hrl & Hrn); [lia..|]. cbn [mbind outcome_bind].
    rewrite !vecTermIntoVec_ok by lia. cbn [mbind outcome_bind]. rewrite !constTermIntoVec_ok. eexists. split; [reflexivity|].
    destruct (zip_with_nth (combine op) m W) as [Z1 Z2]; [lia|].
    apply (stitch _ _ _ _ a e); rewrite ?zlen_fmap; try lia; intros i Hi; rewrite ?(nthZ_fmap f_zero), ?Z2 by lia;
      rewrite ?Hln, ?Hrn, ?Hmn, ?Hf, Hat by lia; cbn zeta; ztests; f_equal; f_equal; lia.
Qed.

(** ** Operators *)

Definition total_ok (ts : list (vec * Z)) (r : vec) : Prop := represents f_zero r n (total op (fun _ => true) ts).

Lemma represents_ext r f g : represents f_zero r n f -> (forall i, 0 <= i < n -> f i = g i) -> represents f_zero r n g.
Proof. intros (H1 & H2 & H3) E. split; [done|]. split; [done|]. intros i Hi. rewrite H3 by done. by apply E. Qed.

(** The total when some kinds of vectors are missing. *)
Lemma total_missing ts i :
  total op (fun _ => true) ts i =
  combine op (if (count is_const ts =? 0)%nat then unit_ op else total op is_const ts 0)
    (combine op (if (count is_window ts =? 0)%nat then unit_ op else total op is_window ts i)
                (if (count is_regular ts =? 0)%nat then unit_ op else total op is_regular ts i)).
Proof.
  rewrite total_kinds, (total_const op ts i 0).
  repeat match goal with |- context [(count ?P ?ts =? 0)%nat] => destruct (Nat.eqb_spec (count P ts) 0) as [?E|_] end;
    rewrite ?(total_zero op is_const), ?(total_zero op is_window), ?(total_zero op is_regular) by done; done.
Qed.

Lemma const_represents x : 0 < n <= max_len -> represents f_zero (SConstant (mkConstant x n)) n (fun _ => x).
Proof. intros Hn. split; [split; cbn; [lia|done]|]. split; done. Qed.

(** The last part of the operation: the windows are merged with the constant and with the
    ordinary vectors. *)
Lemma combine_parts svecs coeffs s0 (ts := zip svecs coeffs) wres cres
    (nc := count is_const ts) (nw := count is_window ts) :
  head svecs = Some s0 -> Len s0 = n -> 0 < n <= max_len -> length coeffs = length svecs -> Forall term_ok ts ->
  nc <> length svecs ->
  cres = (if (nc =? 0)%nat then None else Some (mkConstant (total op is_const ts 0) n)) ->
  match wres with None => nw = 0%nat | Some v => exists w, v = SWindow w /\ represents f_zero v n (total op is_window ts) end ->
  exists r,
    (if (nw =? length svecs)%nat then r ← unwrap wres; Ok (r, svecs) else
     wres ← (if (0 <? nw)%nat && (0 <? nc)%nat then merge_const op wres cres else Ok wres);
     if (nw + nc =? length svecs)%nat then r ← unwrap wres; Ok (r, svecs) else
     '(regularRes, matchedRegular) ← processRegularOnly op svecs coeffs;
     _ ← assert_ (nc + nw + matchedRegular =? length svecs)%nat;
     regvec ← unwrap regularRes;
     if (matchedRegular =? length svecs)%nat then Ok (SRegular regvec, svecs)
     else if (matchedRegular + nc =? length svecs)%nat then
       c ← unwrap cres; Ok (SRegular (constTermIntoVec op regvec (Value c)), svecs)
     else
       match wres with
       | Some (SRegular w) => r ← vecTermIntoVec op regvec w; Ok (SRegular r, svecs)
       | Some (SWindow w) => r ← merge_window op regvec w; Ok (SRegular r, svecs)
       | _ => Panic
       end) = Ok (r, svecs) /\ total_ok ts r.
Proof.
  intros Hs El Hn Hlen Hts Hnc Hcres Hwres. pose proof (count_kinds ts) as Hk.
  assert (length ts = length svecs) as Hlt by (unfold ts; rewrite length_zip_with; lia). fold nc nw in Hk. set (nr := count is_regular ts) in Hk.
  pose proof (total_missing ts) as Htot. fold nc nw nr in Htot. unfold total_ok.
  assert (forall r f, represents f_zero r n f -> (forall i, 0 <= i < n -> f i = total op (fun _ => true) ts i) ->
    exists r', @Ok Empty_set _ (r, svecs) = Ok (r', svecs) /\ represents f_zero r' n (total op (fun _ => true) ts)) as Hdone.
  { intros r f Hr E. exists r. split; [done|]. by apply represents_ext with (1 := Hr). }
  destruct (processRegularOnly_ok svecs coeffs s0 Hs ltac:(lia) Hts El) as (rres & Hreg & Hrres). fold ts nr in Hreg, Hrres. rewrite Hreg.
  assert (length svecs <> 0%nat) as Hpos by (destruct svecs; [done|cbn; lia]).
  destruct (Nat.eqb_spec nw (length svecs)) as [Ew|Ew].
  { destruct wres as [v|]; [|lia]. destruct Hwres as (w & -> & Hw). cbn [unwrap mbind outcome_bind]. apply (Hdone _ _ Hw). intros i Hi.
    rewrite Htot. replace (nc =? 0)%nat with true by lia. replace (nw =? 0)%nat with false by lia. replace (nr =? 0)%nat with true by lia.
    by rewrite combine_unit, combine_unit_r. }
  assert (exists wres', (if (0 <? nw)%nat && (0 <? nc)%nat then merge_const op wres cres else Ok wres) = Ok wres' /\
    match wres' with
    | None => nw = 0%nat
    | Some v => (0 < nw)%nat -> exists w, v = SWindow w /\ represents f_zero v n
        (fun i => combine op (if (nc =? 0)%nat then unit_ op else total op is_const ts 0) (total op is_window ts i))
    end) as (wres' & -> & Hwres').
  { destruct (Nat.ltb_spec 0 nw) as [Hp|Hp]; cbn [andb].
    2: { exists wres. split; [done|]. destruct wres; [lia|done]. }
    destruct wres as [v|]; [|lia]. destruct Hwres as (w & -> & Hw). destruct (Nat.eqb_spec nc 0) as [E0|E0].
    - rewrite E0. cbn. eexists. split; [reflexivity|]. intros _. exists w. split; [done|]. apply represents_ext with (1 := Hw). intros i Hi. by rewrite combine_unit.
    - replace (0 <? nc)%nat with true by lia. subst cres. destruct (merge_const_ok w (mkConstant (total op is_const ts 0) n) _ Hw) as (w' & -> & Hw').
      eexists. split; [reflexivity|]. intros _. by exists w'. }
  cbn [mbind outcome_bind]. destruct (Nat.eqb_spec (nw + nc) (length svecs)) as [Ewc|Ewc].
  { destruct wres' as [v|]; [|lia]. destruct Hwres' as (w & -> & Hw); [lia|]. cbn [unwrap mbind outcome_bind]. apply (Hdone _ _ Hw). intros i Hi.
    rewrite Htot. replace (nw =? 0)%nat with false by lia. replace (nr =? 0)%nat with true by lia. by rewrite combine_unit_r. }
  replace (nc + nw + nr =? length svecs)%nat with true by lia. destruct rres as [rv|]; [|lia]. cbn [assert_ unwrap mbind outcome_bind].
  assert ((nr =? 0)%nat = false) as Er by lia. rewrite Er in Htot.
  destruct (Nat.eqb_spec nr (length svecs)) as [E1|E1].
  { apply (Hdone _ _ (regular_represents _ _ Hrres Hn)). intros i Hi. rewrite Htot. replace (nc =? 0)%nat with true by lia.
    replace (nw =? 0)%nat with true by lia. by rewrite !combine_unit. }
  destruct (Nat.eqb_spec (nr + nc) (length svecs)) as [E2|E2].
  { replace (nc =? 0)%nat with false in * by lia. subst cres. cbn [unwrap mbind outcome_bind Value]. rewrite constTermIntoVec_ok.
    apply (Hdone _ _ (regular_represents _ _ (map_lists _ _ _ Hrres) Hn)). intros i Hi. rewrite Htot.
    replace (nw =? 0)%nat with true by lia. by rewrite combine_unit, combine_comm. }
  destruct wres' as [v|]; [|lia]. destruct Hwres' as (w & -> & ([_ Hwok] & Elw & Hw)); [lia|]. cbn [Len] in Elw.
  destruct (merge_window_ok rv _ w Hrres Hwok Elw) as (r' & -> & Hr'). cbn [mbind outcome_bind].
  apply (Hdone _ _ (regular_represents _ _ Hr' Hn)). intros i Hi. specialize (Hw i Hi). cbn [at_] in Hw. rewrite Hw, Htot.
  replace (nw =? 0)%nat with false by lia. by rewrite combine_comm, combine_assoc.
Qed.
End Pass.
End FieldFacts.
