(* ===== verification/SvResults.v ===== *)
(** The operations on smart vectors refine their definition position by position: the
    linear combination and the product of vectors in any representation, their random
    linear combination, inner product, sum and inverse. *)
From S2P Require Import Prelude SvIntervals SmartVectors SvSpec SvTheorems SvOps SvOpsTheorems.
From Stdlib Require Import ZifyBool Ring.

Section Results.
Context {F : Type} `{FieldLaws F}.
Abbreviation vec := (SmartVector (F := F)).
Context (sort : list CircularInterval -> list CircularInterval) (Hsort : sorts_starts sort).

Add Ring results_ring : f_ring.

Definition coeff_ok (k : Z) : Prop := - 2 ^ 63 < k < 2 ^ 63.

Lemma terms_ok n (svecs : list vec) coeffs :
  Forall (of_length n) svecs -> Forall coeff_ok coeffs -> Forall (term_ok n) (zip svecs coeffs).
Proof.
  intros Hs. revert coeffs. induction Hs as [|v svecs [Hv El] _ IH]; intros [|k coeffs] Hc; try constructor.
  - apply Forall_cons in Hc as [Hk _]. done.
  - apply Forall_cons in Hc as [_ Hc]. by apply IH.
Qed.

Lemma zip_fmap_l (f : vec -> vec) svecs (coeffs : list Z) : zip (f <$> svecs) coeffs = prod_map f id <$> zip svecs coeffs.
Proof. revert coeffs. induction svecs as [|v svecs IH]; intros [|k coeffs]; cbn; try done. f_equal. apply IH. Qed.

Lemma lengths_agree (check : vec -> go unit) svecs :
  Forall (fun v => check v = Ok tt) svecs -> foldM (fun _ s => check s) tt svecs = Ok tt.
Proof. induction 1 as [|v svecs Hv _ IH]; [done|]. cbn [foldM]. by rewrite Hv. Qed.

Lemma assertHasLength_refl n : assertHasLength n n = Ok tt.
Proof. unfold assertHasLength, assert_. by rewrite Z.eqb_refl. Qed.

Lemma open_values (v : vec) : sv_ok v -> sv_ok (open_window v) /\ values f_zero (open_window v) = values f_zero v.
Proof. intros Hv. apply represents_values; [done|]. by apply open_window_represents. Qed.

(** A product with the factor zero. *)
Lemma total_zero_factor ts i : total productOp is_const ts 0 = f_zero -> total productOp (fun _ => true) ts i = f_zero.
Proof. intros E. rewrite total_kinds, (total_const _ ts i 0), E. cbn [combine]. ring. Qed.

(** Replacing the windows changes neither the vectors nor their constants. *)
Lemma opened_ok op n f (svecs : list vec) coeffs (ts := zip svecs coeffs) :
  f = id \/ f = open_window -> Forall (of_length n) svecs -> Forall coeff_ok coeffs ->
  Forall (term_ok n) (zip (f <$> svecs) coeffs) /\
  (forall i, 0 <= i < n -> total op (fun _ => true) (zip (f <$> svecs) coeffs) i = total op (fun _ => true) ts i) /\
  (forall i, 0 <= i < n -> total op is_const (zip (f <$> svecs) coeffs) i = total op is_const ts i) /\
  count is_const (zip (f <$> svecs) coeffs) = count is_const ts /\ (forall v, v ∈ svecs -> Len (f v) = n) /\
  Forall sv_ok (f <$> svecs) /\ values f_zero <$> (f <$> svecs) = values f_zero <$> svecs.
Proof.
  intros Hf Hsv Hco. pose proof (terms_ok n svecs coeffs Hsv Hco) as Hts. fold ts in Hts.
  assert (Forall sv_ok svecs) as Hok by (eapply Forall_impl; [exact Hsv|]; by intros v []). rewrite Forall_forall in Hsv.
  destruct Hf as [-> | ->].
  { rewrite list_fmap_id. split_and!; try done. intros v Hv. by apply Hsv. }
  rewrite zip_fmap_l. fold ts. assert (forall v : vec, is_const (open_window v) = is_const v) as Hc by (by intros []).
  split_and!; [by apply open_term_ok|intros; by apply (open_total n)|intros; by apply (open_total n)|by apply open_count| |..].
  - intros v Hv. destruct (Hsv v Hv) as [Hv' <-]. by apply open_window_represents.
  - apply Forall_fmap. eapply Forall_impl; [exact Hok|]. intros v Hv. by apply open_values.
  - rewrite <- list_fmap_compose. apply list_fmap_ext. intros i v Hv. rewrite Forall_lookup in Hok. apply open_values. by eapply Hok.
Qed.

Lemma operator_ok op n coeffs (svecs : list vec) :
  svecs <> [] -> length coeffs = length svecs -> Forall (of_length n) svecs -> Forall coeff_ok coeffs ->
  exists r svecs', processOperator sort op coeffs svecs = Ok (r, svecs') /\
    represents f_zero r n (pointwise op coeffs svecs) /\ Forall sv_ok svecs' /\ values f_zero <$> svecs' = values f_zero <$> svecs.
Proof.
  intros Hne Hlen Hsv Hco. pose proof (terms_ok n svecs coeffs Hsv Hco) as Hts. set (ts := zip svecs coeffs) in *.
  assert (Forall sv_ok svecs) as Hok by (eapply Forall_impl; [exact Hsv|]; by intros v []).
  destruct (head svecs) as [s0|] eqn:Hs; [|by destruct svecs]. assert (of_length n s0) as [[Hn _] El].
  { destruct svecs as [|v svecs]; [done|]. injection Hs as ->. by apply Forall_cons in Hsv as [? _]. }
  rewrite El in Hn. unfold processOperator. unfold zlen. rewrite Hlen, Z.eqb_refl. replace (negb (_ =? 0)) with true by (destruct svecs; [done|cbn [length]; lia]).
  rewrite Hs. cbn [assert_ unwrap mbind outcome_bind]. rewrite (lengths_agree (fun s => assertHasLength (Len s0) (Len s))).
  2: { eapply Forall_impl; [exact Hsv|]. intros v [_ Ev]. rewrite El, Ev. apply assertHasLength_refl. }
  unfold assertStrictPositiveLen at 1. rewrite El. unfold assert_ at 1. replace (_ && _) with true by lia. cbn [assert_ mbind outcome_bind].
  rewrite (processConstOnly_ok op svecs coeffs s0 Hs). fold ts. rewrite El.
  assert (length ts = length svecs) as Hlt by (unfold ts; rewrite length_zip_with; lia).
  assert (forall r, represents f_zero r n (total op (fun _ => true) ts) -> represents f_zero r n (pointwise op coeffs svecs)) as Hpt.
  { intros r (H1 & H2 & H3). split; [done|]. split; [done|]. intros i Hi. rewrite pointwise_total. by apply H3. }
  set (cres := if (count is_const ts =? 0)%nat then None else Some (mkConstant (total op is_const ts 0) n)).
  assert ((if (count is_const ts =? 0)%nat then (None, 0%nat) else (Some (mkConstant (total op is_const ts 0) n), count is_const ts)) = (cres, count is_const ts)) as ->.
  { unfold cres. by destruct (Nat.eqb_spec (count is_const ts) 0) as [->|]. }
  cbn [mbind outcome_bind]. destruct (Nat.eqb_spec (count is_const ts) (length svecs)) as [Ec|Ec].
  { assert (length svecs <> 0%nat) by (by destruct svecs). unfold cres. replace (count is_const ts =? 0)%nat with false by lia. cbn [unwrap mbind outcome_bind].
    eexists _, svecs. split; [reflexivity|]. split; [|done]. apply Hpt. pose proof (count_kinds ts). eapply represents_ext; [by apply const_represents|].
    intros i Hi. rewrite total_kinds, (total_zero op is_window), (total_zero op is_regular), (total_const op ts i 0) by lia. by rewrite !combine_unit_r. }
  destruct (zero_factor op cres) eqn:Ez.
  { destruct op; [done|]. unfold zero_factor in Ez. destruct cres as [c|] eqn:Ecr; [|done]. apply bool_decide_eq_true in Ez. unfold cres in Ecr.
    destruct (count is_const ts =? 0)%nat; [done|]. injection Ecr as <-. cbn [Value] in Ez. cbn [unwrap mbind outcome_bind].
    eexists _, svecs. split; [reflexivity|]. split; [|done]. apply Hpt. eapply represents_ext; [by apply const_represents|]. intros i Hi.
    by rewrite total_zero_factor. }
  destruct (processWindowedOnly_ok n op sort svecs coeffs s0 Hsort Hs El ltac:(lia) Hok Hts) as (f & wres & -> & Hf & Hwres). fold ts in Hwres |- *.
  cbn [mbind outcome_bind]. pose proof (zip_fmap_l f svecs coeffs) as Ezip. fold ts in Ezip. rewrite <- Ezip in Hwres |- *. rewrite <- (length_fmap f svecs) in Ec, Hlen |- *.
  destruct (opened_ok op n f svecs coeffs Hf Hsv Hco) as (H1 & H2 & H3 & H4 & H5 & H6 & H7). fold ts in H2, H3, H4.
  edestruct (combine_parts n op (f <$> svecs) coeffs (f s0) wres cres) as (r & Hr & Hres); try done.
  - destruct svecs; [done|]. by injection Hs as ->.
  - apply H5. destruct svecs; [done|]. injection Hs as ->. by left.
  - by rewrite H4.
  - rewrite H4. unfold cres. by rewrite H3 by lia.
  - destruct wres as [v|]; [|done]. destruct Hwres as [-> Hw]. rewrite list_fmap_id. exact Hw.
  - rewrite H4 in Hr. exists r, (f <$> svecs). split; [exact Hr|]. split; [|done]. apply Hpt. by eapply represents_ext.
Qed.

(** ** Loops over the positions of a slice *)

Local Abbreviation nthF := (nthZ (f_zero (F := F))).

Lemma range_succ k : 0 <= k -> range 0 (k + 1) = range 0 k ++ [k].
Proof. intros Hk. unfold range. rewrite !Z.sub_0_r, seqZ_app by lia. by rewrite Z.add_0_l. Qed.

(** A loop that updates one position after the other. *)
Lemma slice_update_loop (g : Z -> F -> F) (body : list F -> Z -> go (list F)) acc (k : nat) :
  Z.of_nat k <= zlen acc ->
  (forall l i, zlen l = zlen acc -> 0 <= i < Z.of_nat k -> body l i = set_index l i (g i (nthF l i))) ->
  exists acc', foldM body acc (range 0 (Z.of_nat k)) = Ok acc' /\ zlen acc' = zlen acc /\
    forall i, 0 <= i < zlen acc -> nthF acc' i = if i <? Z.of_nat k then g i (nthF acc i) else nthF acc i.
Proof.
  induction k as [|k IH]; intros Hk Hbody.
  - exists acc. split; [done|]. split; [done|]. intros i Hi. by replace (i <? Z.of_nat 0) with false by lia.
  - destruct IH as (a1 & E1 & Hl1 & Hn1); [lia|intros; apply Hbody; lia|].
    replace (Z.of_nat (S k)) with (Z.of_nat k + 1) by lia. rewrite range_succ, foldM_app, E1 by lia. cbn [foldM mbind outcome_bind].
    rewrite Hbody by lia. destruct (set_index_ok f_zero a1 (Z.of_nat k) (g (Z.of_nat k) (nthF a1 (Z.of_nat k)))) as (a2 & E2 & Hl2 & Hn2); [lia|].
    rewrite E2. exists a2. split; [done|]. split; [lia|]. intros i Hi. rewrite Hn2 by lia. rewrite !Hn1 by lia.
    destruct (Z.eqb_spec i (Z.of_nat k)) as [->|]; ztests; try done.
Qed.

(** ** Random linear combinations *)

Lemma Eval_snoc pol c x : Eval (pol ++ [c]) x = f_add (Eval pol x) (f_mul c (f_exp x (zlen pol))).
Proof.
  induction pol as [|d pol IH]; cbn [app Eval foldr].
  - change (zlen (@nil F)) with 0. rewrite f_exp_0. ring.
  - fold (Eval (pol ++ [c]) x) (Eval pol x). rewrite IH. replace (zlen (d :: pol)) with (zlen pol + 1) by (unfold zlen; cbn [length]; lia).
    rewrite f_exp_succ by (unfold zlen; lia). ring.
Qed.

Lemma accumulateReg_ok n acc v x :
  0 <= n -> zlen acc = n -> zlen v = n ->
  exists acc', accumulateReg n acc v x = Ok acc' /\ zlen acc' = n /\
    forall i, 0 <= i < n -> nthF acc' i = f_add (nthF acc i) (f_mul (nthF v i) x).
Proof.
  intros Hn Ha Hv. unfold accumulateReg. rewrite <- (Z2Nat.id n) by lia.
  destruct (slice_update_loop (fun i a => f_add a (f_mul (nthF v i) x))
    (fun acc i => vi ← index v i; ai ← index acc i; set_index acc i (f_add ai (f_mul vi x))) acc (Z.to_nat n)) as (acc' & -> & Hl & Hacc).
  - lia.
  - intros l i El Hi. rewrite !(index_nthZ f_zero) by lia. done.
  - exists acc'. split; [done|]. split; [lia|]. intros i Hi. rewrite Hacc by lia. by replace (i <? _) with true by lia.
Qed.

(** The state after the vectors [pre]. *)
Definition lc_inv (n : Z) (x : F) (pre : list vec) (st : lc_state) : Prop :=
  zlen (resReg st) = n /\ xPow st = f_exp x (zlen pre) /\
  (forall i, 0 <= i < n -> f_add (nthF (resReg st) i) (resCon st) = Eval ((fun v => at_ f_zero v i) <$> pre) x) /\
  (anyCon st = false -> resCon st = f_zero) /\ (forallb is_const pre = false -> anyReg st = true).

Lemma xPow_snoc x (pre : list vec) v : f_mul x (f_exp x (zlen pre)) = f_exp x (zlen (pre ++ [v])).
Proof. rewrite zlen_app. change (zlen [v]) with 1. rewrite f_exp_succ; [done|unfold zlen; lia]. Qed.

Lemma lc_step_ok n x pre st v :
  lc_inv n x pre st -> of_length n v -> exists st', lc_step n x st v = Ok st' /\ lc_inv n x (pre ++ [v]) st'.
Proof.
  intros (Hl & Hx & Hv & Hcon & Hreg) [Hok El]. pose proof Hok as [Hn _]. rewrite El in Hn.
  assert (forall i, Eval ((fun u => at_ f_zero u i) <$> pre ++ [v]) x =
    f_add (Eval ((fun u => at_ f_zero u i) <$> pre) x) (f_mul (at_ f_zero v i) (xPow st))) as Hsn.
  { intros i. rewrite fmap_app. cbn [fmap list_fmap]. rewrite Eval_snoc, Hx, zlen_fmap. done. }
  assert (forall r, zlen r = n -> (forall i, 0 <= i < n -> nthF r i = at_ f_zero v i) -> is_const v = false ->
    exists st', (acc ← accumulateReg n (resReg st) r (xPow st); Ok (mkLc acc (resCon st) true (anyCon st) (f_mul x (xPow st)))) = @Ok Empty_set _ st'
      /\ lc_inv n x (pre ++ [v]) st') as Hordinary.
  { intros r Hrl Hr Hc. destruct (accumulateReg_ok n (resReg st) r (xPow st)) as (acc & -> & Hal & Han); [lia..|]. cbn [mbind outcome_bind].
    eexists. split; [reflexivity|]. split; [done|]. split; [cbn; rewrite Hx; apply xPow_snoc|]. split; [|done]. intros i Hi. cbn [resReg resCon].
    rewrite Hsn, Han, <- Hv, Hr by done. ring. }
  destruct v as [c|r|r|p]; unfold lc_step; cbn [mbind outcome_bind].
  - eexists. split; [reflexivity|]. split; [done|]. split; [cbn; rewrite Hx; apply xPow_snoc|]. split; [|split; [done|]].
    + intros i Hi. cbn [resReg resCon]. rewrite Hsn, <- Hv by done. cbn [at_]. ring.
    + cbn [anyReg]. rewrite forallb_app. cbn. rewrite andb_true_r. exact Hreg.
  - by apply Hordinary.
  - rewrite rotatedAsRegular_ok by done. cbn [mbind outcome_bind]. apply Hordinary; [rewrite values_length; [done|lia]| |done].
    intros i Hi. apply values_nth. lia.
  - rewrite (WriteInSlice_values f_zero) by (try done; rewrite zlen_replicate; lia). cbn [mbind outcome_bind].
    apply Hordinary; [rewrite values_length; [done|lia]| |done]. intros i Hi. apply values_nth. lia.
Qed.

Lemma lc_fold_ok n x pre st vs :
  lc_inv n x pre st -> Forall (of_length n) vs -> exists st', foldM (lc_step n x) st vs = Ok st' /\ lc_inv n x (pre ++ vs) st'.
Proof.
  intros Hst Hvs. revert pre st Hst. induction Hvs as [|v vs Hv _ IH]; intros pre st Hst; [rewrite app_nil_r; by exists st|].
  destruct (lc_step_ok n x pre st v Hst Hv) as (st1 & E1 & H1). cbn [foldM]. rewrite E1. cbn [mbind outcome_bind].
  destruct (IH _ _ H1) as (st' & -> & H'). exists st'. split; [done|]. by rewrite <- app_assoc in H'.
Qed.

Lemma all_constants (vecs : list vec) :
  match mapM as_constant vecs with
  | Some cs => forall i, Value <$> cs = (fun v => at_ f_zero v i) <$> vecs
  | None => forallb is_const vecs = false
  end.
Proof.
  induction vecs as [|v vecs IH]; [done|]. cbn [mapM]. destruct v as [c|r|r|p]; try done. cbn [as_constant mbind option_bind].
  destruct (mapM as_constant vecs) as [cs|]; cbn; [|done]. intros i. cbn. f_equal. apply IH.
Qed.

(** C9.  The linear combination and the product of vectors of one length, whatever their
    representations (constants, windows that wrap around or cover the whole vector,
    rotated and ordinary vectors) and coefficients, do not panic; the result is well
    formed and its element at each position is the combination of the elements of the
    vectors at this position.  The vectors that the operation replaces in the slice of
    its caller keep their elements. *)
Theorem operators_refine n coeffs (svecs : list vec) :
  svecs <> [] -> length coeffs = length svecs -> Forall (of_length n) svecs -> Forall coeff_ok coeffs ->
  (exists r svecs', LinComb sort coeffs svecs = Ok (r, svecs') /\
    represents f_zero r n (fun i => foldr f_add f_zero (zip_with (fun v k => f_mul (f_int64 k) (at_ f_zero v i)) svecs coeffs)) /\
    Forall sv_ok svecs' /\ values f_zero <$> svecs' = values f_zero <$> svecs) /\
  (exists r svecs', Product sort coeffs svecs = Ok (r, svecs') /\
    represents f_zero r n (fun i => foldr f_mul f_one (zip_with (fun v k => f_exp (at_ f_zero v i) k) svecs coeffs)) /\
    Forall sv_ok svecs' /\ values f_zero <$> svecs' = values f_zero <$> svecs).
Proof.
  intros Hne Hlen Hsv Hco. split; [|by apply (operator_ok productOp)]. unfold LinComb.
  destruct svecs as [|s0 svecs]; [done|]. cbn [head unwrap mbind outcome_bind].
  rewrite (lengths_agree (fun s => assertHasLength (Len s) (Len s0))); [by apply (operator_ok linCombOp)|].
  pose proof Hsv as Hsv'. apply Forall_cons in Hsv' as [[_ E0] _]. eapply Forall_impl; [exact Hsv|]. intros v [_ Ev].
  rewrite E0, Ev. apply assertHasLength_refl.
Qed.

(**  [LinearCombination] evaluates at [x], position by position, the polynomial whose
    coefficients are the elements of the vectors. *)
Theorem LinearCombination_refines n (vecs : list vec) x :
  vecs <> [] -> Forall (of_length n) vecs ->
  exists r, LinearCombination vecs x = Ok r /\ represents f_zero r n (fun i => Eval ((fun v => at_ f_zero v i) <$> vecs) x).
Proof.
  intros Hne Hv. unfold LinearCombination. destruct (head vecs) as [v0|] eqn:Hh; [|by destruct vecs].
  assert (of_length n v0) as [[Hn _] El] by (destruct vecs; [done|]; injection Hh as ->; by apply Forall_cons in Hv as [? _]).
  rewrite El in Hn. cbn [unwrap mbind outcome_bind]. rewrite El. pose proof (all_constants vecs) as Hall.
  destruct (mapM as_constant vecs) as [cs|].
  { rewrite NewConstant_ok by lia. eexists. split; [reflexivity|]. split; [split; cbn; [lia|done]|]. split; [done|]. intros i _. cbn [at_ Value]. by rewrite (Hall i). }
  destruct (lc_fold_ok n x [] (mkLc (replicate (Z.to_nat n) f_zero) f_zero false false f_one) vecs) as (st & -> & Hst).
  { split; [apply zlen_replicate; lia|]. split; [symmetry; apply f_exp_0|]. split; [|done]. intros i Hi. cbn [resReg resCon fmap list_fmap Eval foldr].
    rewrite nthZ_replicate by done. ring. }
  { done. }
  destruct Hst as (Hl & _ & Hval & Hcon & Hreg). cbn [mbind outcome_bind app] in *. rewrite (Hreg Hall).
  assert (forall r, zlen r = n -> (forall i, 0 <= i < n -> nthF r i = f_add (nthF (resReg st) i) (resCon st)) ->
    exists r', (r ← NewRegular r; Ok (SRegular r)) = @Ok Empty_set _ r' /\ represents f_zero r' n (fun i => Eval ((fun v => at_ f_zero v i) <$> vecs) x)) as Hfin.
  { intros r Hr Hr'. rewrite NewRegular_ok by lia. eexists. split; [reflexivity|]. split; [split; cbn; [lia|done]|]. split; [done|].
    intros i Hi. cbn [at_]. rewrite Hr' by done. by apply Hval. }
  destruct (anyCon st); apply Hfin; rewrite ?zlen_fmap; try done; intros i Hi.
  - by rewrite (nthZ_fmap f_zero) by lia.
  - rewrite Hcon by done. ring.
Qed.

(** ** Reductions *)

(** The sum of the elements of a list. *)
Definition total_sum (l : list F) : F := foldr f_add f_zero l.

Lemma foldl_sum l a : foldl f_add a l = f_add a (total_sum l).
Proof. revert a. induction l as [|x l IH]; intros a; cbn [foldl total_sum foldr]; [ring|]. rewrite IH. unfold total_sum. ring. Qed.

Lemma total_sum_perm l k : l ≡ₚ k -> total_sum l = total_sum k.
Proof. induction 1; cbn [total_sum foldr] in *; [done|unfold total_sum in *; congruence|ring|congruence]. Qed.

Lemma total_sum_app l k : total_sum (l ++ k) = f_add (total_sum l) (total_sum k).
Proof. unfold total_sum. induction l as [|x l IH]; cbn [app foldr]; [ring|]. rewrite IH. ring. Qed.

Lemma total_sum_replicate (k : nat) x : Z.of_nat k < 2 ^ 63 -> total_sum (replicate k x) = f_mul (f_uint64 (u64 (Z.of_nat k))) x.
Proof.
  intros Hk. rewrite uwrap_small by (unfold is_u; lia). rewrite f_uint64_ok by lia. induction k as [|k IH]; cbn [replicate total_sum foldr].
  - change (Z.of_nat 0) with 0. rewrite f_int64_0. ring.
  - fold (total_sum (replicate k x)). rewrite IH by lia. replace (Z.of_nat (S k)) with (Z.of_nat k + 1) by lia. rewrite f_int64_succ by lia. ring.
Qed.

(** A list read from another position on. *)
Lemma rotation_perm (l : list F) off n (f : Z -> F) :
  zlen l = n -> 0 < n -> (forall i, 0 <= i < n -> f i = nthF l ((i + off) mod n)) -> f <$> range 0 n ≡ₚ l.
Proof.
  intros Hl Hn Hf. set (k := off mod n). assert (0 <= k < n) as Hk by (apply Z.mod_pos_bound; lia).
  assert (f <$> range 0 n = drop (Z.to_nat k) l ++ take (Z.to_nat k) l) as ->.
  2: { rewrite Permutation_app_comm. by rewrite take_drop. }
  assert (zlen (f <$> range 0 n) = n) as Hr by (unfold range, zlen; rewrite length_fmap, length_seqZ; lia).
  apply (nthZ_ext f_zero). { rewrite Hr, zlen_app. unfold zlen in *. rewrite length_drop, length_take. lia. }
  rewrite Hr. intros i Hi. rewrite (nthZ_fmap 0) by (unfold range, zlen; rewrite length_seqZ; lia).
  assert (nthZ 0 (range 0 n) i = i) as -> by (apply nth_lookup_Some, lookup_seqZ; lia).
  rewrite Hf, <- Zplus_mod_idemp_r by done. fold k. rewrite mod_cases by lia. unfold nthZ, zlen in *.
  destruct (Z.ltb_spec (i + k) 0); [lia|]. destruct (Z.ltb_spec (i + k) n).
  - rewrite app_nth1 by (rewrite length_drop; lia). rewrite <- (take_drop (Z.to_nat k) l) at 1. rewrite app_nth2 by (rewrite length_take; lia).
    rewrite length_take. f_equal. lia.
  - rewrite app_nth2 by (rewrite length_drop; lia). rewrite length_drop. rewrite <- (take_drop (Z.to_nat k) l) at 1. rewrite app_nth1 by (rewrite length_take; lia).
    f_equal. lia.
Qed.

Lemma values_perm (v : vec) :
  sv_ok v ->
  values f_zero v ≡ₚ match v with
    | SConstant c => replicate (Z.to_nat (Length c)) (Value c)
    | SRegular r => r
    | SRotated r => r_v r
    | SWindow p => Window_ p ++ replicate (Z.to_nat (TotLen_ p - zlen (Window_ p))) (PaddingVal_ p)
    end.
Proof.
  intros [Hl Hv]. unfold values. destruct v as [c|r|r|p]; cbn [Len] in *.
  - apply (rotation_perm _ 0); [apply zlen_replicate; lia|lia|]. intros i Hi. rewrite Z.add_0_r, Z.mod_small by lia. by rewrite nthZ_replicate.
  - apply (rotation_perm _ 0); [done|lia|]. intros i Hi. rewrite Z.add_0_r, Z.mod_small by lia. done.
  - apply (rotation_perm _ (r_offset r)); [done|lia|]. done.
  - destruct Hv as [Hw Ho]. apply (rotation_perm _ (- Offset_ p)); [rewrite zlen_app, zlen_replicate; lia|lia|]. intros i Hi. cbn [at_]. unfold at_window.
    change (i + - Offset_ p) with (i - Offset_ p). pose proof (Z.mod_pos_bound (i - Offset_ p) (TotLen_ p) ltac:(lia)).
    rewrite nthZ_app by lia. destruct (Z.ltb_spec ((i - Offset_ p) mod TotLen_ p) (zlen (Window_ p))); [done|]. by rewrite nthZ_replicate by lia.
Qed.

Lemma Sum_ok (v : vec) : sv_ok v -> Sum v = total_sum (values f_zero v).
Proof.
  intros Hok. rewrite (total_sum_perm _ _ (values_perm v Hok)). pose proof Hok as [Hl Hv]. unfold max_len in Hl.
  destruct v as [c|r|r|p]; cbn [Sum Len] in *; rewrite ?foldl_sum.
  - rewrite total_sum_replicate, Z2Nat.id by lia. done.
  - ring.
  - ring.
  - destruct Hv as [Hw Ho]. rewrite total_sum_app, total_sum_replicate, Z2Nat.id by lia. ring.
Qed.

Lemma InnerProduct_ok (a b : vec) n :
  of_length n a -> of_length n b -> InnerProduct a b = Ok (total_sum (zip_with f_mul (values f_zero a) (values f_zero b))).
Proof.
  intros [Ha Ea] [Hb Eb]. unfold InnerProduct, values. rewrite Ea, Eb. unfold assert_. rewrite Z.eqb_refl. cbn [mbind outcome_bind].
  assert (Forall (fun i => 0 <= i < n) (range 0 n)) as Hr by (apply Forall_forall; intros i Hi%elem_of_seqZ; lia).
  assert (forall z, foldM (fun res i => a_ ← Get a i; b_ ← Get b i; Ok (f_add res (f_mul a_ b_))) z (range 0 n)
    = @Ok Empty_set F (f_add z (total_sum (zip_with f_mul (at_ f_zero a <$> range 0 n) (at_ f_zero b <$> range 0 n))))) as ->; [|f_equal; ring].
  unfold total_sum. induction Hr as [|i l Hi _ IH]; intros z; cbn [foldM fmap list_fmap zip_with foldr]; [f_equal; ring|].
  rewrite !(Get_at f_zero) by (done || lia). cbn [mbind outcome_bind]. rewrite IH. f_equal. ring.
Qed.

(**  The sum of a vector and the inner product of two vectors, computed from their
    representations, are those of their elements. *)
Theorem reductions_agree n (a b : vec) :
  of_length n a -> of_length n b ->
  Sum a = total_sum (values f_zero a) /\
  InnerProduct a b = Ok (total_sum (zip_with f_mul (values f_zero a) (values f_zero b))).
Proof. intros Ha Hb. split; [apply Sum_ok, Ha|by apply (InnerProduct_ok a b n)]. Qed.

(** ** Operations on the elements *)

(** The vector of the images of the elements. *)
Definition map_vec (f : F -> F) (v : vec) : vec :=
  match v with
  | SConstant c => SConstant (mkConstant (f (Value c)) (Length c))
  | SRegular r => SRegular (f <$> r)
  | SRotated r => SRotated (mkRotated (f <$> r_v r) (r_offset r))
  | SWindow p => SWindow (mkWindow (f <$> Window_ p) (f (PaddingVal_ p)) (TotLen_ p) (Offset_ p))
  end.

Lemma map_vec_represents f v : sv_ok v -> represents f_zero (map_vec f v) (Len v) (fun i => f (at_ f_zero v i)).
Proof.
  intros [Hl Hv]. destruct v as [c|r|r|p]; cbn [map_vec Len] in *; (split; [split; cbn; rewrite ?zlen_fmap; try done|split; [cbn; by rewrite ?zlen_fmap|]]);
    try (intros i Hi; cbn [at_ r_v r_offset]).
  - done.
  - by apply nthZ_fmap.
  - rewrite zlen_fmap. apply nthZ_fmap, Z.mod_pos_bound. lia.
  - destruct Hv as [Hw Ho]. split; cbn; [by rewrite zlen_fmap|done].
  - by apply at_window_map.
Qed.

(**  [BatchInvert] and [IsZero] apply to every element of a vector, in its
    representation. *)
Theorem elementwise_ok (v : vec) :
  sv_ok v ->
  (exists r, BatchInvert v = Ok r /\ represents f_zero r (Len v) (fun i => f_inverse (at_ f_zero v i))) /\
  (exists r, IsZero v = Ok r /\ represents f_zero r (Len v) (fun i => if bool_decide (at_ f_zero v i = f_zero) then f_one else f_zero)).
Proof.
  intros Hok. pose proof Hok as [Hl Hv].
  split; [exists (map_vec f_inverse v); split; [|by apply map_vec_represents]|exists (map_vec zero_to_one v); split; [|by apply (map_vec_represents zero_to_one)]];
    destruct v as [c|r|r|p]; cbn [BatchInvert IsZero map_vec Len] in *; try done;
    rewrite ?NewRegular_ok, ?NewRotated_ok by (rewrite ?zlen_fmap; lia); done.
Qed.

Lemma PolyAdd_ok (small large : vec) :
  sv_ok small -> sv_ok large -> Len small <= Len large ->
  exists res, (res ← WriteInSlice large (replicate (Z.to_nat (Len large)) f_zero);
    foldM (fun acc i => x ← Get small i; ri ← index acc i; set_index acc i (f_add ri x)) res (range 0 (Len small))) = Ok res /\
    zlen res = Len large /\
    forall i, 0 <= i < Len large -> nthF res i = f_add (at_ f_zero large i) (if i <? Len small then at_ f_zero small i else f_zero).
Proof.
  intros Hs Hl Hle. pose proof Hs as [Hs' _]. pose proof Hl as [Hl' _].
  rewrite (WriteInSlice_values f_zero) by (try done; rewrite zlen_replicate; lia). cbn [mbind outcome_bind].
  assert (zlen (values f_zero large) = Len large) as Ev by (apply values_length; lia). rewrite <- (Z2Nat.id (Len small)) by lia.
  destruct (slice_update_loop (fun i a => f_add a (at_ f_zero small i))
    (fun acc i => x ← Get small i; ri ← index acc i; set_index acc i (f_add ri x)) (values f_zero large) (Z.to_nat (Len small))) as (res & -> & Hrl & Hrn).
  - lia.
  - intros l i El Hi. rewrite (Get_at f_zero), (index_nthZ f_zero) by (done || lia). done.
  - exists res. split; [done|]. split; [lia|]. intros i Hi. rewrite Hrn, values_nth by lia. destruct (i <? _); [done|]. ring.
Qed.

(** The coefficient [i] of a polynomial. *)
Definition coefficient (v : vec) (i : Z) : F := if i <? Len v then at_ f_zero v i else f_zero.

(**  The sum and the difference of two polynomials have the sums and differences of
    their coefficients, where the missing ones are zero. *)
Theorem polynomials_add_sub (a b : vec) :
  sv_ok a -> sv_ok b ->
  (exists r, PolyAdd a b = Ok r /\ represents f_zero r (Z.max (Len a) (Len b)) (fun i => f_add (coefficient a i) (coefficient b i))) /\
  (exists r, PolySub a b = Ok r /\ represents f_zero r (Z.max (Len a) (Len b)) (fun i => f_sub (coefficient a i) (coefficient b i))).
Proof.
  intros Ha Hb. pose proof Ha as [Hla _]. pose proof Hb as [Hlb _].
  assert (forall res f, zlen res = Z.max (Len a) (Len b) -> (forall i, 0 <= i < Z.max (Len a) (Len b) -> nthF res i = f i) ->
    exists r, (r ← NewRegular res; Ok (SRegular r)) = @Ok Empty_set _ r /\ represents f_zero r (Z.max (Len a) (Len b)) f) as Hfin.
  { intros res f Hl Hf. rewrite NewRegular_ok by lia. eexists. split; [reflexivity|]. split; [split; cbn; [lia|done]|]. done. }
  split.
  - unfold PolyAdd, coefficient. destruct (Z.ltb_spec (Len b) (Len a)) as [Hlt|Hge].
    + destruct (PolyAdd_ok b a Hb Ha) as (res & Hres & Hl & Hn); [lia|]. apply bind_ok in Hres as (w & -> & Hw). cbn [mbind outcome_bind]. rewrite Hw.
      apply Hfin; [lia|]. intros i Hi. rewrite Hn by lia. by replace (i <? Len a) with true by lia.
    + destruct (PolyAdd_ok a b Ha Hb) as (res & Hres & Hl & Hn); [lia|]. apply bind_ok in Hres as (w & -> & Hw). cbn [mbind outcome_bind]. rewrite Hw.
      apply Hfin; [lia|]. intros i Hi. rewrite Hn by lia. replace (i <? Len b) with true by lia. ring.
  - unfold PolySub. rewrite (WriteInSlice_values f_zero) by (try done; rewrite zlen_replicate; lia). cbn [mbind outcome_bind].
    set (w := values f_zero a ++ replicate _ f_zero). assert (zlen (values f_zero a) = Len a) as Ev by (apply values_length; lia).
    assert (zlen w = Z.max (Len a) (Len b)) as Hw by (unfold w; rewrite zlen_app, zlen_replicate; lia).
    assert (forall i, 0 <= i < Z.max (Len a) (Len b) -> nthF w i = coefficient a i) as Hwn.
    { intros i Hi. unfold w, coefficient. rewrite nthZ_app, Ev by lia. destruct (Z.ltb_spec i (Len a)); [apply values_nth; lia|]. apply nthZ_replicate. lia. }
    clearbody w.
    destruct (slice_update_loop (fun i r => f_sub r (at_ f_zero b i))
      (fun acc i => bi ← Get b i; ri ← index acc i; set_index acc i (f_sub ri bi)) w (Z.to_nat (Len b))) as (res & Hres & Hrl & Hrn).
    + lia.
    + intros l i El Hi. rewrite (Get_at f_zero), (index_nthZ f_zero) by (done || lia). done.
    + rewrite Z2Nat.id in Hres, Hrn by lia. rewrite Hres. apply Hfin; [lia|]. intros i Hi. rewrite Hrn, Hwn by lia. unfold coefficient at 4.
      destruct (i <? Len b); [done|]. ring.
Qed.
End Results.

(** ** Witnesses, over the field of three elements *)

Inductive F3 := E0 | E1 | E2.

#[export] Instance F3_eq_dec : EqDecision F3.
Proof. solve_decision. Defined.

Definition F3_add (a b : F3) : F3 :=
  match a, b with
  | E0, x | x, E0 => x
  | E1, E1 => E2 | E1, E2 | E2, E1 => E0 | E2, E2 => E1
  end.
Definition F3_neg (a : F3) : F3 := match a with E0 => E0 | E1 => E2 | E2 => E1 end.
Definition F3_mul (a b : F3) : F3 := match a, b with E0, _ | _, E0 => E0 | E1, x | x, E1 => x | E2, E2 => E1 end.
Definition F3_of_Z (k : Z) : F3 := let r := k mod 3 in if r =? 0 then E0 else if r =? 1 then E1 else E2.
Definition F3_exp (a : F3) (k : Z) : F3 :=
  match a with E0 => if k =? 0 then E1 else E0 | E1 => E1 | E2 => if Z.even k then E1 else E2 end.

#[export] Instance F3_ops : FieldOps F3 := {|
  f_zero := E0; f_one := E1; f_add := F3_add; f_sub a b := F3_add a (F3_neg b); f_mul := F3_mul; f_neg := F3_neg;
  f_square a := F3_mul a a; f_inverse a := a; f_exp := F3_exp; f_int64 := F3_of_Z; f_uint64 := F3_of_Z
|}.

#[export] Instance F3_laws : FieldLaws F3.
Proof.
  split; cbn [f_zero f_one f_add f_sub f_mul f_neg f_square f_inverse f_exp f_int64 f_uint64 F3_ops].
  - split; cbn; repeat intros []; reflexivity.
  - done.
  - by intros [].
  - intros [] k Hk; cbn; [replace (k + 1 =? 0) with false by lia; done|done|]. change (k + 1) with (Z.succ k). rewrite Z.even_succ, <- Z.negb_even. by destruct (Z.even k).
  - intros [] k Hk; cbn; [by replace (- k =? 0) with (k =? 0) by lia|done|]. by rewrite Z.even_opp.
  - done.
  - intros k _. unfold F3_of_Z. rewrite <- Zplus_mod_idemp_l. pose proof (Z.mod_pos_bound k 3 ltac:(lia)).
    assert (k mod 3 = 0 \/ k mod 3 = 1 \/ k mod 3 = 2) as [-> | [-> | ->]] by lia; reflexivity.
  - done.
Qed.

(** Two windows that do not overlap, a rotated vector and a constant. *)
Definition demo_vectors : list (SmartVector (F := F3)) :=
  [SWindow (mkWindow [E1; E2] E1 6 5); SWindow (mkWindow [E2] E0 6 2); SRotated (mkRotated [E0; E1; E2; E0; E1; E2] 2); SConstant (mkConstant E2 6)].

Lemma demo_vectors_ok : Forall (of_length 6) demo_vectors.
Proof.
  repeat (apply Forall_cons; split; [split; [split; [split; [reflexivity|discriminate]|]|reflexivity]|]); try apply Forall_nil; try exact I; try done;
    repeat split; (reflexivity || discriminate).
Qed.

Lemma demo_coeffs_ok : Forall coeff_ok [2; -1; 1; 1].
Proof. repeat (apply Forall_cons; split; [by split|]). by apply Forall_nil. Qed.

Lemma operators_refine_witness :
  exists r svecs', LinComb (sort_stable istart) [2; -1; 1; 1] demo_vectors = Ok (r, svecs') /\
    (forall i, 0 <= i < 6 -> at_ f_zero r i =
      foldr f_add f_zero (zip_with (fun v k => f_mul (f_int64 k) (at_ f_zero v i)) demo_vectors [2; -1; 1; 1])) /\
    values f_zero <$> svecs' = values f_zero <$> demo_vectors.
Proof.
  destruct (operators_refine (sort_stable istart) sort_stable_starts 6 [2; -1; 1; 1] demo_vectors) as [(r & s' & H1 & (_ & _ & H2) & _ & H3) _];
    [discriminate|reflexivity|exact demo_vectors_ok|exact demo_coeffs_ok|].
  exists r, s'. split; [exact H1|]. split; [exact H2|exact H3].
Defined.

Example demo_lincomb :
  LinComb (sort_stable istart) [2; -1; 1; 1] demo_vectors =
  Ok (SRegular [E2; E1; E0; E0; E1; E2], demo_vectors).
Proof. vm_compute. reflexivity. Qed.

Lemma LinearCombination_refines_witness :
  exists r, LinearCombination demo_vectors E2 = Ok r /\ represents f_zero r 6 (fun i => Eval ((fun v => at_ f_zero v i) <$> demo_vectors) E2).
Proof. apply (LinearCombination_refines 6 demo_vectors E2); [discriminate|exact demo_vectors_ok]. Defined.

Lemma reductions_agree_witness : Sum (SWindow (mkWindow [E1; E2] E1 6 5)) = E1.
Proof.
  pose proof demo_vectors_ok as H. apply Forall_cons in H as [H _].
  destruct (reductions_agree 6 _ _ H H) as [E _]. rewrite E. reflexivity.
Defined.

Lemma elementwise_ok_witness :
  exists r, IsZero (SRotated (mkRotated [E0; E1; E2] 1)) = Ok r /\
    represents f_zero r 3 (fun i => if bool_decide (at_ f_zero (SRotated (mkRotated [E0; E1; E2] 1)) i = f_zero) then f_one else f_zero).
Proof.
  refine (proj2 (elementwise_ok (SRotated (mkRotated [E0; E1; E2] 1)) _)). split; split; (reflexivity || discriminate).
Defined.

Lemma polynomials_add_sub_witness :
  exists r, PolyAdd (SRegular [E1; E2; E2]) (SConstant (mkConstant E1 2)) = Ok r /\
    represents f_zero r 3 (fun i => f_add (coefficient (SRegular [E1; E2; E2]) i) (coefficient (SConstant (mkConstant E1 2)) i)).
Proof.
  refine (proj1 (polynomials_add_sub (SRegular [E1; E2; E2]) (SConstant (mkConstant E1 2)) _ _)); (split; [split; [reflexivity|discriminate]|exact I]).
Defined.
