(* ===== verification/FieldExt.v ===== *)
(** The extension field of degree four and the elements that are in the base field or in
    the extension: [prover/maths/field/fext], files [element.go] and
    [generic_field_elem.go].

    The arithmetic of both fields is gnark-crypto's.  An element of the extension has
    four coordinates; [ExtLaws] says that it is added coordinate by coordinate, and that
    the base field is inside.  The functions of the package that look at coordinates are
    translated. *)
From S2P Require Import Prelude SvIntervals SmartVectors SvOps.
From Stdlib Require Import Ring_theory.

(** [extensions.E4]. *)
Record E4 (F : Type) := mkE4 { B0_A0 : F; B0_A1 : F; B1_A0 : F; B1_A1 : F }.
Arguments mkE4 {F}.
Arguments B0_A0 {F}.
Arguments B0_A1 {F}.
Arguments B1_A0 {F}.
Arguments B1_A1 {F}.

#[export] Instance E4_eq_dec (F : Type) `{EqDecision F} : EqDecision (E4 F).
Proof. solve_decision. Defined.

Section Elements.
Context {F : Type} `{FieldOps F}.

(** [SetFromBase] and [Lift]. *)
Definition Lift (v : F) : E4 F := mkE4 v f_zero f_zero f_zero.

Definition IsBase (z : E4 F) : bool :=
  bool_decide (B0_A1 z = f_zero) && bool_decide (B1_A0 z = f_zero) && bool_decide (B1_A1 z = f_zero).

(** [None] is the error. *)
Definition GetBase (z : E4 F) : option F := if IsBase z then Some (B0_A0 z) else None.

Definition AddByBase (first : E4 F) (second : F) : E4 F :=
  mkE4 (f_add (B0_A0 first) second) (B0_A1 first) (B1_A0 first) (B1_A1 first).
End Elements.

Class ExtOps (F : Type) `{FieldOps F} := {
  ext_ops :: FieldOps (E4 F);
  MulByElement : E4 F -> F -> E4 F
}.

Class ExtLaws (F : Type) `{ExtOps F} := {
  ext_base_laws :: FieldLaws F;
  ext_field_laws :: FieldLaws (E4 F);
  ext_add (x y : E4 F) :
    f_add x y = mkE4 (f_add (B0_A0 x) (B0_A0 y)) (f_add (B0_A1 x) (B0_A1 y)) (f_add (B1_A0 x) (B1_A0 y)) (f_add (B1_A1 x) (B1_A1 y));
  ext_zero : @f_zero (E4 F) _ = Lift f_zero;
  ext_one : @f_one (E4 F) _ = Lift f_one;
  ext_mul (a b : F) : f_mul (Lift a) (Lift b) = Lift (f_mul a b);
  ext_inverse (a : F) : f_inverse (Lift a) = Lift (f_inverse a);
  ext_int64 k : @f_int64 (E4 F) _ k = Lift (f_int64 k);
  MulByElement_ok e x : MulByElement e x = f_mul e (Lift x)
}.

(** ** Elements of either field *)

Record GenericFieldElem (F : Type) := mkGeneric { Base : F; Ext : E4 F; gIsBase : bool }.
Arguments mkGeneric {F}.
Arguments Base {F}.
Arguments Ext {F}.
Arguments gIsBase {F}.

#[export] Instance GenericFieldElem_eq_dec (F : Type) `{EqDecision F} : EqDecision (GenericFieldElem F).
Proof. solve_decision. Defined.

Section Generic.
Context {F : Type} `{ExtOps F}.
Implicit Types (e inp : GenericFieldElem F).

(** [var e GenericFieldElem]. *)
Definition GenericZeroValue : GenericFieldElem F := mkGeneric f_zero f_zero false.

Definition NewGenFieldFromBase (base : F) : GenericFieldElem F := mkGeneric base (Lift base) true.

Definition NewGenFieldFromExt (ext : E4 F) : GenericFieldElem F := mkGeneric f_zero ext false.

Definition gen_GetBase e : option F := if gIsBase e then Some (Base e) else None.

Definition GetExt e : E4 F := if gIsBase e then Lift (Base e) else Ext e.

Definition NewMinimalESHashFromExt (ext : E4 F) : GenericFieldElem F :=
  if IsBase ext then mkGeneric (B0_A0 ext) ext true else mkGeneric f_zero ext false.

(** The end of [Mul], [Square] and [Exp]: is the result in the base field? *)
Definition rebase (ext : E4 F) : GenericFieldElem F :=
  if IsBase ext then mkGeneric (B0_A0 ext) ext true else mkGeneric f_zero ext false.

Definition gen_Mul e inp : GenericFieldElem F :=
  if gIsBase e && gIsBase inp then NewGenFieldFromBase (f_mul (Base e) (Base inp)) else
  let ext := if gIsBase e then MulByElement (Ext inp) (Base e) else Ext e in
  let ext := if gIsBase inp then MulByElement ext (Base inp) else ext in
  let ext := if negb (gIsBase e) && negb (gIsBase inp) then f_mul ext (Ext inp) else ext in
  rebase ext.

Definition gen_Add e inp : GenericFieldElem F :=
  match gIsBase e, gIsBase inp with
  | true, true => mkGeneric (f_add (Base e) (Base inp)) (Lift (f_add (Base e) (Base inp))) true
  | true, false => mkGeneric f_zero (AddByBase (Ext inp) (Base e)) false
  | false, true => mkGeneric (Base e) (AddByBase (Ext e) (Base inp)) false
  | false, false => mkGeneric (Base e) (f_add (Ext e) (Ext inp)) false
  end.

Definition gen_IsZero e : bool := if gIsBase e then bool_decide (Base e = f_zero) else bool_decide (Ext e = f_zero).

Definition gen_IsOne e : bool := if gIsBase e then bool_decide (Base e = f_one) else bool_decide (Ext e = f_one).

Definition GenericFieldOne : GenericFieldElem F := NewGenFieldFromBase f_one.

Definition GenericFieldZero : GenericFieldElem F := NewGenFieldFromBase f_zero.

Definition gen_Square e inp : GenericFieldElem F :=
  if gIsBase inp then NewGenFieldFromBase (f_square (Base inp)) else rebase (f_square (Ext inp)).

(** [gen_Exp e inp exponent] is [e] after [e.Exp(inp, exponent)]: a base element leaves
    the flag of [e] as it is. *)
Definition gen_Exp e inp (exponent : Z) : GenericFieldElem F :=
  if gIsBase inp then mkGeneric (f_exp (Base inp) exponent) (Lift (f_exp (Base inp) exponent)) (gIsBase e)
  else rebase (f_exp (Ext inp) exponent).

Definition gen_SetInt64 (v : Z) : GenericFieldElem F := NewGenFieldFromBase (f_int64 v).

(** [z] after [z.Inverse(x)]. *)
Definition gen_Inverse (z x : GenericFieldElem F) : GenericFieldElem F :=
  if gIsBase x then mkGeneric (f_inverse (Base x)) (Ext z) (gIsBase z) else mkGeneric (Base z) (f_inverse (Ext x)) (gIsBase z).

(** ** What the elements stand for *)

(** The extension field always holds the value; the base field holds it when the flag
    says so. *)
Definition gen_ok e : Prop := gIsBase e = true -> Ext e = Lift (Base e).
End Generic.

Section GenericFacts.
Context {F : Type} `{ExtLaws F}.
Implicit Types (e inp : GenericFieldElem F).

Add Ring ext_ring : (@f_ring (E4 F) _ _).
Add Ring base_ring : (@f_ring F _ _).

Lemma IsBase_Lift (x : F) : IsBase (Lift x) = true.
Proof. unfold IsBase. cbn. by rewrite !bool_decide_eq_true_2. Qed.

Lemma IsBase_inv (z : E4 F) : IsBase z = true -> z = Lift (B0_A0 z).
Proof. unfold IsBase. rewrite !andb_true_iff, !bool_decide_eq_true. destruct z as [a b c d]. cbn. by intros [[-> ->] ->]. Qed.

Lemma AddByBase_ok (z : E4 F) x : AddByBase z x = f_add z (Lift x).
Proof. rewrite ext_add. destruct z as [a b c d]. unfold AddByBase, Lift. cbn. f_equal; ring. Qed.

Lemma Lift_inj (x y : F) : Lift x = Lift y -> x = y.
Proof. by intros [= ->]. Qed.

Lemma Lift_add (x y : F) : f_add (Lift x) (Lift y) = Lift (f_add x y).
Proof. rewrite ext_add. unfold Lift. cbn. f_equal; ring. Qed.

Lemma Lift_exp (x : F) k : f_exp (Lift x) k = Lift (f_exp x k).
Proof.
  assert (forall (y : F) (m : nat), f_exp (Lift y) (Z.of_nat m) = Lift (f_exp y (Z.of_nat m))) as Hnat.
  { intros y m. induction m as [|m IH]; [by rewrite !f_exp_0, ext_one|].
    replace (Z.of_nat (S m)) with (Z.of_nat m + 1) by lia. rewrite !f_exp_succ, IH, ext_mul by lia. done. }
  destruct (Z.le_gt_cases 0 k); [rewrite <- (Z2Nat.id k) by lia; apply Hnat|].
  rewrite <- (Z.opp_involutive k), (f_exp_neg (Lift x)), (f_exp_neg x), ext_inverse by lia. rewrite <- (Z2Nat.id (- k)) by lia. apply Hnat.
Qed.

Lemma GetExt_ok e : gen_ok e -> GetExt e = Ext e.
Proof. unfold gen_ok, GetExt. destruct (gIsBase e); [|done]. intros E. by rewrite E. Qed.

Lemma rebase_ok (z : E4 F) : gen_ok (rebase z) /\ Ext (rebase z) = z.
Proof. unfold rebase, gen_ok. destruct (IsBase z) eqn:E; cbn; [|done]. split; [|done]. intros _. by apply IsBase_inv. Qed.

Lemma Minimal_ok (z : E4 F) : gen_ok (NewMinimalESHashFromExt z) /\ Ext (NewMinimalESHashFromExt z) = z.
Proof. apply (rebase_ok z). Qed.

(** The operations compute in the extension field, whatever the flags. *)
Lemma gen_Mul_ok e inp : gen_ok e -> gen_ok inp -> gen_ok (gen_Mul e inp) /\ Ext (gen_Mul e inp) = f_mul (Ext e) (Ext inp).
Proof.
  unfold gen_Mul, gen_ok. intros He Hi. destruct (gIsBase e) eqn:Ee, (gIsBase inp) eqn:Ei; cbn [andb negb].
  - split; [done|]. cbn. by rewrite He, Hi, ext_mul by done.
  - destruct (rebase_ok (MulByElement (Ext inp) (Base e))) as [Hr Hx]. split; [exact Hr|]. rewrite Hx, MulByElement_ok, He by done. ring.
  - destruct (rebase_ok (MulByElement (Ext e) (Base inp))) as [Hr Hx]. split; [exact Hr|]. by rewrite Hx, MulByElement_ok, Hi by done.
  - apply rebase_ok.
Qed.

Lemma gen_Add_ok e inp : gen_ok e -> gen_ok inp -> gen_ok (gen_Add e inp) /\ Ext (gen_Add e inp) = f_add (Ext e) (Ext inp).
Proof.
  unfold gen_Add, gen_ok. intros He Hi. destruct (gIsBase e), (gIsBase inp); cbn; (split; [done|]); rewrite ?AddByBase_ok, ?He, ?Hi by done.
  - by rewrite Lift_add.
  - ring.
  - done.
  - done.
Qed.

Lemma gen_Exp_ok e inp k : gen_ok inp -> gen_ok (gen_Exp e inp k) /\ Ext (gen_Exp e inp k) = f_exp (Ext inp) k.
Proof.
  unfold gen_Exp. intros Hi. destruct (gIsBase inp) eqn:E; [|apply rebase_ok]. unfold gen_ok. cbn. split; [done|]. by rewrite Hi, Lift_exp.
Qed.

Lemma gen_IsZero_ok e : gen_ok e -> gen_IsZero e = bool_decide (Ext e = f_zero).
Proof.
  unfold gen_ok, gen_IsZero. destruct (gIsBase e); [|done]. intros ->; [|done]. apply bool_decide_ext. rewrite ext_zero.
  split; [by intros ->|apply Lift_inj].
Qed.

Lemma gen_IsOne_ok e : gen_ok e -> gen_IsOne e = bool_decide (Ext e = f_one).
Proof.
  unfold gen_ok, gen_IsOne. destruct (gIsBase e); [|done]. intros ->; [|done]. apply bool_decide_ext. rewrite ext_one.
  split; [by intros ->|apply Lift_inj].
Qed.

Lemma gen_consts_ok : gen_ok GenericFieldOne /\ gen_ok GenericFieldZero /\ Ext GenericFieldOne = @f_one (E4 F) _ /\ Ext GenericFieldZero = @f_zero (E4 F) _.
Proof. unfold gen_ok. cbn. by rewrite ext_one, ext_zero. Qed.

Lemma gen_SetInt64_ok k : gen_ok (gen_SetInt64 k) /\ Ext (gen_SetInt64 k) = @f_int64 (E4 F) _ k.
Proof. unfold gen_ok. cbn. by rewrite ext_int64. Qed.
End GenericFacts.
