(* ===== verification/Symbolic.v ===== *)
(** Symbolic expressions: [prover/symbolic], files [expression.go], [constant.go],
    [variable.go], [lincomb.go], [product.go], [polyeval.go], [simplification.go],
    [constructors.go] and [constructor_new.go].

    An expression is a tree of operators; each node carries the hash of what it computes
    (its value when every variable is replaced by a hash of its name), which the
    simplifications use as an identifier.  The pointers of the children are the children
    themselves; a [nil] pointer is [None] where the code tests for it.  The hash of a
    name is blake2b's, a parameter.  The cached degrees are left out: they are removed
    before the functions that set them return.  *)
From S2P Require Import Prelude SvIntervals SmartVectors SvOps FieldExt.

(** ** Expressions *)

(** What the code asks of a [Metadata]. *)
Record Metadata := mkMetadata { String : string; MetaIsBase : bool }.

#[export] Instance Metadata_eq_dec : EqDecision Metadata.
Proof. solve_decision. Defined.

Inductive Operator {F : Type} :=
| OConstant (Val : GenericFieldElem F)
| OVariable (Metadata_ : Metadata)
| OLinComb (Coeffs : list Z)
| OProduct (Exponents : list Z)
| OPolyEval.
Arguments Operator : clear implicits.

#[export] Instance Operator_eq_dec (F : Type) `{EqDecision F} : EqDecision (Operator F).
Proof. solve_decision. Defined.

Inductive Expression {F : Type} :=
| mkExpression (ESHash_ : E4 F) (Children_ : list Expression) (Operator__ : Operator F) (IsBase__ : bool).
Arguments Expression : clear implicits.

Section Symbolic.
Context {F : Type} `{ExtOps F} (blake2b : string -> E4 F).
Context (sort : list CircularInterval -> list CircularInterval).
Abbreviation expr := (Expression F).

Definition ESHash (e : expr) : E4 F := let 'mkExpression h _ _ _ := e in h.
Definition Children (e : expr) : list expr := let 'mkExpression _ cs _ _ := e in cs.
Definition Operator_ (e : expr) : Operator F := let 'mkExpression _ _ op _ := e in op.
Definition IsBase_ (e : expr) : bool := let 'mkExpression _ _ _ b := e in b.

(** [NewConstant] of a value that is converted to an element of the extension. *)
Definition NewConstant (val : E4 F) : expr := mkExpression val [] (OConstant (NewMinimalESHashFromExt val)) (IsBase val).

(** [NewConstant] of an [int]. *)
Definition NewConstantInt (k : Z) : expr := NewConstant (Lift (f_int64 k)).

Definition metadataToESH (m : Metadata) : E4 F := blake2b (String m).

Definition NewVariable (m : Metadata) : expr := mkExpression (metadataToESH m) [] (OVariable m) (MetaIsBase m).

Definition computeIsBaseFromChildren (children : list expr) : bool := forallb IsBase_ children.

Definition newLinCombNoSimplify (items : list expr) (coeffs : list Z) : go expr :=
  esh ← foldM (fun acc i => item ← index items i; coeff ← index coeffs i;
      Ok (f_add acc (MulByElement (ESHash item) (f_int64 coeff)))) f_zero (range 0 (zlen items));
  Ok (mkExpression esh items (OLinComb coeffs) (computeIsBaseFromChildren items)).

Definition newProductNoSimplify (items : list expr) (exponents : list Z) : go expr :=
  esh ← foldM (fun acc i => item ← index items i; exponent ← index exponents i;
      Ok (f_mul acc (f_exp (ESHash item) exponent))) f_one (range 0 (zlen items));
  Ok (mkExpression esh items (OProduct exponents) (computeIsBaseFromChildren items)).

(** ** Simplification *)

(** A Go map from hashes to positions: the newest entry first. *)
Abbreviation hmap := (list (E4 F * nat)).

Fixpoint hmap_get {A : Type} (m : list (E4 F * A)) (h : E4 F) : option A :=
  match m with
  | [] => None
  | (k, v) :: m => if bool_decide (k = h) then Some v else hmap_get m h
  end.

(** The terms [newItems] and [newCoeffs], the map that is made when there are many of
    them, and the constant term. *)
Record simplifier := mkSimplifier {
  newTerms : list (expr * Z);
  itemMap : option hmap;
  constantAcc : GenericFieldElem F
}.

Definition linearThreshold : nat := 16.

Definition index_terms (ts : list (expr * Z)) : hmap := reverse (imap (fun i t => (ESHash t.1, i)) ts).

Fixpoint scan (ts : list (expr * Z)) (h : E4 F) : option nat :=
  match ts with
  | [] => None
  | t :: ts => if bool_decide (ESHash t.1 = h) then Some 0%nat else S <$> scan ts h
  end.

Definition increase (ts : list (expr * Z)) (idx : nat) (coeff : Z) : list (expr * Z) :=
  alter (fun t => (t.1, i64 (t.2 + coeff))) idx ts.

(** The map is made when the slice has grown long. *)
Definition switch_map (ts : list (expr * Z)) (m : option hmap) : option hmap :=
  match m with
  | None => if (linearThreshold <=? length ts)%nat then Some (index_terms ts) else None
  | m => m
  end.

(** The part of [addTerm] after the constants. *)
Definition addItem (st : simplifier) (item : expr) (coeff : Z) : simplifier :=
  let ts := newTerms st in
  match switch_map ts (itemMap st) with
  | Some mp =>
      match hmap_get mp (ESHash item) with
      | Some idx => mkSimplifier (increase ts idx coeff) (Some mp) (constantAcc st)
      | None => mkSimplifier (ts ++ [(item, coeff)]) (Some ((ESHash item, length ts) :: mp)) (constantAcc st)
      end
  | None =>
      match scan ts (ESHash item) with
      | Some i => mkSimplifier (increase ts i coeff) None (constantAcc st)
      | None => mkSimplifier (ts ++ [(item, coeff)]) None (constantAcc st)
      end
  end.

Definition addTerm_lincomb (st : simplifier) (item : expr) (coeff : Z) : simplifier :=
  if coeff =? 0 then st else
  match Operator_ item with
  | OConstant c => mkSimplifier (newTerms st) (itemMap st) (gen_Add (constantAcc st) (gen_Mul (gen_SetInt64 coeff) c))
  | _ => addItem st item coeff
  end.

Definition addTerm_product (st : simplifier) (item : expr) (exponent : Z) : simplifier :=
  if exponent =? 0 then st else
  match Operator_ item with
  | OConstant c => mkSimplifier (newTerms st) (itemMap st) (gen_Mul (constantAcc st) (gen_Exp GenericZeroValue c exponent))
  | _ => addItem st item exponent
  end.

(** The children of a nested operator with the coefficients [coeff * Coeffs[k]]. *)
Definition add_nested (addTerm : simplifier -> expr -> Z -> simplifier) (st : simplifier) (coeff : Z) (cs : list Z) (item : expr) : go simplifier :=
  foldM (fun st k => grandChild ← index (Children item) k; c ← index cs k; Ok (addTerm st grandChild (i64 (coeff * c))))
    st (range 0 (zlen (Children item))).

Definition lincomb_item (st : simplifier) (t : expr * Z) : go simplifier :=
  let '(item, coeff) := t in
  if coeff =? 0 then Ok st else
  match Operator_ item with
  | OLinComb cs => add_nested addTerm_lincomb st coeff cs item
  | _ => Ok (addTerm_lincomb st item coeff)
  end.

(** The terms whose coefficient is not zero. *)
Definition nonzero_terms (ts : list (expr * Z)) : list (expr * Z) := filter (fun t => t.2 <> 0) ts.

Definition simplifyLinComb (items : list expr) (coeffs : list Z) : go (list (expr * Z)) :=
  _ ← assert_ (zlen items =? zlen coeffs);
  st ← foldM lincomb_item (mkSimplifier [] None GenericFieldZero) (zip items coeffs);
  let ts := if gen_IsZero (constantAcc st) then newTerms st else newTerms st ++ [(NewConstant (Ext (constantAcc st)), 1)] in
  Ok (nonzero_terms ts).

(** [None] when a factor is zero. *)
Definition product_item (st : option simplifier) (t : expr * Z) : go (option simplifier) :=
  match st with
  | None => Ok None
  | Some st =>
      let '(item, exponent) := t in
      if exponent =? 0 then Ok (Some st) else
      _ ← assert_ (negb (exponent <? 0));
      if bool_decide (ESHash item = f_zero) then Ok None else
      match Operator_ item with
      | OProduct es => st ← add_nested addTerm_product st exponent es item; Ok (Some st)
      | _ => Ok (Some (addTerm_product st item exponent))
      end
  end.

Definition simplifyProduct (items : list expr) (exponents : list Z) : go (list (expr * Z)) :=
  _ ← assert_ (zlen items =? zlen exponents);
  st ← foldM product_item (Some (mkSimplifier [] None GenericFieldOne)) (zip items exponents);
  match st with
  | None => Ok [(NewConstantInt 0, 1)]
  | Some st =>
      let ts := if gen_IsOne (constantAcc st) then newTerms st else newTerms st ++ [(NewConstant (Ext (constantAcc st)), 1)] in
      Ok (nonzero_terms ts)
  end.

Definition NewLinComb (items : list expr) (coeffs : list Z) : go expr :=
  _ ← assert_ (zlen items =? zlen coeffs);
  ts ← simplifyLinComb items coeffs;
  match ts with
  | [] => Ok (NewConstantInt 0)
  | [(item, coeff)] => if coeff =? 1 then Ok item else newLinCombNoSimplify [item] [coeff]
  | _ => newLinCombNoSimplify ts.*1 ts.*2
  end.

Definition NewProduct (items : list expr) (exponents : list Z) : go expr :=
  _ ← assert_ (zlen items =? zlen exponents);
  ts ← simplifyProduct items exponents;
  match ts with
  | [] => Ok (NewConstantInt 1)
  | [(item, exponent)] => if exponent =? 1 then Ok item else newProductNoSimplify [item] [exponent]
  | _ => newProductNoSimplify ts.*1 ts.*2
  end.

Definition NewPolyEval (x : expr) (coeffs : list expr) : go expr :=
  _ ← assert_ (negb (zlen coeffs =? 0));
  match coeffs with
  | [c] => Ok c
  | _ => Ok (mkExpression (foldr (fun c esh => f_add (f_mul esh (ESHash x)) (ESHash c)) f_zero coeffs) (x :: coeffs) OPolyEval false)
  end.

(** ** Constructors *)

(** What a parameter of type [any] holds: a [nil] interface, a pointer that may be
    [nil], a metadata, a value that converts to a field element, or anything else. *)
Inductive any :=
| ANil
| AExpr (e : option expr)
| AMetadata (m : Metadata)
| AField (x : E4 F)
| AOther.

Definition doesContainNil (inputs : list any) : bool := existsb (fun x => match x with ANil => true | _ => false end) inputs.

Definition intoExpr (input : any) : go (option expr) :=
  match input with
  | AExpr e => Ok e
  | AMetadata m => Ok (Some (NewVariable m))
  | AField x => Ok (Some (NewConstant x))
  | ANil | AOther => Panic
  end.

Definition intoExprSlice (inputs : list any) : go (list (option expr)) := mapM_ intoExpr inputs.

(** The items are dereferenced: their coefficients are not zero. *)
Definition deref (es : list (option expr)) : go (list expr) := mapM_ unwrap es.

Definition Add (inputs : list any) : go (option expr) :=
  _ ← assert_ (negb (zlen inputs =? 0));
  if doesContainNil inputs then Ok None else
  exprInputs ← intoExprSlice inputs;
  items ← deref exprInputs;
  e ← NewLinComb items ((fun _ => 1) <$> items); Ok (Some e).

Definition Mul (inputs : list any) : go (option expr) :=
  _ ← assert_ (negb (zlen inputs =? 0));
  if doesContainNil inputs then Ok None else
  exprInputs ← intoExprSlice inputs;
  items ← deref exprInputs;
  e ← NewProduct items ((fun _ => 1) <$> items); Ok (Some e).

Definition MulNoSimplify (inputs : list any) : go (option expr) :=
  exprInputs ← intoExprSlice inputs;
  items ← deref exprInputs;
  e ← newProductNoSimplify items ((fun _ => 1) <$> items); Ok (Some e).

(** [doesContainNil(bs)] is given the slice as its one argument. *)
Definition Sub (a : any) (bs : list any) : go (option expr) :=
  if (match a with ANil => true | _ => false end) || doesContainNil [AOther] then Ok None else
  aExpr ← intoExpr a;
  bExpr ← intoExprSlice bs;
  items ← deref (aExpr :: bExpr);
  e ← NewLinComb items (1 :: ((fun _ => -1) <$> bs)); Ok (Some e).

(** ** Methods *)

Definition expr_Add (e other : option expr) : go (option expr) :=
  match e, other with
  | Some e, Some other => r ← NewLinComb [e; other] [1; 1]; Ok (Some r)
  | _, _ => Ok None
  end.

Definition expr_Mul (e other : option expr) : go (option expr) :=
  match e, other with
  | Some e, Some other => r ← NewProduct [e; other] [1; 1]; Ok (Some r)
  | _, _ => Ok None
  end.

Definition expr_Neg (e : option expr) : go (option expr) :=
  match e with Some e => r ← NewLinComb [e] [-1]; Ok (Some r) | None => Ok None end.

Definition expr_Sub (e other : option expr) : go (option expr) :=
  match e, other with
  | Some e, Some other => r ← NewLinComb [e; other] [1; -1]; Ok (Some r)
  | _, _ => Ok None
  end.

Definition expr_Square (e : option expr) : go (option expr) :=
  match e with Some e => r ← NewProduct [e] [2]; Ok (Some r) | None => Ok None end.

Definition Neg (x : any) : go (option expr) :=
  match x with ANil => Ok None | _ => e ← intoExpr x; expr_Neg e end.

Definition Square (x : any) : go (option expr) :=
  match x with ANil => Ok None | _ => e ← intoExpr x; items ← deref [e]; r ← NewProduct items [2]; Ok (Some r) end.

(** ** Validation *)

Inductive validation_error := esh_mismatch | size_mismatch | degree_zero.

(** Calls of functions that only panic. *)
Definition from_go {E A} (x : go A) : outcome E A :=
  match x with Ok a => Ok a | Err e => match e with end | Panic => Panic end.

(** [EvaluateExt] of an operator on vectors of length one. *)
Definition EvaluateExt (op : Operator F) (inputs : list (SmartVector (F := E4 F))) : go (SmartVector (F := E4 F)) :=
  match op with
  | OConstant _ | OVariable _ => Panic
  | OLinComb cs => r ← LinComb sort cs inputs; Ok r.1
  | OProduct es => r ← Product sort es inputs; Ok r.1
  | OPolyEval =>
      x ← unwrap (head inputs);
      match x with
      | SConstant c => LinearCombination (drop 1 inputs) (Value c)
      | _ => Panic
      end
  end.

Definition operator_Validate (e : expr) : outcome validation_error unit :=
  match Operator_ e with
  | OConstant _ | OVariable _ => require (zlen (Children e) =? 0) size_mismatch
  | OLinComb cs => require (zlen cs =? zlen (Children e)) size_mismatch
  | OProduct es =>
      _ ← require (zlen es =? zlen (Children e)) size_mismatch;
      assert_ (forallb (fun x => 0 <=? x) es)
  | OPolyEval => require (2 <=? zlen (Children e)) degree_zero
  end.

Fixpoint Validate (e : expr) : outcome validation_error unit :=
  let 'mkExpression h children op b := e in
  _ ← (if zlen children =? 0 then Ok tt else
       cs ← from_go (mapM_ (fun c => SmartVectors.NewConstant (ESHash c) 1) children);
       v ← from_go (EvaluateExt op (SConstant <$> cs));
       match v with
       | SConstant c => require (bool_decide (h = Value c)) esh_mismatch
       | _ => Panic
       end);
  _ ← operator_Validate e;
  (fix all (l : list expr) : outcome validation_error unit :=
     match l with [] => Ok tt | c :: l => _ ← Validate c; all l end) children.

Definition AssertValid (e : expr) : go unit := match Validate e with Ok _ => Ok tt | _ => Panic end.

Definition expr_Pow (e : option expr) (n : Z) : go (option expr) :=
  match e with Some e => _ ← AssertValid e; r ← NewProduct [e] [n]; Ok (Some r) | None => Ok None end.

Definition Pow (x : any) (n : Z) : go (option expr) :=
  _ ← assert_ (negb (n <? 0));
  match x with ANil => Ok None | _ => e ← intoExpr x; expr_Pow e n end.
End Symbolic.
