(* ===== verification/SymSpec.v ===== *)
(** What symbolic expressions stand for, and which of them are well formed. *)
From S2P Require Import Prelude SvIntervals SmartVectors SvSpec SvOps SvOpsTheorems FieldExt Symbolic.
From Stdlib Require Import ZifyBool Ring.

(** ** Induction *)

Section Induction.
Context {F : Type} (P : Expression F -> Prop).
Hypothesis step : forall h cs op b, Forall P cs -> P (mkExpression h cs op b).

Fixpoint Expression_nested_ind (e : Expression F) : P e :=
  let 'mkExpression h cs op b := e in
  step h cs op b ((fix go (l : list (Expression F)) : Forall P l :=
    match l with [] => Forall_nil_2 P | c :: l => Forall_cons_2 P c l (Expression_nested_ind c) (go l) end) cs).
End Induction.

(** ** Values *)

Section Eval.
Context {F : Type} `{ExtOps F}.
Context {R : Type} `{FieldOps R} (cst : E4 F -> R) (rho : Metadata -> R).

Definition apply_op (op : Operator F) (vals : list R) : R :=
  match op with
  | OConstant c => cst (GetExt c)
  | OVariable m => rho m
  | OLinComb ks => foldr f_add f_zero (zip_with (fun v k => f_mul (f_int64 k) v) vals ks)
  | OProduct ks => foldr f_mul f_one (zip_with f_exp vals ks)
  | OPolyEval => match vals with x :: cs => Eval cs x | [] => f_zero end
  end.

(** The value of an expression where the variable [m] has the value [rho m]. *)
Fixpoint eval (e : Expression F) : R := let 'mkExpression _ cs op _ := e in apply_op op (eval <$> cs).

Lemma eval_unfold e : eval e = apply_op (Operator_ e) (eval <$> Children e).
Proof. by destruct e. Qed.
End Eval.

(** ** Well-formed expressions *)

Section Valid.
Context {F : Type} `{ExtOps F} (blake2b : string -> E4 F).

Definition coeffs_ok (ks : list Z) (cs : list (Expression F)) : Prop :=
  length ks = length cs /\ Forall (fun k => - 2 ^ 63 < k < 2 ^ 63) ks.

(** The operator fits the children. *)
Definition shape_ok (op : Operator F) (cs : list (Expression F)) : Prop :=
  match op with
  | OConstant c => cs = [] /\ gen_ok c
  | OVariable _ => cs = []
  | OLinComb ks => coeffs_ok ks cs
  | OProduct ks => coeffs_ok ks cs /\ Forall (fun k => 0 <= k) ks
  | OPolyEval => (2 <= length cs)%nat
  end.

(** The hash is the value of the expression at the hashes of the variables. *)
Definition node_ok (e : Expression F) : Prop :=
  shape_ok (Operator_ e) (Children e) /\
  ESHash e = apply_op id (metadataToESH blake2b) (Operator_ e) (ESHash <$> Children e).

Inductive valid : Expression F -> Prop :=
| valid_intro e : node_ok e -> Forall valid (Children e) -> valid e.

Lemma valid_children e : valid e -> Forall valid (Children e).
Proof. by intros []. Qed.

Lemma valid_node e : valid e -> node_ok e.
Proof. by intros []. Qed.

Lemma ESHash_eval e : valid e -> ESHash e = eval id (metadataToESH blake2b) e.
Proof.
  induction e as [h cs op b IH] using Expression_nested_ind. intros Hv. pose proof (valid_node _ Hv) as [_ Hh]. rewrite Hh, eval_unfold.
  f_equal. apply valid_children in Hv. cbn [Children] in *. clear Hh. induction IH as [|c cs Hc _ IH]; [done|].
  apply Forall_cons in Hv as [Hv1 Hv2]. cbn. f_equal; auto.
Qed.
End Valid.
