(* ===== verification/SymTheorems.v ===== *)
(** Simplification of symbolic expressions preserves their values. *)
From S2P Require Import Prelude SvIntervals SmartVectors SvSpec SvOps SvOpsTheorems FieldExt Symbolic SymSpec.
From Stdlib Require Import ZifyBool Ring.

(** ** Integers in a field *)

Definition in_int (k : Z) : Prop := - 2 ^ 63 < k < 2 ^ 63.

Section Integers.
Context {K : Type} `{FieldLaws K}.
Add Ring integers_ring : f_ring.

Lemma int64_add_nat a (m : nat) : - 2 ^ 63 < a -> Z.of_nat m < 2 ^ 63 -> a + Z.of_nat m < 2 ^ 63 -> f_int64 (a + Z.of_nat m) = f_add (f_int64 a) (f_int64 (Z.of_nat m)).
Proof.
  induction m as [|m IH]; intros Ha Hm Ham; [change (Z.of_nat 0) with 0; rewrite f_int64_0, Z.add_0_r; ring|].
  replace (Z.of_nat (S m)) with (Z.of_nat m + 1) by lia. rewrite Z.add_assoc, !f_int64_succ, IH by lia. ring.
Qed.

Lemma int64_opp a : in_int a -> f_int64 (- a) = f_neg (f_int64 a).
Proof.
  unfold in_int. intros Ha. destruct (Z.le_gt_cases 0 a).
  - pose proof (int64_add_nat (- a) (Z.to_nat a)) as E. rewrite Z2Nat.id, Z.add_opp_diag_l, f_int64_0 in E by lia.
    transitivity (f_sub f_zero (f_int64 a)); [|ring]. rewrite E by lia. ring.
  - pose proof (int64_add_nat a (Z.to_nat (- a))) as E. rewrite Z2Nat.id, Z.add_opp_diag_r, f_int64_0 in E by lia.
    transitivity (f_sub f_zero (f_int64 a)); [|ring]. rewrite E by lia. ring.
Qed.

Lemma int64_add a b : in_int a -> in_int b -> in_int (a + b) -> f_int64 (a + b) = f_add (f_int64 a) (f_int64 b).
Proof.
  unfold in_int. intros Ha Hb Hab. destruct (Z.le_gt_cases 0 b).
  - rewrite <- (Z2Nat.id b) by lia. apply int64_add_nat; lia.
  - pose proof (int64_add_nat (a + b) (Z.to_nat (- b))) as E. rewrite Z2Nat.id in E by lia. replace (a + b + - b) with a in E by lia.
    rewrite E, int64_opp by (unfold in_int; lia). ring.
Qed.

Lemma int64_mul_nat a (m : nat) : in_int a -> in_int (a * Z.of_nat m) -> f_int64 (a * Z.of_nat m) = f_mul (f_int64 a) (f_int64 (Z.of_nat m)).
Proof.
  unfold in_int. induction m as [|m IH]; intros Ha Hm; [change (Z.of_nat 0) with 0; rewrite Z.mul_0_r, f_int64_0; ring|].
  replace (Z.of_nat (S m)) with (Z.of_nat m + 1) in * by lia. rewrite Z.mul_add_distr_l, Z.mul_1_r in *.
  destruct (Z.eq_dec a 0) as [->|Hne]; [rewrite Z.mul_0_l, Z.add_0_r, f_int64_0; ring|].
  rewrite int64_add, IH, f_int64_succ by (unfold in_int; nia). ring.
Qed.

Lemma int64_mul a b : in_int a -> in_int b -> in_int (a * b) -> f_int64 (a * b) = f_mul (f_int64 a) (f_int64 b).
Proof.
  unfold in_int. intros Ha Hb Hab. destruct (Z.le_gt_cases 0 b).
  - rewrite <- (Z2Nat.id b) by lia. apply int64_mul_nat; rewrite ?Z2Nat.id by lia; done.
  - pose proof (int64_mul_nat a (Z.to_nat (- b))) as E. rewrite Z2Nat.id in E by lia. rewrite Z.mul_opp_r in E.
    rewrite !int64_opp in E by (unfold in_int; lia). transitivity (f_neg (f_neg (f_int64 (a * b)))); [ring|]. rewrite E by (unfold in_int; lia). ring.
Qed.

Lemma exp_add_Z x a b : 0 <= a -> 0 <= b -> f_exp x (a + b) = f_mul (f_exp x a) (f_exp x b).
Proof. intros Ha Hb. rewrite <- (Z2Nat.id a), <- (Z2Nat.id b) by lia. apply exp_add. Qed.

Lemma exp_mul_Z x y a : 0 <= a -> f_exp (f_mul x y) a = f_mul (f_exp x a) (f_exp y a).
Proof. intros Ha. rewrite <- (Z2Nat.id a) by lia. apply exp_mul. Qed.

Lemma exp_one a : 0 <= a -> f_exp f_one a = f_one.
Proof.
  intros Ha. rewrite <- (Z2Nat.id a) by lia. generalize (Z.to_nat a) as m. intros m. induction m as [|m IH]; [apply f_exp_0|].
  replace (Z.of_nat (S m)) with (Z.of_nat m + 1) by lia. rewrite f_exp_succ, IH by lia. ring.
Qed.

Lemma exp_exp x a b : 0 <= a -> 0 <= b -> f_exp (f_exp x a) b = f_exp x (b * a).
Proof.
  intros Ha Hb. rewrite <- (Z2Nat.id b) by lia. generalize (Z.to_nat b) as m. intros m. induction m as [|m IH].
  - change (Z.of_nat 0) with 0. rewrite Z.mul_0_l. by rewrite !f_exp_0.
  - replace (Z.of_nat (S m)) with (Z.of_nat m + 1) by lia. rewrite f_exp_succ, IH, Z.mul_add_distr_r, Z.mul_1_l, exp_add_Z by lia. ring.
Qed.

Lemma exp_zero a : 0 < a -> f_exp f_zero a = f_zero.
Proof. intros Ha. replace a with (a - 1 + 1) by lia. rewrite f_exp_succ by lia. ring. Qed.

(** A coefficient of an operator: exponents are not negative. *)
Definition coeff_for (op : operator) (k : Z) : Prop := in_int k /\ (op = productOp -> 0 <= k).

Lemma term_add op x a b : coeff_for op a -> coeff_for op b -> in_int (a + b) -> term op x (a + b) = combine op (term op x a) (term op x b).
Proof.
  intros [Ha Pa] [Hb Pb] Hab. destruct op; cbn [term combine].
  - rewrite int64_add by done. ring.
  - by apply exp_add_Z; auto.
Qed.

Lemma term_unit op k : coeff_for op k -> term op (unit_ op) k = unit_ op.
Proof. intros [_ Hk]. destruct op; cbn [term unit_]; [ring|]. apply exp_one; auto. Qed.

Lemma term_combine op x y k : coeff_for op k -> term op (combine op x y) k = combine op (term op x k) (term op y k).
Proof. intros [_ Hk]. destruct op; cbn [term combine]; [ring|]. apply exp_mul_Z; auto. Qed.

Lemma term_term op x a b : coeff_for op a -> coeff_for op b -> in_int (b * a) -> term op (term op x a) b = term op x (b * a).
Proof.
  intros [Ha Pa] [Hb Pb] Hab. destruct op; cbn [term].
  - rewrite int64_mul by done. ring.
  - apply exp_exp; auto.
Qed.
End Integers.

(** ** Loops over two slices *)

Lemma index_middle {A} (l k : list A) x : index (l ++ x :: k) (zlen l) = Ok x.
Proof.
  unfold index, zlen. destruct (Z.leb_spec 0 (Z.of_nat (length l))); [|lia]. rewrite Nat2Z.id, list_lookup_middle by done. done.
Qed.

Lemma foldM_index2 {A S} (f : S -> A -> Z -> go S) l ks st :
  length ks = length l ->
  foldM (fun st i => x ← index l i; k ← index ks i; f st x k) st (range 0 (zlen l)) = foldM (fun st t => f st t.1 t.2) st (zip l ks).
Proof.
  unfold range. rewrite Z.sub_0_r.
  cut (forall pre kpre st, length pre = length kpre -> length ks = length l ->
    foldM (fun st i => x ← index (pre ++ l) i; k ← index (kpre ++ ks) i; f st x k) st (seqZ (zlen pre) (zlen l)) = foldM (fun st t => f st t.1 t.2) st (zip l ks)).
  { intros Hc. exact (Hc [] [] st eq_refl). }
  clear st. revert ks. induction l as [|x l IH]; intros ks pre kpre st Hp Hk; destruct ks as [|k ks]; try done.
  replace (zlen (x :: l)) with (Z.succ (zlen l)) by (unfold zlen; cbn [length]; lia). rewrite seqZ_cons by (unfold zlen; lia).
  cbn [foldM zip zip_with fst snd]. rewrite index_middle.
  assert (index (kpre ++ k :: ks) (zlen pre) = Ok k) as -> by (replace (zlen pre) with (zlen kpre) by (unfold zlen; lia); apply index_middle). cbn [mbind outcome_bind].
  destruct (f st x k) as [st'|[]|]; try done. cbn [mbind outcome_bind]. rewrite Z.pred_succ.
  rewrite <- (IH ks (pre ++ [x]) (kpre ++ [k]) st'); [|rewrite !length_app; cbn; lia|by injection Hk].
  rewrite <- !app_assoc. cbn [app]. f_equal. unfold zlen. rewrite length_app. cbn. f_equal. lia.
Qed.

(** ** Terms *)

Section Terms.
Context {F : Type} `{ExtLaws F} (blake2b : string -> E4 F) (rho : Metadata -> E4 F) (op : operator).
Abbreviation expr := (Expression F).
Local Abbreviation ev := (eval (F := F) id rho).
Add Ring terms_ring : (@f_ring (E4 F) _ _).

Definition tsum (ts : list (expr * Z)) : E4 F := foldr (fun t acc => combine op (term op (ev t.1) t.2) acc) (unit_ op) ts.

Definition tweight (ts : list (expr * Z)) : Z := foldr (fun t acc => Z.abs t.2 + acc) 0 ts.

Lemma tsum_app ts us : tsum (ts ++ us) = combine op (tsum ts) (tsum us).
Proof. induction ts as [|t ts IH]; cbn [app tsum foldr]; [by rewrite combine_unit|]. fold (tsum (ts ++ us)) (tsum ts). by rewrite IH, combine_assoc. Qed.

Lemma tweight_app ts us : tweight (ts ++ us) = tweight ts + tweight us.
Proof. induction ts as [|t ts IH]; cbn [app tweight foldr]; [done|]. fold (tweight (ts ++ us)) (tweight ts). lia. Qed.

Lemma tweight_nonneg ts : 0 <= tweight ts.
Proof. induction ts as [|t ts IH]; cbn [tweight foldr]; [done|]. fold (tweight ts). lia. Qed.

Lemma tweight_elem ts i t : ts !! i = Some t -> Z.abs t.2 <= tweight ts.
Proof.
  revert i. induction ts as [|u ts IH]; intros i Hi; [done|]. cbn [tweight foldr]. fold (tweight ts). pose proof (tweight_nonneg ts).
  destruct i as [|i]; [injection Hi as ->; lia|]. specialize (IH i Hi). lia.
Qed.

Lemma scan_Some ts h i : scan ts h = Some i -> exists t, ts !! i = Some t /\ ESHash t.1 = h.
Proof.
  revert i. induction ts as [|t ts IH]; intros i; [done|]. cbn [scan]. case_bool_decide as E; [intros [= <-]; by exists t|].
  destruct (scan ts h) as [j|]; [|done]. intros [= <-]. by apply IH.
Qed.

Lemma scan_None ts h : scan ts h = None -> Forall (fun t => ESHash t.1 <> h) ts.
Proof.
  induction ts as [|t ts IH]; [constructor|]. cbn [scan]. case_bool_decide as E; [done|]. destruct (scan ts h); [done|]. intros _. constructor; auto.
Qed.

Lemma scan_snoc ts t h : scan (ts ++ [t]) h = match scan ts h with Some i => Some i | None => if bool_decide (ESHash t.1 = h) then Some (length ts) else None end.
Proof.
  induction ts as [|u ts IH]; cbn [app scan length]; [by destruct (bool_decide _)|]. destruct (bool_decide (ESHash u.1 = h)); [done|].
  rewrite IH. destruct (scan ts h); [done|]. by destruct (bool_decide _).
Qed.

Lemma scan_increase ts i c h : scan (increase ts i c) h = scan ts h.
Proof.
  unfold increase. revert i. induction ts as [|t ts IH]; intros i; [done|]. destruct i as [|i]; cbn; [done|]. destruct (bool_decide _); [done|]. f_equal. apply IH.
Qed.

(** The hashes of the terms are different, and the map gives their positions. *)
Definition hashes (ts : list (expr * Z)) : list (E4 F) := (fun t => ESHash t.1) <$> ts.

Definition map_ok (ts : list (expr * Z)) (m : option (list (E4 F * nat))) : Prop :=
  match m with Some mp => forall h, hmap_get mp h = scan ts h | None => True end.

Lemma hmap_snoc ts t mp :
  (forall h, hmap_get mp h = scan ts h) -> scan ts (ESHash t.1) = None ->
  forall h, hmap_get ((ESHash t.1, length ts) :: mp) h = scan (ts ++ [t]) h.
Proof.
  intros Hm Hn h. cbn [hmap_get]. rewrite scan_snoc, Hm. case_bool_decide as E; [|by destruct (scan ts h)]. by rewrite <- E, Hn.
Qed.

Lemma scan_new ts t : NoDup (hashes (ts ++ [t])) -> scan ts (ESHash t.1) = None.
Proof.
  unfold hashes. rewrite fmap_app. intros (_ & Hd & _)%NoDup_app. destruct (scan ts (ESHash t.1)) as [i|] eqn:E; [|done]. exfalso.
  apply scan_Some in E as (u & Hu & E). apply (Hd (ESHash u.1)); [|rewrite E; by left]. apply list_elem_of_fmap. exists u. split; [done|].
  by apply list_elem_of_lookup_2 in Hu.
Qed.

Lemma index_terms_ok ts : NoDup (hashes ts) -> forall h, hmap_get (index_terms ts) h = scan ts h.
Proof.
  induction ts as [|t ts IH] using rev_ind; intros Hnd h; [done|]. unfold index_terms. rewrite imap_app. cbn [imap]. rewrite reverse_snoc, Nat.add_0_r.
  apply (hmap_snoc ts t); [|by apply scan_new]. apply IH. unfold hashes in Hnd. rewrite fmap_app in Hnd. by apply NoDup_app in Hnd as (? & _).
Qed.

Lemma increase_spec ts i t c :
  ts !! i = Some t -> Forall (fun t => coeff_for op t.2) ts -> coeff_for op c -> tweight ts + Z.abs c < 2 ^ 63 ->
  tsum (increase ts i c) = combine op (tsum ts) (term op (ev t.1) c) /\ tweight (increase ts i c) <= tweight ts + Z.abs c /\
  Forall (fun t => coeff_for op t.2) (increase ts i c) /\ hashes (increase ts i c) = hashes ts /\ (increase ts i c).*1 = ts.*1.
Proof.
  unfold increase. intros Hi Hts Hc. revert i Hi. induction Hts as [|u ts Hu Hts IH]; intros i Hi Hw; [done|].
  cbn [tweight foldr] in Hw. fold (tweight ts) in Hw. pose proof (tweight_nonneg ts). destruct i as [|i].
  - injection Hi as ->. cbn. assert (i64 (t.2 + c) = t.2 + c) as ->.
    { apply swrap_small; [unfold is_i; cbn; lia|lia]. }
    destruct Hu as [Hu1 Hu2], Hc as [Hc1 Hc2]. split_and!.
    + rewrite term_add by (try done; unfold in_int in *; lia). rewrite <- !combine_assoc. f_equal. apply combine_comm.
    + lia.
    + constructor; [|done]. split; cbn; [unfold in_int in *; lia|]. intros E. specialize (Hu2 E). specialize (Hc2 E). lia.
    + done.
    + done.
  - cbn [lookup list_lookup] in Hi. cbn. destruct (IH i Hi) as (H1' & H2' & H3' & H4' & H5'); [lia|]. split_and!.
    + fold (tsum (alter (fun t => (t.1, i64 (t.2 + c))) i ts)). fold (tsum ts). change (list_alter _ i ts) with (alter (fun t : expr * Z => (t.1, i64 (t.2 + c))) i ts).
      rewrite <- combine_assoc, <- H1'. done.
    + fold (tweight ts). etransitivity; [apply Z.add_le_mono_l, H2'|]. lia.
    + by constructor.
    + unfold hashes in *. cbn. by rewrite <- H4'.
    + cbn. by rewrite <- H5'.
Qed.

(** ** The simplifier *)

(** The terms that may be compared: expressions with the same hash have the same value. *)
Context (P : expr -> Prop) (HPv : forall a, P a -> valid blake2b a).
Context (HP : forall a b, P a -> P b -> ESHash a = ESHash b -> ev a = ev b).

Definition state_ok (W : Z) (st : simplifier) : Prop :=
  NoDup (hashes (newTerms st)) /\ map_ok (newTerms st) (itemMap st) /\ gen_ok (constantAcc st) /\
  Forall (fun t => coeff_for op t.2) (newTerms st) /\ Forall P (newTerms st).*1 /\ tweight (newTerms st) <= W.

Definition sval (st : simplifier) : E4 F := combine op (tsum (newTerms st)) (Ext (constantAcc st)).

Lemma addItem_ok W st item c :
  state_ok W st -> P item -> coeff_for op c -> W + Z.abs c < 2 ^ 63 ->
  state_ok (W + Z.abs c) (addItem st item c) /\ sval (addItem st item c) = combine op (sval st) (term op (ev item) c).
Proof.
  intros (Hnd & Hm & Hg & Hc & HPs & Hw) Hi Hco Hb. unfold addItem, sval. destruct st as [ts m acc]. cbn [newTerms itemMap constantAcc] in *.
  assert (map_ok ts (switch_map ts m)) as Hm'. { unfold switch_map. destruct m as [mp|]; [done|]. destruct (_ <=? _)%nat; [|done]. exact (index_terms_ok ts Hnd). }
  revert Hm'. generalize (switch_map ts m) as m'. intros m' Hm'.
  assert (forall i m2, map_ok ts m2 -> scan ts (ESHash item) = Some i ->
    state_ok (W + Z.abs c) (mkSimplifier (increase ts i c) m2 acc) /\ combine op (tsum (increase ts i c)) (Ext acc) = combine op (combine op (tsum ts) (Ext acc)) (term op (ev item) c)) as Hfound.
  { intros i m2 Hm2 Hs. apply scan_Some in Hs as (t & Ht & Eh). destruct (increase_spec ts i t c Ht Hc Hco) as (E1 & E2 & E3 & E4 & E5); [lia|]. split.
    - split_and!; cbn [newTerms itemMap constantAcc]; [by rewrite E4| |done|done|by rewrite E5|lia]. destruct m2; [|done]. intros h. rewrite scan_increase. apply Hm2.
    - rewrite E1, (HP t.1 item); [rewrite <- !combine_assoc; f_equal; apply combine_comm| |done|done].
      rewrite Forall_forall in HPs. apply HPs, list_elem_of_fmap. exists t. split; [done|]. by apply list_elem_of_lookup_2 in Ht. }
  assert (forall m2, map_ok (ts ++ [(item, c)]) m2 -> scan ts (ESHash item) = None ->
    state_ok (W + Z.abs c) (mkSimplifier (ts ++ [(item, c)]) m2 acc) /\ combine op (tsum (ts ++ [(item, c)])) (Ext acc) = combine op (combine op (tsum ts) (Ext acc)) (term op (ev item) c)) as Hnew.
  { intros m2 Hm2 Hs. split.
    - split_and!; cbn [newTerms itemMap constantAcc]; [|done|done| | |].
      + unfold hashes. rewrite fmap_app. apply NoDup_app. split; [done|]. split; [|apply NoDup_singleton]. intros h Hh ->%list_elem_of_singleton.
        apply list_elem_of_fmap in Hh as (t & Et & Ht). apply scan_None in Hs. rewrite Forall_forall in Hs. by apply (Hs t Ht).
      + apply Forall_app. split; [done|]. by constructor.
      + rewrite fmap_app. apply Forall_app. split; [done|]. by constructor.
      + rewrite tweight_app. cbn. lia.
    - rewrite tsum_app. cbn [tsum foldr fst snd]. rewrite combine_unit_r, <- !combine_assoc. f_equal. apply combine_comm. }
  destruct m' as [mp|]; [rewrite Hm'|]; (destruct (scan ts (ESHash item)) as [i|] eqn:Es; [by apply Hfound|]).
  - apply Hnew; [|done]. intros h. by apply (hmap_snoc ts (item, c)).
  - by apply Hnew.
Qed.

Definition addTerm : simplifier -> expr -> Z -> simplifier := match op with linCombOp => addTerm_lincomb | productOp => addTerm_product end.

Lemma term_0 (x : E4 F) : term op x 0 = unit_ op.
Proof. destruct op; cbn [term unit_]; [rewrite f_int64_0; ring|apply f_exp_0]. Qed.

Lemma state_weaken W W' st : state_ok W st -> W <= W' -> state_ok W' st.
Proof. intros (? & ? & ? & ? & ? & ?) ?. split_and!; done || lia. Qed.

Definition add_const (acc g : GenericFieldElem F) (c : Z) : GenericFieldElem F :=
  match op with linCombOp => gen_Add acc (gen_Mul (gen_SetInt64 c) g) | productOp => gen_Mul acc (gen_Exp GenericZeroValue g c) end.

Lemma addTerm_cases st item c :
  c <> 0 -> addTerm st item c =
  match Operator_ item with
  | OConstant g => mkSimplifier (newTerms st) (itemMap st) (add_const (constantAcc st) g c)
  | _ => addItem st item c
  end.
Proof.
  intros Hne. unfold addTerm, add_const. destruct op; unfold addTerm_lincomb, addTerm_product; replace (c =? 0) with false by lia; by destruct (Operator_ item).
Qed.

Lemma addTerm_ok W st item c :
  state_ok W st -> P item -> coeff_for op c -> W + Z.abs c < 2 ^ 63 ->
  state_ok (W + Z.abs c) (addTerm st item c) /\ sval (addTerm st item c) = combine op (sval st) (term op (ev item) c).
Proof.
  intros Hst Hi Hco Hb. destruct (Z.eq_dec c 0) as [->|Hne].
  { assert (addTerm st item 0 = st) as -> by (by unfold addTerm; destruct op). split; [eapply state_weaken; [done|lia]|]. by rewrite term_0, combine_unit_r. }
  rewrite addTerm_cases by done. destruct (Operator_ item) as [g|m|ks|ks|] eqn:Eo; [|by apply addItem_ok..].
  assert (gen_ok g /\ ev item = Ext g) as [Hg Eg].
  { pose proof (valid_node _ _ (HPv item Hi)) as [Hs _]. rewrite Eo in Hs. destruct Hs as [_ Hs]. split; [done|].
    rewrite eval_unfold, Eo. cbn [apply_op]. by apply GetExt_ok. }
  destruct Hst as (Hnd & Hm & Hacc & Hc & HPs & Hw).
  set (acc' := add_const (constantAcc st) g c).
  assert (gen_ok acc' /\ Ext acc' = combine op (Ext (constantAcc st)) (term op (ev item) c)) as [Hg' Ee].
  { unfold acc', add_const. rewrite Eg. destruct op; cbn [combine term].
    - destruct (gen_SetInt64_ok c) as [G1 G2]. destruct (gen_Mul_ok (gen_SetInt64 c) g G1 Hg) as [G3 G4]. destruct (gen_Add_ok _ _ Hacc G3) as [G5 G6].
      split; [done|]. by rewrite G6, G4, G2.
    - destruct (gen_Exp_ok GenericZeroValue g c Hg) as [G1 G2]. destruct (gen_Mul_ok _ _ Hacc G1) as [G3 G4]. split; [done|]. by rewrite G4, G2. }
  split; [split_and!; cbn [newTerms itemMap constantAcc]; done || lia|]. unfold sval. cbn [newTerms constantAcc]. by rewrite Ee, combine_assoc.
Qed.

(** ** Nested operators *)

Context (HPc : forall a, P a -> Forall P (Children a)).

Definition nested_ks (item : expr) : option (list Z) :=
  match op, Operator_ item with
  | linCombOp, OLinComb ks => Some ks
  | productOp, OProduct ks => Some ks
  | _, _ => None
  end.

Definition abs_sum (ks : list Z) : Z := foldr (fun k acc => Z.abs k + acc) 0 ks.

Definition item_weight (item : expr) : Z := match nested_ks item with Some ks => abs_sum ks | None => 1 end.

Lemma abs_sum_nonneg ks : 0 <= abs_sum ks.
Proof. induction ks as [|k ks IH]; cbn [abs_sum foldr]; [done|]. fold (abs_sum ks). lia. Qed.

Lemma nested_value item ks :
  P item -> nested_ks item = Some ks ->
  length ks = length (Children item) /\ Forall (coeff_for op) ks /\ ev item = tsum (zip (Children item) ks).
Proof.
  intros Hi Hks. pose proof (valid_node _ _ (HPv item Hi)) as [Hs _]. rewrite eval_unfold.
  assert (length ks = length (Children item) /\ Forall (coeff_for op) ks /\
    apply_op id rho (Operator_ item) (ev <$> Children item) = foldr (combine op) (unit_ op) (zip_with (term op) (ev <$> Children item) ks)) as (H1' & H2' & ->).
  { unfold nested_ks in Hks. destruct op, (Operator_ item) as [g|m|ks'|ks'|]; try discriminate Hks; injection Hks as ->; cbn [shape_ok] in Hs.
    - destruct Hs as [Hl Hr]. split; [done|]. split; [|done]. eapply Forall_impl; [exact Hr|]. by intros k Hk.
    - destruct Hs as [[Hl Hr] Hn]. split; [done|]. split; [|done]. rewrite Forall_forall in Hr, Hn |- *. intros k Hk. split; [by apply Hr|]. intros _. by apply Hn. }
  split; [done|]. split; [done|]. clear. revert ks. induction (Children item) as [|c cs IH]; intros [|k ks]; cbn; try done. by rewrite IH.
Qed.

(** A coefficient distributes over the terms. *)
Lemma term_tsum ts c :
  coeff_for op c -> Forall (fun t => coeff_for op t.2) ts -> Z.abs c * tweight ts < 2 ^ 63 ->
  term op (tsum ts) c = tsum ((fun t => (t.1, c * t.2)) <$> ts) /\ tweight ((fun t => (t.1, c * t.2)) <$> ts) = Z.abs c * tweight ts /\
  Forall (fun t => coeff_for op t.2) ((fun t => (t.1, c * t.2)) <$> ts).
Proof.
  intros Hc Hts. induction Hts as [|t ts Ht Hts IH]; intros Hw; [cbn; rewrite term_unit by done; split_and!; try done; lia|].
  cbn [tweight foldr] in Hw. fold (tweight ts) in Hw. pose proof (tweight_nonneg ts). destruct IH as (IH1 & IH2 & IH3); [nia|].
  assert (in_int (c * t.2)) as Hi by (unfold in_int; nia). cbn [fmap list_fmap tsum tweight foldr fst snd]. split_and!.
  - fold (tsum ts) (tsum ((fun t => (t.1, c * t.2)) <$> ts)). rewrite term_combine by done. rewrite IH1, term_term by done. done.
  - fold (tweight ts) (tweight ((fun t => (t.1, c * t.2)) <$> ts)). rewrite IH2, Z.abs_mul. lia.
  - constructor; [|done]. split; [done|]. cbn. intros E. destruct Hc as [_ Hc], Ht as [_ Ht]. specialize (Hc E). specialize (Ht E). lia.
Qed.

(** Adding terms one after the other. *)
Lemma addTerms_ok ts W st :
  state_ok W st -> Forall P ts.*1 -> Forall (fun t => coeff_for op t.2) ts -> W + tweight ts < 2 ^ 63 ->
  let st' := foldl (fun st t => addTerm st t.1 t.2) st ts in state_ok (W + tweight ts) st' /\ sval st' = combine op (sval st) (tsum ts).
Proof.
  cbn. revert W st. induction ts as [|t ts IH]; intros W st Hst HPs Hc Hw; cbn [foldl tweight foldr] in *.
  - rewrite Z.add_0_r. split; [done|]. cbn. by rewrite combine_unit_r.
  - fold (tweight ts) in *. apply Forall_cons in HPs as [HP1 HP2]. apply Forall_cons in Hc as [Hc1 Hc2]. pose proof (tweight_nonneg ts).
    destruct (addTerm_ok W st t.1 t.2 Hst HP1 Hc1) as [H1' H2']; [lia|]. destruct (IH _ _ H1' HP2 Hc2) as [H3' H4']; [lia|].
    split; [by replace (W + (Z.abs t.2 + tweight ts)) with (W + Z.abs t.2 + tweight ts) by lia|]. cbn [tsum foldr]. fold (tsum ts). by rewrite H4', H2', combine_assoc.
Qed.

Lemma zip_weight (cs : list expr) ks : length ks = length cs -> tweight (zip cs ks) = abs_sum ks.
Proof. revert ks. induction cs as [|c cs IH]; intros [|k ks] Hl; cbn; try done. f_equal. apply IH. by injection Hl. Qed.

Lemma foldM_Ok {A S} (f : S -> A -> S) (g : S -> A -> go S) st l : (forall st x, x ∈ l -> g st x = Ok (f st x)) -> foldM g st l = Ok (foldl f st l).
Proof.
  revert st. induction l as [|x l IH]; intros st Hg; [done|]. cbn [foldM foldl]. rewrite Hg by (by left). cbn [mbind outcome_bind]. apply IH. intros. apply Hg. by right.
Qed.

Lemma add_nested_ok W st item c ks :
  state_ok W st -> 0 <= W -> P item -> nested_ks item = Some ks -> coeff_for op c -> W + Z.abs c * abs_sum ks < 2 ^ 63 ->
  exists st', add_nested addTerm st c ks item = Ok st' /\ state_ok (W + Z.abs c * abs_sum ks) st' /\ sval st' = combine op (sval st) (term op (ev item) c).
Proof.
  intros Hst HW Hi Hks Hc Hw. destruct (nested_value item ks Hi Hks) as (Hl & Hk & ->). set (ts := zip (Children item) ks).
  assert (Forall (fun t => coeff_for op t.2) ts) as Hts.
  { apply Forall_forall. intros [x k] Ht. apply list_elem_of_lookup_1 in Ht as (i & Ht). apply lookup_zip_Some in Ht as [_ Ht]. rewrite Forall_forall in Hk. by eapply Hk, list_elem_of_lookup_2. }
  assert (tweight ts = abs_sum ks) as Ew by (by apply zip_weight). rewrite <- Ew in *. clear Ew. pose proof (tweight_nonneg ts).
  destruct (term_tsum ts c Hc Hts) as (-> & E2 & E3); [lia|]. rewrite <- E2 in *. set (ts' := (fun t => (t.1, c * t.2)) <$> ts) in *.
  assert (Forall P ts'.*1) as HPs.
  { unfold ts'. rewrite <- list_fmap_compose. apply Forall_fmap, Forall_forall. intros [x k] Ht. apply list_elem_of_lookup_1 in Ht as (i & Ht). apply lookup_zip_Some in Ht as [Ht _].
    pose proof (HPc item Hi) as Hcs. rewrite Forall_forall in Hcs. by eapply Hcs, list_elem_of_lookup_2. }
  destruct (addTerms_ok ts' W st Hst HPs E3) as [Hs Hv]; [lia|]. exists (foldl (fun st t => addTerm st t.1 t.2) st ts'). split; [|done].
  unfold add_nested. rewrite (foldM_index2 (fun st x k => Ok (addTerm st x (i64 (c * k))))) by done. fold ts.
  rewrite (foldM_Ok (fun st t => addTerm st t.1 (i64 (c * t.2)))) by done. f_equal. unfold ts'. clear -E3. unfold ts' in E3. clearbody ts. revert st.
  induction ts as [|t ts IH]; intros st; [done|]. cbn [foldl fmap list_fmap fst snd] in *. apply Forall_cons in E3 as [[Ht _] E3]. cbn [snd] in Ht.
  rewrite IH by done. do 2 f_equal. apply swrap_small; [unfold is_i, in_int in *; cbn; lia|lia].
Qed.

Definition items_weight (its : list (expr * Z)) : Z := foldr (fun t acc => Z.abs t.2 * item_weight t.1 + acc) 0 its.

Lemma items_weight_nonneg its : 0 <= items_weight its.
Proof.
  induction its as [|t its IH]; cbn [items_weight foldr]; [done|]. fold (items_weight its). unfold item_weight.
  destruct (nested_ks t.1) as [ks|]; [pose proof (abs_sum_nonneg ks); nia|lia].
Qed.

(** One item of the operation, nested or not. *)
Lemma item_ok W st item c :
  state_ok W st -> 0 <= W -> P item -> coeff_for op c -> W + Z.abs c * item_weight item < 2 ^ 63 ->
  exists st', (match nested_ks item with Some ks => add_nested addTerm st c ks item | None => Ok (addTerm st item c) end) = Ok st' /\
    state_ok (W + Z.abs c * item_weight item) st' /\ sval st' = combine op (sval st) (term op (ev item) c).
Proof.
  intros Hst HW Hi Hc Hw. unfold item_weight in *. destruct (nested_ks item) as [ks|] eqn:Ek; [by apply add_nested_ok|].
  rewrite Z.mul_1_r in *. eexists. split; [reflexivity|]. by apply addTerm_ok.
Qed.
End Terms.

(** ** Constructors *)

(** The expressions of the set [S] are well formed, and at the assignment [rho] two of
    them with the same hash have the same value, and one with the hash zero has the
    value zero. *)
Record no_collision {F : Type} `{ExtOps F} (blake2b : string -> E4 F) (rho : Metadata -> E4 F) (S : Expression F -> Prop) : Prop := {
  nc_valid a : S a -> valid blake2b a;
  nc_children a : S a -> Forall S (Children a);
  nc_same a b : S a -> S b -> ESHash a = ESHash b -> eval id rho a = eval id rho b;
  nc_zero a : S a -> ESHash a = f_zero -> eval id rho a = f_zero
}.

Section Constructors.
Context {F : Type} `{ExtLaws F} (blake2b : string -> E4 F).
Abbreviation expr := (Expression F).
Add Ring constructors_ring : (@f_ring (E4 F) _ _).
Implicit Types (rho : Metadata -> E4 F).

(** No collision at the assignment that defines the hashes. *)
Lemma hash_no_collision : no_collision blake2b (metadataToESH blake2b) (valid blake2b).
Proof.
  split; [done|apply valid_children| |]; intros; rewrite <- !(ESHash_eval blake2b) by done; done.
Qed.

Lemma NewConstant_valid x : valid blake2b (NewConstant x).
Proof.
  constructor; [|constructor]. unfold node_ok. cbn. destruct (Minimal_ok x) as [Hg He]. split; [done|]. rewrite GetExt_ok by done. symmetry. exact He.
Qed.

Lemma NewConstant_eval rho x : eval id rho (NewConstant x) = x.
Proof. cbn. destruct (Minimal_ok x) as [Hg He]. by rewrite GetExt_ok. Qed.

Lemma NewConstantInt_eval rho k : eval id rho (NewConstantInt k) = @f_int64 (E4 F) _ k.
Proof. unfold NewConstantInt. by rewrite NewConstant_eval, ext_int64. Qed.

Lemma NewVariable_valid m : valid blake2b (NewVariable blake2b m).
Proof. constructor; [|constructor]. done. Qed.

Definition newNoSimplify (op : operator) : list expr -> list Z -> go expr :=
  match op with linCombOp => newLinCombNoSimplify | productOp => newProductNoSimplify end.

Lemma coeffs_shape op ks (cs : list expr) :
  length ks = length cs -> Forall (coeff_for op) ks ->
  shape_ok (match op with linCombOp => OLinComb ks | productOp => OProduct ks end) cs.
Proof.
  intros Hl Hk. rewrite Forall_forall in Hk. destruct op; cbn [shape_ok].
  - split; [done|]. apply Forall_forall. intros k H'. by apply Hk.
  - split; [split; [done|]|]; apply Forall_forall; intros k H'; by apply Hk.
Qed.

(** The foldr of a specification against the loop of the code. *)
Lemma foldl_combine op (f : expr -> Z -> E4 F) acc (ts : list (expr * Z)) :
  foldl (fun acc t => combine op acc (f t.1 t.2)) acc ts = combine op acc (foldr (fun t r => combine op (f t.1 t.2) r) (unit_ op) ts).
Proof.
  revert acc. induction ts as [|t ts IH]; intros acc; cbn [foldl foldr]; [by rewrite combine_unit_r|]. by rewrite IH, combine_assoc.
Qed.

Lemma foldr_terms op (f : expr -> E4 F) (cs : list expr) ks :
  foldr (fun t r => combine op (term op (f t.1) t.2) r) (unit_ op) (zip cs ks) = foldr (combine op) (unit_ op) (zip_with (term op) (f <$> cs) ks).
Proof. revert ks. induction cs as [|c cs IH]; intros [|k ks]; cbn; try done. by rewrite IH. Qed.

Lemma newNoSimplify_ok op rho cs ks :
  length ks = length cs -> Forall (coeff_for op) ks -> Forall (valid blake2b) cs ->
  exists e, newNoSimplify op cs ks = Ok e /\ valid blake2b e /\ eval id rho e = tsum rho op (zip cs ks).
Proof.
  intros Hl Hk Hcs. set (o := match op with linCombOp => OLinComb ks | productOp => OProduct ks end : Operator F).
  set (h := foldr (fun t r => combine op (term op (ESHash t.1) t.2) r) (unit_ op) (zip cs ks)).
  exists (mkExpression h cs o (computeIsBaseFromChildren cs)). split_and!.
  - unfold newNoSimplify, o, h. destruct op; unfold newLinCombNoSimplify, newProductNoSimplify.
    + rewrite (foldM_index2 (fun acc item coeff => Ok (f_add acc (MulByElement (ESHash item) (f_int64 coeff))))) by done.
      rewrite (foldM_Ok (fun acc t => combine linCombOp acc (term linCombOp (ESHash t.1) t.2))).
      2: { intros st x _. cbn [combine term]. rewrite MulByElement_ok, <- ext_int64. do 2 f_equal. ring. }
      rewrite (foldl_combine linCombOp (fun e k => term linCombOp (ESHash e) k)). cbn [mbind outcome_bind]. do 2 f_equal. cbn [combine]. ring.
    + rewrite (foldM_index2 (fun acc item exponent => Ok (f_mul acc (f_exp (ESHash item) exponent)))) by done.
      rewrite (foldM_Ok (fun acc t => combine productOp acc (term productOp (ESHash t.1) t.2))) by done.
      rewrite (foldl_combine productOp (fun e k => term productOp (ESHash e) k)). cbn [mbind outcome_bind]. do 2 f_equal. cbn [combine]. ring.
  - constructor; [|done]. split; cbn [Operator_ Children ESHash]; [by apply coeffs_shape|]. unfold h, o. rewrite (foldr_terms op ESHash). by destruct op.
  - rewrite eval_unfold. cbn [Operator_ Children]. unfold o, tsum. rewrite (foldr_terms op (eval id rho)). by destruct op.
Qed.

(** What a simplified list of terms promises. *)
Definition simplified (op : operator) rho (ts us : list (expr * Z)) : Prop :=
  tsum rho op ts = tsum rho op us /\ Forall (coeff_for op) ts.*2 /\ Forall (valid blake2b) ts.*1.

Lemma Forall_filter_pred {A} (Q R : A -> Prop) `{!forall x, Decision (R x)} (l : list A) : Forall Q l -> Forall Q (filter R l).
Proof. rewrite !Forall_forall. intros HQ x [_ Hx]%list_elem_of_filter. auto. Qed.

Lemma nonzero_simplified op rho ts us : simplified op rho ts us -> simplified op rho (nonzero_terms ts) us.
Proof.
  intros (E & Hc & Hv). split_and!.
  - rewrite <- E. clear Hc Hv E. unfold nonzero_terms. induction ts as [|[e k] ts IH]; [done|]. rewrite filter_cons. cbn [snd]. case_decide as Ek; cbn [tsum foldr fst snd].
    + f_equal. exact IH.
    + rewrite Ek, term_0, combine_unit. exact IH.
  - apply Forall_fmap, Forall_filter_pred. by apply (Forall_fmap snd).
  - apply Forall_fmap, Forall_filter_pred. by apply (Forall_fmap fst).
Qed.

(** From the final state of the simplifier to its terms. *)
Lemma finish_simplified op rho S W st us (one : bool) :
  state_ok op S W st -> (forall a, S a -> valid blake2b a) -> sval rho op st = tsum rho op us ->
  (one = true -> Ext (constantAcc st) = unit_ op) ->
  simplified op rho (nonzero_terms (if one then newTerms st else newTerms st ++ [(NewConstant (Ext (constantAcc st)), 1)])) us.
Proof.
  intros (_ & _ & Hg & Hc & HS & _) Hv E Hone. apply nonzero_simplified. unfold simplified. rewrite <- E. clear E us. unfold sval.
  assert (Forall (valid blake2b) (newTerms st).*1) as Hv' by (eapply Forall_impl; [exact HS|done]). apply (Forall_fmap snd) in Hc.
  destruct one.
  - split_and!; [|done|done]. by rewrite Hone, combine_unit_r.
  - rewrite !fmap_app, !Forall_app, tsum_app. split_and!; [|done| |done|].
    + f_equal. cbn [tsum foldr fst snd]. rewrite NewConstant_eval, combine_unit_r. destruct op; cbn [term]; [rewrite int64_1; ring|apply exp_1].
    + constructor; [|constructor]. split; [unfold in_int; cbn; lia|]. cbn. lia.
    + constructor; [|constructor]. apply NewConstant_valid.
Qed.
End Constructors.

(** ** The loops of the simplifications *)

Section Simplify.
Context {F : Type} `{ExtLaws F} (blake2b : string -> E4 F) (rho : Metadata -> E4 F) (S : Expression F -> Prop).
Context (HS : no_collision blake2b rho S).
Abbreviation expr := (Expression F).
Add Ring simplify_ring : (@f_ring (E4 F) _ _).

(** What a call may be given. *)
Definition items_ok (op : operator) (ts : list (expr * Z)) : Prop :=
  Forall S ts.*1 /\ Forall (coeff_for op) ts.*2 /\ items_weight op ts < 2 ^ 63.

Lemma item_step op W st item c :
  state_ok op S W st -> 0 <= W -> S item -> coeff_for op c -> W + Z.abs c * item_weight op item < 2 ^ 63 ->
  exists st', (match nested_ks op item with Some ks => add_nested (addTerm op) st c ks item | None => Ok (addTerm op st item c) end) = Ok st' /\
    state_ok op S (W + Z.abs c * item_weight op item) st' /\ sval rho op st' = combine op (sval rho op st) (term op (eval id rho item) c).
Proof.
  apply (item_ok blake2b); [apply (nc_valid _ _ _ HS)|apply (nc_same _ _ _ HS)|apply (nc_children _ _ _ HS)].
Qed.

Lemma lincomb_item_ok W st t :
  state_ok linCombOp S W st -> 0 <= W -> S t.1 -> coeff_for linCombOp t.2 -> W + Z.abs t.2 * item_weight linCombOp t.1 < 2 ^ 63 ->
  exists st', lincomb_item st t = Ok st' /\ state_ok linCombOp S (W + Z.abs t.2 * item_weight linCombOp t.1) st' /\
    sval rho linCombOp st' = combine linCombOp (sval rho linCombOp st) (term linCombOp (eval id rho t.1) t.2).
Proof.
  destruct t as [item c]. cbn [fst snd]. intros Hst HW Hi Hc Hw. destruct (item_step linCombOp W st item c Hst HW Hi Hc Hw) as (st' & E & Hst').
  unfold lincomb_item. destruct (Z.eqb_spec c 0) as [->|Hne].
  - exists st. split; [done|]. split; [by rewrite Z.mul_0_l, Z.add_0_r|]. by rewrite term_0, combine_unit_r.
  - exists st'. split; [|done]. rewrite <- E. unfold nested_ks. by destruct (Operator_ item).
Qed.

Lemma product_item_ok W st t :
  state_ok productOp S W st -> 0 <= W -> S t.1 -> coeff_for productOp t.2 -> W + Z.abs t.2 * item_weight productOp t.1 < 2 ^ 63 ->
  (product_item (Some st) t = Ok None /\ term productOp (eval id rho t.1) t.2 = f_zero) \/
  exists st', product_item (Some st) t = Ok (Some st') /\ state_ok productOp S (W + Z.abs t.2 * item_weight productOp t.1) st' /\
    sval rho productOp st' = combine productOp (sval rho productOp st) (term productOp (eval id rho t.1) t.2).
Proof.
  destruct t as [item c]. cbn [fst snd]. intros Hst HW Hi Hc Hw. destruct (item_step productOp W st item c Hst HW Hi Hc Hw) as (st' & E & Hst').
  unfold product_item. destruct (Z.eqb_spec c 0) as [->|Hne].
  { right. exists st. split; [done|]. split; [by rewrite Z.mul_0_l, Z.add_0_r|]. by rewrite term_0, combine_unit_r. }
  destruct Hc as [_ Hc]. specialize (Hc eq_refl). replace (negb (c <? 0)) with true by lia. cbn [assert_ mbind outcome_bind]. case_bool_decide as Eh.
  - left. split; [done|]. rewrite (nc_zero _ _ _ HS) by done. cbn [term]. apply exp_zero. lia.
  - right. exists st'. split; [|done]. revert E. unfold nested_ks. destruct (Operator_ item); cbn [addTerm]; intros E; [by injection E as <-..| |by injection E as <-].
    unfold addTerm in E. by rewrite E.
Qed.

Lemma items_weight_cons op (t : expr * Z) ts : items_weight op (t :: ts) = Z.abs t.2 * item_weight op t.1 + items_weight op ts.
Proof. done. Qed.

Lemma tsum_cons op t ts : tsum rho op (t :: ts) = combine op (term op (eval id rho t.1) t.2) (tsum rho op ts).
Proof. done. Qed.

Lemma item_weight_nonneg op (item : expr) : 0 <= item_weight op item.
Proof. unfold item_weight. destruct (nested_ks op item); [apply abs_sum_nonneg|lia]. Qed.

Lemma items_ok_cons op t ts :
  items_ok op (t :: ts) -> (S t.1 /\ coeff_for op t.2) /\ items_ok op ts.
Proof.
  unfold items_ok. rewrite items_weight_cons. cbn [fmap list_fmap]. rewrite !Forall_cons. intros ([? ?] & [? ?] & ?). split_and!; try done.
  pose proof (item_weight_nonneg op t.1). nia.
Qed.

Lemma lincomb_items_ok ts W st :
  state_ok linCombOp S W st -> 0 <= W -> items_ok linCombOp ts -> W + items_weight linCombOp ts < 2 ^ 63 ->
  exists st', foldM lincomb_item st ts = Ok st' /\ state_ok linCombOp S (W + items_weight linCombOp ts) st' /\
    sval rho linCombOp st' = combine linCombOp (sval rho linCombOp st) (tsum rho linCombOp ts).
Proof.
  revert W st. induction ts as [|t ts IH]; intros W st Hst HW Hts Hw.
  { exists st. split; [done|]. cbn [items_weight tsum foldr]. by rewrite Z.add_0_r, combine_unit_r. }
  rewrite items_weight_cons in *. apply items_ok_cons in Hts as [[Ht Hc] Hts]. pose proof (items_weight_nonneg linCombOp ts).
  destruct (lincomb_item_ok W st t Hst HW Ht Hc) as (st1 & E1 & Hst1 & Hv1); [lia|].
  pose proof (item_weight_nonneg linCombOp t.1). destruct (IH _ _ Hst1) as (st2 & E2 & Hst2 & Hv2); [nia|done|lia|].
  exists st2. cbn [foldM]. rewrite E1. split; [done|]. rewrite Z.add_assoc. split; [done|]. by rewrite Hv2, Hv1, tsum_cons, combine_assoc.
Qed.

Lemma product_items_None ts : foldM product_item None ts = Ok (@None (simplifier (F := F))).
Proof. induction ts as [|t ts IH]; [done|]. exact IH. Qed.

Lemma product_items_ok ts W st :
  state_ok productOp S W st -> 0 <= W -> items_ok productOp ts -> W + items_weight productOp ts < 2 ^ 63 ->
  (foldM product_item (Some st) ts = Ok None /\ tsum rho productOp ts = f_zero) \/
  exists st', foldM product_item (Some st) ts = Ok (Some st') /\ state_ok productOp S (W + items_weight productOp ts) st' /\
    sval rho productOp st' = combine productOp (sval rho productOp st) (tsum rho productOp ts).
Proof.
  revert W st. induction ts as [|t ts IH]; intros W st Hst HW Hts Hw.
  { right. exists st. split; [done|]. cbn [items_weight tsum foldr]. by rewrite Z.add_0_r, combine_unit_r. }
  rewrite items_weight_cons in *. apply items_ok_cons in Hts as [[Ht Hc] Hts]. pose proof (items_weight_nonneg productOp ts). cbn [foldM].
  destruct (product_item_ok W st t Hst HW Ht Hc) as [[E1 Hz]|(st1 & E1 & Hst1 & Hv1)]; [lia| |]; rewrite E1; cbn [mbind outcome_bind].
  { left. split; [apply product_items_None|]. rewrite tsum_cons, Hz. cbn [combine]. ring. }
  pose proof (item_weight_nonneg productOp t.1). destruct (IH _ _ Hst1) as [[E2 Hz]|(st2 & E2 & Hst2 & Hv2)]; [nia|done|lia| |].
  - left. split; [done|]. rewrite tsum_cons, Hz. cbn [combine]. ring.
  - right. exists st2. split; [done|]. rewrite Z.add_assoc. split; [done|]. by rewrite Hv2, Hv1, tsum_cons, combine_assoc.
Qed.
End Simplify.
