(* ===== verification/SymConstructors.v ===== *)
(** The constructors of symbolic expressions: what they return stands for what was asked
    for, and passes the validation of the package. *)
From S2P Require Import Prelude SvIntervals SmartVectors SvSpec SvOps SvOpsTheorems FieldExt Symbolic SymSpec SymTheorems.
From Stdlib Require Import ZifyBool Ring.

Section New.
Context {F : Type} `{ExtLaws F} (blake2b : string -> E4 F) (rho : Metadata -> E4 F) (S : Expression F -> Prop).
Context (HS : no_collision blake2b rho S).
Abbreviation expr := (Expression F).
Add Ring new_ring : (@f_ring (E4 F) _ _).

(** The operator without simplification. *)
Definition raw (op : operator) (ks : list Z) : Operator F := match op with linCombOp => OLinComb ks | productOp => OProduct ks end.

Lemma raw_tsum op (items : list expr) ks : apply_op id rho (raw op ks) (eval id rho <$> items) = tsum rho op (zip items ks).
Proof. unfold tsum. rewrite (foldr_terms op (eval id rho)). by destruct op. Qed.

Lemma empty_state_ok op g : gen_ok g -> Ext g = unit_ op -> state_ok op S 0 (mkSimplifier [] None g) /\ sval rho op (mkSimplifier [] None g) = unit_ op.
Proof.
  intros Hg Eg. split.
  - split_and!; cbn; try done; constructor.
  - unfold sval. cbn [newTerms constantAcc tsum foldr]. by rewrite Eg, combine_unit.
Qed.

Lemma simplifyLinComb_ok items coeffs :
  length coeffs = length items -> items_ok S linCombOp (zip items coeffs) ->
  exists ts, simplifyLinComb items coeffs = Ok ts /\ simplified blake2b linCombOp rho ts (zip items coeffs).
Proof.
  intros Hl Hi. unfold simplifyLinComb. replace (zlen items =? zlen coeffs) with true by (unfold zlen; lia). cbn [assert_ mbind outcome_bind].
  destruct gen_consts_ok as (_ & Hg & _ & Eg). destruct (empty_state_ok linCombOp _ Hg Eg) as [Hst Hv].
  destruct (lincomb_items_ok blake2b rho S HS _ _ _ Hst (Z.le_refl 0) Hi) as (st & -> & Hst' & Hv'); [apply Hi|]. cbn [mbind outcome_bind].
  eexists. split; [reflexivity|]. eapply finish_simplified; [exact Hst'|apply (nc_valid _ _ _ HS)|by rewrite Hv', Hv, combine_unit|].
  rewrite gen_IsZero_ok by apply Hst'. by intros ?%bool_decide_eq_true.
Qed.

Lemma simplifyProduct_ok items exponents :
  length exponents = length items -> items_ok S productOp (zip items exponents) ->
  exists ts, simplifyProduct items exponents = Ok ts /\ simplified blake2b productOp rho ts (zip items exponents).
Proof.
  intros Hl Hi. unfold simplifyProduct. replace (zlen items =? zlen exponents) with true by (unfold zlen; lia). cbn [assert_ mbind outcome_bind].
  destruct gen_consts_ok as (Hg & _ & Eg & _). destruct (empty_state_ok productOp _ Hg Eg) as [Hst Hv].
  destruct (product_items_ok blake2b rho S HS _ _ _ Hst (Z.le_refl 0) Hi) as [[-> Hz]|(st & -> & Hst' & Hv')]; [apply Hi| |]; cbn [mbind outcome_bind].
  - eexists. split; [reflexivity|]. split_and!.
    + rewrite Hz. cbn [tsum foldr fst snd term combine unit_]. rewrite NewConstantInt_eval, exp_1, f_int64_0. ring.
    + constructor; [|constructor]. split; [unfold in_int|]; cbn; lia.
    + constructor; [|constructor]. apply NewConstant_valid.
  - eexists. split; [reflexivity|]. eapply finish_simplified; [exact Hst'|apply (nc_valid _ _ _ HS)|by rewrite Hv', Hv, combine_unit|].
    rewrite gen_IsOne_ok by apply Hst'. by intros ?%bool_decide_eq_true.
Qed.

(** The end of both constructors. *)
Definition new_of (op : operator) (ts : list (expr * Z)) : go expr :=
  match ts with
  | [] => Ok (NewConstantInt (match op with linCombOp => 0 | productOp => 1 end))
  | [(item, coeff)] => if coeff =? 1 then Ok item else newNoSimplify op [item] [coeff]
  | _ => newNoSimplify op ts.*1 ts.*2
  end.

Lemma new_of_ok op ts us :
  simplified blake2b op rho ts us -> exists e, new_of op ts = Ok e /\ valid blake2b e /\ eval id rho e = tsum rho op us.
Proof.
  intros (<- & Hc & Hv). pose proof (newNoSimplify_ok blake2b op rho ts.*1 ts.*2) as Hn. rewrite !length_fmap, zip_fst_snd in Hn. specialize (Hn eq_refl Hc Hv).
  destruct ts as [|[item k] [|t ts]]; cbn [new_of].
  - eexists. split; [reflexivity|]. split; [apply NewConstant_valid|]. rewrite NewConstantInt_eval. destruct op; cbn; [apply f_int64_0|apply int64_1].
  - destruct (Z.eqb_spec k 1) as [->|_]; [|exact Hn]. exists item. apply Forall_cons in Hv as [Hv _]. split_and!; [done|done|].
    rewrite tsum_cons. cbn [tsum foldr fst snd]. rewrite combine_unit_r. destruct op; cbn [term]; [rewrite int64_1; ring|symmetry; apply exp_1].
  - exact Hn.
Qed.

Lemma NewLinComb_ok items coeffs :
  length coeffs = length items -> items_ok S linCombOp (zip items coeffs) ->
  exists e, NewLinComb items coeffs = Ok e /\ valid blake2b e /\ eval id rho e = apply_op id rho (OLinComb coeffs) (eval id rho <$> items).
Proof.
  intros Hl Hi. unfold NewLinComb. replace (zlen items =? zlen coeffs) with true by (unfold zlen; lia). cbn [assert_ mbind outcome_bind].
  destruct (simplifyLinComb_ok items coeffs Hl Hi) as (ts & -> & Hts). cbn [mbind outcome_bind].
  change (OLinComb coeffs) with (raw linCombOp coeffs). rewrite raw_tsum. exact (new_of_ok _ _ _ Hts).
Qed.

Lemma NewProduct_ok items exponents :
  length exponents = length items -> items_ok S productOp (zip items exponents) ->
  exists e, NewProduct items exponents = Ok e /\ valid blake2b e /\ eval id rho e = apply_op id rho (OProduct exponents) (eval id rho <$> items).
Proof.
  intros Hl Hi. unfold NewProduct. replace (zlen items =? zlen exponents) with true by (unfold zlen; lia). cbn [assert_ mbind outcome_bind].
  destruct (simplifyProduct_ok items exponents Hl Hi) as (ts & -> & Hts). cbn [mbind outcome_bind].
  change (OProduct exponents) with (raw productOp exponents). rewrite raw_tsum. exact (new_of_ok _ _ _ Hts).
Qed.

Lemma NewPolyEval_ok x coeffs :
  coeffs <> [] -> valid blake2b x -> Forall (valid blake2b) coeffs ->
  exists e, NewPolyEval x coeffs = Ok e /\ valid blake2b e /\ eval id rho e = apply_op id rho OPolyEval (eval id rho <$> x :: coeffs).
Proof.
  intros Hne Hx Hcs. unfold NewPolyEval. replace (negb (zlen coeffs =? 0)) with true by (destruct coeffs; [done|unfold zlen; cbn [length]; lia]).
  cbn [assert_ mbind outcome_bind]. destruct coeffs as [|c [|d cs]]; [done| |].
  - exists c. apply Forall_cons in Hcs as [Hc _]. split_and!; [done|done|]. cbn. ring.
  - eexists. split; [reflexivity|]. split; [|by rewrite eval_unfold]. constructor; [|by constructor]. split; [cbn; lia|].
    cbn [ESHash Operator_ Children apply_op fmap list_fmap]. unfold Eval. cbn [foldr]. rewrite foldr_fmap. done.
Qed.
End New.

(** ** Validation *)

Section Validation.
Context {F : Type} `{ExtLaws F} (blake2b : string -> E4 F) (sort : list CircularInterval -> list CircularInterval).
Abbreviation expr := (Expression F).

Definition const1 (x : E4 F) : SmartVector (F := E4 F) := SConstant (mkConstant x 1).

Lemma total_const1 op hs ks :
  length ks = length hs ->
  total op is_const (zip (const1 <$> hs) ks) 0 = foldr (combine op) (unit_ op) (zip_with (term op) hs ks) /\ count is_const (zip (const1 <$> hs) ks) = length hs.
Proof. revert ks. induction hs as [|h hs IH]; intros [|k ks] Hl; try done. destruct (IH ks) as [E1 E2]; [by injection Hl|]. cbn. by rewrite <- E1, <- E2. Qed.

Lemma foldM_unit {A} (g : unit -> A -> go unit) (l : list A) : (forall x, x ∈ l -> g tt x = Ok tt) -> foldM g tt l = Ok tt.
Proof. induction l as [|x l IH]; intros Hg; [done|]. cbn [foldM]. rewrite Hg by (by left). apply IH. intros. apply Hg. by right. Qed.

Lemma head_const1 hs : hs <> [] -> exists s0, head (const1 <$> hs) = Some s0 /\ Len s0 = 1.
Proof. destruct hs as [|h hs]; [done|]. intros _. by exists (const1 h). Qed.

(** All the vectors are constants of length one. *)
Lemma processOperator_const1 op hs ks :
  length ks = length hs -> hs <> [] ->
  processOperator sort op ks (const1 <$> hs) = Ok (const1 (foldr (combine op) (unit_ op) (zip_with (term op) hs ks)), const1 <$> hs).
Proof.
  intros Hl Hne. destruct (total_const1 op hs ks Hl) as [Et Ec]. unfold processOperator. rewrite !zlen_fmap.
  replace (zlen ks =? zlen hs) with true by (unfold zlen; lia).
  replace (negb (zlen hs =? 0)) with true by (destruct hs; [done|]; unfold zlen; cbn [length]; lia). destruct (head_const1 hs Hne) as (s0 & E0 & Es).
  rewrite E0. cbn [assert_ mbind outcome_bind unwrap].
  rewrite (foldM_unit _ (const1 <$> hs)) by (intros x (y & -> & _)%list_elem_of_fmap; by rewrite Es). cbn [mbind outcome_bind].
  rewrite (processConstOnly_ok op (const1 <$> hs) ks s0) by done. rewrite Ec, Et, Es, length_fmap.
  replace (length hs =? 0)%nat with false by (destruct hs; [done|]; done). cbn [assert_ mbind outcome_bind unwrap assertStrictPositiveLen]. by rewrite Nat.eqb_refl.
Qed.

Lemma EvaluateExt_const1 op (cs : list expr) rho :
  shape_ok op cs -> cs <> [] -> EvaluateExt sort op (const1 <$> (ESHash <$> cs)) = Ok (const1 (apply_op id rho op (ESHash <$> cs))).
Proof.
  intros Hs Hne. assert (ESHash <$> cs <> []) as Hne' by (by destruct cs).
  assert (forall l : list (E4 F), mapM as_constant (const1 <$> l) = Some ((fun x => mkConstant x 1) <$> l)) as Hm.
  { intros l. induction l as [|x l IH]; [done|]. cbn. cbn in IH. by rewrite IH. }
  destruct op as [g|m|ks|ks|]; cbn [shape_ok EvaluateExt] in *.
  - by destruct Hs.
  - done.
  - unfold LinComb. destruct Hs as [Hl _]. destruct (head_const1 _ Hne') as (s0 & -> & Es). cbn [unwrap mbind outcome_bind].
    rewrite foldM_unit by (intros x (y & -> & _)%list_elem_of_fmap; by rewrite Es). cbn [mbind outcome_bind].
    rewrite processOperator_const1 by (try done; by rewrite length_fmap). done.
  - unfold Product. destruct Hs as [[Hl _] _]. rewrite processOperator_const1 by (try done; by rewrite length_fmap). done.
  - destruct cs as [|x [|c cs]]; [done|cbn in Hs; lia|]. cbn [fmap list_fmap unwrap head mbind outcome_bind const1 drop Value].
    unfold LinearCombination. cbn [unwrap head mbind outcome_bind]. specialize (Hm (ESHash c :: (ESHash <$> cs))). cbn [fmap list_fmap const1] in Hm. rewrite Hm.
    cbn [apply_op]. rewrite fmap_cons, <- (list_fmap_compose _ Value), list_fmap_id. done.
Qed.

Lemma Validate_ok e : valid blake2b e -> Validate sort e = Ok tt.
Proof.
  induction e as [h cs op b IH] using Expression_nested_ind. intros Hv. pose proof (valid_node _ _ Hv) as [Hs Hh]. apply valid_children in Hv.
  cbn [Operator_ Children ESHash Validate] in *.
  assert ((fix all (l : list expr) : outcome validation_error unit := match l with [] => Ok tt | c :: l => _ ← Validate sort c; all l end) cs = Ok tt) as ->.
  { clear Hs Hh. induction IH as [|c cs Hc _ IH]; [done|]. apply Forall_cons in Hv as [Hv1 Hv2]. rewrite Hc by done. cbn. by apply IH. }
  assert (operator_Validate (mkExpression h cs op b) = Ok tt) as ->.
  { clear IH. unfold operator_Validate, require, assert_, zlen. cbn [Operator_ Children]. destruct op as [g|m|ks|ks|]; cbn [shape_ok] in Hs.
    - destruct Hs as [-> _]. done.
    - by rewrite Hs.
    - destruct Hs as [Hl _]. by replace (_ =? _) with true by lia.
    - destruct Hs as [[Hl _] Hp]. replace (_ =? _) with true by lia. cbn [mbind outcome_bind].
      assert (forallb (fun x => 0 <=? x) ks = true) as ->; [|done]. apply forallb_forall. intros k Hk. rewrite Forall_forall in Hp. apply Z.leb_le, Hp. by apply list_elem_of_In.
    - by replace (_ <=? _) with true by lia. }
  destruct cs as [|c cs]; [done|]. replace (zlen (c :: cs) =? 0) with false by (unfold zlen; cbn [length]; lia).
  rewrite (mapM_Ok _ (fun c => mkConstant (ESHash c) 1)) by (by apply Forall_true). cbn [from_go mbind outcome_bind].
  pose proof (EvaluateExt_const1 op (c :: cs) (metadataToESH blake2b) Hs) as E. rewrite <- (list_fmap_compose ESHash) in E. rewrite <- list_fmap_compose.
  change (SConstant ∘ (fun c => mkConstant (ESHash c) 1)) with (const1 ∘ ESHash (F := F)). rewrite E by done. cbn [from_go mbind outcome_bind const1 Value].
  rewrite bool_decide_eq_true_2 by exact Hh. done.
Qed.
End Validation.

(** ** Arithmetic *)

Section Arithmetic.
Context {F : Type} `{ExtLaws F} (blake2b : string -> E4 F) (sort : list CircularInterval -> list CircularInterval).
Context (rho : Metadata -> E4 F) (S : Expression F -> Prop) (HS : no_collision blake2b rho S).
Abbreviation expr := (Expression F).
Local Abbreviation ev := (eval (F := F) id rho).
Add Ring arithmetic_ring : (@f_ring (E4 F) _ _).

(** The arguments convert to the expressions [items], which have few enough terms. *)
Definition operands (op : operator) (inputs : list any) (items : list expr) : Prop :=
  intoExprSlice blake2b inputs = Ok (Some <$> items) /\ Forall S items /\ foldr (fun e acc => item_weight op e + acc) 0 items < 2 ^ 63.

(** The result of a constructor. *)
Definition yields (r : go (option expr)) (v : E4 F) : Prop := exists e, r = Ok (Some e) /\ valid blake2b e /\ ev e = v.

Lemma into_no_nil inputs items : intoExprSlice blake2b inputs = Ok (Some <$> items) -> doesContainNil inputs = false /\ length inputs = length items.
Proof.
  unfold intoExprSlice. revert items. induction inputs as [|x inputs IH]; intros items.
  - destruct items; [done|]. discriminate.
  - cbn [mapM_]. destruct (intoExpr blake2b x) as [e|[]|] eqn:Ex; cbn [mbind outcome_bind]; try discriminate.
    destruct (mapM_ (intoExpr blake2b) inputs) as [es|[]|]; cbn [mbind outcome_bind]; try discriminate. destruct items as [|i items]; [discriminate|].
    intros [= -> ->]. destruct (IH items eq_refl) as [E1 E2]. cbn [doesContainNil existsb length]. split; [|by f_equal]. fold (doesContainNil inputs). rewrite E1. by destruct x.
Qed.

Lemma deref_Some (items : list expr) : deref (Some <$> items) = Ok items.
Proof. unfold deref. induction items as [|i items IH]; [done|]. cbn. cbn in IH. by rewrite IH. Qed.

Lemma ones_items_ok op (items : list expr) :
  Forall S items -> foldr (fun e acc => item_weight op e + acc) 0 items < 2 ^ 63 -> items_ok S op (zip items ((fun _ => 1) <$> items)).
Proof.
  intros Hs Hw. assert (zip items ((fun _ => 1) <$> items) = (fun e => (e, 1)) <$> items) as -> by (clear; induction items as [|i items IH]; cbn; [done|]; by rewrite <- IH).
  assert (items_weight op ((fun e => (e, 1)) <$> items) = foldr (fun e acc => item_weight op e + acc) 0 items) as Ew.
  { clear. induction items as [|i items IH]; [done|]. rewrite fmap_cons, items_weight_cons, IH. cbn [foldr fst snd]. lia. }
  split_and!; [|..|lia]; rewrite <- list_fmap_compose; [by rewrite list_fmap_id|]. apply Forall_fmap, Forall_true. intros e. split; [unfold in_int|]; cbn; lia.
Qed.

Lemma lincomb_ones items : apply_op id rho (OLinComb ((fun _ => 1) <$> items)) (ev <$> items) = foldr f_add f_zero (ev <$> items).
Proof. induction items as [|i items IH]; [done|]. cbn in *. rewrite IH, int64_1. ring. Qed.

Lemma product_ones items : apply_op id rho (OProduct ((fun _ => 1) <$> items)) (ev <$> items) = foldr f_mul f_one (ev <$> items).
Proof. induction items as [|i items IH]; [done|]. cbn in *. rewrite IH, exp_1. done. Qed.

Lemma Add_ok inputs items : operands linCombOp inputs items -> inputs <> [] -> yields (Symbolic.Add blake2b inputs) (foldr f_add f_zero (ev <$> items)).
Proof.
  intros (Hi & Hs & Hw) Hne. destruct (into_no_nil _ _ Hi) as [Hn _]. unfold Symbolic.Add.
  replace (negb (zlen inputs =? 0)) with true by (destruct inputs; [done|]; unfold zlen; cbn [length]; lia). rewrite Hn, Hi. cbn [assert_ mbind outcome_bind]. rewrite deref_Some.
  cbn [mbind outcome_bind]. destruct (NewLinComb_ok blake2b rho S HS items ((fun _ => 1) <$> items)) as (e & -> & Hv & He); [by rewrite length_fmap|by apply ones_items_ok|].
  exists e. split_and!; [done|done|]. by rewrite He, lincomb_ones.
Qed.

Lemma Mul_ok inputs items : operands productOp inputs items -> inputs <> [] -> yields (Symbolic.Mul blake2b inputs) (foldr f_mul f_one (ev <$> items)).
Proof.
  intros (Hi & Hs & Hw) Hne. destruct (into_no_nil _ _ Hi) as [Hn _]. unfold Symbolic.Mul.
  replace (negb (zlen inputs =? 0)) with true by (destruct inputs; [done|]; unfold zlen; cbn [length]; lia). rewrite Hn, Hi. cbn [assert_ mbind outcome_bind]. rewrite deref_Some.
  cbn [mbind outcome_bind]. destruct (NewProduct_ok blake2b rho S HS items ((fun _ => 1) <$> items)) as (e & -> & Hv & He); [by rewrite length_fmap|by apply ones_items_ok|].
  exists e. split_and!; [done|done|]. by rewrite He, product_ones.
Qed.

(** One item with one coefficient. *)
Lemma single_items_ok op (e : expr) k : S e -> coeff_for op k -> Z.abs k * item_weight op e < 2 ^ 63 -> items_ok S op (zip [e] [k]).
Proof. intros He Hk Hw. split_and!; [by constructor..|]. cbn [zip zip_with]. rewrite items_weight_cons. cbn [items_weight foldr fst snd]. lia. Qed.

Lemma expr_Pow_ok (e : expr) n : S e -> 0 <= n -> n < 2 ^ 63 -> n * item_weight productOp e < 2 ^ 63 -> yields (expr_Pow sort (Some e) n) (f_exp (ev e) n).
Proof.
  intros He Hn Hn' Hw. unfold expr_Pow, AssertValid. rewrite (Validate_ok blake2b) by (by apply (nc_valid _ _ _ HS)). cbn [mbind outcome_bind].
  destruct (NewProduct_ok blake2b rho S HS [e] [n]) as (r & -> & Hv & Hr); [done|apply single_items_ok; [done|split; [unfold in_int|]; lia|rewrite Z.abs_eq; lia]|].
  exists r. split_and!; [done|done|]. rewrite Hr. cbn. ring.
Qed.

Lemma sub_items_ok (a : expr) bs :
  Forall S (a :: bs) -> foldr (fun e acc => item_weight linCombOp e + acc) 0 (a :: bs) < 2 ^ 63 -> items_ok S linCombOp (zip (a :: bs) (1 :: ((fun _ => -1) <$> bs))).
Proof.
  intros Hs Hw. assert (zip (a :: bs) (1 :: ((fun _ => -1) <$> bs)) = (a, 1) :: ((fun e => (e, -1)) <$> bs)) as -> by (cbn; f_equal; clear; induction bs as [|i bs IH]; cbn; [done|]; by rewrite <- IH).
  assert (items_weight linCombOp ((fun e => (e, -1)) <$> bs) = foldr (fun e acc => item_weight linCombOp e + acc) 0 bs) as Ew.
  { clear. induction bs as [|i bs IH]; [done|]. rewrite fmap_cons, items_weight_cons, IH. cbn [foldr fst snd]. lia. }
  unfold items_ok. rewrite items_weight_cons, !fmap_cons, <- !list_fmap_compose. cbn [fst snd]. cbn [foldr] in Hw. split_and!; [|constructor|lia].
  - apply Forall_cons in Hs as [? ?]. constructor; [done|]. by rewrite list_fmap_id.
  - split; [unfold in_int|]; cbn; lia.
  - apply Forall_fmap, Forall_true. intros e. split; [unfold in_int; cbn; lia|done].
Qed.

Lemma Sub_ok a bs ia ibs :
  operands linCombOp (a :: bs) (ia :: ibs) -> yields (Symbolic.Sub blake2b a bs) (f_sub (ev ia) (foldr f_add f_zero (ev <$> ibs))).
Proof.
  intros (Hi & Hs & Hw). pose proof (into_no_nil _ _ Hi) as [Hn Hl]. unfold Symbolic.Sub, intoExprSlice in *. cbn [mapM_] in Hi.
  destruct (intoExpr blake2b a) as [ea|[]|] eqn:Ea; cbn [mbind outcome_bind] in Hi; try discriminate.
  destruct (mapM_ (intoExpr blake2b) bs) as [es|[]|] eqn:Eb; cbn [mbind outcome_bind] in Hi; try discriminate.
  replace (match a with ANil => true | _ => false end) with false by (by destruct a). cbn [orb doesContainNil existsb mbind outcome_bind].
  injection Hi as -> ->. pose proof (deref_Some (ia :: ibs)) as Ed. unfold fmap in Ed. cbn [list_fmap] in Ed. rewrite Ed. cbn [mbind outcome_bind].
  assert ((fun _ : any => -1) <$> bs = (fun _ => -1) <$> ibs) as ->. { injection Hl as Hl. rewrite !(const_fmap _ _ (-1)) by done. by rewrite Hl. }
  destruct (NewLinComb_ok blake2b rho S HS (ia :: ibs) (1 :: ((fun _ => -1) <$> ibs))) as (e & -> & Hv & He); [cbn; by rewrite length_fmap|by apply sub_items_ok|].
  exists e. split_and!; [done|done|]. rewrite He. clear -H1. cbn. rewrite int64_1.
  assert (foldr f_add f_zero (zip_with (fun v k => f_mul (f_int64 k) v) (ev <$> ibs) ((fun _ => -1) <$> ibs)) = f_neg (foldr f_add f_zero (ev <$> ibs))) as E.
  { induction ibs as [|i ibs IH]; cbn; [ring|]. cbn in IH. rewrite IH, int64_m1. ring. }
  cbn in E. rewrite E. ring.
Qed.
End Arithmetic.
