(* ===== verification/Board.v ===== *)
(** Boards of symbolic expressions and their compiler: [prover/symbolic], files
    [expression_board.go], [expression.go] ([Board], [anchor],
    [ListBoardVariableMetadata]), [evaluation.go] ([ListVariableMetadata]) and
    [compiler.go] ([Compile]).

    A board holds the nodes of an expression without repetition, each after its children.
    [Compile] turns it into a list of words for a machine with slots; the slot of a node
    is given again when the node is not read any more. *)
From S2P Require Import Prelude SvIntervals SmartVectors SvOps FieldExt Symbolic.

Section Board.
Context {F : Type} `{ExtOps F}.
Abbreviation expr := (Expression F).

Record Node := mkNode { n_ESHash : E4 F; n_Children : list Z; n_Operator : Operator F }.

Record ExpressionBoard := mkBoard {
  Nodes : list Node;
  ESHashesToPos : list (E4 F * Z);
  Bytecode : list Z;
  Constants : list (E4 F);
  NumSlots : Z;
  ResultSlot : Z;
  ProgramNodesCount : Z;
  compiled : Z
}.

Definition emptyBoard : ExpressionBoard := mkBoard [] [] [] [] 0 0 0 0.

(** A new node; its number is a [uint32]. *)
Definition push_node (b : ExpressionBoard) (nd : Node) : Z * ExpressionBoard :=
  let id := u32 (zlen (Nodes b)) in
  (id, mkBoard (Nodes b ++ [nd]) ((n_ESHash nd, id) :: ESHashesToPos b) (Bytecode b) (Constants b) (NumSlots b) (ResultSlot b)
         (ProgramNodesCount b) (compiled b)).

Fixpoint anchor (e : expr) (b : ExpressionBoard) : Z * ExpressionBoard :=
  let 'mkExpression h cs op _ := e in
  match hmap_get (ESHashesToPos b) h with
  | Some id => (id, b)
  | None =>
      let '(childrenIDs, b) :=
        (fix children (l : list expr) (b : ExpressionBoard) : list Z * ExpressionBoard :=
           match l with
           | [] => ([], b)
           | c :: l => let '(id, b) := anchor c b in let '(ids, b) := children l b in (id :: ids, b)
           end) cs b in
      push_node b (mkNode h childrenIDs op)
  end.

Definition Board (e : expr) : ExpressionBoard := (anchor e emptyBoard).2.

Definition variable_of (op : Operator F) : option Metadata := match op with OVariable m => Some m | _ => None end.

Definition ListVariableMetadata (b : ExpressionBoard) : list Metadata := omap (fun nd => variable_of (n_Operator nd)) (Nodes b).

(** The names that were seen are those of the list. *)
Fixpoint collectVars (e : expr) (metadatas : list Metadata) : list Metadata :=
  let 'mkExpression _ cs op _ := e in
  match op with
  | OVariable m => if bool_decide (String m ∈ String <$> metadatas) then metadatas else metadatas ++ [m]
  | _ =>
      (fix all (l : list expr) (ms : list Metadata) : list Metadata :=
         match l with [] => ms | c :: l => all l (collectVars c ms) end) cs metadatas
  end.

Definition ListBoardVariableMetadata (e : expr) : list Metadata := collectVars e [].

(** ** The compiler *)

Definition enumerate {A} (l : list A) : list (Z * A) := imap (fun i x => (Z.of_nat i, x)) l.

Definition note_uses (i : Z) (lastUse : list Z) (children : list Z) : go (list Z) :=
  foldM (fun lastUse childID => u ← index lastUse childID; if u <? i then set_index lastUse childID i else Ok lastUse) lastUse children.

Definition liveness (nodes : list Node) : go (list Z) :=
  lastUse ← set_index (replicate (length nodes) (-1)) (zlen nodes - 1) (zlen nodes);
  foldM (fun lastUse t => note_uses t.1 lastUse (n_Children t.2)) lastUse (enumerate nodes).

Definition opLoadConst : Z := 0.
Definition opLoadInput : Z := 1.
Definition opMul : Z := 2.
Definition opLinComb : Z := 3.
Definition opPolyEval : Z := 4.

(** The local variables of [Compile]; the end of [freeSlots] is first. *)
Record compiler := mkCompiler {
  bytecode : list Z;
  constants : list (E4 F);
  slots : list Z;
  freeSlots : list Z;
  nextSlot : Z;
  inputCursor : Z
}.

(** The slot, [freeSlots] and [nextSlot]. *)
Definition getSlot (st : compiler) : Z * list Z * Z :=
  match freeSlots st with
  | s :: freeSlots => (s, freeSlots, nextSlot st)
  | [] => (nextSlot st, [], nextSlot st + 1)
  end.

(** The words [slots[childID], ks[k]] of the children. *)
Definition operand_words (slots : list Z) (children ks : list Z) : go (list Z) :=
  foldM (fun ws k => childID ← index children k; c ← index ks k; s ← index slots childID; Ok (ws ++ [s; c])) [] (range 0 (zlen children)).

(** The words of a node, and the constants and inputs that are used then. *)
Definition emit (slots : list Z) (constants : list (E4 F)) (inputCursor dstSlot : Z) (node : Node) : go (list Z * list (E4 F) * Z) :=
  match n_Operator node with
  | OConstant val => Ok ([opLoadConst; dstSlot; zlen constants], constants ++ [GetExt val], inputCursor)
  | OVariable _ => Ok ([opLoadInput; dstSlot; inputCursor], constants, inputCursor + 1)
  | OProduct es => ws ← operand_words slots (n_Children node) es; Ok ([opMul; dstSlot; zlen (n_Children node)] ++ ws, constants, inputCursor)
  | OLinComb cs => ws ← operand_words slots (n_Children node) cs; Ok ([opLinComb; dstSlot; zlen (n_Children node)] ++ ws, constants, inputCursor)
  | OPolyEval =>
      ws ← foldM (fun ws childID => s ← index slots childID; Ok (ws ++ [s])) [] (n_Children node);
      Ok ([opPolyEval; dstSlot; zlen (n_Children node)] ++ ws, constants, inputCursor)
  end.

(** The slots of the children that are dead after the node [i], each once. *)
Definition free_children (lastUse slots : list Z) (i : Z) (freeSlots children : list Z) : go (list Z) :=
  r ← foldM (fun '(freeSlots, freed) cid =>
        u ← index lastUse cid;
        if u =? i then
          s ← index slots cid;
          Ok (if bool_decide (s ∈ freed) then (freeSlots, freed) else (s :: freeSlots, s :: freed))
        else Ok (freeSlots, freed)) (freeSlots, @nil Z) children;
  Ok r.1.

Definition compile_node (lastUse : list Z) (st : compiler) (t : Z * Node) : go compiler :=
  let '(i, node) := t in
  let '(dstSlot, free, next) := getSlot st in
  slots ← set_index (slots st) i dstSlot;
  '(ws, constants, cursor) ← emit slots (constants st) (inputCursor st) dstSlot node;
  free ← free_children lastUse slots i free (n_Children node);
  Ok (mkCompiler (bytecode st ++ ws) constants slots free next cursor).

Definition set_compiled (b : ExpressionBoard) : ExpressionBoard :=
  mkBoard (Nodes b) (ESHashesToPos b) (Bytecode b) (Constants b) (NumSlots b) (ResultSlot b) (ProgramNodesCount b) 1.

Definition Compile (b : ExpressionBoard) : go ExpressionBoard :=
  if compiled b =? 1 then Ok b else
  if zlen (Nodes b) =? 0 then Ok (mkBoard (Nodes b) (ESHashesToPos b) [] [] 0 (ResultSlot b) 0 1) else
  if ProgramNodesCount b =? zlen (Nodes b) then Ok (set_compiled b) else
  lastUse ← liveness (Nodes b);
  st ← foldM (compile_node lastUse) (mkCompiler [] [] (replicate (length (Nodes b)) 0) [] 0 0) (enumerate (Nodes b));
  result ← index (slots st) (zlen (Nodes b) - 1);
  Ok (mkBoard (Nodes b) (ESHashesToPos b) (bytecode st) (constants st) (nextSlot st) result (zlen (Nodes b)) 1).

(** ** Statistics *)

Record BytecodeStats := mkStats { s_Const : Z; s_Input : Z; s_Mul : Z; s_LinComb : Z; s_PolyEval : Z }.

(** [fuel] bounds the number of instructions; the loop makes progress of three words at
    least. *)
Fixpoint stats_loop (fuel : nat) (code : list Z) (pc : Z) (s : BytecodeStats) : go BytecodeStats :=
  if negb (pc <? zlen code) then Ok s else
  match fuel with
  | O => Panic
  | S fuel =>
      op ← index code pc;
      let op := u8 op in
      let '(mkStats c i m l p) := s in
      if op =? opLoadConst then stats_loop fuel code (pc + 3) (mkStats (c + 1) i m l p)
      else if op =? opLoadInput then stats_loop fuel code (pc + 3) (mkStats c (i + 1) m l p)
      else if op =? opMul then n ← index code (pc + 2); stats_loop fuel code (pc + 3 + n * 2) (mkStats c i (m + 1) l p)
      else if op =? opLinComb then n ← index code (pc + 2); stats_loop fuel code (pc + 3 + n * 2) (mkStats c i m (l + 1) p)
      else if op =? opPolyEval then n ← index code (pc + 2); stats_loop fuel code (pc + 3 + n) (mkStats c i m l (p + 1))
      else Panic
  end.

Definition BytecodeStats_ (b : ExpressionBoard) : go BytecodeStats :=
  stats_loop (length (Bytecode b)) (Bytecode b) 0 (mkStats 0 0 0 0 0).
End Board.
Arguments Node : clear implicits.
Arguments ExpressionBoard : clear implicits.
Arguments compiler : clear implicits.
