(* ===== verification/BoardTheorems.v ===== *)
(** Boards hold the nodes of their expression, and the compiler gives the slots of the
    nodes that are still to be read to no other node. *)
From S2P Require Import Prelude SvIntervals SmartVectors SvSpec SvOps SvOpsTheorems FieldExt Symbolic SymSpec SymTheorems Board.
From Stdlib Require Import ZifyBool.

(** ** Anchoring *)

Section Anchor.
Context {F : Type} `{ExtOps F}.
Abbreviation expr := (Expression F).
Abbreviation board := (ExpressionBoard F).

Fixpoint size (e : expr) : Z := let 'mkExpression _ cs _ _ := e in 1 + foldr (fun c n => size c + n) 0 cs.

Definition sizes (cs : list expr) : Z := foldr (fun c n => size c + n) 0 cs.

Lemma size_pos e : 0 < size e.
Proof.
  induction e as [h cs op b IH] using Expression_nested_ind. cbn [size]. fold (sizes cs). enough (0 <= sizes cs) by lia.
  induction IH as [|c cs Hc _ IH]; [done|]. cbn [sizes foldr]. fold (sizes cs). lia.
Qed.

(** The expression at a position has the hash of [c]. *)
Definition points (es : list expr) (id : Z) (c : expr) : Prop := 0 <= id /\ exists e, es !! Z.to_nat id = Some e /\ ESHash e = ESHash c.

(** The node number [i] is the one of [e]. *)
Definition node_of (es : list expr) (i : nat) (nd : Node F) (e : expr) : Prop :=
  n_ESHash nd = ESHash e /\ n_Operator nd = Operator_ e /\ Forall2 (fun id c => id < Z.of_nat i /\ points es id c) (n_Children nd) (Children e).

Definition board_of (S : expr -> Prop) (es : list expr) (b : board) : Prop :=
  length es = length (Nodes b) /\ Forall S es /\
  (forall i nd e, Nodes b !! i = Some nd -> es !! i = Some e -> node_of es i nd e) /\
  (forall h id, hmap_get (ESHashesToPos b) h = Some id -> 0 <= id < zlen es /\ exists e, es !! Z.to_nat id = Some e /\ ESHash e = h).

(** The program of a board. *)
Definition program (b : board) := (Bytecode b, Constants b, NumSlots b, ResultSlot b, ProgramNodesCount b, compiled b).

Lemma positions_app es es' id c : points es id c -> points (es ++ es') id c.
Proof. intros (Hp & e & He & Hh). split; [done|]. exists e. split; [|done]. by apply lookup_app_l_Some. Qed.

Lemma node_of_app es es' i nd e : node_of es i nd e -> node_of (es ++ es') i nd e.
Proof. intros (? & ? & Hc). split_and!; [done|done|]. eapply Forall2_impl; [exact Hc|]. intros id c [? ?]. split; [done|by apply positions_app]. Qed.

Definition anchor_children : list expr -> board -> list Z * board :=
  fix children (l : list expr) (b : board) : list Z * board :=
    match l with
    | [] => ([], b)
    | c :: l => let '(id, b) := anchor c b in let '(ids, b) := children l b in (id :: ids, b)
    end.

Lemma anchor_unfold e b :
  anchor e b =
  match hmap_get (ESHashesToPos b) (ESHash e) with
  | Some id => (id, b)
  | None => let '(ids, b) := anchor_children (Children e) b in push_node b (mkNode (ESHash e) ids (Operator_ e))
  end.
Proof. by destruct e. Qed.

(** What anchoring does: new nodes are added, and the result points to the expression. *)
Definition anchored (S : expr -> Prop) (es : list expr) (b : board) (e : expr) : Prop :=
  board_of S es b -> zlen es + size e <= 2 ^ 32 ->
  exists es', board_of S (es ++ es') (anchor e b).2 /\ points (es ++ es') (anchor e b).1 e /\ zlen es' <= size e /\
    program (anchor e b).2 = program b /\
    (hmap_get (ESHashesToPos b) (ESHash e) = None -> exists es0, es' = es0 ++ [e]).

Lemma push_node_ok S es b nd e :
  board_of S es b -> S e -> zlen es < 2 ^ 32 -> node_of es (length es) nd e ->
  (push_node b nd).1 = zlen es /\ board_of S (es ++ [e]) (push_node b nd).2.
Proof.
  intros (Hl & HS & Hn & Hm) He Hb Hnd. assert ((push_node b nd).1 = zlen es) as E.
  { cbn. unfold zlen in *. rewrite <- Hl. apply uwrap_small. unfold is_u. lia. }
  split; [done|]. cbn [push_node fst snd] in *. unfold board_of. cbn [Nodes ESHashesToPos]. rewrite E. split_and!.
  - rewrite !length_app. cbn. lia.
  - apply Forall_app. split; [done|]. by constructor.
  - intros i nd' e' Hi He'. apply node_of_app. apply lookup_app_Some in Hi as [Hi|[Hi1 Hi2]].
    + rewrite lookup_app_l in He' by (apply lookup_lt_Some in Hi; lia). by apply Hn.
    + rewrite lookup_app_r in He' by lia. rewrite Hl in He'. apply list_lookup_singleton_Some in Hi2 as [Hi2 <-].
      rewrite Hi2 in He'. injection He' as <-. by replace i with (length es) by lia.
  - intros h id. cbn [hmap_get]. destruct Hnd as (Hh & _). rewrite Hh. case_bool_decide as Eh.
    + intros [= <-]. unfold zlen. rewrite length_app, Nat2Z.id. cbn. split; [lia|]. exists e. split; [|done]. by rewrite list_lookup_middle.
    + intros (Hb' & e' & He' & Hh')%Hm. unfold zlen in *. rewrite length_app. split; [lia|]. exists e'. split; [|done]. by apply lookup_app_l_Some.
Qed.

(** The children, one after the other. *)
Lemma anchor_children_ok S cs es b :
  Forall (fun c => forall es b, anchored S es b c) cs -> board_of S es b -> zlen es + sizes cs <= 2 ^ 32 ->
  exists es', board_of S (es ++ es') (anchor_children cs b).2 /\ Forall2 (points (es ++ es')) (anchor_children cs b).1 cs /\ zlen es' <= sizes cs /\
    program (anchor_children cs b).2 = program b.
Proof.
  intros Hcs. revert es b. induction Hcs as [|c cs Hc _ IH]; intros es b Hb Hs.
  { exists []. rewrite app_nil_r. split_and!; try done; constructor. }
  cbn [sizes foldr] in Hs. fold (sizes cs) in Hs. cbn [anchor_children].
  assert (0 <= sizes cs) as Hpos by (clear; induction cs as [|c cs IH]; cbn [sizes foldr]; [done|]; fold (sizes cs); pose proof (size_pos c); lia).
  destruct (Hc es b Hb) as (es1 & Hb1 & Hp1 & Hl1 & Hq1 & _); [lia|]. destruct (anchor c b) as [id b1]. cbn [fst snd] in *.
  destruct (IH (es ++ es1) b1 Hb1) as (es2 & Hb2 & Hp2 & Hl2 & Hq2); [unfold zlen in *; rewrite length_app; lia|].
  change ((fix children (l : list expr) (b : board) : list Z * board := _) cs b1) with (anchor_children cs b1).
  destruct (anchor_children cs b1) as [ids b2]. cbn [fst snd] in *. exists (es1 ++ es2). rewrite app_assoc. split_and!; [done| | |by rewrite Hq2].
  - constructor; [|done]. by apply positions_app.
  - unfold zlen in *. rewrite length_app. cbn [sizes foldr]. fold (sizes cs). lia.
Qed.

Lemma anchor_ok S e es b : (forall a, S a -> Forall S (Children a)) -> S e -> anchored S es b e.
Proof.
  intros HS. revert es b. induction e as [h cs op bb IH] using Expression_nested_ind. set (e := mkExpression h cs op bb). intros es b He Hb Hs.
  rewrite anchor_unfold. destruct (hmap_get (ESHashesToPos b) (ESHash e)) as [id|] eqn:Eh.
  - exists []. rewrite app_nil_r. destruct Hb as (Hl & HSs & Hn & Hm). destruct (Hm _ _ Eh) as (Hi & e' & He' & Hh). split_and!; try done.
    + split; [cbn [fst]; lia|]. by exists e'.
    + pose proof (size_pos e). unfold zlen; cbn [length]; lia.
  - assert (Forall (fun c => forall es b, anchored S es b c) cs) as IH'.
    { pose proof (HS e He) as HSc. cbn [Children] in HSc. rewrite Forall_forall in IH, HSc |- *. intros c Hc es0 b0. apply IH; auto. }
    change (size e) with (1 + sizes cs) in *. destruct (anchor_children_ok S cs es b IH' Hb) as (es1 & Hb1 & Hp1 & Hl1 & Hq1); [lia|].
    change (Children e) with cs. destruct (anchor_children cs b) as [ids b1]. cbn [fst snd] in *.
    destruct (push_node_ok S (es ++ es1) b1 (mkNode (ESHash e) ids (Operator_ e)) e Hb1 He) as [E1 Hb2].
    + unfold zlen in *. rewrite length_app. lia.
    + split_and!; [done|done|]. cbn [n_Children]. change (Children e) with cs. eapply Forall2_impl; [exact Hp1|]. intros id c Hp. split; [|done].
      destruct Hp as (Hp & e' & He' & _). apply lookup_lt_Some in He'. lia.
    + destruct (push_node b1 _) as [id b2] eqn:Ep. cbn [fst snd] in *. exists (es1 ++ [e]). rewrite app_assoc. split_and!; [done| | | |].
      * rewrite E1. unfold zlen. split; [lia|]. exists e. split; [|done]. rewrite Nat2Z.id. by rewrite list_lookup_middle.
      * unfold zlen in *. rewrite length_app. cbn. lia.
      * unfold push_node in Ep. injection Ep as _ <-. rewrite <- Hq1. done.
      * intros _. by exists es1.
Qed.

(** The board of an expression. *)
Lemma Board_ok S e :
  (forall a, S a -> Forall S (Children a)) -> S e -> size e <= 2 ^ 32 ->
  exists es, board_of S (es ++ [e]) (Board e) /\ program (Board e) = program emptyBoard.
Proof.
  intros HS He Hs. destruct (anchor_ok S e [] emptyBoard HS He) as (es' & Hb & _ & _ & Hq & Hr).
  - split_and!; done || constructor.
  - unfold zlen. cbn [length]. lia.
  - destruct Hr as (es & ->); [done|]. exists es. done.
Qed.
End Anchor.

(** ** Liveness *)

Lemma set_index_insert {A} (l : list A) i x : 0 <= i < zlen l -> set_index l i x = Ok (<[Z.to_nat i := x]> l).
Proof. intros Hi. unfold set_index. by replace ((0 <=? i) && (i <? zlen l)) with true by lia. Qed.

Lemma index_ok {A} (l : list A) i x : 0 <= i -> l !! Z.to_nat i = Some x -> index l i = Ok x.
Proof. intros Hi Hx. unfold index. replace (0 <=? i) with true by lia. by rewrite Hx. Qed.

Lemma index_Some {A} (l : list A) i : 0 <= i < zlen l -> exists x, l !! Z.to_nat i = Some x.
Proof. intros Hi. apply lookup_lt_is_Some. unfold zlen in Hi. lia. Qed.

(** The second list is above the first. *)
Definition above (l k : list Z) : Prop := length l = length k /\ forall i u, l !! i = Some u -> exists v, k !! i = Some v /\ u <= v.

Lemma above_refl l : above l l.
Proof. split; [done|]. intros i u Hu. exists u. split; [done|lia]. Qed.

Lemma above_trans l k m : above l k -> above k m -> above l m.
Proof.
  intros [E1 H1] [E2 H2]. split; [lia|]. intros i u Hu. destruct (H1 i u Hu) as (v & Hv & ?). destruct (H2 i v Hv) as (w & Hw & ?). exists w. split; [done|lia].
Qed.

Lemma above_insert l i u v : l !! i = Some u -> u <= v -> above l (<[i := v]> l).
Proof.
  intros Hi Hv. split; [by rewrite length_insert|]. intros j w Hw. destruct (decide (i = j)) as [<-|Hne].
  - exists v. rewrite list_lookup_insert_eq by (by apply lookup_lt_Some in Hi). split; [done|]. rewrite Hi in Hw. injection Hw as <-. done.
  - exists w. rewrite list_lookup_insert_ne by done. split; [done|lia].
Qed.

Lemma note_uses_ok i lastUse children :
  Forall (fun c => 0 <= c < zlen lastUse) children ->
  exists lu, note_uses i lastUse children = Ok lu /\ above lastUse lu /\ Forall (fun c => exists u, lu !! Z.to_nat c = Some u /\ i <= u) children.
Proof.
  unfold note_uses. revert lastUse. induction children as [|c cs IH]; intros lastUse Hc; [exists lastUse; split_and!; [done|apply above_refl|constructor]|].
  apply Forall_cons in Hc as [Hc Hcs]. cbn [foldM]. destruct (index_Some lastUse c Hc) as (u & Hu). rewrite (index_ok _ _ u) by (done || lia). cbn [mbind outcome_bind].
  set (lu1 := if u <? i then <[Z.to_nat c := i]> lastUse else lastUse).
  assert (above lastUse lu1 /\ exists u', lu1 !! Z.to_nat c = Some u' /\ i <= u') as [Ha (u1 & Hu1 & Hi1)].
  { unfold lu1. destruct (Z.ltb_spec u i).
    - split; [by apply above_insert with u; [|lia]|]. exists i. split; [|lia]. apply list_lookup_insert_eq. by apply lookup_lt_Some in Hu.
    - split; [apply above_refl|]. by exists u. }
  destruct (IH lu1) as (lu & E & Ha' & Hall); [destruct Ha as [El _]; unfold zlen in *; by rewrite <- El|]. exists lu. split_and!.
  - rewrite <- E. unfold lu1. destruct (u <? i); [by rewrite set_index_insert|done].
  - by eapply above_trans.
  - constructor; [|done]. destruct Ha' as [_ Ha']. destruct (Ha' _ _ Hu1) as (v & ? & ?). exists v. split; [done|lia].
Qed.

Section Alloc.
Context {F : Type} `{ExtOps F} (nodes : list (Node F)).
Local Abbreviation n := (length nodes).

(** The children of a node come before it, and there are as many coefficients. *)
Definition node_ks (op : Operator F) : option (list Z) := match op with OLinComb ks | OProduct ks => Some ks | _ => None end.

Definition node_fine (i : nat) (nd : Node F) : Prop :=
  Forall (fun c => 0 <= c < Z.of_nat i) (n_Children nd) /\
  match node_ks (n_Operator nd) with Some ks => length ks = length (n_Children nd) | None => True end.

Context (Hnodes : forall i nd, nodes !! i = Some nd -> node_fine i nd).

Definition uses_ok (lu : list Z) (i : nat) (nd : Node F) : Prop := Forall (fun c => exists u, lu !! Z.to_nat c = Some u /\ Z.of_nat i <= u) (n_Children nd).

Lemma uses_above lu lu' i nd : above lu lu' -> uses_ok lu i nd -> uses_ok lu' i nd.
Proof.
  intros [_ Ha] Hu. eapply Forall_impl; [exact Hu|]. intros c (u & Hc & Hi). destruct (Ha _ _ Hc) as (v & Hv & ?). exists v. split; [done|lia].
Qed.

Lemma liveness_loop_ok m rest lu :
  drop m nodes = rest -> length lu = n -> exists lu', foldM (fun lu t => note_uses t.1 lu (n_Children t.2)) lu (imap (fun i x => (Z.of_nat (m + i), x)) rest) = Ok lu' /\ above lu lu' /\
    forall i nd, (m <= i)%nat -> nodes !! i = Some nd -> uses_ok lu' i nd.
Proof.
  revert m lu. induction rest as [|nd rest IH]; intros m lu Hd Hl.
  { exists lu. split_and!; [done|apply above_refl|]. intros i nd Hi Hnd. apply lookup_lt_Some in Hnd. assert (length (drop m nodes) = 0%nat) as E by (by rewrite Hd). rewrite length_drop in E. lia. }
  assert (nodes !! m = Some nd) as Hm. { rewrite <- (Nat.add_0_r m), <- lookup_drop, Hd. done. }
  cbn [imap foldM fst snd]. rewrite Nat.add_0_r. destruct (note_uses_ok (Z.of_nat m) lu (n_Children nd)) as (lu1 & -> & Ha1 & Hu1).
  { destruct (Hnodes m nd Hm) as [Hc _]. eapply Forall_impl; [exact Hc|]. intros c Hc'. apply lookup_lt_Some in Hm. unfold zlen. cbn in Hc'. lia. }
  cbn [mbind outcome_bind]. destruct (IH (S m) lu1) as (lu2 & E & Ha2 & Hu2).
  { replace (S m) with (m + 1)%nat by lia. by rewrite <- drop_drop, Hd. }
  { destruct Ha1 as [? _]. lia. }
  exists lu2. split_and!; [|by eapply above_trans|].
  - rewrite <- E. f_equal. apply imap_ext. intros i x _. cbn. do 2 f_equal. lia.
  - intros i nd' Hi Hnd'. destruct (decide (i = m)) as [->|Hne]; [|apply Hu2; [lia|done]]. rewrite Hm in Hnd'. injection Hnd' as <-. by eapply uses_above.
Qed.

Lemma liveness_ok : nodes <> [] ->
  exists lu, liveness nodes = Ok lu /\ length lu = n /\ (forall i nd, nodes !! i = Some nd -> uses_ok lu i nd) /\
    exists u, lu !! (n - 1)%nat = Some u /\ Z.of_nat n <= u.
Proof.
  intros Hne. assert (0 < n)%nat as Hn by (destruct nodes; [done|]; cbn; lia). unfold liveness.
  rewrite set_index_insert by (unfold zlen; rewrite length_replicate; lia). cbn [mbind outcome_bind]. set (lu0 := <[_ := _]> _).
  assert (length lu0 = n) as Hl0 by (unfold lu0; by rewrite length_insert, length_replicate).
  destruct (liveness_loop_ok 0 nodes lu0) as (lu & E & Ha & Hu); [apply drop_0|done|]. exists lu. unfold enumerate. split_and!; [exact E| |intros; apply Hu; [lia|done]|].
  - destruct Ha as [? _]. lia.
  - destruct Ha as [_ Ha]. destruct (Ha (n - 1)%nat (zlen nodes)) as (v & Hv & ?).
    + unfold lu0. replace (Z.to_nat (zlen nodes - 1)) with (n - 1)%nat by (unfold zlen; lia). apply list_lookup_insert_eq. rewrite length_replicate. lia.
    + exists v. unfold zlen in *. split; [done|lia].
Qed.
End Alloc.

(** ** Slots *)

(** The words of a node with its slot, the slots of its children and its number among
    the constants or the inputs. *)
Definition node_words {F : Type} (op : Operator F) (dst : Z) (srcs : list Z) (idx : Z) : list Z :=
  match op with
  | OConstant _ => [opLoadConst; dst; idx]
  | OVariable _ => [opLoadInput; dst; idx]
  | OProduct ks => [opMul; dst; zlen srcs] ++ mjoin (zip_with (fun s k => [s; k]) srcs ks)
  | OLinComb ks => [opLinComb; dst; zlen srcs] ++ mjoin (zip_with (fun s k => [s; k]) srcs ks)
  | OPolyEval => [opPolyEval; dst; zlen srcs] ++ srcs
  end.

Section Slots.
Context {F : Type} `{ExtOps F} (n : nat) (lu : list Z) (Hlu : length lu = n).

(** The nodes that are done and still to be read. *)
Definition live (i j : nat) : Prop := (j < i)%nat /\ exists u, lu !! j = Some u /\ Z.of_nat i <= u.

Lemma live_succ i j : live (S i) j -> live i j \/ j = i.
Proof. intros (Hj & u & Hu & Hi). destruct (decide (j = i)); [by right|]. left. split; [lia|]. exists u. split; [done|lia]. Qed.

Definition alloc_ok (i : nat) (slots freeSlots : list Z) (nextSlot : Z) : Prop :=
  length slots = n /\ 0 <= nextSlot /\ NoDup freeSlots /\ Forall (fun s => 0 <= s < nextSlot) freeSlots /\
  (forall j s, live i j -> slots !! j = Some s -> 0 <= s < nextSlot /\ s ∉ freeSlots) /\
  (forall j k s, live i j -> live i k -> slots !! j = Some s -> slots !! k = Some s -> j = k).

Lemma getSlot_ok i (st : compiler F) :
  alloc_ok i (slots st) (freeSlots st) (nextSlot st) ->
  let '(dst, free, next) := getSlot st in
  0 <= dst < next /\ nextSlot st <= next /\ dst ∉ free /\ alloc_ok i (slots st) free next /\ (forall j s, live i j -> slots st !! j = Some s -> s <> dst).
Proof.
  intros (Hl & Hn & Hnd & Hf & Hlive & Hinj). unfold getSlot. destruct (freeSlots st) as [|s free].
  - split_and!; try lia; [apply not_elem_of_nil| |].
    + split_and!; [done|lia|constructor|constructor| |done]. intros j s Hj Hs. destruct (Hlive j s Hj Hs). split; [lia|done].
    + intros j s Hj Hs. destruct (Hlive j s Hj Hs). lia.
  - apply NoDup_cons in Hnd as [Hs Hnd]. apply Forall_cons in Hf as [Hs' Hf]. split_and!; try lia; [done| |].
    + split_and!; try done. intros j s' Hj Hs0. destruct (Hlive j s' Hj Hs0) as [? Hnot]. split; [done|]. intros ?. apply Hnot. by right.
    + intros j s' Hj Hs0 ->. destruct (Hlive j s Hj Hs0) as [_ Hnot]. apply Hnot. by left.
Qed.

(** Freeing the dead children: the free slots stay different from each other, from the
    slots of the live nodes and from the new slot. *)
Lemma free_loop_ok (slots : list Z) i next dst children free freed :
  length slots = n -> (i < n)%nat ->
  (forall j s, live i j -> slots !! j = Some s -> 0 <= s < next /\ s <> dst) ->
  (forall j k s, live i j -> live i k -> slots !! j = Some s -> slots !! k = Some s -> j = k) ->
  Forall (fun c => 0 <= c < Z.of_nat i /\ exists u, lu !! Z.to_nat c = Some u /\ Z.of_nat i <= u) children ->
  NoDup free -> Forall (fun s => 0 <= s < next) free -> dst ∉ free ->
  (forall s, s ∈ freed -> exists j, live i j /\ slots !! j = Some s /\ lu !! j = Some (Z.of_nat i)) ->
  (forall j s, live i j -> slots !! j = Some s -> s ∈ free -> s ∈ freed) ->
  exists free', foldM (fun '(freeSlots, freed) cid =>
        u ← index lu cid;
        if u =? Z.of_nat i then s ← index slots cid; Ok (if bool_decide (s ∈ freed) then (freeSlots, freed) else (s :: freeSlots, s :: freed))
        else Ok (freeSlots, freed)) (free, freed) children = Ok free' /\
    NoDup free'.1 /\ Forall (fun s => 0 <= s < next) free'.1 /\ dst ∉ free'.1 /\
    (forall j s, live (S i) j -> j <> i -> slots !! j = Some s -> s ∉ free'.1).
Proof.
  intros Hl Hi Hlive Hinj Hc. revert free freed. induction Hc as [|c cs [Hc (u & Hu & Hui)] _ IH]; intros free freed Hnd Hf Hd Hfreed Hsub.
  - exists (free, freed). split_and!; try done. cbn [fst]. intros j s Hj Hne Hs Hin. destruct (live_succ i j Hj) as [Hj'| ->]; [|done].
    destruct (Hfreed s) as (j' & Hj1 & Hj2 & Hj3); [by eapply Hsub|]. assert (j = j') as -> by (by eapply Hinj). destruct Hj as (_ & v & Hv & ?). rewrite Hj3 in Hv. injection Hv as <-. lia.
  - cbn [foldM]. rewrite (index_ok lu c u) by (done || lia). cbn [mbind outcome_bind]. destruct (Z.eqb_spec u (Z.of_nat i)) as [->|Hne]; [|by apply IH].
    destruct (index_Some slots c) as (s & Hs); [unfold zlen; lia|]. rewrite (index_ok slots c s) by (done || lia). cbn [mbind outcome_bind].
    assert (live i (Z.to_nat c)) as Hlc by (split; [lia|]; by eexists). case_bool_decide as Hin; [by apply IH|].
    destruct (Hlive _ _ Hlc Hs) as [Hb Hnd']. apply IH.
    + constructor; [|done]. intros Hin'. apply Hin. by eapply Hsub.
    + by constructor.
    + apply not_elem_of_cons. split; [|done]. by intros <-.
    + intros s' [->|Hs']%elem_of_cons; [by eexists|by apply Hfreed].
    + intros j s' Hj Hs0 [->|Hin']%elem_of_cons; [by left|]. right. by eapply Hsub.
Qed.

Lemma operand_words_ok (slots children ks ss : list Z) :
  Forall2 (fun c s => 0 <= c /\ slots !! Z.to_nat c = Some s) children ss -> length ks = length children ->
  operand_words slots children ks = Ok (mjoin (zip_with (fun s k => [s; k]) ss ks)).
Proof.
  intros Hss Hk. unfold operand_words. rewrite (foldM_index2 (fun ws childID c => s ← index slots childID; Ok (ws ++ [s; c]))) by done.
  cut (forall acc, foldM (fun ws t => s ← index slots t.1; Ok (ws ++ [s; t.2])) acc (zip children ks) = Ok (E := Empty_set) (acc ++ mjoin (zip_with (fun s k => [s; k]) ss ks)));
    [intros Hc; exact (Hc [])|].
  revert ks Hk. induction Hss as [|c s cs ss [Hc Hs] _ IH]; intros ks Hk acc; destruct ks as [|k ks]; try done; [cbn; by rewrite app_nil_r|].
  cbn [zip zip_with foldM fst snd]. rewrite (index_ok slots c s) by done. cbn [mbind outcome_bind]. rewrite IH by (by injection Hk). by rewrite <- app_assoc.
Qed.

Lemma slot_words_ok (slots children ss : list Z) :
  Forall2 (fun c s => 0 <= c /\ slots !! Z.to_nat c = Some s) children ss ->
  foldM (fun ws childID => s ← index slots childID; Ok (ws ++ [s])) [] children = Ok (E := Empty_set) ss.
Proof.
  intros Hss. cut (forall acc, foldM (fun ws childID => s ← index slots childID; Ok (ws ++ [s])) acc children = Ok (E := Empty_set) (acc ++ ss)); [intros Hc; exact (Hc [])|].
  induction Hss as [|c s cs ss [Hc Hs] _ IH]; intros acc; [cbn; by rewrite app_nil_r|].
  cbn [foldM]. rewrite (index_ok slots c s) by done. cbn [mbind outcome_bind]. rewrite IH. by rewrite <- app_assoc.
Qed.

(** What the compiler does with a node. *)
Record node_step (i : nat) (nd : Node F) (st st' : compiler F) (dst : Z) (srcs : list Z) (idx : Z) : Prop := {
  ns_code : bytecode st' = bytecode st ++ node_words (n_Operator nd) dst srcs idx;
  ns_srcs : Forall2 (fun c s => 0 <= c /\ slots st !! Z.to_nat c = Some s) (n_Children nd) srcs;
  ns_slots : slots st' = <[i := dst]> (slots st);
  ns_fresh j s : live i j -> slots st !! j = Some s -> s <> dst;
  ns_dst : 0 <= dst < nextSlot st';
  ns_next : nextSlot st <= nextSlot st';
  ns_const : constants st' = constants st ++ match n_Operator nd with OConstant v => [GetExt v] | _ => [] end;
  ns_idx : match n_Operator nd with OConstant _ => idx = zlen (constants st) | OVariable _ => idx = inputCursor st | _ => True end;
  ns_cursor : inputCursor st' = inputCursor st + match n_Operator nd with OVariable _ => 1 | _ => 0 end;
  ns_alloc : alloc_ok (S i) (slots st') (freeSlots st') (nextSlot st')
}.

Definition state_alloc (i : nat) (st : compiler F) : Prop := alloc_ok i (slots st) (freeSlots st) (nextSlot st).

Lemma child_slots (i : nat) (children sl : list Z) :
  Forall (fun c => 0 <= c < Z.of_nat i) children -> (i <= length sl)%nat ->
  exists srcs, Forall2 (fun c s => 0 <= c /\ sl !! Z.to_nat c = Some s) children srcs.
Proof.
  intros Hc Hi. induction Hc as [|c cs Hc _ (srcs & IH)]; [exists []; constructor|].
  destruct (index_Some sl c) as (s & Hs); [unfold zlen; lia|]. exists (s :: srcs). constructor; [|done]. split; [lia|done].
Qed.

Lemma emit_ok (sl : list Z) (consts : list (E4 F)) cursor dst nd srcs :
  Forall2 (fun c s => 0 <= c /\ sl !! Z.to_nat c = Some s) (n_Children nd) srcs ->
  match node_ks (n_Operator nd) with Some ks => length ks = length (n_Children nd) | None => True end ->
  emit sl consts cursor dst nd =
  Ok (node_words (n_Operator nd) dst srcs (match n_Operator nd with OConstant _ => zlen consts | _ => cursor end),
      consts ++ match n_Operator nd with OConstant v => [GetExt v] | _ => [] end,
      cursor + match n_Operator nd with OVariable _ => 1 | _ => 0 end).
Proof.
  intros Hss Hk. assert (zlen srcs = zlen (n_Children nd)) as El by (unfold zlen; by rewrite (Forall2_length _ _ _ Hss)).
  unfold emit, node_words. destruct (n_Operator nd) as [g|m|ks|ks|]; cbn [node_ks] in Hk; rewrite ?app_nil_r, ?Z.add_0_r, ?El; try done.
  - by rewrite (operand_words_ok _ _ _ srcs).
  - by rewrite (operand_words_ok _ _ _ srcs).
  - by rewrite (slot_words_ok _ _ srcs).
Qed.

Lemma compile_node_ok i nd st :
  state_alloc i st -> (i < n)%nat -> node_fine i nd -> uses_ok lu i nd ->
  exists st' dst srcs idx, compile_node lu st (Z.of_nat i, nd) = Ok st' /\ node_step i nd st st' dst srcs idx.
Proof.
  intros Hst Hi [Hc Hk] Hu. pose proof (getSlot_ok i st Hst) as Hg. unfold compile_node. destruct (getSlot st) as [[dst free] next].
  destruct Hg as (Hd & Hn & Hdf & Hal & Hfresh). pose proof Hal as (Hl & Hn0 & Hnd & Hf & Hlive & Hinj).
  rewrite set_index_insert by (unfold zlen; lia). rewrite Nat2Z.id. cbn [mbind outcome_bind]. set (sl := <[i := dst]> (slots st)).
  assert (forall j, j <> i -> sl !! j = slots st !! j) as Hsl by (intros j Hj; unfold sl; by rewrite list_lookup_insert_ne).
  destruct (child_slots i (n_Children nd) (slots st) Hc) as (srcs & Hsrcs); [lia|].
  assert (Forall2 (fun c s => 0 <= c /\ sl !! Z.to_nat c = Some s) (n_Children nd) srcs) as Hsrcs'.
  { apply Forall2_same_length_lookup. pose proof Hsrcs as [El Hs]%Forall2_same_length_lookup. split; [done|]. intros k c s Hkc Hks. destruct (Hs k c s Hkc Hks) as [Hc0 Hs0]. split; [done|].
    rewrite Forall_lookup in Hc. specialize (Hc k c Hkc). rewrite Hsl by lia. done. }
  rewrite (emit_ok sl _ _ dst nd srcs) by done. cbn [mbind outcome_bind]. unfold free_children.
  destruct (free_loop_ok sl i next dst (n_Children nd) free []) as (free' & E & Hnd' & Hf' & Hd' & Hl').
  - unfold sl. by rewrite length_insert.
  - done.
  - intros j s Hj Hs. rewrite Hsl in Hs by (destruct Hj; lia). split; [by apply (Hlive j)|by eapply Hfresh].
  - intros j k s Hj Hk' Hs Hs'. rewrite Hsl in Hs by (destruct Hj; lia). rewrite Hsl in Hs' by (destruct Hk'; lia). by eapply Hinj.
  - unfold uses_ok in Hu. rewrite Forall_forall in Hc, Hu |- *. intros c Hc'. split; [by apply Hc|by apply Hu].
  - done.
  - done.
  - done.
  - by intros s ?%elem_of_nil.
  - intros j s Hj Hs Hin. rewrite Hsl in Hs by (destruct Hj; lia). by destruct (Hlive j s Hj Hs).
  - rewrite E. cbn [mbind outcome_bind]. eexists _, dst, srcs, _. split; [reflexivity|]. split; cbn [bytecode slots freeSlots nextSlot constants inputCursor]; try done.
    + by destruct (n_Operator nd).
    + split_and!; try done; [unfold sl; by rewrite length_insert| |].
      * intros j s Hj Hs. destruct (live_succ i j Hj) as [Hj'| ->].
        -- split; [|apply (Hl' j s Hj); [destruct Hj'; lia|done]]. rewrite Hsl in Hs by (destruct Hj'; lia). by apply (Hlive j).
        -- unfold sl in Hs. rewrite list_lookup_insert_eq in Hs by lia. by injection Hs as <-.
      * intros j k s Hj Hk' Hs Hs'. destruct (live_succ i j Hj) as [Hj'| ->], (live_succ i k Hk') as [Hk''| ->]; [| | |done].
        -- rewrite Hsl in Hs by (destruct Hj'; lia). rewrite Hsl in Hs' by (destruct Hk''; lia). by eapply Hinj.
        -- exfalso. rewrite Hsl in Hs by (destruct Hj'; lia). unfold sl in Hs'. rewrite list_lookup_insert_eq in Hs' by lia. injection Hs' as <-. by apply (Hfresh j dst).
        -- exfalso. rewrite Hsl in Hs' by (destruct Hk''; lia). unfold sl in Hs. rewrite list_lookup_insert_eq in Hs by lia. injection Hs as <-. by apply (Hfresh k dst).
Qed.

Lemma initial_alloc : state_alloc 0 (mkCompiler [] [] (replicate n 0) [] 0 0).
Proof.
  unfold state_alloc, alloc_ok. cbn [slots freeSlots nextSlot]. split_and!; [apply length_replicate|done|apply NoDup_nil_2|apply Forall_nil_2|intros j s [Hj _]; lia|intros j k s [Hj _]; lia].
Qed.
End Slots.

(** ** Variables *)

Section Variables.
Context {F : Type} `{ExtOps F} (blake2b : string -> E4 F).
Abbreviation expr := (Expression F).

(** Every node is in the map, and every variable has one node. *)
Definition vars_ok (b : ExpressionBoard F) : Prop :=
  (forall nd, nd ∈ Nodes b -> is_Some (hmap_get (ESHashesToPos b) (n_ESHash nd))) /\
  (forall nd m, nd ∈ Nodes b -> n_Operator nd = OVariable m -> n_ESHash nd = metadataToESH blake2b m) /\
  NoDup (ListVariableMetadata b).

Lemma push_node_vars b nd :
  vars_ok b -> (forall m, n_Operator nd = OVariable m -> n_ESHash nd = metadataToESH blake2b m /\ hmap_get (ESHashesToPos b) (n_ESHash nd) = None) ->
  vars_ok (push_node b nd).2.
Proof.
  intros (Hmap & Hvar & Hnd) Hn. unfold push_node, vars_ok, ListVariableMetadata in *. cbn [snd Nodes ESHashesToPos]. split_and!.
  - intros nd' Hin. cbn [hmap_get]. case_bool_decide as E; [done|]. apply elem_of_app in Hin as [Hin|Hin]; [by apply Hmap|]. apply list_elem_of_singleton in Hin as ->. done.
  - intros nd' m Hin Ho. apply elem_of_app in Hin as [Hin|Hin]; [by apply Hvar|]. apply list_elem_of_singleton in Hin as ->. by apply Hn.
  - rewrite omap_app. cbn [omap list_omap]. destruct (n_Operator nd) as [g|m|ks|ks|] eqn:Eo; cbn [variable_of]; try (by rewrite app_nil_r).
    destruct (Hn m eq_refl) as [Hh Hnone]. apply NoDup_app. split; [done|]. split; [|apply NoDup_singleton]. intros m' Hin ->%list_elem_of_singleton.
    apply list_elem_of_omap in Hin as (nd' & Hin & Hm'). destruct (n_Operator nd') as [|m''| | |] eqn:Eo'; cbn in Hm'; try done. injection Hm' as ->.
    destruct (Hmap nd' Hin) as (x & Hx). rewrite (Hvar nd' m Hin Eo'), <- Hh, Hnone in Hx. done.
Qed.

Lemma anchor_vars e b : valid blake2b e -> vars_ok b -> vars_ok (anchor e b).2.
Proof.
  revert b. induction e as [h cs op bb IH] using Expression_nested_ind. set (e := mkExpression h cs op bb). intros b Hv Hb.
  rewrite anchor_unfold. destruct (hmap_get (ESHashesToPos b) (ESHash e)) as [id|] eqn:Eh; [done|]. pose proof (valid_children _ _ Hv) as Hvc. change (Children e) with cs in *.
  assert (vars_ok (anchor_children cs b).2) as Hc.
  { clear -IH Hvc Hb. revert b Hb. induction IH as [|c cs Hc _ IH]; intros b Hb; [done|]. apply Forall_cons in Hvc as [Hv1 Hv2]. cbn [anchor_children]. specialize (Hc b Hv1 Hb). destruct (anchor c b) as [id b1].
    specialize (IH Hv2 b1 Hc). change ((fix children (l : list expr) (b : ExpressionBoard F) : list Z * ExpressionBoard F := _) cs b1) with (anchor_children cs b1). by destruct (anchor_children cs b1). }
  destruct (anchor_children cs b) as [ids b1] eqn:Ec. apply push_node_vars; [done|]. cbn [n_Operator n_ESHash]. intros m Eo. pose proof (valid_node _ _ Hv) as [Hs Hh]. rewrite Eo in Hs, Hh. cbn [shape_ok] in Hs.
  change (Children e) with cs in Hs. rewrite Hs in Ec. injection Ec as _ <-. split; [|done]. rewrite Hh. done.
Qed.

Lemma Board_vars e : valid blake2b e -> NoDup (ListVariableMetadata (Board e)).
Proof.
  intros Hv. apply (anchor_vars e emptyBoard Hv). split_and!; [by intros nd ?%elem_of_nil|by intros nd m ?%elem_of_nil|]. apply NoDup_nil_2.
Qed.
End Variables.
