(* ===== verification/BoardRun.v ===== *)
(** Running a compiled board on any machine that carries out the instructions: the slot of
    the result holds the value of the last node. *)
From S2P Require Import Prelude SvIntervals SmartVectors SvSpec SvOps SvOpsTheorems FieldExt Symbolic SymSpec SymTheorems Board BoardTheorems.
From Stdlib Require Import ZifyBool.

(** ** Words at a position *)

Definition code_at (code : list Z) (pc : Z) (ws : list Z) : Prop := 0 <= pc /\ exists post, drop (Z.to_nat pc) code = ws ++ post.

Lemma code_at_index code pc ws k w : code_at code pc ws -> ws !! k = Some w -> index code (pc + Z.of_nat k) = Ok w.
Proof.
  intros (Hp & post & Hd) Hk. apply index_ok; [lia|]. replace (Z.to_nat (pc + Z.of_nat k)) with (Z.to_nat pc + k)%nat by lia.
  rewrite <- lookup_drop, Hd. by apply lookup_app_l_Some.
Qed.

Lemma code_at_app code pc ws1 ws2 : code_at code pc (ws1 ++ ws2) -> code_at code (pc + zlen ws1) ws2.
Proof.
  intros (Hp & post & Hd). split; [unfold zlen; lia|]. exists post. unfold zlen. rewrite Z2Nat.inj_add, Nat2Z.id by lia. rewrite <- drop_drop, Hd, <- app_assoc. by rewrite drop_app_length.
Qed.

Lemma code_at_cons code pc w ws : code_at code pc (w :: ws) -> index code pc = Ok w /\ code_at code (pc + 1) ws.
Proof.
  intros Hc. split; [|apply (code_at_app code pc [w] ws Hc)]. rewrite <- (Z.add_0_r pc). by apply (code_at_index _ _ (w :: ws) 0).
Qed.

Lemma code_at_take code pc ws1 ws2 : code_at code pc (ws1 ++ ws2) -> code_at code pc ws1.
Proof. intros (Hp & post & Hd). split; [done|]. exists (ws2 ++ post). by rewrite Hd, <- app_assoc. Qed.

Lemma code_at_prefix pre ws post : code_at (pre ++ ws ++ post) (zlen pre) ws.
Proof. unfold zlen. split; [lia|]. exists post. by rewrite Nat2Z.id, drop_app_length. Qed.

(** ** Machines *)

Section Loop.
Context {M : Type} (code : list Z) (step : Z -> Z -> Z -> M -> go (M * Z)).

(** The loop of both machines. *)
Fixpoint vm_loop (fuel : nat) (pc : Z) (st : M) : go M :=
  if negb (pc <? zlen code) then Ok st else
  match fuel with
  | O => Panic
  | S fuel =>
      op ← index code pc;
      dst ← index code (pc + 1);
      '(st, pc) ← step (u8 op) (pc + 2) dst st;
      vm_loop fuel pc st
  end.
End Loop.

(** A machine: what a slot holds, and what an operator computes from the values of its
    children. *)
Class Machine (F M V : Type) := {
  m_step : Z -> Z -> Z -> M -> go (M * Z);
  m_ok : M -> Prop;
  m_holds : M -> Z -> V -> Prop;
  m_sem : Operator F -> list V -> V -> Prop
}.

Definition opcode {F} (op : Operator F) : Z :=
  match op with OConstant _ => opLoadConst | OVariable _ => opLoadInput | OProduct _ => opMul | OLinComb _ => opLinComb | OPolyEval => opPolyEval end.

(** The number of a node among the constants or the inputs. *)
Definition idx_ok {F} `{ExtOps F} (consts : list (E4 F)) (metas : list Metadata) (op : Operator F) (idx : Z) : Prop :=
  match op with
  | OConstant g => index consts idx = Ok (GetExt g)
  | OVariable m => index metas idx = Ok m
  | _ => True
  end.

(** What the machine promises to the compiler: an instruction puts the value of the node
    into its slot and leaves the other slots as they are. *)
Class MachineLaws (F M V : Type) `{ExtOps F} `{!Machine F M V} (code : list Z) (consts : list (E4 F)) (metas : list Metadata) (numSlots : Z) := {
  m_law op dst srcs idx pc (st : M) (cvs : list V) (v : V) :
    m_ok st -> code_at code pc (node_words op dst srcs idx) -> 0 <= dst < numSlots -> Forall (fun s => 0 <= s < numSlots /\ s <> dst) srcs ->
    Forall2 (m_holds st) srcs cvs -> m_sem op cvs v -> idx_ok consts metas op idx ->
    exists st', m_step (opcode op) (pc + 2) dst st = Ok (st', pc + zlen (node_words op dst srcs idx)) /\ m_ok st' /\ m_holds st' dst v /\
      forall s w, 0 <= s < numSlots -> s <> dst -> m_holds st s w -> m_holds st' s w
}.

Lemma node_words_shape {F} (op : Operator F) dst srcs idx : exists rest, node_words op dst srcs idx = opcode op :: dst :: rest /\ (1 <= length rest)%nat.
Proof. destruct op; cbn; eexists; (split; [reflexivity|cbn; lia]). Qed.

Lemma opcode_u8 {F} (op : Operator F) : u8 (opcode op) = opcode op.
Proof. by destruct op. Qed.

(** ** The program of a board *)

Section Run.
Context {F : Type} `{ExtOps F} (nodes : list (Node F)) (lu : list Z).
Local Abbreviation n := (length nodes).
Context (Hlu : length lu = n) (Hnodes : forall i nd, nodes !! i = Some nd -> node_fine i nd).
Context (Huses : forall i nd, nodes !! i = Some nd -> uses_ok lu i nd).

Definition numbered (m : nat) (l : list (Node F)) : list (Z * Node F) := imap (fun i x => (Z.of_nat (m + i), x)) l.

Lemma numbered_cons m nd l : numbered m (nd :: l) = (Z.of_nat m, nd) :: numbered (S m) l.
Proof. unfold numbered. cbn [imap]. rewrite Nat.add_0_r. f_equal. apply imap_ext. intros i x _. cbn. do 2 f_equal. lia. Qed.

Lemma suffix_head m nd l : drop m nodes = nd :: l -> nodes !! m = Some nd /\ drop (S m) nodes = l /\ (m < n)%nat.
Proof.
  intros Hd. assert (nodes !! m = Some nd) as Hm by (rewrite <- (Nat.add_0_r m), <- lookup_drop, Hd; done). split_and!; [done| |by apply lookup_lt_Some in Hm].
  replace (S m) with (m + 1)%nat by lia. by rewrite <- drop_drop, Hd.
Qed.

Definition variables (l : list (Node F)) : list Metadata := omap (fun nd => variable_of (n_Operator nd)) l.

(** Compilation succeeds and only adds to the program. *)
Lemma compile_suffix suffix m st :
  drop m nodes = suffix -> (m <= n)%nat -> state_alloc n lu m st ->
  exists stn bc cs, foldM (compile_node lu) st (numbered m suffix) = Ok stn /\ state_alloc n lu n stn /\
    bytecode stn = bytecode st ++ bc /\ constants stn = constants st ++ cs /\ nextSlot st <= nextSlot stn /\ (length suffix <= length bc)%nat.
Proof.
  revert m st. induction suffix as [|nd suffix IH]; intros m st Hd Hm Hst.
  { exists st, [], []. rewrite !app_nil_r. assert (m = n) as -> by (assert (length (drop m nodes) = 0%nat) as E by (by rewrite Hd); rewrite length_drop in E; lia). split_and!; try done; lia. }
  destruct (suffix_head m nd suffix Hd) as (Hnd & Hd' & Hlt). rewrite numbered_cons. cbn [foldM].
  destruct (compile_node_ok n lu Hlu m nd st Hst Hlt (Hnodes _ _ Hnd) (Huses _ _ Hnd)) as (st1 & dst & srcs & idx & -> & Hs). cbn [mbind outcome_bind].
  destruct (IH (S m) st1 Hd') as (stn & bc & cs & -> & Han & Hb & Hc & Hnx & Hlen); [lia|apply Hs|].
  exists stn, (node_words (n_Operator nd) dst srcs idx ++ bc), (match n_Operator nd with OConstant v => [GetExt v] | _ => [] end ++ cs). split_and!; [done|done| | | |].
  - by rewrite Hb, (ns_code _ _ _ _ _ _ _ _ _ Hs), <- app_assoc.
  - by rewrite Hc, (ns_const _ _ _ _ _ _ _ _ _ Hs), <- app_assoc.
  - pose proof (ns_next _ _ _ _ _ _ _ _ _ Hs). lia.
  - rewrite length_app. destruct (node_words_shape (n_Operator nd) dst srcs idx) as (r & -> & ?). cbn [length]. lia.
Qed.

Context {M V : Type} `{!Machine F M V} (code : list Z) (consts : list (E4 F)) (metas : list Metadata) (numSlots : Z).
Context `{!MachineLaws F M V code consts metas numSlots} (vals : list V).

(** The value of a node is the operator applied to the values of its children. *)
Definition value_ok (i : nat) (nd : Node F) : Prop :=
  exists cvs v, vals !! i = Some v /\ Forall2 (fun c w => vals !! Z.to_nat c = Some w) (n_Children nd) cvs /\ m_sem (n_Operator nd) cvs v.

Context (Hvals : forall i nd, nodes !! i = Some nd -> value_ok i nd).

(** The live nodes are in their slots. *)
Definition loaded (i : nat) (sl : list Z) (vm : M) : Prop :=
  forall j s v, live lu i j -> sl !! j = Some s -> vals !! j = Some v -> m_holds vm s v.

(** One node: compilation and execution. *)
Lemma run_node m nd st st' dst srcs idx vm :
  nodes !! m = Some nd -> (m < n)%nat -> state_alloc n lu m st -> node_step n lu m nd st st' dst srcs idx -> nextSlot st' <= numSlots ->
  code_at code (zlen (bytecode st)) (node_words (n_Operator nd) dst srcs idx) -> idx_ok consts metas (n_Operator nd) idx -> m_ok vm -> loaded m (slots st) vm ->
  exists vm', m_step (opcode (n_Operator nd)) (zlen (bytecode st) + 2) dst vm = Ok (vm', zlen (bytecode st')) /\ m_ok vm' /\ loaded (S m) (slots st') vm'.
Proof.
  intros Hnd Hlt (Hl & _ & _ & _ & Hlive & _) Hs Hnx Hcode Hidx Hok Hld. destruct (Hvals m nd Hnd) as (cvs & v & Hv & Hcv & Hsem).
  destruct (Hnodes m nd Hnd) as [Hch _]. pose proof (Huses m nd Hnd) as Hu. pose proof (ns_srcs _ _ _ _ _ _ _ _ _ Hs) as Hsrc.
  pose proof (ns_next _ _ _ _ _ _ _ _ _ Hs) as Hn1.
  assert (forall k c s, n_Children nd !! k = Some c -> srcs !! k = Some s -> live lu m (Z.to_nat c) /\ slots st !! Z.to_nat c = Some s) as Hk.
  { intros k c s Hc Hs'. unfold uses_ok in Hu. rewrite Forall_lookup in Hch, Hu. specialize (Hch k c Hc). specialize (Hu k c Hc). cbn in Hch, Hu.
    split; [split; [lia|done]|]. by destruct (Forall2_lookup_lr _ _ _ _ _ _ Hsrc Hc Hs'). }
  destruct (m_law (n_Operator nd) dst srcs idx (zlen (bytecode st)) vm cvs v Hok Hcode) as (vm' & E & Hok' & Hd & Hrest).
  - pose proof (ns_dst _ _ _ _ _ _ _ _ _ Hs). lia.
  - apply Forall_lookup. intros k s Hks. destruct (lookup_lt_is_Some_2 (n_Children nd) k) as (c & Hc); [rewrite (Forall2_length _ _ _ Hsrc); by apply lookup_lt_Some in Hks|].
    destruct (Hk k c s Hc Hks) as [Hlk Hsk]. destruct (Hlive _ _ Hlk Hsk). split; [lia|]. exact (ns_fresh _ _ _ _ _ _ _ _ _ Hs _ _ Hlk Hsk).
  - apply Forall2_same_length_lookup. split; [by rewrite <- (Forall2_length _ _ _ Hsrc), (Forall2_length _ _ _ Hcv)|]. intros k s w Hks Hkw.
    destruct (lookup_lt_is_Some_2 (n_Children nd) k) as (c & Hc); [rewrite (Forall2_length _ _ _ Hsrc); by apply lookup_lt_Some in Hks|].
    destruct (Hk k c s Hc Hks) as [Hlk Hsk]. eapply Hld; [exact Hlk|exact Hsk|]. pose proof (Forall2_lookup_lr _ _ _ _ _ _ Hcv Hc Hkw) as Ev. exact Ev.
  - exact Hsem.
  - exact Hidx.
  - exists vm'. split_and!; [|done|].
    + rewrite E, (ns_code _ _ _ _ _ _ _ _ _ Hs). unfold zlen. rewrite length_app. do 3 f_equal. lia.
    + intros j s w Hj Hsj Hw. rewrite (ns_slots _ _ _ _ _ _ _ _ _ Hs) in Hsj. destruct (live_succ _ _ Hlu m j Hj) as [Hj'| ->].
      * rewrite list_lookup_insert_ne in Hsj by (destruct Hj'; lia). apply Hrest; [destruct (Hlive j s Hj' Hsj); lia| |by eapply Hld].
        exact (ns_fresh _ _ _ _ _ _ _ _ _ Hs _ _ Hj' Hsj).
      * rewrite list_lookup_insert_eq in Hsj by lia. injection Hsj as <-. rewrite Hv in Hw. by injection Hw as <-.
Qed.

Lemma run_suffix suffix m st stn :
  drop m nodes = suffix -> (m <= n)%nat -> state_alloc n lu m st -> foldM (compile_node lu) st (numbered m suffix) = Ok stn ->
  bytecode stn = code -> constants stn = consts -> nextSlot stn = numSlots -> 0 <= inputCursor st -> drop (Z.to_nat (inputCursor st)) metas = variables suffix ->
  forall vm fuel, m_ok vm -> loaded m (slots st) vm -> (length suffix <= fuel)%nat ->
  exists vm', vm_loop code m_step fuel (zlen (bytecode st)) vm = Ok vm' /\ m_ok vm' /\ loaded n (slots stn) vm'.
Proof.
  revert m st. induction suffix as [|nd suffix IH]; intros m st Hd Hm Hst Hf Hcode Hconsts Hslots Hcur Hmetas vm fuel Hok Hld Hfuel.
  { cbn in Hf. injection Hf as ->. assert (m = n) as -> by (assert (length (drop m nodes) = 0%nat) as E by (by rewrite Hd); rewrite length_drop in E; lia).
    exists vm. split; [|done]. rewrite Hcode. destruct fuel; cbn [vm_loop]; by rewrite Z.ltb_irrefl. }
  destruct (suffix_head m nd suffix Hd) as (Hnd & Hd' & Hlt). rewrite numbered_cons in Hf. cbn [foldM] in Hf.
  destruct (compile_node_ok n lu Hlu m nd st Hst Hlt (Hnodes _ _ Hnd) (Huses _ _ Hnd)) as (st1 & dst & srcs & idx & E1 & Hs). rewrite E1 in Hf. cbn [mbind outcome_bind] in Hf.
  destruct (compile_suffix suffix (S m) st1 Hd') as (stn' & bc & cs & E2 & _ & Hb & Hc & Hnx & _); [lia|apply Hs|]. assert (stn' = stn) as -> by congruence. clear E2.
  pose proof (ns_code _ _ _ _ _ _ _ _ _ Hs) as Hb1. pose proof (ns_const _ _ _ _ _ _ _ _ _ Hs) as Hc1. pose proof (ns_cursor _ _ _ _ _ _ _ _ _ Hs) as Hcu1. pose proof (ns_idx _ _ _ _ _ _ _ _ _ Hs) as Hix.
  assert (code_at code (zlen (bytecode st)) (node_words (n_Operator nd) dst srcs idx)) as Hat by (rewrite <- Hcode, Hb, Hb1, <- app_assoc; apply code_at_prefix).
  assert (idx_ok consts metas (n_Operator nd) idx /\ drop (Z.to_nat (inputCursor st1)) metas = variables suffix /\ 0 <= inputCursor st1) as (Hidx & Hmetas' & Hcur').
  { unfold variables in Hmetas. cbn [omap list_omap] in Hmetas. rewrite Hcu1. unfold idx_ok. destruct (n_Operator nd) as [g|mm|ks|ks|]; cbn [variable_of] in Hmetas; rewrite ?Z.add_0_r; try done.
    - split; [|done]. rewrite Hix, <- Hconsts, Hc, Hc1, <- app_assoc. cbn [app]. apply index_middle.
    - rewrite Hix. split_and!; [|replace (Z.to_nat (inputCursor st + 1)) with (Z.to_nat (inputCursor st) + 1)%nat by lia; by rewrite <- drop_drop, Hmetas|lia].
      apply index_ok; [done|]. rewrite <- (Nat.add_0_r (Z.to_nat _)), <- lookup_drop, Hmetas. done. }
  destruct (run_node m nd st st1 dst srcs idx vm Hnd Hlt Hst Hs) as (vm1 & Estep & Hok1 & Hld1); [lia|done|done|done|done|].
  destruct fuel as [|fuel]; [cbn in Hfuel; lia|]. destruct (node_words_shape (n_Operator nd) dst srcs idx) as (r & Ew & _). pose proof Hat as Hat'. rewrite Ew in Hat'.
  apply code_at_cons in Hat' as [Ei1 [Ei2 _]%code_at_cons].
  assert (zlen (bytecode st) <? zlen code = true) as Hpc by (rewrite <- Hcode, Hb, Hb1, Ew; unfold zlen; rewrite !length_app; cbn [length]; lia).
  cbn [vm_loop]. rewrite Hpc. cbn [negb]. rewrite Ei1, Ei2. cbn [mbind outcome_bind]. rewrite opcode_u8, Estep. cbn [mbind outcome_bind].
  apply (IH (S m) st1); try done; [apply Hs|cbn in Hfuel; lia].
Qed.
End Run.

(** ** Compiled boards *)

Section Compiled.
Context {F : Type} `{ExtOps F}.

(** A board that has not been compiled. *)
Definition fresh (b : ExpressionBoard F) : Prop :=
  Nodes b <> [] /\ compiled b = 0 /\ ProgramNodesCount b = 0 /\ forall i nd, Nodes b !! i = Some nd -> node_fine i nd.

(** The program computes the value of the last node, on any machine and whatever its
    memory. *)
Definition runs (b : ExpressionBoard F) : Prop :=
  forall (M V : Type) (m : Machine F M V), MachineLaws F M V (Bytecode b) (Constants b) (ListVariableMetadata b) (NumSlots b) ->
  forall vals vm v, (forall i nd, Nodes b !! i = Some nd -> value_ok vals i nd) -> vals !! (length (Nodes b) - 1)%nat = Some v -> m_ok vm ->
  exists vm', vm_loop (Bytecode b) m_step (length (Bytecode b)) 0 vm = Ok vm' /\ m_ok vm' /\ m_holds vm' (ResultSlot b) v.

Definition compiled_ok (b b' : ExpressionBoard F) : Prop :=
  Nodes b' = Nodes b /\ compiled b' = 1 /\ 0 <= ResultSlot b' < NumSlots b' /\ runs b'.

Lemma Compile_ok b : fresh b -> exists b', Compile b = Ok b' /\ compiled_ok b b'.
Proof.
  intros (Hne & Hc & Hp & Hfine). set (nodes := Nodes b) in *. assert (0 < length nodes)%nat as Hn by (destruct nodes; [done|]; cbn; lia).
  destruct (liveness_ok nodes Hfine Hne) as (lu & Elu & Hlu & Huses & ulast & Hlast & Hul).
  set (st0 := mkCompiler [] [] (replicate (length nodes) 0) [] 0 0 : compiler F).
  destruct (compile_suffix nodes lu Hlu Hfine Huses nodes 0 st0) as (stn & bc & cs & Ef & Han & Hb & Hcs & Hnx & Hlen); [apply drop_0|lia|by apply initial_alloc|].
  pose proof Han as (Hl & _ & _ & _ & Hlive & _). destruct (lookup_lt_is_Some_2 (slots stn) (length nodes - 1)) as (res & Hres); [lia|].
  assert (live lu (length nodes) (length nodes - 1)) as Hll by (split; [lia|]; by exists ulast). destruct (Hlive _ _ Hll Hres) as [Hrb _].
  unfold Compile. fold nodes. rewrite Hc, Hp. change (0 =? 1) with false. cbv iota. replace (zlen nodes =? 0) with false by (unfold zlen; lia). replace (0 =? zlen nodes) with false by (unfold zlen; lia).
  rewrite Elu. cbn [mbind outcome_bind]. fold st0. change (enumerate nodes) with (numbered 0 nodes). rewrite Ef. cbn [mbind outcome_bind].
  rewrite (index_ok _ _ res) by (try (unfold zlen; lia); by replace (Z.to_nat (zlen nodes - 1)) with (length nodes - 1)%nat by (unfold zlen; lia)).
  eexists. split; [reflexivity|]. split_and!; cbn [Nodes compiled ResultSlot NumSlots]; [done|done|lia|lia|].
  intros M V mach Hlaws vals vm v Hvals Hv Hok. cbn [Nodes Bytecode Constants NumSlots ResultSlot] in *. fold nodes in Hvals, Hv.
  destruct (run_suffix nodes lu Hlu Hfine Huses (bytecode stn) (constants stn) (variables nodes) (nextSlot stn) vals Hvals nodes 0 st0 stn) with (vm := vm) (fuel := length (bytecode stn)) as (vm' & E & Hok' & Hld);
    try done; [lia|by apply initial_alloc|intros j s w [Hj _]; lia|rewrite Hb; cbn; lia|].
  exists vm'. split_and!; [exact E|done|]. by eapply Hld.
Qed.
End Compiled.
