(* ===== verification/BoardVm.v ===== *)
(** The machines that run compiled boards and the evaluation of a board:
    [prover/symbolic/compiler.go].

    A machine has a memory with a chunk of rows for each slot.  The machine for the base
    field keeps elements of the base field.  The machine for the extension has two
    memories and a flag for each slot that says which of them holds the slot.  The
    vectors that are combined are views of the memories of the same length, and the views
    of two slots are the same or do not meet: an operation reads its operands and then
    writes its result.  The scratch vectors are written before they are read, so they are
    values here.  *)
From S2P Require Import Prelude SvIntervals SmtBuild SmartVectors SvOps FieldExt Symbolic Board.

(** ** Views of a memory *)

Definition view {A} (mem : list A) (offset len : Z) : go (list A) := slice mem offset (offset + len).

Definition write {A} (mem : list A) (offset : Z) (l : list A) : list A :=
  take (Z.to_nat offset) mem ++ l ++ drop (Z.to_nat offset + length l) mem.

(** ** Operations on vectors *)

Section Steps.
Context {R : Type} `{FieldOps R} (scale : R -> Z -> R).

(** The first factor of a product, and the next ones. *)
Definition mul_operand (exp : Z) (x : list R) : list R := if exp =? 1 then x else (fun v => f_exp v exp) <$> x.

Definition mul_next (exp : Z) (res x : list R) : list R := zip_with f_mul res (mul_operand exp x).

(** The first term of a sum, and the next ones. *)
Definition lc_first (coeff : Z) (x : list R) : list R :=
  if coeff =? 0 then (fun _ => f_zero) <$> x
  else if coeff =? 1 then x
  else if coeff =? 2 then zip_with f_add x x
  else if coeff =? -1 then zip_with f_sub ((fun _ => f_zero) <$> x) x
  else (fun v => scale v coeff) <$> x.

Definition lc_next (coeff : Z) (res x : list R) : list R :=
  if coeff =? 0 then res
  else if coeff =? 1 then zip_with f_add res x
  else if coeff =? 2 then zip_with f_add (zip_with f_add res x) x
  else if coeff =? -1 then zip_with f_sub res x
  else zip_with f_add res ((fun v => scale v coeff) <$> x).
End Steps.

(** Vectors of either field. *)
Inductive avec {F : Type} :=
| VBase (v : SmartVector (F := F))
| VExt (v : SmartVector (F := E4 F)).
Arguments avec : clear implicits.

Section Machines.
Context {F : Type} `{ExtOps F}.

Definition avec_Len (v : avec F) : Z := match v with VBase v => Len v | VExt v => Len v end.

Definition sv_IsBase (v : avec F) : bool := match v with VBase _ => true | VExt _ => false end.

Definition AreAllBase (inp : list (avec F)) : bool := forallb sv_IsBase inp.

Definition areAllConstants (inp : list (avec F)) : bool :=
  forallb (fun v => match v with VBase (SConstant _) | VExt (SConstant _) => true | _ => false end) inp.

Section Board.
Context (b : ExpressionBoard F) (chunkSize : Z) (inputs : list (avec F)).
Local Abbreviation code := (Bytecode b).

(** ** The machine for the base field *)

Definition scale_base (x : F) (coeff : Z) : F := f_mul x (f_int64 coeff).

(** [SubVector] and [WriteInSlice]; a vector of the extension panics. *)
Definition base_input (chunkStart chunkStop : Z) (input : avec F) (dst : list F) : go (list F) :=
  match input with
  | VBase (SRegular rv) => s ← slice rv chunkStart chunkStop; Ok (copy dst s)
  | VBase v => sb ← SubVector f_zero v chunkStart chunkStop; WriteInSlice sb dst
  | VExt _ => Panic
  end.

(** The loops over the operands of [opMul] and [opLinComb]. *)
Fixpoint base_fold (first : Z -> list F -> list F) (next : Z -> list F -> list F -> list F) (chunkLen dstOffset : Z) (n : nat)
    (isFirst : bool) (pc : Z) (mem : list F) : go (list F * Z) :=
  match n with
  | O => Ok (mem, pc)
  | S n =>
      srcSlot ← index code pc;
      coeff ← index code (pc + 1);
      vInput ← view mem (srcSlot * chunkSize) chunkLen;
      vRes ← view mem dstOffset chunkLen;
      base_fold first next chunkLen dstOffset n false (pc + 2)
        (write mem dstOffset (if isFirst then first coeff vInput else next coeff vRes vInput))
  end.

Definition base_polyeval (chunkLen dstOffset srcStart numSrc : Z) (mem : list F) : go (list F) :=
  xSlot ← index code srcStart;
  x ← index mem (xSlot * chunkSize);
  lastSrcSlot ← index code (srcStart + numSrc - 1);
  v ← view mem (lastSrcSlot * chunkSize) chunkLen;
  foldM (fun mem k =>
      srcSlot ← index code (srcStart + k);
      vTmp ← view mem (srcSlot * chunkSize) chunkLen;
      vRes ← view mem dstOffset chunkLen;
      Ok (write mem dstOffset (zip_with f_add ((fun r => f_mul r x) <$> vRes) vTmp)))
    (write mem dstOffset v) (reverse (range 1 (numSrc - 1))).

Definition base_instr (chunkStart chunkStop op pc dstSlot : Z) (mem : list F) : go (list F * Z) :=
  let chunkLen := chunkStop - chunkStart in
  let dstOffset := dstSlot * chunkSize in
  dst ← view mem dstOffset chunkLen;
  if op =? opLoadConst then
    constIdx ← index code pc;
    val ← index (Constants b) constIdx;
    Ok (write mem dstOffset ((fun _ => B0_A0 val) <$> dst), pc + 1)
  else if op =? opLoadInput then
    inputID ← index code pc;
    input ← index inputs inputID;
    dst ← base_input chunkStart chunkStop input dst;
    Ok (write mem dstOffset dst, pc + 1)
  else if op =? opMul then
    numSrc ← index code pc;
    base_fold mul_operand mul_next chunkLen dstOffset (Z.to_nat numSrc) true (pc + 1) mem
  else if op =? opLinComb then
    numSrc ← index code pc;
    base_fold (lc_first scale_base) (lc_next scale_base) chunkLen dstOffset (Z.to_nat numSrc) true (pc + 1) mem
  else if op =? opPolyEval then
    numSrc ← index code pc;
    mem ← base_polyeval chunkLen dstOffset (pc + 1) numSrc mem;
    Ok (mem, pc + 1 + numSrc)
  else Ok (mem, pc).

(** The loop of [execute]: [fuel] bounds the number of instructions. *)
Fixpoint base_loop (fuel : nat) (chunkStart chunkStop pc : Z) (mem : list F) : go (list F) :=
  if negb (pc <? zlen code) then Ok mem else
  match fuel with
  | O => Panic
  | S fuel =>
      op ← index code pc;
      dstSlot ← index code (pc + 1);
      '(mem, pc) ← base_instr chunkStart chunkStop (u8 op) (pc + 2) dstSlot mem;
      base_loop fuel chunkStart chunkStop pc mem
  end.

Definition base_execute (chunkStart chunkStop : Z) (mem : list F) : go (list F) :=
  base_loop (length code) chunkStart chunkStop 0 mem.

Definition newVMBase : list F := replicate (Z.to_nat (NumSlots b * chunkSize)) f_zero.

(** ** The machine for the extension *)

Record vmExt := mkVmExt { memory : list (E4 F); baseMemory : list F; slotIsBase : list bool }.

Definition newVMExt : vmExt :=
  mkVmExt (replicate (Z.to_nat (NumSlots b * chunkSize)) f_zero) (replicate (Z.to_nat (NumSlots b * chunkSize)) f_zero)
          (replicate (Z.to_nat (NumSlots b)) false).

Definition write_ext (vm : vmExt) (offset : Z) (l : list (E4 F)) : vmExt := mkVmExt (write (memory vm) offset l) (baseMemory vm) (slotIsBase vm).

Definition write_base (vm : vmExt) (offset : Z) (l : list F) : vmExt := mkVmExt (memory vm) (write (baseMemory vm) offset l) (slotIsBase vm).

Definition set_flag (vm : vmExt) (slot : Z) (flag : bool) : go vmExt :=
  flags ← set_index (slotIsBase vm) slot flag; Ok (mkVmExt (memory vm) (baseMemory vm) flags).

Definition scale_ext (x : E4 F) (coeff : Z) : E4 F := MulByElement x (f_int64 coeff).

(** [vRes[i].B0.A0] plus, or minus, an element. *)
Definition add_B0A0 (z : E4 F) (x : F) : E4 F := mkE4 (f_add (B0_A0 z) x) (B0_A1 z) (B1_A0 z) (B1_A1 z).
Definition sub_B0A0 (z : E4 F) (x : F) : E4 F := mkE4 (f_sub (B0_A0 z) x) (B0_A1 z) (B1_A0 z) (B1_A1 z).

(** A base term added to a sum in the extension. *)
Definition lc_mixed (coeff : Z) (res : list (E4 F)) (x : list F) : list (E4 F) :=
  if coeff =? 1 then zip_with add_B0A0 res x
  else if coeff =? 2 then zip_with (fun r v => add_B0A0 (add_B0A0 r v) v) res x
  else if coeff =? -1 then zip_with sub_B0A0 res x
  else zip_with (fun r v => add_B0A0 r (f_mul v (f_int64 coeff))) res x.

(** [scatterBaseToExt]. *)
Definition scatterBaseToExt (vm : vmExt) (offset chunkLen : Z) : go vmExt :=
  bSrc ← view (baseMemory vm) offset chunkLen;
  _ ← view (memory vm) offset chunkLen;
  Ok (write_ext vm offset (Lift <$> bSrc)).

Definition ext_input (chunkStart chunkStop dstSlot dstOffset : Z) (input : avec F) (vm : vmExt) (dst : list (E4 F)) (baseDst : list F) : go vmExt :=
  match input with
  | VExt (SRotated rv) =>
      vm ← set_flag vm dstSlot false;
      l ← copySubVector (r_v rv) (r_offset rv) chunkStart chunkStop dst; Ok (write_ext vm dstOffset l)
  | VBase (SRotated rv) =>
      vm ← set_flag vm dstSlot true;
      l ← copySubVector (r_v rv) (r_offset rv) chunkStart chunkStop baseDst; Ok (write_base vm dstOffset l)
  | VBase (SRegular rv) =>
      vm ← set_flag vm dstSlot true;
      s ← slice rv chunkStart chunkStop; Ok (write_base vm dstOffset (copy baseDst s))
  | VExt (SRegular rv) =>
      vm ← set_flag vm dstSlot false;
      s ← slice rv chunkStart chunkStop; Ok (write_ext vm dstOffset (copy dst s))
  | VBase (SConstant rv) =>
      vm ← set_flag vm dstSlot true;
      Ok (write_base vm dstOffset ((fun _ => Value rv) <$> baseDst))
  | VExt (SConstant rv) =>
      let isBase := IsBase (Value rv) in
      vm ← set_flag vm dstSlot isBase;
      Ok (if isBase then write_base vm dstOffset ((fun _ => B0_A0 (Value rv)) <$> baseDst)
          else write_ext vm dstOffset ((fun _ => Value rv) <$> dst))
  | VBase v =>
      vm ← set_flag vm dstSlot true;
      sb ← SubVector f_zero v chunkStart chunkStop; l ← WriteInSlice sb baseDst; Ok (write_base vm dstOffset l)
  | VExt v =>
      vm ← set_flag vm dstSlot false;
      sb ← SubVector f_zero v chunkStart chunkStop; l ← WriteInSlice sb dst; Ok (write_ext vm dstOffset l)
  end.

(** One operand of [opMul]. *)
Definition ext_mul_step (chunkLen dstOffset srcSlot exp : Z) (isFirst : bool) (vm : vmExt) (resIsBase : bool) : go (vmExt * bool) :=
  let srcOffset := srcSlot * chunkSize in
  srcIsBase ← index (slotIsBase vm) srcSlot;
  vRes ← view (memory vm) dstOffset chunkLen;
  baseDst ← view (baseMemory vm) dstOffset chunkLen;
  if srcIsBase : bool then
    bSrc ← view (baseMemory vm) srcOffset chunkLen;
    if isFirst then Ok (write_base vm dstOffset (mul_operand exp bSrc), true)
    else if resIsBase then Ok (write_base vm dstOffset (mul_next exp baseDst bSrc), true)
    else Ok (write_ext vm dstOffset (zip_with MulByElement vRes (mul_operand exp bSrc)), false)
  else
    vInput ← view (memory vm) srcOffset chunkLen;
    if isFirst then Ok (write_ext vm dstOffset (mul_operand exp vInput), false)
    else if resIsBase then Ok (write_ext vm dstOffset (zip_with MulByElement (mul_operand exp vInput) baseDst), false)
    else Ok (write_ext vm dstOffset (mul_next exp vRes vInput), false).

(** One operand of [opLinComb]. *)
Definition ext_lc_step (chunkLen dstOffset srcSlot coeff : Z) (isFirst : bool) (vm : vmExt) (resIsBase : bool) : go (vmExt * bool) :=
  let srcOffset := srcSlot * chunkSize in
  srcIsBase ← index (slotIsBase vm) srcSlot;
  vRes ← view (memory vm) dstOffset chunkLen;
  baseDst ← view (baseMemory vm) dstOffset chunkLen;
  if isFirst then
    if srcIsBase : bool then
      bSrc ← view (baseMemory vm) srcOffset chunkLen;
      Ok (write_base vm dstOffset (lc_first scale_base coeff bSrc), true)
    else
      vInput ← view (memory vm) srcOffset chunkLen;
      if coeff =? 0 then Ok (write_base vm dstOffset ((fun _ => f_zero) <$> baseDst), true)
      else Ok (write_ext vm dstOffset (lc_first scale_ext coeff vInput), false)
  else if coeff =? 0 then Ok (vm, resIsBase)
  else if srcIsBase : bool then
    bSrc ← view (baseMemory vm) srcOffset chunkLen;
    if resIsBase then Ok (write_base vm dstOffset (lc_next scale_base coeff baseDst bSrc), true)
    else Ok (write_ext vm dstOffset (lc_mixed coeff vRes bSrc), false)
  else
    vInput ← view (memory vm) srcOffset chunkLen;
    vm ← (if resIsBase then scatterBaseToExt vm dstOffset chunkLen else Ok vm);
    vRes ← view (memory vm) dstOffset chunkLen;
    Ok (write_ext vm dstOffset (lc_next scale_ext coeff vRes vInput), false).

Fixpoint ext_fold (step : Z -> Z -> bool -> vmExt -> bool -> go (vmExt * bool)) (n : nat) (isFirst : bool) (pc : Z) (vm : vmExt) (resIsBase : bool) :
    go (vmExt * bool * Z) :=
  match n with
  | O => Ok (vm, resIsBase, pc)
  | S n =>
      srcSlot ← index code pc;
      coeff ← index code (pc + 1);
      '(vm, resIsBase) ← step srcSlot coeff isFirst vm resIsBase;
      ext_fold step n false (pc + 2) vm resIsBase
  end.

(** The two operands of the fast paths, when both are base. *)
Definition two_base (pc : Z) (vm : vmExt) : go (option (Z * Z * Z * Z)) :=
  s0 ← index code pc; e0 ← index code (pc + 1);
  s1 ← index code (pc + 2); e1 ← index code (pc + 3);
  f0 ← index (slotIsBase vm) s0;
  if f0 : bool then f1 ← index (slotIsBase vm) s1; Ok (if f1 : bool then Some (s0, e0, s1, e1) else None) else Ok None.

Definition fast_base (chunkLen dstSlot dstOffset s0 s1 : Z) (f : F -> F -> F) (vm : vmExt) : go vmExt :=
  b0 ← view (baseMemory vm) (s0 * chunkSize) chunkLen;
  b1 ← view (baseMemory vm) (s1 * chunkSize) chunkLen;
  set_flag (write_base vm dstOffset (zip_with f b0 b1)) dstSlot true.

(** The operations of the fast paths: [Some] when the exponents, or the coefficients,
    are the ones that they handle. *)
Definition fast_mul (e0 e1 : Z) : option (F -> F -> F) := if (e0 =? 1) && (e1 =? 1) then Some f_mul else None.

Definition fast_lc (c0 c1 : Z) : option (F -> F -> F) :=
  if negb (c0 =? 1) then None else if c1 =? 1 then Some f_add else if c1 =? -1 then Some f_sub else None.

Definition ext_nary (fast : Z -> Z -> option (F -> F -> F)) (step : Z -> Z -> bool -> vmExt -> bool -> go (vmExt * bool))
    (chunkLen dstSlot dstOffset numSrc pc : Z) (vm : vmExt) : go (vmExt * Z) :=
  two ← (if numSrc =? 2 then two_base pc vm else Ok None);
  match (match two with Some (s0, e0, s1, e1) => (fun f => (s0, s1, f)) <$> fast e0 e1 | None => None end) with
  | Some (s0, s1, f) => vm ← fast_base chunkLen dstSlot dstOffset s0 s1 f vm; Ok (vm, pc + 4)
  | None =>
      '(vm, resIsBase, pc) ← ext_fold step (Z.to_nat numSrc) true pc vm false;
      vm ← set_flag vm dstSlot resIsBase;
      Ok (vm, pc)
  end.

(** [powers[i]]: the powers of [x]. *)
Fixpoint powers_loop (n : nat) (p x : E4 F) : list (E4 F) :=
  match n with O => [] | S n => p :: powers_loop n (f_mul p x) x end.

(** The sum of powers: the coefficients are base, the point is not. *)
Definition ext_power_sum (chunkLen dstSlot dstOffset xOffset srcStart numSrc : Z) (vm : vmExt) : go vmExt :=
  x ← index (memory vm) xOffset;
  let powers := powers_loop (Z.to_nat (numSrc - 1)) f_one x in
  firstSlot ← index code (srcStart + 1);
  bFirst ← view (baseMemory vm) (firstSlot * chunkSize) chunkLen;
  vm ← foldM (fun vm k =>
      srcSlot ← index code (srcStart + k);
      bSrc ← view (baseMemory vm) (srcSlot * chunkSize) chunkLen;
      vRes ← view (memory vm) dstOffset chunkLen;
      power ← index powers (k - 1);
      Ok (write_ext vm dstOffset (zip_with (fun r v => f_add r (MulByElement power v)) vRes bSrc)))
    (write_ext vm dstOffset (Lift <$> bFirst)) (range 2 numSrc);
  set_flag vm dstSlot false.

(** One step of Horner's method: multiplication by the point, then addition. *)
Definition horner_mul (chunkLen dstOffset xOffset : Z) (xIsBase : bool) (vm : vmExt) (resIsBase : bool) : go (vmExt * bool) :=
  vRes ← view (memory vm) dstOffset chunkLen;
  baseDst ← view (baseMemory vm) dstOffset chunkLen;
  if xIsBase then
    xBase ← index (baseMemory vm) xOffset;
    if resIsBase then Ok (write_base vm dstOffset ((fun r => f_mul r xBase) <$> baseDst), true)
    else Ok (write_ext vm dstOffset ((fun r => MulByElement r xBase) <$> vRes), false)
  else
    x ← index (memory vm) xOffset;
    if resIsBase then Ok (write_ext vm dstOffset (MulByElement x <$> baseDst), false)
    else Ok (write_ext vm dstOffset ((fun r => f_mul r x) <$> vRes), false).

Definition horner_add (chunkLen dstOffset srcSlot : Z) (vm : vmExt) (resIsBase : bool) : go (vmExt * bool) :=
  srcIsBase ← index (slotIsBase vm) srcSlot;
  if srcIsBase : bool then
    bSrc ← view (baseMemory vm) (srcSlot * chunkSize) chunkLen;
    if resIsBase then
      baseDst ← view (baseMemory vm) dstOffset chunkLen; Ok (write_base vm dstOffset (zip_with f_add baseDst bSrc), true)
    else
      vRes ← view (memory vm) dstOffset chunkLen; Ok (write_ext vm dstOffset (zip_with add_B0A0 vRes bSrc), false)
  else
    vm ← (if resIsBase then scatterBaseToExt vm dstOffset chunkLen else Ok vm);
    vTmp ← view (memory vm) (srcSlot * chunkSize) chunkLen;
    vRes ← view (memory vm) dstOffset chunkLen;
    Ok (write_ext vm dstOffset (zip_with f_add vRes vTmp), false).

Definition ext_horner (chunkLen dstSlot dstOffset xOffset srcStart numSrc : Z) (xIsBase : bool) (vm : vmExt) : go vmExt :=
  lastSrcSlot ← index code (srcStart + numSrc - 1);
  resIsBase ← index (slotIsBase vm) lastSrcSlot;
  vm ← (if resIsBase : bool then l ← view (baseMemory vm) (lastSrcSlot * chunkSize) chunkLen; Ok (write_base vm dstOffset l)
        else l ← view (memory vm) (lastSrcSlot * chunkSize) chunkLen; Ok (write_ext vm dstOffset l));
  '(vm, resIsBase) ← foldM (fun '(vm, resIsBase) k =>
      srcSlot ← index code (srcStart + k);
      '(vm, resIsBase) ← horner_mul chunkLen dstOffset xOffset xIsBase vm resIsBase;
      horner_add chunkLen dstOffset srcSlot vm resIsBase) (vm, resIsBase) (reverse (range 1 (numSrc - 1)));
  set_flag vm dstSlot resIsBase.

Definition all_coeffs_base (srcStart numSrc : Z) (vm : vmExt) : go bool :=
  foldM (fun (all : bool) k => if all then s ← index code (srcStart + k); index (slotIsBase vm) s else Ok false) true (range 1 numSrc).

Definition ext_polyeval (chunkLen dstSlot dstOffset srcStart numSrc : Z) (vm : vmExt) : go vmExt :=
  xSlot ← index code srcStart;
  let xOffset := xSlot * chunkSize in
  xIsBase ← index (slotIsBase vm) xSlot;
  allCoeffsBase ← (if xIsBase : bool then Ok false else all_coeffs_base srcStart numSrc vm);
  if allCoeffsBase && (2 <? numSrc) then ext_power_sum chunkLen dstSlot dstOffset xOffset srcStart numSrc vm
  else ext_horner chunkLen dstSlot dstOffset xOffset srcStart numSrc xIsBase vm.

Definition ext_instr (chunkStart chunkStop op pc dstSlot : Z) (vm : vmExt) : go (vmExt * Z) :=
  let chunkLen := chunkStop - chunkStart in
  let dstOffset := dstSlot * chunkSize in
  dst ← view (memory vm) dstOffset chunkLen;
  baseDst ← view (baseMemory vm) dstOffset chunkLen;
  if op =? opLoadConst then
    constIdx ← index code pc;
    val ← index (Constants b) constIdx;
    let isBase := IsBase val in
    vm ← set_flag vm dstSlot isBase;
    Ok (if isBase then write_base vm dstOffset ((fun _ => B0_A0 val) <$> baseDst) else write_ext vm dstOffset ((fun _ => val) <$> dst), pc + 1)
  else if op =? opLoadInput then
    inputID ← index code pc;
    input ← index inputs inputID;
    vm ← ext_input chunkStart chunkStop dstSlot dstOffset input vm dst baseDst;
    Ok (vm, pc + 1)
  else if op =? opMul then
    numSrc ← index code pc;
    ext_nary fast_mul (ext_mul_step chunkLen dstOffset) chunkLen dstSlot dstOffset numSrc (pc + 1) vm
  else if op =? opLinComb then
    numSrc ← index code pc;
    ext_nary fast_lc (ext_lc_step chunkLen dstOffset) chunkLen dstSlot dstOffset numSrc (pc + 1) vm
  else if op =? opPolyEval then
    numSrc ← index code pc;
    vm ← ext_polyeval chunkLen dstSlot dstOffset (pc + 1) numSrc vm;
    Ok (vm, pc + 1 + numSrc)
  else Ok (vm, pc).

Fixpoint ext_loop (fuel : nat) (chunkStart chunkStop pc : Z) (vm : vmExt) : go vmExt :=
  if negb (pc <? zlen code) then Ok vm else
  match fuel with
  | O => Panic
  | S fuel =>
      op ← index code pc;
      dstSlot ← index code (pc + 1);
      '(vm, pc) ← ext_instr chunkStart chunkStop (u8 op) (pc + 2) dstSlot vm;
      ext_loop fuel chunkStart chunkStop pc vm
  end.

Definition ext_execute (chunkStart chunkStop : Z) (vm : vmExt) : go vmExt :=
  ext_loop (length code) chunkStart chunkStop 0 vm.
End Board.

(** ** Evaluation *)

Definition MaxChunkSize : Z := 256.
Definition maxVMBytes : Z := Z.shiftl 256 20.
Definition elemBytes : Z := 16.

(** The loop that keeps the highest bit. *)
Fixpoint round_down (fuel : nat) (m : Z) : Z :=
  match fuel with
  | O => m
  | S fuel => if (0 <? m) && negb (m &&& (m - 1) =? 0) then round_down fuel (m &&& (m - 1)) else m
  end.

Fixpoint shrink (fuel : nat) (totalSize chunkSize : Z) : Z :=
  match fuel with
  | O => chunkSize
  | S fuel => if (1 <? chunkSize) && negb (Z.rem totalSize chunkSize =? 0) then shrink fuel totalSize (Z.shiftr chunkSize 1) else chunkSize
  end.

Definition chunk_size (b : ExpressionBoard F) (totalSize : Z) : Z :=
  let maxChunkSize :=
    if 0 <? NumSlots b then
      let maxForBoard := round_down 64 (Z.quot maxVMBytes (NumSlots b * elemBytes)) in
      if (16 <=? maxForBoard) && (maxForBoard <? MaxChunkSize) then maxForBoard else MaxChunkSize
    else MaxChunkSize in
  shrink 64 totalSize (Z.min maxChunkSize totalSize).

(** The goroutines: each runs its chunks one after the other on its own machine, and
    copies the slot of the result into the part of [res] of the chunk.  [schedule] is the
    order in which the copies of all goroutines are made. *)
Section Workers.
Context {A M : Type} (gomaxprocs : Z) (schedule : list (list (Z * list A)) -> list (Z * list A)) (zero : A).
Context (run : Z -> Z -> M -> go M) (result : M -> go (list A)) (chunkSize : Z).

Definition worker (vm : M) (r : Z * Z) : go (list (Z * list A)) :=
  st ← foldM (fun '(vm, copies) chunkID =>
      vm ← run (chunkID * chunkSize) ((chunkID + 1) * chunkSize) vm;
      l ← result vm;
      Ok (vm, copies ++ [(chunkID * chunkSize, l)])) (vm, []) (Z.of_nat <$> range_seq r);
  Ok st.2.

Definition evaluate_chunks (newVM : M) (totalSize : Z) : go (list A) :=
  copies ← mapM_ (worker newVM) (Execute_ranges gomaxprocs (Z.quot totalSize chunkSize) []);
  foldM (fun res c => dst ← view res c.1 chunkSize; Ok (write res c.1 (copy dst c.2)))
    (replicate (Z.to_nat totalSize) zero) (schedule copies).
End Workers.

Section Evaluate.
Context (gomaxprocs : Z) (schedule : forall {A : Type}, list (list (Z * list A)) -> list (Z * list A)).
Arguments schedule {A}.

(** The vector of the results. *)
Definition wrap {A} (all_constants : bool) (totalSize : Z) (res : list A) : go (SmartVector (F := A)) :=
  if all_constants then res0 ← index res 0; c ← SmartVectors.NewConstant res0 totalSize; Ok (SConstant c)
  else r ← NewRegular res; Ok (SRegular r).

Definition evaluate_base (b : ExpressionBoard F) (inputs : list (avec F)) (totalSize chunkSize : Z) : go (avec F) :=
  res ← evaluate_chunks gomaxprocs schedule f_zero (base_execute b chunkSize inputs)
          (fun mem => view mem (ResultSlot b * chunkSize) chunkSize) chunkSize (newVMBase b chunkSize) totalSize;
  v ← wrap (areAllConstants inputs) totalSize res; Ok (VBase v).

Definition evaluate_ext (b : ExpressionBoard F) (inputs : list (avec F)) (totalSize chunkSize : Z) : go (avec F) :=
  probeVM ← ext_execute b chunkSize inputs 0 chunkSize (newVMExt b chunkSize);
  resultIsBase ← index (slotIsBase probeVM) (ResultSlot b);
  res ← (if resultIsBase : bool then
           resBase ← evaluate_chunks gomaxprocs schedule f_zero (ext_execute b chunkSize inputs)
                       (fun vm => view (baseMemory vm) (ResultSlot b * chunkSize) chunkSize) chunkSize (newVMExt b chunkSize) totalSize;
           Ok (Lift <$> (resBase : list F))
         else
           evaluate_chunks gomaxprocs schedule f_zero (ext_execute b chunkSize inputs)
             (fun vm => view (memory vm) (ResultSlot b * chunkSize) chunkSize) chunkSize (newVMExt b chunkSize) totalSize);
  v ← wrap (areAllConstants inputs) totalSize res; Ok (VExt v).

(** The result, and the board afterwards. *)
Definition Evaluate (b : ExpressionBoard F) (inputs : list (avec F)) : go (avec F * ExpressionBoard F) :=
  b ← (if compiled b =? 0 then Compile b else Ok b);
  input0 ← unwrap (head inputs);
  let totalSize := avec_Len input0 in
  _ ← assert_ (negb (totalSize =? 0));
  _ ← assert_ (forallb (fun v => avec_Len v =? totalSize) inputs);
  let chunkSize := chunk_size b totalSize in
  v ← (if AreAllBase inputs then evaluate_base b inputs totalSize chunkSize else evaluate_ext b inputs totalSize chunkSize);
  Ok (v, b).
End Evaluate.
End Machines.
Arguments vmExt : clear implicits.
