(* ===== verification/VmTheorems.v ===== *)
(** The machine for the base field carries out the instructions of the compiler. *)
From S2P Require Import Prelude SvIntervals SmartVectors SvSpec SvOps SvOpsTheorems FieldExt Symbolic SymSpec SymTheorems Board BoardTheorems BoardRun BoardVm.
From Stdlib Require Import ZifyBool Ring.

(** ** Rows *)

Section Rows.
Context (start cs : Z).

(** The list has the values of [f] at the rows of the chunk. *)
Definition rows {A} (l : list A) (f : Z -> A) : Prop := zlen l = cs /\ forall j x, l !! j = Some x -> x = f (start + Z.of_nat j).

Lemma rows_fmap {A B} (g : A -> B) l f : rows l f -> rows (g <$> l) (fun r => g (f r)).
Proof. intros [Hl Hf]. split; [by rewrite zlen_fmap|]. intros j x. rewrite list_lookup_fmap. intros (y & Hy & ->)%fmap_Some. by rewrite (Hf j y). Qed.

Lemma rows_zip {A B C} (g : A -> B -> C) l k f h : rows l f -> rows k h -> rows (zip_with g l k) (fun r => g (f r) (h r)).
Proof.
  intros [Hl Hf] [Hk Hh]. split; [unfold zlen in *; rewrite length_zip_with; lia|]. intros j x (y & z & -> & Hy & Hz)%lookup_zip_with_Some. by rewrite (Hf j y), (Hh j z).
Qed.

Lemma rows_ext {A} (l : list A) f g : rows l f -> (forall r, start <= r < start + cs -> f r = g r) -> rows l g.
Proof. intros [Hl Hf] E. split; [done|]. intros j x Hj. rewrite <- E; [by apply Hf|]. apply lookup_lt_Some in Hj. unfold zlen in Hl. lia. Qed.

Lemma rows_nth {A} (d : A) l f : zlen l = cs -> (forall i, 0 <= i < cs -> nthZ d l i = f (start + i)) -> rows l f.
Proof.
  intros Hl Hn. split; [done|]. intros j x Hj. rewrite <- (Hn (Z.of_nat j)) by (apply lookup_lt_Some in Hj; unfold zlen in Hl; lia).
  unfold nthZ. rewrite Nat2Z.id. symmetry. by apply nth_lookup_Some.
Qed.

Lemma rows_const {A B} (l : list A) f (c : B) : rows l f -> rows ((fun _ => c) <$> l) (fun _ => c).
Proof. intros Hl. by apply (rows_fmap (fun _ => c) l f). Qed.

(** ** Slots in a flat memory *)

Context (Hcs : 0 < cs) (numSlots : Z).

Definition mem_ok {A} (mem : list A) : Prop := zlen mem = numSlots * cs.

Definition chunk {A} (mem : list A) (s : Z) : list A := take (Z.to_nat cs) (drop (Z.to_nat (s * cs)) mem).

Lemma slot_bounds s : 0 <= s < numSlots -> 0 <= s * cs /\ s * cs + cs <= numSlots * cs.
Proof. nia. Qed.

Lemma chunk_length {A} (mem : list A) s : mem_ok mem -> 0 <= s < numSlots -> zlen (chunk mem s) = cs.
Proof. unfold mem_ok, chunk, zlen. intros Hm Hs. pose proof (slot_bounds s Hs). rewrite length_take, length_drop. lia. Qed.

Lemma view_ok {A} (mem : list A) s : mem_ok mem -> 0 <= s < numSlots -> view mem (s * cs) cs = Ok (chunk mem s).
Proof.
  intros Hm Hs. pose proof (slot_bounds s Hs). unfold mem_ok in Hm. unfold view, slice. replace (_ && _) with true by lia.
  unfold chunk. do 3 f_equal. lia.
Qed.

Lemma write_ok {A} (mem : list A) s l : mem_ok mem -> 0 <= s < numSlots -> zlen l = cs -> mem_ok (write mem (s * cs) l).
Proof.
  unfold mem_ok, write, zlen. intros Hm Hs Hl. pose proof (slot_bounds s Hs). rewrite !length_app, length_take, length_drop. lia.
Qed.

Lemma chunk_write {A} (mem : list A) s l : mem_ok mem -> 0 <= s < numSlots -> zlen l = cs -> chunk (write mem (s * cs) l) s = l.
Proof.
  unfold mem_ok, chunk, write, zlen. intros Hm Hs Hl. pose proof (slot_bounds s Hs). rewrite drop_app_length' by (rewrite length_take; lia). apply take_app_length'. lia.
Qed.

Lemma chunk_write_ne {A} (mem : list A) s s' l :
  mem_ok mem -> 0 <= s < numSlots -> 0 <= s' < numSlots -> s' <> s -> zlen l = cs -> chunk (write mem (s * cs) l) s' = chunk mem s'.
Proof.
  unfold mem_ok, chunk, write, zlen. intros Hm Hs Hs' Hne Hl. pose proof (slot_bounds s Hs). pose proof (slot_bounds s' Hs'). apply list_eq. intros i.
  destruct (decide (i < Z.to_nat cs)%nat) as [Hi|Hi]; [|by rewrite !lookup_take_ge by lia]. rewrite !lookup_take_lt, !lookup_drop by lia.
  assert (s' * cs + cs <= s * cs \/ s * cs + cs <= s' * cs) as [E|E] by nia.
  - rewrite lookup_app_l by (rewrite length_take; lia). by rewrite lookup_take_lt by lia.
  - rewrite app_assoc, lookup_app_r by (rewrite length_app, length_take; lia). rewrite lookup_drop, length_app, length_take. f_equal. lia.
Qed.

(** The slot [s] holds the values of [f]. *)
Definition slot_holds {A} (mem : list A) (s : Z) (f : Z -> A) : Prop := rows (chunk mem s) f.

Lemma holds_write {A} (mem : list A) s l f : mem_ok mem -> 0 <= s < numSlots -> rows l f -> mem_ok (write mem (s * cs) l) /\ slot_holds (write mem (s * cs) l) s f.
Proof. intros Hm Hs Hl. pose proof Hl as [Hlen _]. split; [by apply write_ok|]. unfold slot_holds. by rewrite chunk_write. Qed.

Lemma holds_write_ne {A} (mem : list A) s s' l f :
  mem_ok mem -> 0 <= s < numSlots -> 0 <= s' < numSlots -> s' <> s -> zlen l = cs -> slot_holds mem s' f -> slot_holds (write mem (s * cs) l) s' f.
Proof. intros. unfold slot_holds. by rewrite chunk_write_ne. Qed.

(** The first row of a slot. *)
Lemma first_row {A} (mem : list A) s f : mem_ok mem -> 0 <= s < numSlots -> slot_holds mem s f -> index mem (s * cs) = Ok (f start).
Proof.
  intros Hm Hs [Hl Hf]. pose proof (slot_bounds s Hs). unfold mem_ok in Hm. destruct (index_Some mem (s * cs)) as (x & Hx); [lia|].
  rewrite (index_ok _ _ x) by (done || lia). f_equal. rewrite (Hf 0%nat x); [f_equal; lia|]. unfold chunk. rewrite lookup_take_lt by lia. rewrite lookup_drop, Nat.add_0_r. done.
Qed.

(** Only the slot [dst] may have changed. *)
Definition frame {A} (mem mem' : list A) (dst : Z) : Prop := forall s, 0 <= s < numSlots -> s <> dst -> chunk mem' s = chunk mem s.

Lemma frame_refl {A} (mem : list A) dst : frame mem mem dst.
Proof. done. Qed.

Lemma frame_trans {A} (m1 m2 m3 : list A) dst : frame m1 m2 dst -> frame m2 m3 dst -> frame m1 m3 dst.
Proof. intros H1 H2 s Hs Hne. by rewrite H2, H1. Qed.

Lemma frame_write {A} (mem : list A) dst l : mem_ok mem -> 0 <= dst < numSlots -> zlen l = cs -> frame mem (write mem (dst * cs) l) dst.
Proof. intros Hm Hd Hl s Hs Hne. by apply chunk_write_ne. Qed.

Lemma frame_holds {A} (mem mem' : list A) dst s f : frame mem mem' dst -> 0 <= s < numSlots -> s <> dst -> slot_holds mem s f -> slot_holds mem' s f.
Proof. intros Hf Hs Hne Hh. unfold slot_holds. by rewrite Hf. Qed.
End Rows.

(** ** Steps of the operations *)

Section StepFacts.
Context {R : Type} `{FieldLaws R} (scale : R -> Z -> R) (start cs : Z).
Context (Hscale : forall x k, scale x k = f_mul x (f_int64 k)).
Add Ring steps_ring : f_ring.

Definition first_of (op : operator) : Z -> list R -> list R := match op with linCombOp => lc_first scale | productOp => mul_operand end.
Definition next_of (op : operator) : Z -> list R -> list R -> list R := match op with linCombOp => lc_next scale | productOp => mul_next end.

Lemma first_of_ok op k l f : rows start cs l f -> rows start cs (first_of op k l) (fun r => term op (f r) k).
Proof.
  intros Hl. destruct op; cbn [first_of term]; unfold lc_first, mul_operand.
  - destruct (Z.eqb_spec k 0) as [->|]; [eapply rows_ext; [by apply (rows_const start cs l f f_zero)|]; intros; rewrite f_int64_0; ring|].
    destruct (Z.eqb_spec k 1) as [->|]; [eapply rows_ext; [exact Hl|]; intros; rewrite int64_1; ring|].
    destruct (Z.eqb_spec k 2) as [->|]; [eapply rows_ext; [by apply (rows_zip start cs f_add l l f f)|]; intros; cbn; rewrite int64_2; ring|].
    destruct (Z.eqb_spec k (-1)) as [->|].
    { eapply rows_ext; [apply (rows_zip start cs f_sub _ l (fun _ => f_zero) f); [by apply (rows_const start cs l f)|done]|]. intros; cbn; rewrite int64_m1; ring. }
    eapply rows_ext; [by apply (rows_fmap start cs (fun v => scale v k) l f)|]. intros; cbn. rewrite Hscale. ring.
  - destruct (Z.eqb_spec k 1) as [->|]; [eapply rows_ext; [exact Hl|]; intros; by rewrite exp_1|]. by apply (rows_fmap start cs (fun v => f_exp v k) l f).
Qed.

Lemma next_of_ok op k res l g f : rows start cs res g -> rows start cs l f -> rows start cs (next_of op k res l) (fun r => combine op (g r) (term op (f r) k)).
Proof.
  intros Hr Hl. destruct op; cbn [next_of term combine].
  - unfold lc_next. destruct (Z.eqb_spec k 0) as [->|]; [eapply rows_ext; [exact Hr|]; intros; rewrite f_int64_0; ring|].
    destruct (Z.eqb_spec k 1) as [->|]; [eapply rows_ext; [by apply (rows_zip start cs f_add res l g f)|]; intros; cbn; rewrite int64_1; ring|].
    destruct (Z.eqb_spec k 2) as [->|].
    { eapply rows_ext; [apply (rows_zip start cs f_add _ l (fun r => f_add (g r) (f r)) f); [by apply rows_zip|done]|]. intros; cbn; rewrite int64_2; ring. }
    destruct (Z.eqb_spec k (-1)) as [->|]; [eapply rows_ext; [by apply (rows_zip start cs f_sub res l g f)|]; intros; cbn; rewrite int64_m1; ring|].
    eapply rows_ext; [apply (rows_zip start cs f_add res _ g (fun r => scale (f r) k)); [done|by apply (rows_fmap start cs (fun v => scale v k) l f)]|]. intros; cbn. rewrite Hscale. ring.
  - apply (rows_zip start cs f_mul res _ g (fun r => f_exp (f r) k)); [done|]. exact (first_of_ok productOp k l f Hl).
Qed.
End StepFacts.

Lemma words_length (hd : list Z) (srcs ks : list Z) : length ks = length srcs -> zlen (hd ++ mjoin (zip_with (fun s k => [s; k]) srcs ks)) = zlen hd + 2 * zlen srcs.
Proof.
  intros Hk. unfold zlen. rewrite length_app, Nat2Z.inj_add. f_equal. revert ks Hk. induction srcs as [|s srcs IH]; intros [|k ks] Hk; try done. specialize (IH ks (eq_add_S _ _ Hk)).
  change (length (mjoin _)) with (S (S (length (mjoin (zip_with (fun s k => [s; k]) srcs ks))))). cbn [length]. lia.
Qed.

(** ** A chunk of a vector *)

Section Chunks.
Context {A : Type} `{FieldOps A} (start cs : Z) (Hcs : 0 < cs).
Implicit Types (v : SmartVector (F := A)) (l : list A).

Lemma sub_rows v l : sv_ok v -> 0 <= start -> start + cs <= Len v -> zlen l = cs ->
  exists l', (sb ← SubVector f_zero v start (start + cs); WriteInSlice sb l) = Ok l' /\ rows start cs l' (at_ f_zero v).
Proof.
  intros Hok Hst Hlen Hl. destruct (SubVector_ok f_zero v start (start + cs) Hok) as (v' & -> & Hok' & Hlen' & Hat'); [lia|lia|]. cbn [mbind outcome_bind].
  rewrite (WriteInSlice_values f_zero) by (done || lia). eexists. split; [reflexivity|]. apply (rows_nth start cs f_zero); [rewrite values_length; lia|].
  intros i Hi. rewrite values_nth by lia. by rewrite Hat' by lia.
Qed.

Lemma slice_rows (rv : list A) l : 0 <= start -> start + cs <= zlen rv -> zlen l = cs ->
  exists s, slice rv start (start + cs) = Ok s /\ rows start cs (copy l s) (at_ f_zero (SRegular rv)).
Proof.
  intros Hst Hlen Hl. unfold slice. replace (_ && _) with true by lia. eexists. split; [reflexivity|].
  set (s := take _ _). assert (zlen s = cs) as Hs by (unfold s, zlen in *; rewrite length_take, length_drop; lia).
  assert (copy l s = s) as -> by (unfold copy, zlen in *; rewrite take_ge, drop_ge, app_nil_r by lia; done).
  split; [done|]. intros j x Hj. cbn [at_]. unfold nthZ. symmetry. apply nth_lookup_Some.
  unfold s in Hj. apply lookup_take_Some in Hj as [Hj _]. rewrite lookup_drop in Hj. rewrite <- Hj. f_equal. lia.
Qed.

Lemma rotated_rows (rv : Rotated (F := A)) l : sv_ok (SRotated rv) -> 0 <= start -> start + cs <= zlen (r_v rv) -> zlen l = cs ->
  exists w, copySubVector (r_v rv) (r_offset rv) start (start + cs) l = Ok w /\ rows start cs w (at_ f_zero (SRotated rv)).
Proof.
  intros [Hok Ho] Hst Hlen Hl. cbn [Len] in Hok. destruct (copySubVector_ok f_zero (r_v rv) (r_offset rv) start (start + cs) l) as (w & E & Hw & Hn); [lia..|].
  exists w. split; [done|]. apply (rows_nth start cs f_zero); [lia|]. intros i Hi. cbn [at_]. by apply Hn; lia.
Qed.
End Chunks.

(** ** Operators on rows *)

Section RowSem.
Context {F : Type} `{ExtOps F} {R : Type} `{FieldOps R} (cst : E4 F -> R) (rho : Z -> Metadata -> R) (start cs : Z).

(** What the instructions need of the operands: a combination has some, and the point of
    a polynomial is the same at all rows. *)
Definition op_shape (op : Operator F) (cvs : list (Z -> R)) : Prop :=
  match op with
  | OConstant _ | OVariable _ => cvs = []
  | OLinComb ks | OProduct ks => length ks = length cvs /\ cvs <> []
  | OPolyEval => exists x cs', cvs = x :: cs' /\ cs' <> [] /\ forall r, start <= r < start + cs -> x r = x start
  end.

Definition row_sem (op : Operator F) (cvs : list (Z -> R)) (v : Z -> R) : Prop :=
  op_shape op cvs /\ forall r, start <= r < start + cs -> v r = apply_op cst (rho r) op ((fun f => f r) <$> cvs).

(** Sums and products at a row. *)
Definition comb (op : operator) (cvs : list (Z -> R)) (ks : list Z) (r : Z) : R :=
  foldr (combine op) (unit_ op) (zip_with (term op) ((fun f => f r) <$> cvs) ks).
End RowSem.

Section BaseMachine.
Context {F : Type} `{ExtLaws F} (b : ExpressionBoard F) (inputs : list (avec F)) (rho : Z -> Metadata -> F).
Context (metas : list Metadata) (start cs : Z) (Hcs : 0 < cs).
Local Abbreviation code := (Bytecode b).
Local Abbreviation numSlots := (NumSlots b).
Add Ring base_machine_ring : (@f_ring F _ _).

Context (Hinputs : forall k m, index metas k = Ok m ->
  exists v, index inputs k = Ok (VBase v) /\ sv_ok v /\ 0 <= start /\ start + cs <= Len v /\ forall r, start <= r < start + cs -> at_ f_zero v r = rho r m).

Instance base_machine : Machine F (list F) (Z -> F) := {
  m_step op pc dst mem := base_instr b cs inputs start (start + cs) op pc dst mem;
  m_ok mem := mem_ok cs numSlots mem;
  m_holds mem s f := slot_holds start cs mem s f;
  m_sem op cvs v := row_sem B0_A0 rho start cs op cvs v
}.

(** The slots of the operands. *)
Definition sources_ok (dst : Z) (srcs : list Z) : Prop := Forall (fun s => 0 <= s < numSlots /\ s <> dst) srcs.

(** An operation that writes the slot [dst]. *)
Definition writes (mem : list F) (dst : Z) (mem' : list F) (f : Z -> F) : Prop :=
  mem_ok cs numSlots mem' /\ slot_holds start cs mem' dst f /\ frame cs numSlots mem mem' dst.

Lemma write_writes mem dst l f : mem_ok cs numSlots mem -> 0 <= dst < numSlots -> rows start cs l f -> writes mem dst (write mem (dst * cs) l) f.
Proof.
  intros Hm Hd Hl. destruct (holds_write start cs Hcs numSlots mem dst l f Hm Hd Hl). split_and!; [done|done|]. apply frame_write; [done..|by destruct Hl].
Qed.

Lemma writes_trans mem mem1 mem2 dst f g : writes mem dst mem1 f -> writes mem1 dst mem2 g -> writes mem dst mem2 g.
Proof. intros (? & ? & ?) (? & ? & ?). split_and!; try done. by eapply frame_trans. Qed.

Lemma holds_frame {A} (mem mem' : list A) dst srcs (cvs : list (Z -> A)) :
  frame cs numSlots mem mem' dst -> sources_ok dst srcs -> Forall2 (slot_holds start cs mem) srcs cvs -> Forall2 (slot_holds start cs mem') srcs cvs.
Proof.
  intros Hf Hs Hh. induction Hh as [|s f srcs cvs Hh _ IH]; [constructor|]. apply Forall_cons in Hs as [[Hs1 Hs2] Hs]. constructor; [|by apply IH]. by eapply frame_holds.
Qed.

(** The operands after the first one. *)
Lemma base_fold_next op mem dst srcs ks cvs pc g :
  mem_ok cs numSlots mem -> 0 <= dst < numSlots -> sources_ok dst srcs -> Forall2 (slot_holds start cs mem) srcs cvs -> length ks = length srcs ->
  code_at code pc (mjoin (zip_with (fun s k => [s; k]) srcs ks)) -> slot_holds start cs mem dst g ->
  exists mem', base_fold b cs (first_of scale_base op) (next_of scale_base op) cs (dst * cs) (length srcs) false pc mem = Ok (mem', pc + 2 * zlen srcs) /\
    writes mem dst mem' (fun r => combine op (g r) (comb op cvs ks r)).
Proof.
  intros Hm Hd Hs Hh. revert mem ks cvs pc g Hm Hh. induction Hs as [|s srcs [Hs1 Hs2] Hs IH]; intros mem ks cvs pc g Hm Hh Hk Hc Hg; inversion Hh as [|? f ? cvs' Hf Hh']; subst; destruct ks as [|k ks]; try done.
  { exists mem. split; [unfold zlen; cbn; do 2 f_equal; lia|]. split_and!; [done| |apply frame_refl]. eapply rows_ext; [exact Hg|]. intros. cbn. by rewrite combine_unit_r. }
  cbn [zip_with mjoin list_join] in Hc. pose proof Hc as [E1 [E2 _]%code_at_cons]%code_at_cons. cbn [length base_fold]. rewrite E1, E2. cbn [mbind outcome_bind]. rewrite !(view_ok cs Hcs numSlots) by done. cbn [mbind outcome_bind].
  pose proof (next_of_ok scale_base start cs (fun _ _ => eq_refl) op k _ _ g f Hg Hf) as Hr. pose proof (write_writes mem dst _ _ Hm Hd Hr) as Hw. set (mem1 := write mem (dst * cs) _) in *.
  destruct Hw as (Hm1 & Hg1 & Hf1). destruct (IH mem1 ks cvs' (pc + 2) (fun r => combine op (g r) (term op (f r) k)) Hm1 (holds_frame _ _ _ _ _ Hf1 Hs Hh') (eq_add_S _ _ Hk)) as (mem' & E & Hw');
    [apply (code_at_app code pc [s; k]); exact Hc|exact Hg1|].
  exists mem'. split; [rewrite E; unfold zlen; cbn [length]; do 2 f_equal; lia|]. eapply writes_trans; [split_and!; [exact Hm1|exact Hg1|exact Hf1]|].
  destruct Hw' as (? & Hh2 & ?). split_and!; try done. eapply rows_ext; [exact Hh2|]. intros r _. cbn. by rewrite combine_assoc.
Qed.

Lemma base_fold_ok op mem dst srcs ks cvs pc :
  mem_ok cs numSlots mem -> 0 <= dst < numSlots -> sources_ok dst srcs -> Forall2 (slot_holds start cs mem) srcs cvs -> length ks = length srcs -> srcs <> [] ->
  code_at code pc (mjoin (zip_with (fun s k => [s; k]) srcs ks)) ->
  exists mem', base_fold b cs (first_of scale_base op) (next_of scale_base op) cs (dst * cs) (length srcs) true pc mem = Ok (mem', pc + 2 * zlen srcs) /\
    writes mem dst mem' (comb op cvs ks).
Proof.
  intros Hm Hd Hs Hh Hk Hne Hc. destruct Hs as [|s srcs [Hs1 Hs2] Hs]; [done|]. inversion Hh as [|? f ? cvs' Hf Hh']; subst. destruct ks as [|k ks]; [done|].
  cbn [zip_with mjoin list_join] in Hc. pose proof Hc as [E1 [E2 _]%code_at_cons]%code_at_cons. cbn [length base_fold]. rewrite E1, E2. cbn [mbind outcome_bind]. rewrite !(view_ok cs Hcs numSlots) by done. cbn [mbind outcome_bind].
  pose proof (first_of_ok scale_base start cs (fun _ _ => eq_refl) op k _ f Hf) as Hr. pose proof (write_writes mem dst _ _ Hm Hd Hr) as Hw. set (mem1 := write mem (dst * cs) _) in *.
  destruct Hw as (Hm1 & Hg1 & Hf1). destruct (base_fold_next op mem1 dst srcs ks cvs' (pc + 2) (fun r => term op (f r) k) Hm1 Hd Hs (holds_frame _ _ _ _ _ Hf1 Hs Hh') (eq_add_S _ _ Hk)) as (mem' & E & Hw');
    [apply (code_at_app code pc [s; k]); exact Hc|exact Hg1|].
  exists mem'. split; [rewrite E; unfold zlen; cbn [length]; do 2 f_equal; lia|]. eapply writes_trans; [split_and!; [exact Hm1|exact Hg1|exact Hf1]|]. done.
Qed.
(** Horner's method from the coefficient number [m] on. *)
Lemma base_horner_ok mem dst srcs cvs srcStart (x : F) (m : nat) g :
  mem_ok cs numSlots mem -> 0 <= dst < numSlots -> sources_ok dst srcs -> Forall2 (slot_holds start cs mem) srcs cvs -> (m <= length srcs)%nat ->
  code_at code (srcStart + 1) srcs -> slot_holds start cs mem dst g ->
  exists mem', foldM (fun mem k =>
      srcSlot ← index code (srcStart + k);
      vTmp ← view mem (srcSlot * cs) cs;
      vRes ← view mem (dst * cs) cs;
      Ok (write mem (dst * cs) (zip_with f_add ((fun r => f_mul r x) <$> vRes) vTmp))) mem (reverse (range 1 (Z.of_nat (S m)))) = Ok mem' /\
    writes mem dst mem' (fun r => foldr (fun c res => f_add (f_mul res x) c) (g r) ((fun f => f r) <$> take m cvs)).
Proof.
  intros Hm Hd Hs Hh Hlen Hc. revert mem g Hm Hh. induction m as [|m IH]; intros mem g Hm Hh Hg.
  { exists mem. split; [done|]. split_and!; [done|done|apply frame_refl]. }
  assert (reverse (range 1 (Z.of_nat (S (S m)))) = (1 + Z.of_nat m) :: reverse (range 1 (Z.of_nat (S m)))) as ->.
  { unfold range. replace (Z.of_nat (S (S m)) - 1) with (Z.of_nat (S m)) by lia. rewrite seqZ_S, reverse_snoc. do 3 f_equal. lia. }
  destruct (lookup_lt_is_Some_2 srcs m) as (s & Hsm); [lia|]. destruct (lookup_lt_is_Some_2 cvs m) as (f & Hfm); [rewrite <- (Forall2_length _ _ _ Hh); lia|].
  pose proof (Forall2_lookup_lr _ _ _ _ _ _ Hh Hsm Hfm) as Hf. pose proof Hs as Hs0. unfold sources_ok in Hs0. rewrite Forall_lookup in Hs0. destruct (Hs0 m s Hsm) as [Hs1 Hs2].
  cbn [foldM]. replace (srcStart + (1 + Z.of_nat m)) with (srcStart + 1 + Z.of_nat m) by lia. rewrite (code_at_index _ _ _ _ _ Hc Hsm). cbn [mbind outcome_bind]. rewrite !(view_ok cs Hcs numSlots) by done. cbn [mbind outcome_bind].
  assert (rows start cs (zip_with f_add ((fun r => f_mul r x) <$> chunk cs mem dst) (chunk cs mem s)) (fun r => f_add (f_mul (g r) x) (f r))) as Hr
    by (apply (rows_zip start cs f_add _ _ (fun r => f_mul (g r) x) f); [by apply (rows_fmap start cs (fun r => f_mul r x))|exact Hf]).
  destruct (write_writes mem dst _ _ Hm Hd Hr) as (Hm1 & Hg1 & Hf1). destruct (IH ltac:(lia) _ _ Hm1 (holds_frame _ _ _ _ _ Hf1 Hs Hh) Hg1) as (mem' & E & Hw).
  exists mem'. split; [exact E|]. eapply writes_trans; [split_and!; [exact Hm1|exact Hg1|exact Hf1]|]. destruct Hw as (? & Hh2 & ?). split_and!; try done.
  eapply rows_ext; [exact Hh2|]. intros r _. cbn. rewrite (take_S_r _ _ _ Hfm), fmap_app, foldr_app. done.
Qed.

Lemma base_polyeval_ok mem dst srcs cvs pc x cs' :
  mem_ok cs numSlots mem -> 0 <= dst < numSlots -> sources_ok dst srcs -> Forall2 (slot_holds start cs mem) srcs cvs -> code_at code pc srcs ->
  cvs = x :: cs' -> cs' <> [] ->
  exists mem', base_polyeval b cs cs (dst * cs) pc (zlen srcs) mem = Ok mem' /\ writes mem dst mem' (fun r => Eval ((fun f => f r) <$> cs') (x start)).
Proof.
  intros Hm Hd Hs Hh Hc -> Hne. inversion Hh as [|sx ? ss ? Hx Hh']; subst. apply Forall_cons in Hs as [[Hx1 Hx2] Hs]. pose proof Hc as [E1 Hc']%code_at_cons.
  destruct (exists_last Hne) as (cl & f & ->). apply Forall2_app_inv_r in Hh' as (sl & sf & Hl & Hf & ->). inversion Hf as [|s ? ? ? Hf1 Hf2]; subst. inversion Hf2; subst. clear Hf Hf2.
  apply Forall_app in Hs as [Hsl Hsf]. apply Forall_cons in Hsf as [[Hs1 Hs2] _]. unfold base_polyeval. rewrite E1. cbn [mbind outcome_bind].
  rewrite (first_row start cs Hcs numSlots mem sx x) by done. cbn [mbind outcome_bind].
  assert (index code (pc + zlen (sx :: sl ++ [s]) - 1) = Ok s) as ->.
  { unfold zlen. cbn [length]. rewrite length_app. cbn. replace (pc + _ - 1) with (pc + 1 + Z.of_nat (length sl)) by lia. eapply code_at_index; [exact Hc'|]. by rewrite list_lookup_middle. }
  cbn [mbind outcome_bind]. rewrite (view_ok cs Hcs numSlots) by done. cbn [mbind outcome_bind].
  destruct (write_writes mem dst _ f Hm Hd Hf1) as (Hm1 & Hg1 & Hf1'). set (mem1 := write mem (dst * cs) _) in *.
  destruct (base_horner_ok mem1 dst sl cl pc (x start) (length sl) f Hm1 Hd Hsl (holds_frame _ _ _ _ _ Hf1' Hsl Hl)) as (mem' & E & Hw); [lia|by apply code_at_take in Hc'|exact Hg1|].
  exists mem'. split.
  - replace (zlen (sx :: sl ++ [s]) - 1) with (Z.of_nat (S (length sl))) by (unfold zlen; cbn [length]; rewrite length_app; cbn; lia). exact E.
  - eapply writes_trans; [split_and!; [exact Hm1|exact Hg1|exact Hf1']|]. destruct Hw as (? & Hh2 & ?). split_and!; try done. eapply rows_ext; [exact Hh2|]. intros r _. cbn.
    rewrite (Forall2_length _ _ _ Hl), take_ge by done. unfold Eval. rewrite fmap_app, foldr_app. cbn. f_equal. ring.
Qed.

Lemma chunk_of_input v (l : list F) m :
  sv_ok v -> 0 <= start -> start + cs <= Len v -> (forall r, start <= r < start + cs -> at_ f_zero v r = rho r m) -> zlen l = cs ->
  exists l', base_input start (start + cs) (VBase v) l = Ok l' /\ rows start cs l' (fun r => rho r m).
Proof.
  intros Hok Hst Hlen Hat Hl. destruct (sub_rows start cs Hcs v l Hok Hst Hlen Hl) as (l1 & E1 & Hr1).
  assert (exists l', base_input start (start + cs) (VBase v) l = Ok l' /\ rows start cs l' (at_ f_zero v)) as (l' & E & Hr).
  { destruct v as [c|rv|rv|p]; cbn [base_input]; try (by exists l1). destruct (slice_rows start cs Hcs rv l Hst Hlen Hl) as (s & -> & Hs). cbn [mbind outcome_bind]. by eexists. }
  exists l'. split; [done|]. by eapply rows_ext.
Qed.

(** The promise of the machine. *)
Instance base_machine_laws : MachineLaws F (list F) (Z -> F) code (Constants b) metas numSlots.
Proof.
  split. intros op dst srcs idx pc mem cvs v Hm Hc Hd Hs Hh [Hshape Hv] Hidx. cbn [m_step m_ok m_holds base_machine] in *.
  cut (exists mem' f, base_instr b cs inputs start (start + cs) (opcode op) (pc + 2) dst mem = Ok (mem', pc + zlen (node_words op dst srcs idx)) /\
    writes mem dst mem' f /\ forall r, start <= r < start + cs -> f r = apply_op B0_A0 (rho r) op ((fun f => f r) <$> cvs)).
  { intros (mem' & f & E & (? & Hf & Hfr) & Hfv). exists mem'. split_and!; [exact E|done| |].
    - eapply rows_ext; [exact Hf|]. intros r Hr. by rewrite Hfv, Hv.
    - intros s w Hs' Hne Hw. by eapply frame_holds. }
  clear Hv v. unfold base_instr. replace (start + cs - start) with cs by lia. rewrite (view_ok cs Hcs numSlots) by done. cbn [mbind outcome_bind].
  assert (zlen (chunk cs mem dst) = cs) as Hlen by (by apply (chunk_length cs Hcs numSlots)).
  assert (length srcs = length cvs) as Hlc by (by eapply Forall2_length).
  destruct op as [g|m|ks|ks|]; cbn [opcode node_words op_shape idx_ok] in *; pose proof Hc as [_ [_ Hc']%code_at_cons]%code_at_cons;
    replace (pc + 1 + 1) with (pc + 2) in Hc' by lia; apply code_at_cons in Hc' as [E1 Hc']; rewrite E1; replace (pc + 2 + 1) with (pc + 3) in * by lia.
  - (* constant *) unfold opLoadConst at 1 2. cbn [Z.eqb mbind outcome_bind]. rewrite Hidx. cbn [mbind outcome_bind]. eexists _, (fun _ => B0_A0 (GetExt g)). split_and!; [do 2 f_equal; unfold zlen; cbn; lia| |done].
    apply write_writes; [done|done|]. split; [by rewrite zlen_fmap|]. intros j x. rewrite list_lookup_fmap. by intros (? & _ & ->)%fmap_Some.
  - (* variable *) destruct (Hinputs idx m Hidx) as (v & Ev & Hok & H0' & Hl & Hat). cbn [Z.eqb mbind outcome_bind opLoadInput opLoadConst]. rewrite Ev. cbn [mbind outcome_bind].
    destruct (chunk_of_input v (chunk cs mem dst) m Hok H0' Hl Hat Hlen) as (l' & -> & Hr). cbn [mbind outcome_bind]. eexists _, _. split_and!; [do 2 f_equal; unfold zlen; cbn; lia|by apply write_writes|done].
  - (* sum *) destruct Hshape as [Hk Hne]. cbn [Z.eqb mbind outcome_bind opLinComb opMul opLoadInput opLoadConst]. replace (Z.to_nat (zlen srcs)) with (length srcs) by (unfold zlen; lia).
    destruct (base_fold_ok linCombOp mem dst srcs ks cvs (pc + 3) Hm Hd Hs Hh) as (mem' & E & Hw); [lia|intros ->; by destruct cvs|exact Hc'|].
    exists mem', (comb linCombOp cvs ks). split_and!; [|done|done]. cbn [first_of next_of] in E. replace (pc + 2 + 1) with (pc + 3) by lia. rewrite E. do 2 f_equal. rewrite words_length by lia. unfold zlen. cbn [length]. lia.
  - (* product *) destruct Hshape as [Hk Hne]. cbn [Z.eqb mbind outcome_bind opLinComb opMul opLoadInput opLoadConst]. replace (Z.to_nat (zlen srcs)) with (length srcs) by (unfold zlen; lia).
    destruct (base_fold_ok productOp mem dst srcs ks cvs (pc + 3) Hm Hd Hs Hh) as (mem' & E & Hw); [lia|intros ->; by destruct cvs|exact Hc'|].
    exists mem', (comb productOp cvs ks). split_and!; [|done|done]. cbn [first_of next_of] in E. replace (pc + 2 + 1) with (pc + 3) by lia. rewrite E. do 2 f_equal. rewrite words_length by lia. unfold zlen. cbn [length]. lia.
  - (* polynomial *) destruct Hshape as (x & cs' & -> & Hne & Hx). cbn [Z.eqb mbind outcome_bind opLinComb opMul opLoadInput opLoadConst opPolyEval]. replace (pc + 2 + 1) with (pc + 3) by lia.
    destruct (base_polyeval_ok mem dst srcs (x :: cs') (pc + 3) x cs' Hm Hd Hs Hh Hc' eq_refl Hne) as (mem' & E & Hw). rewrite E. cbn [mbind outcome_bind].
    eexists mem', _. split_and!; [do 2 f_equal; unfold zlen; rewrite length_app; cbn [length]; lia|exact Hw|]. intros r Hr. cbn. by rewrite (Hx r Hr).
Qed.
(** The loop of the machine. *)
Lemma base_loop_vm fuel pc mem : base_loop b cs inputs fuel start (start + cs) pc mem = vm_loop code m_step fuel pc mem.
Proof.
  revert pc mem. induction fuel as [|fuel IH]; intros pc mem; [done|]. cbn [base_loop vm_loop m_step base_machine]. destruct (negb (pc <? zlen code)); [done|].
  destruct (index code pc) as [op|[]|]; [|done]. cbn [mbind outcome_bind]. destruct (index code (pc + 1)) as [dst|[]|]; [|done]. cbn [mbind outcome_bind].
  destruct (base_instr _ _ _ _ _ _ _ _ _) as [[mem' pc']|[]|]; [|done]. cbn [mbind outcome_bind]. apply IH.
Qed.
End BaseMachine.
