(* ===== verification/VmExtTheorems.v ===== *)
(** The machine for the extension field carries out the instructions of the compiler,
    wherever it keeps its slots. *)
From S2P Require Import Prelude SvIntervals SmartVectors SvSpec SvOps SvOpsTheorems FieldExt Symbolic SymSpec SymTheorems Board BoardTheorems BoardRun BoardVm VmTheorems.
From Stdlib Require Import ZifyBool Ring.

(** ** The base field in the extension *)

Section LiftFacts.
Context {F : Type} `{ExtLaws F}.
Add Ring lift_base_ring : (@f_ring F _ _).
Add Ring lift_ext_ring : (@f_ring (E4 F) _ _).

Lemma Lift_neg (x : F) : f_neg (Lift x) = Lift (f_neg x).
Proof.
  assert (f_add (Lift (f_neg x)) (Lift x) = @f_zero (E4 F) _) as E. { rewrite Lift_add, ext_zero. f_equal. ring. }
  transitivity (f_sub (f_add (Lift (f_neg x)) (Lift x)) (Lift x)); [rewrite E; ring|ring].
Qed.

Lemma Lift_sub (x y : F) : f_sub (Lift x) (Lift y) = Lift (f_sub x y).
Proof. transitivity (f_add (Lift x) (f_neg (Lift y))); [ring|]. rewrite Lift_neg, Lift_add. f_equal. ring. Qed.

Lemma Lift_term op (x : F) k : term op (Lift x) k = Lift (term op x k).
Proof. destruct op; cbn [term]; [by rewrite ext_int64, ext_mul|apply Lift_exp]. Qed.

Lemma Lift_combine op (x y : F) : combine op (Lift x) (Lift y) = Lift (combine op x y).
Proof. destruct op; cbn [combine]; [apply Lift_add|apply ext_mul]. Qed.

Lemma scale_ext_ok (x : E4 F) k : scale_ext x k = f_mul x (f_int64 k).
Proof. unfold scale_ext. by rewrite MulByElement_ok, ext_int64. Qed.

Lemma add_B0A0_ok (z : E4 F) x : add_B0A0 z x = f_add z (Lift x).
Proof. apply AddByBase_ok. Qed.

Lemma sub_B0A0_ok (z : E4 F) x : sub_B0A0 z x = f_sub z (Lift x).
Proof.
  transitivity (add_B0A0 z (f_neg x)); [unfold sub_B0A0, add_B0A0; f_equal; ring|]. rewrite add_B0A0_ok, <- Lift_neg. ring.
Qed.

Lemma lc_mixed_ok start cs k res l (g : Z -> E4 F) (f : Z -> F) :
  k <> 0 -> rows start cs res g -> rows start cs l f -> rows start cs (lc_mixed k res l) (fun r => combine linCombOp (g r) (term linCombOp (Lift (f r)) k)).
Proof.
  intros Hk Hr Hl. unfold lc_mixed. cbn [combine term].
  destruct (Z.eqb_spec k 1) as [->|]; [|destruct (Z.eqb_spec k 2) as [->|]; [|destruct (Z.eqb_spec k (-1)) as [->|]]];
    (eapply rows_ext; [apply (rows_zip start cs _ res l g f); [exact Hr|exact Hl]|]); intros r _; cbn beta; rewrite ?add_B0A0_ok, ?sub_B0A0_ok, ?int64_1, ?int64_2, ?int64_m1, <- ?ext_mul, <- ?ext_int64; ring.
Qed.

(** The powers of a point. *)
Lemma powers_lookup (m : nat) (p x : E4 F) i : (i < m)%nat -> powers_loop m p x !! i = Some (f_mul p (f_exp x (Z.of_nat i))).
Proof.
  revert p i. induction m as [|m IH]; intros p i Hi; [lia|]. cbn [powers_loop]. destruct i as [|i].
  - cbn. rewrite f_exp_0. f_equal. ring.
  - cbn [lookup list_lookup]. etransitivity; [apply (IH (f_mul p x) i); lia|]. f_equal. replace (Z.of_nat (S i)) with (Z.of_nat i + 1) by lia. rewrite f_exp_succ by lia. ring.
Qed.
End LiftFacts.

Section ExtMachine.
Context {F : Type} `{ExtLaws F} (b : ExpressionBoard F) (inputs : list (avec F)) (rho : Z -> Metadata -> E4 F).
Context (metas : list Metadata) (start cs : Z) (Hcs : 0 < cs).
Local Abbreviation code := (Bytecode b).
Local Abbreviation numSlots := (NumSlots b).
Add Ring ext_machine_ring : (@f_ring (E4 F) _ _).

(** ** The state *)

Definition vm_ok (vm : vmExt F) : Prop := mem_ok cs numSlots (memory vm) /\ mem_ok cs numSlots (baseMemory vm) /\ zlen (slotIsBase vm) = numSlots.

(** The values of a slot are in the memory that the flag names. *)
Definition vholds (vm : vmExt F) (s : Z) (fl : bool) (f : Z -> E4 F) : Prop :=
  if fl then exists g, slot_holds start cs (baseMemory vm) s g /\ forall r, start <= r < start + cs -> f r = Lift (g r)
  else slot_holds start cs (memory vm) s f.

Definition vframe (vm vm' : vmExt F) (dst : Z) : Prop :=
  frame cs numSlots (memory vm) (memory vm') dst /\ frame cs numSlots (baseMemory vm) (baseMemory vm') dst.

(** The slot [dst] is written, its flag not yet. *)
Definition ewrites (vm : vmExt F) (dst : Z) (vm' : vmExt F) (fl : bool) (f : Z -> E4 F) : Prop :=
  vm_ok vm' /\ slotIsBase vm' = slotIsBase vm /\ vholds vm' dst fl f /\ vframe vm vm' dst.

Definition eholds (vm : vmExt F) (s : Z) (v : bool * (Z -> E4 F)) : Prop := index (slotIsBase vm) s = Ok v.1 /\ vholds vm s v.1 v.2.

Lemma vholds_ext vm s fl f g : vholds vm s fl f -> (forall r, start <= r < start + cs -> f r = g r) -> vholds vm s fl g.
Proof.
  intros Hf E. destruct fl; cbn [vholds] in *; [|by eapply rows_ext].
  destruct Hf as (h & Hh & Hr). exists h. split; [done|]. intros r Hr'. rewrite <- E by done. by apply Hr.
Qed.

Lemma vframe_holds vm vm' dst s fl f : vframe vm vm' dst -> 0 <= s < numSlots -> s <> dst -> vholds vm s fl f -> vholds vm' s fl f.
Proof.
  intros [Hf1 Hf2] Hs Hne Hh. destruct fl; cbn [vholds] in *; [|by eapply frame_holds]. destruct Hh as (g & Hg & Hr). exists g. split; [by eapply frame_holds|done].
Qed.

Lemma write_base_ok vm dst l g f :
  vm_ok vm -> 0 <= dst < numSlots -> rows start cs l g -> (forall r, start <= r < start + cs -> f r = Lift (g r)) -> ewrites vm dst (write_base vm (dst * cs) l) true f.
Proof.
  intros (Hm & Hb & Hf) Hd Hl Hfg. destruct (holds_write start cs Hcs numSlots (baseMemory vm) dst l g Hb Hd Hl) as [Hok Hh].
  split_and!; try done; [by exists g|split; [done|]]. cbn. apply frame_write; [done..|by destruct Hl].
Qed.

Lemma write_ext_ok vm dst l f : vm_ok vm -> 0 <= dst < numSlots -> rows start cs l f -> ewrites vm dst (write_ext vm (dst * cs) l) false f.
Proof.
  intros (Hm & Hb & Hf) Hd Hl. destruct (holds_write start cs Hcs numSlots (memory vm) dst l f Hm Hd Hl) as [Hok Hh].
  split_and!; try done. split; [|done]. cbn. apply frame_write; [done..|by destruct Hl].
Qed.

Lemma ewrites_trans vm vm1 vm2 dst fl1 fl2 f g : ewrites vm dst vm1 fl1 f -> ewrites vm1 dst vm2 fl2 g -> ewrites vm dst vm2 fl2 g.
Proof.
  intros (? & E1 & ? & [? ?]) (? & E2 & ? & [? ?]). split_and!; try done; [by rewrite E2|]. split; by eapply frame_trans.
Qed.

Lemma ewrites_refl vm dst fl f : vm_ok vm -> vholds vm dst fl f -> ewrites vm dst vm fl f.
Proof. intros. split_and!; try done. Qed.

Lemma set_flag_ok (vm : vmExt F) s fl : zlen (slotIsBase vm) = numSlots -> 0 <= s < numSlots ->
  set_flag vm s fl = Ok (mkVmExt (memory vm) (baseMemory vm) (<[Z.to_nat s := fl]> (slotIsBase vm))).
Proof. intros Hl Hs. unfold set_flag. by rewrite set_index_insert by lia. Qed.

(** The flag is set last. *)
Definition fwrites (vm : vmExt F) (dst : Z) (vm' : vmExt F) (v : bool * (Z -> E4 F)) : Prop :=
  vm_ok vm' /\ eholds vm' dst v /\ forall s w, 0 <= s < numSlots -> s <> dst -> eholds vm s w -> eholds vm' s w.

Lemma finish_flag vm dst vm' fl f :
  ewrites vm dst vm' fl f -> 0 <= dst < numSlots -> exists vm2, set_flag vm' dst fl = Ok vm2 /\ fwrites vm dst vm2 (fl, f).
Proof.
  intros ((Hm & Hb & Hl) & Ef & Hh & Hfr) Hd. rewrite set_flag_ok by done. eexists. split; [reflexivity|]. split; [|split].
  - split; [done|]. split; [done|]. unfold zlen in *. cbn [slotIsBase]. by rewrite length_insert.
  - split; [|exact Hh]. cbn. apply index_ok; [lia|]. apply list_lookup_insert_eq. unfold zlen in Hl. lia.
  - intros s [fl' g] Hs Hne [H1' H2']. cbn [fst snd] in *. split; cbn [fst snd slotIsBase].
    + rewrite Ef in *. unfold index in *. replace (0 <=? s) with true in * by lia. by rewrite list_lookup_insert_ne by lia.
    + change (vholds vm' s fl' g). by eapply vframe_holds.
Qed.

(** The same when the flag is set first. *)
Lemma flag_first vm dst fl :
  vm_ok vm -> 0 <= dst < numSlots -> exists vm1, set_flag vm dst fl = Ok vm1 /\ vm_ok vm1 /\ memory vm1 = memory vm /\ baseMemory vm1 = baseMemory vm /\
    forall vm' f, ewrites vm1 dst vm' fl f -> fwrites vm dst vm' (fl, f).
Proof.
  intros (Hm & Hb & Hl) Hd. rewrite set_flag_ok by done. eexists. split; [reflexivity|]. split.
  { split; [done|]. split; [done|]. unfold zlen in *. cbn [slotIsBase]. by rewrite length_insert. }
  split; [done|]. split; [done|]. intros vm' f (Hok & Ef & Hh & Hfr). cbn [slotIsBase] in Ef. split; [done|]. split.
  - split; [|done]. cbn. rewrite Ef. apply index_ok; [lia|]. apply list_lookup_insert_eq. unfold zlen in Hl. lia.
  - intros s [fl' g] Hs Hne [H1' H2']. cbn [fst snd] in *. split; cbn [fst snd].
    + rewrite Ef. unfold index in *. replace (0 <=? s) with true in * by lia. by rewrite list_lookup_insert_ne by lia.
    + eapply (vframe_holds _ vm' dst); [exact Hfr|done|done|]. exact H2'.
Qed.
(** ** Sums and products *)

(** The flag of one term. *)
Definition flag1 (op : operator) (fl : bool) (k : Z) : bool := match op with linCombOp => fl || (k =? 0) | productOp => fl end.

Definition ext_step (op : operator) : Z -> Z -> Z -> Z -> bool -> vmExt F -> bool -> go (vmExt F * bool) :=
  match op with linCombOp => ext_lc_step cs | productOp => ext_mul_step cs end.

(** A base term of a base sum or product. *)
Lemma base_term op k (x : Z -> E4 F) (g : Z -> F) :
  (forall r, start <= r < start + cs -> x r = Lift (g r)) -> forall r, start <= r < start + cs -> term op (x r) k = Lift (term op (g r) k).
Proof. intros E r Hr. by rewrite E, Lift_term. Qed.

Lemma ext_first_ok op vm dst s k fl f rb :
  vm_ok vm -> 0 <= dst < numSlots -> 0 <= s < numSlots -> s <> dst -> eholds vm s (fl, f) ->
  exists vm', ext_step op cs (dst * cs) s k true vm rb = Ok (vm', flag1 op fl k) /\ ewrites vm dst vm' (flag1 op fl k) (fun r => term op (f r) k).
Proof.
  intros Hok Hd Hs Hne [Hfl Hh]. pose proof Hok as (Hm & Hb & _). cbn [fst snd] in *.
  assert (ext_step op cs (dst * cs) s k true vm rb =
    if fl then Ok (write_base vm (dst * cs) (first_of scale_base op k (chunk cs (baseMemory vm) s)), true)
    else match op with
         | linCombOp => if k =? 0 then Ok (write_base vm (dst * cs) ((fun _ => f_zero) <$> chunk cs (baseMemory vm) dst), true)
                        else Ok (write_ext vm (dst * cs) (first_of scale_ext op k (chunk cs (memory vm) s)), false)
         | productOp => Ok (write_ext vm (dst * cs) (first_of scale_ext op k (chunk cs (memory vm) s)), false)
         end) as ->.
  { destruct op; cbn [ext_step]; unfold ext_lc_step, ext_mul_step; rewrite Hfl; cbn [mbind outcome_bind]; rewrite !(view_ok cs Hcs numSlots) by done; cbn [mbind outcome_bind]; by destruct fl. }
  destruct fl; cbn [vholds] in Hh.
  - destruct Hh as (g & Hg & Hfg). replace (flag1 op true k) with true by (by destruct op). eexists. split; [reflexivity|].
    apply (write_base_ok vm dst _ (fun r => term op (g r) k)); [done|done|by apply first_of_ok|by apply base_term].
  - destruct op; cbn [flag1 orb]; [destruct (Z.eqb_spec k 0) as [->|Hk]|].
    + eexists. split; [reflexivity|]. apply (write_base_ok vm dst _ (fun _ => f_zero)); [done|done| |].
      * split; [rewrite zlen_fmap; by apply (chunk_length cs Hcs numSlots)|]. intros j x. rewrite list_lookup_fmap. by intros (? & _ & ->)%fmap_Some.
      * intros r _. rewrite term_0, <- ext_zero. done.
    + eexists. split; [reflexivity|]. apply write_ext_ok; [done|done|]. apply first_of_ok; [apply scale_ext_ok|done].
    + eexists. split; [reflexivity|]. apply write_ext_ok; [done|done|]. apply first_of_ok; [apply scale_ext_ok|done].
Qed.

Lemma scatter_ok vm dst g : vm_ok vm -> 0 <= dst < numSlots -> vholds vm dst true g ->
  exists vm', scatterBaseToExt vm (dst * cs) cs = Ok vm' /\ ewrites vm dst vm' false g.
Proof.
  intros Hok Hd (h & Hh & Hg). pose proof Hok as (Hm & Hb & _). unfold scatterBaseToExt. rewrite !(view_ok cs Hcs numSlots) by done. cbn [mbind outcome_bind].
  eexists. split; [reflexivity|]. apply write_ext_ok; [done|done|]. eapply rows_ext; [by apply (rows_fmap start cs Lift _ h)|]. intros r Hr. by rewrite Hg.
Qed.

Lemma ext_mul_next_ok vm dst s k fl f rb g :
  vm_ok vm -> 0 <= dst < numSlots -> 0 <= s < numSlots -> s <> dst -> eholds vm s (fl, f) -> vholds vm dst rb g ->
  exists vm', ext_mul_step cs cs (dst * cs) s k false vm rb = Ok (vm', rb && fl) /\ ewrites vm dst vm' (rb && fl) (fun r => combine productOp (g r) (term productOp (f r) k)).
Proof.
  intros Hok Hd Hs Hne [Hfl Hh] Hg. pose proof Hok as (Hm & Hb & _). cbn [fst snd] in *. unfold ext_mul_step. rewrite Hfl. cbn [mbind outcome_bind]. rewrite !(view_ok cs Hcs numSlots) by done. cbn [mbind outcome_bind].
  destruct fl, rb; cbn [vholds andb] in *.
  - destruct Hh as (h & Hh & Hfh), Hg as (h' & Hh' & Hgh). eexists. split; [reflexivity|]. apply (write_base_ok vm dst _ (fun r => combine productOp (h' r) (term productOp (h r) k))); [done|done|by apply (next_of_ok scale_base start cs (fun _ _ => eq_refl) productOp)|].
    intros r Hr. by rewrite (base_term productOp k f h), Hgh, Lift_combine.
  - destruct Hh as (h & Hh & Hfh). eexists. split; [reflexivity|]. apply write_ext_ok; [done|done|].
    eapply rows_ext; [apply (rows_zip start cs MulByElement _ _ g (fun r => term productOp (h r) k)); [exact Hg|by apply (first_of_ok scale_base start cs (fun _ _ => eq_refl) productOp)]|].
    intros r Hr. cbn beta. by rewrite MulByElement_ok, (base_term productOp k f h).
  - destruct Hg as (h & Hh' & Hgh). eexists. split; [reflexivity|]. apply write_ext_ok; [done|done|].
    eapply rows_ext; [apply (rows_zip start cs MulByElement _ _ (fun r => term productOp (f r) k) h); [by apply (first_of_ok scale_ext start cs scale_ext_ok productOp)|exact Hh']|].
    intros r Hr. cbn beta. rewrite MulByElement_ok, Hgh by done. cbn [combine]. ring.
  - eexists. split; [reflexivity|]. apply write_ext_ok; [done|done|]. by apply (next_of_ok scale_ext start cs scale_ext_ok productOp).
Qed.

Lemma ext_lc_next_ok vm dst s k fl f rb g :
  vm_ok vm -> 0 <= dst < numSlots -> 0 <= s < numSlots -> s <> dst -> eholds vm s (fl, f) -> vholds vm dst rb g ->
  exists vm', ext_lc_step cs cs (dst * cs) s k false vm rb = Ok (vm', rb && (fl || (k =? 0))) /\
    ewrites vm dst vm' (rb && (fl || (k =? 0))) (fun r => combine linCombOp (g r) (term linCombOp (f r) k)).
Proof.
  intros Hok Hd Hs Hne [Hfl Hh] Hg. pose proof Hok as (Hm & Hb & _). cbn [fst snd] in *. unfold ext_lc_step. rewrite Hfl. cbn [mbind outcome_bind]. rewrite !(view_ok cs Hcs numSlots) by done. cbn [mbind outcome_bind].
  destruct (Z.eqb_spec k 0) as [->|Hk].
  { exists vm. rewrite orb_true_r, andb_true_r. split; [done|]. apply ewrites_refl; [done|]. eapply vholds_ext; [exact Hg|]. intros r _. by rewrite term_0, combine_unit_r. }
  rewrite orb_false_r. destruct fl; cbn [vholds] in Hh.
  - destruct Hh as (h & Hh & Hfh). destruct rb; cbn [andb vholds] in *.
    + destruct Hg as (h' & Hh' & Hgh). eexists. split; [reflexivity|]. apply (write_base_ok vm dst _ (fun r => combine linCombOp (h' r) (term linCombOp (h r) k))); [done|done|by apply (next_of_ok scale_base start cs (fun _ _ => eq_refl) linCombOp)|].
      intros r Hr. by rewrite (base_term linCombOp k f h), Hgh, Lift_combine.
    + eexists. split; [reflexivity|]. apply write_ext_ok; [done|done|]. eapply rows_ext; [by apply lc_mixed_ok with (f := h)|]. intros r Hr. cbn beta. by rewrite Hfh.
  - rewrite andb_false_r. assert (exists vm1, (if rb then scatterBaseToExt vm (dst * cs) cs else Ok vm) = Ok vm1 /\ ewrites vm dst vm1 false g) as (vm1 & -> & Hw).
    { destruct rb; [by apply scatter_ok|]. exists vm. split; [done|]. by apply ewrites_refl. }
    cbn [mbind outcome_bind]. pose proof Hw as (Hok1 & _ & Hg1 & Hfr). pose proof Hok1 as (Hm1 & _). rewrite (view_ok cs Hcs numSlots) by done. cbn [mbind outcome_bind].
    eexists. split; [reflexivity|]. eapply ewrites_trans; [exact Hw|]. apply write_ext_ok; [done|done|]. apply (next_of_ok scale_ext start cs scale_ext_ok linCombOp); [exact Hg1|].
    exact Hh.
Qed.

Lemma ext_next_ok op vm dst s k fl f rb g :
  vm_ok vm -> 0 <= dst < numSlots -> 0 <= s < numSlots -> s <> dst -> eholds vm s (fl, f) -> vholds vm dst rb g ->
  exists vm', ext_step op cs (dst * cs) s k false vm rb = Ok (vm', rb && flag1 op fl k) /\
    ewrites vm dst vm' (rb && flag1 op fl k) (fun r => combine op (g r) (term op (f r) k)).
Proof. destruct op; [apply ext_lc_next_ok|apply ext_mul_next_ok]. Qed.
(** The flag of the whole operation. *)
Definition flags_of (op : operator) (fls : list bool) (ks : list Z) : bool := forallb id (zip_with (flag1 op) fls ks).

Definition srcs_ok (dst : Z) (srcs : list Z) : Prop := Forall (fun s => 0 <= s < numSlots /\ s <> dst) srcs.

Lemma eholds_frame vm vm' dst srcs (cvs : list (bool * (Z -> E4 F))) fl f :
  ewrites vm dst vm' fl f -> srcs_ok dst srcs -> Forall2 (eholds vm) srcs cvs -> Forall2 (eholds vm') srcs cvs.
Proof.
  intros (_ & Ef & _ & Hfr) Hs Hh. induction Hh as [|s [fl' g] srcs cvs [H1' H2'] _ IH]; [constructor|]. apply Forall_cons in Hs as [[Hs1 Hs2] Hs]. constructor; [|by apply IH].
  cbn [fst snd] in *. split; cbn [fst snd]; [by rewrite Ef|by eapply vframe_holds].
Qed.

Lemma ext_fold_next op vm dst srcs ks (cvs : list (bool * (Z -> E4 F))) pc rb g :
  vm_ok vm -> 0 <= dst < numSlots -> srcs_ok dst srcs -> Forall2 (eholds vm) srcs cvs -> length ks = length srcs ->
  code_at code pc (mjoin (zip_with (fun s k => [s; k]) srcs ks)) -> vholds vm dst rb g ->
  exists vm', ext_fold b (ext_step op cs (dst * cs)) (length srcs) false pc vm rb = Ok (vm', rb && flags_of op cvs.*1 ks, pc + 2 * zlen srcs) /\
    ewrites vm dst vm' (rb && flags_of op cvs.*1 ks) (fun r => combine op (g r) (comb op cvs.*2 ks r)).
Proof.
  intros Hm Hd Hs Hh. revert vm ks cvs pc rb g Hm Hh. induction Hs as [|s srcs [Hs1 Hs2] Hs IH]; intros vm ks cvs pc rb g Hm Hh Hk Hc Hg; inversion Hh as [|? [fl f] ? cvs' Hf Hh']; subst; destruct ks as [|k ks]; try done.
  { exists vm. cbn [flags_of zip_with forallb fmap list_fmap]. rewrite andb_true_r. split; [unfold zlen; cbn; do 2 f_equal; lia|]. apply ewrites_refl; [done|].
    eapply vholds_ext; [exact Hg|]. intros. cbn. by rewrite combine_unit_r. }
  cbn [zip_with mjoin list_join] in Hc. pose proof Hc as [E1 [E2 _]%code_at_cons]%code_at_cons. cbn [length ext_fold]. rewrite E1, E2. cbn [mbind outcome_bind].
  destruct (ext_next_ok op vm dst s k fl f rb g Hm Hd Hs1 Hs2 Hf Hg) as (vm1 & -> & Hw). cbn [mbind outcome_bind]. pose proof Hw as (Hm1 & _ & Hg1 & _).
  destruct (IH vm1 ks cvs' (pc + 2) (rb && flag1 op fl k) (fun r => combine op (g r) (term op (f r) k)) Hm1 (eholds_frame _ _ _ _ _ _ _ Hw Hs Hh') (eq_add_S _ _ Hk)) as (vm' & E & Hw');
    [apply (code_at_app code pc [s; k]); exact Hc|exact Hg1|].
  cbn [fmap list_fmap fst snd flags_of zip_with forallb]. change (forallb id (zip_with (flag1 op) cvs'.*1 ks)) with (flags_of op cvs'.*1 ks). cbn [id]. rewrite andb_assoc.
  exists vm'. split; [rewrite E; unfold zlen; cbn [length]; do 2 f_equal; lia|]. eapply ewrites_trans; [exact Hw|].
  destruct Hw' as (? & ? & Hh2 & ?). split_and!; try done. eapply vholds_ext; [exact Hh2|]. intros r _. cbn. by rewrite combine_assoc.
Qed.

Lemma ext_fold_ok op vm dst srcs ks (cvs : list (bool * (Z -> E4 F))) pc :
  vm_ok vm -> 0 <= dst < numSlots -> srcs_ok dst srcs -> Forall2 (eholds vm) srcs cvs -> length ks = length srcs -> srcs <> [] ->
  code_at code pc (mjoin (zip_with (fun s k => [s; k]) srcs ks)) ->
  exists vm', ext_fold b (ext_step op cs (dst * cs)) (length srcs) true pc vm false = Ok (vm', flags_of op cvs.*1 ks, pc + 2 * zlen srcs) /\
    ewrites vm dst vm' (flags_of op cvs.*1 ks) (comb op cvs.*2 ks).
Proof.
  intros Hm Hd Hs Hh Hk Hne Hc. destruct Hs as [|s srcs [Hs1 Hs2] Hs]; [done|]. inversion Hh as [|? [fl f] ? cvs' Hf Hh']; subst. destruct ks as [|k ks]; [done|].
  cbn [zip_with mjoin list_join] in Hc. pose proof Hc as [E1 [E2 _]%code_at_cons]%code_at_cons. cbn [length ext_fold]. rewrite E1, E2. cbn [mbind outcome_bind].
  destruct (ext_first_ok op vm dst s k fl f false Hm Hd Hs1 Hs2 Hf) as (vm1 & -> & Hw). cbn [mbind outcome_bind]. pose proof Hw as (Hm1 & _ & Hg1 & _).
  destruct (ext_fold_next op vm1 dst srcs ks cvs' (pc + 2) (flag1 op fl k) (fun r => term op (f r) k) Hm1 Hd Hs (eholds_frame _ _ _ _ _ _ _ Hw Hs Hh') (eq_add_S _ _ Hk)) as (vm' & E & Hw');
    [apply (code_at_app code pc [s; k]); exact Hc|exact Hg1|].
  cbn [fmap list_fmap fst snd flags_of zip_with forallb]. change (forallb id (zip_with (flag1 op) cvs'.*1 ks)) with (flags_of op cvs'.*1 ks). cbn [id].
  exists vm'. split; [rewrite E; unfold zlen; cbn [length]; do 2 f_equal; lia|]. eapply ewrites_trans; [exact Hw|exact Hw'].
Qed.

(** The fast paths compute the same. *)
Definition fast_of (op : operator) : Z -> Z -> option (F -> F -> F) := match op with linCombOp => fast_lc | productOp => fast_mul end.

Lemma fast_of_ok op k0 k1 (f : F -> F -> F) : fast_of op k0 k1 = Some f ->
  forall x y : F, Lift (f x y) = combine op (term op (Lift x) k0) (combine op (term op (Lift y) k1) (unit_ op)) /\ flag1 op true k0 && (flag1 op true k1 && true) = true.
Proof.
  destruct op; cbn [fast_of combine term unit_ flag1]; unfold fast_lc, fast_mul; intros E x y.
  - destruct (Z.eqb_spec k0 1) as [->|]; [|done]. cbn [negb] in E. destruct (Z.eqb_spec k1 1) as [->|]; [|destruct (Z.eqb_spec k1 (-1)) as [->|]; [|done]]; injection E as <-; (split; [|done]).
    + rewrite <- Lift_add, int64_1. ring.
    + rewrite <- Lift_sub, int64_1, int64_m1. ring.
  - destruct (Z.eqb_spec k0 1) as [->|], (Z.eqb_spec k1 1) as [->|]; try done. injection E as <-. split; [|done]. rewrite <- ext_mul, !exp_1. ring.
Qed.

Lemma two_base_ok vm s0 e0 s1 e1 fl0 fl1 f0 f1 pc rest :
  code_at code pc (s0 :: e0 :: s1 :: e1 :: rest) -> eholds vm s0 (fl0, f0) -> eholds vm s1 (fl1, f1) ->
  two_base b pc vm = Ok (if fl0 && fl1 then Some (s0, e0, s1, e1) else None).
Proof.
  intros Hc [E0 _] [E1 _]. cbn [fst] in *. pose proof Hc as [H1' Hc1]%code_at_cons. pose proof Hc1 as [H2' Hc2]%code_at_cons. pose proof Hc2 as [H3' Hc3]%code_at_cons. pose proof Hc3 as [H4' _]%code_at_cons.
  replace (pc + 1 + 1) with (pc + 2) in * by lia. replace (pc + 2 + 1) with (pc + 3) in * by lia.
  unfold two_base. rewrite H1', H2', H3', H4'. cbn [mbind outcome_bind]. rewrite E0. cbn [mbind outcome_bind]. destruct fl0; [|done]. rewrite E1. cbn [mbind outcome_bind]. by destruct fl1.
Qed.

Lemma ext_nary_ok op vm dst srcs ks (cvs : list (bool * (Z -> E4 F))) pc :
  vm_ok vm -> 0 <= dst < numSlots -> srcs_ok dst srcs -> Forall2 (eholds vm) srcs cvs -> length ks = length srcs -> srcs <> [] ->
  code_at code pc (mjoin (zip_with (fun s k => [s; k]) srcs ks)) ->
  exists vm', ext_nary b cs (fast_of op) (ext_step op cs (dst * cs)) cs dst (dst * cs) (zlen srcs) pc vm = Ok (vm', pc + 2 * zlen srcs) /\
    fwrites vm dst vm' (flags_of op cvs.*1 ks, comb op cvs.*2 ks).
Proof.
  intros Hm Hd Hs Hh Hk Hne Hc. unfold ext_nary.
  assert (exists vm', ('(vm, resIsBase, pc) ← ext_fold b (ext_step op cs (dst * cs)) (Z.to_nat (zlen srcs)) true pc vm false; vm ← set_flag vm dst resIsBase; Ok (vm, pc)) = Ok (vm', pc + 2 * zlen srcs) /\
    fwrites vm dst vm' (flags_of op cvs.*1 ks, comb op cvs.*2 ks)) as Hslow.
  { replace (Z.to_nat (zlen srcs)) with (length srcs) by (unfold zlen; lia). destruct (ext_fold_ok op vm dst srcs ks cvs pc) as (vm1 & -> & Hw); try done. cbn [mbind outcome_bind].
    destruct (finish_flag vm dst vm1 _ _ Hw Hd) as (vm2 & -> & Hf). by exists vm2. }
  destruct (Z.eqb_spec (zlen srcs) 2) as [E2|_]; [|exact Hslow]. destruct srcs as [|s0 [|s1 [|]]]; try (unfold zlen in E2; cbn in E2; lia). destruct ks as [|k0 [|k1 [|]]]; try done.
  inversion Hh as [|? [fl0 f0] ? cvs1 H0' Hh1]; subst. inversion Hh1 as [|? [fl1 f1] ? cvs2 H1' Hh2]; subst. inversion Hh2; subst.
  rewrite (two_base_ok vm s0 k0 s1 k1 fl0 fl1 f0 f1 pc []) by done. cbn [mbind outcome_bind]. destruct (fl0 && fl1) eqn:Efl; [|exact Hslow]. destruct (fast_of op k0 k1) as [f|] eqn:Ef; [|exact Hslow].
  apply andb_true_iff in Efl as [-> ->]. clear Hslow. cbn [fmap option_fmap option_map]. apply Forall_cons in Hs as [[Hs0 _] [[Hs1 _] _]%Forall_cons]. pose proof Hm as (Hmm & Hb & Hlen).
  unfold fast_base. rewrite !(view_ok cs Hcs numSlots) by done. cbn [mbind outcome_bind]. destruct H0' as [_ (g0 & Hg0 & E0)], H1' as [_ (g1 & Hg1 & E1)]. cbn [fst snd] in *.
  assert (ewrites vm dst (write_base vm (dst * cs) (zip_with f (chunk cs (baseMemory vm) s0) (chunk cs (baseMemory vm) s1))) true (comb op [f0; f1] [k0; k1])) as Hw.
  { apply (write_base_ok vm dst _ (fun r => f (g0 r) (g1 r))); [done|done|by apply rows_zip|]. intros r Hr. cbn. rewrite E0, E1 by done. symmetry. by apply (fast_of_ok op k0 k1 f Ef). }
  destruct (finish_flag vm dst _ _ _ Hw Hd) as (vm2 & -> & Hf). exists vm2. split; [done|]. unfold flags_of. cbn [zip_with fmap list_fmap fst forallb id snd].
  destruct (fast_of_ok op k0 k1 f Ef (f_zero : F) (f_zero : F)) as [_ ->]. exact Hf.
Qed.
(** ** Polynomials *)

Lemma horner_mul_ok vm dst sx xfl fx rb g :
  vm_ok vm -> 0 <= dst < numSlots -> 0 <= sx < numSlots -> eholds vm sx (xfl, fx) -> vholds vm dst rb g ->
  exists vm', horner_mul cs (dst * cs) (sx * cs) xfl vm rb = Ok (vm', rb && xfl) /\ ewrites vm dst vm' (rb && xfl) (fun r => f_mul (g r) (fx start)).
Proof.
  intros Hok Hd Hsx [_ Hx] Hg. pose proof Hok as (Hm & Hb & _). cbn [fst snd] in *. unfold horner_mul. rewrite !(view_ok cs Hcs numSlots) by done. cbn [mbind outcome_bind].
  destruct xfl; cbn [vholds] in Hx.
  - destruct Hx as (gx & Hgx & Ex). rewrite (first_row start cs Hcs numSlots (baseMemory vm) sx gx) by done. cbn [mbind outcome_bind]. assert (fx start = Lift (gx start)) as E by (apply Ex; lia).
    destruct rb; cbn [vholds andb] in *.
    + destruct Hg as (h & Hh & Hgh). eexists. split; [reflexivity|]. apply (write_base_ok vm dst _ (fun r => f_mul (h r) (gx start))); [done|done|by apply (rows_fmap start cs (fun r => f_mul r (gx start)) _ h)|].
      intros r Hr. by rewrite Hgh, E, ext_mul.
    + eexists. split; [reflexivity|]. apply write_ext_ok; [done|done|]. eapply rows_ext; [apply (rows_fmap start cs (fun r => MulByElement r (gx start)) _ g); exact Hg|]. intros r _. cbn beta. by rewrite MulByElement_ok, E.
  - rewrite (first_row start cs Hcs numSlots (memory vm) sx fx) by done. cbn [mbind outcome_bind]. destruct rb; cbn [vholds andb] in *.
    + destruct Hg as (h & Hh & Hgh). eexists. split; [reflexivity|]. apply write_ext_ok; [done|done|]. eapply rows_ext; [apply (rows_fmap start cs (MulByElement (fx start)) _ h); exact Hh|].
      intros r Hr. cbn beta. rewrite MulByElement_ok, Hgh by done. ring.
    + eexists. split; [reflexivity|]. apply write_ext_ok; [done|done|]. by apply (rows_fmap start cs (fun r => f_mul r (fx start)) _ g).
Qed.

Lemma horner_add_ok vm dst s fl f rb g :
  vm_ok vm -> 0 <= dst < numSlots -> 0 <= s < numSlots -> s <> dst -> eholds vm s (fl, f) -> vholds vm dst rb g ->
  exists vm', horner_add cs cs (dst * cs) s vm rb = Ok (vm', rb && fl) /\ ewrites vm dst vm' (rb && fl) (fun r => f_add (g r) (f r)).
Proof.
  intros Hok Hd Hs Hne [Hfl Hh] Hg. pose proof Hok as (Hm & Hb & _). cbn [fst snd] in *. unfold horner_add. rewrite Hfl. cbn [mbind outcome_bind]. destruct fl; cbn [vholds] in Hh.
  - destruct Hh as (h & Hh & Hfh). rewrite !(view_ok cs Hcs numSlots) by done. cbn [mbind outcome_bind]. destruct rb; cbn [vholds andb] in *.
    + destruct Hg as (h' & Hh' & Hgh). eexists. split; [reflexivity|]. apply (write_base_ok vm dst _ (fun r => f_add (h' r) (h r))); [done|done|by apply rows_zip|]. intros r Hr. by rewrite Hgh, Hfh, Lift_add.
    + eexists. split; [reflexivity|]. apply write_ext_ok; [done|done|]. eapply rows_ext; [apply (rows_zip start cs add_B0A0 _ _ g h); done|]. intros r Hr. cbn beta. by rewrite add_B0A0_ok, Hfh.
  - rewrite andb_false_r. assert (exists vm1, (if rb then scatterBaseToExt vm (dst * cs) cs else Ok vm) = Ok vm1 /\ ewrites vm dst vm1 false g) as (vm1 & -> & Hw).
    { destruct rb; [by apply scatter_ok|]. exists vm. split; [done|]. by apply ewrites_refl. }
    cbn [mbind outcome_bind]. pose proof Hw as (Hok1 & _ & Hg1 & Hfr). pose proof Hok1 as (Hm1 & _). rewrite !(view_ok cs Hcs numSlots) by done. cbn [mbind outcome_bind].
    eexists. split; [reflexivity|]. eapply ewrites_trans; [exact Hw|]. apply write_ext_ok; [done|done|]. apply (rows_zip start cs f_add _ _ g f); [exact Hg1|].
    exact (vframe_holds vm vm1 dst s false f Hfr Hs Hne Hh).
Qed.

(** The flag after the coefficients [fls], from the last one on. *)
Definition hflag (xfl : bool) (rb : bool) (fls : list bool) : bool := foldr (fun fl acc => acc && xfl && fl) rb fls.

Lemma hflag_all xfl rb fls : fls <> [] -> hflag xfl rb fls = rb && xfl && forallb id fls.
Proof.
  intros Hne. destruct fls as [|fl fls]; [done|]. clear Hne. revert fl. induction fls as [|fl' fls IH]; intros fl; [cbn; by destruct rb, xfl, fl|].
  change (hflag xfl rb (fl :: fl' :: fls)) with (hflag xfl rb (fl' :: fls) && xfl && fl). rewrite IH. cbn [forallb id]. destruct rb, xfl, fl, fl', (forallb id fls); reflexivity.
Qed.

Lemma ext_horner_loop vm dst srcs (cvs : list (bool * (Z -> E4 F))) srcStart sx xfl fx (m : nat) rb g :
  vm_ok vm -> 0 <= dst < numSlots -> srcs_ok dst srcs -> Forall2 (eholds vm) srcs cvs -> (m <= length srcs)%nat ->
  0 <= sx < numSlots -> sx <> dst -> eholds vm sx (xfl, fx) -> code_at code (srcStart + 1) srcs -> vholds vm dst rb g ->
  exists vm', foldM (fun '(vm, resIsBase) k =>
      srcSlot ← index code (srcStart + k);
      '(vm, resIsBase) ← horner_mul cs (dst * cs) (sx * cs) xfl vm resIsBase;
      horner_add cs cs (dst * cs) srcSlot vm resIsBase) (vm, rb) (reverse (range 1 (Z.of_nat (S m)))) = Ok (vm', hflag xfl rb (take m cvs.*1)) /\
    ewrites vm dst vm' (hflag xfl rb (take m cvs.*1)) (fun r => foldr (fun c res => f_add (f_mul res (fx start)) c) (g r) ((fun f => f r) <$> take m cvs.*2)).
Proof.
  intros Hm Hd Hs Hh Hlen Hsx Hsxd Hx Hc. revert vm rb g Hm Hh Hx. induction m as [|m IH]; intros vm rb g Hm Hh Hx Hg.
  { exists vm. split; [done|]. by apply ewrites_refl. }
  assert (reverse (range 1 (Z.of_nat (S (S m)))) = (1 + Z.of_nat m) :: reverse (range 1 (Z.of_nat (S m)))) as ->.
  { unfold range. replace (Z.of_nat (S (S m)) - 1) with (Z.of_nat (S m)) by lia. rewrite seqZ_S, reverse_snoc. do 3 f_equal. lia. }
  destruct (lookup_lt_is_Some_2 srcs m) as (s & Hsm); [lia|]. destruct (lookup_lt_is_Some_2 cvs m) as ([fl f] & Hfm); [rewrite <- (Forall2_length _ _ _ Hh); lia|].
  pose proof (Forall2_lookup_lr _ _ _ _ _ _ Hh Hsm Hfm) as Hf. pose proof Hs as Hs0. unfold srcs_ok in Hs0. rewrite Forall_lookup in Hs0. destruct (Hs0 m s Hsm) as [Hs1 Hs2].
  cbn [foldM]. replace (srcStart + (1 + Z.of_nat m)) with (srcStart + 1 + Z.of_nat m) by lia. rewrite (code_at_index _ _ _ _ _ Hc Hsm). cbn [mbind outcome_bind].
  destruct (horner_mul_ok vm dst sx xfl fx rb g) as (vm1 & -> & Hw1); [done..|]. cbn [mbind outcome_bind]. pose proof Hw1 as (Hm1 & Ef1 & Hg1 & Hfr1).
  assert (Forall2 (eholds vm1) (sx :: srcs) ((xfl, fx) :: cvs)) as Hall1 by (eapply eholds_frame; [exact Hw1|by constructor|by constructor]).
  apply Forall2_cons in Hall1 as [Hx1 Hh1]. pose proof (Forall2_lookup_lr _ _ _ _ _ _ Hh1 Hsm Hfm) as Hf1.
  destruct (horner_add_ok vm1 dst s fl f (rb && xfl) _ Hm1 Hd Hs1 Hs2 Hf1 Hg1) as (vm2 & -> & Hw2). cbn [mbind outcome_bind]. pose proof Hw2 as (Hm2 & _ & Hg2 & _).
  assert (Forall2 (eholds vm2) (sx :: srcs) ((xfl, fx) :: cvs)) as Hall2 by (eapply eholds_frame; [exact Hw2|by constructor|by constructor]).
  apply Forall2_cons in Hall2 as [Hx2 Hh2]. destruct (IH ltac:(lia) vm2 _ _ Hm2 Hh2 Hx2 Hg2) as (vm' & E & Hw).
  assert (hflag xfl rb (take (S m) cvs.*1) = hflag xfl (rb && xfl && fl) (take m cvs.*1)) as ->
    by (rewrite (take_S_r _ _ fl) by (by rewrite list_lookup_fmap, Hfm); unfold hflag; by rewrite foldr_app).
  exists vm'. split; [exact E|]. eapply ewrites_trans; [exact Hw1|]. eapply ewrites_trans; [exact Hw2|]. destruct Hw as (? & ? & Hh3 & ?). split_and!; try done.
  eapply vholds_ext; [exact Hh3|]. intros r _. cbn. rewrite (take_S_r _ _ f) by (by rewrite list_lookup_fmap, Hfm). by rewrite fmap_app, foldr_app.
Qed.

Lemma all_coeffs_base_ok vm srcs (cvs : list (bool * (Z -> E4 F))) srcStart :
  Forall2 (eholds vm) srcs cvs -> code_at code (srcStart + 1) srcs -> all_coeffs_base b srcStart (1 + zlen srcs) vm = Ok (forallb id cvs.*1).
Proof.
  intros Hh Hc. unfold all_coeffs_base, range. replace (1 + zlen srcs - 1) with (zlen srcs) by lia.
  cut (forall k (all : bool), code_at code (srcStart + k) srcs -> foldM (fun (all : bool) k => if all then s ← index code (srcStart + k); index (slotIsBase vm) s else Ok false) all (seqZ k (zlen srcs)) = Ok (E := Empty_set) (all && forallb id cvs.*1)).
  { intros Hcut. rewrite (Hcut 1 true Hc). done. }
  clear Hc. induction Hh as [|s [fl f] srcs cvs [Hfl _] _ IH]; intros k all Hc; [cbn; by rewrite andb_true_r|].
  replace (zlen (s :: srcs)) with (Z.succ (zlen srcs)) by (unfold zlen; cbn [length]; lia). rewrite seqZ_cons by (unfold zlen; lia). rewrite Z.pred_succ.
  apply code_at_cons in Hc as [E Hc]. replace (srcStart + k + 1) with (srcStart + Z.succ k) in Hc by lia. cbn [foldM fmap list_fmap fst forallb id]. destruct all.
  - rewrite E. cbn [mbind outcome_bind]. cbn [fst] in Hfl. rewrite Hfl. cbn [mbind outcome_bind]. rewrite IH by done. done.
  - cbn [mbind outcome_bind]. by rewrite IH.
Qed.
(** The sum of powers, from the coefficient number [k] on. *)
Lemma power_loop_ok vm dst srcs (cvs : list (bool * (Z -> E4 F))) srcStart (x : E4 F) powers k g :
  vm_ok vm -> 0 <= dst < numSlots -> srcs_ok dst srcs -> Forall2 (eholds vm) srcs cvs -> Forall (fun fl => fl = true) cvs.*1 -> 1 <= k ->
  code_at code (srcStart + k) srcs -> (forall i, 0 <= i < zlen srcs -> index powers (k - 1 + i) = Ok (f_exp x (k - 1 + i))) -> vholds vm dst false g ->
  exists vm', foldM (fun vm k =>
      srcSlot ← index code (srcStart + k);
      bSrc ← view (baseMemory vm) (srcSlot * cs) cs;
      vRes ← view (memory vm) (dst * cs) cs;
      power ← index powers (k - 1);
      Ok (write_ext vm (dst * cs) (zip_with (fun r v => f_add r (MulByElement power v)) vRes bSrc))) vm (seqZ k (zlen srcs)) = Ok vm' /\
    ewrites vm dst vm' false (fun r => f_add (g r) (f_mul (f_exp x (k - 1)) (Eval ((fun f => f r) <$> cvs.*2) x))).
Proof.
  intros Hm Hd Hs Hh. revert vm cvs k g Hm Hh. induction Hs as [|s srcs [Hs1 Hs2] Hs IH]; intros vm cvs k g Hm Hh Hfls Hk Hc Hp Hg; inversion Hh as [|? [fl f] ? cvs' Hf Hh']; subst.
  { exists vm. split; [done|]. apply ewrites_refl; [done|]. eapply vholds_ext; [exact Hg|]. intros r _. cbn. ring. }
  apply Forall_cons in Hfls as [Hfl Hfls]. cbn [fst] in Hfl. subst fl. destruct Hf as [_ (h & Hh0 & Hfh)]. cbn [fst snd] in *.
  replace (zlen (s :: srcs)) with (Z.succ (zlen srcs)) in * by (unfold zlen; cbn [length]; lia). rewrite seqZ_cons by (unfold zlen; lia). rewrite Z.pred_succ.
  apply code_at_cons in Hc as [E Hc]. replace (srcStart + k + 1) with (srcStart + Z.succ k) in Hc by lia. cbn [foldM]. rewrite E. cbn [mbind outcome_bind]. pose proof Hm as (Hmm & Hb & _).
  rewrite !(view_ok cs Hcs numSlots) by done. cbn [mbind outcome_bind]. assert (index powers (k - 1) = Ok (f_exp x (k - 1))) as ->.
  { pose proof (Hp 0) as E0. rewrite Z.add_0_r in E0. apply E0. unfold zlen. lia. }
  cbn [mbind outcome_bind].
  assert (ewrites vm dst (write_ext vm (dst * cs) (zip_with (fun r v => f_add r (MulByElement (f_exp x (k - 1)) v)) (chunk cs (memory vm) dst) (chunk cs (baseMemory vm) s))) false
    (fun r => f_add (g r) (f_mul (f_exp x (k - 1)) (f r)))) as Hw.
  { apply write_ext_ok; [done|done|]. eapply rows_ext; [apply (rows_zip start cs (fun r v => f_add r (MulByElement (f_exp x (k - 1)) v)) _ _ g h); [exact Hg|exact Hh0]|].
    intros r Hr. cbn beta. by rewrite MulByElement_ok, Hfh. }
  pose proof Hw as (Hm1 & _ & Hg1 & _). destruct (IH _ cvs' (Z.succ k) (fun r => f_add (g r) (f_mul (f_exp x (k - 1)) (f r))) Hm1 (eholds_frame _ _ _ _ _ _ _ Hw Hs Hh') Hfls ltac:(lia) Hc) as (vm' & Ev & Hw');
    [intros i Hi; replace (Z.succ k - 1 + i) with (k - 1 + (i + 1)) by lia; apply Hp; lia|exact Hg1|].
  exists vm'. split; [exact Ev|]. eapply ewrites_trans; [exact Hw|]. destruct Hw' as (? & ? & Hh3 & ?). split_and!; try done. eapply vholds_ext; [exact Hh3|]. intros r _. cbn.
  replace (Z.succ k - 1) with (k - 1 + 1) by lia. rewrite f_exp_succ by lia. change (foldr _ f_zero ?l) with (Eval l x). ring.
Qed.

(** The flag of a polynomial. *)
Definition poly_flag (fls : list bool) : bool :=
  match fls with
  | [] => false
  | x :: cfls => match cfls with [c] => c | _ => x && forallb id cfls end
  end.

Lemma hflag_poly xfl fl fls : hflag xfl fl fls = poly_flag (xfl :: fls ++ [fl]).
Proof.
  destruct fls as [|c fls]; [done|]. rewrite hflag_all by done. cbn [poly_flag app]. destruct (fls ++ [fl]) as [|x l] eqn:El; [by destruct fls|]. rewrite <- El.
  cbn [forallb id]. rewrite forallb_app. cbn [forallb id]. destruct fl, xfl, c, (forallb id fls); reflexivity.
Qed.

Lemma ext_power_sum_ok vm dst srcs (cvs : list (bool * (Z -> E4 F))) sx fx pc :
  vm_ok vm -> 0 <= dst < numSlots -> srcs_ok dst (sx :: srcs) -> Forall2 (eholds vm) (sx :: srcs) ((false, fx) :: cvs) -> Forall (fun fl => fl = true) cvs.*1 -> srcs <> [] ->
  code_at code pc (sx :: srcs) ->
  exists vm', ext_power_sum b cs cs dst (dst * cs) (sx * cs) pc (zlen (sx :: srcs)) vm = Ok vm' /\ fwrites vm dst vm' (false, fun r => Eval ((fun f => f r) <$> cvs.*2) (fx start)).
Proof.
  intros Hm Hd Hs Hh Hfls Hne Hc. apply Forall_cons in Hs as [[Hx1 Hx2] Hs]. apply Forall2_cons in Hh as [[_ Hx] Hh]. cbn [fst snd vholds] in Hx. pose proof Hm as (Hmm & Hb & _).
  apply code_at_cons in Hc as [_ Hc]. destruct Hs as [|s1 srcs [Hs1 Hs2] Hs]; [done|]. inversion Hh as [|? [fl f] ? cvs' Hf Hh']; subst. apply Forall_cons in Hfls as [Hfl Hfls]. cbn [fst] in Hfl. subst fl.
  destruct Hf as [_ (h & Hh0 & Hfh)]. cbn [fst snd] in *. apply code_at_cons in Hc as [E1 Hc]. unfold ext_power_sum. rewrite (first_row start cs Hcs numSlots (memory vm) sx fx) by done. cbn [mbind outcome_bind].
  rewrite E1. cbn [mbind outcome_bind]. rewrite (view_ok cs Hcs numSlots) by done. cbn [mbind outcome_bind].
  assert (ewrites vm dst (write_ext vm (dst * cs) (Lift <$> chunk cs (baseMemory vm) s1)) false f) as Hw.
  { apply write_ext_ok; [done|done|]. eapply rows_ext; [by apply (rows_fmap start cs Lift _ h)|]. intros r Hr. by rewrite Hfh. }
  pose proof Hw as (Hm1 & _ & Hg1 & _). replace (zlen (sx :: s1 :: srcs)) with (2 + zlen srcs) by (unfold zlen; cbn [length]; lia). unfold range. replace (2 + zlen srcs - 2) with (zlen srcs) by lia.
  set (powers := powers_loop _ _ _). destruct (power_loop_ok _ dst srcs cvs' pc (fx start) powers 2 f Hm1 Hd Hs (eholds_frame _ _ _ _ _ _ _ Hw Hs Hh') Hfls) as (vm' & -> & Hw'); [lia| | |exact Hg1|].
  - by replace (pc + 1 + 1) with (pc + 2) in Hc by lia.
  - intros i Hi. apply index_ok; [lia|]. unfold powers. rewrite powers_lookup by (unfold zlen in *; lia). f_equal. rewrite Z2Nat.id by lia. ring.
  - cbn [mbind outcome_bind]. assert (ewrites vm dst vm' false (fun r => Eval ((fun f => f r) <$> (f :: cvs'.*2)) (fx start))) as Hfin.
    { eapply ewrites_trans; [exact Hw|]. destruct Hw' as (? & ? & Hh3 & ?). split_and!; try done. eapply vholds_ext; [exact Hh3|]. intros r _. cbn. change (2 - 1) with 1. rewrite exp_1.
      change (foldr _ f_zero ?l) with (Eval l (fx start)). ring. }
    destruct (finish_flag vm dst vm' _ _ Hfin Hd) as (vm2 & -> & Hf). by exists vm2.
Qed.

Lemma ext_horner_ok vm dst srcs (cvs : list (bool * (Z -> E4 F))) sx xfl fx pc :
  vm_ok vm -> 0 <= dst < numSlots -> srcs_ok dst (sx :: srcs) -> Forall2 (eholds vm) (sx :: srcs) ((xfl, fx) :: cvs) -> srcs <> [] -> code_at code pc (sx :: srcs) ->
  exists vm', ext_horner b cs cs dst (dst * cs) (sx * cs) pc (zlen (sx :: srcs)) xfl vm = Ok vm' /\ fwrites vm dst vm' (poly_flag (xfl :: cvs.*1), fun r => Eval ((fun f => f r) <$> cvs.*2) (fx start)).
Proof.
  intros Hm Hd Hs Hh Hne Hc. apply Forall_cons in Hs as [[Hx1 Hx2] Hs]. apply Forall2_cons in Hh as [Hx Hh]. pose proof Hm as (Hmm & Hb & _).
  apply code_at_cons in Hc as [_ Hc]. destruct (exists_last Hne) as (sl & s & ->). apply Forall2_app_inv_l in Hh as (cl & cf & Hl & Hf & ->). inversion Hf as [|? [fl f] ? ? Hf1 Hf2]; subst. inversion Hf2; subst. clear Hf Hf2.
  apply Forall_app in Hs as [Hsl Hsf]. apply Forall_cons in Hsf as [[Hs1 Hs2] _]. unfold ext_horner.
  assert (index code (pc + zlen (sx :: sl ++ [s]) - 1) = Ok s) as ->.
  { unfold zlen. cbn [length]. rewrite length_app. cbn. replace (pc + _ - 1) with (pc + 1 + Z.of_nat (length sl)) by lia. eapply code_at_index; [exact Hc|]. by rewrite list_lookup_middle. }
  cbn [mbind outcome_bind]. pose proof Hf1 as [Hfl Hh1]. cbn [fst snd] in *. rewrite Hfl. cbn [mbind outcome_bind]. rewrite !(view_ok cs Hcs numSlots) by done. cbn [mbind outcome_bind].
  assert (exists vm1, (if fl then Ok (write_base vm (dst * cs) (chunk cs (baseMemory vm) s)) else Ok (write_ext vm (dst * cs) (chunk cs (memory vm) s))) = Ok (E := Empty_set) vm1 /\ ewrites vm dst vm1 fl f) as (vm1 & -> & Hw).
  { destruct fl; cbn [vholds] in Hh1; eexists; (split; [reflexivity|]).
    - destruct Hh1 as (h & Hh & Hfh). by apply (write_base_ok vm dst _ h).
    - by apply write_ext_ok. }
  cbn [mbind outcome_bind]. pose proof Hw as (Hm1 & _ & Hg1 & _).
  assert (Forall2 (eholds vm1) (sx :: sl) ((xfl, fx) :: cl)) as Hall by (eapply eholds_frame; [exact Hw|by constructor|by constructor]). apply Forall2_cons in Hall as [Hx' Hl'].
  destruct (ext_horner_loop vm1 dst sl cl pc sx xfl fx (length sl) fl f Hm1 Hd Hsl Hl') as (vm' & E & Hw'); [lia|done|done|exact Hx'|by apply code_at_take in Hc|exact Hg1|].
  replace (zlen (sx :: sl ++ [s]) - 1) with (Z.of_nat (S (length sl))) by (unfold zlen; cbn [length]; rewrite length_app; cbn; lia). rewrite E. cbn [mbind outcome_bind].
  rewrite !take_ge in * by (rewrite length_fmap, (Forall2_length _ _ _ Hl); lia). rewrite hflag_poly in *.
  assert (ewrites vm dst vm' (poly_flag (xfl :: cl.*1 ++ [fl])) (fun r => Eval ((fun f => f r) <$> cl.*2 ++ [f]) (fx start))) as Hfin.
  { eapply ewrites_trans; [exact Hw|]. destruct Hw' as (? & ? & Hh3 & ?). split_and!; try done.
    eapply vholds_ext; [exact Hh3|]. intros r _. unfold Eval. rewrite !fmap_app, foldr_app. cbn. f_equal. ring. }
  destruct (finish_flag vm dst vm' _ _ Hfin Hd) as (vm2 & -> & Hf). exists vm2. split; [done|]. rewrite !(fmap_app _ cl). exact Hf.
Qed.
Lemma ext_polyeval_ok vm dst srcs (cvs : list (bool * (Z -> E4 F))) sx xfl fx pc :
  vm_ok vm -> 0 <= dst < numSlots -> srcs_ok dst (sx :: srcs) -> Forall2 (eholds vm) (sx :: srcs) ((xfl, fx) :: cvs) -> srcs <> [] -> code_at code pc (sx :: srcs) ->
  exists vm', ext_polyeval b cs cs dst (dst * cs) pc (zlen (sx :: srcs)) vm = Ok vm' /\ fwrites vm dst vm' (poly_flag (xfl :: cvs.*1), fun r => Eval ((fun f => f r) <$> cvs.*2) (fx start)).
Proof.
  intros Hm Hd Hs Hh Hne Hc. pose proof Hc as [E1 Hc']%code_at_cons. pose proof Hh as [[Hx _] Hh']%Forall2_cons. cbn [fst] in Hx. unfold ext_polyeval. rewrite E1. cbn [mbind outcome_bind]. rewrite Hx. cbn [mbind outcome_bind].
  pose proof (ext_horner_ok vm dst srcs cvs sx xfl fx pc Hm Hd Hs Hh Hne Hc) as Hslow. destruct xfl; [exact Hslow|].
  replace (zlen (sx :: srcs)) with (1 + zlen srcs) in * by (unfold zlen; cbn [length]; lia). rewrite (all_coeffs_base_ok vm srcs cvs pc Hh' Hc'). cbn [mbind outcome_bind].
  destruct (forallb id cvs.*1) eqn:Efl; [|exact Hslow]. destruct (Z.ltb_spec 2 (1 + zlen srcs)) as [Hlt|]; [|exact Hslow]. clear Hslow. cbn [andb].
  destruct (ext_power_sum_ok vm dst srcs cvs sx fx pc Hm Hd Hs Hh) as (vm' & E & Hw); [|done|done|].
  { apply Forall_forall. intros fl Hin. rewrite forallb_forall in Efl. by apply Efl, list_elem_of_In. }
  replace (zlen (sx :: srcs)) with (1 + zlen srcs) in E by (unfold zlen; cbn [length]; lia). exists vm'. split; [exact E|].
  replace (poly_flag (false :: cvs.*1)) with false; [done|]. pose proof (Forall2_length _ _ _ Hh') as El. destruct cvs as [|c [|c' cvs]]; [done| |done]. unfold zlen in Hlt. cbn in El. lia.
Qed.

(** ** Inputs *)

Definition avec_at (v : avec F) (r : Z) : E4 F := match v with VBase v => Lift (at_ f_zero v r) | VExt v => at_ f_zero v r end.

Definition avec_ok (v : avec F) : Prop := match v with VBase v => sv_ok v | VExt v => sv_ok v end.

(** The memory that an input is put into. *)
Definition input_flag (v : avec F) : bool := match v with VBase _ => true | VExt (SConstant c) => IsBase (Value c) | VExt _ => false end.

(** The input is written to the memory of its flag. *)
Lemma base_write_ok vm dst l g v :
  vm_ok vm -> 0 <= dst < numSlots -> rows start cs l g -> (forall r, start <= r < start + cs -> avec_at v r = Lift (g r)) ->
  exists vm', (vm1 ← set_flag vm dst true; Ok (write_base vm1 (dst * cs) l)) = Ok vm' /\ fwrites vm dst vm' (true, avec_at v).
Proof.
  intros Hm Hd Hl Hg. destruct (flag_first vm dst true Hm Hd) as (vm1 & -> & Hok1 & _ & _ & Hfin). cbn [mbind outcome_bind]. eexists. split; [reflexivity|]. apply Hfin. by apply (write_base_ok vm1 dst l g).
Qed.

Lemma ext_write_ok vm dst l v :
  vm_ok vm -> 0 <= dst < numSlots -> rows start cs l (avec_at v) -> exists vm', (vm1 ← set_flag vm dst false; Ok (write_ext vm1 (dst * cs) l)) = Ok vm' /\ fwrites vm dst vm' (false, avec_at v).
Proof.
  intros Hm Hd Hl. destruct (flag_first vm dst false Hm Hd) as (vm1 & -> & Hok1 & _ & _ & Hfin). cbn [mbind outcome_bind]. eexists. split; [reflexivity|]. apply Hfin. by apply write_ext_ok.
Qed.

Lemma ext_input_ok vm dst v :
  vm_ok vm -> 0 <= dst < numSlots -> avec_ok v -> 0 <= start -> start + cs <= avec_Len v ->
  exists vm', ext_input start (start + cs) dst (dst * cs) v vm (chunk cs (memory vm) dst) (chunk cs (baseMemory vm) dst) = Ok vm' /\ fwrites vm dst vm' (input_flag v, avec_at v).
Proof.
  intros Hm Hd Hok Hst Hlen. pose proof Hm as (Hmm & Hb & _). pose proof (chunk_length cs Hcs numSlots (memory vm) dst Hmm Hd) as L1. pose proof (chunk_length cs Hcs numSlots (baseMemory vm) dst Hb Hd) as L2.
  assert (forall (A : Type) (l : list A) (c : F), zlen l = cs -> rows start cs ((fun _ => c) <$> l) (fun _ => c)) as Hconst.
  { intros A l c Hl. split; [by rewrite zlen_fmap|]. intros j x. rewrite list_lookup_fmap. by intros (? & _ & ->)%fmap_Some. }
  destruct v as [v|v]; cbn [avec_ok avec_Len] in *.
  - assert (forall l, rows start cs l (at_ f_zero v) -> exists vm', (vm1 ← set_flag vm dst true; Ok (write_base vm1 (dst * cs) l)) = Ok vm' /\ fwrites vm dst vm' (true, avec_at (VBase v))) as Hw.
    { intros l Hl. by apply (base_write_ok vm dst l (at_ f_zero v)). }
    destruct (sub_rows start cs Hcs v (chunk cs (baseMemory vm) dst) Hok Hst Hlen L2) as (l1 & E1 & Hr1).
    destruct v as [c|rv|rv|p]; cbn [ext_input input_flag Len] in *.
    + destruct (Hw _ (Hconst _ (chunk cs (baseMemory vm) dst) (Value c) L2)) as (vm' & E & Hf). by exists vm'.
    + destruct (slice_rows start cs Hcs rv (chunk cs (baseMemory vm) dst) Hst Hlen L2) as (s & -> & Hs). exact (Hw _ Hs).
    + destruct (rotated_rows start cs Hcs rv (chunk cs (baseMemory vm) dst) Hok Hst Hlen L2) as (w & -> & Hs). exact (Hw _ Hs).
    + destruct (Hw _ Hr1) as (vm' & E & Hf). exists vm'. split; [|done]. rewrite <- E. destruct (set_flag vm dst true) as [vm1|[]|]; [|done]. cbn [mbind outcome_bind] in *.
      destruct (SubVector f_zero (SWindow p) start (start + cs)) as [sb|[]|]; try done. cbn [mbind outcome_bind] in *. by rewrite E1.
  - assert (forall l, rows start cs l (at_ f_zero v) -> exists vm', (vm1 ← set_flag vm dst false; Ok (write_ext vm1 (dst * cs) l)) = Ok vm' /\ fwrites vm dst vm' (false, avec_at (VExt v))) as Hw.
    { intros l Hl. by apply (ext_write_ok vm dst l (VExt v)). }
    destruct (sub_rows start cs Hcs v (chunk cs (memory vm) dst) Hok Hst Hlen L1) as (l1 & E1 & Hr1).
    destruct v as [c|rv|rv|p]; cbn [ext_input input_flag Len] in *.
    + destruct (IsBase (Value c)) eqn:Ec.
      * destruct (base_write_ok vm dst _ _ (VExt (SConstant c)) Hm Hd (Hconst _ (chunk cs (baseMemory vm) dst) (B0_A0 (Value c)) L2)) as (vm' & E & Hf); [intros r _; by apply IsBase_inv|]. by exists vm'.
      * destruct (Hw ((fun _ => Value c) <$> chunk cs (memory vm) dst)) as (vm' & E & Hf); [|by exists vm'].
        split; [by rewrite zlen_fmap|]. intros j x. rewrite list_lookup_fmap. by intros (? & _ & ->)%fmap_Some.
    + destruct (slice_rows start cs Hcs rv (chunk cs (memory vm) dst) Hst Hlen L1) as (s & -> & Hs). exact (Hw _ Hs).
    + destruct (rotated_rows start cs Hcs rv (chunk cs (memory vm) dst) Hok Hst Hlen L1) as (w & -> & Hs). exact (Hw _ Hs).
    + destruct (Hw _ Hr1) as (vm' & E & Hf). exists vm'. split; [|done]. rewrite <- E. destruct (set_flag vm dst false) as [vm1|[]|]; [|done]. cbn [mbind outcome_bind] in *.
      destruct (SubVector f_zero (SWindow p) start (start + cs)) as [sb|[]|]; try done. cbn [mbind outcome_bind] in *. by rewrite E1.
Qed.
(** ** The promise of the machine *)

Context (iflag : Metadata -> bool).
Context (Hinputs : forall k m, index metas k = Ok m ->
  exists v, index inputs k = Ok v /\ avec_ok v /\ 0 <= start /\ start + cs <= avec_Len v /\ iflag m = input_flag v /\ forall r, start <= r < start + cs -> avec_at v r = rho r m).

(** The memory that the result of an operator is put into. *)
Definition static_flag (op : Operator F) (fls : list bool) : bool :=
  match op with
  | OConstant g => IsBase (GetExt g)
  | OVariable m => iflag m
  | OLinComb ks => flags_of linCombOp fls ks
  | OProduct ks => flags_of productOp fls ks
  | OPolyEval => poly_flag fls
  end.

Instance ext_machine : Machine F (vmExt F) (bool * (Z -> E4 F)) := {
  m_step op pc dst vm := ext_instr b cs inputs start (start + cs) op pc dst vm;
  m_ok vm := vm_ok vm;
  m_holds vm s v := eholds vm s v;
  m_sem op cvs v := v.1 = static_flag op cvs.*1 /\ row_sem id rho start cs op cvs.*2 v.2
}.

Lemma fwrites_ext vm dst vm' fl f g : fwrites vm dst vm' (fl, f) -> (forall r, start <= r < start + cs -> f r = g r) -> fwrites vm dst vm' (fl, g).
Proof. intros (? & [? Hh] & ?) E. split; [done|]. split; [|done]. split; [done|]. by eapply vholds_ext. Qed.

Instance ext_machine_laws : MachineLaws F (vmExt F) (bool * (Z -> E4 F)) code (Constants b) metas numSlots.
Proof.
  split. intros op dst srcs idx pc vm cvs [fl v] Hm Hc Hd Hs Hh [Hfl [Hshape Hv]] Hidx. cbn [m_step m_ok m_holds ext_machine fst snd] in *.
  cut (exists vm' f, ext_instr b cs inputs start (start + cs) (opcode op) (pc + 2) dst vm = Ok (vm', pc + zlen (node_words op dst srcs idx)) /\
    fwrites vm dst vm' (static_flag op cvs.*1, f) /\ forall r, start <= r < start + cs -> f r = apply_op id (rho r) op ((fun f => f r) <$> cvs.*2)).
  { intros (vm' & f & E & Hf & Hfv). exists vm'. split; [exact E|]. rewrite Hfl. apply (fwrites_ext vm dst vm' _ f v); [exact Hf|]. intros r Hr. by rewrite Hfv, Hv. }
  clear Hv v Hfl fl. pose proof Hm as (Hmm & Hb & _). unfold ext_instr. replace (start + cs - start) with cs by lia. rewrite !(view_ok cs Hcs numSlots) by done. cbn [mbind outcome_bind].
  assert (length srcs = length cvs) as Hlc by (by eapply Forall2_length). pose proof (chunk_length cs Hcs numSlots (memory vm) dst Hmm Hd) as L1. pose proof (chunk_length cs Hcs numSlots (baseMemory vm) dst Hb Hd) as L2.
  destruct op as [g|m|ks|ks|]; cbn [opcode node_words op_shape idx_ok static_flag] in *; pose proof Hc as [_ [_ Hc']%code_at_cons]%code_at_cons;
    replace (pc + 1 + 1) with (pc + 2) in Hc' by lia; apply code_at_cons in Hc' as [E1 Hc']; rewrite E1; replace (pc + 2 + 1) with (pc + 3) in * by lia.
  - (* constant *) unfold opLoadConst at 1 2. cbn [Z.eqb mbind outcome_bind]. rewrite Hidx. cbn [mbind outcome_bind]. destruct (flag_first vm dst (IsBase (GetExt g)) Hm Hd) as (vm1 & -> & Hok1 & _ & _ & Hfin). cbn [mbind outcome_bind].
    eexists _, (fun _ => GetExt g). split_and!; [do 2 f_equal; unfold zlen; cbn; lia| |done]. apply Hfin. destruct (IsBase (GetExt g)) eqn:Eb.
    + apply (write_base_ok vm1 dst _ (fun _ => B0_A0 (GetExt g))); [done|done| |intros r _; by apply IsBase_inv]. split; [by rewrite zlen_fmap|]. intros j x. rewrite list_lookup_fmap. by intros (? & _ & ->)%fmap_Some.
    + apply write_ext_ok; [done|done|]. split; [by rewrite zlen_fmap|]. intros j x. rewrite list_lookup_fmap. by intros (? & _ & ->)%fmap_Some.
  - (* variable *) destruct (Hinputs idx m Hidx) as (v & Ev & Hok & Hst & Hl & -> & Hat). cbn [Z.eqb mbind outcome_bind opLoadInput opLoadConst]. rewrite Ev. cbn [mbind outcome_bind].
    destruct (ext_input_ok vm dst v Hm Hd Hok Hst Hl) as (vm' & -> & Hf). cbn [mbind outcome_bind]. eexists _, _. split_and!; [do 2 f_equal; unfold zlen; cbn; lia|exact Hf|exact Hat].
  - (* sum *) destruct Hshape as [Hk Hne]. rewrite length_fmap in Hk. cbn [Z.eqb mbind outcome_bind opLinComb opMul opLoadInput opLoadConst].
    destruct (ext_nary_ok linCombOp vm dst srcs ks cvs (pc + 3) Hm Hd Hs Hh) as (vm' & E & Hw); [lia|intros ->; by destruct cvs|exact Hc'|].
    exists vm', (comb linCombOp cvs.*2 ks). split_and!; [|done|done]. cbn [fast_of ext_step] in E. replace (pc + 2 + 1) with (pc + 3) by lia. rewrite E. do 2 f_equal. rewrite words_length by lia. unfold zlen. cbn [length]. lia.
  - (* product *) destruct Hshape as [Hk Hne]. rewrite length_fmap in Hk. cbn [Z.eqb mbind outcome_bind opLinComb opMul opLoadInput opLoadConst].
    destruct (ext_nary_ok productOp vm dst srcs ks cvs (pc + 3) Hm Hd Hs Hh) as (vm' & E & Hw); [lia|intros ->; by destruct cvs|exact Hc'|].
    exists vm', (comb productOp cvs.*2 ks). split_and!; [|done|done]. cbn [fast_of ext_step] in E. replace (pc + 2 + 1) with (pc + 3) by lia. rewrite E. do 2 f_equal. rewrite words_length by lia. unfold zlen. cbn [length]. lia.
  - (* polynomial *) destruct Hshape as (x & cs' & Ex & Hne & Hx). destruct cvs as [|[xfl fx] cvs]; [done|]. cbn [fmap list_fmap snd fst] in Ex. injection Ex as <- <-. destruct srcs as [|sx srcs]; [done|].
    cbn [Z.eqb mbind outcome_bind opLinComb opMul opLoadInput opLoadConst opPolyEval]. replace (pc + 2 + 1) with (pc + 3) by lia.
    destruct (ext_polyeval_ok vm dst srcs cvs sx xfl fx (pc + 3) Hm Hd Hs Hh) as (vm' & E & Hw); [intros ->; by destruct cvs|exact Hc'|]. rewrite E. cbn [mbind outcome_bind].
    eexists vm', _. split_and!; [do 2 f_equal; unfold zlen; rewrite length_app; cbn [length]; lia|exact Hw|]. intros r Hr. cbn. by rewrite (Hx r Hr).
Qed.

Lemma ext_loop_vm fuel pc vm : ext_loop b cs inputs fuel start (start + cs) pc vm = vm_loop code m_step fuel pc vm.
Proof.
  revert pc vm. induction fuel as [|fuel IH]; intros pc vm; [done|]. cbn [ext_loop vm_loop m_step ext_machine]. destruct (negb (pc <? zlen code)); [done|].
  destruct (index code pc) as [op|[]|]; [|done]. cbn [mbind outcome_bind]. destruct (index code (pc + 1)) as [dst|[]|]; [|done]. cbn [mbind outcome_bind].
  destruct (ext_instr _ _ _ _ _ _ _ _ _) as [[vm' pc']|[]|]; [|done]. cbn [mbind outcome_bind]. apply IH.
Qed.
End ExtMachine.
