(* ===== verification/BoardEval.v ===== *)
(** Evaluating the board of an expression gives the values of the expression, whatever
    the number of goroutines and their order. *)
From S2P Require Import Prelude SvIntervals SmtBuild SmartVectors SvSpec SvOps SvOpsTheorems FieldExt Symbolic SymSpec SymTheorems Board BoardTheorems BoardRun BoardVm VmTheorems VmExtTheorems.
From Stdlib Require Import ZifyBool.

(** ** Chunks *)

Lemma shrink_ok fuel total c :
  0 < total -> 1 <= c <= 2 ^ Z.of_nat fuel -> let c' := shrink fuel total c in 1 <= c' <= c /\ (c' | total).
Proof.
  revert c. induction fuel as [|fuel IH]; intros c Ht Hc; cbn [shrink].
  { change (2 ^ Z.of_nat 0) with 1 in Hc. split; [lia|]. replace c with 1 by lia. apply Z.divide_1_l. }
  destruct (Z.ltb_spec 1 c) as [H1|H1]; cbn [andb]; [|split; [lia|]; replace c with 1 by lia; apply Z.divide_1_l].
  destruct (Z.eqb_spec (Z.rem total c) 0) as [Hr|Hr]; cbn [negb].
  - split; [lia|]. by apply Z.rem_divide; [lia|].
  - replace (Z.of_nat (S fuel)) with (Z.of_nat fuel + 1) in Hc by lia. rewrite Z.pow_add_r in Hc by lia. change (2 ^ 1) with 2 in Hc.
    rewrite Z.shiftr_div_pow2 by lia. change (2 ^ 1) with 2. pose proof (Z.div_mod c 2). pose proof (Z.mod_pos_bound c 2).
    destruct (IH (c / 2) Ht) as [? ?]; [lia|]. split; [lia|done].
Qed.

(** The copies are made in some order that the goroutines allow. *)
Definition interleaves {A} (schedule : list (list A) -> list A) : Prop := forall ps, interleaving ps (schedule ps).

Section Copies.
Context {A : Type} (zero : A) (N cs : Z) (Hcs : 0 < cs) (f : Z -> A).

Lemma write_lookup (mem l : list A) (off : Z) p : 0 <= off -> off + zlen l <= zlen mem ->
  write mem off l !! p = if (Z.to_nat off <=? p)%nat && (p <? Z.to_nat off + length l)%nat then l !! (p - Z.to_nat off)%nat else mem !! p.
Proof.
  unfold write, zlen. intros Ho Hl. destruct (Nat.leb_spec (Z.to_nat off) p); cbn [andb].
  - rewrite lookup_app_r by (rewrite length_take; lia). rewrite length_take. replace (p - _ `min` _)%nat with (p - Z.to_nat off)%nat by lia.
    destruct (Nat.ltb_spec p (Z.to_nat off + length l)); [by rewrite lookup_app_l by lia|]. rewrite lookup_app_r, lookup_drop by lia. f_equal. lia.
  - rewrite lookup_app_l by (rewrite length_take; lia). by rewrite lookup_take_lt by lia.
Qed.

(** A copy of a chunk of the result. *)
Definition copy_ok (c : Z * list A) : Prop := 0 <= c.1 /\ c.1 + cs <= N /\ rows c.1 cs c.2 f.

Lemma copies_ok ws res :
  Forall copy_ok ws -> zlen res = N ->
  exists res', foldM (fun res c => dst ← view res c.1 cs; Ok (write res c.1 (copy dst c.2))) res ws = Ok (E := Empty_set) res' /\ zlen res' = N /\
    forall p, res !! p = Some (f (Z.of_nat p)) \/ Exists (fun c => c.1 <= Z.of_nat p < c.1 + cs) ws -> res' !! p = Some (f (Z.of_nat p)).
Proof.
  intros Hws. revert res. induction Hws as [|[off l] ws (H1 & H2 & Hl & Hr) _ IH]; intros res Hres.
  { exists res. split; [done|]. split; [done|]. intros p [Hp|Hp]; [done|]. by apply Exists_nil in Hp. }
  cbn [foldM fst snd] in *. unfold view, slice. replace ((0 <=? off) && (off <=? off + cs) && (off + cs <=? zlen res)) with true by lia. cbn [mbind outcome_bind].
  set (dst := take _ _). assert (zlen dst = cs) as Hd by (unfold dst, zlen in *; rewrite length_take, length_drop; lia).
  assert (copy dst l = l) as -> by (unfold copy, zlen in *; rewrite take_ge, drop_ge, app_nil_r by lia; done).
  assert (zlen (write res off l) = N) as Hw by (unfold write, zlen in *; rewrite !length_app, length_take, length_drop; lia).
  destruct (IH _ Hw) as (res' & E & Hl' & Hp). exists res'. split; [exact E|]. split; [done|]. intros p Hp'. apply Hp.
  assert (off <= Z.of_nat p < off + cs \/ ~ (off <= Z.of_nat p < off + cs)) as [Hin|Hout] by lia.
  - left. rewrite write_lookup by lia. unfold zlen in *. replace (_ && _) with true by lia. destruct (lookup_lt_is_Some_2 l (p - Z.to_nat off)) as (x & Hx); [lia|].
    rewrite Hx. f_equal. rewrite (Hr _ _ Hx). f_equal. lia.
  - destruct Hp' as [Hp'|Hp']; [left|right].
    + rewrite write_lookup by lia. unfold zlen in *. by replace (_ && _) with false by lia.
    + apply Exists_cons in Hp' as [Hp'|Hp']; [cbn in Hp'; lia|done].
Qed.

(** ** Goroutines *)

Context {M : Type} (gomaxprocs : Z) (schedule : list (list (Z * list A)) -> list (Z * list A)).
Context (run : Z -> Z -> M -> go M) (result : M -> go (list A)) (Inv : M -> Prop) (n : Z).
Context (HN : N = n * cs) (Hn : 0 <= n).
Context (Hrun : forall cid vm, 0 <= cid < n -> Inv vm ->
  exists vm' l, run (cid * cs) ((cid + 1) * cs) vm = Ok vm' /\ Inv vm' /\ result vm' = Ok l /\ rows (cid * cs) cs l f).

Definition chunk_copies (ids : list nat) (copies : list (Z * list A)) : Prop :=
  Forall2 (fun id c => c.1 = Z.of_nat id * cs /\ rows c.1 cs c.2 f) ids copies.

Lemma worker_ok vm r : Inv vm -> Forall (fun id => Z.of_nat id < n) (range_seq r) ->
  exists copies, worker run result cs vm r = Ok copies /\ chunk_copies (range_seq r) copies.
Proof.
  intros Hvm Hr. unfold worker. generalize dependent (range_seq r). intros ids Hids.
  cut (forall acc ids0, chunk_copies ids0 acc -> exists st, foldM (fun '(vm, copies) chunkID =>
      vm ← run (chunkID * cs) ((chunkID + 1) * cs) vm; l ← result vm; Ok (vm, copies ++ [(chunkID * cs, l)])) (vm, acc) (Z.of_nat <$> ids) = Ok (E := Empty_set) st /\ chunk_copies (ids0 ++ ids) st.2).
  { intros Hcut. destruct (Hcut [] []) as (st & -> & Hc); [constructor|]. by exists st.2. }
  revert vm Hvm. induction Hids as [|id ids Hid _ IH]; intros vm Hvm acc ids0 Hacc; [exists (vm, acc); by rewrite app_nil_r|].
  cbn [fmap list_fmap foldM]. destruct (Hrun (Z.of_nat id) vm) as (vm' & l & -> & Hi & E & Hl); [lia|done|]. cbn [mbind outcome_bind]. rewrite E. cbn [mbind outcome_bind].
  destruct (IH vm' Hi (acc ++ [(Z.of_nat id * cs, l)]) (ids0 ++ [id])) as (st & E' & Hc); [apply Forall2_app; [done|]; by constructor|]. exists st. split; [exact E'|]. by rewrite <- app_assoc in Hc.
Qed.

Lemma workers_ok vm ranges : Inv vm -> Forall (fun id => Z.of_nat id < n) (mjoin (range_seq <$> ranges)) ->
  exists copies, mapM_ (worker run result cs vm) ranges = Ok copies /\ chunk_copies (mjoin (range_seq <$> ranges)) (mjoin copies).
Proof.
  intros Hvm. induction ranges as [|r ranges IH]; intros Hr; [exists []; split; [done|constructor]|]. cbn [fmap list_fmap mjoin list_join] in Hr. apply Forall_app in Hr as [Hr1 Hr2].
  destruct (worker_ok vm r Hvm Hr1) as (c & Ec & Hc). destruct (IH Hr2) as (cs' & Ecs & Hcs'). exists (c :: cs'). cbn [mapM_]. rewrite Ec. cbn [mbind outcome_bind]. rewrite Ecs. split; [done|]. by apply Forall2_app.
Qed.

Lemma evaluate_chunks_ok vm : interleaves schedule -> Inv vm ->
  exists res, evaluate_chunks gomaxprocs schedule zero run result cs vm N = Ok res /\ rows 0 N res f.
Proof.
  intros Hsch Hvm. unfold evaluate_chunks. assert (Z.quot N cs = n) as -> by (rewrite HN; apply Z.quot_mul; lia). pose proof (Execute_ranges_ok gomaxprocs n [] Hn) as Er.
  destruct (workers_ok vm (Execute_ranges gomaxprocs n [])) as (copies & -> & Hc); [done|rewrite Er; apply Forall_forall; intros id [? Hid]%elem_of_seq; lia|]. cbn [mbind outcome_bind]. rewrite Er in Hc.
  pose proof (interleaving_perm _ _ (Hsch copies)) as Hp.
  assert (Forall copy_ok (mjoin copies)) as Hok.
  { apply Forall_lookup. intros i c Hi. destruct (Forall2_lookup_r _ _ _ _ _ Hc Hi) as (id & Hid & E & Hrow). apply lookup_seq in Hid as [-> Hid]. unfold copy_ok. rewrite E in *. split; [lia|]. split; [|done]. nia. }
  rewrite <- Hp in Hok. destruct (copies_ok (schedule copies) (replicate (Z.to_nat N) zero) Hok) as (res & E & Hl & Hpos); [unfold zlen; rewrite length_replicate; nia|].
  exists res. split; [exact E|]. split; [done|]. intros j x Hj. cut (res !! j = Some (f (Z.of_nat j))); [intros E'; rewrite Hj in E'; by injection E' as ->|]. apply Hpos. right. rewrite Hp.
  apply Exists_exists. assert (Z.of_nat j < N) as HjN by (apply lookup_lt_Some in Hj; unfold zlen in Hl; lia). pose proof (Z.div_mod (Z.of_nat j) cs ltac:(lia)) as Hdm. pose proof (Z.mod_pos_bound (Z.of_nat j) cs Hcs).
  set (q := Z.of_nat j / cs) in *. assert (0 <= q < n) as Hq by nia.
  destruct (Forall2_lookup_l _ _ _ (Z.to_nat q) (Z.to_nat q) Hc) as (c & Hcq & Ecq & _); [apply lookup_seq; lia|]. exists c. split; [by apply list_elem_of_lookup_2 in Hcq|]. rewrite Ecq. nia.
Qed.
End Copies.

(** ** Values of the nodes *)

(** The expressions that a board can evaluate at the rows below [N]: there are no collisions
    at any of the rows, sums and products have terms, and the points of the polynomials
    are the same at all rows. *)
Record evaluable {F : Type} `{ExtOps F} (blake2b : string -> E4 F) (rho : Z -> Metadata -> E4 F) (N : Z) (S : Expression F -> Prop) : Prop := {
  ev_rows r : 0 <= r < N -> no_collision blake2b (rho r) S;
  ev_valid a : S a -> valid blake2b a;
  ev_terms a : S a -> match Operator_ a with OLinComb _ | OProduct _ => Children a <> [] | _ => True end;
  ev_points a x cs : S a -> Operator_ a = OPolyEval -> Children a = x :: cs -> forall r, 0 <= r < N -> eval id (rho r) x = eval id (rho 0) x
}.

Section Values.
Context {F : Type} `{ExtLaws F} (blake2b : string -> E4 F) (rho : Z -> Metadata -> E4 F) (N : Z) (HN : 0 < N) (S : Expression F -> Prop).
Context (HS : evaluable blake2b rho N S) (es : list (Expression F)) (b : ExpressionBoard F) (Hb : board_of S es b).
Local Abbreviation value := (fun (e : Expression F) r => eval id (rho r) e).

(** A node with the expressions of its children. *)
Definition node_children (i : nat) (nd : Node F) (ces : list (Expression F)) : Prop :=
  Forall2 (fun id c => 0 <= id < Z.of_nat i /\ es !! Z.to_nat id = Some c) (n_Children nd) ces.

Lemma node_value i nd e :
  Nodes b !! i = Some nd -> es !! i = Some e ->
  exists ces, node_children i nd ces /\ n_Operator nd = Operator_ e /\ length ces = length (Children e) /\
    (forall r, 0 <= r < N -> value e r = apply_op id (rho r) (Operator_ e) ((fun c => value c r) <$> ces)) /\
    (Operator_ e = OPolyEval -> exists x cs, ces = x :: cs /\ forall r, 0 <= r < N -> value x r = value x 0).
Proof.
  intros Hnd He. destruct Hb as (Hl & HSs & Hn & _). destruct (Hn i nd e Hnd He) as (_ & Hop & Hch). rewrite Forall_lookup in HSs. pose proof (HSs i e He) as HSe.
  assert (Forall S (Children e)) as HSc by (apply (nc_children _ _ _ (ev_rows _ _ _ _ HS 0 ltac:(lia)) e HSe)).
  assert (exists ces, node_children i nd ces /\ Forall2 (fun c' c => S c' /\ S c /\ ESHash c' = ESHash c) ces (Children e)) as (ces & Hces & Hsame).
  { unfold node_children. clear Hop Hnd. induction Hch as [|id c ids cs [Hid (Hid0 & c' & Hc' & Hh)] _ IH]; [exists []; split; constructor|]. apply Forall_cons in HSc as [HSc1 HSc]. destruct (IH HSc) as (ces & H1' & H2').
    exists (c' :: ces). split; constructor; try done. split; [by eapply HSs|done]. }
  assert (forall r, 0 <= r < N -> (fun c => value c r) <$> ces = (fun c => value c r) <$> Children e) as Hv.
  { intros r Hr. clear -Hsame HS Hr. induction Hsame as [|c' c ces cs (HS1 & HS2 & Hh) _ IH]; [done|]. cbn. f_equal; [|exact IH]. by apply (nc_same _ _ _ (ev_rows _ _ _ _ HS r Hr)). }
  exists ces. split; [done|]. split; [done|]. split; [by apply Forall2_length in Hsame|]. split.
  - intros r Hr. rewrite Hv by done. apply eval_unfold.
  - intros Eop. destruct (Children e) as [|x cs] eqn:Ec.
    { pose proof (valid_node _ _ (ev_valid _ _ _ _ HS e HSe)) as [Hs _]. rewrite Eop, Ec in Hs. cbn in Hs. lia. }
    destruct ces as [|x' ces]; [by inversion Hsame|]. exists x', ces. split; [done|]. intros r Hr.
    pose proof (Hv r Hr) as E1. pose proof (Hv 0 ltac:(lia)) as E2. cbn in E1, E2. injection E1 as E1 _. injection E2 as E2 _. rewrite E1, E2. exact (ev_points _ _ _ _ HS e x cs HSe Eop Ec r Hr).
Qed.

(** What holds of the children of a node holds of the node. *)
Lemma board_ind (P : Expression F -> Prop) :
  (forall i nd e ces, Nodes b !! i = Some nd -> es !! i = Some e -> node_children i nd ces -> n_Operator nd = Operator_ e ->
    (forall r, 0 <= r < N -> value e r = apply_op id (rho r) (Operator_ e) ((fun c => value c r) <$> ces)) -> Forall P ces -> P e) ->
  Forall P es.
Proof.
  intros HP. apply Forall_lookup. intros i. induction i as [i IH] using lt_wf_ind. intros e He. destruct Hb as (Hl & _). destruct (lookup_lt_is_Some_2 (Nodes b) i) as (nd & Hnd); [apply lookup_lt_Some in He; lia|].
  destruct (node_value i nd e Hnd He) as (ces & Hces & Hop & _ & Hv & _). apply (HP i nd e ces); try done. clear -Hces IH. induction Hces as [|id c ids ces [Hid Hc] _ IHc]; constructor; [|done].
  by apply (IH (Z.to_nat id)); [lia|].
Qed.

Lemma node_shape i nd e : Nodes b !! i = Some nd -> es !! i = Some e -> shape_ok (Operator_ e) (Children e) /\ match Operator_ e with OLinComb _ | OProduct _ => Children e <> [] | _ => True end.
Proof.
  intros Hnd He. destruct Hb as (_ & HSs & _). rewrite Forall_lookup in HSs. pose proof (HSs i e He) as HSe. split; [|exact (ev_terms _ _ _ _ HS e HSe)].
  by destruct (valid_node _ _ (ev_valid _ _ _ _ HS e HSe)).
Qed.

Lemma nodes_fine i nd : Nodes b !! i = Some nd -> node_fine i nd.
Proof.
  intros Hnd. destruct Hb as (Hl & _). destruct (lookup_lt_is_Some_2 es i) as (e & He); [apply lookup_lt_Some in Hnd; lia|].
  destruct (node_value i nd e Hnd He) as (ces & Hces & Hop & Hlen & _). destruct (node_shape i nd e Hnd He) as [Hs _]. split.
  - clear -Hces. induction Hces as [|id c ids ces [Hid _] _ IH]; constructor; [lia|done].
  - rewrite Hop. unfold node_children in Hces. apply Forall2_length in Hces. destruct (Operator_ e); cbn [node_ks shape_ok] in *; try done.
    + destruct Hs as [Hs _]. congruence.
    + destruct Hs as [[Hs _] _]. congruence.
Qed.

(** Operators on rows, for values in any field with the same results. *)
Lemma node_op_shape {R} i nd e (vs : list (Z -> R)) start cs :
  Nodes b !! i = Some nd -> es !! i = Some e -> length vs = length (Children e) ->
  (Operator_ e = OPolyEval -> exists x cs', vs = x :: cs' /\ forall r, start <= r < start + cs -> x r = x start) -> op_shape start cs (Operator_ e) vs.
Proof.
  intros Hnd He Hlen Hpt. destruct (node_shape i nd e Hnd He) as [Hs Hne]. destruct (Operator_ e) as [g|m|ks|ks|]; cbn [op_shape shape_ok] in *.
  - destruct Hs as [Hs _]. rewrite Hs in Hlen. by destruct vs.
  - rewrite Hs in Hlen. by destruct vs.
  - destruct Hs as [Hs _]. split; [congruence|]. intros ->. by destruct (Children e).
  - destruct Hs as [[Hs _] _]. split; [congruence|]. intros ->. by destruct (Children e).
  - destruct Hpt as (x & cs' & -> & Hx); [done|]. exists x, cs'. split_and!; try done. intros ->. cbn in Hlen. lia.
Qed.
End Values.

(** ** Running the machines *)

Lemma Lift_comb {F} `{ExtLaws F} op (vs : list F) ks :
  foldr (combine op) (unit_ op) (zip_with (term op) (Lift <$> vs) ks) = Lift (foldr (combine op) (unit_ op) (zip_with (term op) vs ks)).
Proof.
  assert (@unit_ (E4 F) _ op = Lift (unit_ op)) as Eu by (destruct op; [apply ext_zero|apply ext_one]). revert ks.
  induction vs as [|v vs IH]; intros [|k ks]; cbn [fmap list_fmap zip_with foldr]; try done. rewrite Lift_term, <- Lift_combine. f_equal. apply IH.
Qed.

Lemma Lift_Eval {F} `{ExtLaws F} (cs : list F) x : Eval (Lift <$> cs) (Lift x) = Lift (Eval cs x).
Proof.
  unfold Eval. induction cs as [|c cs IH]; [apply ext_zero|]. cbn [fmap list_fmap foldr]. rewrite <- Lift_add, <- ext_mul. f_equal. f_equal. apply IH.
Qed.

Lemma apply_op_base {F} `{ExtLaws F} (rho : Metadata -> E4 F) (rhoF : Metadata -> F) (op : Operator F) (vs : list F) :
  (forall g, op = OConstant g -> IsBase (GetExt g) = true) -> (forall m, op = OVariable m -> rho m = Lift (rhoF m)) ->
  apply_op id rho op (Lift <$> vs) = Lift (apply_op B0_A0 rhoF op vs).
Proof.
  intros Hg Hm. destruct op as [g|m|ks|ks|]; cbn [apply_op].
  - by apply IsBase_inv, Hg.
  - by apply Hm.
  - exact (Lift_comb linCombOp vs ks).
  - exact (Lift_comb productOp vs ks).
  - destruct vs as [|x cs]; [apply ext_zero|]. apply Lift_Eval.
Qed.

Section Machines.
Context {F : Type} `{ExtLaws F} (blake2b : string -> E4 F) (rho : Z -> Metadata -> E4 F) (N : Z) (HN : 0 < N) (S : Expression F -> Prop).
Context (HS : evaluable blake2b rho N S) (es : list (Expression F)) (b : ExpressionBoard F) (Hb : board_of S es b) (e : Expression F) (He : last es = Some e).
Context (inputs : list (avec F)) (b' : ExpressionBoard F) (Hb' : compiled_ok b b').
Local Abbreviation value := (fun (e : Expression F) r => eval id (rho r) e).
Local Abbreviation metas := (ListVariableMetadata b).

Context (Hinputs : forall k m, index metas k = Ok m ->
  exists v, index inputs k = Ok v /\ avec_ok v /\ avec_Len v = N /\ forall r, 0 <= r < N -> avec_at v r = rho r m).

(** A variable has an input. *)
Lemma variable_input i nd m : Nodes b !! i = Some nd -> n_Operator nd = OVariable m -> exists k v, index metas k = Ok m /\ index inputs k = Ok v /\ v ∈ inputs /\ forall r, 0 <= r < N -> avec_at v r = rho r m.
Proof.
  intros Hnd Ho. assert (m ∈ metas) as Hin by (apply list_elem_of_omap; exists nd; split; [by eapply list_elem_of_lookup_2|by rewrite Ho]).
  apply list_elem_of_lookup_1 in Hin as (k & Hk). assert (index metas (Z.of_nat k) = Ok m) as Ek by (apply index_ok; [lia|by rewrite Nat2Z.id]).
  destruct (Hinputs _ _ Ek) as (v & Ev & _ & _ & Hv). exists (Z.of_nat k), v. split_and!; try done. unfold index in Ev. destruct (0 <=? Z.of_nat k); [|done].
  destruct (inputs !! Z.to_nat (Z.of_nat k)) as [v'|] eqn:El; [|done]. injection Ev as ->. by eapply list_elem_of_lookup_2.
Qed.

(** When all inputs are constant, so are the values. *)
Lemma constant_values : areAllConstants inputs = true -> forall r, 0 <= r < N -> value e r = value e 0.
Proof.
  intros Hc. assert (Forall (fun e => forall r, 0 <= r < N -> value e r = value e 0) es) as Hall.
  { apply (board_ind blake2b rho N HN S HS es b Hb). intros i nd a ces Hnd Ha Hces Ho Hv IH r Hr. rewrite (Hv r Hr), (Hv 0) by lia.
    assert ((fun c => value c r) <$> ces = (fun c => value c 0) <$> ces) as -> by (apply list_fmap_ext; intros j c Hj; rewrite Forall_lookup in IH; by apply (IH j)).
    rewrite <- Ho in *. destruct (n_Operator nd) as [g|m|ks|ks|] eqn:Eo; try done. cbn [apply_op]. destruct (variable_input i nd m Hnd Eo) as (k & v & _ & _ & Hin & Hat).
    rewrite <- (Hat r), <- (Hat 0) by lia. unfold areAllConstants in Hc. rewrite forallb_forall in Hc. specialize (Hc v ltac:(by apply list_elem_of_In)). by destruct v as [[]|[]]. }
  rewrite Forall_forall in Hall. apply Hall. rewrite last_lookup in He. by eapply list_elem_of_lookup_2.
Qed.

Lemma wrap_ok {A} `{FieldOps A} (all : bool) (res : list A) f :
  rows 0 N res f -> N <= max_len -> (all = true -> forall r, 0 <= r < N -> f r = f 0) -> exists v, wrap all N res = Ok v /\ represents f_zero v N f.
Proof.
  intros [Hl Hf] Hmax Hall. unfold wrap. assert (forall r, 0 <= r < N -> nthZ f_zero res r = f r) as Hn.
  { intros r Hr. destruct (index_Some res r) as (x & Hx); [lia|]. unfold nthZ. rewrite (nth_lookup_Some _ _ _ x) by done. rewrite (Hf _ _ Hx). f_equal. lia. }
  destruct all.
  - rewrite (index_nthZ f_zero) by lia. cbn [mbind outcome_bind]. unfold SmartVectors.NewConstant, assert_. replace (negb (N <=? 0)) with true by lia. eexists. split; [reflexivity|].
    split; [split; cbn; [lia|done]|]. split; [done|]. intros r Hr. cbn [at_ Value]. rewrite Hn by lia. symmetry. by apply Hall.
  - rewrite NewRegular_ok by lia. eexists. split; [reflexivity|]. split; [split; cbn; [lia|done]|]. split; [done|]. exact Hn.
Qed.

Lemma es_last : es !! (length (Nodes b') - 1)%nat = Some e.
Proof. destruct Hb as (Hl & _), Hb' as (-> & _). rewrite <- Hl. rewrite last_lookup in He. by replace (length es - 1)%nat with (Init.Nat.pred (length es)) by lia. Qed.

(** ** The base field *)

Section Base.
Context (Hbase : AreAllBase inputs = true) (Hconst : forall a g, S a -> Operator_ a = OConstant g -> IsBase (GetExt g) = true).

Lemma base_values : Forall (fun a => forall r, 0 <= r < N -> value a r = Lift (B0_A0 (value a r))) es.
Proof.
  apply (board_ind blake2b rho N HN S HS es b Hb). intros i nd a ces Hnd Ha Hces Ho Hv IH r Hr. rewrite (Hv r Hr).
  assert ((fun c => value c r) <$> ces = Lift <$> ((fun c => B0_A0 (value c r)) <$> ces)) as ->.
  { rewrite <- list_fmap_compose. apply list_fmap_ext. intros j c Hj. rewrite Forall_lookup in IH. by apply (IH j). }
  rewrite (apply_op_base (rho r) (fun m => B0_A0 (rho r m))); [done| |].
  - intros g Eg. apply (Hconst a g); [|done]. destruct Hb as (_ & HSs & _). rewrite Forall_lookup in HSs. by eapply HSs.
  - intros m Em. rewrite <- Ho in Em. destruct (variable_input i nd m Hnd Em) as (k & v & _ & _ & Hin & Hat). rewrite <- Hat by done. unfold AreAllBase in Hbase. rewrite forallb_forall in Hbase.
    specialize (Hbase v ltac:(by apply list_elem_of_In)). by destruct v.
Qed.

Lemma base_run start cs mem :
  0 < cs -> 0 <= start -> start + cs <= N -> mem_ok cs (NumSlots b') mem ->
  exists mem' l, base_execute b' cs inputs start (start + cs) mem = Ok mem' /\ mem_ok cs (NumSlots b') mem' /\ view mem' (ResultSlot b' * cs) cs = Ok l /\
    rows start cs l (fun r => B0_A0 (value e r)).
Proof.
  intros Hcs Hst Hend Hm. pose proof Hb' as (En & _ & Hres & Hruns). assert (ListVariableMetadata b' = metas) as Em by (unfold ListVariableMetadata; by rewrite En).
  assert (forall k m, index (ListVariableMetadata b') k = Ok m -> exists v, index inputs k = Ok (VBase v) /\ sv_ok v /\ 0 <= start /\ start + cs <= Len v /\
    forall r, start <= r < start + cs -> at_ f_zero v r = B0_A0 (rho r m)) as Hin.
  { intros k m Hk. rewrite Em in Hk. destruct (Hinputs k m Hk) as (v & Ev & Hok & Hl & Hat). assert (v ∈ inputs) as Hv.
    { unfold index in Ev. destruct (0 <=? k); [|done]. destruct (inputs !! Z.to_nat k) as [v'|] eqn:El; [|done]. injection Ev as ->. by eapply list_elem_of_lookup_2. }
    unfold AreAllBase in Hbase. rewrite forallb_forall in Hbase. specialize (Hbase v ltac:(by apply list_elem_of_In)). destruct v as [v|v]; [|done]. cbn in Hok, Hl. exists v. split_and!; try done; [lia|].
    intros r Hr. rewrite <- Hat by lia. done. }
  set (mach := base_machine b' inputs (fun r m => B0_A0 (rho r m)) start cs).
  pose proof (base_machine_laws b' inputs (fun r m => B0_A0 (rho r m)) (ListVariableMetadata b') start cs Hcs Hin) as Hlaws. fold mach in Hlaws.
  destruct (Hruns _ _ mach Hlaws ((fun a r => B0_A0 (value a r)) <$> es) mem (fun r => B0_A0 (value e r))) as (mem' & E & Hok' & Hh); [|by rewrite list_lookup_fmap, es_last|exact Hm|].
  - intros i nd Hnd. rewrite En in Hnd. pose proof Hb as (Hl & _). destruct (lookup_lt_is_Some_2 es i) as (a & Ha); [apply lookup_lt_Some in Hnd; lia|].
    destruct (node_value blake2b rho N HN S HS es b Hb i nd a Hnd Ha) as (ces & Hces & Ho & Hlen & Hv & Hpt). exists ((fun c r => B0_A0 (value c r)) <$> ces), (fun r => B0_A0 (value a r)). split_and!.
    + by rewrite list_lookup_fmap, Ha.
    + apply Forall2_fmap_r. eapply Forall2_impl; [exact Hces|]. intros id c [_ Hc]. by rewrite list_lookup_fmap, Hc.
    + rewrite Ho. split.
      * eapply (node_op_shape blake2b rho N S HS es b Hb i nd); [done|done|by rewrite length_fmap|]. intros Eo. destruct (Hpt Eo) as (x & cs' & -> & Hx). cbn. eexists _, _. split; [reflexivity|].
        intros r Hr. apply (f_equal B0_A0). etransitivity; [apply Hx; lia|symmetry; apply Hx; lia].
      * intros r Hr. rewrite (Hv r) by lia. rewrite <- list_fmap_compose.
        assert ((fun c => value c r) <$> ces = Lift <$> ((fun c => B0_A0 (value c r)) <$> ces)) as ->.
        { rewrite <- list_fmap_compose. apply list_fmap_ext. intros j c Hj. pose proof base_values as Hbv. rewrite Forall_forall in Hbv. apply Hbv; [|lia]. destruct (Forall2_lookup_r _ _ _ _ _ Hces Hj) as (id & _ & _ & Hid). by eapply list_elem_of_lookup_2. }
        rewrite (apply_op_base (rho r) (fun m => B0_A0 (rho r m))); [done| |].
        -- intros g Eg. apply (Hconst a g); [|done]. destruct Hb as (_ & HSs & _). rewrite Forall_lookup in HSs. by eapply HSs.
        -- intros m Em'. rewrite <- Ho in Em'. destruct (variable_input i nd m Hnd Em') as (k & v & _ & _ & Hv' & Hat). rewrite <- Hat by lia. unfold AreAllBase in Hbase. rewrite forallb_forall in Hbase.
           specialize (Hbase v ltac:(by apply list_elem_of_In)). by destruct v.
  - exists mem', (chunk cs mem' (ResultSlot b')). split_and!; [|exact Hok'|by apply (view_ok cs Hcs (NumSlots b'))|exact Hh]. unfold base_execute. rewrite <- E. apply (base_loop_vm b' inputs (fun r m => B0_A0 (rho r m)) start cs).
Qed.
End Base.
(** ** The extension *)

Section Ext.
Context (Hdistinct : NoDup metas).

(** The memory of each input. *)
Definition iflag (m : Metadata) : bool := existsb (fun p => bool_decide (p.1 = m) && input_flag p.2) (zip metas inputs).

Lemma iflag_ok k m v : index metas k = Ok m -> index inputs k = Ok v -> iflag m = input_flag v.
Proof.
  unfold index. intros Hm Hv. destruct (0 <=? k); [|done]. destruct (metas !! Z.to_nat k) as [m'|] eqn:Em; [|done]. destruct (inputs !! Z.to_nat k) as [v'|] eqn:Ev; [|done].
  injection Hm as ->. injection Hv as ->. destruct (input_flag v) eqn:Ef.
  - apply existsb_exists. exists (m, v). split; [apply list_elem_of_In, list_elem_of_lookup; exists (Z.to_nat k); apply lookup_zip_with_Some; by exists m, v|]. cbn. by rewrite bool_decide_eq_true_2.
  - apply not_true_is_false. intros ([m1 v1] & Hin & Hb1)%existsb_exists. cbn in Hb1. apply andb_true_iff in Hb1 as [->%bool_decide_eq_true Hf1].
    apply list_elem_of_In, list_elem_of_lookup_1 in Hin as (j & Hj). apply lookup_zip_with_Some in Hj as (m2 & v2 & [= <- <-] & Hj1 & Hj2).
    assert (j = Z.to_nat k) as -> by (by eapply NoDup_lookup). congruence.
Qed.

(** The memory of each node. *)
Definition flag_step (fls : list bool) (nd : Node F) : list bool :=
  fls ++ [static_flag iflag (n_Operator nd) ((fun c => default false (fls !! Z.to_nat c)) <$> n_Children nd)].

Lemma flags_exist nodes : (forall i nd, nodes !! i = Some nd -> node_fine i nd) ->
  exists fls, length fls = length nodes /\ forall i nd, nodes !! i = Some nd ->
    exists cfls, Forall2 (fun c fl => fls !! Z.to_nat c = Some fl) (n_Children nd) cfls /\ fls !! i = Some (static_flag iflag (n_Operator nd) cfls).
Proof.
  induction nodes as [|nd nodes IH] using rev_ind; intros Hf; [by exists []|]. destruct IH as (fls & Hl & Hfl); [intros i nd' Hi; apply Hf; by apply lookup_app_l_Some|].
  exists (flag_step fls nd). unfold flag_step. rewrite !length_app. split; [cbn; lia|]. intros i nd' Hi.
  destruct (decide (i < length nodes)%nat) as [Hlt|Hge].
  - rewrite lookup_app_l in Hi by done. destruct (Hfl i nd' Hi) as (cfls & Hc & Hs). exists cfls. split; [|by apply lookup_app_l_Some]. eapply Forall2_impl; [exact Hc|]. intros c fl. apply lookup_app_l_Some.
  - assert (i = length nodes) as -> by (apply lookup_lt_Some in Hi; rewrite length_app in Hi; cbn in Hi; lia). rewrite list_lookup_middle in Hi by done. injection Hi as <-.
    eexists. split; [|rewrite <- Hl; apply list_lookup_middle; done]. apply Forall2_fmap_r, Forall_Forall2_diag. destruct (Hf (length nodes) nd) as [Hc _]; [by rewrite list_lookup_middle|].
    eapply Forall_impl; [exact Hc|]. intros c Hc'. cbn in Hc'. destruct (lookup_lt_is_Some_2 fls (Z.to_nat c)) as (fl & Efl); [lia|]. cbn beta. rewrite (lookup_app_l_Some _ _ _ fl) by done. unfold compose. cbn. by rewrite Efl.
Qed.

(** What a machine has after a chunk. *)
Definition ext_done (start cs : Z) (fl : bool) (vm : vmExt F) : Prop :=
  vm_ok b' cs vm /\ index (slotIsBase vm) (ResultSlot b') = Ok fl /\
  if fl then exists l, view (baseMemory vm) (ResultSlot b' * cs) cs = Ok l /\ rows start cs l (fun r => B0_A0 (value e r)) /\ forall r, start <= r < start + cs -> value e r = Lift (B0_A0 (value e r))
  else exists l, view (memory vm) (ResultSlot b' * cs) cs = Ok l /\ rows start cs l (value e).

Lemma ext_run : exists fl, forall start cs vm, 0 < cs -> 0 <= start -> start + cs <= N -> vm_ok b' cs vm ->
  exists vm', ext_execute b' cs inputs start (start + cs) vm = Ok vm' /\ ext_done start cs fl vm'.
Proof.
  pose proof Hb' as (En & _ & Hres & Hruns). assert (ListVariableMetadata b' = metas) as Em by (unfold ListVariableMetadata; by rewrite En). pose proof Hb as (Hl & _).
  destruct (flags_exist (Nodes b) (nodes_fine blake2b rho N HN S HS es b Hb)) as (fls & Hlf & Hfls).
  pose proof es_last as Hlast. destruct (lookup_lt_is_Some_2 fls (length (Nodes b') - 1)) as (fl & Hfl); [apply lookup_lt_Some in Hlast; lia|]. exists fl. intros start cs vm Hcs Hst Hend Hm.
  assert (forall k m, index (ListVariableMetadata b') k = Ok m -> exists v, index inputs k = Ok v /\ avec_ok v /\ 0 <= start /\ start + cs <= avec_Len v /\ iflag m = input_flag v /\
    forall r, start <= r < start + cs -> avec_at v r = rho r m) as Hin.
  { intros k m Hk. rewrite Em in Hk. destruct (Hinputs k m Hk) as (v & Ev & Hok & Hlv & Hat). exists v. split_and!; try done; [lia|by eapply iflag_ok|]. intros r Hr. apply Hat. lia. }
  set (mach := ext_machine b' inputs rho start cs iflag).
  pose proof (ext_machine_laws b' inputs rho (ListVariableMetadata b') start cs Hcs iflag Hin) as Hlaws. fold mach in Hlaws.
  destruct (Hruns _ _ mach Hlaws (zip fls ((fun a r => value a r) <$> es)) vm (fl, value e)) as (vm' & E & Hok' & Hh0 & Hh); [| |exact Hm|].
  - intros i nd Hnd. rewrite En in Hnd. destruct (lookup_lt_is_Some_2 es i) as (a & Ha); [apply lookup_lt_Some in Hnd; lia|].
    destruct (node_value blake2b rho N HN S HS es b Hb i nd a Hnd Ha) as (ces & Hces & Ho & Hlen & Hv & Hpt). destruct (Hfls i nd Hnd) as (cfls & Hcf & Hsf).
    assert (length cfls = length ces) as Elen by (by rewrite <- (Forall2_length _ _ _ Hcf), (Forall2_length _ _ _ Hces)).
    assert ((zip cfls ((fun c r => value c r) <$> ces)).*1 = cfls /\ (zip cfls ((fun c r => value c r) <$> ces)).*2 = (fun c r => value c r) <$> ces) as [Ez1 Ez2]
      by (rewrite fst_zip, snd_zip; rewrite ?length_fmap; by try lia).
    exists (zip cfls ((fun c r => value c r) <$> ces)), (static_flag iflag (n_Operator nd) cfls, value a). split_and!.
    + apply lookup_zip_with_Some. eexists _, _. split; [reflexivity|]. split; [done|]. by rewrite list_lookup_fmap, Ha.
    + apply Forall2_same_length_lookup. split; [rewrite length_zip_with, length_fmap, (Forall2_length _ _ _ Hces); lia|]. intros j c w Hc Hw. apply lookup_zip_with_Some in Hw as (fl' & g & -> & Hfl' & Hg).
      rewrite list_lookup_fmap in Hg. apply fmap_Some in Hg as (a' & Ha' & ->). apply lookup_zip_with_Some. eexists _, _. split; [reflexivity|]. split; [exact (Forall2_lookup_lr _ _ _ _ _ _ Hcf Hc Hfl')|].
      destruct (Forall2_lookup_lr _ _ _ _ _ _ Hces Hc Ha') as [_ Ea']. by rewrite list_lookup_fmap, Ea'.
    + cbn [m_sem mach ext_machine fst snd]. rewrite Ez1, Ez2, Ho. split; [done|]. split.
      * eapply (node_op_shape blake2b rho N S HS es b Hb i nd); [done|done|by rewrite length_fmap|]. intros Eo. destruct (Hpt Eo) as (x & cs' & -> & Hx). cbn. eexists _, _. split; [reflexivity|].
        intros r Hr. etransitivity; [apply Hx; lia|symmetry; apply Hx; lia].
      * intros r Hr. etransitivity; [apply Hv; lia|]. by rewrite <- list_fmap_compose.
  - apply lookup_zip_with_Some. eexists _, _. split; [reflexivity|]. split; [done|]. by rewrite list_lookup_fmap, Hlast.
  - exists vm'. split; [unfold ext_execute; rewrite <- E; apply (ext_loop_vm b' inputs rho start cs)|]. split; [exact Hok'|]. split; [exact Hh0|]. cbn [fst snd] in Hh. destruct Hok' as (Hmm & Hbm & _).
    destruct fl; cbn [vholds] in Hh.
    + destruct Hh as (g & Hg & Hfg). exists (chunk cs (baseMemory vm') (ResultSlot b')). split; [by apply (view_ok cs Hcs (NumSlots b'))|]. split; [|intros r Hr; by rewrite Hfg].
      eapply rows_ext; [exact Hg|]. intros r Hr. by rewrite Hfg.
    + exists (chunk cs (memory vm') (ResultSlot b')). split; [by apply (view_ok cs Hcs (NumSlots b'))|done].
Qed.
End Ext.
(** ** Both evaluations *)

Context (gomaxprocs : Z) (schedule : forall A : Type, list (list (Z * list A)) -> list (Z * list A)) (Hsch : forall A, interleaves (schedule A)).
Context (cs : Z) (Hcs : 0 < cs) (Hdiv : (cs | N)) (Hmax : N <= max_len).

(** The vector has the values of the expression. *)
Definition evaluates (v : avec F) : Prop := avec_ok v /\ avec_Len v = N /\ forall r, 0 <= r < N -> avec_at v r = value e r.

Lemma chunks_of : exists n, 0 <= n /\ N = n * cs /\ forall cid, 0 <= cid < n -> 0 <= cid * cs /\ cid * cs + cs <= N /\ (cid + 1) * cs = cid * cs + cs.
Proof. destruct Hdiv as (n & En). exists n. split; [nia|]. split; [done|]. intros cid Hc. nia. Qed.

Lemma evaluate_base_ok :
  AreAllBase inputs = true -> (forall a g, S a -> Operator_ a = OConstant g -> IsBase (GetExt g) = true) ->
  exists v, evaluate_base gomaxprocs schedule b' inputs N cs = Ok v /\ evaluates v.
Proof.
  intros Hbase Hconst. destruct chunks_of as (n & Hn & En & Hcid). unfold evaluate_base.
  destruct (evaluate_chunks_ok f_zero N cs Hcs (fun r => B0_A0 (value e r)) gomaxprocs (schedule F) (base_execute b' cs inputs) (fun mem => view mem (ResultSlot b' * cs) cs) (mem_ok cs (NumSlots b')) n En Hn)
    with (vm := newVMBase b' cs) as (res & -> & Hres); [|apply Hsch| |].
  - intros cid mem Hc Hm. destruct (Hcid cid Hc) as (H1' & H2' & ->). by apply base_run.
  - pose proof Hb' as (_ & _ & Hr & _). unfold mem_ok, newVMBase, zlen. rewrite length_replicate. nia.
  - cbn [mbind outcome_bind]. destruct (wrap_ok (areAllConstants inputs) res _ Hres Hmax) as (v & -> & Hok & Hl & Hat).
    + intros Hall r Hr. by rewrite (constant_values Hall r Hr).
    + cbn [mbind outcome_bind]. eexists. split; [reflexivity|]. split; [done|]. split; [done|]. intros r Hr. cbn [avec_at]. rewrite Hat by done. symmetry.
      pose proof (base_values Hbase Hconst) as Hbv. rewrite Forall_forall in Hbv. apply Hbv; [|done]. rewrite last_lookup in He. by eapply list_elem_of_lookup_2.
Qed.

Lemma new_ext_ok : vm_ok b' cs (newVMExt b' cs).
Proof. pose proof Hb' as (_ & _ & Hr & _). split_and!; unfold mem_ok, newVMExt, zlen; cbn; rewrite length_replicate; nia. Qed.

Lemma evaluate_ext_ok : NoDup metas -> exists v, evaluate_ext gomaxprocs schedule b' inputs N cs = Ok v /\ evaluates v.
Proof.
  intros Hnd. destruct chunks_of as (n & Hn & En & Hcid). destruct (ext_run Hnd) as (fl & Hrun). assert (cs <= N) as HcN by (apply Z.divide_pos_le; [lia|done]). unfold evaluate_ext.
  destruct (Hrun 0 cs (newVMExt b' cs) Hcs) as (probe & E0 & _ & Ep & _); [lia|lia|apply new_ext_ok|]. change (0 + cs) with cs in E0. rewrite E0. cbn [mbind outcome_bind]. rewrite Ep. cbn [mbind outcome_bind].
  assert (exists res, (if fl : bool then
           resBase ← evaluate_chunks gomaxprocs (schedule F) f_zero (ext_execute b' cs inputs) (fun vm => view (baseMemory vm) (ResultSlot b' * cs) cs) cs (newVMExt b' cs) N; Ok (Lift <$> (resBase : list F))
         else evaluate_chunks gomaxprocs (schedule (E4 F)) f_zero (ext_execute b' cs inputs) (fun vm => view (memory vm) (ResultSlot b' * cs) cs) cs (newVMExt b' cs) N) = Ok res /\ rows 0 N res (value e)) as (res & -> & Hres).
  { destruct fl.
    - destruct (evaluate_chunks_ok f_zero N cs Hcs (fun r => B0_A0 (value e r)) gomaxprocs (schedule F) (ext_execute b' cs inputs) (fun vm => view (baseMemory vm) (ResultSlot b' * cs) cs) (vm_ok b' cs) n En Hn)
        with (vm := newVMExt b' cs) as (res & -> & Hres); [|apply Hsch|apply new_ext_ok|].
      + intros cid vm Hc Hm. destruct (Hcid cid Hc) as (H1' & H2' & ->). destruct (Hrun (cid * cs) cs vm Hcs H1' H2' Hm) as (vm' & E & Hok & _ & l & El & Hl & _). by exists vm', l.
      + cbn [mbind outcome_bind]. eexists. split; [reflexivity|]. eapply rows_ext; [by apply (rows_fmap 0 N Lift)|]. intros r Hr. cbn beta. symmetry.
        assert (0 <= r / cs < n) as Hq by (split; [apply Z.div_pos; lia|apply Z.div_lt_upper_bound; nia]). destruct (Hcid _ Hq) as (H1' & H2' & _).
        destruct (Hrun (r / cs * cs) cs (newVMExt b' cs) Hcs H1' H2' new_ext_ok) as (vm' & _ & _ & _ & l & _ & _ & Hlift). apply Hlift. pose proof (Z.div_mod r cs). pose proof (Z.mod_pos_bound r cs). nia.
    - apply (evaluate_chunks_ok f_zero N cs Hcs (value e) gomaxprocs (schedule (E4 F)) (ext_execute b' cs inputs) (fun vm => view (memory vm) (ResultSlot b' * cs) cs) (vm_ok b' cs) n En Hn);
        [|apply Hsch|apply new_ext_ok].
      intros cid vm Hc Hm. destruct (Hcid cid Hc) as (H1' & H2' & ->). destruct (Hrun (cid * cs) cs vm Hcs H1' H2' Hm) as (vm' & E & Hok & _ & l & El & Hl). by exists vm', l. }
  cbn [mbind outcome_bind]. destruct (wrap_ok (areAllConstants inputs) res _ Hres Hmax) as (v & -> & Hok & Hl & Hat); [intros Hall r Hr; by apply constant_values|].
  cbn [mbind outcome_bind]. eexists. split; [reflexivity|]. split; [done|]. split; [done|]. exact Hat.
Qed.
End Machines.

(** ** Evaluation of an expression *)

Section Evaluate.
Context {F : Type} `{ExtLaws F} (blake2b : string -> E4 F).
Context (gomaxprocs : Z) (schedule : forall A : Type, list (list (Z * list A)) -> list (Z * list A)) (Hsch : forall A, interleaves (schedule A)).

(** The inputs give the values of the variables of the board, at [N] rows. *)
Definition assigns (rho : Z -> Metadata -> E4 F) (N : Z) (metas : list Metadata) (inputs : list (avec F)) : Prop :=
  inputs <> [] /\ Forall (fun v => avec_ok v /\ avec_Len v = N) inputs /\
  forall k m, metas !! k = Some m -> exists v, inputs !! k = Some v /\ forall r, 0 <= r < N -> avec_at v r = rho r m.

Lemma chunk_size_ok (b : ExpressionBoard F) N : 0 < N -> 0 < chunk_size b N /\ (chunk_size b N | N).
Proof.
  intros HN. unfold chunk_size. set (m := if 0 <? NumSlots b then _ else _).
  assert (16 <= m <= 256) as Hm.
  { unfold m, MaxChunkSize. destruct (0 <? NumSlots b); [|lia]. generalize (round_down 64 (maxVMBytes ÷ (NumSlots b * elemBytes))). intros x.
    destruct (Z.leb_spec 16 x), (Z.ltb_spec x 256); cbn [andb]; lia. }
  clearbody m.
  destruct (shrink_ok 64 N (Z.min m N) HN) as [? ?]; [change (2 ^ Z.of_nat 64) with (2 ^ 64); lia|]. split; [lia|done].
Qed.

Lemma Evaluate_ok rho N S (e : Expression F) inputs :
  evaluable blake2b rho N S -> S e -> size e <= 2 ^ 32 -> assigns rho N (ListVariableMetadata (Board e)) inputs ->
  (AreAllBase inputs = true -> forall a g, S a -> Operator_ a = OConstant g -> IsBase (GetExt g) = true) ->
  exists v b', Evaluate gomaxprocs schedule (Board e) inputs = Ok (v, b') /\ compiled b' = 1 /\ evaluates rho N e v.
Proof.
  intros HS He Hsize (Hne & Hin & Hasg) Hconst. assert (exists v0, head inputs = Some v0 /\ avec_ok v0 /\ avec_Len v0 = N) as (v0 & Eh & Hok0 & Hl0).
  { destruct inputs as [|v0 inputs]; [done|]. exists v0. apply Forall_cons in Hin as [[? ?] _]. done. }
  assert (0 < N <= max_len) as HN by (rewrite <- Hl0; destruct v0; cbn in *; apply Hok0).
  destruct (Board_ok S e) as (es & Hb & Hq); [intros a Ha; apply (nc_children _ _ _ (ev_rows _ _ _ _ HS 0 ltac:(lia)) a Ha)|done|done|].
  assert (fresh (Board e)) as Hfresh.
  { unfold program in Hq. injection Hq as _ _ _ _ Hq1 Hq2. split; [|split; [done|split; [done|]]]. 2: apply (nodes_fine blake2b rho N ltac:(lia) S HS _ _ Hb).
    intros E. destruct Hb as (Hl & _). rewrite E, length_app in Hl. cbn in Hl. lia. }
  destruct (Compile_ok (Board e) Hfresh) as (b' & Ec & Hb'). unfold Evaluate. destruct Hfresh as (_ & Hc0 & _). rewrite Hc0, Ec. cbn [Z.eqb mbind outcome_bind]. rewrite Eh. cbn [unwrap mbind outcome_bind]. rewrite Hl0.
  unfold assert_. replace (negb (N =? 0)) with true by lia. cbn [mbind outcome_bind]. assert (forallb (fun v => avec_Len v =? N) inputs = true) as ->.
  { apply forallb_forall. intros v Hv. rewrite Forall_forall in Hin. apply list_elem_of_In, Hin in Hv as [_ Hv]. lia. }
  cbn [mbind outcome_bind]. destruct (chunk_size_ok b' N) as [Hcs Hdiv]; [lia|].
  assert (forall k m, index (ListVariableMetadata (Board e)) k = Ok m -> exists v, index inputs k = Ok v /\ avec_ok v /\ avec_Len v = N /\ forall r, 0 <= r < N -> avec_at v r = rho r m) as Hinputs.
  { intros k m Hk. unfold index in Hk. destruct (Z.leb_spec 0 k); [|done]. destruct (ListVariableMetadata (Board e) !! Z.to_nat k) as [m'|] eqn:Em; [|done]. injection Hk as ->.
    destruct (Hasg _ _ Em) as (v & Ev & Hat). exists v. split; [by apply index_ok|]. rewrite Forall_lookup in Hin. destruct (Hin _ _ Ev). done. }
  assert (exists v, (if AreAllBase inputs then evaluate_base gomaxprocs schedule b' inputs N (chunk_size b' N) else evaluate_ext gomaxprocs schedule b' inputs N (chunk_size b' N)) = Ok v /\ evaluates rho N e v) as (v & -> & Hv).
  { destruct (AreAllBase inputs) eqn:Eb.
    - apply (evaluate_base_ok blake2b rho N ltac:(lia) S HS (es ++ [e]) (Board e) Hb e); try done; [by rewrite last_snoc|lia|by apply Hconst].
    - apply (evaluate_ext_ok blake2b rho N ltac:(lia) S HS (es ++ [e]) (Board e) Hb e); try done; [by rewrite last_snoc|lia|]. apply (Board_vars blake2b), (ev_valid _ _ _ _ HS e He). }
  exists v, b'. split; [done|]. split; [apply Hb'|done].
Qed.
End Evaluate.
