(* ===== verification/SymResults.v ===== *)
(** Symbolic expressions, their boards and their evaluation: the theorems, with their
    witnesses over an extension of the field of three elements. *)
From S2P Require Import Prelude SvIntervals SmtBuild SmartVectors SvSpec SvOps SvOpsTheorems SvResults FieldExt Symbolic SymSpec SymTheorems SymConstructors Board BoardTheorems BoardRun BoardVm VmTheorems VmExtTheorems BoardEval.
From Stdlib Require Import ZifyBool Ring.

Section Results.
Context {F : Type} `{ExtLaws F} (blake2b : string -> E4 F).
Implicit Types (e : Expression F).

(** C11. [NewLinComb] and [NewProduct] simplify their operands: they flatten nested
    operators, merge the terms with the same hash, collect the constants and drop the
    terms with the coefficient zero.  When no two of the expressions collide and the
    coefficients stay below 2^63, they return a well-formed expression, whose value is
    the one of the sum, or of the product, before simplification. *)
Theorem simplification_sound rho S items ks :
  no_collision blake2b rho S -> length ks = length items ->
  (items_ok S linCombOp (zip items ks) ->
   exists e, NewLinComb items ks = Ok e /\ valid blake2b e /\ eval id rho e = foldr f_add f_zero (zip_with (fun e k => f_mul (f_int64 k) (eval id rho e)) items ks)) /\
  (items_ok S productOp (zip items ks) ->
   exists e, NewProduct items ks = Ok e /\ valid blake2b e /\ eval id rho e = foldr f_mul f_one (zip_with (fun e k => f_exp (eval id rho e) k) items ks)).
Proof.
  intros HS Hl. split; intros Hi.
  - destruct (NewLinComb_ok blake2b rho S HS items ks Hl Hi) as (e & E & Hv & He). exists e. split; [done|]. split; [done|]. rewrite He. cbn [apply_op]. by rewrite zip_with_fmap_l.
  - destruct (NewProduct_ok blake2b rho S HS items ks Hl Hi) as (e & E & Hv & He). exists e. split; [done|]. split; [done|]. rewrite He. cbn [apply_op]. by rewrite zip_with_fmap_l.
Qed.

(** The constructors on operands of any kind: the sum, the product, the difference and
    the power return well-formed expressions with these values; the power first
    validates its operand, which a well-formed expression passes. *)
Theorem arithmetic_constructors sort rho S a inputs ia items n :
  no_collision blake2b rho S -> operands blake2b S linCombOp (a :: inputs) (ia :: items) -> operands blake2b S productOp (a :: inputs) (ia :: items) ->
  0 <= n < 2 ^ 63 -> n * item_weight productOp ia < 2 ^ 63 ->
  yields blake2b rho (Symbolic.Add blake2b (a :: inputs)) (foldr f_add f_zero (eval id rho <$> ia :: items)) /\
  yields blake2b rho (Symbolic.Mul blake2b (a :: inputs)) (foldr f_mul f_one (eval id rho <$> ia :: items)) /\
  yields blake2b rho (Symbolic.Sub blake2b a inputs) (f_sub (eval id rho ia) (foldr f_add f_zero (eval id rho <$> items))) /\
  yields blake2b rho (Pow blake2b sort a n) (f_exp (eval id rho ia) n) /\ Validate sort ia = Ok tt.
Proof.
  intros HS Ha Hm Hn Hw. pose proof Ha as (Hinto & HSi & _). apply Forall_cons in HSi as [HSia _]. split_and!.
  - by apply (Add_ok blake2b rho S HS).
  - by apply (Mul_ok blake2b rho S HS).
  - by apply (Sub_ok blake2b rho S HS).
  - assert (intoExpr blake2b a = Ok (Some ia)) as Ea.
    { unfold intoExprSlice in Hinto. cbn [mapM_] in Hinto. destruct (intoExpr blake2b a) as [x|[]|]; try done. cbn [mbind outcome_bind] in Hinto.
      destruct (mapM_ (intoExpr blake2b) inputs) as [xs|[]|]; try done. cbn [mbind outcome_bind] in Hinto. by injection Hinto as -> _. }
    unfold Pow, assert_. replace (negb (n <? 0)) with true by lia. cbn [mbind outcome_bind]. rewrite Ea. cbn [mbind outcome_bind].
    destruct a; try done; apply (expr_Pow_ok blake2b sort rho S HS); (done || lia).
  - apply (Validate_ok blake2b). by apply (nc_valid _ _ _ HS).
Qed.

(** The rules of the hash that [Expression] documents hold without any hypothesis on
    collisions: whatever terms are merged, the hash of a sum is the sum of the hashes
    and the hash of a product is the product of the hashes. *)
Theorem ESHash_rules inputs items :
  inputs <> [] ->
  (operands blake2b (valid blake2b) linCombOp inputs items -> exists e, Symbolic.Add blake2b inputs = Ok (Some e) /\ ESHash e = foldr f_add f_zero (ESHash <$> items)) /\
  (operands blake2b (valid blake2b) productOp inputs items -> exists e, Symbolic.Mul blake2b inputs = Ok (Some e) /\ ESHash e = foldr f_mul f_one (ESHash <$> items)).
Proof.
  intros Hne.
  assert (forall op, operands blake2b (valid blake2b) op inputs items -> ESHash <$> items = eval id (metadataToESH blake2b) <$> items) as Heq.
  { intros op (_ & Hv & _). apply list_fmap_ext. intros i x Hx. rewrite Forall_lookup in Hv. apply (ESHash_eval blake2b). by eapply Hv. }
  split; intros Ho.
  - destruct (Add_ok blake2b _ _ (hash_no_collision blake2b) inputs items Ho Hne) as (e & E & Hv & He). exists e. split; [done|]. by rewrite (ESHash_eval blake2b), He, (Heq _ Ho).
  - destruct (Mul_ok blake2b _ _ (hash_no_collision blake2b) inputs items Ho Hne) as (e & E & Hv & He). exists e. split; [done|]. by rewrite (ESHash_eval blake2b), He, (Heq _ Ho).
Qed.

(** The board of a well-formed expression: every node comes after its children, the
    last node is the expression itself, every node has the operator and the hash of an
    expression of the set, the map gives the positions of the hashes, and every variable
    has one node. *)
Theorem Board_topological S e :
  (forall a, S a -> valid blake2b a) -> (forall a, S a -> Forall S (Children a)) -> S e -> size e <= 2 ^ 32 ->
  exists es, board_of S (es ++ [e]) (Board e) /\ NoDup (ListVariableMetadata (Board e)) /\
    (forall i nd, Nodes (Board e) !! i = Some nd -> Forall (fun c => 0 <= c < Z.of_nat i) (n_Children nd)) /\
    zlen (Nodes (Board e)) = zlen es + 1.
Proof.
  intros Hv Hc He Hs. destruct (Board_ok S e Hc He Hs) as (es & Hb & _). exists es. split; [done|]. split; [apply (Board_vars blake2b); auto|]. destruct Hb as (Hl & _ & Hn & _). split.
  - intros i nd Hnd. destruct (lookup_lt_is_Some_2 (es ++ [e]) i) as (a & Ha); [apply lookup_lt_Some in Hnd; lia|]. destruct (Hn i nd a Hnd Ha) as (_ & _ & Hch).
    apply Forall_lookup. intros k c Hk. destruct (Forall2_lookup_l _ _ _ _ _ Hch Hk) as (x & _ & Hlt & Hpos & _). lia.
  - unfold zlen. rewrite <- Hl, length_app. cbn. lia.
Qed.

(** C10. The compiler: the program of a board whose nodes come after their children
    computes the value of the last node on every machine that carries out the
    instructions, from any memory; the slots are few enough for the machine, and a
    compiled board is not compiled again. *)
Theorem Compile_refines (b : ExpressionBoard F) :
  fresh b -> exists b', Compile b = Ok b' /\ Nodes b' = Nodes b /\ 0 <= ResultSlot b' < NumSlots b' /\ runs b' /\ Compile b' = Ok b'.
Proof.
  intros Hf. destruct (Compile_ok b Hf) as (b' & E & En & Hc & Hr & Hruns). exists b'. split_and!; try done; [lia|lia|]. unfold Compile. by rewrite Hc.
Qed.

(** C3. Evaluation: the board of an expression, evaluated on smart vectors of either
    field for its variables, gives at each row the value of the expression at the values
    of the variables at the row, for any number of goroutines and any order of their
    copies.  There must be no collisions at any row, the points of polynomials must be
    the same at all rows, and the constants must be in the base field when all the
    inputs are. *)
Theorem Evaluate_correct gomaxprocs (schedule : forall A : Type, list (list (Z * list A)) -> list (Z * list A)) rho N S e inputs :
  (forall A, interleaves (schedule A)) -> evaluable blake2b rho N S -> S e -> size e <= 2 ^ 32 -> assigns rho N (ListVariableMetadata (Board e)) inputs ->
  (AreAllBase inputs = true -> forall a g, S a -> Operator_ a = OConstant g -> IsBase (GetExt g) = true) ->
  exists v b', Evaluate gomaxprocs schedule (Board e) inputs = Ok (v, b') /\ avec_ok v /\ avec_Len v = N /\ forall r, 0 <= r < N -> avec_at v r = eval id (rho r) e.
Proof.
  intros Hsch HS He Hs Ha Hc. destruct (Evaluate_ok blake2b gomaxprocs schedule Hsch rho N S e inputs HS He Hs Ha Hc) as (v & b' & E & _ & Hv). by exists v, b'.
Qed.
End Results.

(** ** An extension of the field of three elements *)

(** [u^2 = 2] and [v^2 = u]. *)
Definition F3_E2_mul (a b : F3 * F3) : F3 * F3 := (f_add (f_mul a.1 b.1) (f_mul E2 (f_mul a.2 b.2)), f_add (f_mul a.1 b.2) (f_mul a.2 b.1)).
Definition F3_E2_add (a b : F3 * F3) : F3 * F3 := (f_add a.1 b.1, f_add a.2 b.2).
Definition F3_E2_u (a : F3 * F3) : F3 * F3 := (f_mul E2 a.2, a.1).

Definition E4_of (a b : F3 * F3) : E4 F3 := mkE4 a.1 a.2 b.1 b.2.
Definition lo (z : E4 F3) : F3 * F3 := (B0_A0 z, B0_A1 z).
Definition hi (z : E4 F3) : F3 * F3 := (B1_A0 z, B1_A1 z).

Definition E4_mul (x y : E4 F3) : E4 F3 :=
  E4_of (F3_E2_add (F3_E2_mul (lo x) (lo y)) (F3_E2_u (F3_E2_mul (hi x) (hi y)))) (F3_E2_add (F3_E2_mul (lo x) (hi y)) (F3_E2_mul (hi x) (lo y))).
Definition E4_map2 (f : F3 -> F3 -> F3) (x y : E4 F3) : E4 F3 := mkE4 (f (B0_A0 x) (B0_A0 y)) (f (B0_A1 x) (B0_A1 y)) (f (B1_A0 x) (B1_A0 y)) (f (B1_A1 x) (B1_A1 y)).
Definition E4_one : E4 F3 := Lift E1.
Definition E4_exp (x : E4 F3) (k : Z) : E4 F3 := Nat.iter (Z.to_nat (Z.abs k)) (E4_mul x) E4_one.

#[export] Instance E4_ops : FieldOps (E4 F3) := {|
  f_zero := Lift E0; f_one := E4_one; f_add := E4_map2 f_add; f_sub := E4_map2 f_sub; f_mul := E4_mul; f_neg x := E4_map2 f_sub (Lift E0) x;
  f_square x := E4_mul x x; f_inverse x := x; f_exp := E4_exp; f_int64 k := Lift (f_int64 k); f_uint64 k := Lift (f_uint64 k)
|}.

#[export] Instance F3_ext : ExtOps F3 := {| ext_ops := E4_ops; MulByElement x a := E4_mul x (Lift a) |}.

Section Laws.
Add Ring f3_ring : (@f_ring F3 _ _).

Lemma E4_ring : ring_theory (Lift E0) E4_one (E4_map2 f_add) E4_mul (E4_map2 f_sub) (fun x => E4_map2 f_sub (Lift E0) x) (@eq (E4 F3)).
Proof.
  assert (E0 = f_zero /\ E1 = f_one /\ E2 = f_neg f_one) as (Z0 & Z1 & Z2) by done.
  split; repeat (let a := fresh "a" in let b := fresh "b" in let c := fresh "c" in let d := fresh "d" in intros [a b c d]); unfold E4_mul, E4_map2, E4_one, E4_of, lo, hi, F3_E2_add, F3_E2_mul, F3_E2_u, Lift; cbn [B0_A0 B0_A1 B1_A0 B1_A1 fst snd]; rewrite ?Z2, ?Z1, ?Z0; f_equal; ring.
Qed.
End Laws.

#[export] Instance F3_ext_laws : ExtLaws F3.
Proof.
  assert (FieldLaws (E4 F3)) as Hl.
  { split; cbn [f_zero f_one f_add f_sub f_mul f_neg f_square f_inverse f_exp f_int64 f_uint64 ext_ops F3_ext E4_ops].
    - exact E4_ring.
    - done.
    - done.
    - intros x k Hk. unfold E4_exp. replace (Z.to_nat (Z.abs (k + 1))) with (S (Z.to_nat (Z.abs k))) by lia. done.
    - intros x k Hk. unfold E4_exp. by rewrite Z.abs_opp.
    - done.
    - intros k Hk. rewrite (f_int64_succ k) by lia. unfold E4_map2, E4_one, Lift. cbn [B0_A0 B0_A1 B1_A0 B1_A1]. f_equal; done.
    - intros k Hk. by rewrite (f_uint64_ok k). }
  split; [exact _|exact Hl|done|done|done| |done|done|done].
  intros [] []; reflexivity.
Qed.

(** ** Witnesses *)

Definition demo_hash (name : string) : E4 F3 :=
  if bool_decide (name = "a"%string) then mkE4 E0 E1 E0 E0 else if bool_decide (name = "b"%string) then mkE4 E0 E0 E1 E0 else mkE4 E1 E0 E0 E1.

Definition demo_var (name : string) : Expression F3 := NewVariable demo_hash (mkMetadata name true).
Definition va : Expression F3 := Eval vm_compute in demo_var "a".
Definition vb : Expression F3 := Eval vm_compute in demo_var "b".
Definition vc : Expression F3 := Eval vm_compute in demo_var "c".

Definition the (r : go (option (Expression F3))) : Expression F3 := match r with Ok (Some e) => e | _ => NewConstantInt 0 end.

(** [a * b], and [a * b - c]. *)
Definition demo_ab : Expression F3 := Eval vm_compute in the (Symbolic.Mul demo_hash [AExpr (Some va); AExpr (Some vb)]).
Definition demo_expr : Expression F3 := Eval vm_compute in the (Symbolic.Sub demo_hash (AExpr (Some demo_ab)) [AExpr (Some vc)]).

Definition demo_list : list (Expression F3) := [va; vb; vc; demo_ab; demo_expr].
Definition demo_set (e : Expression F3) : Prop := e ∈ demo_list.

Lemma demo_forall (P : Expression F3 -> Prop) : P va -> P vb -> P vc -> P demo_ab -> P demo_expr -> forall a, demo_set a -> P a.
Proof. intros ? ? ? ? ? a Ha. repeat (apply elem_of_cons in Ha as [-> | Ha]; [done|]). by apply elem_of_nil in Ha. Qed.

Lemma demo_members : demo_set va /\ demo_set vb /\ demo_set vc /\ demo_set demo_ab /\ demo_set demo_expr.
Proof. unfold demo_set, demo_list. rewrite !elem_of_cons. tauto. Qed.

Lemma demo_valid a : demo_set a -> valid demo_hash a.
Proof.
  assert (valid demo_hash va /\ valid demo_hash vb /\ valid demo_hash vc) as (Ha & Hb & Hc).
  { split_and!; [apply (NewVariable_valid demo_hash (mkMetadata "a" true))|apply (NewVariable_valid demo_hash (mkMetadata "b" true))|apply (NewVariable_valid demo_hash (mkMetadata "c" true))]. }
  assert (valid demo_hash demo_ab) as Hab.
  { constructor; [split; [|vm_compute; reflexivity]|by repeat constructor]. split; [split; [reflexivity|]|]; repeat constructor; done. }
  apply demo_forall; [exact Ha|exact Hb|exact Hc|exact Hab|]. constructor; [split; [|vm_compute; reflexivity]|by repeat constructor]. split; [reflexivity|]. repeat constructor; done.
Qed.

Lemma demo_children a : demo_set a -> Forall demo_set (Children a).
Proof.
  destruct demo_members as (Ha & Hb & Hc & Hab & He). revert a. apply (demo_forall (fun a => Forall demo_set (Children a))); try constructor.
  - exact Ha.
  - constructor; [exact Hb|constructor].
  - exact Hab.
  - constructor; [exact Hc|constructor].
Qed.

Lemma demo_injective a b : demo_set a -> demo_set b -> ESHash a = ESHash b -> a = b.
Proof.
  revert b. intros b Ha. revert b. revert a Ha. apply (demo_forall (fun a => forall b, demo_set b -> ESHash a = ESHash b -> a = b)).
  - apply (demo_forall (fun b => ESHash va = ESHash b -> va = b)); done.
  - apply (demo_forall (fun b => ESHash vb = ESHash b -> vb = b)); done.
  - apply (demo_forall (fun b => ESHash vc = ESHash b -> vc = b)); done.
  - apply (demo_forall (fun b => ESHash demo_ab = ESHash b -> demo_ab = b)); done.
  - apply (demo_forall (fun b => ESHash demo_expr = ESHash b -> demo_expr = b)); done.
Qed.

(** The hashes are different, so that there are no collisions at any assignment. *)
Lemma demo_no_collision rho : no_collision demo_hash rho demo_set.
Proof.
  split; [apply demo_valid|apply demo_children| |].
  - intros a b' Ha Hb Heq. by rewrite (demo_injective a b' Ha Hb Heq).
  - apply (demo_forall (fun a => ESHash a = f_zero -> eval id rho a = f_zero)); done.
Qed.

Lemma simplification_sound_witness :
  exists e, NewLinComb [demo_expr; vc; va] [2; 2; 0] = Ok e /\ valid demo_hash e /\
    eval id (fun _ => f_one) e = foldr f_add f_zero (zip_with (fun e k => f_mul (f_int64 k) (eval id (fun _ => f_one) e)) [demo_expr; vc; va] [2; 2; 0]).
Proof.
  destruct demo_members as (Ha & Hb & Hc & Hab & He).
  apply (simplification_sound demo_hash (fun _ => f_one) demo_set [demo_expr; vc; va] [2; 2; 0] (demo_no_collision _) eq_refl).
  split; [|split]; [by repeat constructor|repeat constructor; done|reflexivity].
Defined.

Lemma arithmetic_constructors_witness :
  yields demo_hash (fun _ => f_one) (Symbolic.Add demo_hash [AExpr (Some demo_expr); AExpr (Some vc)]) (foldr f_add f_zero (eval id (fun _ => f_one) <$> [demo_expr; vc])) /\
  yields demo_hash (fun _ => f_one) (Pow demo_hash (fun l => l) (AExpr (Some demo_expr)) 3) (f_exp (eval id (fun _ => f_one) demo_expr) 3).
Proof.
  destruct demo_members as (Ha & Hb & Hc & Hab & He).
  destruct (arithmetic_constructors demo_hash (fun l => l) (fun _ => f_one) demo_set (AExpr (Some demo_expr)) [AExpr (Some vc)] demo_expr [vc] 3 (demo_no_collision _)) as (? & _ & _ & ? & _);
    [split_and!; [reflexivity|by repeat constructor|reflexivity]..|lia|reflexivity|done].
Defined.

Lemma ESHash_rules_witness :
  exists e, Symbolic.Add demo_hash [AExpr (Some demo_expr); AExpr (Some vc)] = Ok (Some e) /\ ESHash e = foldr f_add f_zero (ESHash <$> [demo_expr; vc]).
Proof.
  destruct demo_members as (Ha & Hb & Hc & Hab & He).
  destruct (ESHash_rules demo_hash [AExpr (Some demo_expr); AExpr (Some vc)] [demo_expr; vc] ltac:(done)) as [Hadd _]. apply Hadd.
  split; [reflexivity|]. split; [|reflexivity]. apply Forall_cons. split; [by apply demo_valid|]. apply Forall_cons. split; [by apply demo_valid|]. by apply Forall_nil.
Defined.

Lemma Board_topological_witness : exists es, board_of demo_set (es ++ [demo_expr]) (Board demo_expr) /\ zlen (Nodes (Board demo_expr)) = zlen es + 1.
Proof.
  destruct demo_members as (_ & _ & _ & _ & He).
  destruct (Board_topological demo_hash demo_set demo_expr demo_valid demo_children He) as (es & ? & _ & _ & ?); [by vm_compute|by exists es].
Defined.

Lemma Compile_refines_witness : exists b', Compile (Board demo_expr) = Ok b' /\ runs b'.
Proof.
  destruct (Compile_refines (Board demo_expr)) as (b' & ? & _ & _ & ? & _); [|by exists b'].
  split; [done|]. split; [done|]. split; [done|]. intros i nd Hi. assert (i < 5)%nat as Hlt by (by apply lookup_lt_Some in Hi).
  do 5 (destruct i as [|i]; [injection Hi as <-; split; [repeat constructor; done|by vm_compute]|]). lia.
Defined.

(** Four rows: [a] in the extension, [b] in the base field, [c] a constant. *)
Definition demo_a : avec F3 := VExt (SRegular [mkE4 E0 E1 E0 E0; mkE4 E1 E0 E0 E0; mkE4 E0 E0 E2 E0; mkE4 E2 E1 E0 E1]).
Definition demo_b : avec F3 := VBase (SRegular [E1; E2; E0; E1]).
Definition demo_c : avec F3 := VBase (SConstant (mkConstant E2 4)).
Definition demo_rho (r : Z) (m : Metadata) : E4 F3 :=
  avec_at (if bool_decide (String m = "a"%string) then demo_a else if bool_decide (String m = "b"%string) then demo_b else demo_c) r.

Lemma Evaluate_correct_witness :
  exists v b', Evaluate 3 (fun A => mjoin) (Board demo_expr) [demo_a; demo_b; demo_c] = Ok (v, b') /\ avec_Len v = 4 /\
    forall r, 0 <= r < 4 -> avec_at v r = eval id (demo_rho r) demo_expr.
Proof.
  destruct demo_members as (_ & _ & _ & _ & He).
  destruct (Evaluate_correct demo_hash 3 (fun A => mjoin) demo_rho 4 demo_set demo_expr [demo_a; demo_b; demo_c]) as (v & b' & E & _ & Hl & Hv);
    [| |exact He|vm_compute; discriminate| |intros Hb; vm_compute in Hb; discriminate Hb|exists v, b'; split; [exact E|]; split; [exact Hl|exact Hv]].
  - intros A ps. apply interleaving_seq.
  - split; [intros; apply demo_no_collision|apply demo_valid| |].
    + apply (demo_forall (fun a => match Operator_ a with OLinComb _ | OProduct _ => Children a <> [] | _ => True end)); done.
    + intros a x cs Ha Ho. exfalso. revert a Ha Ho. apply (demo_forall (fun a => Operator_ a = OPolyEval -> False)); done.
  - split; [done|]. split; [by repeat constructor; vm_compute|]. intros k m Hk. do 3 (destruct k as [|k]; [injection Hk as <-; by eexists|]). discriminate.
Defined.

(** ** What the hypotheses exclude *)

(** [Sub] looks for [nil] in a list that holds the slice of the operands, and so does
    not return [nil] for a [nil] operand, as [Add] does. *)
Example Sub_nil_panics : Symbolic.Sub demo_hash (AExpr (Some va)) [ANil] = Panic /\ Symbolic.Add demo_hash [AExpr (Some va); ANil] = Ok None.
Proof. split; reflexivity. Qed.

(** The products of coefficients of nested sums wrap around: four times [2^62 a] is zero. *)
Example lincomb_coefficient_wraps h b : NewLinComb [mkExpression h [va] (OLinComb [2 ^ 62]) b] [4] = Ok (NewConstantInt 0).
Proof. reflexivity. Qed.

(** [b] times a constant outside of the base field: evaluated on a base vector for [b],
    the constant is reduced to its first coordinate. *)
Definition demo_scaled : Expression F3 := Eval vm_compute in the (Symbolic.Mul demo_hash [AExpr (Some vb); AExpr (Some (Symbolic.NewConstant (mkE4 E0 E1 E0 E0)))]).

Definition value_of (r : go (avec F3 * ExpressionBoard F3)) : option (avec F3) := match r with Ok (v, _) => Some v | _ => None end.

Example extension_constant_lost :
  value_of (Evaluate 1 (fun A => mjoin) (Board demo_scaled) [VBase (SRegular [E1; E2])]) = Some (VBase (SRegular [E0; E0])) /\
  eval id (fun _ => Lift E1) demo_scaled = mkE4 E0 E1 E0 E0.
Proof. split; vm_compute; reflexivity. Qed.

(** A sum of [a * b] and of a variable with the hash of [a * b]: the board has one node
    for both, so that the variable is not one of its variables. *)
Example deduplicated_variable_missing :
  exists v, ESHash v = ESHash demo_ab /\
    match newLinCombNoSimplify [demo_ab; v] [1; 1] with
    | Ok e => ListVariableMetadata (Board e) = [mkMetadata "a" true; mkMetadata "b" true] /\ length (ListBoardVariableMetadata e) = 3%nat
    | _ => False
    end.
Proof. exists (NewVariable (fun _ => ESHash demo_ab) (mkMetadata "d" true)). split; [reflexivity|]. vm_compute. done. Qed.
