(* ===== verification/Multisets.v ===== *)
(** The iterator over the sub-multisets of a product, of
    [prover/symbolic/degree_reduction.go], and a reference enumeration.

    A product of factors with exponents is a multiset; the degree reduction looks at the
    smaller products that it contains.  The iterator counts through the exponents like an
    odometer, and skips the ones whose weight is above a bound. *)
From S2P Require Import Prelude SvIntervals SmartVectors.
From Stdlib Require Import ZifyBool.

Record DegreeReductionConfig := mkConfig {
  MinWeightForTerm : Z;
  NLast : Z;
  MinDegreeForCandidate : Z;
  MaxCandidatePerRound : Z;
  MaxNumElimination : Z
}.

Record weightedSubMultisetIterator := mkIterator {
  curr : list Z;
  maxWeight : Z;
  maxExponents : list Z;
  weights : list Z;
  exhausted : bool;
  iter_config : DegreeReductionConfig
}.

Definition newWeightedSubMultisetIterator (exponents : list Z) (ws : option (list Z)) (maxWeight : Z) (cfg : DegreeReductionConfig) : weightedSubMultisetIterator :=
  mkIterator ((fun _ => 0) <$> exponents) maxWeight exponents (match ws with Some ws => ws | None => (fun _ => 1) <$> exponents end) false cfg.

Section Iterator.
Context (it : weightedSubMultisetIterator).

Definition isEmpty (c : list Z) : bool := forallb (fun e => e =? 0) c.

Definition isFull (c : list Z) : go bool :=
  foldM (fun full i => e ← index c i; m ← index (maxExponents it) i; Ok (full && (e =? m))) true (range 0 (zlen c)).

Definition currentTotalWeight : go Z :=
  foldM (fun sum i => e ← index (curr it) i; w ← index (weights it) i; Ok (i64 (sum + i64 (e * w)))) 0 (range 0 (zlen (curr it))).

(** How an iteration of the loop ends the function: a multiset was found, [next] is
    called again, or the loop ends. *)
Inductive verdict := Found | Again | Ended.

(** The loop at the position [idx] of [S idx], with [cntNonIgnoredPositions] and
    [totalWeight]. *)
Fixpoint next_loop (n : nat) (cnt totalWeight : Z) (c : list Z) : go (verdict * list Z) :=
  match n with
  | O => Ok (Ended, c)
  | S idx =>
      w ← index (weights it) (Z.of_nat idx);
      if w <? MinWeightForTerm (iter_config it) then next_loop idx cnt totalWeight c else
      let cnt := cnt + 1 in
      if (0 <? NLast (iter_config it)) && (NLast (iter_config it) <? cnt) then Ok (Ended, c) else
      e ← index c (Z.of_nat idx);
      m ← index (maxExponents it) (Z.of_nat idx);
      if (e <? m) && (i64 (totalWeight + w) <=? maxWeight it) then
        c ← set_index c (Z.of_nat idx) (e + 1);
        if i64 (totalWeight + w) <? MinDegreeForCandidate (iter_config it) then Ok (Again, c) else
        full ← isFull c;
        if full || isEmpty c then next_loop idx cnt totalWeight c else Ok (Found, c)
      else
        c ← set_index c (Z.of_nat idx) 0;
        next_loop idx cnt (i64 (totalWeight - i64 (e * w))) c
  end.
End Iterator.

Definition with_curr (it : weightedSubMultisetIterator) (c : list Z) (done : bool) : weightedSubMultisetIterator :=
  mkIterator c (maxWeight it) (maxExponents it) (weights it) done (iter_config it).

(** The iterator has fewer than [iterations] multisets to go through. *)
Definition iterations (exponents : list Z) : nat := Z.to_nat (foldr (fun e acc => (Z.max 0 e + 1) * acc) 1 exponents).

Fixpoint next_rec (fuel : nat) (it : weightedSubMultisetIterator) : go (bool * weightedSubMultisetIterator) :=
  match fuel with
  | O => Panic
  | S fuel =>
      if exhausted it then Ok (false, it) else
      totalWeight ← currentTotalWeight it;
      r ← next_loop it (length (curr it)) 0 totalWeight (curr it);
      match r with
      | (Found, c) => Ok (true, with_curr it c false)
      | (Again, c) => next_rec fuel (with_curr it c false)
      | (Ended, c) => Ok (false, with_curr it c true)
      end
  end.

Definition next (it : weightedSubMultisetIterator) : go (bool * weightedSubMultisetIterator) := next_rec (iterations (maxExponents it)) it.

Definition hasOnlyASingleOne (c : list Z) : bool :=
  let '(sum, countNonZero) := foldl (fun '(sum, n) e => if negb (e =? 0) then (i64 (sum + e), n + 1) else (sum, n)) (0, 0) c in
  (countNonZero =? 1) && (sum =? 1).

(** [for iter.next() { body }]. *)
Fixpoint for_next {St} (body : St -> weightedSubMultisetIterator -> go St) (fuel : nat) (it : weightedSubMultisetIterator) (st : St) : go St :=
  match fuel with
  | O => Panic
  | S fuel =>
      r ← next it;
      if r.1 : bool then st ← body st r.2; for_next body fuel r.2 st else Ok st
  end.

Definition for_iterator {St} (body : St -> weightedSubMultisetIterator -> go St) (it : weightedSubMultisetIterator) (st : St) : go St :=
  for_next body (S (iterations (maxExponents it))) it st.

(** The multisets that a loop over the iterator sees. *)
Definition multisets (it : weightedSubMultisetIterator) : go (list (list Z)) := for_iterator (fun l it => Ok (l ++ [curr it])) it [].

Example two_factors : multisets (newWeightedSubMultisetIterator [2; 1] (Some [1; 2]) 3 (mkConfig 0 0 2 0 0)) = Ok [[0; 1]; [1; 1]; [2; 0]].
Proof. reflexivity. Qed.

(** ** The reference enumeration *)

(** Positions are pairs of a weight and the largest exponent; [B] is the weight that is
    left.  The multisets are in lexicographic order. *)
Fixpoint enum (ps : list (Z * Z)) (B : Z) : list (list Z) :=
  match ps with
  | [] => [[]]
  | (w, c) :: ps => k ← range 0 (c + 1); if k * w <=? B then cons k <$> enum ps (B - k * w) else []
  end.

Definition weight_of (ps : list (Z * Z)) (m : list Z) : Z := foldr Z.add 0 (zip_with (fun p e => e * p.1) ps m).

(** The multiset after [m]. *)
Fixpoint succ (ps : list (Z * Z)) (B : Z) (m : list Z) : option (list Z) :=
  match ps, m with
  | (w, c) :: ps, k :: m =>
      match succ ps (B - k * w) m with
      | Some m' => Some (k :: m')
      | None => if (k <? c) && ((k + 1) * w <=? B) then Some (k + 1 :: ((fun _ => 0) <$> ps)) else None
      end
  | _, _ => None
  end.

Abbreviation zeros ps := ((fun _ : Z * Z => 0) <$> ps).

Definition positions_ok (ps : list (Z * Z)) : Prop := Forall (fun p => 0 <= p.1 /\ 0 <= p.2) ps.

Lemma range_cons a b : a < b -> range a b = a :: range (a + 1) b.
Proof. intros Hab. unfold range. rewrite seqZ_cons by lia. f_equal. f_equal; lia. Qed.

Lemma range_nil a b : b <= a -> range a b = [].
Proof. intros Hab. unfold range. apply seqZ_nil. lia. Qed.

Lemma weight_nonneg ps m : positions_ok ps -> Forall2 (fun p e => 0 <= e <= p.2) ps m -> 0 <= weight_of ps m.
Proof.
  intros Hps Hm. unfold weight_of. induction Hm as [|p e ps m He _ IH]; [done|]. apply Forall_cons in Hps as [[? ?] Hps]. cbn. specialize (IH Hps). nia.
Qed.

Lemma enum_elem ps B m : positions_ok ps -> 0 <= B -> m ∈ enum ps B <-> Forall2 (fun p e => 0 <= e <= p.2) ps m /\ weight_of ps m <= B.
Proof.
  intros Hps. revert B m. induction Hps as [|[w c] ps [Hw Hc] Hps IH]; intros B m HB; cbn [enum].
  - rewrite list_elem_of_singleton. split; [intros ->; split; [constructor|done]|]. intros [Hm _]. by inversion Hm.
  - rewrite list_elem_of_bind. cbn in Hw, Hc. split.
    + intros (k & Hm & Hk). apply elem_of_seqZ in Hk. destruct (Z.leb_spec (k * w) B) as [Hle|]; [|by apply elem_of_nil in Hm].
      apply list_elem_of_fmap in Hm as (m' & -> & Hm). apply IH in Hm as [Hf Hwt]; [|lia]. split; [constructor; [cbn; lia|done]|]. unfold weight_of in *. cbn. lia.
    + intros [Hf Hwt]. inversion Hf as [|? k ? m' Hk Hf']; subst. pose proof (weight_nonneg _ _ Hps Hf') as Hpos. unfold weight_of in Hwt, Hpos. cbn [zip_with foldr fst snd] in *.
      exists k. split; [|apply elem_of_seqZ; lia]. destruct (Z.leb_spec (k * w) B); [|lia]. apply list_elem_of_fmap. exists m'. split; [done|]. apply IH; [lia|]. split; [done|]. unfold weight_of. lia.
Qed.

Lemma enum_head ps B : positions_ok ps -> 0 <= B -> exists l, enum ps B = zeros ps :: l.
Proof.
  intros Hps HB. induction Hps as [|[w c] ps [Hw Hc] Hps IH]; [by exists []|]. cbn in Hw, Hc. cbn [enum]. rewrite range_cons by lia. cbn [mbind list_bind]. rewrite Z.mul_0_l, Z.sub_0_r.
  replace (0 <=? B) with true by lia. destruct IH as (l & ->). cbn [fmap list_fmap app]. by eexists.
Qed.

(** The multisets that start with [k] or more. *)
Definition blocks (ps : list (Z * Z)) (w B : Z) (ks : list Z) : list (list Z) := k ← ks; if k * w <=? B then cons k <$> enum ps (B - k * w) else [].

Lemma blocks_beyond ps w c B k : 0 <= w -> B < k * w -> blocks ps w B (range k c) = [].
Proof.
  intros Hw Hk. unfold blocks. assert (forall x, x ∈ range k c -> k <= x) as Hx by (intros x [? ?]%elem_of_seqZ; lia).
  induction (range k c) as [|x l IH]; [done|]. cbn [mbind list_bind]. assert (k <= x) by (apply Hx; left). replace (x * w <=? B) with false by nia. apply IH. intros y Hy. apply Hx. by right.
Qed.

Lemma blocks_head ps w c B k :
  positions_ok ps -> 0 <= w -> 0 <= B -> 0 <= k ->
  head (blocks ps w B (range k (c + 1))) = if (k <=? c) && (k * w <=? B) then Some (k :: zeros ps) else None.
Proof.
  intros Hps Hw HB Hk. destruct (Z.leb_spec k c); cbn [andb]; [|by rewrite range_nil by lia]. destruct (Z.leb_spec (k * w) B) as [Hle|Hgt].
  - rewrite range_cons by lia. unfold blocks. cbn [mbind list_bind]. replace (k * w <=? B) with true by lia. destruct (enum_head ps (B - k * w) Hps) as (l & ->); [lia|]. done.
  - by rewrite blocks_beyond by lia.
Qed.

Lemma enum_succ ps B l1 m l2 : positions_ok ps -> 0 <= B -> enum ps B = l1 ++ m :: l2 -> succ ps B m = head l2.
Proof.
  intros Hps. revert B l1 m l2. induction Hps as [|[w c] ps [Hw Hc] Hps IH]; intros B l1 m l2 HB.
  { cbn [enum]. destruct l1 as [|? [|]]; intros [=]. by subst. }
  cbn in Hw, Hc. change (enum ((w, c) :: ps) B) with (blocks ps w B (range 0 (c + 1))). generalize (Z.le_refl 0). generalize 0 at 2 3 as k.
  intros k Hk. remember (Z.to_nat (c + 1 - k)) as n eqn:En. revert k Hk l1 En. induction n as [|n IHn]; intros k Hk l1 En E.
  { rewrite range_nil in E by lia. by destruct l1. }
  pose proof (blocks_head ps w c B (k + 1) Hps Hw HB ltac:(lia)) as Hnext. rewrite (range_cons k) in E by lia.
  destruct (Z.leb_spec (k * w) B) as [Hle|Hgt]. 2: { rewrite <- range_cons, blocks_beyond in E by lia. by destruct l1. }
  unfold blocks in E, Hnext. cbn [mbind list_bind] in E. replace (k * w <=? B) with true in E by lia. apply app_eq_inv in E as [(k' & E1 & E2)|(k' & E1 & E2)].
  - destruct k' as [|m' k'']; cbn in E2; [by apply (IHn (k + 1) ltac:(lia) [] ltac:(lia)); cbn|]. injection E2 as <- ->.
    apply fmap_app_inv in E1 as (e1 & e2 & -> & E2 & E3). symmetry in E2. apply fmap_cons_inv in E2 as (x & e2' & -> & -> & ->).
    cbn [succ]. rewrite (IH (B - k * w) e1 x e2' ltac:(lia) E3). destruct e2' as [|y e2']; [|done]. cbn [head fmap list_fmap app]. rewrite Hnext. replace (k + 1 <=? c) with (k <? c) by lia. done.
  - apply (IHn (k + 1) ltac:(lia) k' ltac:(lia) E2).
Qed.

Lemma enum_NoDup ps B : NoDup (enum ps B).
Proof.
  revert B. induction ps as [|[w c] ps IH]; intros B; cbn [enum]; [apply NoDup_singleton|]. apply NoDup_bind.
  - intros k1 k2 m _ _ H1 H2. destruct (k1 * w <=? B); [|by apply elem_of_nil in H1]. destruct (k2 * w <=? B); [|by apply elem_of_nil in H2].
    apply list_elem_of_fmap in H1 as (m1 & -> & _). apply list_elem_of_fmap in H2 as (m2 & [= ->] & _). done.
  - intros k _. destruct (k * w <=? B); [|constructor]. apply NoDup_fmap; [intros m1 m2 [= ->]; done|apply IH].
  - apply NoDup_seqZ.
Qed.

Lemma enum_length ps B : positions_ok ps -> Z.of_nat (length (enum ps B)) <= foldr (fun p acc => (p.2 + 1) * acc) 1 ps.
Proof.
  intros Hps. revert B. induction Hps as [|[w c] ps [Hw Hc] Hps IH]; intros B; cbn [enum foldr snd]; [cbn; lia|]. cbn in Hw, Hc.
  set (X := foldr _ _ _) in *. assert (0 <= X) as HX by (specialize (IH 0); lia).
  cut (forall ks, Z.of_nat (length (k ← ks; if k * w <=? B then cons k <$> enum ps (B - k * w) else [])) <= zlen ks * X).
  { intros Hcut. specialize (Hcut (range 0 (c + 1))). assert (zlen (range 0 (c + 1)) = c + 1) as El by (unfold zlen, range; rewrite length_seqZ; lia). rewrite El in Hcut. exact Hcut. }
  intros ks. induction ks as [|k ks IHk]; [done|]. cbn [mbind list_bind]. rewrite length_app. unfold zlen in *. cbn [length].
  destruct (k * w <=? B); [rewrite length_fmap; specialize (IH (B - k * w)); nia|cbn [length]; nia].
Qed.

Lemma succ_snoc ps w c B m k :
  length m = length ps ->
  succ (ps ++ [(w, c)]) B (m ++ [k]) = if (k <? c) && (weight_of ps m + (k + 1) * w <=? B) then Some (m ++ [k + 1]) else (fun m' => m' ++ [0]) <$> succ ps B m.
Proof.
  revert B m. induction ps as [|[w0 c0] ps IH]; intros B m Hl; destruct m as [|k0 m]; try discriminate.
  - unfold weight_of. cbn [app succ zip_with foldr fmap list_fmap]. rewrite Z.add_0_l. by destruct ((k <? c) && ((k + 1) * w <=? B)).
  - injection Hl as Hl. cbn [app succ]. rewrite IH by done. unfold weight_of. cbn [zip_with foldr fst]. fold (weight_of ps m).
    replace (weight_of ps m + (k + 1) * w <=? B - k0 * w0) with (k0 * w0 + weight_of ps m + (k + 1) * w <=? B) by lia.
    destruct ((k <? c) && (k0 * w0 + weight_of ps m + (k + 1) * w <=? B)); [done|]. destruct (succ ps (B - k0 * w0) m) as [m'|]; [done|]. cbn [fmap option_fmap option_map].
    destruct ((k0 <? c0) && ((k0 + 1) * w0 <=? B)); [|done]. cbn. do 2 f_equal. by rewrite fmap_app.
Qed.

Lemma succ_None ps B m : Forall2 (fun p e => p.2 <= e) ps m -> succ ps B m = None.
Proof.
  intros Hm. revert B. induction Hm as [|[w c] k ps m Hk _ IH]; intros B; [done|]. cbn [succ]. rewrite IH. cbn in Hk. by replace (k <? c) with false by lia.
Qed.
