(* ===== verification/MultisetTheorems.v ===== *)
(** The iterator of [Multisets] gives exactly the multisets of the reference enumeration
    that its configuration asks for, each once. *)
From S2P Require Import Prelude SvIntervals SmartVectors SymTheorems Multisets.
From Stdlib Require Import ZifyBool.

(** The positions that the loop does not ignore keep their exponent; those with a small
    weight, and those before the last [NLast] ones, are not changed.  From the last
    position to the first. *)
Fixpoint caps (cfg : DegreeReductionConfig) (rps : list (Z * Z)) (cnt : Z) : list (Z * Z) :=
  match rps with
  | [] => []
  | (w, m) :: rps =>
      if w <? MinWeightForTerm cfg then (w, 0) :: caps cfg rps cnt else
      if (0 <? NLast cfg) && (NLast cfg <? cnt + 1) then (w, 0) :: caps cfg rps (cnt + 1) else (w, m) :: caps cfg rps (cnt + 1)
  end.

Definition positions (cfg : DegreeReductionConfig) (ws mx : list Z) (cnt : Z) : list (Z * Z) := reverse (caps cfg (reverse (zip ws mx)) cnt).

Lemma caps_beyond cfg rps cnt : 0 < NLast cfg <= cnt -> Forall (fun p => p.2 = 0) (caps cfg rps cnt).
Proof.
  revert cnt. induction rps as [|[w m] rps IH]; intros cnt Hc; cbn [caps]; [constructor|]. destruct (w <? MinWeightForTerm cfg); [constructor; [done|by apply IH]|].
  replace ((0 <? NLast cfg) && (NLast cfg <? cnt + 1)) with true by lia. constructor; [done|]. apply IH. lia.
Qed.

Lemma positions_snoc cfg ws mx w m cnt :
  length ws = length mx ->
  positions cfg (ws ++ [w]) (mx ++ [m]) cnt =
    if w <? MinWeightForTerm cfg then positions cfg ws mx cnt ++ [(w, 0)] else
    positions cfg ws mx (cnt + 1) ++ [(w, if (0 <? NLast cfg) && (NLast cfg <? cnt + 1) then 0 else m)].
Proof.
  intros Hl. unfold positions. rewrite zip_with_app by done. cbn [zip_with]. rewrite reverse_snoc. cbn [caps].
  destruct (w <? MinWeightForTerm cfg); [by rewrite reverse_cons|]. by destruct ((0 <? NLast cfg) && (NLast cfg <? cnt + 1)); rewrite reverse_cons.
Qed.

Lemma positions_weights cfg ws mx cnt : length ws = length mx -> (positions cfg ws mx cnt).*1 = ws.
Proof.
  revert mx cnt. induction ws as [|w ws IH] using rev_ind; intros mx cnt Hl.
  - by destruct mx.
  - destruct mx as [|m mx _] using rev_ind; rewrite !length_app in Hl; cbn in Hl; [lia|]. rewrite positions_snoc by lia.
    destruct (w <? MinWeightForTerm cfg); rewrite fmap_app, IH by lia; done.
Qed.

Lemma positions_caps cfg ws mx cnt : length ws = length mx -> Forall2 (fun p m => p.2 = 0 \/ p.2 = m) (positions cfg ws mx cnt) mx.
Proof.
  revert mx cnt. induction ws as [|w ws IH] using rev_ind; intros mx cnt Hl.
  - destruct mx; [constructor|done].
  - destruct mx as [|m mx _] using rev_ind; rewrite !length_app in Hl; cbn in Hl; [lia|]. rewrite positions_snoc by lia.
    destruct (w <? MinWeightForTerm cfg); (apply Forall2_app; [apply IH; lia|]); (constructor; [|by constructor]); cbn; [by left|]. destruct ((0 <? NLast cfg) && (NLast cfg <? cnt + 1)); auto.
Qed.

(** ** Weights *)

Definition wt (ws m : list Z) : Z := foldr Z.add 0 (zip_with (fun w e => e * w) ws m).

Lemma weight_of_wt ps m : weight_of ps m = wt ps.*1 m.
Proof. unfold weight_of, wt. by rewrite zip_with_fmap_l. Qed.

Lemma wt_snoc ws m w e : length ws = length m -> wt (ws ++ [w]) (m ++ [e]) = wt ws m + e * w.
Proof. intros Hl. unfold wt. rewrite zip_with_app by done. cbn [zip_with]. induction (zip_with _ ws m) as [|x l IH]; cbn [app foldr]; lia. Qed.

(** Exponents between zero and the ones of a multiset. *)
Definition below (mx m : list Z) : Prop := Forall2 (fun x e => 0 <= e <= x) mx m.

Lemma wt_below ws mx m : Forall (Z.le 0) ws -> length ws = length mx -> below mx m -> 0 <= wt ws m <= wt ws mx.
Proof.
  intros Hw Hl Hb. revert ws Hw Hl. induction Hb as [|x e mx m He _ IH]; intros [|w ws] Hw Hl; try discriminate; [cbn; lia|]. apply Forall_cons in Hw as [Hw0 Hw].
  injection Hl as Hl. specialize (IH ws Hw Hl). unfold wt in *. cbn [zip_with foldr]. nia.
Qed.

Lemma below_caps (ps : list (Z * Z)) mx m : Forall2 (fun p x => p.2 = 0 \/ p.2 = x) ps mx -> Forall (Z.le 0) mx -> Forall2 (fun p e => 0 <= e <= p.2) ps m -> below mx m.
Proof.
  intros Hc Hmx Hm. revert m Hm. induction Hc as [|p x ps mx Hp _ IH]; intros m Hm; inversion Hm; subst; [constructor|].
  apply Forall_cons in Hmx as [Hx Hmx]. constructor; [cbn in *; lia|by apply IH].
Qed.

Lemma caps_bounds (ps : list (Z * Z)) mx : Forall2 (fun p x => p.2 = 0 \/ p.2 = x) ps mx -> Forall (Z.le 0) mx -> Forall2 (fun p x => 0 <= p.2 <= x) ps mx.
Proof. intros Hc Hmx. induction Hc as [|p x ps mx Hp _ IH]; [constructor|]. apply Forall_cons in Hmx as [Hx Hmx]. constructor; [lia|by apply IH]. Qed.

Lemma caps_product (ps : list (Z * Z)) mx :
  Forall2 (fun p x => 0 <= p.2 <= x) ps mx -> 1 <= foldr (fun p acc => (p.2 + 1) * acc) 1 ps <= foldr (fun e acc => (Z.max 0 e + 1) * acc) 1 mx.
Proof. intros Hc. induction Hc as [|p x ps mx Hp _ IH]; cbn [foldr]; [lia|nia]. Qed.

Lemma i64_id z : 0 <= z < 2 ^ 63 -> i64 z = z.
Proof. intros Hz. apply swrap_small; [|lia]. unfold is_i. change (2 ^ (64 - 1)) with (2 ^ 63). lia. Qed.

Section Loop.
Context (it : weightedSubMultisetIterator).
Local Abbreviation cfg := (iter_config it).
Local Abbreviation ws := (weights it).
Local Abbreviation mx := (maxExponents it).
Context (Hlen : length ws = length mx) (Hws : Forall (Z.le 0) ws) (Hmx : Forall (Z.le 0) mx) (Hsum : wt ws mx < 2 ^ 63).

Lemma isFull_ok c : length c = length mx -> isFull it c = Ok (bool_decide (c = mx)).
Proof.
  intros Hl. unfold isFull. rewrite (foldM_index2 (fun full e m => Ok (full && (e =? m)))) by done. clear Hlen Hmx Hsum. generalize dependent mx. intros mx' Hl.
  cut (forall b, foldM (fun st t => Ok (E := Empty_set) (st && (t.1 =? t.2))) b (zip c mx') = Ok (b && bool_decide (c = mx'))); [intros Hb; apply (Hb true)|].
  revert mx' Hl. induction c as [|e c IH]; intros [|m mx'] Hl b; try discriminate; cbn [zip zip_with foldM fst snd mbind outcome_bind].
  - rewrite bool_decide_eq_true_2 by done. by destruct b.
  - rewrite IH by (by injection Hl). f_equal. destruct (Z.eqb_spec e m) as [->|Hne].
    + rewrite andb_true_r. f_equal. apply bool_decide_ext. split; [by intros ->|by intros [= ->]].
    + rewrite andb_false_r, andb_false_l, (bool_decide_eq_false_2 (e :: c = _)) by (by intros [= -> _]). by destruct b.
Qed.

Lemma weight_ok c : below mx c -> currentTotalWeight (with_curr it c false) = Ok (wt ws c).
Proof.
  intros Hb. pose proof (Forall2_length _ _ _ Hb) as Hl. unfold currentTotalWeight. cbn [curr with_curr weights].
  rewrite (foldM_index2 (fun sum e w => Ok (i64 (sum + i64 (e * w))))) by lia.
  cut (forall ws' mx' c' s, Forall (Z.le 0) ws' -> below mx' c' -> length ws' = length mx' -> 0 <= s -> s + wt ws' mx' < 2 ^ 63 ->
    foldM (fun sum t => Ok (E := Empty_set) (i64 (sum + i64 (t.1 * t.2)))) s (zip c' ws') = Ok (s + wt ws' c')).
  { intros Hcut. rewrite (Hcut ws mx c 0) by (done || lia). done. }
  clear. intros ws' mx' c' s Hw Hb. revert ws' s Hw. induction Hb as [|x e mx' c' He Hb IH]; intros [|w ws'] s Hw Hl Hs Ht; try discriminate; [by rewrite Z.add_0_r|].
  apply Forall_cons in Hw as [Hw0 Hw]. injection Hl as Hl. pose proof (wt_below _ _ _ Hw Hl Hb) as Hwt. unfold wt in *. cbn [zip_with foldr zip foldM fst snd] in *.
  rewrite (i64_id (e * w)) by nia. rewrite i64_id by nia. cbn [mbind outcome_bind]. rewrite IH by (done || nia). f_equal. lia.
Qed.

(** When everything is at its largest, the loop only resets positions. *)
Lemma full_ends n cnt total c : (n <= length ws)%nat -> length c = length ws -> (forall i, (i < n)%nat -> c !! i = mx !! i) -> exists c', next_loop it n cnt total c = Ok (Ended, c').
Proof.
  revert cnt total c. induction n as [|n IH]; intros cnt total c Hn Hc Hf; [by eexists|]. cbn [next_loop].
  destruct (lookup_lt_is_Some_2 ws n) as (w & Ew); [lia|]. destruct (lookup_lt_is_Some_2 mx n) as (m & Em); [lia|].
  assert (forall (l : list Z) x, l !! n = Some x -> index l (Z.of_nat n) = Ok x) as Hix by (intros l x Hx; unfold index; replace (0 <=? Z.of_nat n) with true by lia; by rewrite Nat2Z.id, Hx).
  rewrite (Hix _ _ Ew). cbn [mbind outcome_bind]. destruct (w <? MinWeightForTerm cfg); [apply IH; try lia; intros; apply Hf; lia|].
  destruct ((0 <? NLast cfg) && (NLast cfg <? cnt + 1)); [by eexists|]. rewrite (Hix c m), (Hix _ _ Em) by (rewrite Hf by lia; done). cbn [mbind outcome_bind].
  replace (m <? m) with false by lia. cbn [andb]. unfold set_index, zlen. replace ((0 <=? Z.of_nat n) && (Z.of_nat n <? Z.of_nat (length c))) with true by lia. cbn [mbind outcome_bind].
  rewrite Nat2Z.id. apply IH; [lia|by rewrite length_insert|]. intros i Hi. rewrite list_lookup_insert_ne by lia. apply Hf. lia.
Qed.

(** What the loop gives when [m] is the multiset after the current one, at the positions
    that are left; [zs] are the positions that have been reset. *)
Definition loop_result (ws1 zs : list Z) (s : option (list Z)) (r : go (verdict * list Z)) : Prop :=
  match s with
  | None => exists c', r = Ok (Ended, c')
  | Some m =>
      if wt ws1 m <? MinDegreeForCandidate cfg then r = Ok (Again, m ++ zs)
      else if bool_decide (m ++ zs = mx) then exists c', r = Ok (Ended, c') else r = Ok (Found, m ++ zs)
  end.

Lemma lookup_index {A} (l k : list A) x n : length l = n -> index (l ++ x :: k) (Z.of_nat n) = Ok x.
Proof. intros <-. apply index_middle. Qed.

Lemma loop_result_snoc ws1 zs w s r : (forall m, s = Some m -> length m = length ws1) -> loop_result ws1 (0 :: zs) s r -> loop_result (ws1 ++ [w]) zs ((fun m => m ++ [0]) <$> s) r.
Proof.
  intros Hs. destruct s as [m|]; [|done]. cbn [loop_result fmap option_fmap option_map]. rewrite wt_snoc by (symmetry; by apply Hs).
  rewrite Z.mul_0_l, Z.add_0_r, <- app_assoc. done.
Qed.

Lemma succ_length ps B m m' : succ ps B m = Some m' -> length m = length ps -> length m' = length ps.
Proof.
  revert B m m'. induction ps as [|[w c] ps IH]; intros B [|k m] m' E Hl; try discriminate. cbn [succ] in E. injection Hl as Hl.
  destruct (succ ps (B - k * w) m) as [m1|] eqn:E1; [injection E as <-; cbn; f_equal; by eapply IH|]. destruct ((k <? c) && ((k + 1) * w <=? B)); [|discriminate]. injection E as <-. cbn. by rewrite length_fmap.
Qed.

Lemma set_middle {A} (l k : list A) x y n : length l = n -> set_index (l ++ x :: k) (Z.of_nat n) y = Ok (l ++ y :: k).
Proof.
  intros <-. unfold set_index, zlen. rewrite length_app. cbn [length]. replace ((0 <=? Z.of_nat (length l)) && (Z.of_nat (length l) <? Z.of_nat (length l + S (length k)))) with true by lia.
  rewrite Nat2Z.id. f_equal. rewrite insert_app_r_alt by lia. by rewrite Nat.sub_diag.
Qed.

(** A position that is not at its largest. *)
Lemma found_ok n cnt ws1 ws2 mx1 mx2 c0 zs w m e total :
  length ws1 = n -> length mx1 = n -> length c0 = n -> ws = ws1 ++ w :: ws2 -> mx = mx1 ++ m :: mx2 -> length zs = length ws2 -> 0 <= e ->
  loop_result (ws1 ++ [w]) zs (Some (c0 ++ [e + 1]))
    (if wt ws1 c0 + (e + 1) * w <? MinDegreeForCandidate cfg then Ok (Again, c0 ++ e + 1 :: zs) else
     full ← isFull it (c0 ++ e + 1 :: zs); if full || isEmpty (c0 ++ e + 1 :: zs) then next_loop it n cnt total (c0 ++ e + 1 :: zs) else Ok (Found, c0 ++ e + 1 :: zs)).
Proof.
  intros L1 L2 L3 Ew Em Lz He. cbn [loop_result]. rewrite wt_snoc by lia. rewrite <- app_assoc. cbn [app]. destruct (wt ws1 c0 + (e + 1) * w <? MinDegreeForCandidate cfg); [done|].
  assert (length (c0 ++ e + 1 :: zs) = length mx) as Hl by (rewrite <- Hlen, Ew, !length_app; cbn [length]; lia). rewrite isFull_ok by done. cbn [mbind outcome_bind].
  assert (isEmpty (c0 ++ e + 1 :: zs) = false) as ->.
  { unfold isEmpty. rewrite forallb_app. cbn [forallb]. replace (e + 1 =? 0) with false by lia. by rewrite andb_false_l, andb_false_r. }
  rewrite orb_false_r. case_bool_decide as Ef; [|done]. apply full_ends; [rewrite Ew, length_app; lia|by rewrite Hlen|]. intros i Hi. by rewrite Ef.
Qed.

Lemma loop_ok n cnt ws1 ws2 mx1 mx2 c1 zs :
  length ws1 = n -> length mx1 = n -> ws = ws1 ++ ws2 -> mx = mx1 ++ mx2 -> length zs = length ws2 ->
  Forall2 (fun p e => 0 <= e <= p.2) (positions cfg ws1 mx1 cnt) c1 -> wt ws1 mx1 < 2 ^ 63 ->
  loop_result ws1 zs (succ (positions cfg ws1 mx1 cnt) (maxWeight it) c1) (next_loop it n cnt (wt ws1 c1) (c1 ++ zs)).
Proof.
  revert cnt ws1 ws2 mx1 mx2 c1 zs. induction n as [|n IH]; intros cnt ws1 ws2 mx1 mx2 c1 zs L1 L2 Ew Em Lz Hc Hs.
  { destruct ws1, mx1; try discriminate. inversion Hc; subst. by eexists. }
  destruct ws1 as [|w ws1 _] using rev_ind; [discriminate|]. destruct mx1 as [|m mx1 _] using rev_ind; [discriminate|]. rewrite length_app in L1, L2. cbn in L1, L2.
  pose proof Hws as Hw. rewrite Ew, !Forall_app in Hw. destruct Hw as [[Hw1 Hw] _]. apply Forall_cons in Hw as [Hw _].
  pose proof Hmx as Hm. rewrite Em, !Forall_app in Hm. destruct Hm as [[Hm1 Hm] _]. apply Forall_cons in Hm as [Hm _].
  rewrite wt_snoc in Hs by lia. rewrite positions_snoc in * by lia. rewrite <- app_assoc in Ew, Em. cbn [app] in Ew, Em.
  assert (forall cnt cap, Forall2 (fun p e => 0 <= e <= p.2) (positions cfg ws1 mx1 cnt ++ [(w, cap)]) c1 -> exists c0 e, c1 = c0 ++ [e] /\ Forall2 (fun p e => 0 <= e <= p.2) (positions cfg ws1 mx1 cnt) c0 /\
    0 <= e <= cap /\ length c0 = n /\ length (positions cfg ws1 mx1 cnt) = n /\ 0 <= wt ws1 c0 <= wt ws1 mx1) as Hsplit.
  { clear Hc. intros cnt' cap Hc. apply Forall2_app_inv_l in Hc as (c0 & c' & Hc0 & Hc' & ->). apply Forall2_cons_inv_l in Hc' as (e & c'' & He & Hn & ->). apply Forall2_nil_inv_l in Hn as ->.
    exists c0, e. assert (length (positions cfg ws1 mx1 cnt') = n) as Hp by (rewrite <- (length_fmap fst), positions_weights; lia). pose proof (Forall2_length _ _ _ Hc0).
    split; [done|]. split; [done|]. split; [done|]. split; [lia|]. split; [done|]. apply wt_below; [done|lia|]. eapply below_caps; [apply (positions_caps cfg ws1 mx1 cnt'); lia|done|exact Hc0]. }
  cbn [next_loop]. rewrite Ew, lookup_index by lia. cbn [mbind outcome_bind]. destruct (w <? MinWeightForTerm cfg).
  { destruct (Hsplit _ _ Hc) as (c0 & e & -> & Hc0 & He & L3 & L4 & Hb). assert (e = 0) as -> by lia. rewrite succ_snoc, wt_snoc by lia. cbn [Z.ltb andb]. rewrite Z.mul_0_l, Z.add_0_r, <- app_assoc. cbn [app].
    apply loop_result_snoc; [intros m0 E0; apply succ_length in E0; lia|]. apply (IH cnt ws1 (w :: ws2) mx1 (m :: mx2)); (done || cbn [length]; nia). }
  destruct ((0 <? NLast cfg) && (NLast cfg <? cnt + 1)) eqn:Eb.
  { rewrite succ_None; [by eexists|]. destruct (Hsplit _ _ Hc) as (c0 & e & -> & Hc0 & He & _). apply Forall2_app; [|constructor; [cbn; lia|constructor]].
    pose proof (caps_beyond cfg (reverse (zip ws1 mx1)) (cnt + 1) ltac:(lia)) as Hz. apply Forall_reverse in Hz. fold (positions cfg ws1 mx1 (cnt + 1)) in Hz. clear -Hc0 Hz.
    induction Hc0 as [|p x ps c0 Hp _ IH]; [constructor|]. apply Forall_cons in Hz as [Hz1 Hz]. constructor; [lia|by apply IH]. }
  destruct (Hsplit _ _ Hc) as (c0 & e & -> & Hc0 & He & L3 & L4 & Hb). rewrite <- app_assoc, Em. cbn [app]. rewrite (lookup_index c0), (lookup_index mx1) by lia. cbn [mbind outcome_bind].
  rewrite succ_snoc, wt_snoc, weight_of_wt, positions_weights by lia.
  destruct (Z.ltb_spec e m) as [Hlt|Hge]; cbn [andb].
  - rewrite (i64_id (wt ws1 c0 + e * w + w)) by nia. replace (wt ws1 c0 + e * w + w) with (wt ws1 c0 + (e + 1) * w) by lia. destruct (wt ws1 c0 + (e + 1) * w <=? maxWeight it).
    + rewrite set_middle by lia. cbn [mbind outcome_bind]. apply (found_ok n (cnt + 1) ws1 ws2 mx1 mx2 c0 zs w m e); (done || lia).
    + rewrite set_middle by lia. cbn [mbind outcome_bind]. rewrite (i64_id (e * w)) by nia. replace (wt ws1 c0 + e * w - e * w) with (wt ws1 c0) by lia. rewrite i64_id by nia.
      apply loop_result_snoc; [intros m0 E0; apply succ_length in E0; lia|]. apply (IH (cnt + 1) ws1 (w :: ws2) mx1 (m :: mx2)); (done || cbn [length]; nia).
  - rewrite set_middle by lia. cbn [mbind outcome_bind]. rewrite (i64_id (e * w)) by nia. replace (wt ws1 c0 + e * w - e * w) with (wt ws1 c0) by lia. rewrite i64_id by nia.
    apply loop_result_snoc; [intros m0 E0; apply succ_length in E0; lia|]. apply (IH (cnt + 1) ws1 (w :: ws2) mx1 (m :: mx2)); (done || cbn [length]; nia).
Qed.

(** ** The sequence of multisets *)

Context (HB : 0 <= maxWeight it).
Local Abbreviation ps := (positions cfg ws mx 0).
Local Abbreviation all := (enum ps (maxWeight it)).
Local Abbreviation at_ c := (with_curr it c false).

Lemma positions_are_ok : positions_ok ps.
Proof.
  pose proof (positions_weights cfg ws mx 0 Hlen) as Hw. pose proof (caps_bounds _ _ (positions_caps cfg ws mx 0 Hlen) Hmx) as Hc.
  assert (Forall (Z.le 0) (ps.*1)) as H1 by (by rewrite Hw). rewrite Forall_forall in H1. apply Forall_forall. intros p Hp. split; [apply H1; by apply list_elem_of_fmap_2|].
  apply list_elem_of_lookup in Hp as (i & Hi). destruct (Forall2_lookup_l _ _ _ _ _ Hc Hi) as (x & _ & Hx). lia.
Qed.

(** The multisets that the iterator stops at. *)
Definition wanted (m : list Z) : bool := (MinDegreeForCandidate cfg <=? wt ws m) && negb (bool_decide (m = mx)).

Lemma next_rec_ok fuel m l1 l2 :
  all = l1 ++ m :: l2 -> (length l2 < fuel)%nat ->
  (exists pre x post, l2 = pre ++ x :: post /\ Forall (fun y => wanted y = false) pre /\ wanted x = true /\ next_rec fuel (at_ m) = Ok (true, at_ x)) \/
  (Forall (fun y => wanted y = false) l2 /\ exists it', next_rec fuel (at_ m) = Ok (false, it')).
Proof.
  revert m l1 l2. induction fuel as [|fuel IH]; intros m l1 l2 E Hf; [lia|]. pose proof positions_are_ok as Hps.
  assert (Forall2 (fun p e => 0 <= e <= p.2) ps m) as Hm by (apply (enum_elem ps (maxWeight it) m Hps HB); rewrite E; set_solver).
  assert (below mx m) as Hb by (by eapply below_caps; [apply (positions_caps cfg ws mx 0)|..]). cbn [next_rec]. rewrite weight_ok by done. cbn [mbind outcome_bind exhausted with_curr curr].
  pose proof (loop_ok (length m) 0 ws [] mx [] m []) as Hloop. rewrite !app_nil_r, (enum_succ ps (maxWeight it) l1 m l2) in Hloop by done. pose proof (Forall2_length _ _ _ Hb).
  specialize (Hloop ltac:(lia) ltac:(lia) eq_refl eq_refl eq_refl Hm Hsum). unfold loop_result in Hloop.
  change (next_loop (at_ m)) with (next_loop it). destruct l2 as [|x l2]; cbn [head] in Hloop.
  { destruct Hloop as (c' & ->). right. split; [constructor|]. by eexists. }
  rewrite app_nil_r in Hloop. destruct (Z.ltb_spec (wt ws x) (MinDegreeForCandidate cfg)) as [Hlt|Hge].
  - rewrite Hloop. cbn [mbind outcome_bind]. change (with_curr (at_ m) x false) with (at_ x). assert (wanted x = false) as Hx by (unfold wanted; replace (MinDegreeForCandidate cfg <=? wt ws x) with false by lia; done).
    destruct (IH x (l1 ++ [m]) l2) as [(pre & y & post & -> & Hpre & Hy & En)|(Hall & it' & En)]; [by rewrite <- app_assoc|cbn in Hf; lia| |].
    + left. exists (x :: pre), y, post. split_and!; try done. by constructor.
    + right. split; [by constructor|]. by exists it'.
  - assert (wanted x = negb (bool_decide (x = mx))) as Hx by (unfold wanted; replace (MinDegreeForCandidate cfg <=? wt ws x) with true by lia; done). case_bool_decide as Ex.
    + destruct Hloop as (c' & ->). right. split; [|by eexists]. constructor; [done|]. subst x.
      assert (succ ps (maxWeight it) mx = None) as En.
      { apply succ_None. eapply Forall2_impl; [apply (caps_bounds _ _ (positions_caps cfg ws mx 0 Hlen) Hmx)|]. cbn. lia. }
      rewrite (enum_succ ps (maxWeight it) (l1 ++ [m]) mx l2) in En by (try done; by rewrite E, <- app_assoc). destruct l2; [constructor|discriminate].
    + rewrite Hloop. left. exists [], x, l2. split_and!; try done; constructor.
Qed.

Lemma iterations_enough : (length all <= iterations mx)%nat.
Proof.
  pose proof (enum_length ps (maxWeight it) positions_are_ok) as Hl. pose proof (caps_product _ _ (caps_bounds _ _ (positions_caps cfg ws mx 0 Hlen) Hmx)). unfold iterations. lia.
Qed.

Lemma for_next_ok {St} (body : St -> weightedSubMultisetIterator -> go St) fuel m l1 l2 st :
  all = l1 ++ m :: l2 -> (length l2 < fuel)%nat -> for_next body fuel (at_ m) st = foldM (fun st x => body st (at_ x)) st (filter (fun x => wanted x = true) l2).
Proof.
  revert m l1 l2 st. induction fuel as [|fuel IH]; intros m l1 l2 st E Hf; [lia|]. cbn [for_next]. unfold next. cbn [maxExponents with_curr].
  assert (forall pre k, Forall (fun y => wanted y = false) pre -> filter (fun x => wanted x = true) (pre ++ k) = filter (fun x => wanted x = true) k) as Hskip.
  { intros pre k Hp. induction Hp as [|y pre Hy _ IHp]; [done|]. cbn [app]. by rewrite filter_cons_False by congruence. }
  destruct (next_rec_ok (iterations mx) m l1 l2 E) as [(pre & x & post & -> & Hpre & Hx & ->)|(Hall & it' & ->)].
  - pose proof iterations_enough as Hi. rewrite E, length_app in Hi. cbn [length] in Hi. lia.
  - cbn [mbind outcome_bind fst snd]. rewrite Hskip, filter_cons_True by done. cbn [foldM]. destruct (body st (at_ x)) as [st'|[]|]; try done. cbn [mbind outcome_bind].
    apply (IH x (l1 ++ m :: pre) post); [rewrite E, <- app_assoc; done|]. rewrite length_app in Hf. cbn [length] in Hf. lia.
  - cbn [mbind outcome_bind fst snd]. pose proof (Hskip l2 [] Hall) as Hk. rewrite app_nil_r in Hk. by rewrite Hk.
Qed.
End Loop.

(** ** What a loop over the iterator sees *)

(** A new iterator is at the empty multiset, the first of the enumeration. *)
Lemma for_iterator_ok {St} (body : St -> weightedSubMultisetIterator -> go St) exponents ws B cfg st :
  length ws = length exponents -> Forall (Z.le 0) ws -> Forall (Z.le 0) exponents -> wt ws exponents < 2 ^ 63 -> 0 <= B ->
  let it := newWeightedSubMultisetIterator exponents (Some ws) B cfg in
  exists l, enum (positions cfg ws exponents 0) B = ((fun _ => 0) <$> exponents) :: l /\
    for_iterator body it st = foldM (fun st x => body st (with_curr it x false)) st (filter (fun x => wanted it x = true) l).
Proof.
  intros Hl Hw He Hs HB it. pose proof (positions_are_ok it Hl Hw He) as Hps. change (positions_ok (positions cfg ws exponents 0)) in Hps.
  destruct (enum_head _ B Hps HB) as (l & E). assert ((fun _ : Z * Z => 0) <$> positions cfg ws exponents 0 = (fun _ => 0) <$> exponents) as Ez.
  { rewrite !(const_fmap _ _ 0) by done. f_equal. rewrite <- (length_fmap fst), positions_weights by done. done. }
  rewrite Ez in E. exists l. split; [done|]. unfold for_iterator. apply (for_next_ok it Hl Hw He Hs HB body _ _ []); [exact E|].
  pose proof (iterations_enough it Hl Hw He) as Hi. change (length (enum (positions cfg ws exponents 0) B) <= iterations exponents)%nat in Hi. rewrite E in Hi. cbn [length] in Hi. cbn [maxExponents it newWeightedSubMultisetIterator]. lia.
Qed.

(** C24. The iterator over the products inside of a product: its loop ends, and sees each
    multiset of exponents once, namely those that only use the positions of the
    configuration, are not empty and not the whole product, and have a weight between
    the minimal degree and the bound. *)
Theorem multisets_exact exponents ws B cfg :
  length ws = length exponents -> Forall (Z.le 0) ws -> Forall (Z.le 0) exponents -> wt ws exponents < 2 ^ 63 -> 0 <= B ->
  exists l, multisets (newWeightedSubMultisetIterator exponents (Some ws) B cfg) = Ok l /\ NoDup l /\
    forall m, m ∈ l <-> Forall2 (fun p e => 0 <= e <= p.2) (positions cfg ws exponents 0) m /\ MinDegreeForCandidate cfg <= wt ws m <= B /\ m <> (fun _ => 0) <$> exponents /\ m <> exponents.
Proof.
  intros Hl Hw He Hs HB. set (it := newWeightedSubMultisetIterator exponents (Some ws) B cfg). pose proof (positions_are_ok it Hl Hw He) as Hps. change (positions_ok (positions cfg ws exponents 0)) in Hps.
  destruct (for_iterator_ok (fun l it => Ok (l ++ [curr it])) exponents ws B cfg [] Hl Hw He Hs HB) as (l & E & Ef). fold it in Ef.
  exists (filter (fun x => wanted it x = true) l). split; [|split].
  - unfold multisets. rewrite Ef. generalize (filter (fun x => wanted it x = true) l) as k. intros k. cbn [curr with_curr].
    cut (forall acc, foldM (fun st x => Ok (E := Empty_set) (st ++ [x])) acc k = Ok (acc ++ k)); [intros Hc; apply (Hc [])|].
    induction k as [|x k IH]; intros acc; cbn [foldM]; [by rewrite app_nil_r|]. cbn [mbind outcome_bind]. rewrite IH, <- app_assoc. done.
  - apply NoDup_filter. pose proof (enum_NoDup (positions cfg ws exponents 0) B) as Hn. rewrite E in Hn. by apply NoDup_cons in Hn as [_ Hn].
  - intros m. pose proof (enum_NoDup (positions cfg ws exponents 0) B) as Hn. pose proof (enum_elem (positions cfg ws exponents 0) B m Hps HB) as Hm. rewrite E in Hn, Hm. apply NoDup_cons in Hn as [Hn _].
    rewrite weight_of_wt, positions_weights in Hm by done. rewrite list_elem_of_filter. unfold wanted. cbn [iter_config weights maxExponents it newWeightedSubMultisetIterator].
    rewrite andb_true_iff, negb_true_iff, bool_decide_eq_false, Z.leb_le. rewrite elem_of_cons in Hm. split.
    + intros [[H1 H2] H3]. destruct (proj1 Hm (or_intror H3)) as [H4 H5]. split; [done|]. split; [lia|]. split; [|done]. intros ->. done.
    + intros (H1 & H2 & H3 & H4). split; [split; [lia|done]|]. destruct (proj2 Hm) as [->|]; [split; [done|lia]|done|done].
Qed.

Lemma multisets_exact_witness :
  exists l, multisets (newWeightedSubMultisetIterator [2; 1; 1] (Some [1; 2; 0]) 3 (mkConfig 1 2 2 0 0)) = Ok l /\ NoDup l /\ [1; 1; 0] ∈ l /\ ~ [0; 0; 1] ∈ l.
Proof.
  destruct (multisets_exact [2; 1; 1] [1; 2; 0] 3 (mkConfig 1 2 2 0 0)) as (l & E & Hn & Hm); [done|by repeat constructor|by repeat constructor|by vm_compute|lia|].
  exists l. split; [exact E|]. split; [exact Hn|]. vm_compute in E. injection E as <-. split; [set_solver|]. intros Hin. apply Hm in Hin as (_ & Hw & _). vm_compute in Hw. by destruct Hw.
Defined.
