(* ===== verification/Reduction.v ===== *)
(** Rebuilding symbolic expressions and reducing their degree: [prover/symbolic], the
    remaining functions of [expression.go], [ExpressionBoard.Degree] of
    [evaluation.go], [degree_reduction.go], and
    [prover/utils/collection/deterministic_map.go].

    The degree reduction replaces products that occur often in the expressions of too
    high a degree by new variables, until the degrees are below the bound.

    Expressions are compared as pointers in two places, to keep an expression none of
    whose children has changed.  [same] is the comparison of pointers; it is only known
    that equal pointers point to equal expressions.  The degrees that the expressions
    cache are computed again here: they do not depend on when they are computed.  The
    type assertion for [EliminatedVarMetadata] is the predicate [isElim], the order of
    [sort.Slice] the argument [sort], and the goroutines of [substituteInAll] write their
    results in the order of [schedule]. *)
From stdpp Require Import pretty.
From S2P Require Import Prelude SvIntervals SmtBuild SmartVectors SvOps FieldExt Symbolic Board Multisets.

(** ** Degrees *)

(** [utils.Max]. *)
Definition Max (s : list Z) : go Z :=
  match s with [] => Panic | m :: _ => Ok (foldl (fun m v => if m <? v then v else m) m s) end.

Section Degree.
Context {F : Type} `{ExtOps F} (getDegree : Metadata -> Z).
Abbreviation expr := (Expression F).

Definition operator_Degree (op : Operator F) (inputDegrees : list Z) : go Z :=
  match op with
  | OConstant _ | OVariable _ => Panic
  | OLinComb _ | OPolyEval => Max inputDegrees
  | OProduct es =>
      foldM (fun res i => exp ← index es i; d ← index inputDegrees i; Ok (i64 (res + i64 (exp * d)))) 0 (range 0 (zlen es))
  end.

Fixpoint degreeKeepCache (e : expr) : go Z :=
  let 'mkExpression _ cs op _ := e in
  match op with
  | OConstant _ => Ok 0
  | OVariable m => Ok (getDegree m)
  | _ =>
      ds ← (fix all (l : list expr) : go (list Z) :=
              match l with [] => Ok [] | c :: l => d ← degreeKeepCache c; ds ← all l; Ok (d :: ds) end) cs;
      operator_Degree op ds
  end.

Definition node_degree (degrees : list Z) (nd : Node F) : go Z :=
  match n_Operator nd with
  | OConstant _ => Ok 0
  | OVariable m => Ok (getDegree m)
  | op => ds ← mapM_ (index degrees) (n_Children nd); operator_Degree op ds
  end.

Definition board_Degree (b : ExpressionBoard F) : go Z :=
  if zlen (Nodes b) =? 0 then Ok 0 else
  degrees ← foldM (fun degrees t => d ← node_degree degrees t.2; set_index degrees t.1 d)
              (replicate (length (Nodes b)) 0) (enumerate (Nodes b));
  index degrees (zlen (Nodes b) - 1).
End Degree.

(** ** Rebuilding *)

Section Rebuild.
Context {F : Type} `{ExtOps F}.
Abbreviation expr := (Expression F).

(** [NewPolyEval(children[0], children[1:])]. *)
Definition polyeval_of (children : list expr) : go expr := x ← unwrap (head children); NewPolyEval x (drop 1 children).

Definition SameWithNewChildren (e : expr) (newChildren : list expr) : go expr :=
  match Operator_ e with
  | OConstant _ | OVariable _ => Ok e
  | OLinComb cs => NewLinComb newChildren cs
  | OProduct es => NewProduct newChildren es
  | OPolyEval => polyeval_of newChildren
  end.

Definition SameWithNewChildrenNoSimplify (e : expr) (newChildren : list expr) : go expr :=
  match Operator_ e with
  | OConstant _ | OVariable _ => Ok e
  | OLinComb cs => newLinCombNoSimplify newChildren cs
  | OProduct es => newProductNoSimplify newChildren es
  | OPolyEval => polyeval_of newChildren
  end.

Definition is_leaf (op : Operator F) : bool := match op with OConstant _ | OVariable _ => true | _ => false end.

Section Constructor.
Context (constructor : expr -> list (option expr) -> go (option expr)).

Fixpoint ReconstructBottomUp (e : expr) : go (option expr) :=
  let 'mkExpression _ cs op _ := e in
  if is_leaf op then constructor e [] else
  children ← (fix all (l : list expr) : go (list (option expr)) :=
                match l with [] => Ok [] | c :: l => x ← ReconstructBottomUp c; xs ← all l; Ok (x :: xs) end) cs;
  constructor e children.

Definition ReconstructBottomUpSingleThreaded (e : expr) : go (option expr) :=
  if is_leaf (Operator_ e) then x ← constructor e []; y ← unwrap x; Ok (Some y) else
  children ← mapM_ (fun c => x ← ReconstructBottomUp c; y ← unwrap x; Ok (Some y)) (Children e);
  x ← constructor e children; y ← unwrap x; Ok (Some y).
End Constructor.

Context (same : expr -> expr -> bool).

Definition childrenUnchanged (old new_ : list expr) : bool := forallb (fun t => same t.1 t.2) (zip old new_).

Section Replay.
Context (translationMap : string -> option expr).

Fixpoint Replay (e : expr) : go expr :=
  let 'mkExpression _ cs op _ := e in
  match op with
  | OConstant _ => Ok e
  | OVariable m => Ok (match translationMap (String m) with Some res => res | None => e end)
  | _ =>
      children ← (fix all (l : list expr) : go (list expr) :=
                    match l with [] => Ok [] | c :: l => x ← Replay c; xs ← all l; Ok (x :: xs) end) cs;
      if childrenUnchanged cs children then Ok e else SameWithNewChildren e children
  end.
End Replay.
End Rebuild.

(** ** Maps with an order *)

Section DeterministicMap.
Context {K V : Type} `{EqDecision K}.

Record DeterministicMap := mkDMap { InnerMap : list (K * Z); Values : list V; Keys : list K }.

Fixpoint assoc (m : list (K * Z)) (k : K) : option Z :=
  match m with [] => None | (k', v) :: m => if bool_decide (k' = k) then Some v else assoc m k end.

(** [make] rejects a negative capacity. *)
Definition MakeDeterministicMap (cap : Z) : go DeterministicMap := _ ← assert_ (0 <=? cap); Ok (mkDMap [] [] []).

Definition InsertNew (kv : DeterministicMap) (key : K) (value : V) : go DeterministicMap :=
  match assoc (InnerMap kv) key with
  | Some _ => Panic
  | None => Ok (mkDMap ((key, zlen (Values kv)) :: InnerMap kv) (Values kv ++ [value]) (Keys kv ++ [key]))
  end.

Definition Set_ (kv : DeterministicMap) (key : K) (value : V) : go DeterministicMap :=
  match assoc (InnerMap kv) key with
  | None => InsertNew kv key value
  | Some idx => vs ← set_index (Values kv) idx value; Ok (mkDMap (InnerMap kv) vs (Keys kv))
  end.

(** The position that the pointer of [GetPtr] points to. *)
Definition GetPtr (kv : DeterministicMap) (key : K) : go (option Z) :=
  match assoc (InnerMap kv) key with
  | None => Ok None
  | Some idx => _ ← assert_ (negb (zlen (Values kv) <=? idx)); Ok (Some idx)
  end.

Definition dmap_Get (kv : DeterministicMap) (key : K) : go (option V) :=
  match assoc (InnerMap kv) key with None => Ok None | Some idx => v ← index (Values kv) idx; Ok (Some v) end.

Definition MustGet (kv : DeterministicMap) (key : K) : go V :=
  match assoc (InnerMap kv) key with None => Panic | Some idx => index (Values kv) idx end.

Definition HasKey (kv : DeterministicMap) (key : K) : bool := match assoc (InnerMap kv) key with Some _ => true | None => false end.
Definition ValueSlice (kv : DeterministicMap) : list V := Values kv.
Definition dmap_Len (kv : DeterministicMap) : Z := zlen (Values kv).
End DeterministicMap.
Arguments DeterministicMap : clear implicits.

(** ** Substitution *)

Section Substitution.
Context {F : Type} `{ExtOps F} (same : Expression F -> Expression F -> bool).
Abbreviation expr := (Expression F).

(** The factors that are left of an expression without the target: the map of the code
    holds the exponent that is left of each hash. *)
Definition factorOutSubProduct (exprChildren : list expr) (exprExponents : list Z) (targetChildren : list expr) (targetExponents : list Z) :
  go (option (list (expr * Z))) :=
  exprMap ← foldM (fun m i => child ← index exprChildren i; k ← index exprExponents i; Ok ((ESHash child, k) :: m)) [] (range 0 (zlen exprChildren));
  left ← foldM (fun (m : option (list (E4 F * Z))) i =>
      match m with
      | None => Ok None
      | Some m =>
          child ← index targetChildren i;
          match hmap_get m (ESHash child) with
          | None => Ok None
          | Some exponent =>
              k ← index targetExponents i;
              Ok (if exponent <? k then None else Some ((ESHash child, exponent - k) :: m))
          end
      end) (Some exprMap) (range 0 (zlen targetChildren));
  match left with
  | None => Ok None
  | Some m =>
      r ← foldM (fun '(m, remaining) child =>
          match hmap_get m (ESHash child) with
          | Some exponent => Ok (if 0 <? exponent then ((ESHash child, 0) :: m, remaining ++ [(child, exponent)]) else (m, remaining))
          | None => Ok (m, remaining)
          end) (m, []) exprChildren;
      Ok (Some r.2)
  end.

Definition buildFactoredProduct (replacement : expr) (remaining : list (expr * Z)) : go expr :=
  if zlen remaining =? 0 then Ok replacement else NewProduct (replacement :: remaining.*1) (1 :: remaining.*2).

Definition substituteSubProduct (children : list expr) (exponents : list Z) (target replacement : expr) : go (option expr) :=
  match Operator_ target with
  | OProduct targetExponents =>
      remaining ← factorOutSubProduct children exponents (Children target) targetExponents;
      match remaining with
      | None => Ok None
      | Some remaining => e ← buildFactoredProduct replacement remaining; Ok (Some e)
      end
  | _ => Ok None
  end.

Definition rebuildExpression (original : expr) (newChildren : list expr) : go expr :=
  match Operator_ original with
  | OLinComb cs => NewLinComb newChildren cs
  | OProduct es => NewProduct newChildren es
  | OPolyEval => polyeval_of newChildren
  | _ => Ok original
  end.

Fixpoint substituteExpr (target replacement e : expr) {struct e} : go expr :=
  let 'mkExpression h cs op _ := e in
  if bool_decide (h = ESHash target) then Ok replacement else
  sub ← (match op with OProduct es => substituteSubProduct cs es target replacement | _ => Ok None end);
  match sub with
  | Some substituted => Ok substituted
  | None =>
      if zlen cs =? 0 then Ok e else
      newChildren ← (fix all (l : list expr) : go (list expr) :=
                       match l with [] => Ok [] | c :: l => x ← substituteExpr target replacement c; xs ← all l; Ok (x :: xs) end) cs;
      if childrenUnchanged same cs newChildren then Ok e else rebuildExpression e newChildren
  end.

Context (gomaxprocs : Z) (schedule : list (list (Z * expr)) -> list (Z * expr)).

(** The expressions of the results are written at their positions. *)
Definition substituteInAll (exprs : list expr) (target replacement : expr) : go (list expr) :=
  goroutines ← mapM_ (fun r => mapM_ (fun i => e ← index exprs i; e' ← substituteExpr target replacement e; Ok (i, e')) (Z.of_nat <$> range_seq r))
                 (Execute_ranges gomaxprocs (zlen exprs) []);
  result ← foldM (fun result w => set_index result w.1 (Some w.2)) (replicate (length exprs) None) (schedule goroutines);
  deref result.
End Substitution.

(** ** Candidates *)

Section Candidates.
Context {F : Type} `{ExtOps F} (getDegree : Metadata -> Z) (degreeBound : Z) (cfg : DegreeReductionConfig).
Abbreviation expr := (Expression F).

Record candidateInfo := mkCandidate { c_expr : expr; c_count : Z }.
Abbreviation candidateMap := (DeterministicMap (E4 F) candidateInfo).

Definition isTrivialExpr (e : expr) : bool := is_leaf (Operator_ e).

Definition addCandidate (candidates : candidateMap) (e : expr) : go candidateMap :=
  p ← GetPtr candidates (ESHash e);
  match p with
  | Some idx =>
      existing ← index (Values candidates) idx;
      vs ← set_index (Values candidates) idx (mkCandidate (c_expr existing) (c_count existing + 1));
      Ok (mkDMap (InnerMap candidates) vs (Keys candidates))
  | None => InsertNew candidates (ESHash e) (mkCandidate e 1)
  end.

Definition buildSubProductFromExponents (children : list expr) (exponents : list Z) : go (option expr) :=
  sub ← foldM (fun sub i => exp ← index exponents i; if 0 <? exp then child ← index children i; Ok (sub ++ [(child, exp)]) else Ok sub) [] (range 0 (zlen exponents));
  if zlen sub =? 0 then Ok None else e ← NewProduct sub.*1 sub.*2; Ok (Some e).

Definition add_sub_product (children : list expr) (st : candidateMap * Z) (iter : weightedSubMultisetIterator) : go (candidateMap * Z) :=
  if hasOnlyASingleOne (curr iter) then Ok st else
  degree ← currentTotalWeight iter;
  if (degree <? 0) || (degreeBound <? degree) then Ok st else
  sub ← buildSubProductFromExponents children (curr iter);
  match sub with
  | None => Ok st
  | Some e => candidates ← addCandidate st.1 e; Ok (candidates, st.2 + 1)
  end.

Definition collectSubProducts (children : list expr) (exponents : list Z) (candidates : candidateMap) : go (candidateMap * Z) :=
  if zlen children =? 0 then Ok (candidates, 0) else
  ws ← mapM_ (fun i => child ← index children i; degreeKeepCache getDegree child) (range 0 (zlen exponents));
  for_iterator (add_sub_product children) (newWeightedSubMultisetIterator exponents (Some ws) degreeBound cfg) (candidates, 0).

Fixpoint collectFromExpr (e : expr) (candidates : candidateMap) : go (candidateMap * Z) :=
  let 'mkExpression _ cs op _ := e in
  degree ← degreeKeepCache getDegree e;
  if degree <? MinDegreeForCandidate cfg then Ok (candidates, 0) else
  '(candidates, n) ← (if (0 <? degree) && (degree <=? degreeBound) && negb (isTrivialExpr e) then candidates ← addCandidate candidates e; Ok (candidates, 1) else Ok (candidates, 0));
  '(candidates, n) ← (fix all (l : list expr) (candidates : candidateMap) (n : Z) : go (candidateMap * Z) :=
      match l with
      | [] => Ok (candidates, n)
      | c :: l => '(candidates, k) ← collectFromExpr c candidates; all l candidates (n + k)
      end) cs candidates n;
  match op with
  | OProduct es => '(candidates, k) ← collectSubProducts cs es candidates; Ok (candidates, n + k)
  | _ => Ok (candidates, n)
  end.

Fixpoint collect_all (exprs : list expr) (indices : list Z) (candidates : candidateMap) : go candidateMap :=
  match indices with
  | [] => Ok candidates
  | idx :: indices =>
      e ← index exprs idx;
      '(candidates, _) ← collectFromExpr e candidates;
      if MaxCandidatePerRound cfg <=? dmap_Len candidates then Ok candidates else collect_all exprs indices candidates
  end.

Definition collectCandidateSubexprs (exprs : list expr) (overDegreeIndices : list Z) : go (list candidateInfo) :=
  m ← MakeDeterministicMap (MaxCandidatePerRound cfg + Z.shiftl 1 10);
  m ← collect_all exprs overDegreeIndices m;
  Ok (ValueSlice m).

Definition findOverDegreeIndices (exprs : list expr) : go (list Z) :=
  foldM (fun indices t => deg ← degreeKeepCache getDegree t.2; Ok (if degreeBound <? deg then indices ++ [t.1] else indices)) [] (enumerate exprs).

(** The order that [sort.Slice] is given. *)
Definition more_frequent (a b : candidateInfo) : bool :=
  if negb (c_count a =? c_count b) then c_count b <? c_count a else zlen (Children (c_expr b)) <? zlen (Children (c_expr a)).

Context (sort : list candidateInfo -> list candidateInfo).

Definition selectMostFrequentCandidate (candidates : list candidateInfo) : go expr := c ← index (sort candidates) 0; Ok (c_expr c).

(** ** The reduction *)

Context (blake2b : string -> E4 F) (isElim : Metadata -> bool) (same : expr -> expr -> bool) (gomaxprocs : Z) (schedule : list (list (Z * expr)) -> list (Z * expr)).

Definition EliminatedVarMetadata (id : Z) (e : expr) : Metadata := mkMetadata ("_elim_" +:+ pretty id) (IsBase_ e).

Definition AssertHasNoElimVarMetadata (exprs : list expr) : go unit :=
  assert_ (forallb (fun e => forallb (fun m => negb (isElim m)) (ListVariableMetadata (Board e))) exprs).

Record reduction := mkReduction { degreeReduced : list expr; eliminatedSubExpressions : list expr; newVars : list Metadata }.

(** An iteration of the loop; [None] when it ends the loop. *)
Definition reduce_step (st : reduction) : go (option reduction) :=
  if (0 <? MaxNumElimination cfg) && (MaxNumElimination cfg <=? zlen (newVars st)) then Ok None else
  overDegreeIndices ← findOverDegreeIndices (degreeReduced st);
  if zlen overDegreeIndices =? 0 then Ok None else
  candidates ← collectCandidateSubexprs (degreeReduced st) overDegreeIndices;
  if zlen candidates =? 0 then Ok None else
  best ← selectMostFrequentCandidate candidates;
  let meta := EliminatedVarMetadata (zlen (newVars st)) best in
  current ← substituteInAll same gomaxprocs schedule (degreeReduced st) best (NewVariable blake2b meta);
  Ok (Some (mkReduction current (eliminatedSubExpressions st ++ [best]) (newVars st ++ [meta]))).

(** [None] when the loop has not ended after [fuel] iterations. *)
Fixpoint reduce_loop (fuel : nat) (st : reduction) : go (option reduction) :=
  match fuel with
  | O => Ok None
  | S fuel => st' ← reduce_step st; match st' with None => Ok (Some st) | Some st' => reduce_loop fuel st' end
  end.

Definition ReduceDegreeOfExpressions (fuel : nat) (exprs : list expr) : go (option reduction) :=
  _ ← AssertHasNoElimVarMetadata exprs;
  _ ← assert_ (negb (degreeBound <=? 1));
  reduce_loop fuel (mkReduction exprs [] []).
End Candidates.
Arguments candidateInfo : clear implicits.
Arguments reduction : clear implicits.
