(* ===== verification/ReductionTheorems.v ===== *)
(** Substitution and degree reduction keep the values of expressions. *)
From stdpp Require Import pretty.
From S2P Require Import Prelude SvIntervals SmtBuild SmartVectors SvSpec SvOps SvOpsTheorems FieldExt Symbolic SymSpec SymTheorems SymConstructors Board BoardTheorems BoardEval Multisets Reduction.
From Stdlib Require Import ZifyBool Ring.

Lemma foldM_ext_elem {A B} (f g : B -> A -> go B) st l : (forall st x, x ∈ l -> f st x = g st x) -> foldM f st l = foldM g st l.
Proof.
  revert st. induction l as [|x l IH]; intros st Hfg; [done|]. cbn [foldM]. rewrite Hfg by (by left). destruct (g st x) as [st'|[]|]; try done. apply IH. intros. apply Hfg. by right.
Qed.

Lemma range_index {A} (l : list A) i : i ∈ range 0 (zlen l) -> exists x, index l i = Ok x.
Proof.
  intros Hi%elem_of_seqZ. destruct (lookup_lt_is_Some_2 l (Z.to_nat i)) as (x & Hx); [unfold zlen in Hi; lia|]. exists x. unfold index. replace (0 <=? i) with true by lia. by rewrite Hx.
Qed.

(** ** Rebuilding *)

Section Values.
Context {F : Type} `{ExtLaws F} (blake2b : string -> E4 F) (rho : Metadata -> E4 F) (S : Expression F -> Prop).
Context (HS : no_collision blake2b rho S).
Abbreviation expr := (Expression F).
Local Abbreviation ev := (eval (F := F) id rho).
Add Ring values_ring : (@f_ring (E4 F) _ _).

(** The new children of an operator: they are expressions of the set, with few enough
    terms. *)
Definition rebuilt_ok (op : Operator F) (children : list expr) : Prop :=
  match op with
  | OLinComb ks => items_ok S linCombOp (zip children ks)
  | OProduct ks => items_ok S productOp (zip children ks)
  | _ => Forall S children
  end.

Lemma polyeval_ok children : (2 <= length children)%nat -> Forall S children ->
  exists e, polyeval_of children = Ok e /\ valid blake2b e /\ ev e = apply_op id rho OPolyEval (ev <$> children).
Proof.
  intros Hl Hc. destruct children as [|x cs]; [cbn in Hl; lia|]. unfold polyeval_of. cbn [head unwrap mbind outcome_bind drop]. apply Forall_cons in Hc as [Hx Hc].
  apply NewPolyEval_ok; [by destruct cs; [cbn in Hl; lia|]|by apply (nc_valid _ _ _ HS)|]. eapply Forall_impl; [exact Hc|]. apply (nc_valid _ _ _ HS).
Qed.

Lemma SameWithNewChildren_ok e children :
  valid blake2b e -> is_leaf (Operator_ e) = false -> length children = length (Children e) -> rebuilt_ok (Operator_ e) children ->
  exists e', SameWithNewChildren e children = Ok e' /\ valid blake2b e' /\ ev e' = apply_op id rho (Operator_ e) (ev <$> children).
Proof.
  intros Hv Hleaf Hl Hok. pose proof (valid_node _ _ Hv) as [Hs _]. unfold SameWithNewChildren. destruct (Operator_ e) as [g|m|ks|ks|]; cbn in Hleaf, Hs, Hok; try discriminate.
  - destruct Hs as [Hk _]. apply (NewLinComb_ok blake2b rho S HS); [lia|done].
  - destruct Hs as [[Hk _] _]. apply (NewProduct_ok blake2b rho S HS); [lia|done].
  - apply polyeval_ok; [lia|done].
Qed.

Lemma rebuild_same e children : is_leaf (Operator_ e) = false -> rebuildExpression e children = SameWithNewChildren e children.
Proof. unfold rebuildExpression, SameWithNewChildren. by destruct (Operator_ e). Qed.

(** ** Factoring a product out of a product *)

(** The exponent that a map has for a hash. *)
Definition left_of (m : list (E4 F * Z)) (h : E4 F) : Z := default 0 (hmap_get m h).

(** The product of the factors with the exponents of the map. *)
Definition remains (m : list (E4 F * Z)) (cs : list expr) : E4 F := foldr f_mul f_one ((fun c => f_exp (ev c) (left_of m (ESHash c))) <$> cs).

Lemma hmap_get_cons {A} (m : list (E4 F * A)) h k v : hmap_get ((k, v) :: m) h = if bool_decide (k = h) then Some v else hmap_get m h.
Proof. done. Qed.

Lemma remains_ext m m' cs : (forall c, c ∈ cs -> left_of m (ESHash c) = left_of m' (ESHash c)) -> remains m cs = remains m' cs.
Proof. intros Hm. unfold remains. induction cs as [|c cs IH]; [done|]. cbn. rewrite Hm by (by left). f_equal. apply IH. intros d Hd. apply Hm. by right. Qed.

Lemma remains_app m cs ds : remains m (cs ++ ds) = f_mul (remains m cs) (remains m ds).
Proof. unfold remains. induction cs as [|c cs IH]; cbn [app fmap list_fmap foldr]; [ring|]. rewrite IH. ring. Qed.

(** The exponents of the map are those of the factors, or smaller. *)
Definition map_ok (cs : list expr) (m : list (E4 F * Z)) : Prop := forall h k, hmap_get m h = Some k -> 0 <= k /\ exists c, c ∈ cs /\ ESHash c = h.

Lemma take_factor cs m t k x :
  NoDup (ESHash <$> cs) -> Forall S cs -> S t -> map_ok cs m -> hmap_get m (ESHash t) = Some x -> 0 <= k <= x ->
  map_ok cs ((ESHash t, x - k) :: m) /\ remains m cs = f_mul (f_exp (ev t) k) (remains ((ESHash t, x - k) :: m) cs).
Proof.
  intros Hnd HSc HSt Hm Hx Hk. split.
  - intros h k'. rewrite hmap_get_cons. case_bool_decide as Eh; [|by apply Hm]. intros [= <-]. subst h. split; [lia|]. by destruct (Hm _ _ Hx) as [_ Hc].
  - destruct (Hm _ _ Hx) as (_ & c & Hc & Eh). apply list_elem_of_split in Hc as (l1 & l2 & ->). rewrite fmap_app, fmap_cons in Hnd. apply NoDup_app in Hnd as (_ & Hn1 & Hnd). apply NoDup_cons in Hnd as [Hn2 _].
    assert (ev c = ev t) as Ec.
    { apply Forall_app in HSc as [_ HSc]. apply Forall_cons in HSc as [HSc _]. by apply (nc_same _ _ _ HS). }
    assert (forall l, (forall d, d ∈ l -> ESHash d <> ESHash t) -> remains ((ESHash t, x - k) :: m) l = remains m l) as Hoth.
    { intros l Hl. apply remains_ext. intros d Hd. unfold left_of. rewrite hmap_get_cons, bool_decide_eq_false_2; [done|]. intros E. by apply (Hl d Hd). }
    rewrite !remains_app. change (c :: l2) with ([c] ++ l2). rewrite !remains_app. rewrite (Hoth l1), (Hoth l2).
    + unfold remains at 2 5. cbn [fmap list_fmap foldr]. unfold left_of. rewrite hmap_get_cons, Eh, Hx, bool_decide_eq_true_2, Ec by done. change (default 0 (Some x)) with x. change (default 0 (Some (x - k))) with (x - k).
      assert (f_exp (ev t) x = f_mul (f_exp (ev t) k) (f_exp (ev t) (x - k))) as Ex by (rewrite <- exp_add_Z by lia; f_equal; lia). rewrite Ex. ring.
    + intros d Hd E. apply Hn2. rewrite Eh, <- E. by apply list_elem_of_fmap_2.
    + intros d Hd E. apply (Hn1 (ESHash d)); [by apply list_elem_of_fmap_2|]. rewrite E, <- Eh. left.
Qed.

(** The map that the code starts with. *)
Lemma start_map (ts : list (expr * Z)) m :
  NoDup (ESHash <$> ts.*1) ->
  let m' := foldl (fun m t => (ESHash t.1, t.2) :: m) m ts in
  (forall t, t ∈ ts -> hmap_get m' (ESHash t.1) = Some t.2) /\ (forall h, h ∉ ESHash <$> ts.*1 -> hmap_get m' h = hmap_get m h).
Proof.
  revert m. induction ts as [|[c k] ts IH]; intros m Hnd; cbn [foldl]; [split; [intros t Ht; by apply elem_of_nil in Ht|done]|]. cbn [fmap list_fmap fst] in Hnd. apply NoDup_cons in Hnd as [Hni Hnd].
  destruct (IH ((ESHash c, k) :: m) Hnd) as [Hin Hout]. split.
  - intros t [->|Ht]%elem_of_cons; [|by apply Hin]. cbn [fst snd]. rewrite Hout by done. by rewrite hmap_get_cons, bool_decide_eq_true_2.
  - cbn [fmap list_fmap fst snd]. intros h [Hne Hh]%not_elem_of_cons. rewrite Hout by done. by rewrite hmap_get_cons, bool_decide_eq_false_2.
Qed.

Lemma start_remains cs ks :
  length ks = length cs -> Forall (Z.le 0) ks -> NoDup (ESHash <$> cs) ->
  let m := foldl (fun m t => (ESHash t.1, t.2) :: m) [] (zip cs ks) in
  map_ok cs m /\ remains m cs = foldr f_mul f_one (zip_with f_exp (ev <$> cs) ks).
Proof.
  intros Hl Hk Hnd m. assert ((zip cs ks).*1 = cs) as Ez by (rewrite fst_zip; [done|lia]). pose proof (start_map (zip cs ks) []) as Hm. rewrite Ez in Hm. destruct (Hm Hnd) as [Hin Hout]. fold m in Hin, Hout. split.
  - intros h k Hh. destruct (decide (h ∈ ESHash <$> cs)) as [Hc|Hc]; [|by rewrite Hout in Hh]. apply list_elem_of_fmap in Hc as (c & -> & Hc). split; [|by exists c].
    apply list_elem_of_lookup in Hc as (i & Hi). destruct (lookup_lt_is_Some_2 ks i) as (k' & Hk'); [apply lookup_lt_Some in Hi; lia|].
    assert ((c, k') ∈ zip cs ks) as Hz by (apply list_elem_of_lookup; exists i; apply lookup_zip_with_Some; by exists c, k'). pose proof (Hin _ Hz) as E. cbn in E. rewrite Hh in E. injection E as ->.
    rewrite Forall_lookup in Hk. by eapply Hk.
  - clearbody m. clear Hout Hm Ez Hnd. revert ks Hl Hk Hin. unfold remains. induction cs as [|c cs IH]; intros [|k ks] Hl Hk Hin; try discriminate; [done|]. cbn [fmap list_fmap zip_with foldr].
    apply Forall_cons in Hk as [_ Hk]. assert (left_of m (ESHash c) = k) as -> by (pose proof (Hin (c, k) ltac:(left)) as E; cbn [fst snd] in E; unfold left_of; by rewrite E). f_equal. apply IH; [by injection Hl|done|]. intros t Ht. apply Hin. by right.
Qed.

(** The loop over the factors of the target. *)
Definition take_step (m : option (list (E4 F * Z))) (t : expr * Z) : option (list (E4 F * Z)) :=
  match m with
  | None => None
  | Some m => match hmap_get m (ESHash t.1) with None => None | Some x => if x <? t.2 then None else Some ((ESHash t.1, x - t.2) :: m) end
  end.

Lemma take_none ts : foldl take_step None ts = None.
Proof. induction ts as [|t ts IH]; [done|]. exact IH. Qed.

Lemma take_all cs ts m m' :
  NoDup (ESHash <$> cs) -> Forall S cs -> Forall S ts.*1 -> Forall (Z.le 0) ts.*2 -> map_ok cs m -> foldl take_step (Some m) ts = Some m' ->
  map_ok cs m' /\ remains m cs = f_mul (foldr f_mul f_one (zip_with f_exp (ev <$> ts.*1) ts.*2)) (remains m' cs).
Proof.
  intros Hnd HSc. revert m. induction ts as [|[t k] ts IH]; intros m HSt Hk Hm E; [injection E as <-; split; [done|cbn; ring]|]. cbn [fmap list_fmap fst snd] in HSt, Hk.
  apply Forall_cons in HSt as [HSt1 HSt]. apply Forall_cons in Hk as [Hk1 Hk]. cbn [foldl take_step fst snd] in E. destruct (hmap_get m (ESHash t)) as [x|] eqn:Ex; [|by rewrite take_none in E].
  destruct (Z.ltb_spec x k) as [Hlt|Hge]; [by rewrite take_none in E|]. destruct (take_factor cs m t k x Hnd HSc HSt1 Hm Ex) as [Hm1 ->]; [lia|]. destruct (IH _ HSt Hk Hm1 E) as [Hm' ->].
  split; [done|]. cbn [fmap list_fmap fst snd zip_with foldr]. ring.
Qed.

(** The loop that collects what is left. *)
Definition kept (m : list (E4 F * Z)) (cs : list expr) : list (expr * Z) := filter (fun t => 0 < t.2) ((fun c => (c, left_of m (ESHash c))) <$> cs).

Lemma kept_ext m m' cs : (forall c, c ∈ cs -> left_of m (ESHash c) = left_of m' (ESHash c)) -> kept m cs = kept m' cs.
Proof. intros Hm. unfold kept. f_equal. apply list_fmap_ext. intros i c Hc. rewrite Hm; [done|]. by eapply list_elem_of_lookup_2. Qed.

Lemma kept_value cs m : (forall c, c ∈ cs -> 0 <= left_of m (ESHash c)) -> tsum rho productOp (kept m cs) = remains m cs.
Proof.
  unfold kept, remains. induction cs as [|c cs IH]; intros Hm; [done|]. cbn [fmap list_fmap foldr]. rewrite filter_cons. cbn [snd]. rewrite <- IH by (intros d Hd; apply Hm; by right).
  case_decide as Ek; [done|]. assert (left_of m (ESHash c) = 0) as -> by (specialize (Hm c ltac:(left)); lia). rewrite f_exp_0. ring.
Qed.

Lemma keep_loop cs m acc :
  NoDup (ESHash <$> cs) ->
  (foldl (fun '(m, remaining) child => match hmap_get m (ESHash child) with
     | Some exponent => if 0 <? exponent then ((ESHash child, 0) :: m, remaining ++ [(child, exponent)]) else (m, remaining)
     | None => (m, remaining)
     end) (m, acc) cs).2 = acc ++ kept m cs.
Proof.
  revert m acc. induction cs as [|c cs IH]; intros m acc Hnd; [by rewrite app_nil_r|]. cbn [fmap list_fmap] in Hnd. apply NoDup_cons in Hnd as [Hni Hnd]. cbn [foldl].
  assert (forall k, kept ((ESHash c, k) :: m) cs = kept m cs) as Hk.
  { intros k. apply kept_ext. intros d Hd. unfold left_of. rewrite hmap_get_cons, bool_decide_eq_false_2; [done|]. intros E. apply Hni. rewrite E. by apply list_elem_of_fmap_2. }
  unfold kept at 1. cbn [fmap list_fmap]. rewrite filter_cons. cbn [snd]. fold (kept m cs). unfold left_of. destruct (hmap_get m (ESHash c)) as [x|]; cbn [from_option].
  - unfold id. destruct (Z.ltb_spec 0 x) as [Hlt|Hge]; [rewrite decide_True by done|rewrite decide_False by lia]; rewrite IH by done; [|done]. by rewrite Hk, <- app_assoc.
  - rewrite decide_False by lia. by rewrite IH.
Qed.

Lemma factorOut_spec cs ks ts fs :
  length ks = length cs -> length fs = length ts -> NoDup (ESHash <$> cs) ->
  factorOutSubProduct cs ks ts fs = Ok ((fun m => kept m cs) <$> foldl take_step (Some (foldl (fun m t => (ESHash t.1, t.2) :: m) [] (zip cs ks))) (zip ts fs)).
Proof.
  intros Hk Hf Hnd. unfold factorOutSubProduct. rewrite (foldM_index2 (fun m child k => Ok ((ESHash child, k) :: m))) by done. rewrite (foldM_Ok (fun m t => (ESHash t.1, t.2) :: m)) by done.
  cbn [mbind outcome_bind]. erewrite (foldM_ext_elem _ (fun m i => child ← index ts i; k ← index fs i; Ok (take_step m (child, k)))).
  - rewrite (foldM_index2 (fun m child k => Ok (take_step m (child, k)))) by done. rewrite (foldM_Ok take_step) by (by intros st []). cbn [mbind outcome_bind].
    destruct (foldl take_step _ _) as [m|]; [|done]. cbn [fmap option_fmap option_map].
    rewrite (foldM_Ok (fun '(m, remaining) child => match hmap_get m (ESHash child) with
       | Some exponent => if 0 <? exponent then ((ESHash child, 0) :: m, remaining ++ [(child, exponent)]) else (m, remaining)
       | None => (m, remaining)
       end)).
    + cbn [mbind outcome_bind]. by rewrite keep_loop.
    + intros [m1 rem] c _. destruct (hmap_get m1 (ESHash c)) as [x|]; [by destruct (0 <? x)|done].
  - intros [m|] i Hi; destruct (range_index ts i Hi) as (t & Et); assert (i ∈ range 0 (zlen fs)) as Hi' by (unfold zlen in *; by rewrite Hf); destruct (range_index fs i Hi') as (k & Ek);
      rewrite ?Et, ?Ek; cbn [mbind outcome_bind take_step fst snd]; [|done]. destruct (hmap_get m (ESHash t)) as [x|]; [|done]. rewrite ?Ek. cbn [mbind outcome_bind]. by destruct (x <? k).
Qed.

(** What is left after the target has been taken out. *)
Lemma factorOut_ok cs ks target fs remaining :
  length ks = length cs -> Forall (Z.le 0) ks -> NoDup (ESHash <$> cs) -> Forall S cs -> S target -> Operator_ target = OProduct fs ->
  factorOutSubProduct cs ks (Children target) fs = Ok (Some remaining) ->
  foldr f_mul f_one (zip_with f_exp (ev <$> cs) ks) = f_mul (ev target) (tsum rho productOp remaining).
Proof.
  intros Hl Hk Hnd HSc HSt Ho E. pose proof (valid_node _ _ (nc_valid _ _ _ HS _ HSt)) as [Hs _]. rewrite Ho in Hs. destruct Hs as [[Hlf _] Hf]. rewrite factorOut_spec in E by done.
  destruct (start_remains cs ks Hl Hk Hnd) as [Hm0 <-]. destruct (foldl take_step _ _) as [m|] eqn:Em; [|discriminate]. injection E as <-.
  edestruct (take_all cs (zip (Children target) fs)) as [Hm ->]; [exact Hnd|exact HSc| | |exact Hm0|exact Em|]; rewrite ?fst_zip, ?snd_zip by lia; [by apply (nc_children _ _ _ HS)|done|].
  rewrite kept_value.
  - rewrite (eval_unfold _ _ target), Ho. done.
  - intros c _. unfold left_of. destruct (hmap_get m (ESHash c)) as [x|] eqn:Ex; [|done]. by apply Hm in Ex as [? _].
Qed.

(** ** Substitution *)

Definition keeps_value (e : expr) (r : go expr) : Prop := exists e', r = Ok e' /\ valid blake2b e' /\ ev e' = ev e.

Lemma mapM_fix {A B} (f : A -> go B) l :
  (fix all (l : list A) : go (list B) := match l with [] => Ok [] | c :: l => x ← f c; xs ← all l; Ok (x :: xs) end) l = mapM_ f l.
Proof. induction l as [|x l IH]; [done|]. cbn [mapM_]. by rewrite <- IH. Qed.

Lemma mapM_keeps (f : expr -> go expr) cs : Forall (fun c => keeps_value c (f c)) cs -> exists children, mapM_ f cs = Ok children /\ length children = length cs /\ ev <$> children = ev <$> cs.
Proof.
  induction 1 as [|c cs (c' & E & _ & Hc) _ (children & Es & Hl & Hcs)]; [by exists []|]. exists (c' :: children). cbn [mapM_]. rewrite E. cbn [mbind outcome_bind]. rewrite Es. split; [done|].
  split; [cbn; lia|]. cbn. by rewrite Hc, Hcs.
Qed.

Context (same : expr -> expr -> bool) (target replacement : expr).

(** The expressions that a substitution meets are in the set, and the sums and products
    that it makes have few enough terms.  The factors of a product have different hashes
    when the target can be factored out. *)
Inductive subst_run : expr -> Prop :=
| run_match e : S e -> ESHash e = ESHash target -> subst_run e
| run_node e :
    S e ->
    match Operator_ e, Operator_ target with
    | OProduct es, OProduct fs =>
        NoDup (ESHash <$> Children e) /\
        forall remaining, factorOutSubProduct (Children e) es (Children target) fs = Ok (Some remaining) -> items_ok S productOp ((replacement, 1) :: remaining)
    | _, _ => True
    end ->
    (forall children, mapM_ (substituteExpr same target replacement) (Children e) = Ok children -> rebuilt_ok (Operator_ e) children) ->
    Forall subst_run (Children e) -> subst_run e.

Context (Htarget : S target) (Hrepl : valid blake2b replacement) (Hval : ev replacement = ev target).

Lemma run_in e : subst_run e -> S e.
Proof. by destruct 1. Qed.

Lemma factored_ok remaining e :
  items_ok S productOp ((replacement, 1) :: remaining) -> ev e = f_mul (ev target) (tsum rho productOp remaining) -> keeps_value e (buildFactoredProduct replacement remaining).
Proof.
  intros Hi He. unfold buildFactoredProduct. destruct remaining as [|t ts] eqn:Er.
  - exists replacement. split; [done|]. split; [done|]. rewrite He, Hval. cbn. ring.
  - rewrite <- Er in *. replace (zlen remaining =? 0) with false by (rewrite Er; unfold zlen; cbn [length]; lia).
    destruct (NewProduct_ok blake2b rho S HS (replacement :: remaining.*1) (1 :: remaining.*2)) as (e' & E & Hv & Hv'); [cbn; by rewrite !length_fmap|cbn [zip zip_with]; by rewrite zip_fst_snd|].
    exists e'. split; [done|]. split; [done|]. rewrite Hv', He. change (OProduct (1 :: remaining.*2)) with (raw (F := F) productOp (1 :: remaining.*2)). rewrite raw_tsum. cbn [zip zip_with]. rewrite zip_fst_snd, tsum_cons. cbn [fst snd term combine]. by rewrite exp_1, Hval.
Qed.

Lemma sub_product_ok e es :
  S e -> Operator_ e = OProduct es ->
  match Operator_ target with
  | OProduct fs => NoDup (ESHash <$> Children e) /\ forall remaining, factorOutSubProduct (Children e) es (Children target) fs = Ok (Some remaining) -> items_ok S productOp ((replacement, 1) :: remaining)
  | _ => True
  end ->
  substituteSubProduct (Children e) es target replacement = Ok None \/ exists e', substituteSubProduct (Children e) es target replacement = Ok (Some e') /\ keeps_value e (Ok e').
Proof.
  intros HSe Ho Hr. unfold substituteSubProduct. destruct (Operator_ target) as [| | |fs|] eqn:Et; try (by left). destruct Hr as [Hnd Hr].
  pose proof (valid_node _ _ (nc_valid _ _ _ HS _ HSe)) as [Hs _]. rewrite Ho in Hs. destruct Hs as [[Hl _] Hk]. pose proof (valid_node _ _ (nc_valid _ _ _ HS _ Htarget)) as [Hst _]. rewrite Et in Hst. destruct Hst as [[Hlf _] _].
  destruct (factorOutSubProduct (Children e) es (Children target) fs) as [[remaining|]|[]|] eqn:Ef.
  - right. cbn [mbind outcome_bind]. destruct (factored_ok remaining e (Hr _ eq_refl)) as (e' & E & Hv).
    + rewrite <- (factorOut_ok _ _ _ _ _ Hl Hk Hnd (nc_children _ _ _ HS _ HSe) Htarget Et Ef). by rewrite eval_unfold, Ho.
    + rewrite E. exists e'. split; [done|]. by exists e'.
  - by left.
  - rewrite factorOut_spec in Ef by done. discriminate.
Qed.

Lemma substituteExpr_ok e : subst_run e -> keeps_value e (substituteExpr same target replacement e).
Proof.
  induction e as [h cs op b IH] using Expression_nested_ind. intros Hrun. pose proof (run_in _ Hrun) as HSe. cbn [substituteExpr]. case_bool_decide as Eh.
  { exists replacement. split; [done|]. split; [done|]. rewrite Hval. symmetry. by apply (nc_same _ _ _ HS). }
  inversion Hrun as [? _ Em|e' _ Hprod Hreb Hch]; subst; [done|]. cbn [Operator_ Children] in Hprod, Hreb, Hch. set (e := mkExpression h cs op b) in *. rewrite mapM_fix.
  assert ((exists e', (match op with OProduct es => substituteSubProduct cs es target replacement | _ => Ok None end) = Ok (Some e') /\ keeps_value e (Ok e')) \/
    (match op with OProduct es => substituteSubProduct cs es target replacement | _ => Ok None end) = Ok None) as [(e' & -> & Hk)| ->].
  { destruct op as [| | |es|]; try (by right). destruct (sub_product_ok e es HSe eq_refl Hprod) as [E|(e' & E & Hk)]; [by right|left; by exists e']. }
  { done. }
  cbn [mbind outcome_bind]. assert (keeps_value e (Ok e)) as Hself by (exists e; split; [done|]; split; [by apply (nc_valid _ _ _ HS)|done]).
  destruct (Z.eqb_spec (zlen cs) 0) as [|Hne]; [done|].
  destruct (mapM_keeps (substituteExpr same target replacement) cs) as (children & E & Hl & Hv).
  { clear -IH Hch. induction Hch as [|c cs Hc _ IHc]; [constructor|]. apply Forall_cons in IH as [Hi IH]. constructor; [by apply Hi|by apply IHc]. }
  rewrite E. cbn [mbind outcome_bind]. destruct (childrenUnchanged same cs children); [done|].
  assert (is_leaf op = false) as Hleaf.
  { pose proof (valid_node _ _ (nc_valid _ _ _ HS _ HSe)) as [Hs _]. cbn [Operator_ Children e] in Hs. destruct op; try done; cbn in Hs; [destruct Hs as [Hs _]|]; subst cs; done. }
  rewrite rebuild_same by done. destruct (SameWithNewChildren_ok e children) as (e' & E' & Hv' & Hval'); [by apply (nc_valid _ _ _ HS)|done|done|by apply Hreb|].
  exists e'. split; [done|]. split; [done|]. rewrite Hval', Hv. by rewrite (eval_unfold _ _ e).
Qed.
End Values.

(** ** All the expressions *)

Section All.
Context {F : Type} `{ExtOps F} (same : Expression F -> Expression F -> bool) (gomaxprocs : Z) (schedule : list (list (Z * Expression F)) -> list (Z * Expression F)).
Context (Hsch : interleaves schedule).
Abbreviation expr := (Expression F).

Lemma writes_fill {A} (l : list A) ws res :
  Forall (fun w => 0 <= w.1 /\ l !! Z.to_nat w.1 = Some w.2) ws -> length res = length l ->
  exists res', foldM (fun result w => set_index result w.1 (Some w.2)) res ws = Ok (E := Empty_set) res' /\ length res' = length l /\
    forall p x, l !! p = Some x -> res !! p = Some (Some x) \/ Z.of_nat p ∈ ws.*1 -> res' !! p = Some (Some x).
Proof.
  intros Hws. revert res. induction Hws as [|[i y] ws [Hi Hy] _ IH]; intros res Hl.
  { exists res. split; [done|]. split; [done|]. intros p x _ [Hp|Hp]; [done|]. by apply elem_of_nil in Hp. }
  cbn [fst snd] in Hi, Hy. pose proof (lookup_lt_Some _ _ _ Hy) as Hlt. cbn [foldM]. unfold set_index, zlen. cbn [fst snd]. replace ((0 <=? i) && (i <? Z.of_nat (length res))) with true by lia. cbn [mbind outcome_bind].
  destruct (IH (<[Z.to_nat i := Some y]> res)) as (res' & E & Hl' & Hp); [by rewrite length_insert|]. exists res'. split; [exact E|]. split; [done|]. intros p x Hx Hor. apply Hp; [done|].
  destruct (decide (p = Z.to_nat i)) as [->|Hne].
  - left. rewrite list_lookup_insert_eq by lia. rewrite Hy in Hx. by injection Hx as ->.
  - rewrite list_lookup_insert_ne by done. destruct Hor as [Hor|Hor]; [by left|]. cbn [fmap list_fmap fst] in Hor. apply elem_of_cons in Hor as [Hor|Hor]; [lia|by right].
Qed.

Lemma mapM_total {A B} (f : A -> go B) l k ids :
  mapM_ f l = Ok k -> Forall (fun i => (i < length l)%nat) ids ->
  exists ws, mapM_ (fun i => e ← index l i; e' ← f e; Ok (i, e')) (Z.of_nat <$> ids) = Ok ws /\ ws.*1 = Z.of_nat <$> ids /\ Forall (fun w => 0 <= w.1 /\ k !! Z.to_nat w.1 = Some w.2) ws.
Proof.
  intros E. apply mapM__ok in E. induction 1 as [|i ids Hi _ (ws & Ew & H1 & H2)]; [exists []; by split_and!|]. destruct (lookup_lt_is_Some_2 l i Hi) as (x & Hx). destruct (Forall2_lookup_l _ _ _ _ _ E Hx) as (y & Hy & Ey).
  exists ((Z.of_nat i, y) :: ws). cbn [fmap list_fmap mapM_]. rewrite (index_ok l (Z.of_nat i) x) by (rewrite ?Nat2Z.id; (lia || done)). cbn [mbind outcome_bind]. rewrite Ey. cbn [mbind outcome_bind]. rewrite Ew.
  split; [done|]. split; [cbn; by rewrite H1|]. constructor; [|done]. cbn. rewrite Nat2Z.id. split; [lia|done].
Qed.

Lemma substituteInAll_ok exprs target replacement l :
  mapM_ (substituteExpr same target replacement) exprs = Ok l -> substituteInAll same gomaxprocs schedule exprs target replacement = Ok l.
Proof.
  intros E. assert (length l = length exprs) as Hl by (apply mapM__ok in E; symmetry; by eapply Forall2_length). unfold substituteInAll.
  pose proof (Execute_ranges_ok gomaxprocs (zlen exprs) [] ltac:(unfold zlen; lia)) as Er. unfold zlen in Er at 2. rewrite Nat2Z.id in Er.
  assert (Forall (fun i => (i < length exprs)%nat) (mjoin (range_seq <$> Execute_ranges gomaxprocs (zlen exprs) []))) as Hr by (rewrite Er; apply Forall_forall; intros i [_ Hi]%elem_of_seq; lia).
  assert (exists gs, mapM_ (fun r => mapM_ (fun i => e ← index exprs i; e' ← substituteExpr same target replacement e; Ok (i, e')) (Z.of_nat <$> range_seq r)) (Execute_ranges gomaxprocs (zlen exprs) []) = Ok gs /\
    (mjoin gs).*1 = Z.of_nat <$> mjoin (range_seq <$> Execute_ranges gomaxprocs (zlen exprs) []) /\ Forall (fun w => 0 <= w.1 /\ l !! Z.to_nat w.1 = Some w.2) (mjoin gs)) as (gs & -> & Hk & Hw).
  { clear Er. induction (Execute_ranges gomaxprocs (zlen exprs) []) as [|r rs IH]; [exists []; by split_and!|]. cbn [fmap list_fmap mjoin list_join] in Hr. apply Forall_app in Hr as [Hr1 Hr2].
    destruct (mapM_total _ _ _ (range_seq r) E Hr1) as (ws & E1 & H1 & H2). destruct (IH Hr2) as (gs & E2 & H3 & H4). exists (ws :: gs). cbn [mapM_]. rewrite E1. cbn [mbind outcome_bind]. rewrite E2.
    split; [done|]. cbn [mjoin list_join fmap list_fmap]. rewrite !fmap_app, H1. split; [by f_equal|]. by apply Forall_app. }
  cbn [mbind outcome_bind]. pose proof (interleaving_perm _ _ (Hsch gs)) as Hp. rewrite <- Hp in Hw. destruct (writes_fill l (schedule gs) (replicate (length exprs) None) Hw) as (res & -> & Hlr & Hres); [by rewrite length_replicate|].
  cbn [mbind outcome_bind]. assert (res = Some <$> l) as ->; [|apply deref_Some]. apply list_eq. intros p. rewrite list_lookup_fmap. destruct (l !! p) as [x|] eqn:Ex; cbn [fmap option_fmap option_map].
  - apply Hres; [done|]. right. rewrite Hp, Hk, Er. apply list_elem_of_fmap_2, elem_of_seq. apply lookup_lt_Some in Ex. lia.
  - apply lookup_ge_None. apply lookup_ge_None in Ex. lia.
Qed.
End All.

(** ** Sets of expressions with different hashes *)

Lemma list_no_collision {F : Type} `{ExtOps F} (blake2b : string -> E4 F) rho (l : list (Expression F)) :
  Forall (valid blake2b) l -> Forall (fun a => Forall (fun c => c ∈ l) (Children a)) l -> NoDup (ESHash <$> l) -> f_zero ∉ ESHash <$> l -> no_collision blake2b rho (fun a => a ∈ l).
Proof.
  intros Hv Hc Hn Hz. rewrite Forall_forall in Hv, Hc. split; [exact Hv|exact Hc| |].
  - intros a b Ha Hb E. apply list_elem_of_lookup in Ha as (i & Hi), Hb as (j & Hj). assert (i = j) as <-; [|rewrite Hi in Hj; by injection Hj as <-].
    eapply (NoDup_lookup _ i j (ESHash a) Hn); rewrite list_lookup_fmap; [by rewrite Hi|by rewrite Hj, E].
  - intros a Ha E. exfalso. apply Hz. rewrite <- E. by apply list_elem_of_fmap_2.
Qed.
