(* ===== verification/ReductionResults.v ===== *)
(** Degree reduction and rebuilding: the theorems, with their witnesses. *)
From stdpp Require Import pretty.
From S2P Require Import Prelude SvIntervals SmtBuild SmartVectors SvSpec SvOps SvOpsTheorems SvResults FieldExt Symbolic SymSpec SymTheorems SymConstructors Board BoardTheorems BoardEval Multisets MultisetTheorems Reduction ReductionTheorems SymResults.
From Stdlib Require Import ZifyBool.

Lemma foldM_inv {A B} (Inv : B -> Prop) (f : B -> A -> go B) st l st' :
  (forall st x st', x ∈ l -> Inv st -> f st x = Ok st' -> Inv st') -> Inv st -> foldM f st l = Ok st' -> Inv st'.
Proof.
  revert st. induction l as [|x l IH]; intros st Hf Hst E; cbn [foldM] in E; [by injection E as <-|]. apply bind_ok in E as (st1 & E1 & E). apply (IH st1); [|by eapply Hf; [left|..]|done].
  intros. eapply Hf; [by right|done|done].
Qed.

(** ** The loop of the reduction *)

Section Loop.
Context {F : Type} `{ExtLaws F} (getDegree : Metadata -> Z) (degreeBound : Z) (cfg : DegreeReductionConfig) (sort : list (candidateInfo F) -> list (candidateInfo F)).
Context (blake2b : string -> E4 F) (isElim : Metadata -> bool) (same : Expression F -> Expression F -> bool) (gomaxprocs : Z) (schedule : list (list (Z * Expression F)) -> list (Z * Expression F)).
Abbreviation expr := (Expression F).
Local Abbreviation step := (reduce_step getDegree degreeBound cfg sort blake2b same gomaxprocs schedule).
Local Abbreviation loop := (reduce_loop getDegree degreeBound cfg sort blake2b same gomaxprocs schedule).

Lemma step_inv st st' :
  step st = Ok (Some st') ->
  (0 < MaxNumElimination cfg -> zlen (newVars st) < MaxNumElimination cfg) /\
  exists over candidates best, let meta := EliminatedVarMetadata (zlen (newVars st)) best in
    collectCandidateSubexprs getDegree degreeBound cfg (degreeReduced st) over = Ok candidates /\ selectMostFrequentCandidate sort candidates = Ok best /\
    eliminatedSubExpressions st' = eliminatedSubExpressions st ++ [best] /\ newVars st' = newVars st ++ [meta] /\
    substituteInAll same gomaxprocs schedule (degreeReduced st) best (NewVariable blake2b meta) = Ok (degreeReduced st').
Proof.
  unfold reduce_step. destruct ((0 <? MaxNumElimination cfg) && (MaxNumElimination cfg <=? zlen (newVars st))) eqn:Em; [discriminate|]. intros E. apply bind_ok in E as (over & Eo & E).
  destruct (zlen over =? 0); [discriminate|]. apply bind_ok in E as (candidates & Ec & E). destruct (zlen candidates =? 0); [discriminate|]. apply bind_ok in E as (best & Eb & E). apply bind_ok in E as (current & Es & E).
  injection E as <-. split; [lia|]. by exists over, candidates, best.
Qed.

(** How the loop can end. *)
Lemma step_end st :
  step st = Ok None ->
  (0 < MaxNumElimination cfg <= zlen (newVars st)) \/ findOverDegreeIndices getDegree degreeBound (degreeReduced st) = Ok [] \/
  exists over, findOverDegreeIndices getDegree degreeBound (degreeReduced st) = Ok over /\ collectCandidateSubexprs getDegree degreeBound cfg (degreeReduced st) over = Ok [].
Proof.
  unfold reduce_step. destruct ((0 <? MaxNumElimination cfg) && (MaxNumElimination cfg <=? zlen (newVars st))) eqn:Em; [intros _; left; lia|]. intros E. right. apply bind_ok in E as (over & Eo & E).
  destruct (Z.eqb_spec (zlen over) 0) as [Hz|Hz]; [left; destruct over; [done|unfold zlen in Hz; cbn in Hz; lia]|right]. apply bind_ok in E as (candidates & Ec & E). exists over. split; [done|].
  destruct (Z.eqb_spec (zlen candidates) 0) as [Hc|Hc]; [destruct candidates; [done|unfold zlen in Hc; cbn in Hc; lia]|]. apply bind_ok in E as (best & Eb & E). by apply bind_ok in E as (current & Es & E).
Qed.

Lemma within_bound (exprs : list expr) :
  findOverDegreeIndices getDegree degreeBound exprs = Ok [] -> Forall (fun e => exists d, degreeKeepCache getDegree e = Ok d /\ d <= degreeBound) exprs.
Proof.
  unfold findOverDegreeIndices, enumerate. intros E.
  cut (forall (l : list (Z * expr)) acc, foldM (fun indices t => deg ← degreeKeepCache getDegree t.2; Ok (if degreeBound <? deg then indices ++ [t.1] else indices)) acc l = Ok [] ->
    acc = [] /\ Forall (fun t => exists d, degreeKeepCache getDegree t.2 = Ok d /\ d <= degreeBound) l).
  { intros Hcut. apply Hcut in E as [_ E]. rewrite Forall_lookup in E. apply Forall_lookup. intros i e He. apply (E i (Z.of_nat i, e)). by rewrite list_lookup_imap, He. }
  clear. intros l. induction l as [|t l IH]; intros acc E; cbn [foldM] in E; [injection E as ->; split; [done|constructor]|]. apply bind_ok in E as (acc' & E1 & E). apply bind_ok in E1 as (d & Ed & E1). injection E1 as <-.
  destruct (IH _ E) as [Hacc Hl]. destruct (Z.ltb_spec degreeBound d) as [Hlt|Hge]; [by destruct acc|]. split; [done|]. constructor; [|done]. by exists d.
Qed.

Lemma loop_end fuel st r : loop fuel st = Ok (Some r) -> step r = Ok None.
Proof.
  revert st. induction fuel as [|fuel IH]; intros st E; [discriminate|]. cbn [reduce_loop] in E. apply bind_ok in E as ([st'|] & Es & E); [by apply IH in E|]. by injection E as <-.
Qed.

Lemma loop_stops fuel st : 0 < MaxNumElimination cfg -> (Z.to_nat (MaxNumElimination cfg - zlen (newVars st)) < fuel)%nat -> loop fuel st <> Ok None.
Proof.
  intros Hm. revert st. induction fuel as [|fuel IH]; intros st Hf E; [lia|]. cbn [reduce_loop] in E. apply bind_ok in E as ([st'|] & Es & E); [|discriminate].
  destruct (step_inv _ _ Es) as [Hlt (over & candidates & best & _ & _ & _ & En & _)]. specialize (Hlt Hm). apply (IH st'); [|done]. rewrite En. unfold zlen in *. rewrite length_app. cbn [length]. lia.
Qed.

(** What each round adds. *)
Definition numbered_from (r : reduction F) : Prop :=
  length (eliminatedSubExpressions r) = length (newVars r) /\
  forall k e, eliminatedSubExpressions r !! k = Some e -> newVars r !! k = Some (EliminatedVarMetadata (Z.of_nat k) e).

Lemma step_numbered st st' : step st = Ok (Some st') -> numbered_from st -> numbered_from st'.
Proof.
  intros Es [Hl Hn]. destruct (step_inv _ _ Es) as [_ (over & candidates & best & _ & _ & Ee & En & _)]. unfold numbered_from. rewrite Ee, En. split; [rewrite !length_app; cbn; lia|].
  intros k e Hk. apply lookup_app_Some in Hk as [Hk|[Hge Hk]]; [apply lookup_app_l_Some; by apply Hn|]. rewrite lookup_app_r by lia. apply list_lookup_singleton_Some in Hk as [Hk <-].
  replace (k - length (newVars st))%nat with 0%nat by lia. cbn. unfold zlen. do 3 f_equal. lia.
Qed.

Lemma loop_numbered fuel st r : loop fuel st = Ok (Some r) -> numbered_from st -> numbered_from r /\ eliminatedSubExpressions st `prefix_of` eliminatedSubExpressions r /\ (0 < MaxNumElimination cfg -> zlen (newVars st) <= MaxNumElimination cfg -> zlen (newVars r) <= MaxNumElimination cfg).
Proof.
  revert st. induction fuel as [|fuel IH]; intros st E Hst; [discriminate|]. cbn [reduce_loop] in E. apply bind_ok in E as ([st'|] & Es & E); [|by injection E as <-].
  destruct (IH st' E) as (Hr & Hp & Hmax); [by eapply step_numbered|]. destruct (step_inv _ _ Es) as [Hlt (over & candidates & best & _ & _ & Ee & En & _)]. split; [done|]. split.
  - etransitivity; [|exact Hp]. rewrite Ee. by apply prefix_app_r.
  - intros Hm Hle. apply Hmax; [done|]. rewrite En. unfold zlen in *. rewrite length_app. cbn [length]. lia.
Qed.

Local Abbreviation Reduce := (ReduceDegreeOfExpressions getDegree degreeBound cfg sort blake2b isElim same gomaxprocs schedule).

Lemma Reduce_inv fuel exprs r : Reduce fuel exprs = Ok (Some r) -> 1 < degreeBound /\ loop fuel (mkReduction exprs [] []) = Ok (Some r).
Proof.
  unfold ReduceDegreeOfExpressions. intros E. apply bind_ok in E as ([] & _ & E). apply bind_ok in E as ([] & Ea & E). split; [|done]. unfold assert_ in Ea. destruct (Z.leb_spec degreeBound 1); [discriminate|lia].
Qed.

(** C33. The loop of the degree reduction: with a limit on the number of eliminated
    expressions it ends within that number of rounds, if nothing panics; whenever it
    ends, the limit is respected, the new variables are numbered in the order of the
    expressions that they stand for, and either the limit is reached, or all degrees are
    within the bound, or there is no candidate left. *)
Theorem reduction_ends exprs fuel :
  (0 < MaxNumElimination cfg -> (Z.to_nat (MaxNumElimination cfg) < fuel)%nat -> Reduce fuel exprs <> Ok None) /\
  forall r, Reduce fuel exprs = Ok (Some r) ->
    1 < degreeBound /\ (0 < MaxNumElimination cfg -> zlen (newVars r) <= MaxNumElimination cfg) /\
    length (newVars r) = length (eliminatedSubExpressions r) /\
    (forall k e, eliminatedSubExpressions r !! k = Some e -> newVars r !! k = Some (EliminatedVarMetadata (Z.of_nat k) e)) /\
    ((0 < MaxNumElimination cfg /\ zlen (newVars r) = MaxNumElimination cfg) \/ Forall (fun e => exists d, degreeKeepCache getDegree e = Ok d /\ d <= degreeBound) (degreeReduced r) \/
     exists over, findOverDegreeIndices getDegree degreeBound (degreeReduced r) = Ok over /\ collectCandidateSubexprs getDegree degreeBound cfg (degreeReduced r) over = Ok []).
Proof.
  split.
  - intros Hm Hf E. unfold ReduceDegreeOfExpressions in E. apply bind_ok in E as ([] & _ & E). apply bind_ok in E as ([] & _ & E). apply loop_stops in E; [done|done|]. unfold zlen. cbn. lia.
  - intros r E. apply Reduce_inv in E as [Hb E]. destruct (loop_numbered _ _ _ E) as ([Hl Hn] & _ & Hmax); [by split|]. split; [done|]. split; [intros Hm; apply Hmax; [done|unfold zlen; cbn; lia]|].
    split; [done|]. split; [done|]. apply loop_end, step_end in E as [[Hm1 Hm2]|[E|E]]; [left|right; left; by apply within_bound|by right; right]. split; [done|]. specialize (Hmax Hm1). unfold zlen in *. cbn in Hmax. lia.
Qed.

(** ** Values *)

(** The substitutions of the rounds stay in the set [S]. *)
Fixpoint run_ok (S : expr -> Prop) (fuel : nat) (st : reduction F) : Prop :=
  match fuel with
  | O => True
  | Datatypes.S fuel =>
      match step st with
      | Ok (Some st') =>
          match last (eliminatedSubExpressions st'), last (newVars st') with
          | Some best, Some meta => S best /\ Forall (subst_run S same best (NewVariable blake2b meta)) (degreeReduced st)
          | _, _ => False
          end /\ run_ok S fuel st'
      | _ => True
      end
  end.

Lemma loop_sound rho S fuel st r :
  interleaves schedule -> no_collision blake2b rho S -> loop fuel st = Ok (Some r) -> run_ok S fuel st -> numbered_from st ->
  (forall k e m, eliminatedSubExpressions r !! k = Some e -> newVars r !! k = Some m -> rho m = eval id rho e) ->
  Forall2 (fun e e' => eval id rho e' = eval id rho e) (degreeReduced st) (degreeReduced r).
Proof.
  intros Hsch HS. revert st. induction fuel as [|fuel IH]; intros st E Hrun Hst Hdef; [discriminate|]. cbn [reduce_loop] in E. cbn [run_ok] in Hrun. apply bind_ok in E as ([st'|] & Es & E).
  2: { injection E as <-. by apply Forall_Forall2_diag, Forall_true. }
  rewrite Es in Hrun. pose proof (step_numbered _ _ Es Hst) as Hst'. destruct (loop_numbered _ _ _ E Hst') as ([_ Hn] & Hp & _).
  destruct (step_inv _ _ Es) as [_ (over & candidates & best & _ & _ & Ee & En & Esub)]. rewrite Ee, En, !last_snoc in Hrun. destruct Hrun as [[HSb Hrun] Hrest].
  assert (eliminatedSubExpressions r !! length (eliminatedSubExpressions st) = Some best) as Hb by (eapply prefix_lookup_Some; [|exact Hp]; rewrite Ee; by rewrite list_lookup_middle).
  set (meta := EliminatedVarMetadata (zlen (newVars st)) best) in *.
  assert (eval id rho (NewVariable blake2b meta) = eval id rho best) as Hval.
  { cbn. apply (Hdef (length (eliminatedSubExpressions st))); [done|]. rewrite (Hn _ _ Hb). destruct Hst as [Hl _]. unfold meta, zlen. by rewrite Hl. }
  destruct (mapM_keeps blake2b rho (substituteExpr same best (NewVariable blake2b meta)) (degreeReduced st)) as (l & El & _ & Hv).
  { eapply Forall_impl; [exact Hrun|]. intros e He. apply (substituteExpr_ok blake2b rho S HS); [done|apply NewVariable_valid|done|done]. }
  rewrite (substituteInAll_ok same gomaxprocs schedule Hsch _ _ _ _ El) in Esub. injection Esub as Esub. specialize (IH st' E Hrest Hst' Hdef). rewrite <- Esub in IH.
  clear -IH Hv. revert l Hv IH. generalize (degreeReduced st) (degreeReduced r). intros l1 l3. revert l3. induction l1 as [|e l1 IHl]; intros l3 [|e2 l2] Hv H2; try discriminate; inversion H2; subst; [constructor|].
  cbn in Hv. injection Hv as Hv1 Hv. constructor; [congruence|]. by eapply IHl.
Qed.

End Loop.

(** ** Witnesses *)

(** A hash with a value of its own for the new variable. *)
Definition demo_hash2 (name : string) : E4 F3 := if bool_decide (name = "_elim_0"%string) then mkE4 E1 E1 E1 E0 else demo_hash name.

(** [a^3 b^2] and [a^3 b^2 - c]. *)
Definition demo_p : Expression F3 := Eval vm_compute in match NewProduct [va; vb] [3; 2] with Ok e => e | _ => va end.
Definition demo_q : Expression F3 := Eval vm_compute in the (Symbolic.Sub demo_hash2 (AExpr (Some demo_p)) [AExpr (Some vc)]).

Definition demo_config : DegreeReductionConfig := mkConfig 1 15 2 8192 2.
Definition demo_sort (l : list (candidateInfo F3)) : list (candidateInfo F3) := sort_stable (fun c => - (100 * c_count c + zlen (Children (c_expr c)))) l.
Definition demo_reduce (fuel : nat) : go (option (reduction F3)) :=
  ReduceDegreeOfExpressions (fun _ => 1) 3 demo_config demo_sort demo_hash2 (fun _ => false) (fun _ _ => false) 2 mjoin fuel [demo_q].
Definition demo_result : reduction F3 := Eval vm_compute in match demo_reduce 3 with Ok (Some r) => r | _ => mkReduction [] [] [] end.

Definition demo_best : Expression F3 := Eval vm_compute in match eliminatedSubExpressions demo_result with e :: _ => e | [] => va end.
Definition demo_elim : Expression F3 := Eval vm_compute in NewVariable demo_hash2 (EliminatedVarMetadata 0 demo_best).
Definition demo_p' : Expression F3 := Eval vm_compute in match NewProduct [demo_elim; va] [1; 2] with Ok e => e | _ => va end.
Definition demo_q' : Expression F3 := Eval vm_compute in match degreeReduced demo_result with e :: _ => e | [] => va end.

(** All the expressions of the run. *)
Definition demo_run : list (Expression F3) := [va; vb; vc; demo_p; demo_q; demo_best; demo_elim; demo_p'; demo_q'].

Ltac demo_in := unfold demo_run; rewrite !elem_of_cons; tauto.

Lemma demo_run_valid : Forall (valid demo_hash2) demo_run.
Proof.
  assert (valid demo_hash2 va /\ valid demo_hash2 vb /\ valid demo_hash2 vc /\ valid demo_hash2 demo_elim) as (Ha & Hb & Hc & Hx).
  { split_and!; [apply (NewVariable_valid demo_hash2 (mkMetadata "a" true))|apply (NewVariable_valid demo_hash2 (mkMetadata "b" true))|apply (NewVariable_valid demo_hash2 (mkMetadata "c" true))|apply (NewVariable_valid demo_hash2 (EliminatedVarMetadata 0 demo_best))]. }
  assert (forall h x y ks b, valid demo_hash2 x -> valid demo_hash2 y -> shape_ok (OProduct ks) [x; y] -> h = apply_op id (metadataToESH demo_hash2) (OProduct ks) (ESHash <$> [x; y]) -> valid demo_hash2 (mkExpression h [x; y] (OProduct ks) b)) as Hprod.
  { intros. constructor; [by split|by apply Forall_cons_2, Forall_singleton]. }
  assert (forall h x y ks b, valid demo_hash2 x -> valid demo_hash2 y -> shape_ok (OLinComb ks) [x; y] -> h = apply_op id (metadataToESH demo_hash2) (OLinComb ks) (ESHash <$> [x; y]) -> valid demo_hash2 (mkExpression h [x; y] (OLinComb ks) b)) as Hlin.
  { intros. constructor; [by split|by apply Forall_cons_2, Forall_singleton]. }
  assert (valid demo_hash2 demo_p) as Hp by (apply Hprod; [done|done|by repeat split; repeat constructor|by vm_compute]).
  assert (valid demo_hash2 demo_p') as Hp' by (apply Hprod; [done|done|by repeat split; repeat constructor|by vm_compute]).
  assert (valid demo_hash2 demo_best) as Hbest by (apply Hprod; [done|done|by repeat split; repeat constructor|by vm_compute]).
  assert (valid demo_hash2 demo_q) as Hq by (apply Hlin; [done|done|by repeat split; repeat constructor|by vm_compute]).
  assert (valid demo_hash2 demo_q') as Hq' by (apply Hlin; [done|done|by repeat split; repeat constructor|by vm_compute]).
  unfold demo_run. repeat (apply Forall_cons_2; [done|]). by apply Forall_nil_2.
Qed.

Lemma demo_run_no_collision rho : no_collision demo_hash2 rho (fun a => a ∈ demo_run).
Proof.
  apply list_no_collision; [apply demo_run_valid| | |].
  - unfold demo_run at 2. repeat (apply Forall_cons_2; [cbn [Children va vb vc demo_p demo_q demo_best demo_elim demo_p' demo_q']; repeat (apply Forall_cons_2; [demo_in|]); apply Forall_nil_2|]). apply Forall_nil_2.
  - apply (bool_decide_eq_true_1 _). vm_compute. reflexivity.
  - apply (bool_decide_eq_true_1 _). vm_compute. reflexivity.
Qed.

Lemma demo_items op ts : Forall (fun t => t.1 ∈ demo_run) ts -> Forall (fun t => - 2 ^ 63 < t.2 < 2 ^ 63 /\ 0 <= t.2 \/ op = linCombOp /\ - 2 ^ 63 < t.2 < 2 ^ 63) ts -> items_weight op ts < 2 ^ 63 -> items_ok (fun a => a ∈ demo_run) op ts.
Proof.
  intros Hin Hk Hw. split; [by apply Forall_fmap|]. split; [|done]. apply Forall_fmap. eapply Forall_impl; [exact Hk|]. intros t [[Ht Hp]|[-> Ht]]; (split; [exact Ht|]); [done|discriminate].
Qed.

(** The leaves are not changed. *)
Lemma demo_leaf e : e ∈ demo_run -> Children e = [] -> is_leaf (Operator_ e) = true -> subst_run (fun a => a ∈ demo_run) (fun _ _ => false) demo_best demo_elim e.
Proof.
  intros He Hc Hl. apply run_node; [done|by destruct (Operator_ e)| |by rewrite Hc; apply Forall_nil_2]. rewrite Hc. intros children [= <-]. destruct (Operator_ e); (done || by apply Forall_nil_2).
Qed.

Ltac demo_items_tac := apply demo_items; [repeat (apply Forall_cons_2; [demo_in|]); apply Forall_nil_2|repeat (apply Forall_cons_2; [cbn; (left; lia) || (right; split; [done|lia])|]); apply Forall_nil_2|reflexivity].

Lemma demo_run_ok : run_ok (fun _ => 1) 3 demo_config demo_sort demo_hash2 (fun _ _ => false) 2 mjoin (fun a => a ∈ demo_run) 3 (mkReduction [demo_q] [] []).
Proof.
  assert (forall e, e ∈ [va; vb; vc] -> subst_run (fun a => a ∈ demo_run) (fun _ _ => false) demo_best demo_elim e) as Hleaf.
  { intros e He. rewrite !elem_of_cons, elem_of_nil in He. destruct He as [->|[->|[->|[]]]]; (apply demo_leaf; [demo_in|done|done]). }
  assert (subst_run (fun a => a ∈ demo_run) (fun _ _ => false) demo_best demo_elim demo_p) as Hp.
  { apply run_node; [demo_in| | |].
    - split; [apply (bool_decide_eq_true_1 _); vm_compute; reflexivity|]. intros remaining E. vm_compute in E. injection E as <-. demo_items_tac.
    - intros children E. vm_compute in E. injection E as <-. demo_items_tac.
    - apply Forall_cons_2; [apply Hleaf; left|]. apply Forall_singleton, Hleaf. right. left. }
  assert (subst_run (fun a => a ∈ demo_run) (fun _ _ => false) demo_best demo_elim demo_q) as Hq.
  { apply run_node; [demo_in|done| |].
    - intros children E. vm_compute in E. injection E as <-. demo_items_tac.
    - apply Forall_cons_2; [exact Hp|]. apply Forall_singleton, Hleaf. right. right. left. }
  cbn [run_ok]. set (st0 := mkReduction [demo_q] [] []).
  assert (reduce_step (fun _ => 1) 3 demo_config demo_sort demo_hash2 (fun _ _ => false) 2 mjoin st0 = Ok (Some demo_result)) as -> by (vm_compute; reflexivity).
  split; [split; [demo_in|by apply Forall_singleton]|].
  assert (reduce_step (fun _ => 1) 3 demo_config demo_sort demo_hash2 (fun _ _ => false) 2 mjoin demo_result = Ok None) as -> by (vm_compute; reflexivity). done.
Qed.

(** The values of the variables, with the one that the new variable must have. *)
Definition demo_rho2 (m : Metadata) : E4 F3 := if bool_decide (String m = "_elim_0"%string) then eval id (metadataToESH demo_hash) demo_best else metadataToESH demo_hash m.


Lemma reduction_ends_witness :
  demo_reduce 3 <> Ok None /\ Forall (fun e => exists d, degreeKeepCache (fun _ => 1) e = Ok d /\ d <= 3) (degreeReduced demo_result).
Proof.
  destruct (reduction_ends (fun _ => 1) 3 demo_config demo_sort demo_hash2 (fun _ => false) (fun _ _ => false) 2 mjoin [demo_q] 3) as [Hstop Hend]. split.
  - apply Hstop; [reflexivity|vm_compute; lia].
  - destruct (Hend demo_result) as (_ & _ & _ & _ & [[_ Hmax]|[Hdeg|(over & Hover & _)]]); [vm_compute; reflexivity|vm_compute in Hmax; discriminate|exact Hdeg|]. by apply within_bound.
Defined.

(** A product that was made without simplification can have a factor twice.  The map of
    [factorOutSubProduct] keeps one of the two exponents: [a * a * b] without [a * b] has
    no factor left, and the substitution gives the new variable alone. *)
Example duplicate_factor_lost :
  match newProductNoSimplify [va; va; vb] [1; 1; 1] with
  | Ok e => substituteExpr (fun _ _ => false) demo_ab demo_elim e = Ok demo_elim /\ eval id (fun _ => E4_map2 f_add f_one f_one) e <> eval id (fun _ => E4_map2 f_add f_one f_one) demo_ab
  | _ => False
  end.
Proof. vm_compute. split; [reflexivity|discriminate]. Qed.
