(* ===== verification/ReductionVars.v ===== *)
(** The variables of the expressions that rebuilding and degree reduction make: an
    eliminated expression only depends on the variables of the original expressions and
    on the new variables that were made before it. *)
From stdpp Require Import pretty.
From S2P Require Import Prelude SvIntervals SmtBuild SmartVectors SvOps SvOpsTheorems FieldExt Symbolic SymSpec SymTheorems SymConstructors Board BoardTheorems BoardEval Multisets Reduction ReductionTheorems SvResults SymResults ReductionResults.
From Stdlib Require Import ZifyBool.

Lemma index_elem {A} (l : list A) i x : index l i = Ok x -> x ∈ l.
Proof. unfold index. destruct (0 <=? i); [|discriminate]. destruct (l !! Z.to_nat i) as [y|] eqn:E; [|discriminate]. intros [= <-]. by eapply list_elem_of_lookup_2. Qed.

Section Vars.
Context {F : Type} `{ExtOps F} (P : Metadata -> Prop).
Abbreviation expr := (Expression F).

(** All the variables of the expression satisfy [P]. *)
Inductive vars_in : expr -> Prop :=
| vars_in_intro e : (forall m, Operator_ e = OVariable m -> P m) -> Forall vars_in (Children e) -> vars_in e.

Lemma vars_children e : vars_in e -> Forall vars_in (Children e).
Proof. by destruct 1. Qed.

Lemma vars_elem l (x : expr) : Forall vars_in l -> x ∈ l -> vars_in x.
Proof. rewrite Forall_forall. auto. Qed.

Lemma constant_vars x : vars_in (NewConstant x).
Proof. constructor; [done|constructor]. Qed.

Definition terms_in (ts : list (expr * Z)) : Prop := Forall (fun t => vars_in t.1) ts.

Lemma terms_fst ts : terms_in ts <-> Forall vars_in ts.*1.
Proof. unfold terms_in. by rewrite Forall_fmap. Qed.

Lemma addItem_vars st item c : terms_in (newTerms st) -> vars_in item -> terms_in (newTerms (addItem st item c)).
Proof.
  intros Hst Hi. assert (forall i, terms_in (increase (newTerms st) i c)) as Hinc.
  { intros i. unfold increase, terms_in. apply Forall_alter; [done|]. intros t _ Ht. exact Ht. }
  assert (terms_in (newTerms st ++ [(item, c)])) as Happ by (apply Forall_app; split; [done|]; by apply Forall_singleton).
  unfold addItem. destruct (switch_map _ _) as [mp|]; [destruct (hmap_get _ _)|destruct (scan _ _)]; cbn [newTerms]; done.
Qed.

Lemma addTerm_vars op st item c : terms_in (newTerms st) -> vars_in item -> terms_in (newTerms (addTerm op st item c)).
Proof.
  intros Hst Hi. destruct op; unfold addTerm, addTerm_lincomb, addTerm_product; (destruct (c =? 0); [done|]); destruct (Operator_ item); try done; by apply addItem_vars.
Qed.

Lemma add_nested_vars op st c ks item st' : terms_in (newTerms st) -> vars_in item -> add_nested (addTerm op) st c ks item = Ok st' -> terms_in (newTerms st').
Proof.
  intros Hst Hi. unfold add_nested. apply (foldM_inv (fun st => terms_in (newTerms st))); [|done]. intros st1 k st2 _ H1 E. apply bind_ok in E as (g & Eg & E). apply bind_ok in E as (k' & _ & E). injection E as <-.
  apply addTerm_vars; [done|]. eapply vars_elem; [by apply vars_children|by eapply index_elem].
Qed.

Lemma kept_vars ts g (b : bool) : terms_in ts -> terms_in (nonzero_terms (if b then ts else ts ++ [(NewConstant g, 1)])).
Proof.
  intros Hts. unfold nonzero_terms, terms_in. apply Forall_filter_pred. destruct b; [done|]. apply Forall_app. split; [done|]. constructor; [apply constant_vars|constructor].
Qed.

Lemma simplifyLinComb_vars items ks ts : Forall vars_in items -> simplifyLinComb items ks = Ok ts -> terms_in ts.
Proof.
  intros Hi E. unfold simplifyLinComb in E. apply bind_ok in E as ([] & _ & E). apply bind_ok in E as (st & Est & E). injection E as <-. apply kept_vars.
  revert Est. apply (foldM_inv (fun st => terms_in (newTerms st))); [|constructor]. intros st1 [item c] st2 Ht Hst E. unfold lincomb_item in E. destruct (c =? 0); [by injection E as <-|].
  assert (vars_in item) as Hit by (eapply vars_elem; [exact Hi|]; by apply elem_of_zip_l in Ht). destruct (Operator_ item); try (injection E as <-; by apply (addTerm_vars linCombOp)). by eapply (add_nested_vars linCombOp).
Qed.

Lemma simplifyProduct_vars items ks ts : Forall vars_in items -> simplifyProduct items ks = Ok ts -> terms_in ts.
Proof.
  intros Hi E. unfold simplifyProduct in E. apply bind_ok in E as ([] & _ & E). apply bind_ok in E as (st & Est & E).
  assert (match st with Some st => terms_in (newTerms st) | None => True end) as Hst.
  { revert Est. apply (foldM_inv (fun st => match st with Some st => terms_in (newTerms st) | None => True end)); [|constructor]. intros [st1|] [item c] st2 Ht Hst E'; unfold product_item in E'; [|by injection E' as <-].
    destruct (c =? 0); [by injection E' as <-|]. apply bind_ok in E' as ([] & _ & E'). case_bool_decide; [by injection E' as <-|].
    assert (vars_in item) as Hit by (eapply vars_elem; [exact Hi|]; by apply elem_of_zip_l in Ht). destruct (Operator_ item); try (injection E' as <-; by apply (addTerm_vars productOp)).
    apply bind_ok in E' as (st3 & E3 & E'). injection E' as <-. by eapply (add_nested_vars productOp). }
  destruct st as [st|]; injection E as <-; [by apply kept_vars|]. constructor; [apply constant_vars|constructor].
Qed.

Lemma no_simplify_vars op items ks e : Forall vars_in items -> newNoSimplify op items ks = Ok e -> vars_in e.
Proof.
  intros Hi E. destruct op; unfold newNoSimplify, newLinCombNoSimplify, newProductNoSimplify in E; apply bind_ok in E as (h & _ & E); injection E as <-; constructor; done.
Qed.

Lemma new_of_vars op ts e : terms_in ts -> new_of op ts = Ok e -> vars_in e.
Proof.
  intros Hts E. destruct ts as [|[item k] [|t ts]]; cbn [new_of] in E.
  - injection E as <-. apply constant_vars.
  - apply Forall_cons in Hts as [Ht _]. destruct (k =? 1); [by injection E as <-|]. eapply no_simplify_vars; [|exact E]. by apply Forall_singleton.
  - eapply no_simplify_vars; [|exact E]. by apply terms_fst.
Qed.

Lemma NewLinComb_vars items ks e : Forall vars_in items -> NewLinComb items ks = Ok e -> vars_in e.
Proof.
  intros Hi E. unfold NewLinComb in E. apply bind_ok in E as ([] & _ & E). apply bind_ok in E as (ts & Ets & E). eapply (new_of_vars linCombOp); [by eapply simplifyLinComb_vars|exact E].
Qed.

Lemma NewProduct_vars items ks e : Forall vars_in items -> NewProduct items ks = Ok e -> vars_in e.
Proof.
  intros Hi E. unfold NewProduct in E. apply bind_ok in E as ([] & _ & E). apply bind_ok in E as (ts & Ets & E). eapply (new_of_vars productOp); [by eapply simplifyProduct_vars|exact E].
Qed.

Lemma polyeval_vars cs e : Forall vars_in cs -> polyeval_of cs = Ok e -> vars_in e.
Proof.
  intros Hi E. unfold polyeval_of in E. apply bind_ok in E as (x & Ex & E). destruct cs as [|x' cs]; [discriminate|]. cbn in Ex. injection Ex as <-. cbn [drop] in E. unfold NewPolyEval in E. apply bind_ok in E as ([] & _ & E).
  apply Forall_cons in Hi as [Hx Hi]. destruct cs as [|c [|d cs]]; [| |]; injection E as <-; [constructor; [done|by apply Forall_singleton]|by apply Forall_cons in Hi as [? _]|constructor; [done|by constructor]].
Qed.

(** ** Substitution *)

Lemma factorOut_vars cs ks ts fs remaining : Forall vars_in cs -> factorOutSubProduct cs ks ts fs = Ok (Some remaining) -> terms_in remaining.
Proof.
  intros Hcs E. unfold factorOutSubProduct in E. apply bind_ok in E as (m0 & _ & E). apply bind_ok in E as ([m|] & _ & E); [|discriminate]. apply bind_ok in E as (r & Er & E). injection E as <-.
  revert Er. apply (foldM_inv (fun r => terms_in r.2)); [|constructor]. intros [m1 rem] c st2 Hc Hst E'. cbn [snd] in Hst. destruct (hmap_get m1 (ESHash c)) as [x|]; [|by injection E' as <-].
  destruct (0 <? x); injection E' as <-; [|done]. apply Forall_app. split; [done|]. apply Forall_singleton. by apply (vars_elem cs).
Qed.

Lemma sub_product_vars cs ks target repl e : Forall vars_in cs -> vars_in repl -> substituteSubProduct cs ks target repl = Ok (Some e) -> vars_in e.
Proof.
  intros Hcs Hr E. unfold substituteSubProduct in E. destruct (Operator_ target); try discriminate. apply bind_ok in E as ([remaining|] & Ef & E); [|discriminate]. apply bind_ok in E as (e' & Eb & E). injection E as <-.
  unfold buildFactoredProduct in Eb. destruct (zlen remaining =? 0); [by injection Eb as <-|]. eapply NewProduct_vars; [|exact Eb]. constructor; [done|]. apply terms_fst. by eapply factorOut_vars.
Qed.

Lemma rebuild_vars e cs e' : vars_in e -> Forall vars_in cs -> rebuildExpression e cs = Ok e' -> vars_in e'.
Proof.
  intros He Hcs E. unfold rebuildExpression in E. destruct (Operator_ e); [by injection E as <-..|by eapply NewLinComb_vars|by eapply NewProduct_vars|by eapply polyeval_vars].
Qed.

Lemma mapM_vars (f : expr -> go expr) cs cs' : Forall (fun c => forall c', f c = Ok c' -> vars_in c') cs -> mapM_ f cs = Ok cs' -> Forall vars_in cs'.
Proof. intros Hf E. apply mapM__ok in E. induction E as [|c c' cs cs' Hc _ IH]; [constructor|]. apply Forall_cons in Hf as [Hf1 Hf]. constructor; [by apply Hf1|by apply IH]. Qed.

Lemma substituteExpr_vars same target repl e e' : vars_in repl -> vars_in e -> substituteExpr same target repl e = Ok e' -> vars_in e'.
Proof.
  intros Hr. revert e'. induction e as [h cs op b IH] using Expression_nested_ind. intros e' He E. cbn [substituteExpr] in E. case_bool_decide; [by injection E as <-|]. pose proof (vars_children _ He) as Hcs. cbn [Children] in Hcs.
  apply bind_ok in E as ([sub|] & Es & E).
  - injection E as <-. destruct op; try discriminate. eapply sub_product_vars; [exact Hcs|exact Hr|exact Es].
  - destruct (zlen cs =? 0); [by injection E as <-|]. rewrite mapM_fix in E. apply bind_ok in E as (cs' & Ec & E). destruct (childrenUnchanged same cs cs'); [by injection E as <-|].
    eapply rebuild_vars; [exact He| |exact E]. eapply mapM_vars; [|exact Ec]. clear -IH Hcs. induction IH as [|c cs Hc _ IHc]; [constructor|]. apply Forall_cons in Hcs as [Hc1 Hcs]. constructor; [intros; by apply Hc|by apply IHc].
Qed.

Lemma substituteInAll_vars same gomaxprocs schedule exprs target repl l :
  interleaves schedule -> vars_in repl -> Forall vars_in exprs -> substituteInAll same gomaxprocs schedule exprs target repl = Ok l -> Forall vars_in l.
Proof.
  intros Hsch Hr He E. unfold substituteInAll in E. apply bind_ok in E as (gs & Eg & E). apply bind_ok in E as (res & Eres & E).
  assert (forall w, w ∈ mjoin gs -> vars_in w.2) as Hw.
  { intros w Hw. apply list_elem_of_join in Hw as (g & Hw & Hg). apply mapM__ok in Eg. apply list_elem_of_lookup in Hg as (i & Hi). destruct (Forall2_lookup_r _ _ _ _ _ Eg Hi) as (r & _ & Er).
    apply mapM__ok in Er. apply list_elem_of_lookup in Hw as (j & Hj). destruct (Forall2_lookup_r _ _ _ _ _ Er Hj) as (id & _ & Eid). apply bind_ok in Eid as (e & Ee & Eid). apply bind_ok in Eid as (e' & Ee' & Eid).
    injection Eid as <-. cbn [snd]. eapply substituteExpr_vars; [exact Hr| |exact Ee']. eapply vars_elem; [exact He|by eapply index_elem]. }
  assert (Forall (fun o => match o with Some e => vars_in e | None => True end) res) as Hres.
  { revert Eres. apply (foldM_inv (Forall (fun o => match o with Some e => vars_in e | None => True end))); [|by apply Forall_replicate]. intros st w st' Hin Hst E'.
    unfold set_index in E'. destruct ((0 <=? w.1) && (w.1 <? zlen st)); [|discriminate]. injection E' as <-. apply Forall_insert; [done|]. apply Hw. by rewrite <- (interleaving_perm _ _ (Hsch gs)). }
  unfold deref in E. apply mapM__ok in E. clear -E Hres. induction E as [|o e res l Ho _ IH]; [constructor|]. apply Forall_cons in Hres as [H1' Hres]. destruct o; [|discriminate]. injection Ho as <-. constructor; [done|by apply IH].
Qed.

(** ** Candidates *)

Context (getDegree : Metadata -> Z) (degreeBound : Z) (cfg : DegreeReductionConfig).

Definition candidates_in (m : DeterministicMap (E4 F) (candidateInfo F)) : Prop := Forall (fun c => vars_in (c_expr c)) (Values m).

Lemma addCandidate_vars m e m' : candidates_in m -> vars_in e -> addCandidate m e = Ok m' -> candidates_in m'.
Proof.
  intros Hm He E. unfold addCandidate in E. apply bind_ok in E as ([idx|] & _ & E).
  - apply bind_ok in E as (x & Ex & E). apply bind_ok in E as (vs & Ev & E). injection E as <-. unfold set_index in Ev. destruct ((0 <=? idx) && (idx <? zlen (Values m))); [|discriminate]. injection Ev as <-.
    apply Forall_insert; [done|]. apply index_elem in Ex. unfold candidates_in in Hm. rewrite Forall_forall in Hm. by apply (Hm x).
  - unfold InsertNew in E. destruct (assoc (InnerMap m) (ESHash e)); [discriminate|]. injection E as <-. apply Forall_app. split; [done|]. by apply Forall_singleton.
Qed.

Lemma buildSubProduct_vars cs es e : Forall vars_in cs -> buildSubProductFromExponents cs es = Ok (Some e) -> vars_in e.
Proof.
  intros Hcs E. unfold buildSubProductFromExponents in E. apply bind_ok in E as (sub & Es & E). destruct (zlen sub =? 0); [discriminate|]. apply bind_ok in E as (e' & Ep & E). injection E as <-.
  eapply NewProduct_vars; [|exact Ep]. apply terms_fst. revert Es. apply (foldM_inv terms_in); [|constructor]. intros st i st' _ Hst E. apply bind_ok in E as (k & _ & E). destruct (0 <? k); [|by injection E as <-].
  apply bind_ok in E as (c & Ec & E). injection E as <-. apply Forall_app. split; [done|]. apply Forall_singleton. eapply vars_elem; [exact Hcs|by eapply index_elem].
Qed.

Lemma for_next_inv {St} (Inv : St -> Prop) (body : St -> weightedSubMultisetIterator -> go St) fuel it st st' :
  (forall st it st', Inv st -> body st it = Ok st' -> Inv st') -> Inv st -> for_next body fuel it st = Ok st' -> Inv st'.
Proof.
  intros Hb. revert it st. induction fuel as [|fuel IH]; intros it st Hst E; [discriminate|]. cbn [for_next] in E. apply bind_ok in E as ([[] it'] & _ & E); cbn [fst snd] in E; [|by injection E as <-].
  apply bind_ok in E as (st1 & E1 & E). eapply IH; [|exact E]. by eapply Hb.
Qed.

Lemma collectSubProducts_vars cs es m r : Forall vars_in cs -> candidates_in m -> collectSubProducts getDegree degreeBound cfg cs es m = Ok r -> candidates_in r.1.
Proof.
  intros Hcs Hm E. unfold collectSubProducts in E. destruct (zlen cs =? 0); [by injection E as <-|]. apply bind_ok in E as (ws & _ & E). unfold for_iterator in E. revert E.
  apply (for_next_inv (fun st => candidates_in st.1)); [|done]. intros st it st' Hst E. unfold add_sub_product in E. destruct (hasOnlyASingleOne (curr it)); [by injection E as <-|]. apply bind_ok in E as (d & _ & E).
  destruct ((d <? 0) || (degreeBound <? d)); [by injection E as <-|]. apply bind_ok in E as ([e|] & Eb & E); [|by injection E as <-]. apply bind_ok in E as (m1 & Ea & E). injection E as <-. cbn [fst].
  eapply addCandidate_vars; [exact Hst|by eapply buildSubProduct_vars|exact Ea].
Qed.

Lemma collectFromExpr_vars e m r : vars_in e -> candidates_in m -> collectFromExpr getDegree degreeBound cfg e m = Ok r -> candidates_in r.1.
Proof.
  revert m r. induction e as [h cs op b IH] using Expression_nested_ind. intros m r He Hm E. pose proof (vars_children _ He) as Hcs. cbn [Children] in Hcs. cbn [collectFromExpr] in E. apply bind_ok in E as (d & _ & E).
  destruct (d <? MinDegreeForCandidate cfg); [by injection E as <-|]. apply bind_ok in E as ([m1 n1] & E1 & E). assert (candidates_in m1) as Hm1.
  { destruct ((0 <? d) && (d <=? degreeBound) && negb (isTrivialExpr (mkExpression h cs op b))); [|by injection E1 as <-]. apply bind_ok in E1 as (m' & Ea & E1). injection E1 as <- _. by eapply addCandidate_vars. }
  apply bind_ok in E as ([m2 n2] & E2 & E). assert (candidates_in m2) as Hm2.
  { clear E E1 Hm He. revert m1 n1 Hm1 E2. induction IH as [|c cs Hc _ IHc]; intros m1 n1 Hm1 E2; [by injection E2 as <-|]. apply Forall_cons in Hcs as [Hc1 Hcs]. apply bind_ok in E2 as ([m3 k] & E3 & E2).
    apply (IHc Hcs m3 (n1 + k)); [by apply (Hc m1 (m3, k))|done]. }
  destruct op as [g|v|ks|es|]; try (by injection E as <-). apply bind_ok in E as ([m3 k] & E3 & E). injection E as <-. by apply (collectSubProducts_vars cs es m2 (m3, k)).
Qed.

Lemma collectCandidates_vars exprs over l : Forall vars_in exprs -> collectCandidateSubexprs getDegree degreeBound cfg exprs over = Ok l -> Forall (fun c => vars_in (c_expr c)) l.
Proof.
  intros He E. unfold collectCandidateSubexprs in E. apply bind_ok in E as (m & Em & E). apply bind_ok in E as (m1 & E1 & E). injection E as <-. unfold ValueSlice.
  assert (candidates_in m) as Hm by (unfold MakeDeterministicMap in Em; apply bind_ok in Em as ([] & _ & Em); injection Em as <-; constructor). clear Em. revert m Hm E1.
  induction over as [|i over IH]; intros m Hm E1; cbn [collect_all] in E1; [by injection E1 as <-|]. apply bind_ok in E1 as (e & Ee & E1). apply bind_ok in E1 as ([m2 k] & E2 & E1).
  assert (candidates_in m2) as Hm2 by (apply (collectFromExpr_vars e m (m2, k)); [|done|done]; eapply vars_elem; [exact He|by eapply index_elem]).
  destruct (MaxCandidatePerRound cfg <=? dmap_Len m2); [by injection E1 as <-|]. by apply (IH m2).
Qed.
End Vars.

Section Previous.
Context {F : Type} `{ExtLaws F} (getDegree : Metadata -> Z) (degreeBound : Z) (cfg : DegreeReductionConfig) (sort : list (candidateInfo F) -> list (candidateInfo F)).
Context (blake2b : string -> E4 F) (isElim : Metadata -> bool) (same : Expression F -> Expression F -> bool) (gomaxprocs : Z) (schedule : list (list (Z * Expression F)) -> list (Z * Expression F)).
Context (Hsort : forall l, sort l ≡ₚ l) (Hsch : interleaves schedule).
Abbreviation expr := (Expression F).
Local Abbreviation step := (reduce_step getDegree degreeBound cfg sort blake2b same gomaxprocs schedule).
Local Abbreviation loop := (reduce_loop getDegree degreeBound cfg sort blake2b same gomaxprocs schedule).

Lemma vars_in_mono (P Q : Metadata -> Prop) (e : expr) : (forall m, P m -> Q m) -> vars_in P e -> vars_in Q e.
Proof.
  intros HPQ. induction e as [h cs op b IH] using Expression_nested_ind. intros Hv. inversion Hv as [e Hm Hc]; subst. constructor; [intros m Em; by apply HPQ, Hm|].
  cbn [Children] in *. clear Hv Hm. induction IH as [|c cs Hc' _ IHc]; [constructor|]. apply Forall_cons in Hc as [Hc1 Hc]. constructor; [by apply Hc'|by apply IHc].
Qed.

(** The original variables, and the new ones before the position [k]. *)
Definition earlier (P : Metadata -> Prop) (vars : list Metadata) (k : nat) (m : Metadata) : Prop := P m \/ exists j, (j < k)%nat /\ vars !! j = Some m.

Lemma best_vars (P : Metadata -> Prop) st over candidates best :
  Forall (vars_in P) (degreeReduced st) -> collectCandidateSubexprs getDegree degreeBound cfg (degreeReduced st) over = Ok candidates -> selectMostFrequentCandidate sort candidates = Ok best -> vars_in P best.
Proof.
  intros Hst Ec Eb. apply (collectCandidates_vars P) in Ec; [|done]. unfold selectMostFrequentCandidate in Eb. apply bind_ok in Eb as (c & Ei & Eb). injection Eb as <-. apply index_elem in Ei. rewrite Hsort in Ei.
  rewrite Forall_forall in Ec. by apply Ec.
Qed.

Lemma loop_vars (P : Metadata -> Prop) fuel st r k e :
  loop fuel st = Ok (Some r) -> numbered_from st -> Forall (vars_in (earlier P (newVars r) (length (newVars st)))) (degreeReduced st) ->
  (length (newVars st) <= k)%nat -> eliminatedSubExpressions r !! k = Some e -> vars_in (earlier P (newVars r) k) e.
Proof.
  revert st. induction fuel as [|fuel IH]; intros st E Hst Hv Hk He; [discriminate|]. cbn [reduce_loop] in E. apply bind_ok in E as ([st'|] & Es & E).
  2: { injection E as <-. destruct Hst as [Hl _]. apply lookup_lt_Some in He. lia. }
  pose proof (step_numbered _ _ _ _ _ _ _ _ _ _ Es Hst) as Hst'. destruct (loop_numbered _ _ _ _ _ _ _ _ _ _ _ E Hst') as ([_ Hn] & Hp & _).
  destruct (step_inv _ _ _ _ _ _ _ _ _ _ Es) as [_ (over & candidates & best & Ec & Eb & Ee & En & Esub)]. pose proof (best_vars _ st over candidates best Hv Ec Eb) as Hbest.
  assert (eliminatedSubExpressions r !! length (newVars st) = Some best) as Hb.
  { destruct Hst as [Hl _]. rewrite <- Hl. eapply prefix_lookup_Some; [|exact Hp]. rewrite Ee. by rewrite list_lookup_middle. }
  destruct (decide (k = length (newVars st))) as [->|Hne]; [rewrite Hb in He; by injection He as <-|].
  apply (IH st' E Hst'); [|rewrite En, length_app; cbn; lia|done]. eapply substituteInAll_vars; [exact Hsch| | |exact Esub].
  - constructor; [|constructor]. intros m [= <-]. right. exists (length (newVars st)). split; [rewrite En, length_app; cbn; lia|]. exact (Hn _ _ Hb).
  - eapply Forall_impl; [exact Hv|]. intros e0. apply vars_in_mono. intros m [Hm|(j & Hj & Hm)]; [by left|]. right. exists j. split; [rewrite En, length_app; cbn; lia|done].
Qed.

(** An expression that the degree reduction eliminates only depends on the variables of
    the original expressions and on the new variables of the expressions that were
    eliminated before it, so that the values of the new variables can be computed one
    after the other. *)
Theorem eliminated_previous (P : Metadata -> Prop) fuel exprs r :
  ReduceDegreeOfExpressions getDegree degreeBound cfg sort blake2b isElim same gomaxprocs schedule fuel exprs = Ok (Some r) -> Forall (vars_in P) exprs ->
  forall k e, eliminatedSubExpressions r !! k = Some e -> vars_in (earlier P (newVars r) k) e.
Proof.
  intros E He k e Hk. apply Reduce_inv in E as [_ E]. apply (loop_vars P fuel (mkReduction exprs [] [])); [done|by split| |cbn; lia|done].
  eapply Forall_impl; [exact He|]. intros e0. apply vars_in_mono. intros m Hm. by left.
Qed.
End Previous.

Lemma eliminated_previous_witness : vars_in (earlier (fun m => String m ∈ ["a"; "b"; "c"]%string) (newVars demo_result) 0) demo_best.
Proof.
  assert (forall n, n ∈ ["a"; "b"; "c"]%string -> vars_in (F := F3) (fun m => String m ∈ ["a"; "b"; "c"]%string) (NewVariable demo_hash2 (mkMetadata n true))) as Hv.
  { intros n Hn. constructor; [intros m [= <-]; exact Hn|constructor]. }
  apply (eliminated_previous (fun _ => 1) 3 demo_config demo_sort demo_hash2 (fun _ => false) (fun _ _ => false) 2 mjoin) with (fuel := 3%nat) (exprs := [demo_q]) (r := demo_result) (k := 0%nat).
  - intros l. apply sort_stable_perm.
  - intros ps. apply interleaving_seq.
  - vm_compute. reflexivity.
  - apply Forall_singleton. constructor; [discriminate|]. apply Forall_cons_2; [|apply Forall_singleton; apply (Hv "c"%string); set_solver].
    constructor; [discriminate|]. apply Forall_cons_2; [apply (Hv "a"%string); set_solver|apply Forall_singleton; apply (Hv "b"%string); set_solver].
  - reflexivity.
Defined.
