(* ===== verification/RebuildTheorems.v ===== *)
(** Rebuilding expressions: replaying them with other variables, reconstructing them from
    the bottom up, and the degree of a board. *)
From S2P Require Import Prelude SvIntervals SmtBuild SmartVectors SvSpec SvOps SvOpsTheorems SvResults FieldExt Symbolic SymSpec SymTheorems SymConstructors Board BoardTheorems BoardEval Multisets Reduction ReductionTheorems SymResults.
From Stdlib Require Import ZifyBool.

Section Replay.
Context {F : Type} `{ExtLaws F} (blake2b : string -> E4 F) (rho : Metadata -> E4 F) (S : Expression F -> Prop).
Context (HS : no_collision blake2b rho S) (same : Expression F -> Expression F -> bool) (Hsame : forall a b, same a b = true -> a = b).
Abbreviation expr := (Expression F).

(** The values of the variables that an expression stands for after its variables have
    been replaced. *)
Definition translated (tr : Metadata -> expr) (m : Metadata) : E4 F := eval id rho (tr m).

(** The result has the value of the expression with other values of the variables. *)
Definition becomes (rho' : Metadata -> E4 F) (e : expr) (r : go expr) : Prop := exists e', r = Ok e' /\ valid blake2b e' /\ eval id rho e' = eval id rho' e.

Lemma mapM_becomes rho' (f : expr -> go expr) cs :
  Forall (fun c => becomes rho' c (f c)) cs -> exists children, mapM_ f cs = Ok children /\ length children = length cs /\ Forall (valid blake2b) children /\ eval id rho <$> children = eval id rho' <$> cs.
Proof.
  induction 1 as [|c cs (c' & E & Hv & Hc) _ (children & Es & Hl & Hvs & Hcs)]; [exists []; split_and!; done|]. exists (c' :: children). cbn [mapM_]. rewrite E. cbn [mbind outcome_bind]. rewrite Es. split; [done|].
  split; [cbn; lia|]. split; [by constructor|]. cbn. by rewrite Hc, Hcs.
Qed.

Lemma unchanged_same (cs children : list expr) : length children = length cs -> childrenUnchanged same cs children = true -> children = cs.
Proof.
  unfold childrenUnchanged. revert children. induction cs as [|c cs IH]; intros [|d ds] Hl; try discriminate; [done|]. cbn [zip zip_with forallb fst snd]. intros [Hc Hcs]%andb_true_iff. apply Hsame in Hc as ->. f_equal. apply IH; [by injection Hl|done].
Qed.

Context (translationMap : string -> option expr).

Definition lookup_translation (m : Metadata) : expr := match translationMap (String m) with Some e => e | None => NewVariable blake2b m end.

(** The sums and products that a replay makes are of expressions of the set, with few
    enough terms. *)
Inductive replay_run : expr -> Prop :=
| replay_run_intro e :
    valid blake2b e ->
    (forall children, mapM_ (Replay same translationMap) (Children e) = Ok children -> childrenUnchanged same (Children e) children = false -> rebuilt_ok S (Operator_ e) children) ->
    Forall replay_run (Children e) -> replay_run e.

(** Replaying an expression replaces its variables: the result is well formed and has
    the value of the expression where each variable of the map has the value of its
    translation, whatever is simplified or kept on the way. *)
Theorem Replay_translates e : (forall n x, translationMap n = Some x -> valid blake2b x) -> replay_run e -> becomes (translated lookup_translation) e (Replay same translationMap e).
Proof.
  intros Htr. induction e as [h cs op b IH] using Expression_nested_ind. intros Hrun. inversion Hrun as [e' Hv Hreb Hch]; subst. cbn [Operator_ Children] in Hreb, Hch. unfold becomes. cbn [Replay]. set (e := mkExpression h cs op b) in *.
  destruct (is_leaf op) eqn:Eleaf.
  { destruct op as [g|m| | |]; try discriminate.
    - exists e. split; [done|]. split; [done|]. pose proof (valid_node _ _ Hv) as [Hs _]. destruct Hs as [Hcs _]. cbn in Hcs. unfold e. by subst cs.
    - unfold e. cbn [eval apply_op]. unfold translated, lookup_translation. destruct (translationMap (String m)) as [x|] eqn:Ex.
      + exists x. split; [done|]. split; [by eapply Htr|done].
      + exists e. split; [done|]. split; [done|]. done. }
  rewrite mapM_fix. destruct (mapM_becomes (translated lookup_translation) (Replay same translationMap) cs) as (children & E & Hl & _ & Hval).
  { clear -IH Hch. induction Hch as [|c cs Hc _ IHc]; [constructor|]. apply Forall_cons in IH as [Hi IH]. constructor; [by apply Hi|by apply IHc]. }
  assert (becomes (translated lookup_translation) e (if childrenUnchanged same cs children then Ok e else SameWithNewChildren e children)) as Hres.
  { destruct (childrenUnchanged same cs children) eqn:Eu.
    - exists e. split; [done|]. split; [done|]. rewrite !eval_unfold. apply unchanged_same in Eu; [|done]. subst children. unfold e. cbn [Operator_ Children]. rewrite Hval. by destruct op.
    - destruct (SameWithNewChildren_ok blake2b rho S HS e children) as (e' & E' & Hv' & Hval'); [done|done|done|by apply Hreb|]. exists e'. split; [done|]. split; [done|]. rewrite Hval', (eval_unfold _ _ e), Hval. unfold e. cbn [Operator_]. by destruct op. }
  destruct op; try discriminate; rewrite E; exact Hres.
Qed.
End Replay.

(** ** Reconstruction *)

Section Reconstruct.
Context {F : Type} `{ExtLaws F} (blake2b : string -> E4 F) (rho : Metadata -> E4 F).
Abbreviation expr := (Expression F).

Lemma NoSimplify_ok (e : expr) children :
  valid blake2b e -> is_leaf (Operator_ e) = false -> length children = length (Children e) -> Forall (valid blake2b) children ->
  exists e', SameWithNewChildrenNoSimplify e children = Ok e' /\ valid blake2b e' /\ eval id rho e' = apply_op id rho (Operator_ e) (eval id rho <$> children).
Proof.
  intros Hv Hleaf Hl Hc. pose proof (valid_node _ _ Hv) as [Hs _]. unfold SameWithNewChildrenNoSimplify. destruct (Operator_ e) as [g|m|ks|ks|]; cbn in Hleaf, Hs; try discriminate.
  - destruct Hs as [Hk Hks]. destruct (newNoSimplify_ok blake2b linCombOp rho children ks) as (e' & E & Hv' & Hval); [lia|by eapply Forall_impl|done|]. exists e'. split; [done|]. split; [done|].
    rewrite Hval. change (OLinComb ks) with (raw (F := F) linCombOp ks). by rewrite raw_tsum.
  - destruct Hs as [[Hk Hks] Hp]. destruct (newNoSimplify_ok blake2b productOp rho children ks) as (e' & E & Hv' & Hval); [lia| |done|].
    + rewrite Forall_forall in *. intros k Hin. split; [by apply Hks|intros _; by apply Hp].
    + exists e'. split; [done|]. split; [done|]. rewrite Hval. change (OProduct ks) with (raw (F := F) productOp ks). by rewrite raw_tsum.
  - destruct children as [|x cs]; [cbn in Hl; lia|]. unfold polyeval_of. cbn [head unwrap mbind outcome_bind drop]. apply Forall_cons in Hc as [Hx Hc]. apply NewPolyEval_ok; [by destruct cs; [cbn in Hl; lia|]|done|done].
Qed.

Context (tr : Metadata -> expr).

(** The constructor that replaces the variables and keeps everything else. *)
Definition replace_variables (e : expr) (children : list (option expr)) : go (option expr) :=
  match Operator_ e with
  | OVariable m => Ok (Some (tr m))
  | _ => cs ← deref children; e' ← SameWithNewChildrenNoSimplify e cs; Ok (Some e')
  end.

Definition rebuilds (e : expr) (r : go (option expr)) : Prop := exists e', r = Ok (Some e') /\ valid blake2b e' /\ eval id rho e' = eval id (translated rho tr) e.

Lemma mapM_rebuilds (f : expr -> go (option expr)) cs :
  Forall (fun c => rebuilds c (f c)) cs ->
  exists children, mapM_ f cs = Ok (Some <$> children) /\ mapM_ (fun c => x ← f c; y ← unwrap x; Ok (Some y)) cs = Ok (Some <$> children) /\
    length children = length cs /\ Forall (valid blake2b) children /\ eval id rho <$> children = eval id (translated rho tr) <$> cs.
Proof.
  induction 1 as [|c cs (c' & E & Hv & Hc) _ (children & Es & Es' & Hl & Hvs & Hcs)]; [exists []; split_and!; done|]. exists (c' :: children). cbn [mapM_]. rewrite E. cbn [mbind outcome_bind unwrap]. rewrite Es, Es'. split; [done|]. split; [done|].
  split; [cbn; lia|]. split; [by constructor|]. cbn. by rewrite Hc, Hcs.
Qed.

(** The constructor on an operator and its new children. *)
Lemma replace_ok e children :
  valid blake2b e -> is_leaf (Operator_ e) = false -> length children = length (Children e) -> Forall (valid blake2b) children -> eval id rho <$> children = eval id (translated rho tr) <$> Children e ->
  rebuilds e (replace_variables e (Some <$> children)).
Proof.
  intros Hv Hleaf Hl Hc Hval. destruct (NoSimplify_ok e children Hv Hleaf Hl Hc) as (e' & E & Hv' & He). exists e'. split.
  - unfold replace_variables. destruct (Operator_ e); try discriminate; rewrite deref_Some; cbn [mbind outcome_bind]; by rewrite E.
  - split; [done|]. rewrite He, Hval, (eval_unfold _ _ e). by destruct (Operator_ e).
Qed.

Context (Htr : forall m, valid blake2b (tr m)).

Lemma leaf_ok e : valid blake2b e -> is_leaf (Operator_ e) = true -> rebuilds e (replace_variables e []).
Proof.
  intros Hv Hleaf. pose proof (valid_node _ _ Hv) as [Hs _]. unfold replace_variables. destruct e as [h cs op b]. cbn [Operator_ Children] in *. destruct op as [g|m| | |]; try discriminate.
  - destruct Hs as [Hcs _]. cbn in Hcs. subst cs. by eexists.
  - exists (tr m). split; [done|]. split; [apply Htr|done].
Qed.

Lemma ReconstructBottomUp_ok e : valid blake2b e -> rebuilds e (ReconstructBottomUp replace_variables e).
Proof.
  induction e as [h cs op b IH] using Expression_nested_ind. intros Hv. unfold rebuilds. cbn [ReconstructBottomUp]. destruct (is_leaf op) eqn:Eleaf; [by apply leaf_ok|]. rewrite mapM_fix.
  destruct (mapM_rebuilds (ReconstructBottomUp replace_variables) cs) as (children & E & _ & Hl & Hvs & Hval).
  { pose proof (valid_children _ _ Hv) as Hcs. cbn [Children] in Hcs. clear -IH Hcs. induction Hcs as [|c cs Hc _ IHc]; [constructor|]. apply Forall_cons in IH as [Hi IH]. constructor; [by apply Hi|by apply IHc]. }
  rewrite E. cbn [mbind outcome_bind]. by apply replace_ok.
Qed.

(** Reconstruction with the constructor that replaces the variables and keeps the
    operators, as the degree reduction of the protocols uses it, gives a well-formed
    expression, never [nil], whose value is the one of the expression where the variables
    have the values of what replaces them. *)
Theorem reconstruction_replaces e :
  valid blake2b e -> rebuilds e (ReconstructBottomUp replace_variables e) /\ rebuilds e (ReconstructBottomUpSingleThreaded replace_variables e).
Proof.
  intros Hv. split; [by apply ReconstructBottomUp_ok|]. unfold rebuilds, ReconstructBottomUpSingleThreaded. destruct (is_leaf (Operator_ e)) eqn:Eleaf.
  - destruct (leaf_ok e Hv Eleaf) as (e' & -> & Hv'). by exists e'.
  - destruct (mapM_rebuilds (ReconstructBottomUp replace_variables) (Children e)) as (children & _ & -> & Hl & Hvs & Hval).
    { eapply Forall_impl; [by apply valid_children|]. apply ReconstructBottomUp_ok. }
    cbn [mbind outcome_bind]. destruct (replace_ok e children Hv Eleaf Hl Hvs Hval) as (e' & -> & Hv'). by exists e'.
Qed.
End Reconstruct.

(** ** Degrees *)

Section Degrees.
Context {F : Type} `{ExtOps F} (getDegree : Metadata -> Z) (S : Expression F -> Prop) (deg : Expression F -> Z).
Abbreviation expr := (Expression F).
Context (Hdeg : forall a, S a -> degreeKeepCache getDegree a = Ok (deg a)) (Hsame : forall a b, S a -> S b -> ESHash a = ESHash b -> deg a = deg b).

Lemma degree_unfold (e : expr) :
  degreeKeepCache getDegree e = match Operator_ e with OConstant _ => Ok 0 | OVariable m => Ok (getDegree m) | op => ds ← mapM_ (degreeKeepCache getDegree) (Children e); operator_Degree op ds end.
Proof. destruct e as [h cs op b]. cbn [degreeKeepCache Operator_ Children]. rewrite mapM_fix. by destruct op. Qed.

Lemma node_degree_ok es degrees i nd e :
  (forall a, S a -> Forall S (Children a)) -> Forall S es -> node_of es i nd e -> S e -> (forall j a, (j < i)%nat -> es !! j = Some a -> degrees !! j = Some (deg a)) -> node_degree getDegree degrees nd = Ok (deg e).
Proof.
  intros Hclosed HSs (_ & Ho & Hch) HSe Hd. unfold node_degree. rewrite Ho. rewrite <- (Hdeg e HSe), degree_unfold.
  assert (mapM_ (index degrees) (n_Children nd) = Ok (deg <$> Children e)) as ->.
  { apply mapM__ok, Forall2_fmap_r. pose proof (Hclosed e HSe) as HSc. induction Hch as [|id c ids cs [Hid (Hid0 & c' & Hc' & Hh)] _ IH]; [constructor|]. apply Forall_cons in HSc as [HSc1 HSc]. constructor; [|by apply IH].
    apply index_ok; [done|]. rewrite (Hd (Z.to_nat id) c') by (done || lia). f_equal. apply Hsame; [|done|done]. rewrite Forall_lookup in HSs. by eapply HSs. }
  assert (mapM_ (degreeKeepCache getDegree) (Children e) = Ok (deg <$> Children e)) as ->; [|by destruct (Operator_ e)].
  apply mapM__ok, Forall2_fmap_r, Forall_Forall2_diag. eapply Forall_impl; [by apply Hclosed|]. apply Hdeg.
Qed.

(** The degree of a board is the degree of its expression, when the expressions with
    the same hash have the same degree. *)
Theorem board_degree e :
  (forall a, S a -> Forall S (Children a)) -> S e -> size e <= 2 ^ 32 -> board_Degree getDegree (Board e) = degreeKeepCache getDegree e.
Proof.
  intros Hclosed HSe Hsize. destruct (Board_ok S e Hclosed HSe Hsize) as (es & (Hl & HSs & Hn & _) & _). unfold board_Degree. rewrite Hdeg by done.
  assert (zlen (Nodes (Board e)) = zlen es + 1) as Ez by (unfold zlen; rewrite <- Hl, length_app; cbn; lia). replace (zlen (Nodes (Board e)) =? 0) with false by (unfold zlen in *; lia).
  set (ns := Nodes (Board e)) in *. set (all := es ++ [e]) in *.
  cut (forall post pre degrees, ns = pre ++ post -> length degrees = length ns -> (forall j a, (j < length pre)%nat -> all !! j = Some a -> degrees !! j = Some (deg a)) ->
    exists degrees', foldM (fun degrees t => d ← node_degree getDegree degrees t.2; set_index degrees t.1 d) degrees (imap (fun i x => (Z.of_nat (length pre + i), x)) post) = Ok degrees' /\
      forall j a, all !! j = Some a -> degrees' !! j = Some (deg a)).
  { intros Hcut. destruct (Hcut ns [] (replicate (length ns) 0) eq_refl) as (degrees' & E & Hd); [by rewrite length_replicate|intros j a Hj; cbn in Hj; lia|]. cbn [length Nat.add] in E. unfold enumerate. rewrite E. cbn [mbind outcome_bind].
    apply index_ok; [unfold zlen in *; lia|]. apply Hd. rewrite Ez. unfold all, zlen. replace (Z.to_nat (Z.of_nat (length es) + 1 - 1)) with (length es) by lia. by rewrite list_lookup_middle. }
  intros post. induction post as [|nd post IH]; intros pre degrees Epre Hld Hd.
  { exists degrees. split; [done|]. intros j a Ha. apply Hd; [|done]. rewrite app_nil_r in Epre. apply lookup_lt_Some in Ha. rewrite <- Epre. lia. }
  cbn [imap foldM fst snd]. rewrite Nat.add_0_r. assert (ns !! length pre = Some nd) as Hnd by (rewrite Epre; by rewrite list_lookup_middle).
  destruct (lookup_lt_is_Some_2 all (length pre)) as (a & Ha); [apply lookup_lt_Some in Hnd; lia|]. rewrite (node_degree_ok all degrees (length pre) nd a) by (done || (try by apply Hn); rewrite Forall_lookup in HSs; by eapply HSs). cbn [mbind outcome_bind].
  rewrite set_index_insert by (unfold zlen; apply lookup_lt_Some in Hnd; lia). rewrite Nat2Z.id. cbn [mbind outcome_bind].
  destruct (IH (pre ++ [nd]) (<[length pre := deg a]> degrees)) as (degrees' & E & Hd'); [by rewrite <- app_assoc|by rewrite length_insert| |].
  - intros j b Hj Hb. rewrite length_app in Hj. cbn in Hj. destruct (decide (j = length pre)) as [->|Hne]; [rewrite Ha in Hb; injection Hb as <-; apply list_lookup_insert_eq; apply lookup_lt_Some in Hnd; lia|].
    rewrite list_lookup_insert_ne by done. apply Hd; [lia|done].
  - exists degrees'. split; [|done]. rewrite <- E. f_equal. apply imap_ext. intros i x _. cbn. rewrite length_app. cbn. do 2 f_equal. lia.
Qed.
End Degrees.

(** ** Witnesses *)

(** [a * b - c] with [a] for [c]. *)
Definition demo_map (n : string) : option (Expression F3) := if bool_decide (n = "c"%string) then Some va else None.

Lemma demo_lincomb_ok : items_ok demo_set linCombOp (zip [demo_ab; va] [1; -1]).
Proof. destruct demo_members as (Ha & Hb & Hc & Hab & He). split; [|split]; [by repeat constructor|repeat constructor; done|reflexivity]. Qed.

Lemma demo_product_ok : items_ok demo_set productOp (zip [va; vb] [1; 1]).
Proof. destruct demo_members as (Ha & Hb & Hc & Hab & He). split; [|split]; [by repeat constructor|repeat constructor; done|reflexivity]. Qed.

Lemma Replay_translates_witness :
  becomes demo_hash (fun _ => f_one) (translated (fun _ => f_one) (lookup_translation demo_hash demo_map)) demo_expr (Replay (fun _ _ => false) demo_map demo_expr).
Proof.
  destruct demo_members as (Ha & Hb & Hc & Hab & He).
  pose proof (Replay_translates demo_hash (fun _ => f_one) demo_set (demo_no_collision _) (fun _ _ => false) ltac:(discriminate) demo_map demo_expr) as Hr. apply Hr; clear Hr.
  - intros n x. unfold demo_map. case_bool_decide; [|discriminate]. intros [= <-]. by apply demo_valid.
  - assert (forall v, demo_set v -> Children v = [] -> is_leaf (Operator_ v) = true -> replay_run demo_hash demo_set (fun _ _ => false) demo_map v) as Hleaf.
    { intros v Hv Hcv Hl. constructor; [by apply demo_valid| |rewrite Hcv; constructor]. rewrite Hcv. intros children [= <-]. discriminate. }
    constructor; [by apply demo_valid|intros children E _; vm_compute in E; injection E as <-; exact demo_lincomb_ok|].
    constructor; [|constructor; [by apply Hleaf|constructor]]. constructor; [by apply demo_valid|intros children E _; vm_compute in E; injection E as <-; exact demo_product_ok|].
    constructor; [by apply Hleaf|]. constructor; [by apply Hleaf|constructor].
Defined.

Lemma reconstruction_replaces_witness :
  rebuilds demo_hash (fun _ => f_one) (lookup_translation demo_hash demo_map) demo_expr (ReconstructBottomUp (replace_variables (lookup_translation demo_hash demo_map)) demo_expr).
Proof.
  destruct demo_members as (Ha & Hb & Hc & Hab & He).
  pose proof (reconstruction_replaces demo_hash (fun _ => f_one) (lookup_translation demo_hash demo_map)) as Hr. apply Hr; clear Hr; [|by apply demo_valid].
  intros m. unfold lookup_translation, demo_map. case_bool_decide; [by apply demo_valid|apply NewVariable_valid].
Defined.

Definition demo_degree (e : Expression F3) : Z := match degreeKeepCache (fun _ => 1) e with Ok d => d | _ => 0 end.

Lemma board_degree_witness : board_Degree (fun _ => 1) (Board demo_expr) = degreeKeepCache (fun _ => 1) demo_expr.
Proof.
  destruct demo_members as (Ha & Hb & Hc & Hab & He). apply (board_degree (fun _ => 1) demo_set demo_degree); [| |exact demo_children|exact He|vm_compute; discriminate].
  - apply (demo_forall (fun a => degreeKeepCache (fun _ => 1) a = Ok (demo_degree a))); reflexivity.
  - intros a b Sa Sb E. by rewrite (demo_injective a b Sa Sb E).
Defined.
