(* ===== verification/BitIo.v ===== *)
(** Streams of bits: the interface of the package [bitio] that the compressor and the
    packing of blobs use, and slices of bytes with Go's indices.

    [github.com/icza/bitio] is third-party code.  A writer keeps the bits that do not
    fill a byte and passes full bytes on to the buffer below it; a reader hands out the
    bits of a slice and remembers its first error.  The class [BitIo] has the operations
    that are used, [BitIoLaws] what their documentation says, and [bitio_lists] is an
    implementation. *)
From Stdlib Require Export ZifyBool.
From S2P Require Import Prelude.

(** ** Slices *)

(** [len(l)]. *)
Abbreviation size l := (Z.of_nat (length l)).

(** [l[i]]. *)
Definition at_ {E A} (l : list A) (i : Z) : outcome E A := if 0 <=? i then unwrap (l !! Z.to_nat i) else Panic.

(** [l[a:b]]. *)
Definition slice {E A} (l : list A) (a b : Z) : outcome E (list A) :=
  if (0 <=? a) && (a <=? b) && (b <=? size l) then Ok (take (Z.to_nat (b - a)) (drop (Z.to_nat a) l)) else Panic.

(** [bytes.Buffer.Truncate]. *)
Definition truncate {E A} (l : list A) (n : Z) : outcome E (list A) := slice l 0 n.

Lemma at_nat {E A} (l : list A) i x : l !! i = Some x -> at_ (E := E) l (Z.of_nat i) = Ok x.
Proof. intros Hx. unfold at_. replace (0 <=? Z.of_nat i) with true by lia. by rewrite Nat2Z.id, Hx. Qed.

Lemma at_ok {E A} (l : list A) i x : at_ (E := E) l i = Ok x <-> 0 <= i /\ l !! Z.to_nat i = Some x.
Proof.
  unfold at_. destruct (Z.leb_spec 0 i); [|split; [done|lia]]. destruct (l !! Z.to_nat i); cbn; naive_solver.
Qed.

Lemma at_total {E A} (l : list A) i : 0 <= i < size l -> exists x, at_ (E := E) l i = Ok x /\ l !! Z.to_nat i = Some x.
Proof.
  intros Hi. destruct (lookup_lt_is_Some_2 l (Z.to_nat i)) as [x Hx]; [lia|]. exists x. split; [|done]. apply at_ok. split; [lia|done].
Qed.

Lemma slice_in {E A} (l : list A) a b : 0 <= a <= b -> b <= size l -> slice (E := E) l a b = Ok (take (Z.to_nat (b - a)) (drop (Z.to_nat a) l)).
Proof. intros Ha Hb. unfold slice. by replace ((0 <=? a) && (a <=? b) && (b <=? size l)) with true by lia. Qed.

Lemma truncate_ok {E A} (l : list A) n : 0 <= n <= size l -> truncate (E := E) l n = Ok (take (Z.to_nat n) l).
Proof. intros Hn. unfold truncate. rewrite slice_in by lia. by rewrite Z.sub_0_r. Qed.

(** Bytes, by evaluation. *)
Lemma bytes_check l : forallb (fun b => (0 <=? b) && (b <? 256)) l = true -> Forall is_byte l.
Proof. rewrite forallb_forall. intros Hl. apply Forall_forall. intros b Hb. apply list_elem_of_In, Hl in Hb. unfold is_u. lia. Qed.

(** ** The package *)

Class BitIo (W R : Type) := {
  (** [NewWriter]. *)
  bw_new : W;
  (** [WriteBits], [TryWriteBits], and, with 8 bits, [TryWriteByte]: the bytes that the
      buffer below receives. *)
  bw_write : W -> Z -> Z -> list Z * W;
  (** [Align]: the bytes, and the number of skipped bits. *)
  bw_align : W -> list Z * Z * W;
  (** [NewReader]. *)
  br_new : list Z -> R;
  (** [TryReadBits], and, with 8 bits, [TryReadByte]. *)
  br_read : R -> Z -> Z * R;
  (** [TryError] is not nil. *)
  br_error : R -> bool;
  (** [io.ReadFull] on the reader. *)
  br_full : R -> nat -> option (list Z) * R
}.

Class BitIoLaws (W R : Type) `{BitIo W R} := {
  bw_bits : W -> list bool;
  br_bits : R -> list bool;
  bw_new_bits : bw_bits bw_new = [];
  bw_write_bits w v n :
    0 <= n <= 64 ->
    Forall is_byte (bw_write w v n).1 /\ (length (bw_bits (bw_write w v n).2) < 8)%nat /\
    bits_of_bytes (bw_write w v n).1 ++ bw_bits (bw_write w v n).2 = bw_bits w ++ bits_be (Z.to_nat n) v;
  bw_align_bits w :
    let '(out, k, w') := bw_align w in
    Forall is_byte out /\ 0 <= k < 8 /\ bw_bits w' = [] /\ bits_of_bytes out = bw_bits w ++ replicate (Z.to_nat k) false;
  br_new_bits l : Forall is_byte l -> br_bits (br_new l) = bits_of_bytes l /\ br_error (br_new l) = false;
  br_read_bits r n :
    0 <= n <= 64 -> br_error r = false -> n <= size (br_bits r) ->
    (br_read r n).1 = bits_value (take (Z.to_nat n) (br_bits r)) /\ br_bits (br_read r n).2 = drop (Z.to_nat n) (br_bits r) /\ br_error (br_read r n).2 = false;
  br_read_eof r n : 0 <= n <= 64 -> br_error r = false -> size (br_bits r) < n -> br_error (br_read r n).2 = true;
  br_read_error r n : br_error r = true -> br_read r n = (0, r);
  br_full_bits r n :
    br_error r = false ->
    if (8 * n <=? length (br_bits r))%nat then
      exists l, (br_full r n).1 = Some l /\ Forall is_byte l /\ bits_of_bytes l = take (8 * n) (br_bits r) /\
        br_bits (br_full r n).2 = drop (8 * n) (br_bits r) /\ br_error (br_full r n).2 = false
    else (br_full r n).1 = None
}.

(** ** Bits *)

Lemma bits_be_value bs : bits_be (length bs) (bits_value bs) = bs.
Proof.
  induction bs as [|b bs IH]; [done|]. cbn [length bits_be]. change (b :: bs) with ([b] ++ bs). rewrite bits_value_app.
  assert (0 <= bits_value bs < 2 ^ Z.of_nat (length bs)) as Hr by (rewrite <- IH at 1 2; rewrite bits_value_bits_be; apply Z.mod_pos_bound; lia).
  assert (forall v w x, (w <= length bs)%nat -> bits_be w (x * 2 ^ Z.of_nat (length bs) + v) = bits_be w v) as Hlow.
  { intros v w x. induction w as [|w IHw]; intros Hw; [done|]. cbn [bits_be]. rewrite IHw by lia. f_equal.
    rewrite Z.add_comm. rewrite <- (Z.mod_pow2_bits_low (v + _) (Z.of_nat (length bs))) by lia. rewrite Z.mod_add by lia. apply Z.mod_pow2_bits_low. lia. }
  rewrite Hlow, IH by lia. cbn [app]. f_equal. change (bits_value [b]) with (Z.b2z b). rewrite Z.add_comm. destruct b; cbn [Z.b2z].
  - apply Z.testbit_true; [lia|]. rewrite Z.div_add, Z.div_small by lia. done.
  - rewrite Z.mul_0_l, Z.add_0_r. by apply (testbit_above (Z.of_nat (length bs))); unfold is_u; lia.
Qed.

Lemma bits_value_range bs : 0 <= bits_value bs < 2 ^ size bs.
Proof. rewrite <- (bits_be_value bs) at 1 2. rewrite bits_value_bits_be. apply Z.mod_pos_bound. lia. Qed.

Lemma bits_be_app n m v : bits_be (n + m) v = bits_be n (v ≫ Z.of_nat m) ++ bits_be m v.
Proof.
  induction n as [|n IH]; [done|]. cbn [Nat.add bits_be app]. rewrite IH. f_equal. rewrite Z.shiftr_spec by lia. f_equal. lia.
Qed.

Lemma bits_of_bytes_cons b bs : bits_of_bytes (b :: bs) = bits_be 8 b ++ bits_of_bytes bs.
Proof. done. Qed.

Lemma bits_of_bytes_take n l : bits_of_bytes (take n l) = take (8 * n) (bits_of_bytes l).
Proof.
  revert n. induction l as [|b l IH]; intros [|n]; [done|by rewrite !take_nil|by rewrite Nat.mul_0_r|]. cbn [take]. rewrite !bits_of_bytes_cons, IH.
  replace (8 * S n)%nat with (8 + 8 * n)%nat by lia. by rewrite take_app_add' by by rewrite length_bits_be.
Qed.

Lemma bits_be_inj n x y : is_u (Z.of_nat n) x -> is_u (Z.of_nat n) y -> bits_be n x = bits_be n y -> x = y.
Proof.
  intros Hx Hy E. assert (bits_value (bits_be n x) = bits_value (bits_be n y)) as Ev by congruence. rewrite !bits_value_bits_be in Ev. unfold is_u in *. by rewrite !Z.mod_small in Ev.
Qed.

Lemma bits_of_bytes_inj bs cs : Forall is_byte bs -> Forall is_byte cs -> bits_of_bytes bs = bits_of_bytes cs -> bs = cs.
Proof.
  intros Hb. revert cs. induction Hb as [|b bs Hb _ IH]; intros cs Hc E.
  - destruct cs as [|c cs]; [done|]. apply (f_equal length) in E. rewrite !length_bits_of_bytes in E. cbn in E. lia.
  - destruct cs as [|c cs]; [apply (f_equal length) in E; rewrite !length_bits_of_bytes in E; cbn in E; lia|]. inversion Hc; subst.
    rewrite !bits_of_bytes_cons in E. apply app_inj_1 in E as [E1 E2]; [|by rewrite !length_bits_be]. f_equal; [|by apply IH]. by apply (bits_be_inj 8).
Qed.

(** The bytes of a list of bits whose length is a multiple of 8. *)
Fixpoint bytes_of_bits (n : nat) (bs : list bool) : list Z :=
  match n with O => [] | S n => bits_value (take 8 bs) :: bytes_of_bits n (drop 8 bs) end.

Lemma bytes_of_bits_ok n bs : (8 * n <= length bs)%nat -> Forall is_byte (bytes_of_bits n bs) /\ bits_of_bytes (bytes_of_bits n bs) = take (8 * n) bs.
Proof.
  revert bs. induction n as [|n IH]; intros bs Hn; [split; [constructor|by rewrite Nat.mul_0_r]|]. cbn [bytes_of_bits]. destruct (IH (drop 8 bs)) as [H1 H2]; [rewrite length_drop; lia|].
  assert (length (take 8 bs) = 8%nat) as L by (rewrite length_take; lia). split.
  - constructor; [|done]. unfold is_u. pose proof (bits_value_range (take 8 bs)) as Hr. rewrite L in Hr. exact Hr.
  - rewrite bits_of_bytes_cons, H2. pose proof (bits_be_value (take 8 bs)) as Hv. rewrite L in Hv. rewrite Hv. replace (8 * S n)%nat with (8 + 8 * n)%nat by lia. by rewrite take_take_drop.
Qed.

(** ** An implementation *)

(** Writers and readers are the lists of the bits that they hold. *)
#[export] Instance bitio_lists : BitIo (list bool) (list bool * bool) := {
  bw_new := [];
  bw_write w v n :=
    let bs := w ++ bits_be (Z.to_nat n) v in
    let k := (length bs / 8)%nat in
    (bytes_of_bits k bs, drop (8 * k) bs);
  bw_align w :=
    let k := ((8 - length w mod 8) mod 8)%nat in
    (bytes_of_bits ((length w + k) / 8) (w ++ replicate k false), Z.of_nat k, []);
  br_new l := (bits_of_bytes l, false);
  br_read r n :=
    if r.2 then (0, r) else
    if n <=? size r.1 then (bits_value (take (Z.to_nat n) r.1), (drop (Z.to_nat n) r.1, false)) else (0, (r.1, true));
  br_error r := r.2;
  br_full r n := if (8 * n <=? length r.1)%nat then (Some (bytes_of_bits n r.1), (drop (8 * n) r.1, r.2)) else (None, r)
}.

#[export] Instance bitio_lists_laws : BitIoLaws (list bool) (list bool * bool).
Proof.
  refine {| bw_bits := id; br_bits := fst |}; cbn [bw_new bw_write bw_align br_new br_read br_error br_full bitio_lists fst snd].
  - done.
  - intros w v n _. set (bs := w ++ _). destruct (bytes_of_bits_ok (length bs / 8) bs) as [H1 H2]; [golia|]. split; [done|]. split; [unfold id; rewrite length_drop; golia|]. rewrite H2. apply take_drop.
  - intros w. set (k := ((8 - length w mod 8) mod 8)%nat). assert (8 * ((length w + k) / 8) = length w + k)%nat as E by (unfold k; golia). assert (k < 8)%nat by (unfold k; golia).
    destruct (bytes_of_bits_ok ((length w + k) / 8) (w ++ replicate k false)) as [H1 H2]; [rewrite length_app, length_replicate; lia|].
    split; [done|]. split; [lia|]. split; [done|]. rewrite H2, Nat2Z.id. apply take_ge. unfold id. rewrite length_app, length_replicate. lia.
  - done.
  - intros r n _ -> Hn. by replace (n <=? size r.1) with true by lia.
  - intros r n _ -> Hn. by replace (n <=? size r.1) with false by lia.
  - by intros r n ->.
  - intros r n Hr. destruct (Nat.leb_spec (8 * n) (length r.1)); [|done]. destruct (bytes_of_bits_ok n r.1) as [H1 H2]; [done|]. by eexists.
Qed.
