(* ===== verification/GoState.v ===== *)
(** A monad for methods that change a state and return an error.

    The state that a method has reached when it fails is kept: the callers of the
    compressor and of the blob makers go on with it. *)
From S2P Require Import Prelude.

Definition method (S E A : Type) : Type := S -> S * outcome E A.

#[export] Instance method_ret S E : MRet (method S E) := fun A a s => (s, Ok a).
#[export] Instance method_bind S E : MBind (method S E) := fun A B f m s =>
  match m s with
  | (s, Ok a) => f a s
  | (s, Err e) => (s, Err e)
  | (s, Panic) => (s, Panic)
  end.

(** Reads the state. *)
Definition get {S E} : method S E S := fun s => (s, Ok s).

(** Assigns to fields of the state. *)
Definition modify {S E} (f : S -> S) : method S E unit := fun s => (f s, Ok tt).

(** A call that does not change the state. *)
Definition call {S E A} (m : outcome E A) : method S E A := fun s => (s, m).

(** [if err := m(); err != nil { ... }]: the error as a value. *)
Definition try_ {S E A} (m : method S E A) : method S E (A + E) := fun s =>
  match m s with
  | (s, Ok a) => (s, Ok (inl a))
  | (s, Err e) => (s, Ok (inr e))
  | (s, Panic) => (s, Panic)
  end.

(** A method of a field of the state, given by its accessor and its update. *)
Definition field {S T E E' A} (proj : S -> T) (upd : S -> T -> S) (wrap : E -> E') (m : method T E A) : method S E' A := fun s =>
  let '(t, r) := m (proj s) in (upd s t, map_err wrap r).

Lemma bind_run {S E A B} (m : method S E A) (f : A -> method S E B) s s' a : m s = (s', Ok a) -> (m ≫= f) s = f a s'.
Proof. intros Hm. unfold mbind, method_bind. by rewrite Hm. Qed.

Lemma bind_err {S E A B} (m : method S E A) (f : A -> method S E B) s s' e : m s = (s', Err e) -> (m ≫= f) s = (s', Err e).
Proof. intros Hm. unfold mbind, method_bind. by rewrite Hm. Qed.

Lemma bind_call {S E A B} (m : outcome E A) (f : A -> method S E B) s a : m = Ok a -> (call m ≫= f) s = f a s.
Proof. intros Hm. unfold mbind, method_bind, call. by rewrite Hm. Qed.
