(* ===== verification/SuffixArray.v ===== *)
(** Substring search in a suffix array:
    [prover/lib/compressor/blob/v0/compress/lzss/internal/suffixarray/suffixarray.go].

    The package is derived from [index/suffixarray] of Go's standard library.  The linear
    construction of the array ([sais.go], [sais2.go], copied from there) is behind the
    interface [SuffixSort]: [text_32] returns the sorted suffixes of a text.  The search
    [LookupLongest], which is the part that was added, is modelled and proved to return
    the longest match in a range of positions. *)
From S2P Require Import Prelude BitIo.

(** ** Bytes *)

(** [bytes.Compare]. *)
Fixpoint Compare (a b : list Z) : comparison :=
  match a, b with
  | [], [] => Eq
  | [], _ :: _ => Lt
  | _ :: _, [] => Gt
  | x :: a, y :: b => match x ?= y with Eq => Compare a b | c => c end
  end.

(** [bytes.HasPrefix]. *)
Fixpoint HasPrefix (s pre : list Z) : bool :=
  match pre, s with
  | [], _ => true
  | y :: pre, x :: s => (x =? y) && HasPrefix s pre
  | _ :: _, [] => false
  end.

(** [sort.Search] on the positions from [i] to [j]. *)
Fixpoint search_loop {E} (f : Z -> outcome E bool) (fuel : nat) (i j : Z) : outcome E Z :=
  match fuel with
  | O => Ok i
  | S fuel =>
      if i <? j then
        let h := (i + j) ≫ 1 in
        b ← f h;
        if negb b then search_loop f fuel (h + 1) j else search_loop f fuel i h
      else Ok i
  end.

Definition Search {E} (n : Z) (f : Z -> outcome E bool) : outcome E Z := search_loop f (Z.to_nat n) 0 n.

(** ** The index *)

(** The positions of a text in the order of the suffixes that start there. *)
Definition is_suffix_array (text sa : list Z) : Prop :=
  sa ≡ₚ seqZ 0 (size text) /\
  forall (i j : nat) (a b : Z), (i < j)%nat -> sa !! i = Some a -> sa !! j = Some b -> Compare (drop (Z.to_nat a) text) (drop (Z.to_nat b) text) = Lt.

Class SuffixSort := {
  text_32 : list Z -> list Z;
  text_32_sorted text : is_suffix_array text (text_32 text)
}.

Record Index := mkIndex { ix_data : list Z; sa : list Z }.

Definition maxData32 : Z := 2 ^ 31 - 1.

Section Index.
Context `{SuffixSort} {E : Type}.

Definition New (data : list Z) : outcome E Index :=
  _ ← assert_ (negb (maxData32 <? size data));
  Ok (mkIndex data (text_32 data)).
End Index.

Section Lookup.
Context {E : Type} (x : Index).

Definition at_suffix (i : Z) : outcome E (list Z) := p ← at_ (sa x) i; slice (ix_data x) p (size (ix_data x)).

Definition is_ge (c : comparison) : bool := match c with Lt => false | _ => true end.

(** The positions [rStart] and [rEnd] of the array; [None] for [-1, -1]. *)
Definition lookupLongestInitial (s : list Z) : outcome E (option (Z * Z)) :=
  i ← Search (size (sa x)) (fun i => t ← at_suffix i; Ok (is_ge (Compare t s)));
  if i =? size (sa x) then Ok None else
  t ← at_suffix i;
  if negb (HasPrefix t s) then Ok None else
  k ← Search (size (sa x) - i) (fun k => t ← at_suffix (k + i); Ok (negb (HasPrefix t s)));
  Ok (Some (i, i + k)).

Definition in_range (rangeStart rangeEnd offset : Z) : bool := (rangeStart <=? offset) && (offset <? rangeEnd).

(** The loop over the positions that start with [s], from [i] on. *)
Fixpoint scan_prefix (s : list Z) (rangeStart rangeEnd sEnd : Z) (fuel : nat) (i : Z) : outcome E (option Z) :=
  match fuel with
  | O => Ok None
  | S fuel =>
      if negb (i <? sEnd) then Ok None else
      t ← at_suffix i;
      if negb (HasPrefix t s) then Ok None else
      offset ← at_ (sa x) i;
      if in_range rangeStart rangeEnd offset then Ok (Some offset) else scan_prefix s rangeStart rangeEnd sEnd fuel (i + 1)
  end.

(** [rStart] and the offset, [None] for [-1]. *)
Definition lookupLongest (s : list Z) (rangeStart rangeEnd sStart sEnd : Z) : outcome E (Z * option Z) :=
  k ← Search (sEnd - sStart) (fun i => t ← at_suffix (i + sStart); Ok (is_ge (Compare t s)));
  let i := k + sStart in
  if i =? sEnd then Ok (sStart, None) else
  t ← at_suffix i;
  if negb (HasPrefix t s) then Ok (sStart, None) else
  o ← scan_prefix s rangeStart rangeEnd sEnd (Z.to_nat (sEnd - i)) i;
  Ok (i, o).

(** The loop that filters the first results. *)
Fixpoint scan_range (rangeStart rangeEnd sEnd : Z) (fuel : nat) (i : Z) : outcome E (option Z) :=
  match fuel with
  | O => Ok None
  | S fuel =>
      if negb (i <? sEnd) then Ok None else
      offset ← at_ (sa x) i;
      if in_range rangeStart rangeEnd offset then Ok (Some offset) else scan_range rangeStart rangeEnd sEnd fuel (i + 1)
  end.

Fixpoint longest_loop (s : list Z) (rangeStart rangeEnd sEnd : Z) (fuel : nat) (sStart low high index len : Z) : outcome E (Z * Z) :=
  match fuel with
  | O => Ok (index, len)
  | S fuel =>
      if negb (low <=? high) then Ok (index, len) else
      let mid := low + (high - low) / 2 in
      pre ← slice s 0 mid;
      r ← lookupLongest pre rangeStart rangeEnd sStart sEnd;
      match r with
      | (newStart, Some offset) => longest_loop s rangeStart rangeEnd sEnd fuel newStart (mid + 1) high offset mid
      | (_, None) => longest_loop s rangeStart rangeEnd sEnd fuel sStart low (mid - 1) index len
      end
  end.

(** [None] for [-1, -1]. *)
Definition LookupLongest (s : list Z) (minEnd maxEnd rangeStart rangeEnd : Z) : outcome E (option (Z * Z)) :=
  pre ← slice s 0 minEnd;
  r ← lookupLongestInitial pre;
  match r with
  | None => Ok None
  | Some (sStart, sEnd) =>
      if sStart =? sEnd then
        offset ← at_ (sa x) sStart;
        Ok (if in_range rangeStart rangeEnd offset then Some (offset, minEnd) else None)
      else
        o ← scan_range rangeStart rangeEnd sEnd (Z.to_nat (sEnd - sStart)) sStart;
        match o with
        | None => Ok None
        | Some index =>
            r ← longest_loop s rangeStart rangeEnd sEnd (Z.to_nat (maxEnd - minEnd + 1)) sStart minEnd maxEnd index minEnd;
            Ok (Some r)
        end
  end.
End Lookup.

(** ** Comparison and prefixes *)

Lemma HasPrefix_take a s : HasPrefix a s = true <-> take (length s) a = s.
Proof.
  revert a. induction s as [|y s IH]; intros a; [by destruct a|]. destruct a as [|z a]; cbn [HasPrefix length take]; [split; discriminate|].
  rewrite andb_true_iff, Z.eqb_eq, IH. split; [by intros [-> ->]|by intros [= -> ->]].
Qed.

Lemma HasPrefix_ge a s : HasPrefix a s = true -> is_ge (Compare a s) = true.
Proof.
  revert a. induction s as [|y s IH]; intros [|z a]; cbn; try done. rewrite andb_true_iff, Z.eqb_eq. intros [-> Hp]. rewrite Z.compare_refl. by apply IH.
Qed.

Lemma Compare_mono a b s : Compare a b = Lt -> is_ge (Compare a s) = true -> is_ge (Compare b s) = true.
Proof.
  revert b s. induction a as [|z a IH]; intros [|y b] [|u s]; cbn; try done. destruct (Z.compare_spec z y); [subst|destruct (Z.compare_spec z u), (Z.compare_spec y u); try done; lia..|done].
  destruct (Z.compare_spec y u); try done. apply IH.
Qed.

Lemma Compare_between a b s : Compare a b = Lt -> is_ge (Compare a s) = true -> HasPrefix b s = true -> HasPrefix a s = true.
Proof.
  revert b s. induction a as [|z a IH]; intros [|y b] [|u s]; cbn; try done. rewrite !andb_true_iff, !Z.eqb_eq. intros Hab Hge [-> Hp].
  destruct (Z.compare_spec z u); try done. split; [done|]. subst. by apply (IH b).
Qed.

Lemma HasPrefix_mono a s n m : n <= m -> HasPrefix a (take (Z.to_nat m) s) = true -> HasPrefix a (take (Z.to_nat n) s) = true.
Proof.
  intros Hn. rewrite !HasPrefix_take. intros Hm.
  replace (take (Z.to_nat n) s) with (take (Z.to_nat n) (take (Z.to_nat m) s)) by (rewrite take_take; f_equal; lia).
  revert Hm. generalize (take (Z.to_nat m) s) as t. intros t Hm. rewrite <- Hm at 2. rewrite take_take, length_take. done.
Qed.

(** ** Binary search *)

Lemma search_loop_ok {E} (f : Z -> outcome E bool) (p : Z -> bool) n fuel i j :
  (forall k, 0 <= k < n -> f k = Ok (p k)) -> (forall a b, 0 <= a <= b -> b < n -> p a = true -> p b = true) ->
  0 <= i <= j -> j <= n -> j - i <= Z.of_nat fuel -> (forall k, 0 <= k < i -> p k = false) -> (forall k, j <= k < n -> p k = true) ->
  exists r, search_loop f fuel i j = Ok r /\ 0 <= r <= n /\ (forall k, 0 <= k < r -> p k = false) /\ (forall k, r <= k < n -> p k = true).
Proof.
  intros Hf Hp. revert i j. induction fuel as [|fuel IH]; intros i j Hi Hj Hd Hlo Hhi; cbn [search_loop].
  { exists i. replace j with i in * by lia. repeat split; try done; lia. }
  destruct (Z.ltb_spec i j). 2: { exists i. replace j with i in * by lia. repeat split; try done; lia. }
  rewrite Z.shiftr_div_pow2 by lia. change (2 ^ 1) with 2. set (h := (i + j) / 2). assert (i <= h < j) as Hh by (subst h; golia). rewrite Hf by lia. cbn [mbind outcome_bind].
  destruct (p h) eqn:Eh; cbn [negb].
  - apply IH; try lia; [done|]. intros k Hk. destruct (Z.lt_ge_cases k j); [|apply Hhi; lia]. apply (Hp h k); [lia|lia|done].
  - apply IH; try lia; [|done]. intros k Hk. destruct (Z.lt_ge_cases k i); [apply Hlo; lia|]. destruct (p k) eqn:Ek; [|done]. rewrite <- Eh. symmetry. apply (Hp k h); [lia|lia|done].
Qed.

(** [Search] finds the first position of a monotone predicate. *)
Lemma Search_ok {E} (f : Z -> outcome E bool) (p : Z -> bool) n :
  0 <= n -> (forall k, 0 <= k < n -> f k = Ok (p k)) -> (forall a b, 0 <= a <= b -> b < n -> p a = true -> p b = true) ->
  exists r, Search n f = Ok r /\ 0 <= r <= n /\ (forall k, 0 <= k < r -> p k = false) /\ (forall k, r <= k < n -> p k = true).
Proof. intros Hn Hf Hp. apply search_loop_ok; try done; try lia. Qed.

(** ** Lookup *)

Abbreviation prefix_of s n := (take (Z.to_nat n) s).

Section LookupTheorems.
Context {E : Type} (x : Index) (Hsa : is_suffix_array (ix_data x) (sa x)).

Abbreviation N := (size (ix_data x)).

Definition pos (k : Z) : Z := default 0 (sa x !! Z.to_nat k).
Definition suffix (k : Z) : list Z := drop (Z.to_nat (pos k)) (ix_data x).

Lemma sa_size : size (sa x) = N.
Proof. destruct Hsa as [Hp _]. rewrite Hp. rewrite length_seqZ. lia. Qed.

Lemma pos_spec k : 0 <= k < N -> sa x !! Z.to_nat k = Some (pos k) /\ 0 <= pos k < N.
Proof.
  intros Hk. destruct (lookup_lt_is_Some_2 (sa x) (Z.to_nat k)) as [p Hp]; [pose proof sa_size; lia|]. unfold pos. rewrite Hp. split; [done|]. cbn.
  apply list_elem_of_lookup_2 in Hp. destruct Hsa as [Hperm _]. rewrite Hperm in Hp. apply elem_of_seqZ in Hp. lia.
Qed.

Lemma pos_surj p : 0 <= p < N -> exists k, 0 <= k < N /\ pos k = p.
Proof.
  intros Hp. assert (p ∈ sa x) as Hin by (destruct Hsa as [Hperm _]; rewrite Hperm; apply elem_of_seqZ; lia). apply list_elem_of_lookup_1 in Hin as (i & Hi).
  exists (Z.of_nat i). pose proof (lookup_lt_Some _ _ _ Hi). pose proof sa_size. split; [lia|]. unfold pos. by rewrite Nat2Z.id, Hi.
Qed.

Lemma at_suffix_ok k : 0 <= k < N -> at_suffix (E := E) x k = Ok (suffix k).
Proof.
  intros Hk. destruct (pos_spec k Hk) as [Hp Hr]. unfold at_suffix, at_. replace (0 <=? k) with true by lia. rewrite Hp. cbn [unwrap mbind outcome_bind].
  rewrite slice_in by lia. unfold suffix. rewrite take_ge; [done|]. rewrite length_drop. lia.
Qed.

Lemma at_sa_ok k : 0 <= k < N -> at_ (E := E) (sa x) k = Ok (pos k).
Proof. intros Hk. destruct (pos_spec k Hk) as [Hp Hr]. unfold at_. replace (0 <=? k) with true by lia. by rewrite Hp. Qed.

Lemma suffix_sorted a b : 0 <= a < b -> b < N -> Compare (suffix a) (suffix b) = Lt.
Proof.
  intros Ha Hb. destruct (pos_spec a) as [Hpa _]; [lia|]. destruct (pos_spec b) as [Hpb _]; [lia|]. destruct Hsa as [_ Hs]. apply (Hs (Z.to_nat a) (Z.to_nat b)); [lia|done|done].
Qed.

(** The suffixes that are not smaller than [s] come last, those that start with [s] are
    the first of them. *)
Lemma ge_mono s a b : 0 <= a <= b -> b < N -> is_ge (Compare (suffix a) s) = true -> is_ge (Compare (suffix b) s) = true.
Proof.
  intros Ha Hb. destruct (Z.eq_dec a b) as [->|]; [done|]. apply Compare_mono, suffix_sorted; lia.
Qed.

Lemma prefix_between s a b : 0 <= a <= b -> b < N -> is_ge (Compare (suffix a) s) = true -> HasPrefix (suffix b) s = true -> HasPrefix (suffix a) s = true.
Proof.
  intros Ha Hb. destruct (Z.eq_dec a b) as [->|]; [done|]. apply Compare_between, suffix_sorted; lia.
Qed.

Lemma lookupLongestInitial_ok s :
  exists r, lookupLongestInitial (E := E) x s = Ok r /\
    match r with
    | None => forall k, 0 <= k < N -> HasPrefix (suffix k) s = false
    | Some (i, j) => 0 <= i < j /\ j <= N /\ forall k, 0 <= k < N -> HasPrefix (suffix k) s = true <-> i <= k < j
    end.
Proof.
  unfold lookupLongestInitial. rewrite sa_size.
  destruct (Search_ok (E := E) (fun i => t ← at_suffix x i; Ok (is_ge (Compare t s))) (fun k => is_ge (Compare (suffix k) s)) N) as (i & -> & Hi & Hlo & Hhi); [lia| |apply ge_mono|].
  { intros k Hk. by rewrite at_suffix_ok. }
  cbn [mbind outcome_bind]. assert (forall k, 0 <= k < i -> HasPrefix (suffix k) s = false) as Hno.
  { intros k Hk. destruct (HasPrefix (suffix k) s) eqn:Eh; [|done]. apply HasPrefix_ge in Eh. by rewrite Hlo in Eh. }
  destruct (Z.eqb_spec i N) as [->|Hn]; [exists None; by split|]. rewrite at_suffix_ok by lia. cbn [mbind outcome_bind].
  destruct (HasPrefix (suffix i) s) eqn:Ei; cbn [negb].
  - destruct (Search_ok (E := E) (fun k => t ← at_suffix x (k + i); Ok (negb (HasPrefix t s))) (fun k => negb (HasPrefix (suffix (k + i)) s)) (N - i)) as (j & -> & Hj & Hjlo & Hjhi); [lia| | |].
    { intros k Hk. by rewrite at_suffix_ok by lia. }
    { intros a b Ha Hb. rewrite !negb_true_iff. intros Hf. destruct (HasPrefix (suffix (b + i)) s) eqn:Eb; [|done]. rewrite <- Hf. symmetry. apply (prefix_between s _ (b + i)); [lia|lia| |done]. apply Hhi. lia. }
    cbn [mbind outcome_bind]. exists (Some (i, i + j)). assert (0 < j).
    { destruct (Z.eq_dec j 0) as [->|]; [|lia]. specialize (Hjhi 0). rewrite Z.add_0_l, Ei in Hjhi. cbn in Hjhi. discriminate (Hjhi ltac:(lia)). }
    split; [done|]. split; [lia|]. split; [lia|]. intros k Hk. split.
    + intros Hp. destruct (Z.lt_ge_cases k i); [by rewrite Hno in Hp by lia|]. destruct (Z.lt_ge_cases k (i + j)); [lia|]. specialize (Hjhi (k - i)). rewrite Z.sub_add, Hp in Hjhi. cbn in Hjhi. discriminate (Hjhi ltac:(lia)).
    + intros Hr. specialize (Hjlo (k - i)). rewrite Z.sub_add in Hjlo. apply negb_false_iff. apply Hjlo. lia.
  - exists None. split; [done|]. intros k Hk. destruct (Z.lt_ge_cases k i); [apply Hno; lia|]. destruct (HasPrefix (suffix k) s) eqn:Ek; [|done].
    rewrite <- Ei. symmetry. apply (prefix_between s i k); [lia|lia| |done]. apply Hhi. lia.
Qed.

(** The positions of the range where [s] occurs. *)
Definition found (s : list Z) (rangeStart rangeEnd p : Z) : Prop := 0 <= p < N /\ rangeStart <= p < rangeEnd /\ HasPrefix (drop (Z.to_nat p) (ix_data x)) s = true.

Lemma found_pos s rs re p : found s rs re p -> exists k, 0 <= k < N /\ pos k = p /\ HasPrefix (suffix k) s = true /\ in_range rs re p = true.
Proof.
  intros (Hp & Hr & Hs). destruct (pos_surj p Hp) as (k & Hk & <-). exists k. unfold in_range. repeat split; try done; lia.
Qed.

Lemma pos_found s rs re k : 0 <= k < N -> HasPrefix (suffix k) s = true -> in_range rs re (pos k) = true -> found s rs re (pos k).
Proof. intros Hk Hs Hr. unfold found, in_range in *. destruct (pos_spec k Hk). repeat split; try done; lia. Qed.

Lemma scan_range_ok rs re j fuel i :
  0 <= i <= j -> j <= N -> j - i <= Z.of_nat fuel ->
  exists o, scan_range (E := E) x rs re j fuel i = Ok o /\
    match o with
    | Some p => exists k, i <= k < j /\ p = pos k /\ in_range rs re p = true
    | None => forall k, i <= k < j -> in_range rs re (pos k) = false
    end.
Proof.
  intros Hi Hj. revert i Hi. induction fuel as [|fuel IH]; intros i Hi Hf; cbn [scan_range]; [exists None; split; [done|lia]|].
  destruct (Z.ltb_spec i j); cbn [negb]; [|exists None; split; [done|lia]]. rewrite at_sa_ok by lia. cbn [mbind outcome_bind]. destruct (in_range rs re (pos i)) eqn:Er.
  - exists (Some (pos i)). split; [done|]. exists i. split; [lia|done].
  - destruct (IH (i + 1)) as (o & -> & Ho); [lia|lia|]. exists o. split; [done|]. destruct o as [p|].
    + destruct Ho as (k & Hk & Hp). exists k. split; [lia|done].
    + intros k Hk. destruct (Z.eq_dec k i) as [->|]; [done|]. apply Ho. lia.
Qed.

Lemma scan_prefix_ok s rs re j fuel i :
  0 <= i <= j -> j <= N -> j - i <= Z.of_nat fuel -> (forall k, i <= k < j -> is_ge (Compare (suffix k) s) = true) ->
  exists o, scan_prefix (E := E) x s rs re j fuel i = Ok o /\
    match o with
    | Some p => exists k, i <= k < j /\ p = pos k /\ HasPrefix (suffix k) s = true /\ in_range rs re p = true
    | None => forall k, i <= k < j -> HasPrefix (suffix k) s = true -> in_range rs re (pos k) = false
    end.
Proof.
  intros Hi Hj. revert i Hi. induction fuel as [|fuel IH]; intros i Hi Hf Hge; cbn [scan_prefix]; [exists None; split; [done|lia]|].
  destruct (Z.ltb_spec i j); cbn [negb]; [|exists None; split; [done|lia]]. rewrite at_suffix_ok by lia. cbn [mbind outcome_bind]. destruct (HasPrefix (suffix i) s) eqn:Ep; cbn [negb].
  2: { exists None. split; [done|]. intros k Hk Hp. rewrite (prefix_between s i k) in Ep; [done|lia|lia|apply Hge; lia|done]. }
  rewrite at_sa_ok by lia. cbn [mbind outcome_bind]. destruct (in_range rs re (pos i)) eqn:Er.
  - exists (Some (pos i)). split; [done|]. exists i. split; [lia|done].
  - destruct (IH (i + 1)) as (o & -> & Ho); [lia|lia|intros k Hk; apply Hge; lia|]. exists o. split; [done|]. destruct o as [p|].
    + destruct Ho as (k & Hk & Hp). exists k. split; [lia|done].
    + intros k Hk Hp. destruct (Z.eq_dec k i) as [->|]; [done|]. by apply Ho; [lia|].
Qed.

(** [sStart] and [sEnd] enclose the suffixes that start with [s]. *)
Definition encloses (s : list Z) (sStart sEnd : Z) : Prop := forall k, 0 <= k < N -> HasPrefix (suffix k) s = true -> sStart <= k < sEnd.

Lemma lookupLongest_ok s rs re i j :
  0 <= i <= j -> j <= N -> encloses s i j ->
  exists i' o, lookupLongest (E := E) x s rs re i j = Ok (i', o) /\
    match o with
    | Some p => found s rs re p /\ i <= i' <= j /\ encloses s i' j
    | None => forall p, ~ found s rs re p
    end.
Proof.
  intros Hi Hj Henc. unfold lookupLongest.
  destruct (Search_ok (E := E) (fun k => t ← at_suffix x (k + i); Ok (is_ge (Compare t s))) (fun k => is_ge (Compare (suffix (k + i)) s)) (j - i)) as (r & -> & Hr & Hlo & Hhi); [lia| | |].
  { intros k Hk. by rewrite at_suffix_ok by lia. }
  { intros a b Ha Hb. apply ge_mono; lia. }
  cbn [mbind outcome_bind]. assert (encloses s (r + i) j) as Henc'.
  { intros k Hk Hp. pose proof (Henc k Hk Hp). split; [|lia]. destruct (Z.lt_ge_cases k (r + i)); [|done]. specialize (Hlo (k - i)). rewrite Z.sub_add in Hlo. apply HasPrefix_ge in Hp. rewrite Hlo in Hp by lia. done. }
  assert ((forall k, r + i <= k < j -> HasPrefix (suffix k) s = true -> in_range rs re (pos k) = false) -> forall p, ~ found s rs re p) as Hnone.
  { intros Hk p Hf. apply found_pos in Hf as (k & Hkr & <- & Hp & Hin). rewrite Hk in Hin; [done|by apply Henc'|done]. }
  destruct (Z.eqb_spec (r + i) j); [exists i, None; split; [done|]; apply Hnone; lia|]. rewrite at_suffix_ok by lia. cbn [mbind outcome_bind].
  assert (forall k, r + i <= k < j -> is_ge (Compare (suffix k) s) = true) as Hge by (intros k Hk; specialize (Hhi (k - i)); rewrite Z.sub_add in Hhi; apply Hhi; lia).
  destruct (HasPrefix (suffix (r + i)) s) eqn:Ep; cbn [negb].
  - destruct (scan_prefix_ok s rs re j (Z.to_nat (j - (r + i))) (r + i)) as (o & -> & Ho); [lia|lia|lia|done|]. cbn [mbind outcome_bind]. exists (r + i), o. split; [done|]. destruct o as [p|]; [|by apply Hnone].
    destruct Ho as (k & Hk & -> & Hp & Hin). split; [apply pos_found; [lia|done|done]|]. split; [lia|done].
  - exists i, None. split; [done|]. apply Hnone. intros k Hk Hp. rewrite (prefix_between s (r + i) k) in Ep; [done|lia|lia|apply Hge; lia|done].
Qed.

Lemma found_shorter s rs re n m p : n <= m -> found (prefix_of s m) rs re p -> found (prefix_of s n) rs re p.
Proof. intros Hn (H1 & H2 & H3). split; [done|]. split; [done|]. by apply (HasPrefix_mono _ _ n m). Qed.

(** The longest prefix of [s], of at most [maxEnd] bytes, that occurs in the range. *)
Definition is_longest (s : list Z) (maxEnd rs re index len : Z) : Prop :=
  found (prefix_of s len) rs re index /\ len <= maxEnd /\ forall n p, len < n <= maxEnd -> ~ found (prefix_of s n) rs re p.

Lemma longest_loop_ok s maxEnd rs re sEnd fuel sStart low high index len :
  0 <= sStart <= sEnd -> sEnd <= N -> 0 <= low -> low <= high + 1 -> high <= maxEnd <= size s -> high - low < Z.of_nat fuel ->
  encloses (prefix_of s low) sStart sEnd -> found (prefix_of s len) rs re index -> len = low \/ len = low - 1 -> len <= maxEnd ->
  (forall n p, high < n <= maxEnd -> ~ found (prefix_of s n) rs re p) ->
  exists index' len', longest_loop (E := E) x s rs re sEnd fuel sStart low high index len = Ok (index', len') /\ is_longest s maxEnd rs re index' len' /\ len <= len'.
Proof.
  intros Hs Hse. revert sStart Hs low high index len. induction fuel as [|fuel IH]; intros sStart Hs low high index len Hlow Hlh Hhigh Hfuel Henc Hf Hlen Hle Hno; cbn [longest_loop].
  all: assert (high < low -> is_longest s maxEnd rs re index len) as Hend by (intros; split; [done|]; split; [done|]; intros n p Hn; apply Hno; lia).
  { exists index, len. split; [done|]. split; [apply Hend; lia|lia]. }
  destruct (Z.leb_spec low high); cbn [negb]; [|exists index, len; split; [done|]; split; [by apply Hend|lia]].
  set (mid := low + (high - low) / 2). assert (low <= mid <= high) as Hmid by (subst mid; golia). rewrite slice_in by lia. cbn [mbind outcome_bind]. rewrite drop_0, Z.sub_0_r.
  assert (encloses (prefix_of s mid) sStart sEnd) as Hencm by (intros k Hk Hp; apply Henc; [done|]; by apply (HasPrefix_mono _ _ low mid); [lia|]).
  destruct (lookupLongest_ok (prefix_of s mid) rs re sStart sEnd Hs Hse Hencm) as (newStart & o & -> & Ho). cbn [mbind outcome_bind]. destruct o as [offset|].
  - destruct Ho as (Hfo & Hns & Hencn). destruct (IH newStart ltac:(lia) (mid + 1) high offset mid) as (i' & l' & -> & Hl & Hle'); try lia; try done.
    { intros k Hk Hp. apply Hencn; [done|]. by apply (HasPrefix_mono _ _ mid (mid + 1)); [lia|]. }
    exists i', l'. split; [done|]. split; [done|lia].
  - destruct (IH sStart Hs low (mid - 1) index len) as (i' & l' & -> & Hl & Hle'); try lia; try done.
    { intros n p Hn Hf'. destruct (Z.lt_ge_cases high n); [by apply (Hno n p); [lia|]|]. apply (Ho p). by apply (found_shorter s rs re mid n); [lia|]. }
    exists i', l'. split; [done|]. split; [done|lia].
Qed.

Lemma LookupLongest_ok s minEnd maxEnd rs re :
  0 <= minEnd <= maxEnd -> maxEnd = size s ->
  exists r, LookupLongest (E := E) x s minEnd maxEnd rs re = Ok r /\
    match r with
    | Some (index, len) => minEnd <= len /\ is_longest s maxEnd rs re index len
    | None => forall p, ~ found (prefix_of s minEnd) rs re p
    end.
Proof.
  intros Hm HM. unfold LookupLongest. rewrite slice_in by lia. cbn [mbind outcome_bind]. rewrite drop_0, Z.sub_0_r.
  destruct (lookupLongestInitial_ok (prefix_of s minEnd)) as (r & -> & Hr). cbn [mbind outcome_bind]. destruct r as [[i j]|].
  2: { exists None. split; [done|]. intros p Hf. apply found_pos in Hf as (k & Hk & _ & Hp & _). by rewrite Hr in Hp. }
  destruct Hr as (Hi & Hj & Hk). replace (i =? j) with false by lia. destruct (scan_range_ok rs re j (Z.to_nat (j - i)) i) as (o & -> & Ho); [lia|lia|lia|]. cbn [mbind outcome_bind].
  destruct o as [p|].
  - destruct Ho as (k & Hkr & -> & Hin).
    destruct (longest_loop_ok s maxEnd rs re j (Z.to_nat (maxEnd - minEnd + 1)) i minEnd maxEnd (pos k) minEnd) as (i' & l' & -> & Hl & Hle); try lia.
    + intros k' Hk' Hp. by apply Hk.
    + apply pos_found; [lia| |done]. apply Hk; [lia|done].
    + cbn [mbind outcome_bind]. exists (Some (i', l')). split; [done|]. split; [done|done].
  - exists None. split; [done|]. intros p Hf. apply found_pos in Hf as (k & Hkr & <- & Hp & Hin). apply Hk in Hp; [|done]. by rewrite Ho in Hin.
Qed.
End LookupTheorems.

(** C17. Searching the index of a text: the search ends without a panic, and returns the
    longest prefix of [s], of at least [minEnd] bytes, that occurs in the text at a
    position of the range, with such a position; or nothing, when the first [minEnd]
    bytes do not occur there. *)
Theorem LookupLongest_longest `{SuffixSort} {E : Type} data (ix : Index) s minEnd rs re :
  New (E := E) data = Ok ix -> 0 <= minEnd <= size s ->
  exists r, LookupLongest (E := E) ix s minEnd (size s) rs re = Ok r /\
    match r with
    | Some (index, len) => minEnd <= len /\ is_longest ix s (size s) rs re index len
    | None => forall p, ~ found ix (prefix_of s minEnd) rs re p
    end.
Proof.
  intros E0 Hm. unfold New in E0. apply bind_ok in E0 as ([] & _ & [= <-]). apply LookupLongest_ok; [apply text_32_sorted|lia|done].
Qed.

(** ** Sorting *)

(** An implementation of the interface, by sorting the positions. *)
Definition suffix_le (text : list Z) (a b : Z) : Prop := Compare (drop (Z.to_nat a) text) (drop (Z.to_nat b) text) <> Gt.

#[export] Instance suffix_le_dec text : RelDecision (suffix_le text).
Proof. intros a b. unfold suffix_le. destruct (Compare _ _); [by left|by left|right; by intros Hn]. Defined.

Lemma Compare_antisym a b : Compare b a = CompOpp (Compare a b).
Proof. revert b. induction a as [|z a IH]; intros [|y b]; try done. cbn. rewrite (Z.compare_antisym z y). destruct (z ?= y); cbn; [apply IH|done..]. Qed.

Lemma Compare_eq a b : Compare a b = Eq -> a = b.
Proof. revert b. induction a as [|z a IH]; intros [|y b]; try done. cbn. destruct (Z.compare_spec z y); try done. subst. intros Hc. f_equal. by apply IH. Qed.

Lemma Compare_trans a b c : Compare a b <> Gt -> Compare b c <> Gt -> Compare a c <> Gt.
Proof.
  revert b c. induction a as [|z a IH]; intros [|y b] [|u c]; cbn; try done. destruct (Z.compare_spec z y), (Z.compare_spec y u), (Z.compare_spec z u); try done; try lia. apply IH.
Qed.

#[export] Instance suffix_le_total text : Total (suffix_le text).
Proof. intros a b. unfold suffix_le. rewrite (Compare_antisym (drop (Z.to_nat a) text)). destruct (Compare _ _); cbn; [left|left|right]; done. Qed.

#[export] Instance suffix_le_trans text : Transitive (suffix_le text).
Proof. intros a b c. apply Compare_trans. Qed.

#[export] Instance sorting : SuffixSort.
Proof.
  refine {| text_32 text := merge_sort (suffix_le text) (seqZ 0 (size text)) |}. intros text. pose proof (merge_sort_Permutation (suffix_le text) (seqZ 0 (size text))) as Hp. split; [done|].
  intros i j a b Hij Ha Hb. pose proof (StronglySorted_merge_sort (suffix_le text) (seqZ 0 (size text))) as Hs. pose proof (StronglySorted_lookup _ _ _ _ _ _ Hs Hij Ha Hb) as Hle.
  unfold suffix_le in Hle. destruct (Compare _ _) eqn:Ec; [|done|done]. exfalso. apply Compare_eq in Ec.
  assert (a ∈ seqZ 0 (size text) /\ b ∈ seqZ 0 (size text)) as [[? ?]%elem_of_seqZ [? ?]%elem_of_seqZ] by (split; rewrite <- Hp; by eapply list_elem_of_lookup_2).
  apply (f_equal length) in Ec. rewrite !length_drop in Ec. assert (a = b) as -> by lia.
  pose proof (NoDup_seqZ 0 (size text)) as Hn. rewrite <- Hp in Hn. pose proof (NoDup_lookup _ _ _ _ Hn Ha Hb). lia.
Defined.

Lemma LookupLongest_longest_witness :
  exists ix : Index, New (E := Empty_set) [1; 2; 1; 2; 3; 1] = Ok ix /\ LookupLongest (E := Empty_set) ix [1; 2; 3; 4] 2 4 0 6 = Ok (Some (2, 3)) /\
    is_longest ix [1; 2; 3; 4] 4 0 6 2 3.
Proof.
  eexists. split; [reflexivity|].
  destruct (LookupLongest_longest (E := Empty_set) [1; 2; 1; 2; 3; 1] (mkIndex [1; 2; 1; 2; 3; 1] (text_32 [1; 2; 1; 2; 3; 1])) [1; 2; 3; 4] 2 0 6) as (r & Er & Hr); [reflexivity|cbn; lia|].
  vm_compute in Er. injection Er as <-. split; [reflexivity|]. exact (proj2 Hr).
Defined.
