(* ===== verification/Lzss.v ===== *)
(** The compressor of version 0 of the blobs:
    [prover/lib/compressor/blob/v0/compress/lzss].

    The text is a sequence of literal bytes and references, to the text before it (short
    and long ones) or to a dictionary.  Three bytes are reserved as the marks of the
    references.  A [Compressor] is fed in several steps; the last step can be reverted,
    and the whole can be replaced by the uncompressed text.  Buffers are lists of bytes;
    the bit writer of the compressor passes its bytes on to [outBuf]. *)
From S2P Require Import Prelude BitIo GoState SuffixArray.

Inductive lzss_error :=
| DictTooLarge
| InputTooLarge
| NoBackref (i : Z)
| RevertTwice
| ReadFailed
| BadVersion
| InvalidBackref.

(** ** backref.go, header.go *)

Definition MaxInputSize : Z := 2 ^ 21.
Definition MaxDictSize : Z := 2 ^ 22.

Definition SymbolDict : Z := 255.
Definition SymbolShort : Z := 254.
Definition SymbolLong : Z := 253.

Record BackrefType := mkBackrefType {
  Delimiter : Z;
  NbBitsAddress : Z;
  NbBitsLength : Z;
  NbBitsBackRef : Z;
  nbBytesBackRef : Z;
  maxAddress : Z;
  maxLength : Z;
  dictOnly : bool
}.

Definition newBackRefType (symbol nbBitsAddress nbBitsLength : Z) (dictOnly : bool) : BackrefType :=
  {| Delimiter := symbol;
     NbBitsAddress := nbBitsAddress;
     NbBitsLength := nbBitsLength;
     NbBitsBackRef := u8 (8 + nbBitsAddress + nbBitsLength);
     nbBytesBackRef := u8 (8 + nbBitsAddress + nbBitsLength + 7) / 8;
     maxAddress := i64 (1 ≪ nbBitsAddress);
     maxLength := i64 (1 ≪ nbBitsLength);
     dictOnly := dictOnly |}.

Record backref := mkBackref { bType : BackrefType; length_ : Z; address : Z }.

(** The interface [writer]. *)
Class Writer (S : Type) := {
  TryWriteBits : S -> Z -> Z -> S;
  TryWriteByte : S -> Z -> S
}.

Definition writeTo {S} `{Writer S} (b : backref) (w : S) (i : Z) : S :=
  let w := TryWriteByte w (Delimiter (bType b)) in
  let w := TryWriteBits w (u64 (length_ b - 1)) (NbBitsLength (bType b)) in
  let addrToWrite := if dictOnly (bType b) then address b else i - address b - 1 in
  TryWriteBits w (u64 addrToWrite) (NbBitsAddress (bType b)).

Section ReadFrom.
Context {W R : Type} `{BitIo W R}.

(** The length and the address that are read. *)
Definition readFrom (t : BackrefType) (r : R) : outcome lzss_error (backref * R) :=
  let '(n, r) := br_read r (NbBitsLength t) in
  let len := n + 1 in
  let '(n, r) := br_read r (NbBitsAddress t) in
  let addr := if dictOnly t then i64 n else i64 (i64 n + 1) in
  _ ← require (negb (br_error r)) ReadFailed;
  _ ← require (negb ((len <=? 0) || (addr <? 0))) InvalidBackref;
  Ok (mkBackref t len addr, r).
End ReadFrom.

Definition savings (b : backref) : Z := if length_ b =? -1 then - 2 ^ 63 else 8 * length_ b - NbBitsBackRef (bType b).

Definition Version : Z := 0.
Definition HeaderSize : Z := 3.

(** [Header.WriteTo]. *)
Definition header_bytes (version level : Z) : list Z := le_bytes 2 version ++ [level].

(** [Header.ReadFrom]: the version and the level. *)
Definition header_of (b : list Z) : Z * Z := (le_value (take 2 b), default 0 (b !! 2%nat)).

(** ** compress.go *)

Definition NoCompression : Z := 0.
Definition BestCompression : Z := 1.
Definition GoodCompression : Z := 2.
Definition GoodSnarkDecompression : Z := 4.
Definition BestSnarkDecompression : Z := 8.

Definition headerBitLen : Z := 24.
Definition longBrAddressNbBits : Z := 19.

Definition found_symbols (found b : Z) : Z :=
  if b =? SymbolDict then found ||| 1
  else if b =? SymbolShort then found ||| 2
  else if b =? SymbolLong then found ||| 4
  else found.

(** The loop of [AugmentDict]: are all three symbols found. *)
Fixpoint all_found (found : Z) (dict : list Z) : bool :=
  match dict with
  | [] => false
  | b :: dict => let found := found_symbols found b in (found =? 7) || all_found found dict
  end.

Definition AugmentDict (dict : list Z) : list Z := if all_found 0 dict then dict else dict ++ [SymbolDict; SymbolShort; SymbolLong].

Definition wordAlign (level a : Z) : Z :=
  if level =? NoCompression then u8 a else u8 (u8 (u8 (u8 a + level) - 1) / level * level).

(** [bits.Len]. *)
Definition bits_Len (n : Z) : Z := if n =? 0 then 0 else Z.log2 n + 1.

(** The short, the long and the dictionary type. *)
Definition InitBackRefTypes (dictLen level : Z) : BackrefType * BackrefType * BackrefType :=
  (newBackRefType SymbolShort (wordAlign level 14) 8 false,
   newBackRefType SymbolLong (wordAlign level longBrAddressNbBits) 8 false,
   newBackRefType SymbolDict (wordAlign level (bits_Len dictLen)) 8 true).

(** The loop of [NewCompressor] that records the positions of the reserved symbols. *)
Fixpoint reserved_indices (idx : gmap Z Z) (i : Z) (dict : list Z) : gmap Z Z :=
  match dict with
  | [] => idx
  | b :: dict =>
      if (b =? SymbolDict) || (b =? SymbolShort) || (b =? SymbolLong) then
        let idx := <[b := i]> idx in
        if bool_decide (base.size idx = 3%nat) then idx else reserved_indices idx (i + 1) dict
      else reserved_indices idx (i + 1) dict
  end.

Definition canEncodeSymbol (b : Z) : bool := negb (b =? SymbolDict) && negb (b =? SymbolShort) && negb (b =? SymbolLong).

Definition findBackRef (data : list Z) (i : Z) (t : BackrefType) (minLength : Z) (index : Index) (dictLen : Z) : outcome lzss_error (Z * Z) :=
  let minLength := if minLength =? -1 then nbBytesBackRef t else minLength in
  if size data <? i + minLength then Ok (-1, -1) else
  let windowStart := Z.max 0 (i - maxAddress t) in
  let maxRefLen := if size data <? i + maxLength t then size data - i else maxLength t in
  if maxRefLen <? minLength then Ok (-1, -1) else
  s ← slice data i (i + maxRefLen);
  r ← (if dictOnly t then LookupLongest index s minLength maxRefLen 0 dictLen else LookupLongest index s minLength maxRefLen windowStart i);
  Ok (default (-1, -1) r).

(** The number of bytes at the head of [l] that are equal to [b], at most [n]. *)
Fixpoint run_count (b : Z) (l : list Z) (n : nat) : Z :=
  match n, l with
  | S n, x :: l => if b =? x then 1 + run_count b l n else 0
  | _, _ => 0
  end.

Definition minConstantingBytes : Z := 160.

Section WriteLoop.
Context {S : Type} `{Writer S} (d : list Z) (level : Z) (dictReservedIdx : gmap Z Z) (dictIndex inputIndex : Index) (dictLen : Z).

Definition shortBackRefType : BackrefType := (InitBackRefTypes dictLen level).1.1.
Definition longBackRefType : BackrefType := (InitBackRefTypes dictLen level).1.2.
Definition dictBackRefType : BackrefType := (InitBackRefTypes dictLen level).2.

(** The references found at [i], to the dictionary, short and long. *)
Definition fillBackrefs (i minLen : Z) : outcome lzss_error (backref * backref * backref) :=
  '(aDict, lDict) ← findBackRef d i dictBackRefType minLen dictIndex dictLen;
  '(aShort, lShort) ← findBackRef d i shortBackRefType minLen inputIndex dictLen;
  '(aLong, lLong) ← findBackRef d i longBackRefType minLen inputIndex dictLen;
  Ok (mkBackref dictBackRefType lDict aDict, mkBackref shortBackRefType lShort aShort, mkBackref longBackRefType lLong aLong).

(** The result of [fillBackrefs]: is there a reference. *)
Definition any_found (bs : backref * backref * backref) : bool :=
  let '(bDict, bShort, bLong) := bs in negb ((length_ bDict =? -1) && (length_ bShort =? -1) && (length_ bLong =? -1)).

Definition bestBackref (bs : backref * backref * backref) : backref * Z :=
  let '(bDict, bShort, bLong) := bs in
  if negb (length_ bDict =? -1) && (savings bShort <? savings bDict) && (savings bLong <? savings bDict) then (bDict, savings bDict)
  else if negb (length_ bShort =? -1) && (savings bLong <? savings bShort) then (bShort, savings bShort)
  else (bLong, savings bLong).

Definition write_symbol (w : S) (i : Z) : outcome lzss_error S := b ← at_ d i; Ok (TryWriteByte w b).

Definition write_backref (b : backref) (w : S) (i : Z) : Z * S := (i + length_ b, writeTo b w i).

(** A series of [count] repeated bytes at [i]. *)
Definition write_run (w : S) (i count : Z) : outcome lzss_error (Z * S) :=
  b ← at_ d i;
  previous ← (if 0 <? i then p ← at_ d (i - 1); Ok (p =? b) else Ok false);
  let '(w, i, count) :=
    if negb previous then
      let w := if negb (canEncodeSymbol b) then writeTo (mkBackref dictBackRefType 1 (default 0 (dictReservedIdx !! b))) w i else TryWriteByte w b in
      (w, i + 1, count - 1)
    else (w, i, count) in
  Ok (write_backref (mkBackref shortBackRefType count (i - 1)) w i).

(** The search for a better reference one or two bytes further. *)
Definition write_lazy (w : S) (i : Z) (bestAtI : backref) (bestSavings : Z) : outcome lzss_error (Z * S) :=
  if i + 1 <? size d then
    bs ← fillBackrefs (i + 1) (length_ bestAtI + 1);
    next ← at_ d (i + 1);
    if any_found bs then
      let '(newBest, newSavings) := bestBackref bs in
      if bestSavings <? newSavings then
        w ← write_symbol w i;
        let i := i + 1 in
        if canEncodeSymbol next && (i + 1 <? size d) then
          bs ← fillBackrefs (i + 1) (length_ newBest + 1);
          let '(newBest', newSavings') := bestBackref bs in
          if any_found bs && (newSavings <? newSavings') then
            w ← write_symbol w i;
            Ok (write_backref newBest' w (i + 1))
          else Ok (write_backref newBest w i)
        else Ok (write_backref newBest w i)
      else Ok (write_backref bestAtI w i)
    else if (i + 2 <? size d) && canEncodeSymbol next then
      bs ← fillBackrefs (i + 2) (length_ bestAtI + 2);
      let '(newBest, newSavings) := bestBackref bs in
      if any_found bs && (bestSavings <? newSavings) then
        w ← write_symbol w i;
        w ← write_symbol w (i + 1);
        Ok (write_backref newBest w (i + 2))
      else Ok (write_backref bestAtI w i)
    else Ok (write_backref bestAtI w i)
  else Ok (write_backref bestAtI w i).

(** An iteration of the loop: the next position. *)
Definition write_step (w : S) (i : Z) : outcome lzss_error (Z * S) :=
  b ← at_ d i;
  let count := run_count b (drop (Z.to_nat i) d) (Z.to_nat (maxLength shortBackRefType)) in
  if minConstantingBytes <=? count then write_run w i count else
  if negb (canEncodeSymbol b) then
    bs ← fillBackrefs i 1;
    _ ← require (any_found bs) (NoBackref i);
    Ok (write_backref (bestBackref bs).1 w i)
  else
    bs ← fillBackrefs i (-1);
    if negb (any_found bs) then Ok (i + 1, TryWriteByte w b) else
    let '(bestAtI, bestSavings) := bestBackref bs in
    write_lazy w i bestAtI bestSavings.

Fixpoint write_loop (fuel : nat) (w : S) (i : Z) : outcome lzss_error S :=
  match fuel with
  | O => if i <? size d then Panic else Ok w
  | Datatypes.S fuel => if i <? size d then '(i, w) ← write_step w i; write_loop fuel w i else Ok w
  end.
End WriteLoop.

(** A writer that counts the bits: [bitCounterWriter]. *)
Record bitCounterWriter := mkCounter { nbBits : Z }.

#[export] Instance counter_writer : Writer bitCounterWriter := {
  TryWriteBits b _ nbBits' := mkCounter (nbBits b + nbBits');
  TryWriteByte b _ := mkCounter (nbBits b + 8)
}.

Definition counter_Len (b : bitCounterWriter) : Z := (nbBits b + 7) / 8.

Section Compressor.
Context {W R : Type} `{BitIo W R} `{SuffixSort}.

(** The bit writer of the compressor, with the buffer that it writes to. *)
#[export] Instance bit_writer : Writer (list Z * W) := {
  TryWriteBits w v n := let '(bs, w') := bw_write w.2 v n in (w.1 ++ bs, w');
  TryWriteByte w b := let '(bs, w') := bw_write w.2 b 8 in (w.1 ++ bs, w')
}.

Record Compressor := mkCompressor {
  outBuf : list Z;
  bw : W;
  nbSkippedBits : Z;
  inBuf : list Z;
  lastOutLen : Z;
  lastNbSkippedBits : Z;
  lastInLen : Z;
  justBypassed : bool;
  dictData : list Z;
  dictIndex : option Index;
  dictReservedIdx : gmap Z Z;
  level : Z;
  intendedLevel : Z
}.

Abbreviation compressing := (method Compressor lzss_error).

(** Assignments to the fields. *)
Definition set_out (out : list Z) (w : W) (skipped : Z) (c : Compressor) : Compressor :=
  mkCompressor out w skipped (inBuf c) (lastOutLen c) (lastNbSkippedBits c) (lastInLen c) (justBypassed c) (dictData c) (dictIndex c) (dictReservedIdx c) (level c) (intendedLevel c).
Definition set_in (input : list Z) (lastLen : Z) (c : Compressor) : Compressor :=
  mkCompressor (outBuf c) (bw c) (nbSkippedBits c) input (lastOutLen c) (lastNbSkippedBits c) lastLen (justBypassed c) (dictData c) (dictIndex c) (dictReservedIdx c) (level c) (intendedLevel c).
Definition set_last (outLen skipped : Z) (bypassed : bool) (c : Compressor) : Compressor :=
  mkCompressor (outBuf c) (bw c) (nbSkippedBits c) (inBuf c) outLen skipped (lastInLen c) bypassed (dictData c) (dictIndex c) (dictReservedIdx c) (level c) (intendedLevel c).
Definition set_level (l : Z) (c : Compressor) : Compressor :=
  mkCompressor (outBuf c) (bw c) (nbSkippedBits c) (inBuf c) (lastOutLen c) (lastNbSkippedBits c) (lastInLen c) (justBypassed c) (dictData c) (dictIndex c) (dictReservedIdx c) l (intendedLevel c).

(** [write]: the writer after the compressed text. *)
Definition write {S} `{Writer S} (c : Compressor) (w : S) (d : list Z) (startIndex : Z) (inputIndex : Index) : outcome lzss_error S :=
  dictIndex ← unwrap (dictIndex c);
  write_loop d (level c) (dictReservedIdx c) dictIndex inputIndex (size (dictData c)) (Z.to_nat (size d - startIndex)) w startIndex.

Definition appendInput (d : list Z) : compressing unit :=
  c ← get;
  if MaxInputSize <? size (inBuf c) + size d then call (Err InputTooLarge) else
  modify (set_in (inBuf c ++ d) (size (inBuf c))).

Definition Write (d : list Z) : compressing unit :=
  c ← get;
  lastByte ← call (at_ (outBuf c) (size (outBuf c) - 1));
  out ← call (truncate (outBuf c) (size (outBuf c) - 1));
  let '(out, w) := TryWriteBits (out, bw c) (lastByte ≫ nbSkippedBits c) (8 - nbSkippedBits c) in
  _ ← modify (fun c0 => set_last (size (outBuf c)) (nbSkippedBits c) false (set_out out w (nbSkippedBits c) c0));
  _ ← appendInput d;
  c ← get;
  if level c =? NoCompression then modify (set_out (outBuf c ++ d) (bw c) (nbSkippedBits c)) else
  inputIndex ← call (New (inBuf c));
  '(out, w) ← call (write c (outBuf c, bw c) (inBuf c) (lastInLen c) inputIndex);
  let '(bs, skipped, w) := bw_align w in
  modify (set_out (out ++ bs) w skipped).

(** [Reset] does not touch the bit writer. *)
Definition Reset (c : Compressor) : Compressor :=
  let out := header_bytes Version (intendedLevel c) in
  set_level (intendedLevel c) (set_last (size out) 0 false (set_in [] 0 (set_out out (bw c) 0 c))).

Definition Len (c : Compressor) : Z := size (outBuf c).
Definition Written (c : Compressor) : Z := size (inBuf c).
Definition WrittenBytes (c : Compressor) : list Z := inBuf c.
Definition Bytes (c : Compressor) : list Z := outBuf c.

Definition Revert : compressing unit :=
  c ← get;
  if lastInLen c =? -1 then call (Err RevertTwice) else
  input ← call (truncate (inBuf c) (lastInLen c));
  _ ← modify (set_in input (-1));
  if justBypassed c then
    _ ← modify Reset;
    Write input
  else
    out ← call (truncate (outBuf c) (lastOutLen c));
    modify (set_out out (bw c) (lastNbSkippedBits c)).

Definition ConsiderBypassing : compressing bool :=
  c ← get;
  if size (inBuf c) + headerBitLen / 8 <? size (outBuf c) then
    _ ← modify (fun c => set_level NoCompression (set_last (lastInLen c + headerBitLen / 8) 0 true (set_out (header_bytes Version NoCompression ++ inBuf c) (bw c) 0 c)));
    mret true
  else mret false.

Definition Compress (d : list Z) : compressing (list Z) :=
  _ ← modify Reset;
  _ ← Write d;
  c ← get;
  mret (Bytes c).

Definition CompressedSize256k (c : Compressor) (d : list Z) : outcome lzss_error Z :=
  if level c =? NoCompression then Ok (HeaderSize + size d) else
  _ ← require (negb (2 ^ 18 <? size d)) InputTooLarge;
  index ← New d;
  bw ← write c (mkCounter 0) d 0 index;
  Ok (HeaderSize + counter_Len bw).

Definition NewCompressor (dict : list Z) (level : Z) : outcome lzss_error Compressor :=
  let dict := AugmentDict dict in
  _ ← require (negb (MaxDictSize <? size dict)) DictTooLarge;
  dictIndex ← (if negb (level =? NoCompression) then ix ← New dict; Ok (Some ix) else Ok None);
  Ok (Reset (mkCompressor [] bw_new 0 [] 0 0 0 false dict dictIndex (reserved_indices ∅ 0 dict) NoCompression level)).

(** ** decompress.go *)

(** [for i := 0; i < length; i++ { out.WriteByte(out.Bytes()[out.Len()-address]) }],
    with the check of the address. *)
Fixpoint copy_back (n : nat) (addr : Z) (out : list Z) : outcome lzss_error (list Z) :=
  match n with
  | O => Ok out
  | S n =>
      _ ← require (negb (size out <? addr)) InvalidBackref;
      b ← at_ out (size out - addr);
      copy_back n addr (out ++ [b])
  end.

Definition decompress_step (dict : list Z) (types : BackrefType * BackrefType * BackrefType) (s : Z) (r : R) (out : list Z) : outcome lzss_error (R * list Z) :=
  let '(tShort, tLong, tDict) := types in
  if s =? SymbolShort then
    '(b, r) ← readFrom tShort r; out ← copy_back (Z.to_nat (length_ b)) (address b) out; Ok (r, out)
  else if s =? SymbolLong then
    '(b, r) ← readFrom tLong r; out ← copy_back (Z.to_nat (length_ b)) (address b) out; Ok (r, out)
  else if s =? SymbolDict then
    '(b, r) ← readFrom tDict r;
    _ ← require (negb ((size dict <? address b) || (size dict <? i64 (address b + length_ b)))) InvalidBackref;
    content ← slice dict (address b) (i64 (address b + length_ b));
    Ok (r, out ++ content)
  else Ok (r, out ++ [s]).

Fixpoint decompress_loop (dict : list Z) (types : BackrefType * BackrefType * BackrefType) (fuel : nat) (r : R) (out : list Z) : outcome lzss_error (list Z) :=
  match fuel with
  | O => Panic
  | S fuel =>
      let '(s, r) := br_read r 8 in
      if br_error r then Ok out else
      '(r, out) ← decompress_step dict types s r out;
      decompress_loop dict types fuel r out
  end.

(** Each iteration reads a byte. *)
Definition Decompress (data dict : list Z) : outcome lzss_error (list Z) :=
  let '(b, r) := br_full (br_new data) (Z.to_nat HeaderSize) in
  match b with
  | None => Err ReadFailed
  | Some b =>
      let '(version, level) := header_of b in
      _ ← require (version =? Version) BadVersion;
      if level =? NoCompression then slice data HeaderSize (size data) else
      let dict := AugmentDict dict in
      decompress_loop dict (InitBackRefTypes (size dict) level) (S (length data)) r []
  end.
End Compressor.
Arguments Compressor : clear implicits.
