(* ===== verification/LzssTheorems.v ===== *)
(** The format of compressed texts: what the loop of the compressor writes, the loop of
    the decompressor reads back.

    [emits] relates a part of the text to the bits that stand for it.  It is the
    specification between the two loops. *)
From S2P Require Import Prelude BitIo GoState SuffixArray Lzss.

Arguments InitBackRefTypes : simpl never.
Arguments newBackRefType : simpl never.
Arguments wordAlign : simpl never.

(** ** The types of references *)

Definition valid_level (l : Z) : Prop := l = BestCompression \/ l = GoodCompression \/ l = GoodSnarkDecompression \/ l = BestSnarkDecompression.

Record type_ok (t : BackrefType) : Prop := {
  ty_address : 1 <= NbBitsAddress t <= 40;
  ty_length : NbBitsLength t = 8;
  ty_bytes : 1 <= nbBytesBackRef t;
  ty_maxAddress : maxAddress t = 2 ^ NbBitsAddress t;
  ty_maxLength : maxLength t = 256
}.

Lemma wordAlign_ok l a : valid_level l -> 1 <= a <= 32 -> a <= wordAlign l a <= 40.
Proof.
  intros Hl Ha. assert (forallb (fun l => forallb (fun a => (a <=? wordAlign l a) && (wordAlign l a <=? 40)) (seqZ 1 32)) [1; 2; 4; 8] = true) as Hall by (vm_compute; done).
  rewrite forallb_forall in Hall. specialize (Hall l). rewrite forallb_forall in Hall. specialize (Hall ltac:(destruct Hl as [->|[->|[->| ->]]]; cbn; tauto) a). 
  rewrite <- list_elem_of_In, elem_of_seqZ in Hall. specialize (Hall ltac:(lia)). lia.
Qed.

Lemma newBackRefType_ok symbol a b : 1 <= a <= 40 -> type_ok (newBackRefType symbol a 8 b).
Proof.
  intros Ha. assert (2 ^ a < 2 ^ 63) by (apply Z.pow_lt_mono_r; lia). constructor; unfold newBackRefType; cbn [NbBitsAddress NbBitsLength nbBytesBackRef maxAddress maxLength]; [lia|done| | |done].
  - unfold uwrap. change (2 ^ 8) with 256. rewrite Z.mod_small by lia. golia.
  - rewrite Z.shiftl_1_l. apply swrap_small; [|lia]. unfold is_i. cbn. lia.
Qed.

Section Types.
Context (level dictLen : Z) (Hl : valid_level level) (Hd : 1 <= dictLen <= MaxDictSize).

Lemma bits_Len_ok : 1 <= bits_Len dictLen <= 23 /\ dictLen < 2 ^ bits_Len dictLen.
Proof.
  unfold bits_Len. replace (dictLen =? 0) with false by lia. pose proof (Z.log2_spec dictLen ltac:(lia)). pose proof (Z.log2_nonneg dictLen).
  assert (Z.log2 dictLen <= Z.log2 MaxDictSize) as Hm by (apply Z.log2_le_mono; lia). change (Z.log2 MaxDictSize) with 22 in Hm. unfold Z.succ in *. lia.
Qed.

Lemma types_ok : type_ok (shortBackRefType level dictLen) /\ type_ok (longBackRefType level dictLen) /\ type_ok (dictBackRefType level dictLen) /\ dictLen < 2 ^ NbBitsAddress (dictBackRefType level dictLen).
Proof.
  destruct bits_Len_ok as [Hb Hlt]. pose proof (wordAlign_ok level (bits_Len dictLen) Hl ltac:(lia)) as Hw.
  pose proof (wordAlign_ok level 14 Hl ltac:(lia)). pose proof (wordAlign_ok level longBrAddressNbBits Hl ltac:(unfold longBrAddressNbBits; lia)). unfold longBrAddressNbBits in *.
  split; [apply newBackRefType_ok; lia|]. split; [apply newBackRefType_ok; unfold longBrAddressNbBits; lia|]. split; [apply newBackRefType_ok; lia|].
  eapply Z.lt_le_trans; [exact Hlt|]. apply Z.pow_le_mono_r; [lia|]. apply Hw.
Qed.
End Types.

(** ** The format *)

Definition ref_bits (t : BackrefType) (len addr : Z) : list bool :=
  bits_be 8 (Delimiter t) ++ bits_be (Z.to_nat (NbBitsLength t)) len ++ bits_be (Z.to_nat (NbBitsAddress t)) addr.

Section Emits.
Context (level : Z) (dict : list Z).

Abbreviation tShort := (shortBackRefType level (size dict)).
Abbreviation tLong := (longBackRefType level (size dict)).
Abbreviation tDict := (dictBackRefType level (size dict)).

(** The bits that stand for the bytes of [d] from [i] to [j]. *)
Inductive emits (d : list Z) : nat -> list bool -> nat -> Prop :=
| emits_nil i : emits d i [] i
| emits_symbol i b bs j :
    d !! i = Some b -> is_byte b -> canEncodeSymbol b = true -> emits d (S i) bs j -> emits d i (bits_be 8 b ++ bs) j
| emits_backref t i a n bs j :
    t = tShort \/ t = tLong -> (a < i)%nat -> Z.of_nat (i - a) <= 2 ^ NbBitsAddress t -> (1 <= n <= 256)%nat -> (i + n <= length d)%nat ->
    (forall k, (k < n)%nat -> d !! (a + k)%nat = d !! (i + k)%nat) -> emits d (i + n) bs j ->
    emits d i (ref_bits t (Z.of_nat n - 1) (Z.of_nat (i - a) - 1) ++ bs) j
| emits_dictref i a n bs j :
    (a + n <= length dict)%nat -> (1 <= n <= 256)%nat -> (i + n <= length d)%nat -> take n (drop a dict) = take n (drop i d) -> emits d (i + n) bs j ->
    emits d i (ref_bits tDict (Z.of_nat n - 1) (Z.of_nat a) ++ bs) j.

Lemma emits_trans d i bs j cs k : emits d i bs j -> emits d j cs k -> emits d i (bs ++ cs) k.
Proof.
  induction 1; intros Hk; [done|rewrite <- app_assoc..]; [eapply emits_symbol|eapply emits_backref|eapply emits_dictref]; eauto.
Qed.

Lemma emits_bounds d i bs j : emits d i bs j -> (i <= length d)%nat -> (i <= j <= length d)%nat.
Proof.
  induction 1 as [|i b bs j Hb _ _ _ IH|t i a n bs j _ _ _ _ Hn _ _ IH|i a n bs j _ _ Hn _ _ IH]; intros Hi; [lia| | |].
  - apply lookup_lt_Some in Hb. specialize (IH ltac:(lia)). lia.
  - specialize (IH Hn). lia.
  - specialize (IH Hn). lia.
Qed.

Lemma emits_grow d e i bs j : emits d i bs j -> emits (d ++ e) i bs j.
Proof.
  induction 1 as [|i b bs j Hb ? ? _ IH|t i a n bs j Ht Ha Hw Hn Hi Hk _ IH|i a n bs j Ha Hn Hi Hk _ IH]; [constructor| | |].
  - econstructor; try done. rewrite lookup_app_l; [done|]. by eapply lookup_lt_Some.
  - eapply emits_backref; try done; [rewrite length_app; lia|]. intros k Hkn. rewrite !lookup_app_l by lia. by apply Hk.
  - eapply emits_dictref; try done; [rewrite length_app; lia|]. rewrite Hk. rewrite drop_app_le by lia. rewrite take_app_le; [done|]. rewrite length_drop. lia.
Qed.

(** ** Reading *)

Context {W R : Type} `{BitIoLaws W R} (Hl : valid_level level) (Hd : 1 <= size dict <= MaxDictSize).

Lemma br_read_app r v n bs :
  (n <= 64)%nat -> br_error r = false -> br_bits r = bits_be n v ++ bs -> 0 <= v < 2 ^ Z.of_nat n ->
  (br_read r (Z.of_nat n)).1 = v /\ br_bits (br_read r (Z.of_nat n)).2 = bs /\ br_error (br_read r (Z.of_nat n)).2 = false.
Proof.
  intros Hn Hr Hb Hv. destruct (br_read_bits r (Z.of_nat n)) as (H1 & H2 & H3); [lia|done|rewrite Hb, length_app, length_bits_be; lia|].
  rewrite H1, H2, H3, Hb, Nat2Z.id. rewrite take_app_length', drop_app_length' by by rewrite length_bits_be. rewrite bits_value_bits_be. by rewrite Z.mod_small.
Qed.

Lemma readFrom_ok t r len addr bs :
  type_ok t -> br_error r = false -> br_bits r = bits_be (Z.to_nat (NbBitsLength t)) len ++ bits_be (Z.to_nat (NbBitsAddress t)) addr ++ bs ->
  0 <= len < 256 -> 0 <= addr < 2 ^ NbBitsAddress t ->
  exists r', readFrom t r = Ok (mkBackref t (len + 1) (if dictOnly t then addr else addr + 1), r') /\ br_bits r' = bs /\ br_error r' = false.
Proof.
  intros [Ha HL _ _ _] Hr Hb Hlen Haddr. unfold readFrom. rewrite HL in *. assert (2 ^ NbBitsAddress t <= 2 ^ 40) by (apply Z.pow_le_mono_r; lia).
  destruct (br_read_app r len 8 _ ltac:(lia) Hr Hb) as (E1 & B1 & F1); [done|]. change (Z.of_nat 8) with 8 in *. destruct (br_read r 8) as [v1 r1]. cbn [fst snd] in *. subst v1.
  destruct (br_read_app r1 addr (Z.to_nat (NbBitsAddress t)) bs ltac:(lia) F1 B1) as (E2 & B2 & F2); [rewrite Z2Nat.id by lia; lia|]. rewrite Z2Nat.id in * by lia. destruct (br_read r1 (NbBitsAddress t)) as [v2 r2]. cbn [fst snd] in *. subst v2.
  rewrite F2. cbn [negb require mbind outcome_bind]. rewrite !(swrap_small 64) by (unfold is_i; lia).
  replace ((len + 1 <=? 0) || ((if dictOnly t then addr else addr + 1) <? 0)) with false by (destruct (dictOnly t); lia). cbn [negb require mbind outcome_bind]. by eexists.
Qed.

Lemma copy_back_ok d a i n :
  (a < i)%nat -> (i + n <= length d)%nat -> (forall k, (k < n)%nat -> d !! (a + k)%nat = d !! (i + k)%nat) ->
  copy_back n (Z.of_nat (i - a)) (take i d) = Ok (take (i + n) d).
Proof.
  intros Ha. revert a i Ha. induction n as [|n IH]; intros a i Ha Hi Hk; cbn [copy_back]; [by rewrite Nat.add_0_r|].
  assert (size (take i d) = Z.of_nat i) as El by (rewrite length_take; lia). rewrite El. replace (Z.of_nat i <? Z.of_nat (i - a)) with false by lia. cbn [negb require mbind outcome_bind].
  destruct (lookup_lt_is_Some_2 d i) as [b Hb]; [lia|]. replace (Z.of_nat i - Z.of_nat (i - a)) with (Z.of_nat a) by lia.
  rewrite (at_nat _ a b). 2: { rewrite lookup_take_lt by lia. specialize (Hk 0%nat). rewrite !Nat.add_0_r in Hk. rewrite Hk by lia. done. }
  cbn [mbind outcome_bind]. rewrite <- (take_S_r _ _ _ Hb). replace (i - a)%nat with (S i - S a)%nat by lia. rewrite (IH (S a) (S i)); [f_equal; f_equal; lia|lia|lia|].
  intros k Hkn. specialize (Hk (S k)). rewrite !Nat.add_succ_r in Hk. apply Hk. lia.
Qed.

Lemma InitBackRefTypes_eq : InitBackRefTypes (size dict) level = (tShort, tLong, tDict).
Proof. done. Qed.

Lemma ref_bits_length t len addr : (8 <= length (ref_bits t len addr))%nat.
Proof. unfold ref_bits. rewrite length_app, length_bits_be. lia. Qed.

(** A step of the decompressor on a reference: the mark has been read. *)
Lemma read_symbol r b bs :
  is_byte b -> br_error r = false -> br_bits r = bits_be 8 b ++ bs -> exists r', br_read r 8 = (b, r') /\ br_bits r' = bs /\ br_error r' = false.
Proof.
  intros Hb Hr Hbits. destruct (br_read_app r b 8 bs ltac:(lia) Hr Hbits) as (E1 & B1 & F1); [done|]. change (Z.of_nat 8) with 8 in *. destruct (br_read r 8) as [v r']. cbn in *. subst. by eexists.
Qed.

Lemma step_backref t d r i a n bs :
  t = tShort \/ t = tLong -> (a < i)%nat -> Z.of_nat (i - a) <= 2 ^ NbBitsAddress t -> (1 <= n <= 256)%nat -> (i + n <= length d)%nat ->
  (forall k, (k < n)%nat -> d !! (a + k)%nat = d !! (i + k)%nat) -> br_error r = false ->
  br_bits r = bits_be (Z.to_nat (NbBitsLength t)) (Z.of_nat n - 1) ++ bits_be (Z.to_nat (NbBitsAddress t)) (Z.of_nat (i - a) - 1) ++ bs ->
  exists r', decompress_step dict (InitBackRefTypes (size dict) level) (Delimiter t) r (take i d) = Ok (r', take (i + n) d) /\ br_bits r' = bs /\ br_error r' = false.
Proof.
  intros Ht Ha Hw Hn Hi Hk Hr Hbits. destruct (types_ok level (size dict) Hl Hd) as (TS & TL & _ & _).
  assert (type_ok t) as Tt by by destruct Ht as [->| ->]. assert (dictOnly t = false) as Hdict by by destruct Ht as [->| ->].
  destruct (readFrom_ok t r (Z.of_nat n - 1) (Z.of_nat (i - a) - 1) bs Tt Hr Hbits) as (r' & E1 & B1 & F1); [lia|lia|]. rewrite Hdict in E1.
  exists r'. split; [|done]. unfold decompress_step. rewrite InitBackRefTypes_eq. cbn [fst snd].
  assert (('(b, r) ← readFrom t r; out ← copy_back (Z.to_nat (length_ b)) (address b) (take i d); Ok (r, out)) = Ok (r', take (i + n) d)) as Estep.
  { rewrite E1. cbn [mbind outcome_bind length_ address]. replace (Z.to_nat (Z.of_nat n - 1 + 1)) with n by lia. rewrite Z.sub_add, (copy_back_ok d a i n) by done. done. }
  by destruct Ht as [->| ->].
Qed.

Lemma step_dictref d r i a n bs :
  (a + n <= length dict)%nat -> (1 <= n <= 256)%nat -> (i + n <= length d)%nat -> take n (drop a dict) = take n (drop i d) -> br_error r = false ->
  br_bits r = bits_be (Z.to_nat (NbBitsLength tDict)) (Z.of_nat n - 1) ++ bits_be (Z.to_nat (NbBitsAddress tDict)) (Z.of_nat a) ++ bs ->
  exists r', decompress_step dict (InitBackRefTypes (size dict) level) (Delimiter tDict) r (take i d) = Ok (r', take (i + n) d) /\ br_bits r' = bs /\ br_error r' = false.
Proof.
  intros Ha Hn Hi Hk Hr Hbits. destruct (types_ok level (size dict) Hl Hd) as (_ & _ & TD & HD). unfold MaxDictSize in Hd.
  destruct (readFrom_ok tDict r (Z.of_nat n - 1) (Z.of_nat a) bs TD Hr Hbits) as (r' & E1 & B1 & F1); [lia|lia|].
  exists r'. split; [|done]. unfold decompress_step. rewrite InitBackRefTypes_eq. change (Delimiter tDict) with SymbolDict. cbn [Z.eqb SymbolDict SymbolShort SymbolLong Pos.eqb]. rewrite E1. cbn [mbind outcome_bind length_ address].
  change (dictOnly tDict) with true. cbn match. rewrite (swrap_small 64) by (unfold is_i; lia). replace ((size dict <? Z.of_nat a) || (size dict <? Z.of_nat a + (Z.of_nat n - 1 + 1))) with false by lia.
  cbn [negb require mbind outcome_bind]. rewrite slice_in by lia. cbn [mbind outcome_bind]. replace (Z.to_nat (Z.of_nat a + (Z.of_nat n - 1 + 1) - Z.of_nat a)) with n by lia. rewrite Nat2Z.id, Hk. rewrite take_take_drop. done.
Qed.

Lemma decompress_loop_ok d i bs j :
  emits d i bs j -> (i <= length d)%nat ->
  forall r pad fuel, br_error r = false -> br_bits r = bs ++ pad -> (length pad < 8)%nat -> (length bs < 8 * fuel)%nat ->
  decompress_loop dict (InitBackRefTypes (size dict) level) fuel r (take i d) = Ok (take j d).
Proof.
  induction 1 as [i|i b bs j Hb Hbyte Hc _ IH|t i a n bs j Ht Ha Hw Hn Hi Hk _ IH|i a n bs j Ha Hn Hi Hk _ IH]; intros Hil r pad fuel Hr Hbits Hpad Hfuel;
    (destruct fuel as [|fuel]; [cbn in Hfuel; lia|]); cbn [decompress_loop].
  - destruct (br_read r 8) as [s r'] eqn:Er. pose proof (br_read_eof r 8 ltac:(lia) Hr) as He. rewrite Er in He. cbn [snd] in He. rewrite He; [done|]. rewrite Hbits. cbn. lia.
  - rewrite <- app_assoc in Hbits. destruct (read_symbol r b (bs ++ pad) Hbyte Hr Hbits) as (r' & -> & B & F). rewrite F. rewrite length_app, length_bits_be in Hfuel.
    unfold decompress_step. rewrite InitBackRefTypes_eq. unfold canEncodeSymbol in Hc. destruct (b =? SymbolShort), (b =? SymbolLong), (b =? SymbolDict); try discriminate.
    cbn [mbind outcome_bind]. rewrite <- (take_S_r _ _ _ Hb). apply lookup_lt_Some in Hb. rewrite <- InitBackRefTypes_eq. apply (IH ltac:(lia) r' pad); [done|done|done|lia].
  - unfold ref_bits in Hbits. rewrite <- !app_assoc in Hbits. pose proof (ref_bits_length t (Z.of_nat n - 1) (Z.of_nat (i - a) - 1)) as Hlen. rewrite length_app in Hfuel.
    destruct (read_symbol r (Delimiter t) _ ltac:(by destruct Ht as [->| ->]) Hr Hbits) as (r1 & -> & B1 & F1). rewrite F1.
    destruct (step_backref t d r1 i a n (bs ++ pad) Ht Ha Hw Hn Hi Hk F1 B1) as (r2 & -> & B2 & F2). cbn [mbind outcome_bind]. apply (IH ltac:(lia) r2 pad); [done|done|done|lia].
  - unfold ref_bits in Hbits. rewrite <- !app_assoc in Hbits. pose proof (ref_bits_length tDict (Z.of_nat n - 1) (Z.of_nat a)) as Hlen. rewrite length_app in Hfuel.
    destruct (read_symbol r (Delimiter tDict) _ ltac:(done) Hr Hbits) as (r1 & -> & B1 & F1). rewrite F1.
    destruct (step_dictref d r1 i a n (bs ++ pad) Ha Hn Hi Hk F1 B1) as (r2 & -> & B2 & F2). cbn [mbind outcome_bind]. apply (IH ltac:(lia) r2 pad); [done|done|done|lia].
Qed.
End Emits.
