(* ===== verification/LzssWrite.v ===== *)
(** What the loop of the compressor writes: every iteration goes forward and emits the
    bytes that it passes, and none fails, as the dictionary contains the reserved
    symbols.

    The loop is generic in its writer.  It is studied with the writer that records the
    calls, of which every other writer is an image. *)
From S2P Require Import Prelude BitIo GoState SuffixArray Lzss LzssTheorems.

(** ** Recorded calls *)

Abbreviation calls := (list (Z * Z)).

#[export] Instance record_writer : Writer calls := {
  TryWriteBits l v n := l ++ [(v, n)];
  TryWriteByte l b := l ++ [(b, 8)]
}.

Definition call_bits (l : calls) : list bool := l ≫= (fun c => bits_be (Z.to_nat c.2) c.1).

Definition replay_calls {S} `{Writer S} (w : S) (l : calls) : S := fold_left (fun w c => TryWriteBits w c.1 c.2) l w.

(** Writing a byte is writing 8 bits. *)
Class WriterLaw (S : Type) `{Writer S} := write_byte w b : TryWriteByte w b = TryWriteBits w b 8.

#[export] Instance counter_law : WriterLaw bitCounterWriter.
Proof. done. Qed.

#[export] Instance bit_writer_law {W R} `{BitIo W R} : WriterLaw (list Z * W).
Proof. done. Qed.

#[export] Instance record_law : WriterLaw calls.
Proof. done. Qed.

Lemma replay_record (l k : calls) : replay_calls l k = l ++ k.
Proof. revert l. induction k as [|[v n] k IH]; intros l; [by rewrite app_nil_r|]. change (replay_calls l ((v, n) :: k)) with (replay_calls (l ++ [(v, n)]) k). by rewrite IH, <- app_assoc. Qed.

Section Free.
Context {S : Type} `{WriterLaw S} (d : list Z) (level : Z) (idx : gmap Z Z) (dictIndex inputIndex : Index) (dictLen : Z).

Abbreviation step_of T := (write_step (S := T) d level idx dictIndex inputIndex dictLen).
Abbreviation loop_of T := (write_loop (S := T) d level idx dictIndex inputIndex dictLen).

Lemma replay_app (w : S) l k : replay_calls w (l ++ k) = replay_calls (replay_calls w l) k.
Proof. apply fold_left_app. Qed.

Lemma writeTo_free (w : S) l b i : writeTo b (replay_calls w l) i = replay_calls w (writeTo b l i).
Proof. unfold writeTo. cbn [TryWriteBits TryWriteByte record_writer]. rewrite !replay_app. cbn. by rewrite write_byte. Qed.

Lemma byte_free (w : S) l b : TryWriteByte (replay_calls w l) b = replay_calls w (TryWriteByte l b).
Proof. cbn [TryWriteByte record_writer]. rewrite replay_app. cbn. apply write_byte. Qed.

Definition image {A} (w : S) (m : outcome lzss_error (A * calls)) : outcome lzss_error (A * S) := '(a, l) ← m; Ok (a, replay_calls w l).

Ltac free_tac := repeat (first [rewrite writeTo_free | rewrite byte_free | progress cbn [mbind outcome_bind image fst snd] | case_match; simplify_eq]); try done.

Lemma write_run_free (w : S) l i n : write_run d level idx dictLen (replay_calls w l) i n = image w (write_run d level idx dictLen l i n).
Proof. unfold write_run, write_backref, image. destruct (at_ d i) as [b| |]; [|done..]. cbn [mbind outcome_bind]. destruct (if 0 <? i then _ else _) as [[]| |]; free_tac. Qed.

Lemma write_lazy_free (w : S) l i b s : write_lazy d level dictIndex inputIndex dictLen (replay_calls w l) i b s = image w (write_lazy d level dictIndex inputIndex dictLen l i b s).
Proof.
  unfold write_lazy, write_backref, write_symbol, image. destruct (i + 1 <? size d); [|free_tac]. destruct (fillBackrefs _ _ _ _ _ (i + 1) _) as [bs| |]; [|done..]. cbn [mbind outcome_bind].
  destruct (at_ d (i + 1)) as [next| |]; [|done..]. cbn [mbind outcome_bind]. destruct (any_found bs).
  - destruct (bestBackref bs) as [nb ns]. destruct (s <? ns); [|free_tac]. destruct (at_ d i) as [x| |]; [|done..]. cbn [mbind outcome_bind]. destruct (canEncodeSymbol next && (i + 1 + 1 <? size d)); [|free_tac].
    destruct (fillBackrefs _ _ _ _ _ (i + 1 + 1) _) as [bs'| |]; [|done..]. cbn [mbind outcome_bind]. destruct (bestBackref bs') as [nb' ns']. destruct (any_found bs' && (ns <? ns')); free_tac.
  - destruct ((i + 2 <? size d) && canEncodeSymbol next); [|free_tac]. destruct (fillBackrefs _ _ _ _ _ (i + 2) _) as [bs'| |]; [|done..]. cbn [mbind outcome_bind].
    destruct (bestBackref bs') as [nb' ns']. destruct (any_found bs' && (s <? ns')); [|free_tac]. destruct (at_ d i) as [x| |]; [|done..]. cbn [mbind outcome_bind]. free_tac.
Qed.

Lemma write_step_free (w : S) l i : step_of S (replay_calls w l) i = image w (step_of calls l i).
Proof.
  unfold write_step. destruct (at_ d i) as [b| |]; [|done..]. cbn [mbind outcome_bind]. destruct (minConstantingBytes <=? _); [apply write_run_free|]. destruct (negb (canEncodeSymbol b)).
  - destruct (fillBackrefs _ _ _ _ _ i 1) as [bs| |]; [|done..]. cbn [mbind outcome_bind]. unfold require. destruct (any_found bs); [|done]. unfold write_backref, image. cbn [mbind outcome_bind]. by rewrite writeTo_free.
  - destruct (fillBackrefs _ _ _ _ _ i (-1)) as [bs| |]; [|done..]. cbn [mbind outcome_bind]. destruct (any_found bs); cbn [negb]; [|unfold image; cbn [mbind outcome_bind]; by rewrite byte_free].
    destruct (bestBackref bs) as [nb ns]. apply write_lazy_free.
Qed.

Lemma write_loop_free fuel (w : S) l i : loop_of S fuel (replay_calls w l) i = (l' ← loop_of calls fuel l i; Ok (replay_calls w l')).
Proof.
  revert l i. induction fuel as [|fuel IH]; intros l i; cbn [write_loop]; destruct (i <? size d); try done. rewrite write_step_free. unfold image.
  destruct (step_of calls l i) as [[i' l']| |]; [|done..]. cbn [mbind outcome_bind]. apply IH.
Qed.
End Free.

(** ** References *)

Section Step.
Context (d : list Z) (level : Z) (dict : list Z) (idx : gmap Z Z) (dictIndex inputIndex : Index).
Context (Hl : valid_level level) (Hdict : 1 <= size dict <= MaxDictSize) (Hbytes : Forall is_byte d).
Context (Hdi : ix_data dictIndex = dict) (Hds : is_suffix_array (ix_data dictIndex) (sa dictIndex)).
Context (Hii : ix_data inputIndex = d) (His : is_suffix_array (ix_data inputIndex) (sa inputIndex)).
Context (Hidx : forall b, is_byte b -> canEncodeSymbol b = false -> exists p, idx !! b = Some (Z.of_nat p) /\ dict !! p = Some b).

Abbreviation tShort := (shortBackRefType level (size dict)).
Abbreviation tLong := (longBackRefType level (size dict)).
Abbreviation tDict := (dictBackRefType level (size dict)).
Abbreviation emitted := (emits level dict d).

(** What [findBackRef] returns: nothing, or a place in the range with the bytes at [i]. *)
Definition match_at (ix : Index) (rs re : Z) (i a len : Z) : Prop :=
  (a = -1 /\ len = -1) \/ (1 <= len <= 256 /\ i + len <= size d /\ found ix (prefix_of (drop (Z.to_nat i) d) len) rs re a).

Lemma findBackRef_ok t ix i minLen :
  type_ok t -> is_suffix_array (ix_data ix) (sa ix) -> 0 <= i < size d -> minLen = -1 \/ 1 <= minLen ->
  let '(rs, re) := if dictOnly t then (0, size dict) else (Z.max 0 (i - maxAddress t), i) in
  exists a len, findBackRef d i t minLen ix (size dict) = Ok (a, len) /\ match_at ix rs re i a len /\
    (minLen = 1 -> len = -1 -> forall p, ~ found ix (prefix_of (drop (Z.to_nat i) d) 1) rs re p).
Proof.
  intros [_ _ Hb _ HL] Hsa Hi Hm. unfold findBackRef. set (m := if minLen =? -1 then nbBytesBackRef t else minLen). assert (1 <= m) as Hm1 by (subst m; destruct (Z.eqb_spec minLen (-1)); lia).
  assert (minLen = 1 -> m = 1) as Hm2 by (intros ->; done). rewrite HL. set (M := if size d <? i + 256 then size d - i else 256). assert (1 <= M <= 256 /\ i + M <= size d) as [HM1 HM2] by (subst M; destruct (Z.ltb_spec (size d) (i + 256)); lia).
  destruct (if dictOnly t then (0, size dict) else (Z.max 0 (i - maxAddress t), i)) as [rs re] eqn:Er.
  destruct (Z.ltb_spec (size d) (i + m)); [exists (-1), (-1); split; [done|]; split; [by left|]; lia|]. destruct (Z.ltb_spec M m); [exists (-1), (-1); split; [done|]; split; [by left|]; lia|].
  rewrite slice_in by lia. cbn [mbind outcome_bind]. replace (i + M - i) with M by lia. set (s := prefix_of (drop (Z.to_nat i) d) M). assert (size s = M) as Es by (subst s; rewrite length_take, length_drop; lia).
  destruct (LookupLongest_ok (E := lzss_error) ix Hsa s m M rs re ltac:(lia) ltac:(lia)) as (r & E1 & Hr).
  assert ((if dictOnly t then LookupLongest (E := lzss_error) ix s m M 0 (size dict) else LookupLongest ix s m M (Z.max 0 (i - maxAddress t)) i) = Ok r) as -> by (destruct (dictOnly t); injection Er as <- <-; exact E1).
  cbn [mbind outcome_bind]. assert (forall n, n <= M -> prefix_of s n = prefix_of (drop (Z.to_nat i) d) n) as Hpre by (intros n Hn; unfold s; rewrite take_take; f_equal; lia).
  destruct r as [[a len]|]; cbn [default].
  - destruct Hr as (Hle & Hf & HleM & _). exists a, len. split; [done|]. rewrite Hpre in Hf by lia. split; [right; split; [lia|]; split; [lia|done]|lia].
  - exists (-1), (-1). split; [done|]. split; [by left|]. intros Hm1' _ p. rewrite (Hm2 Hm1') in Hr. rewrite <- Hpre by lia. apply Hr.
Qed.

(** A reference that can be written at [i]. *)
Definition good (i : nat) (b : backref) : Prop :=
  exists n : nat, length_ b = Z.of_nat n /\ (1 <= n)%nat /\ emitted i (call_bits (writeTo b [] (Z.of_nat i))) (i + n) /\ Forall (fun c => 0 <= c.2 <= 64) (writeTo b [] (Z.of_nat i)).

Lemma call_bits_app l k : call_bits (l ++ k) = call_bits l ++ call_bits k.
Proof. apply bind_app. Qed.

Lemma writeTo_bits t len a i :
  type_ok t -> 1 <= len <= 256 -> 0 <= (if dictOnly t then a else i - a - 1) < 2 ^ 64 ->
  call_bits (writeTo (mkBackref t len a) [] i) = ref_bits t (len - 1) (if dictOnly t then a else i - a - 1) /\ Forall (fun c => 0 <= c.2 <= 64) (writeTo (mkBackref t len a) [] i).
Proof.
  intros [Ha HL _ _ _] Hlen Haddr. unfold writeTo. cbn [bType length_ address TryWriteBits TryWriteByte record_writer app]. split; [|repeat constructor; cbn; lia].
  unfold call_bits, ref_bits. cbn [mbind list_bind fst snd]. rewrite app_nil_r. rewrite !(uwrap_small 64) by (unfold is_u; lia). done.
Qed.

Lemma found_text ix s rs re a : found ix s rs re a -> 0 <= a < size (ix_data ix) /\ rs <= a < re /\ take (length s) (drop (Z.to_nat a) (ix_data ix)) = s.
Proof. intros (H1 & H2 & H3). by apply HasPrefix_take in H3. Qed.

Lemma good_window t i a len :
  t = tShort \/ t = tLong -> (i < length d)%nat -> match_at inputIndex (Z.max 0 (Z.of_nat i - maxAddress t)) (Z.of_nat i) (Z.of_nat i) a len -> len <> -1 -> good i (mkBackref t len a).
Proof.
  intros Ht Hi [[_ ->]|(Hlen & Hlend & Hf)] Hne; [done|]. clear Hne. apply found_text in Hf as (Ha & Hr & Htext). rewrite Hii in *. rewrite Nat2Z.id in Htext.
  destruct (types_ok level (size dict) Hl Hdict) as (TS & TL & _ & _). assert (type_ok t) as Tt by by destruct Ht as [->| ->]. assert (dictOnly t = false) as Hdo by by destruct Ht as [->| ->].
  pose proof (ty_maxAddress t Tt) as HM. assert (2 ^ NbBitsAddress t <= 2 ^ 40) by (apply Z.pow_le_mono_r; [lia|]; apply (ty_address t Tt)). exists (Z.to_nat len). split; [cbn; lia|]. split; [lia|]. destruct (writeTo_bits t len a (Z.of_nat i) Tt) as [Hb Hc]; [lia|rewrite Hdo; lia|]. split; [|done].
  rewrite Hb, Hdo. replace (Z.of_nat i - a - 1) with (Z.of_nat (i - Z.to_nat a) - 1) by lia. replace (len - 1) with (Z.of_nat (Z.to_nat len) - 1) by lia. rewrite <- (app_nil_r (ref_bits _ _ _)).
  eapply emits_backref; [done|lia|lia|lia|lia| |constructor]. intros k Hk.
  assert (length (prefix_of (drop i d) len) = Z.to_nat len) as El by (rewrite length_take, length_drop; lia). rewrite El in Htext.
  apply (f_equal (fun l => l !! k)) in Htext. rewrite !lookup_take_lt, !lookup_drop in Htext by lia. done.
Qed.

Lemma good_dict i a len : (i < length d)%nat -> match_at dictIndex 0 (size dict) (Z.of_nat i) a len -> len <> -1 -> good i (mkBackref tDict len a).
Proof.
  intros Hi [[_ ->]|(Hlen & Hlend & Hf)] Hne; [done|]. clear Hne. apply found_text in Hf as (Ha & Hr & Htext). rewrite Hdi in *. rewrite Nat2Z.id in Htext.
  destruct (types_ok level (size dict) Hl Hdict) as (_ & _ & TD & HD). exists (Z.to_nat len). split; [cbn; lia|]. split; [lia|]. unfold MaxDictSize in Hdict.
  destruct (writeTo_bits tDict len a (Z.of_nat i) TD) as [Hb Hc]; [lia|change (dictOnly tDict) with true; cbn match; lia|]. split; [|done]. change (dictOnly tDict) with true in Hb. cbn match in Hb. rewrite Hb.
  assert (length (prefix_of (drop i d) len) = Z.to_nat len) as El by (rewrite length_take, length_drop; lia). rewrite El in Htext.
  replace a with (Z.of_nat (Z.to_nat a)) at 1 by lia. replace (len - 1) with (Z.of_nat (Z.to_nat len) - 1) by lia. rewrite <- (app_nil_r (ref_bits _ _ _)).
  eapply emits_dictref; [|lia|lia|done|constructor]. apply (f_equal length) in Htext. rewrite El, length_take, length_drop in Htext. lia.
Qed.

Definition none_or_good (i : nat) (b : backref) : Prop := length_ b = -1 \/ good i b.

Abbreviation fill := (fillBackrefs d level dictIndex inputIndex (size dict)).

Lemma fillBackrefs_ok i minLen :
  (i < length d)%nat -> minLen = -1 \/ 1 <= minLen ->
  exists bD bS bL, fill (Z.of_nat i) minLen = Ok (bD, bS, bL) /\ none_or_good i bD /\ none_or_good i bS /\ none_or_good i bL /\
    (minLen = 1 -> length_ bD = -1 -> forall p, ~ found dictIndex (prefix_of (drop i d) 1) 0 (size dict) p).
Proof.
  intros Hi Hm. destruct (types_ok level (size dict) Hl Hdict) as (TS & TL & TD & _). unfold fillBackrefs.
  destruct (findBackRef_ok tDict dictIndex (Z.of_nat i) minLen TD Hds ltac:(lia) Hm) as (aD & lD & -> & HD & HDn).
  destruct (findBackRef_ok tShort inputIndex (Z.of_nat i) minLen TS His ltac:(lia) Hm) as (aS & lS & -> & HS & _).
  destruct (findBackRef_ok tLong inputIndex (Z.of_nat i) minLen TL His ltac:(lia) Hm) as (aL & lL & -> & HL & _).
  cbn [mbind outcome_bind]. do 3 eexists. split; [done|]. unfold none_or_good. cbn [length_]. split; [|split; [|split]].
  - destruct (Z.eq_dec lD (-1)); [by left|right; by apply good_dict].
  - destruct (Z.eq_dec lS (-1)); [by left|right; apply good_window; auto].
  - destruct (Z.eq_dec lL (-1)); [by left|right; apply good_window; auto].
  - rewrite Nat2Z.id in HDn. exact HDn.
Qed.

Lemma savings_good i b : good i b -> length_ b <> -1 /\ - 2 ^ 63 < savings b \/ ~ is_byte (NbBitsBackRef (bType b)).
Proof.
  intros (n & Hn & Hn1 & _). destruct (decide (is_byte (NbBitsBackRef (bType b)))) as [Hb|]; [left|by right]. split; [lia|]. unfold savings. replace (length_ b =? -1) with false by lia. unfold is_u in Hb. lia.
Qed.

Lemma bestBackref_ok i bs :
  let '(bD, bS, bL) := bs in
  none_or_good i bD -> none_or_good i bS -> none_or_good i bL -> is_byte (NbBitsBackRef (bType bD)) -> is_byte (NbBitsBackRef (bType bS)) -> any_found bs = true -> good i (bestBackref bs).1.
Proof.
  destruct bs as [[bD bS] bL]. intros HD HS HL TD TS Hany. unfold bestBackref, any_found in *.
  assert (length_ bL = -1 -> savings bL = - 2 ^ 63) as EL by (intros Hm; unfold savings; by rewrite Hm).
  assert (length_ bS = -1 -> savings bS = - 2 ^ 63) as ES by (intros Hm; unfold savings; by rewrite Hm).
  destruct (Z.eqb_spec (length_ bD) (-1)) as [ED|ED]; destruct (Z.eqb_spec (length_ bS) (-1)) as [ESm|ESm]; destruct (Z.eqb_spec (length_ bL) (-1)) as [ELm|ELm]; try discriminate; cbn [negb andb];
    try rewrite (EL ELm); try rewrite (ES ESm);
    repeat match goal with
    | H : none_or_good i ?b, N : length_ ?b <> -1 |- _ => destruct H as [H|H]; [contradiction|]
    end;
    repeat match goal with
    | H : good i ?b, T : is_byte (NbBitsBackRef (bType ?b)) |- _ => let G := fresh "G" in destruct (savings_good i b H) as [[_ G]|G]; [clear T|contradiction]
    end; repeat case_match; cbn [fst]; try done; lia.
Qed.

Lemma fill_types i minLen bD bS bL : fill i minLen = Ok (bD, bS, bL) -> bType bD = tDict /\ bType bS = tShort /\ bType bL = tLong.
Proof.
  unfold fillBackrefs. destruct (findBackRef d i tDict minLen dictIndex (size dict)) as [[]| |]; cbn [mbind outcome_bind]; [|discriminate..].
  destruct (findBackRef d i tShort minLen inputIndex (size dict)) as [[]| |]; cbn [mbind outcome_bind]; [|discriminate..].
  destruct (findBackRef d i tLong minLen inputIndex (size dict)) as [[]| |]; cbn [mbind outcome_bind]; [|discriminate..]. by intros [= <- <- <-].
Qed.

(** All that the loop needs of [fillBackrefs]. *)
Lemma fill_good i minLen :
  (i < length d)%nat -> minLen = -1 \/ 1 <= minLen ->
  exists bs, fill (Z.of_nat i) minLen = Ok bs /\ (any_found bs = true -> good i (bestBackref bs).1) /\
    (minLen = 1 -> (exists p, found dictIndex (prefix_of (drop i d) 1) 0 (size dict) p) -> any_found bs = true).
Proof.
  intros Hi Hm. destruct (fillBackrefs_ok i minLen Hi Hm) as (bD & bS & bL & E & HD & HS & HL & Hn). exists (bD, bS, bL). split; [done|].
  assert (is_byte (NbBitsBackRef tDict) /\ is_byte (NbBitsBackRef tShort)) as [TD TS] by (split; apply uwrap_range; lia). apply fill_types in E as (ED & ES & _). split.
  - intros Hany. apply (bestBackref_ok i (bD, bS, bL)); try done; [by rewrite ED|by rewrite ES].
  - intros Hm1 [p Hp]. unfold any_found. destruct (Z.eqb_spec (length_ bD) (-1)) as [E1|]; [|done]. by destruct (Hn Hm1 E1 p).
Qed.

(** ** An iteration *)

(** [r] goes from [i] to a later position, with the bits for what is in between. *)
Definition advances (i : nat) (r : outcome lzss_error (Z * calls)) : Prop :=
  exists i' l, r = Ok (Z.of_nat i', l) /\ (i < i')%nat /\ emitted i (call_bits l) i' /\ Forall (fun c => 0 <= c.2 <= 64) l.

Lemma writeTo_app b w i : writeTo b w i = w ++ writeTo b ([] : calls) i.
Proof. unfold writeTo. cbn [TryWriteBits TryWriteByte record_writer app]. by rewrite <- !app_assoc. Qed.

Definition written (i : nat) (w : calls) (j : nat) : Prop := (i <= j)%nat /\ emitted i (call_bits w) j /\ Forall (fun c => 0 <= c.2 <= 64) w.

Lemma written_nil i : written i [] i.
Proof. split; [lia|]. split; [apply emits_nil|constructor]. Qed.

Lemma written_backref i w j b n : written i w j -> good j b -> length_ b = Z.of_nat n -> written i (writeTo b w (Z.of_nat j)) (j + n).
Proof.
  intros (Hij & He & Hw) (n' & Hn' & Hn1 & Hb & Hc) Hn. assert (n' = n) as -> by lia. split; [lia|]. rewrite writeTo_app. split; [rewrite call_bits_app; by eapply emits_trans|by apply Forall_app].
Qed.

Lemma advances_backref i w j b : written i w j -> good j b -> advances i (Ok (write_backref b w (Z.of_nat j))).
Proof.
  intros Hw Hg. destruct Hg as (n & Hn & Hn1 & Hg). destruct (written_backref i w j b n Hw ltac:(by exists n) Hn) as (Hij & He & Hc). destruct Hw as (Hw & _).
  exists (j + n)%nat, (writeTo b w (Z.of_nat j)). unfold write_backref. rewrite Hn. split; [f_equal; f_equal; lia|]. split; [lia|done].
Qed.

Lemma written_symbol i w j b : written i w j -> d !! j = Some b -> canEncodeSymbol b = true -> written i (TryWriteByte w b) (S j).
Proof.
  intros (Hij & He & Hw) Hb Hc. split; [lia|]. cbn [TryWriteByte record_writer]. split.
  - rewrite call_bits_app. eapply emits_trans; [done|]. unfold call_bits. cbn [mbind list_bind fst snd]. eapply emits_symbol; [done| |done|apply emits_nil]. by eapply Forall_lookup_1.
  - apply Forall_app. split; [done|]. repeat constructor; cbn; lia.
Qed.

Lemma byte_at i : (i < length d)%nat -> exists b, at_ (E := lzss_error) d (Z.of_nat i) = Ok b /\ d !! i = Some b /\ is_byte b.
Proof.
  intros Hi. destruct (lookup_lt_is_Some_2 d i Hi) as [b Hb]. exists b. split; [by apply at_nat|]. split; [done|]. by eapply Forall_lookup_1.
Qed.

Lemma reserved_found i b :
  d !! i = Some b -> is_byte b -> canEncodeSymbol b = false -> found dictIndex (prefix_of (drop i d) 1) 0 (size dict) (default 0 (idx !! b)).
Proof.
  intros Hb Hbyte Hc. destruct (Hidx b Hbyte Hc) as (p & -> & Hp). cbn [from_option]. unfold id. pose proof (lookup_lt_Some _ _ _ Hp). unfold found. rewrite Hdi. split; [lia|]. split; [lia|]. rewrite Nat2Z.id.
  rewrite (drop_S dict b p Hp), (drop_S d b i Hb). change (Z.to_nat 1) with 1%nat. cbn [take HasPrefix]. rewrite Z.eqb_refl. by destruct (drop (S p) dict).
Qed.

Lemma reserved_good i b : d !! i = Some b -> is_byte b -> canEncodeSymbol b = false -> good i (mkBackref tDict 1 (default 0 (idx !! b))).
Proof.
  intros Hb Hbyte Hc. pose proof (lookup_lt_Some _ _ _ Hb). apply good_dict; [done| |done]. right. split; [lia|]. split; [lia|]. rewrite Nat2Z.id. by apply reserved_found.
Qed.

Lemma write_lazy_ok i b0 b s :
  (i < length d)%nat -> d !! i = Some b0 -> canEncodeSymbol b0 = true -> good i b -> advances i (write_lazy d level dictIndex inputIndex (size dict) [] (Z.of_nat i) b s).
Proof.
  intros Hi Hb0 Hc0 Hgood. pose proof (advances_backref i [] i b (written_nil i) Hgood) as Hhere. destruct Hgood as (n & Hn & Hn1 & _). unfold write_lazy.
  destruct (Z.ltb_spec (Z.of_nat i + 1) (size d)) as [Hi1|]; [|done]. replace (Z.of_nat i + 1) with (Z.of_nat (S i)) by lia.
  destruct (fill_good (S i) (length_ b + 1) ltac:(lia) ltac:(lia)) as (bs & -> & Hbs & _). cbn [mbind outcome_bind]. destruct (byte_at (S i) ltac:(lia)) as (next & -> & Hnext & _). cbn [mbind outcome_bind].
  pose proof (written_symbol i [] i b0 (written_nil i) Hb0 Hc0) as Hw1. unfold write_symbol. rewrite (at_nat d i b0 Hb0). destruct (any_found bs) eqn:Eany.
  - specialize (Hbs eq_refl). destruct (bestBackref bs) as [nb ns]. cbn [fst] in Hbs. destruct (s <? ns); [|done]. cbn [mbind outcome_bind].
    pose proof (advances_backref i _ (S i) nb Hw1 Hbs) as Hnb. destruct (canEncodeSymbol next) eqn:Ec; cbn [andb]; [|done]. destruct (Z.ltb_spec (Z.of_nat (S i) + 1) (size d)) as [Hi2|]; [|done].
    replace (Z.of_nat (S i) + 1) with (Z.of_nat (S (S i))) by lia. destruct Hbs as (n' & Hn' & Hn1' & _). destruct (fill_good (S (S i)) (length_ nb + 1) ltac:(lia) ltac:(lia)) as (bs' & -> & Hbs' & _). cbn [mbind outcome_bind].
    destruct (bestBackref bs') as [nb' ns']. cbn [fst] in Hbs'. destruct (any_found bs'); cbn [andb]; [|done]. destruct (ns <? ns'); [|done]. rewrite (at_nat d (S i) next Hnext). cbn [mbind outcome_bind].
    apply advances_backref; [by apply written_symbol|by apply Hbs'].
  - destruct (canEncodeSymbol next) eqn:Ec; [|by rewrite andb_false_r]. rewrite andb_true_r. destruct (Z.ltb_spec (Z.of_nat i + 2) (size d)) as [Hi2|]; [|done]. replace (Z.of_nat i + 2) with (Z.of_nat (S (S i))) by lia.
    destruct (fill_good (S (S i)) (length_ b + 2) ltac:(lia) ltac:(lia)) as (bs' & -> & Hbs' & _). cbn [mbind outcome_bind]. destruct (bestBackref bs') as [nb' ns']. cbn [fst] in Hbs'.
    destruct (any_found bs'); cbn [andb]; [|done]. destruct (s <? ns'); [|done]. cbn [mbind outcome_bind]. rewrite (at_nat d (S i) next Hnext). cbn [mbind outcome_bind].
    apply advances_backref; [by apply written_symbol|by apply Hbs'].
Qed.

Lemma run_count_ok b l n : exists c : nat, run_count b l n = Z.of_nat c /\ (c <= n)%nat /\ (c <= length l)%nat /\ forall k, (k < c)%nat -> l !! k = Some b.
Proof.
  revert l. induction n as [|n IH]; intros l; [exists 0%nat; split; [by destruct l|]; split; [lia|]; split; [lia|]; intros; lia|]. destruct l as [|x l]; [exists 0%nat; cbn; repeat split; intros; lia|]. cbn [run_count].
  destruct (Z.eqb_spec b x) as [<-|]; [|exists 0%nat; split; [by destruct l|]; split; [lia|]; split; [lia|]; intros; lia]. destruct (IH l) as (c & -> & Hc & Hl' & Hk). exists (S c). cbn [length]. split; [lia|]. split; [lia|]. split; [lia|].
  intros [|k] Hkc; [done|]. apply Hk. lia.
Qed.

Lemma good_run j n b : d !! j = Some b -> (1 <= n <= 256)%nat -> (S j + n <= length d)%nat -> (forall k, (k < n)%nat -> d !! (S j + k)%nat = Some b) -> good (S j) (mkBackref tShort (Z.of_nat n) (Z.of_nat (S j) - 1)).
Proof.
  intros Hj Hn Hlen Hk. apply good_window; [by left|lia| |cbn; lia]. right. split; [lia|]. split; [lia|]. destruct (types_ok level (size dict) Hl Hdict) as (TS & _ & _ & _).
  pose proof (ty_maxAddress _ TS) as HM. assert (2 ^ 1 <= 2 ^ NbBitsAddress tShort) by (apply Z.pow_le_mono_r; [lia|]; apply (ty_address _ TS)).
  unfold found. rewrite Hii. split; [lia|]. split; [lia|]. apply HasPrefix_take. rewrite !Nat2Z.id. replace (Z.to_nat (Z.of_nat (S j) - 1)) with j by lia. rewrite length_take, length_drop, Nat.min_l by lia.
  apply list_eq. intros k. destruct (Nat.lt_ge_cases k n) as [Hkn|]; [|by rewrite !lookup_take_ge by lia]. rewrite !lookup_take_lt, !lookup_drop by lia. rewrite (Hk k Hkn).
  destruct k as [|k]; [by rewrite Nat.add_0_r|]. rewrite Nat.add_succ_r. apply (Hk k). lia.
Qed.

Lemma write_run_ok i b n :
  (160 <= n <= 256)%nat -> (i + n <= length d)%nat -> (forall k, (k < n)%nat -> d !! (i + k)%nat = Some b) -> is_byte b ->
  advances i (write_run d level idx (size dict) [] (Z.of_nat i) (Z.of_nat n)).
Proof.
  intros Hn Hlen Hk Hbyte. assert (d !! i = Some b) as Hb by (rewrite <- (Nat.add_0_r i); apply Hk; lia). unfold write_run. rewrite (at_nat d i b Hb). cbn [mbind outcome_bind].
  assert (exists prev : bool, (if 0 <? Z.of_nat i then p ← at_ (E := lzss_error) d (Z.of_nat i - 1); Ok (p =? b) else Ok false) = Ok prev /\ (prev = true -> exists j, i = S j /\ d !! j = Some b)) as (prev & -> & Hprev).
  { destruct i as [|j]; [exists false; by split|]. replace (0 <? Z.of_nat (S j)) with true by lia. replace (Z.of_nat (S j) - 1) with (Z.of_nat j) by lia. destruct (byte_at j ltac:(lia)) as (p & -> & Hp & _).
    exists (p =? b). split; [done|]. intros Heq%Z.eqb_eq. subst. by exists j. }
  cbn [mbind outcome_bind]. destruct prev; cbn [negb].
  - destruct Hprev as (j & -> & Hj); [done|]. apply advances_backref; [apply written_nil|]. apply (good_run j n b); try done; lia.
  - replace (Z.of_nat i + 1) with (Z.of_nat (S i)) by lia. replace (Z.of_nat n - 1) with (Z.of_nat (n - 1)) by lia. apply advances_backref.
    + destruct (canEncodeSymbol b) eqn:Ec; cbn [negb]; [by apply written_symbol; [apply written_nil|..]|].
      rewrite <- (Nat.add_1_r i). apply written_backref; [apply written_nil|by apply reserved_good|done].
    + apply (good_run i (n - 1) b); [done|lia|lia|]. intros k Hkn. replace (S i + k)%nat with (i + S k)%nat by lia. apply Hk. lia.
Qed.

Lemma write_step_ok i : (i < length d)%nat -> advances i (write_step d level idx dictIndex inputIndex (size dict) [] (Z.of_nat i)).
Proof.
  intros Hi. destruct (byte_at i Hi) as (b & Eb & Hb & Hbyte). unfold write_step. rewrite Eb. cbn [mbind outcome_bind]. rewrite Nat2Z.id.
  destruct (types_ok level (size dict) Hl Hdict) as (TS & _ & _ & _). rewrite (ty_maxLength _ TS). change (Z.to_nat 256) with 256%nat. destruct (run_count_ok b (drop i d) 256) as (n & -> & Hn & Hnl & Hk). rewrite length_drop in Hnl. unfold minConstantingBytes.
  destruct (Z.leb_spec 160 (Z.of_nat n)); [apply (write_run_ok i b); [lia|lia| |done]; intros k Hkn; rewrite <- lookup_drop; by apply Hk|]. destruct (canEncodeSymbol b) eqn:Ec; cbn [negb].
  - destruct (fill_good i (-1) Hi ltac:(lia)) as (bs & -> & Hbs & _). cbn [mbind outcome_bind]. destruct (any_found bs) eqn:Eany; cbn [negb].
    + specialize (Hbs eq_refl). destruct (bestBackref bs) as [best s]. by apply (write_lazy_ok i b).
    + destruct (written_symbol i [] i b (written_nil i) Hb Ec) as (_ & He & Hw). exists (S i), (TryWriteByte [] b). split; [f_equal; f_equal; lia|]. split; [lia|done].
  - destruct (fill_good i 1 Hi ltac:(lia)) as (bs & -> & Hbs & Hany). cbn [mbind outcome_bind]. rewrite Hany; [|done|by eexists; eapply reserved_found]. cbn [require mbind outcome_bind].
    apply advances_backref; [apply written_nil|]. apply Hbs, Hany; [done|]. by eexists; eapply reserved_found.
Qed.

(** The loop writes the bits of all the text from [i] on. *)
Lemma write_loop_ok fuel i :
  (i <= length d)%nat -> (length d - i <= fuel)%nat ->
  exists l, write_loop d level idx dictIndex inputIndex (size dict) fuel ([] : calls) (Z.of_nat i) = Ok l /\ emitted i (call_bits l) (length d) /\ Forall (fun c => 0 <= c.2 <= 64) l.
Proof.
  revert i. induction fuel as [|fuel IH]; intros i Hi Hf; cbn [write_loop].
  { replace (Z.of_nat i <? size d) with false by lia. exists []. split; [done|]. replace (length d) with i by lia. split; [apply emits_nil|constructor]. }
  destruct (Z.ltb_spec (Z.of_nat i) (size d)). 2: { exists []. split; [done|]. replace (length d) with i by lia. split; [apply emits_nil|constructor]. }
  destruct (write_step_ok i ltac:(lia)) as (i' & l & -> & Hi' & He & Hw). cbn [mbind outcome_bind]. pose proof (emits_bounds _ _ _ _ _ _ He Hi) as Hb.
  destruct (IH i' ltac:(lia) ltac:(lia)) as (l' & El & He' & Hw'). exists (l ++ l'). pose proof (write_loop_free d level idx dictIndex inputIndex (size dict) fuel l [] (Z.of_nat i')) as Hfree. rewrite replay_record, app_nil_r in Hfree. rewrite Hfree, El. cbn [mbind outcome_bind].
  split; [|split; [rewrite call_bits_app; by eapply emits_trans|by apply Forall_app]]. by rewrite replay_record.
Qed.
End Step.
