(* ===== verification/LzssState.v ===== *)
(** The compressor as a state machine: whatever the sequence of writes, reverts, bypasses
    and resets, its bytes decompress to the text that was written. *)
From S2P Require Import Prelude BitIo GoState SuffixArray Lzss LzssTheorems LzssWrite.

Arguments InitBackRefTypes : simpl never.

(** ** The dictionary *)

Definition reserved (b : Z) : Prop := b = SymbolDict \/ b = SymbolShort \/ b = SymbolLong.

Lemma canEncode_reserved b : canEncodeSymbol b = false <-> reserved b.
Proof. unfold canEncodeSymbol, reserved. lia. Qed.

(** Which symbols are in a set of found ones. *)
Definition symbol_bit (b : Z) : Z := if b =? SymbolDict then 0 else if b =? SymbolShort then 1 else 2.

Lemma found_symbols_range f b : 0 <= f < 8 -> 0 <= found_symbols f b < 8.
Proof.
  intros Hf. assert (forallb (fun f => forallb (fun m => (0 <=? Z.lor f m) && (Z.lor f m <? 8)) [1; 2; 4]) (seqZ 0 8) = true) as Hall by (vm_compute; done).
  rewrite forallb_forall in Hall. specialize (Hall f). rewrite <- list_elem_of_In, elem_of_seqZ in Hall. specialize (Hall ltac:(lia)). cbn [forallb] in Hall. unfold found_symbols. repeat case_match; lia.
Qed.

Lemma found_symbols_bit f b s : 0 <= f < 8 -> reserved s -> Z.testbit (found_symbols f b) (symbol_bit s) = Z.testbit f (symbol_bit s) || (b =? s).
Proof.
  intros Hf Hs. unfold found_symbols, SymbolDict, SymbolShort, SymbolLong. destruct (Z.eqb_spec b 255) as [->|]; [|destruct (Z.eqb_spec b 254) as [->|]; [|destruct (Z.eqb_spec b 253) as [->|]]];
    destruct Hs as [->|[->| ->]]; unfold symbol_bit, SymbolDict, SymbolShort, SymbolLong in *; cbn [Z.eqb Pos.eqb]; rewrite ?Z.lor_spec, ?orb_false_r; try done.
  all: replace (b =? _) with false by lia; by rewrite orb_false_r.
Qed.

Lemma all_found_in f dict s : 0 <= f < 8 -> all_found f dict = true -> reserved s -> Z.testbit f (symbol_bit s) = true \/ s ∈ dict.
Proof.
  intros Hf. revert f Hf. induction dict as [|b dict IH]; intros f Hf; cbn [all_found]; [done|]. intros Ha Hs. pose proof (found_symbols_bit f b s Hf Hs) as Hbit.
  assert (Z.testbit (found_symbols f b) (symbol_bit s) = true \/ s ∈ dict) as [H1|H1].
  { apply orb_true_iff in Ha as [E7%Z.eqb_eq|Ha]; [left; rewrite E7; by destruct Hs as [->|[->| ->]]|]. apply (IH (found_symbols f b)); [by apply found_symbols_range|done|done]. }
  - rewrite Hbit in H1. apply orb_true_iff in H1 as [H1|H1%Z.eqb_eq]; [by left|right; subst; by left].
  - right. by right.
Qed.

Lemma all_found_app f l : 0 <= f < 7 -> all_found f (l ++ [SymbolDict; SymbolShort; SymbolLong]) = true.
Proof.
  revert f. induction l as [|b l IH]; intros f Hf; cbn [app all_found].
  - assert (forallb (fun f => all_found f [SymbolDict; SymbolShort; SymbolLong]) (seqZ 0 7) = true) as Hall by (vm_compute; done). rewrite forallb_forall in Hall. apply (Hall f). apply list_elem_of_In, elem_of_seqZ. lia.
  - pose proof (found_symbols_range f b ltac:(lia)). destruct (Z.eqb_spec (found_symbols f b) 7); [done|]. cbn [orb]. apply IH. lia.
Qed.

Lemma AugmentDict_reserved dict s : reserved s -> s ∈ AugmentDict dict.
Proof.
  intros Hs. unfold AugmentDict. destruct (all_found 0 dict) eqn:Ea.
  - destruct (all_found_in 0 dict s ltac:(lia) Ea Hs) as [H0|]; [by rewrite Z.bits_0 in H0|done].
  - apply elem_of_app. right. destruct Hs as [->|[->| ->]]; set_solver.
Qed.

Lemma AugmentDict_idem dict : AugmentDict (AugmentDict dict) = AugmentDict dict.
Proof. unfold AugmentDict at 2 3. destruct (all_found 0 dict) eqn:Ea; unfold AugmentDict; [by rewrite Ea|]. by rewrite all_found_app by lia. Qed.

Lemma reserved_indices_ok m i l dict :
  dict = take i dict ++ l -> length (take i dict) = i ->
  (forall b p, m !! b = Some p -> reserved b /\ exists q, p = Z.of_nat q /\ dict !! q = Some b) -> (forall b, reserved b -> b ∈ take i dict -> is_Some (m !! b)) ->
  forall b, reserved b -> b ∈ dict -> exists q, reserved_indices m (Z.of_nat i) l !! b = Some (Z.of_nat q) /\ dict !! q = Some b.
Proof.
  revert m i. induction l as [|x l IH]; intros m i Ed Ei Hm Hall b Hb Hin; cbn [reserved_indices].
  - rewrite app_nil_r in Ed. rewrite <- Ed in Hall. destruct (Hall b Hb Hin) as [p Hp]. destruct (Hm b p Hp) as (_ & q & -> & Hq). by exists q.
  - assert (dict !! i = Some x) as Hx by (rewrite Ed, lookup_app_r, Ei, Nat.sub_diag by lia; done).
    assert (dict = take (S i) dict ++ l) as Ed' by (rewrite (take_S_r _ _ _ Hx), <- app_assoc; done). assert (length (take (S i) dict) = S i) as Ei' by (apply lookup_lt_Some in Hx; rewrite length_take; lia).
    replace (Z.of_nat i + 1) with (Z.of_nat (S i)) by lia.
    destruct ((x =? SymbolDict) || (x =? SymbolShort) || (x =? SymbolLong)) eqn:Ex.
    + assert (reserved x) as Hres by (unfold reserved; lia). set (m' := <[x := Z.of_nat i]> m).
      assert (forall b p, m' !! b = Some p -> reserved b /\ exists q, p = Z.of_nat q /\ dict !! q = Some b) as Hm'.
      { intros b0 p. unfold m'. destruct (decide (x = b0)) as [<-|]; [rewrite lookup_insert_eq; intros [= <-]; split; [done|by exists i]|rewrite lookup_insert_ne by done; apply Hm]. }
      case_bool_decide as Hsz; [|apply (IH m' (S i)); try done].
      * cut (is_Some (m' !! b)); [intros [p Hp]; destruct (Hm' b p Hp) as (_ & q & -> & Hq); by exists q|].
        assert (dom m' = {[SymbolDict; SymbolShort; SymbolLong]}) as Hdom.
        { apply set_subseteq_size_eq; [|rewrite size_dom, Hsz; by vm_compute]. intros k [p Hp]%elem_of_dom. destruct (Hm' k p Hp) as [[->|[->| ->]] _]; set_solver. }
        apply elem_of_dom. rewrite Hdom. destruct Hb as [->|[->| ->]]; set_solver.
      * intros b0 Hb0. rewrite (take_S_r _ _ _ Hx). intros [H0|H0%list_elem_of_singleton]%elem_of_app; [|subst; exists (Z.of_nat i); apply lookup_insert_eq].
        destruct (decide (x = b0)) as [<-|]; [exists (Z.of_nat i); apply lookup_insert_eq|]. unfold m'. rewrite lookup_insert_ne by done. by apply Hall.
    + apply (IH m (S i)); try done. intros b0 Hb0. rewrite (take_S_r _ _ _ Hx). intros [H0|H0%list_elem_of_singleton]%elem_of_app; [by apply Hall|]. subst. exfalso. unfold reserved in Hb0. lia.
Qed.

Lemma reserved_index dict b : is_byte b -> canEncodeSymbol b = false -> exists p, reserved_indices ∅ 0 (AugmentDict dict) !! b = Some (Z.of_nat p) /\ AugmentDict dict !! p = Some b.
Proof.
  intros _ Hb. apply canEncode_reserved in Hb. apply (reserved_indices_ok ∅ 0 (AugmentDict dict)); try done; [|by apply AugmentDict_reserved].
  intros b0 Hb0 Hin. by apply elem_of_nil in Hin.
Qed.

(** ** The invariant *)

Section State.
Context {W R : Type} `{BitIoLaws W R} `{SuffixSort}.
Abbreviation compressor := (Compressor W).

(** The bytes [out] stand for [input]; the last [skipped] bits are padding. *)
Definition content (lv : Z) (dict out input : list Z) (skipped : Z) : Prop :=
  Forall is_byte out /\
  if lv =? NoCompression then skipped = 0 /\ out = header_bytes Version NoCompression ++ input
  else exists bs pad, bits_of_bytes out = bits_of_bytes (header_bytes Version lv) ++ bs ++ pad /\ size pad = skipped /\ (length pad < 8)%nat /\ emits lv dict input 0 bs (length input).

(** What does not change: the dictionary, and the two possible levels. *)
Record config_ok (c : compressor) : Prop := {
  ok_intended : intendedLevel c = NoCompression \/ valid_level (intendedLevel c);
  ok_level : level c = intendedLevel c \/ level c = NoCompression;
  ok_dict : AugmentDict (dictData c) = dictData c;
  ok_dict_size : size (dictData c) <= MaxDictSize;
  ok_index : intendedLevel c <> NoCompression -> dictIndex c = Some (mkIndex (dictData c) (text_32 (dictData c)));
  ok_reserved : dictReservedIdx c = reserved_indices ∅ 0 (dictData c)
}.

Record compressor_ok (c : compressor) : Prop := {
  ok_config : config_ok c;
  ok_bw : bw_bits (bw c) = [];
  ok_input : Forall is_byte (inBuf c) /\ size (inBuf c) <= MaxInputSize;
  ok_content : content (level c) (dictData c) (outBuf c) (inBuf c) (nbSkippedBits c)
}.

(** [Revert] leads back to the text [p]. *)
Definition revertible (c : compressor) (p : list Z) : Prop :=
  lastInLen c = size p /\ p `prefix_of` inBuf c /\
  (justBypassed c = true \/ 0 <= lastOutLen c <= size (outBuf c) /\ content (level c) (dictData c) (take (Z.to_nat (lastOutLen c)) (outBuf c)) p (lastNbSkippedBits c)).

Lemma dict_nonempty dict : AugmentDict dict = dict -> 1 <= size dict.
Proof.
  intros Hd. assert (SymbolDict ∈ dict) as Hin by (rewrite <- Hd; apply AugmentDict_reserved; by left). destruct dict; [by apply elem_of_nil in Hin|]. cbn. lia.
Qed.

Lemma header_is_bytes lv : is_byte lv -> Forall is_byte (header_bytes Version lv).
Proof. intros Hlv. unfold header_bytes. apply Forall_app. split; [apply le_bytes_bytes|by apply Forall_singleton]. Qed.

Lemma header_length v lv : length (header_bytes v lv) = 3%nat.
Proof. done. Qed.

Lemma level_byte lv : valid_level lv \/ lv = NoCompression -> is_byte lv.
Proof. intros [[->|[->|[->| ->]]]| ->]; done. Qed.

Lemma content_nonempty lv dict out input k : content lv dict out input k -> exists o b, out = o ++ [b] /\ is_byte b /\ Forall is_byte o.
Proof.
  intros [Hb Hc]. destruct (decide (out = [])) as [->|Hne].
  - exfalso. destruct (lv =? NoCompression); [by destruct Hc as [_ Hc]|]. destruct Hc as (bs & pad & Hbits & _). apply (f_equal length) in Hbits. rewrite !length_app, !length_bits_of_bytes, header_length in Hbits. cbn [length] in Hbits. lia.
  - destruct (exists_last Hne) as (o & b & ->). apply Forall_app in Hb as [Ho Hbb]. rewrite Forall_singleton in Hbb. exists o, b. split; [done|]. split; [exact Hbb|exact Ho].
Qed.

(** ** Writing *)

(** The bits of a buffer without its padding. *)
Lemma drop_padding o b k bs pad :
  0 <= k < 8 -> size pad = k -> bits_of_bytes (o ++ [b]) = bs ++ pad -> bits_of_bytes o ++ bits_be (Z.to_nat (8 - k)) (b ≫ k) = bs.
Proof.
  intros Hk Hpad Hbits. rewrite bits_of_bytes_app in Hbits. change (bits_of_bytes [b]) with (bits_be 8 b ++ []) in Hbits. rewrite app_nil_r in Hbits.
  pose proof (bits_be_app (Z.to_nat (8 - k)) (Z.to_nat k) b) as Hsplit. replace (Z.to_nat (8 - k) + Z.to_nat k)%nat with 8%nat in Hsplit by lia. rewrite Z2Nat.id in Hsplit by lia. rewrite Hsplit, app_assoc in Hbits.
  apply app_inj_2 in Hbits as [Hb _]; [done|]. rewrite length_bits_be. lia.
Qed.

Lemma bw_write_out (out : list Z) (w : W) v n :
  0 <= n <= 64 -> Forall is_byte out ->
  exists out' w', TryWriteBits (out, w) v n = (out', w') /\ Forall is_byte out' /\ (length (bw_bits w') < 8)%nat /\ bits_of_bytes out' ++ bw_bits w' = bits_of_bytes out ++ bw_bits w ++ bits_be (Z.to_nat n) v.
Proof.
  intros Hn Hout. destruct (bw_write_bits w v n Hn) as (H2 & H3 & H4). cbn [TryWriteBits bit_writer fst snd]. destruct (bw_write w v n) as [bs w']. cbn [fst snd] in *. exists (out ++ bs), w'.
  split; [done|]. split; [by apply Forall_app|]. split; [done|]. rewrite bits_of_bytes_app, <- app_assoc, H4. done.
Qed.

Lemma replay_bits l : Forall (fun c => 0 <= c.2 <= 64) l -> forall (out : list Z) (w : W), Forall is_byte out ->
  exists out' w', replay_calls (out, w) l = (out', w') /\ Forall is_byte out' /\ bits_of_bytes out' ++ bw_bits w' = (bits_of_bytes out ++ bw_bits w) ++ call_bits l.
Proof.
  induction 1 as [|[v n] l Hn _ IH]; intros out w Hout.
  - exists out, w. by rewrite app_nil_r.
  - destruct (bw_write_out out w v n Hn Hout) as (out1 & w1 & E1 & B1 & _ & Hb1). destruct (IH out1 w1 B1) as (out2 & w2 & E2 & B2 & Hb2). exists out2, w2.
    change (replay_calls (out, w) ((v, n) :: l)) with (replay_calls (TryWriteBits (out, w) v n) l). rewrite E1. split; [done|]. split; [done|].
    rewrite Hb2, Hb1. unfold call_bits. cbn [mbind list_bind fst snd]. by rewrite <- !app_assoc.
Qed.

(** [write] on a well-formed compressor. *)
Lemma lz_write_ok (c : compressor) (out : list Z) (w : W) i :
  config_ok c -> level c <> NoCompression -> Forall is_byte (inBuf c) -> (i <= length (inBuf c))%nat -> Forall is_byte out ->
  exists l, write c ([] : calls) (inBuf c) (Z.of_nat i) (mkIndex (inBuf c) (text_32 (inBuf c))) = Ok l /\
    write c (out, w) (inBuf c) (Z.of_nat i) (mkIndex (inBuf c) (text_32 (inBuf c))) = Ok (replay_calls (out, w) l) /\
    emits (level c) (dictData c) (inBuf c) i (call_bits l) (length (inBuf c)) /\ Forall (fun c => 0 <= c.2 <= 64) l.
Proof.
  intros Hok Hlv Hin Hi Hout. destruct (ok_level c Hok) as [El|]; [|done]. assert (valid_level (level c)) as Hvl by (rewrite El in *; by destruct (ok_intended c Hok)).
  pose proof (dict_nonempty _ (ok_dict c Hok)) as Hne. pose proof (ok_dict_size c Hok) as Hds. unfold write. rewrite (ok_index c Hok) by congruence. cbn [unwrap mbind outcome_bind]. rewrite (ok_reserved c Hok).
  destruct (write_loop_ok (inBuf c) (level c) (dictData c) (reserved_indices ∅ 0 (dictData c)) (mkIndex (dictData c) (text_32 (dictData c))) (mkIndex (inBuf c) (text_32 (inBuf c))) Hvl ltac:(lia) Hin eq_refl (text_32_sorted _) eq_refl (text_32_sorted _)) with (fuel := Z.to_nat (size (inBuf c) - Z.of_nat i)) (i := i) as (l & El' & He & Hc); [|done|lia|].
  { rewrite <- (ok_dict c Hok). apply reserved_index. }
  exists l. split; [done|]. split; [|done].
  pose proof (write_loop_free (inBuf c) (level c) (reserved_indices ∅ 0 (dictData c)) (mkIndex (dictData c) (text_32 (dictData c))) (mkIndex (inBuf c) (text_32 (inBuf c))) (size (dictData c)) (Z.to_nat (size (inBuf c) - Z.of_nat i)) (out, w) [] (Z.of_nat i)) as Hfree.
  cbn [replay_calls fold_left] in Hfree. rewrite Hfree, El'. done.
Qed.

(** The bits of [bytes] and of less than a byte. *)
Lemma whole_bytes out (bs : list bool) l : Forall is_byte out -> Forall is_byte l -> (length bs < 8)%nat -> bits_of_bytes out ++ bs = bits_of_bytes l -> bs = [] /\ out = l.
Proof.
  intros Ho Hl Hbs E. assert (length bs = 0)%nat as E0. { apply (f_equal length) in E. rewrite length_app, !length_bits_of_bytes in E. lia. }
  apply nil_length_inv in E0 as ->. rewrite app_nil_r in E. split; [done|]. by apply bits_of_bytes_inj.
Qed.

Definition same_config (c c' : compressor) : Prop := dictData c' = dictData c /\ intendedLevel c' = intendedLevel c.

(** The compressor after the last byte has been handed to the bit writer. *)
Lemma reopen c :
  compressor_ok c ->
  exists o b out w,
    outBuf c = o ++ [b] /\ Forall is_byte out /\ (length (bw_bits w) < 8)%nat /\ TryWriteBits (o, bw c) (b ≫ nbSkippedBits c) (8 - nbSkippedBits c) = (out, w) /\ 0 <= nbSkippedBits c < 8 /\
    if level c =? NoCompression then bw_bits w = [] /\ out = header_bytes Version NoCompression ++ inBuf c
    else exists bs, bits_of_bytes out ++ bw_bits w = bits_of_bytes (header_bytes Version (level c)) ++ bs /\ emits (level c) (dictData c) (inBuf c) 0 bs (length (inBuf c)) /\
      (8 * length (outBuf c) = length (bits_of_bytes (header_bytes Version (level c)) ++ bs) + Z.to_nat (nbSkippedBits c))%nat.
Proof.
  intros [_ Hbw _ Hc]. destruct (content_nonempty _ _ _ _ _ Hc) as (o & b & Eo & Hb & Ho). destruct Hc as [Hbytes Hc].
  assert (0 <= nbSkippedBits c < 8) as Hk by (destruct (level c =? NoCompression); [lia|]; destruct Hc as (bs & pad & _ & <- & Hp & _); lia).
  destruct (bw_write_out o (bw c) (b ≫ nbSkippedBits c) (8 - nbSkippedBits c) ltac:(lia) Ho) as (out & w & E & Bo & Hw & Hbits). rewrite Hbw in Hbits. cbn [app] in Hbits. exists o, b, out, w.
  split; [done|]. split; [done|]. split; [done|]. split; [done|]. split; [done|]. destruct (level c =? NoCompression).
  - destruct Hc as [Hk0 Hout]. rewrite Hout in Eo. rewrite (drop_padding o b (nbSkippedBits c) (bits_of_bytes (o ++ [b])) [] Hk ltac:(cbn; lia) ltac:(by rewrite app_nil_r)) in Hbits.
    rewrite Hout in Hbytes. rewrite <- Eo in Hbits. by apply whole_bytes in Hbits.
  - destruct Hc as (bs & pad & Hall & Hp & Hp8 & He). exists bs. rewrite app_assoc in Hall. rewrite Hbits. split; [|split; [done|]].
    + rewrite Eo in Hall. apply (drop_padding o b (nbSkippedBits c) _ pad Hk Hp Hall).
    + apply (f_equal length) in Hall. rewrite length_bits_of_bytes, length_app in Hall. lia.
Qed.

Lemma at_last {E A} (o : list A) b : at_ (E := E) (o ++ [b]) (size (o ++ [b]) - 1) = Ok b /\ truncate (E := E) (o ++ [b]) (size (o ++ [b]) - 1) = Ok o.
Proof.
  rewrite length_app. cbn [length]. split.
  - replace (Z.of_nat (length o + 1) - 1) with (size o) by lia. apply at_nat. by rewrite list_lookup_middle.
  - rewrite truncate_ok by (rewrite length_app; cbn; lia). rewrite take_app_length' by lia. done.
Qed.

(** The state in which [Write] starts to compress. *)
Definition opened (c : compressor) (d out : list Z) (w : W) : compressor :=
  set_in (inBuf c ++ d) (size (inBuf c)) (set_last (size (outBuf c)) (nbSkippedBits c) false (set_out out w (nbSkippedBits c) c)).

Lemma Write_opened c d o b out w :
  outBuf c = o ++ [b] -> TryWriteBits (o, bw c) (b ≫ nbSkippedBits c) (8 - nbSkippedBits c) = (out, w) -> size (inBuf c) + size d <= MaxInputSize ->
  Write d c =
    (let c' := opened c d out w in
     if level c =? NoCompression then (set_out (out ++ d) w (nbSkippedBits c) c', Ok tt) else
     match write c' (out, w) (inBuf c ++ d) (size (inBuf c)) (mkIndex (inBuf c ++ d) (text_32 (inBuf c ++ d))) with
     | Ok (out, w) => let '(bs, skipped, w) := bw_align w in (set_out (out ++ bs) w skipped c', Ok tt)
     | Err e => (c', Err e)
     | Panic => (c', Panic)
     end).
Proof.
  intros Eo Ew Hsz. unfold Write. unfold mbind, method_bind, get, call. rewrite Eo. destruct (at_last (E := lzss_error) o b) as [-> ->]. rewrite Ew. unfold modify, appendInput. unfold mbind, method_bind, get, call.
  cbn [inBuf set_last set_out]. replace (MaxInputSize <? size (inBuf c) + size d) with false by lia. unfold modify. cbn [level set_in set_last set_out inBuf outBuf bw nbSkippedBits lastInLen].
  destruct (level c =? NoCompression) eqn:El; [unfold opened; by rewrite Eo|]. unfold New, assert_. unfold MaxInputSize in Hsz. replace (maxData32 <? size (inBuf c ++ d)) with false by (unfold maxData32; rewrite length_app; lia). cbn [negb mbind outcome_bind].
  unfold opened. rewrite Eo. destruct (write _ _ _ _ _) as [[out' w']| |]; [|done|done]. by destruct (bw_align w') as [[bs k] w''].
Qed.

(** [Write] at a level that compresses: the calls of the loop are appended to the bits. *)
Lemma Write_compressed c d :
  compressor_ok c -> Forall is_byte d -> size (inBuf c) + size d <= MaxInputSize -> level c <> NoCompression ->
  exists bs l out w w1 out1 k,
    Write d c = (set_out out w k (opened c d out1 w1), Ok tt) /\ bw_bits w = [] /\ 0 <= k < 8 /\ Forall is_byte out /\ 0 <= nbSkippedBits c < 8 /\
    write (opened c d out1 w1) ([] : calls) (inBuf c ++ d) (size (inBuf c)) (mkIndex (inBuf c ++ d) (text_32 (inBuf c ++ d))) = Ok l /\
    emits (level c) (dictData c) (inBuf c) 0 bs (length (inBuf c)) /\ emits (level c) (dictData c) (inBuf c ++ d) (length (inBuf c)) (call_bits l) (length (inBuf c ++ d)) /\ Forall (fun c => 0 <= c.2 <= 64) l /\
    (8 * length (outBuf c) = length (bits_of_bytes (header_bytes Version (level c)) ++ bs) + Z.to_nat (nbSkippedBits c))%nat /\
    bits_of_bytes out = bits_of_bytes (header_bytes Version (level c)) ++ (bs ++ call_bits l) ++ replicate (Z.to_nat k) false.
Proof.
  intros Hok Hd Hsz El. destruct (reopen c Hok) as (o & b & out & w & Eo & Bo & Hw8 & Ew & Hk & Hc). rewrite (Write_opened c d o b out w Eo Ew Hsz). cbn zeta. destruct Hok as [[Hint Hlev Hdi Hds Hix Hres] Hbw [Hin Hins] Hcont].
  assert (Forall is_byte (inBuf c ++ d)) as Hall by by apply Forall_app. replace (level c =? NoCompression) with false in * by lia.
  destruct Hc as (bs & Hbits & He & Hlen). set (c1 := opened c d out w). assert (config_ok c1) as Hc1 by by constructor.
  destruct (lz_write_ok c1 out w (length (inBuf c)) Hc1 El Hall) as (l & Ecl & Ewr & Hel & Hcl); [cbn; rewrite length_app; lia|done|]. cbn [c1 opened set_in inBuf] in Ewr, Ecl, Hel. fold c1 in Ewr, Ecl. rewrite Ewr.
  destruct (replay_bits l Hcl out w Bo) as (out2 & w2 & -> & B2 & Hb2). destruct (bw_align w2) as [[bs3 k3] w3] eqn:Eal. pose proof (bw_align_bits w2) as Hal. rewrite Eal in Hal. destruct Hal as (B3 & Hk3 & Hw3 & Hb3).
  exists bs, l, (out2 ++ bs3), w3, w, out, k3. repeat split; try done; try lia; [by apply Forall_app|]. rewrite bits_of_bytes_app, Hb3, app_assoc, Hb2, Hbits, <- !app_assoc. done.
Qed.

Lemma Write_ok c d :
  compressor_ok c -> Forall is_byte d -> size (inBuf c) + size d <= MaxInputSize ->
  exists c', Write d c = (c', Ok tt) /\ compressor_ok c' /\ inBuf c' = inBuf c ++ d /\ revertible c' (inBuf c) /\ level c' = level c /\ same_config c c'.
Proof.
  intros Hok Hd Hsz. pose proof Hok as [[Hint Hlev Hdi Hds Hix Hres] Hbw [Hin Hins] Hcont].
  assert (Forall is_byte (inBuf c ++ d)) as Hall by by apply Forall_app. assert (size (inBuf c ++ d) <= MaxInputSize) as Hallsz by (rewrite length_app; lia).
  assert (inBuf c `prefix_of` inBuf c ++ d) as Hpre by by apply prefix_app_r.
  destruct (Z.eqb_spec (level c) NoCompression) as [El|El].
  - destruct (reopen c Hok) as (o & b & out & w & Eo & Bo & Hw8 & Ew & Hk & Hc). rewrite (Write_opened c d o b out w Eo Ew Hsz). cbn zeta. rewrite El in Hc. destruct Hcont as [Hbytes Hcont]. rewrite El in Hcont |- *. cbn [Z.eqb NoCompression] in Hc, Hcont |- *.
    destruct Hc as [Hw Hout]. destruct Hcont as [Hk0 Hbuf]. eexists. split; [done|]. split; [|split; [done|split; [|by split]]].
    + constructor; cbn [opened set_out set_in set_last bw inBuf outBuf dictData level nbSkippedBits]; [by constructor|done|by split|]. split; [by apply Forall_app|]. rewrite El. cbn [Z.eqb NoCompression]. split; [done|]. by rewrite Hout, <- app_assoc.
    + split; [done|]. split; [done|]. right. cbn [opened set_out set_in set_last lastOutLen outBuf level dictData lastNbSkippedBits]. rewrite Hout, <- Hbuf, length_app. split; [lia|]. rewrite Nat2Z.id, take_app_length.
      split; [done|]. rewrite El. by split.
  - destruct (Write_compressed c d Hok Hd Hsz El) as (bs & l & out & w & w1 & out1 & k & Ew & Hw & Hk & Hb & Hk0 & _ & He & Hel & _ & Hlen & Hfinal). rewrite Ew. eexists. split; [done|]. split; [|split; [done|split; [|done]]].
    + constructor; cbn [opened set_out set_in set_last bw inBuf outBuf dictData level nbSkippedBits]; [by constructor|done|by split|]. split; [done|].
      replace (level c =? NoCompression) with false by lia. exists (bs ++ call_bits l), (replicate (Z.to_nat k) false). split; [done|]. rewrite length_replicate. split; [lia|]. split; [lia|].
      eapply emits_trans; [by apply emits_grow|]. exact Hel.
    + split; [done|]. split; [done|]. right. cbn [opened set_out set_in set_last lastOutLen outBuf level dictData lastNbSkippedBits].
      pose proof (f_equal length Hfinal) as Hfl. rewrite length_bits_of_bytes, !length_app in Hfl. rewrite length_app in Hlen.
      split; [lia|]. rewrite Nat2Z.id. split; [by apply Forall_take|]. replace (level c =? NoCompression) with false by lia.
      exists bs, (take (Z.to_nat (nbSkippedBits c)) (call_bits l ++ replicate (Z.to_nat k) false)). rewrite bits_of_bytes_take, Hfinal, <- !app_assoc, Hlen, app_assoc, <- length_app. rewrite take_app_add, <- app_assoc. split; [done|].
      rewrite length_take, length_app. rewrite !length_replicate in *. split; [lia|]. split; [lia|done].
Qed.

(** ** The other operations *)

Lemma intended_byte c : config_ok c -> is_byte (intendedLevel c).
Proof. intros Hc. apply level_byte. destruct (ok_intended c Hc); [by right|by left]. Qed.

Lemma Reset_ok c : config_ok c -> bw_bits (bw c) = [] -> compressor_ok (Reset c) /\ inBuf (Reset c) = [] /\ level (Reset c) = intendedLevel c /\ same_config c (Reset c).
Proof.
  intros Hc Hbw. pose proof (intended_byte c Hc) as Hb. destruct Hc as [Hint Hlev Hdi Hds Hix Hres]. split; [|by split].
  constructor; cbn [Reset set_level set_last set_in set_out bw inBuf outBuf dictData level nbSkippedBits]; [constructor; try done; by left|done|split; [constructor|cbn; done]|].
  split; [by apply header_is_bytes|]. destruct (Z.eqb_spec (intendedLevel c) NoCompression) as [->|]; [by split|].
  exists [], []. rewrite !app_nil_r. split; [done|]. split; [done|]. split; [cbn; lia|apply emits_nil].
Qed.

Lemma Revert_ok c p :
  compressor_ok c -> revertible c p -> exists c', Revert c = (c', Ok tt) /\ compressor_ok c' /\ inBuf c' = p /\ same_config c c'.
Proof.
  intros Hok (Hlast & Hpre & Hrev). destruct Hpre as [rest Hpre]. unfold Revert. unfold mbind, method_bind, get, call. rewrite Hlast. replace (size p =? -1) with false by lia.
  rewrite truncate_ok by (rewrite Hpre, length_app; lia). rewrite Nat2Z.id, Hpre, take_app_length. unfold modify. destruct Hok as [Hc Hbw [Hin Hins] Hcont]. rewrite Hpre in Hin. apply Forall_app in Hin as [Hp _]. rewrite Hpre, length_app in Hins.
  destruct (justBypassed c) eqn:Ej.
  - set (c1 := set_in p (-1) c). assert (config_ok c1) as Hc1 by (destruct Hc; by constructor). destruct (Reset_ok c1 Hc1 Hbw) as (Hok1 & Hin1 & _ & Hs1).
    destruct (Write_ok (Reset c1) p Hok1 Hp) as (c2 & E2 & Hok2 & Hin2 & _ & _ & Hs2); [rewrite Hin1; cbn; lia|]. exists c2. split; [exact E2|]. split; [done|]. rewrite Hin1 in Hin2. split; [done|].
    destruct Hs2 as [S1 S2]. split; [by rewrite S1|by rewrite S2].
  - destruct Hrev as [?|[Hout Hcont']]; [done|]. rewrite truncate_ok by (cbn; lia). eexists. split; [done|]. split; [|by split]. constructor; cbn [set_out set_in bw inBuf outBuf dictData level nbSkippedBits]; [destruct Hc; by constructor|done| |done].
    split; [done|lia].
Qed.

Lemma ConsiderBypassing_ok c :
  compressor_ok c ->
  exists c' b, ConsiderBypassing c = (c', Ok b) /\ compressor_ok c' /\ inBuf c' = inBuf c /\ same_config c c' /\ (forall p, revertible c p -> revertible c' p) /\
    (if b then size (outBuf c') = size (inBuf c) + HeaderSize /\ size (outBuf c') < size (outBuf c) else c' = c).
Proof.
  intros Hok. unfold ConsiderBypassing. unfold mbind, method_bind, get, modify. change (headerBitLen / 8) with 3. destruct (Z.ltb_spec (size (inBuf c) + 3) (size (outBuf c))) as [Hlt|].
  2: { exists c, false. split; [done|]. split; [done|]. split; [done|]. split; [by split|]. by split. }
  destruct Hok as [[Hint Hlev Hdi Hds Hix Hres] Hbw [Hin Hins] Hcont]. do 2 eexists. split; [done|]. split; [|split; [done|split; [by split|split]]].
  - constructor; cbn [set_level set_last set_out bw inBuf outBuf dictData level nbSkippedBits]; [constructor; try done; by right|done|done|]. split; [|by split]. apply Forall_app. split; [by apply header_is_bytes|done].
  - intros p (Hl & Hp & _). split; [done|]. split; [done|by left].
  - cbn [set_level set_last set_out outBuf]. rewrite length_app, header_length. unfold HeaderSize. lia.
Qed.

Lemma NewCompressor_ok dict lv :
  lv = NoCompression \/ valid_level lv -> size (AugmentDict dict) <= MaxDictSize ->
  exists c, NewCompressor (W := W) dict lv = Ok c /\ compressor_ok c /\ inBuf c = [] /\ dictData c = AugmentDict dict /\ intendedLevel c = lv.
Proof.
  intros Hlv Hsz. unfold NewCompressor. replace (MaxDictSize <? size (AugmentDict dict)) with false by lia. cbn [negb require mbind outcome_bind]. unfold New, assert_. unfold MaxDictSize in Hsz.
  replace (maxData32 <? size (AugmentDict dict)) with false by (unfold maxData32; lia). cbn [negb mbind outcome_bind].
  set (ix := if negb (lv =? NoCompression) then Some (mkIndex (AugmentDict dict) (text_32 (AugmentDict dict))) else None).
  assert ((if negb (lv =? NoCompression) then Ok (Some (mkIndex (AugmentDict dict) (text_32 (AugmentDict dict)))) else Ok None) = Ok (E := lzss_error) ix) as -> by (subst ix; by destruct (lv =? NoCompression)).
  cbn [mbind outcome_bind]. eexists. split; [done|]. match goal with |- compressor_ok (Reset ?c) /\ _ => set (c0 := c) end.
  assert (config_ok c0) as Hc0. { constructor; cbn; try done; [by right|apply AugmentDict_idem|]. intros Hne. subst ix. by replace (lv =? NoCompression) with false by lia. }
  destruct (Reset_ok c0 Hc0) as (Hok & Hin & _ & Hd & Hi); [apply bw_new_bits|]. by rewrite Hd, Hi.
Qed.

(** ** Decompression *)

Lemma Decompress_ok c dict : compressor_ok c -> dictData c = AugmentDict dict -> Decompress (R := R) (Bytes c) dict = Ok (inBuf c).
Proof.
  intros [Hcfg Hbw [Hin Hins] Hcont] Hdict. unfold Decompress, Bytes. pose proof (dict_nonempty _ (ok_dict c Hcfg)) as Hne. pose proof (ok_dict_size c Hcfg) as Hds. destruct Hcont as [Hb Hcont].
  destruct (br_new_bits (outBuf c) Hb) as [Hbits Herr]. pose proof (br_full_bits (br_new (outBuf c)) 3 Herr) as Hfull. rewrite Hbits in Hfull. change (Z.to_nat HeaderSize) with 3%nat.
  assert (exists rest, bits_of_bytes (outBuf c) = bits_of_bytes (header_bytes Version (level c)) ++ rest) as [rest Hhdr].
  { destruct (Z.eqb_spec (level c) NoCompression) as [El|]; [|destruct Hcont as (bs & pad & Hbp & _); by exists (bs ++ pad)]. destruct Hcont as [_ ->]. rewrite El, bits_of_bytes_app. by eexists. }
  assert (is_byte (level c)) as Hlb by (destruct (ok_level c Hcfg) as [->| ->]; [by apply intended_byte|done]).
  rewrite Hhdr in Hfull. rewrite length_app, length_bits_of_bytes, header_length in Hfull. replace (8 * 3 <=? 8 * 3 + length rest)%nat with true in Hfull by lia.
  rewrite take_app_length', drop_app_length' in Hfull by by rewrite length_bits_of_bytes, header_length. destruct Hfull as (l & E1 & Hl & E2 & E3 & E4).
  destruct (br_full (br_new (outBuf c)) 3) as [ob r]. cbn [fst snd] in *. subst ob. apply bits_of_bytes_inj in E2; [|done|by apply header_is_bytes]. subst l.
  change (header_of (header_bytes Version (level c))) with (Version, level c). cbn [require mbind outcome_bind Z.eqb Version].
  destruct (Z.eqb_spec (level c) NoCompression) as [El|El].
  - destruct Hcont as [_ ->]. rewrite slice_in by (rewrite length_app, header_length; unfold HeaderSize; lia). change (Z.to_nat HeaderSize) with 3%nat. rewrite drop_app_length' by by rewrite header_length.
    f_equal. apply take_ge. rewrite length_app, header_length. unfold HeaderSize. lia.
  - rewrite <- Hdict. destruct Hcont as (bs & pad & Hbp & Hp & Hp8 & He). rewrite Hbp in Hhdr. apply app_inj_1 in Hhdr as [_ Hrest]; [|done].
    assert (valid_level (level c)) as Hvl. { destruct (ok_level c Hcfg) as [E|E]; [|done]. rewrite E in *. by destruct (ok_intended c Hcfg). }
    pose proof (decompress_loop_ok (W := W) (level c) (dictData c) Hvl ltac:(lia) (inBuf c) 0 bs (length (inBuf c)) He ltac:(lia) r pad (S (length (outBuf c))) E4) as Hloop.
    rewrite take_0, firstn_all in Hloop. apply Hloop; [congruence|done|]. apply (f_equal length) in Hbp. rewrite length_bits_of_bytes, !length_app in Hbp. lia.
Qed.
End State.
