(* ===== verification/LzssResults.v ===== *)
(** The theorems on the compressor: it refines a text with one step of undo, the size
    that is computed without compressing is the right one, the decompressor never
    panics, and what happens after a write that fails. *)
From S2P Require Import Prelude BitIo GoState SuffixArray Lzss LzssTheorems LzssWrite LzssState.

Arguments InitBackRefTypes : simpl never.

(** ** The abstract compressor *)

Inductive op :=
| OpWrite (d : list Z)
| OpRevert
| OpBypass
| OpReset.

(** The text, and the text before the last write while it can be reverted. *)
Definition text := (list Z * option (list Z))%type.

(** [None] for the calls that are not allowed. *)
Definition text_op (t : text) (o : op) : option text :=
  match o with
  | OpWrite d => if bool_decide (Forall is_byte d /\ size t.1 + size d <= MaxInputSize) then Some (t.1 ++ d, Some t.1) else None
  | OpRevert => p ← t.2; Some (p, None)
  | OpBypass => Some t
  | OpReset => Some ([], None)
  end.

Definition text_run (t : text) (ops : list op) : option text := foldl (fun t o => t ← t; text_op t o) (Some t) ops.

Section Results.
Context {W R : Type} `{BitIoLaws W R} `{SuffixSort}.
Abbreviation compressor := (Compressor W).

Definition run_op (o : op) : method compressor lzss_error unit :=
  match o with
  | OpWrite d => Write d
  | OpRevert => Revert
  | OpBypass => _ ← ConsiderBypassing; mret tt
  | OpReset => modify Reset
  end.

Fixpoint run_ops (ops : list op) : method compressor lzss_error unit :=
  match ops with
  | [] => mret tt
  | o :: ops => _ ← run_op o; run_ops ops
  end.

(** The state of the compressor stands for a text. *)
Definition stands_for (dict : list Z) (c : compressor) (t : text) : Prop :=
  compressor_ok c /\ inBuf c = t.1 /\ dictData c = AugmentDict dict /\ forall p, t.2 = Some p -> revertible c p.

Lemma run_op_ok dict c t t' o : stands_for dict c t -> text_op t o = Some t' -> exists c', run_op o c = (c', Ok tt) /\ stands_for dict c' t'.
Proof.
  intros (Hok & Hin & Hd & Hrev) Ho. destruct o as [d| | |]; cbn [text_op run_op] in *.
  - case_bool_decide as Hb; [|done]. destruct Hb as [Hb Hsz]. injection Ho as <-. destruct (Write_ok c d Hok Hb) as (c' & E & Hok' & Hin' & Hr & _ & Hs & _); [by rewrite Hin|]. exists c'. split; [done|].
    split; [done|]. split; [by rewrite Hin', Hin|]. split; [by rewrite Hs|]. intros p [= <-]. by rewrite <- Hin.
  - destruct (t.2) as [p|]; [|done]. injection Ho as <-. destruct (Revert_ok c p Hok (Hrev p eq_refl)) as (c' & E & Hok' & Hin' & Hs & _). exists c'. split; [done|]. split; [done|]. split; [done|]. split; [by rewrite Hs|done].
  - injection Ho as <-. destruct (ConsiderBypassing_ok c Hok) as (c' & b & E & Hok' & Hin' & [Hs _] & Hr & _). exists c'. split; [unfold mbind, method_bind; by rewrite E|]. split; [done|]. split; [by rewrite Hin'|]. split; [by rewrite Hs|]. auto.
  - injection Ho as <-. destruct (Reset_ok c (ok_config c Hok) (ok_bw c Hok)) as (Hok' & Hin' & _ & Hs & _). exists (Reset c). split; [done|]. split; [done|]. split; [done|]. split; [by rewrite Hs|done].
Qed.

Lemma run_ops_ok dict ops c t t' : stands_for dict c t -> text_run t ops = Some t' -> exists c', run_ops ops c = (c', Ok tt) /\ stands_for dict c' t'.
Proof.
  revert c t. induction ops as [|o ops IH]; intros c t Hst Hrun.
  - injection Hrun as <-. by exists c.
  - unfold text_run in Hrun. cbn [foldl mbind option_bind] in Hrun. destruct (text_op t o) as [t1|] eqn:Eo; [|exfalso; clear -Hrun; induction ops; [done|by apply IHops]].
    destruct (run_op_ok dict c t t1 o Hst Eo) as (c1 & E1 & Hst1). destruct (IH c1 t1 Hst1 Hrun) as (c2 & E2 & Hst2). exists c2. split; [|done]. cbn [run_ops]. by rewrite (bind_run _ _ _ _ _ E1).
Qed.

(** C4. The compressor refines a text with one step of undo: for every sequence of allowed
    writes, reverts, attempts to bypass and resets, at every level, no call fails or
    panics, the text is the one of the specification, and decompressing the bytes of the
    compressor with the same dictionary gives the text back. *)
Theorem compressor_refines dict lv ops t :
  lv = NoCompression \/ valid_level lv -> size (AugmentDict dict) <= MaxDictSize -> text_run ([], None) ops = Some t ->
  exists c c', NewCompressor (W := W) dict lv = Ok c /\ run_ops ops c = (c', Ok tt) /\ WrittenBytes c' = t.1 /\ Decompress (R := R) (Bytes c') dict = Ok t.1.
Proof.
  intros Hlv Hsz Hrun. destruct (NewCompressor_ok dict lv Hlv Hsz) as (c & E & Hok & Hin & Hd & _). destruct (run_ops_ok dict ops c ([], None) t) as (c' & E' & Hok' & Hin' & Hd' & _); [by split|done|].
  exists c, c'. split; [done|]. split; [done|]. split; [done|]. rewrite <- Hin'. by apply Decompress_ok.
Qed.

(** ** The size *)

Lemma replay_counter l n : replay_calls (mkCounter n) l = mkCounter (n + fold_right Z.add 0 (snd <$> l)).
Proof. revert n. induction l as [|[v k] l IH]; intros n; [cbn; by rewrite Z.add_0_r|]. change (replay_calls (mkCounter n) ((v, k) :: l)) with (replay_calls (mkCounter (n + k)) l). rewrite IH. f_equal. cbn. lia. Qed.

Lemma call_bits_length l : Forall (fun c => 0 <= c.2 <= 64) l -> size (call_bits l) = fold_right Z.add 0 (snd <$> l).
Proof. induction 1 as [|[v k] l Hk _ IH]; [done|]. unfold call_bits in *. cbn [mbind list_bind fmap list_fmap fold_right fst snd]. rewrite length_app, length_bits_be. cbn in Hk. lia. Qed.

Lemma write_counter (c : compressor) d l :
  write c ([] : calls) d 0 (mkIndex d (text_32 d)) = Ok l -> write c (mkCounter 0) d 0 (mkIndex d (text_32 d)) = Ok (mkCounter (0 + fold_right Z.add 0 (snd <$> l))).
Proof.
  unfold write. destruct (dictIndex c) as [ix|]; [|done]. cbn [unwrap mbind outcome_bind]. intros E. rewrite <- replay_counter.
  pose proof (write_loop_free d (level c) (dictReservedIdx c) ix (mkIndex d (text_32 d)) (size (dictData c)) (Z.to_nat (size d - 0)) (mkCounter 0) [] 0) as Hfree.
  change (replay_calls (mkCounter 0) []) with (mkCounter 0) in Hfree. rewrite Hfree, E. done.
Qed.

Lemma emits_empty lv dict bs : emits lv dict [] 0 bs 0 -> bs = [].
Proof. inversion 1 as [|i b bs' j Hb|t i a n bs' j ? ? ? ? Hn|i a n bs' j ? ? Hn]; subst; [done|done|cbn in Hn; lia|cbn in Hn; lia]. Qed.

(** C15. The size that [CompressedSize256k] computes by counting bits is the length of the
    bytes that compressing the text produces, at every level. *)
Theorem CompressedSize_exact (c c' : compressor) d out :
  compressor_ok c -> level c = intendedLevel c -> Forall is_byte d -> size d <= 2 ^ 18 -> Compress d c = (c', Ok out) -> CompressedSize256k c d = Ok (size out).
Proof.
  intros Hok Hlv Hd Hsz Hcomp. unfold Compress in Hcomp. destruct (Reset_ok c (ok_config c Hok) (ok_bw c Hok)) as (Hok1 & Hin1 & Hl1 & Hs1). set (c1 := Reset c) in *.
  rewrite (bind_run _ _ c c1 tt eq_refl) in Hcomp. unfold CompressedSize256k. destruct (Z.eqb_spec (level c) NoCompression) as [El|El].
  - destruct (Write_ok c1 d Hok1 Hd) as (c2 & E2 & Hok2 & Hin2 & _ & Hl2 & _); [rewrite Hin1; cbn; unfold MaxInputSize; lia|]. rewrite (bind_run _ _ _ _ _ E2) in Hcomp. injection Hcomp as <- <-.
    destruct (ok_content c2 Hok2) as [_ Hc]. rewrite Hl2, Hl1, <- Hlv, El in Hc. cbn in Hc. destruct Hc as [_ Hc]. unfold Bytes. rewrite Hc, Hin2, Hin1. cbn [app length header_bytes le_bytes]. unfold HeaderSize. f_equal. lia.
  - replace (2 ^ 18 <? size d) with false by lia. cbn [negb require mbind outcome_bind]. unfold New, assert_. replace (maxData32 <? size d) with false by (unfold maxData32; lia). cbn [negb mbind outcome_bind].
    destruct (Write_compressed c1 d Hok1 Hd) as (bs & l & o & w & w1 & out1 & k & E2 & _ & Hk & _ & _ & Ewr & Hbs & _ & Hcl & _ & Hbits); [rewrite Hin1; cbn; unfold MaxInputSize; lia|by rewrite Hl1, <- Hlv|].
    rewrite (bind_run _ _ _ _ _ E2) in Hcomp. injection Hcomp as <- <-. rewrite Hin1 in Ewr, Hbs. cbn [app length] in Ewr. apply emits_empty in Hbs. subst bs. cbn [app] in Hbits.
    assert (write c ([] : calls) d 0 (mkIndex d (text_32 d)) = Ok l) as Ewc by (rewrite <- Ewr; unfold write; cbn [opened c1 Reset set_in set_last set_out set_level dictIndex level dictReservedIdx dictData]; by rewrite Hlv).
    rewrite (write_counter c d l Ewc). cbn [mbind outcome_bind]. unfold counter_Len, Bytes. cbn [nbBits set_out outBuf]. rewrite <- (call_bits_length l Hcl). pose proof (f_equal length Hbits) as Hlen.
    rewrite !length_app, length_replicate, !length_bits_of_bytes, header_length in Hlen. unfold HeaderSize. f_equal. rewrite Z.add_0_l. golia.
Qed.

(** ** Decompressing any bytes *)

Lemma wordAlign_range l a : 1 <= l <= 8 -> 1 <= a <= 32 -> 1 <= wordAlign l a <= 40.
Proof.
  intros Hl Ha. assert (forallb (fun l => forallb (fun a => (1 <=? wordAlign l a) && (wordAlign l a <=? 40)) (seqZ 1 32)) (seqZ 1 8) = true) as Hall by (vm_compute; done).
  rewrite forallb_forall in Hall. specialize (Hall l). rewrite <- list_elem_of_In, elem_of_seqZ in Hall. specialize (Hall ltac:(lia)). rewrite forallb_forall in Hall. specialize (Hall a). 
  rewrite <- list_elem_of_In, elem_of_seqZ in Hall. specialize (Hall ltac:(lia)). lia.
Qed.

(** Reading a reference fails, or gives a length and an address in their ranges. *)
Lemma readFrom_total t (r : R) :
  1 <= NbBitsAddress t <= 40 -> NbBitsLength t = 8 -> br_error r = false ->
  (exists e, readFrom t r = Err e) \/
  exists len addr r', readFrom t r = Ok (mkBackref t len addr, r') /\ br_error r' = false /\ (length (br_bits r') <= length (br_bits r))%nat /\ 1 <= len <= 256 /\ (if dictOnly t then 0 else 1) <= addr <= 2 ^ 40.
Proof.
  intros Ha HL Hr. unfold readFrom. rewrite HL. assert (2 ^ NbBitsAddress t <= 2 ^ 40) by (apply Z.pow_le_mono_r; lia).
  destruct (Z.le_gt_cases 8 (size (br_bits r))) as [H8|H8].
  2: { left. pose proof (br_read_eof r 8 ltac:(lia) Hr H8) as He. destruct (br_read r 8) as [n1 r1]. cbn [snd] in He. rewrite (br_read_error r1 _ He), He. by eexists. }
  destruct (br_read_bits r 8 ltac:(lia) Hr H8) as (V1 & B1 & F1). destruct (br_read r 8) as [n1 r1]. cbn [fst snd] in *. pose proof (bits_value_range (take (Z.to_nat 8) (br_bits r))) as R1. rewrite <- V1 in R1.
  assert (size (take (Z.to_nat 8) (br_bits r)) = 8) as E8 by (rewrite length_take; lia). rewrite E8 in R1.
  destruct (Z.le_gt_cases (NbBitsAddress t) (size (br_bits r1))) as [HA|HA].
  2: { left. pose proof (br_read_eof r1 (NbBitsAddress t) ltac:(lia) F1 HA) as He. destruct (br_read r1 (NbBitsAddress t)) as [n2 r2]. cbn [snd] in He. rewrite He. by eexists. }
  destruct (br_read_bits r1 (NbBitsAddress t) ltac:(lia) F1 HA) as (V2 & B2 & F2). destruct (br_read r1 (NbBitsAddress t)) as [n2 r2]. cbn [fst snd] in *. pose proof (bits_value_range (take (Z.to_nat (NbBitsAddress t)) (br_bits r1))) as R2. rewrite <- V2 in R2.
  assert (size (take (Z.to_nat (NbBitsAddress t)) (br_bits r1)) = NbBitsAddress t) as EA by (rewrite length_take; lia). rewrite EA in R2.
  right. rewrite F2. cbn [negb require mbind outcome_bind]. rewrite !(swrap_small 64) by (unfold is_i; lia). replace ((n1 + 1 <=? 0) || ((if dictOnly t then n2 else n2 + 1) <? 0)) with false by (destruct (dictOnly t); lia).
  cbn [negb require mbind outcome_bind]. do 3 eexists. split; [done|]. split; [done|]. split; [rewrite B2, B1, !length_drop; lia|]. split; [lia|]. destruct (dictOnly t); lia.
Qed.

Lemma copy_back_total n addr out : 1 <= addr -> (exists e, copy_back n addr out = Err e) \/ exists out', copy_back n addr out = Ok out'.
Proof.
  intros Ha. revert out. induction n as [|n IH]; intros out; cbn [copy_back]; [right; by eexists|]. destruct (Z.ltb_spec (size out) addr); cbn [negb require mbind outcome_bind]; [left; by eexists|].
  destruct (at_total (E := lzss_error) out (size out - addr)) as (b & -> & _); [lia|]. apply IH.
Qed.

Lemma decompress_step_total dict lv s (r : R) out :
  1 <= lv <= 8 -> 1 <= size dict <= MaxDictSize -> br_error r = false ->
  (exists e, decompress_step dict (InitBackRefTypes (size dict) lv) s r out = Err e) \/
  exists r' out', decompress_step dict (InitBackRefTypes (size dict) lv) s r out = Ok (r', out') /\ br_error r' = false /\ (length (br_bits r') <= length (br_bits r))%nat.
Proof.
  intros Hlv Hd Hr. unfold decompress_step, InitBackRefTypes. pose proof (bits_Len_ok (size dict) Hd) as [Hb _]. pose proof (wordAlign_range lv (bits_Len (size dict)) Hlv ltac:(lia)) as WD.
  pose proof (wordAlign_range lv 14 Hlv ltac:(lia)) as WS. pose proof (wordAlign_range lv longBrAddressNbBits Hlv ltac:(unfold longBrAddressNbBits; lia)) as WL.
  destruct (s =? SymbolShort); [|destruct (s =? SymbolLong); [|destruct (s =? SymbolDict); [|right; by do 2 eexists]]].
  - destruct (readFrom_total (newBackRefType SymbolShort (wordAlign lv 14) 8 false) r WS eq_refl Hr) as [[e ->]|(len & addr & r' & -> & F & B & Hlen & Haddr)]; [left; by eexists|]. cbn [mbind outcome_bind length_ address].
    destruct (copy_back_total (Z.to_nat len) addr out) as [[e ->]|[out' ->]]; [unfold newBackRefType in Haddr; cbn in Haddr; lia|left; by eexists|right; by do 2 eexists].
  - destruct (readFrom_total (newBackRefType SymbolLong (wordAlign lv longBrAddressNbBits) 8 false) r WL eq_refl Hr) as [[e ->]|(len & addr & r' & -> & F & B & Hlen & Haddr)]; [left; by eexists|]. cbn [mbind outcome_bind length_ address].
    destruct (copy_back_total (Z.to_nat len) addr out) as [[e ->]|[out' ->]]; [unfold newBackRefType in Haddr; cbn in Haddr; lia|left; by eexists|right; by do 2 eexists].
  - destruct (readFrom_total (newBackRefType SymbolDict (wordAlign lv (bits_Len (size dict))) 8 true) r WD eq_refl Hr) as [[e ->]|(len & addr & r' & -> & F & B & Hlen & Haddr)]; [left; by eexists|]. cbn [mbind outcome_bind length_ address].
    unfold newBackRefType in Haddr. cbn in Haddr. rewrite (swrap_small 64) by (unfold is_i; lia). destruct ((size dict <? addr) || (size dict <? addr + len)) eqn:Ec; cbn [negb require mbind outcome_bind]; [left; by eexists|]. rewrite slice_in by lia. right. by do 2 eexists.
Qed.

Lemma decompress_loop_total dict lv fuel (r : R) out :
  1 <= lv <= 8 -> 1 <= size dict <= MaxDictSize -> br_error r = false -> (length (br_bits r) < 8 * fuel)%nat -> decompress_loop dict (InitBackRefTypes (size dict) lv) fuel r out <> Panic.
Proof.
  intros Hlv Hd. revert r out. induction fuel as [|fuel IH]; intros r out Hr Hf; [lia|]. cbn [decompress_loop]. destruct (Z.le_gt_cases 8 (size (br_bits r))) as [H8|H8].
  2: { pose proof (br_read_eof r 8 ltac:(lia) Hr H8) as He. destruct (br_read r 8) as [s r1]. cbn [snd] in He. by rewrite He. }
  destruct (br_read_bits r 8 ltac:(lia) Hr H8) as (_ & B1 & F1). destruct (br_read r 8) as [s r1]. cbn [fst snd] in *. rewrite F1.
  destruct (decompress_step_total dict lv s r1 out Hlv Hd F1) as [[e ->]|(r' & out' & -> & F & B)]; [done|]. cbn [mbind outcome_bind]. apply IH; [done|]. rewrite B1, length_drop in B. lia.
Qed.


(** ** A write that fails *)

(** After a write that is too large, the bits of the last, incomplete byte stay in the bit
    writer, also over a [Reset]: they come before the header of the next text. *)
Theorem failed_write_leaves_bits (c : compressor) d :
  compressor_ok c -> nbSkippedBits c <> 0 -> MaxInputSize < size (inBuf c) + size d ->
  exists c', Write d c = (c', Err InputTooLarge) /\ length (bw_bits (bw (Reset c'))) = Z.to_nat (8 - nbSkippedBits c).
Proof.
  intros Hok Hk Hsz. destruct (reopen c Hok) as (o & b & out & w & Eo & Bo & Hw8 & Ew & Hk8 & Hc). unfold Write. unfold mbind, method_bind, get, call. rewrite Eo. destruct (at_last (E := lzss_error) o b) as [-> ->]. rewrite Ew.
  unfold modify, appendInput. unfold mbind, method_bind, get, call. cbn [inBuf set_last set_out]. replace (MaxInputSize <? size (inBuf c) + size d) with true by lia. eexists. split; [done|]. cbn [Reset set_level set_last set_in set_out bw].
  destruct (content_nonempty _ _ _ _ _ (ok_content c Hok)) as (o' & b' & Eo' & Hb' & Ho'). rewrite Eo in Eo'. apply app_inj_2 in Eo' as [<- [= <-]]; [|done].
  destruct (bw_write_out o (bw c) (b ≫ nbSkippedBits c) (8 - nbSkippedBits c) ltac:(lia) Ho') as (out2 & w2 & E2 & _ & _ & Hbits). rewrite Ew in E2. injection E2 as <- <-. rewrite (ok_bw c Hok) in Hbits. cbn [app] in Hbits.
  apply (f_equal length) in Hbits. rewrite !length_app, !length_bits_of_bytes, length_bits_be in Hbits. lia.
Qed.
End Results.

(** ** Witnesses *)

Abbreviation writer := (list bool).
Abbreviation reader := (list bool * bool)%type.

Definition demo_dict : list Z := [1; 2; 3; 4; 5; 6].
Definition demo_text : list Z := [1; 2; 3; 4; 255; 7; 7; 1; 2; 3; 4; 255; 7; 7].

Definition demo_compressor : Compressor writer :=
  match NewCompressor demo_dict BestCompression with Ok c => c | _ => mkCompressor [] [] 0 [] 0 0 0 false [] None ∅ 0 0 end.

Lemma demo_ok : compressor_ok (R := reader) demo_compressor.
Proof.
  destruct (NewCompressor_ok (W := writer) (R := reader) demo_dict BestCompression) as (c & E & Hok & _); [by right; left|by vm_compute|]. unfold demo_compressor. by rewrite E.
Qed.

Lemma compressor_refines_witness :
  exists c c', NewCompressor (W := writer) demo_dict BestCompression = Ok c /\ run_ops (R := reader) [OpWrite demo_text; OpBypass; OpRevert; OpWrite demo_text; OpWrite demo_text] c = (c', Ok tt) /\
    Decompress (R := reader) (Bytes c') demo_dict = Ok (demo_text ++ demo_text).
Proof.
  destruct (compressor_refines (W := writer) (R := reader) demo_dict BestCompression [OpWrite demo_text; OpBypass; OpRevert; OpWrite demo_text; OpWrite demo_text] (demo_text ++ demo_text, Some demo_text)) as (c & c' & E1 & E2 & _ & E3);
    [by right; left|by vm_compute|by vm_compute|]. by exists c, c'.
Defined.

Lemma CompressedSize_exact_witness : exists c' out, Compress (R := reader) demo_text demo_compressor = (c', Ok out) /\ CompressedSize256k demo_compressor demo_text = Ok (size out).
Proof.
  destruct (Compress (R := reader) demo_text demo_compressor) as [c' r] eqn:E. assert (exists out, r = Ok out) as [out ->] by (assert (r = (Compress (R := reader) demo_text demo_compressor).2) as -> by (by rewrite E); clear; eexists; vm_compute; reflexivity).
  exists c', out. split; [done|]. apply (CompressedSize_exact (R := reader) demo_compressor c' demo_text out); [apply demo_ok|vm_compute; reflexivity|apply bytes_check; reflexivity|vm_compute; discriminate|exact E].
Defined.


(** With two such bits, the text [9; 9] is read back as another one. *)
Example stale_bits :
  let c := set_out (header_bytes Version BestCompression) [true; false] 0 demo_compressor in
  Decompress (R := reader) (Bytes (Write (R := reader) [9; 9] c).1) demo_dict = Ok [66; 66; 64].
Proof. vm_compute. reflexivity. Qed.
