(* ===== verification/PackAlign.v ===== *)
(** Packing bytes into field elements: [PackAlign] and [UnpackAlign] of
    [prover/lib/compressor/blob/v0/blob_maker.go] (248 bits in 32 bytes) and of
    [prover/lib/compressor/blob/encode/encode.go] (any number of bits).

    An element is a sequence of 64-bit words, big endian, of which the first one holds
    the bits that do not fill a word.  The end of the data is marked by a last byte that
    is not zero. *)
From S2P Require Import Prelude BitIo.

Inductive pack_error :=
| PackReader
| PackSize
| PackTerminal
| UnpackLength
| UnpackTerminal.

Section Words.
Context {W R : Type} `{BitIo W R}.

(** [tryWrite(r.TryReadBits(w))] for the words of an element: the bytes that are
    written. *)
Fixpoint read_words (ws : list Z) (r : R) : list Z * R :=
  match ws with
  | [] => ([], r)
  | w :: ws => let '(v, r) := br_read r w in let '(out, r) := read_words ws r in (be_bytes 8 v ++ out, r)
  end.

Fixpoint read_elements (n : nat) (ws : list Z) (r : R) : list Z * R :=
  match n with
  | O => ([], r)
  | S n => let '(out, r) := read_words ws r in let '(rest, r) := read_elements n ws r in (out ++ rest, r)
  end.

(** [w.TryWriteBits(binary.BigEndian.Uint64(element[j:j+8]), w)] for the words of the
    element at [off]: the bytes below the writer. *)
Fixpoint write_words (ws : list Z) (b : list Z) (off : Z) (out : list Z) (w : W) : outcome pack_error (list Z * W) :=
  match ws with
  | [] => Ok (out, w)
  | n :: ws =>
      word ← slice b off (off + 8);
      let '(bs, w) := bw_write w (be_value word) n in
      write_words ws b (off + 8) (out ++ bs) w
  end.

(** [n] elements of [len] bytes, from the [i]-th one on. *)
Fixpoint write_elements (n : nat) (len : Z) (ws : list Z) (b : list Z) (i : Z) (out : list Z) (w : W) : outcome pack_error (list Z * W) :=
  match n with
  | O => Ok (out, w)
  | S n => '(out, w) ← write_words ws b (len * i) out w; write_elements n len ws b (i + 1) out w
  end.

(** [w.Close()]. *)
Definition close (out : list Z) (w : W) : list Z := let '(bs, _, _) := bw_align w in out ++ bs.

(** Removes the zero bytes at the end of a reversed buffer and counts them: the count, the
    last byte that is not zero, and the buffer before it. *)
Fixpoint strip_zeros (cpt : Z) (rev : list Z) : outcome pack_error (Z * Z * list Z) :=
  match rev with
  | [] => Panic
  | x :: rev => if x =? 0 then strip_zeros (cpt + 1) rev else Ok (cpt, x, reverse rev)
  end.

(** ** Version 0 *)

Definition packingSizeU256 : Z := 248.
Definition packingSizeLastU64 : Z := 64 - 256 + packingSizeU256.

Definition words_v0 : list Z := [packingSizeLastU64; 64; 64; 64].

(** [nbBits] and [extraBits] of [PackAlign]. *)
Definition extra_bits (nbBits : Z) : Z := (packingSizeU256 - nbBits mod packingSizeU256) mod packingSizeU256.

Definition packAlignSizeToRefactor (lena lenb : Z) : Z :=
  let nbBytes := lena + lenb + 1 in
  let nbBits := nbBytes * 8 in
  let nbBits := nbBits + extra_bits nbBits in
  nbBits / packingSizeU256 * 32.

Definition PackAlignSize (a b : list Z) : Z :=
  let nbBytes := size a + size b + 1 in
  let nbBits := nbBytes * 8 in
  let nbBits := nbBits + extra_bits nbBits in
  nbBits / packingSizeU256 * 32.

Definition PackAlign (a b : list Z) : outcome pack_error (list Z) :=
  let nbBytes := size a + size b + 1 in
  let extraBits := extra_bits (nbBytes * 8) in
  let nbBits := nbBytes * 8 + extraBits in
  _ ← require (nbBits mod packingSizeU256 =? 0) PackSize;
  let bytePadding := (extraBits + 7) / 8 in
  let buf := u8 (bytePadding + 1) :: replicate 31 0 in
  pad ← slice buf 0 (bytePadding + 1);
  let '(out, r) := read_elements (Z.to_nat (nbBits / packingSizeU256)) words_v0 (br_new (a ++ b ++ pad)) in
  _ ← require (negb (br_error r)) PackReader;
  _ ← require (nbBits / packingSizeU256 * 32 =? PackAlignSize a b) PackSize;
  Ok out.

Definition UnpackAlign (r : list Z) : outcome pack_error (list Z) :=
  _ ← require (size r mod 32 =? 0) UnpackLength;
  '(out, w) ← write_elements (Z.to_nat (size r / 32)) 32 words_v0 r 0 [] bw_new;
  '(cpt, lastNonZero, out) ← strip_zeros 0 (reverse (close out w));
  _ ← require (cpt mod 31 =? lastNonZero - 1) UnpackTerminal;
  Ok out.

(** ** encode.go *)

Record packAlignSettings := mkSettings {
  dataNbBits : Z;
  lastByteNbUnusedBits : Z;
  noTerminalSymbol : bool;
  additionalInput : list (list Z)
}.

Inductive packAlignOption :=
| NoTerminalSymbol
| WithAdditionalInput (data : list (list Z))
| WithLastByteNbUnusedBits (n : Z).

(** [WithLastByteNbUnusedBits] panics when it is built. *)
Definition apply_pack_option (s : packAlignSettings) (o : packAlignOption) : outcome pack_error packAlignSettings :=
  match o with
  | NoTerminalSymbol => Ok (mkSettings (dataNbBits s) (lastByteNbUnusedBits s) true (additionalInput s))
  | WithAdditionalInput data => Ok (mkSettings (dataNbBits s) (lastByteNbUnusedBits s) (noTerminalSymbol s) (additionalInput s ++ data))
  | WithLastByteNbUnusedBits n => if 7 <? n then Panic else Ok (mkSettings (dataNbBits s) n (noTerminalSymbol s) (additionalInput s))
  end.

Definition initialize (len : Z) (options : list packAlignOption) : outcome pack_error packAlignSettings :=
  s ← foldM apply_pack_option (mkSettings 0 0 false []) options;
  let nbBytes := len + foldr (fun data n => size data + n) 0 (additionalInput s) in
  let nbBytes := if negb (noTerminalSymbol s) then nbBytes + 1 else nbBytes in
  Ok (mkSettings (nbBytes * 8 - lastByteNbUnusedBits s) (lastByteNbUnusedBits s) (noTerminalSymbol s) (additionalInput s)).

Definition enc_PackAlignSize (length0 packingSize : Z) (options : list packAlignOption) : outcome pack_error Z :=
  s ← initialize length0 options;
  let extraBits := (packingSize - dataNbBits s mod packingSize) mod packingSize in
  let nbBits := dataNbBits s + extraBits in
  Ok (nbBits / packingSize * ((packingSize + 7) / 8)).

(** The number of bits of the first word. *)
Definition last_u64 (packingSize : Z) : Z := if packingSize mod 64 =? 0 then 64 else packingSize mod 64.

Definition words (packingSize : Z) : list Z := last_u64 packingSize :: replicate (Z.to_nat ((packingSize - last_u64 packingSize + 63) / 64)) 64.

(** The words that [UnpackAlign] reads: as many as there are in [bytesPerElem]. *)
Definition unpack_words (packingSize bytesPerElem : Z) : list Z := last_u64 packingSize :: replicate (Z.to_nat ((bytesPerElem - 8 + 7) / 8)) 64.

Definition enc_PackAlign (a : list Z) (packingSize : Z) (options : list packAlignOption) : outcome pack_error (list Z) :=
  s ← initialize (size a) options;
  _ ← require (negb (negb (noTerminalSymbol s) && negb (lastByteNbUnusedBits s =? 0))) PackTerminal;
  let nbBits := (dataNbBits s + (packingSize - 1)) / packingSize * packingSize in
  let extraBits := nbBits - dataNbBits s in
  let bytesPerElem := (packingSize + 7) / 8 in
  let bytePadding := (extraBits + 7) / 8 in
  let buf := if negb (noTerminalSymbol s) then 255 :: replicate (Z.to_nat bytesPerElem) 0 else replicate (Z.to_nat (bytesPerElem + 1)) 0 in
  pad ← slice buf 0 (bytePadding + 1);
  let '(out, r) := read_elements (Z.to_nat (nbBits / packingSize)) (words packingSize) (br_new (a ++ concat (additionalInput s) ++ pad)) in
  _ ← require (negb (br_error r)) PackReader;
  size' ← enc_PackAlignSize (size a) packingSize options;
  _ ← require (nbBits / packingSize * bytesPerElem =? size') PackSize;
  Ok out.

Definition enc_UnpackAlign (r : list Z) (packingSize : Z) (noTerminalSymbol : bool) : outcome pack_error (list Z) :=
  let bytesPerElem := (packingSize + 7) / 8 in
  let n := size r / bytesPerElem in
  _ ← require (n * bytesPerElem =? size r) UnpackLength;
  '(out, w) ← write_elements (Z.to_nat n) bytesPerElem (unpack_words packingSize bytesPerElem) r 0 [] bw_new;
  let out := close out w in
  if negb noTerminalSymbol then
    '(_, last, out) ← strip_zeros 0 (reverse out);
    _ ← require (last =? 255) UnpackTerminal;
    Ok out
  else Ok out.

(** [fr.Bits - 1] of bls12-377. *)
Definition hashPackingSize : Z := 252.

Definition PackData (data : list Z) (inputPackingSize : Z) (hashPackingOptions : list packAlignOption) : outcome pack_error (list Z) :=
  '(data, dataNbBits) ← (if negb (inputPackingSize mod 8 =? 0) then
      let inputBytesPerElem := (inputPackingSize + 7) / 8 in
      unpacked ← enc_UnpackAlign data inputPackingSize true;
      Ok (unpacked, size data * 8 / inputBytesPerElem * inputPackingSize)
    else Ok (data, size data * 8));
  let lastByteNbUnusedBits := 8 - dataNbBits mod 8 in
  let lastByteNbUnusedBits := if lastByteNbUnusedBits =? 8 then 0 else lastByteNbUnusedBits in
  enc_PackAlign data hashPackingSize (hashPackingOptions ++ [WithLastByteNbUnusedBits lastByteNbUnusedBits]).
End Words.
