(* ===== verification/PackTheorems.v ===== *)
(** Unpacking inverts packing, for both versions of the format. *)
From S2P Require Import Prelude BitIo PackAlign.

(** ** Words *)

Definition widths_ok (ws : list Z) : Prop := Forall (fun w => 0 <= w <= 64) ws.

Definition total (ws : list Z) : nat := Z.to_nat (foldr Z.add 0 ws).

(** The words of an element that holds the bits [bs]. *)
Fixpoint enc_words (ws : list Z) (bs : list bool) : list Z :=
  match ws with
  | [] => []
  | w :: ws => be_bytes 8 (bits_value (take (Z.to_nat w) bs)) ++ enc_words ws (drop (Z.to_nat w) bs)
  end.

Fixpoint enc_elements (n : nat) (ws : list Z) (bs : list bool) : list Z :=
  match n with
  | O => []
  | S n => enc_words ws (take (total ws) bs) ++ enc_elements n ws (drop (total ws) bs)
  end.

Lemma total_nonneg ws : widths_ok ws -> 0 <= foldr Z.add 0 ws.
Proof. induction 1; cbn; lia. Qed.

Lemma total_cons w ws : widths_ok (w :: ws) -> total (w :: ws) = (Z.to_nat w + total ws)%nat.
Proof. intros Hw. apply Forall_cons in Hw as [Hw Hws]. apply total_nonneg in Hws. unfold total. cbn. lia. Qed.

Lemma length_enc_words ws bs : length (enc_words ws bs) = (8 * length ws)%nat.
Proof. revert bs. induction ws as [|w ws IH]; intros bs; [done|]. cbn [enc_words]. rewrite length_app, length_be_bytes, IH. cbn [length]. lia. Qed.

Lemma length_enc_elements n ws bs : length (enc_elements n ws bs) = (n * (8 * length ws))%nat.
Proof. revert bs. induction n as [|n IH]; intros bs; [done|]. cbn [enc_elements]. rewrite length_app, length_enc_words, IH. lia. Qed.

Lemma enc_elements_bytes n ws bs : Forall is_byte (enc_elements n ws bs).
Proof.
  revert bs. induction n as [|n IH]; intros bs; cbn [enc_elements]; [constructor|]. apply Forall_app. split; [|apply IH]. generalize (take (total ws) bs). clear IH bs.
  induction ws as [|w ws IH]; intros bs; cbn [enc_words]; [constructor|]. apply Forall_app. split; [apply be_bytes_bytes|apply IH].
Qed.

Section Words.
Context {W R : Type} `{BitIoLaws W R}.

Lemma read_words_ok ws (r : R) bs rest :
  widths_ok ws -> br_error r = false -> br_bits r = bs ++ rest -> length bs = total ws ->
  exists r', read_words ws r = (enc_words ws bs, r') /\ br_bits r' = rest /\ br_error r' = false.
Proof.
  intros Hws. revert r bs. induction Hws as [|w ws Hw Hws IH]; intros r bs Hr Hb Hl; cbn [read_words enc_words].
  - apply nil_length_inv in Hl as ->. by exists r.
  - rewrite total_cons in Hl by by constructor. destruct (br_read_bits r w Hw Hr) as (V & B & F); [rewrite Hb, length_app; lia|]. destruct (br_read r w) as [v r1]. cbn [fst snd] in *. subst v.
    rewrite Hb, drop_app_le in B by lia. destruct (IH r1 (drop (Z.to_nat w) bs) F B) as (r2 & -> & B2 & F2); [rewrite length_drop; lia|]. exists r2. rewrite Hb, take_app_le by lia. done.
Qed.

Lemma read_elements_ok n ws (r : R) bs rest :
  widths_ok ws -> br_error r = false -> br_bits r = bs ++ rest -> length bs = (n * total ws)%nat ->
  exists r', read_elements n ws r = (enc_elements n ws bs, r') /\ br_bits r' = rest /\ br_error r' = false.
Proof.
  intros Hws. revert r bs. induction n as [|n IH]; intros r bs Hr Hb Hl; cbn [read_elements enc_elements].
  - apply nil_length_inv in Hl as ->. by exists r.
  - rewrite <- (take_drop (total ws) bs) in Hb. rewrite <- app_assoc in Hb. destruct (read_words_ok ws r (take (total ws) bs) _ Hws Hr Hb) as (r1 & -> & B1 & F1); [rewrite length_take; lia|].
    destruct (IH r1 (drop (total ws) bs) F1 B1) as (r2 & -> & B2 & F2); [rewrite length_drop; lia|]. by exists r2.
Qed.

Lemma word_bits w bs : 0 <= w <= 64 -> (Z.to_nat w <= length bs)%nat -> bits_be (Z.to_nat w) (be_value (be_bytes 8 (bits_value (take (Z.to_nat w) bs)))) = take (Z.to_nat w) bs.
Proof.
  intros Hw Hl. rewrite be_value_be_bytes. assert (length (take (Z.to_nat w) bs) = Z.to_nat w) as El by (rewrite length_take; lia). pose proof (bits_value_range (take (Z.to_nat w) bs)) as Hr. rewrite El in Hr.
  assert (2 ^ Z.of_nat (Z.to_nat w) <= 2 ^ (8 * Z.of_nat 8)) by (apply Z.pow_le_mono_r; lia). rewrite Z.mod_small by lia. rewrite <- El at 1. apply bits_be_value.
Qed.

Lemma write_words_ok ws b off (out : list Z) (w : W) bs pre post :
  widths_ok ws -> Forall is_byte out -> b = pre ++ enc_words ws bs ++ post -> off = size pre -> length bs = total ws ->
  exists out' w', write_words ws b off out w = Ok (out', w') /\ Forall is_byte out' /\ bits_of_bytes out' ++ bw_bits w' = (bits_of_bytes out ++ bw_bits w) ++ bs.
Proof.
  intros Hws. revert off out w bs pre. induction Hws as [|n ws Hn Hws IH]; intros off out w bs pre Hout Eb Eoff Hl; cbn [write_words].
  - apply nil_length_inv in Hl as ->. exists out, w. by rewrite app_nil_r.
  - rewrite total_cons in Hl by by constructor. cbn [enc_words] in Eb. rewrite <- app_assoc in Eb. set (word := be_bytes 8 (bits_value (take (Z.to_nat n) bs))) in *. assert (length word = 8%nat) as Ew by apply length_be_bytes.
    rewrite slice_in; [|lia|rewrite Eb, !length_app; lia]. cbn [mbind outcome_bind]. replace (take (Z.to_nat (off + 8 - off)) (drop (Z.to_nat off) b)) with word.
    2: { rewrite Eb, Eoff, Nat2Z.id, drop_app_length. replace (Z.to_nat (size pre + 8 - size pre)) with (length word) by lia. by rewrite take_app_length. }
    destruct (bw_write_bits w (be_value word) n Hn) as (B1 & _ & E1). destruct (bw_write w (be_value word) n) as [o1 w1]. cbn [fst snd] in *.
    destruct (IH (off + 8) (out ++ o1) w1 (drop (Z.to_nat n) bs) (pre ++ word)) as (out2 & w2 & -> & B2 & E2); [by apply Forall_app|by rewrite <- app_assoc|rewrite length_app; lia|rewrite length_drop; lia|].
    exists out2, w2. split; [done|]. split; [done|]. rewrite E2, bits_of_bytes_app, <- (app_assoc (bits_of_bytes out)), E1. unfold word. rewrite word_bits by lia. rewrite <- !app_assoc. by rewrite take_drop.
Qed.

Lemma write_elements_ok n ws b len i (out : list Z) (w : W) bs pre post :
  widths_ok ws -> Forall is_byte out -> b = pre ++ enc_elements n ws bs ++ post -> len = 8 * size ws -> len * i = size pre -> length bs = (n * total ws)%nat ->
  exists out' w', write_elements n len ws b i out w = Ok (out', w') /\ Forall is_byte out' /\ bits_of_bytes out' ++ bw_bits w' = (bits_of_bytes out ++ bw_bits w) ++ bs.
Proof.
  intros Hws. revert i out w bs pre. induction n as [|n IH]; intros i out w bs pre Hout Eb Elen Ei Hl; cbn [write_elements].
  - apply nil_length_inv in Hl as ->. exists out, w. by rewrite app_nil_r.
  - cbn [enc_elements] in Eb. rewrite <- app_assoc in Eb. destruct (write_words_ok ws b (len * i) out w (take (total ws) bs) pre _ Hws Hout Eb Ei) as (o1 & w1 & -> & B1 & E1); [rewrite length_take; lia|]. cbn [mbind outcome_bind].
    destruct (IH (i + 1) o1 w1 (drop (total ws) bs) (pre ++ enc_words ws (take (total ws) bs))) as (o2 & w2 & -> & B2 & E2); [done|by rewrite <- app_assoc|done|rewrite length_app, length_enc_words; lia|rewrite length_drop; lia|].
    exists o2, w2. split; [done|]. split; [done|]. rewrite E2, E1, <- !app_assoc. by rewrite take_drop.
Qed.

(** The bytes of the closed writer: the bits, filled up with zeros. *)
Lemma close_ok (out : list Z) (w : W) l :
  Forall is_byte out -> Forall is_byte l -> bits_of_bytes out ++ bw_bits w `prefix_of` bits_of_bytes l ->
  (forall k, (length (bits_of_bytes out ++ bw_bits w) <= k)%nat -> (k < length (bits_of_bytes l))%nat -> bits_of_bytes l !! k = Some false) ->
  (8 * length l < length (bits_of_bytes out ++ bw_bits w) + 8)%nat -> close out w = l.
Proof.
  intros Ho Hl [rest Hpre] Hz Hlen. unfold close. pose proof (bw_align_bits w) as Ha. destruct (bw_align w) as [[bs k] w']. destruct Ha as (Hb & Hk & _ & Eb).
  apply bits_of_bytes_inj; [by apply Forall_app|done|]. rewrite bits_of_bytes_app, Eb, app_assoc, Hpre. f_equal. set (body := bits_of_bytes out ++ bw_bits w) in *.
  pose proof (f_equal length Hpre) as E1. rewrite length_bits_of_bytes, length_app in E1. assert (exists m, length body + Z.to_nat k = 8 * m)%nat as [m Em].
  { exists (length out + length bs)%nat. apply (f_equal length) in Eb. rewrite length_bits_of_bytes, length_app, length_replicate in Eb. unfold body. rewrite length_app, length_bits_of_bytes. lia. }
  assert (length rest = Z.to_nat k) as El by lia. apply list_eq. intros j. destruct (Nat.lt_ge_cases j (Z.to_nat k)) as [Hj|Hj]; [|rewrite !lookup_ge_None_2; [done|lia|rewrite length_replicate; lia]].
  rewrite lookup_replicate_2 by lia. specialize (Hz (length body + j)%nat). rewrite Hpre, lookup_app_r, Nat.add_comm, Nat.add_sub in Hz by lia. rewrite length_app in Hz. symmetry. apply Hz; lia.
Qed.
End Words.

Lemma strip_zeros_ok n x l cpt : x <> 0 -> strip_zeros cpt (reverse (l ++ x :: replicate n 0)) = Ok (cpt + Z.of_nat n, x, l).
Proof.
  intros Hx. rewrite reverse_app, reverse_cons, reverse_replicate, <- app_assoc. revert cpt. induction n as [|n IH]; intros cpt; cbn [replicate app strip_zeros].
  - replace (x =? 0) with false by lia. by rewrite reverse_involutive, Z.add_0_r.
  - rewrite IH. f_equal. f_equal. f_equal. lia.
Qed.

Lemma bits_of_zeros n : bits_of_bytes (replicate n 0) = replicate (8 * n) false.
Proof. induction n as [|n IH]; [done|]. cbn [replicate]. rewrite bits_of_bytes_cons, IH. replace (8 * S n)%nat with (8 + 8 * n)%nat by lia. by rewrite replicate_add. Qed.

Section Roundtrip.
Context {W R : Type} `{BitIoLaws W R}.

(** [n] elements of the bits of [src]: reading and writing them gives the first bytes of
    [src] back, when the bits of the last byte that are cut off are zero. *)
Lemma elements_roundtrip n ws src l m :
  widths_ok ws -> Forall is_byte src -> l = take m src -> (n * total ws <= 8 * m)%nat -> (8 * m < n * total ws + 8)%nat -> (m <= length src)%nat ->
  (forall k, (n * total ws <= k)%nat -> (k < 8 * m)%nat -> bits_of_bytes l !! k = Some false) ->
  exists out r, read_elements n ws (br_new src : R) = (out, r) /\ br_error r = false /\ length out = (n * (8 * length ws))%nat /\ Forall is_byte out /\
    exists o w, write_elements n (8 * size ws) ws out 0 [] (bw_new : W) = Ok (o, w) /\ close o w = l.
Proof.
  intros Hws Hsrc El Hm1 Hm2 Hm3 Hz. destruct (br_new_bits src Hsrc) as [Hb He]. set (bs := take (n * total ws) (bits_of_bytes src)). assert (length bs = (n * total ws)%nat) as Hlbs by (unfold bs; rewrite length_take, length_bits_of_bytes; lia).
  rewrite <- (take_drop (n * total ws) (bits_of_bytes src)) in Hb. fold bs in Hb. destruct (read_elements_ok n ws (br_new src) bs _ Hws He Hb Hlbs) as (r & E1 & _ & F1).
  exists (enc_elements n ws bs), r. split; [done|]. split; [done|]. split; [apply length_enc_elements|]. split; [apply enc_elements_bytes|].
  destruct (write_elements_ok n ws (enc_elements n ws bs) (8 * size ws) 0 [] bw_new bs [] [] Hws) as (o & w & E2 & B2 & Hbits); [constructor|by rewrite app_nil_r|done|cbn; lia|done|].
  exists o, w. split; [done|]. rewrite bw_new_bits in Hbits. change ((bits_of_bytes [] ++ []) ++ bs) with bs in Hbits. assert (bs = take (n * total ws) (bits_of_bytes l)) as Ebs by (rewrite El, bits_of_bytes_take, take_take; unfold bs; f_equal; lia).
  assert (length l = m) as Ell by (rewrite El, length_take; lia). apply close_ok; [done|rewrite El; by apply Forall_take| | |].
  - rewrite Hbits, Ebs. apply prefix_take.
  - rewrite Hbits, Hlbs, length_bits_of_bytes, Ell. exact Hz.
  - rewrite Hbits, Hlbs. lia.
Qed.

(** Data, a mark and zeros: the bits of the zeros. *)
Lemma marked_zeros d x z k : (8 * (length d + 1) <= k)%nat -> (k < 8 * (length d + 1 + z))%nat -> bits_of_bytes (d ++ x :: replicate z 0) !! k = Some false.
Proof.
  intros Hk1 Hk2. change (x :: replicate z 0) with ([x] ++ replicate z 0). rewrite app_assoc, bits_of_bytes_app, lookup_app_r; rewrite length_bits_of_bytes, length_app; cbn [length]; [|lia]. rewrite bits_of_zeros. apply lookup_replicate_2. lia.
Qed.

Lemma words_v0_ok : widths_ok words_v0.
Proof. unfold words_v0. repeat (apply Forall_cons_2; [vm_compute; split; discriminate|]). apply Forall_nil_2. Qed.

Lemma PackAlign_ok a b :
  Forall is_byte a -> Forall is_byte b ->
  exists out, PackAlign (R := R) a b = Ok out /\ size out = PackAlignSize a b /\ Forall is_byte out /\ UnpackAlign (W := W) out = Ok (a ++ b).
Proof.
  intros Ha Hb. unfold PackAlign. set (nb := size a + size b + 1). unfold extra_bits, packingSizeU256. set (ex := (248 - (nb * 8) mod 248) mod 248). assert (exists q, nb * 8 + ex = q * 248 /\ 1 <= q /\ 0 <= ex < 248) as (q & Eq & Hq & Hex) by (exists ((nb * 8 + ex) / 248); subst ex; golia).
  rewrite Eq, Z.mod_mul, Z.div_mul by lia. cbn [require mbind outcome_bind Z.eqb]. assert (ex = 8 * ((ex + 7) / 8)) as Ee by golia. set (bp := (ex + 7) / 8) in *. assert (0 <= bp <= 30) as Hbp by lia.
  rewrite slice_in; [|lia|cbn [length]; rewrite length_replicate; lia]. cbn [mbind outcome_bind]. rewrite drop_0. replace (Z.to_nat (bp + 1 - 0)) with (S (Z.to_nat bp)) by lia. cbn [take]. rewrite take_replicate, Nat.min_l by lia.
  rewrite uwrap_small by (unfold is_u; lia). set (src := a ++ b ++ bp + 1 :: replicate (Z.to_nat bp) 0). assert (size src = nb + bp) as Esz by (unfold src; rewrite !length_app; cbn [length]; rewrite length_replicate; lia).
  assert (Forall is_byte src) as Hsrc. { unfold src. apply Forall_app. split; [done|]. apply Forall_app. split; [done|]. constructor; [unfold is_u; lia|]. apply Forall_replicate. done. }
  assert (total words_v0 = 248%nat) as ET by reflexivity.
  destruct (elements_roundtrip (Z.to_nat q) words_v0 src src (length src)) as (out & r & E1 & F1 & L1 & B1 & o & w & E2 & E3); rewrite ?ET; try lia; [apply words_v0_ok|done|by rewrite firstn_all|].
  rewrite E1, F1. cbn [negb require mbind outcome_bind]. cbn [length words_v0] in L1. unfold PackAlignSize, extra_bits, packingSizeU256. fold nb ex. rewrite Eq, Z.div_mul, Z.eqb_refl by lia. cbn [require mbind outcome_bind].
  exists out. split; [done|]. split; [lia|]. split; [done|]. unfold UnpackAlign. rewrite L1. replace (Z.of_nat (Z.to_nat q * (8 * 4))) with (q * 32) by lia. rewrite Z.mod_mul, Z.div_mul by lia. cbn [require mbind outcome_bind Z.eqb].
  change (8 * size words_v0) with 32 in E2. rewrite E2. cbn [mbind outcome_bind]. rewrite E3. unfold src. rewrite app_assoc, strip_zeros_ok by lia. cbn [mbind outcome_bind]. rewrite Z.add_0_l, Z2Nat.id, Z.mod_small by lia.
  replace (bp =? bp + 1 - 1) with true by lia. done.
Qed.

(** C16. Packing of version 0: the packed bytes have the announced size, a multiple of 32,
    and unpacking them gives the two parts back. *)
Theorem PackAlign_roundtrip a b :
  Forall is_byte a -> Forall is_byte b ->
  exists out, PackAlign (R := R) a b = Ok out /\ size out = PackAlignSize a b /\ Forall is_byte out /\ UnpackAlign (W := W) out = Ok (a ++ b).
Proof. apply PackAlign_ok. Qed.

(** ** The general packing *)

(** The elements are whole 64-bit words. *)
Definition packing_ok (p : Z) : Prop := 1 <= p /\ ((p + 7) / 8) mod 8 = 0.

Lemma words_ok p : packing_ok p -> widths_ok (words p) /\ total (words p) = Z.to_nat p /\ 8 * size (words p) = (p + 7) / 8 /\ unpack_words p ((p + 7) / 8) = words p.
Proof.
  intros [Hp Hb]. unfold unpack_words, words. set (l := last_u64 p). assert (1 <= l <= 64 /\ exists m, p = l + 64 * m /\ 0 <= m) as [Hl (m & Em & Hm)].
  { unfold l, last_u64. destruct (Z.eqb_spec (p mod 64) 0); [split; [lia|]; exists (p / 64 - 1)|split; [golia|]; exists (p / 64)]; golia. }
  assert ((p - l + 63) / 64 = m) as -> by golia. assert (((p + 7) / 8 - 8 + 7) / 8 = m) as -> by golia. rewrite length_cons, length_replicate.
  split; [constructor; [lia|]; apply Forall_replicate; lia|]. split; [|split; [golia|done]]. unfold total. cbn [foldr]. assert (foldr Z.add 0 (replicate (Z.to_nat m) 64) = 64 * m) as ->; [|f_equal; lia].
  rewrite <- (Z2Nat.id m) at 2 by lia. generalize (Z.to_nat m) as n. intros n. induction n as [|n IH]; [done|]. cbn [replicate foldr]. lia.
Qed.

Lemma round_up d p : 1 <= p -> 0 <= d -> exists q, (d + (p - 1)) / p = q /\ d <= q * p < d + p /\ (d + (p - d mod p) mod p) / p = q.
Proof.
  intros Hp Hd. exists ((d + (p - 1)) / p). split; [done|]. pose proof (Z.div_mod d p ltac:(lia)) as E. pose proof (Z.mod_pos_bound d p ltac:(lia)) as Hr. destruct (Z.eq_dec (d mod p) 0) as [E0|E0].
  - assert ((d + (p - 1)) / p = d / p) as -> by (symmetry; apply (Z.div_unique _ p _ (p - 1)); lia). split; [lia|]. rewrite E0, Z.sub_0_r, Z.mod_same, Z.add_0_r by lia. done.
  - assert ((d + (p - 1)) / p = d / p + 1) as -> by (symmetry; apply (Z.div_unique _ p _ (d mod p - 1)); lia). split; [lia|]. rewrite (Z.mod_small (p - d mod p)) by lia. replace (d + (p - d mod p)) with ((d / p + 1) * p) by lia. by rewrite Z.div_mul by lia.
Qed.

Lemma size_concat (l : list (list Z)) : foldr (fun data n => size data + n) 0 l = size (concat l).
Proof. induction l as [|x l IH]; [done|]. cbn [foldr concat]. rewrite IH, length_app. lia. Qed.

Lemma initialize_ok len data : initialize len [WithAdditionalInput data] = Ok (mkSettings ((len + size (concat data) + 1) * 8) 0 false data).
Proof. unfold initialize. cbn [foldM apply_pack_option mbind outcome_bind additionalInput dataNbBits lastByteNbUnusedBits noTerminalSymbol app negb]. rewrite size_concat, Z.sub_0_r. done. Qed.

Lemma enc_PackAlign_ok a data p opts :
  initialize (size a) opts = Ok (mkSettings ((size a + size (concat data) + 1) * 8) 0 false data) -> packing_ok p -> Forall is_byte a -> Forall (Forall is_byte) data ->
  exists out, enc_PackAlign (R := R) a p opts = Ok out /\ enc_PackAlignSize (size a) p opts = Ok (size out) /\ Forall is_byte out /\
    enc_UnpackAlign (W := W) out p false = Ok (a ++ concat data).
Proof.
  intros Hini Hp Ha Hd. pose proof (words_ok p Hp) as (HW & HT & HL & HU). destruct Hp as [Hp1 Hp8]. unfold enc_PackAlign, enc_PackAlignSize. rewrite !Hini. cbn [mbind outcome_bind dataNbBits lastByteNbUnusedBits noTerminalSymbol additionalInput negb andb Z.eqb require].
  set (nb := size a + size (concat data) + 1). assert (1 <= nb) by (unfold nb; lia). destruct (round_up (nb * 8) p ltac:(lia) ltac:(lia)) as (q & -> & Hq & Esz). rewrite Esz, Z.div_mul by lia.
  set (bp := (q * p - nb * 8 + 7) / 8). assert (0 <= bp <= (p + 7) / 8 /\ q * p <= 8 * (nb + bp) < q * p + 8) as [Hbp Hbits] by (subst bp; golia). assert (1 <= q) by nia.
  rewrite slice_in; [|lia|cbn [length]; rewrite length_replicate; lia]. cbn [mbind outcome_bind]. rewrite drop_0. replace (Z.to_nat (bp + 1 - 0)) with (S (Z.to_nat bp)) by lia. cbn [take]. rewrite take_replicate, Nat.min_l by lia.
  set (src := a ++ concat data ++ 255 :: replicate (Z.to_nat bp) 0). assert (size src = nb + bp) as Es by (unfold src; rewrite !length_app; cbn [length]; rewrite length_replicate; lia).
  assert (Forall is_byte src) as Hsrc. { unfold src. apply Forall_app. split; [done|]. apply Forall_app. split; [by apply Forall_concat|]. constructor; [done|]. by apply Forall_replicate. }
  assert (Z.to_nat q * total (words p) = Z.to_nat (q * p))%nat as Emul by (rewrite HT, Z2Nat.inj_mul; lia).
  destruct (elements_roundtrip (Z.to_nat q) (words p) src src (length src)) as (out & r & E1 & F1 & L1 & B1 & o & w & E2 & E3); rewrite ?Emul; try lia; [done|done|by rewrite firstn_all| |].
  { intros k Hk1 Hk2. unfold src. rewrite app_assoc. apply marked_zeros; rewrite length_app; lia. }
  rewrite E1, F1. cbn [negb require mbind outcome_bind]. rewrite Z.eqb_refl. cbn [require mbind outcome_bind]. exists out. split; [done|]. rewrite <- HL. assert (size out = q * (8 * size (words p))) as L2 by (rewrite L1; lia). split; [by rewrite L2|]. split; [done|].
  unfold enc_UnpackAlign. rewrite <- HL, L2, Z.div_mul by (rewrite HL; golia). rewrite Z.eqb_refl. cbn [require mbind outcome_bind]. rewrite HL, HU, <- HL, E2. cbn [mbind outcome_bind negb]. rewrite E3. unfold src. rewrite app_assoc, strip_zeros_ok by lia. done.
Qed.

(** Packing into elements of [p] bits, where the elements are whole 64-bit words: the
    packed bytes have the announced size, and unpacking them gives the data and the
    additional data back. *)
Theorem enc_PackAlign_roundtrip a data p :
  packing_ok p -> Forall is_byte a -> Forall (Forall is_byte) data ->
  exists out, enc_PackAlign (R := R) a p [WithAdditionalInput data] = Ok out /\ enc_PackAlignSize (size a) p [WithAdditionalInput data] = Ok (size out) /\ Forall is_byte out /\
    enc_UnpackAlign (W := W) out p false = Ok (a ++ concat data).
Proof. apply enc_PackAlign_ok, initialize_ok. Qed.

(** [PackData] counts the bits of elements that are not whole bytes eight times, so that
    the number of unused bits is always 0: the bits that fill up the last byte are packed
    as data. *)
Lemma PackData_unused data p opts k :
  0 < p -> p mod 8 <> 0 -> size data = k * ((p + 7) / 8) ->
  PackData (W := W) (R := R) data p opts = (unpacked ← enc_UnpackAlign (W := W) data p true; enc_PackAlign (R := R) unpacked hashPackingSize (opts ++ [WithLastByteNbUnusedBits 0])).
Proof.
  intros Hp Hp8 Hk. unfold PackData. replace (p mod 8 =? 0) with false by lia. cbn [negb]. destruct (enc_UnpackAlign data p true) as [u| |]; [|done..]. cbn [mbind outcome_bind].
  replace (size data * 8 / ((p + 7) / 8) * p) with (k * p * 8) by (rewrite Hk; replace (k * ((p + 7) / 8) * 8) with (k * 8 * ((p + 7) / 8)) by lia; rewrite Z.div_mul by golia; lia). by rewrite Z.mod_mul by lia.
Qed.
End Roundtrip.

(** ** Witnesses *)

Abbreviation writer := (list bool).
Abbreviation reader := (list bool * bool)%type.

Lemma PackAlign_roundtrip_witness : exists out, PackAlign (R := reader) [1; 2; 3] [0; 0] = Ok out /\ size out = 32 /\ UnpackAlign (W := writer) out = Ok [1; 2; 3; 0; 0].
Proof.
  destruct (PackAlign_roundtrip (W := writer) (R := reader) [1; 2; 3] [0; 0]) as (out & E1 & E2 & _ & E3); [by apply bytes_check|by apply bytes_check|]. by exists out.
Defined.

Lemma enc_PackAlign_roundtrip_witness :
  exists out, enc_PackAlign (R := reader) [1; 2; 3] 254 [WithAdditionalInput [[255]; [0; 0]]] = Ok out /\ enc_UnpackAlign (W := writer) out 254 false = Ok [1; 2; 3; 255; 0; 0].
Proof.
  destruct (enc_PackAlign_roundtrip (W := writer) (R := reader) [1; 2; 3] [[255]; [0; 0]] 254) as (out & E1 & _ & _ & E3);
    [by split|by apply bytes_check|by repeat (apply Forall_cons_2; [by apply bytes_check|])|]. by exists out.
Defined.

(** Unpacking an empty slice, or zeros only, panics instead of returning an error. *)
Example unpack_nothing : UnpackAlign (W := writer) [] = Panic /\ UnpackAlign (W := writer) (replicate 32 0) = Panic /\ enc_UnpackAlign (W := writer) [] 254 false = Panic.
Proof. by vm_compute. Qed.
