(* ===== verification/Compressors.v ===== *)
(** The interface between the blob makers and their compressors.

    Version 0 of the blobs uses the compressor of the repository, the later versions use
    [github.com/consensys/compress/lzss], which is third-party code with the same
    methods.  The blob makers are modelled and proved against [CompressorOps] and
    [CompressorLaws]; [lzss_laws] discharges the interface for the compressor of
    [Lzss]. *)
From S2P Require Import Prelude BitIo GoState SuffixArray Lzss LzssTheorems LzssState.

Class CompressorOps (C E : Type) := {
  c_AugmentDict : list Z -> list Z;
  c_NewCompressor : list Z -> outcome E C;
  c_HeaderSize : Z;
  c_Write : list Z -> method C E unit;
  c_Revert : method C E unit;
  c_ConsiderBypassing : method C E bool;
  c_Reset : C -> C;
  c_Bytes : C -> list Z;
  c_WrittenBytes : C -> list Z;
  c_Len : C -> Z;
  c_Written : C -> Z;
  c_CompressedSize256k : C -> list Z -> outcome E Z;
  c_Decompress : list Z -> list Z -> outcome E (list Z)
}.

(** [c_ok] are the states in which the compressor can be used, and [c_undo c p] says that
    the last write can be reverted, to the text [p]. *)
Class CompressorLaws (C E : Type) `{CompressorOps C E} (dict : list Z) := {
  c_ok : C -> Prop;
  c_undo : C -> list Z -> Prop;
  c_new : size (c_AugmentDict dict) <= MaxDictSize -> exists c, c_NewCompressor dict = Ok c /\ c_ok c /\ c_WrittenBytes c = [];
  c_sizes c : c_Len c = size (c_Bytes c) /\ c_Written c = size (c_WrittenBytes c);
  c_decompress c : c_ok c -> c_Decompress (c_Bytes c) dict = Ok (c_WrittenBytes c);
  c_bytes c : c_ok c -> Forall is_byte (c_Bytes c) /\ Forall is_byte (c_WrittenBytes c);
  c_write c d :
    c_ok c -> Forall is_byte d -> size (c_WrittenBytes c) + size d <= MaxInputSize ->
    exists c', c_Write d c = (c', Ok tt) /\ c_ok c' /\ c_WrittenBytes c' = c_WrittenBytes c ++ d /\ c_undo c' (c_WrittenBytes c);
  c_revert c p : c_ok c -> c_undo c p -> exists c', c_Revert c = (c', Ok tt) /\ c_ok c' /\ c_WrittenBytes c' = p;
  c_bypass c : c_ok c -> exists c' b, c_ConsiderBypassing c = (c', Ok b) /\ c_ok c' /\ c_WrittenBytes c' = c_WrittenBytes c /\ forall p, c_undo c p -> c_undo c' p;
  c_reset c : c_ok c -> c_ok (c_Reset c) /\ c_WrittenBytes (c_Reset c) = []
}.

(** The compressor of version 0. *)
#[export] Instance lzss_ops {W R} `{BitIo W R} `{SuffixSort} : CompressorOps (Compressor W) lzss_error := {
  c_AugmentDict := AugmentDict;
  c_NewCompressor dict := NewCompressor dict BestCompression;
  c_HeaderSize := HeaderSize;
  c_Write := Write;
  c_Revert := Revert;
  c_ConsiderBypassing := ConsiderBypassing;
  c_Reset := Reset;
  c_Bytes := Bytes;
  c_WrittenBytes := WrittenBytes;
  c_Len := Len;
  c_Written := Written;
  c_CompressedSize256k := CompressedSize256k;
  c_Decompress := Decompress (R := R)
}.

#[export] Instance lzss_laws {W R} `{BitIoLaws W R} `{SuffixSort} dict : CompressorLaws (Compressor W) lzss_error dict.
Proof.
  refine {| c_ok c := compressor_ok c /\ dictData c = AugmentDict dict; c_undo := revertible |}; cbn [c_AugmentDict c_NewCompressor c_Len c_Written c_Write c_Revert c_ConsiderBypassing c_Reset c_Bytes c_WrittenBytes c_Decompress lzss_ops].
  - intros Hsz. destruct (NewCompressor_ok dict BestCompression) as (c & E & Hok & Hin & Hd & _); [right; by left|done|]. exists c. split; [done|]. by split.
  - done.
  - intros c [Hok Hd]. by apply Decompress_ok.
  - intros c [[_ _ [Hin _] [Hb _]] _]. by split.
  - intros c d [Hok Hd] Hb Hsz. destruct (Write_ok c d Hok Hb Hsz) as (c' & E & Hok' & Hin & Hr & _ & Hs & _). exists c'. split; [done|]. split; [split; [done|by rewrite Hs]|done].
  - intros c p [Hok Hd] Hp. destruct (Revert_ok c p Hok Hp) as (c' & E & Hok' & Hin & Hs & _). exists c'. split; [done|]. split; [split; [done|by rewrite Hs]|done].
  - intros c [Hok Hd]. destruct (ConsiderBypassing_ok c Hok) as (c' & b & E & Hok' & Hin & [Hs _] & Hr & _). exists c', b. split; [done|]. split; [split; [done|by rewrite Hs]|done].
  - intros c [Hok Hd]. destruct (Reset_ok c (ok_config c Hok) (ok_bw c Hok)) as (Hok' & Hin & _ & Hs & _). split; [split; [done|by rewrite Hs]|done].
Qed.
