(* ===== verification/HeaderV0.v ===== *)
(** The header of the blobs of version 0: [prover/lib/compressor/blob/v0/header.go].

    A header holds the checksum of the dictionary and, for each batch, the lengths of its
    blocks.  It is written uncompressed in front of the blob. *)
From S2P Require Import Prelude BitIo PackAlign.

Inductive header_error :=
| EmptyHeader
| DictMismatch
| BatchSizeMismatch (i : Z)
| BlockSizeMismatch (i j : Z)
| BatchCountMismatch
| TooManyBlocks
| BlockTooLong
| HeaderRead.

Record Header := mkHeader {
  DictChecksum : list Z;
  table : list (list Z);
  byteSizeUnpacked : Z
}.

(** ** Comparison *)

(** The first position where two lists differ, of the first one's positions. *)
Fixpoint blocks_differ (a b : list Z) (j : Z) : option Z :=
  match a, b with
  | x :: a, y :: b => if x =? y then blocks_differ a b (j + 1) else Some j
  | _, _ => None
  end.

Fixpoint check_tables (small large : list (list Z)) (i : Z) : outcome header_error (list (list Z)) :=
  match small, large with
  | [], large => Ok large
  | s :: small, l :: large =>
      _ ← require (size s =? size l) (BatchSizeMismatch i);
      match blocks_differ s l 0 with
      | Some j => Err (BlockSizeMismatch i j)
      | None => check_tables small large (i + 1)
      end
  | _ :: _, [] => Panic
  end.

(** [other] is [None] for a nil pointer. *)
Definition CheckEquality (s : Header) (other : option Header) : outcome header_error unit :=
  match other with
  | None => Err EmptyHeader
  | Some other =>
      _ ← require (bool_decide (DictChecksum s = DictChecksum other)) DictMismatch;
      let '(small, large) := if size (table other) <? size (table s) then (table other, table s) else (table s, table other) in
      rest ← check_tables small large 0;
      require (forallb (fun b => size b =? 0) rest) BatchCountMismatch
  end.

Definition Equals (s : Header) (other : option Header) : bool := match CheckEquality s other with Ok _ => true | _ => false end.

(** ** Operations *)

Definition NbBatches (s : Header) : Z := size (table s).
Definition NbBlocksInBatch {E} (s : Header) (i : Z) : outcome E Z := b ← at_ (table s) i; Ok (size b).
Definition BlockLength {E} (s : Header) (i j : Z) : outcome E Z := b ← at_ (table s) i; at_ b j.

Definition set_table (t : list (list Z)) (s : Header) : Header := mkHeader (DictChecksum s) t (byteSizeUnpacked s).

Definition addBatch (s : Header) : Header := set_table (table s ++ [[]]) s.

Definition ByteSize (s : Header) : Z := byteSizeUnpacked s.

(** [utils.DivCeil]. *)
Definition DivCeil (a b : Z) : Z := let res := a / b in if b * res <? a then res + 1 else res.

Definition ByteSizePacked (s : Header) : Z := byteSizeUnpacked s + DivCeil (byteSizeUnpacked s * 8) packingSizeU256.

(** [s.table[batchID] = f(s.table[batchID])] for the last batch. *)
Definition on_last_batch {E} (f : list Z -> outcome E (list Z)) (s : Header) : outcome E Header :=
  b ← at_ (table s) (size (table s) - 1);
  b ← f b;
  Ok (set_table (<[pred (length (table s)) := b]> (table s)) s).

Definition addBlock {E} (blockLength : Z) (s : Header) : outcome E Header := on_last_batch (fun b => Ok (b ++ [blockLength])) s.
Definition removeLastBlock {E} (s : Header) : outcome E Header := on_last_batch (fun b => slice b 0 (size b - 1)) s.
Definition resetTable (s : Header) : Header := set_table [] s.

(** ** Writing *)

Definition maxUint24 : Z := 2 ^ 24 - 1.

Definition write_block (blockLength : Z) : outcome header_error (list Z) :=
  _ ← require (negb (maxUint24 <? blockLength)) BlockTooLong;
  Ok [u8 blockLength; u8 (blockLength ≫ 8); u8 (blockLength ≫ 16)].

Definition write_batch (batch : list Z) : outcome header_error (list Z) :=
  let nbBlocksInBatch := uwrap 16 (size batch) in
  _ ← require (nbBlocksInBatch =? size batch) TooManyBlocks;
  blocks ← mapM_ write_block batch;
  Ok (le_bytes 2 nbBlocksInBatch ++ concat blocks).

Definition WriteTo (s : Header) : outcome header_error (list Z) :=
  let nbBatches := uwrap 16 (size (table s)) in
  batches ← mapM_ write_batch (table s);
  Ok (DictChecksum s ++ le_bytes 2 nbBatches ++ concat batches).

(** ** Reading *)

(** [io.ReadFull] of [n] bytes: the bytes, and those that are left. *)
Definition read_full (r : list Z) (n : nat) : outcome header_error (list Z * list Z) :=
  if (n <=? length r)%nat then Ok (take n r, drop n r) else Err HeaderRead.

Fixpoint read_blocks (n : nat) (r : list Z) : outcome header_error (list Z * list Z) :=
  match n with
  | O => Ok ([], r)
  | S n => '(b, r) ← read_full r 3; '(bs, r) ← read_blocks n r; Ok (le_value b :: bs, r)
  end.

Fixpoint read_batches (n : nat) (r : list Z) : outcome header_error (list (list Z) * list Z) :=
  match n with
  | O => Ok ([], r)
  | S n =>
      '(b, r) ← read_full r 2;
      '(blocks, r) ← read_blocks (Z.to_nat (le_value b)) r;
      '(rest, r) ← read_batches n r;
      Ok (blocks :: rest, r)
  end.

(** The header, and the number of bytes read. *)
Definition ReadFrom (r : list Z) : outcome header_error (Header * Z) :=
  '(checksum, r1) ← read_full r 32;
  '(nb, r2) ← read_full r1 2;
  '(t, r3) ← read_batches (Z.to_nat (le_value nb)) r2;
  let read := size r - size r3 in
  Ok (mkHeader checksum t read, read).

(** ** Theorems *)

Lemma read_full_app n a b : length a = n -> read_full (a ++ b) n = Ok (a, b).
Proof. intros <-. unfold read_full. rewrite length_app. replace (length a <=? length a + length b)%nat with true by lia. by rewrite take_app_length, drop_app_length. Qed.

Lemma le_value_2 n : 0 <= n < 65536 -> le_value (le_bytes 2 n) = n.
Proof. intros Hn. rewrite le_value_le_bytes. apply Z.mod_small. cbn. lia. Qed.

Lemma write_block_ok l : 0 <= l <= maxUint24 -> write_block l = Ok (le_bytes 3 l).
Proof.
  intros Hl. unfold write_block. replace (maxUint24 <? l) with false by lia. cbn [negb require mbind outcome_bind le_bytes]. unfold uwrap. rewrite !Z.shiftr_div_pow2 by lia. change (2 ^ 8) with 256. change (2 ^ 16) with (256 * 256). rewrite <- Z.div_div by lia. done.
Qed.

Lemma mapM_blocks batch : Forall (fun l => 0 <= l <= maxUint24) batch -> mapM_ write_block batch = Ok (le_bytes 3 <$> batch).
Proof. induction 1 as [|l batch Hl _ IH]; [done|]. cbn [mapM_]. by rewrite write_block_ok, IH. Qed.

Lemma read_blocks_ok batch r : Forall (fun l => 0 <= l <= maxUint24) batch -> read_blocks (length batch) (concat (le_bytes 3 <$> batch) ++ r) = Ok (batch, r).
Proof.
  induction 1 as [|l batch Hl _ IH]; [done|]. cbn [fmap list_fmap concat length read_blocks]. rewrite <- app_assoc, read_full_app by apply length_le_bytes. cbn [mbind outcome_bind]. fold (fmap (M := list) (le_bytes 3) batch). rewrite IH. cbn [mbind outcome_bind].
  rewrite le_value_le_bytes, Z.mod_small; [done|]. unfold maxUint24 in Hl. cbn. lia.
Qed.

(** A table that fits the format. *)
Definition table_ok (t : list (list Z)) : Prop := size t < 65536 /\ Forall (fun b => size b < 65536 /\ Forall (fun l => 0 <= l <= maxUint24) b) t.

Definition batch_bytes (batch : list Z) : list Z := le_bytes 2 (size batch) ++ concat (le_bytes 3 <$> batch).

Lemma write_batch_ok batch : size batch < 65536 -> Forall (fun l => 0 <= l <= maxUint24) batch -> write_batch batch = Ok (batch_bytes batch).
Proof. intros Hs Hb. unfold write_batch. rewrite (uwrap_small 16) by (unfold is_u; cbn; lia). rewrite Z.eqb_refl. cbn [require mbind outcome_bind]. by rewrite mapM_blocks. Qed.

Definition header_of_table (checksum : list Z) (t : list (list Z)) : list Z := checksum ++ le_bytes 2 (size t) ++ concat (batch_bytes <$> t).

Lemma WriteTo_ok s : table_ok (table s) -> WriteTo s = Ok (header_of_table (DictChecksum s) (table s)).
Proof.
  intros [Hn Ht]. unfold WriteTo. rewrite (uwrap_small 16) by (unfold is_u; cbn; lia). assert (mapM_ write_batch (table s) = Ok (batch_bytes <$> table s)) as ->; [|done].
  clear Hn. induction Ht as [|b t [Hb1 Hb2] _ IH]; [done|]. cbn [mapM_]. by rewrite write_batch_ok, IH.
Qed.

Lemma read_batches_ok t r : Forall (fun b => size b < 65536 /\ Forall (fun l => 0 <= l <= maxUint24) b) t -> read_batches (length t) (concat (batch_bytes <$> t) ++ r) = Ok (t, r).
Proof.
  induction 1 as [|b t [Hb1 Hb2] _ IH]; [done|]. cbn [fmap list_fmap concat length read_batches]. unfold batch_bytes at 1. rewrite <- !app_assoc, read_full_app by apply length_le_bytes. cbn [mbind outcome_bind].
  rewrite le_value_2, Nat2Z.id by lia. rewrite read_blocks_ok by done. cbn [mbind outcome_bind]. fold (fmap (M := list) batch_bytes t). rewrite IH. done.
Qed.

Lemma header_roundtrip checksum t r :
  length checksum = 32%nat -> table_ok t -> ReadFrom (header_of_table checksum t ++ r) = Ok (mkHeader checksum t (size (header_of_table checksum t)), size (header_of_table checksum t)).
Proof.
  intros Hc [Hn Ht]. unfold ReadFrom, header_of_table. rewrite <- !app_assoc, read_full_app by done. cbn [mbind outcome_bind]. rewrite read_full_app by apply length_le_bytes. cbn [mbind outcome_bind]. rewrite le_value_2, Nat2Z.id by lia.
  rewrite read_batches_ok by done. cbn [mbind outcome_bind]. do 2 f_equal; [f_equal|]; rewrite !length_app; lia.
Qed.

(** Writing a header and reading it back: a header whose counts and lengths fit their
    fields is written without an error, and reading the bytes, whatever follows them,
    gives the same header and the number of bytes written. *)
Theorem HeaderV0_roundtrip s r :
  length (DictChecksum s) = 32%nat -> table_ok (table s) ->
  exists out, WriteTo s = Ok out /\ ReadFrom (out ++ r) = Ok (mkHeader (DictChecksum s) (table s) (size out), size out).
Proof. intros Hc Ht. eexists. split; [by apply WriteTo_ok|]. by apply header_roundtrip. Qed.

Lemma HeaderV0_roundtrip_witness :
  exists out, WriteTo (mkHeader (replicate 32 7) [[3; 70000]; []] 0) = Ok out /\ ReadFrom (out ++ [1]) = Ok (mkHeader (replicate 32 7) [[3; 70000]; []] 44, 44).
Proof.
  destruct (HeaderV0_roundtrip (mkHeader (replicate 32 7) [[3; 70000]; []] 0) [1]) as (out & E1 & E2); [done| |].
  - split; [cbn; lia|]. repeat (apply Forall_cons_2 || apply Forall_nil_2 || split); vm_compute; done.
  - exists out. split; [done|]. assert (size out = 44) as Es by (vm_compute in E1; by injection E1 as <-). by rewrite Es in E2.
Defined.

(** The number of batches is cut to 16 bits without an error. *)
Lemma batches_wrap s : size (table s) = 65536 -> Forall (fun b => b = []) (table s) -> WriteTo s = Ok (DictChecksum s ++ [0; 0] ++ concat (batch_bytes <$> table s)).
Proof.
  intros Hn Ht. unfold WriteTo. rewrite Hn. assert (mapM_ write_batch (table s) = Ok (batch_bytes <$> table s)) as ->; [|done]. clear Hn. induction Ht as [|b t -> _ IH]; [done|]. cbn [mapM_ fmap list_fmap]. fold (fmap (M := list) batch_bytes t). by rewrite IH.
Qed.

(** Headers with the same batches, up to empty batches at the end. *)
Lemma blocks_differ_refl a j : blocks_differ a a j = None.
Proof. revert j. induction a as [|x a IH]; intros j; [done|]. cbn. by rewrite Z.eqb_refl. Qed.

Lemma check_tables_prefix a rest i : check_tables a (a ++ rest) i = Ok rest.
Proof. revert i. induction a as [|b a IH]; intros i; [done|]. cbn [app check_tables]. rewrite Z.eqb_refl, blocks_differ_refl. cbn. apply IH. Qed.

Lemma CheckEquality_trailing c t n m k1 k2 : CheckEquality (mkHeader c (t ++ replicate n []) k1) (Some (mkHeader c (t ++ replicate m []) k2)) = Ok tt.
Proof.
  unfold CheckEquality. cbn [DictChecksum table]. rewrite bool_decide_eq_true_2 by done. cbn [require mbind outcome_bind]. rewrite !length_app, !length_replicate.
  destruct (Z.ltb_spec (Z.of_nat (length t + m)) (Z.of_nat (length t + n))).
  - replace n with (m + (n - m))%nat by lia. rewrite replicate_add, app_assoc, check_tables_prefix. cbn [mbind outcome_bind]. generalize (n - m)%nat as q. intros q. by induction q.
  - replace m with (n + (m - n))%nat by lia. rewrite replicate_add, app_assoc, check_tables_prefix. cbn [mbind outcome_bind]. generalize (m - n)%nat as q. intros q. by induction q.
Qed.
