(* ===== verification/TxEncoding.v ===== *)
(** The encoding of transactions: [prover/backend/ethereum/tx_encoding.go].

    A transaction is encoded as the bytes that are hashed for its signature, and decoded
    again without the signature.  The package [rlp] and the types of [go-ethereum] are
    third-party code: [Rlp] and [Geth] hold the functions that are called, [RlpLaws] and
    [GethLaws] what their documentation says of them.  A transaction is given by the
    results of its accessors. *)
From S2P Require Import Prelude BitIo.

(** ** The package [rlp] *)

(** What [rlp] decodes into an [any]: a byte string or a list. *)
Inductive item :=
| Str (b : list Z)
| Lst (l : list item).

Class Rlp := {
  (** The bytes of an item. *)
  rlp_Encode : item -> list Z;
  (** Reads one item: the item, and the bytes that are left in the reader. *)
  rlp_Decode : list Z -> option (item * list Z);
  (** The byte string of an unsigned integer. *)
  rlp_uint : Z -> list Z
}.

(** The items that the encoder takes: strings of bytes. *)
Inductive item_ok : item -> Prop :=
| ok_Str b : Forall is_byte b -> item_ok (Str b)
| ok_Lst l : Forall item_ok l -> item_ok (Lst l).

Class RlpLaws `{Rlp} := {
  rlp_roundtrip i r : item_ok i -> size (rlp_Encode i) < 2 ^ 64 -> rlp_Decode (rlp_Encode i ++ r) = Some (i, r);
  rlp_consumes b i r : rlp_Decode b = Some (i, r) -> (length r < length b)%nat;
  rlp_bytes i : item_ok i -> size (rlp_Encode i) < 2 ^ 64 -> Forall is_byte (rlp_Encode i);
  (** The head of a list: its length, or the length of its length. *)
  rlp_list l :
    rlp_Encode (Lst l) =
      let p := concat (rlp_Encode <$> l) in
      (if size p <? 56 then [192 + size p] else 247 + size (rlp_uint (size p)) :: rlp_uint (size p)) ++ p;
  rlp_nonempty i : rlp_Encode i <> [];
  rlp_uint_value n : 0 <= n -> be_value (rlp_uint n) = n;
  rlp_uint_bytes n : Forall is_byte (rlp_uint n);
  rlp_uint_size n k : 0 <= k -> 0 <= n < 2 ^ (8 * k) -> size (rlp_uint n) <= k
}.

(** ** [go-ethereum] *)

Record AccessTuple := mkAccessTuple { at_Address : list Z; StorageKeys : list (list Z) }.

Record SetCodeAuthorization := mkSetCodeAuthorization {
  auth_ChainID : Z;
  auth_Address : list Z;
  auth_Nonce : Z;
  auth_V : Z;
  auth_R : Z;
  auth_S : Z
}.

(** The results of the accessors of a [types.Transaction].  [tx_sender] is the result of
    [Sender] for the signer that [GetSigner] chooses. *)
Record Transaction := mkTransaction {
  tx_Type : Z;
  tx_Protected : bool;
  tx_ChainId : Z;
  tx_Nonce : Z;
  tx_GasPrice : Z;
  tx_GasTipCap : Z;
  tx_GasFeeCap : Z;
  tx_Gas : Z;
  tx_To : option (list Z);
  tx_Value : Z;
  tx_Data : list Z;
  tx_AccessList : list AccessTuple;
  tx_SetCodeAuthorizations : list SetCodeAuthorization;
  tx_sender : option (list Z)
}.

(** [types.TxData], without the signature.  [V] is nil in a transaction that is not
    protected, and [ChainID] where it is not decoded. *)
Inductive TxData :=
| LegacyTx (Nonce GasPrice Gas : Z) (To : option (list Z)) (Value : Z) (Data : list Z) (V : option Z)
| AccessListTx (ChainID : option Z) (Nonce GasPrice Gas : Z) (To : option (list Z)) (Value : Z) (Data : list Z) (AccessList : list AccessTuple)
| DynamicFeeTx (ChainID : option Z) (Nonce GasTipCap GasFeeCap Gas : Z) (To : option (list Z)) (Value : Z) (Data : list Z) (AccessList : list AccessTuple)
| SetCodeTx (ChainID Nonce GasTipCap GasFeeCap Gas : Z) (To : list Z) (Value : Z) (Data : list Z) (AccessList : list AccessTuple) (AuthList : list SetCodeAuthorization).

Class Geth := {
  BytesToAddress : list Z -> list Z;
  BytesToHash : list Z -> list Z;
  (** [uint256.Int.SetBytes]. *)
  uint256_SetBytes : list Z -> Z
}.

Class GethLaws `{Geth} := {
  BytesToAddress_20 b : length b = 20%nat -> BytesToAddress b = b;
  BytesToHash_32 b : length b = 32%nat -> BytesToHash b = b;
  uint256_32 b : (length b <= 32)%nat -> Forall is_byte b -> uint256_SetBytes b = be_value b
}.

Definition LegacyTxType : Z := 0.
Definition AccessListTxType : Z := 1.
Definition DynamicFeeTxType : Z := 2.
Definition SetCodeTxType : Z := 4.

Inductive tx_error :=
| EmptyBuffer
| FirstByte (b : Z)
| RlpDecode
| NumberOfFields
| UnsupportedType
| CouldNotDecode.

(** ** Encoding *)

Section Encoding.
Context `{Rlp}.

(** How [rlp] takes the values of Go. *)
Definition of_uint (n : Z) : item := Str (rlp_uint n).
Definition of_to (a : option (list Z)) : item := Str (default [] a).
Definition of_tuple (t : AccessTuple) : item := Lst [Str (at_Address t); Lst (Str <$> StorageKeys t)].
Definition of_access_list (l : list AccessTuple) : item := Lst (of_tuple <$> l).
Definition of_auth (a : SetCodeAuthorization) : item := Lst [of_uint (auth_ChainID a); Str (auth_Address a); of_uint (auth_Nonce a); of_uint (auth_V a); of_uint (auth_R a); of_uint (auth_S a)].
Definition of_auths (l : list SetCodeAuthorization) : item := Lst (of_auth <$> l).

(** The bytes in front of the list, and the fields. *)
Definition signing_fields {E} (tx : Transaction) : outcome E (list Z * list item) :=
  if tx_Type tx =? DynamicFeeTxType then
    Ok ([tx_Type tx], [of_uint (tx_ChainId tx); of_uint (tx_Nonce tx); of_uint (tx_GasTipCap tx); of_uint (tx_GasFeeCap tx); of_uint (tx_Gas tx);
      of_to (tx_To tx); of_uint (tx_Value tx); Str (tx_Data tx); of_access_list (tx_AccessList tx)])
  else if tx_Type tx =? AccessListTxType then
    Ok ([tx_Type tx], [of_uint (tx_ChainId tx); of_uint (tx_Nonce tx); of_uint (tx_GasPrice tx); of_uint (tx_Gas tx);
      of_to (tx_To tx); of_uint (tx_Value tx); Str (tx_Data tx); of_access_list (tx_AccessList tx)])
  else if (tx_Type tx =? LegacyTxType) && tx_Protected tx then
    Ok ([], [of_uint (tx_Nonce tx); of_uint (tx_GasPrice tx); of_uint (tx_Gas tx); of_to (tx_To tx); of_uint (tx_Value tx); Str (tx_Data tx);
      of_uint (tx_ChainId tx); of_uint 0; of_uint 0])
  else if (tx_Type tx =? LegacyTxType) && negb (tx_Protected tx) then
    Ok ([], [of_uint (tx_Nonce tx); of_uint (tx_GasPrice tx); of_uint (tx_Gas tx); of_to (tx_To tx); of_uint (tx_Value tx); Str (tx_Data tx)])
  else if tx_Type tx =? SetCodeTxType then
    Ok ([tx_Type tx], [of_uint (tx_ChainId tx); of_uint (tx_Nonce tx); of_uint (tx_GasTipCap tx); of_uint (tx_GasFeeCap tx); of_uint (tx_Gas tx);
      of_to (tx_To tx); of_uint (tx_Value tx); Str (tx_Data tx); of_access_list (tx_AccessList tx); of_auths (tx_SetCodeAuthorizations tx)])
  else Panic.

Definition EncodeTxForSigning {E} (tx : Transaction) : outcome E (list Z) :=
  '(head, fields) ← signing_fields tx; Ok (head ++ rlp_Encode (Lst fields)).

(** [GetFrom] panics when the sender cannot be recovered. *)
Definition GetFrom {E} (tx : Transaction) : outcome E (list Z) := unwrap (tx_sender tx).
End Encoding.

(** ** Decoding *)

(** [errors.Join]: all the values are computed, the errors are collected. *)
Definition ap_join {E A B} (f : outcome E (A -> B)) (a : outcome E A) : outcome E B :=
  match f, a with
  | Panic, _ | _, Panic => Panic
  | Err e, _ => Err e
  | _, Err e => Err e
  | Ok f, Ok a => Ok (f a)
  end.
Infix "<!>" := ap_join (at level 50, left associativity).

Fixpoint join_list {E A B} (f : A -> outcome E B) (l : list A) : outcome E (list B) :=
  match l with
  | [] => Ok []
  | x :: l => Ok cons <!> f x <!> join_list f l
  end.

Section Decoding.
Context `{Rlp} `{Geth}.

(** [TryCast] at the types it is used with. *)
Definition cast_bytes (i : item) : outcome tx_error (list Z) := match i with Str b => Ok b | Lst _ => Err UnsupportedType end.
Definition cast_big (i : item) : outcome tx_error Z := b ← cast_bytes i; Ok (be_value b).
Definition cast_uint64 (i : item) : outcome tx_error Z := b ← cast_bytes i; Ok (u64 (be_value b)).
Definition cast_uint256 (i : item) : outcome tx_error Z := b ← cast_bytes i; Ok (uint256_SetBytes b).
Definition cast_address (i : item) : outcome tx_error (list Z) := b ← cast_bytes i; Ok (BytesToAddress b).
Definition cast_address_ptr (i : item) : outcome tx_error (option (list Z)) := b ← cast_bytes i; Ok (if 0 <? size b then Some (BytesToAddress b) else None).
Definition cast_hash (i : item) : outcome tx_error (list Z) := b ← cast_bytes i; Ok (BytesToHash b).

Definition cast_uint8 (i : item) : outcome tx_error Z :=
  b ← cast_bytes i;
  match b with
  | [] => Ok 0
  | [x] => Ok x
  | _ => Err CouldNotDecode
  end.

(** The elements of a list of hashes that cannot be cast stay zero. *)
Definition cast_hashes (i : item) : outcome tx_error (list (list Z)) :=
  match i with
  | Lst l => Ok ((fun j => match cast_hash j with Ok h => h | _ => replicate 32 0 end) <$> l)
  | Str _ => Err CouldNotDecode
  end.

Definition cast_tuple (i : item) : outcome tx_error AccessTuple :=
  match i with
  | Lst l => Ok mkAccessTuple <!> (j ← at_ l 0; cast_address j) <!> (j ← at_ l 1; cast_hashes j)
  | Str _ => Err CouldNotDecode
  end.

Definition cast_access_list (i : item) : outcome tx_error (list AccessTuple) :=
  match i with Lst l => join_list cast_tuple l | Str _ => Err CouldNotDecode end.

Definition cast_auth (i : item) : outcome tx_error SetCodeAuthorization :=
  match i with
  | Lst l =>
      Ok mkSetCodeAuthorization <!> (j ← at_ l 0; cast_uint256 j) <!> (j ← at_ l 1; cast_address j) <!> (j ← at_ l 2; cast_uint64 j)
        <!> (j ← at_ l 3; cast_uint8 j) <!> (j ← at_ l 4; cast_uint256 j) <!> (j ← at_ l 5; cast_uint256 j)
  | Str _ => Err CouldNotDecode
  end.

Definition cast_auths (i : item) : outcome tx_error (list SetCodeAuthorization) :=
  match i with Lst l => join_list cast_auth l | Str _ => Err CouldNotDecode end.

(** [rlp.Decode(b, &decTx)] for a [[]any]: the elements, and the bytes that are left. *)
Definition decode_fields (b : list Z) : outcome tx_error (list item * list Z) :=
  match rlp_Decode b with
  | Some (Lst l, r) => Ok (l, r)
  | _ => Err RlpDecode
  end.

Definition dynFeeNumField : Z := 9.
Definition accessListTxNumField : Z := 8.
Definition legacyTxNumField : Z := 9.
Definition unprotectedTxNumField : Z := 6.
Definition setCodeNumField : Z := 10.

(** A field that is cast: [TryCast(&into, decTx[i])]. *)
Definition fld {A} (f : item -> outcome tx_error A) (decTx : list item) (i : Z) : outcome tx_error A := j ← at_ decTx i; f j.

Definition decodeSetCodeTx (b : list Z) : outcome tx_error (TxData * list Z) :=
  '(decTx, r) ← decode_fields b;
  _ ← require (size decTx =? setCodeNumField) NumberOfFields;
  tx ← Ok SetCodeTx <!> fld cast_uint256 decTx 0 <!> fld cast_uint64 decTx 1 <!> fld cast_uint256 decTx 2 <!> fld cast_uint256 decTx 3 <!> fld cast_uint64 decTx 4
    <!> fld cast_address decTx 5 <!> fld cast_uint256 decTx 6 <!> fld cast_bytes decTx 7 <!> fld cast_access_list decTx 8 <!> fld cast_auths decTx 9;
  Ok (tx, r).

Definition decodeDynamicFeeTx (b : list Z) : outcome tx_error (TxData * list Z) :=
  '(decTx, r) ← decode_fields b;
  _ ← require (size decTx =? dynFeeNumField) NumberOfFields;
  tx ← Ok DynamicFeeTx <!> (Some <$> fld cast_big decTx 0) <!> fld cast_uint64 decTx 1 <!> fld cast_big decTx 2 <!> fld cast_big decTx 3 <!> fld cast_uint64 decTx 4
    <!> fld cast_address_ptr decTx 5 <!> fld cast_big decTx 6 <!> fld cast_bytes decTx 7 <!> fld cast_access_list decTx 8;
  Ok (tx, r).

Definition decodeAccessListTx (b : list Z) : outcome tx_error (TxData * list Z) :=
  '(decTx, r) ← decode_fields b;
  _ ← require (size decTx =? accessListTxNumField) NumberOfFields;
  tx ← Ok AccessListTx <!> (Some <$> fld cast_big decTx 0) <!> fld cast_uint64 decTx 1 <!> fld cast_big decTx 2 <!> fld cast_uint64 decTx 3
    <!> fld cast_address_ptr decTx 4 <!> fld cast_big decTx 5 <!> fld cast_bytes decTx 6 <!> fld cast_access_list decTx 7;
  Ok (tx, r).

Definition decodeLegacyTx (b : list Z) : outcome tx_error (TxData * list Z) :=
  '(decTx, r) ← decode_fields b;
  _ ← require ((size decTx =? legacyTxNumField) || (size decTx =? unprotectedTxNumField)) NumberOfFields;
  let tx := Ok LegacyTx <!> fld cast_uint64 decTx 0 <!> fld cast_big decTx 1 <!> fld cast_uint64 decTx 2 <!> fld cast_address_ptr decTx 3 <!> fld cast_big decTx 4 <!> fld cast_bytes decTx 5 in
  tx ← (if size decTx =? legacyTxNumField then tx <!> (V ← fld cast_big decTx 6; Ok (Some (V * 2 + 35))) else tx <!> Ok None);
  Ok (tx, r).

Definition DecodeTxFromBytes (b : list Z) : outcome tx_error (TxData * list Z) :=
  match b with
  | [] => Err EmptyBuffer
  | firstByte :: r =>
      if firstByte =? DynamicFeeTxType then decodeDynamicFeeTx r
      else if firstByte =? AccessListTxType then decodeAccessListTx r
      else if firstByte =? SetCodeTxType then decodeSetCodeTx r
      else if 192 <? firstByte then decodeLegacyTx b
      else Err (FirstByte firstByte)
  end.
End Decoding.

(** ** Round trips *)

Definition address_ok (a : list Z) : Prop := length a = 20%nat /\ Forall is_byte a.
Definition tuple_ok (t : AccessTuple) : Prop := address_ok (at_Address t) /\ Forall (fun k => length k = 32%nat /\ Forall is_byte k) (StorageKeys t).
Definition auth_ok (a : SetCodeAuthorization) : Prop :=
  is_u 256 (auth_ChainID a) /\ address_ok (auth_Address a) /\ is_u 64 (auth_Nonce a) /\ is_u 8 (auth_V a) /\ is_u 256 (auth_R a) /\ is_u 256 (auth_S a).

(** The values that the types of Go allow. *)
Record tx_ok (tx : Transaction) : Prop := {
  ok_ChainId : is_u 256 (tx_ChainId tx);
  ok_Nonce : is_u 64 (tx_Nonce tx);
  ok_GasPrice : is_u 256 (tx_GasPrice tx);
  ok_GasTipCap : is_u 256 (tx_GasTipCap tx);
  ok_GasFeeCap : is_u 256 (tx_GasFeeCap tx);
  ok_Gas : is_u 64 (tx_Gas tx);
  ok_Value : is_u 256 (tx_Value tx);
  ok_To : forall a, tx_To tx = Some a -> address_ok a;
  ok_Data : Forall is_byte (tx_Data tx);
  ok_AccessList : Forall tuple_ok (tx_AccessList tx);
  ok_Auths : Forall auth_ok (tx_SetCodeAuthorizations tx)
}.

(** A transaction without its signature. *)
Definition data_of (tx : Transaction) : option TxData :=
  if tx_Type tx =? DynamicFeeTxType then Some (DynamicFeeTx (Some (tx_ChainId tx)) (tx_Nonce tx) (tx_GasTipCap tx) (tx_GasFeeCap tx) (tx_Gas tx) (tx_To tx) (tx_Value tx) (tx_Data tx) (tx_AccessList tx))
  else if tx_Type tx =? AccessListTxType then Some (AccessListTx (Some (tx_ChainId tx)) (tx_Nonce tx) (tx_GasPrice tx) (tx_Gas tx) (tx_To tx) (tx_Value tx) (tx_Data tx) (tx_AccessList tx))
  else if tx_Type tx =? LegacyTxType then
    Some (LegacyTx (tx_Nonce tx) (tx_GasPrice tx) (tx_Gas tx) (tx_To tx) (tx_Value tx) (tx_Data tx) (if tx_Protected tx then Some (tx_ChainId tx * 2 + 35) else None))
  else if tx_Type tx =? SetCodeTxType then
    to ← tx_To tx; Some (SetCodeTx (tx_ChainId tx) (tx_Nonce tx) (tx_GasTipCap tx) (tx_GasFeeCap tx) (tx_Gas tx) to (tx_Value tx) (tx_Data tx) (tx_AccessList tx) (tx_SetCodeAuthorizations tx))
  else None.

Lemma be_value_zeros n b : be_value (replicate n 0 ++ b) = be_value b.
Proof.
  unfold be_value. rewrite reverse_app, reverse_replicate. generalize (reverse b) as r. intros r. induction r as [|x r IH]; cbn [app le_value]; [induction n as [|n IH]; [done|cbn [replicate le_value]; lia]|by rewrite IH].
Qed.

(** Evaluates the accesses to a list that is written out. *)
Ltac fields :=
  unfold fld;
  repeat match goal with
  | |- context [@at_ ?E ?A ?l ?i] => let v := eval cbv [at_ Z.leb Z.compare Z.to_nat Pos.to_nat Pos.iter_op Nat.add lookup list_lookup unwrap] in (@at_ E A l i) in change (@at_ E A l i) with v
  end;
  cbn [mbind outcome_bind fmap outcome_fmap].

(** The comparisons of the number of fields. *)
Ltac counted :=
  cbn [mbind outcome_bind];
  match goal with |- context [require ?b _] => change b with true end; cbn [require mbind outcome_bind];
  repeat match goal with |- context [size ?l =? legacyTxNumField] => let v := eval cbv in (size l =? legacyTxNumField) in change (size l =? legacyTxNumField) with v end; cbn [mbind outcome_bind].

Section RoundTrip.
Context `{RlpLaws} `{GethLaws}.

Lemma join_list_map {E A B} (f : A -> item) (g : item -> outcome E B) (h : A -> B) l : Forall (fun x => g (f x) = Ok (h x)) l -> join_list g (f <$> l) = Ok (h <$> l).
Proof. induction 1 as [|x l Hx _ IH]; [done|]. cbn [fmap list_fmap join_list]. fold (fmap (M := list) f l). by rewrite Hx, IH. Qed.

Lemma cast_big_of n : 0 <= n -> cast_big (of_uint n) = Ok n.
Proof. intros Hn. unfold cast_big, of_uint. cbn. by rewrite rlp_uint_value. Qed.

Lemma cast_uint64_of n : is_u 64 n -> cast_uint64 (of_uint n) = Ok n.
Proof. intros Hn. unfold cast_uint64, of_uint. cbn. by rewrite rlp_uint_value, uwrap_small by apply Hn. Qed.

Lemma cast_uint256_of n : is_u 256 n -> cast_uint256 (of_uint n) = Ok n.
Proof. intros Hn. unfold cast_uint256, of_uint. cbn. pose proof (rlp_uint_size n 32 ltac:(lia) Hn). rewrite uint256_32 by (lia || apply rlp_uint_bytes). by rewrite rlp_uint_value by apply Hn. Qed.

Lemma be_value_1 x : be_value [x] = x.
Proof. unfold be_value. cbn. lia. Qed.

Lemma cast_uint8_of n : is_u 8 n -> cast_uint8 (of_uint n) = Ok n.
Proof.
  intros Hn. unfold cast_uint8, of_uint. cbn [cast_bytes mbind outcome_bind]. pose proof (rlp_uint_size n 1 ltac:(lia) Hn) as Hsz. pose proof (rlp_uint_value n ltac:(apply Hn)) as Hv.
  destruct (rlp_uint n) as [|x [|y l]]; [by rewrite <- Hv|by rewrite <- Hv, be_value_1|cbn [length] in Hsz; lia].
Qed.

Lemma cast_address_of a : address_ok a -> cast_address (Str a) = Ok a.
Proof. intros [Ha _]. unfold cast_address. cbn. by rewrite BytesToAddress_20. Qed.

Lemma cast_address_ptr_of a : (forall x, a = Some x -> address_ok x) -> cast_address_ptr (of_to a) = Ok a.
Proof. intros Ha. unfold cast_address_ptr, of_to. destruct a as [a|]; [|done]. destruct (Ha a eq_refl) as [Hl _]. change (default [] (Some a)) with a. cbn [cast_bytes mbind outcome_bind]. rewrite Hl. by rewrite BytesToAddress_20. Qed.

Lemma cast_tuple_of t : tuple_ok t -> cast_tuple (of_tuple t) = Ok t.
Proof.
  intros [Ha Hk]. destruct t as [a ks]. unfold of_tuple, cast_tuple. cbn [at_Address StorageKeys] in *. fields. rewrite cast_address_of by done. unfold cast_hashes. cbn [ap_join]. do 2 f_equal.
  induction Hk as [|k ks [Hl _] _ IH]; [done|]. cbn [fmap list_fmap]. fold (fmap (M := list) Str ks). unfold cast_hash at 1. cbn [cast_bytes mbind outcome_bind]. rewrite BytesToHash_32 by done. f_equal. apply IH.
Qed.

Lemma cast_access_list_of l : Forall tuple_ok l -> cast_access_list (of_access_list l) = Ok l.
Proof. intros Hl. unfold cast_access_list, of_access_list. rewrite (join_list_map of_tuple cast_tuple id); [by rewrite list_fmap_id|]. eapply Forall_impl; [done|]. intros t Ht. by apply cast_tuple_of. Qed.

Lemma cast_auth_of a : auth_ok a -> cast_auth (of_auth a) = Ok a.
Proof.
  destruct a as [c d n v r s]. intros (Hc & Ha & Hn & Hv & Hr & Hs). cbn [auth_ChainID auth_Address auth_Nonce auth_V auth_R auth_S] in *. unfold of_auth, cast_auth. cbn [auth_ChainID auth_Address auth_Nonce auth_V auth_R auth_S].
  fields. rewrite !cast_uint256_of, cast_address_of, cast_uint64_of, cast_uint8_of by done. done.
Qed.

Lemma cast_auths_of l : Forall auth_ok l -> cast_auths (of_auths l) = Ok l.
Proof. intros Hl. unfold cast_auths, of_auths. rewrite (join_list_map of_auth cast_auth id); [by rewrite list_fmap_id|]. eapply Forall_impl; [done|]. intros t Ht. by apply cast_auth_of. Qed.

Lemma of_uint_ok n : item_ok (of_uint n).
Proof. constructor. apply rlp_uint_bytes. Qed.

Lemma of_to_ok a : (forall x, a = Some x -> address_ok x) -> item_ok (of_to a).
Proof. intros Ha. constructor. destruct a as [a|]; [by apply (Ha a)|constructor]. Qed.

Lemma Forall_items {A} (P : A -> Prop) (f : A -> item) l : (forall x, P x -> item_ok (f x)) -> Forall P l -> Forall item_ok (f <$> l).
Proof. intros Hf Hl. apply Forall_fmap. eapply Forall_impl; [done|]. intros x Hx. by apply Hf. Qed.

Lemma of_access_list_ok l : Forall tuple_ok l -> item_ok (of_access_list l).
Proof.
  intros Hl. constructor. eapply Forall_items; [|done]. intros t [[_ Ha] Hk]. constructor. repeat constructor; [done|]. eapply Forall_items; [|done]. intros k [_ Hb]. by constructor.
Qed.

Lemma of_auths_ok l : Forall auth_ok l -> item_ok (of_auths l).
Proof. intros Hl. constructor. eapply Forall_items; [|done]. intros a (_ & [_ Ha] & _). constructor. repeat (apply Forall_cons_2; [first [apply of_uint_ok|by constructor]|]). apply Forall_nil_2. Qed.

Lemma signing_fields_ok {E} tx head fields : tx_ok tx -> signing_fields (E := E) tx = Ok (head, fields) -> Forall item_ok fields.
Proof.
  intros Hok Hf. pose proof (of_to_ok (tx_To tx) (ok_To tx Hok)). pose proof (of_access_list_ok _ (ok_AccessList tx Hok)). pose proof (of_auths_ok _ (ok_Auths tx Hok)). pose proof (ok_Str _ (ok_Data tx Hok)).
  unfold signing_fields in Hf. repeat case_match; simplify_eq; repeat (apply Forall_cons_2; [first [assumption|apply of_uint_ok]|]); apply Forall_nil_2.
Qed.

(** The first byte of a list that is not empty. *)
Lemma list_head_byte l : l <> [] -> size (rlp_Encode (Lst l)) < 2 ^ 64 -> exists x r, rlp_Encode (Lst l) = x :: r /\ 192 < x.
Proof.
  intros Hl Hsz. rewrite rlp_list in *. cbv zeta in *. destruct l as [|i l]; [done|]. set (p := concat _) in *. assert (0 < size p). { unfold p. cbn [fmap list_fmap concat]. pose proof (rlp_nonempty i). destruct (rlp_Encode i); [done|]. rewrite length_app. cbn [length]. lia. }
  destruct (Z.ltb_spec (size p) 56); [|]; eexists _, _; (split; [reflexivity|lia]).
Qed.

Lemma decode_fields_ok l r : Forall item_ok l -> size (rlp_Encode (Lst l)) < 2 ^ 64 -> decode_fields (rlp_Encode (Lst l) ++ r) = Ok (l, r).
Proof. intros Hl Hsz. unfold decode_fields. rewrite rlp_roundtrip; [done|by constructor|done]. Qed.

Lemma decode_signing tx head fields t r :
  tx_ok tx -> data_of tx = Some t -> signing_fields (E := tx_error) tx = Ok (head, fields) -> size (rlp_Encode (Lst fields)) < 2 ^ 64 ->
  DecodeTxFromBytes (head ++ rlp_Encode (Lst fields) ++ r) = Ok (t, r).
Proof.
  intros Hok Ht Hf Hsz. pose proof (signing_fields_ok tx head fields Hok Hf) as Hi. pose proof (decode_fields_ok fields r Hi Hsz) as Hd. destruct Hok as [Hc Hn Hgp Htc Hfc Hg Hv Hto Hda Hal Hau].
  assert (fields <> [] -> head = [] -> DecodeTxFromBytes (head ++ rlp_Encode (Lst fields) ++ r) = decodeLegacyTx (rlp_Encode (Lst fields) ++ r)) as Hleg.
  { intros Hne ->. destruct (list_head_byte fields Hne Hsz) as (x & q & -> & Hx). cbn [app DecodeTxFromBytes]. unfold DynamicFeeTxType, AccessListTxType, SetCodeTxType.
    replace (x =? 2) with false by lia. replace (x =? 1) with false by lia. replace (x =? 4) with false by lia. by replace (192 <? x) with true by lia. }
  unfold signing_fields, data_of in *. destruct (tx_Type tx =? DynamicFeeTxType) eqn:E2; [|destruct (tx_Type tx =? AccessListTxType) eqn:E1; [|destruct (tx_Type tx =? LegacyTxType) eqn:E0; [destruct (tx_Protected tx)|destruct (tx_Type tx =? SetCodeTxType) eqn:E4; [|done]]]]; cbn [andb negb] in Hf; injection Hf as <- <-.
  - injection Ht as <-. cbn [app DecodeTxFromBytes]. rewrite E2. unfold decodeDynamicFeeTx. rewrite Hd. counted. fields. rewrite !cast_big_of, !cast_uint64_of, cast_address_ptr_of, cast_access_list_of; try done; try apply Hc; try apply Htc; try apply Hfc; apply Hv.
  - injection Ht as <-. cbn [app DecodeTxFromBytes]. rewrite E2, E1. unfold decodeAccessListTx. rewrite Hd. counted. fields. rewrite !cast_big_of, !cast_uint64_of, cast_address_ptr_of, cast_access_list_of; try done; try apply Hc; try apply Hgp; apply Hv.
  - injection Ht as <-. rewrite Hleg by done. unfold decodeLegacyTx. rewrite Hd. counted. fields. rewrite !cast_big_of, !cast_uint64_of, cast_address_ptr_of; try done; try apply Hc; try apply Hgp; apply Hv.
  - injection Ht as <-. rewrite Hleg by done. unfold decodeLegacyTx. rewrite Hd. counted. fields. rewrite !cast_big_of, !cast_uint64_of, cast_address_ptr_of; try done; try apply Hgp; apply Hv.
  - destruct (tx_To tx) as [to|] eqn:Eto; [|done]. injection Ht as <-. cbn [app DecodeTxFromBytes]. rewrite E2, E1, E4. unfold decodeSetCodeTx. rewrite Hd. counted. fields. change (of_to (Some to)) with (Str to). rewrite !cast_uint256_of, !cast_uint64_of, cast_address_of, cast_access_list_of, cast_auths_of; try done. by apply Hto.
Qed.

Lemma signing_some tx t : data_of tx = Some t -> exists head fields, signing_fields (E := tx_error) tx = Ok (head, fields).
Proof. unfold data_of, signing_fields. intros Ht. repeat case_match; simplify_eq/=; eauto. all: destruct (tx_Protected tx); eauto. Qed.
End RoundTrip.
