(* ===== verification/RlpCodec.v ===== *)
(** Functions for which the laws of the third-party packages hold: the encoding RLP, and
    the conversions of [go-ethereum].  The theorems on the encodings are applied to them. *)
From S2P Require Import Prelude BitIo TxEncoding.

(** ** RLP *)

(** The bytes of a number without leading zeros. *)
Definition min_bytes (n : Z) : list Z := be_bytes (Z.to_nat (if n =? 0 then 0 else Z.log2 n / 8 + 1)) n.

(** The length of a string or of a list. *)
Definition length_head (off n : Z) : list Z := if n <? 56 then [off + n] else off + 55 + size (min_bytes n) :: min_bytes n.

Definition enc_string (b : list Z) : list Z :=
  match b with
  | [x] => if x <? 128 then [x] else length_head 128 1 ++ b
  | _ => length_head 128 (size b) ++ b
  end.

Fixpoint enc_item (i : item) : list Z :=
  match i with
  | Str b => enc_string b
  | Lst l => let p := concat (enc_item <$> l) in length_head 192 (size p) ++ p
  end.

(** [n] bytes, and the rest. *)
Definition split_at (n : Z) (r : list Z) : option (list Z * list Z) := if size r <? n then None else Some (take (Z.to_nat n) r, drop (Z.to_nat n) r).

(** The head of an item: is it a list, its payload, and the rest. *)
Definition parse (b : list Z) : option (bool * list Z * list Z) :=
  match b with
  | [] => None
  | x :: r =>
      if x <? 128 then Some (false, [x], r)
      else if x <? 184 then '(p, r) ← split_at (x - 128) r; Some (false, p, r)
      else if x <? 192 then '(l, r) ← split_at (x - 183) r; '(p, r) ← split_at (be_value l) r; Some (false, p, r)
      else if x <? 248 then '(p, r) ← split_at (x - 192) r; Some (true, p, r)
      else '(l, r) ← split_at (x - 247) r; '(p, r) ← split_at (be_value l) r; Some (true, p, r)
  end.

Fixpoint dec_items (fuel : nat) (b : list Z) : option (list item) :=
  match fuel with
  | O => None
  | S fuel =>
      match b with
      | [] => Some []
      | _ =>
          '(k, p, r) ← parse b;
          i ← (if k : bool then Lst <$> dec_items fuel p else Some (Str p));
          rest ← dec_items fuel r;
          Some (i :: rest)
      end
  end.

Definition dec_item (b : list Z) : option (item * list Z) :=
  '(k, p, r) ← parse b;
  i ← (if k : bool then Lst <$> dec_items (S (length p)) p else Some (Str p));
  Some (i, r).

#[export] Instance rlp_codec : Rlp := {| rlp_Encode := enc_item; rlp_Decode := dec_item; rlp_uint := min_bytes |}.

Lemma min_bytes_value n : 0 <= n -> be_value (min_bytes n) = n.
Proof.
  intros Hn. unfold min_bytes. rewrite be_value_be_bytes. destruct (Z.eqb_spec n 0) as [->|Hz]; [done|]. pose proof (Z.log2_spec n ltac:(lia)) as [_ Hlt]. pose proof (Z.log2_nonneg n). rewrite Z2Nat.id by golia.
  apply Z.mod_small. split; [lia|]. eapply Z.lt_le_trans; [exact Hlt|]. apply Z.pow_le_mono_r; golia.
Qed.

Lemma min_bytes_size n k : 0 <= k -> 0 <= n < 2 ^ (8 * k) -> size (min_bytes n) <= k.
Proof.
  intros Hk Hn. unfold min_bytes. rewrite length_be_bytes. destruct (Z.eqb_spec n 0) as [->|Hz]; [cbn; lia|]. assert (Z.log2 n < 8 * k) by (apply Z.log2_lt_pow2; lia). pose proof (Z.log2_nonneg n). rewrite Z2Nat.id; golia.
Qed.

Lemma min_bytes_pos n : 0 < n -> 1 <= size (min_bytes n).
Proof. intros Hn. pose proof (min_bytes_value n ltac:(lia)) as E. destruct (min_bytes n); [unfold be_value in E; cbn in E; lia|cbn [length]; lia]. Qed.

Lemma split_at_app n a b : size a = n -> split_at n (a ++ b) = Some (a, b).
Proof. intros <-. unfold split_at. rewrite length_app. replace (_ <? _) with false by lia. by rewrite Nat2Z.id, take_app_length, drop_app_length. Qed.

(** A head, where [off] is 128 or 192. *)
Lemma parse_head (k : bool) p r :
  size p < 2 ^ 64 -> parse (length_head (if k then 192 else 128) (size p) ++ p ++ r) = Some (k, p, r).
Proof.
  intros Hsz. unfold length_head. destruct (Z.ltb_spec (size p) 56) as [Hlt|Hge].
  - cbn [app parse]. destruct k.
    + do 3 (rewrite (proj2 (Z.ltb_ge _ _)) by lia). rewrite (proj2 (Z.ltb_lt _ _)) by lia. rewrite split_at_app by lia. done.
    + rewrite (proj2 (Z.ltb_ge _ _)) by lia. rewrite (proj2 (Z.ltb_lt _ _)) by lia. rewrite split_at_app by lia. done.
  - pose proof (min_bytes_pos (size p) ltac:(lia)). pose proof (min_bytes_size (size p) 8 ltac:(lia) ltac:(lia)). cbn [app parse]. destruct k.
    + do 4 (rewrite (proj2 (Z.ltb_ge _ _)) by lia). rewrite split_at_app by lia. cbn [mbind option_bind]. rewrite min_bytes_value, split_at_app by lia. done.
    + do 2 (rewrite (proj2 (Z.ltb_ge _ _)) by lia). rewrite (proj2 (Z.ltb_lt _ _)) by lia. rewrite split_at_app by lia. cbn [mbind option_bind]. rewrite min_bytes_value, split_at_app by lia. done.
Qed.

Definition payload (i : item) : list Z := match i with Str b => b | Lst l => concat (enc_item <$> l) end.
Definition is_list (i : item) : bool := match i with Str _ => false | Lst _ => true end.

Lemma length_head_pos off n : (1 <= length (length_head off n))%nat.
Proof. unfold length_head. case_match; cbn [length]; lia. Qed.

Lemma parse_item i r : item_ok i -> size (enc_item i) < 2 ^ 64 -> parse (enc_item i ++ r) = Some (is_list i, payload i, r).
Proof.
  intros Hi Hsz. destruct i as [b|l]; cbn [enc_item is_list payload] in *.
  - assert (size (length_head 128 (size b) ++ b) < 2 ^ 64 -> parse ((length_head 128 (size b) ++ b) ++ r) = Some (false, b, r)) as Hgen.
    { intros Hs. rewrite length_app in Hs. rewrite <- app_assoc. apply (parse_head false). lia. }
    destruct b as [|x [|y b]]; [by apply Hgen| |by apply Hgen]. unfold enc_string in *. destruct (Z.ltb_spec x 128) as [Hx|Hx]; [|by apply Hgen]. cbn [app parse]. by rewrite (proj2 (Z.ltb_lt _ _)).
  - cbv zeta in *. rewrite length_app in Hsz. rewrite <- app_assoc. apply (parse_head true). lia.
Qed.

Lemma payload_length i : (length (payload i) <= length (enc_item i))%nat /\ (is_list i = true -> (length (payload i) < length (enc_item i))%nat) /\ (1 <= length (enc_item i))%nat.
Proof.
  destruct i as [b|l]; cbn [payload enc_item is_list].
  - destruct b as [|x [|y b]]; cbn [enc_string]; [cbn; auto with lia| |pose proof (length_head_pos 128 (size (x :: y :: b))); rewrite length_app; cbn [length]; split_and!; [lia|done|lia]].
    destruct (x <? 128); [cbn; auto with lia|]. pose proof (length_head_pos 128 1). rewrite length_app. cbn [length]. split_and!; [lia|done|lia].
  - cbv zeta. pose proof (length_head_pos 192 (size (concat (enc_item <$> l)))). rewrite length_app. split_and!; [lia|lia|lia].
Qed.

Lemma dec_items_ok fuel l : Forall item_ok l -> size (concat (enc_item <$> l)) < 2 ^ 64 -> (length (concat (enc_item <$> l)) < fuel)%nat -> dec_items fuel (concat (enc_item <$> l)) = Some l.
Proof.
  revert l. induction fuel as [|fuel IH]; intros l Hl Hsz Hf; [lia|]. destruct l as [|i l]; [done|]. apply Forall_cons in Hl as [Hi Hl]. cbn [fmap list_fmap concat] in *. fold (fmap (M := list) enc_item l) in *. rewrite length_app in Hsz, Hf.
  pose proof (payload_length i) as (Hp1 & Hp2 & Hp3). pose proof (parse_item i (concat (enc_item <$> l)) Hi ltac:(lia)) as Hp. destruct (enc_item i) as [|x e] eqn:Ee; [cbn [length] in Hp3; lia|].
  cbn [dec_items app]. cbn [app] in Hp. rewrite Hp. cbn [mbind option_bind]. cbn [length] in Hf, Hsz, Hp1, Hp2.
  assert ((if is_list i then Lst <$> dec_items fuel (payload i) else Some (Str (payload i))) = Some i) as ->.
  { destruct i as [b|l0]; [done|]. cbn [is_list payload] in *. inversion Hi; subst. specialize (Hp2 eq_refl). rewrite IH; [done|done|lia|lia]. }
  cbn [mbind option_bind]. rewrite IH by (done || lia). done.
Qed.

Lemma dec_item_ok i r : item_ok i -> size (enc_item i) < 2 ^ 64 -> dec_item (enc_item i ++ r) = Some (i, r).
Proof.
  intros Hi Hsz. unfold dec_item. rewrite parse_item by done. cbn [mbind option_bind]. destruct i as [b|l]; [done|]. cbn [is_list payload]. inversion Hi; subst. pose proof (payload_length (Lst l)) as [Hp _]. cbn [payload] in Hp.
  rewrite dec_items_ok by (done || lia). done.
Qed.

Lemma split_at_length n r p q : split_at n r = Some (p, q) -> (length q <= length r)%nat.
Proof. unfold split_at. case_match; [done|]. intros [= <- <-]. rewrite length_drop. lia. Qed.

Lemma parse_consumes b k p r : parse b = Some (k, p, r) -> (length r < length b)%nat.
Proof.
  destruct b as [|x b]; [done|]. cbn [parse length]. intros Hp.
  repeat match type of Hp with
  | context [if ?c then _ else _] => destruct c
  | context [split_at ?a ?q] => let E := fresh "E" in destruct (split_at a q) as [[? ?]|] eqn:E; [apply split_at_length in E; cbn [mbind option_bind] in Hp|done]
  end; simplify_eq; lia.
Qed.

Lemma length_head_bytes k n : k = 128 \/ k = 192 -> 0 <= n < 2 ^ 64 -> Forall is_byte (length_head k n).
Proof.
  intros Hk Hn. pose proof (min_bytes_size n 8 ltac:(lia) ltac:(lia)). unfold length_head. case_match; [constructor; [unfold is_u; lia|constructor]|]. constructor; [unfold is_u; lia|apply be_bytes_bytes].
Qed.

Fixpoint enc_item_bytes (i : item) : item_ok i -> size (enc_item i) < 2 ^ 64 -> Forall is_byte (enc_item i).
Proof.
  intros Hi Hsz. destruct i as [b|l]; cbn [enc_item] in *.
  - inversion Hi as [? Hb|]; subst. assert (size (length_head 128 (size b) ++ b) < 2 ^ 64 -> Forall is_byte (length_head 128 (size b) ++ b)) as Hgen.
    { intros Hs. rewrite length_app in Hs. apply Forall_app. split; [apply length_head_bytes; lia|done]. }
    unfold enc_string in *. repeat case_match; subst; first [by apply Hgen|done].
  - cbv zeta in *. rewrite length_app in Hsz. apply Forall_app. split; [apply length_head_bytes; lia|]. inversion Hi as [|? Hl]; subst. assert (size (concat (enc_item <$> l)) < 2 ^ 64) as Hs by lia. clear Hi Hsz. revert Hl Hs.
    induction l as [|i l IH]; intros Hl Hs; [constructor|]. change (concat (enc_item <$> i :: l)) with (enc_item i ++ concat (enc_item <$> l)) in *. rewrite length_app in Hs. apply Forall_app. split; [apply enc_item_bytes; [by inversion Hl|lia]|]. apply IH; [by inversion Hl|lia].
Qed.

#[export] Instance rlp_codec_laws : RlpLaws.
Proof.
  split; cbn [rlp_Encode rlp_Decode rlp_uint rlp_codec].
  - apply dec_item_ok.
  - intros b i r Hd. unfold dec_item in Hd. destruct (parse b) as [[[k p] q]|] eqn:E; [|done]. cbn [mbind option_bind] in Hd. apply parse_consumes in E. apply bind_Some in Hd as (? & _ & [= _ <-]). done.
  - apply enc_item_bytes.
  - intros l. cbn [enc_item]. unfold length_head. done.
  - intros i Hi. pose proof (payload_length i) as (_ & _ & Hp). rewrite Hi in Hp. cbn [length] in Hp. lia.
  - apply min_bytes_value.
  - intros n. apply be_bytes_bytes.
  - apply min_bytes_size.
Qed.

(** ** [go-ethereum] *)

(** [n] bytes: cut from the left, or filled up with zeros. *)
Definition set_bytes (n : nat) (b : list Z) : list Z := replicate (n - length b) 0 ++ drop (length b - n) b.

#[export] Instance geth_codec : Geth := {| BytesToAddress := set_bytes 20; BytesToHash := set_bytes 32; uint256_SetBytes b := be_value (set_bytes 32 b) |}.

Lemma set_bytes_id n b : length b = n -> set_bytes n b = b.
Proof. intros <-. unfold set_bytes. rewrite Nat.sub_diag. done. Qed.

#[export] Instance geth_codec_laws : GethLaws.
Proof.
  split; cbn [BytesToAddress BytesToHash uint256_SetBytes geth_codec]; [apply set_bytes_id|apply set_bytes_id|]. intros b Hb _. unfold set_bytes. replace (length b - 32)%nat with 0%nat by lia. rewrite drop_0. apply be_value_zeros.
Qed.
