(* ===== verification/BlockData.v ===== *)
(** Blocks before and after their encoding for the compressor:
    [prover/lib/compressor/blob/encode/encode.go].

    The encodings keep what is needed to execute a block: the time, the hash and, of each
    transaction, the sender instead of the signature. *)
From S2P Require Import Prelude BitIo TxEncoding.

(** The results of the accessors of a [types.Block].  The slice of transactions and its
    elements may be nil. *)
Record Block := mkBlock {
  bl_Time : Z;
  bl_Hash : list Z;
  bl_Transactions : option (list (option Transaction))
}.

Record DecodedBlockData := mkDecodedBlockData {
  BlockHash : list Z;
  Timestamp : Z;
  Froms : list (list Z);
  Txs : list TxData
}.

(** ** Options *)

Definition TxAddressGetter : Type := Transaction -> outcome Empty_set (list Z).

Record Config := mkConfig { GetAddress : TxAddressGetter }.

Definition NewConfig : Config := mkConfig GetFrom.

Inductive Option := WithTxAddressGetter (g : TxAddressGetter).

Definition apply_encode_option (cfg : Config) (o : Option) : Config := match o with WithTxAddressGetter g => mkConfig g end.

(** ** Blocks that the decoders of [go-ethereum] read *)

(** A transaction with the part [R] and [S] of a signature. *)
Record StdTx := mkStdTx { std_data : TxData; std_R : Z; std_S : Z }.

Record StdBlock := mkStdBlock { ParentHash : list Z; std_Time : Z; std_Transactions : list StdTx }.

Section Std.
Context `{Geth}.

Definition InjectFromAddressIntoR (txData : TxData) (from : list Z) : StdTx :=
  match txData with
  | SetCodeTx _ _ _ _ _ _ _ _ _ _ => mkStdTx txData (uint256_SetBytes from) 1
  | _ => mkStdTx txData (be_value from) 1
  end.

(** The sender of the [i]-th transaction is read for each transaction. *)
Fixpoint inject_all {E} (txs : list TxData) (froms : list (list Z)) : outcome E (list StdTx) :=
  match txs, froms with
  | [], _ => Ok []
  | t :: txs, f :: froms => rest ← inject_all txs froms; Ok (InjectFromAddressIntoR t f :: rest)
  | _ :: _, [] => Panic
  end.

Definition ToStd {E} (d : DecodedBlockData) : outcome E StdBlock :=
  txs ← inject_all (Txs d) (Froms d); Ok (mkStdBlock (BlockHash d) (Timestamp d) txs).

(** [FillBytes] panics when the number does not fit. *)
Definition GetAddressFromR {E} (tx : StdTx) : outcome E (list Z) := if (0 <=? std_R tx) && (std_R tx <? 2 ^ 160) then Ok (be_bytes 20 (std_R tx)) else Panic.
End Std.

(** The sender is found again in the signature. *)
Lemma GetAddressFromR_inject `{GethLaws} {E} t from : address_ok from -> GetAddressFromR (E := E) (InjectFromAddressIntoR t from) = Ok from.
Proof.
  intros [Hl Hb]. pose proof (be_bytes_be_value from Hb) as E1. assert (0 <= be_value from < 2 ^ 160) as Hr. { pose proof (le_value_range (reverse from)) as Hr. rewrite length_reverse, Hl in Hr. unfold be_value. apply Hr. by apply Forall_reverse. }
  assert (std_R (InjectFromAddressIntoR t from) = be_value from) as ER. { destruct t; cbn [InjectFromAddressIntoR std_R]; try done. apply uint256_32; [lia|done]. }
  unfold GetAddressFromR. rewrite ER. replace (_ && _) with true by lia. by rewrite <- Hl, E1.
Qed.

Lemma inject_all_ok `{Geth} {E} txs froms : length txs = length froms -> inject_all (E := E) txs froms = Ok (zip_with InjectFromAddressIntoR txs froms).
Proof. revert froms. induction txs as [|t txs IH]; intros [|f froms] Hl; try done. cbn [inject_all zip_with]. injection Hl as Hl. by rewrite IH. Qed.
