(* ===== verification/BlockV0.v ===== *)
(** The encoding of blocks in version 0: [prover/lib/compressor/blob/v0/encode.go].

    A block is its time and its transactions.  A transaction is a list with the sender as
    one of the fields, without the chain and the signature; the end of a block is the end
    of the data. *)
From S2P Require Import Prelude BitIo TxEncoding BlockData.

Inductive block_error :=
| BadTimestamp
| BadNbTxs
| BadBlockHash
| BadFrom
| BlockIsNil
| TransactionsNil
| TransactionNil
| BadTransaction (i : Z) (e : tx_error)
| NotTerminated.

Section Encode.
Context `{Rlp}.

(** The bytes in front of the list, and the fields. *)
Definition tx_fields {E} (cfg : Config) (tx : Transaction) : outcome E (list Z * list item) :=
  if tx_Type tx =? DynamicFeeTxType then
    from ← must (GetAddress cfg tx);
    Ok ([tx_Type tx], [of_uint (tx_Nonce tx); of_uint (tx_GasTipCap tx); of_uint (tx_GasFeeCap tx); of_uint (tx_Gas tx); Str from;
      of_to (tx_To tx); of_uint (tx_Value tx); Str (tx_Data tx); of_access_list (tx_AccessList tx)])
  else if tx_Type tx =? AccessListTxType then
    from ← must (GetAddress cfg tx);
    Ok ([tx_Type tx], [of_uint (tx_Nonce tx); of_uint (tx_GasPrice tx); of_uint (tx_Gas tx); Str from;
      of_to (tx_To tx); of_uint (tx_Value tx); Str (tx_Data tx); of_access_list (tx_AccessList tx)])
  else if (tx_Type tx =? LegacyTxType) && tx_Protected tx then
    from ← must (GetAddress cfg tx);
    Ok ([], [of_uint (tx_Nonce tx); of_uint (tx_GasPrice tx); of_uint (tx_Gas tx); Str from; of_to (tx_To tx); of_uint (tx_Value tx); Str (tx_Data tx)])
  else if (tx_Type tx =? LegacyTxType) && negb (tx_Protected tx) then
    from ← must (GetAddress cfg tx);
    Ok ([], [of_uint (tx_Nonce tx); of_uint (tx_GasPrice tx); of_uint (tx_Gas tx); Str from; of_to (tx_To tx); of_uint (tx_Value tx); Str (tx_Data tx)])
  else Panic.

Definition EncodeTxForCompression {E} (tx : Transaction) (encodingOptions : list Option) : outcome E (list Z) :=
  let cfg := foldl apply_encode_option NewConfig encodingOptions in
  '(head, fields) ← tx_fields cfg tx;
  Ok (head ++ rlp_Encode (Lst fields)).

(** A transaction that is nil is dereferenced. *)
Definition EncodeBlockForCompression {E} (block : Block) (encodingOptions : list Option) : outcome E (list Z) :=
  txs ← mapM_ (fun tx => tx ← unwrap tx; EncodeTxForCompression tx encodingOptions) (default [] (bl_Transactions block));
  Ok (le_bytes 8 (bl_Time block) ++ concat txs).
End Encode.

Section Decode.
Context `{Rlp} `{Geth}.

(** The fields, the type, and the bytes that are left. *)
Definition ReadTxAsRlp (r : list Z) : outcome tx_error (list item * Z * list Z) :=
  match r with
  | [] => Err EmptyBuffer
  | firstByte :: r' =>
      if (firstByte =? AccessListTxType) || (firstByte =? DynamicFeeTxType) then
        '(fields, rest) ← decode_fields r'; Ok (fields, firstByte, rest)
      else if 192 <? firstByte then
        '(fields, rest) ← decode_fields r; Ok (fields, 0, rest)
      else Err (FirstByte firstByte)
  end.

(** The transaction and its sender. *)
Definition decodeLegacyTx (fields : list item) : outcome tx_error (TxData * list Z) :=
  _ ← require (size fields =? 7) NumberOfFields;
  Ok (fun nonce gasPrice gas from to value data => (LegacyTx nonce gasPrice gas to value data None, from))
    <!> fld cast_uint64 fields 0 <!> fld cast_big fields 1 <!> fld cast_uint64 fields 2 <!> fld cast_address fields 3
    <!> fld cast_address_ptr fields 4 <!> fld cast_big fields 5 <!> fld cast_bytes fields 6.

Definition decodeAccessListTx (fields : list item) : outcome tx_error (TxData * list Z) :=
  _ ← require (size fields =? 8) NumberOfFields;
  Ok (fun nonce gasPrice gas from to value data al => (AccessListTx None nonce gasPrice gas to value data al, from))
    <!> fld cast_uint64 fields 0 <!> fld cast_big fields 1 <!> fld cast_uint64 fields 2 <!> fld cast_address fields 3
    <!> fld cast_address_ptr fields 4 <!> fld cast_big fields 5 <!> fld cast_bytes fields 6 <!> fld cast_access_list fields 7.

Definition decodeDynamicFeeTx (fields : list item) : outcome tx_error (TxData * list Z) :=
  _ ← require (size fields =? 9) NumberOfFields;
  Ok (fun nonce tip fee gas from to value data al => (DynamicFeeTx None nonce tip fee gas to value data al, from))
    <!> fld cast_uint64 fields 0 <!> fld cast_big fields 1 <!> fld cast_big fields 2 <!> fld cast_uint64 fields 3 <!> fld cast_address fields 4
    <!> fld cast_address_ptr fields 5 <!> fld cast_big fields 6 <!> fld cast_bytes fields 7 <!> fld cast_access_list fields 8.

Definition DecodeTxFromUncompressed (r : list Z) : outcome tx_error (TxData * list Z * list Z) :=
  '(fields, type, rest) ← ReadTxAsRlp r;
  decoder ← at_ [decodeLegacyTx; decodeAccessListTx; decodeDynamicFeeTx] type;
  '(tx, from) ← decoder fields;
  Ok (tx, from, rest).

(** The transactions and their senders. *)
Fixpoint decode_txs (fuel : nat) (r : list Z) (i : Z) : outcome block_error (list (TxData * list Z)) :=
  match fuel, r with
  | _, [] => Ok []
  | O, _ => Err NotTerminated
  | S fuel, _ =>
      '(tx, from, rest) ← map_err (BadTransaction i) (DecodeTxFromUncompressed r);
      txs ← decode_txs fuel rest (i + 1);
      Ok ((tx, from) :: txs)
  end.

Definition DecodeBlockFromUncompressed (r : list Z) : outcome block_error DecodedBlockData :=
  _ ← require (8 <=? size r) BadTimestamp;
  let rest := drop 8 r in
  txs ← decode_txs (length rest) rest 0;
  Ok (mkDecodedBlockData (replicate 32 0) (le_value (take 8 r)) (snd <$> txs) (fst <$> txs)).
End Decode.

(** ** Theorems *)

(** What is kept of a transaction. *)
Definition data_v0 (tx : Transaction) : option TxData :=
  if tx_Type tx =? DynamicFeeTxType then Some (DynamicFeeTx None (tx_Nonce tx) (tx_GasTipCap tx) (tx_GasFeeCap tx) (tx_Gas tx) (tx_To tx) (tx_Value tx) (tx_Data tx) (tx_AccessList tx))
  else if tx_Type tx =? AccessListTxType then Some (AccessListTx None (tx_Nonce tx) (tx_GasPrice tx) (tx_Gas tx) (tx_To tx) (tx_Value tx) (tx_Data tx) (tx_AccessList tx))
  else if tx_Type tx =? LegacyTxType then Some (LegacyTx (tx_Nonce tx) (tx_GasPrice tx) (tx_Gas tx) (tx_To tx) (tx_Value tx) (tx_Data tx) None)
  else None.

(** A transaction that can be encoded, what is kept of it, and its sender. *)
Definition encodable_v0 (opts : list Option) (tx : Transaction) (t : TxData) (from : list Z) : Prop :=
  tx_ok tx /\ data_v0 tx = Some t /\ GetAddress (foldl apply_encode_option NewConfig opts) tx = Ok from /\ address_ok from.

Section Theorems.
Context `{RlpLaws} `{GethLaws}.

(** Decoding always ends. *)
Lemma ReadTxAsRlp_consumes r fields type rest : ReadTxAsRlp r = Ok (fields, type, rest) -> (length rest < length r)%nat.
Proof.
  destruct r as [|x r]; [done|]. cbn [ReadTxAsRlp]. unfold decode_fields.
  case_match; [|case_match; [|done]].
  - destruct (rlp_Decode r) as [[[|l] q]|] eqn:E; try done. intros [= <- <- <-]. apply rlp_consumes in E. cbn [length]. lia.
  - destruct (rlp_Decode (x :: r)) as [[[|l] q]|] eqn:E; try done. intros [= <- <- <-]. by apply rlp_consumes in E.
Qed.

Lemma decode_txs_terminates fuel r i : (length r <= fuel)%nat -> decode_txs fuel r i <> Err NotTerminated.
Proof.
  revert r i. induction fuel as [|fuel IH]; intros r i Hf; [destruct r; [done|cbn [length] in Hf; lia]|]. destruct r as [|x r]; [done|]. cbn [decode_txs]. unfold DecodeTxFromUncompressed.
  destruct (ReadTxAsRlp (x :: r)) as [[[fields type] rest]|e|] eqn:E; [|done|done]. apply ReadTxAsRlp_consumes in E. cbn [mbind outcome_bind]. destruct (at_ _ type) as [decoder|e|]; [|done|done]. cbn [mbind outcome_bind].
  destruct (decoder fields) as [[tx from]|e|]; [|done|done]. cbn [mbind outcome_bind map_err]. specialize (IH rest (i + 1) ltac:(lia)). destruct (decode_txs fuel rest (i + 1)); [done|cbn [mbind outcome_bind]; congruence|done].
Qed.

Lemma must_ok {E E' A} (m : outcome E A) a : m = Ok a -> must (E' := E') m = Ok a.
Proof. by intros ->. Qed.

(** A list of fields behind its type is read as these fields. *)
Lemma encoded_fields {E} head fields decoder (type : Z) t from r :
  Forall item_ok fields -> fields <> [] -> (type = 0 -> head = []) -> (type <> 0 -> head = [type]) -> at_ [decodeLegacyTx; decodeAccessListTx; decodeDynamicFeeTx] type = @Ok tx_error _ decoder -> decoder fields = Ok (t, from) ->
  exists enc, Ok (E := E) (head ++ rlp_Encode (Lst fields)) = Ok enc /\ enc <> [] /\ (size enc < 2 ^ 64 -> Forall is_byte enc /\ DecodeTxFromUncompressed (enc ++ r) = Ok (t, from, r)).
Proof.
  intros Hi Hne Hh0 Hh1 Hty Hdec. eexists. split; [done|]. split. { pose proof (rlp_nonempty (Lst fields)). by destruct head; destruct (rlp_Encode (Lst fields)). }
  intros Hsz. rewrite length_app in Hsz. assert (size (rlp_Encode (Lst fields)) < 2 ^ 64) as Hs by lia. pose proof (decode_fields_ok fields r Hi Hs) as Hd. pose proof (rlp_bytes (Lst fields) (ok_Lst _ Hi) Hs) as Hb.
  assert (0 <= type < 3) as Hty3. { unfold at_ in Hty. destruct (Z.leb_spec 0 type) as [Hle|]; [|done]. destruct (Z.to_nat type) as [|[|[|n]]] eqn:En; [lia|lia|lia|done]. }
  assert (ReadTxAsRlp ((head ++ rlp_Encode (Lst fields)) ++ r) = Ok (fields, type, r)) as HR.
  { destruct (Z.eq_dec type 0) as [->|Hnz].
    - rewrite Hh0 by done. cbn [app]. destruct (list_head_byte fields Hne Hs) as (x & q & Eq & Hx). rewrite Eq in Hd |- *. cbn [app] in Hd |- *. unfold ReadTxAsRlp, AccessListTxType, DynamicFeeTxType. replace ((x =? 1) || (x =? 2)) with false by lia. replace (192 <? x) with true by lia. by rewrite Hd.
    - rewrite Hh1 by done. cbn [app]. unfold ReadTxAsRlp, AccessListTxType, DynamicFeeTxType. replace ((type =? 1) || (type =? 2)) with true by lia. by rewrite Hd. }
  split.
  - apply Forall_app. split; [|done]. destruct (Z.eq_dec type 0); [by rewrite Hh0|]. rewrite Hh1 by done. constructor; [unfold is_u; lia|constructor].
  - unfold DecodeTxFromUncompressed. rewrite HR. cbn [mbind outcome_bind]. rewrite Hty. cbn [mbind outcome_bind]. by rewrite Hdec.
Qed.

(** The fields of an encoded transaction, and how they are decoded. *)
Lemma encode_tx_ok {E} opts tx t from r :
  encodable_v0 opts tx t from ->
  exists enc, EncodeTxForCompression (E := E) tx opts = Ok enc /\ enc <> [] /\ (size enc < 2 ^ 64 -> Forall is_byte enc /\ DecodeTxFromUncompressed (enc ++ r) = Ok (t, from, r)).
Proof.
  intros (Hok & Ht & Hfrom & Ha). unfold EncodeTxForCompression. set (cfg := foldl _ _ _) in *. pose proof (must_ok (E' := E) _ _ Hfrom) as Hm.
  assert (item_ok (Str from)) as Hif by (constructor; apply Ha). pose proof (of_to_ok (tx_To tx) (ok_To tx Hok)). pose proof (of_access_list_ok _ (ok_AccessList tx Hok)). pose proof (ok_Str _ (ok_Data tx Hok)).
  destruct Hok as [Hc Hn Hgp Htc Hfc Hg Hv Hto Hda Hal Hau]. unfold data_v0 in Ht. unfold tx_fields. rewrite !Hm.
  destruct (Z.eqb_spec (tx_Type tx) DynamicFeeTxType) as [E2|_]; [|destruct (Z.eqb_spec (tx_Type tx) AccessListTxType) as [E1|_]; [|destruct (Z.eqb_spec (tx_Type tx) LegacyTxType) as [E0|_]; [destruct (tx_Protected tx)|done]]]; injection Ht as <-; cbn [mbind outcome_bind andb negb].
  all: match goal with |- context [Lst ?fs] => assert (Forall item_ok fs) as Hi by (repeat (apply Forall_cons_2; [first [assumption|apply of_uint_ok]|]); apply Forall_nil_2) end.
  - apply (encoded_fields _ _ decodeDynamicFeeTx 2); try done; [by rewrite E2|]. unfold decodeDynamicFeeTx. counted. fields. rewrite !cast_big_of, !cast_uint64_of, cast_address_of, cast_address_ptr_of, cast_access_list_of; try done; try apply Htc; try apply Hfc; apply Hv.
  - apply (encoded_fields _ _ decodeAccessListTx 1); try done; [by rewrite E1|]. unfold decodeAccessListTx. counted. fields. rewrite !cast_big_of, !cast_uint64_of, cast_address_of, cast_address_ptr_of, cast_access_list_of; try done; try apply Hgp; apply Hv.
  - apply (encoded_fields _ _ decodeLegacyTx 0); try done. unfold decodeLegacyTx. counted. fields. rewrite !cast_big_of, !cast_uint64_of, cast_address_of, cast_address_ptr_of; try done; try apply Hgp; apply Hv.
  - apply (encoded_fields _ _ decodeLegacyTx 0); try done. unfold decodeLegacyTx. counted. fields. rewrite !cast_big_of, !cast_uint64_of, cast_address_of, cast_address_ptr_of; try done; try apply Hgp; apply Hv.
Qed.

Lemma decode_txs_ok {E} opts txs ds :
  Forall2 (fun tx d => encodable_v0 opts tx d.1 d.2) txs ds ->
  exists encs, mapM_ (fun tx => tx ← unwrap tx; EncodeTxForCompression (E := E) tx opts) (Some <$> txs) = Ok encs /\
    (size (concat encs) < 2 ^ 64 -> Forall is_byte (concat encs) /\ forall fuel i, (length (concat encs) <= fuel)%nat -> decode_txs fuel (concat encs) i = Ok ds).
Proof.
  induction 1 as [|tx [t from] txs ds Htx _ (encs & E1 & IH)]; [exists []; split; [done|]; intros _; split; [constructor|]; intros [|fuel]; done|]. cbn [fst snd] in Htx.
  destruct (encode_tx_ok (E := E) opts tx t from (concat encs) Htx) as (enc & E2 & Hne & Hdec). exists (enc :: encs). split.
  { change (Some <$> tx :: txs) with (Some tx :: (Some <$> txs)). cbn [mapM_ unwrap mbind outcome_bind]. rewrite E2. cbn [mbind outcome_bind]. by rewrite E1. }
  cbn [concat]. rewrite length_app. intros Hsz. destruct Hdec as [Hb Hd]; [lia|]. destruct IH as [Hbs IH]; [lia|]. split; [by apply Forall_app|]. intros fuel i Hf. destruct enc as [|x enc]; [done|]. cbn [length] in Hf. destruct fuel as [|fuel]; [lia|].
  cbn [app decode_txs] in *. rewrite Hd. cbn [map_err mbind outcome_bind]. rewrite IH by lia. done.
Qed.

Lemma EncodeBlock_v0_ok {E} block opts txs ds :
  is_u 64 (bl_Time block) -> bl_Transactions block = Some (Some <$> txs) -> Forall2 (fun tx d => encodable_v0 opts tx d.1 d.2) txs ds ->
  exists enc, EncodeBlockForCompression (E := E) block opts = Ok enc /\ (size enc < 2 ^ 64 -> Forall is_byte enc /\ DecodeBlockFromUncompressed enc = Ok (mkDecodedBlockData (replicate 32 0) (bl_Time block) ds.*2 ds.*1)).
Proof.
  intros Ht Htx Hds. destruct (decode_txs_ok (E := E) opts txs ds Hds) as (encs & E1 & Hdec). unfold EncodeBlockForCompression. rewrite Htx. change (default [] (Some (Some <$> txs))) with (Some <$> txs). rewrite E1. cbn [mbind outcome_bind].
  eexists. split; [done|]. rewrite length_app, length_le_bytes. intros Hsz. destruct Hdec as [Hb Hd]; [lia|]. split; [apply Forall_app; split; [apply le_bytes_bytes|done]|].
  unfold DecodeBlockFromUncompressed. rewrite length_app, length_le_bytes. replace (8 <=? _) with true by lia. cbn [require mbind outcome_bind]. rewrite take_app_length', drop_app_length' by (by rewrite length_le_bytes). rewrite Hd by done. cbn [mbind outcome_bind].
  rewrite le_value_le_bytes, Z.mod_small by apply Ht. done.
Qed.
End Theorems.
