(* ===== verification/BlockV1.v ===== *)
(** The encoding of blocks in the versions 1 and 2:
    [prover/lib/compressor/blob/v1/encode.go].

    A block is the number of its transactions, its time and its hash, and each transaction
    is its sender and the bytes that are signed.  [ScanBlockByteLen] finds the end of a
    block from the heads of the RLP lists, with a reader that can be moved past the end of
    the data. *)
From S2P Require Import Prelude BitIo TxEncoding BlockData BlockV0.

Section Encode.
Context `{Rlp}.

(** [tx] is [None] for a nil pointer. *)
Definition EncodeTxForCompression (tx : option Transaction) : outcome block_error (list Z) :=
  match tx with
  | None => Err TransactionNil
  | Some tx => from ← GetFrom tx; txRlp ← EncodeTxForSigning tx; Ok (from ++ txRlp)
  end.

Definition EncodeBlockForCompression (block : option Block) : outcome block_error (list Z) :=
  match block with
  | None => Err BlockIsNil
  | Some block =>
      match bl_Transactions block with
      | None => Err TransactionsNil
      | Some transactions =>
          let timestamp := uwrap 32 (bl_Time block) in
          let numTxs := uwrap 16 (size transactions) in
          txs ← mapM_ EncodeTxForCompression transactions;
          Ok (be_bytes 2 numTxs ++ be_bytes 4 timestamp ++ bl_Hash block ++ concat txs)
      end
  end.
End Encode.

(** ** Scanning *)

(** A [bytes.Reader] on [s] is a position, which may be behind the end. *)
Section Scan.
Variable s : list Z.

(** [r.Seek(off, io.SeekCurrent)], where a position before the start is an error that the
    callers ignore. *)
Definition seek (i off : Z) : Z := let abs := i64 (i + off) in if abs <? 0 then i else abs.

Definition read_byte {E} (e : E) (i : Z) : outcome E (Z * Z) := if size s <=? i then Err e else b ← at_ s i; Ok (b, i + 1).

(** [r.Read(buf)] for [l] bytes: the bytes there are. *)
Definition read_some (i : Z) (l : Z) : list Z := if size s <=? i then [] else take (Z.to_nat l) (drop (Z.to_nat i) s).

Definition passRlpList (i : Z) : outcome tx_error Z :=
  '(firstByte, i) ← read_byte EmptyBuffer i;
  if firstByte <? 192 then Err (FirstByte firstByte)
  else if firstByte <=? 247 then Ok (seek i (firstByte - 192))
  else
    let l := firstByte - 247 in
    let got := read_some i l in
    let buf := replicate (Z.to_nat (8 - l)) 0 ++ got ++ replicate (Z.to_nat l - length got) 0 in
    Ok (seek (i + size got) (i64 (be_value buf))).

(** One transaction. *)
Definition scan_tx (i : Z) : outcome tx_error Z :=
  let i := seek i 20 in
  '(prefix, i) ← read_byte EmptyBuffer i;
  passRlpList (if 192 <? prefix then i - 1 else i).

Fixpoint scan_txs (n : nat) (k i : Z) : outcome block_error Z :=
  match n with
  | O => Ok i
  | S n => i ← map_err (BadTransaction k) (scan_tx i); scan_txs n (k + 1) i
  end.

(** [r.Len()]. *)
Definition reader_len (i : Z) : Z := if size s <=? i then 0 else size s - i.

Definition ScanBlockByteLen : outcome block_error Z :=
  _ ← require (2 <=? size s) BadNbTxs;
  let decNumTxs := be_value (take 2 s) in
  i ← scan_txs (Z.to_nat decNumTxs) 0 (seek 2 36);
  Ok (size s - reader_len i).
End Scan.

(** ** Decoding *)

(** [binary.Read]. *)
Definition read_be {E} (e : E) (n : nat) (r : list Z) : outcome E (Z * list Z) := if (n <=? length r)%nat then Ok (be_value (take n r), drop n r) else Err e.

(** [r.Read] into an array of [n] bytes, which fails only at the end of the data. *)
Definition read_array {E} (e : E) (n : nat) (r : list Z) : outcome E (list Z * list Z) :=
  match r with
  | [] => Err e
  | _ => Ok (take n r ++ replicate (n - length r) 0, drop n r)
  end.

Section Decode.
Context `{Rlp} `{Geth}.

Definition DecodeTxFromUncompressed (i : Z) (r : list Z) : outcome block_error (TxData * list Z * list Z) :=
  '(from, r) ← read_array BadFrom 20 r;
  '(tx, r) ← map_err (BadTransaction i) (DecodeTxFromBytes r);
  Ok (tx, from, r).

Fixpoint decode_txs (n : nat) (i : Z) (r : list Z) : outcome block_error (list (TxData * list Z) * list Z) :=
  match n with
  | O => Ok ([], r)
  | S n =>
      '(tx, from, r) ← DecodeTxFromUncompressed i r;
      '(txs, r) ← decode_txs n (i + 1) r;
      Ok ((tx, from) :: txs, r)
  end.

(** The block, and the bytes that are left. *)
Definition DecodeBlockFromUncompressed (r : list Z) : outcome block_error (DecodedBlockData * list Z) :=
  '(decNumTxs, r) ← read_be BadNbTxs 2 r;
  '(decTimestamp, r) ← read_be BadTimestamp 4 r;
  '(blockHash, r) ← read_array BadBlockHash 32 r;
  '(txs, r) ← decode_txs (Z.to_nat decNumTxs) 0 r;
  Ok (mkDecodedBlockData blockHash decTimestamp (snd <$> txs) (fst <$> txs), r).
End Decode.

(** ** Theorems *)

(** A transaction that can be encoded, what is kept of it, and its sender. *)
Definition encodable (tx : Transaction) (d : TxData * list Z) : Prop :=
  tx_ok tx /\ data_of tx = Some d.1 /\ tx_sender tx = Some d.2 /\ address_ok d.2.

Section Theorems.
Context `{RlpLaws} `{GethLaws}.

(** The bytes of a transaction. *)
Lemma EncodeTx_ok tx d :
  encodable tx d -> exists head fields, EncodeTxForCompression (Some tx) = Ok (d.2 ++ head ++ rlp_Encode (Lst fields)) /\
    (head = [] \/ exists type, head = [type] /\ 0 <= type <= 192) /\ fields <> [] /\ Forall item_ok fields /\
    (size (rlp_Encode (Lst fields)) < 2 ^ 64 -> forall r, DecodeTxFromBytes (head ++ rlp_Encode (Lst fields) ++ r) = Ok (d.1, r)).
Proof.
  intros (Hok & Ht & Hs & Ha). destruct (signing_some tx d.1 Ht) as (head & fields & Hf). exists head, fields.
  assert (signing_fields (E := block_error) tx = Ok (head, fields)) as Hf'. { revert Hf. unfold signing_fields. repeat case_match; intros Hf; simplify_eq; done. }
  split; [unfold EncodeTxForCompression, GetFrom, EncodeTxForSigning; rewrite Hs; cbn [unwrap mbind outcome_bind]; by rewrite Hf'|]. split; [|split; [|split]].
  - revert Hf. unfold signing_fields, DynamicFeeTxType, AccessListTxType, LegacyTxType, SetCodeTxType. repeat case_match; intros Hf; simplify_eq; first [by left|right; eexists; split; [done|lia]].
  - revert Hf. unfold signing_fields. repeat case_match; intros Hf; simplify_eq; done.
  - by eapply signing_fields_ok.
  - intros Hsz r. by apply (decode_signing tx head fields).
Qed.

Lemma read_array_app {E} (e : E) n a r : length a = S n -> read_array e (S n) (a ++ r) = Ok (a, r).
Proof.
  intros Ha. destruct a as [|x a]; [done|]. unfold read_array. cbn [app]. change (x :: a ++ r) with ((x :: a) ++ r). rewrite take_app_length', drop_app_length' by done. rewrite length_app, Ha.
  replace (S n - (S n + length r))%nat with 0%nat by lia. by rewrite app_nil_r.
Qed.

Lemma read_be_app {E} (e : E) n v r : 0 <= v < 2 ^ (8 * Z.of_nat n) -> read_be e n (be_bytes n v ++ r) = Ok (v, r).
Proof.
  intros Hv. unfold read_be. rewrite length_app, length_be_bytes. replace (n <=? n + length r)%nat with true by lia. rewrite take_app_length', drop_app_length' by (by rewrite length_be_bytes). by rewrite be_value_be_bytes, Z.mod_small.
Qed.

(** Encoding and decoding the transactions of a block. *)
Lemma decode_txs_v1_ok txs ds r :
  Forall2 encodable txs ds ->
  exists encs, mapM_ EncodeTxForCompression (Some <$> txs) = Ok encs /\ (size (concat encs) < 2 ^ 63 -> Forall is_byte (concat encs) /\ forall i, decode_txs (length txs) i (concat encs ++ r) = Ok (ds, r)).
Proof.
  induction 1 as [|tx d txs ds Htx _ (encs & E1 & IH)]; [exists []; split; [done|]; intros _; split; [constructor|done]|]. destruct (EncodeTx_ok tx d Htx) as (head & fields & E2 & Hh & Hne & Hi & Hdec). destruct Htx as (_ & _ & _ & Ha & Hab).
  eexists. split. { change (Some <$> tx :: txs) with (Some tx :: (Some <$> txs)). cbn [mapM_]. rewrite E2. cbn [mbind outcome_bind]. rewrite E1. reflexivity. }
  cbn [concat]. intros Hsz. rewrite !length_app in Hsz. assert (size (rlp_Encode (Lst fields)) < 2 ^ 64) as Hs by lia. specialize (Hdec Hs). destruct IH as [Hb IH]; [lia|]. split.
  - apply Forall_app. split; [|done]. apply Forall_app. split; [done|]. apply Forall_app. split; [|apply rlp_bytes; [by constructor|done]]. destruct Hh as [->|(type & -> & Hty)]; constructor; [unfold is_u; lia|constructor].
  - intros i. cbn [length decode_txs]. unfold DecodeTxFromUncompressed. rewrite <- !app_assoc. rewrite read_array_app by done. cbn [mbind outcome_bind]. rewrite Hdec. cbn [map_err mbind outcome_bind]. rewrite IH. destruct d. done.
Qed.

(** A block that can be encoded, and what is kept of its transactions. *)
Definition block_ok (block : Block) (ds : list (TxData * list Z)) : Prop :=
  is_u 32 (bl_Time block) /\ length (bl_Hash block) = 32%nat /\ Forall is_byte (bl_Hash block) /\ size ds < 65536 /\
  exists txs, bl_Transactions block = Some (Some <$> txs) /\ Forall2 encodable txs ds.

Lemma EncodeBlock_v1_ok block ds r :
  block_ok block ds ->
  exists enc, EncodeBlockForCompression (Some block) = Ok enc /\ 38 <= size enc /\
    (size enc < 2 ^ 63 -> Forall is_byte enc /\ DecodeBlockFromUncompressed (enc ++ r) = Ok (mkDecodedBlockData (bl_Hash block) (bl_Time block) ds.*2 ds.*1, r)).
Proof.
  intros (Ht & Hhl & Hhb & Hn & txs & Htx & Hds). destruct (decode_txs_v1_ok txs ds r Hds) as (encs & E1 & Hdec). pose proof (Forall2_length _ _ _ Hds) as Hl. unfold EncodeBlockForCompression. rewrite Htx, E1. cbn [mbind outcome_bind].
  rewrite length_fmap, (uwrap_small 32), (uwrap_small 16) by (done || (unfold is_u; lia)). eexists. split; [done|]. rewrite !length_app, !length_be_bytes, Hhl. split; [lia|]. intros Hsz. destruct Hdec as [Hb Hd]; [lia|]. split.
  - apply Forall_app. split; [apply be_bytes_bytes|]. apply Forall_app. split; [apply be_bytes_bytes|]. by apply Forall_app.
  - unfold DecodeBlockFromUncompressed. rewrite <- !app_assoc. rewrite read_be_app by lia. cbn [mbind outcome_bind]. rewrite read_be_app by apply Ht. cbn [mbind outcome_bind]. rewrite read_array_app by done. cbn [mbind outcome_bind]. rewrite Nat2Z.id, Hd. done.
Qed.

(** Scanning a list. *)
Lemma passRlpList_ok s i l r :
  0 <= i -> drop (Z.to_nat i) s = rlp_Encode (Lst l) ++ r -> size s < 2 ^ 63 -> passRlpList s i = Ok (i + size (rlp_Encode (Lst l))).
Proof.
  intros Hi Hd Hs. assert (size s = i + size (rlp_Encode (Lst l) ++ r)) as Esz.
  { assert (Z.to_nat i <= length s)%nat. { destruct (Nat.le_gt_cases (Z.to_nat i) (length s)); [done|]. rewrite drop_ge in Hd by lia. pose proof (rlp_nonempty (Lst l)). by destruct (rlp_Encode (Lst l)). } rewrite <- Hd, length_drop. lia. }
  assert (forall x q, drop (Z.to_nat i) s = x :: q -> drop (Z.to_nat (i + 1)) s = q) as Hnext. { intros x q Hx. replace (Z.to_nat (i + 1)) with (Z.to_nat i + 1)%nat by lia. by rewrite <- drop_drop, Hx. }
  unfold passRlpList, read_byte. rewrite rlp_list in *. cbv zeta in *. set (p := concat _) in *. destruct (Z.ltb_spec (size p) 56) as [Hlt|Hge].
  - cbn [app length] in Hd, Esz |- *. rewrite length_app in Esz. rewrite (proj2 (Z.leb_gt _ _)) by lia. unfold at_. rewrite (proj2 (Z.leb_le 0 i)) by lia. assert (s !! Z.to_nat i = Some (192 + size p)) as -> by (rewrite <- (Nat.add_0_r (Z.to_nat i)), <- lookup_drop, Hd; done).
    cbn [unwrap mbind outcome_bind]. rewrite (proj2 (Z.ltb_ge _ _)) by lia. rewrite (proj2 (Z.leb_le _ _)) by lia. unfold seek. rewrite swrap_small by (unfold is_i; lia). rewrite (proj2 (Z.ltb_ge _ _)) by lia. f_equal. lia.
  - set (lb := rlp_uint (size p)) in *. assert (1 <= size lb <= 8) as Hlb.
    { split; [|apply rlp_uint_size; [lia|]; cbn [app length] in Esz; rewrite !length_app in Esz; lia]. pose proof (rlp_uint_value (size p) ltac:(lia)) as Ev. fold lb in Ev. destruct lb; [unfold be_value in Ev; cbn in Ev; lia|cbn [length]; lia]. }
    cbn [app length] in Hd, Esz |- *. rewrite !length_app in Esz. rewrite (proj2 (Z.leb_gt _ _)) by lia. unfold at_. rewrite (proj2 (Z.leb_le 0 i)) by lia. assert (s !! Z.to_nat i = Some (247 + size lb)) as -> by (rewrite <- (Nat.add_0_r (Z.to_nat i)), <- lookup_drop, Hd; done).
    cbn [unwrap mbind outcome_bind]. rewrite (proj2 (Z.ltb_ge _ _)) by lia. rewrite (proj2 (Z.leb_gt _ _)) by lia. apply Hnext in Hd. replace (247 + size lb - 247) with (size lb) by lia.
    assert (read_some s (i + 1) (size lb) = lb) as ->. { unfold read_some. rewrite (proj2 (Z.leb_gt _ _)) by lia. rewrite Hd, Nat2Z.id, <- app_assoc. by rewrite take_app_length. }
    rewrite Nat2Z.id, Nat.sub_diag. cbn [replicate]. rewrite app_nil_r, be_value_zeros. assert (be_value lb = size p) as -> by (apply rlp_uint_value; lia). rewrite swrap_small by (unfold is_i; lia). unfold seek. rewrite swrap_small by (unfold is_i; lia). rewrite (proj2 (Z.ltb_ge _ _)) by lia. f_equal. rewrite length_app. lia.
Qed.

Lemma scan_tx_ok s i tx d enc r :
  encodable tx d -> EncodeTxForCompression (Some tx) = Ok enc -> 0 <= i -> drop (Z.to_nat i) s = enc ++ r -> size s < 2 ^ 63 -> scan_tx s i = Ok (i + size enc).
Proof.
  intros Hen He Hi Hd Hs. destruct (EncodeTx_ok tx d Hen) as (head & fields & E2 & Hh & Hne & Hif & _). destruct Hen as (_ & _ & _ & Ha & _). rewrite E2 in He. injection He as <-. set (L := rlp_Encode (Lst fields)) in *.
  assert (size s = i + size ((d.2 ++ head ++ L) ++ r)) as Esz.
  { assert (Z.to_nat i <= length s)%nat. { destruct (Nat.le_gt_cases (Z.to_nat i) (length s)); [done|]. rewrite drop_ge in Hd by lia. destruct d.2; done. } rewrite <- Hd, length_drop. lia. }
  rewrite !length_app, Ha in Esz. rewrite !length_app, Ha. assert (drop (Z.to_nat (i + 20)) s = head ++ L ++ r) as Hd2. { replace (Z.to_nat (i + 20)) with (Z.to_nat i + 20)%nat by lia. rewrite <- drop_drop, Hd, <- !app_assoc. by apply drop_app_length'. }
  assert (size L < 2 ^ 64) as HL by lia. destruct (list_head_byte fields Hne HL) as (x & q & Ex & Hx). fold L in Ex. unfold scan_tx, seek. rewrite swrap_small by (unfold is_i; lia). rewrite (proj2 (Z.ltb_ge _ _)) by lia. cbv zeta. unfold read_byte. rewrite Ex in Esz. cbn [length] in Esz. rewrite (proj2 (Z.leb_gt _ _)) by lia.
  unfold at_. rewrite (proj2 (Z.leb_le 0 (i + 20))) by lia. rewrite <- (Nat.add_0_r (Z.to_nat (i + 20))), <- lookup_drop, Hd2. destruct Hh as [->|(type & -> & Hty)].
  - cbn [app]. rewrite Ex. cbn [app lookup list_lookup unwrap mbind outcome_bind]. rewrite (proj2 (Z.ltb_lt _ _)) by lia. rewrite (passRlpList_ok s _ fields r); [fold L; f_equal; rewrite Ex; cbn [length]; lia|lia|replace (i + 20 + 1 - 1) with (i + 20) by lia; done|done].
  - cbn [app lookup list_lookup unwrap mbind outcome_bind]. rewrite (proj2 (Z.ltb_ge _ _)) by lia. rewrite (passRlpList_ok s _ fields r); [fold L; f_equal; cbn [length]; lia|lia| |done].
    replace (Z.to_nat (i + 20 + 1)) with (Z.to_nat (i + 20) + 1)%nat by lia. by rewrite <- drop_drop, Hd2.
Qed.

Lemma scan_txs_ok s txs ds encs : Forall2 encodable txs ds -> mapM_ EncodeTxForCompression (Some <$> txs) = Ok encs -> size s < 2 ^ 63 ->
  forall i k r, 0 <= i -> drop (Z.to_nat i) s = concat encs ++ r -> scan_txs s (length txs) k i = Ok (i + size (concat encs)).
Proof.
  intros Hds He Hs. revert encs He. induction Hds as [|tx d txs ds Htx _ IH]; intros encs He i k r Hi Hd; [injection He as <-; cbn; f_equal; lia|].
  change (Some <$> tx :: txs) with (Some tx :: (Some <$> txs)) in He. cbn [mapM_] in He. apply bind_ok in He as (enc & E1 & He). apply bind_ok in He as (encs' & E2 & He). injection He as <-. cbn [concat] in Hd |- *. rewrite <- app_assoc in Hd.
  cbn [length scan_txs]. rewrite (scan_tx_ok s i tx d enc _ Htx E1 Hi Hd Hs). cbn [map_err mbind outcome_bind]. rewrite (IH encs' E2 _ _ r); [rewrite length_app; f_equal; lia|lia|].
  replace (Z.to_nat (i + size enc)) with (Z.to_nat i + length enc)%nat by lia. by rewrite <- drop_drop, Hd, drop_app_length.
Qed.

Lemma Scan_ok block ds enc r :
  block_ok block ds -> EncodeBlockForCompression (Some block) = Ok enc -> size (enc ++ r) < 2 ^ 63 -> ScanBlockByteLen (enc ++ r) = Ok (size enc).
Proof.
  intros (Ht & Hhl & Hhb & Hn & txs & Htx & Hds) He Hs. pose proof (Forall2_length _ _ _ Hds) as Hl. unfold EncodeBlockForCompression in He. rewrite Htx in He. apply bind_ok in He as (encs & E1 & He). injection He as He. rewrite length_fmap, (uwrap_small 16) in He by (unfold is_u; lia).
  assert (size enc = 38 + size (concat encs)) as Esz by (rewrite <- He, !length_app, !length_be_bytes, Hhl; lia). rewrite length_app in Hs. unfold ScanBlockByteLen. rewrite length_app. rewrite (proj2 (Z.leb_le _ _)) by lia. cbn [require mbind outcome_bind].
  assert (take 2 (enc ++ r) = be_bytes 2 (size txs)) as ->. { rewrite <- He, <- !app_assoc. apply take_app_length'. by rewrite length_be_bytes. } rewrite be_value_be_bytes, Z.mod_small, Nat2Z.id by lia.
  rewrite (scan_txs_ok (enc ++ r) txs ds encs Hds E1 ltac:(rewrite length_app; lia) _ _ r); [|done|].
  - cbn [mbind outcome_bind]. unfold reader_len. rewrite length_app. change (seek 2 36) with 38. f_equal. destruct (Z.leb_spec (Z.of_nat (length enc + length r)) (38 + size (concat encs))); lia.
  - change (Z.to_nat (seek 2 36)) with 38%nat. rewrite <- He, <- !app_assoc. rewrite !app_assoc. rewrite <- (app_assoc _ (concat encs)). apply drop_app_length'. rewrite !length_app, !length_be_bytes, Hhl. lia.
Qed.
End Theorems.
