(* ===== verification/BlockResults.v ===== *)
(** The theorems on the encodings of blocks: round trips for both versions, and inputs on
    which the decoders fail. *)
From S2P Require Import Prelude BitIo TxEncoding RlpCodec BlockData BlockV0 BlockV1.

Section Results.
Context `{RlpLaws} `{GethLaws}.

(** C39. The encoding of version 0 keeps the block: decoding the bytes of a block gives its
    time, and of each transaction all fields but the chain and the signature, with the
    sender. *)
Theorem BlockV0_roundtrip block opts txs ds enc :
  is_u 64 (bl_Time block) -> bl_Transactions block = Some (Some <$> txs) -> Forall2 (fun tx d => encodable_v0 opts tx d.1 d.2) txs ds ->
  BlockV0.EncodeBlockForCompression (E := block_error) block opts = Ok enc -> size enc < 2 ^ 64 ->
  BlockV0.DecodeBlockFromUncompressed enc = Ok (mkDecodedBlockData (replicate 32 0) (bl_Time block) ds.*2 ds.*1).
Proof. intros Ht Htx Hds He Hsz. destruct (EncodeBlock_v0_ok (E := block_error) block opts txs ds Ht Htx Hds) as (enc' & E1 & Hd). rewrite E1 in He. injection He as <-. by apply Hd. Qed.

(** C13. The encoding of the versions 1 and 2: a block with the transactions of the known
    types is encoded; wherever its bytes are followed by others, the scanner finds their
    number, and the decoder gives the block without the signatures and stops behind it. *)
Theorem BlockV1_roundtrip block ds r :
  block_ok block ds ->
  exists enc, BlockV1.EncodeBlockForCompression (Some block) = Ok enc /\
    (size (enc ++ r) < 2 ^ 63 ->
      ScanBlockByteLen (enc ++ r) = Ok (size enc) /\
      BlockV1.DecodeBlockFromUncompressed (enc ++ r) = Ok (mkDecodedBlockData (bl_Hash block) (bl_Time block) ds.*2 ds.*1, r)).
Proof.
  intros Hok. destruct (EncodeBlock_v1_ok block ds r Hok) as (enc & E1 & _ & Hd). exists enc. split; [done|]. intros Hsz. split; [by apply (Scan_ok block ds)|]. apply Hd. rewrite length_app in Hsz. lia.
Qed.
End Results.

(** ** Witnesses *)

Definition a_transaction : Transaction :=
  mkTransaction 2 true 59144 7 0 1 300 21000 (Some (replicate 20 5)) 1000 [1; 2; 3] [mkAccessTuple (replicate 20 9) [replicate 32 4]] [] (Some (replicate 20 8)).

Definition a_legacy : Transaction := mkTransaction 0 true 59144 0 70000 0 0 21000 None 0 (replicate 60 200) [] [] (Some (replicate 20 6)).

Definition a_block : Block := mkBlock 1700000000 (replicate 32 11) (Some [Some a_transaction; Some a_legacy]).

Definition kept : list (TxData * list Z) :=
  [(DynamicFeeTx (Some 59144) 7 1 300 21000 (Some (replicate 20 5)) 1000 [1; 2; 3] [mkAccessTuple (replicate 20 9) [replicate 32 4]], replicate 20 8);
   (LegacyTx 0 70000 21000 None 0 (replicate 60 200) (Some 118323), replicate 20 6)].

Lemma replicate_address x : is_byte x -> address_ok (replicate 20 x).
Proof. intros Hx. split; [done|]. by apply Forall_replicate. Qed.

Lemma a_transaction_ok : tx_ok a_transaction.
Proof.
  apply Build_tx_ok; try (unfold is_u; cbn; lia).
  - intros a [= <-]. by apply replicate_address.
  - by apply bytes_check.
  - constructor; [|constructor]. split; [by apply replicate_address|]. constructor; [|constructor]. split; [done|by apply Forall_replicate].
  - constructor.
Qed.

Lemma a_legacy_ok : tx_ok a_legacy.
Proof. apply Build_tx_ok; try (unfold is_u; cbn; lia); [intros a [=]|by apply Forall_replicate|constructor|constructor]. Qed.

Lemma a_block_ok : block_ok a_block kept.
Proof.
  split; [vm_compute; split; [discriminate|reflexivity]|]. split; [done|]. split; [by apply Forall_replicate|]. split; [done|]. exists [a_transaction; a_legacy]. split; [done|].
  constructor; [|constructor; [|constructor]]; (split; [apply a_transaction_ok || apply a_legacy_ok|]); (split; [done|]); (split; [done|by apply replicate_address]).
Qed.

Lemma BlockV1_roundtrip_witness :
  exists enc, BlockV1.EncodeBlockForCompression (Some a_block) = Ok enc /\ ScanBlockByteLen (enc ++ [1; 2]) = Ok (size enc) /\
    BlockV1.DecodeBlockFromUncompressed (enc ++ [1; 2]) = Ok (mkDecodedBlockData (replicate 32 11) 1700000000 [replicate 20 8; replicate 20 6] kept.*1, [1; 2]).
Proof.
  destruct (BlockV1_roundtrip a_block kept [1; 2] a_block_ok) as (enc & E1 & Hd). exists enc. split; [done|]. apply Hd. vm_compute in E1. injection E1 as <-. done.
Defined.

Definition kept_v0 : list (TxData * list Z) :=
  [(DynamicFeeTx None 7 1 300 21000 (Some (replicate 20 5)) 1000 [1; 2; 3] [mkAccessTuple (replicate 20 9) [replicate 32 4]], replicate 20 8);
   (LegacyTx 0 70000 21000 None 0 (replicate 60 200) None, replicate 20 6)].

Lemma kept_v0_ok : Forall2 (fun tx d => encodable_v0 [] tx d.1 d.2) [a_transaction; a_legacy] kept_v0.
Proof. constructor; [|constructor; [|constructor]]; (split; [apply a_transaction_ok || apply a_legacy_ok|]); (split; [done|]); (split; [done|by apply replicate_address]). Qed.

Lemma BlockV0_roundtrip_witness :
  exists enc, BlockV0.EncodeBlockForCompression (E := block_error) a_block [] = Ok enc /\
    BlockV0.DecodeBlockFromUncompressed enc = Ok (mkDecodedBlockData (replicate 32 0) 1700000000 [replicate 20 8; replicate 20 6] kept_v0.*1).
Proof.
  eexists. split; [vm_compute; reflexivity|]. apply (BlockV0_roundtrip a_block [] [a_transaction; a_legacy] kept_v0); [vm_compute; split; [discriminate|reflexivity]|done|apply kept_v0_ok|by vm_compute|done].
Defined.

(** ** Inputs on which the decoders fail *)

(** A length of eight bytes is read as a negative number, and moves the reader back: the
    block seems to be empty. *)
Definition looping_block : list Z := [0; 1] ++ replicate 56 0 ++ [255] ++ be_bytes 8 (2 ^ 64 - 67).

Example scan_back : ScanBlockByteLen looping_block = Ok 0.
Proof. by vm_compute. Qed.

(** An element of an access list that has no fields. *)
Definition short_tuple : list Z := 1 :: rlp_Encode (Lst (replicate 7 (Str []) ++ [Lst [Lst []]])).

Example short_tuple_panics : DecodeTxFromBytes short_tuple = Panic.
Proof. by vm_compute. Qed.
