(* ===== verification/Dictionary.v ===== *)
(** The store of dictionaries: [prover/lib/compressor/blob/dictionary/dictionary.go], and
    the checksums of [encode/encode.go].

    A store has a map from checksums to dictionaries for each version of the blobs.  The
    dictionaries are loaded for the latest version, and entered into the maps of the
    other versions when they are looked for.  The maps are shared, so that looking up a
    dictionary changes the store.  The hashes are third-party code, and so are the files. *)
From S2P Require Import Prelude BitIo GoState PackAlign PackTheorems.

Inductive dict_error :=
| DictPack (e : pack_error)
| UnsupportedVersion
| UnmatchingDictionary
| DictFile
| UnrecognizedVersion
| NoDictionary
| GetLoops.

Class DictHash := {
  (** [compress.ChecksumPaddedBytes] with the MiMC hash of bls12-377: the data, its length
      and the number of bits of the field. *)
  ChecksumPaddedBytes : list Z -> Z -> Z -> list Z;
  (** The hashes [MIMC_BLS12_377] and [POSEIDON2_BLS12_377] of what is written. *)
  MIMC_BLS12_377 : list Z -> list Z;
  POSEIDON2_BLS12_377 : list Z -> list Z
}.

(** The hashes are 32 bytes.  [ChecksumPaddedBytes] uses the whole bytes below the field,
    31 of them for both fields. *)
Class DictHashLaws `{DictHash} := {
  checksum_bytes d n b : length (ChecksumPaddedBytes d n b) = 32%nat /\ Forall is_byte (ChecksumPaddedBytes d n b);
  mimc_bytes d : length (MIMC_BLS12_377 d) = 32%nat /\ Forall is_byte (MIMC_BLS12_377 d);
  poseidon2_bytes d : length (POSEIDON2_BLS12_377 d) = 32%nat /\ Forall is_byte (POSEIDON2_BLS12_377 d);
  checksum_fields d n : ChecksumPaddedBytes d n 253 = ChecksumPaddedBytes d n 255
}.

(** The bits of the scalar fields of bls12-377 and bls12-381. *)
Definition bls12_377_Bits : Z := 253.
Definition bls12_381_Bits : Z := 255.

(** A map that is not made is [None]: it can be read but not written. *)
Abbreviation Store := (list (option (gmap (list Z) (list Z)))).

Section Store.
Context {W R : Type} `{BitIo W R} `{DictHash}.

Definition MiMCChecksumPackedData (data : list Z) (inputPackingSize : Z) (opts : list packAlignOption) : outcome pack_error (list Z) :=
  b ← PackData (W := W) (R := R) data inputPackingSize opts; Ok (MIMC_BLS12_377 b).

Definition Poseidon2ChecksumPackedData (data : list Z) (inputPackingSize : Z) (opts : list packAlignOption) : outcome pack_error (list Z) :=
  b ← PackData (W := W) (R := R) data inputPackingSize opts; Ok (POSEIDON2_BLS12_377 b).

Definition Checksum (dict : list Z) (version : Z) : outcome dict_error (list Z) :=
  if version =? 2 then map_err DictPack (Poseidon2ChecksumPackedData dict 8 [])
  else if version =? 1 then map_err DictPack (MiMCChecksumPackedData dict 8 [])
  else if version =? 0 then Ok (ChecksumPaddedBytes dict (size dict) bls12_381_Bits)
  else Err UnsupportedVersion.

(** [version+1] is computed in 16 bits. *)
Definition SingletonStore (dict : list Z) (version : Z) : outcome dict_error Store :=
  let n := uwrap 16 (version + 1) in
  _ ← assert_ (version <? n);
  key ← Checksum dict version;
  Ok (replicate (Z.to_nat version) None ++ [Some {[key := dict]}]).

Definition add (dict : list Z) (version : Z) : method Store dict_error unit :=
  checksum ← call (Checksum dict version);
  s ← get;
  m ← call (at_ s version);
  let existing := m ≫= fun m => m !! checksum in
  _ ← call (require (match existing with Some e => bool_decide (dict = e) | None => true end) UnmatchingDictionary);
  m ← call (unwrap m);
  modify (<[Z.to_nat version := Some (<[checksum := dict]> m)]>).

Fixpoint add_all (dicts : list (list Z)) (version : Z) : method Store dict_error unit :=
  match dicts with
  | [] => mret tt
  | d :: dicts => _ ← add d version; add_all dicts version
  end.

(** [ReadFile] reads a file, and [range] gives the values of a map in the order of a
    loop over it. *)
Context {Path : Type} (ReadFile : Path -> option (list Z)) (range : gmap (list Z) (list Z) -> list (list Z)).

Fixpoint load_files (paths : list Path) (vsn : Z) : method Store dict_error unit :=
  match paths with
  | [] => mret tt
  | path :: paths =>
      dict ← call (match ReadFile path with Some d => Ok d | None => Err DictFile end);
      _ ← add dict vsn;
      load_files paths vsn
  end.

Definition Load (paths : list Path) : method Store dict_error unit :=
  s ← get;
  load_files paths (uwrap 16 (uwrap 16 (size s) - 1)).

Definition NewStore (paths : list Path) : outcome Empty_set Store :=
  let '(s, r) := Load paths (replicate 3 (Some ∅)) in
  _ ← must r; Ok s.

(** [len] of a map. *)
Definition map_len (m : option (gmap (list Z) (list Z))) : nat := match m with Some m => base.size m | None => 0%nat end.

Fixpoint get_loop (fuel : nat) (checksum : list Z) (version : Z) : method Store dict_error (list Z) :=
  match fuel with
  | O => call (Err GetLoops)
  | S fuel =>
      s ← get;
      _ ← call (require (version <? size s) UnrecognizedVersion);
      m ← call (at_ s version);
      match m ≫= fun m => m !! checksum with
      | Some res => mret res
      | None =>
          last ← call (at_ s (size s - 1));
          if bool_decide (map_len m = map_len last) then call (Err NoDictionary)
          else
            _ ← add_all (range (default ∅ last)) version;
            get_loop fuel checksum version
      end
  end.

(** The second call finds maps of the same size ([Get_ok]). *)
Definition Get (checksum : list Z) (version : Z) : method Store dict_error (list Z) := get_loop 2 checksum version.
End Store.

(** ** Theorems *)

(** The dictionaries of a map that is made. *)
Definition holds (m : gmap (list Z) (list Z)) (d : list Z) : Prop := exists k, m !! k = Some d.

Section StoreTheorems.
Context {W R : Type} `{BitIoLaws W R} `{DictHash}.
Abbreviation Checksum := (@Checksum W R _ _).
Abbreviation store_op := (method Store dict_error).

(** The keys of a map are the checksums for its version. *)
Definition keyed (v : Z) (m : gmap (list Z) (list Z)) : Prop := forall k d, m !! k = Some d -> Checksum d v = Ok k.

(** All maps are made, their keys are the checksums for their versions, and all
    dictionaries are in the map of the latest version, [lm]. *)
Record store_ok (s : Store) (lm : gmap (list Z) (list Z)) : Prop := {
  ok_size : 1 <= size s <= 3;
  ok_last : s !! pred (length s) = Some (Some lm);
  ok_maps : forall v om, s !! v = Some om -> exists m, om = Some m /\ keyed (Z.of_nat v) m /\ forall d, holds m d -> holds lm d;
  ok_bytes : forall d, holds lm d -> Forall is_byte d
}.

(** The dictionaries of a store have different checksums for a version. *)
Definition distinct (v : Z) (lm : gmap (list Z) (list Z)) : Prop := forall d d' k, holds lm d -> holds lm d' -> Checksum d v = Ok k -> Checksum d' v = Ok k -> d = d'.

Lemma Checksum_ok d v : Forall is_byte d -> 0 <= v <= 2 -> exists k, Checksum d v = Ok k.
Proof.
  intros Hd Hv. assert (exists b, PackData (W := W) (R := R) d 8 [] = Ok b) as (b & Eb).
  { unfold PackData. change (negb (8 mod 8 =? 0)) with false. cbn [mbind outcome_bind app]. rewrite Z.mod_mul by lia. change (8 - 0 =? 8) with true.
    destruct (enc_PackAlign_ok (W := W) (R := R) d [] hashPackingSize [WithLastByteNbUnusedBits 0]) as (out & E & _); [|done|done|constructor|by exists out].
    unfold initialize. cbn. do 2 f_equal. lia. }
  unfold Checksum, MiMCChecksumPackedData, Poseidon2ChecksumPackedData. rewrite !Eb. repeat case_match; cbn; eauto. lia.
Qed.

(** The values of a map whose keys are determined by the values. *)
Lemma values_NoDup v m : keyed v m -> NoDup (map_to_list m).*2.
Proof.
  intros Hk. apply NoDup_fmap_2_strong; [|apply NoDup_map_to_list]. intros [k1 d1] [k2 d2] Hx Hy Ed. cbn in Ed. subst d2. apply elem_of_map_to_list in Hx, Hy. apply Hk in Hx, Hy. congruence.
Qed.

Lemma elem_of_values (m : gmap (list Z) (list Z)) d : d ∈ (map_to_list m).*2 <-> holds m d.
Proof.
  rewrite list_elem_of_fmap. split.
  - intros ([k d'] & -> & Hin). exists k. by apply elem_of_map_to_list in Hin.
  - intros [k Hk]. exists (k, d). split; [done|]. by apply elem_of_map_to_list.
Qed.

(** A map with as many dictionaries as the latest one has all of them. *)
Lemma same_size_complete v w m lm : keyed v m -> keyed w lm -> (forall d, holds m d -> holds lm d) -> base.size m = base.size lm -> forall d, holds lm d -> holds m d.
Proof.
  intros Hm Hlm Hsub Hsz d Hd. apply elem_of_values. assert ((map_to_list m).*2 ≡ₚ (map_to_list lm).*2) as ->; [|by apply elem_of_values].
  apply submseteq_length_Permutation; [|rewrite !length_fmap, !length_map_to_list; lia]. apply NoDup_submseteq; [by eapply values_NoDup|]. intros x Hx. apply elem_of_values, Hsub. by apply elem_of_values.
Qed.

Lemma complete_same_size v w m lm : keyed v m -> keyed w lm -> (forall d, holds m d <-> holds lm d) -> base.size m = base.size lm.
Proof.
  intros Hm Hlm Hiff. rewrite <- !length_map_to_list, <- !(length_fmap snd). apply Permutation_length, NoDup_Permutation; [by eapply values_NoDup|by eapply values_NoDup|]. intros d. rewrite !elem_of_values. apply Hiff.
Qed.

Lemma add_ok d v s m k : s !! Z.to_nat v = Some (Some m) -> 0 <= v -> Checksum d v = Ok k -> (forall e, m !! k = Some e -> d = e) -> add (W := W) (R := R) d v s = (<[Z.to_nat v := Some (<[k := d]> m)]> s, Ok tt).
Proof.
  intros Hs Hv Hk He. unfold add. rewrite (bind_call _ _ _ _ Hk). rewrite (bind_run get _ s s s eq_refl). assert (at_ (E := dict_error) s v = Ok (Some m)) as Ha. { unfold at_. rewrite (proj2 (Z.leb_le 0 v)) by lia. by rewrite Hs. } rewrite (bind_call _ _ _ _ Ha).
  cbn [mbind option_bind]. rewrite (bind_call _ _ _ tt) by (apply require_ok; destruct (m !! k) eqn:Em; [by apply bool_decide_eq_true_2, He|done]). done.
Qed.

Lemma add_all_ok v lm ds s m :
  s !! Z.to_nat v = Some (Some m) -> 0 <= v <= 2 -> keyed v m -> distinct v lm -> (forall d, holds lm d -> Forall is_byte d) -> (forall d, holds m d -> holds lm d) -> (forall d, d ∈ ds -> holds lm d) ->
  exists m', add_all (W := W) (R := R) ds v s = (<[Z.to_nat v := Some m']> s, Ok tt) /\ keyed v m' /\ forall d, holds m' d <-> holds m d \/ d ∈ ds.
Proof.
  revert s m. induction ds as [|d ds IH]; intros s m Hs Hv Hk Hdist Hb Hm Hds.
  - exists m. split; [by rewrite list_insert_id|]. split; [done|]. intros d. split; [by left|]. intros [?|Hin]; [done|]. by apply not_elem_of_nil in Hin.
  - assert (holds lm d) as Hd by (apply Hds; left). destruct (Checksum_ok d v (Hb d Hd) Hv) as (k & Ek). cbn [add_all].
    rewrite (bind_run _ _ _ _ _ (add_ok d v s m k Hs ltac:(lia) Ek ltac:(intros e He; apply (Hdist d e k); [done|apply Hm; by exists k|done|by apply Hk]))).
    assert (forall e, holds (<[k := d]> m) e <-> holds m e \/ e = d) as Hins.
    { intros e. split.
      - intros [k' He]. apply lookup_insert_Some in He as [[_ <-]|[_ He]]; [by right|left; by exists k'].
      - intros [[k' He]| ->]; [|exists k; by rewrite lookup_insert_eq]. exists k'. apply lookup_insert_Some. destruct (decide (k = k')) as [<-|]; [left; split; [done|]|by right]. apply (Hdist d e k); [done|apply Hm; by exists k|done|by apply Hk]. }
    destruct (IH (<[Z.to_nat v := Some (<[k := d]> m)]> s) (<[k := d]> m)) as (m' & E & Hk' & Hm'); try done.
    + apply list_lookup_insert_eq. by eapply lookup_lt_Some.
    + intros k' e He. apply lookup_insert_Some in He as [[<- <-]|[_ He]]; [done|by apply Hk].
    + intros e He. apply Hins in He as [He| ->]; [by apply Hm|done].
    + intros e He. apply Hds. by right.
    + exists m'. split; [by rewrite E, list_insert_insert_eq|]. split; [done|]. intros e. rewrite Hm', Hins, elem_of_cons. tauto.
Qed.

Context (range : gmap (list Z) (list Z) -> list (list Z)).
Abbreviation getting := (get_loop (W := W) (R := R) range).

Lemma at_store (s : Store) v om : s !! Z.to_nat v = Some om -> 0 <= v -> at_ (E := dict_error) s v = Ok om /\ v < size s.
Proof. intros Hs Hv. split; [unfold at_; rewrite (proj2 (Z.leb_le 0 v)) by lia; by rewrite Hs|]. apply lookup_lt_Some in Hs. lia. Qed.

Lemma get_hit fuel s v m k d : s !! Z.to_nat v = Some (Some m) -> 0 <= v -> m !! k = Some d -> getting (S fuel) k v s = (s, Ok d).
Proof.
  intros Hs Hv Hk. destruct (at_store s v _ Hs Hv) as [Ha Hlt]. cbn [get_loop]. rewrite (bind_run get _ s s s eq_refl). rewrite (bind_call _ _ _ tt) by (apply require_ok; lia). rewrite (bind_call _ _ _ _ Ha). cbn [mbind option_bind]. by rewrite Hk.
Qed.

(** A miss: an error when the maps have the same size, and else a second round. *)
Lemma get_miss fuel s lm v m k : store_ok s lm -> s !! Z.to_nat v = Some (Some m) -> 0 <= v -> m !! k = None ->
  getting (S fuel) k v s = if bool_decide (base.size m = base.size lm) then (s, Err NoDictionary) else (add_all (W := W) (R := R) (range lm) v ≫= fun _ => getting fuel k v) s.
Proof.
  intros Hok Hs Hv Hk. destruct (at_store s v _ Hs Hv) as [Ha Hlt]. cbn [get_loop]. rewrite (bind_run get _ s s s eq_refl). rewrite (bind_call _ _ _ tt) by (apply require_ok; lia). rewrite (bind_call _ _ _ _ Ha). cbn [mbind option_bind]. rewrite Hk.
  destruct (at_store s (size s - 1) (Some lm)) as [Hl _]; [rewrite <- (ok_last _ _ Hok); f_equal; lia|lia|]. rewrite (bind_call _ _ _ _ Hl). cbn [map_len default]. by destruct (bool_decide (base.size m = base.size lm)).
Qed.

(** What [Get] answers: the dictionary with the checksum, or an error. *)
Definition answer (lm : gmap (list Z) (list Z)) (v : Z) (k : list Z) (r : outcome dict_error (list Z)) : Prop :=
  (exists d, holds lm d /\ Checksum d v = Ok k /\ r = Ok d) \/ ((forall d, holds lm d -> Checksum d v <> Ok k) /\ r = Err NoDictionary).

Lemma complete_answer fuel s lm v m k :
  store_ok s lm -> s !! Z.to_nat v = Some (Some m) -> 0 <= v -> keyed v m -> (forall d, holds m d <-> holds lm d) -> base.size m = base.size lm -> exists r, getting (S fuel) k v s = (s, r) /\ answer lm v k r.
Proof.
  intros Hok Hs Hv Hk Hiff Hsz. destruct (m !! k) as [d|] eqn:Em.
  - exists (Ok d). split; [by apply (get_hit _ _ _ m)|]. left. exists d. split; [apply Hiff; by exists k|]. split; [by apply Hk|done].
  - exists (Err NoDictionary). split; [by rewrite (get_miss fuel s lm v m k), bool_decide_eq_true_2|]. right. split; [|done]. intros d [k' Hd]%Hiff Ed. apply Hk in Hd as Hd'. congruence.
Qed.

Lemma keyed_last s lm : store_ok s lm -> keyed (size s - 1) lm.
Proof. intros Hok. destruct (ok_maps _ _ Hok _ _ (ok_last _ _ Hok)) as (m & [= <-] & Hk & _). pose proof (ok_size _ _ Hok). by replace (size s - 1) with (Z.of_nat (pred (length s))) by lia. Qed.

Lemma Get_ok s lm v k :
  (forall m, range m ≡ₚ (map_to_list m).*2) -> store_ok s lm -> 0 <= v < size s -> distinct v lm ->
  exists s' r, Get (W := W) (R := R) range k v s = (s', r) /\ store_ok s' lm /\ length s' = length s /\ answer lm v k r.
Proof.
  intros Hrange Hok Hv Hdist. pose proof (ok_size _ _ Hok) as Hsz. pose proof (keyed_last s lm Hok) as Hkl. destruct (lookup_lt_is_Some_2 s (Z.to_nat v)) as [om Hs]; [lia|]. destruct (ok_maps _ _ Hok _ _ Hs) as (m & -> & Hk & Hsub). rewrite Z2Nat.id in Hk by lia. unfold Get.
  destruct (decide (base.size m = base.size lm)) as [Heq|Hne].
  { destruct (complete_answer 1 s lm v m k) as (r & E & Ha); try done; [lia|intros d; split; [apply Hsub|by apply (same_size_complete v (size s - 1))]|]. by exists s, r. }
  destruct (m !! k) as [d|] eqn:Em.
  { exists s, (Ok d). split; [apply (get_hit _ _ _ m); [done|lia|done]|]. split; [done|]. split; [done|]. left. exists d. split; [apply Hsub; by exists k|]. split; [by apply Hk|done]. }
  rewrite (get_miss 1 s lm v m k), bool_decide_eq_false_2 by (done || lia). destruct (add_all_ok v lm (range lm) s m) as (m' & E & Hk' & Hm'); try done; [lia|apply (ok_bytes _ _ Hok)|intros d; by rewrite Hrange, elem_of_values|].
  rewrite (bind_run _ _ _ _ _ E). set (s' := <[Z.to_nat v := Some m']> s) in *. assert (forall d, holds m' d <-> holds lm d) as Hiff. { intros d. rewrite Hm', Hrange, elem_of_values. split; [intros [?|?]; [by apply Hsub|done]|by right]. }
  assert (v <> size s - 1) as Hvl. { intros Evl. apply Hne. replace (Z.to_nat v) with (pred (length s)) in Hs by lia. rewrite (ok_last _ _ Hok) in Hs. by injection Hs as <-. }
  assert (store_ok s' lm) as Hok'.
  { split.
    - unfold s'. rewrite length_insert. lia.
    - unfold s'. rewrite length_insert, list_lookup_insert_ne by lia. apply (ok_last _ _ Hok).
    - intros w om Hw. unfold s' in Hw. destruct (decide (w = Z.to_nat v)) as [->|Hwv]; [|rewrite list_lookup_insert_ne in Hw by done; by apply (ok_maps _ _ Hok)]. rewrite list_lookup_insert_eq in Hw by lia. injection Hw as <-. exists m'. split; [done|]. split; [by rewrite Z2Nat.id by lia|]. intros d. apply Hiff.
    - apply (ok_bytes _ _ Hok). }
  destruct (complete_answer 0 s' lm v m' k) as (r & Er & Ha); try done; [unfold s'; apply list_lookup_insert_eq; lia|lia|by apply (complete_same_size v (size s - 1))|].
  exists s', r. split; [done|]. split; [done|]. split; [unfold s'; apply length_insert|done].
Qed.

(** ** Building a store *)

Lemma add_store_ok s lm d s' :
  store_ok s lm -> Forall is_byte d -> add (W := W) (R := R) d (size s - 1) s = (s', Ok tt) ->
  exists lm', store_ok s' lm' /\ length s' = length s /\ forall e, holds lm' e <-> holds lm e \/ e = d.
Proof.
  intros Hok Hb E. pose proof (ok_size _ _ Hok) as Hsz. destruct (Checksum_ok d (size s - 1) Hb ltac:(lia)) as (k & Ek). exists (<[k := d]> lm). unfold add in E. rewrite (bind_call _ _ _ _ Ek), (bind_run get _ s s s eq_refl) in E.
  destruct (at_store s (size s - 1) (Some lm)) as [Ha _]; [rewrite <- (ok_last _ _ Hok); f_equal; lia|lia|]. rewrite (bind_call _ _ _ _ Ha) in E. cbn [mbind option_bind] in E. destruct (require _ _) as [[]|e|] eqn:Er; try done. apply require_ok in Er. rewrite (bind_call _ _ _ tt eq_refl) in E. injection E as <-.
  assert (forall e, holds lm e -> holds (<[k := d]> lm) e) as Hmono.
  { intros e [k' He]. destruct (decide (k = k')) as [<-|Hn]; [|exists k'; by rewrite lookup_insert_ne]. exists k. rewrite lookup_insert_eq. rewrite He in Er. apply bool_decide_eq_true in Er. by subst. }
  assert (Z.to_nat (size s - 1) = pred (length s)) as Ev by lia. rewrite Ev. split; [|split; [apply length_insert|]].
  2: { intros e. split; [|intros [He| ->]; [by apply Hmono|exists k; by rewrite lookup_insert_eq]]. intros [k' He]. apply lookup_insert_Some in He as [[_ <-]|[_ He]]; [by right|left; by exists k']. }
  split.
  - rewrite length_insert. lia.
  - rewrite length_insert. apply list_lookup_insert_eq. lia.
  - intros w om Hw. destruct (decide (w = pred (length s))) as [->|Hwv].
    + rewrite list_lookup_insert_eq in Hw by lia. injection Hw as <-. eexists. split; [done|]. split; [|done]. intros k' e He. replace (Z.of_nat (pred (length s))) with (size s - 1) by lia. apply lookup_insert_Some in He as [[<- <-]|[_ He]]; [done|by apply (keyed_last s lm Hok)].
    + rewrite list_lookup_insert_ne in Hw by done. destruct (ok_maps _ _ Hok _ _ Hw) as (m & -> & Hk & Hsub). exists m. split; [done|]. split; [done|]. intros e He. by apply Hmono, Hsub.
  - intros e [k' He]. apply lookup_insert_Some in He as [[_ <-]|[_ He]]; [done|]. apply (ok_bytes _ _ Hok). by exists k'.
Qed.

Lemma SingletonStore_get fuel d v s k : 0 <= v -> SingletonStore (W := W) (R := R) d v = Ok s -> Checksum d v = Ok k -> getting (S fuel) k v s = (s, Ok d).
Proof.
  intros Hv Hs Hk. unfold SingletonStore in Hs. destruct (assert_ _) as [[]|e|] in Hs; try done. cbn [mbind outcome_bind] in Hs. rewrite Hk in Hs. injection Hs as <-.
  apply (get_hit _ _ _ {[k := d]}); [|done|by rewrite lookup_singleton_eq]. rewrite lookup_app_r by (rewrite length_replicate; lia). by rewrite length_replicate, Nat.sub_diag.
Qed.

Context {Path : Type} (ReadFile : Path -> option (list Z)).

(** The dictionaries of some files. *)
Definition in_files (paths : list Path) (d : list Z) : Prop := exists path, path ∈ paths /\ ReadFile path = Some d.

Lemma load_files_ok paths s lm s' :
  (forall path d, ReadFile path = Some d -> Forall is_byte d) -> store_ok s lm -> load_files (W := W) (R := R) ReadFile paths (size s - 1) s = (s', Ok tt) ->
  exists lm', store_ok s' lm' /\ length s' = length s /\ forall d, holds lm' d <-> holds lm d \/ in_files paths d.
Proof.
  intros Hfiles. revert s lm. induction paths as [|path paths IH]; intros s lm Hok E.
  - injection E as <-. exists lm. split; [done|]. split; [done|]. intros d. split; [by left|]. intros [?|(p & Hp & _)]; [done|]. by apply not_elem_of_nil in Hp.
  - cbn [load_files] in E. destruct (ReadFile path) as [d|] eqn:Ep; [|done]. rewrite (bind_call _ _ _ d eq_refl) in E. destruct (add d (size s - 1) s) as [s1 r1] eqn:E1. destruct r1 as [[]|e|]; [|by rewrite (bind_err _ _ _ _ _ E1) in E|unfold mbind, method_bind in E; by rewrite E1 in E]. rewrite (bind_run _ _ _ _ _ E1) in E.
    destruct (add_store_ok s lm d s1 Hok (Hfiles _ _ Ep) E1) as (lm1 & Hok1 & Hl1 & Hh1). rewrite <- Hl1 in E. destruct (IH s1 lm1 Hok1 E) as (lm' & Hok' & Hl' & Hh'). exists lm'. split; [done|]. split; [lia|].
    intros e. rewrite Hh', Hh1. split.
    + intros [[?| ->]|(p & Hp & Ee)]; [by left|right; exists path; split; [left|done]|right; exists p; split; [by right|done]].
    + intros [?|(p & Hp & Ee)]; [by left; left|]. apply elem_of_cons in Hp as [->|Hp]; [left; right; congruence|right; by exists p].
Qed.

Lemma empty_store_ok : store_ok (replicate 3 (Some ∅)) ∅.
Proof.
  split; [cbn; lia|done| |intros d [k Hk]; by rewrite lookup_empty in Hk]. intros v om Hv. apply lookup_replicate in Hv as [-> _]. exists ∅. split; [done|]. split; [intros k d Hk; by rewrite lookup_empty in Hk|done].
Qed.

Lemma NewStore_ok paths s :
  (forall path d, ReadFile path = Some d -> Forall is_byte d) -> NewStore (W := W) (R := R) ReadFile paths = Ok s -> exists lm, store_ok s lm /\ length s = 3%nat /\ forall d, holds lm d <-> in_files paths d.
Proof.
  intros Hfiles E. unfold NewStore in E. destruct (Load _ _ _) as [s1 r1] eqn:E1. destruct r1 as [[]|e|]; [|done|done]. injection E as <-. unfold Load in E1. rewrite (bind_run get _ _ _ _ eq_refl) in E1.
  change (uwrap 16 (uwrap 16 _ - 1)) with (size (replicate 3 (Some (∅ : gmap (list Z) (list Z)))) - 1) in E1. destruct (load_files_ok paths _ ∅ s1 Hfiles empty_store_ok E1) as (lm & Hok & Hl & Hh). exists lm. split; [done|]. split; [done|].
  intros d. rewrite Hh. split; [|by right]. intros [[k Hk]|?]; [by rewrite lookup_empty in Hk|done].
Qed.

(** The answers to a sequence of questions. *)
Fixpoint gets (qs : list (list Z * Z)) (s : Store) : list (outcome dict_error (list Z)) :=
  match qs with
  | [] => []
  | (k, v) :: qs => let '(s, r) := Get (W := W) (R := R) range k v s in r :: gets qs s
  end.

(** C14. A store that is made from files answers every sequence of questions from the
    files: for a checksum and a version it returns the dictionary with this checksum for
    this version, or an error when there is none, in spite of what the questions before
    have entered into the maps; it always ends and never panics.  The files are the
    dictionaries, of which no two have the same checksum for a version. *)
Theorem dictionaries_found paths s qs :
  (forall m, range m ≡ₚ (map_to_list m).*2) -> (forall path d, ReadFile path = Some d -> Forall is_byte d) -> NewStore (W := W) (R := R) ReadFile paths = Ok s ->
  (forall v d d' k, in_files paths d -> in_files paths d' -> Checksum d v = Ok k -> Checksum d' v = Ok k -> d = d') -> Forall (fun q => 0 <= q.2 < 3) qs ->
  Forall2 (fun q r => (exists d, in_files paths d /\ Checksum d q.2 = Ok q.1 /\ r = Ok d) \/ ((forall d, in_files paths d -> Checksum d q.2 <> Ok q.1) /\ r = Err NoDictionary)) qs (gets qs s).
Proof.
  intros Hrange Hfiles Hnew Hdist Hqs. destruct (NewStore_ok paths s Hfiles Hnew) as (lm & Hok & Hl & Hh). assert (forall v, distinct v lm) as Hd. { intros v d d' k Hd Hd'. by apply Hdist; apply Hh. }
  clear Hnew Hdist. revert s Hok Hl. induction Hqs as [|[k v] qs Hv _ IH]; intros s Hok Hl; [constructor|]. cbn [snd fst] in *. destruct (Get_ok s lm v k Hrange Hok ltac:(lia) (Hd v)) as (s' & r & E & Hok' & Hl' & Ha). cbn [gets]. rewrite E. constructor; [|apply IH; [done|lia]].
  destruct Ha as [(d & Hin & Ek & ->)|[Hno ->]]; [left; exists d; split; [by apply Hh|done]|right; split; [|done]]. intros d Hin. by apply Hno, Hh.
Qed.
End StoreTheorems.

(** ** A witness *)

(** The first 32 bytes, filled up with zeros, for a hash. *)
Definition first_bytes (d : list Z) : list Z := take 32 ((fun x => x mod 256) <$> d ++ replicate 32 0).

Lemma first_bytes_ok d : length (first_bytes d) = 32%nat /\ Forall is_byte (first_bytes d).
Proof.
  unfold first_bytes. split; [rewrite length_take, length_fmap, length_app, length_replicate; lia|]. apply Forall_take, Forall_fmap, Forall_true. intros x. unfold is_u. cbn. change (2 ^ 8) with 256. lia.
Qed.

#[export] Instance first_hash : DictHash := {| ChecksumPaddedBytes d _ _ := first_bytes d; MIMC_BLS12_377 := first_bytes; POSEIDON2_BLS12_377 := first_bytes |}.

#[export] Instance first_hash_laws : DictHashLaws.
Proof. split; intros; try apply first_bytes_ok. done. Qed.

Definition values_in_order (m : gmap (list Z) (list Z)) : list (list Z) := (map_to_list m).*2.

Abbreviation writer := (list bool).
Abbreviation reader := (list bool * bool)%type.

Definition two_files (path : bool) : option (list Z) := Some (if path then [1; 2] else [3]).

Lemma dictionaries_found_witness :
  exists s, NewStore (W := writer) (R := reader) two_files [true; false] = Ok s /\
    Forall2 (fun (q : list Z * Z) r => (exists d, in_files two_files [true; false] d /\ Checksum (W := writer) (R := reader) d q.2 = Ok q.1 /\ r = Ok d) \/
      ((forall d, in_files two_files [true; false] d -> Checksum (W := writer) (R := reader) d q.2 <> Ok q.1) /\ r = Err NoDictionary))
      [(first_bytes [3], 0); (first_bytes [7], 1); (first_bytes [1; 2], 0)] (gets (W := writer) (R := reader) values_in_order [(first_bytes [3], 0); (first_bytes [7], 1); (first_bytes [1; 2], 0)] s).
Proof.
  assert (match NewStore (W := writer) (R := reader) two_files [true; false] with Ok _ => true | _ => false end = true) as Hnew by (vm_compute; reflexivity).
  destruct (NewStore two_files [true; false]) as [s|e|] eqn:Es; [|done|done]. exists s. split; [done|]. apply (dictionaries_found values_in_order two_files [true; false]); [done| |done| |repeat constructor; cbn; lia].
  - clear. intros path d [= <-]. destruct path; by apply bytes_check.
  - clear. intros v d d' k (p & _ & [= <-]) (p' & _ & [= <-]) Ed Ed'. destruct p, p'; try done; exfalso; unfold Checksum in Ed, Ed'; (destruct (v =? 2); [|destruct (v =? 1); [|destruct (v =? 0); [|done]]]); rewrite <- Ed' in Ed; by vm_compute in Ed.
Defined.

(** A store for one version has no maps for the versions before: a dictionary that is
    looked for in one of them is written into a map that is not made. *)
Example singleton_earlier_version :
  match SingletonStore (W := writer) (R := reader) [3] 1 with
  | Ok s => match (Get (W := writer) (R := reader) values_in_order (first_bytes [3]) 0 s).2 with Panic => true | _ => false end
  | _ => false
  end = true.
Proof. vm_compute. reflexivity. Qed.
