(* ===== verification/BlobMakerV0.v ===== *)
(** The blob maker of version 0: [prover/lib/compressor/blob/v0/blob_maker.go].

    A blob maker collects blocks in batches.  Each block is encoded and given to the
    compressor; when the header and the compressed text no longer fit into the blob, the
    block is taken back.  The blob is the packed header and text.  The buffers that are
    only kept to save allocations are not part of the state. *)
From S2P Require Import Prelude BitIo GoState PackAlign TxEncoding BlockData BlockV0 Dictionary Compressors HeaderV0.

Inductive blob_error (E : Type) :=
| BadRlp
| CompressorError (e : E)
| HeaderError (e : header_error)
| PackError (e : pack_error)
| DictError (e : dict_error)
| BlobFile.
Arguments BadRlp {E}.
Arguments CompressorError {E} _.
Arguments HeaderError {E} _.
Arguments PackError {E} _.
Arguments DictError {E} _.
Arguments BlobFile {E}.

Definition maxOutputSize : Z := 2 ^ 20.
Definition MaxUncompressedBytes : Z := 780000.
Definition MaxUsableBytes : Z := 32 * 4096.

(** [rlp.Decode] into a [types.Block] and into a [types.Transaction]. *)
Class BlockRlp := {
  rlp_Block : list Z -> option Block;
  rlp_Transaction : list Z -> option Transaction
}.

(** [currentBlob] is the part of the array that is used. *)
Record BlobMaker (C : Type) := mkBlobMaker {
  limit : Z;
  compressor : C;
  bm_dict : list Z;
  dictStore : Store;
  header : Header;
  currentBlob : list Z
}.
Arguments mkBlobMaker {C}.
Arguments limit {C} _.
Arguments compressor {C} _.
Arguments bm_dict {C} _.
Arguments dictStore {C} _.
Arguments header {C} _.
Arguments currentBlob {C} _.

Section Maker.
Context {W R : Type} `{BitIo W R} `{DictHash} `{Rlp} `{BlockRlp} {C E : Type} `{CompressorOps C E}.
(** The order of loops over maps, and the bytes of the buffer of the decompressor behind
    its length, which a slice may reach. *)
Context (range : gmap (list Z) (list Z) -> list (list Z)) (spare : list Z -> list Z).
Abbreviation maker := (BlobMaker C).
Abbreviation making := (method maker (blob_error E)).

Definition set_compressor (bm : maker) (c : C) : maker := mkBlobMaker (limit bm) c (bm_dict bm) (dictStore bm) (header bm) (currentBlob bm).
Definition set_header (bm : maker) (h : Header) : maker := mkBlobMaker (limit bm) (compressor bm) (bm_dict bm) (dictStore bm) h (currentBlob bm).
Definition set_store (bm : maker) (s : Store) : maker := mkBlobMaker (limit bm) (compressor bm) (bm_dict bm) s (header bm) (currentBlob bm).
Definition set_blob (bm : maker) (b : list Z) : maker := mkBlobMaker (limit bm) (compressor bm) (bm_dict bm) (dictStore bm) (header bm) b.

(** A method of the compressor, and one of the header. *)
Definition on_compressor {A} (m : method C E A) : making A := field compressor set_compressor CompressorError m.
Definition on_header (f : Header -> outcome (blob_error E) Header) : making unit := bm ← get; h ← call (f (header bm)); modify (fun bm => set_header bm h).

Definition StartNewBatch (bm : maker) : maker :=
  match last (table (header bm)) with
  | Some [] => bm
  | _ => set_header bm (addBatch (header bm))
  end.

Definition Reset (bm : maker) : maker :=
  let bm := set_header bm (resetTable (header bm)) in
  let bm := set_blob bm [] in
  let bm := set_compressor bm (c_Reset (compressor bm)) in
  StartNewBatch bm.

Definition Len (bm : maker) : Z := size (currentBlob bm).
Definition Written (bm : maker) : Z := c_Written (compressor bm).

(** [copy] into an array of 32 bytes. *)
Definition copy_32 (b : list Z) : list Z := take 32 b ++ replicate (32 - length b) 0.

(** [file] is the content of the file with the dictionary, if it can be read. *)
Definition NewBlobMaker (dataLimit : Z) (file : option (list Z)) : outcome (blob_error E) maker :=
  dict ← (match file with Some d => Ok d | None => Err BlobFile end);
  let dict := c_AugmentDict dict in
  store ← map_err DictError (SingletonStore (W := W) (R := R) dict 0);
  let dictChecksum := ChecksumPaddedBytes dict (size dict) bls12_377_Bits in
  c ← map_err CompressorError (c_NewCompressor dict);
  Ok (StartNewBatch (mkBlobMaker dataLimit c dict store (mkHeader (copy_32 dictChecksum) [] 0) [])).

(** Cuts the text into blocks. *)
Fixpoint cut_blocks (raw : list Z) (offset : Z) (lens : list Z) : outcome (blob_error E) (list (list Z)) :=
  match lens with
  | [] => Ok []
  | n :: lens => b ← slice (raw ++ spare raw) offset (offset + n); bs ← cut_blocks raw (offset + n) lens; Ok (b :: bs)
  end.

(** The header, the text in packed form, and the blocks. *)
Definition DecompressBlob (b : list Z) : method Store (blob_error E) (Header * list Z * list (list Z)) :=
  b ← call (map_err PackError (UnpackAlign (W := W) b));
  '(blobHeader, read) ← call (map_err HeaderError (ReadFrom b));
  dict ← field id (fun _ s => s) DictError (Get (W := W) (R := R) range (DictChecksum blobHeader) 0);
  b ← call (slice b read (size b));
  rawBlocks ← call (map_err CompressorError (c_Decompress b dict));
  blocks ← call (cut_blocks rawBlocks 0 (concat (table blobHeader)));
  buf ← call (map_err PackError (PackAlign (R := R) rawBlocks []));
  mret (blobHeader, buf, blocks).

(** The blob, after it has been decompressed and compared; a difference is a panic. *)
Definition Bytes : making (list Z) :=
  bm ← get;
  _ ← (if 0 <? size (currentBlob bm) then
      '(s, r) ← (fun bm => (bm, Ok (DecompressBlob (currentBlob bm) (dictStore bm))));
      _ ← modify (fun bm => set_store bm s);
      '(h, rawBlocks, _) ← call (must r);
      _ ← call (must (CheckEquality h (Some (header bm))));
      rawBlocksUnpacked ← call (must (UnpackAlign (W := W) rawBlocks));
      call (assert_ (bool_decide (rawBlocksUnpacked = c_WrittenBytes (compressor bm))))
    else mret tt);
  mret (currentBlob bm).

(** Takes the last block back. *)
Definition take_back : making unit := _ ← on_compressor c_Revert; on_header removeLastBlock.

(** Do the header and the compressed text fit, or would they without compression? *)
Definition fits (buf : list Z) : making bool :=
  bm ← get;
  if PackAlignSize buf (c_Bytes (compressor bm)) <=? limit bm then mret true
  else
    bypassed ← on_compressor c_ConsiderBypassing;
    bm ← get;
    mret (bypassed && (PackAlignSize buf (c_Bytes (compressor bm)) <=? limit bm)).

(** A block that is written is encoded, [EncodeBlockForCompression]. *)
Definition block_bytes (rlpBlock : list Z) (encodingOptions : list Option) : outcome (blob_error E) (list Z) :=
  block ← (match rlp_Block rlpBlock with Some b => Ok b | None => Err BadRlp end);
  EncodeBlockForCompression block encodingOptions.

Definition Write (rlpBlock : list Z) (forceReset : bool) (encodingOptions : list Option) : making bool :=
  block ← call (block_bytes rlpBlock encodingOptions);
  _ ← on_compressor (c_Write block);
  _ ← on_header (addBlock (size block));
  bm ← get;
  buf ← (match WriteTo (header bm) with
    | Ok buf => mret buf
    | Err e => _ ← on_header removeLastBlock; call (Err (HeaderError e))
    | Panic => call Panic
    end);
  if MaxUncompressedBytes <? c_Written (compressor bm) + size buf then _ ← take_back; mret false
  else
    fitsInBlob ← fits buf;
    if negb fitsInBlob then _ ← take_back; mret false
    else if forceReset then _ ← take_back; mret true
    else
      bm ← get;
      match PackAlign (R := R) buf (c_Bytes (compressor bm)) with
      | Ok out => _ ← call (assert_ (size out <=? maxOutputSize)); _ ← modify (fun bm => set_blob bm out); mret true
      | Err e => _ ← try_ (on_compressor c_Revert); _ ← on_header removeLastBlock; call (Err (PackError e))
      | Panic => call Panic
      end.

(** ** Estimates *)

(** The size of some bytes when they are compressed alone, or left as they are; and
    whether the compression expands them. *)
Definition alone (bm : maker) (input : list Z) : outcome (blob_error E) (bool * Z) :=
  n ← map_err CompressorError (c_CompressedSize256k (compressor bm) input);
  let expandingBlock := size input <? n in
  let n := if expandingBlock then size input + c_HeaderSize else n in
  Ok (expandingBlock, packAlignSizeToRefactor n 0).

Definition WorstCompressedBlockSize (bm : maker) (rlpBlock : list Z) : outcome (blob_error E) (bool * Z) :=
  input ← block_bytes rlpBlock [];
  alone bm input.

Definition WorstCompressedTxSize (bm : maker) (rlpTx : list Z) : outcome (blob_error E) Z :=
  tx ← (match rlp_Transaction rlpTx with Some t => Ok t | None => Err BadRlp end);
  input ← EncodeTxForCompression tx [];
  map_err CompressorError (c_CompressedSize256k (compressor bm) input).

Definition RawCompressedSize (bm : maker) (data : list Z) : outcome (blob_error E) Z := '(_, n) ← alone bm data; Ok n.

Definition Equals (bm other : maker) : bool :=
  (limit bm =? limit other) && bool_decide (currentBlob bm = currentBlob other) && bool_decide (table (header bm) = table (header other)).
End Maker.
