(* ===== verification/BlobMakerTheorems.v ===== *)
(** The invariant of the blob maker of version 0: what its state says about the blocks it
    has accepted, and that every operation keeps it. *)
From S2P Require Import Prelude BitIo GoState PackAlign PackTheorems TxEncoding BlockData BlockV0 Dictionary Lzss Compressors HeaderV0 BlobMakerV0.

(** ** Batches *)

(** A block at the end of the last batch. *)
Definition append_last {A} (x : A) (B : list (list A)) : list (list A) := take (pred (length B)) B ++ [default [] (last B) ++ [x]].

Lemma append_last_snoc {A} (x : A) B l : append_last x (B ++ [l]) = B ++ [l ++ [x]].
Proof. unfold append_last. rewrite length_app, last_snoc. cbn [length]. rewrite Nat.add_1_r. cbn [pred]. by rewrite take_app_length. Qed.

Lemma snoc_cases {A} (B : list A) : B <> [] -> exists B0 l, B = B0 ++ [l].
Proof. intros HB. destruct (exists_last HB) as (B0 & l & ->). by exists B0, l. Qed.

Lemma concat_snoc {A} (B : list (list A)) l : concat (B ++ [l]) = concat B ++ l.
Proof. rewrite concat_app. cbn. by rewrite app_nil_r. Qed.

Lemma on_last_snoc {E} (f : list Z -> outcome E (list Z)) c t l l' k : f l = Ok l' -> on_last_batch f (mkHeader c (t ++ [l]) k) = Ok (mkHeader c (t ++ [l']) k).
Proof.
  intros Hf. unfold on_last_batch, at_. cbn [table]. rewrite length_app. cbn [length]. rewrite (proj2 (Z.leb_le _ _)) by lia. rewrite lookup_app_r by lia. replace (Z.to_nat (Z.of_nat (length t + 1) - 1) - length t)%nat with 0%nat by lia. cbn [lookup list_lookup unwrap mbind outcome_bind]. rewrite Hf. cbn [mbind outcome_bind]. unfold set_table. cbn [DictChecksum byteSizeUnpacked].
  do 2 f_equal. rewrite Nat.add_1_r. cbn [pred]. rewrite <- (Nat.add_0_r (length t)), insert_app_r. done.
Qed.

Lemma addBlock_snoc {E} n c t l k : addBlock (E := E) n (mkHeader c (t ++ [l]) k) = Ok (mkHeader c (t ++ [l ++ [n]]) k).
Proof. by apply on_last_snoc. Qed.

Lemma removeLastBlock_snoc {E} n c t l k : removeLastBlock (E := E) (mkHeader c (t ++ [l ++ [n]]) k) = Ok (mkHeader c (t ++ [l]) k).
Proof. apply on_last_snoc. rewrite slice_in by (rewrite ?length_app; cbn [length]; lia). rewrite drop_0, length_app. cbn [length]. f_equal. replace (Z.to_nat _) with (length l) by lia. apply take_app_length. Qed.

Lemma size_header c t : length c = 32%nat -> size (header_of_table c t) = 34 + 2 * size t + 3 * size (concat t).
Proof.
  intros Hc. unfold header_of_table. rewrite !length_app, length_le_bytes, Hc. assert (size (concat (batch_bytes <$> t)) = 2 * size t + 3 * size (concat t)) as Ht; [|lia]. clear. induction t as [|b t IH]; [done|]. cbn [fmap list_fmap concat]. fold (fmap (M := list) batch_bytes t). rewrite !length_app.
  unfold batch_bytes at 1. rewrite length_app, length_le_bytes. assert (length (concat (le_bytes 3 <$> b)) = (3 * length b)%nat) as ->; [|cbn [length]; lia]. clear. induction b as [|x b IH]; [done|]. cbn [fmap list_fmap concat length]. fold (fmap (M := list) (le_bytes 3) b). rewrite length_app, length_le_bytes, IH. lia.
Qed.

Lemma header_bytes_ok c t : Forall is_byte c -> Forall is_byte (header_of_table c t).
Proof.
  intros Hc. unfold header_of_table. apply Forall_app. split; [done|]. apply Forall_app. split; [apply le_bytes_bytes|]. apply Forall_concat, Forall_fmap, Forall_true. intros b. unfold batch_bytes. cbn. apply Forall_app. split; [apply le_bytes_bytes|]. apply Forall_concat, Forall_fmap, Forall_true. intros x. apply le_bytes_bytes.
Qed.

(** The lengths of the blocks. *)
Abbreviation lengths B := (fmap (M := list) (fun b : list (list Z) => fmap (M := list) (fun x : list Z => size x) b) B).

Lemma concat_lengths B : concat (lengths B) = (fun x => size x) <$> concat B.
Proof. induction B as [|b B IH]; [done|]. cbn [fmap list_fmap concat]. rewrite IH. by rewrite fmap_app. Qed.

Lemma sum_lengths (bs : list (list Z)) : Forall (fun n => 0 <= n <= size (concat bs)) ((fun x => size x) <$> bs).
Proof. induction bs as [|b bs IH]; [constructor|]. cbn [fmap list_fmap concat]. rewrite length_app. constructor; [lia|]. eapply Forall_impl; [exact IH|]. cbn. lia. Qed.

(** A table of few batches and blocks, with a text that is not too long, fits the header. *)
Lemma lengths_table_ok B : size B < 65536 -> size (concat B) < 65536 -> size (concat (concat B)) <= maxUint24 -> table_ok (lengths B).
Proof.
  intros HB Hb Ht. split; [by rewrite length_fmap|]. apply Forall_fmap, Forall_forall. intros b Hin. cbn. rewrite length_fmap. assert (size b <= size (concat B) /\ size (concat b) <= size (concat (concat B))) as [Hlb Hlc].
  { apply list_elem_of_split in Hin as (B1 & B2 & ->). rewrite !concat_app. cbn [concat]. rewrite !concat_app, !length_app. lia. }
  split; [lia|]. eapply Forall_impl; [apply sum_lengths|]. cbn. lia.
Qed.

Section MakerTheorems.
Context {W R : Type} `{BitIoLaws W R} `{DictHashLaws} `{Rlp} `{BlockRlp} {C E : Type} `{CompressorOps C E} (dict : list Z) `{!CompressorLaws C E dict}.
Abbreviation maker := (BlobMaker C).
Abbreviation content := (list (list (list Z))).

Definition checksum : list Z := ChecksumPaddedBytes dict (size dict) bls12_381_Bits.
Definition header_of_content (B : content) : list Z := header_of_table checksum (lengths B).

(** Batches without the empty ones at the end. *)
Definition same_blocks (B0 B : content) : Prop := exists n, B = B0 ++ replicate n [].

(** The blob is empty, or holds the header and the text of the accepted blocks. *)
Definition blob_ok (bm : maker) (B : content) : Prop :=
  (currentBlob bm = [] /\ concat B = []) \/
  exists B0 body, same_blocks B0 B /\ table_ok (lengths B0) /\ PackAlign (R := R) (header_of_content B0) body = Ok (currentBlob bm) /\ Forall is_byte body /\ c_Decompress body dict = Ok (concat (concat B)).

Record bm_ok (bm : maker) (B : content) : Prop := {
  ok_limit : limit bm <= MaxUsableBytes;
  ok_compressor : c_ok (dict := dict) (compressor bm);
  ok_text : c_WrittenBytes (compressor bm) = concat (concat B);
  ok_text_size : size (concat (concat B)) <= MaxUncompressedBytes;
  ok_checksum : DictChecksum (header bm) = checksum;
  ok_table : table (header bm) = lengths B;
  ok_batches : B <> [];
  ok_header_size : size (header_of_content B) <= MaxUsableBytes + (if bool_decide (last B = Some []) then 2 else 0);
  ok_store : dictStore bm = [Some {[checksum := dict]}];
  ok_blob_size : size (currentBlob bm) <= Z.max 0 (limit bm);
  ok_blob : blob_ok bm B
}.

Lemma length_checksum : length checksum = 32%nat.
Proof. apply checksum_bytes. Qed.

Lemma size_header_of_content B : size (header_of_content B) = 34 + 2 * size B + 3 * size (concat B).
Proof. unfold header_of_content. rewrite size_header by apply length_checksum. by rewrite concat_lengths, !length_fmap. Qed.

Lemma PackAlignSize_ge a b : size a + size b < PackAlignSize a b.
Proof. unfold PackAlignSize, extra_bits, packingSizeU256. golia. Qed.

Lemma content_bytes bm B : bm_ok bm B -> Forall is_byte (concat (concat B)).
Proof. intros Hok. rewrite <- (ok_text _ _ Hok). apply (c_bytes (dict := dict)), (ok_compressor _ _ Hok). Qed.

(** ** The operations *)

Lemma set_compressor_ok bm B c : bm_ok bm B -> c_ok (dict := dict) c -> c_WrittenBytes c = concat (concat B) -> bm_ok (set_compressor bm c) B.
Proof. intros [] Hc Ht. by constructor. Qed.

Lemma lengths_snoc (B : content) l : lengths (B ++ [l]) = lengths B ++ [(fun x : list Z => size x) <$> l].
Proof. by rewrite fmap_app. Qed.

Lemma StartNewBatch_ok bm B : bm_ok bm B -> bm_ok (StartNewBatch bm) (if bool_decide (last B = Some []) then B else B ++ [[]]).
Proof.
  intros Hok. unfold StartNewBatch. rewrite (ok_table _ _ Hok), fmap_last. destruct (snoc_cases B (ok_batches _ _ Hok)) as (B0 & l & EB). assert (last B = Some l) as El by (rewrite EB; apply last_snoc). rewrite El. cbn [fmap option_fmap option_map].
  destruct l as [|b l]; [by rewrite bool_decide_eq_true_2|]. rewrite bool_decide_eq_false_2 by done. cbn [fmap list_fmap]. pose proof (ok_header_size _ _ Hok) as Hs. rewrite El, bool_decide_eq_false_2 in Hs by done. rewrite size_header_of_content in Hs.
  destruct Hok as [K1 K2 K3 K4 K5 K6 K7 K8 K9 K10 K11]. split; try done.
  - by rewrite concat_snoc, app_nil_r.
  - by rewrite concat_snoc, app_nil_r.
  - cbn [set_header header addBatch set_table table]. by rewrite K6, lengths_snoc.
  - by destruct B.
  - rewrite last_snoc, bool_decide_eq_true_2, size_header_of_content, concat_snoc, app_nil_r, length_app by done. cbn [length]. lia.
  - destruct K11 as [[Hb Hc]|(B1 & body & [n Hn] & Hrest)]; [left; by rewrite concat_snoc, app_nil_r|right]. exists B1, body. split; [exists (S n); by rewrite Hn, <- app_assoc, replicate_S_end|]. by rewrite concat_snoc, app_nil_r.
Qed.

Lemma bind_ret {S E' A A'} (a : A) (f : A -> method S E' A') s : (mret a ≫= f) s = f a s.
Proof. done. Qed.

Lemma on_compressor_run {A} (m : method C E A) bm c a : m (compressor bm) = (c, Ok a) -> on_compressor m bm = (set_compressor bm c, Ok a).
Proof. intros Hm. unfold on_compressor, field. by rewrite Hm. Qed.

Lemma on_header_run f (bm : maker) h : f (header bm) = Ok h -> on_header (E := E) f bm = (set_header bm h, Ok tt).
Proof. intros Hf. unfold on_header. rewrite (bind_run get _ _ _ _ eq_refl). by rewrite (bind_call _ _ _ h Hf). Qed.

(** Taking a block back. *)
Lemma take_back_ok bm c p t l n k :
  compressor bm = c -> c_ok (dict := dict) c -> c_undo (dict := dict) c p -> header bm = mkHeader checksum (t ++ [l ++ [n]]) k ->
  exists c', take_back bm = (set_header (set_compressor bm c') (mkHeader checksum (t ++ [l]) k), Ok tt) /\ c_ok (dict := dict) c' /\ c_WrittenBytes c' = p.
Proof.
  intros <- Hc Hu Hh. destruct (c_revert (dict := dict) _ p Hc Hu) as (c' & Er & Hc' & Ht'). exists c'. split; [|done]. unfold take_back. rewrite (bind_run _ _ _ _ _ (on_compressor_run _ _ _ _ Er)). apply on_header_run. cbn [set_compressor header]. rewrite Hh. apply removeLastBlock_snoc.
Qed.

Lemma fits_ok bm buf :
  c_ok (dict := dict) (compressor bm) ->
  exists c b, fits buf bm = (set_compressor bm c, Ok b) /\ c_ok (dict := dict) c /\ c_WrittenBytes c = c_WrittenBytes (compressor bm) /\ (forall p, c_undo (dict := dict) (compressor bm) p -> c_undo (dict := dict) c p) /\ (b = true -> PackAlignSize buf (c_Bytes c) <= limit bm).
Proof.
  intros Hc. unfold fits. rewrite (bind_run get _ bm bm bm eq_refl). destruct (Z.leb_spec (PackAlignSize buf (c_Bytes (compressor bm))) (limit bm)) as [Hle|Hgt].
  - exists (compressor bm), true. split; [by destruct bm|]. done.
  - destruct (c_bypass (dict := dict) _ Hc) as (c & b & Eb & Hc' & Ht & Hu). exists c, (b && (PackAlignSize buf (c_Bytes c) <=? limit bm)). split; [|split; [done|split; [done|split; [done|lia]]]].
    rewrite (bind_run _ _ _ _ _ (on_compressor_run _ _ _ _ Eb)). by rewrite (bind_run get _ _ _ _ eq_refl).
Qed.

(** The state before the last block is accepted or taken back: the block [b] is in the
    compressor and in the header, and the blob is the one of the blocks before. *)
Record pending (bm bm0 : maker) (B : content) (b : list Z) : Prop := {
  pd_limit : limit bm = limit bm0;
  pd_dict : bm_dict bm = bm_dict bm0;
  pd_store : dictStore bm = dictStore bm0;
  pd_blob : currentBlob bm = currentBlob bm0;
  pd_compressor : c_ok (dict := dict) (compressor bm);
  pd_text : c_WrittenBytes (compressor bm) = concat (concat (append_last b B));
  pd_undo : c_undo (dict := dict) (compressor bm) (concat (concat B));
  pd_header : header bm = mkHeader checksum (lengths (append_last b B)) (byteSizeUnpacked (header bm0))
}.

Lemma pending_back bm bm0 B b : bm_ok bm0 B -> pending bm bm0 B b -> exists bm', take_back bm = (bm', Ok tt) /\ bm_ok bm' B /\ limit bm' = limit bm0.
Proof.
  intros Hok [P1 P2 P3 P4 P5 P6 P7 P8]. destruct (snoc_cases B (ok_batches _ _ Hok)) as (B0 & l & EB). rewrite EB, append_last_snoc, lengths_snoc, fmap_app in P8. cbn [fmap list_fmap] in P8.
  destruct (take_back_ok bm (compressor bm) (concat (concat B)) (lengths B0) ((fun x : list Z => size x) <$> l) (size b) _ eq_refl P5 P7 P8) as (c' & Eb & Hc' & Ht'). eexists. split; [exact Eb|]. split; [|exact P1].
  pose proof (ok_checksum _ _ Hok) as K5. pose proof (ok_table _ _ Hok) as K6. destruct Hok as [K1 K2 K3 K4 _ _ K7 K8 K9 K10 K11]. split; cbn [set_header set_compressor limit compressor header dictStore currentBlob DictChecksum table]; try done.
  - by rewrite P1.
  - by rewrite EB, lengths_snoc.
  - by rewrite P3.
  - by rewrite P1, P4.
  - unfold blob_ok. cbn [set_header set_compressor currentBlob]. by rewrite P4.
Qed.

Lemma append_last_concat (b : list Z) B : B <> [] -> concat (append_last b B) = concat B ++ [b] /\ length (append_last b B) = length B /\ last (append_last b B) <> Some [] /\ append_last b B <> [].
Proof.
  intros HB. destruct (snoc_cases B HB) as (B0 & l & ->). rewrite append_last_snoc, !concat_snoc, !length_app, last_snoc, app_assoc. split; [done|]. split; [done|]. split; [|by destruct B0]. intros [=]. by destruct l.
Qed.

Lemma pending_table bm0 B b : bm_ok bm0 B -> size b <= MaxInputSize - MaxUncompressedBytes -> table_ok (lengths (append_last b B)).
Proof.
  intros Hok Hb. destruct (append_last_concat b B (ok_batches _ _ Hok)) as (Ec & El & _). pose proof (ok_header_size _ _ Hok) as Hs. rewrite size_header_of_content in Hs. pose proof (ok_text_size _ _ Hok) as Ht. unfold MaxUsableBytes, MaxUncompressedBytes, MaxInputSize in *.
  assert (34 + 2 * size B + 3 * size (concat B) <= 131074) by (destruct (bool_decide _); lia). apply lengths_table_ok; rewrite ?El, ?Ec; [lia|rewrite length_app; cbn [length]; lia|]. rewrite concat_snoc, length_app. unfold maxUint24. lia.
Qed.

(** Accepting the block. *)
Lemma pending_accept bm bm0 B b out :
  bm_ok bm0 B -> size b <= MaxInputSize - MaxUncompressedBytes -> pending bm bm0 B b -> size (concat (concat (append_last b B))) <= MaxUncompressedBytes -> PackAlignSize (header_of_content (append_last b B)) (c_Bytes (compressor bm)) <= limit bm ->
  PackAlign (R := R) (header_of_content (append_last b B)) (c_Bytes (compressor bm)) = Ok out -> size out <= limit bm -> bm_ok (set_blob bm out) (append_last b B).
Proof.
  intros Hok Hb Hp Htxt Hfit Hpack Hsz. pose proof (pending_table bm0 B b Hok Hb) as Htab. destruct (append_last_concat b B (ok_batches _ _ Hok)) as (Ec & El & Hlast & Hne). destruct Hp as [P1 P2 P3 P4 P5 P6 P7 P8]. pose proof (ok_limit _ _ Hok) as Hl.
  split; cbn [set_blob limit compressor header dictStore currentBlob]; try done.
  - by rewrite P1.
  - by rewrite P8.
  - by rewrite P8.
  - rewrite bool_decide_eq_false_2 by done. pose proof (PackAlignSize_ge (header_of_content (append_last b B)) (c_Bytes (compressor bm))). lia.
  - rewrite P3. apply (ok_store _ _ Hok).
  - lia.
  - right. exists (append_last b B), (c_Bytes (compressor bm)). split; [exists 0%nat; by rewrite app_nil_r|]. split; [done|]. split; [done|]. split; [by apply (c_bytes (dict := dict))|]. rewrite <- P6. by apply (c_decompress (dict := dict)).
Qed.

Lemma pending_write bm B rlp opts b :
  bm_ok bm B -> block_bytes (E := E) rlp opts = Ok b -> Forall is_byte b -> size b <= MaxInputSize - MaxUncompressedBytes ->
  exists bm1, pending bm1 bm B b /\ forall force, Write (R := R) rlp force opts bm =
    (if MaxUncompressedBytes <? size (concat (concat (append_last b B))) + size (header_of_content (append_last b B)) then _ ← take_back; mret false
     else fitsInBlob ← fits (header_of_content (append_last b B));
       if negb fitsInBlob then _ ← take_back; mret false
       else if force then _ ← take_back; mret true
       else bm ← get;
         match PackAlign (R := R) (header_of_content (append_last b B)) (c_Bytes (compressor bm)) with
         | Ok out => _ ← call (assert_ (size out <=? maxOutputSize)); _ ← modify (fun bm => set_blob bm out); mret true
         | Err e => _ ← try_ (on_compressor c_Revert); _ ← on_header removeLastBlock; call (Err (PackError e))
         | Panic => call Panic
         end) bm1.
Proof.
  intros Hok Hbytes Hbb Hb. destruct (append_last_concat b B (ok_batches _ _ Hok)) as (Ec & _). pose proof (ok_text _ _ Hok) as Ht. pose proof (ok_text_size _ _ Hok) as Hts.
  destruct (c_write (dict := dict) (compressor bm) b (ok_compressor _ _ Hok) Hbb) as (c & Ew & Hc & Htc & Hu); [rewrite Ht; lia|]. set (h := mkHeader checksum (lengths (append_last b B)) (byteSizeUnpacked (header bm))).
  exists (set_header (set_compressor bm c) h). assert (c_WrittenBytes c = concat (concat (append_last b B))) as Htc' by (by rewrite Htc, Ht, Ec, concat_snoc). split; [split; try done; [by rewrite <- Ht]|].
  intros force. unfold Write. rewrite (bind_call _ _ _ b Hbytes). rewrite (bind_run _ _ _ _ _ (on_compressor_run _ _ _ _ Ew)).
  assert (addBlock (E := blob_error E) (size b) (header bm) = Ok h) as Ha.
  { destruct (snoc_cases B (ok_batches _ _ Hok)) as (B0 & l & EB). pose proof (ok_checksum _ _ Hok) as Hcs. pose proof (ok_table _ _ Hok) as Htb. unfold h. rewrite EB, append_last_snoc, lengths_snoc, fmap_app. rewrite EB, lengths_snoc in Htb. destruct (header bm) as [c0 t0 k0]. cbn in *. subst. apply addBlock_snoc. }
  rewrite (bind_run _ _ _ _ _ (on_header_run _ (set_compressor bm c) h Ha)). rewrite (bind_run get _ _ _ _ eq_refl). cbn [set_header set_compressor header compressor]. rewrite (WriteTo_ok h) by apply (pending_table bm B b Hok Hb). rewrite bind_ret. by rewrite (proj2 (c_sizes (dict := dict) c)), Htc'.
Qed.

(** The answer of [Write] does not depend on [forceReset], and the content changes only
    when the answer is yes and the block is not taken back. *)
Lemma maker_Write_ok bm B rlp opts b :
  bm_ok bm B -> block_bytes (E := E) rlp opts = Ok b -> Forall is_byte b -> size b <= MaxInputSize - MaxUncompressedBytes ->
  exists ok, forall force, exists bm', Write (R := R) rlp force opts bm = (bm', Ok ok) /\ bm_ok bm' (if ok && negb force then append_last b B else B) /\ limit bm' = limit bm.
Proof.
  intros Hok Hbytes Hbb Hb. destruct (pending_write bm B rlp opts b Hok Hbytes Hbb Hb) as (bm1 & Hp & Ew). destruct (pending_back bm1 bm B b Hok Hp) as (bm2 & Eb & Hok2 & Hl2). destruct (Z.ltb_spec MaxUncompressedBytes (size (concat (concat (append_last b B))) + size (header_of_content (append_last b B)))) as [Hgt|Hle].
  { exists false. intros force. exists bm2. rewrite Ew, (bind_run _ _ _ _ _ Eb). done. }
  destruct (fits_ok bm1 (header_of_content (append_last b B)) (pd_compressor _ _ _ _ Hp)) as (c & fit & Ef & Hc & Ht & Hu & Hfit). set (bm3 := set_compressor bm1 c) in *.
  assert (pending bm3 bm B b) as Hp3. { destruct Hp as [P1 P2 P3 P4 P5 P6 P7 P8]. split; try done; cbn [bm3 set_compressor compressor]; [by rewrite Ht|by apply Hu]. }
  destruct (pending_back bm3 bm B b Hok Hp3) as (bm4 & Eb4 & Hok4 & Hl4). exists fit. destruct fit.
  - specialize (Hfit eq_refl). assert (Forall is_byte (c_Bytes c)) as Hcb by (by apply (c_bytes (dict := dict))). assert (Forall is_byte (header_of_content (append_last b B))) as Hhb by (apply header_bytes_ok, checksum_bytes).
    destruct (PackAlign_ok (W := W) (R := R) _ _ Hhb Hcb) as (out & Eo & Es & _). pose proof (ok_limit _ _ Hok) as Hl. rewrite <- (pd_limit _ _ _ _ Hp) in Hl. intros [|]; cbn [andb negb].
    + exists bm4. rewrite Ew, (bind_run _ _ _ _ _ Ef). cbn [negb]. by rewrite (bind_run _ _ _ _ _ Eb4).
    + exists (set_blob bm3 out). rewrite Ew, (bind_run _ _ _ _ _ Ef). cbn [negb]. rewrite (bind_run get _ _ _ _ eq_refl). cbn [bm3 set_compressor compressor]. rewrite Eo. rewrite (bind_call _ _ _ tt). 2: { unfold assert_. rewrite (proj2 (Z.leb_le _ _)); [done|]. unfold MaxUsableBytes, maxOutputSize in *. lia. }
      split; [done|]. split; [|apply (pd_limit _ _ _ _ Hp)]. apply (pending_accept bm3 bm B b out); try done; [lia|]. cbn [bm3 set_compressor limit]. lia.
  - intros force. exists bm4. rewrite Ew, (bind_run _ _ _ _ _ Ef). cbn [negb andb]. by rewrite (bind_run _ _ _ _ _ Eb4).
Qed.

Lemma empty_ok (lim : Z) c d k : lim <= MaxUsableBytes -> c_ok (dict := dict) c -> c_WrittenBytes c = [] -> bm_ok (mkBlobMaker lim c d [Some {[checksum := dict]}] (mkHeader checksum [[]] k) []) [[]].
Proof.
  intros Hl Hc Ht. split; cbn [limit compressor header dictStore currentBlob DictChecksum table]; try done.
  - rewrite size_header_of_content. unfold MaxUsableBytes. destruct (bool_decide _); cbn [length concat app]; lia.
  - cbn. lia.
  - by left.
Qed.

Lemma Reset_maker_ok bm B : bm_ok bm B -> bm_ok (Reset bm) [[]].
Proof.
  intros Hok. destruct (c_reset (dict := dict) (compressor bm) (ok_compressor _ _ Hok)) as [Hc Ht]. pose proof (ok_checksum _ _ Hok) as Hcs. pose proof (ok_store _ _ Hok) as Hs. pose proof (ok_limit _ _ Hok) as Hl. destruct bm as [lim c d s [cs t k] blob]. cbn in *. subst. by apply empty_ok.
Qed.

(** [file] is the dictionary before the symbols are added. *)
Lemma NewBlobMaker_ok lim file : lim <= MaxUsableBytes -> dict = c_AugmentDict file -> size (c_AugmentDict dict) <= MaxDictSize -> exists bm, NewBlobMaker (W := W) (R := R) (C := C) (E := E) lim (Some file) = Ok bm /\ bm_ok bm [[]] /\ limit bm = lim.
Proof.
  intros Hl Hd Hsz. destruct (c_new (dict := dict) Hsz) as (c & Ec & Hc & Ht). unfold NewBlobMaker. cbn [mbind outcome_bind]. rewrite <- Hd. unfold SingletonStore, Checksum. cbn [Z.eqb Z.ltb Z.compare assert_ mbind outcome_bind map_err]. rewrite Ec. cbn [map_err mbind outcome_bind]. eexists. split; [done|].
  assert (copy_32 (ChecksumPaddedBytes dict (size dict) bls12_377_Bits) = checksum) as ->. { unfold copy_32, bls12_377_Bits. rewrite checksum_fields. change (ChecksumPaddedBytes dict (size dict) 255) with checksum. rewrite length_checksum, Nat.sub_diag. cbn [replicate]. rewrite app_nil_r. apply take_ge. by rewrite length_checksum. }
  split; [|done]. by apply empty_ok.
Qed.
(** ** Reading a blob *)

Context (range : gmap (list Z) (list Z) -> list (list Z)) (spare : list Z -> list Z).

Lemma cut_blocks_ok bs pre post : cut_blocks (E := E) spare (pre ++ concat bs ++ post) (size pre) ((fun x => size x) <$> bs) = Ok bs.
Proof.
  revert pre. induction bs as [|b bs IH]; intros pre; [done|]. cbn [fmap list_fmap cut_blocks concat]. rewrite slice_in by (rewrite ?length_app; lia). cbn [mbind outcome_bind]. rewrite <- !app_assoc. rewrite Nat2Z.id, drop_app_length. replace (Z.to_nat (size pre + size b - size pre)) with (length b) by lia. rewrite take_app_length.
  specialize (IH (pre ++ b)). rewrite length_app, Nat2Z.inj_add, <- app_assoc in IH. fold (fmap (M := list) (fun x : list Z => size x) bs). rewrite IH. done.
Qed.

Lemma same_blocks_concat B0 B : same_blocks B0 B -> concat B0 = concat B.
Proof. intros [n ->]. rewrite concat_app. assert (concat (replicate n ([] : list (list Z))) = []) as ->; [by induction n|]. by rewrite app_nil_r. Qed.

Lemma DecompressBlob_ok B0 B body blob s :
  same_blocks B0 B -> table_ok (lengths B0) -> PackAlign (R := R) (header_of_content B0) body = Ok blob -> Forall is_byte body -> Forall is_byte (concat (concat B)) -> c_Decompress body dict = Ok (concat (concat B)) ->
  Get (W := W) (R := R) range checksum 0 s = (s, Ok dict) ->
  exists h packed, DecompressBlob (W := W) (R := R) range spare blob s = (s, Ok (h, packed, concat B)) /\ DictChecksum h = checksum /\ table h = lengths B0 /\ UnpackAlign (W := W) packed = Ok (concat (concat B)).
Proof.
  intros Hsame Hok Hpack Hb Ht Hdec Hget. set (hd := header_of_content B0) in *. assert (Forall is_byte hd) as Hhd by (apply header_bytes_ok, checksum_bytes). destruct (PackAlign_ok (W := W) (R := R) hd body Hhd Hb) as (out & E1 & _ & _ & E2). rewrite Hpack in E1. injection E1 as <-.
  destruct (PackAlign_ok (W := W) (R := R) (concat (concat B)) [] Ht (Forall_nil_2 _)) as (packed & E3 & _ & _ & E4). rewrite app_nil_r in E4. set (h := mkHeader checksum (lengths B0) (size hd)).
  exists h, packed. split; [|done]. unfold DecompressBlob. rewrite (bind_call _ _ _ (hd ++ body)) by (by rewrite E2).
  assert (ReadFrom (hd ++ body) = Ok (h, size hd)) as Er by (apply header_roundtrip; [apply length_checksum|done]). rewrite (bind_call _ _ _ (h, size hd)) by (by rewrite Er). cbv beta iota.
  rewrite (bind_run _ _ s s dict) by (unfold field; cbn [DictChecksum h id]; by rewrite Hget). rewrite (bind_call _ _ _ body). 2: { rewrite slice_in by (rewrite ?length_app; lia). rewrite Nat2Z.id, drop_app_length. f_equal. apply take_ge. rewrite length_app. lia. }
  rewrite (bind_call _ _ _ (concat (concat B))) by (by rewrite Hdec). rewrite (bind_call _ _ _ (concat B)). 2: { cbn [table h]. rewrite concat_lengths, (same_blocks_concat B0 B Hsame). pose proof (cut_blocks_ok (concat B) [] []) as Hc. by rewrite app_nil_r in Hc. }
  by rewrite (bind_call _ _ _ packed) by (by rewrite E3).
Qed.

Lemma Get_store : Get (W := W) (R := R) range checksum 0 [Some {[checksum := dict]}] = ([Some {[checksum := dict]}], Ok dict).
Proof. apply (get_hit range 1 _ _ {[checksum := dict]}); [done|done|by rewrite lookup_singleton_eq]. Qed.

Lemma set_store_id (bm : maker) : set_store bm (dictStore bm) = bm.
Proof. by destruct bm. Qed.

(** The check of [Bytes] always passes. *)
Lemma Bytes_ok bm B : bm_ok bm B -> Bytes (W := W) (R := R) range spare bm = (bm, Ok (currentBlob bm)).
Proof.
  intros Hok. unfold Bytes. rewrite (bind_run get _ bm bm bm eq_refl). destruct (Z.ltb_spec 0 (size (currentBlob bm))) as [Hpos|Hz]; [|by rewrite (bind_run _ _ bm bm tt eq_refl)].
  destruct (ok_blob _ _ Hok) as [[Hnil _]|(B0 & body & Hsame & Htab & Hpack & Hb & Hdec)]; [rewrite Hnil in Hpos; cbn in Hpos; lia|].
  destruct (DecompressBlob_ok B0 B body (currentBlob bm) [Some {[checksum := dict]}] Hsame Htab Hpack Hb (content_bytes bm B Hok) Hdec Get_store) as (h & packed & Ed & Hc & Ht & Hu).
  etransitivity; [apply (bind_run _ _ bm bm tt)|done]. rewrite <- (ok_store _ _ Hok) in Ed. rewrite (bind_run _ _ bm bm (dictStore bm, Ok (h, packed, concat B))) by (by rewrite Ed). cbv beta iota. rewrite (bind_run _ _ bm bm tt) by (unfold modify; by rewrite set_store_id). rewrite (bind_call _ _ _ (h, packed, concat B)) by done. cbv beta iota.
  assert (CheckEquality h (Some (header bm)) = Ok tt) as Hce.
  { pose proof (ok_checksum _ _ Hok) as Hcs. pose proof (ok_table _ _ Hok) as Htb. destruct Hsame as [n ->]. rewrite fmap_app, fmap_replicate in Htb. destruct h as [c t k], (header bm) as [c' t' k']. cbn in *. subst. pose proof (CheckEquality_trailing checksum (lengths B0) 0 n k k') as Hx. cbn [replicate] in Hx. by rewrite app_nil_r in Hx. }
  rewrite (bind_call _ _ _ tt) by (by rewrite Hce). rewrite (bind_call _ _ _ (concat (concat B))) by (by rewrite Hu). unfold call. by rewrite (ok_text _ _ Hok), bool_decide_eq_true_2.
Qed.

End MakerTheorems.
