(* ===== verification/BlobMakerResults.v ===== *)
(** The theorems on the blob maker of version 0: it refines a list of batches of blocks,
    and its answers do not depend on whether a block is kept. *)
From S2P Require Import Prelude BitIo GoState SuffixArray Lzss LzssState PackAlign TxEncoding RlpCodec BlockData BlockV0 BlockResults Dictionary Compressors HeaderV0 BlobMakerV0 BlobMakerTheorems.

(** ** The abstract blob maker *)

Inductive maker_op :=
| OpWriteBlock (rlp : list Z) (forceReset : bool)
| OpNewBatch
| OpResetMaker.

Section Results.
Context {W R : Type} `{BitIoLaws W R} `{DictHashLaws} `{Rlp} `{BlockRlp} {C E : Type} `{CompressorOps C E}.
Context (range : gmap (list Z) (list Z) -> list (list Z)) (spare : list Z -> list Z).

(** The batches after an operation, of which the answer is known. *)
Definition next_content (B : list (list (list Z))) (oa : maker_op * bool) : list (list (list Z)) :=
  match oa with
  | (OpWriteBlock rlp forceReset, answer) =>
      match block_bytes (E := E) rlp [] with
      | Ok b => if answer && negb forceReset then append_last b B else B
      | _ => B
      end
  | (OpNewBatch, _) => if bool_decide (last B = Some []) then B else B ++ [[]]
  | (OpResetMaker, _) => [[]]
  end.

(** The blocks that may be written: they can be encoded, and are not longer than what the
    compressor can take besides a full text. *)
Definition op_ok (o : maker_op) : Prop :=
  match o with
  | OpWriteBlock rlp _ => exists b, block_bytes (E := E) rlp [] = Ok b /\ Forall is_byte b /\ size b <= MaxInputSize - MaxUncompressedBytes
  | _ => True
  end.

Definition run_maker_op (o : maker_op) : method (BlobMaker C) (blob_error E) bool :=
  match o with
  | OpWriteBlock rlp forceReset => Write (R := R) rlp forceReset []
  | OpNewBatch => _ ← modify StartNewBatch; mret true
  | OpResetMaker => _ ← modify Reset; mret true
  end.

Fixpoint run_maker (ops : list maker_op) : method (BlobMaker C) (blob_error E) (list bool) :=
  match ops with
  | [] => mret []
  | o :: ops => a ← run_maker_op o; answers ← run_maker ops; mret (a :: answers)
  end.

Lemma run_maker_ok dict `{!CompressorLaws C E dict} ops bm B :
  bm_ok (R := R) dict bm B -> Forall op_ok ops ->
  exists bm' answers, run_maker ops bm = (bm', Ok answers) /\ bm_ok (R := R) dict bm' (foldl next_content B (zip ops answers)) /\ limit bm' = limit bm.
Proof.
  intros Hok Hops. revert bm B Hok. induction Hops as [|o ops Ho _ IH]; intros bm B Hok; [by exists bm, []|].
  assert (exists bm1 a, run_maker_op o bm = (bm1, Ok a) /\ bm_ok (R := R) dict bm1 (next_content B (o, a)) /\ limit bm1 = limit bm) as (bm1 & a & E1 & Hok1 & Hl1).
  { destruct o as [rlp force| |]; cbn [run_maker_op next_content].
    - destruct Ho as (b & Eb & Hb & Hs). destruct (maker_Write_ok dict bm B rlp [] b Hok Eb Hb Hs) as (ok & Hw). destruct (Hw force) as (bm1 & Ew & Hok1 & Hl1). exists bm1, ok. split; [done|]. split; [by rewrite Eb|done].
    - eexists _, true. split; [done|]. split; [by apply (StartNewBatch_ok dict)|]. unfold StartNewBatch. by repeat case_match.
    - eexists _, true. split; [done|]. split; [by apply (Reset_maker_ok dict bm B)|]. unfold Reset, StartNewBatch. by repeat case_match. }
  destruct (IH bm1 _ Hok1) as (bm' & answers & E2 & Hok2 & Hl2). exists bm', (a :: answers). split; [|split; [done|congruence]]. cbn [run_maker]. by rewrite (bind_run _ _ _ _ _ E1), (bind_run _ _ _ _ _ E2).
Qed.

(** C5. The blob maker refines a list of batches of blocks: for every sequence of writes
    (kept or only tried), new batches and resets, no call fails or panics; the content is
    the list of the blocks that were accepted, batch by batch; the blob is at most as long
    as the limit, its check in [Bytes] passes; and decompressing it with a store that has
    the dictionary gives exactly the accepted blocks and the lengths of the batches. *)
Theorem blob_maker_refines lim file `{!CompressorLaws C E (c_AugmentDict file)} ops :
  lim <= MaxUsableBytes -> size (c_AugmentDict (c_AugmentDict file)) <= MaxDictSize -> Forall op_ok ops ->
  exists bm bm' answers B, NewBlobMaker (W := W) (R := R) lim (Some file) = Ok bm /\ run_maker ops bm = (bm', Ok answers) /\ B = foldl next_content [[]] (zip ops answers) /\
    Bytes (W := W) (R := R) range spare bm' = (bm', Ok (currentBlob bm')) /\ size (currentBlob bm') <= Z.max 0 lim /\
    ((currentBlob bm' = [] /\ concat B = []) \/
     forall s, Get (W := W) (R := R) range (checksum (c_AugmentDict file)) 0 s = (s, Ok (c_AugmentDict file)) ->
       exists h packed n, DecompressBlob (W := W) (R := R) range spare (currentBlob bm') s = (s, Ok (h, packed, concat B)) /\ table h ++ replicate n [] = lengths B).
Proof.
  intros Hl Hsz Hops. destruct (NewBlobMaker_ok (W := W) (R := R) (c_AugmentDict file) lim file Hl eq_refl Hsz) as (bm & En & Hok & Elim). destruct (run_maker_ok (c_AugmentDict file) ops bm [[]] Hok Hops) as (bm' & answers & Er & Hok' & Elim'). exists bm, bm', answers, (foldl next_content [[]] (zip ops answers)).
  set (B := foldl next_content [[]] (zip ops answers)) in *. split; [done|]. split; [done|]. split; [done|]. split; [by apply (Bytes_ok (c_AugmentDict file) range spare bm' B)|]. split; [rewrite <- Elim, <- Elim'; apply (ok_blob_size _ _ _ Hok')|].
  destruct (ok_blob _ _ _ Hok') as [?|(B0 & body & Hsame & Htab & Hpack & Hb & Hdec)]; [by left|right]. intros s Hget. destruct (DecompressBlob_ok (c_AugmentDict file) range spare B0 B body (currentBlob bm') s Hsame Htab Hpack Hb (content_bytes _ bm' B Hok') Hdec Hget) as (h & packed & Ed & _ & Ht & _).
  destruct Hsame as [n Hn]. exists h, packed, n. split; [done|]. by rewrite Ht, Hn, fmap_app, fmap_replicate.
Qed.

(** C19. Asking whether a block can be written gives the answer of writing it: in every
    state that is reached, [Write] with and without [forceReset] give the same answer. *)
Theorem CanWrite_predicts lim file `{!CompressorLaws C E (c_AugmentDict file)} ops rlp :
  lim <= MaxUsableBytes -> size (c_AugmentDict (c_AugmentDict file)) <= MaxDictSize -> Forall op_ok ops -> op_ok (OpWriteBlock rlp false) ->
  exists bm bm' answers bm1 bm2 ok, NewBlobMaker (W := W) (R := R) lim (Some file) = Ok bm /\ run_maker ops bm = (bm', Ok answers) /\ Write (R := R) rlp true [] bm' = (bm1, Ok ok) /\ Write (R := R) rlp false [] bm' = (bm2, Ok ok).
Proof.
  intros Hl Hsz Hops (b & Eb & Hb & Hs). destruct (NewBlobMaker_ok (W := W) (R := R) (c_AugmentDict file) lim file Hl eq_refl Hsz) as (bm & En & Hok & _). destruct (run_maker_ok (c_AugmentDict file) ops bm [[]] Hok Hops) as (bm' & answers & Er & Hok' & _).
  destruct (maker_Write_ok (c_AugmentDict file) bm' _ rlp [] b Hok' Eb Hb Hs) as (ok & Hw). destruct (Hw true) as (bm1 & E1 & _), (Hw false) as (bm2 & E2 & _). by exists bm, bm', answers, bm1, bm2, ok.
Qed.
End Results.

(** ** Witnesses *)

(** Blocks with one transaction, given by their times. *)
#[export] Instance timed_blocks : BlockRlp := {|
  rlp_Block b := Some (mkBlock (be_value b mod 2 ^ 64) (replicate 32 0) (Some [Some a_legacy]));
  rlp_Transaction _ := Some a_legacy
|}.

Definition some_ops : list maker_op := [OpWriteBlock [5] false; OpNewBatch; OpWriteBlock [6] true; OpWriteBlock [7] false; OpNewBatch].

Lemma some_ops_ok : Forall (op_ok (E := lzss_error)) some_ops.
Proof.
  repeat (apply Forall_cons_2; [cbn [op_ok]; first [done|eexists; split; [vm_compute; reflexivity|]; split; [apply bytes_check; reflexivity|vm_compute; discriminate]]|]). apply Forall_nil_2.
Qed.

Abbreviation lzss_maker := (BlobMaker (Compressor writer)).

Lemma blob_maker_refines_witness :
  exists (bm bm' : lzss_maker) answers B, NewBlobMaker (W := writer) (R := reader) MaxUsableBytes (Some [1; 2; 3]) = Ok bm /\ run_maker (R := reader) some_ops bm = (bm', Ok answers) /\ B = foldl (next_content (E := lzss_error)) [[]] (zip some_ops answers) /\
    Bytes (W := writer) (R := reader) values_in_order (fun _ => []) bm' = (bm', Ok (currentBlob bm')) /\ size (currentBlob bm') <= Z.max 0 MaxUsableBytes /\
    ((currentBlob bm' = [] /\ concat B = []) \/
     forall s, Get (W := writer) (R := reader) values_in_order (checksum (c_AugmentDict (CompressorOps := lzss_ops (R := reader)) [1; 2; 3])) 0 s = (s, Ok (c_AugmentDict (CompressorOps := lzss_ops (R := reader)) [1; 2; 3])) ->
       exists h packed n, DecompressBlob (W := writer) (R := reader) values_in_order (fun _ => []) (currentBlob bm') s = (s, Ok (h, packed, concat B)) /\ table h ++ replicate n [] = lengths B).
Proof. apply (blob_maker_refines (W := writer) (R := reader) (C := Compressor writer) (E := lzss_error) values_in_order (fun _ => []) MaxUsableBytes [1; 2; 3] some_ops); [apply Z.le_refl|vm_compute; discriminate|apply some_ops_ok]. Defined.

Lemma CanWrite_predicts_witness :
  exists (bm bm' : lzss_maker) answers bm1 bm2 ok, NewBlobMaker (W := writer) (R := reader) MaxUsableBytes (Some [1; 2; 3]) = Ok bm /\ run_maker (R := reader) some_ops bm = (bm', Ok answers) /\
    Write (R := reader) [9] true [] bm' = (bm1, Ok ok) /\ Write (R := reader) [9] false [] bm' = (bm2, Ok ok).
Proof.
  apply (CanWrite_predicts (W := writer) (R := reader) (C := Compressor writer) (E := lzss_error) MaxUsableBytes [1; 2; 3] some_ops [9]); [apply Z.le_refl|vm_compute; discriminate|apply some_ops_ok|].
  cbn [op_ok]. eexists. split; [vm_compute; reflexivity|]. split; [apply bytes_check; reflexivity|vm_compute; discriminate].
Defined.
