(* ===== verification/HeaderV1.v ===== *)
(** The header of the blobs of the versions 1 and 2:
    [prover/lib/compressor/blob/v1/header.go].

    A header holds the version, the checksum of the dictionary and the sizes of the
    batches; the batch that is being built is a list of the lengths of its blocks until it
    is sealed. *)
From S2P Require Import Prelude BitIo PackAlign HeaderV0.

Inductive header1_error :=
| UnsupportedBlobVersion (given : Z)
| BatchOutOfRange
| Header1Read.

Definition ByteLenEncodingBytes : Z := 3.
Definition NbElemsEncodingBytes : Z := 2.
Definition PackingSizeU256 : Z := 254.

Record Header := mkHeader1 {
  BatchSizes : list Z;
  CurrBatchBlocksLen : list Z;
  DictChecksum : list Z;
  Version : Z
}.

Definition sum (s : list Z) : Z := foldl Z.add 0 s.

(** [other] is [None] for a nil pointer. *)
Definition Equals (s : Header) (other : option Header) : bool :=
  match other with
  | None => false
  | Some other =>
      if negb (bool_decide (DictChecksum s = DictChecksum other)) then false else
      let sSum := sum (CurrBatchBlocksLen s) in
      let otherSum := sum (CurrBatchBlocksLen other) in
      if sSum =? otherSum then bool_decide (BatchSizes s = BatchSizes other)
      else if negb (sSum =? 0) && negb (otherSum =? 0) then false
      else
        let '(small, large, smallSum) := if sSum =? 0 then (other, s, otherSum) else (s, other, sSum) in
        if negb (size (BatchSizes large) =? size (BatchSizes small) + 1) then false
        else bool_decide (BatchSizes small = take (length (BatchSizes small)) (BatchSizes large)) && bool_decide (BatchSizes large !! length (BatchSizes small) = Some smallSum)
  end.

Definition NbBatches (s : Header) : Z := size (BatchSizes s).

Definition sealBatch (s : Header) : Header :=
  if negb (size (CurrBatchBlocksLen s) =? 0) then mkHeader1 (BatchSizes s ++ [sum (CurrBatchBlocksLen s)]) [] (DictChecksum s) (Version s) else s.

Definition ByteSize (s : Header) : Z :=
  let exCurr := 2 + 32 + NbElemsEncodingBytes + size (BatchSizes s) * ByteLenEncodingBytes in
  if negb (size (CurrBatchBlocksLen s) =? 0) then exCurr + ByteLenEncodingBytes else exCurr.

Definition ByteSizePacked (s : Header) : Z := ByteSize s + DivCeil (ByteSize s * 8) PackingSizeU256.

Definition set_current (s : Header) (l : list Z) : Header := mkHeader1 (BatchSizes s) l (DictChecksum s) (Version s).

Definition addBlock (blockLen : Z) (s : Header) : Header := set_current s (CurrBatchBlocksLen s ++ [blockLen]).
Definition removeLastBlock {E} (s : Header) : outcome E Header := l ← slice (CurrBatchBlocksLen s) 0 (size (CurrBatchBlocksLen s) - 1); Ok (set_current s l).
Definition resetTable (s : Header) : Header := mkHeader1 [] [] (DictChecksum s) (Version s).

Definition writeLen (batchLen : Z) : outcome header1_error (list Z) :=
  _ ← require (negb ((batchLen <? 0) || (2 ^ 24 <=? batchLen))) BatchOutOfRange;
  Ok [u8 (batchLen ≫ 16); u8 (batchLen ≫ 8); u8 batchLen].

Definition WriteTo (s : Header) : outcome header1_error (list Z) :=
  let nbBatches := uwrap 16 (size (BatchSizes s)) in
  let current := negb (size (CurrBatchBlocksLen s) =? 0) in
  let nbBatches := if current then uwrap 16 (nbBatches + 1) else nbBatches in
  batches ← mapM_ writeLen (BatchSizes s);
  last ← (if current then writeLen (sum (CurrBatchBlocksLen s)) else Ok []);
  Ok (be_bytes 2 (uwrap 16 (uwrap 16 (65535 - Version s) + 1)) ++ DictChecksum s ++ be_bytes 2 nbBatches ++ concat batches ++ last).

(** [io.ReadFull]. *)
Definition read_n (r : list Z) (n : nat) : outcome header1_error (list Z * list Z) := if (n <=? length r)%nat then Ok (take n r, drop n r) else Err Header1Read.

Fixpoint read_sizes (n : nat) (r : list Z) : outcome header1_error (list Z * list Z) :=
  match n with
  | O => Ok ([], r)
  | S n => '(b, r) ← read_n r 3; '(bs, r) ← read_sizes n r; Ok (be_value b :: bs, r)
  end.

(** The header for the version that is expected, and the number of bytes read. *)
Definition ReadFrom (version : Z) (r : list Z) : outcome header1_error (Header * Z) :=
  '(b, r1) ← read_n r 2;
  let givenVersion := be_value b in
  _ ← require (uwrap 16 (givenVersion + version) =? 0) (UnsupportedBlobVersion givenVersion);
  '(checksum, r2) ← read_n r1 32;
  '(nb, r3) ← read_n r2 2;
  '(sizes, r4) ← read_sizes (Z.to_nat (be_value nb)) r3;
  Ok (mkHeader1 sizes [] checksum version, size r - size r4).

(** ** Theorems *)

(** The sizes of the batches when the current one is sealed. *)
Definition all_sizes (s : Header) : list Z := BatchSizes s ++ (if negb (size (CurrBatchBlocksLen s) =? 0) then [sum (CurrBatchBlocksLen s)] else []).

Definition sizes_ok (sizes : list Z) : Prop := size sizes < 65536 /\ Forall (fun n => 0 <= n < 2 ^ 24) sizes.

Definition header1_bytes (version : Z) (checksum sizes : list Z) : list Z := be_bytes 2 (65536 - version) ++ checksum ++ be_bytes 2 (size sizes) ++ concat (be_bytes 3 <$> sizes).

Lemma seal_all_sizes s : all_sizes (sealBatch s) = all_sizes s.
Proof. unfold all_sizes, sealBatch. destruct (negb _) eqn:En; [cbn; by rewrite app_nil_r|by rewrite En]. Qed.

#[local] Transparent be_bytes.
Lemma writeLen_ok n : 0 <= n < 2 ^ 24 -> writeLen n = Ok (be_bytes 3 n).
Proof.
  intros Hn. unfold writeLen. replace ((n <? 0) || (2 ^ 24 <=? n)) with false by lia. cbn [negb require mbind outcome_bind]. f_equal. apply (inj reverse). unfold be_bytes. rewrite reverse_involutive. cbn [le_bytes]. rewrite !reverse_cons. cbn [reverse rev_append app]. unfold uwrap. rewrite !Z.shiftr_div_pow2 by lia.
  change (2 ^ 16) with (256 * 256). change (2 ^ 8) with 256. rewrite <- Z.div_div by lia. done.
Qed.
#[local] Opaque be_bytes.

Lemma mapM_writeLen l : Forall (fun n => 0 <= n < 2 ^ 24) l -> mapM_ writeLen l = Ok (be_bytes 3 <$> l).
Proof. induction 1 as [|n l Hn _ IH]; [done|]. cbn [mapM_]. by rewrite writeLen_ok, IH. Qed.

Lemma WriteTo1_ok s : 1 <= Version s < 65536 -> sizes_ok (all_sizes s) -> WriteTo s = Ok (header1_bytes (Version s) (DictChecksum s) (all_sizes s)).
Proof.
  intros Hv [Hn Hl]. unfold WriteTo, header1_bytes, all_sizes in *. rewrite length_app in Hn. apply Forall_app in Hl as [Hl1 Hl2]. rewrite mapM_writeLen by done. cbn [mbind outcome_bind]. rewrite (uwrap_small 16 (size _)) by (unfold is_u; lia). rewrite (uwrap_small 16 (65535 - _)) by (unfold is_u; lia). rewrite (uwrap_small 16 (65535 - _ + 1)) by (unfold is_u; lia). replace (65535 - Version s + 1) with (65536 - Version s) by lia.
  destruct (negb _) eqn:En; cbn [mbind outcome_bind]; rewrite fmap_app, concat_app, length_app.
  - apply Forall_cons in Hl2 as [Hl2 _]. rewrite writeLen_ok by done. cbn [mbind outcome_bind length] in *. rewrite uwrap_small by (unfold is_u; lia). cbn [fmap list_fmap concat]. rewrite app_nil_r. do 5 f_equal. lia.
  - cbn [length fmap list_fmap concat]. do 5 f_equal. lia.
Qed.

Lemma read_n_app n a b : length a = n -> read_n (a ++ b) n = Ok (a, b).
Proof. intros <-. unfold read_n. rewrite length_app. replace (length a <=? length a + length b)%nat with true by lia. by rewrite take_app_length, drop_app_length. Qed.

Lemma read_sizes_ok sizes r : Forall (fun n => 0 <= n < 2 ^ 24) sizes -> read_sizes (length sizes) (concat (be_bytes 3 <$> sizes) ++ r) = Ok (sizes, r).
Proof.
  induction 1 as [|n l Hn _ IH]; [done|]. cbn [fmap list_fmap concat length read_sizes]. rewrite <- app_assoc, read_n_app by apply length_be_bytes. cbn [mbind outcome_bind]. fold (fmap (M := list) (be_bytes 3) l). rewrite IH. cbn [mbind outcome_bind]. by rewrite be_value_be_bytes, Z.mod_small.
Qed.

Lemma ReadFrom1_ok version checksum sizes r :
  1 <= version < 65536 -> length checksum = 32%nat -> sizes_ok sizes ->
  ReadFrom version (header1_bytes version checksum sizes ++ r) = Ok (mkHeader1 sizes [] checksum version, size (header1_bytes version checksum sizes)).
Proof.
  intros Hv Hc [Hn Hl]. unfold ReadFrom, header1_bytes. rewrite <- !app_assoc, read_n_app by apply length_be_bytes. cbn [mbind outcome_bind]. rewrite be_value_be_bytes, Z.mod_small by lia. replace (uwrap 16 (65536 - version + version)) with 0 by (replace (65536 - version + version) with 65536 by lia; done). cbn [Z.eqb require mbind outcome_bind].
  rewrite read_n_app by done. cbn [mbind outcome_bind]. rewrite read_n_app by apply length_be_bytes. cbn [mbind outcome_bind]. rewrite be_value_be_bytes, Z.mod_small, Nat2Z.id by lia. rewrite read_sizes_ok by done. cbn [mbind outcome_bind]. do 2 f_equal. rewrite !length_app. lia.
Qed.

(** C40. Writing a header of version 1 or 2 and reading it back: the current batch is
    written as if it were sealed, and reading gives the version, the checksum and the
    sizes of all batches, whatever follows. *)
Theorem HeaderV1_roundtrip s r :
  1 <= Version s < 65536 -> length (DictChecksum s) = 32%nat -> sizes_ok (all_sizes s) ->
  exists out, WriteTo s = Ok out /\ size out = ByteSize s /\ ReadFrom (Version s) (out ++ r) = Ok (mkHeader1 (BatchSizes (sealBatch s)) [] (DictChecksum s) (Version s), size out).
Proof.
  intros Hv Hc Hs. eexists. split; [by apply WriteTo1_ok|]. split.
  - unfold header1_bytes, ByteSize, NbElemsEncodingBytes, ByteLenEncodingBytes. rewrite !length_app, !length_be_bytes, Hc. assert (forall l, length (concat (be_bytes 3 <$> l)) = (3 * length l)%nat) as Hlen. { intros l. induction l as [|x l IH]; [done|]. cbn [fmap list_fmap concat length]. fold (fmap (M := list) (be_bytes 3) l). rewrite length_app, length_be_bytes, IH. lia. }
    rewrite Hlen. unfold all_sizes. rewrite length_app. destruct (negb _); cbn [length]; lia.
  - rewrite ReadFrom1_ok by done. do 3 f_equal. unfold all_sizes, sealBatch. destruct (negb _); cbn [BatchSizes]; [done|by rewrite app_nil_r].
Qed.

Lemma HeaderV1_roundtrip_witness :
  exists out, WriteTo (mkHeader1 [70000] [5; 6] (replicate 32 7) 2) = Ok out /\ size out = 42 /\ ReadFrom 2 (out ++ [1]) = Ok (mkHeader1 [70000; 11] [] (replicate 32 7) 2, 42).
Proof.
  destruct (HeaderV1_roundtrip (mkHeader1 [70000] [5; 6] (replicate 32 7) 2) [1]) as (out & E1 & E2 & E3); [cbn; lia|done| |].
  - split; [by vm_compute|]. repeat constructor; vm_compute; congruence.
  - exists out. split; [done|]. change (ByteSize _) with 42 in E2. split; [done|]. by rewrite E2 in E3.
Defined.
