(* ===== verification/BlobMakerV1.v ===== *)
(** The blob maker of the versions 1 and 2: [prover/lib/compressor/blob/v1/blob_maker.go] and
    [v2/blob_maker.go].

    The compressor is third-party code, used through [CompressorOps].  The text that is
    compressed again is a slice of the input of the compressor; writing it back after a
    reset copies the bytes onto themselves, and the model takes it for a value. *)
From S2P Require Import Prelude BitIo GoState PackAlign TxEncoding BlockData BlockV0 BlockV1 Dictionary Compressors HeaderV0 HeaderV1 BlobMakerV0.

Inductive blob1_error (E : Type) :=
| BadRlp1
| BadBlock1 (e : block_error)
| Compressor1 (e : E)
| HeaderError1 (e : header1_error)
| PackError1 (e : pack_error)
| DictError1 (e : dict_error)
| BlobFile1
| IncorrectBatchLength
| NeverEnds.
Arguments BadRlp1 {E}.
Arguments BadBlock1 {E} _.
Arguments Compressor1 {E} _.
Arguments HeaderError1 {E} _.
Arguments PackError1 {E} _.
Arguments DictError1 {E} _.
Arguments BlobFile1 {E}.
Arguments IncorrectBatchLength {E}.
Arguments NeverEnds {E}.

(** [currentBlob] is the part of the array that is used. *)
Record BlobMaker1 (C : Type) := mkBlobMaker1 {
  Limit : Z;
  compressor1 : C;
  dict1 : list Z;
  dictStore1 : Store;
  version : Z;
  header1 : HeaderV1.Header;
  currentBlob1 : list Z
}.
Arguments mkBlobMaker1 {C}.
Arguments Limit {C} _.
Arguments compressor1 {C} _.
Arguments dict1 {C} _.
Arguments dictStore1 {C} _.
Arguments version {C} _.
Arguments header1 {C} _.
Arguments currentBlob1 {C} _.

Record BlobDecompressionResponse := mkResponse {
  resp_Header : HeaderV1.Header;
  resp_Blocks : list (list Z);
  resp_RawPayload : list Z;
  resp_Dict : list Z
}.

Section Maker1.
Context {W R : Type} `{BitIo W R} `{DictHash} `{Rlp} `{BlockRlp} {C E : Type} `{CompressorOps C E}.
Context (range : gmap (list Z) (list Z) -> list (list Z)).
Abbreviation maker1 := (BlobMaker1 C).
Abbreviation making1 := (method maker1 (blob1_error E)).

Definition set_compressor1 (bm : maker1) (c : C) : maker1 := mkBlobMaker1 (Limit bm) c (dict1 bm) (dictStore1 bm) (version bm) (header1 bm) (currentBlob1 bm).
Definition set_header1 (bm : maker1) (h : HeaderV1.Header) : maker1 := mkBlobMaker1 (Limit bm) (compressor1 bm) (dict1 bm) (dictStore1 bm) (version bm) h (currentBlob1 bm).
Definition set_store1 (bm : maker1) (s : Store) : maker1 := mkBlobMaker1 (Limit bm) (compressor1 bm) (dict1 bm) s (version bm) (header1 bm) (currentBlob1 bm).
Definition set_blob1 (bm : maker1) (b : list Z) : maker1 := mkBlobMaker1 (Limit bm) (compressor1 bm) (dict1 bm) (dictStore1 bm) (version bm) (header1 bm) b.

Definition on_compressor1 {A} (m : method C E A) : making1 A := field compressor1 set_compressor1 Compressor1 m.
Definition on_header1 (f : HeaderV1.Header -> outcome (blob1_error E) HeaderV1.Header) : making1 unit := bm ← get; h ← call (f (header1 bm)); modify (fun bm => set_header1 bm h).

Definition StartNewBatch (bm : maker1) : maker1 := set_header1 bm (sealBatch (header1 bm)).

Definition Reset (bm : maker1) : maker1 :=
  let bm := set_header1 bm (HeaderV1.resetTable (header1 bm)) in
  let bm := set_blob1 bm [] in
  let bm := set_compressor1 bm (c_Reset (compressor1 bm)) in
  set_header1 bm (sealBatch (header1 bm)).

Definition Len (bm : maker1) : Z := size (currentBlob1 bm).
Definition Written (bm : maker1) : Z := c_Written (compressor1 bm).

Definition NewVersionedBlobMaker (version dataLimit : Z) (file : option (list Z)) : outcome (blob1_error E) maker1 :=
  dict ← (match file with Some d => Ok d | None => Err BlobFile1 end);
  let dict := c_AugmentDict dict in
  store ← map_err DictError1 (SingletonStore (W := W) (R := R) dict version);
  dictChecksum ← map_err DictError1 (Checksum (W := W) (R := R) dict version);
  c ← map_err Compressor1 (c_NewCompressor dict);
  Ok (StartNewBatch (mkBlobMaker1 dataLimit c dict store version (mkHeader1 [] [] (copy_32 dictChecksum) version) [])).

Definition NewBlobMaker : Z -> option (list Z) -> outcome (blob1_error E) maker1 := NewVersionedBlobMaker 1.
Definition NewBlobMaker_v2 : Z -> option (list Z) -> outcome (blob1_error E) maker1 := NewVersionedBlobMaker 2.

(** ** Decompression *)

(** The blocks of a batch that ends at [stop], and the offset behind them.  A block of
    length 0 leaves the offset where it is, and the loop does not end: [NeverEnds] stands
    for this.  As every other block moves the offset, and there is no block behind the
    text, one more than the length of the text is fuel enough. *)
Fixpoint scan_batch (fuel : nat) (raw : list Z) (offset stop : Z) : outcome (blob1_error E) (list (list Z) * Z) :=
  if negb (offset <? stop) then Ok ([], offset) else
  match fuel with
  | O => Err NeverEnds
  | S fuel =>
      rest ← slice raw offset (size raw);
      blockLen ← map_err BadBlock1 (ScanBlockByteLen rest);
      block ← slice raw offset (offset + blockLen);
      '(blocks, offset) ← scan_batch fuel raw (offset + blockLen) stop;
      Ok (block :: blocks, offset)
  end.

Fixpoint scan_batches (raw : list Z) (offset : Z) (sizes : list Z) : outcome (blob1_error E) (list (list Z)) :=
  match sizes with
  | [] => Ok []
  | batchLen :: sizes =>
      '(blocks, stop) ← scan_batch (S (length raw)) raw offset (offset + batchLen);
      _ ← require (stop =? offset + batchLen) IncorrectBatchLength;
      rest ← scan_batches raw stop sizes;
      Ok (blocks ++ rest)
  end.

Definition DecompressBlobVersioned (version : Z) (b : list Z) : method Store (blob1_error E) BlobDecompressionResponse :=
  b ← call (map_err PackError1 (enc_UnpackAlign (W := W) b PackingSizeU256 false));
  '(h, read) ← call (map_err HeaderError1 (HeaderV1.ReadFrom version b));
  dict ← field id (fun _ s => s) DictError1 (Get (W := W) (R := R) range (HeaderV1.DictChecksum h) version);
  b ← call (slice b read (size b));
  raw ← call (map_err Compressor1 (c_Decompress b dict));
  blocks ← call (scan_batches raw 0 (BatchSizes h));
  mret (mkResponse h blocks raw dict).

Definition DecompressBlob : list Z -> method Store (blob1_error E) BlobDecompressionResponse := DecompressBlobVersioned 1.
Definition DecompressBlob_v2 : list Z -> method Store (blob1_error E) BlobDecompressionResponse := DecompressBlobVersioned 2.

(** The blob, after it has been decompressed and compared; a difference is a panic. *)
Definition Bytes : making1 (list Z) :=
  bm ← get;
  _ ← (if 0 <? size (currentBlob1 bm) then
      '(s, r) ← (fun bm => (bm, Ok (DecompressBlobVersioned (version bm) (currentBlob1 bm) (dictStore1 bm))));
      _ ← modify (fun bm => set_store1 bm s);
      resp ← call (must r);
      _ ← call (assert_ (HeaderV1.Equals (resp_Header resp) (Some (header1 bm))));
      call (assert_ (bool_decide (resp_RawPayload resp = c_WrittenBytes (compressor1 bm))))
    else mret tt);
  mret (currentBlob1 bm).

(** ** Writing *)

Definition fitsInBlob (buf : list Z) : making1 bool :=
  bm ← get;
  n ← call (map_err PackError1 (enc_PackAlignSize (size buf + c_Len (compressor1 bm)) PackingSizeU256 []));
  mret (n <=? Limit bm).

(** The closure [revert]: the text is compressed again when it has been. *)
Definition revert (recompressionAttempted : bool) (payload : list Z) (prevLen : Z) : making1 unit :=
  _ ← on_header1 HeaderV1.removeLastBlock;
  if negb recompressionAttempted then on_compressor1 c_Revert
  else
    _ ← on_compressor1 (modify c_Reset);
    prev ← call (slice payload 0 prevLen);
    on_compressor1 (c_Write prev).

(** [None]: the block does not fit and has been discarded.  [Some r]: it fits, and [r]
    says whether the text has been compressed again. *)
Definition make_fit (buf payload : list Z) (prevLen : Z) : making1 (option bool) :=
  fit ← fitsInBlob buf;
  if fit : bool then mret (Some false) else
  _ ← on_compressor1 (modify c_Reset);
  r ← try_ (on_compressor1 (c_Write payload));
  match r with
  | inr e => _ ← revert true payload prevLen; call (Err e)
  | inl _ =>
      fit ← fitsInBlob buf;
      if fit : bool then mret (Some true) else
      bypassed ← on_compressor1 c_ConsiderBypassing;
      fit ← (if bypassed : bool then fitsInBlob buf else mret false);
      if fit : bool then mret (Some true) else
      _ ← revert true payload prevLen;
      mret None
  end.

Definition block_bytes1 (rlpBlock : list Z) : outcome (blob1_error E) (list Z) :=
  block ← (match rlp_Block rlpBlock with Some b => Ok b | None => Err BadRlp1 end);
  map_err BadBlock1 (EncodeBlockForCompression (Some block)).

Definition Write (rlpBlock : list Z) (forceReset : bool) : making1 bool :=
  bm ← get;
  let prevLen := c_Written (compressor1 bm) in
  block ← call (block_bytes1 rlpBlock);
  r ← try_ (on_compressor1 (c_Write block));
  match r with
  | inr e => _ ← on_compressor1 c_Revert; call (Err e)
  | inl _ =>
      _ ← modify (fun bm => set_header1 bm (HeaderV1.addBlock (size block) (header1 bm)));
      bm ← get;
      buf ← (match HeaderV1.WriteTo (header1 bm) with
        | Ok buf => mret buf
        | Err e => _ ← on_header1 HeaderV1.removeLastBlock; call (Err (HeaderError1 e))
        | Panic => call Panic
        end);
      if MaxUncompressedBytes <? u64 (c_Written (compressor1 bm) + size buf) then
        _ ← on_compressor1 c_Revert; _ ← on_header1 HeaderV1.removeLastBlock; mret false
      else
        let payload := c_WrittenBytes (compressor1 bm) in
        fit ← make_fit buf payload prevLen;
        match fit with
        | None => mret false
        | Some recompressed =>
            if forceReset then _ ← revert recompressed payload prevLen; mret true
            else
              bm ← get;
              match enc_PackAlign (R := R) buf PackingSizeU256 [WithAdditionalInput [c_Bytes (compressor1 bm)]] with
              | Ok out => _ ← call (assert_ (size out <=? maxOutputSize)); _ ← modify (fun bm => set_blob1 bm out); mret true
              | Err e => _ ← revert recompressed payload prevLen; call (Err (PackError1 e))
              | Panic => call Panic
              end
        end
  end.

(** ** Estimates *)

Definition alone1 (bm : maker1) (input : list Z) : outcome (blob1_error E) (bool * Z) :=
  n ← map_err Compressor1 (c_CompressedSize256k (compressor1 bm) input);
  let expandingBlock := size input <? n in
  let n := if expandingBlock then size input + c_HeaderSize else n in
  n ← map_err PackError1 (enc_PackAlignSize n PackingSizeU256 [NoTerminalSymbol]);
  Ok (expandingBlock, n).

Definition WorstCompressedBlockSize (bm : maker1) (rlpBlock : list Z) : outcome (blob1_error E) (bool * Z) :=
  input ← block_bytes1 rlpBlock;
  alone1 bm input.

Definition WorstCompressedTxSize (bm : maker1) (rlpTx : list Z) : outcome (blob1_error E) Z :=
  tx ← (match rlp_Transaction rlpTx with Some t => Ok t | None => Err BadRlp1 end);
  input ← map_err BadBlock1 (EncodeTxForCompression (Some tx));
  map_err Compressor1 (c_CompressedSize256k (compressor1 bm) input).

Definition RawCompressedSize (bm : maker1) (data : list Z) : outcome (blob1_error E) Z := '(_, n) ← alone1 bm data; Ok n.

Definition Equals (bm other : maker1) : bool :=
  (Limit bm =? Limit other) && bool_decide (currentBlob1 bm = currentBlob1 other) && bool_decide (BatchSizes (header1 bm) = BatchSizes (header1 other)).
End Maker1.
