(* ===== verification/BlobMaker1Theorems.v ===== *)
(** The invariant of the blob maker of the versions 1 and 2, and that every operation keeps
    it. *)
From S2P Require Import Prelude BitIo GoState PackAlign PackTheorems TxEncoding BlockData BlockV0 BlockV1 Dictionary Lzss Compressors HeaderV0 HeaderV1 BlobMakerV0 BlobMakerTheorems BlobMakerV1.

(** ** Sizes *)

Lemma sum_sizes (l : list (list Z)) : sum ((fun x => size x) <$> l) = size (concat l).
Proof.
  unfold sum. assert (forall n, foldl Z.add n ((fun x => size x) <$> l) = n + size (concat l)) as Hs; [|by rewrite Hs]. induction l as [|x l IH]; intros n; [cbn; lia|]. cbn [fmap list_fmap foldl concat]. fold (fmap (M := list) (fun x : list Z => size x) l). rewrite IH, length_app. lia.
Qed.

(** The size of [n] bytes when they are packed with the mark at the end. *)
Definition packed_size (n : Z) : Z := ((n + 1) * 8 + (254 - (n + 1) * 8 mod 254) mod 254) / 254 * 32.

Lemma packed_size_ge n : 0 <= n -> n < packed_size n.
Proof. intros Hn. unfold packed_size. golia. Qed.

Lemma PackAlignSize_none n : enc_PackAlignSize n PackingSizeU256 [] = Ok (packed_size n).
Proof. unfold enc_PackAlignSize, initialize, packed_size, PackingSizeU256. cbn [foldM mbind outcome_bind additionalInput noTerminalSymbol lastByteNbUnusedBits dataNbBits negb foldr]. rewrite !Z.add_0_r, !Z.sub_0_r. done. Qed.

Lemma PackAlignSize_two a b : enc_PackAlignSize a PackingSizeU256 [WithAdditionalInput [b]] = Ok (packed_size (a + size b)).
Proof. unfold enc_PackAlignSize. rewrite initialize_ok. cbn [mbind outcome_bind dataNbBits concat]. rewrite app_nil_r. done. Qed.

Lemma packing_254 : packing_ok PackingSizeU256.
Proof. split; done. Qed.

(** ** Headers *)

Lemma Equals_sealed (h : HeaderV1.Header) k : (CurrBatchBlocksLen h = [] \/ sum (CurrBatchBlocksLen h) <> 0) -> HeaderV1.Equals (mkHeader1 (all_sizes h) [] (HeaderV1.DictChecksum h) k) (Some h) = true.
Proof.
  intros Hc. unfold HeaderV1.Equals, all_sizes. cbn [HeaderV1.DictChecksum CurrBatchBlocksLen BatchSizes]. rewrite bool_decide_eq_true_2 by done. cbn [negb]. change (sum []) with 0. destruct Hc as [Hc|Hc].
  - rewrite Hc. cbn [length Z.of_nat Z.eqb negb]. rewrite app_nil_r. change (sum []) with 0. cbn [Z.eqb]. by rewrite bool_decide_eq_true_2.
  - rewrite (proj2 (Z.eqb_neq _ _)) by done. cbn [Z.eqb negb andb]. rewrite (proj2 (Z.eqb_neq (size _) 0)). 2: { destruct (CurrBatchBlocksLen h); [by contradict Hc|cbn [length]; lia]. } cbn [negb BatchSizes]. rewrite length_app. cbn [length]. rewrite (proj2 (Z.eqb_eq _ _)) by lia. cbn [negb].
    rewrite take_app_length, bool_decide_eq_true_2 by done. rewrite lookup_app_r, Nat.sub_diag by lia. by rewrite bool_decide_eq_true_2.
Qed.

(** ** Batches *)

(** The sealed batches and the blocks of the current one. *)
Abbreviation content1 := (list (list (list Z)) * list (list Z))%type.

Definition batches (B : content1) : list (list (list Z)) := B.1 ++ (if decide (B.2 = []) then [] else [B.2]).
Definition text_of (B : content1) : list Z := concat (concat B.1) ++ concat B.2.
Definition sizes_of (B : content1) : list Z := (fun b => size (concat b)) <$> batches B.

Definition with_block (b : list Z) (B : content1) : content1 := (B.1, B.2 ++ [b]).
Definition sealed (B : content1) : content1 := (batches B, []).

Lemma concat_batches B : concat (concat (batches B)) = text_of B.
Proof. unfold batches, text_of. rewrite !concat_app. f_equal. case_decide as Hd; [by rewrite Hd|]. cbn. by rewrite app_nil_r. Qed.

Lemma concat_batches_blocks B : concat (batches B) = concat B.1 ++ B.2.
Proof. unfold batches. rewrite concat_app. f_equal. case_decide as Hd; [by rewrite Hd|]. cbn. by rewrite app_nil_r. Qed.

Lemma text_with_block b B : text_of (with_block b B) = text_of B ++ b.
Proof. unfold text_of, with_block. cbn [fst snd]. by rewrite concat_snoc, app_assoc. Qed.

Lemma batches_with_block b B : size (batches (with_block b B)) <= size (batches B) + 1 /\ batches (with_block b B) <> [].
Proof. unfold batches, with_block. cbn [fst snd]. rewrite decide_False by (by destruct B.2). rewrite !length_app. cbn [length]. split; [lia|by destruct B.1]. Qed.

Lemma batches_sealed B : batches (sealed B) = batches B.
Proof. unfold sealed. unfold batches at 1. cbn [fst snd]. rewrite decide_True by done. by rewrite app_nil_r. Qed.

Lemma text_sealed B : text_of (sealed B) = text_of B.
Proof. by rewrite <- (concat_batches (sealed B)), batches_sealed, concat_batches. Qed.

(** ** Scanning a text *)

(** A block whose end the scanner finds. *)
Definition scannable (b : list Z) : Prop := 0 < size b /\ forall r, size (b ++ r) < 2 ^ 63 -> ScanBlockByteLen (b ++ r) = Ok (size b).

Lemma scan_batch_ok {E} bs pre post fuel :
  Forall scannable bs -> size (pre ++ concat bs ++ post) < 2 ^ 63 -> (length bs <= fuel)%nat -> scan_batch (E := E) fuel (pre ++ concat bs ++ post) (size pre) (size pre + size (concat bs)) = Ok (bs, size pre + size (concat bs)).
Proof.
  intros Hbs. revert pre fuel. induction Hbs as [|b bs [Hpos Hb] _ IH]; intros pre fuel Hsz Hf.
  - cbn [concat app length]. destruct fuel; cbn [scan_batch]; rewrite (proj2 (Z.ltb_ge _ _)) by lia; cbn [negb]; do 2 f_equal; lia.
  - destruct fuel as [|fuel]; [cbn [length] in Hf; lia|]. cbn [concat] in Hsz |- *. rewrite <- app_assoc in Hsz |- *. rewrite !length_app in Hsz. cbn [scan_batch]. rewrite length_app. rewrite (proj2 (Z.ltb_lt _ _)) by lia. cbn [negb]. rewrite slice_in by (rewrite ?length_app; lia). rewrite Nat2Z.id, drop_app_length. rewrite take_ge by (rewrite !length_app; lia). cbn [mbind outcome_bind].
    rewrite Hb by (rewrite !length_app; lia). cbn [map_err mbind outcome_bind]. rewrite slice_in by (rewrite ?length_app; lia). rewrite Nat2Z.id, drop_app_length. replace (Z.to_nat (size pre + size b - size pre)) with (length b) by lia. rewrite take_app_length. cbn [mbind outcome_bind].
    specialize (IH (pre ++ b) fuel). rewrite !length_app, <- !app_assoc in IH. replace (size pre + size b) with (Z.of_nat (length pre + length b)) by lia. replace (size pre + Z.of_nat (length b + length (concat bs))) with (Z.of_nat (length pre + length b) + size (concat bs)) by lia. cbn [length] in Hf. rewrite IH by lia. done.
Qed.

Lemma scan_batches_ok {E} Bs pre : Forall (Forall scannable) Bs -> size (pre ++ concat (concat Bs)) < 2 ^ 63 -> scan_batches (E := E) (pre ++ concat (concat Bs)) (size pre) ((fun b => size (concat b)) <$> Bs) = Ok (concat Bs).
Proof.
  intros HB. revert pre. induction HB as [|b Bs Hb _ IH]; intros pre Hsz; [done|]. cbn [fmap list_fmap concat scan_batches] in *. rewrite concat_app in *. rewrite !length_app in Hsz. rewrite scan_batch_ok; [|done|rewrite !length_app; lia|].
  2: { rewrite !length_app. assert (length b <= length (concat b))%nat; [|lia]. clear -Hb. induction Hb as [|x b [Hx _] _ IH]; [done|]. cbn [concat length]. rewrite length_app. lia. }
  cbn [mbind outcome_bind]. rewrite Z.eqb_refl. cbn [require mbind outcome_bind]. specialize (IH (pre ++ concat b)). rewrite !length_app, <- !app_assoc in IH. fold (fmap (M := list) (fun b : list (list Z) => size (concat b)) Bs). replace (size pre + size (concat b)) with (Z.of_nat (length pre + length (concat b))) by lia. rewrite IH by lia. done.
Qed.

Section Maker1Theorems.
Context {W R : Type} `{BitIoLaws W R} `{DictHashLaws} `{RlpLaws} `{GethLaws} `{BlockRlp} {C E : Type} `{CompressorOps C E} (dict : list Z) `{!CompressorLaws C E dict}.
Context (v : Z) (cs : list Z) (Hv : 1 <= v <= 2) (Hcs : Checksum (W := W) (R := R) dict v = Ok cs).
Abbreviation maker1 := (BlobMaker1 C).
Abbreviation ok_c := (c_ok (dict := dict)).
Abbreviation undo_c := (c_undo (dict := dict)).

Definition header_of (B : content1) : list Z := header1_bytes v cs (sizes_of B).

(** The blob is empty, or holds the header and the text of the accepted blocks. *)
Definition blob1_ok (bm : maker1) (B : content1) : Prop :=
  (currentBlob1 bm = [] /\ batches B = []) \/
  exists body, sizes_ok (sizes_of B) /\ enc_PackAlign (R := R) (header_of B) PackingSizeU256 [WithAdditionalInput [body]] = Ok (currentBlob1 bm) /\ Forall is_byte body /\ c_Decompress body dict = Ok (text_of B).

(** The header and the content. *)
Definition header_is (h : HeaderV1.Header) (B : content1) : Prop :=
  h = mkHeader1 ((fun b => size (concat b)) <$> B.1) ((fun x => size x) <$> B.2) cs v.

Record bm1_ok (bm : maker1) (B : content1) : Prop := {
  ok1_limit : Limit bm <= MaxUsableBytes;
  ok1_compressor : ok_c (compressor1 bm);
  ok1_text : c_WrittenBytes (compressor1 bm) = text_of B;
  ok1_text_size : size (text_of B) <= MaxUncompressedBytes;
  ok1_header : header_is (header1 bm) B;
  ok1_version : version bm = v;
  ok1_blocks : Forall scannable (concat B.1 ++ B.2);
  ok1_header_size : 36 + 3 * size (batches B) <= MaxUsableBytes;
  ok1_store : dictStore1 bm = replicate (Z.to_nat v) None ++ [Some {[cs := dict]}];
  ok1_blob_size : size (currentBlob1 bm) <= Z.max 0 (Limit bm);
  ok1_blob : blob1_ok bm B
}.

Lemma checksum32 : length cs = 32%nat /\ Forall is_byte cs.
Proof.
  revert Hcs. unfold Checksum. destruct (v =? 2); [|destruct (v =? 1); [|destruct (v =? 0); [|done]]]; unfold Poseidon2ChecksumPackedData, MiMCChecksumPackedData; [| |intros [= <-]; apply checksum_bytes].
  all: destruct (PackData _ _ _) as [b|e|]; try done; intros [= <-]; first [apply poseidon2_bytes|apply mimc_bytes].
Qed.

Lemma header_all_sizes h B : header_is h B -> all_sizes h = sizes_of B.
Proof.
  intros ->. unfold all_sizes, sizes_of, batches. cbn [BatchSizes CurrBatchBlocksLen]. rewrite fmap_app, length_fmap. f_equal. destruct B.2 as [|b l]; [done|]. rewrite decide_False by done. cbn [length]. rewrite (proj2 (Z.eqb_neq _ _)) by lia. cbn [negb]. by rewrite sum_sizes.
Qed.

Lemma size_header_of B : size (header_of B) = 36 + 3 * size (batches B).
Proof.
  unfold header_of, header1_bytes, sizes_of. rewrite !length_app, !length_be_bytes, (proj1 checksum32). assert (forall l, length (concat (be_bytes 3 <$> l)) = (3 * length l)%nat) as Hlen. { intros l. induction l as [|x l IH]; [done|]. cbn [fmap list_fmap concat length]. fold (fmap (M := list) (be_bytes 3) l). rewrite length_app, length_be_bytes, IH. lia. }
  rewrite Hlen, length_fmap. lia.
Qed.

Lemma header_of_bytes B : Forall is_byte (header_of B).
Proof.
  unfold header_of, header1_bytes. repeat (apply Forall_app; split); [apply be_bytes_bytes|apply checksum32|apply be_bytes_bytes|]. apply Forall_concat, Forall_fmap, Forall_true. intros x. apply be_bytes_bytes.
Qed.

Lemma sizes_small B : 36 + 3 * size (batches B) <= MaxUsableBytes + 3 -> size (text_of B) < 2 ^ 24 -> sizes_ok (sizes_of B).
Proof.
  unfold MaxUsableBytes. intros Hn Ht. unfold sizes_of. split; [rewrite length_fmap; lia|]. apply Forall_fmap, Forall_forall. intros b Hin. cbn. rewrite <- concat_batches in Ht. apply list_elem_of_split in Hin as (B1 & B2 & EB). rewrite EB, !concat_app in Ht. cbn [concat] in Ht. rewrite !concat_app, !length_app in Ht. lia.
Qed.

Lemma text_bytes bm B : bm1_ok bm B -> Forall is_byte (text_of B).
Proof. intros Hok. rewrite <- (ok1_text _ _ Hok). apply (c_bytes (dict := dict)), (ok1_compressor _ _ Hok). Qed.

Lemma on_compressor1_run {A} (m : method C E A) (bm : maker1) c a : m (compressor1 bm) = (c, Ok a) -> on_compressor1 m bm = (set_compressor1 bm c, Ok a).
Proof. intros Hm. unfold on_compressor1, field. by rewrite Hm. Qed.

Lemma on_header1_run f (bm : maker1) h : f (header1 bm) = Ok h -> on_header1 (E := E) f bm = (set_header1 bm h, Ok tt).
Proof. intros Hf. unfold on_header1. rewrite (bind_run get _ _ _ _ eq_refl). by rewrite (bind_call _ _ _ h Hf). Qed.

(** ** Sealing and resetting *)

Lemma seal_is h B : header_is h B -> header_is (sealBatch h) (sealed B).
Proof.
  intros ->. unfold header_is, sealBatch, sealed. cbn [BatchSizes CurrBatchBlocksLen fst snd]. rewrite length_fmap. unfold batches. destruct B.2 as [|b l]; [cbn; by rewrite app_nil_r|]. rewrite decide_False by done. cbn [length]. rewrite (proj2 (Z.eqb_neq _ _)) by lia. cbn [negb]. rewrite fmap_app. cbn [fmap list_fmap]. rewrite <- (sum_sizes (b :: l)). done.
Qed.

Lemma StartNewBatch1_ok bm B : bm1_ok bm B -> bm1_ok (StartNewBatch bm) (sealed B).
Proof.
  intros [K1 K2 K3 K4 K5 K6 K7 K8 K9 K10 K11]. unfold StartNewBatch. split; cbn [set_header1 Limit compressor1 header1 version dictStore1 currentBlob1]; rewrite ?text_sealed, ?batches_sealed; try done.
  - by apply seal_is.
  - cbn [sealed fst snd]. by rewrite app_nil_r, concat_batches_blocks.
  - unfold blob1_ok, header_of, sizes_of. cbn [set_header1 currentBlob1]. unfold blob1_ok, header_of, sizes_of in K11. by rewrite text_sealed, batches_sealed.
Qed.

Lemma empty1_ok (lim : Z) c d : lim <= MaxUsableBytes -> ok_c c -> c_WrittenBytes c = [] -> bm1_ok (mkBlobMaker1 lim c d (replicate (Z.to_nat v) None ++ [Some {[cs := dict]}]) v (mkHeader1 [] [] cs v) []) ([], []).
Proof.
  intros Hl Hc Ht. split; cbn [Limit compressor1 header1 dictStore1 version currentBlob1]; try done; [cbn; lia|by left].
Qed.

Lemma Reset1_ok bm B : bm1_ok bm B -> bm1_ok (Reset bm) ([], []).
Proof.
  intros Hok. destruct (c_reset (dict := dict) (compressor1 bm) (ok1_compressor _ _ Hok)) as [Hc Ht]. pose proof (ok1_header _ _ Hok) as Hh. pose proof (ok1_store _ _ Hok) as Hs. pose proof (ok1_version _ _ Hok) as Hver. pose proof (ok1_limit _ _ Hok) as Hl. destruct bm as [lim c d s w h blob]. cbn in *. rewrite Hh. subst. by apply empty1_ok.
Qed.

Lemma NewVersioned_ok lim file : lim <= MaxUsableBytes -> dict = c_AugmentDict file -> size (c_AugmentDict dict) <= MaxDictSize -> exists bm, NewVersionedBlobMaker (W := W) (R := R) (C := C) (E := E) v lim (Some file) = Ok bm /\ bm1_ok bm ([], []) /\ Limit bm = lim.
Proof.
  intros Hl Hd Hsz. destruct (c_new (dict := dict) Hsz) as (c & Ec & Hc & Ht). unfold NewVersionedBlobMaker. cbn [mbind outcome_bind]. rewrite <- Hd. unfold SingletonStore, assert_. rewrite uwrap_small by (unfold is_u; lia). rewrite (proj2 (Z.ltb_lt _ _)) by lia. cbn [mbind outcome_bind]. rewrite Hcs. cbn [map_err mbind outcome_bind]. rewrite Ec. cbn [map_err mbind outcome_bind]. eexists. split; [done|].
  assert (copy_32 cs = cs) as ->. { unfold copy_32. rewrite (proj1 checksum32), Nat.sub_diag. cbn [replicate]. rewrite app_nil_r. apply take_ge. by rewrite (proj1 checksum32). } split; [|done]. by apply empty1_ok.
Qed.

(** ** Writing *)

(** The state before the block [b] is accepted or taken back. *)
Record pending1 (bm bm0 : maker1) (B : content1) (b : list Z) : Prop := {
  pd1_limit : Limit bm = Limit bm0;
  pd1_store : dictStore1 bm = dictStore1 bm0;
  pd1_version : version bm = version bm0;
  pd1_blob : currentBlob1 bm = currentBlob1 bm0;
  pd1_compressor : ok_c (compressor1 bm);
  pd1_text : c_WrittenBytes (compressor1 bm) = text_of B ++ b;
  pd1_header : header_is (header1 bm) (with_block b B)
}.

Lemma remove_is h B b : header_is h (with_block b B) -> exists h', HeaderV1.removeLastBlock (E := blob1_error E) h = Ok h' /\ header_is h' B.
Proof.
  intros ->. unfold HeaderV1.removeLastBlock, with_block. cbn [CurrBatchBlocksLen fst snd]. rewrite slice_in by (rewrite length_fmap, length_app; cbn [length]; lia). rewrite drop_0, fmap_app, length_app. cbn [mbind outcome_bind fmap list_fmap length]. eexists. split; [done|]. unfold header_is, set_current. cbn [BatchSizes HeaderV1.DictChecksum Version]. f_equal.
  fold (fmap (M := list) (fun x : list Z => size x) B.2). replace (Z.to_nat _) with (length ((fun x : list Z => size x) <$> B.2)) by (rewrite length_fmap; lia). apply take_app_length.
Qed.

Lemma back_ok bm bm0 B b c h : bm1_ok bm0 B -> pending1 bm bm0 B b -> ok_c c -> c_WrittenBytes c = text_of B -> header_is h B -> bm1_ok (set_compressor1 (set_header1 bm h) c) B.
Proof.
  intros [K1 K2 K3 K4 K5 K6 K7 K8 K9 K10 K11] [P1 P2 P3 P4 P5 P6 P7] Hc Ht Hh. split; cbn [set_compressor1 set_header1 Limit compressor1 header1 version dictStore1 currentBlob1]; rewrite ?P1, ?P2, ?P3, ?P4; try done.
  unfold blob1_ok. cbn [set_compressor1 set_header1 currentBlob1]. by rewrite P4.
Qed.

Lemma text_fits B b bm0 : bm1_ok bm0 B -> size b <= MaxInputSize - MaxUncompressedBytes -> size (text_of B ++ b) <= MaxInputSize.
Proof. intros Hok Hb. pose proof (ok1_text_size _ _ Hok). rewrite length_app. lia. Qed.

Lemma revert_ok rec bm bm0 B b :
  bm1_ok bm0 B -> pending1 bm bm0 B b -> (rec = false -> undo_c (compressor1 bm) (text_of B)) -> exists bm', revert (E := E) rec (text_of B ++ b) (size (text_of B)) bm = (bm', Ok tt) /\ bm1_ok bm' B /\ Limit bm' = Limit bm0.
Proof.
  intros Hok Hp Hu. destruct (remove_is _ _ _ (pd1_header _ _ _ _ Hp)) as (h & Eh & Hh). unfold revert. rewrite (bind_run _ _ _ _ _ (on_header1_run _ _ _ Eh)). pose proof (pd1_limit _ _ _ _ Hp) as Hl. destruct rec; cbn [negb].
  - destruct (c_reset (dict := dict) _ (pd1_compressor _ _ _ _ Hp)) as [Hc0 Ht0]. rewrite (bind_run _ _ _ (set_compressor1 (set_header1 bm h) (c_Reset (compressor1 bm))) tt) by done.
    rewrite (bind_call _ _ _ (text_of B)). 2: { rewrite slice_in by (rewrite ?length_app; lia). rewrite drop_0, Z.sub_0_r, Nat2Z.id. by rewrite take_app_length. }
    destruct (c_write (dict := dict) _ (text_of B) Hc0 (text_bytes _ _ Hok)) as (c' & Ew & Hc' & Ht' & _); [rewrite Ht0; cbn [length]; pose proof (ok1_text_size _ _ Hok); unfold MaxInputSize, MaxUncompressedBytes in *; lia|].
    eexists. split; [by apply on_compressor1_run|]. split; [|done]. apply (back_ok bm bm0 B b c' h); try done. by rewrite Ht', Ht0.
  - destruct (c_revert (dict := dict) _ _ (pd1_compressor _ _ _ _ Hp) (Hu eq_refl)) as (c' & Er & Hc' & Ht'). eexists. split; [by apply on_compressor1_run|]. split; [|done]. by apply (back_ok bm bm0 B b).
Qed.

Lemma fitsInBlob_run (bm : maker1) buf : fitsInBlob (E := E) buf bm = (bm, Ok (packed_size (size buf + size (c_Bytes (compressor1 bm))) <=? Limit bm)).
Proof. unfold fitsInBlob. rewrite (bind_run get _ _ _ _ eq_refl). rewrite (proj1 (c_sizes (dict := dict) (compressor1 bm))). rewrite (bind_call _ _ _ (packed_size (size buf + size (c_Bytes (compressor1 bm))))); [done|]. by rewrite PackAlignSize_none. Qed.

Lemma pending_set bm bm0 B b c : pending1 bm bm0 B b -> ok_c c -> c_WrittenBytes c = text_of B ++ b -> pending1 (set_compressor1 bm c) bm0 B b.
Proof. intros [] Hc Ht. by split. Qed.

Lemma make_fit_ok bm bm0 B b buf :
  bm1_ok bm0 B -> size b <= MaxInputSize - MaxUncompressedBytes -> pending1 bm bm0 B b -> undo_c (compressor1 bm) (text_of B) ->
  exists bm' r, make_fit (E := E) buf (text_of B ++ b) (size (text_of B)) bm = (bm', Ok r) /\
    match r with
    | None => bm1_ok bm' B /\ Limit bm' = Limit bm0
    | Some rec => pending1 bm' bm0 B b /\ (rec = false -> undo_c (compressor1 bm') (text_of B)) /\ packed_size (size buf + size (c_Bytes (compressor1 bm'))) <= Limit bm'
    end.
Proof.
  intros Hok Hb Hp Hu. unfold make_fit. rewrite (bind_run _ _ _ _ _ (fitsInBlob_run bm buf)). destruct (Z.leb_spec (packed_size (size buf + size (c_Bytes (compressor1 bm)))) (Limit bm)) as [Hle|_]; [by exists bm, (Some false)|].
  destruct (c_reset (dict := dict) _ (pd1_compressor _ _ _ _ Hp)) as [Hc0 Ht0]. rewrite (bind_run _ _ _ (set_compressor1 bm (c_Reset (compressor1 bm))) tt) by done.
  assert (Forall is_byte (text_of B ++ b)) as Hbytes by (rewrite <- (pd1_text _ _ _ _ Hp); apply (c_bytes (dict := dict)), (pd1_compressor _ _ _ _ Hp)).
  destruct (c_write (dict := dict) _ (text_of B ++ b) Hc0 Hbytes) as (c1 & Ew & Hc1 & Ht1 & _); [rewrite Ht0; pose proof (text_fits B b bm0 Hok Hb); cbn [length]; lia|]. rewrite Ht0 in Ht1. set (bm1 := set_compressor1 bm c1).
  assert (try_ (on_compressor1 (c_Write (text_of B ++ b))) (set_compressor1 bm (c_Reset (compressor1 bm))) = (bm1, @Ok (blob1_error E) (unit + blob1_error E) (inl tt))) as Et. { unfold try_. by rewrite (on_compressor1_run _ (set_compressor1 bm (c_Reset (compressor1 bm))) c1 tt Ew). }
  rewrite (bind_run _ _ _ _ _ Et). assert (pending1 bm1 bm0 B b) as Hp1 by (by apply pending_set). rewrite (bind_run _ _ _ _ _ (fitsInBlob_run bm1 buf)). destruct (Z.leb_spec (packed_size (size buf + size (c_Bytes (compressor1 bm1)))) (Limit bm1)) as [Hle|_]; [by exists bm1, (Some true)|].
  destruct (c_bypass (dict := dict) c1 Hc1) as (c2 & byp & Eb & Hc2 & Ht2 & _). set (bm2 := set_compressor1 bm1 c2). rewrite (bind_run _ _ _ _ _ (on_compressor1_run _ bm1 c2 byp Eb)). assert (pending1 bm2 bm0 B b) as Hp2 by (apply pending_set; [done|done|by rewrite Ht2]).
  assert (exists fit, (if byp then fitsInBlob (E := E) buf else mret false) bm2 = (bm2, Ok fit) /\ (fit = true -> packed_size (size buf + size (c_Bytes (compressor1 bm2))) <= Limit bm2)) as (fit & Ef & Hfit). { destruct byp; [|by exists false]. eexists. split; [apply fitsInBlob_run|lia]. }
  fold bm2. rewrite (bind_run _ _ _ _ _ Ef). destruct fit; [exists bm2, (Some true); split; [done|]; split; [done|]; split; [done|by apply Hfit]|].
  destruct (revert_ok true bm2 bm0 B b Hok Hp2 ltac:(done)) as (bm3 & Er & Hok3 & Hl3). exists bm3, None. by rewrite (bind_run _ _ _ _ _ Er).
Qed.

Lemma pending_sizes bm0 B b : bm1_ok bm0 B -> size b <= MaxInputSize - MaxUncompressedBytes -> sizes_ok (sizes_of (with_block b B)).
Proof.
  intros Hok Hb. pose proof (ok1_header_size _ _ Hok). pose proof (ok1_text_size _ _ Hok). pose proof (batches_with_block b B) as [Hn _]. apply sizes_small; [lia|]. rewrite text_with_block, length_app. unfold MaxInputSize, MaxUncompressedBytes in *. lia.
Qed.

Lemma accept1_ok bm bm0 B b out :
  bm1_ok bm0 B -> scannable b -> size b <= MaxInputSize - MaxUncompressedBytes -> pending1 bm bm0 B b -> size (text_of B ++ b) <= MaxUncompressedBytes -> packed_size (size (header_of (with_block b B)) + size (c_Bytes (compressor1 bm))) <= Limit bm ->
  enc_PackAlign (R := R) (header_of (with_block b B)) PackingSizeU256 [WithAdditionalInput [c_Bytes (compressor1 bm)]] = Ok out -> size out <= Limit bm -> bm1_ok (set_blob1 bm out) (with_block b B).
Proof.
  intros Hok Hscan Hb Hp Htxt Hfit Hpack Hsz. pose proof (pending_sizes bm0 B b Hok Hb) as Hso. destruct Hp as [P1 P2 P3 P4 P5 P6 P7]. pose proof (ok1_limit _ _ Hok) as Hl. split; cbn [set_blob1 Limit compressor1 header1 version dictStore1 currentBlob1]; rewrite ?text_with_block, ?P1, ?P2, ?P3; try done.
  - apply (ok1_version _ _ Hok).
  - cbn [with_block fst snd]. rewrite app_assoc. apply Forall_app. split; [apply (ok1_blocks _ _ Hok)|by constructor].
  - rewrite <- size_header_of. pose proof (packed_size_ge (size (header_of (with_block b B)) + size (c_Bytes (compressor1 bm)))). lia.
  - apply (ok1_store _ _ Hok).
  - lia.
  - right. exists (c_Bytes (compressor1 bm)). split; [done|]. split; [done|]. split; [by apply (c_bytes (dict := dict))|]. rewrite text_with_block, <- P6. by apply (c_decompress (dict := dict)).
Qed.

Lemma Write1_ok bm B rlp b :
  bm1_ok bm B -> block_bytes1 (E := E) rlp = Ok b -> Forall is_byte b -> scannable b -> size b <= MaxInputSize - MaxUncompressedBytes ->
  exists ok, forall force, exists bm', Write (R := R) rlp force bm = (bm', Ok ok) /\ bm1_ok bm' (if ok && negb force then with_block b B else B) /\ Limit bm' = Limit bm.
Proof.
  intros Hok Hbytes Hbb Hscan Hb. pose proof (ok1_text _ _ Hok) as Ht. pose proof (ok1_text_size _ _ Hok) as Hts. destruct (c_write (dict := dict) (compressor1 bm) b (ok1_compressor _ _ Hok) Hbb) as (c & Ew & Hc & Htc & Hu); [rewrite Ht; lia|]. rewrite Ht in Htc, Hu.
  set (bm1 := set_header1 (set_compressor1 bm c) (HeaderV1.addBlock (size b) (header1 bm))). assert (pending1 bm1 bm B b) as Hp. { split; try done. cbn [bm1 set_header1 set_compressor1 header1]. rewrite (ok1_header _ _ Hok). unfold header_is, HeaderV1.addBlock, set_current, with_block. cbn [BatchSizes CurrBatchBlocksLen HeaderV1.DictChecksum Version fst snd]. by rewrite fmap_app. }
  pose proof (pending_sizes bm B b Hok Hb) as Hso. pose proof (header_all_sizes _ _ (pd1_header _ _ _ _ Hp)) as Has. set (buf := header_of (with_block b B)).
  assert (HeaderV1.WriteTo (header1 bm1) = Ok buf) as Hw. { rewrite WriteTo1_ok; [|rewrite (pd1_header _ _ _ _ Hp); cbn [Version]; lia|by rewrite Has]. rewrite Has, (pd1_header _ _ _ _ Hp). done. }
  assert (size buf <= 2 ^ 32) as Hbuf. { unfold buf. rewrite size_header_of. pose proof (batches_with_block b B) as [Hn _]. pose proof (ok1_header_size _ _ Hok). unfold MaxUsableBytes in *. lia. }
  assert (size (text_of B ++ b) <= MaxInputSize) as Hin by (by apply (text_fits B b bm)).
  assert (forall force, Write (R := R) rlp force bm =
    (if MaxUncompressedBytes <? size (text_of B ++ b) + size buf then _ ← on_compressor1 c_Revert; _ ← on_header1 HeaderV1.removeLastBlock; mret false
     else fit ← make_fit buf (text_of B ++ b) (size (text_of B));
       match fit with
       | None => mret false
       | Some recompressed => if force : bool then _ ← revert recompressed (text_of B ++ b) (size (text_of B)); mret true
           else bm ← get;
             match enc_PackAlign (R := R) buf PackingSizeU256 [WithAdditionalInput [c_Bytes (compressor1 bm)]] with
             | Ok out => _ ← call (assert_ (size out <=? maxOutputSize)); _ ← modify (fun bm => set_blob1 bm out); mret true
             | Err e => _ ← revert recompressed (text_of B ++ b) (size (text_of B)); call (Err (PackError1 e))
             | Panic => call Panic
             end
       end) bm1) as Ewrite.
  { intros force. unfold Write. rewrite (bind_run get _ _ _ _ eq_refl), (bind_call _ _ _ b Hbytes). assert (try_ (on_compressor1 (c_Write b)) bm = (set_compressor1 bm c, @Ok (blob1_error E) (unit + blob1_error E) (inl tt))) as Et by (unfold try_; by rewrite (on_compressor1_run _ bm c tt Ew)). rewrite (bind_run _ _ _ _ _ Et).
    rewrite (bind_run _ _ (set_compressor1 bm c) bm1 tt) by done. rewrite (bind_run get _ _ _ _ eq_refl), Hw, bind_ret. rewrite !(proj2 (c_sizes (dict := dict) _)), Ht. change (compressor1 bm1) with c. rewrite Htc. rewrite uwrap_small by (unfold is_u, MaxInputSize in *; lia). done. }
  destruct (Z.ltb_spec MaxUncompressedBytes (size (text_of B ++ b) + size buf)) as [Hgt|Hle].
  { destruct (c_revert (dict := dict) c (text_of B) Hc Hu) as (c' & Er & Hc' & Ht'). destruct (remove_is _ _ _ (pd1_header _ _ _ _ Hp)) as (h & Eh & Hh). exists false. intros force. exists (set_compressor1 (set_header1 bm1 h) c'). split; [|split; [by apply (back_ok bm1 bm B b)|done]].
    rewrite Ewrite. rewrite (bind_run _ _ _ _ _ (on_compressor1_run _ bm1 c' tt Er)). by rewrite (bind_run _ _ _ _ _ (on_header1_run _ (set_compressor1 bm1 c') h Eh)). }
  destruct (make_fit_ok bm1 bm B b buf Hok Hb Hp Hu) as (bm2 & r & Em & Hr). destruct r as [rec|].
  - destruct Hr as (Hp2 & Hu2 & Hfit). destruct (revert_ok rec bm2 bm B b Hok Hp2 Hu2) as (bm3 & Er & Hok3 & Hl3). assert (Forall (Forall is_byte) [c_Bytes (compressor1 bm2)]) as Hcb by (constructor; [apply (c_bytes (dict := dict)), (pd1_compressor _ _ _ _ Hp2)|constructor]).
    destruct (enc_PackAlign_ok (W := W) (R := R) buf [c_Bytes (compressor1 bm2)] PackingSizeU256 [WithAdditionalInput [c_Bytes (compressor1 bm2)]] (initialize_ok _ _) packing_254 (header_of_bytes _) Hcb) as (out & Eo & Es & _). rewrite PackAlignSize_two in Es. injection Es as Es. pose proof (ok1_limit _ _ Hok) as Hl. rewrite <- (pd1_limit _ _ _ _ Hp2) in Hl.
    exists true. intros [|]; cbn [andb negb].
    + exists bm3. rewrite Ewrite, (bind_run _ _ _ _ _ Em). by rewrite (bind_run _ _ _ _ _ Er).
    + exists (set_blob1 bm2 out). rewrite Ewrite, (bind_run _ _ _ _ _ Em), (bind_run get _ _ _ _ eq_refl), Eo. rewrite (bind_call _ _ _ tt). 2: { unfold assert_. rewrite (proj2 (Z.leb_le _ _)); [done|]. unfold MaxUsableBytes, maxOutputSize in *. lia. }
      split; [done|]. split; [|apply (pd1_limit _ _ _ _ Hp2)]. apply (accept1_ok bm2 bm B b out); try done; [lia|]. lia.
  - destruct Hr as [Hok2 Hl2]. exists false. intros force. exists bm2. rewrite Ewrite, (bind_run _ _ _ _ _ Em). done.
Qed.

(** ** Reading a blob *)

Context (range : gmap (list Z) (list Z) -> list (list Z)).

Lemma Forall_batches B : Forall scannable (concat B.1 ++ B.2) -> Forall (Forall scannable) (batches B).
Proof. rewrite <- concat_batches_blocks. induction (batches B) as [|b Bs IH]; intros Hs; [constructor|]. cbn [concat] in Hs. apply Forall_app in Hs as [Hb Hs]. constructor; [done|by apply IH]. Qed.

Lemma DecompressBlobVersioned_ok B body blob s :
  sizes_ok (sizes_of B) -> enc_PackAlign (R := R) (header_of B) PackingSizeU256 [WithAdditionalInput [body]] = Ok blob -> Forall is_byte body -> c_Decompress body dict = Ok (text_of B) -> Forall scannable (concat B.1 ++ B.2) -> size (text_of B) <= MaxUncompressedBytes ->
  Get (W := W) (R := R) range cs v s = (s, Ok dict) ->
  DecompressBlobVersioned (W := W) (R := R) range v blob s = (s, @Ok (blob1_error E) _ (mkResponse (mkHeader1 (sizes_of B) [] cs v) (concat B.1 ++ B.2) (text_of B) dict)).
Proof.
  intros Hs Hpack Hb Hdec Hscan Ht Hget. set (hd := header_of B) in *. assert (Forall (Forall is_byte) [body]) as Hbb by (by constructor). destruct (enc_PackAlign_ok (W := W) (R := R) hd [body] PackingSizeU256 [WithAdditionalInput [body]] (initialize_ok _ _) packing_254 (header_of_bytes B) Hbb) as (out & E1 & _ & _ & E2). rewrite Hpack in E1. injection E1 as <-. cbn [concat] in E2. rewrite app_nil_r in E2.
  unfold DecompressBlobVersioned. rewrite (bind_call _ _ _ (hd ++ body)) by (by rewrite E2). assert (HeaderV1.ReadFrom v (hd ++ body) = Ok (mkHeader1 (sizes_of B) [] cs v, size hd)) as Er by (apply ReadFrom1_ok; [lia|apply checksum32|done]). rewrite (bind_call _ _ _ (mkHeader1 (sizes_of B) [] cs v, size hd)) by (by rewrite Er). cbv beta iota.
  rewrite (bind_run _ _ s s dict) by (unfold field; cbn [HeaderV1.DictChecksum id]; by rewrite Hget). rewrite (bind_call _ _ _ body). 2: { rewrite slice_in by (rewrite ?length_app; lia). rewrite Nat2Z.id, drop_app_length. f_equal. apply take_ge. rewrite length_app. lia. }
  rewrite (bind_call _ _ _ (text_of B)) by (by rewrite Hdec). rewrite (bind_call _ _ _ (concat B.1 ++ B.2)). 2: { cbn [BatchSizes]. rewrite <- concat_batches, <- concat_batches_blocks. apply (scan_batches_ok (batches B) []); [by apply Forall_batches|]. cbn [app]. rewrite concat_batches. unfold MaxUncompressedBytes in Ht. lia. }
  done.
Qed.

Lemma Get_store1 : Get (W := W) (R := R) range cs v (replicate (Z.to_nat v) None ++ [Some {[cs := dict]}]) = (replicate (Z.to_nat v) None ++ [Some {[cs := dict]}], Ok dict).
Proof. apply (get_hit range 1 _ _ {[cs := dict]}); [|lia|by rewrite lookup_singleton_eq]. rewrite lookup_app_r by (rewrite length_replicate; lia). by rewrite length_replicate, Nat.sub_diag. Qed.

(** The check of [Bytes] always passes. *)
Lemma Bytes1_ok bm B : bm1_ok bm B -> Bytes (W := W) (R := R) range bm = (bm, @Ok (blob1_error E) _ (currentBlob1 bm)).
Proof.
  intros Hok. unfold Bytes. rewrite (bind_run get _ bm bm bm eq_refl). destruct (Z.ltb_spec 0 (size (currentBlob1 bm))) as [Hpos|Hz]; [|by rewrite (bind_run _ _ bm bm tt eq_refl)].
  destruct (ok1_blob _ _ Hok) as [[Hnil _]|(body & Hs & Hpack & Hb & Hdec)]; [rewrite Hnil in Hpos; cbn in Hpos; lia|].
  pose proof (DecompressBlobVersioned_ok B body (currentBlob1 bm) _ Hs Hpack Hb Hdec (ok1_blocks _ _ Hok) (ok1_text_size _ _ Hok) Get_store1) as Ed. rewrite <- (ok1_store _ _ Hok) in Ed. rewrite <- (ok1_version _ _ Hok) in Ed at 1. set (resp := mkResponse _ _ _ _) in Ed.
  etransitivity; [apply (bind_run _ _ bm bm tt)|done]. rewrite (bind_run _ _ bm bm (dictStore1 bm, Ok resp)) by (by rewrite Ed). cbv beta iota. rewrite (bind_run _ _ bm bm tt) by (unfold modify; by destruct bm). rewrite (bind_call _ _ _ resp) by done.
  rewrite (bind_call _ _ _ tt). 2: { pose proof (ok1_header _ _ Hok) as Hh. cbn [resp resp_Header]. rewrite <- (header_all_sizes _ _ Hh). assert (cs = HeaderV1.DictChecksum (header1 bm)) as Ecs by (by rewrite Hh). rewrite Ecs at 1. rewrite Equals_sealed; [done|]. rewrite Hh. cbn [CurrBatchBlocksLen]. destruct B as [S cur]. cbn [snd fst].
    destruct cur as [|b cur]; [by left|right]. rewrite sum_sizes. pose proof (ok1_blocks _ _ Hok) as Hbl. cbn [fst snd] in Hbl. apply Forall_app in Hbl as [_ Hbl]. apply Forall_cons in Hbl as [[Hpb _] _]. cbn [concat]. rewrite length_app. lia. }
  unfold call. cbn [resp resp_RawPayload]. by rewrite (ok1_text _ _ Hok), bool_decide_eq_true_2.
Qed.
End Maker1Theorems.
