(* ===== verification/Blob.v ===== *)
(** The entry point of the decompressor: [prover/lib/compressor/blob/blob.go].

    The version of a blob is read from its first bytes, which hold the start of the header
    in packed form. *)
From S2P Require Import Prelude BitIo GoState PackAlign PackTheorems TxEncoding BlockData BlockV0 BlockV1 Dictionary Compressors HeaderV0 HeaderV1 BlobMakerV0 BlobMakerV1.

Inductive top_error (E0 E1 : Type) :=
| V0Error (e : blob_error E0)
| V1Error (e : blob1_error E1)
| BlockError (e : block_error)
| StdBlockError
| UnrecognizedBlobVersion.
Arguments V0Error {E0 E1} _.
Arguments V1Error {E0 E1} _.
Arguments BlockError {E0 E1} _.
Arguments StdBlockError {E0 E1}.
Arguments UnrecognizedBlobVersion {E0 E1}.

Definition GetVersion {E} (blob : list Z) : outcome E Z :=
  if size blob <? 3 then Ok 0 else
  b0 ← at_ blob 0;
  b1 ← at_ blob 1;
  b2 ← at_ blob 2;
  Ok (if (b0 =? 63) && (b1 =? 255) then 4 - (b2 ≫ 6) else 0).

(** [rlp.EncodeToBytes] of a [types.Block]. *)
Class StdRlp := { rlp_EncodeStd : StdBlock -> option (list Z) }.

Section Top.
Context {W R : Type} `{BitIo W R} `{DictHash} `{Rlp} `{Geth} `{StdRlp}.
Context {C0 E0 C1 E1 : Type} `{CompressorOps C0 E0} `{CompressorOps C1 E1}.
Context (range : gmap (list Z) (list Z) -> list (list Z)) (spare : list Z -> list Z).
Abbreviation top := (method Store (top_error E0 E1)).

(** A block is decoded, and encoded again as [rlp] encodes blocks. *)
Definition reencode (decoder : list Z -> outcome block_error DecodedBlockData) (block : list Z) : outcome (top_error E0 E1) (list Z) :=
  d ← map_err BlockError (decoder block);
  std ← ToStd d;
  match rlp_EncodeStd std with Some b => Ok b | None => Err StdBlockError end.

Definition DecodeV1 (block : list Z) : outcome block_error DecodedBlockData := '(d, _) ← BlockV1.DecodeBlockFromUncompressed block; Ok d.

Definition DecompressBlob (blob : list Z) : top (list Z) :=
  vsn ← call (GetVersion blob);
  '(blocks, decoder) ← (if vsn =? 0 then
      r ← field id (fun _ s => s) V0Error (BlobMakerV0.DecompressBlob (W := W) (R := R) (C := C0) (E := E0) range spare blob);
      mret (r.2, BlockV0.DecodeBlockFromUncompressed)
    else if vsn =? 1 then
      r ← field id (fun _ s => s) V1Error (BlobMakerV1.DecompressBlob (W := W) (R := R) (C := C1) (E := E1) range blob);
      mret (resp_Blocks r, DecodeV1)
    else if vsn =? 2 then
      r ← field id (fun _ s => s) V1Error (DecompressBlob_v2 (W := W) (R := R) (C := C1) (E := E1) range blob);
      mret (resp_Blocks r, DecodeV1)
    else call (Err UnrecognizedBlobVersion));
  blocksSerialized ← call (mapM_ (reencode decoder) blocks);
  mret (rlp_Encode (Lst (Str <$> blocksSerialized))).
End Top.

(** ** The version *)

Section VersionTheorems.
Context {W R : Type} `{BitIoLaws W R}.

(** The first word of packed data. *)
Lemma PackAlign_first a p opts data out :
  packing_ok p -> initialize (size a) opts = Ok (mkSettings ((size a + size (concat data) + 1) * 8) 0 false data) -> Forall is_byte a -> Forall (Forall is_byte) data -> 8 <= size a -> enc_PackAlign (R := R) a p opts = Ok out ->
  exists rest, out = be_bytes 8 (bits_value (take (Z.to_nat (last_u64 p)) (bits_of_bytes a))) ++ rest.
Proof.
  intros Hp Hini Ha Hd Hsz Hout. pose proof (words_ok p Hp) as (HW & _). unfold enc_PackAlign in Hout. rewrite Hini in Hout. cbn [mbind outcome_bind dataNbBits lastByteNbUnusedBits noTerminalSymbol additionalInput negb andb Z.eqb require] in Hout. destruct Hp as [Hp1 _].
  set (nb := size a + size (concat data) + 1) in *. destruct (round_up (nb * 8) p ltac:(lia) ltac:(lia)) as (q & Eq & Hq & _). rewrite Eq, Z.div_mul in Hout by lia. assert (1 <= q) by nia. destruct (slice _ _ _) as [pad|e|] eqn:Es in Hout; [|done|done]. cbn [mbind outcome_bind] in Hout.
  assert (Forall is_byte pad) as Hpad. { unfold slice in Es. destruct (_ && _) in Es; [|done]. injection Es as <-. apply Forall_take. change (drop (Z.to_nat 0) ?l) with l. constructor; [done|]. by apply Forall_replicate. }
  destruct (Z.to_nat q) as [|n] eqn:En; [lia|]. unfold words in *. cbn [read_elements read_words] in Hout. set (r := br_new _) in Hout. assert (Forall is_byte (a ++ concat data ++ pad)) as Hall by (repeat (apply Forall_app; split); [done|by apply Forall_concat|done]).
  destruct (br_new_bits (a ++ concat data ++ pad) Hall) as [Hbits Herr]. fold r in Hbits, Herr. apply Forall_cons in HW as [HW _]. destruct (br_read_bits r (last_u64 p) HW Herr) as (Hval & _); [rewrite Hbits, length_bits_of_bytes, length_app; lia|].
  destruct (br_read r (last_u64 p)) as [val r1]. cbn [fst] in Hval. rewrite Hbits, bits_of_bytes_app, take_app_le in Hval by (rewrite length_bits_of_bytes; lia). rewrite <- Hval. destruct (read_words _ r1) as [o1 r2]. destruct (read_elements n _ r2) as [o2 r3]. destruct (negb _); cbn [require mbind outcome_bind] in Hout; [|done].
  destruct (enc_PackAlignSize _ _ _) as [sz|e|]; try done. cbn [mbind outcome_bind] in Hout. destruct (_ =? sz); [|done]. injection Hout as <-. rewrite <- app_assoc. by eexists.
Qed.

#[local] Transparent be_bytes.
Lemma be_bytes_3 x : exists rest, be_bytes 8 x = [x / 2 ^ 56 mod 256; x / 2 ^ 48 mod 256; x / 2 ^ 40 mod 256] ++ rest.
Proof.
  exists (be_bytes 5 x). unfold be_bytes. apply (inj reverse). rewrite reverse_app, !reverse_involutive. cbn [le_bytes]. change (reverse [?a; ?b; ?c]) with [c; b; a]. cbn [app]. rewrite !Z.div_div by lia. done.
Qed.
#[local] Opaque be_bytes.

(** The first bits of the header of version [v] tell the version. *)
Lemma GetVersion_word {E} v m rest : 1 <= v <= 2 -> length m = 46%nat -> GetVersion (E := E) (be_bytes 8 (bits_value (bits_of_bytes (be_bytes 2 (65536 - v)) ++ m)) ++ rest) = Ok v.
Proof.
  intros Hv Hm. rewrite bits_value_app, Hm. pose proof (bits_value_range m) as Hr. rewrite Hm in Hr. assert (bits_value (bits_of_bytes (be_bytes 2 (65536 - v))) = 65536 - v) as ->. { assert (v = 1 \/ v = 2) as [-> | ->] by lia; reflexivity. }
  set (x := (65536 - v) * 2 ^ Z.of_nat 46 + bits_value m). destruct (be_bytes_3 x) as (r & ->). unfold GetVersion. cbn [app length]. rewrite (proj2 (Z.ltb_ge _ _)) by lia. fields.
  change (2 ^ Z.of_nat 46) with (2 ^ 46) in *. assert (x / 2 ^ 56 mod 256 = 63) as -> by (unfold x; golia). assert (x / 2 ^ 48 mod 256 = 255) as -> by (unfold x; golia). cbn [Z.eqb andb Pos.eqb]. rewrite Z.shiftr_div_pow2 by lia. f_equal. unfold x. golia.
Qed.
End VersionTheorems.
