(* ===== verification/BlobResults.v ===== *)
(** The theorems on the blobs of the versions 1 and 2: from the blocks that are written to
    the blocks that are read from the blob, and a blob on which the decompressor does not
    end. *)
From S2P Require Import Prelude BitIo GoState SuffixArray Lzss LzssState PackAlign PackTheorems TxEncoding RlpCodec BlockData BlockV0 BlockV1 BlockResults Dictionary Compressors HeaderV0 HeaderV1 BlobMakerV0 BlobMakerTheorems BlobMakerResults BlobMakerV1 BlobMaker1Theorems Blob.

Section Results.
Context {W R : Type} `{BitIoLaws W R} `{DictHashLaws} `{RlpLaws} `{GethLaws} `{BlockRlp} `{StdRlp}.
Context {C0 E0 C E : Type} `{CompressorOps C0 E0} `{CompressorOps C E}.
Context (range : gmap (list Z) (list Z) -> list (list Z)) (spare : list Z -> list Z).

(** The batches of written blocks after an operation, of which the answer is known. *)
Definition next1 (A : content1) (oa : maker_op * bool) : content1 :=
  match oa with
  | (OpWriteBlock rlp forceReset, answer) => if answer && negb forceReset then with_block rlp A else A
  | (OpNewBatch, _) => sealed A
  | (OpResetMaker, _) => ([], [])
  end.

Definition run_maker1_op (o : maker_op) : method (BlobMaker1 C) (blob1_error E) bool :=
  match o with
  | OpWriteBlock rlp forceReset => Write (R := R) rlp forceReset
  | OpNewBatch => _ ← modify StartNewBatch; mret true
  | OpResetMaker => _ ← modify Reset; mret true
  end.

Fixpoint run_maker1 (ops : list maker_op) : method (BlobMaker1 C) (blob1_error E) (list bool) :=
  match ops with
  | [] => mret []
  | o :: ops => a ← run_maker1_op o; answers ← run_maker1 ops; mret (a :: answers)
  end.

(** What is read of a block: its hash in place of the hash of its parent, its time, and
    its transactions with the sender in place of the signature. *)
Definition read_back (rlp out : list Z) : Prop :=
  exists block ds, rlp_Block rlp = Some block /\ block_ok block ds /\
    rlp_EncodeStd (mkStdBlock (bl_Hash block) (bl_Time block) (zip_with InjectFromAddressIntoR ds.*1 ds.*2)) = Some out.

(** The bytes of a written block. *)
Definition block_of (rlp : list Z) : list Z := match block_bytes1 (E := E) rlp with Ok b => b | _ => [] end.

(** A block that may be written. *)
Definition op1_ok (o : maker_op) : Prop :=
  match o with
  | OpWriteBlock rlp _ => (exists out, read_back rlp out) /\ size (block_of rlp) <= MaxInputSize - MaxUncompressedBytes
  | _ => True
  end.

(** The bytes of a block are read back. *)
Lemma read_back_ok rlp out :
  read_back rlp out -> size (block_of rlp) <= MaxInputSize - MaxUncompressedBytes ->
  block_bytes1 (E := E) rlp = Ok (block_of rlp) /\ Forall is_byte (block_of rlp) /\ scannable (block_of rlp) /\ reencode (E0 := E0) (E1 := E) DecodeV1 (block_of rlp) = Ok out.
Proof.
  intros (block & ds & Er & Hb & Eo). destruct (EncodeBlock_v1_ok block ds [] Hb) as (enc & Ee & Hmin & Hdec). assert (block_bytes1 (E := E) rlp = Ok enc) as Hbb by (unfold block_bytes1; rewrite Er; cbn [mbind outcome_bind]; by rewrite Ee). unfold block_of. rewrite Hbb. intros Hsz. unfold MaxInputSize, MaxUncompressedBytes in Hsz. destruct Hdec as [Hbytes Hdec]; [lia|].
  split; [done|]. split; [done|]. split; [split; [lia|]; intros r Hr; by apply (Scan_ok block ds)|]. unfold reencode, DecodeV1. rewrite app_nil_r in Hdec. rewrite Hdec. cbn [mbind outcome_bind map_err]. unfold ToStd. cbn [Txs Froms BlockHash Timestamp]. rewrite inject_all_ok by (by rewrite !length_fmap). cbn [mbind outcome_bind]. by rewrite Eo.
Qed.

Definition enc_content (A : content1) : content1 := (fmap (M := list) (fmap (M := list) block_of) A.1, fmap (M := list) block_of A.2).

Lemma enc_with_block rlp A : enc_content (with_block rlp A) = with_block (block_of rlp) (enc_content A).
Proof. unfold enc_content, with_block. cbn [fst snd]. by rewrite fmap_app. Qed.

Lemma batches_enc A : batches (enc_content A) = fmap (M := list) (fmap (M := list) block_of) (batches A).
Proof. unfold batches, enc_content. cbn [fst snd]. rewrite fmap_app. f_equal. destruct A.2; [done|]. by rewrite !decide_False. Qed.

Lemma enc_sealed A : enc_content (sealed A) = sealed (enc_content A).
Proof. unfold sealed. rewrite batches_enc. done. Qed.

(** The blocks that were written and accepted can be read back. *)
Definition all_read (A : content1) : Prop := Forall (fun rlp => (exists out, read_back rlp out) /\ size (block_of rlp) <= MaxInputSize - MaxUncompressedBytes) (concat A.1 ++ A.2).

Lemma run_maker1_ok dict v cs `{!CompressorLaws C E dict} ops bm A :
  1 <= v <= 2 -> Checksum (W := W) (R := R) dict v = Ok cs -> bm1_ok (R := R) dict v cs bm (enc_content A) -> all_read A -> Forall op1_ok ops ->
  exists bm' answers, run_maker1 ops bm = (bm', Ok answers) /\ bm1_ok (R := R) dict v cs bm' (enc_content (foldl next1 A (zip ops answers))) /\ all_read (foldl next1 A (zip ops answers)) /\ Limit bm' = Limit bm.
Proof.
  intros Hv Hcs Hok Hall Hops. revert bm A Hok Hall. induction Hops as [|o ops Ho _ IH]; intros bm A Hok Hall; [by exists bm, []|].
  assert (exists bm1 a, run_maker1_op o bm = (bm1, Ok a) /\ bm1_ok (R := R) dict v cs bm1 (enc_content (next1 A (o, a))) /\ all_read (next1 A (o, a)) /\ Limit bm1 = Limit bm) as (bm1 & a & E1 & Hok1 & Hall1 & Hl1).
  { destruct o as [rlp force| |]; cbn [run_maker1_op next1].
    - destruct Ho as [[out Hout] Hs]. destruct (read_back_ok rlp out Hout Hs) as (Eb & Hbb & Hscan & _). destruct (Write1_ok dict v cs Hv Hcs bm (enc_content A) rlp (block_of rlp) Hok Eb Hbb Hscan Hs) as (ok & Hw). destruct (Hw force) as (bm1 & Ew & Hok1 & Hl1). exists bm1, ok. split; [done|].
      destruct (ok && negb force); [|done]. split; [by rewrite enc_with_block|]. split; [|done]. unfold all_read, with_block. cbn [fst snd]. rewrite app_assoc. apply Forall_app. split; [done|]. constructor; [|constructor]. split; [by exists out|done].
    - eexists _, true. split; [done|]. split; [rewrite enc_sealed; by apply (StartNewBatch1_ok dict v cs)|]. split; [|done]. unfold all_read, sealed. cbn [fst snd]. by rewrite app_nil_r, concat_batches_blocks.
    - eexists _, true. split; [done|]. split; [by apply (Reset1_ok dict v cs bm (enc_content A))|]. split; [by apply Forall_nil_2|done]. }
  destruct (IH bm1 _ Hok1 Hall1) as (bm' & answers & E2 & Hok2 & Hall2 & Hl2). exists bm', (a :: answers). split; [|split; [done|split; [done|congruence]]]. cbn [run_maker1]. by rewrite (bind_run _ _ _ _ _ E1), (bind_run _ _ _ _ _ E2).
Qed.

Lemma field_run {T E' E'' X} (w : E' -> E'') (m : method T E' X) (t t' : T) a : m t = (t', Ok a) -> field id (fun _ s => s) w m t = (t', Ok a).
Proof. intros Hm. unfold field. cbn [id]. by rewrite Hm. Qed.

(** The version of a blob that is made. *)
Lemma GetVersion_made dict v cs B body blob :
  1 <= v <= 2 -> Checksum (W := W) (R := R) dict v = Ok cs -> enc_PackAlign (R := R) (header_of v cs B) PackingSizeU256 [WithAdditionalInput [body]] = Ok blob -> Forall is_byte body -> GetVersion (E := top_error E0 E) blob = Ok v.
Proof.
  intros Hv Hcs Hpack Hb. pose proof (header_of_bytes dict v cs Hcs B) as Hh. pose proof (size_header_of dict v cs Hcs B) as Hsz. destruct (PackAlign_first (header_of v cs B) PackingSizeU256 [WithAdditionalInput [body]] [body] blob packing_254 (initialize_ok _ _) Hh (Forall_cons_2 _ _ _ Hb (Forall_nil_2 _)) ltac:(lia) Hpack) as (rest & ->).
  change (Z.to_nat (last_u64 PackingSizeU256)) with 62%nat. unfold header_of, header1_bytes. rewrite bits_of_bytes_app. rewrite take_app_ge by (rewrite length_bits_of_bytes, length_be_bytes; lia). rewrite length_bits_of_bytes, length_be_bytes. apply GetVersion_word; [done|].
  rewrite length_take, length_bits_of_bytes, !length_app, (proj1 (checksum32 dict v cs Hcs)). lia.
Qed.

(** C2. From blocks to a blob and back: whatever is written, tried, sealed into batches and
    reset, no call of a blob maker of version 1 or 2 fails or panics; the blob is at most
    as long as the limit and passes the check of [Bytes]; its version is found in its first
    bytes; and decompressing it gives the list of exactly the accepted blocks, in their
    order, each with its hash, its time and its transactions. *)
Theorem blob_end_to_end v lim file `{!CompressorLaws C E (c_AugmentDict file)} ops :
  1 <= v <= 2 -> lim <= MaxUsableBytes -> Forall is_byte (c_AugmentDict file) -> size (c_AugmentDict (c_AugmentDict file)) <= MaxDictSize -> Forall op1_ok ops ->
  exists bm bm' answers A, NewVersionedBlobMaker (W := W) (R := R) v lim (Some file) = Ok bm /\ run_maker1 ops bm = (bm', Ok answers) /\ A = foldl next1 ([], []) (zip ops answers) /\
    Bytes (W := W) (R := R) range bm' = (bm', @Ok (blob1_error E) _ (currentBlob1 bm')) /\ size (currentBlob1 bm') <= Z.max 0 lim /\
    ((currentBlob1 bm' = [] /\ concat (batches A) = []) \/
     GetVersion (E := top_error E0 E) (currentBlob1 bm') = Ok v /\
     forall cs s, Checksum (W := W) (R := R) (c_AugmentDict file) v = Ok cs -> Get (W := W) (R := R) range cs v s = (s, Ok (c_AugmentDict file)) ->
       exists outs, Forall2 read_back (concat (batches A)) outs /\ DecompressBlob (W := W) (R := R) (C0 := C0) (E0 := E0) (C1 := C) (E1 := E) range spare (currentBlob1 bm') s = (s, Ok (rlp_Encode (Lst (Str <$> outs))))).
Proof.
  intros Hv Hl Hfile Hsz Hops. set (dict := c_AugmentDict file) in *. destruct (Checksum_ok (W := W) (R := R) dict v Hfile ltac:(lia)) as (cs & Hcs). destruct (NewVersioned_ok dict v cs Hv Hcs lim file Hl eq_refl Hsz) as (bm & En & Hok & Elim).
  destruct (run_maker1_ok dict v cs ops bm ([], []) Hv Hcs Hok (Forall_nil_2 _) Hops) as (bm' & answers & Er & Hok' & Hall & Elim'). set (A := foldl next1 ([], []) (zip ops answers)) in *. exists bm, bm', answers, A. split; [done|]. split; [done|]. split; [done|].
  split; [by apply (Bytes1_ok dict v cs Hv Hcs range bm' (enc_content A))|]. split; [rewrite <- Elim, <- Elim'; apply (ok1_blob_size _ _ _ _ _ Hok')|]. destruct (ok1_blob _ _ _ _ _ Hok') as [[Hnil Hb]|(body & Hs & Hpack & Hb & Hdec)].
  { left. split; [done|]. rewrite batches_enc in Hb. by apply fmap_nil_inv in Hb as ->. }
  right. split; [by apply (GetVersion_made dict v cs (enc_content A) body)|]. intros cs' s Hcs' Hget. assert (cs' = cs) as -> by congruence. rewrite concat_batches_blocks.
  assert (exists outs, Forall2 read_back (concat A.1 ++ A.2) outs /\ mapM_ (reencode (E0 := E0) (E1 := E) DecodeV1) (fmap (M := list) block_of (concat A.1 ++ A.2)) = Ok outs) as (outs & Houts & Em).
  { unfold all_read in Hall. induction Hall as [|rlp l [[out Hout] Hs1] _ (outs & IH1 & IH2)]; [by exists []|]. exists (out :: outs). split; [by constructor|]. destruct (read_back_ok rlp out Hout Hs1) as (_ & _ & _ & Ere). cbn [fmap list_fmap mapM_]. rewrite Ere. cbn [mbind outcome_bind]. by rewrite IH2. }
  exists outs. split; [done|]. pose proof (DecompressBlobVersioned_ok dict v cs Hv Hcs range (enc_content A) body (currentBlob1 bm') s Hs Hpack Hb Hdec (ok1_blocks _ _ _ _ _ Hok') (ok1_text_size _ _ _ _ _ Hok') Hget) as Ed.
  assert (concat (enc_content A).1 ++ (enc_content A).2 = fmap (M := list) block_of (concat A.1 ++ A.2)) as Ec. { unfold enc_content. cbn [fst snd]. rewrite fmap_app. f_equal. generalize (A.1). intros l. induction l as [|x l IH]; [done|]. cbn [fmap list_fmap concat]. rewrite fmap_app. f_equal. apply IH. } rewrite Ec in Ed.
  unfold DecompressBlob. rewrite (bind_call _ _ _ v) by (by apply (GetVersion_made dict v cs (enc_content A) body)). rewrite (bind_run _ _ s s (fmap (M := list) block_of (concat A.1 ++ A.2), DecodeV1)). 2: { assert (v = 1 \/ v = 2) as [-> | ->] by lia; cbn [Z.eqb Pos.eqb]; unfold DecompressBlob_v2, BlobMakerV1.DecompressBlob; rewrite (bind_run _ _ s s _ (field_run _ _ _ _ _ Ed)); done. }
  cbv beta iota. by rewrite (bind_call _ _ _ outs Em).
Qed.
End Results.

(** ** A witness *)

(** Some bytes for a block. *)
#[export] Instance some_std : StdRlp := {| rlp_EncodeStd b := Some (ParentHash b ++ [std_Time b]) |}.

Lemma timed_read_back x : is_byte x -> read_back [x] (replicate 32 0 ++ [x]).
Proof.
  intros Hx. assert (be_value [x] mod 2 ^ 64 = x) as Ex. { rewrite be_value_1. apply Z.mod_small. unfold is_u in Hx. lia. }
  exists (mkBlock x (replicate 32 0) (Some [Some a_legacy])), [(LegacyTx 0 70000 21000 None 0 (replicate 60 200) (Some 118323), replicate 20 6)]. split; [cbn [rlp_Block timed_blocks]; by rewrite Ex|]. split; [|done].
  split; [unfold is_u in *; cbn [bl_Time]; lia|]. split; [done|]. split; [by apply Forall_replicate|]. split; [done|]. exists [a_legacy]. split; [done|]. constructor; [|constructor]. split; [apply a_legacy_ok|]. split; [done|]. split; [done|by apply replicate_address].
Qed.

Lemma some_ops1_ok : Forall (op1_ok (E := lzss_error)) some_ops.
Proof.
  repeat (apply Forall_cons_2; [cbn [op1_ok]; first [done|split; [eexists; by apply timed_read_back|vm_compute; discriminate]]|]). apply Forall_nil_2.
Qed.

Lemma blob_end_to_end_witness :
  exists (bm bm' : BlobMaker1 (Compressor writer)) answers A, NewVersionedBlobMaker (W := writer) (R := reader) 2 MaxUsableBytes (Some [1; 2; 3]) = Ok bm /\ run_maker1 (R := reader) some_ops bm = (bm', Ok answers) /\ A = foldl next1 ([], []) (zip some_ops answers) /\
    Bytes (W := writer) (R := reader) values_in_order bm' = (bm', @Ok (blob1_error lzss_error) _ (currentBlob1 bm')) /\ size (currentBlob1 bm') <= Z.max 0 MaxUsableBytes /\
    ((currentBlob1 bm' = [] /\ concat (batches A) = []) \/
     GetVersion (E := top_error lzss_error lzss_error) (currentBlob1 bm') = Ok 2 /\
     forall cs s, Checksum (W := writer) (R := reader) (c_AugmentDict (CompressorOps := lzss_ops (R := reader)) [1; 2; 3]) 2 = Ok cs -> Get (W := writer) (R := reader) values_in_order cs 2 s = (s, Ok (c_AugmentDict (CompressorOps := lzss_ops (R := reader)) [1; 2; 3])) ->
       exists outs, Forall2 read_back (concat (batches A)) outs /\
         DecompressBlob (W := writer) (R := reader) (C0 := Compressor writer) (E0 := lzss_error) (C1 := Compressor writer) (E1 := lzss_error) values_in_order (fun _ => []) (currentBlob1 bm') s = (s, Ok (rlp_Encode (Lst (Str <$> outs))))).
Proof.
  apply (blob_end_to_end (W := writer) (R := reader) (C0 := Compressor writer) (E0 := lzss_error) (C := Compressor writer) (E := lzss_error) values_in_order (fun _ => []) 2 MaxUsableBytes [1; 2; 3] some_ops); [lia|apply Z.le_refl|apply bytes_check; reflexivity|vm_compute; discriminate|apply some_ops1_ok].
Defined.

(** ** A text that is scanned for ever *)

(** The length of a list can be so large that the reader moves back to the start of the
    block, which then has no length: however long the loop over the blocks of the batch
    runs, it does not end. *)
Theorem scan_never_ends {E} fuel stop : 0 < stop -> scan_batch (E := E) fuel looping_block 0 stop = Err NeverEnds.
Proof.
  intros Hs. induction fuel as [|fuel IH]; cbn [scan_batch]; rewrite (proj2 (Z.ltb_lt _ _)) by done; cbn [negb]; [done|]. rewrite slice_in by (cbn; lia). rewrite Z.sub_0_r, Nat2Z.id. rewrite take_ge by (rewrite length_drop; lia). cbn [mbind outcome_bind]. rewrite drop_0, scan_back. cbn [map_err mbind outcome_bind]. rewrite slice_in by (cbn; lia). cbn [mbind outcome_bind]. rewrite Z.add_0_r. by rewrite IH.
Qed.
