(* ===== verification/LibCompressor.v ===== *)
(** The two shared libraries that the coordinator loads:
    [prover/lib/compressor/libcompressor/libcompressor.go] and
    [libdecompressor/libdecompressor.go].

    The compressor library keeps a table of blob makers under handles.  Every call takes
    the lock of its instance, so that calls are modelled as a sequence.  A call with a
    handle that is not in the table panics. *)
From S2P Require Import Prelude BitIo GoState PackAlign TxEncoding BlockData BlockV0 BlockV1 Dictionary Compressors HeaderV0 HeaderV1 BlobMakerV0 BlobMakerV1 Blob.

(** ** libcompressor *)

(** [lastError] is a list as errors are joined; the empty list is nil. *)
Record instance (C E : Type) := mkInstance { inst_compressor : BlobMaker1 C; lastError : list (blob1_error E) }.
Arguments mkInstance {C E}.
Arguments inst_compressor {C E} _.
Arguments lastError {C E} _.

Record Registry (C E : Type) := mkRegistry { instances : gmap Z (instance C E); nextHandle : Z }.
Arguments mkRegistry {C E}.
Arguments instances {C E} _.
Arguments nextHandle {C E} _.

Section Lib.
Context {W R : Type} `{BitIo W R} `{DictHash} `{Rlp} `{BlockRlp} {C E : Type} `{CompressorOps C E}.
Context (range : gmap (list Z) (list Z) -> list (list Z)).
Abbreviation inst := (instance C E).
Abbreviation lib := (method (Registry C E) Empty_set).

(** The handle, or -1 with the error. *)
Definition Init (dataLimit : Z) (file : option (list Z)) : lib (Z + blob1_error E) := fun l =>
  match NewBlobMaker_v2 (W := W) (R := R) dataLimit file with
  | Ok blobMaker =>
      let handle := nextHandle l in
      (mkRegistry (<[handle := mkInstance blobMaker []]> (instances l)) (i32 (handle + 1)), Ok (inl handle))
  | Err e => (l, Ok (inr e))
  | Panic => (l, Panic)
  end.

Definition Free (handle : Z) : lib unit := modify (fun l => mkRegistry (delete handle (instances l)) (nextHandle l)).

(** A call on the instance of a handle. *)
Definition with_instance {A} (handle : Z) (f : method inst Empty_set A) : lib A := fun l =>
  match instances l !! handle with
  | None => (l, Panic)
  | Some i => let '(i, r) := f i in (mkRegistry (<[handle := i]> (instances l)) (nextHandle l), r)
  end.

(** Calls of the blob maker. *)
Definition on_maker (f : BlobMaker1 C -> BlobMaker1 C) (i : inst) : inst := mkInstance (f (inst_compressor i)) (lastError i).

Definition inst_Reset : method inst Empty_set unit := modify (fun i => mkInstance (Reset (inst_compressor i)) []).

(** [Write], and [CanWrite] with [forceReset]. *)
Definition inst_Write (forceReset : bool) (input : list Z) : method inst Empty_set bool := fun i =>
  match Write (R := R) input forceReset (inst_compressor i) with
  | (bm, Ok b) => (mkInstance bm (lastError i), Ok b)
  | (bm, Err e) => (mkInstance bm [e], Ok false)
  | (bm, Panic) => (mkInstance bm (lastError i), Panic)
  end.

Definition inst_Error : method inst Empty_set (list (blob1_error E)) := i ← get; mret (lastError i).
Definition inst_StartNewBatch : method inst Empty_set unit := modify (on_maker StartNewBatch).
Definition inst_Len : method inst Empty_set Z := i ← get; mret (Len (inst_compressor i)).

(** [Bytes] gives errors only by panics. *)
Definition inst_Bytes : method inst Empty_set (list Z) := fun i =>
  let '(bm, r) := Bytes (W := W) (R := R) (E := E) range (inst_compressor i) in (mkInstance bm (lastError i), must r).

(** The three estimates: -1 on an error, which is joined with the ones before. *)
Definition estimate (f : BlobMaker1 C -> outcome (blob1_error E) Z) : method inst Empty_set Z := fun i =>
  match f (inst_compressor i) with
  | Ok n => (i, Ok (i32 n))
  | Err e => (mkInstance (inst_compressor i) (lastError i ++ [e]), Ok (-1))
  | Panic => (i, Panic)
  end.

Definition inst_WorstBlock (input : list Z) : method inst Empty_set Z := estimate (fun bm => '(_, n) ← WorstCompressedBlockSize bm input; Ok n).
Definition inst_WorstTx (input : list Z) : method inst Empty_set Z := estimate (fun bm => WorstCompressedTxSize bm input).
Definition inst_RawSize (input : list Z) : method inst Empty_set Z := estimate (fun bm => RawCompressedSize bm input).

(** The calls and their answers. *)
Inductive lib_call :=
| CReset | CWrite (input : list Z) | CCanWrite (input : list Z) | CError | CStartNewBatch | CLen | CBytes
| CWorstBlock (input : list Z) | CWorstTx (input : list Z) | CRawSize (input : list Z).

Inductive lib_answer :=
| AUnit | ABool (b : bool) | AErrors (es : list (blob1_error E)) | AInt (n : Z) | ABytes (b : list Z).

Definition inst_call (c : lib_call) : method inst Empty_set lib_answer :=
  match c with
  | CReset => _ ← inst_Reset; mret AUnit
  | CWrite input => b ← inst_Write false input; mret (ABool b)
  | CCanWrite input => b ← inst_Write true input; mret (ABool b)
  | CError => es ← inst_Error; mret (AErrors es)
  | CStartNewBatch => _ ← inst_StartNewBatch; mret AUnit
  | CLen => n ← inst_Len; mret (AInt n)
  | CBytes => b ← inst_Bytes; mret (ABytes b)
  | CWorstBlock input => n ← inst_WorstBlock input; mret (AInt n)
  | CWorstTx input => n ← inst_WorstTx input; mret (AInt n)
  | CRawSize input => n ← inst_RawSize input; mret (AInt n)
  end.

(** What the coordinator does with the library. *)
Inductive lib_op :=
| LInit (dataLimit : Z) (file : option (list Z))
| LFree (handle : Z)
| LCall (handle : Z) (c : lib_call).

Definition run_lib_op (o : lib_op) : lib (option lib_answer) :=
  match o with
  | LInit dataLimit file => r ← Init dataLimit file; mret None
  | LFree handle => _ ← Free handle; mret None
  | LCall handle c => a ← with_instance handle (inst_call c); mret (Some a)
  end.

Fixpoint run_lib (ops : list lib_op) : lib (list (option lib_answer)) :=
  match ops with
  | [] => mret []
  | o :: ops => a ← run_lib_op o; answers ← run_lib ops; mret (a :: answers)
  end.

(** ** Independence *)

(** The calls on one handle, and their answers. *)
Definition own_call (h : Z) (o : lib_op) : option lib_call := match o with LCall h' c => if decide (h' = h) then Some c else None | _ => None end.

Fixpoint run_calls (cs : list lib_call) : method inst Empty_set (list lib_answer) :=
  match cs with
  | [] => mret []
  | c :: cs => a ← inst_call c; answers ← run_calls cs; mret (a :: answers)
  end.

Definition own_answers (h : Z) (ops : list lib_op) (answers : list (option lib_answer)) : list lib_answer :=
  omap (fun oa => match own_call h oa.1 with Some _ => oa.2 | None => None end) (zip ops answers).

(** The handles are below the next one. *)
Definition registry_ok (l : Registry C E) : Prop := 1 <= nextHandle l /\ forall h i, instances l !! h = Some i -> h < nextHandle l.

(** An operation that is not a call on [h] leaves its instance alone. *)
Lemma other_op h o l l' a i :
  registry_ok l -> nextHandle l < 2 ^ 31 - 1 -> instances l !! h = Some i -> o <> LFree h -> own_call h o = None -> run_lib_op o l = (l', Ok a) -> instances l' !! h = Some i.
Proof.
  intros [_ Hlt] Hn Hi Hf Hown Hrun. destruct o as [lim file|h'|h' c]; cbn [run_lib_op own_call] in *.
  - unfold Init in Hrun. unfold mbind, method_bind in Hrun. destruct (NewBlobMaker_v2 lim file) as [bm|e|]; [|by injection Hrun as <- _|done]. injection Hrun as <- _. cbn [instances]. rewrite lookup_insert_ne; [done|]. specialize (Hlt h i Hi). lia.
  - injection Hrun as <- _. cbn [instances]. rewrite lookup_delete_ne; [done|]. by intros ->.
  - destruct (decide (h' = h)) as [->|Hne]; [done|]. unfold with_instance, mbind, method_bind in Hrun. destruct (instances l !! h') as [i'|]; [|done]. destruct (inst_call c i') as [i1 [r|e|]]; [|destruct e|done]. injection Hrun as <- _. cbn [instances]. by rewrite lookup_insert_ne.
Qed.

Lemma registry_step o l l' a : registry_ok l -> nextHandle l < 2 ^ 31 - 1 -> run_lib_op o l = (l', Ok a) -> registry_ok l' /\ nextHandle l' <= nextHandle l + 1.
Proof.
  intros [H1' Hlt] Hn Hrun. destruct o as [lim file|h'|h' c]; cbn [run_lib_op] in *.
  - unfold Init in Hrun. unfold mbind, method_bind in Hrun. destruct (NewBlobMaker_v2 lim file) as [bm|e|]; [|injection Hrun as <- _; split; [done|lia]|done]. injection Hrun as <- _. rewrite swrap_small by (unfold is_i; lia). split; [split; cbn [nextHandle instances]; [lia|]|cbn [nextHandle]; lia].
    intros h i Hh. apply lookup_insert_Some in Hh as [[<- _]|[_ Hh]]; [lia|]. specialize (Hlt h i Hh). lia.
  - injection Hrun as <- _. split; [split; [done|]|cbn [nextHandle]; lia]. cbn [instances nextHandle]. intros h i Hh. apply lookup_delete_Some in Hh as [_ Hh]. by apply (Hlt h i).
  - unfold with_instance, mbind, method_bind in Hrun. destruct (instances l !! h') as [i'|] eqn:Ei; [|done]. destruct (inst_call c i') as [i1 [r|e|]]; [|destruct e|done]. injection Hrun as <- _. split; [split; [done|]|cbn [nextHandle]; lia]. cbn [instances nextHandle]. intros h i Hh. apply lookup_insert_Some in Hh as [[<- _]|[_ Hh]]; [by apply (Hlt h' i')|by apply (Hlt h i)].
Qed.

End Lib.

(** ** libdecompressor *)

(** [strings.Split(paths, ":")] on bytes. *)
Fixpoint split_colon (s cur : list Z) : list (list Z) :=
  match s with
  | [] => [cur]
  | c :: s => if c =? 58 then cur :: split_colon s [] else split_colon s (cur ++ [c])
  end.

Inductive decompressor_error (E0 E1 : Type) :=
| LoadError (e : dict_error)
| DecompressError (e : top_error E0 E1)
| DoesNotFit.
Arguments LoadError {E0 E1} _.
Arguments DecompressError {E0 E1} _.
Arguments DoesNotFit {E0 E1}.

(** The two global variables. *)
Record Decompressor (E0 E1 : Type) := mkDecompressor { d_dictStore : Store; d_lastError : option (decompressor_error E0 E1) }.
Arguments mkDecompressor {E0 E1}.
Arguments d_dictStore {E0 E1} _.
Arguments d_lastError {E0 E1} _.

Section LibDecompressor.
Context {W R : Type} `{BitIo W R} `{DictHash} `{Rlp} `{Geth} `{StdRlp}.
Context {C0 E0 C1 E1 : Type} `{CompressorOps C0 E0} `{CompressorOps C1 E1}.
Context (range : gmap (list Z) (list Z) -> list (list Z)) (spare : list Z -> list Z) (ReadFile : list Z -> option (list Z)).
Abbreviation declib := (method (Decompressor E0 E1) Empty_set).

Definition d_Init : declib unit := fun d =>
  match NewStore (W := W) (R := R) ReadFile [] with
  | Ok s => (mkDecompressor s (d_lastError d), Ok tt)
  | _ => (d, Panic)
  end.

(** The number of dictionaries, or -1. *)
Definition LoadDictionaries (dictPaths : list Z) : declib Z := fun d =>
  let paths := split_colon dictPaths [] in
  match Load (W := W) (R := R) ReadFile paths (d_dictStore d) with
  | (s, Ok _) => (mkDecompressor s (d_lastError d), Ok (i32 (size paths)))
  | (s, Err e) => (mkDecompressor s (Some (LoadError e)), Ok (-1))
  | (s, Panic) => (mkDecompressor s (d_lastError d), Panic)
  end.

(** The number of bytes and the bytes, or -1. *)
Definition d_Decompress (blob : list Z) (outMaxLength : Z) : declib (Z * list Z) := fun d =>
  match DecompressBlob (W := W) (R := R) (C0 := C0) (E0 := E0) (C1 := C1) (E1 := E1) range spare blob (d_dictStore d) with
  | (s, Ok blocks) =>
      if outMaxLength <? size blocks then (mkDecompressor s (Some DoesNotFit), Ok (-1, []))
      else (mkDecompressor s (d_lastError d), Ok (i32 (size blocks), blocks))
  | (s, Err e) => (mkDecompressor s (Some (DecompressError e)), Ok (-1, []))
  | (s, Panic) => (mkDecompressor s (d_lastError d), Panic)
  end.

Definition d_Error : declib (option (decompressor_error E0 E1)) := d ← get; mret (d_lastError d).
End LibDecompressor.
