(* ===== verification/LibResults.v ===== *)
(** The compressor library at work: two blob makers in one table, of which one is freed
    while the other is used. *)
From S2P Require Import Prelude BitIo GoState SuffixArray Lzss LzssState PackAlign PackTheorems TxEncoding RlpCodec BlockData BlockV0 BlockV1 BlockResults Dictionary Compressors HeaderV0 HeaderV1 BlobMakerV0 BlobMakerTheorems BlobMakerResults BlobMakerV1 BlobMaker1Theorems Blob BlobResults LibCompressor.

Abbreviation lzss_maker := (BlobMaker1 (Compressor writer)).

Lemma a_maker : exists bm : lzss_maker, NewBlobMaker_v2 (W := writer) (R := reader) (E := lzss_error) MaxUsableBytes (Some [1; 2; 3]) = Ok bm.
Proof.
  assert (Forall is_byte (c_AugmentDict (CompressorOps := lzss_ops (R := reader)) [1; 2; 3])) as Hb by (apply bytes_check; reflexivity).
  destruct (Checksum_ok (W := writer) (R := reader) _ 2 Hb ltac:(lia)) as (cs & Hcs).
  destruct (NewVersioned_ok (C := Compressor writer) (E := lzss_error) _ 2 cs ltac:(lia) Hcs MaxUsableBytes [1; 2; 3] (Z.le_refl _) eq_refl ltac:(vm_compute; discriminate)) as (bm & E & _). by exists bm.
Qed.

(** Two instances of one blob maker. *)
Definition two_instances (bm : lzss_maker) : Registry (Compressor writer) lzss_error := mkRegistry {[1 := mkInstance bm []; 2 := mkInstance bm []]} 3.

Definition some_lib_ops : list lib_op := [LCall 1 CStartNewBatch; LFree 2; LCall 1 CLen; LInit 0 None; LCall 1 CError].

Lemma two_instances_ok bm : registry_ok (two_instances bm).
Proof.
  split; [cbn; lia|]. intros h i Hi. unfold two_instances in *. cbn [instances nextHandle] in *. apply lookup_insert_Some in Hi as [[<- _]|[_ Hi]]; [lia|]. apply lookup_singleton_Some in Hi as [<- _]. lia.
Qed.

